(* ===== verification/_CoqProject ===== *)
-Q . S2P
Prelude.v
Collections.v
SortedVec.v
Abi.v
Capability.v
PhysMem.v
Memory.v
Buddy.v
BuddyInv.v
BuddyInit.v
BuddySystem.v
Pools.v
Paging.v
PageTables.v
AddressSpace.v
Storage.v
Prog.v
BlockDevice.v
Wal.v
BlockEngine.v
BlockStore.v
Recovery.v
StoreProps.v
ObjectStore.v
ObjectLaws.v
ObjectProps.v
SpaceLaws.v
Posix.v
PosixProps.v
Input.v
Utf8.v
Compositor.v
Windows.v
WindowsProps.v
Render.v
RenderProps.v
Act.v
Task.v
Sched.v
KernelCap.v
Channels.v
Notify.v
Ipc.v
Shmem.v
Process.v
Syscall.v
KernelInv.v
KernelLogic.v
SchedSafe.v
ChannelSafe.v
IpcSafe.v
MemSafe.v
SyscallSafe.v
KernelProps.v
SyscallProps.v
SchedProps.v
IpcProps.v
Text.v
OwnerStamp.v
Tripwire.v
TripwireLog.v
TripwireProps.v
LogText.v
LogRing.v
LogInv.v
LogProps.v
LogDrain.v
IrqLock.v
LockMachine.v
LockLogic.v
LockCode.v
LockInv.v
LockProps.v
Slab.v
SlabInv.v
SlabHeap.v
SlabKernel.v
SlabProps.v
