(* ===== verification/Prelude.v ===== *)
(** * AIOS: a verification library

    AIOS is an operating system for aarch64 written in Rust: a kernel
    (kernel/), the types and pure logic it shares with its tools (shared/), a
    UEFI loader (uefi-stub/) and the tools of its development (tools/).  This
    library is a shallow embedding of the kernel's core and of the shared code:
    every modelled function is a Rocq definition with the source's name,
    executable where the source is, and the theorems are about these
    definitions.  Paths below are under src/.

    ** Conventions

    Machine integers are [Z]; a value of w bits satisfies [uint w], and
    wrapping, checked and saturating arithmetic are written out ([wrap],
    [checked_add], [saturating_sub] of this file).  A panic, an arithmetic
    overflow, a failed debug assertion or an index out of range is [None]
    ([l.[i]] and [l.[i <- x]] are array accesses); errors the code returns are
    values of its own error types.  The build with overflow checks and debug
    assertions is the one modelled.  Loops that are not structural take fuel,
    and the theorems show that the fuel given is enough: none of them is only
    about runs that end.  Code that is not in the repository (AES-GCM and
    SHA-256, LZ4, the devices) enters as a class with the documented
    behaviour as laws, and a witness instantiates it.

    ** The parts and their files

    - Shared data structures and ABI.  [Collections] (shared/src/collections.rs:
      FixedQueue, RingBuffer), [SortedVec] (the binary search of the storage
      indexes), [Abi] (shared/src/syscall.rs, ipc.rs, sched.rs: error codes,
      argument decoding, select entries, deadlines, CPU sets), [Capability]
      (shared/src/cap.rs: tokens, attenuation, revocation).
    - Physical memory.  [PhysMem] is memory as a map of bytes; [Memory]
      (shared/src/memory.rs, kaslr.rs); [Buddy] (kernel/src/mm/buddy.rs: free
      lists and bitmap stored in the memory they manage), with its invariant
      and operations in [BuddyInv], initialization in [BuddyInit] and client
      runs in [BuddySystem]; [Pools] (kernel/src/mm/pools.rs, frame.rs).
    - Kernel heap.  [Slab] (kernel/src/mm/slab.rs, bump.rs, heap.rs, mod.rs)
      over the interface [PageSource]; [SlabInv] and [SlabHeap] have its
      invariant and operations against [PageSourceLaws], [SlabKernel]
      discharges those laws with the frame allocator, [SlabProps] has the runs.
    - Virtual memory.  [Paging] (kernel/src/mm/asid.rs, pgtable.rs),
      [PageTables] (the table walk of the hardware and the code that extends
      tables), [AddressSpace] (kernel/src/mm/uspace.rs).
    - Storage.  [Storage] (shared/src/storage.rs), [Prog] (a state and error
      monad), [BlockDevice] (kernel/src/drivers/virtio_blk.rs and the interface
      of the device), [Wal] (kernel/src/storage/wal.rs), [BlockEngine]
      (crypto.rs, block_engine.rs), [BlockStore], [Recovery] and [StoreProps]
      (what is written is read back, also after a reboot), [ObjectStore]
      (object_store.rs, version_store.rs, space.rs, budget.rs) with
      [ObjectLaws], [ObjectProps] and [SpaceLaws], [Posix] (posix_bridge.rs)
      with [PosixProps].
    - Compositor and input.  [Input] (shared/src/input.rs, kernel input),
      [Compositor] (shared/src/compositor.rs), [Windows] and [Render]
      (kernel/src/compositor), with [WindowsProps] and [RenderProps]; [Utf8] is
      the standard library's text check.
    - Threads, scheduler, IPC, processes, system calls.  [Act] is the form of
      kernel code; [Task] the shared state (kernel/src/task, the tables of
      sched and ipc); [Sched] (kernel/src/sched), [KernelCap]
      (kernel/src/cap), [Channels] (kernel/src/ipc/mod.rs, timeout.rs,
      direct.rs), [Notify] (notify.rs), [Ipc] (channel.rs, select.rs), [Shmem]
      (shmem.rs), [Process] (task/process.rs, service/mod.rs), [Syscall]
      (kernel/src/syscall, timer.rs).  [KernelInv] is the invariant,
      [KernelLogic] the program logic, the *Safe files one proof per
      operation, [KernelProps], [SyscallProps], [SchedProps], [IpcProps] the
      results.
    - Locks.  [OwnerStamp] and [IrqLock] (shared/src/lock.rs,
      kernel/src/sync/irq_spin_lock.rs) as code of single memory accesses,
      [LockMachine] the machine of CPUs, threads, IRQs and dispatches that runs
      it, [LockLogic], [LockCode] and [LockInv] its invariant, [LockProps] the
      results.
    - Observability.  [Text] (number output, line splitting), [Tripwire]
      (shared/src/tripwire.rs), [TripwireLog] (tools/src/cmd/soak/tripwire.rs)
      and [TripwireProps]; [LogText] (shared/src/observability.rs), [LogRing]
      (the ring of kernel/src/observability/mod.rs, one access at a time),
      [LogInv], [LogProps] and [LogDrain].

    The kernel operations call the frame allocator of [Pools], the tables of
    [Capability] and the queues of [Collections]; the heap runs over the frame
    allocator; address spaces take their tables from it; objects run over the
    block engine, which runs over the log and the device.

    ** How concurrency is modelled

    Kernel code ([Act]) is a tree of critical sections.  A section runs under
    its locks and is one step; between two sections any other task may run.  A
    thread that is switched out waits ([Await]) until a CPU runs it again; a
    CPU that faults, or leaves a context nobody saved, stops ([Stop]).  That
    the locks give this atomicity is not assumed of the IRQ-class locks but
    shown, one access at a time, in [LockProps]; a section that takes a lock it
    holds is outside the model of sections and is what the re-entry theorems
    are about.  What hardware and other software decide is an environment
    ([env]), chosen anew at each section: CPU, time, saved registers, user
    memory and which of it is accessible.  [env_ok] says what the code relies
    on; it includes that TTBR0 holds the calling process's mappings, which
    kernel/src/syscall/user.rs requires and does not establish.

    The lock machine and the log ring interleave single accesses under
    sequential consistency.  The lock machine follows the kernel's dispatch
    rules (a) to (c) of irq_spin_lock.rs and makes fewer than 2^54 dispatches
    per CPU; a thread's id and the switch generation are read at the CPU the
    code runs on.  The log ring has one drain at a time and loses fewer than
    2^32 messages between two reports.  The heap's lock makes each heap call
    one step.

    ** What the theorems show

    - The running kernel: no section of any run panics, the invariant holds,
      message queues are FIFO, user memory blocks do not overlap and are never
      writable and executable ([KernelProps]); what a system call can return
      ([SyscallProps]); capability checks, message round trips, revocation and
      priority inheritance ([IpcProps]); run queues refine priority queues
      ([SchedProps]).
    - Allocators: held blocks and objects are aligned, disjoint and kept;
      exact effects of allocation and free, error paths included
      ([BuddySystem], [SlabProps]).  Physical memory ends below 2^47, so that
      direct-map addresses fit in 64 bits.  A heap call runs on a CPU with or
      without TTBR0's identity map, and an access it cannot make is a fault.
    - Address spaces: mapping a page changes exactly that translation; there is
      no TLB in the model ([AddressSpace]).
    - Storage: the log refines a bounded list ([Wal]); blocks are stored, kept
      on failures and recovered by a reboot ([StoreProps]); objects refine
      version histories and spaces account for them ([ObjectProps],
      [SpaceLaws]); POSIX writes splice ([PosixProps]).
    - Compositor: its state stays consistent, requests touch only their own
      windows, and a frame is the painter's order of its windows
      ([WindowsProps], [RenderProps]).
    - Locks: exclusion, no false re-entry panic, every masked re-entry caught
      within 15 accesses, and the exact answer of the check of rule (b)
      ([LockProps]).
    - Logs and tripwires: the ring refines a queue with counted losses, lines
      are printed whole and in order, and the soak tool reads back what the
      kernel printed ([LogProps], [LogDrain], [TripwireLog],
      [TripwireProps]).
    - Capabilities: revocation and authorization are exact ([Capability]).

    A property's comment names it (C1, C2, ...) and states it; its witness
    applies it to a concrete state.

    ** Fuel

    Loops with fuel: the free-list walk of [Slab.convert_chain] has the slots
    of the cache's pages; [LogDrain.drain_ring] 17 turns for its batch of 16;
    the walks of the log and of recovery the entries between tail and head;
    the split and merge of [Buddy] its eleven orders; the cascade of
    [Capability] its 256 slots.  The lock's spinning loops have any fuel and
    end in [Spin], the loop itself: a finite run goes around finitely often.

    ** What is not modelled

    Assembly, device and system registers, interrupt controller, boot order and
    device tree, the kernel's own page tables (kmap.rs) and TLB maintenance,
    the GPU and input drivers, metrics and traces that no modelled code reads,
    the UEFI loader, and the developer tools other than the tripwire log
    reader: these drive hardware or other programs, or change no state that
    the modelled code depends on.  Weak memory ordering is not modelled.  Thread
    creation and entry, the IPC kit wrappers and the echo
    service are left out of the files that model their neighbours. *)

From Stdlib Require Export ZArith Lia.
From stdpp Require Export base tactics numbers list option sets relations.

(** ** Scopes and hint databases *)

Declare Scope aios_scope.
Delimit Scope aios_scope with aios.
#[global] Open Scope aios_scope.
#[global] Open Scope Z_scope.

Create HintDb aios discriminated.
Create Rewrite HintDb aios_rw.
Create Rewrite HintDb aios_len.

(** ** Fallible code: [Result<A, E>] *)

Inductive result (E A : Type) : Type :=
| Ok (a : A)
| Err (e : E).
Arguments Ok {E A} _.
Arguments Err {E A} _.

#[export] Instance result_ret E : MRet (result E) := fun A a => Ok a.
#[export] Instance result_bind E : MBind (result E) := fun A B f m =>
  match m with Ok a => f a | Err e => Err e end.
#[export] Instance result_fmap E : FMap (result E) := fun A B f m =>
  match m with Ok a => Ok (f a) | Err e => Err e end.

#[export] Instance result_eq_dec {E A} `{EqDecision E} `{EqDecision A} :
  EqDecision (result E A).
Proof. solve_decision. Defined.

(** [is_ok r] is Rust's [Result::is_ok]. *)
Definition is_ok {E A} (r : result E A) : bool :=
  match r with Ok _ => true | Err _ => false end.

(** [ok_or o e] is Rust's [Option::ok_or]. *)
Definition ok_or {E A} (o : option A) (e : E) : result E A :=
  match o with Some a => Ok a | None => Err e end.

Lemma result_bind_ok {E A B} (m : result E A) (f : A -> result E B) b :
  m ≫= f = Ok b <-> exists a, m = Ok a /\ f a = Ok b.
Proof. destruct m; cbn; naive_solver. Qed.

(** ** Machine integers

    A [w]-bit unsigned integer is a [Z] in [[0, 2^w)]; the wrap-around, the
    checked and the saturating operations are written out. *)

Definition uint (w n : Z) : Prop := 0 <= n < 2 ^ w.
Definition umax (w : Z) : Z := 2 ^ w - 1.
Definition wrap (w n : Z) : Z := n mod 2 ^ w.
Definition wrapping_add (w a b : Z) : Z := wrap w (a + b).
Definition wrapping_sub (w a b : Z) : Z := wrap w (a - b).
Definition checked_add (w a b : Z) : option Z :=
  if a + b <? 2 ^ w then Some (a + b) else None.
Definition saturating_add (w a b : Z) : Z := Z.min (a + b) (umax w).
Definition saturating_sub (a b : Z) : Z := Z.max 0 (a - b).
Definition div_ceil (a b : Z) : Z := (a + b - 1) / b.
Definition align_down (a b : Z) : Z := a - a mod b.
Definition align_up (a b : Z) : Z := align_down (a + b - 1) b.

#[export] Instance uint_dec w n : Decision (uint w n).
Proof. unfold uint. apply _. Defined.

Lemma uint_wrap w n : 0 <= w -> uint w (wrap w n).
Proof.
  intros. unfold uint, wrap. apply Z.mod_pos_bound. apply Z.pow_pos_nonneg; lia.
Qed.

Lemma wrap_small w n : uint w n -> wrap w n = n.
Proof. unfold uint, wrap. intros. by apply Z.mod_small. Qed.

Lemma checked_add_Some w a b s :
  checked_add w a b = Some s <-> s = a + b /\ a + b < 2 ^ w.
Proof. unfold checked_add. case_match; naive_solver lia. Qed.

Lemma checked_add_None w a b : checked_add w a b = None <-> 2 ^ w <= a + b.
Proof. unfold checked_add. case_match; naive_solver lia. Qed.

#[export] Hint Resolve uint_wrap wrap_small : aios.

(** [divmod] decides goals with [/] and [mod] by constants. *)
Ltac divmod := Z.to_euclidean_division_equations; nia.
Ltac divlia := Z.to_euclidean_division_equations; lia.

(** Case analysis on the first boolean test or match of the goal. *)
Ltac cases := repeat (case_match; simplify_eq/=; try done).

(** ** Arrays: lists indexed by a [Z] *)

Definition aget {A} (l : list A) (i : Z) : option A := l !! Z.to_nat i.
Definition aset {A} (l : list A) (i : Z) (x : A) : list A := <[Z.to_nat i := x]> l.
Definition alen {A} (l : list A) : Z := Z.of_nat (length l).

Notation "l .[ i ]" := (aget l i) (at level 1, left associativity,
  format "l .[ i ]") : aios_scope.
Notation "l .[ i <- x ]" := (aset l i x) (at level 1, left associativity,
  format "l .[ i  <-  x ]") : aios_scope.

Section arrays.
Context {A : Type}.
Implicit Types (l : list A) (i j : Z) (x : A).

Lemma alen_nonneg l : 0 <= alen l.
Proof. unfold alen. lia. Qed.

Lemma alen_aset l i x : alen (aset l i x) = alen l.
Proof. unfold alen, aset. by rewrite length_insert. Qed.

Lemma aget_aset_eq l i x : 0 <= i < alen l -> aget (aset l i x) i = Some x.
Proof. unfold alen, aget, aset. intros. apply list_lookup_insert_eq. lia. Qed.

Lemma aget_aset_ne l i j x :
  0 <= i -> 0 <= j -> i <> j -> aget (aset l i x) j = aget l j.
Proof. unfold aget, aset. intros. apply list_lookup_insert_ne. lia. Qed.

Lemma aget_lt l i x : 0 <= i -> aget l i = Some x -> i < alen l.
Proof. unfold aget, alen. intros ? ?%lookup_lt_Some. lia. Qed.

Lemma alen_nil : alen (@nil A) = 0.
Proof. done. Qed.

Lemma alen_cons x l : alen (x :: l) = alen l + 1.
Proof. unfold alen. cbn. lia. Qed.

Lemma alen_app l1 l2 : alen (l1 ++ l2) = alen l1 + alen l2.
Proof. unfold alen. rewrite length_app. lia. Qed.

Lemma aget_snoc l i x v :
  0 <= i -> (l ++ [x]).[i] = Some v ->
  (i < alen l /\ l.[i] = Some v) \/ (i = alen l /\ v = x).
Proof.
  unfold aget, alen. intros ? [H|[? H]]%lookup_app_Some.
  - left. split; [|done]. apply lookup_lt_Some in H. lia.
  - right. apply list_lookup_singleton_Some in H as [? ->]. split; [lia|done].
Qed.

Lemma aget_cons_0 l x : (x :: l).[0] = Some x.
Proof. done. Qed.

Lemma aget_cons_S l x i : 0 <= i -> (x :: l).[i + 1] = l.[i].
Proof. unfold aget. intros. by replace (Z.to_nat (i + 1)) with (S (Z.to_nat i)) by lia. Qed.

Lemma aget_nil i : aget (@nil A) i = None.
Proof. unfold aget. apply lookup_nil. Qed.

Lemma aget_is_Some l i : 0 <= i < alen l -> is_Some (aget l i).
Proof. unfold aget, alen. intros. apply lookup_lt_is_Some_2. lia. Qed.
End arrays.

#[export] Hint Rewrite @alen_aset @alen_nil @alen_cons @alen_app : aios_rw.

(** [replicate] at a [Z] length: a Rust array literal [[x; n]]. *)
Definition array_of {A} (n : Z) (x : A) : list A := replicate (Z.to_nat n) x.

Lemma alen_array_of {A} n (x : A) : 0 <= n -> alen (array_of n x) = n.
Proof. intros. unfold alen, array_of. rewrite length_replicate. lia. Qed.

Lemma aget_array_of {A} n i (x : A) :
  0 <= i < n -> (array_of n x).[i] = Some x.
Proof. unfold aget, array_of. intros. apply lookup_replicate_2. lia. Qed.

(** ** Little-endian integers ([to_le_bytes], [from_le_bytes]) *)

Definition is_byte (b : Z) : Prop := 0 <= b < 256.

Fixpoint le_val (bs : list Z) : Z :=
  match bs with [] => 0 | b :: bs' => b + 256 * le_val bs' end.

Fixpoint le_bytes (n : nat) (z : Z) : list Z :=
  match n with O => [] | S n' => z mod 256 :: le_bytes n' (z / 256) end.

Lemma length_le_bytes n z : length (le_bytes n z) = n.
Proof. revert z. induction n as [|n IH]; intros; cbn; [done|]. by rewrite IH. Qed.

Lemma le_bytes_bytes n z : Forall is_byte (le_bytes n z).
Proof.
  revert z. induction n as [|n IH]; intros; cbn; constructor; [|done].
  unfold is_byte. apply Z.mod_pos_bound. lia.
Qed.

Lemma le_val_le_bytes n z : le_val (le_bytes n z) = z mod 256 ^ Z.of_nat n.
Proof.
  revert z. induction n as [|n IH]; intros; cbn [le_bytes le_val].
  - by rewrite Z.pow_0_r, Z.mod_1_r.
  - rewrite IH, Nat2Z.inj_succ, Z.pow_succ_r by lia.
    rewrite Z.rem_mul_r by (try apply Z.pow_pos_nonneg; lia). lia.
Qed.

Lemma le_val_small n z : 0 <= z < 256 ^ Z.of_nat n -> le_val (le_bytes n z) = z.
Proof. intros. rewrite le_val_le_bytes. by apply Z.mod_small. Qed.

Lemma le_val_bound bs : Forall is_byte bs -> 0 <= le_val bs < 256 ^ Z.of_nat (length bs).
Proof.
  induction 1 as [|b bs Hb _ IH]; cbn [le_val length]; [lia|].
  rewrite Nat2Z.inj_succ, Z.pow_succ_r by lia. unfold is_byte in Hb. nia.
Qed.

Lemma le_bytes_le_val bs : Forall is_byte bs -> le_bytes (length bs) (le_val bs) = bs.
Proof.
  induction 1 as [|b bs Hb _ IH]; cbn [le_val length le_bytes]; [done|].
  unfold is_byte in Hb. rewrite (Z.mul_comm 256), Z.mod_add, Z.div_add by lia.
  by rewrite Z.mod_small, Z.div_small, Z.add_0_l, IH by lia.
Qed.

#[export] Hint Resolve le_bytes_bytes : aios.
#[export] Hint Rewrite length_le_bytes : aios_rw.

(** ** Bit operations at a width *)

(** Rust's [!x] on a [w]-bit unsigned integer. *)
Definition unot (w x : Z) : Z := Z.lxor x (Z.ones w).

Lemma unot_spec w x i :
  0 <= i < w -> Z.testbit (unot w x) i = negb (Z.testbit x i).
Proof.
  intros. unfold unot. rewrite Z.lxor_spec, Z.ones_spec_low by lia. by destruct (Z.testbit x i).
Qed.

Lemma uint_testbit_high w x i : uint w x -> 0 <= w <= i -> Z.testbit x i = false.
Proof.
  intros Hx ?. rewrite <-(Z.mod_small x (2 ^ w)) by done. apply Z.mod_pow2_bits_high. lia.
Qed.

(** A value has no bit outside a low mask [2^k - 1] iff it is below [2^k]. *)
Lemma land_unot_ones w k x :
  uint w x -> 0 <= k <= w -> Z.land x (unot w (Z.ones k)) = 0 <-> x < 2 ^ k.
Proof.
  intros Hx Hk. split.
  - intros H. destruct (Z.lt_ge_cases x (2 ^ k)) as [|Hge]; [done|exfalso].
    assert (Hl : k <= Z.log2 x) by (apply Z.log2_le_pow2; [|lia];
      pose proof (Z.pow_pos_nonneg 2 k); lia).
    assert (0 < x) by (pose proof (Z.pow_pos_nonneg 2 k); lia).
    assert (Z.log2 x < w) by (apply Z.log2_lt_pow2; [lia|apply Hx]).
    assert (E : Z.testbit (Z.land x (unot w (Z.ones k))) (Z.log2 x) = false)
      by (rewrite H; apply Z.testbit_0_l).
    rewrite Z.land_spec, Z.bit_log2, unot_spec, Z.ones_spec_high in E by lia. done.
  - intros H. apply Z.bits_inj'. intros i Hi. rewrite Z.testbit_0_l, Z.land_spec.
    destruct (Z.lt_ge_cases i k).
    + rewrite unot_spec, Z.ones_spec_low by lia. apply andb_false_r.
    + rewrite (uint_testbit_high k x i); [done| |lia]. split; [apply Hx|done].
Qed.

(** ** Tables: arrays of optional slots *)

(** The index of the first empty slot, as the [for slot in table.iter_mut()]
    loops look for it. *)
Fixpoint first_none {A} (l : list (option A)) : option nat :=
  match l with
  | [] => None
  | None :: _ => Some O
  | Some _ :: l' => S <$> first_none l'
  end.

(** Rust's [iter().position(f)]. *)
Fixpoint position {A} (f : A -> bool) (l : list A) : option nat :=
  match l with
  | [] => None
  | x :: l' => if f x then Some O else S <$> position f l'
  end.

Lemma position_Some {A} (f : A -> bool) l i :
  position f l = Some i ->
  exists x, l !! i = Some x /\ f x = true /\ forall j y, (j < i)%nat -> l !! j = Some y -> f y = false.
Proof.
  revert i. induction l as [|x l IH]; intros i; cbn; [done|]. destruct (f x) eqn:E.
  - intros [= <-]. exists x. split_and!; [done..|]. intros; lia.
  - rewrite fmap_Some. intros (j & (y & Hy & Hf & Hlt)%IH & ->). exists y. split_and!; [done..|].
    intros [|j'] z Hj Hz; [naive_solver|]. apply (Hlt j'); [lia|done].
Qed.

Lemma position_None {A} (f : A -> bool) l : position f l = None <-> forall x, x ∈ l -> f x = false.
Proof.
  induction l as [|x l IH]; cbn; [split; [intros _ y Hy; by apply not_elem_of_nil in Hy|done]|].
  destruct (f x) eqn:E.
  - split; [done|]. intros H. rewrite H in E by (apply elem_of_cons; by left). done.
  - rewrite fmap_None, IH. setoid_rewrite elem_of_cons. naive_solver.
Qed.

Section tables.
Context {A : Type}.
Implicit Types (l : list (option A)).

Lemma first_none_Some l i :
  first_none l = Some i <->
  l !! i = Some None /\ forall j, (j < i)%nat -> exists x, l !! j = Some (Some x).
Proof.
  revert i. induction l as [|[x|] l IH]; intros i; cbn.
  - naive_solver.
  - rewrite fmap_Some. split.
    + intros (k & [Hk Hlt]%IH & ->). split; [done|]. intros [|j] ?; [by exists x|].
      apply Hlt. lia.
    + intros [Hi Hlt]. destruct i as [|i]; [done|]. exists i. split; [|done].
      apply IH. split; [done|]. intros j ?. apply (Hlt (S j)). lia.
  - split.
    + intros [= <-]. split; [done|]. intros; lia.
    + intros [Hi Hlt]. destruct i as [|i]; [done|]. by destruct (Hlt O ltac:(lia)).
Qed.

Lemma first_none_None l : first_none l = None <-> forall o, o ∈ l -> is_Some o.
Proof.
  induction l as [|[x|] l IH]; cbn.
  - split; [|done]. intros _ o Ho. by apply not_elem_of_nil in Ho.
  - rewrite fmap_None, IH. split.
    + intros H o [->|?]%elem_of_cons; [done|by apply H].
    + intros H o ?. apply H. by apply elem_of_cons; right.
  - split; [done|]. intros H. destruct (H None) as [? ?]; [|done]. by apply elem_of_cons; left.
Qed.

(** The occupied slots, in order: Rust's [iter().flatten()]. *)
Definition occupied l : list A := omap id l.

Lemma elem_of_occupied l x : x ∈ occupied l <-> exists i : nat, l !! i = Some (Some x).
Proof.
  unfold occupied. rewrite list_elem_of_omap. split.
  - intros (o & Ho & E). cbn in E. subst. by apply list_elem_of_lookup in Ho.
  - intros (i & Hi). exists (Some x). split; [|done]. by eapply list_elem_of_lookup_2.
Qed.

Lemma occupied_cons_Some x l : occupied (Some x :: l) = x :: occupied l.
Proof. done. Qed.
Lemma occupied_cons_None l : occupied (None :: l) = occupied l.
Proof. done. Qed.
Lemma occupied_app l1 l2 : occupied (l1 ++ l2) = occupied l1 ++ occupied l2.
Proof. apply omap_app. Qed.

Lemma occupied_insert_None l i x :
  l !! i = Some None ->
  occupied (<[i := Some x]> l) = occupied (take i l) ++ x :: occupied (drop (S i) l).
Proof.
  intros H. pose proof (lookup_lt_Some _ _ _ H).
  by rewrite insert_take_drop, occupied_app, occupied_cons_Some by done.
Qed.

Lemma occupied_split l i :
  l !! i = Some None -> occupied l = occupied (take i l) ++ occupied (drop (S i) l).
Proof.
  intros H. rewrite <-(take_drop_middle l i None H) at 1.
  by rewrite occupied_app, occupied_cons_None.
Qed.

Lemma occupied_insert_Some l i x y : l !! i = Some (Some x) -> exists rest,
  occupied l ≡ₚ x :: rest /\ occupied (<[i := Some y]> l) ≡ₚ y :: rest /\ occupied (<[i := None]> l) = rest.
Proof.
  intros Hi. pose proof (lookup_lt_Some _ _ _ Hi). exists (occupied (take i l) ++ occupied (drop (S i) l)). split_and!.
  - rewrite <-(take_drop_middle l i (Some x)) at 1 by done. rewrite occupied_app, occupied_cons_Some. by rewrite Permutation_middle.
  - rewrite insert_take_drop, occupied_app, occupied_cons_Some by done. by rewrite Permutation_middle.
  - by rewrite insert_take_drop, occupied_app, occupied_cons_None by done.
Qed.

Lemma occupied_put l i x : l !! i = Some None -> occupied (<[i := Some x]> l) ≡ₚ x :: occupied l.
Proof. intros H. rewrite occupied_insert_None, (occupied_split l i) by done. by rewrite Permutation_middle. Qed.

Lemma length_occupied l : (length (occupied l) <= length l)%nat.
Proof. induction l as [|[x|] l IH]; cbn; [done|..]; unfold occupied in *; lia. Qed.
End tables.

(** ** Invariants of a transition system *)

Lemma rtc_preserves {A} (R : relation A) (P : A -> Prop) x y :
  (forall a b, R a b -> P a -> P b) -> rtc R x y -> P x -> P y.
Proof. intros Hstep. induction 1; eauto. Qed.

(** ** Flipping one bit *)

Lemma land_pow2_clear x n : 0 <= n -> Z.testbit x n = false -> Z.land x (2 ^ n) = 0.
Proof.
  intros Hn Hx. apply Z.bits_inj'. intros i Hi. rewrite Z.land_spec, Z.pow2_bits_eqb, Z.testbit_0_l by lia.
  destruct (Z.eqb_spec n i) as [<-|]; [by rewrite Hx|apply andb_false_r].
Qed.

Lemma lxor_pow2 x n : 0 <= n ->
  Z.lxor x (2 ^ n) = if Z.testbit x n then x - 2 ^ n else x + 2 ^ n.
Proof.
  intros Hn. destruct (Z.testbit x n) eqn:E.
  - assert (Hy : Z.testbit (Z.lxor x (2 ^ n)) n = false)
      by (rewrite Z.lxor_spec, E, Z.pow2_bits_true by lia; done).
    pose proof (Z.add_nocarry_lxor _ _ (land_pow2_clear _ _ Hn Hy)) as H.
    rewrite Z.lxor_assoc, Z.lxor_nilpotent, Z.lxor_0_r in H. lia.
  - symmetry. apply Z.add_nocarry_lxor. by apply land_pow2_clear.
Qed.

(** A value below [2^(n+1)] with bit [n] clear is below [2^n], and so on:
    alignment of the two halves of an aligned block. *)
Lemma land_ones_mod x k : 0 <= k -> Z.land x (2 ^ k - 1) = x mod 2 ^ k.
Proof. intros. rewrite <-Z.land_ones by lia. by rewrite Z.ones_equiv, Z.sub_1_r. Qed.

(** ** Ceiling division *)

Lemma div_ceil_spec a b : 0 < b -> a <= div_ceil a b * b < a + b.
Proof. intros. unfold div_ceil. pose proof (Z.div_mod (a + b - 1) b). pose proof (Z.mod_pos_bound (a + b - 1) b). nia. Qed.
Lemma div_ceil_nonneg a b : 0 < b -> 0 <= a -> 0 <= div_ceil a b.
Proof. intros. unfold div_ceil. apply Z.div_pos; lia. Qed.
Lemma div_lt_div_ceil a n b : 0 < b -> 0 <= a < n -> a / b < div_ceil n b.
Proof. intros. pose proof (div_ceil_spec n b). apply Z.div_lt_upper_bound; nia. Qed.

(** ** Pairs *)

Lemma pair_fst_eq {A B} (p : A * B) a : p.1 = a -> p = (a, p.2).
Proof. by destruct p; cbn; intros ->. Qed.

(** ** Widths of bitwise operations *)

Lemma uint_lor w a b : 0 <= w -> uint w a -> uint w b -> uint w (Z.lor a b).
Proof.
  intros Hw Ha Hb. unfold uint in *. split; [apply Z.lor_nonneg; lia|].
  destruct (decide (Z.lor a b = 0)) as [->|]; [lia|].
  assert (0 < Z.lor a b) by (pose proof (proj2 (Z.lor_nonneg a b)); lia).
  apply Z.log2_lt_pow2; [done|]. rewrite Z.log2_lor by lia. apply Z.max_lub_lt.
  - destruct (decide (a = 0)) as [->|]; [|apply Z.log2_lt_pow2; lia].
    destruct (decide (w = 0)) as [->|]; [|cbn; lia]. assert (b = 0) by lia. subst. done.
  - destruct (decide (b = 0)) as [->|]; [|apply Z.log2_lt_pow2; lia].
    destruct (decide (w = 0)) as [->|]; [|cbn; lia]. assert (a = 0) by lia. subst. done.
Qed.

Lemma uint_land w a b : 0 <= a -> uint w b -> uint w (Z.land a b).
Proof.
  intros Ha [Hb1 Hb2]. assert (0 <= Z.land a b) by (apply Z.land_nonneg; lia). split; [done|].
  destruct (decide (Z.land a b = 0)) as [->|]; [lia|]. destruct (decide (b = 0)) as [->|]; [by rewrite Z.land_0_r|].
  apply Z.log2_lt_pow2; [lia|]. pose proof (Z.log2_land a b Ha Hb1). assert (Z.log2 b < w) by (apply Z.log2_lt_pow2; lia). lia.
Qed.

(** ** Copying into a slice *)

(** [dst[off..off + src.len()].copy_from_slice(src)], in range. *)
Definition copy_at {A} (dst : list A) (off : nat) (src : list A) : list A :=
  take off dst ++ src ++ drop (off + length src) dst.

Lemma length_copy_at {A} (dst : list A) off src :
  (off + length src <= length dst)%nat -> length (copy_at dst off src) = length dst.
Proof. intros. unfold copy_at. rewrite !length_app, length_take, length_drop. lia. Qed.

Lemma copy_at_read {A} (dst : list A) off src :
  (off <= length dst)%nat -> take (length src) (drop off (copy_at dst off src)) = src.
Proof.
  intros. unfold copy_at. rewrite drop_app_length' by (rewrite length_take; lia).
  by rewrite take_app_length.
Qed.

Lemma copy_at_other {A} (dst : list A) off src i n :
  (off + length src <= length dst)%nat -> (i + n <= off \/ off + length src <= i)%nat ->
  take n (drop i (copy_at dst off src)) = take n (drop i dst).
Proof.
  intros Hl Hi. apply list_eq. intros j. destruct (decide (j < n)%nat); [|by rewrite !lookup_take_ge by lia].
  rewrite !lookup_take_lt, !lookup_drop by lia. unfold copy_at. destruct Hi.
  - rewrite lookup_app_l by (rewrite length_take; lia). by rewrite lookup_take_lt by lia.
  - rewrite lookup_app_r by (rewrite length_take; lia). rewrite length_take.
    rewrite lookup_app_r by lia. rewrite lookup_drop. f_equal. lia.
Qed.

#[export] Hint Rewrite @length_app @length_take @length_drop @length_replicate : aios_len.

Lemma uint_lxor w a b : 0 <= w -> uint w a -> uint w b -> uint w (Z.lxor a b).
Proof.
  intros Hw Ha Hb. assert (0 <= Z.lxor a b) by (apply Z.lxor_nonneg; unfold uint in *; lia).
  rewrite <-(Z.mod_small (Z.lxor a b) (2 ^ w)); [by apply uint_wrap|]. split; [done|].
  destruct (decide (Z.lxor a b = 0)) as [->|]; [lia|]. apply Z.log2_lt_pow2; [lia|].
  apply Z.nle_gt. intros Hlog. pose proof (Z.bit_log2 (Z.lxor a b) ltac:(lia)) as Hbit.
  rewrite Z.lxor_spec, !(uint_testbit_high w) in Hbit by (done || lia). done.
Qed.

Lemma lxor_cancel_l a b c : Z.lxor a b = Z.lxor a c -> b = c.
Proof.
  intros E. rewrite <-(Z.lxor_0_l b), <-(Z.lxor_0_l c), <-(Z.lxor_nilpotent a).
  by rewrite !Z.lxor_assoc, E.
Qed.

(** ** Properties of every index below a bound, by evaluation *)

Lemma forallb_below (f : Z -> bool) n i :
  forallb f (seqZ 0 n) = true -> 0 <= i < n -> f i = true.
Proof. rewrite forallb_forall. intros H Hi. apply H, list_elem_of_In, elem_of_seqZ. lia. Qed.

Definition checked_mul (w a b : Z) : option Z :=
  if a * b <? 2 ^ w then Some (a * b) else None.

Lemma checked_add_in w a b : a + b < 2 ^ w -> checked_add w a b = Some (a + b).
Proof. intros. by apply checked_add_Some. Qed.

Lemma checked_mul_in w a b : a * b < 2 ^ w -> checked_mul w a b = Some (a * b).
Proof. intros H. unfold checked_mul. by apply Z.ltb_lt in H as ->. Qed.

(** ** Signed machine integers

    A [w]-bit signed integer is a [Z] in [[-2^(w-1), 2^(w-1))].  The
    arithmetic of a build with overflow checks is checked: [i32v n] is the
    value [n] of an [i32] expression, [None] the panic of an overflow. *)

Definition sint (w n : Z) : Prop := - 2 ^ (w - 1) <= n < 2 ^ (w - 1).
Definition in_sint (w n : Z) : bool := (- 2 ^ (w - 1) <=? n) && (n <? 2 ^ (w - 1)).
Definition in_uint (w n : Z) : bool := (0 <=? n) && (n <? 2 ^ w).
Definition i32v (n : Z) : option Z := if in_sint 32 n then Some n else None.
Definition u32v (n : Z) : option Z := if in_uint 32 n then Some n else None.
(** The cast of a [w]-bit pattern to the signed type ([as i32]). *)
Definition as_signed (w n : Z) : Z :=
  let m := wrap w n in if m <? 2 ^ (w - 1) then m else m - 2 ^ w.
Definition saturating_add_i32 (a b : Z) : Z := Z.max (- 2 ^ 31) (Z.min (a + b) (2 ^ 31 - 1)).

Lemma in_sint_spec w n : in_sint w n = true <-> sint w n.
Proof. unfold in_sint, sint. rewrite andb_true_iff, Z.leb_le, Z.ltb_lt. done. Qed.
Lemma in_uint_spec w n : in_uint w n = true <-> uint w n.
Proof. unfold in_uint, uint. rewrite andb_true_iff, Z.leb_le, Z.ltb_lt. done. Qed.

Lemma i32v_in n : sint 32 n -> i32v n = Some n.
Proof. intros H%in_sint_spec. unfold i32v. by rewrite H. Qed.
Lemma u32v_in n : uint 32 n -> u32v n = Some n.
Proof. intros H%in_uint_spec. unfold u32v. by rewrite H. Qed.
Lemma i32v_Some n m : i32v n = Some m <-> m = n /\ sint 32 n.
Proof. unfold i32v. rewrite <-in_sint_spec. case_match; naive_solver. Qed.
Lemma u32v_Some n m : u32v n = Some m <-> m = n /\ uint 32 n.
Proof. unfold u32v. rewrite <-in_uint_spec. case_match; naive_solver. Qed.

Lemma as_signed_small w n : 0 < w -> 0 <= n < 2 ^ (w - 1) -> as_signed w n = n.
Proof.
  intros Hw [H1 H2]. assert (E : 2 ^ w = 2 * 2 ^ (w - 1)).
  { rewrite <-Z.pow_succ_r by lia. f_equal. lia. }
  unfold as_signed. rewrite wrap_small by (unfold uint; lia).
  by apply Z.ltb_lt in H2 as ->.
Qed.
