(* ===== verification/Collections.v ===== *)
(** * Collections: [FixedQueue] and [RingBuffer] (shared/src/collections.rs)

    The two circular buffers of the kernel: the scheduler's run queues and the
    IPC message rings.  The state is the code's ([buf], [head], [tail],
    [len]), a [usize] is a [Z].  [Cyclic.holds] says that a buffer stores a
    list from an index on, cyclically; [rep] relates a queue to the FIFO list
    it stands for.  [QueueOps]/[QueueSpec] is the interface the clients
    (run queues, message rings) use: every operation refines the list
    operation. *)

From S2P Require Import Prelude.

(** ** The abstract FIFO queue of capacity [N] *)
Module Fifo.
Definition push {A} (N : Z) (l : list A) (x : A) : bool * list A :=
  if alen l >=? N then (false, l) else (true, l ++ [x]).
Definition pop {A} (l : list A) : option A * list A :=
  match l with [] => (None, []) | x :: l' => (Some x, l') end.
End Fifo.

(** ** The interface of a bounded queue and its specification *)

Class QueueOps (T Q : Type) := {
  q_new : Q;
  q_push : Q -> T -> bool * Q;
  q_pop : Q -> option T * Q
}.

Class QueueSpec (N : Z) {T Q : Type} (O : QueueOps T Q) := {
  q_rep : Q -> list T -> Prop;
  q_rep_new : q_rep q_new [];
  q_rep_push q l v : q_rep q l ->
    (q_push q v).1 = (Fifo.push N l v).1 /\ q_rep (q_push q v).2 (Fifo.push N l v).2;
  q_rep_pop q l : q_rep q l ->
    (q_pop q).1 = (Fifo.pop l).1 /\ q_rep (q_pop q).2 (Fifo.pop l).2
}.

(** Sequences of operations, with what each returns. *)
Module QueueRun.
Inductive op (T : Type) := Push (v : T) | Pop.
Arguments Push {T} _.
Arguments Pop {T}.
Inductive out (T : Type) := Pushed (ok : bool) | Popped (o : option T).
Arguments Pushed {T} _.
Arguments Popped {T} _.

Definition step {T Q} `{QueueOps T Q} (q : Q) (o : op T) : out T * Q :=
  match o with
  | Push v => let '(b, q') := q_push q v in (Pushed b, q')
  | Pop => let '(x, q') := q_pop q in (Popped x, q')
  end.

Definition spec_step {T} (N : Z) (l : list T) (o : op T) : out T * list T :=
  match o with
  | Push v => let '(b, l') := Fifo.push N l v in (Pushed b, l')
  | Pop => let '(x, l') := Fifo.pop l in (Popped x, l')
  end.

Fixpoint run {S T} (f : S -> op T -> out T * S) (s : S) (os : list (op T)) :
    list (out T) * S :=
  match os with
  | [] => ([], s)
  | o :: os' =>
      let '(r, s1) := f s o in
      let '(rs, s2) := run f s1 os' in (r :: rs, s2)
  end.

Lemma run_refines {T Q} {N} `{QS : QueueSpec N T Q} (os : list (op T)) q l :
  q_rep q l ->
  (run step q os).1 = (run (spec_step N) l os).1 /\
  q_rep (run step q os).2 (run (spec_step N) l os).2.
Proof.
  revert q l. induction os as [|o os IH]; intros q l Hr; [done|].
  cbn. destruct o as [v|]; cbn.
  - pose proof (q_rep_push q l v Hr) as [E Hr'].
    destruct (q_push q v) as [b q'], (Fifo.push N l v) as [b' l']; cbn in *.
    specialize (IH _ _ Hr') as [E1 E2].
    destruct (run step q' os), (run (spec_step N) l' os); cbn in *.
    split; [congruence|done].
  - pose proof (q_rep_pop q l Hr) as [E Hr'].
    destruct (q_pop q) as [b q'], (Fifo.pop l) as [b' l']; cbn in *.
    specialize (IH _ _ Hr') as [E1 E2].
    destruct (run step q' os), (run (spec_step N) l' os); cbn in *.
    split; [congruence|done].
Qed.
End QueueRun.

(** ** Cyclic layout of a list in an array of length [N] *)
Module Cyclic.
Section cyclic.
Context {A B : Type} (enc : A -> B) (N : Z).
Hypothesis N_pos : 0 < N.

Definition holds (buf : list B) (h : Z) (l : list A) : Prop :=
  forall i v, 0 <= i -> l.[i] = Some v -> buf.[(h + i) mod N] = Some (enc v).

Lemma mod_range x : 0 <= x mod N < N.
Proof using N_pos. apply Z.mod_pos_bound. lia. Qed.

Lemma mod_inj h i j :
  0 <= i < N -> 0 <= j < N -> (h + i) mod N = (h + j) mod N -> i = j.
Proof using N_pos.
  intros ? ? H. rewrite !Z.mod_eq in H by lia.
  assert ((h + i) / N = (h + j) / N) by nia. nia.
Qed.

Lemma head_ne h i : 0 <= h < N -> 0 < i < N -> h <> (h + i) mod N.
Proof using N_pos.
  intros ? ? E. rewrite <-(Z.mod_small h N) in E at 1 by lia.
  rewrite <-(Z.add_0_r h) in E at 1. apply mod_inj in E; lia.
Qed.

Lemma holds_nil buf h : holds buf h [].
Proof. intros i v _ H. by rewrite aget_nil in H. Qed.

Lemma holds_head buf h x l : 0 <= h < N -> holds buf h (x :: l) -> buf.[h] = Some (enc x).
Proof using N_pos.
  intros Hh H. specialize (H 0 x). rewrite Z.add_0_r, Z.mod_small in H by lia.
  by apply H.
Qed.

Lemma holds_push buf h l x :
  alen buf = N -> alen l < N -> holds buf h l ->
  holds (buf.[(h + alen l) mod N <- enc x]) h (l ++ [x]).
Proof using N_pos.
  intros Hb Hl H i v Hi [[? Hv]|[-> ->]]%aget_snoc; [| |done].
  - rewrite aget_aset_ne; [by apply H|apply mod_range..|].
    intros E%mod_inj; lia.
  - apply aget_aset_eq. rewrite Hb. apply mod_range.
Qed.

Lemma holds_pop buf h l x y :
  0 <= h < N -> alen (x :: l) <= N -> holds buf h (x :: l) ->
  holds (buf.[h <- y]) ((h + 1) mod N) l.
Proof using N_pos.
  rewrite alen_cons. intros Hh Hl H i v Hi Hv. pose proof (aget_lt _ _ _ Hi Hv).
  rewrite Zplus_mod_idemp_l, <-Z.add_assoc, (Z.add_comm 1).
  rewrite aget_aset_ne; [|lia|apply mod_range|apply head_ne; lia].
  apply H; [lia|]. by rewrite aget_cons_S.
Qed.
End cyclic.
End Cyclic.

(** ** [FixedQueue]: run queues *)
Module FixedQueue.
Section fixed_queue.
Context {T : Type} (N : Z).

Record t := mk {
  buf : list (option T);
  head : Z;
  tail : Z;
  len : Z
}.

Definition new : t := mk (array_of N None) 0 0 0.

Definition push_back (q : t) (val : T) : bool * t :=
  if len q >=? N then (false, q)
  else (true, mk ((buf q).[tail q <- Some val])
                 (head q) ((tail q + 1) mod N) (len q + 1)).

(** [take] leaves [None] in the slot; an index past the buffer would be a
    panic, which [rep] excludes. *)
Definition pop_front (q : t) : option T * t :=
  if len q =? 0 then (None, q)
  else (mjoin ((buf q).[head q]),
        mk ((buf q).[head q <- None]) ((head q + 1) mod N) (tail q) (len q - 1)).

Definition is_empty (q : t) : bool := len q =? 0.

(** [FixedQueueIter::next] from logical position [pos]: the [while] loop
    skips a slot that holds no element. *)
Fixpoint iter_next (fuel : nat) (q : t) (pos : Z) : option T * Z :=
  match fuel with
  | O => (None, pos)
  | S fuel' =>
      if pos <? len q then
        let raw := wrapping_add 64 (head q) pos in
        let slot := if raw >=? N then wrapping_sub 64 raw N else raw in
        let pos' := wrapping_add 64 pos 1 in
        match (buf q).[slot] with
        | Some (Some val) => (Some val, pos')
        | _ => iter_next fuel' q pos'
        end
      else (None, pos)
  end.

Definition size_hint (q : t) (pos : Z) : Z := saturating_sub (len q) pos.

(** Driving the iterator to its end, as [for] and [any] do; the position
    grows by one per step, so [len + 1] steps are enough. *)
Fixpoint iter_from (fuel : nat) (q : t) (pos : Z) : list T :=
  match fuel with
  | O => []
  | S fuel' =>
      match iter_next (S (Z.to_nat (len q))) q pos with
      | (Some v, pos') => v :: iter_from fuel' q pos'
      | (None, _) => []
      end
  end.
Definition iter (q : t) : list T := iter_from (S (Z.to_nat (len q))) q 0.

Definition contains `{EqDecision T} (q : t) (val : T) : bool :=
  existsb (fun queued => bool_decide (queued = val)) (iter q).

(** The queue [q] stores the list [l], and the slots past it are empty. *)
Record rep (q : t) (l : list T) : Prop := {
  rep_buf : alen (buf q) = N;
  rep_len : len q = alen l;
  rep_cap : alen l <= N;
  rep_head : 0 <= head q < N;
  rep_tail : tail q = (head q + len q) mod N;
  rep_live : Cyclic.holds Some N (buf q) (head q) l;
  rep_dead : forall i, len q <= i < N -> (buf q).[(head q + i) mod N] = Some None
}.

Section laws.
Hypothesis N_pos : 0 < N.

Lemma fq_rep_new : rep new [].
Proof using N_pos.
  split; cbn.
  - apply alen_array_of. lia.
  - done.
  - rewrite alen_nil. lia.
  - lia.
  - by rewrite Z.mod_small by lia.
  - apply Cyclic.holds_nil.
  - intros i ?. by apply aget_array_of, Cyclic.mod_range.
Qed.

Lemma fq_rep_push q l v : rep q l ->
  (push_back q v).1 = (Fifo.push N l v).1 /\ rep (push_back q v).2 (Fifo.push N l v).2.
Proof using N_pos.
  intros Hq. pose proof Hq as [Hb Hl Hc Hh Ht Hlive Hdead]. unfold push_back, Fifo.push.
  rewrite Hl. destruct (Z.geb_spec (alen l) N); [done|].
  split; [done|]. pose proof (alen_nonneg l).
  split; cbn; autorewrite with aios_rw; try lia.
  - rewrite Ht, Hl, Zplus_mod_idemp_l. f_equal. lia.
  - rewrite Ht, Hl. by apply Cyclic.holds_push.
  - intros i ?. rewrite Ht, Hl, aget_aset_ne;
      [apply Hdead; lia|by apply Cyclic.mod_range..|].
    intros E%Cyclic.mod_inj; lia.
Qed.

Lemma fq_rep_pop q l : rep q l ->
  (pop_front q).1 = (Fifo.pop l).1 /\ rep (pop_front q).2 (Fifo.pop l).2.
Proof using N_pos.
  intros Hq. pose proof Hq as [Hb Hl Hc Hh Ht Hlive Hdead].
  unfold pop_front, Fifo.pop. destruct l as [|x l].
  { by rewrite Hl. }
  pose proof (alen_nonneg l). pose proof (alen_cons x l).
  destruct (Z.eqb_spec (len q) 0); [lia|]. split.
  { cbn. by rewrite (Cyclic.holds_head Some N N_pos _ _ _ _ Hh Hlive). }
  split; cbn; autorewrite with aios_rw; try lia.
  - by apply Cyclic.mod_range.
  - rewrite Ht, Zplus_mod_idemp_l. f_equal. lia.
  - by eapply Cyclic.holds_pop.
  - intros i ?. rewrite Zplus_mod_idemp_l, <-Z.add_assoc, (Z.add_comm 1).
    destruct (Z.eq_dec (i + 1) N) as [->|].
    + rewrite <-Z.add_mod_idemp_r, Z.mod_same, Z.add_0_r, Z.mod_small by lia.
      apply aget_aset_eq. lia.
    + rewrite aget_aset_ne; [apply Hdead; lia|lia|by apply Cyclic.mod_range|].
      apply Cyclic.head_ne; lia.
Qed.

(** The wrap-free index arithmetic of the iterator: [N] is the length of
    an array, so at most [isize::MAX]. *)
Hypothesis N_max : N <= 2 ^ 63.

Lemma iter_next_live q l pos v fuel :
  rep q l -> 0 <= pos -> l.[pos] = Some v ->
  iter_next (S fuel) q pos = (Some v, pos + 1).
Proof using N_pos N_max.
  intros [Hb Hl Hc Hh Ht Hlive _] Hp Hv. pose proof (aget_lt _ _ _ Hp Hv).
  specialize (Hlive _ _ Hp Hv). cbn. change (2 ^ 63) with 9223372036854775808 in *.
  destruct (Z.ltb_spec pos (len q)); [|lia].
  unfold wrapping_add, wrapping_sub.
  rewrite (wrap_small 64 (head q + pos)), (wrap_small 64 (pos + 1)) by (split; lia).
  destruct (Z.geb_spec (head q + pos) N).
  - rewrite wrap_small by (split; lia).
    rewrite <-(Z.mod_small (head q + pos - N) N) by lia.
    rewrite <-(Z.mul_1_l N) at 1. rewrite Zminus_mod, Z.mod_mul by lia.
    by rewrite Z.sub_0_r, Z.mod_mod, Hlive by lia.
  - rewrite Z.mod_small in Hlive by lia. by rewrite Hlive.
Qed.

Lemma iter_next_end q pos fuel : len q <= pos -> iter_next fuel q pos = (None, pos).
Proof. intros. destruct fuel; cbn; [done|]. by destruct (Z.ltb_spec pos (len q)); [lia|]. Qed.

Lemma iter_from_spec q l fuel pos :
  rep q l -> 0 <= pos -> (Z.to_nat (len q - pos) < fuel)%nat ->
  iter_from fuel q pos = drop (Z.to_nat pos) l.
Proof using N_pos N_max.
  intros Hq. revert pos. induction fuel as [|fuel IH]; intros pos Hp Hf; [lia|].
  cbn -[iter_next]. pose proof (rep_len _ _ Hq) as Hl. unfold alen in Hl.
  destruct (l.[pos]) as [v|] eqn:E.
  - rewrite (iter_next_live _ _ _ _ _ Hq Hp E).
    pose proof (aget_lt _ _ _ Hp E). unfold alen in *.
    rewrite IH by lia. unfold aget in E.
    rewrite (drop_S _ _ _ E). by replace (Z.to_nat (pos + 1)) with (S (Z.to_nat pos)) by lia.
  - unfold aget in E. apply lookup_ge_None in E.
    rewrite iter_next_end by lia. by rewrite drop_ge by lia.
Qed.

Lemma iter_spec q l : rep q l -> iter q = l.
Proof using N_pos N_max. intros Hq. unfold iter. by rewrite (iter_from_spec _ l) by (done || lia). Qed.

Lemma contains_spec `{EqDecision T} q l v : rep q l -> contains q v = true <-> v ∈ l.
Proof using N_pos N_max.
  intros Hq. unfold contains. rewrite (iter_spec q l Hq), existsb_exists.
  setoid_rewrite bool_decide_eq_true. setoid_rewrite <-list_elem_of_In. naive_solver.
Qed.
End laws.
End fixed_queue.
Arguments t : clear implicits.
End FixedQueue.

#[export] Instance fixed_queue_ops T N : QueueOps T (FixedQueue.t T) := {|
  q_new := FixedQueue.new N;
  q_push := FixedQueue.push_back N;
  q_pop := FixedQueue.pop_front N
|}.

Definition fixed_queue_spec T N (HN : 0 < N) : QueueSpec N (fixed_queue_ops T N).
Proof.
  refine (@Build_QueueSpec N T _ (fixed_queue_ops T N) (FixedQueue.rep N) _ _ _).
  - by apply FixedQueue.fq_rep_new.
  - intros q l v. by apply FixedQueue.fq_rep_push.
  - intros q l. by apply FixedQueue.fq_rep_pop.
Defined.

(** ** [RingBuffer]: message rings *)
Module RingBuffer.
Section ring_buffer.
(** [fill] is the value [new] copies into every slot, [dflt] is
    [T::default()], which [core::mem::take] leaves behind. *)
Context {T : Type} (N : Z) (fill dflt : T).

Record t := mk {
  buf : list T;
  head : Z;
  tail : Z;
  len : Z
}.

Definition new : t := mk (array_of N fill) 0 0 0.

Definition push (q : t) (val : T) : bool * t :=
  if len q >=? N then (false, q)
  else (true, mk ((buf q).[tail q <- val])
                 (head q) ((tail q + 1) mod N) (len q + 1)).

Definition pop (q : t) : option T * t :=
  if len q =? 0 then (None, q)
  else ((buf q).[head q],
        mk ((buf q).[head q <- dflt]) ((head q + 1) mod N) (tail q) (len q - 1)).

Definition is_empty (q : t) : bool := len q =? 0.
Definition is_full (q : t) : bool := len q >=? N.

Record rep (q : t) (l : list T) : Prop := {
  rep_buf : alen (buf q) = N;
  rep_len : len q = alen l;
  rep_cap : alen l <= N;
  rep_head : 0 <= head q < N;
  rep_tail : tail q = (head q + len q) mod N;
  rep_live : Cyclic.holds id N (buf q) (head q) l
}.

Section laws.
Hypothesis N_pos : 0 < N.

Lemma ring_rep_new : rep new [].
Proof using N_pos.
  split; cbn.
  - apply alen_array_of. lia.
  - done.
  - rewrite alen_nil. lia.
  - lia.
  - by rewrite Z.mod_small by lia.
  - apply Cyclic.holds_nil.
Qed.

Lemma ring_rep_push q l v : rep q l ->
  (push q v).1 = (Fifo.push N l v).1 /\ rep (push q v).2 (Fifo.push N l v).2.
Proof using N_pos.
  intros Hq. pose proof Hq as [Hb Hl Hc Hh Ht Hlive]. unfold push, Fifo.push.
  rewrite Hl. destruct (Z.geb_spec (alen l) N); [done|].
  split; [done|]. pose proof (alen_nonneg l).
  split; cbn; autorewrite with aios_rw; try lia.
  - rewrite Ht, Hl, Zplus_mod_idemp_l. f_equal. lia.
  - rewrite Ht, Hl. by apply (Cyclic.holds_push id).
Qed.

Lemma ring_rep_pop q l : rep q l ->
  (pop q).1 = (Fifo.pop l).1 /\ rep (pop q).2 (Fifo.pop l).2.
Proof using N_pos.
  intros Hq. pose proof Hq as [Hb Hl Hc Hh Ht Hlive].
  unfold pop, Fifo.pop. destruct l as [|x l].
  { by rewrite Hl. }
  pose proof (alen_nonneg l). pose proof (alen_cons x l).
  destruct (Z.eqb_spec (len q) 0); [lia|]. split.
  { cbn. by rewrite (Cyclic.holds_head id N N_pos _ _ _ _ Hh Hlive). }
  split; cbn; autorewrite with aios_rw; try lia.
  - by apply Cyclic.mod_range.
  - rewrite Ht, Zplus_mod_idemp_l. f_equal. lia.
  - by eapply (Cyclic.holds_pop id).
Qed.
End laws.
End ring_buffer.
Arguments t : clear implicits.
End RingBuffer.

Definition ring_buffer_ops T N (fill dflt : T) : QueueOps T (RingBuffer.t T) := {|
  q_new := RingBuffer.new N fill;
  q_push := RingBuffer.push N;
  q_pop := RingBuffer.pop N dflt
|}.

Definition ring_buffer_spec T N (fill dflt : T) (HN : 0 < N) :
  QueueSpec N (ring_buffer_ops T N fill dflt).
Proof.
  refine (@Build_QueueSpec N T _ (ring_buffer_ops T N fill dflt) (RingBuffer.rep N) _ _ _).
  - by apply RingBuffer.ring_rep_new.
  - intros q l v. by apply RingBuffer.ring_rep_push.
  - intros q l. by apply RingBuffer.ring_rep_pop.
Defined.

(** ** Properties *)

(** any sequence of [push_back]/[pop_front] calls on a new [FixedQueue]
    of capacity [N] returns exactly what the bounded FIFO list returns (a push
    fails only when [N] elements are queued, a pop yields the oldest element),
    every index stays inside the buffer, iterating the final queue yields its
    elements front to back, and [contains] decides membership. *)
Theorem fixed_queue_refines_fifo (N : Z) (os : list (QueueRun.op Z)) :
  0 < N <= 2 ^ 63 ->
  let '(outs, q) := QueueRun.run (@QueueRun.step _ _ (fixed_queue_ops Z N)) (FixedQueue.new N) os in
  let '(outs', l) := QueueRun.run (QueueRun.spec_step N) [] os in
  outs = outs' /\ FixedQueue.rep N q l /\ FixedQueue.iter N q = l /\
  (forall v, FixedQueue.contains N q v = true <-> v ∈ l).
Proof.
  intros [HN HM].
  pose proof (@QueueRun.run_refines Z _ N (fixed_queue_ops Z N) (fixed_queue_spec Z N HN)
                os (FixedQueue.new N) [] (FixedQueue.fq_rep_new N HN)) as [E R].
  destruct (QueueRun.run _ (FixedQueue.new N) os) as [outs q].
  destruct (QueueRun.run (QueueRun.spec_step N) [] os) as [outs' l]; cbn in *.
  repeat split; [done|apply R..|by apply FixedQueue.iter_spec| |];
    by apply FixedQueue.contains_spec.
Qed.

Lemma fixed_queue_refines_fifo_witness :
  let os := [QueueRun.Push 1; QueueRun.Push 2; QueueRun.Push 3; QueueRun.Pop; QueueRun.Push 4] in
  let q := (QueueRun.run (@QueueRun.step _ _ (fixed_queue_ops Z 2)) (FixedQueue.new 2) os).2 in
  FixedQueue.iter 2 q = [2; 4] /\ FixedQueue.contains 2 q 4 = true.
Proof.
  pose proof (fixed_queue_refines_fifo 2
    [QueueRun.Push 1; QueueRun.Push 2; QueueRun.Push 3; QueueRun.Pop; QueueRun.Push 4]
    ltac:(lia)) as H.
  cbn zeta. destruct (QueueRun.run _ (FixedQueue.new 2) _) as [outs q]. cbn in H |- *.
  destruct H as (_ & _ & Hi & Hc). split; [exact Hi|]. apply Hc.
  apply list_elem_of_In. vm_compute. auto.
Defined.

(** the IPC message ring [RingBuffer] of capacity [N] is the same bounded
    FIFO: every sequence of [push]/[pop] calls returns what the list returns,
    whatever the fill and default values are, so no message is lost,
    duplicated, reordered or read from a slot that was already taken. *)
Theorem ring_buffer_refines_fifo (T : Type) (N : Z) (fill dflt : T)
    (os : list (QueueRun.op T)) :
  0 < N ->
  let '(outs, q) := QueueRun.run (@QueueRun.step _ _ (ring_buffer_ops T N fill dflt))
                      (RingBuffer.new N fill) os in
  let '(outs', l) := QueueRun.run (QueueRun.spec_step N) [] os in
  outs = outs' /\ RingBuffer.rep N q l /\
  (RingBuffer.is_full N q = true <-> alen l = N) /\ (RingBuffer.is_empty q = true <-> l = []).
Proof.
  intros HN.
  pose proof (@QueueRun.run_refines T _ N (ring_buffer_ops T N fill dflt)
                (ring_buffer_spec T N fill dflt HN)
                os (RingBuffer.new N fill) [] (RingBuffer.ring_rep_new N fill HN)) as [E R].
  destruct (QueueRun.run _ (RingBuffer.new N fill) os) as [outs q].
  destruct (QueueRun.run (QueueRun.spec_step N) [] os) as [outs' l]; cbn in *.
  split_and!; [done|apply R| |].
  - unfold RingBuffer.is_full. rewrite (RingBuffer.rep_len _ _ _ R).
    pose proof (RingBuffer.rep_cap _ _ _ R). lia.
  - unfold RingBuffer.is_empty. rewrite (RingBuffer.rep_len _ _ _ R).
    destruct l as [|x l]; [done|]. rewrite alen_cons.
    pose proof (alen_nonneg l). split; [lia|done].
Qed.

Lemma ring_buffer_refines_fifo_witness :
  (QueueRun.run (@QueueRun.step _ _ (ring_buffer_ops Z 2 0 0)) (RingBuffer.new 2 0)
     [QueueRun.Push 7; QueueRun.Push 8; QueueRun.Push 9; QueueRun.Pop]).1
  = [QueueRun.Pushed true; QueueRun.Pushed true; QueueRun.Pushed false; QueueRun.Popped (Some 7)].
Proof.
  pose proof (ring_buffer_refines_fifo Z 2 0 0
     [QueueRun.Push 7; QueueRun.Push 8; QueueRun.Push 9; QueueRun.Pop] ltac:(lia)) as H.
  destruct (QueueRun.run _ (RingBuffer.new 2 0) _) as [outs q]. cbn in H. apply H.
Defined.
