(* ===== verification/SortedVec.v ===== *)
(** * Sorted vectors with binary search

    The storage index keeps two tables ([MemTable] and [ObjectIndex] of
    shared/src/storage.rs) as a [Vec] sorted by key and searched with the
    standard library's [slice::binary_search_by].  This file models that search
    and the [Vec] updates by index once, for any totally ordered key, and shows
    that a sorted vector implements a finite map: each update at the index the
    search returned is the map's insertion or deletion.

    [binary_search_by] follows the standard library's loop; its fuel is the length
    of the vector, and [bs_loop_spec] shows that it never runs out. *)

From stdpp Require Export gmap.
From S2P Require Import Prelude.

(** ** Keys with [Ord::cmp] *)

Class KeyOrder (K : Type) := kcmp : K -> K -> comparison.

Class KeyOrderSpec (K : Type) {O : KeyOrder K} : Prop := {
  kcmp_eq a b : kcmp a b = Eq <-> a = b;
  kcmp_flip a b : kcmp b a = CompOpp (kcmp a b);
  kcmp_trans a b c : kcmp a b = Lt -> kcmp b c = Lt -> kcmp a c = Lt
}.

(** [<[u8; N] as Ord>::cmp]: lexicographic on bytes. *)
Fixpoint bytes_cmp (a b : list Z) : comparison :=
  match a, b with
  | [], [] => Eq
  | [], _ :: _ => Lt
  | _ :: _, [] => Gt
  | x :: a', y :: b' => match x ?= y with Eq => bytes_cmp a' b' | c => c end
  end.

#[export] Instance bytes_order : KeyOrder (list Z) := bytes_cmp.

#[export] Instance bytes_order_spec : KeyOrderSpec (list Z).
Proof.
  split; unfold kcmp, bytes_order.
  - induction a as [|x a IH]; intros [|y b]; cbn; try naive_solver.
    destruct (Z.compare_spec x y) as [->| |]; [rewrite IH|..]; naive_solver lia.
  - induction a as [|x a IH]; intros [|y b]; cbn; try done.
    rewrite (Z.compare_antisym x y). destruct (x ?= y); cbn; [apply IH|done..].
  - induction a as [|x a IH]; intros [|y b] [|z c]; cbn; try done.
    destruct (x ?= y) eqn:E1, (y ?= z) eqn:E2; try done; intros H1 H2;
      rewrite ?Z.compare_eq_iff, ?Z.compare_lt_iff in *.
    + subst. rewrite Z.compare_refl. by eapply IH.
    + by assert ((x ?= z) = Lt) as -> by (apply Z.compare_lt_iff; lia).
    + by assert ((x ?= z) = Lt) as -> by (apply Z.compare_lt_iff; lia).
    + by assert ((x ?= z) = Lt) as -> by (apply Z.compare_lt_iff; lia).
Qed.

(** ** The search *)

(** The loop [while size > 1] of [binary_search_by]; [f] compares the element at
    an index with the key. *)
Fixpoint bs_loop (fuel : nat) (f : nat -> comparison) (base size : nat) : nat :=
  match fuel with
  | O => base
  | S fuel' =>
      if (size <=? 1)%nat then base else
      let half := (size / 2)%nat in
      let mid := (base + half)%nat in
      let base' := match f mid with Gt => base | _ => mid end in
      bs_loop fuel' f base' (size - half)%nat
  end.

Section sorted_vec.
Context {K E : Type} `{KO : KeyOrder K} `{KOS : !KeyOrderSpec K} `{Countable K}.
Context (key : E -> K).
Implicit Types (l : list E) (k : K) (e : E).

(** [l.binary_search_by(|e| e.key.cmp(k))]: [Ok] of an index that holds the key,
    or [Err] of the index where it would be inserted. *)
Definition binary_search_by l k : result nat nat :=
  let f i := match l !! i with Some e => kcmp (key e) k | None => Gt end in
  match l with
  | [] => Err O
  | _ => let base := bs_loop (length l) f O (length l) in
         match f base with
         | Eq => Ok base
         | Lt => Err (S base)
         | Gt => Err base
         end
  end.

(** [Vec::insert]. *)
Definition vec_insert l (i : nat) e : list E := take i l ++ e :: drop i l.

Definition sorted l : Prop :=
  forall i j a b, (i < j)%nat -> l !! i = Some a -> l !! j = Some b -> kcmp (key a) (key b) = Lt.

(** The finite map a vector stands for. *)
Definition as_map l : gmap K E := list_to_map ((fun e => (key e, e)) <$> l).

Lemma kcmp_refl k : kcmp k k = Eq.
Proof. by apply kcmp_eq. Qed.

Lemma kcmp_gt_lt a b : kcmp a b = Gt <-> kcmp b a = Lt.
Proof. rewrite (kcmp_flip a b). by destruct (kcmp a b). Qed.

Lemma bs_loop_spec fuel f base size :
  (1 <= size <= fuel)%nat ->
  base = O \/ f base <> Gt ->
  (forall i, (base + size <= i)%nat -> f i = Gt) ->
  (forall i j, (i < j)%nat -> f j <> Gt -> f i = Lt) ->
  let b := bs_loop fuel f base size in
  (b < base + size)%nat /\ (forall i, (i < b)%nat -> f i = Lt) /\ (forall i, (b < i)%nat -> f i = Gt).
Proof.
  revert base size. induction fuel as [|fuel IH]; intros base size Hsz Hb Hhi Hmono; [lia|].
  cbn [bs_loop]. cbv zeta.
  destruct (Nat.leb_spec size 1) as [H1|H1].
  { split; [lia|]. split.
    - intros i Hi. destruct Hb as [->|Hb]; [lia|]. by apply (Hmono i base).
    - intros i Hi. apply Hhi. lia. }
  assert (0 < size / 2 < size)%nat.
  { split; [apply Nat.div_str_pos; lia|apply Nat.div_lt; lia]. }
  pose proof (Nat.div_mod_eq size 2). pose proof (Nat.mod_upper_bound size 2).
  remember (base + size / 2)%nat as mid eqn:Hmid.
  destruct (f mid) eqn:Em.
  1,2: destruct (IH mid (size - size / 2)%nat) as (? & ? & ?); try done; try lia;
    [right; congruence|intros; apply Hhi; lia|split_and!; [lia|done..]].
  destruct (IH base (size - size / 2)%nat) as (? & ? & ?); try done; try lia; [|split_and!; [lia|done..]].
  intros i Hi. destruct (f i) eqn:Ei; try done; exfalso.
  all: assert (i <> mid) by congruence; assert (mid < i)%nat by lia;
    assert (f mid = Lt) by (apply (Hmono mid i); congruence); congruence.
Qed.

(** The search is exact on a sorted vector. *)
Lemma binary_search_spec l k : sorted l ->
  match binary_search_by l k with
  | Ok i => exists e, l !! i = Some e /\ key e = k
  | Err i => (i <= length l)%nat /\ forall j e, l !! j = Some e ->
      kcmp (key e) k = if (j <? i)%nat then Lt else Gt
  end.
Proof.
  intros Hs. unfold binary_search_by.
  destruct l as [|e0 l0] eqn:El; [split; [done|]; intros ? ?; by rewrite lookup_nil|]. rewrite <-El in *.
  assert (0 < length l)%nat by (rewrite El; cbn; lia). clear El e0 l0.
  set (f i := match l !! i with Some e => kcmp (key e) k | None => Gt end).
  destruct (bs_loop_spec (length l) f O (length l)) as (Hlt & Hlo & Hhi).
  - lia.
  - by left.
  - intros i Hi. unfold f. by rewrite lookup_ge_None_2 by lia.
  - intros i j Hij. unfold f. destruct (l !! j) as [b|] eqn:Ej; [|done].
    destruct (lookup_lt_is_Some_2 l i) as [a Ea]; [apply lookup_lt_Some in Ej; lia|]. rewrite Ea.
    intros Hb. specialize (Hs i j a b Hij Ea Ej). destruct (kcmp (key b) k) eqn:Ec; [|by eapply kcmp_trans|done].
    apply kcmp_eq in Ec. by rewrite <-Ec.
  - set (b := bs_loop (length l) f O (length l)) in *.
    assert (Hf : forall j e, l !! j = Some e -> kcmp (key e) k = f j) by (intros j e Ej; unfold f; by rewrite Ej).
    fold (f b). destruct (f b) eqn:Eb.
    + destruct (lookup_lt_is_Some_2 l b) as [e Ee]; [lia|]. exists e. split; [done|].
      apply kcmp_eq. by rewrite (Hf b).
    + split; [lia|]. intros j e Ej. rewrite (Hf j e Ej).
      destruct (Nat.ltb_spec j (S b)); [destruct (decide (j = b)) as [->|]; [done|apply Hlo; lia]|apply Hhi; lia].
    + split; [lia|]. intros j e Ej. rewrite (Hf j e Ej).
      destruct (Nat.ltb_spec j b); [apply Hlo; lia|]. destruct (decide (j = b)) as [->|]; [done|apply Hhi; lia].
Qed.

(** ** A sorted vector is a finite map *)

Lemma sorted_keys_NoDup l : sorted l -> NoDup (key <$> l).
Proof.
  intros Hs. apply NoDup_alt. intros i j k.
  rewrite !list_lookup_fmap, !fmap_Some. intros (a & Ea & ->) (b & Eb & Eab).
  destruct (Nat.lt_trichotomy i j) as [Hij|[Hij|Hij]]; [exfalso|done|exfalso].
  - specialize (Hs i j a b Hij Ea Eb). rewrite Eab, kcmp_refl in Hs. done.
  - specialize (Hs j i b a Hij Eb Ea). rewrite Eab, kcmp_refl in Hs. done.
Qed.

Lemma as_map_Some l k e : sorted l -> as_map l !! k = Some e <-> e ∈ l /\ key e = k.
Proof.
  intros Hs%sorted_keys_NoDup. unfold as_map. rewrite <-elem_of_list_to_map.
  - rewrite list_elem_of_fmap. naive_solver.
  - rewrite <-list_fmap_compose. done.
Qed.

Lemma as_map_perm l l' : sorted l -> l ≡ₚ l' -> as_map l = as_map l'.
Proof.
  intros Hs%sorted_keys_NoDup Hp. apply list_to_map_proper; [|by rewrite Hp].
  rewrite <-list_fmap_compose. done.
Qed.

Lemma as_map_size l : sorted l -> size (as_map l) = length l.
Proof.
  intros Hs%sorted_keys_NoDup. unfold as_map. induction l as [|e l IH]; [done|].
  cbn. cbn in Hs. apply NoDup_cons in Hs as [Hk Hs]. rewrite map_size_insert_None, IH by
    (try done; apply not_elem_of_list_to_map_1; by rewrite <-list_fmap_compose). done.
Qed.

(** A search hit or miss is the map's lookup. *)
Lemma search_lookup l k : sorted l ->
  as_map l !! k = match binary_search_by l k with Ok i => l !! i | Err _ => None end.
Proof.
  intros Hs. pose proof (binary_search_spec l k Hs) as Hb. destruct (binary_search_by l k) as [i|i].
  - destruct Hb as (e & Ee & Ek). rewrite Ee. apply as_map_Some; [done|]. split; [|done].
    by eapply list_elem_of_lookup_2.
  - destruct Hb as [_ Hb]. apply eq_None_not_Some. intros [e [He Ek]%as_map_Some]; [|done].
    apply list_elem_of_lookup in He as [j Ej]. specialize (Hb j e Ej). rewrite Ek, kcmp_refl in Hb.
    by destruct (j <? i)%nat.
Qed.

Lemma search_Ok l k i : sorted l -> binary_search_by l k = Ok i ->
  exists e, l !! i = Some e /\ key e = k /\ as_map l !! k = Some e.
Proof.
  intros Hs Hb. pose proof (search_lookup l k Hs) as Hl. pose proof (binary_search_spec l k Hs) as Hsp.
  rewrite Hb in Hl, Hsp. destruct Hsp as (e & Ee & Ek). exists e. by rewrite Hl.
Qed.

Lemma search_Err l k i : sorted l -> binary_search_by l k = Err i -> as_map l !! k = None.
Proof. intros Hs Hb. rewrite search_lookup by done. by rewrite Hb. Qed.

(** Insertion at the position a failed search returned. *)
Lemma vec_insert_ok l k i e : sorted l -> binary_search_by l k = Err i -> key e = k ->
  sorted (vec_insert l i e) /\ as_map (vec_insert l i e) = <[k := e]> (as_map l).
Proof.
  intros Hs Hb Hk. pose proof (binary_search_spec l k Hs) as Hsp. rewrite Hb in Hsp. destruct Hsp as [Hi Hsp].
  assert (Hl : forall j x, vec_insert l i e !! j = Some x ->
    ((j < i)%nat /\ l !! j = Some x) \/ (j = i /\ x = e) \/ ((i < j)%nat /\ l !! (j - 1)%nat = Some x)).
  { intros j x. unfold vec_insert. rewrite lookup_app_Some, lookup_cons_Some, length_take_le by done.
    intros [?%lookup_take_Some|[Hj [[? ->]|[? Hx]]]]; [naive_solver|right; left; split; [lia|done]|].
    right; right. split; [lia|]. rewrite lookup_drop in Hx. by replace (j - 1)%nat with (i + (j - i - 1))%nat by lia. }
  assert (Hs' : sorted (vec_insert l i e)).
  { intros a b x y Hab Hx%Hl Hy%Hl.
    destruct Hx as [[? Hx]|[[-> ->]|[? Hx]]], Hy as [[? Hy]|[[-> ->]|[? Hy]]]; try lia.
    - by apply (Hs a b).
    - rewrite Hk. rewrite (Hsp a x Hx). by destruct (Nat.ltb_spec a i); [|lia].
    - apply (Hs a (b - 1)%nat); [lia|done..].
    - rewrite Hk. apply kcmp_gt_lt. rewrite (Hsp _ y Hy). by destruct (Nat.ltb_spec (b - 1) i); [lia|].
    - apply (Hs (a - 1)%nat (b - 1)%nat); [lia|done..]. }
  split; [done|]. rewrite (as_map_perm _ (e :: l)); [|done|].
  - unfold as_map. cbn. by rewrite Hk.
  - unfold vec_insert. rewrite <-Permutation_middle. by rewrite take_drop.
Qed.

(** Replacement of the entry a successful search found. *)
Lemma vec_update_ok l k i e : sorted l -> binary_search_by l k = Ok i -> key e = k ->
  sorted (<[i := e]> l) /\ as_map (<[i := e]> l) = <[k := e]> (as_map l).
Proof.
  intros Hs Hb Hk. destruct (search_Ok l k i Hs Hb) as (e0 & Ei & Ek & _).
  pose proof (lookup_lt_Some _ _ _ Ei) as Hi.
  assert (Hl : forall j x, <[i := e]> l !! j = Some x -> exists y, l !! j = Some y /\ key x = key y).
  { intros j x. rewrite list_lookup_insert_Some. intros [(<- & <- & _)|[_ ?]]; [exists e0|exists x]; by rewrite ?Hk. }
  assert (Hs' : sorted (<[i := e]> l)).
  { intros a b x y Hab (x' & Hx & ->)%Hl (y' & Hy & ->)%Hl. by apply (Hs a b). }
  split; [done|]. rewrite (as_map_perm _ (e :: delete i l)), (as_map_perm l (e0 :: delete i l)); try done.
  - unfold as_map. cbn. by rewrite Ek, Hk, insert_insert_eq.
  - by apply delete_Permutation.
  - rewrite insert_take_drop, delete_take_drop by done. by rewrite Permutation_middle.
Qed.

(** Removal of the entry a successful search found. *)
Lemma vec_remove_ok l k i : sorted l -> binary_search_by l k = Ok i ->
  sorted (delete i l) /\ as_map (delete i l) = delete k (as_map l).
Proof.
  intros Hs Hb. destruct (search_Ok l k i Hs Hb) as (e0 & Ei & Ek & _).
  assert (Hs' : sorted (delete i l)).
  { intros a b x y Hab. destruct (decide (a < i)%nat), (decide (b < i)%nat);
      rewrite ?list_lookup_delete_lt, ?list_lookup_delete_ge by lia; intros Hx Hy.
    - by apply (Hs a b).
    - apply (Hs a (S b)); [lia|done..].
    - lia.
    - apply (Hs (S a) (S b)); [lia|done..]. }
  split; [done|]. rewrite (as_map_perm l (e0 :: delete i l)); [|done|by apply delete_Permutation].
  unfold as_map at 2. cbn. rewrite Ek. fold (as_map (delete i l)). rewrite delete_insert_id; [done|].
  apply eq_None_not_Some. intros [e [He Ek']%as_map_Some]; [|done].
  apply sorted_keys_NoDup in Hs. rewrite (delete_Permutation _ _ _ Ei) in Hs. cbn in Hs.
  apply NoDup_cons in Hs as [Hn _]. apply Hn. rewrite Ek, <-Ek'. by apply list_elem_of_fmap_2.
Qed.
End sorted_vec.
