(* ===== verification/Abi.v ===== *)
(** * The syscall ABI (shared/src/syscall.rs, shared/src/ipc.rs, shared/src/sched.rs)

    Identifiers, error codes, the decoders of syscall argument registers, the
    wire format of select entries, service names, timeouts, the user address
    check and the scheduler's plain types.  Integers keep the width of the
    source: a register is a [u64], an id a [u32]. *)

From S2P Require Import Prelude.

(** ** Error codes (shared/src/syscall.rs) *)

Inductive IpcError :=
| Etimedout | Epipe | Eagain | Ecanceled | Eacces | Eperm | Enospc
| Eproto | Enotsup | EcapDormant | Eexist | Einval | Enomem.

#[export] Instance IpcError_eq_dec : EqDecision IpcError.
Proof. solve_decision. Defined.

(** [e as i64] *)
Definition ipc_code (e : IpcError) : Z :=
  match e with
  | Etimedout => -1 | Epipe => -2 | Eagain => -3 | Ecanceled => -4
  | Eacces => -5 | Eperm => -6 | Enospc => -7 | Eproto => -8
  | Enotsup => -9 | EcapDormant => -10 | Eexist => -11 | Einval => -12
  | Enomem => -13
  end.

Definition IPC_ERROR_COUNT : Z := 13.

Definition ipc_error_all : list IpcError :=
  [Etimedout; Epipe; Eagain; Ecanceled; Eacces; Eperm; Enospc;
   Eproto; Enotsup; EcapDormant; Eexist; Einval; Enomem].

(** [IpcError::try_from]: the first error whose discriminant is [code]. *)
Definition ipc_error_try_from (code : Z) : result Z IpcError :=
  ok_or (List.find (fun e => ipc_code e =? code) ipc_error_all) code.

(** Syscall numbers: [x8] selects the handler. *)
Inductive Syscall :=
| SysIpcCall | SysIpcSend | SysIpcRecv | SysIpcReply | SysIpcCancel | SysIpcSelect
| SysChannelCreate | SysChannelDestroy | SysRingChannelCreate | SysRingChannelDestroy
| SysNotificationCreate | SysNotificationSignal | SysNotificationWait | SysChannelStats
| SysCapabilityTransfer | SysCapabilityAttenuate | SysCapabilityRevoke | SysCapabilityList
| SysMemoryMap | SysMemoryUnmap | SysSharedMemoryCreate | SysSharedMemoryMap
| SysSharedMemoryShare | SysProcessCreate | SysProcessExit | SysProcessWait
| SysTimeGet | SysTimeSleep | SysTimerSet | SysAuditLog | SysDebugPrint.

Definition syscall_number (s : Syscall) : Z :=
  match s with
  | SysIpcCall => 0 | SysIpcSend => 1 | SysIpcRecv => 2 | SysIpcReply => 3
  | SysIpcCancel => 4 | SysIpcSelect => 5 | SysChannelCreate => 6
  | SysChannelDestroy => 7 | SysRingChannelCreate => 8 | SysRingChannelDestroy => 9
  | SysNotificationCreate => 10 | SysNotificationSignal => 11
  | SysNotificationWait => 12 | SysChannelStats => 13 | SysCapabilityTransfer => 14
  | SysCapabilityAttenuate => 15 | SysCapabilityRevoke => 16 | SysCapabilityList => 17
  | SysMemoryMap => 18 | SysMemoryUnmap => 19 | SysSharedMemoryCreate => 20
  | SysSharedMemoryMap => 21 | SysSharedMemoryShare => 22 | SysProcessCreate => 23
  | SysProcessExit => 24 | SysProcessWait => 25 | SysTimeGet => 26 | SysTimeSleep => 27
  | SysTimerSet => 28 | SysAuditLog => 29 | SysDebugPrint => 30
  end.

Definition SYSCALL_COUNT : Z := 31.

(** ** Argument registers (shared/src/syscall.rs) *)

Definition MAX_CAPS_PER_PROCESS : Z := 256.
Definition MEMORY_FLAGS_MASK : Z := 7.

Definition id_arg (reg : Z) : result Z Z :=
  if reg <=? umax 32 then Ok (wrap 32 reg) else Err (ipc_code Einval).

Definition cap_handle_arg (reg : Z) : result Z Z :=
  if reg <? MAX_CAPS_PER_PROCESS then Ok (wrap 32 reg) else Err (ipc_code Einval).

Definition flags_arg (reg : Z) : result Z Z :=
  if Z.land reg (unot 64 MEMORY_FLAGS_MASK) =? 0 then Ok (wrap 32 reg)
  else Err (ipc_code Einval).

(** ** Identifiers (shared/src/ipc.rs, shared/src/sched.rs) *)

Definition MAX_CHANNELS : Z := 128.
Definition RING_CAPACITY : Z := 16.
Definition MAX_MESSAGE_SIZE : Z := 256.
Definition DEFAULT_TIMEOUT_TICKS : Z := 5000.
Definition MAX_INHERITANCE_DEPTH : Z := 8.
Definition MAX_SHARED_REGIONS : Z := 64.
Definition MAX_SHARED_MAPPINGS : Z := 8.
Definition MAX_NOTIFICATIONS : Z := 64.
Definition MAX_WAITERS_PER_NOTIFICATION : Z := 8.
Definition MAX_SELECT_ENTRIES : Z := 8.
Definition MAX_SERVICES : Z := 16.
Definition MAX_SERVICE_NAME_LEN : Z := 32.
Definition MAX_PROCESSES : Z := 32.

(** [ChannelId::index] and [ProcessId::index]. *)
Definition channel_index (id : Z) : option Z := if id <? MAX_CHANNELS then Some id else None.
Definition process_index (pid : Z) : option Z := if pid <? MAX_PROCESSES then Some pid else None.

(** ** Timeouts: [deadline_after] *)

Definition deadline_after (now timeout_ticks : Z) : option Z :=
  if timeout_ticks =? umax 64 then None
  else match checked_add 64 now timeout_ticks with
       | Some deadline => if negb (deadline =? umax 64) then Some deadline else None
       | None => None
       end.

(** ** User addresses: [validate_user_va] *)

Definition USER_VA_LIMIT : Z := 0x800000000000.
Definition USER_VA_MIN : Z := 0x1000.

Definition validate_user_va (ptr len : Z) : bool :=
  match checked_add 64 ptr len with
  | None => false
  | Some e => (USER_VA_MIN <=? ptr) && (ptr <? USER_VA_LIMIT) && (e <=? USER_VA_LIMIT)
  end.

(** ** Select entries *)

Inductive SelectKind :=
| SelChannel (ch : Z)
| SelNotification (n mask : Z).

Record RawSelectEntry := { raw_kind : Z; raw_id : Z; raw_mask : Z }.

Definition SELECT_KIND_CHANNEL : Z := 0.
Definition SELECT_KIND_NOTIFICATION : Z := 1.
Definition RAW_SELECT_SIZE : Z := 16.

(** [RawSelectEntry::from_bytes]: native byte order is little endian on
    AArch64.  [b] is the 16-byte array. *)
Definition raw_from_bytes (b : list Z) : RawSelectEntry := {|
  raw_kind := le_val (take 4 b);
  raw_id := le_val (take 4 (drop 4 b));
  raw_mask := le_val (take 8 (drop 8 b))
|}.

Definition raw_from_entry (e : SelectKind) : RawSelectEntry :=
  match e with
  | SelChannel ch => {| raw_kind := SELECT_KIND_CHANNEL; raw_id := ch; raw_mask := 0 |}
  | SelNotification n mask =>
      {| raw_kind := SELECT_KIND_NOTIFICATION; raw_id := n; raw_mask := mask |}
  end.

Definition entry_try_from (raw : RawSelectEntry) : result Z SelectKind :=
  if raw_kind raw =? SELECT_KIND_CHANNEL then Ok (SelChannel (raw_id raw))
  else if raw_kind raw =? SELECT_KIND_NOTIFICATION
  then Ok (SelNotification (raw_id raw) (raw_mask raw))
  else Err (ipc_code Einval).

(** The [repr(C)] image of an entry: [kind], [id], [mask] at offsets 0, 4, 8. *)
Definition raw_bytes (r : RawSelectEntry) : list Z :=
  le_bytes 4 (raw_kind r) ++ le_bytes 4 (raw_id r) ++ le_bytes 8 (raw_mask r).

Definition valid_select (e : SelectKind) : Prop :=
  match e with
  | SelChannel ch => uint 32 ch
  | SelNotification n mask => uint 32 n /\ uint 64 mask
  end.

(** ** Service names *)

Inductive ServiceState := SvcRunning | SvcDead.
Inductive EndpointState := EpActive | EpDead.

Record ServiceName := { sn_bytes : list Z; sn_len : Z }.

Definition service_name_from_bytes (name : list Z) : ServiceName :=
  let len := Z.min (alen name) MAX_SERVICE_NAME_LEN in
  {| sn_bytes := take (Z.to_nat len) name ++ drop (Z.to_nat len) (array_of MAX_SERVICE_NAME_LEN 0);
     sn_len := len |}.

Definition service_name_as_bytes (n : ServiceName) : list Z := take (Z.to_nat (sn_len n)) (sn_bytes n).

Definition service_name_matches (n : ServiceName) (other : list Z) : bool :=
  let other_len := Z.min (alen other) MAX_SERVICE_NAME_LEN in
  (sn_len n =? other_len) &&
  bool_decide (take (Z.to_nat (sn_len n)) (sn_bytes n) = take (Z.to_nat other_len) other).

Definition service_name_eq (a b : ServiceName) : bool :=
  (sn_len a =? sn_len b) &&
  bool_decide (take (Z.to_nat (sn_len a)) (sn_bytes a) = take (Z.to_nat (sn_len b)) (sn_bytes b)).

(** ** Messages *)

Record RawMessage := { msg_sender : Z; msg_data : list Z; msg_len : Z }.
Definition RawMessage_EMPTY : RawMessage :=
  {| msg_sender := 0; msg_data := array_of MAX_MESSAGE_SIZE 0; msg_len := 0 |}.

(** ** Scheduler types (shared/src/sched.rs) *)

Inductive SchedulerClass := Idle | Normal | Interactive | RealTime.

#[export] Instance SchedulerClass_eq_dec : EqDecision SchedulerClass.
Proof. solve_decision. Defined.

Definition class_rank (c : SchedulerClass) : Z :=
  match c with Idle => 0 | Normal => 1 | Interactive => 2 | RealTime => 3 end.

Definition default_slice (c : SchedulerClass) : Z :=
  match c with
  | RealTime => 4000000
  | Interactive => 10000000
  | Normal => 50000000
  | Idle => 50000000
  end.

Inductive ThreadState :=
| Runnable
| Running
| BlockedIpc (channel : Z)
| BlockedTimer (wake_at : Z)
| BlockedIo
| BlockedNotification (notification : Z)
| BlockedSelect
| BlockedProcessWait (child_pid : Z)
| Suspended
| Dead.

#[export] Instance ThreadState_eq_dec : EqDecision ThreadState.
Proof. solve_decision. Defined.

(** [CpuSet]: a 64-bit affinity mask.  [single] panics ([None]) from 64 on. *)
Definition cpuset_all : Z := unot 64 0.
Definition cpuset_single (cpu : Z) : option Z :=
  if cpu <? 64 then Some (wrap 64 (Z.shiftl 1 cpu)) else None.
Definition cpuset_contains (bits cpu : Z) : bool :=
  if cpu >=? 64 then false else negb (Z.land bits (wrap 64 (Z.shiftl 1 cpu)) =? 0).
Definition cpuset_count (bits : Z) : Z :=
  alen (List.filter (fun i => Z.testbit bits (Z.of_nat i)) (seq 0 64)).

Record KernelResourceLimits := {
  max_channels : Z;
  max_shared_regions : Z;
  max_pending_messages : Z;
  max_notification_subscriptions : Z;
  max_child_processes : Z
}.

Definition limits_system : KernelResourceLimits := {|
  max_channels := 256; max_shared_regions := 128; max_pending_messages := 1024;
  max_notification_subscriptions := 64; max_child_processes := 32 |}.
Definition limits_native : KernelResourceLimits := {|
  max_channels := 128; max_shared_regions := 64; max_pending_messages := 512;
  max_notification_subscriptions := 32; max_child_processes := 16 |}.
Definition limits_third_party : KernelResourceLimits := {|
  max_channels := 64; max_shared_regions := 32; max_pending_messages := 256;
  max_notification_subscriptions := 16; max_child_processes := 8 |}.
Definition limits_web : KernelResourceLimits := {|
  max_channels := 16; max_shared_regions := 8; max_pending_messages := 64;
  max_notification_subscriptions := 4; max_child_processes := 0 |}.

Definition allows_child (self child : KernelResourceLimits) : bool :=
  (max_channels child <=? max_channels self)
  && (max_shared_regions child <=? max_shared_regions self)
  && (max_pending_messages child <=? max_pending_messages self)
  && (max_notification_subscriptions child <=? max_notification_subscriptions self)
  && (max_child_processes child <=? max_child_processes self).

(** ** Lemmas *)

Lemma ipc_error_all_complete e : e ∈ ipc_error_all.
Proof. apply list_elem_of_In. destruct e; cbn; tauto. Qed.

Lemma ipc_code_inj e1 e2 : ipc_code e1 = ipc_code e2 -> e1 = e2.
Proof. destruct e1, e2; cbn; (done || lia). Qed.

Lemma ipc_code_range e : -13 <= ipc_code e <= -1.
Proof. destruct e; cbn; lia. Qed.

Lemma ipc_code_surj c : -13 <= c <= -1 -> exists e, ipc_code e = c.
Proof.
  intros. assert (H' : c ∈ map ipc_code ipc_error_all).
  { apply list_elem_of_In. cbn. lia. }
  apply list_elem_of_In, in_map_iff in H' as (e & <- & _). by exists e.
Qed.

Lemma id_arg_exact reg : uint 64 reg ->
  id_arg reg = if reg <? 2 ^ 32 then Ok reg else Err (ipc_code Einval).
Proof.
  intros H. unfold id_arg, umax. destruct (Z.leb_spec reg (2 ^ 32 - 1));
    destruct (Z.ltb_spec reg (2 ^ 32)); try lia; [|done].
  rewrite wrap_small; [done|]. unfold uint in *. lia.
Qed.

Lemma flags_arg_exact reg : uint 64 reg ->
  flags_arg reg = if reg <? 8 then Ok reg else Err (ipc_code Einval).
Proof.
  intros H. unfold flags_arg, MEMORY_FLAGS_MASK. change 7 with (Z.ones 3).
  pose proof (land_unot_ones 64 3 reg H ltac:(lia)) as E. change (2 ^ 3) with 8 in E.
  destruct (Z.eqb_spec (Z.land reg (unot 64 (Z.ones 3))) 0) as [E0|E0].
  - apply E in E0. destruct (Z.ltb_spec reg 8); [|lia].
    rewrite wrap_small; [done|]. unfold uint in *. lia.
  - destruct (Z.ltb_spec reg 8) as [Hlt|]; [|done]. by destruct E0; apply E.
Qed.

Lemma raw_roundtrip r :
  uint 32 (raw_kind r) -> uint 32 (raw_id r) -> uint 64 (raw_mask r) ->
  raw_from_bytes (raw_bytes r) = r.
Proof.
  intros Hk Hi Hm. unfold raw_from_bytes, raw_bytes.
  rewrite take_app_le, take_ge by (rewrite !length_le_bytes; lia).
  rewrite drop_app_ge, length_le_bytes, Nat.sub_diag, drop_0 by (rewrite length_le_bytes; lia).
  rewrite take_app_le, take_ge by (rewrite !length_le_bytes; lia).
  rewrite drop_app_ge, length_le_bytes by (rewrite length_le_bytes; lia).
  rewrite drop_app_ge, length_le_bytes, drop_0 by (rewrite length_le_bytes; lia).
  rewrite take_ge by (rewrite !length_le_bytes; lia).
  rewrite !le_val_small; [by destruct r|exact Hm|exact Hi|exact Hk].
Qed.

Lemma service_name_as_bytes_from name :
  service_name_as_bytes (service_name_from_bytes name) = take 32 name.
Proof.
  unfold service_name_as_bytes, service_name_from_bytes, MAX_SERVICE_NAME_LEN; cbn -[array_of].
  unfold alen. rewrite take_app_le, take_take by (rewrite length_take; lia).
  destruct (decide (length name <= 32)%nat).
  - by rewrite !take_ge by lia.
  - f_equal. lia.
Qed.

(** ** Properties *)

(** the error decoder and the error codes are inverse: a raw code decodes
    to [e] exactly when it is [e]'s discriminant, and every other value, 0,
    positives and anything below -13 included, comes back as [Err(code)]. *)
Theorem ipc_error_decode_exact (code : Z) :
  (forall e, ipc_error_try_from code = Ok e <-> code = ipc_code e) /\
  (ipc_error_try_from code = Err code <-> ~ (-13 <= code <= -1)).
Proof.
  unfold ipc_error_try_from.
  destruct (List.find _ ipc_error_all) as [e'|] eqn:E; cbn.
  - apply find_some in E as [_ E%Z.eqb_eq]. split.
    + intros e. split; [intros [= <-]; done|]. intros ->. by rewrite (ipc_code_inj e' e).
    + pose proof (ipc_code_range e'). split; [done|lia].
  - assert (Hno : forall e, ipc_code e <> code).
    { intros e Hc. eapply find_none in E; [|apply list_elem_of_In, (ipc_error_all_complete e)].
      apply Z.eqb_neq in E. done. }
    split; [intros e; split; [done|intros ->; by destruct (Hno e)]|].
    split; [|done]. intros _ Hr. destruct (ipc_code_surj code Hr) as [e He].
    by destruct (Hno e).
Qed.

(** register decoding never truncates.  For every 64-bit register the id,
    capability-handle and memory-flags decoders either return the register's
    own value, when it is below 2^32, below 256, or made of the READ, WRITE
    and EXECUTE bits alone, or fail with EINVAL. *)
Theorem register_decoding_exact (reg : Z) :
  uint 64 reg ->
  id_arg reg = (if reg <? 2 ^ 32 then Ok reg else Err (ipc_code Einval)) /\
  cap_handle_arg reg = (if reg <? 256 then Ok reg else Err (ipc_code Einval)) /\
  flags_arg reg = (if reg <? 8 then Ok reg else Err (ipc_code Einval)).
Proof.
  intros H. split_and!; [by apply id_arg_exact| |by apply flags_arg_exact].
  unfold cap_handle_arg, MAX_CAPS_PER_PROCESS. destruct (Z.ltb_spec reg 256); [|done].
  rewrite wrap_small; [done|]. unfold uint in *. lia.
Qed.

Lemma register_decoding_exact_witness :
  id_arg 0x100000005 = Err (-12) /\ flags_arg 3 = Ok 3.
Proof.
  destruct (register_decoding_exact 0x100000005 ltac:(vm_compute; intuition discriminate)) as [H1 _].
  destruct (register_decoding_exact 3 ltac:(vm_compute; intuition discriminate)) as (_ & _ & H3).
  split; [exact H1|exact H3].
Defined.

(** the select-entry wire format round-trips: encoding an entry as EL0
    does, laying it out in 16 bytes and decoding it as the kernel does gives
    the entry back; and a decoded entry of any 16 bytes carries the id of
    bytes 4..8, the mask of bytes 8..16 for a notification, and an unknown
    kind is EINVAL. *)
Theorem select_entry_roundtrip (e : SelectKind) (b : list Z) :
  valid_select e ->
  length (raw_bytes (raw_from_entry e)) = 16%nat /\
  entry_try_from (raw_from_bytes (raw_bytes (raw_from_entry e))) = Ok e /\
  entry_try_from (raw_from_bytes b) =
    (if le_val (take 4 b) =? 0 then Ok (SelChannel (le_val (take 4 (drop 4 b))))
     else if le_val (take 4 b) =? 1
     then Ok (SelNotification (le_val (take 4 (drop 4 b))) (le_val (take 8 (drop 8 b))))
     else Err (ipc_code Einval)).
Proof.
  intros He. split_and!; [| |done].
  - unfold raw_bytes. by rewrite !length_app, !length_le_bytes.
  - rewrite raw_roundtrip by (destruct e; cbn in *; unfold uint, SELECT_KIND_CHANNEL, SELECT_KIND_NOTIFICATION in *; lia).
    by destruct e.
Qed.

Lemma select_entry_roundtrip_witness :
  entry_try_from (raw_from_bytes (raw_bytes (raw_from_entry (SelNotification 7 0x8000000000000001))))
  = Ok (SelNotification 7 0x8000000000000001).
Proof.
  apply (select_entry_roundtrip (SelNotification 7 0x8000000000000001) []).
  vm_compute; intuition discriminate.
Defined.

(** the user-address check and the deadline computation are exact over
    the mathematical integers, so no register value can wrap: a buffer is
    accepted iff it lies in [[USER_VA_MIN, USER_VA_LIMIT)], and a timeout
    gives a deadline iff it is not the no-deadline value and the sum stays
    below it, never one before now. *)
Theorem user_va_and_deadline_exact (ptr len now timeout : Z) :
  uint 64 ptr -> uint 64 len -> uint 64 now -> uint 64 timeout ->
  (validate_user_va ptr len = true <->
     USER_VA_MIN <= ptr < USER_VA_LIMIT /\ ptr + len <= USER_VA_LIMIT) /\
  (forall d, deadline_after now timeout = Some d <->
     timeout <> 2 ^ 64 - 1 /\ d = now + timeout /\ d < 2 ^ 64 - 1) /\
  (forall d, deadline_after now timeout = Some d -> now <= d).
Proof.
  unfold uint, validate_user_va, deadline_after, USER_VA_MIN, USER_VA_LIMIT, umax, checked_add.
  intros ? ? ? ?. split_and!.
  - destruct (Z.ltb_spec (ptr + len) (2 ^ 64)); [lia|]. lia.
  - intros d. destruct (Z.eqb_spec timeout (2 ^ 64 - 1)); [naive_solver|].
    destruct (Z.ltb_spec (now + timeout) (2 ^ 64)).
    + destruct (Z.eqb_spec (now + timeout) (2 ^ 64 - 1)); cbn; naive_solver lia.
    + naive_solver lia.
  - intros d. destruct (Z.eqb_spec timeout (2 ^ 64 - 1)); [done|].
    destruct (Z.ltb_spec (now + timeout) (2 ^ 64)); [|done].
    case_match; naive_solver lia.
Qed.

Lemma user_va_and_deadline_exact_witness :
  validate_user_va 0x1000 16 = true /\ deadline_after 10 5 = Some 15.
Proof.
  destruct (user_va_and_deadline_exact 0x1000 16 10 5) as (H1 & H2 & _);
    [vm_compute; intuition discriminate..|].
  split; [apply H1|apply H2]; vm_compute; intuition discriminate.
Defined.

(** service names are compared by their first 32 bytes: a stored name
    gives back those bytes, matches a lookup exactly when the two byte
    strings agree on them, and equality of stored names is the same relation. *)
Theorem service_name_matches_prefix (a b : list Z) :
  service_name_as_bytes (service_name_from_bytes a) = take 32 a /\
  (service_name_matches (service_name_from_bytes a) b = true <-> take 32 a = take 32 b) /\
  service_name_eq (service_name_from_bytes a) (service_name_from_bytes b)
  = service_name_matches (service_name_from_bytes a) b.
Proof.
  pose proof (service_name_as_bytes_from a) as Ha. pose proof (service_name_as_bytes_from b) as Hb.
  unfold service_name_as_bytes in *.
  assert (Hb' : take (Z.to_nat (Z.min (alen b) MAX_SERVICE_NAME_LEN)) b = take 32 b).
  { unfold alen, MAX_SERVICE_NAME_LEN. destruct (decide (length b <= 32)%nat).
    - by rewrite !take_ge by lia.
    - f_equal. lia. }
  split_and!; [done| |].
  - unfold service_name_matches. rewrite Ha, Hb', andb_true_iff, bool_decide_eq_true.
    split; [tauto|]. intros E. split; [|done]. cbn. apply (f_equal length) in E.
    rewrite !length_take in E. unfold alen, MAX_SERVICE_NAME_LEN. lia.
  - unfold service_name_eq, service_name_matches. by rewrite Hb, Hb'.
Qed.

