(* ===== verification/Capability.v ===== *)
(** * Capabilities (shared/src/cap.rs)

    The capability kinds, the matching and attenuation rules, tokens and the
    256-slot per-process table with all its operations.  A table is the list
    of its slots and the code's own counter; a handle is a slot index.  The
    main results are the exact meaning of an authorization check and of the
    cascading revocation, and the invariant of a table along any sequence of
    operations. *)

From S2P Require Import Prelude Abi.

Inductive Capability :=
| ChannelCreate
| ChannelAccess (channel : Z)
| SharedMemoryCreate
| SharedMemoryAccess (region : Z)
| SpawnAgent
| DebugPrint
| GpuMmioAccess
| GpuBufferCreate
| GpuBufferAccess (resource : Z)
| DisplayControl
| CompositorCreateSurface
| CompositorFullscreen
| CompositorOverlay
| CompositorInputAccess.

#[export] Instance Capability_eq_dec : EqDecision Capability.
Proof. solve_decision. Defined.

Definition permits (self action : Capability) : bool :=
  match self, action with
  | ChannelCreate, ChannelCreate => true
  | ChannelAccess held, ChannelAccess needed => held =? needed
  | SharedMemoryCreate, SharedMemoryCreate => true
  | SharedMemoryAccess held, SharedMemoryAccess needed => held =? needed
  | SpawnAgent, SpawnAgent => true
  | DebugPrint, DebugPrint => true
  | GpuMmioAccess, GpuMmioAccess => true
  | GpuBufferCreate, GpuBufferCreate => true
  | GpuBufferAccess held, GpuBufferAccess needed => held =? needed
  | DisplayControl, DisplayControl => true
  | CompositorCreateSurface, CompositorCreateSurface => true
  | CompositorFullscreen, CompositorFullscreen => true
  | CompositorOverlay, CompositorOverlay => true
  | CompositorInputAccess, CompositorInputAccess => true
  | _, _ => false
  end.

Definition can_attenuate_to (self other : Capability) : bool :=
  match self, other with
  | ChannelCreate, ChannelAccess _ => true
  | SharedMemoryCreate, SharedMemoryAccess _ => true
  | GpuBufferCreate, GpuBufferAccess _ => true
  | _, _ => permits self other
  end.

Record CapabilityToken := mk_token {
  tok_id : Z;
  capability : Capability;
  holder : Z;
  delegatable : bool;
  revoked : bool;
  parent_token : option Z;
  usage_count : Z;
  created_at_tick : Z;
  expires_at_tick : option Z
}.

(** [token.revoked = true] *)
Definition revoke_token (t : CapabilityToken) : CapabilityToken :=
  mk_token (tok_id t) (capability t) (holder t) (delegatable t) true
    (parent_token t) (usage_count t) (created_at_tick t) (expires_at_tick t).

Record CapabilityTable := mk_table {
  tokens : list (option CapabilityToken);
  count : Z
}.

Definition table_new : CapabilityTable :=
  mk_table (array_of MAX_CAPS_PER_PROCESS None) 0.

Definition grant (tb : CapabilityTable) (token : CapabilityToken) :
    CapabilityTable * result Z Z :=
  match first_none (tokens tb) with
  | Some i => (mk_table (<[i := Some token]> (tokens tb)) (count tb + 1), Ok (Z.of_nat i))
  | None => (tb, Err (ipc_code Enospc))
  end.

Definition get (tb : CapabilityTable) (handle : Z) : option CapabilityToken :=
  if handle >=? MAX_CAPS_PER_PROCESS then None
  else match mjoin ((tokens tb).[handle]) with
       | Some t => if negb (revoked t) then Some t else None
       | None => None
       end.

(** A token an authorization check accepts at tick [now]. *)
Definition authorizes (t : CapabilityToken) (cap : Capability) (now : Z) : bool :=
  if revoked t then false
  else if (match expires_at_tick t with Some e => now >=? e | None => false end) then false
  else permits (capability t) cap.

Definition find_authorizing_token (tb : CapabilityTable) (cap : Capability) (now : Z) :
    option Z :=
  tok_id <$> List.find (fun t => authorizes t cap now) (occupied (tokens tb)).

Definition has_capability (tb : CapabilityTable) (cap : Capability) (now : Z) : bool :=
  match find_authorizing_token tb cap now with Some _ => true | None => false end.

(** First loop of [revoke]: mark the tokens with the id itself. *)
Fixpoint revoke_primary (ts : list (option CapabilityToken)) (id : Z) (tr : list Z) (cnt : Z) :
    list (option CapabilityToken) * list Z * Z :=
  match ts with
  | [] => ([], tr, cnt)
  | None :: ts' =>
      let '(r, tr', c') := revoke_primary ts' id tr cnt in (None :: r, tr', c')
  | Some t :: ts' =>
      if (tok_id t =? id) && negb (revoked t) then
        let '(r, tr', c') := revoke_primary ts' id (tr ++ [id]) (saturating_sub cnt 1) in
        (Some (revoke_token t) :: r, tr', c')
      else
        let '(r, tr', c') := revoke_primary ts' id tr cnt in (Some t :: r, tr', c')
  end.

(** One pass of the cascade: revoke the tokens whose parent was revoked, in
    slot order, adding their ids to the list (which has 256 entries) as it
    goes.  Returns the [changed] flag. *)
Fixpoint cascade_pass (ts : list (option CapabilityToken)) (tr : list Z) (cnt : Z) :
    list (option CapabilityToken) * list Z * Z * bool :=
  match ts with
  | [] => ([], tr, cnt, false)
  | None :: ts' =>
      let '(r, tr', c', ch) := cascade_pass ts' tr cnt in (None :: r, tr', c', ch)
  | Some t :: ts' =>
      if negb (revoked t) &&
         (match parent_token t with Some p => bool_decide (p ∈ tr) | None => false end) then
        let tr1 := if alen tr <? MAX_CAPS_PER_PROCESS then tr ++ [tok_id t] else tr in
        let '(r, tr', c', _) := cascade_pass ts' tr1 (saturating_sub cnt 1) in
        (Some (revoke_token t) :: r, tr', c', true)
      else
        let '(r, tr', c', ch) := cascade_pass ts' tr cnt in (Some t :: r, tr', c', ch)
  end.

(** [while changed]: the boolean tells that a pass changed nothing, i.e. that
    the loop ended before the fuel did. *)
Fixpoint cascade (fuel : nat) (ts : list (option CapabilityToken)) (tr : list Z) (cnt : Z) :
    list (option CapabilityToken) * Z * bool :=
  match fuel with
  | O => (ts, cnt, false)
  | S fuel' =>
      let '(ts', tr', c', changed) := cascade_pass ts tr cnt in
      if changed then cascade fuel' ts' tr' c' else (ts', c', true)
  end.

Definition revoke_loop (tb : CapabilityTable) (id : Z) : CapabilityTable * bool :=
  let '(ts, tr, c) := revoke_primary (tokens tb) id [] (count tb) in
  let '(ts', c', ok) := cascade (S (length ts)) ts tr c in
  (mk_table ts' c', ok).

Definition revoke (tb : CapabilityTable) (id : Z) : CapabilityTable := (revoke_loop tb id).1.

Definition attenuate (tb : CapabilityTable) (handle : Z) (new_cap : Capability)
    (new_expiry : option Z) (new_holder new_id : Z) : CapabilityTable * result Z Z :=
  match get tb handle with
  | None => (tb, Err (ipc_code Eperm))
  | Some parent =>
      if negb (can_attenuate_to (capability parent) new_cap) then (tb, Err (ipc_code Eperm))
      else grant tb (mk_token new_id new_cap new_holder false false (Some (tok_id parent)) 0
                       (created_at_tick parent) new_expiry)
  end.

(** [list]: the ids written to an output buffer of [out_len] entries; the
    result's length is the count returned. *)
Fixpoint list_loop (ts : list (option CapabilityToken)) (out_len max written : Z) : list Z :=
  match ts with
  | [] => []
  | slot :: ts' =>
      if (written >=? max) || (written >=? out_len) then []
      else match slot with
           | Some t =>
               if negb (revoked t) then tok_id t :: list_loop ts' out_len max (written + 1)
               else list_loop ts' out_len max written
           | None => list_loop ts' out_len max written
           end
  end.
Definition list_tokens (tb : CapabilityTable) (out_len max : Z) : list Z :=
  list_loop (tokens tb) out_len max 0.

(** ** Lemmas: matching *)

Lemma permits_iff c a : permits c a = true <-> c = a.
Proof.
  split; [|intros <-; destruct c; cbn; try done; apply Z.eqb_refl].
  destruct c, a; cbn; try done; intros ->%Z.eqb_eq; done.
Qed.

(** ** Lemmas: lookups *)

Lemma get_Some tb h t :
  0 <= h -> get tb h = Some t <->
  h < MAX_CAPS_PER_PROCESS /\ (tokens tb).[h] = Some (Some t) /\ revoked t = false.
Proof.
  intros Hh. unfold get. destruct (Z.geb_spec h MAX_CAPS_PER_PROCESS).
  { split; [done|intros [? _]; lia]. }
  destruct ((tokens tb).[h]) as [[t'|]|]; cbn; [|intuition congruence..].
  destruct (revoked t') eqn:E; cbn; intuition congruence.
Qed.

(** The meaning of an authorization. *)
Lemma authorizes_iff t cap now :
  authorizes t cap now = true <->
  revoked t = false /\ capability t = cap /\
  (forall e, expires_at_tick t = Some e -> now < e).
Proof.
  unfold authorizes. destruct (revoked t); [naive_solver|].
  destruct (expires_at_tick t) as [e|].
  - destruct (Z.geb_spec now e); rewrite ?permits_iff; naive_solver lia.
  - rewrite permits_iff. naive_solver.
Qed.

Lemma has_capability_iff tb cap now :
  has_capability tb cap now = true <->
  exists t, t ∈ occupied (tokens tb) /\ authorizes t cap now = true.
Proof.
  unfold has_capability, find_authorizing_token.
  destruct (List.find _ _) as [t|] eqn:E; cbn.
  - apply find_some in E as [Hin Ha]. split; [|done]. intros _. exists t.
    by rewrite list_elem_of_In.
  - split; [done|]. intros (t & Hin%list_elem_of_In & Ha).
    pose proof (find_none _ _ E t Hin). congruence.
Qed.

(** ** Lemmas: counting the active tokens *)

Definition nactive (ts : list (option CapabilityToken)) : Z :=
  alen (List.filter (fun t => negb (revoked t)) (occupied ts)).

Lemma nactive_nil : nactive [] = 0.
Proof. done. Qed.
Lemma nactive_None ts : nactive (None :: ts) = nactive ts.
Proof. done. Qed.
Lemma nactive_Some t ts :
  nactive (Some t :: ts) = (if revoked t then 0 else 1) + nactive ts.
Proof.
  unfold nactive. rewrite occupied_cons_Some. cbn [List.filter].
  destruct (revoked t); cbn [negb]; rewrite ?alen_cons; lia.
Qed.
Lemma nactive_nonneg ts : 0 <= nactive ts.
Proof. apply alen_nonneg. Qed.
Lemma nactive_length ts : nactive ts <= Z.of_nat (length ts).
Proof.
  induction ts as [|[t|] ts IH]; rewrite ?nactive_nil, ?nactive_None, ?nactive_Some; cbn [length];
    [lia|destruct (revoked t); lia|lia].
Qed.

#[export] Hint Rewrite nactive_nil nactive_None nactive_Some : aios_rw.

Lemma nactive_insert ts i t :
  ts !! i = Some None -> revoked t = false ->
  nactive (<[i := Some t]> ts) = nactive ts + 1.
Proof.
  revert i. induction ts as [|o ts IH]; intros [|i] H Ht; try done; cbn in H.
  - simplify_eq. cbn. rewrite nactive_Some, nactive_None, Ht. lia.
  - cbn. specialize (IH i H Ht).
    destruct o as [t'|]; rewrite ?nactive_Some, ?nactive_None; unfold insert in *; lia.
Qed.

(** ** The cascade: which tokens a revocation condemns *)

(** The tokens a revocation of [id] reaches in the table [ts]: the active
    tokens with that id, and the active children of what it reaches. *)
Inductive condemned (ts : list (option CapabilityToken)) (id : Z) : CapabilityToken -> Prop :=
| condemned_root t :
    t ∈ occupied ts -> revoked t = false -> tok_id t = id -> condemned ts id t
| condemned_child p t :
    condemned ts id p -> t ∈ occupied ts -> revoked t = false ->
    parent_token t = Some (tok_id p) -> condemned ts id t.

Lemma condemned_active ts id t : condemned ts id t -> t ∈ occupied ts /\ revoked t = false.
Proof. by destruct 1. Qed.

Section revocation.
Context (ts0 : list (option CapabilityToken)) (id : Z).

(** A slot the loops have left alone, or revoked with reason. *)
Definition slot_ok (tr : list Z) (o o' : option CapabilityToken) : Prop :=
  o' = o \/
  exists t, o = Some t /\ o' = Some (revoke_token t) /\ condemned ts0 id t /\ tok_id t ∈ tr.

Definition trail_ok (tr : list Z) : Prop :=
  forall x, x ∈ tr -> exists p, condemned ts0 id p /\ tok_id p = x.

Lemma slot_ok_mono tr tr' o o' : tr ⊆ tr' -> slot_ok tr o o' -> slot_ok tr' o o'.
Proof. intros H [->|(t & -> & -> & ? & ?)]; [by left|right; eauto 10]. Qed.

Lemma slots_ok_mono tr tr' us ts :
  tr ⊆ tr' -> Forall2 (slot_ok tr) us ts -> Forall2 (slot_ok tr') us ts.
Proof. intros H HF. induction HF; constructor; eauto using slot_ok_mono. Qed.

(** A slot whose token is still active is untouched. *)
Lemma slot_ok_active tr o t : slot_ok tr o (Some t) -> revoked t = false -> o = Some t.
Proof. intros [->|(t' & -> & [= ->] & _)]; [done|]. cbn. done. Qed.

Lemma trail_ok_snoc tr t : trail_ok tr -> condemned ts0 id t -> trail_ok (tr ++ [tok_id t]).
Proof.
  intros H Ht x [Hx|Hx]%elem_of_app; [by apply H|].
  apply list_elem_of_singleton in Hx as ->. eauto.
Qed.

Lemma revoke_primary_spec us tr cnt :
  occupied us ⊆ occupied ts0 -> trail_ok tr -> 0 <= cnt ->
  let '(ts, tr', c) := revoke_primary us id tr cnt in
  tr ⊆ tr' /\ Forall2 (slot_ok tr') us ts /\ trail_ok tr' /\
  alen tr' + nactive ts = alen tr + nactive us /\
  c = Z.max 0 (cnt - (nactive us - nactive ts)) /\ nactive ts <= nactive us /\
  (forall t, t ∈ occupied ts -> revoked t = false -> tok_id t <> id).
Proof.
  revert tr cnt. induction us as [|[t|] us IH]; intros tr cnt Hus Htr Hc; cbn [revoke_primary].
  - split_and!; try done; [lia|]. intros t Ht. by apply not_elem_of_nil in Ht.
  - rewrite occupied_cons_Some in Hus.
    assert (Hus' : occupied us ⊆ occupied ts0) by set_solver.
    destruct ((tok_id t =? id) && negb (revoked t)) eqn:E.
    + apply andb_true_iff in E as [Eid%Z.eqb_eq Er%negb_true_iff].
      assert (Hcond : condemned ts0 id t) by (apply condemned_root; [set_solver|done..]).
      specialize (IH (tr ++ [id]) (saturating_sub cnt 1) Hus').
      destruct (revoke_primary us id (tr ++ [id]) _) as [[ts tr'] c].
      destruct IH as (H1 & H2 & H3 & H4 & H5 & H6 & H7);
        [rewrite <-Eid; by apply trail_ok_snoc|unfold saturating_sub; lia|].
      rewrite !nactive_Some, Er, alen_app, alen_cons, alen_nil in *. cbn [revoked revoke_token].
      split_and!; [set_solver| |done|lia| |lia|].
      * constructor; [|done]. right. exists t. split_and!; try done. rewrite Eid. set_solver.
      * unfold saturating_sub in H5. lia.
      * rewrite occupied_cons_Some. intros x [->|Hx]%elem_of_cons; [done|by apply H7].
    + specialize (IH tr cnt Hus' Htr Hc).
      destruct (revoke_primary us id tr cnt) as [[ts tr'] c].
      destruct IH as (H1 & H2 & H3 & H4 & H5 & H6 & H7). rewrite !nactive_Some.
      split_and!; [done| |done|lia|lia|lia|].
      * constructor; [by left|done].
      * rewrite occupied_cons_Some. intros x [->|Hx]%elem_of_cons Hr; [|by apply H7].
        rewrite Hr in E. cbn in E. rewrite andb_true_r in E. by apply Z.eqb_neq.
  - rewrite occupied_cons_None in Hus. specialize (IH tr cnt Hus Htr Hc).
    destruct (revoke_primary us id tr cnt) as [[ts tr'] c].
    destruct IH as (H1 & H2 & H3 & H4 & H5 & H6 & H7). rewrite !nactive_None.
    split_and!; try done. constructor; [by left|done].
Qed.

Lemma cascade_pass_spec us ts tr cnt :
  occupied us ⊆ occupied ts0 -> Forall2 (slot_ok tr) us ts -> trail_ok tr -> 0 <= cnt ->
  alen tr + nactive ts <= MAX_CAPS_PER_PROCESS ->
  let '(ts', tr', c, changed) := cascade_pass ts tr cnt in
  tr ⊆ tr' /\ Forall2 (slot_ok tr') us ts' /\ trail_ok tr' /\
  alen tr' + nactive ts' = alen tr + nactive ts /\
  c = Z.max 0 (cnt - (nactive ts - nactive ts')) /\
  (changed = true -> nactive ts' < nactive ts) /\
  (forall t, t ∈ occupied ts' -> revoked t = false -> t ∈ occupied ts) /\
  (changed = false -> ts' = ts /\ tr' = tr /\
     forall t p, t ∈ occupied ts -> revoked t = false -> parent_token t = Some p -> p ∉ tr).
Proof.
  intros Hus H. revert tr cnt Hus H.
  revert us. induction ts as [|o ts IH]; intros us tr cnt Hus H Htr Hc Hcap.
  { cbn. apply Forall2_nil_inv_r in H as ->. split_and!; try done; [lia|].
    intros _. split_and!; try done. intros t p Ht. by apply not_elem_of_nil in Ht. }
  apply Forall2_cons_inv_r in H as (u & us' & Hu & H & ->).
  assert (Hus' : occupied us' ⊆ occupied ts0) by (destruct u; set_solver).
  destruct o as [t|]; cbn [cascade_pass].
  - rewrite nactive_Some in Hcap.
    destruct (negb (revoked t) && _) eqn:E.
    + apply andb_true_iff in E as [Er%negb_true_iff Ep].
      destruct (parent_token t) as [p|] eqn:Ept; [|done]. apply bool_decide_eq_true in Ep.
      pose proof (slot_ok_active _ _ _ Hu Er) as ->.
      destruct (Htr p Ep) as (pt & Hpt & <-).
      assert (Hcond : condemned ts0 id t) by (eapply condemned_child; eauto; set_solver).
      rewrite Er in Hcap. pose proof (nactive_nonneg ts) as Hnn.
      destruct (Z.ltb_spec (alen tr) MAX_CAPS_PER_PROCESS) as [_|?]; [|lia].
      specialize (IH us' (tr ++ [tok_id t]) (saturating_sub cnt 1) Hus').
      destruct (cascade_pass ts (tr ++ [tok_id t]) _) as [[[ts' tr'] c] ch].
      destruct IH as (H1 & H2 & H3 & H4 & H5 & H6 & H9 & H7);
        [eapply slots_ok_mono; [|done]; set_solver|by apply trail_ok_snoc
        |unfold saturating_sub; lia|rewrite alen_app, alen_cons, alen_nil; lia|].
      rewrite !nactive_Some, Er, alen_app, alen_cons, alen_nil in *. cbn [revoked revoke_token].
      assert (nactive ts' <= nactive ts) by (destruct ch; [specialize (H6 eq_refl); lia|by destruct (H7 eq_refl) as [-> _]]).
      split_and!; [set_solver| |done|lia| |intros _; lia| |done].
      * constructor; [|done]. right. exists t. split_and!; try done. set_solver.
      * unfold saturating_sub in H5. lia.
      * rewrite !occupied_cons_Some. intros x [->|Hx]%elem_of_cons Hr; [done|].
        apply elem_of_cons; right; by apply H9.
    + specialize (IH us' tr cnt Hus' H Htr Hc).
      destruct (cascade_pass ts tr cnt) as [[[ts' tr'] c] ch].
      destruct IH as (H1 & H2 & H3 & H4 & H5 & H6 & H9 & H7); [destruct (revoked t); lia|].
      rewrite !nactive_Some.
      split_and!; [done| |done|lia|lia|intros Hch; specialize (H6 Hch); lia| |].
      * constructor; [by eapply slot_ok_mono|done].
      * rewrite !occupied_cons_Some. intros x [->|Hx]%elem_of_cons Hr; apply elem_of_cons;
          [by left|right; by apply H9].
      * intros Hch. destruct (H7 Hch) as (-> & -> & H8). split_and!; try done.
        rewrite occupied_cons_Some. intros x p [->|Hx]%elem_of_cons Hr Hp; [|by eapply H8].
        rewrite Hr, Hp in E. cbn in E. by apply bool_decide_eq_false in E.
  - rewrite nactive_None in Hcap. specialize (IH us' tr cnt Hus' H Htr Hc Hcap).
    destruct (cascade_pass ts tr cnt) as [[[ts' tr'] c] ch].
    destruct IH as (H1 & H2 & H3 & H4 & H5 & H6 & H9 & H7). rewrite !nactive_None.
    split_and!; try done; [constructor; [by eapply slot_ok_mono|done]|].
    intros Hch. destruct (H7 Hch) as (-> & -> & H8). done.
Qed.

Lemma cascade_spec fuel ts tr cnt :
  Forall2 (slot_ok tr) ts0 ts -> trail_ok tr -> 0 <= cnt ->
  alen tr + nactive ts <= MAX_CAPS_PER_PROCESS -> nactive ts < Z.of_nat fuel ->
  exists tr' ts' c, cascade fuel ts tr cnt = (ts', c, true) /\
  tr ⊆ tr' /\ Forall2 (slot_ok tr') ts0 ts' /\
  c = Z.max 0 (cnt - (nactive ts - nactive ts')) /\ nactive ts' <= nactive ts /\
  (forall t, t ∈ occupied ts' -> revoked t = false -> t ∈ occupied ts) /\
  forall t p, t ∈ occupied ts' -> revoked t = false -> parent_token t = Some p -> p ∉ tr'.
Proof.
  revert ts tr cnt. induction fuel as [|fuel IH]; intros ts tr cnt H Htr Hc Hcap Hf.
  { pose proof (nactive_nonneg ts). lia. }
  cbn [cascade].
  pose proof (cascade_pass_spec ts0 ts tr cnt ltac:(set_solver) H Htr Hc Hcap) as Hp.
  destruct (cascade_pass ts tr cnt) as [[[ts' tr'] c] [|]].
  - destruct Hp as (H1 & H2 & H3 & H4 & H5 & H6 & H9 & _). specialize (H6 eq_refl).
    destruct (IH ts' tr' c H2 H3 ltac:(lia) ltac:(lia) ltac:(lia))
      as (tr2 & ts2 & c2 & E & I1 & I2 & I3 & I4 & I6 & I5).
    exists tr2, ts2, c2. split_and!; try done; [set_solver|lia|lia|].
    intros x Hx Hr. apply H9; [by apply I6|done].
  - destruct Hp as (H1 & H2 & H3 & H4 & H5 & _ & _ & H7).
    destruct (H7 eq_refl) as (-> & -> & H8). exists tr, ts, c. by split_and!.
Qed.
End revocation.

(** ** Revocation is exact *)

(** What a revocation does to one slot. *)
Definition revoked_slot (ts : list (option CapabilityToken)) (id : Z)
    (o o' : option CapabilityToken) : Prop :=
  (exists t, o = Some t /\ condemned ts id t /\ o' = Some (revoke_token t)) \/
  (o' = o /\ forall t, o = Some t -> ~ condemned ts id t).

Lemma revoke_loop_spec tb id :
  length (tokens tb) = Z.to_nat MAX_CAPS_PER_PROCESS -> 0 <= count tb ->
  exists tb', revoke_loop tb id = (tb', true) /\
    Forall2 (revoked_slot (tokens tb) id) (tokens tb) (tokens tb') /\
    count tb' = Z.max 0 (count tb - (nactive (tokens tb) - nactive (tokens tb'))) /\
    nactive (tokens tb') <= nactive (tokens tb).
Proof.
  intros Hlen Hc. unfold revoke_loop. set (ts0 := tokens tb) in *.
  pose proof (revoke_primary_spec ts0 id ts0 [] (count tb) ltac:(done)
                ltac:(intros x Hx; by apply not_elem_of_nil in Hx) Hc) as Hp.
  destruct (revoke_primary ts0 id [] (count tb)) as [[ts tr] c].
  destruct Hp as (_ & P2 & P3 & P4 & P5 & P6 & P7). rewrite alen_nil in P4.
  pose proof (nactive_length ts0) as Hn0. rewrite Hlen in Hn0.
  pose proof (nactive_length ts) as Hn.
  destruct (cascade_spec ts0 id (S (length ts)) ts tr c P2 P3 ltac:(lia)
     ltac:(unfold MAX_CAPS_PER_PROCESS in *; lia) ltac:(lia))
    as (tr' & ts' & c' & E & C1 & C2 & C3 & C4 & C5 & C6).
  rewrite E. eexists. split; [done|]. cbn. split_and!; [|lia|lia].
  assert (Hcomp : forall t, condemned ts0 id t -> (t ∉ occupied ts') /\ (tok_id t ∈ tr')).
  { assert (Hsame : forall t, t ∈ occupied ts0 -> revoked t = false ->
      t ∉ occupied ts' -> tok_id t ∈ tr').
    { intros t (i & Hi)%elem_of_occupied Hr Hno.
      destruct (Forall2_lookup_l _ _ _ _ _ C2 Hi) as (o' & Ho' & [->|(t' & [= <-] & _ & _ & ?)]); [|done].
      destruct Hno. apply elem_of_occupied. by exists i. }
    induction 1 as [t Hin Hr Hid|p t Hp IH Hin Hr Hpar].
    - assert (t ∉ occupied ts') by (intros Hin'; apply (P7 t); [by apply C5|done|done]). auto.
    - assert (t ∉ occupied ts') by (intros Hin'; by apply (C6 t (tok_id p) Hin' Hr Hpar), IH). auto. }
  apply Forall2_same_length_lookup. split; [by eapply Forall2_length|].
  intros i o o' Ho Ho'. pose proof (Forall2_lookup_lr _ _ _ _ _ _ C2 Ho Ho')
    as [->|(t & -> & -> & ? & _)]; [|left; eauto].
  right. split; [done|]. intros t -> Ht. destruct (Hcomp t Ht) as [Hno _].
  apply Hno, elem_of_occupied. by exists i.
Qed.

(** ** The table invariant *)

Record table_wf (tb : CapabilityTable) : Prop := {
  wf_len : length (tokens tb) = Z.to_nat MAX_CAPS_PER_PROCESS;
  wf_count : count tb = nactive (tokens tb)
}.

(** A transition of a table: the operations the kernel performs on it.  A
    granted token is a fresh, unrevoked one. *)
Inductive table_step : CapabilityTable -> CapabilityTable -> Prop :=
| step_grant tb t : revoked t = false -> table_step tb (grant tb t).1
| step_revoke tb id : table_step tb (revoke tb id)
| step_attenuate tb h cap exp who id : table_step tb (attenuate tb h cap exp who id).1.

Lemma table_new_wf : table_wf table_new.
Proof. by split. Qed.

Lemma grant_wf tb t : revoked t = false -> table_wf tb -> table_wf (grant tb t).1.
Proof.
  intros Ht [Hl Hc]. unfold grant.
  destruct (first_none (tokens tb)) as [i|] eqn:E; cbn; [|done].
  apply first_none_Some in E as [E _]. split; cbn; [by rewrite length_insert|].
  rewrite nactive_insert by done. lia.
Qed.

Lemma revoke_wf tb id : table_wf tb -> table_wf (revoke tb id).
Proof.
  intros [Hl Hc]. pose proof (nactive_nonneg (tokens tb)).
  destruct (revoke_loop_spec tb id Hl ltac:(lia)) as (tb' & E & Hf & Hcnt & Hle).
  unfold revoke. rewrite E. cbn. split.
  - rewrite <-Hl. symmetry. by eapply Forall2_length.
  - pose proof (nactive_nonneg (tokens tb')). lia.
Qed.

Lemma attenuate_wf tb h cap exp who id : table_wf tb -> table_wf (attenuate tb h cap exp who id).1.
Proof.
  intros Hw. unfold attenuate. destruct (get tb h); [|done].
  destruct (can_attenuate_to _ _); cbn; [by apply grant_wf|done].
Qed.

#[export] Hint Resolve table_new_wf grant_wf revoke_wf attenuate_wf : aios.

Lemma grant_Ok tb t tb' h :
  grant tb t = (tb', Ok h) <->
  exists i : nat, h = Z.of_nat i /\ tokens tb !! i = Some None /\
    (forall j, (j < i)%nat -> exists x, tokens tb !! j = Some (Some x)) /\
    tb' = mk_table (<[i := Some t]> (tokens tb)) (count tb + 1).
Proof.
  unfold grant. destruct (first_none (tokens tb)) as [i|] eqn:E.
  - apply first_none_Some in E as [E1 E2]. split.
    + intros [= <- <-]. eauto 10.
    + intros (k & -> & Hk & Hlt & ->). replace k with i; [done|].
      destruct (lt_eq_lt_dec i k) as [[Hl|]|Hl]; [|done|].
      * destruct (Hlt _ Hl). congruence.
      * destruct (E2 _ Hl). congruence.
  - split; [done|]. intros (k & _ & Hk & _).
    destruct (proj1 (first_none_None _) E None) as [? ?]; [|done].
    by eapply list_elem_of_lookup_2.
Qed.

(** ** Properties *)

(** C38: an authorization check succeeds exactly when the table holds a token
    that is not revoked, has not expired at [now], and whose capability is
    the requested one (same kind and same resource id); the id it reports is
    that of such a token, the first in slot order. *)
Theorem authorization_exact (tb : CapabilityTable) (cap : Capability) (now : Z) :
  (has_capability tb cap now = true <->
   exists t, t ∈ occupied (tokens tb) /\ revoked t = false /\ capability t = cap /\
     forall e, expires_at_tick t = Some e -> now < e) /\
  (forall id, find_authorizing_token tb cap now = Some id ->
   exists (i : nat) t, tokens tb !! i = Some (Some t) /\ tok_id t = id /\
     authorizes t cap now = true /\
     forall (j : nat) u, (j < i)%nat -> tokens tb !! j = Some (Some u) -> authorizes u cap now = false).
Proof.
  split.
  - rewrite has_capability_iff. setoid_rewrite authorizes_iff. done.
  - intros id. unfold find_authorizing_token. rewrite fmap_Some. intros (t & Hf & ->).
    induction (tokens tb) as [|[u|] ts IH]; cbn in Hf; [done|..].
    + destruct (authorizes u cap now) eqn:Eu.
      * simplify_eq. exists O, t. split_and!; try done. intros; lia.
      * destruct (IH Hf) as (i & t' & Hi & Hid & Ha & Hlt). exists (S i), t'. split_and!; try done.
        intros [|j] w ? Hw; [cbn in Hw; by simplify_eq|]. apply (Hlt j); [lia|done].
    + destruct (IH Hf) as (i & t' & Hi & Hid & Ha & Hlt). exists (S i), t'. split_and!; try done.
      intros [|j] w ? Hw; [done|]. apply (Hlt j); [lia|done].
Qed.

(** C37: revocation is exact and terminates.  [revoke] ends (its loop runs out
    of changes before its fuel), marks precisely the active tokens with the
    given id and their active descendants in the table, however long the
    parent chain and whatever the slot order, leaves every other slot
    untouched, and keeps the counter equal to the number of active tokens. *)
Theorem revoke_exact (tb : CapabilityTable) (id : Z) :
  table_wf tb ->
  (revoke_loop tb id).2 = true /\
  Forall2 (revoked_slot (tokens tb) id) (tokens tb) (tokens (revoke tb id)) /\
  count (revoke tb id) = nactive (tokens (revoke tb id)).
Proof.
  intros Hw. pose proof (wf_count _ (revoke_wf tb id Hw)). destruct Hw as [Hl Hc].
  pose proof (nactive_nonneg (tokens tb)).
  destruct (revoke_loop_spec tb id Hl ltac:(lia)) as (tb' & E & Hf & _).
  unfold revoke in *. rewrite E in *. cbn in *. done.
Qed.

Definition witness_token (id : Z) (cap : Capability) (parent : option Z) : CapabilityToken :=
  mk_token id cap 3 true false parent 0 0 None.
Definition witness_table : CapabilityTable :=
  let tb1 := (grant table_new (witness_token 7 ChannelCreate None)).1 in
  (attenuate tb1 0 (ChannelAccess 5) None 3 8).1.

Lemma revoke_exact_witness :
  (revoke_loop witness_table 7).2 = true /\ count witness_table = 2 /\
  count (revoke witness_table 7) = 0 /\ has_capability (revoke witness_table 7) (ChannelAccess 5) 0 = false.
Proof.
  destruct (revoke_exact witness_table 7) as (H1 & _ & H3).
  { apply attenuate_wf, grant_wf; [done|apply table_new_wf]. }
  split_and!; [exact H1|done| |]; vm_compute; reflexivity.
Defined.

(** after a revocation the authority that remains is exactly that of the
    tokens it did not condemn: a check on the new table succeeds iff some
    token of the old table authorizes it and is neither the revoked token nor
    a descendant of it. *)
Theorem revoke_authority (tb : CapabilityTable) (id : Z) (cap : Capability) (now : Z) :
  table_wf tb ->
  has_capability (revoke tb id) cap now = true <->
  exists t, t ∈ occupied (tokens tb) /\ authorizes t cap now = true /\ ~ condemned (tokens tb) id t.
Proof.
  intros [Hl Hc]. pose proof (nactive_nonneg (tokens tb)).
  destruct (revoke_loop_spec tb id Hl ltac:(lia)) as (tb' & E & Hf & _).
  unfold revoke. rewrite E, has_capability_iff. cbn. split.
  - intros (t & (i & Hi)%elem_of_occupied & Ha). pose proof (proj1 (authorizes_iff _ _ _) Ha) as [Hr _].
    destruct (Forall2_lookup_r _ _ _ _ _ Hf Hi) as (o & Ho & [(t' & -> & _ & [= Heq])|[<- Hn]]); [by subst|].
    exists t. split_and!; [apply elem_of_occupied; eauto|done|by apply Hn].
  - intros (t & (i & Hi)%elem_of_occupied & Ha & Hn).
    destruct (Forall2_lookup_l _ _ _ _ _ Hf Hi) as (o & Ho & [(t' & [= <-] & ? & _)|[-> _]]); [done|].
    exists t. split; [apply elem_of_occupied; eauto|done].
Qed.

Lemma revoke_authority_witness :
  has_capability (revoke witness_table 8) ChannelCreate 0 = true.
Proof.
  apply (revoke_authority witness_table 8 ChannelCreate 0).
  { apply attenuate_wf, grant_wf; [done|apply table_new_wf]. }
  exists (witness_token 7 ChannelCreate None). split_and!.
  - apply list_elem_of_In. vm_compute. by left.
  - done.
  - intros Hx. inversion Hx as [? ? ? Hid|? ? ? ? ? Hp]; [discriminate Hid|discriminate Hp].
Defined.

(** every table reachable from an empty one by grants of fresh tokens,
    attenuations and revocations has its 256 slots and a counter equal to the
    number of active tokens, so the [u32] counter never overflows or
    saturates. *)
Theorem table_reachable_wf (tb : CapabilityTable) :
  rtc table_step table_new tb -> table_wf tb /\ 0 <= count tb <= 256.
Proof.
  intros H. assert (Hw : table_wf tb).
  { eapply rtc_preserves; [|exact H|apply table_new_wf].
    intros a b Hs Ha. destruct Hs; auto with aios. }
  split; [done|]. destruct Hw as [Hl Hc]. rewrite Hc.
  pose proof (nactive_nonneg (tokens tb)). pose proof (nactive_length (tokens tb)).
  rewrite Hl in *. unfold MAX_CAPS_PER_PROCESS in *. lia.
Qed.

Lemma table_reachable_wf_witness : table_wf (revoke witness_table 7).
Proof.
  apply (table_reachable_wf (revoke witness_table 7)).
  eapply rtc_l; [apply (step_grant table_new (witness_token 7 ChannelCreate None)); done|].
  eapply rtc_l; [apply (step_attenuate _ 0 (ChannelAccess 5) None 3 8)|].
  eapply rtc_l; [apply (step_revoke _ 7)|]. apply rtc_refl.
Defined.

(** attenuation on every branch.  It fails with EPERM, leaving the table
    unchanged, unless the handle names an unrevoked token whose capability
    is the requested one or the matching create capability; with ENOSPC when
    no slot is empty; and otherwise puts in the lowest empty slot a child
    that names its parent, cannot be delegated, and authorizes nothing but
    [cap]; every other slot is unchanged. *)
Theorem attenuate_spec (tb : CapabilityTable) (h : Z) (cap : Capability) (exp : option Z) (who id : Z) :
  table_wf tb -> 0 <= h ->
  match get tb h with
  | None => attenuate tb h cap exp who id = (tb, Err (ipc_code Eperm))
  | Some p =>
      if negb (can_attenuate_to (capability p) cap)
      then attenuate tb h cap exp who id = (tb, Err (ipc_code Eperm))
      else if decide (Exists (fun o => o = None) (tokens tb)) then
        exists (i : nat) (child : CapabilityToken) (tb' : CapabilityTable),
          attenuate tb h cap exp who id = (tb', Ok (Z.of_nat i)) /\
          tokens tb !! i = Some None /\ tokens tb' = <[i := Some child]> (tokens tb) /\
          get tb' (Z.of_nat i) = Some child /\ parent_token child = Some (tok_id p) /\
          delegatable child = false /\ expires_at_tick child = exp /\
          (forall c now, authorizes child c now = true -> c = cap)
      else attenuate tb h cap exp who id = (tb, Err (ipc_code Enospc))
  end.
Proof.
  intros [Hl _] Hh. unfold attenuate. destruct (get tb h) as [p|]; [|done].
  destruct (can_attenuate_to (capability p) cap) eqn:Eca; cbn [negb]; [|done].
  set (child := mk_token id cap who false false (Some (tok_id p)) 0 (created_at_tick p) exp).
  unfold grant. destruct (first_none (tokens tb)) as [i|] eqn:E.
  - apply first_none_Some in E as [E _]. pose proof (lookup_lt_Some _ _ _ E) as Hi.
    destruct (decide _) as [_|Hn].
    + exists i, child. eexists. split_and!; try done.
      * apply get_Some; [lia|]. cbn. rewrite Hl in Hi. unfold aget.
        rewrite Nat2Z.id, list_lookup_insert_eq by lia. split_and!; [lia|done..].
      * intros c now [_ [<- _]]%authorizes_iff. done.
    + destruct Hn. apply Exists_exists. exists None. split; [by eapply list_elem_of_lookup_2|done].
  - destruct (decide _) as [Hx|_]; [|done]. apply Exists_exists in Hx as (o & Ho & ->).
    by destruct (proj1 (first_none_None _) E None Ho).
Qed.

Lemma attenuate_spec_witness :
  (attenuate witness_table 0 (ChannelAccess 9) (Some 100) 3 11).2 = Ok 2 /\
  attenuate witness_table 1 (ChannelAccess 6) None 3 11 = (witness_table, Err (-6)).
Proof.
  pose proof (attenuate_spec witness_table 0 (ChannelAccess 9) (Some 100) 3 11
    ltac:(apply attenuate_wf, grant_wf; [done|apply table_new_wf]) ltac:(lia)) as _.
  pose proof (attenuate_spec witness_table 1 (ChannelAccess 6) None 3 11
    ltac:(apply attenuate_wf, grant_wf; [done|apply table_new_wf]) ltac:(lia)) as H2.
  split; [vm_compute; reflexivity|exact H2].
Defined.

(** attenuation does not bound the expiry.  From a token that expires at
    tick [e] a process can derive, while the token is unrevoked, a child of
    the same capability that never expires, so a check succeeds at every
    tick, also after [e]: restriction is not monotone in time. *)
Theorem attenuate_expiry_unbounded (tb : CapabilityTable) (h e who id now : Z) (p : CapabilityToken) :
  0 <= h -> get tb h = Some p -> expires_at_tick p = Some e ->
  Exists (fun o => o = None) (tokens tb) ->
  let '(tb', r) := attenuate tb h (capability p) None who id in
  is_ok r = true /\ has_capability tb' (capability p) now = true.
Proof.
  intros Hh Hg He Hx. unfold attenuate. rewrite Hg.
  assert (Hself : can_attenuate_to (capability p) (capability p) = true).
  { destruct (capability p); cbn; try done; apply Z.eqb_refl. }
  rewrite Hself. cbn [negb]. unfold grant.
  destruct (first_none (tokens tb)) as [i|] eqn:E.
  - split; [done|]. apply has_capability_iff. cbn. eexists. split.
    + apply elem_of_occupied. exists i. apply list_lookup_insert_eq.
      apply first_none_Some in E as [E _]. by eapply lookup_lt_Some.
    + apply authorizes_iff. done.
  - apply Exists_exists in Hx as (o & Ho & ->).
    by destruct (proj1 (first_none_None _) E None Ho).
Qed.

Lemma attenuate_expiry_unbounded_witness :
  let tb := (grant table_new (mk_token 7 (ChannelAccess 5) 3 true false None 0 0 (Some 10))).1 in
  has_capability tb (ChannelAccess 5) 1000 = false /\
  has_capability (attenuate tb 0 (ChannelAccess 5) None 3 8).1 (ChannelAccess 5) 1000 = true.
Proof.
  cbn zeta. split; [vm_compute; reflexivity|].
  refine (proj2 (attenuate_expiry_unbounded
    (grant table_new (mk_token 7 (ChannelAccess 5) 3 true false None 0 0 (Some 10))).1
    0 10 3 8 1000 (mk_token 7 (ChannelAccess 5) 3 true false None 0 0 (Some 10))
    ltac:(lia) ltac:(vm_compute; reflexivity) eq_refl _)).
  apply Exists_exists. exists None. split; [|done]. apply list_elem_of_In. vm_compute. tauto.
Defined.
