(* ===== verification/PhysMem.v ===== *)
(** * Physical memory

    Memory as the kernel's raw pointers see it: a total map from physical
    byte address to byte, read and written little endian with
    [read_volatile]/[write_volatile] at 8, 32 or 64 bits.  The identity map
    of early boot and the TTBR1 direct map (kernel/src/mm/buddy.rs,
    [phys_to_virt]) both lead to the same physical byte, so the map is
    indexed by the physical address. *)

From S2P Require Import Prelude.

Definition mem := Z -> Z.

Definition load_bytes (m : mem) (a : Z) (n : nat) : list Z :=
  (fun i => m (a + Z.of_nat i)) <$> seq 0 n.

Definition load (n : nat) (m : mem) (a : Z) : Z := le_val (load_bytes m a n).

Definition store (n : nat) (m : mem) (a v : Z) : mem := fun x =>
  if (a <=? x) && (x <? a + Z.of_nat n)
  then default 0 (le_bytes n v !! Z.to_nat (x - a)) else m x.

Definition load8 := load 1.
Definition load32 := load 4.
Definition load64 := load 8.
Definition store8 := store 1.
Definition store32 := store 4.
Definition store64 := store 8.

#[global] Arguments load : simpl never.
#[global] Arguments store : simpl never.
#[global] Arguments load8 : simpl never.
#[global] Arguments load32 : simpl never.
#[global] Arguments load64 : simpl never.
#[global] Arguments store8 : simpl never.
#[global] Arguments store32 : simpl never.
#[global] Arguments store64 : simpl never.

(** [ptr::write_bytes(a, v, n)] *)
Definition write_bytes (m : mem) (a v n : Z) : mem := fun x =>
  if (a <=? x) && (x <? a + n) then v else m x.

(** The bytes of memory are bytes. *)
Definition mem_ok (m : mem) : Prop := forall x, is_byte (m x).

Lemma store_other n m a v x : ~ (a <= x < a + Z.of_nat n) -> store n m a v x = m x.
Proof. intros H. unfold store. case_match; [lia|done]. Qed.

Lemma load_ext n m m' a :
  (forall x, a <= x < a + Z.of_nat n -> m' x = m x) -> load n m' a = load n m a.
Proof.
  intros H. unfold load, load_bytes. f_equal. apply list_fmap_ext.
  intros i x Hx. apply lookup_seq in Hx as [-> Hi]. cbn. apply H. lia.
Qed.

Lemma load_store_ne n1 n2 m a v b :
  b + Z.of_nat n1 <= a \/ a + Z.of_nat n2 <= b -> load n1 (store n2 m a v) b = load n1 m b.
Proof. intros H. apply load_ext. intros x Hx. apply store_other. lia. Qed.

Lemma load_store_eq n m a v :
  0 <= v < 256 ^ Z.of_nat n -> load n (store n m a v) a = v.
Proof.
  intros Hv. rewrite <-(le_val_small n v Hv) at 2. unfold load. f_equal.
  apply list_eq. intros i. unfold load_bytes. rewrite list_lookup_fmap.
  destruct (decide (i < n)%nat).
  - rewrite lookup_seq_lt by done. cbn. unfold store.
    destruct (Z.leb_spec a (a + Z.of_nat i)); [|lia].
    destruct (Z.ltb_spec (a + Z.of_nat i) (a + Z.of_nat n)); [|lia]. cbn.
    replace (Z.to_nat (a + Z.of_nat i - a)) with i by lia.
    destruct (lookup_lt_is_Some_2 (le_bytes n v) i) as [b Hb]; [rewrite length_le_bytes; lia|].
    by rewrite Hb.
  - rewrite lookup_seq_ge by lia. cbn. symmetry. apply lookup_ge_None.
    rewrite length_le_bytes. lia.
Qed.

Lemma store_mem_ok n m a v : mem_ok m -> mem_ok (store n m a v).
Proof.
  intros Hm x. unfold store. case_match; [|done].
  destruct (le_bytes n v !! _) as [b|] eqn:E; cbn; [|unfold is_byte; lia].
  apply (proj1 (Forall_lookup _ _) (le_bytes_bytes n v) _ _ E).
Qed.

Lemma load_bound n m a : mem_ok m -> 0 <= load n m a < 256 ^ Z.of_nat n.
Proof.
  intros Hm. unfold load.
  pose proof (le_val_bound (load_bytes m a n)) as H. unfold load_bytes in *.
  rewrite length_fmap, length_seq in H. apply H.
  apply Forall_fmap, Forall_forall. intros i _. apply Hm.
Qed.

(** A 32-bit read sees the low half of the 64-bit word. *)
Lemma load32_load64 m a : mem_ok m -> load32 m a = load64 m a mod 2 ^ 32.
Proof.
  intros Hm. unfold load32, load64, load, load_bytes. cbn [seq fmap list_fmap le_val].
  repeat match goal with |- context [m ?x] => pose proof (Hm x); generalize dependent (m x); intros end.
  unfold is_byte in *. divlia.
Qed.
