(* ===== verification/Memory.v ===== *)
(** * Memory helpers (shared/src/memory.rs, shared/src/kaslr.rs)

    The pure functions of the memory subsystem: pressure levels, the pool
    budgets, buddy orders and addresses, tick conversion, benchmark
    statistics and the KASLR slide. *)

From S2P Require Import Prelude.

Definition MIB : Z := 1024 * 1024.
Definition GIB : Z := 1024 * MIB.

Inductive Pool := PoolKernel | PoolUser | PoolModel | PoolDma.

#[export] Instance Pool_eq_dec : EqDecision Pool.
Proof. solve_decision. Defined.

Inductive MemoryPressure := PNormal | PLow | PCritical | POom.

Definition pressure_rank (p : MemoryPressure) : Z :=
  match p with PNormal => 0 | PLow => 1 | PCritical => 2 | POom => 3 end.

(** [MemoryPressure::from_free_ratio]; [free * 100] is computed in [usize]. *)
Definition from_free_ratio (free total : Z) : MemoryPressure :=
  if total =? 0 then POom
  else
    let percent := (free * 100) / total in
    if percent >? 20 then PNormal
    else if percent >? 10 then PLow
    else if percent >=? 5 then PCritical
    else POom.

Record PoolConfig := mk_config {
  cfg_kernel : Z;
  cfg_model : Z;
  cfg_user : Z;
  cfg_dma : Z;
  cfg_reserved : Z
}.

Definition from_total_ram (total : Z) : PoolConfig :=
  let '(kernel, model, dma, reserved) :=
    if total <? 4 * GIB then (128 * MIB, 0, 64 * MIB, 64 * MIB)
    else if total <? 8 * GIB then (256 * MIB, 2 * GIB, 128 * MIB, 128 * MIB)
    else if total <? 16 * GIB then (256 * MIB, 4 * GIB, 128 * MIB, 128 * MIB)
    else (256 * MIB, 8 * GIB, 128 * MIB, 128 * MIB) in
  let fixed := kernel + model + dma + reserved in
  let user := saturating_sub total fixed in
  mk_config kernel model user dma reserved.

(** [order_for_pages]: the [while (1 << order) < pages] loop; 64 steps are
    enough for a [usize], since the shift reaches 2^63 first. *)
Fixpoint order_loop (fuel : nat) (order pages : Z) : Z :=
  match fuel with
  | O => order
  | S fuel' => if 2 ^ order <? pages then order_loop fuel' (order + 1) pages else order
  end.
Definition order_for_pages (pages : Z) : Z :=
  if pages <=? 1 then 0 else order_loop 64 0 pages.

(** [ticks_to_ns]: a [u128] product, truncated to [u64]. *)
Definition ticks_to_ns (ticks freq : Z) : Z :=
  if freq =? 0 then 0 else wrap 64 ((ticks * 1000000000) / freq).

Definition PAGE_SHIFT : Z := 12.

(** [buddy_of]: flip bit [order + 12] of the offset. *)
Definition buddy_of (addr base : Z) (order : nat) : Z :=
  let offset := addr - base in
  let buddy_offset := Z.lxor offset (Z.shiftl 1 (Z.of_nat order + PAGE_SHIFT)) in
  base + buddy_offset.

(** ** Benchmark statistics *)

Record BenchStats := mk_stats { bs_count : Z; bs_min : Z; bs_max : Z; bs_sum : Z }.

Definition stats_new : BenchStats := mk_stats 0 (umax 64) 0 0.

Definition stats_record (s : BenchStats) (v : Z) : BenchStats :=
  mk_stats (bs_count s + 1)
    (if v <? bs_min s then v else bs_min s)
    (if v >? bs_max s then v else bs_max s)
    (bs_sum s + v).

Definition stats_avg (s : BenchStats) : Z :=
  if bs_count s =? 0 then 0 else bs_sum s / bs_count s.

Definition percentile (sorted_samples : list Z) (p : Z) : Z :=
  match sorted_samples with
  | [] => 0
  | _ =>
      let idx := alen sorted_samples * p / 100 in
      let clamped := Z.min idx (alen sorted_samples - 1) in
      default 0 (sorted_samples.[clamped])
  end.

(** The inner loop of [insertion_sort] from index [j]: shift larger samples up
    and store [key] where it stops. *)
Fixpoint sift (j : nat) (s : list Z) (key : Z) : list Z :=
  match j with
  | O => <[O := key]> s
  | S j' =>
      if s !!! j' >? key then sift j' (<[S j' := s !!! j']> s) key
      else <[S j' := key]> s
  end.

Fixpoint sort_from (n i : nat) (s : list Z) : list Z :=
  match n with
  | O => s
  | S n' => sort_from n' (S i) (sift i s (s !!! i))
  end.
Definition insertion_sort (s : list Z) : list Z := sort_from (length s - 1) 1 s.

(** ** KASLR (shared/src/kaslr.rs) *)

Record KaslrConfig := mk_kaslr { k_base : Z; k_alignment : Z; k_slide_range : Z; k_slide : Z }.

Definition kaslr_default : KaslrConfig :=
  mk_kaslr 0xFFFF000000000000 (2 * 1024 * 1024) (128 * 1024 * 1024) 0.

Definition compute_slide_from_entropy (entropy : Z) : KaslrConfig :=
  let config := kaslr_default in
  let steps := k_slide_range config / k_alignment config in
  let slide := (entropy mod steps) * k_alignment config in
  mk_kaslr (k_base config) (k_alignment config) (k_slide_range config) slide.

(** ** Orders *)

Lemma order_loop_spec fuel o pages :
  0 <= o -> (o = 0 \/ 2 ^ (o - 1) < pages) -> pages <= 2 ^ (o + Z.of_nat fuel) ->
  let r := order_loop fuel o pages in
  o <= r <= o + Z.of_nat fuel /\ pages <= 2 ^ r /\ (r = 0 \/ 2 ^ (r - 1) < pages).
Proof.
  revert o. induction fuel as [|fuel IH]; intros o Ho Hlow Hhigh; cbn [order_loop]; cbn zeta.
  { rewrite Z.add_0_r in Hhigh. split_and!; (lia || done). }
  destruct (Z.ltb_spec (2 ^ o) pages) as [Hlt|Hge].
  - destruct (IH (o + 1)) as (H1 & H2 & H3).
    + lia.
    + right. by replace (o + 1 - 1) with o by lia.
    + by replace (o + 1 + Z.of_nat fuel) with (o + Z.of_nat (S fuel)) by lia.
    + split_and!; (lia || done).
  - split_and!; (lia || done).
Qed.

(** ** Ascending lists *)

Fixpoint ascending (l : list Z) : Prop :=
  match l with [] => True | x :: l' => Forall (fun y => x <= y) l' /\ ascending l' end.

Lemma ascending_snoc l y : ascending (l ++ [y]) <-> ascending l /\ Forall (fun x => x <= y) l.
Proof.
  induction l as [|x l IH]; cbn; [by rewrite Forall_nil|].
  rewrite IH, Forall_app, !Forall_cons, Forall_nil. tauto.
Qed.

(** One [sift]: the key goes into the sorted prefix, the rest is untouched. *)
Lemma sift_spec pre h post key :
  exists r, sift (length pre) (pre ++ h :: post) key = r ++ post /\ r ≡ₚ key :: pre /\
    (ascending pre -> ascending r).
Proof.
  revert h post. induction pre as [|y pre IH] using rev_ind; intros h post.
  { exists [key]. repeat split; done || by constructor. }
  rewrite length_app, Nat.add_1_r, <-app_assoc. cbn [sift app].
  rewrite list_lookup_total_middle by done.
  assert (Hins : forall v, <[S (length pre) := v]> (pre ++ y :: h :: post) = pre ++ y :: v :: post).
  { intros v. change (pre ++ y :: h :: post) with (pre ++ [y] ++ h :: post). rewrite app_assoc.
    replace (S (length pre)) with (length (pre ++ [y]) + 0)%nat by (rewrite length_app; cbn; lia).
    rewrite insert_app_r, <-app_assoc. done. }
  destruct (Z.gtb_spec y key) as [Hgt|Hle]; rewrite Hins.
  - destruct (IH y (y :: post)) as (r & -> & Hp & Hs). exists (r ++ [y]). rewrite <-app_assoc. split; [done|].
    split; [by rewrite Hp|].
    intros [H1 H2]%ascending_snoc. apply ascending_snoc. split; [auto|]. rewrite Hp. constructor; [lia|done].
  - exists (pre ++ [y; key]). rewrite <-app_assoc. split; [done|].
    split; [change [y; key] with ([y] ++ [key]); by rewrite app_assoc, (Permutation_app_comm (pre ++ [y]))|].
    intros [H1 H2]%ascending_snoc. change [y; key] with ([y] ++ [key]). rewrite app_assoc.
    apply ascending_snoc. rewrite ascending_snoc, Forall_app. split_and!; [done|done| |by constructor].
    eapply Forall_impl; [exact H2|]. cbn. lia.
Qed.

Lemma sort_from_spec n i s :
  (i + n = length s)%nat -> (i <> 0)%nat -> ascending (take i s) ->
  sort_from n i s ≡ₚ s /\ ascending (sort_from n i s).
Proof.
  revert i s. induction n as [|n IH]; intros i s Hlen Hi Ha; cbn [sort_from].
  { rewrite take_ge in Ha by lia. done. }
  destruct (lookup_lt_is_Some_2 s i) as [h Hh]; [lia|]. rewrite (list_lookup_total_correct _ _ _ Hh).
  pose proof (take_drop_middle s i h Hh) as Hs.
  assert (Hti : length (take i s) = i) by (rewrite length_take; lia).
  destruct (sift_spec (take i s) h (drop (S i) s) h) as (r & Er & Hp & Hr).
  rewrite Hti, Hs in Er. rewrite Er.
  assert (Hlr : length r = S i) by (rewrite Hp; cbn; lia).
  destruct (IH (S i) (r ++ drop (S i) s)) as [H1 H2].
  - rewrite length_app, length_drop. lia.
  - lia.
  - rewrite take_app_length' by done. auto.
  - split; [|done]. rewrite H1, Hp. rewrite <-Hs at 3. by rewrite <-Permutation_middle.
Qed.

(** ** Properties *)

(** [order_for_pages] is the least order whose block holds the pages, for
    every page count whose order is below the word size. *)
Theorem order_for_pages_least pages :
  1 <= pages <= 2 ^ 63 ->
  let o := order_for_pages pages in
  0 <= o <= 63 /\ pages <= 2 ^ o /\ forall j, 0 <= j -> pages <= 2 ^ j -> o <= j.
Proof.
  intros Hp o. subst o. unfold order_for_pages. destruct (Z.leb_spec pages 1).
  { split; [lia|]. split; [cbn; lia|]. lia. }
  destruct (order_loop_spec 64 0 pages) as (H1 & H2 & H3); [lia|by left|cbn; lia|].
  set (r := order_loop 64 0 pages) in *.
  assert (Hleast : forall j, 0 <= j -> pages <= 2 ^ j -> r <= j).
  { intros j Hj Hle. destruct (Z.le_gt_cases r j) as [|Hlt]; [done|]. destruct H3 as [H3|H3]; [lia|].
    pose proof (Z.pow_le_mono_r 2 j (r - 1)). lia. }
  split; [|done]. split; [lia|]. apply Hleast; lia.
Qed.

(** [insertion_sort] returns the samples in ascending order. *)
Theorem insertion_sort_correct samples :
  insertion_sort samples ≡ₚ samples /\ ascending (insertion_sort samples).
Proof.
  unfold insertion_sort. destruct samples as [|x l]; [done|].
  apply sort_from_spec; cbn; [lia|lia|]. by rewrite Forall_nil.
Qed.

(** ** Witnesses *)

Lemma order_for_pages_least_witness :
  order_for_pages 5 = 3 /\ forall j, 0 <= j -> 5 <= 2 ^ j -> 3 <= j.
Proof.
  split; [reflexivity|]. destruct (order_for_pages_least 5) as (_ & _ & H); [lia|exact H].
Defined.
