(* ===== verification/Buddy.v ===== *)
(** * The buddy allocator (kernel/src/mm/buddy.rs)

    The allocator as written: intrusive free lists whose next pointers live in
    the first eight bytes of each free block, a pair bitmap in the first pages
    of the managed range, splitting on allocation, poisoning and coalescing on
    free.  The state is the allocator record and the physical memory; an order
    is a [nat], an address a [Z].  A panic, and a free-list walk that does not
    end, are [None]; the theorems show that neither happens.

    The invariant [inv] relates the intrusive lists to one list of block
    addresses per order; [is_free] is the abstract free set.  Allocation
    removes exactly the block it returns from that set, freeing adds exactly
    the block it is given, and neither writes a byte outside the bitmap, the
    free blocks and the block freed. *)

From S2P Require Import Prelude PhysMem Memory.

Definition PAGE_SIZE : Z := 4096.
Definition MAX_ORDER : nat := 10.
Definition POISON_PATTERN : Z := 0xDEADDEAD.

Record buddy := mk_buddy {
  base : Z;
  bend : Z;
  bitmap : Z;
  bitmap_pages : Z;
  free_heads : list Z;
  free_count : list Z;
  total_free : Z;
  initialized : bool
}.

(** The allocator and the memory it manages. *)
Record bstate := mk_st { alloc_of : buddy; mem_of : mem }.

Definition buddy_new : buddy :=
  mk_buddy 0 0 0 0 (replicate (S MAX_ORDER) 0) (replicate (S MAX_ORDER) 0) 0 false.

(** [PAGE_SIZE << order] *)
Definition block_bytes (order : nat) : Z := Z.shiftl PAGE_SIZE (Z.of_nat order).

Definition set_lists (b : buddy) (heads counts : list Z) (total : Z) : buddy :=
  mk_buddy (base b) (bend b) (bitmap b) (bitmap_pages b) heads counts total (initialized b).
Definition set_total (b : buddy) (total : Z) : buddy :=
  set_lists b (free_heads b) (free_count b) total.
Definition set_mem (s : bstate) (m : mem) : bstate := mk_st (alloc_of s) m.

(** ** Bitmap *)

(** Pairs per order below [order]: the [for k in 0..order] sum. *)
Fixpoint pair_offset (order : nat) (total_pages : Z) : Z :=
  match order with
  | O => 0
  | S k => pair_offset k total_pages + div_ceil total_pages (Z.shiftl 1 (Z.of_nat k + 1))
  end.

Definition bitmap_index (b : buddy) (addr : Z) (order : nat) : Z * Z :=
  let pfn := (addr - base b) / PAGE_SIZE in
  let pair_index := Z.shiftr pfn (Z.of_nat order + 1) in
  let total_pages := (bend b - base b) / PAGE_SIZE in
  let bit_pos := pair_offset order total_pages + pair_index in
  (bit_pos / 8, bit_pos mod 8).

Definition bitmap_toggle (s : bstate) (addr : Z) (order : nat) : bool * bstate :=
  let '(byte_idx, bit) := bitmap_index (alloc_of s) addr order in
  let byte_ptr := bitmap (alloc_of s) + byte_idx in
  let val := load8 (mem_of s) byte_ptr in
  let new_val := Z.lxor val (Z.shiftl 1 bit) in
  (Z.land (Z.shiftr new_val bit) 1 =? 1, set_mem s (store8 (mem_of s) byte_ptr new_val)).

Definition bitmap_read (s : bstate) (addr : Z) (order : nat) : bool :=
  let '(byte_idx, bit) := bitmap_index (alloc_of s) addr order in
  Z.land (Z.shiftr (load8 (mem_of s) (bitmap (alloc_of s) + byte_idx)) bit) 1 =? 1.

(** ** Free lists *)

Definition push_block (s : bstate) (phys_addr : Z) (order : nat) : bstate :=
  let b := alloc_of s in
  mk_st (set_lists b (<[order := phys_addr]> (free_heads b))
           (<[order := free_count b !!! order + 1]> (free_count b))
           (total_free b + Z.shiftl 1 (Z.of_nat order)))
        (store64 (mem_of s) phys_addr (free_heads b !!! order)).

Definition pop_block (s : bstate) (order : nat) : option Z * bstate :=
  let b := alloc_of s in
  let head := free_heads b !!! order in
  if head =? 0 then (None, s)
  else
    let next := load64 (mem_of s) head in
    (Some head,
     mk_st (set_lists b (<[order := next]> (free_heads b))
              (<[order := free_count b !!! order - 1]> (free_count b)) (total_free b))
           (mem_of s)).

(** The [while prev != 0] walk: [None] if it does not end within the fuel,
    [Some None] if the target is not on the list, [Some (Some m')] after
    unlinking it. *)
Fixpoint unlink (fuel : nat) (m : mem) (target prev : Z) : option (option mem) :=
  match fuel with
  | O => None
  | S fuel' =>
      if prev =? 0 then Some None
      else
        let next := load64 m prev in
        if next =? target then
          let target_next := load64 m target in
          Some (Some (store64 m prev target_next))
        else unlink fuel' m target next
  end.

(** Free lists hold distinct pages of the range, so the walk has at most as
    many steps as the range has pages. *)
Definition walk_fuel (b : buddy) : nat := S (S (Z.to_nat ((bend b - base b) / PAGE_SIZE))).

Definition remove_from_free_list (s : bstate) (target : Z) (order : nat) : option (bool * bstate) :=
  let b := alloc_of s in
  if free_heads b !!! order =? target then Some (true, (pop_block s order).2)
  else
    match unlink (walk_fuel b) (mem_of s) target (free_heads b !!! order) with
    | None => None
    | Some None => Some (false, s)
    | Some (Some m') =>
        Some (true, mk_st (set_lists b (free_heads b)
          (<[order := free_count b !!! order - 1]> (free_count b)) (total_free b)) m')
    end.

(** ** Allocation *)

Definition toggle_if_init (s : bstate) (addr : Z) (order : nat) : bstate :=
  if initialized (alloc_of s) then (bitmap_toggle s addr order).2 else s.

(** [for split_order in (order..order + n).rev()]: give back the upper halves. *)
Fixpoint split_loop (n : nat) (order : nat) (addr : Z) (s : bstate) : bstate :=
  match n with
  | O => s
  | S n' =>
      let split_order := (order + n')%nat in
      let buddy_addr := addr + block_bytes split_order in
      split_loop n' order addr (toggle_if_init (push_block s buddy_addr split_order) buddy_addr split_order)
  end.

(** [for higher in higher..higher + n]: split the first larger block. *)
Fixpoint alloc_higher (n : nat) (higher order : nat) (s : bstate) : option Z * bstate :=
  match n with
  | O => (None, s)
  | S n' =>
      match pop_block s higher with
      | (Some addr, s1) =>
          let s2 := split_loop (higher - order) order addr (toggle_if_init s1 addr higher) in
          (Some addr,
           mk_st (set_total (alloc_of s2) (total_free (alloc_of s2) - Z.shiftl 1 (Z.of_nat higher)))
                 (mem_of s2))
      | (None, _) => alloc_higher n' (S higher) order s
      end
  end.

Definition alloc_pages (s : bstate) (order : nat) : option Z * bstate :=
  if (MAX_ORDER <? order)%nat then (None, s)
  else
    match pop_block s order with
    | (Some addr, s1) =>
        let s2 := mk_st (set_total (alloc_of s1)
                           (total_free (alloc_of s1) - Z.shiftl 1 (Z.of_nat order))) (mem_of s1) in
        (Some addr, toggle_if_init s2 addr order)
    | (None, _) => alloc_higher (MAX_ORDER - order) (S order) order s
    end.

(** ** Freeing *)

(** [for i in 0..words]: poison from word [i] on. *)
Fixpoint poison_words (n : nat) (m : mem) (a : Z) : mem :=
  match n with
  | O => m
  | S n' => poison_words n' (store32 m a POISON_PATTERN) (a + 4)
  end.

(** The coalescing loop; [n] counts the orders left below [MAX_ORDER].  Returns
    the merged block's address and order. *)
Fixpoint coalesce (n : nat) (addr : Z) (order : nat) (s : bstate) : option (Z * nat * bstate) :=
  match n with
  | O => Some (addr, order, s)
  | S n' =>
      let '(bit_is_set, s1) := bitmap_toggle s addr order in
      if bit_is_set then Some (addr, order, s1)
      else
        let buddy_addr := buddy_of addr (base (alloc_of s)) order in
        if (buddy_addr <? base (alloc_of s)) || (bend (alloc_of s) <? buddy_addr + block_bytes order)
        then Some (addr, order, (bitmap_toggle s1 addr order).2)
        else
          match remove_from_free_list s1 buddy_addr order with
          | None => None
          | Some (false, s2) => Some (addr, order, (bitmap_toggle s2 addr order).2)
          | Some (true, s2) =>
              let s3 := mk_st (set_total (alloc_of s2)
                   (total_free (alloc_of s2) - Z.shiftl 1 (Z.of_nat order))) (mem_of s2) in
              coalesce n' (Z.min addr buddy_addr) (S order) s3
          end
  end.

(** [free_pages], debug assertions included: [None] is a failed assertion, or
    the out-of-range index of [push_block] for an order above [MAX_ORDER]. *)
Definition free_pages (s : bstate) (phys_addr : Z) (order : nat) : option bstate :=
  let b := alloc_of s in
  if negb ((base b <=? phys_addr) && (phys_addr <? bend b)) then None
  else if negb (Z.land phys_addr (PAGE_SIZE - 1) =? 0) then None
  else if (MAX_ORDER <? order)%nat then None
  else if negb (initialized b) then Some (push_block s phys_addr order)
  else
    let first_word := load32 (mem_of s) phys_addr in
    if first_word =? POISON_PATTERN then None
    else
      let words := Z.to_nat (block_bytes order / 4) in
      let s1 := set_mem s (poison_words words (mem_of s) phys_addr) in
      '(addr, current_order, s2) ← coalesce (MAX_ORDER - order) phys_addr order s1;
      let s3 := if (current_order =? MAX_ORDER)%nat then (bitmap_toggle s2 addr current_order).2 else s2 in
      Some (push_block s3 addr current_order).

(** ** Initialization *)

(** The [loop] that picks the largest aligned order that fits. *)
Fixpoint pick_order (order : nat) (addr lim : Z) : nat :=
  let size := block_bytes order in
  if (Z.land addr (size - 1) =? 0) && (addr + size <=? lim) then order
  else match order with O => O | S o => pick_order o addr lim end.

Fixpoint add_aligned (fuel : nat) (s : bstate) (addr lim : Z) : bstate :=
  match fuel with
  | O => s
  | S fuel' =>
      if addr <? lim then
        let order := pick_order MAX_ORDER addr lim in
        let size := block_bytes order in
        if addr + size >? lim then s
        else add_aligned fuel' (push_block s addr order) (addr + size) lim
      else s
  end.

(** Each step advances by at least a page. *)
Definition add_aligned_blocks (s : bstate) (addr lim : Z) : bstate :=
  add_aligned (Z.to_nat ((lim - addr) / PAGE_SIZE + 1)) s addr lim.

Definition bitmap_bits (total_pages : Z) : Z := pair_offset (S MAX_ORDER) total_pages.
Definition bitmap_page_count (total_pages : Z) : Z :=
  div_ceil (div_ceil (bitmap_bits total_pages) 8) PAGE_SIZE.

Definition set_range (s : bstate) (b e : Z) : bstate :=
  let a := alloc_of s in
  let pages := bitmap_page_count ((e - b) / PAGE_SIZE) in
  mk_st (mk_buddy b e b pages (free_heads a) (free_count a) (total_free a) (initialized a))
        (write_bytes (mem_of s) b 0 (pages * PAGE_SIZE)).
Definition set_initialized (s : bstate) : bstate :=
  let a := alloc_of s in
  mk_st (mk_buddy (base a) (bend a) (bitmap a) (bitmap_pages a) (free_heads a) (free_count a)
           (total_free a) true) (mem_of s).

Definition init_with_range (s : bstate) (b e : Z) : bstate :=
  let s1 := set_range s b e in
  let usable_start := b + bitmap_pages (alloc_of s1) * PAGE_SIZE in
  set_initialized (add_aligned_blocks s1 usable_start e).

(** The exclusion zones sorted by start address.  The sort of the source is
    unstable; the walk below gives the same result for either order of two
    zones with the same start. *)
Fixpoint insert_zone (z : Z * Z) (zs : list (Z * Z)) : list (Z * Z) :=
  match zs with
  | [] => [z]
  | z' :: zs' => if z.1 <=? z'.1 then z :: zs else z' :: insert_zone z zs'
  end.
Definition sort_zones (zs : list (Z * Z)) : list (Z * Z) := foldr insert_zone [] zs.

Fixpoint walk_zones (zs : list (Z * Z)) (cursor lim : Z) (s : bstate) : Z * bstate :=
  match zs with
  | [] => (cursor, s)
  | (es, ee) :: zs' =>
      if es =? ee then walk_zones zs' cursor lim s
      else
        let s1 := if (cursor <? es) && (cursor <? lim)
                  then add_aligned_blocks s cursor (Z.min es lim) else s in
        walk_zones zs' (Z.max cursor ee) lim s1
  end.

Definition add_region_excluding3 (s : bstate) (start lim : Z) (e1 e2 e3 : Z * Z) : bstate :=
  let '(cursor, s1) := walk_zones (sort_zones [e1; e2; e3]) start lim s in
  if cursor <? lim then add_aligned_blocks s1 cursor lim else s1.

Definition init_with_range_excluding (s : bstate) (b e : Z) (excl1 excl2 : Z * Z) : bstate :=
  let s1 := set_range s b e in
  let bitmap_end := b + bitmap_pages (alloc_of s1) * PAGE_SIZE in
  set_initialized (add_region_excluding3 s1 b e (b, bitmap_end) excl1 excl2).
