(* ===== verification/BuddyInv.v ===== *)
(** * Correctness of the buddy allocator

    The representation invariant of [Buddy] and what each operation does to
    the abstract free lists: one list of block addresses per order.  Every
    operation is first specified on the lists ([push_inv], [pop_inv],
    [remove_inv], [split_inv], [coalesce_inv]); the properties of [alloc_pages],
    [free_pages] and the initialization follow. *)

From S2P Require Import Prelude PhysMem Memory Buddy.

(** ** Blocks *)

Definition size_of (k : nat) : Z := 4096 * 2 ^ Z.of_nat k.

Lemma block_bytes_eq k : block_bytes k = size_of k.
Proof. unfold block_bytes, size_of, PAGE_SIZE. by rewrite Z.shiftl_mul_pow2 by lia. Qed.
Lemma shiftl_1_eq k : Z.shiftl 1 (Z.of_nat k) = 2 ^ Z.of_nat k.
Proof. by rewrite Z.shiftl_1_l. Qed.
Lemma size_S k : size_of (S k) = 2 * size_of k.
Proof. unfold size_of. rewrite Nat2Z.inj_succ, Z.pow_succ_r by lia. lia. Qed.
Lemma size_ge k : 4096 <= size_of k.
Proof. unfold size_of. pose proof (Z.pow_pos_nonneg 2 (Z.of_nat k)). lia. Qed.
Lemma size_mono k k' : (k <= k')%nat -> size_of k <= size_of k'.
Proof.
  intros. unfold size_of. apply Z.mul_le_mono_nonneg_l; [lia|]. apply Z.pow_le_mono_r; lia.
Qed.
Lemma size_mod_page k : size_of k mod 4096 = 0.
Proof. unfold size_of. rewrite Z.mul_comm. by apply Z.mod_mul. Qed.

(** The bytes of the block of order [k] at [a]. *)
Definition covers (a : Z) (k : nat) (x : Z) : Prop := a <= x < a + size_of k.
Definition disj (a : Z) (k : nat) (a' : Z) (k' : nat) : Prop :=
  a + size_of k <= a' \/ a' + size_of k' <= a.

(** Free blocks, one list of addresses per order. *)
Definition lists := nat -> list Z.
Definition upd (fl : lists) (k : nat) (l : list Z) : lists :=
  fun j => if decide (j = k) then l else fl j.
Definition is_free (fl : lists) (x : Z) : Prop := exists k a, a ∈ fl k /\ covers a k x.
Definition fresh (fl : lists) (a : Z) (k : nat) : Prop :=
  forall k' a', a' ∈ fl k' -> disj a k a' k'.

(** Free pages below order [n]. *)
Fixpoint pages_below (n : nat) (fl : lists) : Z :=
  match n with O => 0 | S k => pages_below k fl + 2 ^ Z.of_nat k * alen (fl k) end.
Definition pages (fl : lists) : Z := pages_below (S MAX_ORDER) fl.
#[global] Arguments pages : simpl never.

Lemma upd_eq fl k l : upd fl k l k = l.
Proof. unfold upd. by rewrite decide_True. Qed.
Lemma upd_ne fl k l j : j <> k -> upd fl k l j = fl j.
Proof. intros. unfold upd. by rewrite decide_False. Qed.

Lemma elem_of_upd fl k l j a :
  a ∈ upd fl k l j <-> (j = k /\ a ∈ l) \/ (j <> k /\ a ∈ fl j).
Proof. unfold upd. destruct (decide (j = k)); naive_solver. Qed.

Lemma pages_below_upd n fl k l :
  pages_below n (upd fl k l) =
  pages_below n fl + if decide (k < n)%nat then 2 ^ Z.of_nat k * (alen l - alen (fl k)) else 0.
Proof.
  induction n as [|n IH]; cbn [pages_below]; [done|]. rewrite IH. unfold upd.
  destruct (decide (n = k)) as [->|].
  - rewrite (decide_False (P := (k < k)%nat)), (decide_True (P := (k < S k)%nat)) by lia. lia.
  - destruct (decide (k < n)%nat), (decide (k < S n)%nat); lia.
Qed.

Lemma pages_upd fl k l :
  (k <= MAX_ORDER)%nat ->
  pages (upd fl k l) = pages fl + 2 ^ Z.of_nat k * (alen l - alen (fl k)).
Proof. intros. unfold pages. rewrite pages_below_upd, decide_True by lia. done. Qed.

Lemma pages_below_nonneg n fl : 0 <= pages_below n fl.
Proof.
  induction n as [|n IH]; cbn [pages_below]; [lia|].
  pose proof (Z.pow_pos_nonneg 2 (Z.of_nat n)). pose proof (alen_nonneg (fl n)). nia.
Qed.

(** ** Intrusive lists *)

Fixpoint chain (m : mem) (h : Z) (l : list Z) : Prop :=
  match l with
  | [] => h = 0
  | a :: l' => h = a /\ chain m (load64 m a) l'
  end.

Lemma chain_ext m m' h l :
  (forall a, a ∈ l -> load64 m' a = load64 m a) -> chain m h l -> chain m' h l.
Proof.
  revert h. induction l as [|a l IH]; intros h H; cbn; [done|].
  intros [-> Hc]. split; [done|]. rewrite (H a) by (apply elem_of_cons; by left).
  apply IH; [|done]. intros x Hx. apply H. apply elem_of_cons. by right.
Qed.

Lemma chain_head_nonzero m h a l : a <> 0 -> chain m h (a :: l) -> h <> 0.
Proof. by intros ? [-> _]. Qed.

(** Unlinking the element after [p]. *)
Lemma chain_unlink m m' h l1 p t l2 :
  NoDup (l1 ++ p :: t :: l2) ->
  chain m h (l1 ++ p :: t :: l2) ->
  (forall a, a ∈ l1 ++ l2 -> load64 m' a = load64 m a) -> load64 m' p = load64 m t ->
  chain m' h (l1 ++ p :: l2).
Proof.
  revert h. induction l1 as [|a l1 IH]; cbn; intros h Hnd Hc Hext Hp.
  - destruct Hc as (-> & Ht & Hc). split; [done|]. rewrite Hp.
    eapply chain_ext; [|exact Hc]. intros x Hx. by apply Hext.
  - destruct Hc as [-> Hc]. apply NoDup_cons in Hnd as [_ Hnd]. split; [done|].
    rewrite Hext by (apply elem_of_cons; by left). apply IH; [done|done| |done].
    intros x Hx. apply Hext. apply elem_of_cons. by right.
Qed.

(** ** The invariant *)

(** A managed range: page aligned, inside the address space, with the bitmap
    sized for it in its first pages. *)
Record cfg (b : buddy) : Prop := {
  c_base : 0 < base b;
  c_base_al : base b mod 4096 = 0;
  c_end_al : bend b mod 4096 = 0;
  c_range : base b < bend b;
  c_end : bend b < 2 ^ 64;
  c_bitmap : bitmap b = base b;
  c_pages : bitmap_pages b = bitmap_page_count ((bend b - base b) / 4096)
}.

(** The first address after the bitmap. *)
Definition low (b : buddy) : Z := base b + bitmap_pages b * 4096.

(** A block the allocator may hand out.  Its natural alignment needs a base
    aligned to the largest block, since buddies are computed from the base. *)
Record valid (b : buddy) (a : Z) (k : nat) : Prop := {
  v_order : (k <= MAX_ORDER)%nat;
  v_low : low b <= a;
  v_end : a + size_of k <= bend b;
  v_al : a mod 4096 = 0;
  v_nat : base b mod size_of MAX_ORDER = 0 -> a mod size_of k = 0
}.

(** [d] is the number of pages [total_free] counts beyond those on the lists:
    zero between operations, the popped block within one. *)
Record inv (d : Z) (s : bstate) (fl : lists) : Prop := {
  i_cfg : cfg (alloc_of s);
  i_mem : mem_ok (mem_of s);
  i_heads : length (free_heads (alloc_of s)) = S MAX_ORDER;
  i_counts : length (free_count (alloc_of s)) = S MAX_ORDER;
  i_chain : forall k, (k <= MAX_ORDER)%nat ->
    chain (mem_of s) (free_heads (alloc_of s) !!! k) (fl k);
  i_count : forall k, (k <= MAX_ORDER)%nat -> free_count (alloc_of s) !!! k = alen (fl k);
  i_total : total_free (alloc_of s) = pages fl + d;
  i_valid : forall k a, a ∈ fl k -> valid (alloc_of s) a k;
  i_nodup : forall k, NoDup (fl k);
  i_disj : forall k a k' a', a ∈ fl k -> a' ∈ fl k' -> (k, a) <> (k', a') -> disj a k a' k'
}.

(** What no operation changes. *)
Record same_range (b b' : buddy) : Prop := {
  sr_base : base b' = base b;
  sr_end : bend b' = bend b;
  sr_bitmap : bitmap b' = bitmap b;
  sr_pages : bitmap_pages b' = bitmap_pages b;
  sr_init : initialized b' = initialized b
}.

#[export] Instance same_range_refl : Reflexive same_range.
Proof. by constructor. Qed.
#[export] Instance same_range_trans : Transitive same_range.
Proof. intros b1 b2 b3 [] []. constructor; congruence. Qed.

Lemma same_range_set_lists b h c t : same_range b (set_lists b h c t).
Proof. by constructor. Qed.

Lemma cfg_same b b' : same_range b b' -> cfg b -> cfg b'.
Proof. intros [] []. constructor; congruence. Qed.
Lemma valid_same b b' a k : same_range b b' -> valid b a k -> valid b' a k.
Proof. intros [H1 H2 H3 H4 H5] []. constructor; unfold low in *; rewrite ?H1, ?H2, ?H4; done. Qed.

(** The bytes of the bitmap. *)
Definition in_bitmap (b : buddy) (x : Z) : Prop := base b <= x < low b.

(** Memory changes only where [P] holds. *)
Definition only (P : Z -> Prop) (m m' : mem) : Prop := forall x, ~ P x -> m' x = m x.

Lemma only_refl P m : only P m m.
Proof. by intros ?. Qed.
Lemma only_trans (P : Z -> Prop) m1 m2 m3 : only P m1 m2 -> only P m2 m3 -> only P m1 m3.
Proof. intros H1 H2 x Hx. rewrite H2, H1; done. Qed.
Lemma only_mono (P Q : Z -> Prop) m m' : (forall x, P x -> Q x) -> only P m m' -> only Q m m'.
Proof. intros H1 H2 x Hx. apply H2. auto. Qed.
Lemma only_store n m a v : only (fun x => a <= x < a + Z.of_nat n) m (store n m a v).
Proof. intros x Hx. by apply store_other. Qed.
Lemma only_load n (P : Z -> Prop) m m' a :
  only P m m' -> (forall x, a <= x < a + Z.of_nat n -> ~ P x) -> load n m' a = load n m a.
Proof. intros Ho Hp. apply load_ext. intros x Hx. apply Ho, Hp, Hx. Qed.

Lemma pair_offset_step k n :
  0 <= n -> pair_offset k n <= pair_offset (S k) n.
Proof.
  intros Hn. cbn [pair_offset]. rewrite Z.shiftl_1_l.
  pose proof (div_ceil_nonneg n (2 ^ (Z.of_nat k + 1))). pose proof (Z.pow_pos_nonneg 2 (Z.of_nat k + 1)). lia.
Qed.

Lemma pair_offset_mono k k' n :
  0 <= n -> (k <= k')%nat -> pair_offset k n <= pair_offset k' n.
Proof. intros Hn. induction 1 as [|k' _ IH]; [lia|]. pose proof (pair_offset_step k' n Hn). lia. Qed.

Lemma cfg_total b : cfg b -> 0 <= (bend b - base b) / 4096.
Proof. intros []. divlia. Qed.

(** Every bit of the pair bitmap lies in the pages reserved for it. *)
Lemma bitmap_index_bound b a k :
  cfg b -> (k <= MAX_ORDER)%nat -> base b <= a < bend b ->
  0 <= (bitmap_index b a k).1 < bitmap_pages b * 4096 /\ 0 <= (bitmap_index b a k).2 < 8.
Proof.
  intros Hc Hk Ha. pose proof (cfg_total _ Hc) as Hn. destruct Hc. rewrite c_pages0.
  unfold bitmap_index, bitmap_page_count, bitmap_bits, PAGE_SIZE. cbn [fst snd].
  set (n := (bend b - base b) / 4096) in *. rewrite Z.shiftr_div_pow2 by lia.
  assert (Hpos := Z.pow_pos_nonneg 2 (Z.of_nat k + 1)).
  assert (Hpfn : 0 <= (a - base b) / 4096 < n) by (subst n; divlia).
  set (p := (a - base b) / 4096) in *.
  assert (Hq : 0 <= p / 2 ^ (Z.of_nat k + 1) < div_ceil n (2 ^ (Z.of_nat k + 1)))
    by (split; [apply Z.div_pos|apply div_lt_div_ceil]; lia).
  pose proof (pair_offset_mono (S k) (S MAX_ORDER) n Hn) as Hm. change (pair_offset (S k) n) with
    (pair_offset k n + div_ceil n (Z.shiftl 1 (Z.of_nat k + 1))) in Hm.
  rewrite Z.shiftl_1_l in Hm. pose proof (pair_offset_mono 0 k n Hn) as H0.
  change (pair_offset 0 n) with 0 in H0.
  set (bits := pair_offset (S MAX_ORDER) n) in *. set (pos := pair_offset k n + p / 2 ^ (Z.of_nat k + 1)).
  assert (0 <= pos < bits) by lia.
  pose proof (div_lt_div_ceil pos bits 8). pose proof (div_ceil_spec (div_ceil bits 8) 4096).
  pose proof (Z.div_pos pos 8). pose proof (Z.mod_pos_bound pos 8). lia.
Qed.

Lemma valid_bounds b a k : cfg b -> valid b a k -> 0 < a /\ a + size_of k < 2 ^ 64 /\ base b <= a < bend b.
Proof.
  intros Hc []. pose proof (size_ge k).
  pose proof (bitmap_index_bound b (base b) 0 Hc ltac:(lia) ltac:(destruct Hc; lia)).
  destruct Hc. unfold low in *. lia.
Qed.

(** ** The bitmap and the lists do not interfere *)

Lemma inv_mem d s fl m' :
  inv d s fl -> mem_ok m' ->
  (forall k a, a ∈ fl k -> load64 m' a = load64 (mem_of s) a) -> inv d (set_mem s m') fl.
Proof.
  intros [] Hm Hl. constructor; cbn; try done.
  intros k Hk. eapply chain_ext; [|by apply i_chain0]. eauto.
Qed.

Lemma inv_only d s fl m' (P : Z -> Prop) :
  inv d s fl -> mem_ok m' -> only P (mem_of s) m' ->
  (forall x, P x -> ~ is_free fl x) -> inv d (set_mem s m') fl.
Proof.
  intros Hi Hm Ho Hp. apply inv_mem; [done..|]. intros k a Ha.
  apply (only_load 8 P); [done|]. intros x Hx HP. apply (Hp x HP). exists k, a.
  pose proof (size_ge k). split; [done|]. unfold covers. lia.
Qed.

Lemma bitmap_not_free d s fl x : inv d s fl -> in_bitmap (alloc_of s) x -> ~ is_free fl x.
Proof.
  intros Hi [Hx1 Hx2] (k & a & Ha & [Hx _]). apply (i_valid _ _ _ Hi) in Ha as []. lia.
Qed.

Lemma toggle_inv d s fl a k :
  inv d s fl -> (k <= MAX_ORDER)%nat -> base (alloc_of s) <= a < bend (alloc_of s) ->
  let s' := (bitmap_toggle s a k).2 in
  inv d s' fl /\ alloc_of s' = alloc_of s /\ only (in_bitmap (alloc_of s)) (mem_of s) (mem_of s').
Proof.
  intros Hi Hk Ha. pose proof (bitmap_index_bound _ _ _ (i_cfg _ _ _ Hi) Hk Ha) as Hb.
  unfold bitmap_toggle. destruct (bitmap_index (alloc_of s) a k) as [i bit]. cbn in *.
  assert (Ho : forall v, only (in_bitmap (alloc_of s)) (mem_of s)
    (store8 (mem_of s) (bitmap (alloc_of s) + i) v)).
  { intros v. eapply only_mono; [|apply only_store]. cbn. intros x Hx.
    destruct (i_cfg _ _ _ Hi). unfold in_bitmap, low. lia. }
  split_and!; [|done|done]. eapply inv_only; [done| |apply Ho|].
  - apply store_mem_ok, (i_mem _ _ _ Hi).
  - intros x. by eapply bitmap_not_free.
Qed.

Lemma toggle_if_init_inv d s fl a k :
  inv d s fl -> (k <= MAX_ORDER)%nat -> base (alloc_of s) <= a < bend (alloc_of s) ->
  let s' := toggle_if_init s a k in
  inv d s' fl /\ alloc_of s' = alloc_of s /\ only (in_bitmap (alloc_of s)) (mem_of s) (mem_of s').
Proof.
  intros Hi Hk Ha. unfold toggle_if_init. cbn zeta. destruct (initialized (alloc_of s)); [by apply toggle_inv|].
  split_and!; [done..|apply only_refl].
Qed.

(** ** Pushing *)

Lemma head_bound d s fl k :
  inv d s fl -> (k <= MAX_ORDER)%nat -> 0 <= free_heads (alloc_of s) !!! k < 2 ^ 64.
Proof.
  intros Hi Hk. pose proof (i_chain _ _ _ Hi k Hk) as Hc.
  destruct (fl k) as [|a l] eqn:E; [cbn in Hc; lia|]. destruct Hc as [-> _].
  pose proof (valid_bounds _ a k (i_cfg _ _ _ Hi)) as H. pose proof (size_ge k).
  assert (a ∈ fl k) as Ha by (rewrite E; apply elem_of_cons; by left).
  apply (i_valid _ _ _ Hi), H in Ha. lia.
Qed.

Lemma fresh_not_elem fl a k : fresh fl a k -> a ∉ fl k.
Proof. intros Hf Ha%Hf. pose proof (size_ge k). unfold disj in Ha. lia. Qed.

Lemma push_inv d s fl a k :
  inv d s fl -> valid (alloc_of s) a k -> fresh fl a k ->
  inv d (push_block s a k) (upd fl k (a :: fl k)).
Proof.
  intros Hi Hv Hf. pose proof (head_bound _ _ _ k Hi (v_order _ _ _ Hv)) as Hh.
  pose proof (fresh_not_elem _ _ _ Hf) as Hna. pose proof (v_order _ _ _ Hv) as Hk.
  pose proof (size_ge k) as Hsz. destruct Hi. unfold push_block.
  assert (Hld : forall k' x, x ∈ fl k' ->
    load64 (store64 (mem_of s) a (free_heads (alloc_of s) !!! k)) x = load64 (mem_of s) x).
  { intros k' x Hx%Hf. apply load_store_ne. pose proof (size_ge k'). unfold disj in Hx. lia. }
  constructor; cbn.
  - eapply cfg_same; [apply same_range_set_lists|done].
  - by apply store_mem_ok.
  - by rewrite length_insert.
  - by rewrite length_insert.
  - intros j Hj. unfold upd. destruct (decide (j = k)) as [->|].
    + rewrite list_lookup_total_insert_eq by lia. cbn. split; [done|].
      unfold load64, store64. rewrite load_store_eq by done.
      eapply chain_ext; [by apply Hld|by apply i_chain0].
    + rewrite list_lookup_total_insert_ne by done. eapply chain_ext; [by apply Hld|by apply i_chain0].
  - intros j Hj. unfold upd. destruct (decide (j = k)) as [->|].
    + rewrite list_lookup_total_insert_eq by lia. rewrite i_count0, alen_cons by done. done.
    + rewrite list_lookup_total_insert_ne by done. by apply i_count0.
  - rewrite pages_upd, alen_cons, Z.shiftl_1_l, i_total0 by done. lia.
  - intros j x [[-> [->|Hx]%elem_of_cons]|[_ Hx]]%elem_of_upd;
      eapply valid_same; eauto using same_range_set_lists.
  - intros j. unfold upd. destruct (decide (j = k)) as [->|]; [|done]. by apply NoDup_cons.
  - intros j x j' x' [[-> [->|Hx]%elem_of_cons]|[Hj Hx]]%elem_of_upd
      [[-> [->|Hx']%elem_of_cons]|[Hj' Hx']]%elem_of_upd Hne; try done; eauto.
    all: destruct (Hf _ _ Hx); unfold disj; lia.
Qed.

Lemma push_only s a k : only (covers a k) (mem_of s) (mem_of (push_block s a k)).
Proof.
  eapply only_mono; [|apply only_store]. pose proof (size_ge k). unfold covers. intros x Hx. cbn in Hx. lia.
Qed.

(** ** Popping and removing *)

Lemma inv_take d s fl k l1 a l2 h' m' :
  inv d s fl -> (k <= MAX_ORDER)%nat -> fl k = l1 ++ a :: l2 -> mem_ok m' ->
  chain m' h' (l1 ++ l2) ->
  (forall j x, j <> k -> x ∈ fl j -> load64 m' x = load64 (mem_of s) x) ->
  inv (d + 2 ^ Z.of_nat k)
    (mk_st (set_lists (alloc_of s) (<[k := h']> (free_heads (alloc_of s)))
       (<[k := free_count (alloc_of s) !!! k - 1]> (free_count (alloc_of s)))
       (total_free (alloc_of s))) m')
    (upd fl k (l1 ++ l2)).
Proof.
  intros [] Hk Hfl Hm Hc Hld.
  assert (Hsub : forall j x, x ∈ upd fl k (l1 ++ l2) j -> x ∈ fl j).
  { intros j x [[-> Hx]|[_ Hx]]%elem_of_upd; [|done]. rewrite Hfl. set_solver. }
  constructor; cbn.
  - eapply cfg_same; [apply same_range_set_lists|done].
  - done.
  - by rewrite length_insert.
  - by rewrite length_insert.
  - intros j Hj. unfold upd. destruct (decide (j = k)) as [->|].
    + by rewrite list_lookup_total_insert_eq by lia.
    + rewrite list_lookup_total_insert_ne by done. eapply chain_ext; [|by apply i_chain0]. eauto.
  - intros j Hj. unfold upd. destruct (decide (j = k)) as [->|].
    + rewrite list_lookup_total_insert_eq by lia.
      rewrite i_count0, Hfl, !alen_app, alen_cons by done. lia.
    + rewrite list_lookup_total_insert_ne by done. by apply i_count0.
  - rewrite pages_upd, Hfl, !alen_app, alen_cons, i_total0 by done. lia.
  - intros j x Hx%Hsub. eapply valid_same; eauto using same_range_set_lists.
  - intros j. unfold upd. destruct (decide (j = k)) as [->|]; [|done].
    specialize (i_nodup0 k). rewrite Hfl in i_nodup0.
    apply NoDup_app in i_nodup0 as (? & ? & [_ ?]%NoDup_cons). apply NoDup_app. set_solver.
  - intros. eapply i_disj0; eauto.
Qed.

Lemma free_pos d s fl k a : inv d s fl -> a ∈ fl k -> 0 < a.
Proof. intros Hi Ha%(i_valid _ _ _ Hi). eapply valid_bounds in Ha; [lia|apply Hi]. Qed.

Lemma pop_inv d s fl k :
  inv d s fl -> (k <= MAX_ORDER)%nat ->
  match fl k with
  | [] => pop_block s k = (None, s)
  | a :: l => exists s', pop_block s k = (Some a, s') /\ mem_of s' = mem_of s /\
      same_range (alloc_of s) (alloc_of s') /\ inv (d + 2 ^ Z.of_nat k) s' (upd fl k l)
  end.
Proof.
  intros Hi Hk. pose proof (i_chain _ _ _ Hi k Hk) as Hc. unfold pop_block.
  destruct (fl k) as [|a l] eqn:E; cbn in Hc; [by rewrite Hc|]. destruct Hc as [-> Hc].
  pose proof (free_pos _ _ _ k a Hi) as Hp. rewrite E in Hp. specialize (Hp ltac:(set_solver)).
  destruct (Z.eqb_spec a 0); [lia|]. eexists. split_and!; [done|done|by constructor|].
  apply (inv_take _ _ _ _ [] a l); try done; apply Hi.
Qed.

(** The block taken is disjoint from what stays. *)
Lemma taken_fresh d s fl k l1 a l2 :
  inv d s fl -> fl k = l1 ++ a :: l2 -> fresh (upd fl k (l1 ++ l2)) a k.
Proof.
  intros Hi Hfl k' a' Ha'. pose proof (i_nodup _ _ _ Hi k) as Hnd. rewrite Hfl in Hnd.
  apply NoDup_app in Hnd as (_ & Hnd & [Hnd2 _]%NoDup_cons).
  apply (i_disj _ _ _ Hi); [rewrite Hfl; set_solver| |].
  - apply elem_of_upd in Ha' as [[-> ?]|[_ ?]]; [rewrite Hfl|]; set_solver.
  - intros [= <- <-]. apply elem_of_upd in Ha' as [[_ ?]|[? _]]; [|done]. set_solver.
Qed.

Lemma unlink_absent fuel m h t l :
  chain m h l -> Forall (fun a => a <> 0) l -> t <> 0 -> t ∉ l -> (length l < fuel)%nat ->
  unlink fuel m t h = Some None.
Proof.
  intros Hc Hnz Ht Hin. revert fuel h Hc. induction Hnz as [|a l Ha _ IH]; intros [|fuel] h Hc Hf;
    cbn in Hc, Hf |- *; try lia; [by subst|].
  destruct Hc as [-> Hc]. destruct (Z.eqb_spec a 0); [done|].
  assert (load64 m a <> t) by (destruct l; cbn in Hc; set_solver).
  destruct (Z.eqb_spec (load64 m a) t); [done|]. apply IH; [set_solver|done|lia].
Qed.

Lemma unlink_present fuel m h l1 p t l2 :
  chain m h (l1 ++ p :: t :: l2) -> Forall (fun a => a <> 0) (l1 ++ p :: t :: l2) ->
  NoDup (l1 ++ p :: t :: l2) -> (length (l1 ++ p :: t :: l2) < fuel)%nat ->
  unlink fuel m t h = Some (Some (store64 m p (load64 m t))).
Proof.
  revert fuel h. induction l1 as [|a l1 IH]; intros [|fuel] h Hc Hnz Hnd Hf;
    cbn in Hc, Hf |- *; try lia; apply Forall_cons in Hnz as [Ha Hnz]; destruct Hc as [-> Hc];
    (destruct (Z.eqb_spec a 0) || destruct (Z.eqb_spec p 0)); try done.
  - destruct Hc as [-> Hc]. by rewrite Z.eqb_refl.
  - apply NoDup_cons in Hnd as [Hn Hnd].
    assert (load64 m a <> t).
    { destruct l1 as [|b l1]; cbn in Hc; destruct Hc as [-> _]; [|].
      - cbn in Hnd. apply NoDup_cons in Hnd as [? _]. set_solver.
      - apply NoDup_cons in Hnd as [? _]. set_solver. }
    destruct (Z.eqb_spec (load64 m a) t); [done|]. apply IH; [done..|lia].
Qed.

(** A free list is no longer than the range has pages. *)
Lemma list_short d s fl k :
  inv d s fl -> (length (fl k) < walk_fuel (alloc_of s))%nat.
Proof.
  intros Hi. unfold walk_fuel, PAGE_SIZE. pose proof (i_cfg _ _ _ Hi) as Hc.
  set (n := (bend (alloc_of s) - base (alloc_of s)) / 4096).
  assert (Hv : forall a, a ∈ fl k -> a mod 4096 = 0 /\ base (alloc_of s) <= a < bend (alloc_of s)).
  { intros a Ha%(i_valid _ _ _ Hi). split; [apply Ha|]. by eapply valid_bounds. }
  set (f := fun a => (a - base (alloc_of s)) / 4096). rewrite <-(length_fmap f (fl k)).
  enough (length (f <$> fl k) <= length (seqZ 0 n))%nat by (rewrite length_seqZ in *; lia).
  apply submseteq_length, NoDup_submseteq.
  - apply NoDup_fmap_2_strong; [|apply Hi]. intros x y Hx%Hv Hy%Hv. subst f. cbn. destruct Hc. divlia.
  - intros z (a & -> & Ha%Hv)%list_elem_of_fmap. apply elem_of_seqZ. subst f n. cbn. destruct Hc. divlia.
Qed.

(** Unlinking a block that is not at the head. *)
Lemma unlink_inv d s fl k l1 p t l2 :
  inv d s fl -> (k <= MAX_ORDER)%nat -> fl k = l1 ++ p :: t :: l2 ->
  let b := alloc_of s in
  let m' := store64 (mem_of s) p (load64 (mem_of s) t) in
  only (is_free fl) (mem_of s) m' /\
  inv (d + 2 ^ Z.of_nat k)
    (mk_st (set_lists b (free_heads b) (<[k := free_count b !!! k - 1]> (free_count b)) (total_free b)) m')
    (upd fl k (l1 ++ p :: l2)).
Proof.
  intros Hi Hk Hfl b m'. pose proof (i_chain _ _ _ Hi k Hk) as Hc. pose proof (i_nodup _ _ _ Hi k) as Hnd.
  assert (Hp : p ∈ fl k) by (rewrite Hfl; set_solver). rewrite Hfl in Hc, Hnd. split.
  { eapply only_mono; [|apply only_store]. cbn. intros x Hx. exists k, p. split; [done|].
    pose proof (size_ge k). unfold covers. lia. }
  assert (Hne : forall j x, x ∈ fl j -> (j, x) <> (k, p) -> load64 m' x = load64 (mem_of s) x).
  { intros j x Hx Hxp. apply load_store_ne. pose proof (size_ge j). pose proof (size_ge k).
    destruct (i_disj _ _ _ Hi _ _ _ _ Hx Hp Hxp); lia. }
  rewrite <-(list_insert_id (free_heads b) k (free_heads b !!! k)) at 1
    by (apply list_lookup_lookup_total_lt; subst b; rewrite (i_heads _ _ _ Hi); lia).
  change (l1 ++ p :: l2) with (l1 ++ [p] ++ l2). rewrite app_assoc.
  eapply inv_take; [done|done|rewrite Hfl, <-app_assoc; done|by apply store_mem_ok, Hi| |].
  - rewrite <-app_assoc. eapply chain_unlink; [exact Hnd|exact Hc| |].
    + intros x Hx. apply (Hne k); [rewrite Hfl; set_solver|]. intros [= ->].
      apply NoDup_app in Hnd as (_ & Hd & [? _]%NoDup_cons). set_solver.
    + apply load_store_eq, load_bound, Hi.
  - intros j x Hj Hx. apply (Hne j); [done|]. congruence.
Qed.

Lemma remove_inv d s fl k t :
  inv d s fl -> (k <= MAX_ORDER)%nat -> 0 < t ->
  ((t ∉ fl k) /\ remove_from_free_list s t k = Some (false, s)) \/
  (exists l1 l2 s', fl k = l1 ++ t :: l2 /\ remove_from_free_list s t k = Some (true, s') /\
     same_range (alloc_of s) (alloc_of s') /\ only (is_free fl) (mem_of s) (mem_of s') /\
     inv (d + 2 ^ Z.of_nat k) s' (upd fl k (l1 ++ l2))).
Proof.
  intros Hi Hk Ht. pose proof (i_chain _ _ _ Hi k Hk) as Hc. pose proof (i_nodup _ _ _ Hi k) as Hnd.
  pose proof (list_short _ _ _ k Hi) as Hlen.
  assert (Hnz : Forall (fun a => a <> 0) (fl k)).
  { apply Forall_forall. intros a Ha. eapply free_pos in Ha; [lia|done]. }
  unfold remove_from_free_list. destruct (decide (t ∈ fl k)) as [Hin|Hin].
  2:{ left. split; [done|]. destruct (Z.eqb_spec (free_heads (alloc_of s) !!! k) t) as [E|].
      - rewrite E in Hc. destruct (fl k); cbn in Hc; [lia|set_solver].
      - rewrite (unlink_absent _ _ _ _ (fl k)) by (done || lia). done. }
  right. pose proof (pop_inv d s fl k Hi Hk) as Hpop.
  apply list_elem_of_split in Hin as (l1 & l2 & Hfl).
  destruct l1 as [|p l1 _] using rev_ind.
  - exists [], l2. rewrite Hfl in Hc, Hpop |- *. destruct Hc as [-> _]. destruct Hpop as (s' & -> & Hm & ? & ?).
    exists s'. rewrite Z.eqb_refl. split_and!; try done. rewrite Hm. apply only_refl.
  - rewrite <-app_assoc in Hfl. cbn in Hfl. destruct (unlink_inv _ _ _ _ _ _ _ _ Hi Hk Hfl) as [Ho Hinv].
    rewrite Hfl in Hc, Hnd, Hlen, Hnz.
    destruct (Z.eqb_spec (free_heads (alloc_of s) !!! k) t) as [E|].
    { destruct l1 as [|q l1]; cbn in Hc; destruct Hc as [Hq _]; apply NoDup_cons in Hnd as [? _]; set_solver. }
    rewrite (unlink_present _ _ _ l1 p t l2) by done. exists (l1 ++ [p]), l2.
    rewrite <-!app_assoc. eexists. split_and!; [done|done|by constructor|exact Ho|exact Hinv].
Qed.

(** ** The free set *)

Lemma is_free_push fl k a x :
  is_free (upd fl k (a :: fl k)) x <-> covers a k x \/ is_free fl x.
Proof.
  unfold is_free. split.
  - intros (j & y & [[-> [->|Hy]%elem_of_cons]|[_ Hy]]%elem_of_upd & Hc); eauto 10.
  - intros [Hc|(j & y & Hy & Hc)].
    + exists k, a. rewrite elem_of_upd. set_solver.
    + exists j, y. rewrite elem_of_upd. destruct (decide (j = k)) as [->|]; set_solver.
Qed.

Lemma is_free_take fl k l1 a l2 x :
  fl k = l1 ++ a :: l2 ->
  is_free fl x <-> covers a k x \/ is_free (upd fl k (l1 ++ l2)) x.
Proof.
  intros Hfl. unfold is_free. split.
  - intros (j & y & Hy & Hc). destruct (decide (j = k)) as [->|].
    + rewrite Hfl in Hy. assert (y = a \/ y ∈ l1 ++ l2) as [->|Hy'] by set_solver; [by left|].
      right. exists k, y. rewrite elem_of_upd. auto.
    + right. exists j, y. rewrite elem_of_upd. auto.
  - intros [Hc|(j & y & [[-> Hy]|[_ Hy]]%elem_of_upd & Hc)].
    + exists k, a. rewrite Hfl. set_solver.
    + exists k, y. rewrite Hfl. set_solver.
    + eauto.
Qed.

Lemma fresh_push fl k a k' a' :
  fresh fl a' k' -> disj a' k' a k -> fresh (upd fl k (a :: fl k)) a' k'.
Proof. intros Hf Hd j y [[-> [->|Hy]%elem_of_cons]|[_ Hy]]%elem_of_upd; auto. Qed.

Lemma fresh_not_free fl a k : fresh fl a k <-> forall x, covers a k x -> ~ is_free fl x.
Proof.
  pose proof (size_ge k) as Hk. split.
  - intros Hf x Hx (j & y & Hy%Hf & Hc). unfold disj, covers in *. lia.
  - intros H j y Hy. unfold disj. pose proof (size_ge j).
    destruct (decide (a + size_of k <= y \/ y + size_of j <= a)) as [|Hn]; [done|]. exfalso.
    apply (H (Z.max a y)); [unfold covers; lia|]. exists j, y. unfold covers. split; [done|]. lia.
Qed.

(** ** Halves of a block *)

Lemma mod_half x k : x mod size_of (S k) = 0 -> x mod size_of k = 0.
Proof.
  intros H. rewrite size_S in H. apply Z.mod_divide; [pose proof (size_ge k); lia|].
  apply Z.mod_divide in H as [q ->]; [|pose proof (size_ge k); lia]. exists (q * 2). lia.
Qed.

Lemma valid_lower b a k : valid b a (S k) -> valid b a k.
Proof.
  intros []. pose proof (size_S k). pose proof (size_ge k).
  constructor; [lia|lia|lia|done|]. intros. apply mod_half. auto.
Qed.

Lemma valid_upper b a k : valid b a (S k) -> valid b (a + size_of k) k.
Proof.
  intros []. pose proof (size_S k). pose proof (size_ge k). constructor; [lia|lia|lia| |].
  - rewrite Z.add_mod, v_al0, size_mod_page; done.
  - intros Hb. rewrite Z.add_mod, (mod_half a k), Z.mod_same by (lia || auto). apply Z.mod_0_l. lia.
Qed.

Definition bitmap_or (b : buddy) (P : Z -> Prop) (x : Z) : Prop := in_bitmap b x \/ P x.

Lemma only_bitmap_mono b b' (P Q : Z -> Prop) m m' :
  same_range b b' -> (forall x, P x -> Q x) ->
  only (bitmap_or b' P) m m' -> only (bitmap_or b Q) m m'.
Proof.
  intros [H1 _ _ H2 _] HPQ. apply only_mono. intros x. unfold bitmap_or, in_bitmap, low.
  rewrite H1, H2. intros []; auto.
Qed.

(** ** Splitting *)

(** Pushing a block and toggling its bit. *)
Lemma push_toggle_inv d s fl a k :
  inv d s fl -> valid (alloc_of s) a k -> fresh fl a k ->
  let s' := toggle_if_init (push_block s a k) a k in
  inv d s' (upd fl k (a :: fl k)) /\ same_range (alloc_of s) (alloc_of s') /\
  only (bitmap_or (alloc_of s) (covers a k)) (mem_of s) (mem_of s').
Proof.
  intros Hi Hv Hf s'. pose proof (push_inv _ _ _ _ _ Hi Hv Hf) as Hp.
  destruct (toggle_if_init_inv _ _ _ a k Hp) as (Hi' & Ha & Ho).
  - apply Hv.
  - by apply (valid_bounds (alloc_of s) a k (i_cfg _ _ _ Hi)).
  - split_and!; [done|subst s'; rewrite Ha; by constructor|].
    eapply only_trans; eapply only_mono; [|apply push_only| |exact Ho].
    + intros x Hx. by right.
    + intros x Hx. by left.
Qed.

Lemma split_inv n order addr d s fl :
  inv d s fl -> valid (alloc_of s) addr (order + n) -> fresh fl addr (order + n) ->
  exists fl', let s' := split_loop n order addr s in
    inv d s' fl' /\ same_range (alloc_of s) (alloc_of s') /\
    valid (alloc_of s) addr order /\ fresh fl' addr order /\
    (forall x, is_free fl' x <-> is_free fl x \/ (covers addr (order + n) x /\ ~ covers addr order x)) /\
    pages fl' = pages fl + 2 ^ Z.of_nat (order + n) - 2 ^ Z.of_nat order /\
    only (bitmap_or (alloc_of s) (covers addr (order + n))) (mem_of s) (mem_of s').
Proof.
  revert s fl. induction n as [|n IH]; intros s fl Hi Hv Hf.
  { exists fl. rewrite Nat.add_0_r in *. cbn. split_and!; try done; (tauto || lia). }
  cbn [split_loop]. cbn zeta. rewrite Nat.add_succ_r in *. set (k := (order + n)%nat) in *.
  rewrite block_bytes_eq. pose proof (size_S k) as HS. pose proof (size_ge k) as Hge.
  assert (Hfu : fresh fl (addr + size_of k) k) by (intros j y Hy%Hf; unfold disj in *; lia).
  destruct (push_toggle_inv _ _ _ _ _ Hi (valid_upper _ _ _ Hv) Hfu) as (Hi1 & Hsr1 & Ho1).
  set (s1 := toggle_if_init _ _ _) in *.
  destruct (IH s1 _ Hi1) as (fl' & Hi' & Hsr' & Hv' & Hf' & Hfree & Hpg & Ho').
  { eapply valid_same; [done|]. by apply valid_lower. }
  { apply fresh_push; [|unfold disj; lia]. intros j y Hy%Hf. unfold disj in *. lia. }
  exists fl'. split_and!; [done|by etrans| |done| | |].
  - eapply valid_same; [|exact Hv']. destruct Hsr1. by constructor.
  - intros x. rewrite Hfree, is_free_push. unfold covers.
    pose proof (size_mono order k ltac:(lia)). pose proof (size_ge order).
    split; [intros [[Hx|Hx]|Hx]|intros [Hx|Hx]]; [right; lia|by left|right; lia|auto|].
    destruct (decide (x < addr + size_of k)); [right; lia|left; left; lia].
  - rewrite Hpg, pages_upd, alen_cons by (destruct Hv; lia).
    rewrite (Nat2Z.inj_succ k), Z.pow_succ_r by lia. lia.
  - eapply only_trans; eapply only_bitmap_mono;
      [reflexivity| |exact Ho1|exact Hsr1| |exact Ho']; unfold covers; lia.
Qed.

(** ** Allocation *)

(** [alloc_pages] returned [a]: the free set loses exactly the block. *)
Record allocated (s : bstate) (fl : lists) (order : nat) (a : Z) (s' : bstate) (fl' : lists) : Prop := {
  al_inv : inv 0 s' fl';
  al_same : same_range (alloc_of s) (alloc_of s');
  al_valid : valid (alloc_of s) a order;
  al_was_free : forall x, covers a order x -> is_free fl x;
  al_free : forall x, is_free fl' x <-> is_free fl x /\ ~ covers a order x;
  al_pages : pages fl' = pages fl - 2 ^ Z.of_nat order;
  al_only : only (bitmap_or (alloc_of s) (is_free fl)) (mem_of s) (mem_of s')
}.

Lemma inv_set_total d d' s fl :
  inv d s fl ->
  inv (d - d') (mk_st (set_total (alloc_of s) (total_free (alloc_of s) - d')) (mem_of s)) fl.
Proof.
  intros []. constructor; cbn; try done; [|lia|].
  - eapply cfg_same; [apply same_range_set_lists|done].
  - intros k a Ha. eapply valid_same; [apply same_range_set_lists|auto].
Qed.

(** Taking the head block of order [k]: what the abstract lists keep. *)
Lemma head_split d s fl k a l :
  inv d s fl -> fl k = a :: l ->
  valid (alloc_of s) a k /\ fresh (upd fl k l) a k /\
  pages (upd fl k l) = pages fl - 2 ^ Z.of_nat k /\
  (forall x, is_free fl x <-> covers a k x \/ is_free (upd fl k l) x).
Proof.
  intros Hi Hfl. assert (Ha : a ∈ fl k) by (rewrite Hfl; set_solver).
  apply (i_valid _ _ _ Hi) in Ha. split_and!; [done|by eapply (taken_fresh _ _ _ _ [])| |].
  - rewrite pages_upd, Hfl, alen_cons by apply Ha. lia.
  - intros x. by apply (is_free_take _ _ []).
Qed.

Lemma alloc_exact_inv s fl order a l :
  inv 0 s fl -> (order <= MAX_ORDER)%nat -> fl order = a :: l ->
  exists s', alloc_pages s order = (Some a, s') /\ allocated s fl order a s' (upd fl order l).
Proof.
  intros Hi Hk Hfl. pose proof (pop_inv _ _ _ _ Hi Hk) as Hpop. rewrite Hfl in Hpop.
  destruct Hpop as (s1 & Hpop & Hm & Hsr & Hi1). destruct (head_split _ _ _ _ _ _ Hi Hfl) as (Hv & Hf & Hpg & Hfr).
  unfold alloc_pages. destruct (Nat.ltb_spec MAX_ORDER order); [lia|]. rewrite Hpop, Z.shiftl_1_l.
  apply (inv_set_total _ (2 ^ Z.of_nat order)) in Hi1. set (s2 := mk_st _ _) in *.
  assert (Hsr2 : same_range (alloc_of s) (alloc_of s2)) by (destruct Hsr; by constructor).
  destruct (toggle_if_init_inv _ s2 _ a order Hi1 Hk) as (Hi2 & Ha & Ho).
  { destruct Hsr2 as [-> -> _ _ _]. by apply (valid_bounds _ a order (i_cfg _ _ _ Hi)). }
  eexists. split; [done|]. constructor.
  - by replace 0 with (0 + 2 ^ Z.of_nat order - 2 ^ Z.of_nat order) by lia.
  - by rewrite Ha.
  - done.
  - intros x Hx. apply Hfr. by left.
  - intros x. rewrite Hfr. rewrite fresh_not_free in Hf. specialize (Hf x). tauto.
  - done.
  - rewrite <-Hm. eapply only_bitmap_mono; [exact Hsr2|apply (fun _ H => H)|].
    eapply only_mono; [|exact Ho]. intros x Hx. by left.
Qed.

Lemma alloc_split_inv s fl order n a l :
  inv 0 s fl -> (order + n <= MAX_ORDER)%nat -> fl (order + n)%nat = a :: l ->
  let higher := (order + n)%nat in
  exists s1 fl', pop_block s higher = (Some a, s1) /\
    let s2 := split_loop n order a (toggle_if_init s1 a higher) in
    allocated s fl order a
      (mk_st (set_total (alloc_of s2) (total_free (alloc_of s2) - 2 ^ Z.of_nat higher)) (mem_of s2)) fl'.
Proof.
  intros Hi Hk Hfl higher. pose proof (pop_inv _ _ _ _ Hi Hk) as Hpop. rewrite Hfl in Hpop.
  destruct Hpop as (s1 & Hpop & Hm & Hsr & Hi1). destruct (head_split _ _ _ _ _ _ Hi Hfl) as (Hv & Hf & Hpg & Hfr).
  destruct (toggle_if_init_inv _ s1 _ a higher Hi1 Hk) as (Hi2 & Ha & Ho).
  { destruct Hsr as [-> -> _ _ _]. by apply (valid_bounds _ a higher (i_cfg _ _ _ Hi)). }
  set (s1' := toggle_if_init s1 a higher) in *. rewrite <-Ha in Hsr.
  destruct (split_inv n order a _ s1' _ Hi2 ltac:(by eapply valid_same) Hf)
    as (fl' & Hi3 & Hsr3 & Hv3 & Hf3 & Hfr3 & Hpg3 & Ho3).
  exists s1, fl'. split; [done|]. constructor.
  - apply (inv_set_total _ (2 ^ Z.of_nat higher)) in Hi3.
    by replace 0 with (0 + 2 ^ Z.of_nat higher - 2 ^ Z.of_nat higher) by lia.
  - etrans; [exact Hsr|]. etrans; [exact Hsr3|]. by constructor.
  - eapply valid_same; [|exact Hv3]. destruct Hsr. by constructor.
  - intros x Hx. apply Hfr. left. unfold covers in *.
    pose proof (size_mono order (order + n)). lia.
  - intros x. rewrite Hfr3, Hfr. rewrite fresh_not_free in Hf3. specialize (Hf3 x). rewrite Hfr3 in Hf3. tauto.
  - rewrite Hpg3, Hpg. subst higher. lia.
  - rewrite <-Hm. cbn [mem_of]. eapply only_trans.
    + eapply only_mono; [|exact Ho]. intros x Hx. left. destruct Hsr as [H1 _ _ H2 _].
      unfold in_bitmap, low in *. rewrite Ha in H1, H2. by rewrite H1, H2 in Hx.
    + eapply only_bitmap_mono; [exact Hsr| |exact Ho3]. intros x Hx. apply Hfr. by left.
Qed.

Lemma alloc_higher_inv n higher order s fl :
  inv 0 s fl -> (order < higher)%nat -> (higher + n = S MAX_ORDER)%nat ->
  ((forall k, (higher <= k <= MAX_ORDER)%nat -> fl k = []) /\ alloc_higher n higher order s = (None, s)) \/
  (exists a s' fl', alloc_higher n higher order s = (Some a, s') /\ allocated s fl order a s' fl').
Proof.
  intros Hi. revert higher. induction n as [|n IH]; intros higher Hlt Hn; cbn [alloc_higher].
  { left. split; [lia|done]. }
  destruct (fl higher) as [|a l] eqn:Hfl.
  - pose proof (pop_inv _ _ _ higher Hi ltac:(lia)) as Hp. rewrite Hfl in Hp. rewrite Hp.
    destruct (IH (S higher)) as [[Hk ->]|H]; [lia|lia| |by right]. left. split; [|done].
    intros k Hk'. destruct (decide (k = higher)) as [->|]; [done|]. apply Hk. lia.
  - right. destruct (alloc_split_inv s fl order (higher - order) a l Hi) as (s1 & fl' & Hp & Ha).
    { lia. } { by replace (order + (higher - order))%nat with higher by lia. }
    replace (order + (higher - order))%nat with higher in * by lia. rewrite Hp, Z.shiftl_1_l. eauto.
Qed.

Lemma alloc_pages_inv s fl order :
  inv 0 s fl ->
  ((forall k, (order <= k <= MAX_ORDER)%nat -> fl k = []) /\ alloc_pages s order = (None, s)) \/
  (exists a s' fl', alloc_pages s order = (Some a, s') /\ allocated s fl order a s' fl').
Proof.
  intros Hi. destruct (decide (order <= MAX_ORDER)%nat) as [Hk|Hk].
  2:{ left. split; [lia|]. unfold alloc_pages. destruct (Nat.ltb_spec MAX_ORDER order); [done|lia]. }
  destruct (fl order) as [|a l] eqn:Hfl.
  - pose proof (pop_inv _ _ _ order Hi Hk) as Hp. rewrite Hfl in Hp.
    unfold alloc_pages. destruct (Nat.ltb_spec MAX_ORDER order); [lia|]. rewrite Hp.
    destruct (alloc_higher_inv (MAX_ORDER - order) (S order) order s fl Hi) as [[H' ->]|H'];
      [lia|lia|left|by right].
    split; [|done]. intros k ?. destruct (decide (k = order)) as [->|]; [done|]. apply H'. lia.
  - right. destruct (alloc_exact_inv s fl order a l Hi Hk Hfl) as (s' & ? & ?). eauto.
Qed.

(** ** Coalescing *)

Lemma size_pow k : size_of k = 2 ^ (Z.of_nat k + 12).
Proof. unfold size_of. rewrite Z.pow_add_r by lia. lia. Qed.

(** Buddies are adjacent blocks. *)
Lemma buddy_of_eq addr base k :
  buddy_of addr base k =
  if Z.testbit (addr - base) (Z.of_nat k + 12) then addr - size_of k else addr + size_of k.
Proof.
  unfold buddy_of, PAGE_SHIFT. rewrite Z.shiftl_1_l, lxor_pow2, <-size_pow by lia. case_match; lia.
Qed.

Lemma mod_pow2_succ x n :
  0 <= n -> x mod 2 ^ n = 0 -> x mod 2 ^ (n + 1) = if Z.testbit x n then 2 ^ n else 0.
Proof.
  intros Hn Hx. pose proof (Z.pow_pos_nonneg 2 n). apply Z.mod_divide in Hx as [q ->]; [|lia].
  rewrite Z.pow_add_r, (Z.mul_comm q), Z.mul_mod_distr_l by lia.
  rewrite Z.testbit_eqb, (Z.mul_comm (2 ^ n) q), Z.div_mul by lia. change (2 ^ 1) with 2.
  pose proof (Z.mod_pos_bound q 2). destruct (Z.eqb_spec (q mod 2) 1) as [->|]; [lia|].
  replace (q mod 2) with 0 by lia. lia.
Qed.

(** The lower of two buddies is aligned to the merged block. *)
Lemma merged_aligned b addr k :
  (k < MAX_ORDER)%nat -> b mod size_of MAX_ORDER = 0 -> addr mod size_of k = 0 ->
  Z.min addr (buddy_of addr b k) mod size_of (S k) = 0.
Proof.
  intros Hk Hb Ha. assert (HbS : b mod size_of (S k) = 0).
  { replace MAX_ORDER with (S k + (MAX_ORDER - S k))%nat in Hb by lia.
    induction (MAX_ORDER - S k)%nat as [|n IH]; [by rewrite Nat.add_0_r in Hb|].
    rewrite Nat.add_succ_r in Hb. auto using mod_half. }
  pose proof (size_ge k). pose proof (size_ge (S k)). pose proof (mod_half _ _ HbS) as Hbk.
  assert (Ho : (addr - b) mod 2 ^ (Z.of_nat k + 12) = 0).
  { rewrite <-size_pow, Zminus_mod, Ha, Hbk. apply Z.mod_0_l; lia. }
  apply mod_pow2_succ in Ho; [|lia]. rewrite <-size_pow in Ho.
  replace (Z.of_nat k + 12 + 1) with (Z.of_nat (S k) + 12) in Ho by lia. rewrite <-size_pow in Ho.
  rewrite buddy_of_eq. destruct (Z.testbit _ _).
  - rewrite Z.min_r by lia. replace (addr - size_of k) with (addr - b - size_of k + b) by lia.
    rewrite Z.add_mod, HbS, Zminus_mod, Ho by lia. rewrite (Z.mod_small (size_of k)) by (rewrite size_S; lia).
    by rewrite Z.sub_diag, !Z.mod_0_l by lia.
  - rewrite Z.min_l by lia. replace addr with (addr - b + b) by lia.
    rewrite Z.add_mod, HbS, Ho by lia. by rewrite Z.mod_0_l by lia.
Qed.

(** Coalescing [addr] of order [k] off the lists gave [a'] of order [k']: the
    free blocks it absorbed left the lists, and together they are the block. *)
Record merged (d : Z) (s : bstate) (fl : lists) (addr : Z) (k : nat)
    (a' : Z) (k' : nat) (s' : bstate) (fl' : lists) : Prop := {
  mg_inv : inv d s' fl';
  mg_same : same_range (alloc_of s) (alloc_of s');
  mg_valid : valid (alloc_of s) a' k';
  mg_fresh : fresh fl' a' k';
  mg_free : forall x, is_free fl' x \/ covers a' k' x <-> is_free fl x \/ covers addr k x;
  mg_sub : forall x, is_free fl' x -> is_free fl x;
  mg_pages : pages fl' + 2 ^ Z.of_nat k' = pages fl + 2 ^ Z.of_nat k;
  mg_only : only (bitmap_or (alloc_of s) (is_free fl)) (mem_of s) (mem_of s')
}.

Lemma merged_refl d s fl addr k s' :
  inv d s' fl -> alloc_of s' = alloc_of s -> only (in_bitmap (alloc_of s)) (mem_of s) (mem_of s') ->
  valid (alloc_of s) addr k -> fresh fl addr k -> merged d s fl addr k addr k s' fl.
Proof.
  intros Hi Ha Ho Hv Hf. constructor; try done; [by rewrite Ha|].
  eapply only_mono; [|exact Ho]. intros x Hx. by left.
Qed.

(** One merge: the buddy leaves its list, the union is a block of the next order. *)
Lemma merge_step d s fl addr k :
  let b := alloc_of s in
  let bud := buddy_of addr (base b) k in
  inv d s fl -> (k < MAX_ORDER)%nat -> valid b addr k -> fresh fl addr k -> bud ∈ fl k ->
  exists s' fl', remove_from_free_list s bud k = Some (true, s') /\
    merged d s fl addr k (Z.min addr bud) (S k)
      (mk_st (set_total (alloc_of s') (total_free (alloc_of s') - 2 ^ Z.of_nat k)) (mem_of s')) fl'.
Proof.
  intros b bud Hi Hk Hv Hf Hb. subst b. pose proof (i_valid _ _ _ Hi _ _ Hb) as Hvb.
  destruct (remove_inv d s fl k bud Hi) as [[? _]|(l1 & l2 & s' & Hfl & Hr & Hsr & Ho & Hi')];
    [lia|by eapply free_pos|done|].
  exists s', (upd fl k (l1 ++ l2)). split; [done|].
  pose proof (taken_fresh _ _ _ _ _ _ _ Hi Hfl) as Hfb. pose proof (size_S k) as HS.
  assert (Hbud : bud = addr - size_of k \/ bud = addr + size_of k)
    by (subst bud; rewrite buddy_of_eq; case_match; auto).
  apply (inv_set_total _ (2 ^ Z.of_nat k)) in Hi'. pose proof (size_ge k).
  constructor.
  - by replace d with (d + 2 ^ Z.of_nat k - 2 ^ Z.of_nat k) by lia.
  - destruct Hsr. by constructor.
  - destruct Hv, Hvb. constructor; [lia|lia|lia|destruct (Z.min_spec addr bud); intuition congruence|].
    intros Hal. apply merged_aligned; auto.
  - intros j y Hy. pose proof (Hfb _ _ Hy). assert (Hy' : y ∈ fl j).
    { apply elem_of_upd in Hy as [[-> ?]|[_ ?]]; [rewrite Hfl|]; set_solver. }
    apply Hf in Hy'. pose proof (size_ge j). unfold disj in *. lia.
  - intros x. rewrite (is_free_take fl k l1 bud l2 x Hfl).
    assert (covers (Z.min addr bud) (S k) x <-> covers bud k x \/ covers addr k x)
      by (unfold covers; lia). tauto.
  - intros x Hx. apply (is_free_take fl k l1 bud l2 x Hfl). by right.
  - rewrite pages_upd, Hfl, !alen_app, alen_cons, Nat2Z.inj_succ, Z.pow_succ_r by lia. lia.
  - eapply only_mono; [|exact Ho]. intros x Hx. by right.
Qed.

Lemma merged_trans d s1 fl1 a1 k1 a2 k2 s2 fl2 a3 k3 s3 fl3 :
  merged d s1 fl1 a1 k1 a2 k2 s2 fl2 -> merged d s2 fl2 a2 k2 a3 k3 s3 fl3 ->
  merged d s1 fl1 a1 k1 a3 k3 s3 fl3.
Proof.
  intros [] []. constructor; [done|by etrans| |done| |auto|lia|].
  - eapply valid_same; [|exact mg_valid1]. destruct mg_same0. by constructor.
  - intros x. by rewrite mg_free1, mg_free0.
  - eapply only_trans; [exact mg_only0|]. by eapply only_bitmap_mono.
Qed.

Lemma coalesce_inv n addr k d s fl :
  inv d s fl -> (k + n = MAX_ORDER)%nat -> valid (alloc_of s) addr k -> fresh fl addr k ->
  exists a' k' s' fl', coalesce n addr k s = Some (a', k', s') /\ merged d s fl addr k a' k' s' fl'.
Proof.
  revert addr k s fl. induction n as [|n IH]; intros addr k s fl Hi Hn Hv Hf; cbn [coalesce].
  { exists addr, k, s, fl. split; [done|]. apply merged_refl; try done. }
  pose proof (valid_bounds _ _ _ (i_cfg _ _ _ Hi) Hv) as (_ & _ & Hr).
  destruct (toggle_inv d s fl addr k Hi ltac:(lia) Hr) as (Hi1 & Ha1 & Ho1).
  destruct (bitmap_toggle s addr k) as [bit s1]. cbn [snd] in *.
  assert (Hm1 : merged d s fl addr k addr k s1 fl) by by apply merged_refl.
  destruct bit; [by exists addr, k, s1, fl|]. rewrite <-Ha1 in Hr, Hv.
  destruct (toggle_inv d s1 fl addr k Hi1 ltac:(lia) Hr) as (Hi2 & Ha2 & Ho2).
  assert (Hm2 : merged d s1 fl addr k addr k (bitmap_toggle s1 addr k).2 fl) by by apply merged_refl.
  rewrite <-Ha1. set (bud := buddy_of addr (base (alloc_of s1)) k).
  destruct (_ || _) eqn:Eb; [by eexists addr, k, _, fl; split; [|eapply merged_trans]|].
  apply orb_false_elim in Eb as [Eb _]. apply Z.ltb_ge in Eb.
  destruct (decide (bud ∈ fl k)) as [Hin|Hin].
  - destruct (merge_step d s1 fl addr k Hi1 ltac:(lia) Hv Hf Hin) as (s2 & fl2 & Hrm & Hm).
    fold bud in Hrm, Hm. rewrite Hrm, Z.shiftl_1_l. set (s3 := mk_st _ _) in *.
    destruct (IH (Z.min addr bud) (S k) s3 fl2) as (a' & k' & s' & fl' & -> & Hm').
    + apply Hm.
    + lia.
    + eapply valid_same; apply Hm.
    + apply Hm.
    + exists a', k', s', fl'. split; [done|]. eapply merged_trans; [exact Hm1|].
      eapply merged_trans; [exact Hm|exact Hm'].
  - destruct (remove_inv d s1 fl k bud Hi1) as [[_ ->]|(l1 & l2 & s' & Hfl & _)].
    + lia.
    + destruct (i_cfg _ _ _ Hi1). lia.
    + by eexists addr, k, _, fl; split; [|eapply merged_trans].
    + rewrite Hfl in Hin. set_solver.
Qed.

(** ** Freeing *)

(** Byte [i] of a poisoned block. *)
Definition poison_byte (i : Z) : Z := default 0 (le_bytes 4 POISON_PATTERN !! Z.to_nat (i mod 4)).

Lemma poison_words_spec n m a x :
  poison_words n m a x =
  if (a <=? x) && (x <? a + 4 * Z.of_nat n) then poison_byte (x - a) else m x.
Proof.
  revert m a. induction n as [|n IH]; intros m a; cbn [poison_words].
  { destruct (Z.leb_spec a x), (Z.ltb_spec x (a + 4 * Z.of_nat 0)); try done; lia. }
  rewrite IH. unfold store32, store. change (Z.of_nat 4) with 4.
  destruct (Z.leb_spec (a + 4) x), (Z.ltb_spec x (a + 4 + 4 * Z.of_nat n)), (Z.leb_spec a x),
    (Z.ltb_spec x (a + 4 * Z.of_nat (S n))), (Z.ltb_spec x (a + 4)); cbn [andb]; try lia; try done.
  - unfold poison_byte. by replace (x - a) with (x - (a + 4) + 1 * 4) by lia; rewrite Z.mod_add.
  - unfold poison_byte. by rewrite Z.mod_small by lia.
Qed.

Lemma poison_byte_bound i : is_byte (poison_byte i).
Proof.
  unfold poison_byte. destruct (_ !! _) as [v|] eqn:E; [|done].
  by apply (proj1 (Forall_lookup _ _) (le_bytes_bytes _ _) _ _ E).
Qed.

Lemma poison_block m a k :
  mem_ok m ->
  let m' := poison_words (Z.to_nat (block_bytes k / 4)) m a in
  mem_ok m' /\ only (covers a k) m m' /\ (forall x, covers a k x -> m' x = poison_byte (x - a)).
Proof.
  intros Hm. cbn zeta. rewrite block_bytes_eq. set (m' := poison_words _ _ _). pose proof (size_mod_page k). pose proof (size_ge k).
  assert (Hn : 4 * Z.of_nat (Z.to_nat (size_of k / 4)) = size_of k) by divlia.
  assert (Hs : forall x, m' x = if (a <=? x) && (x <? a + size_of k) then poison_byte (x - a) else m x)
    by (intros; subst m'; by rewrite poison_words_spec, Hn).
  split_and!.
  - intros x. rewrite Hs. case_match; [apply poison_byte_bound|apply Hm].
  - intros x Hx. rewrite Hs. unfold covers in Hx.
    destruct (Z.leb_spec a x), (Z.ltb_spec x (a + size_of k)); try done; lia.
  - intros x Hx. rewrite Hs. unfold covers in Hx.
    destruct (Z.leb_spec a x), (Z.ltb_spec x (a + size_of k)); try done; lia.
Qed.

(** [free_pages] of the block [a]: the free set gains exactly the block, and
    the block holds the poison pattern except where a list pointer went. *)
Record freed (s : bstate) (fl : lists) (a : Z) (k : nat) (s' : bstate) (fl' : lists) : Prop := {
  fr_inv : inv 0 s' fl';
  fr_same : same_range (alloc_of s) (alloc_of s');
  fr_free : forall x, is_free fl' x <-> is_free fl x \/ covers a k x;
  fr_pages : pages fl' = pages fl + 2 ^ Z.of_nat k;
  fr_only : only (bitmap_or (alloc_of s) (fun x => is_free fl x \/ covers a k x)) (mem_of s) (mem_of s');
  fr_scrub : exists h, (exists j, h ∈ fl' j) /\
    forall x, covers a k x -> ~ (h <= x < h + 8) -> mem_of s' x = poison_byte (x - a)
}.

(** The last step of [free_pages]: toggle at the top order and push. *)
Lemma push_merged_inv s fl a k a' k' s2 fl2 :
  merged 0 s fl a k a' k' s2 fl2 -> fresh fl a k -> valid (alloc_of s) a k ->
  (forall x, covers a k x -> mem_of s x = poison_byte (x - a)) ->
  let s3 := if (k' =? MAX_ORDER)%nat then (bitmap_toggle s2 a' k').2 else s2 in
  freed s fl a k (push_block s3 a' k') (upd fl2 k' (a' :: fl2 k')).
Proof.
  intros [] Hf Hv Hp s3. pose proof (valid_same _ _ _ _ mg_same0 mg_valid0) as Hv2.
  assert (H3 : inv 0 s3 fl2 /\ alloc_of s3 = alloc_of s2 /\
    only (in_bitmap (alloc_of s2)) (mem_of s2) (mem_of s3)).
  { subst s3. case_match; [|split_and!; [done..|apply only_refl]]. apply toggle_inv; [done|apply Hv2|].
    by apply (valid_bounds _ a' k' (i_cfg _ _ _ mg_inv0)). }
  destruct H3 as (Hi3 & Ha3 & Ho3). rewrite <-Ha3 in Hv2.
  assert (Ho : only (bitmap_or (alloc_of s) (is_free fl)) (mem_of s) (mem_of s3)).
  { eapply only_trans; [exact mg_only0|]. eapply only_bitmap_mono; [exact mg_same0| |].
    - exact (fun _ H => H).
    - eapply only_mono; [|exact Ho3]. intros x Hx. by left. }
  constructor.
  - by apply push_inv.
  - etrans; [exact mg_same0|]. rewrite <-Ha3. by constructor.
  - intros x. rewrite is_free_push, <-mg_free0. tauto.
  - rewrite pages_upd, alen_cons by apply Hv2. lia.
  - eapply only_trans; eapply only_mono; [|exact Ho| |apply push_only]; cbn.
    + intros x [|]; [by left|right; by left].
    + intros x Hx. right. apply mg_free0. by right.
  - exists a'. split; [exists k'; rewrite upd_eq; set_solver|]. intros x Hx Hn.
    transitivity (mem_of s3 x); [by apply (only_store 8)|]. rewrite <-Hp by done. apply Ho. intros [Hb|Hfr].
    + destruct Hb, Hx, Hv. lia.
    + rewrite fresh_not_free in Hf. by eapply Hf.
Qed.

Lemma free_pages_inv s fl a k :
  inv 0 s fl -> initialized (alloc_of s) = true -> valid (alloc_of s) a k -> fresh fl a k ->
  load32 (mem_of s) a <> POISON_PATTERN ->
  exists s' fl', free_pages s a k = Some s' /\ freed s fl a k s' fl'.
Proof.
  intros Hi Hin Hv Hf Hp. pose proof (valid_bounds _ _ _ (i_cfg _ _ _ Hi) Hv) as (Ha0 & _ & Hr).
  unfold free_pages. destruct (Z.leb_spec (base (alloc_of s)) a); [|lia].
  destruct (Z.ltb_spec a (bend (alloc_of s))); [|lia]. cbn [andb negb].
  change (PAGE_SIZE - 1) with (2 ^ 12 - 1). rewrite land_ones_mod by lia.
  change (2 ^ 12) with 4096. rewrite (v_al _ _ _ Hv), Hin. cbn [Z.eqb negb].
  destruct (Nat.ltb_spec MAX_ORDER k); [destruct Hv; lia|].
  destruct (Z.eqb_spec (load32 (mem_of s) a) POISON_PATTERN); [done|].
  destruct (poison_block (mem_of s) a k) as (Hm & Ho & Hb); [apply Hi|].
  set (s1 := set_mem s _).
  assert (Hi1 : inv 0 s1 fl).
  { eapply inv_only; [done..|exact Ho|]. by apply fresh_not_free. }
  destruct (coalesce_inv (MAX_ORDER - k) a k 0 s1 fl Hi1) as (a' & k' & s2 & fl2 & -> & Hmg); [lia|done|done|].
  cbn. eexists _, _. split; [done|].
  destruct (push_merged_inv _ _ _ _ _ _ _ _ Hmg Hf Hv Hb) as [? ? ? ? Hof ?].
  constructor; try done. eapply only_trans; [|exact Hof].
  eapply only_mono; [|exact Ho]. intros x Hx. right. by right.
Qed.
