(* ===== verification/BuddyInit.v ===== *)
(** * Initialization of the buddy allocator

    [add_aligned_blocks] fills a region with the largest aligned blocks; with
    it [init_with_range] and [init_with_range_excluding] establish the
    invariant of [BuddyInv] with exactly the pages of the range that are
    neither bitmap nor excluded on the free lists. *)

From S2P Require Import Prelude PhysMem Memory Buddy BuddyInv.

(** ** Filling a region *)

Lemma pick_order_spec k addr lim :
  addr mod 4096 = 0 -> addr + 4096 <= lim ->
  let o := pick_order k addr lim in
  (o <= k)%nat /\ addr + size_of o <= lim /\ addr mod size_of o = 0.
Proof.
  intros Hal Hlim. induction k as [|k IH]; cbn [pick_order]; cbn zeta; rewrite block_bytes_eq.
  - case_match; (split_and!; [lia| |]); change (size_of 0) with 4096; lia.
  - destruct (_ && _) eqn:E.
    + apply andb_true_iff in E as [E1 E2]. apply Z.eqb_eq in E1. apply Z.leb_le in E2.
      rewrite size_pow, land_ones_mod, <-size_pow in E1 by lia. auto.
    + destruct IH as (? & ? & ?). auto.
Qed.

(** A region ready to be handed to the allocator. *)
Record region_ok (b : buddy) (fl : lists) (addr lim : Z) : Prop := {
  r_al : addr mod 4096 = 0;
  r_lim : lim mod 4096 = 0;
  r_low : low b <= addr;
  r_end : lim <= bend b;
  r_fresh : forall x, addr <= x < lim -> ~ is_free fl x
}.

Record filled (s : bstate) (fl : lists) (addr lim : Z) (s' : bstate) (fl' : lists) : Prop := {
  f_inv : inv 0 s' fl';
  f_same : same_range (alloc_of s) (alloc_of s');
  f_free : forall x, is_free fl' x <-> is_free fl x \/ addr <= x < lim;
  f_pages : pages fl' = pages fl + Z.max 0 (lim - addr) / 4096;
  f_only : only (fun x => addr <= x < lim) (mem_of s) (mem_of s')
}.

Lemma pages_of_size k n : (size_of k + 4096 * n) / 4096 = 2 ^ Z.of_nat k + n.
Proof. unfold size_of. rewrite <-Z.mul_add_distr_l, Z.mul_comm. by apply Z.div_mul. Qed.

Lemma add_aligned_inv fuel s fl addr lim :
  inv 0 s fl -> region_ok (alloc_of s) fl addr lim -> (lim - addr) / 4096 < Z.of_nat fuel ->
  exists fl', filled s fl addr lim (add_aligned fuel s addr lim) fl'.
Proof.
  revert s fl addr. induction fuel as [|fuel IH]; intros s fl addr Hi Hr Hf; cbn [add_aligned];
    (destruct (Z.ltb_spec addr lim) as [Hlt|Hlt]; [destruct Hr; try divlia|]).
  1,3: exists fl; constructor; [done|done|intuition lia|rewrite Z.max_l, Z.div_0_l by lia; lia|apply only_refl].
  pose proof (pick_order_spec MAX_ORDER addr lim ltac:(done) ltac:(divlia)) as (Ho & Hs & Hal).
  set (o := pick_order MAX_ORDER addr lim) in *. rewrite block_bytes_eq.
  destruct (addr + size_of o >? lim) eqn:E; [lia|]. pose proof (size_ge o) as Hge.
  assert (Hv : valid (alloc_of s) addr o) by (constructor; [done|lia|lia|done|done]).
  assert (Hfr : fresh fl addr o) by (apply fresh_not_free; intros x Hx; apply r_fresh0; unfold covers in Hx; lia).
  pose proof (size_mod_page o) as Hsm.
  destruct (IH (push_block s addr o) _ (addr + size_of o) (push_inv _ _ _ _ _ Hi Hv Hfr)) as [fl' [? ? Hfree ? ?]].
  - constructor; [divlia|done|change (low (alloc_of s) <= addr + size_of o); lia|done|].
    intros x Hx [Hc|Hc]%is_free_push; [unfold covers in Hc; lia|]. apply (r_fresh0 x); [lia|done].
  - divlia.
  - exists fl'. constructor; [done| | | |].
    + etrans; [|done]. by constructor.
    + intros x. rewrite Hfree, is_free_push. unfold covers. split; [intros [[]|]|intros [|]]; auto; try lia.
    + rewrite f_pages0, pages_upd, alen_cons by done.
      replace (Z.max 0 (lim - addr)) with (size_of o + 4096 * ((lim - (addr + size_of o)) / 4096)) by divlia.
      rewrite pages_of_size, Z.max_r by lia. lia.
    + eapply only_trans; eapply only_mono; [|apply push_only| |exact f_only0]; cbv beta; intros x Hx; unfold covers in *; lia.
Qed.

Lemma add_aligned_blocks_inv s fl addr lim :
  inv 0 s fl -> region_ok (alloc_of s) fl addr lim ->
  exists fl', filled s fl addr lim (add_aligned_blocks s addr lim) fl'.
Proof.
  intros Hi Hr. apply add_aligned_inv; [done|done|]. unfold PAGE_SIZE.
  destruct (decide (addr <= lim)); [divlia|]. divlia.
Qed.

(** ** The empty allocator on a range *)

(** What the safety contract asks of a range. *)
Record range_ok (b e : Z) : Prop := {
  ro_base : 0 < b;
  ro_base_al : b mod 4096 = 0;
  ro_end_al : e mod 4096 = 0;
  ro_lt : b < e;
  ro_end : e < 2 ^ 64
}.

Definition no_blocks : lists := fun _ => [].

Lemma no_blocks_free x : ~ is_free no_blocks x.
Proof. intros (k & a & Ha & _). by apply not_elem_of_nil in Ha. Qed.

(** The bitmap fits in the range. *)
Lemma bitmap_fits n : 1 <= n -> 0 <= bitmap_page_count n <= n.
Proof.
  intros Hn. unfold bitmap_page_count, bitmap_bits, PAGE_SIZE.
  cbn [pair_offset MAX_ORDER]. unfold div_ceil.
  repeat match goal with |- context [Z.shiftl 1 ?e] =>
    let v := eval vm_compute in (Z.shiftl 1 e) in change (Z.shiftl 1 e) with v end.
  divlia.
Qed.

Lemma set_range_inv m b e :
  range_ok b e -> mem_ok m -> inv 0 (set_range (mk_st buddy_new m) b e) no_blocks.
Proof.
  intros [] Hm. constructor; [by constructor| |done|done|..].
  - intros x. cbn. unfold write_bytes. case_match; [done|apply Hm].
  - intros k Hk. change (replicate (S MAX_ORDER) 0 !!! k = 0). by rewrite lookup_total_replicate_2 by lia.
  - intros k Hk. change (replicate (S MAX_ORDER) 0 !!! k = 0). by rewrite lookup_total_replicate_2 by lia.
  - done.
  - intros k a Ha. by apply not_elem_of_nil in Ha.
  - intros k. constructor.
  - intros k a k' a' Ha. by apply not_elem_of_nil in Ha.
Qed.

Lemma set_range_low m b e :
  range_ok b e -> b <= low (alloc_of (set_range (mk_st buddy_new m) b e)) <= e.
Proof.
  intros []. unfold low, set_range, PAGE_SIZE. cbn [alloc_of base bitmap_pages].
  pose proof (bitmap_fits ((e - b) / 4096) ltac:(divlia)). divlia.
Qed.

Lemma set_initialized_inv s fl : inv 0 s fl -> inv 0 (set_initialized s) fl.
Proof.
  intros [H1 H2 H3 H4 H5 H6 H7 H8 H9 H10]. constructor; try done.
  - destruct H1. by constructor.
  - intros k a Ha. destruct (H8 k a Ha). by constructor.
Qed.

(** ** Exclusion zones *)

Definition in_zone (x : Z) (z : Z * Z) : Prop := z.1 <= x < z.2.

Fixpoint zones_sorted (zs : list (Z * Z)) : Prop :=
  match zs with
  | [] => True
  | z :: zs' => Forall (fun z' => z.1 <= z'.1) zs' /\ zones_sorted zs'
  end.

Lemma insert_zone_perm z zs : insert_zone z zs ≡ₚ z :: zs.
Proof.
  induction zs as [|z' zs IH]; cbn; [done|]. case_match; [done|]. rewrite IH. apply Permutation_swap.
Qed.
Lemma sort_zones_perm zs : sort_zones zs ≡ₚ zs.
Proof. unfold sort_zones. induction zs as [|z zs IH]; cbn; [done|]. by rewrite insert_zone_perm, IH. Qed.

Lemma insert_zone_sorted z zs : zones_sorted zs -> zones_sorted (insert_zone z zs).
Proof.
  induction zs as [|z' zs IH]; cbn; [done|]. intros [Hz' Hzs]. destruct (Z.leb_spec z.1 z'.1); cbn.
  - split_and!; [|done|done]. constructor; [done|]. eapply Forall_impl; [exact Hz'|]. cbn. lia.
  - split; [|auto]. rewrite insert_zone_perm. constructor; [lia|done].
Qed.
Lemma sort_zones_sorted zs : zones_sorted (sort_zones zs).
Proof. induction zs as [|z zs IH]; cbn; [done|]. by apply insert_zone_sorted. Qed.

Definition zone_ok (z : Z * Z) : Prop := z.1 <= z.2 /\ z.1 mod 4096 = 0 /\ z.2 mod 4096 = 0.

(** The walk over the zones and the fill after the last. *)
Definition fill_around (zs : list (Z * Z)) (cursor lim : Z) (s : bstate) : bstate :=
  let '(c, s1) := walk_zones zs cursor lim s in
  if c <? lim then add_aligned_blocks s1 c lim else s1.

Record filled_around (s : bstate) (fl : lists) (zs : list (Z * Z)) (cursor lim : Z)
    (s' : bstate) (fl' : lists) : Prop := {
  fa_inv : inv 0 s' fl';
  fa_same : same_range (alloc_of s) (alloc_of s');
  fa_free : forall x, is_free fl' x <->
    is_free fl x \/ (cursor <= x < lim /\ Forall (fun z => ~ in_zone x z) zs);
  fa_only : only (fun x => cursor <= x < lim /\ Forall (fun z => ~ in_zone x z) zs) (mem_of s) (mem_of s')
}.

Lemma before_zones x es zs :
  x < es -> Forall (fun z : Z * Z => es <= z.1) zs -> Forall (fun z => ~ in_zone x z) zs.
Proof. intros Hx H. eapply Forall_impl; [exact H|]. unfold in_zone. cbn. lia. Qed.

Lemma filled_around_compose s fl es ee zs cursor lim s1 fl1 s' fl' :
  es <= ee -> Forall (fun z : Z * Z => es <= z.1) zs ->
  filled s fl cursor (if (cursor <? es) && (cursor <? lim) then Z.min es lim else cursor) s1 fl1 ->
  filled_around s1 fl1 zs (Z.max cursor ee) lim s' fl' ->
  filled_around s fl ((es, ee) :: zs) cursor lim s' fl'.
Proof.
  intros Hle Hzs [] []. set (seg := if (cursor <? es) && (cursor <? lim) then Z.min es lim else cursor) in *.
  assert (Hx : forall x, (cursor <= x < seg \/ (Z.max cursor ee <= x < lim /\ Forall (fun z => ~ in_zone x z) zs))
    <-> (cursor <= x < lim /\ Forall (fun z => ~ in_zone x z) ((es, ee) :: zs))).
  { intros x. rewrite Forall_cons. unfold in_zone at 2. cbn [fst snd]. subst seg.
    destruct (Z.ltb_spec cursor es), (Z.ltb_spec cursor lim); cbn [andb];
      (split; [intros [Hc|[Hc Hz]]|intros (Hc & Hn & Hz)]);
      try (split; [lia|split; [lia|done]]); try (right; split; [lia|done]); try lia.
    - split; [lia|split; [lia|]]. eapply before_zones; [|exact Hzs]. lia.
    - destruct (decide (x < es)); [left; lia|right; split; [lia|done]]. }
  constructor; [done|by etrans| |].
  - intros x. rewrite fa_free0, f_free0, <-Hx. tauto.
  - eapply only_trans; eapply only_mono; [|exact f_only0| |exact fa_only0]; cbv beta; intros x Hc; apply Hx; auto.
Qed.

(** The gap before the next zone. *)
Lemma segment_inv s fl es ee zs cursor lim :
  inv 0 s fl -> Forall (fun z : Z * Z => es <= z.1) zs -> es mod 4096 = 0 ->
  cursor mod 4096 = 0 -> lim mod 4096 = 0 -> base (alloc_of s) <= cursor -> lim <= bend (alloc_of s) ->
  (low (alloc_of s) <= cursor \/ (base (alloc_of s), low (alloc_of s)) ∈ (es, ee) :: zs) ->
  (forall x, cursor <= x < lim -> ~ is_free fl x) ->
  exists fl1, filled s fl cursor
    (if (cursor <? es) && (cursor <? lim) then Z.min es lim else cursor)
    (if (cursor <? es) && (cursor <? lim) then add_aligned_blocks s cursor (Z.min es lim) else s) fl1.
Proof.
  intros Hi Hs1 Hes Hc Hl Hb He Hlow Hfr.
  destruct (Z.ltb_spec cursor es), (Z.ltb_spec cursor lim); cbn [andb];
    try (exists fl; constructor; [done|done|intuition lia|rewrite Z.max_l, Z.div_0_l by lia; lia|apply only_refl]).
  apply add_aligned_blocks_inv; [done|].
  constructor; [done|by destruct (Z.min_spec es lim) as [[_ ->]|[_ ->]]| |lia|].
  - destruct Hlow as [|[[= ? ?]|Hin]%elem_of_cons]; [done|lia|].
    rewrite Forall_forall in Hs1. apply Hs1 in Hin. cbn in Hin. lia.
  - intros x Hx. apply Hfr. lia.
Qed.

Lemma fill_around_inv zs cursor lim s fl :
  inv 0 s fl -> zones_sorted zs -> Forall zone_ok zs ->
  cursor mod 4096 = 0 -> lim mod 4096 = 0 -> base (alloc_of s) <= cursor -> lim <= bend (alloc_of s) ->
  (low (alloc_of s) <= cursor \/ (base (alloc_of s), low (alloc_of s)) ∈ zs) ->
  (forall x, cursor <= x < lim -> ~ is_free fl x) ->
  exists fl', filled_around s fl zs cursor lim (fill_around zs cursor lim s) fl'.
Proof.
  revert cursor s fl. induction zs as [|[es ee] zs IH];
    intros cursor s fl Hi Hs Hz Hc Hl Hb He Hlow Hfr; unfold fill_around; cbn [walk_zones].
  - destruct Hlow as [Hlow|?%not_elem_of_nil]; [|done]. destruct (Z.ltb_spec cursor lim).
    + destruct (add_aligned_blocks_inv s fl cursor lim Hi) as [fl' []]; [by constructor|].
      exists fl'. constructor; [done|done| |].
      * intros x. rewrite f_free0, Forall_nil. tauto.
      * eapply only_mono; [|done]. cbv beta. intros x Hx. by rewrite Forall_nil.
    + exists fl. constructor; [done|done|intros; intuition lia|apply only_refl].
  - fold (fill_around zs). destruct Hs as [Hs1 Hs]. apply Forall_cons in Hz as [(Hle & Hes & Hee) Hz]. cbn [fst snd] in *.
    destruct (Z.eqb_spec es ee) as [<-|Hne].
    + destruct (IH cursor s fl) as [fl' []]; try done.
      { destruct Hlow as [|[[= ? ?]|]%elem_of_cons]; [by left|left; lia|by right]. }
      exists fl'. unfold fill_around in *. constructor; [done|done| |]; intros x; cbn.
      * rewrite fa_free0, Forall_cons. unfold in_zone at 2. cbn. intuition lia.
      * intros Hn. apply fa_only0. rewrite Forall_cons in Hn. unfold in_zone at 1 in Hn. cbn in Hn. intuition lia.
    + set (s1 := if (cursor <? es) && (cursor <? lim) then _ else _).
      destruct (segment_inv s fl es ee zs cursor lim Hi Hs1) as [fl1 H1]; [done..|]. fold s1 in H1.
      pose proof (f_same _ _ _ _ _ _ H1) as [Hsb Hse _ Hsp _].
      destruct (IH (Z.max cursor ee) s1 fl1) as [fl' Hfl']; try done.
      * apply H1.
      * by destruct (Z.max_spec cursor ee) as [[_ ->]|[_ ->]].
      * rewrite Hsb. lia.
      * by rewrite Hse.
      * unfold low in *. rewrite Hsb, Hsp. destruct Hlow as [|[[= ? ?]|]%elem_of_cons]; [left; lia|left; lia|by right].
      * intros x Hx [?|Hx']%(f_free _ _ _ _ _ _ H1); [by apply (Hfr x); [lia|]|].
        destruct (Z.ltb_spec cursor es), (Z.ltb_spec cursor lim); cbn [andb] in Hx'; lia.
      * exists fl'. by eapply filled_around_compose.
Qed.

(** ** The two initializations *)

(** An initialized allocator on [b, e) whose free set is [P], after a memory
    update inside the bitmap and the free set. *)
Record ready (m : mem) (b e : Z) (P : Z -> Prop) (s : bstate) (fl : lists) : Prop := {
  rd_inv : inv 0 s fl;
  rd_init : initialized (alloc_of s) = true;
  rd_base : base (alloc_of s) = b;
  rd_end : bend (alloc_of s) = e;
  rd_low : low (alloc_of s) <= e;
  rd_free : forall x, is_free fl x <-> low (alloc_of s) <= x < e /\ P x;
  rd_only : only (fun x => in_bitmap (alloc_of s) x \/ is_free fl x) m (mem_of s)
}.

Lemma only_write_bytes m a v n : only (fun x => a <= x < a + n) m (write_bytes m a v n).
Proof.
  intros x Hx. unfold write_bytes. destruct (Z.leb_spec a x), (Z.ltb_spec x (a + n)); try done. lia.
Qed.

Lemma init_with_range_inv m b e :
  range_ok b e -> mem_ok m ->
  exists fl, ready m b e (fun _ => True) (init_with_range (mk_st buddy_new m) b e) fl.
Proof.
  intros Hr Hm. pose proof (set_range_inv _ _ _ Hr Hm) as Hi. pose proof (set_range_low m _ _ Hr) as Hl.
  unfold init_with_range. set (s1 := set_range _ _ _) in *.
  destruct (add_aligned_blocks_inv s1 no_blocks (low (alloc_of s1)) e Hi) as [fl []].
  { destruct Hr. constructor; [|done|lia|done|intros x _; apply no_blocks_free].
    unfold low. rewrite Z.mod_add; [done|lia]. }
  change (b + bitmap_pages (alloc_of s1) * PAGE_SIZE) with (low (alloc_of s1)).
  set (s2 := add_aligned_blocks _ _ _) in *. destruct f_same0 as [Hb He _ Hp _].
  assert (Hlow : low (alloc_of (set_initialized s2)) = low (alloc_of s1)) by (unfold low; cbn; by rewrite Hb, Hp).
  exists fl. constructor; rewrite ?Hlow; [by apply set_initialized_inv|done|done|done|lia| |].
  - intros x. rewrite f_free0. pose proof (no_blocks_free x). tauto.
  - eapply only_trans; eapply only_mono; [|apply only_write_bytes| |exact f_only0]; cbv beta; intros x Hx.
    + left. unfold in_bitmap. rewrite Hlow. cbn. rewrite Hb. exact Hx.
    + right. rewrite f_free0. by right.
Qed.

Lemma init_excluding_inv m b e z1 z2 :
  range_ok b e -> mem_ok m -> zone_ok z1 -> zone_ok z2 ->
  exists fl, ready m b e (fun x => ~ in_zone x z1 /\ ~ in_zone x z2)
    (init_with_range_excluding (mk_st buddy_new m) b e z1 z2) fl.
Proof.
  intros Hr Hm Hz1 Hz2. pose proof (set_range_inv _ _ _ Hr Hm) as Hi. pose proof (set_range_low m _ _ Hr) as Hl.
  unfold init_with_range_excluding. set (s1 := set_range _ _ _) in *.
  change (b + bitmap_pages (alloc_of s1) * PAGE_SIZE) with (low (alloc_of s1)).
  set (zs := [(b, low (alloc_of s1)); z1; z2]). unfold add_region_excluding3.
  fold zs. fold (fill_around (sort_zones zs) b e s1).
  assert (Hlow_al : low (alloc_of s1) mod 4096 = 0)
    by (destruct Hr; unfold low; rewrite Z.mod_add; [done|lia]).
  destruct (fill_around_inv (sort_zones zs) b e s1 no_blocks) as [fl []]; try apply Hr; try done.
  - apply sort_zones_sorted.
  - rewrite sort_zones_perm. subst zs. apply Forall_cons. split; [|by repeat apply Forall_cons_2].
    destruct Hr. unfold zone_ok. cbn [fst snd]. split; [lia|done].
  - right. rewrite sort_zones_perm. apply elem_of_cons. by left.
  - intros x _. apply no_blocks_free.
  - set (s2 := fill_around _ _ _ _) in *. destruct fa_same0 as [Hb He _ Hp _].
    assert (Hlow : low (alloc_of (set_initialized s2)) = low (alloc_of s1)) by (unfold low; cbn; by rewrite Hb, Hp).
    assert (Hfree : forall x, is_free fl x <-> low (alloc_of s1) <= x < e /\ ~ in_zone x z1 /\ ~ in_zone x z2).
    { intros x. rewrite fa_free0, sort_zones_perm. subst zs. rewrite !Forall_cons, Forall_nil.
      unfold in_zone at 1. cbn [fst snd]. pose proof (no_blocks_free x). intuition lia. }
    exists fl. constructor; rewrite ?Hlow; [by apply set_initialized_inv|done|done|done|lia|exact Hfree|].
    eapply only_trans; eapply only_mono; [|apply only_write_bytes| |exact fa_only0]; cbv beta; intros x Hx.
    + left. unfold in_bitmap. rewrite Hlow. cbn. rewrite Hb. exact Hx.
    + right. apply fa_free0. by right.
Qed.
