(* ===== verification/BuddySystem.v ===== *)
(** * The allocator and its clients

    What the users of kernel/src/mm/buddy.rs may rely on: exact
    specifications of [alloc_pages] and [free_pages], of the initialization,
    and of every run that interleaves allocations, frees and writes of the
    clients to the blocks they hold. *)

From S2P Require Import Prelude PhysMem Memory Buddy BuddyInv BuddyInit.

(** ** Runs *)

(** The blocks held by clients. *)
Definition live := list (Z * nat).

Definition held (L : live) (x : Z) : Prop := exists a k, (a, k) ∈ L /\ covers a k x.

Fixpoint live_pages (L : live) : Z :=
  match L with [] => 0 | (_, k) :: L' => 2 ^ Z.of_nat k + live_pages L' end.

(** Two blocks of the list never overlap. *)
Fixpoint live_disjoint (L : live) : Prop :=
  match L with
  | [] => True
  | (a, k) :: L' => Forall (fun q => disj a k q.1 q.2) L' /\ live_disjoint L'
  end.

(** The operations of the allocator. *)
Inductive op_step : bstate * live -> bstate * live -> Prop :=
| op_alloc s L order a s' :
    alloc_pages s order = (Some a, s') -> op_step (s, L) (s', (a, order) :: L)
| op_alloc_fail s L order s' :
    alloc_pages s order = (None, s') -> op_step (s, L) (s', L)
| op_free s L a order L' s' :
    L ≡ₚ (a, order) :: L' -> free_pages s a order = Some s' -> op_step (s, L) (s', L').

(** A client writes a byte of a block it holds. *)
Inductive client_step : bstate * live -> bstate * live -> Prop :=
| client_write s L x v :
    held L x -> is_byte v -> client_step (s, L) (set_mem s (write_bytes (mem_of s) x v 1), L).

Definition sys_step (c c' : bstate * live) : Prop := op_step c c' \/ client_step c c'.

(** [F] is the set of bytes the allocator started with, [n] their pages. *)
Record sys_inv (b0 : buddy) (F : Z -> Prop) (n : Z) (c : bstate * live) (fl : lists) : Prop := {
  si_inv : inv 0 c.1 fl;
  si_same : same_range b0 (alloc_of c.1);
  si_init : initialized b0 = true;
  si_live : Forall (fun p => valid b0 p.1 p.2 /\ fresh fl p.1 p.2) c.2;
  si_disj : live_disjoint c.2;
  si_all : forall x, F x <-> is_free fl x \/ held c.2 x;
  si_pages : n = pages fl + live_pages c.2
}.

Lemma live_pages_perm L L' : L ≡ₚ L' -> live_pages L = live_pages L'.
Proof. induction 1 as [|[]| [] []|]; cbn; lia. Qed.

Lemma held_perm L L' x : L ≡ₚ L' -> held L x <-> held L' x.
Proof. intros HL. unfold held. by setoid_rewrite HL. Qed.

Lemma held_cons a k L x : held ((a, k) :: L) x <-> covers a k x \/ held L x.
Proof.
  unfold held. split.
  - intros (a' & k' & [[= -> ->]|H]%elem_of_cons & Hc); eauto.
  - intros [H|(a' & k' & H & Hc)]; [exists a, k|exists a', k']; rewrite elem_of_cons; auto.
Qed.

Lemma disj_sym a k a' k' : disj a k a' k' -> disj a' k' a k.
Proof. unfold disj. lia. Qed.

Lemma live_disjoint_perm L L' : L ≡ₚ L' -> live_disjoint L -> live_disjoint L'.
Proof.
  induction 1 as [|[a k] L L' HL IH|[a k] [a' k'] L|]; cbn; [done| | |auto].
  - intros [H1 H2]. split; [by rewrite <-HL|auto].
  - intros (H1 & H2 & H3). apply Forall_cons in H1 as [H0 H1].
    split; [constructor; [by apply disj_sym|done]|done].
Qed.

Lemma live_disjoint_elem L p q :
  live_disjoint L -> p ∈ L -> q ∈ L -> p <> q -> disj p.1 p.2 q.1 q.2.
Proof.
  induction L as [|[a k] L IH]; cbn; [set_solver|]. intros [H1 H2] Hp Hq Hne.
  rewrite Forall_forall in H1. apply elem_of_cons in Hp as [->|Hp], Hq as [->|Hq]; [done| | |auto].
  - by apply H1.
  - apply disj_sym. by apply H1.
Qed.

Lemma live_nodup L : live_disjoint L -> NoDup L.
Proof.
  induction L as [|[a k] L IH]; cbn; [constructor|]. intros [H1 H2]. constructor; [|auto].
  rewrite Forall_forall in H1. intros H%H1. pose proof (size_ge k). unfold disj in H. cbn in H. lia.
Qed.

Lemma fresh_held fl a k L :
  Forall (fun p => fresh fl p.1 p.2) L ->
  (forall x, covers a k x -> is_free fl x) -> Forall (fun q => disj a k q.1 q.2) L.
Proof.
  intros HL Hc. rewrite Forall_forall in HL |- *. intros [a' k'] Hp%HL. cbn in *.
  rewrite fresh_not_free in Hp. pose proof (size_ge k). pose proof (size_ge k'). unfold disj.
  destruct (decide (a + size_of k <= a' \/ a' + size_of k' <= a)) as [|Hn]; [done|]. exfalso.
  apply (Hp (Z.max a a')); [unfold covers; lia|]. apply Hc. unfold covers. lia.
Qed.

Lemma same_range_sym b b' : same_range b b' -> same_range b' b.
Proof. intros []. by constructor. Qed.

(** The poison check: a first word equal to the pattern is a panic. *)
Lemma free_pages_poisoned s a k :
  initialized (alloc_of s) = true -> load32 (mem_of s) a = POISON_PATTERN -> free_pages s a k = None.
Proof. intros Hi Hp. unfold free_pages. rewrite Hi, Hp, Z.eqb_refl. cbn. by repeat case_match. Qed.

Section steps.
Context (b0 : buddy) (F : Z -> Prop) (n : Z).

Lemma sys_alloc s L fl order a s' fl' :
  sys_inv b0 F n (s, L) fl -> allocated s fl order a s' fl' ->
  sys_inv b0 F n (s', (a, order) :: L) fl'.
Proof.
  intros [] []. cbn in *. rewrite Forall_forall in si_live0.
  assert (Hsub : forall p, p ∈ L -> fresh fl' p.1 p.2).
  { intros p Hp. destruct (si_live0 p Hp) as [_ Hf]. rewrite fresh_not_free in Hf |- *.
    intros x Hx [Hx' _]%al_free. by eapply Hf. }
  constructor; cbn; [done|by etrans|done| | | |rewrite al_pages in *; lia].
  - constructor; cbn.
    + split; [eapply valid_same; [by apply same_range_sym|done]|].
      apply fresh_not_free. intros x Hx [_ Hn]%al_free. done.
    + apply Forall_forall. intros p Hp. split; [by apply si_live0|by apply Hsub].
  - split; [|done]. eapply fresh_held; [|exact al_was_free].
    apply Forall_forall. intros p Hp. by apply si_live0.
  - intros x. rewrite si_all0, al_free, held_cons. specialize (al_was_free x).
    destruct (decide (a <= x < a + size_of order)); unfold covers in *; tauto.
Qed.

Lemma sys_free s L fl a k L' s' fl' :
  sys_inv b0 F n (s, L) fl -> L ≡ₚ (a, k) :: L' -> freed s fl a k s' fl' ->
  sys_inv b0 F n (s', L') fl'.
Proof.
  intros [] HL []. cbn in *. rewrite HL in si_live0. apply Forall_cons in si_live0 as [[Hv Hf] Hl].
  pose proof (live_disjoint_perm _ _ HL si_disj0) as [Hd1 Hd2]. rewrite Forall_forall in Hl, Hd1.
  constructor; cbn; [done|by etrans|done| |done| |].
  - apply Forall_forall. intros p Hp. destruct (Hl p Hp) as [? Hfp]. split; [done|].
    rewrite fresh_not_free in Hfp |- *. intros x Hx [?|Hc]%fr_free; [by eapply Hfp|].
    apply Hd1 in Hp. unfold disj, covers in *. lia.
  - intros x. rewrite si_all0, fr_free, (held_perm _ _ _ HL), held_cons. tauto.
  - rewrite si_pages0, (live_pages_perm _ _ HL), fr_pages. cbn. lia.
Qed.

Lemma sys_write s L fl x v :
  sys_inv b0 F n (s, L) fl -> held L x -> is_byte v ->
  sys_inv b0 F n (set_mem s (write_bytes (mem_of s) x v 1), L) fl.
Proof.
  intros [] (a & k & Hin & Hx) Hv. cbn in *. constructor; cbn; try done.
  eapply inv_only; [done| |apply only_write_bytes|].
  - intros y. unfold write_bytes. case_match; [done|apply si_inv0].
  - cbv beta. intros y Hy. replace y with x by lia. rewrite Forall_forall in si_live0.
    destruct (si_live0 _ Hin) as [_ Hf]. rewrite fresh_not_free in Hf. by apply Hf.
Qed.

(** The block of an allocation held by a client can be freed unless its first
    word is the poison pattern. *)
Lemma sys_can_free s L fl a k :
  sys_inv b0 F n (s, L) fl -> (a, k) ∈ L ->
  load32 (mem_of s) a <> POISON_PATTERN ->
  exists s' fl', free_pages s a k = Some s' /\ freed s fl a k s' fl'.
Proof.
  intros [] Hin Hp. cbn in *. rewrite Forall_forall in si_live0. destruct (si_live0 _ Hin) as [Hv Hf].
  apply free_pages_inv; [done| |by eapply valid_same|done|done].
  destruct si_same0. congruence.
Qed.

Lemma sys_step_inv c c' fl :
  sys_inv b0 F n c fl -> sys_step c c' -> exists fl', sys_inv b0 F n c' fl'.
Proof.
  intros Hi [Ho|Hc]; [destruct Ho as [s L order a s' Ha|s L order s' Ha|s L a k L' s' HL Hf]|destruct Hc].
  - destruct (alloc_pages_inv s fl order (si_inv _ _ _ _ _ Hi)) as [[_ E]|(a' & s1 & fl' & E & H)];
      rewrite E in Ha; simplify_eq. exists fl'. by eapply sys_alloc.
  - destruct (alloc_pages_inv s fl order (si_inv _ _ _ _ _ Hi)) as [[_ E]|(a' & s1 & fl' & E & H)];
      rewrite E in Ha; simplify_eq. by exists fl.
  - destruct (decide (load32 (mem_of s) a = POISON_PATTERN)) as [Hp|Hp].
    { rewrite free_pages_poisoned in Hf; [done| |done]. destruct Hi as [_ [] Hin _ _ _ _]. cbn in *. congruence. }
    destruct (sys_can_free s L fl a k Hi) as (s1 & fl' & E & H); [rewrite HL; set_solver|done|].
    rewrite E in Hf. simplify_eq. exists fl'. by eapply sys_free.
  - exists fl. by apply sys_write.
Qed.

Lemma sys_rtc_inv c c' :
  rtc sys_step c c' -> (exists fl, sys_inv b0 F n c fl) -> exists fl', sys_inv b0 F n c' fl'.
Proof.
  intros Hr. eapply (rtc_preserves sys_step (fun c => exists fl, sys_inv b0 F n c fl)); [|done].
  intros c1 c2 Hs [fl Hi]. by eapply sys_step_inv.
Qed.
End steps.

Lemma sys_start m b e P s fl :
  ready m b e P s fl ->
  sys_inv (alloc_of s) (fun x => low (alloc_of s) <= x < e /\ P x) (total_free (alloc_of s)) (s, []) fl.
Proof.
  intros []. constructor; cbn; try done.
  - intros x. rewrite rd_free. split; [by left|]. intros [|(? & ? & ?%not_elem_of_nil & _)]; done.
  - rewrite (i_total _ _ _ rd_inv). lia.
Qed.

(** ** Properties *)

(** C5: [alloc_pages] returns a block exactly when some list of the requested or
    a larger order is not empty; then the block was free, is page aligned and
    inside the range, the free set loses exactly its bytes, [total_free]
    drops by its pages and only the bitmap and free memory are written.
    Otherwise nothing changes. *)
Theorem alloc_pages_exact s fl order :
  inv 0 s fl ->
  match alloc_pages s order with
  | (Some a, s') => exists fl', allocated s fl order a s' fl'
  | (None, s') => s' = s /\ forall k, (order <= k <= MAX_ORDER)%nat -> fl k = []
  end.
Proof.
  intros Hi. destruct (alloc_pages_inv s fl order Hi) as [[H ->]|(a & s' & fl' & -> & H)]; eauto.
Qed.

(** C8: [free_pages] of a block that is inside the range and disjoint from the
    free set succeeds unless its first word is the poison pattern: the free
    set gains exactly the block, whatever was coalesced, [total_free] grows
    by its pages, the old content is overwritten with the pattern and only
    the bitmap, free memory and the block are written. *)
Theorem free_pages_exact s fl a k :
  inv 0 s fl -> initialized (alloc_of s) = true -> valid (alloc_of s) a k ->
  (forall x, covers a k x -> ~ is_free fl x) ->
  if decide (load32 (mem_of s) a = POISON_PATTERN) then free_pages s a k = None
  else exists s' fl', free_pages s a k = Some s' /\ freed s fl a k s' fl'.
Proof.
  intros Hi Hin Hv Hf. apply fresh_not_free in Hf. case_decide.
  - by apply free_pages_poisoned.
  - by apply free_pages_inv.
Qed.

(** [init_with_range_excluding] puts exactly the pages of the range outside
    the bitmap and the two exclusion zones on the free lists, and writes only
    the bitmap and those pages. *)
Theorem init_excluding_exact m b e z1 z2 :
  range_ok b e -> mem_ok m -> zone_ok z1 -> zone_ok z2 ->
  exists fl, ready m b e (fun x => ~ in_zone x z1 /\ ~ in_zone x z2)
    (init_with_range_excluding (mk_st buddy_new m) b e z1 z2) fl.
Proof. apply init_excluding_inv. Qed.

(** C4: in every run of allocations, frees and client writes after the
    initialization, the blocks held by clients are pairwise disjoint, page
    aligned, naturally aligned if the range starts on a 4 MiB boundary, and
    avoid the bitmap and the exclusion zones; held and free pages add up to
    the initial total; and freeing a held block panics only on a first word
    equal to the poison pattern. *)
Theorem allocator_runs_safe m b e z1 z2 s L :
  let s0 := init_with_range_excluding (mk_st buddy_new m) b e z1 z2 in
  range_ok b e -> mem_ok m -> zone_ok z1 -> zone_ok z2 ->
  rtc sys_step (s0, []) (s, L) ->
  live_disjoint L /\
  (forall a k, (a, k) ∈ L ->
     (k <= MAX_ORDER)%nat /\ a mod 4096 = 0 /\ (b mod 2 ^ 22 = 0 -> a mod size_of k = 0) /\
     (forall x, covers a k x -> low (alloc_of s0) <= x < e /\ ~ in_zone x z1 /\ ~ in_zone x z2) /\
     (free_pages s a k = None <-> load32 (mem_of s) a = POISON_PATTERN)) /\
  total_free (alloc_of s) + live_pages L = total_free (alloc_of s0).
Proof.
  intros s0 Hr Hm Hz1 Hz2 Hrtc. destruct (init_excluding_inv m b e z1 z2 Hr Hm Hz1 Hz2) as [fl0 H0].
  fold s0 in H0. clearbody s0. pose proof (rd_base _ _ _ _ _ _ H0) as Hb.
  destruct (sys_rtc_inv _ _ _ _ _ Hrtc (ex_intro _ _ (sys_start _ _ _ _ _ _ H0))) as [fl Hi].
  pose proof Hi as []. cbn [fst snd] in *. split_and!; [done| |by rewrite (i_total _ _ _ si_inv0); lia].
  intros a k Hin. pose proof Hin as Hin'. rewrite Forall_forall in si_live0. apply si_live0 in Hin as [[] Hf]. cbn [fst snd] in *.
  split; [done|]. split; [done|]. split; [by rewrite <-Hb|]. split.
  - intros x Hx. apply si_all0. right. by exists a, k.
  - split.
    + intros E. destruct (decide (load32 (mem_of s) a = POISON_PATTERN)) as [|Hp]; [done|].
      destruct (sys_can_free _ _ _ _ _ _ _ _ Hi Hin' Hp) as (? & ? & E' & _). congruence.
    + apply free_pages_poisoned. by rewrite (sr_init _ _ si_same0).
Qed.

(** an allocation or a free leaves every byte of every block that stays
    held by a client unchanged. *)
Theorem allocator_isolates m b e z1 z2 s L s' L' a k x :
  let s0 := init_with_range_excluding (mk_st buddy_new m) b e z1 z2 in
  range_ok b e -> mem_ok m -> zone_ok z1 -> zone_ok z2 ->
  rtc sys_step (s0, []) (s, L) -> op_step (s, L) (s', L') ->
  (a, k) ∈ L -> (a, k) ∈ L' -> covers a k x -> mem_of s' x = mem_of s x.
Proof.
  intros s0 Hr Hm Hz1 Hz2 Hrtc. destruct (init_excluding_inv m b e z1 z2 Hr Hm Hz1 Hz2) as [fl0 H0].
  fold s0 in H0. clearbody s0. destruct (sys_rtc_inv _ _ _ _ _ Hrtc (ex_intro _ _ (sys_start _ _ _ _ _ _ H0))) as [fl Hi].
  intros Ho Hin Hin' Hx. pose proof Hi as []. cbn [fst snd] in *. rewrite Forall_forall in si_live0.
  destruct (si_live0 _ Hin) as [Hv Hf]. apply (valid_same _ _ _ _ si_same0) in Hv. cbn [fst snd] in *.
  assert (Hnb : ~ in_bitmap (alloc_of s) x) by (destruct Hv; unfold in_bitmap, covers in *; lia).
  rewrite fresh_not_free in Hf. specialize (Hf x Hx).
  inversion Ho as [? ? order a' ? Ha|? ? order ? Ha|? ? a' k' ? ? HL Hfree]; subst.
  - destruct (alloc_pages_inv s fl order si_inv0) as [[_ E]|(? & ? & fl' & E & [])]; rewrite E in Ha; simplify_eq.
    apply al_only. by intros [].
  - destruct (alloc_pages_inv s fl order si_inv0) as [[_ E]|(? & ? & fl' & E & [])]; rewrite E in Ha; by simplify_eq.
  - assert (Hk : (a', k') ∈ L) by (rewrite HL; set_solver).
    destruct (decide (load32 (mem_of s) a' = POISON_PATTERN)) as [Hp|Hp].
    { rewrite free_pages_poisoned in Hfree; [done|by rewrite (sr_init _ _ si_same0)|done]. }
    destruct (sys_can_free _ _ _ _ _ _ _ _ Hi Hk Hp) as (s1 & fl' & E & []). rewrite E in Hfree. simplify_eq.
    apply fr_only. intros [|[|Hc]]; [done|done|].
    pose proof (live_disjoint_perm _ _ HL si_disj0) as [Hd _]. rewrite Forall_forall in Hd.
    apply Hd in Hin'. unfold disj, covers in *. cbn in Hin'. lia.
Qed.

(** The next pointer of a free block is zero or a free block. *)
Lemma chain_next m h l a : chain m h l -> a ∈ l -> load64 m a = 0 \/ load64 m a ∈ l.
Proof.
  revert h. induction l as [|y l IH]; intros h; cbn; [set_solver|]. intros [-> Hc] [->|Ha]%elem_of_cons.
  - destruct l; cbn in Hc; [by left|]. destruct Hc as [-> _]. set_solver.
  - destruct (IH _ Hc Ha); set_solver.
Qed.

(** the double-free check cannot fire for a block that is on a free list:
    the list pointer that [push_block] stored replaced the poison pattern in
    the first word, so the second free of the block passes the assertion. *)
Theorem double_free_not_detected d s fl a k :
  inv d s fl -> a ∈ fl k -> load32 (mem_of s) a <> POISON_PATTERN.
Proof.
  intros Hi Ha. pose proof (i_valid _ _ _ Hi _ _ Ha) as Hv.
  pose proof (i_chain _ _ _ Hi k (v_order _ _ _ Hv)) as Hc.
  rewrite load32_load64 by apply Hi.
  assert (load64 (mem_of s) a mod 4096 = 0) as Hal.
  { destruct (chain_next _ _ _ _ Hc Ha) as [->|Hin]; [done|]. by apply (i_valid _ _ _ Hi) in Hin as []. }
  intros E. assert (POISON_PATTERN mod 4096 = 0); [|done].
  rewrite <-E. change (2 ^ 32) with (4096 * 1048576). divlia.
Qed.

(** ** Witnesses: a 16-page range with a two-page exclusion zone *)

Definition demo_mem : mem := fun _ => 0.
Definition demo_base : Z := 0x40000000.
Definition demo_end : Z := 0x40010000.
Definition demo_zone : Z * Z := (0x40004000, 0x40006000).
Definition demo : bstate :=
  init_with_range_excluding (mk_st buddy_new demo_mem) demo_base demo_end demo_zone (0, 0).
Definition demo_block : Z := 0x40006000.
Definition demo_allocated : bstate := (alloc_pages demo 1).2.

Lemma demo_range : range_ok demo_base demo_end.
Proof. by constructor. Qed.
Lemma demo_mem_ok : mem_ok demo_mem.
Proof. done. Qed.
Lemma demo_zone_ok : zone_ok demo_zone.
Proof. done. Qed.
Lemma demo_zone0_ok : zone_ok (0, 0).
Proof. done. Qed.
Lemma demo_alloc : alloc_pages demo 1 = (Some demo_block, demo_allocated).
Proof.
  unfold demo_allocated. apply (pair_fst_eq (alloc_pages demo 1)). vm_compute. reflexivity.
Qed.
Definition demo_allocated_twice : bstate := (alloc_pages demo_allocated 0).2.
Lemma demo_alloc_twice : alloc_pages demo_allocated 0 = (Some 0x40001000, demo_allocated_twice).
Proof.
  unfold demo_allocated_twice. apply (pair_fst_eq (alloc_pages demo_allocated 0)). vm_compute. reflexivity.
Qed.
Lemma demo_first_word : load32 (mem_of demo_allocated) demo_block = 0x40002000.
Proof. vm_compute. reflexivity. Qed.
Lemma demo_runs : rtc sys_step (demo, []) (demo_allocated, [(demo_block, 1%nat)]).
Proof. apply rtc_once. left. apply op_alloc, demo_alloc. Qed.
Lemma demo_sys :
  exists s b0 F n fl, s = demo_allocated /\ sys_inv b0 F n (s, [(demo_block, 1%nat)]) fl.
Proof.
  destruct (init_excluding_inv _ _ _ _ _ demo_range demo_mem_ok demo_zone_ok demo_zone0_ok) as [fl H].
  destruct (sys_rtc_inv _ _ _ _ _ demo_runs (ex_intro _ fl (sys_start _ _ _ _ _ _ H))) as [fl' Hi].
  eexists _, _, _, _, fl'. split; [reflexivity|exact Hi].
Qed.

Lemma chain_head m h l : chain m h l -> h <> 0 -> h ∈ l.
Proof. destruct l; cbn; [done|]. intros [-> _] _. set_solver. Qed.
Lemma demo_heads : free_heads (alloc_of demo) !!! 1%nat = demo_block.
Proof. vm_compute. reflexivity. Qed.
Lemma demo_head : exists s fl, s = demo /\ inv 0 s fl /\ demo_block ∈ fl 1%nat.
Proof.
  destruct (init_excluding_inv _ _ _ _ _ demo_range demo_mem_ok demo_zone_ok demo_zone0_ok) as [fl H].
  exists demo, fl. split; [reflexivity|]. split; [apply (rd_inv _ _ _ _ _ _ H)|].
  rewrite <-demo_heads. eapply chain_head; [|rewrite demo_heads; discriminate].
  apply (i_chain _ _ _ (rd_inv _ _ _ _ _ _ H)). unfold MAX_ORDER. lia.
Qed.

Lemma alloc_pages_exact_witness :
  exists fl s' fl', inv 0 demo fl /\ allocated demo fl 1 demo_block s' fl'.
Proof.
  destruct (init_excluding_inv _ _ _ _ _ demo_range demo_mem_ok demo_zone_ok demo_zone0_ok) as [fl H].
  pose proof (alloc_pages_exact demo fl 1 (rd_inv _ _ _ _ _ _ H)) as Ha.
  rewrite demo_alloc in Ha. destruct Ha as [fl' Ha]. exists fl, demo_allocated, fl'.
  split; [apply H|exact Ha].
Defined.

Lemma free_pages_exact_witness :
  exists s fl s' fl', s = demo_allocated /\ free_pages s demo_block 1 = Some s' /\
    freed s fl demo_block 1 s' fl'.
Proof.
  destruct demo_sys as (s & b0 & F & n & fl & Es & [Hi Hs Hin Hl _ _ _]). cbn [fst snd] in *.
  apply Forall_cons in Hl as [[Hv Hf] _]. exists s, fl.
  pose proof (free_pages_exact s fl demo_block 1 Hi) as H.
  rewrite decide_False in H by (rewrite Es, demo_first_word; discriminate).
  destruct H as (s' & fl' & H1 & H2); [|exact (valid_same _ _ _ _ Hs Hv)|exact (proj1 (fresh_not_free _ _ _) Hf)|].
  - rewrite (sr_init _ _ Hs). exact Hin.
  - exists s', fl'. split; [exact Es|split; [exact H1|exact H2]].
Defined.

Lemma init_excluding_exact_witness :
  exists fl, ready demo_mem demo_base demo_end
    (fun x => ~ in_zone x demo_zone /\ ~ in_zone x (0, 0)) demo fl.
Proof.
  apply (init_excluding_exact demo_mem demo_base demo_end demo_zone (0, 0));
    [apply demo_range|apply demo_mem_ok|apply demo_zone_ok|apply demo_zone0_ok].
Defined.

Lemma allocator_runs_safe_witness :
  live_disjoint [(demo_block, 1%nat)] /\
  total_free (alloc_of demo_allocated) + live_pages [(demo_block, 1%nat)] = total_free (alloc_of demo).
Proof.
  destruct (allocator_runs_safe demo_mem demo_base demo_end demo_zone (0, 0) _ _ demo_range demo_mem_ok
    demo_zone_ok demo_zone0_ok demo_runs) as (H1 & _ & H2). split; [exact H1|exact H2].
Defined.

Lemma allocator_isolates_witness :
  mem_of demo_allocated_twice demo_block = mem_of demo_allocated demo_block.
Proof.
  apply (allocator_isolates demo_mem demo_base demo_end demo_zone (0, 0) demo_allocated
    [(demo_block, 1%nat)] demo_allocated_twice [(0x40001000, 0%nat); (demo_block, 1%nat)] demo_block 1 demo_block
    demo_range demo_mem_ok demo_zone_ok demo_zone0_ok demo_runs (op_alloc _ _ _ _ _ demo_alloc_twice)).
  - set_solver.
  - set_solver.
  - unfold covers. pose proof (size_ge 1). lia.
Defined.

Lemma double_free_not_detected_witness :
  exists s fl, s = demo /\ inv 0 s fl /\ demo_block ∈ fl 1%nat /\
    load32 (mem_of s) demo_block <> POISON_PATTERN.
Proof.
  destruct demo_head as (s & fl & Es & Hi & Hin). exists s, fl. split; [exact Es|]. split; [exact Hi|].
  split; [exact Hin|]. exact (double_free_not_detected 0 s fl demo_block 1 Hi Hin).
Defined.
