(* ===== verification/Pools.v ===== *)
(** * Page pools and the frame allocator (kernel/src/mm/pools.rs, frame.rs)

    Physical memory split into four buddy allocators over one memory.  The
    frame allocator allocates from a named pool and finds the pool of a freed
    block from its address; a debug assertion that fails is [None]. *)

From S2P Require Import Prelude PhysMem Memory Buddy BuddyInv BuddyInit BuddySystem.

Record PagePools := mk_pools {
  p_kernel : buddy;
  p_user : buddy;
  p_model : option buddy;
  p_dma : buddy
}.

(** [BuddyAllocator::new] and, for a range that is not empty,
    [init_with_range_excluding]. *)
Definition init_pool (m : mem) (b e : Z) (excl1 excl2 : Z * Z) : bstate :=
  let s := mk_st buddy_new m in
  if b <? e then init_with_range_excluding s b e excl1 excl2 else s.

Definition pools_init (m : mem) (phys_start phys_end : Z) (config : PoolConfig)
    (excl1 excl2 : Z * Z) : PagePools * mem :=
  let total_bytes := phys_end - phys_start in
  let dma_size := Z.min (cfg_dma config) total_bytes in
  let kernel_size := Z.min (cfg_kernel config) (total_bytes - dma_size) in
  let model_size := Z.min (cfg_model config) (total_bytes - dma_size - kernel_size) in
  let reserved_size := Z.min (cfg_reserved config) (total_bytes - dma_size - kernel_size - model_size) in
  let dma_base := phys_start in
  let dma_end := dma_base + dma_size in
  let kernel_base := dma_end in
  let kernel_end := kernel_base + kernel_size in
  let model_base := kernel_end in
  let model_end := model_base + model_size in
  let reserved_end := model_end + reserved_size in
  let user_base := reserved_end in
  let user_end := phys_end in
  let dma := init_pool m dma_base dma_end excl1 excl2 in
  let kernel := init_pool (mem_of dma) kernel_base kernel_end excl1 excl2 in
  let model := init_pool (mem_of kernel) model_base model_end excl1 excl2 in
  let user := init_pool (mem_of model) user_base user_end excl1 excl2 in
  (mk_pools (alloc_of kernel) (alloc_of user)
     (if model_base <? model_end then Some (alloc_of model) else None) (alloc_of dma),
   mem_of user).

Definition pool_get (p : PagePools) (pool : Pool) : option buddy :=
  match pool with
  | PoolKernel => Some (p_kernel p)
  | PoolUser => Some (p_user p)
  | PoolModel => p_model p
  | PoolDma => Some (p_dma p)
  end.

(** Writing back through [get_mut]. *)
Definition pool_set (p : PagePools) (pool : Pool) (b : buddy) : PagePools :=
  match pool with
  | PoolKernel => mk_pools b (p_user p) (p_model p) (p_dma p)
  | PoolUser => mk_pools (p_kernel p) b (p_model p) (p_dma p)
  | PoolModel => mk_pools (p_kernel p) (p_user p) (Some b) (p_dma p)
  | PoolDma => mk_pools (p_kernel p) (p_user p) (p_model p) b
  end.

Definition owns (b : buddy) (addr : Z) : bool :=
  initialized b && (base b <=? addr) && (addr <? bend b).

Definition pool_for_addr (p : PagePools) (addr : Z) : option Pool :=
  if owns (p_kernel p) addr then Some PoolKernel
  else if owns (p_user p) addr then Some PoolUser
  else match p_model p with
       | Some m =>
           if owns m addr then Some PoolModel
           else if owns (p_dma p) addr then Some PoolDma else None
       | None => if owns (p_dma p) addr then Some PoolDma else None
       end.

Definition total_free_pages (p : PagePools) : Z :=
  total_free (p_kernel p) + total_free (p_user p) +
  from_option total_free 0 (p_model p) + total_free (p_dma p).

(** ** Frame allocator *)

Record frames := mk_frames { f_pools : PagePools; f_total : Z; f_mem : mem }.

Definition frame_alloc_pages (f : frames) (pool : Pool) (order : nat) : option Z * frames :=
  match pool_get (f_pools f) pool with
  | None => (None, f)
  | Some b =>
      let '(r, s) := alloc_pages (mk_st b (f_mem f)) order in
      (r, mk_frames (pool_set (f_pools f) pool (alloc_of s)) (f_total f) (mem_of s))
  end.
Definition frame_alloc_page (f : frames) (pool : Pool) : option Z * frames := frame_alloc_pages f pool 0.

Definition frame_free_pages (f : frames) (phys_addr : Z) (order : nat) : option frames :=
  match pool_for_addr (f_pools f) phys_addr with
  | None => None
  | Some pool =>
      match pool_get (f_pools f) pool with
      | None => Some f
      | Some b =>
          s ← free_pages (mk_st b (f_mem f)) phys_addr order;
          Some (mk_frames (pool_set (f_pools f) pool (alloc_of s)) (f_total f) (mem_of s))
      end
  end.

Definition pool_total_pages (f : frames) (pool : Pool) : Z :=
  match pool_get (f_pools f) pool with
  | Some b => if initialized b then (bend b - base b) / PAGE_SIZE else 0
  | None => 0
  end.
Definition pool_free_pages (f : frames) (pool : Pool) : Z :=
  from_option total_free 0 (pool_get (f_pools f) pool).

(** [FrameAllocator::pressure]: of the user pool. *)
Definition frame_pressure (f : frames) : MemoryPressure :=
  from_free_ratio (total_free (p_user (f_pools f))) (pool_total_pages f PoolUser).

Definition all_pools : list Pool := [PoolKernel; PoolUser; PoolModel; PoolDma].

(** [KernelFrameAllocator::current_level]: the worst pressure of the pools that
    are not empty. *)
Fixpoint worst_level (f : frames) (pools : list Pool) (worst : option MemoryPressure) : option MemoryPressure :=
  match pools with
  | [] => worst
  | q :: qs =>
      let total := pool_total_pages f q in
      if total =? 0 then worst_level f qs worst
      else
        let pressure := from_free_ratio (pool_free_pages f q) total in
        worst_level f qs (Some (match worst with
          | Some current => if pressure_rank current >=? pressure_rank pressure then current else pressure
          | None => pressure
          end))
  end.
Definition current_level (f : frames) : MemoryPressure := default POom (worst_level f all_pools None).

(** ** One pool in the shared memory *)

Lemma low_le_end b : cfg b -> low b <= bend b.
Proof.
  intros []. unfold low. rewrite c_pages. pose proof (bitmap_fits ((bend b - base b) / 4096)). divlia.
Qed.

Lemma free_in_range d s fl x :
  inv d s fl -> is_free fl x -> base (alloc_of s) <= x < bend (alloc_of s).
Proof.
  intros Hi (k & a & Ha & Hx). pose proof (i_valid _ _ _ Hi _ _ Ha) as Hv.
  destruct (valid_bounds _ _ _ (i_cfg _ _ _ Hi) Hv) as (_ & _ & ?). destruct Hv. unfold covers in Hx. lia.
Qed.

Definition in_range (b : buddy) (x : Z) : Prop := base b <= x < bend b.

Lemma bitmap_or_range d s fl (P : Z -> Prop) x :
  inv d s fl -> (forall y, P y -> in_range (alloc_of s) y) -> bitmap_or (alloc_of s) P x -> in_range (alloc_of s) x.
Proof.
  intros Hi HP [[]|Hx]; [|auto]. pose proof (low_le_end _ (i_cfg _ _ _ Hi)). unfold in_range. lia.
Qed.

Section one_pool.
Context (b0 : buddy) (F : Z -> Prop) (n : Z).

Lemma held_in_range s L fl x : sys_inv b0 F n (s, L) fl -> held L x -> in_range b0 x.
Proof.
  intros [] (a & k & Hin & Hx). rewrite Forall_forall in si_live. apply si_live in Hin as [Hv _].
  pose proof (cfg_same _ _ (same_range_sym _ _ si_same) (i_cfg _ _ _ si_inv)) as Hc.
  destruct (valid_bounds _ _ _ Hc Hv) as (_ & _ & ?). destruct Hv. unfold covers, in_range in *. cbn in *. lia.
Qed.

Lemma held_block_range s L fl a k :
  sys_inv b0 F n (s, L) fl -> (a, k) ∈ L -> base b0 <= a /\ a + size_of k <= bend b0.
Proof.
  intros Hs Hin. pose proof (size_ge k).
  assert (in_range b0 a) by (eapply held_in_range; [done|]; exists a, k; split; [done|]; unfold covers; lia).
  assert (in_range b0 (a + size_of k - 1))
    by (eapply held_in_range; [done|]; exists a, k; split; [done|]; unfold covers; lia).
  unfold in_range in *. lia.
Qed.

(** Memory outside the range of a pool does not matter to it. *)
Lemma sys_inv_frame b m m' L fl :
  sys_inv b0 F n (mk_st b m, L) fl -> mem_ok m' -> only (fun x => ~ in_range b0 x) m m' ->
  sys_inv b0 F n (mk_st b m', L) fl.
Proof.
  intros [] Hm Ho. cbn in *. constructor; cbn; try done.
  apply (inv_only 0 (mk_st b m) fl m' _ si_inv Hm Ho). intros x Hx Hf. apply Hx.
  pose proof (free_in_range _ _ _ _ si_inv Hf). destruct si_same as [Hb He _ _ _]. cbn in *.
  unfold in_range. by rewrite <-Hb, <-He.
Qed.

(** A step of a pool writes only to its range. *)
Lemma sys_step_range s L s' L' fl :
  sys_inv b0 F n (s, L) fl -> sys_step (s, L) (s', L') -> only (in_range b0) (mem_of s) (mem_of s').
Proof.
  intros Hi. pose proof Hi as [Hinv Hsame _ _ _ _ _]. cbn [fst snd] in *.
  assert (Hr : forall x, in_range (alloc_of s) x -> in_range b0 x)
    by (destruct Hsame as [Hb He _ _ _]; unfold in_range; intros x; by rewrite Hb, He).
  assert (Hfree : forall x, is_free fl x -> in_range (alloc_of s) x) by (intros x; by eapply free_in_range).
  intros [Ho|Hc].
  - inversion Ho as [? ? order a ? Ha|? ? order ? Ha|? ? a k ? ? HL Hfr]; subst.
    + destruct (alloc_pages_inv s fl order Hinv) as [[_ E]|(? & ? & ? & E & [])]; rewrite E in Ha; simplify_eq.
      eapply only_mono; [|exact al_only]. intros x Hx. by eapply Hr, bitmap_or_range.
    + destruct (alloc_pages_inv s fl order Hinv) as [[_ E]|(? & ? & ? & E & [])]; rewrite E in Ha; simplify_eq.
      apply only_refl.
    + destruct (decide (load32 (mem_of s) a = POISON_PATTERN)) as [Hp|Hp].
      { rewrite free_pages_poisoned in Hfr; [done|rewrite (sr_init _ _ Hsame); apply Hi|done]. }
      assert (Hk : (a, k) ∈ L) by (rewrite HL; set_solver).
      destruct (sys_can_free _ _ _ _ _ _ _ _ Hi Hk Hp) as (s1 & fl' & E & []). rewrite E in Hfr. simplify_eq.
      eapply only_mono; [|exact fr_only]. intros x Hx. eapply Hr, bitmap_or_range; [done| |exact Hx].
      intros y [Hy|Hy]; [auto|]. destruct Hsame as [Hb He _ _ _]. unfold in_range. rewrite Hb, He.
      apply (held_in_range s L fl); [done|]. by exists a, k.
  - inversion Hc as [? ? x v Hx Hv]; subst. eapply only_mono; [|apply only_write_bytes]. cbv beta.
    intros y Hy. replace y with x by lia. by eapply held_in_range.
Qed.
End one_pool.

(** ** Runs of the frame allocator *)

Definition lives := Pool -> live.
Definition lives_upd (Ls : lives) (q : Pool) (L : live) : lives :=
  fun q' => if decide (q' = q) then L else Ls q'.

Inductive frame_step : frames * lives -> frames * lives -> Prop :=
| fs_alloc f Ls q order a f' :
    frame_alloc_pages f q order = (Some a, f') ->
    frame_step (f, Ls) (f', lives_upd Ls q ((a, order) :: Ls q))
| fs_alloc_fail f Ls q order f' :
    frame_alloc_pages f q order = (None, f') -> frame_step (f, Ls) (f', Ls)
| fs_free f Ls q a order L' f' :
    Ls q ≡ₚ (a, order) :: L' -> frame_free_pages f a order = Some f' ->
    frame_step (f, Ls) (f', lives_upd Ls q L')
| fs_write f Ls q x v :
    held (Ls q) x -> is_byte v ->
    frame_step (f, Ls) (mk_frames (f_pools f) (f_total f) (write_bytes (f_mem f) x v 1), Ls).

Definition pools_disjoint (p : PagePools) : Prop := forall q q' b b',
  q <> q' -> pool_get p q = Some b -> pool_get p q' = Some b' ->
  initialized b = true -> initialized b' = true -> bend b <= base b' \/ bend b' <= base b.

Lemma pool_get_set p q b q' :
  is_Some (pool_get p q) -> pool_get (pool_set p q b) q' = if decide (q' = q) then Some b else pool_get p q'.
Proof. intros [b' H]. destruct q, q'; cbn in *; try done; by case_decide. Qed.

Lemma owns_true b addr : owns b addr = true <-> initialized b = true /\ in_range b addr.
Proof. unfold owns, in_range. rewrite !andb_true_iff, Z.leb_le, Z.ltb_lt. tauto. Qed.

(** [pool_for_addr] finds the one pool whose range holds the address. *)
Lemma pool_for_addr_owner p q b addr :
  pools_disjoint p -> pool_get p q = Some b -> owns b addr = true -> pool_for_addr p addr = Some q.
Proof.
  intros Hd Hq Ho. apply owns_true in Ho as [Hi Hr].
  assert (Hother : forall q' b', q' <> q -> pool_get p q' = Some b' -> owns b' addr = false).
  { intros q' b' Hne Hq'. destruct (owns b' addr) eqn:E; [|done]. apply owns_true in E as [Hi' Hr'].
    destruct (Hd _ _ _ _ Hne Hq' Hq Hi' Hi); unfold in_range in *; lia. }
  assert (Hself : owns b addr = true) by by apply owns_true.
  unfold pool_for_addr.
  destruct q; cbn in Hq; simplify_eq;
    repeat first [rewrite Hself | rewrite (Hother PoolKernel) by done | rewrite (Hother PoolUser) by done
                 | rewrite Hq, Hself | destruct (p_model p) eqn:Em; [rewrite (Hother PoolModel) by done|]
                 | rewrite (Hother PoolDma) by done]; done.
Qed.

Lemma pool_set_get p q b : pool_get p q = Some b -> pool_set p q b = p.
Proof. destruct p, q; cbn; intros; by simplify_eq. Qed.

Lemma frames_eta f q b : pool_get (f_pools f) q = Some b ->
  mk_frames (pool_set (f_pools f) q b) (f_total f) (f_mem f) = f.
Proof. intros H. rewrite pool_set_get by done. by destruct f. Qed.

Lemma pop_new m k : (k <= MAX_ORDER)%nat -> pop_block (mk_st buddy_new m) k = (None, mk_st buddy_new m).
Proof. intros. unfold pop_block. cbn [alloc_of buddy_new free_heads]. by rewrite lookup_total_replicate_2 by lia. Qed.

(** A pool without memory never allocates. *)
Lemma alloc_new m order : alloc_pages (mk_st buddy_new m) order = (None, mk_st buddy_new m).
Proof.
  unfold alloc_pages. destruct (Nat.ltb_spec MAX_ORDER order); [done|]. rewrite pop_new by done.
  assert (H' : forall n h, (h + n = S MAX_ORDER)%nat ->
    alloc_higher n h order (mk_st buddy_new m) = (None, mk_st buddy_new m)); [|apply H'; lia].
  induction n as [|n IH]; intros h Hh; cbn [alloc_higher]; [done|]. rewrite pop_new by lia. apply IH. lia.
Qed.

Section pools.
Context (p0 : PagePools) (Fs : Pool -> Z -> Prop).
Context (Hdisj : pools_disjoint p0).

(** Each pool of [p0] is in a run of its own on the shared memory. *)
Definition pool_inv (q : Pool) (f : frames) (L : live) : Prop :=
  match pool_get p0 q with
  | None => pool_get (f_pools f) q = None /\ L = []
  | Some b0 => exists b, pool_get (f_pools f) q = Some b /\
      if initialized b0 then exists fl, sys_inv b0 (Fs q) (total_free b0) (mk_st b (f_mem f), L) fl
      else (b = buddy_new /\ b0 = buddy_new) /\ L = []
  end.

Definition frames_inv (c : frames * lives) : Prop :=
  mem_ok (f_mem c.1) /\ forall q, pool_inv q c.1 (c.2 q).

Lemma frames_one_step f Ls q b0 b fl s' L' :
  frames_inv (f, Ls) -> pool_get p0 q = Some b0 -> initialized b0 = true ->
  pool_get (f_pools f) q = Some b ->
  sys_inv b0 (Fs q) (total_free b0) (mk_st b (f_mem f), Ls q) fl ->
  sys_step (mk_st b (f_mem f), Ls q) (s', L') ->
  frames_inv (mk_frames (pool_set (f_pools f) q (alloc_of s')) (f_total f) (mem_of s'), lives_upd Ls q L').
Proof.
  intros [Hm Hp] Hq0 Hi0 Hq Hs Hstep.
  destruct (sys_step_inv _ _ _ _ _ _ Hs Hstep) as [fl' Hs']. pose proof (sys_step_range _ _ _ _ _ _ _ _ Hs Hstep) as Ho.
  cbn [mem_of] in Ho. assert (Hm' : mem_ok (mem_of s')) by apply Hs'.
  split; [done|]. intros q'. specialize (Hp q'). unfold pool_inv, lives_upd in *. cbn [fst snd f_pools f_mem] in *.
  rewrite pool_get_set by by exists b. destruct (decide (q' = q)) as [->|Hne].
  - rewrite Hq0, Hi0. exists (alloc_of s'). split; [done|]. exists fl'. by destruct s'.
  - destruct (pool_get p0 q') as [b1|] eqn:Hq1; [|done]. destruct Hp as (b' & Hb' & Hp). exists b'. split; [done|].
    destruct (initialized b1) eqn:Hi1; [|done]. destruct Hp as [fl1 Hp]. exists fl1.
    eapply sys_inv_frame; [exact Hp|done|]. eapply only_mono; [|exact Ho].
    intros x Hx Hx'. destruct (Hdisj q q' b0 b1); try done; unfold in_range in *; lia.
Qed.

Lemma frames_ranges f Ls :
  frames_inv (f, Ls) -> pools_disjoint (f_pools f).
Proof.
  intros [_ Hp] q q' b b' Hne Hq Hq' Hi Hi'. pose proof (Hp q) as H. pose proof (Hp q') as H'.
  unfold pool_inv in *. cbn [fst snd] in *.
  destruct (pool_get p0 q) as [b0|] eqn:E; [|naive_solver]. destruct (pool_get p0 q') as [b0'|] eqn:E'; [|naive_solver].
  destruct H as (? & Hb & H). destruct H' as (? & Hb' & H'). simplify_eq.
  destruct (initialized b0) eqn:Ei; [|by destruct H as [[-> _] _]].
  destruct (initialized b0') eqn:Ei'; [|by destruct H' as [[-> _] _]].
  destruct H as [? [_ [Hs1 Hs2 _ _ _] _ _ _ _ _]]. destruct H' as [? [_ [Hs1' Hs2' _ _ _] _ _ _ _ _]]. cbn in *.
  rewrite Hs1, Hs2, Hs1', Hs2'. eauto.
Qed.

(** What the invariant says of a pool that holds live blocks or allocated. *)
Lemma live_pool f Ls q a k :
  frames_inv (f, Ls) -> (a, k) ∈ Ls q ->
  exists b0 b fl, pool_get p0 q = Some b0 /\ initialized b0 = true /\ pool_get (f_pools f) q = Some b /\
    sys_inv b0 (Fs q) (total_free b0) (mk_st b (f_mem f), Ls q) fl /\ pool_for_addr (f_pools f) a = Some q.
Proof.
  intros Hi Hin. pose proof Hi as [_ Hp]. specialize (Hp q). unfold pool_inv in Hp. cbn [fst snd] in Hp.
  destruct (pool_get p0 q) as [b0|] eqn:E; [|destruct Hp as [_ Hn]; rewrite Hn in Hin; by apply not_elem_of_nil in Hin].
  destruct Hp as (b & Hb & Hp).
  destruct (initialized b0) eqn:Ei; [|destruct Hp as [_ Hn]; rewrite Hn in Hin; by apply not_elem_of_nil in Hin].
  destruct Hp as [fl Hs]. exists b0, b, fl. split_and!; try done.
  apply (pool_for_addr_owner _ q b); [by eapply frames_ranges|done|]. apply owns_true.
  pose proof Hs as [_ [H1 H2 _ _ H3] _ _ _ _ _]. cbn in *. split; [by rewrite H3|].
  assert (in_range b0 a); [|unfold in_range in *; by rewrite H1, H2].
  apply (held_in_range _ _ _ _ _ _ _ Hs). exists a, k. split; [done|]. pose proof (size_ge k). unfold covers. lia.
Qed.

(** A live block can be freed unless its first word is the poison pattern, and
    the free leaves every other live block of the pool unchanged. *)
Lemma frame_can_free f Ls q a k L' :
  frames_inv (f, Ls) -> Ls q ≡ₚ (a, k) :: L' -> load32 (f_mem f) a <> POISON_PATTERN ->
  exists f', frame_free_pages f a k = Some f' /\ forall x, held L' x -> f_mem f' x = f_mem f x.
Proof.
  intros Hi HL Hp. assert (Hin : (a, k) ∈ Ls q) by (rewrite HL; set_solver).
  destruct (live_pool f Ls q a k Hi Hin) as (b0 & b & fl & H0 & Hi0 & Hb & Hs & Hpa).
  destruct (sys_can_free _ _ _ _ _ _ _ _ Hs Hin Hp) as (s' & fl' & E & Hfr).
  unfold frame_free_pages. rewrite Hpa, Hb, E. eexists. split; [done|]. cbn [f_mem].
  intros x (a1 & k1 & Hin1 & Hx). apply (fr_only _ _ _ _ _ _ Hfr).
  assert (Hin1' : (a1, k1) ∈ Ls q) by (rewrite HL; set_solver).
  destruct Hs. cbn [fst snd alloc_of mem_of] in *. rewrite Forall_forall in si_live.
  destruct (si_live _ Hin1') as [Hv Hf]. apply (valid_same _ _ _ _ si_same) in Hv.
  rewrite fresh_not_free in Hf. cbn [fst snd] in *. intros [Hbm|[Hfree|Hc]]; [|by apply (Hf x)|].
  - destruct Hv. unfold in_bitmap, covers in *. cbn in *. lia.
  - pose proof (live_disjoint_perm _ _ HL si_disj) as [Hd _]. rewrite Forall_forall in Hd.
    apply Hd in Hin1. unfold disj, covers in *. cbn in Hin1. lia.
Qed.

(** A failed allocation changes nothing. *)
Lemma frame_alloc_none f Ls q order f' :
  frames_inv (f, Ls) -> frame_alloc_pages f q order = (None, f') -> f' = f.
Proof.
  intros [_ Hp] Ha. unfold frame_alloc_pages in Ha. specialize (Hp q). unfold pool_inv in Hp. cbn [fst snd] in Hp.
  destruct (pool_get p0 q) as [b0|] eqn:E; [|by destruct Hp as [Hn _]; rewrite Hn in Ha; simplify_eq].
  destruct Hp as (b & Hb & Hp). rewrite Hb in Ha. destruct (initialized b0) eqn:Ei.
  - destruct Hp as [fl Hs]. destruct (alloc_pages_inv _ fl order (si_inv _ _ _ _ _ Hs)) as [[_ Eal]|(? & ? & ? & Eal & _)];
      cbn [fst] in Eal; rewrite Eal in Ha; simplify_eq. cbn. by rewrite frames_eta.
  - destruct Hp as [[-> _] _]. rewrite alloc_new in Ha. simplify_eq. cbn. by rewrite frames_eta.
Qed.

Lemma frame_step_inv c c' : frames_inv c -> frame_step c c' -> frames_inv c'.
Proof.
  intros Hi Hs. destruct Hs as [f Ls q order a f' Ha|f Ls q order f' Ha|f Ls q a k L' f' HL Hf|f Ls q x v Hx Hv].
  - unfold frame_alloc_pages in Ha. pose proof Hi as [_ Hp]. specialize (Hp q). unfold pool_inv in Hp. cbn [fst snd] in Hp.
    destruct (pool_get p0 q) as [b0|] eqn:E; [|by destruct Hp as [Hn _]; rewrite Hn in Ha].
    destruct Hp as (b & Hb & Hp). rewrite Hb in Ha.
    destruct (initialized b0) eqn:Ei; [|by destruct Hp as [[-> _] _]; rewrite alloc_new in Ha].
    destruct Hp as [fl Hs]. destruct (alloc_pages _ _) as [r s] eqn:Eal. simplify_eq.
    eapply frames_one_step; try done. left. by apply op_alloc.
  - by rewrite (frame_alloc_none _ _ _ _ _ Hi Ha).
  - destruct (live_pool f Ls q a k Hi) as (b0 & b & fl & H0 & Hi0 & Hb & Hs & Hpa); [rewrite HL; set_solver|].
    unfold frame_free_pages in Hf. rewrite Hpa, Hb in Hf.
    destruct (free_pages _ _ _) as [s|] eqn:Efr; [|done]. cbn in Hf. simplify_eq.
    eapply frames_one_step; try done. left. by eapply op_free.
  - destruct Hx as (a & k & Hin & Hx). destruct (live_pool f Ls q a k Hi Hin) as (b0 & b & fl & H0 & Hi0 & Hb & Hs & _).
    rewrite <-(pool_set_get _ _ _ Hb).
    assert (Hst : sys_step (mk_st b (f_mem f), Ls q) (set_mem (mk_st b (f_mem f)) (write_bytes (f_mem f) x v 1), Ls q))
      by (right; apply (client_write (mk_st b (f_mem f))); [by exists a, k|done]).
    pose proof (frames_one_step _ _ _ _ _ _ _ _ Hi H0 Hi0 Hb Hs Hst) as [Hm Hp]. split; [exact Hm|].
    intros q'. specialize (Hp q'). cbn [fst snd] in *. unfold lives_upd in Hp. by destruct (decide (q' = q)) as [->|].
Qed.

(** A client may rewrite the blocks it holds in any way. *)
Lemma frames_write f Ls q m' :
  frames_inv (f, Ls) -> mem_ok m' -> only (held (Ls q)) (f_mem f) m' ->
  frames_inv (mk_frames (f_pools f) (f_total f) m', Ls).
Proof.
  intros Hi Hm Ho. pose proof Hi as [_ Hp]. split; [done|]. intros q'. specialize (Hp q').
  unfold pool_inv in *. cbn [fst snd f_pools f_mem] in *.
  destruct (pool_get p0 q') as [b1|] eqn:Hq1; [|done]. destruct Hp as (b' & Hb' & Hp). exists b'. split; [done|].
  destruct (initialized b1) eqn:Hi1; [|done]. destruct Hp as [fl1 Hp]. exists fl1.
  destruct (decide (q' = q)) as [->|Hne].
  - destruct Hp. cbn in *. constructor; cbn; try done.
    apply (inv_only 0 (mk_st b' (f_mem f)) fl1 m' _ si_inv Hm Ho). intros x (a & k & Hin & Hx).
    rewrite Forall_forall in si_live. destruct (si_live _ Hin) as [_ Hf]. rewrite fresh_not_free in Hf. by apply Hf.
  - eapply sys_inv_frame; [exact Hp|done|]. eapply only_mono; [|exact Ho]. intros x (a & k & Hin & Hx) Hr.
    destruct (live_pool f Ls q a k Hi Hin) as (b0 & b & fl & H0 & Hi0 & Hb & Hs & _).
    pose proof (held_in_range _ _ _ _ _ _ x Hs ltac:(by exists a, k)) as Hr0.
    destruct (Hdisj q' q b1 b0 Hne Hq1 H0 Hi1 Hi0); unfold in_range in *; lia.
Qed.

(** An allocation leaves the blocks held from its pool unchanged. *)
Lemma frame_alloc_keeps f Ls q order a f' x :
  frames_inv (f, Ls) -> frame_alloc_pages f q order = (Some a, f') -> held (Ls q) x -> f_mem f' x = f_mem f x.
Proof.
  intros Hi Ha (a1 & k1 & Hin & Hx).
  destruct (live_pool f Ls q a1 k1 Hi Hin) as (b0 & b & fl & H0 & Hi0 & Hb & Hs & _).
  unfold frame_alloc_pages in Ha. rewrite Hb in Ha.
  destruct (alloc_pages_inv _ fl order (si_inv _ _ _ _ _ Hs)) as [[_ Eal]|(a' & s' & fl' & Eal & Hal)];
    cbn [fst] in Eal; rewrite Eal in Ha; simplify_eq. cbn [f_mem].
  destruct Hs. cbn in *. rewrite Forall_forall in si_live. destruct (si_live _ Hin) as [Hv Hf].
  apply (valid_same _ _ _ _ si_same) in Hv. rewrite fresh_not_free in Hf. cbn in *.
  apply (al_only _ _ _ _ _ _ Hal). intros [[Hx1 Hx2]|Hfree]; [|by apply (Hf x)].
  destruct Hv. unfold covers in Hx. cbn in *. lia.
Qed.
End pools.

(** ** Initialization *)

Definition aligned (x : Z) : Prop := x mod 4096 = 0.

(** The bytes of a pool that its clients may be given. *)
Definition usable (z1 z2 : Z * Z) (b : buddy) (x : Z) : Prop :=
  low b <= x < bend b /\ ~ in_zone x z1 /\ ~ in_zone x z2.

Record pool_ready (m : mem) (b e : Z) (z1 z2 : Z * Z) (s : bstate) : Prop := {
  pr_mem : mem_ok (mem_of s);
  pr_only : only (fun x => b <= x < e) m (mem_of s);
  pr_pool : if b <? e then
      initialized (alloc_of s) = true /\ base (alloc_of s) = b /\ bend (alloc_of s) = e /\
      exists fl, sys_inv (alloc_of s) (usable z1 z2 (alloc_of s)) (total_free (alloc_of s)) (s, []) fl
    else alloc_of s = buddy_new
}.

Lemma init_pool_ready m b e z1 z2 :
  mem_ok m -> aligned b -> aligned e -> 0 < b <= e -> e < 2 ^ 64 -> zone_ok z1 -> zone_ok z2 ->
  pool_ready m b e z1 z2 (init_pool m b e z1 z2).
Proof.
  intros Hm Hb He Hle Hlt Hz1 Hz2. unfold init_pool.
  destruct (Z.ltb_spec b e) as [Hbe|Hbe].
  2:{ constructor; [done|apply only_refl|]. by destruct (Z.ltb_spec b e); [lia|]. }
  destruct (init_excluding_inv m b e z1 z2) as [fl Hr]; [constructor; done || lia|done..|].
  pose proof (sys_start _ _ _ _ _ _ Hr) as Hs. destruct Hr. constructor.
  - apply rd_inv.
  - eapply only_mono; [|exact rd_only]. cbv beta. intros x [[Hx1 Hx2]|Hx%(free_in_range _ _ _ _ rd_inv)].
    + rewrite rd_base in Hx1. lia.
    + by rewrite rd_base, rd_end in Hx.
  - destruct (Z.ltb_spec b e); [|lia]. split_and!; [done..|]. exists fl. unfold usable. by rewrite rd_end.
Qed.

Lemma pool_ready_frame p0 m b e z1 z2 s m' q f :
  pool_ready m b e z1 z2 s -> mem_ok m' -> only (fun x => ~ (b <= x < e)) (mem_of s) m' ->
  pool_get p0 q = Some (alloc_of s) -> pool_get (f_pools f) q = Some (alloc_of s) -> f_mem f = m' ->
  pool_inv p0 (fun q => from_option (usable z1 z2) (fun _ => False) (pool_get p0 q)) q f [].
Proof.
  destruct s as [bb mm]. cbn [alloc_of mem_of]. intros [Hm Ho Hp] Hm' Ho' Hq Hf <-. cbn [alloc_of mem_of] in *.
  unfold pool_inv. rewrite Hq. exists bb. split; [done|].
  destruct (b <? e).
  - destruct Hp as (-> & Hb & He & fl & Hs). exists fl. cbn.
    eapply sys_inv_frame; [exact Hs|done|]. unfold in_range. by rewrite Hb, He.
  - by rewrite Hp.
Qed.

Record config_ok (c : PoolConfig) : Prop := {
  co_kernel : 0 <= cfg_kernel c; co_kernel_al : aligned (cfg_kernel c);
  co_model : 0 <= cfg_model c; co_model_al : aligned (cfg_model c);
  co_dma : 0 <= cfg_dma c; co_dma_al : aligned (cfg_dma c);
  co_reserved : 0 <= cfg_reserved c; co_reserved_al : aligned (cfg_reserved c)
}.

Lemma from_total_ram_ok total : config_ok (from_total_ram total).
Proof. unfold from_total_ram. repeat case_match; simplify_eq; by constructor. Qed.

Lemma aligned_min a b : aligned a -> aligned b -> aligned (Z.min a b).
Proof. intros. by destruct (Z.min_spec a b) as [[_ ->]|[_ ->]]. Qed.
Lemma aligned_add a b : aligned a -> aligned b -> aligned (a + b).
Proof. unfold aligned. intros Ha Hb. by rewrite Z.add_mod, Ha, Hb. Qed.
Lemma aligned_sub a b : aligned a -> aligned b -> aligned (a - b).
Proof. unfold aligned. intros Ha Hb. by rewrite Zminus_mod, Ha, Hb. Qed.
#[export] Hint Resolve aligned_min aligned_add aligned_sub co_kernel_al co_model_al co_dma_al co_reserved_al : aios.

(** The pool boundaries are ordered page multiples. *)
Lemma pools_init_parts m b e c z1 z2 :
  range_ok b e -> config_ok c ->
  exists x1 x2 x3 x4, aligned x1 /\ aligned x2 /\ aligned x3 /\ aligned x4 /\
    b <= x1 <= x2 /\ x2 <= x3 <= x4 /\ x4 <= e /\
    pools_init m b e c z1 z2 =
      let dma := init_pool m b x1 z1 z2 in
      let kernel := init_pool (mem_of dma) x1 x2 z1 z2 in
      let model := init_pool (mem_of kernel) x2 x3 z1 z2 in
      let user := init_pool (mem_of model) x4 e z1 z2 in
      (mk_pools (alloc_of kernel) (alloc_of user)
         (if x2 <? x3 then Some (alloc_of model) else None) (alloc_of dma), mem_of user).
Proof.
  intros [Hb Hba Hea Hlt He] Hc. unfold pools_init.
  set (total := e - b). set (ds := Z.min (cfg_dma c) total). set (ks := Z.min (cfg_kernel c) (total - ds)).
  set (ms := Z.min (cfg_model c) (total - ds - ks)). set (rs := Z.min (cfg_reserved c) (total - ds - ks - ms)).
  change (aligned b) in Hba. change (aligned e) in Hea.
  assert (Ht : aligned total) by (subst total; auto with aios).
  assert (Hds : aligned ds) by (subst ds; auto with aios).
  assert (Hks : aligned ks) by (subst ks; auto with aios).
  assert (Hms : aligned ms) by (subst ms; auto with aios).
  assert (Hrs : aligned rs) by (subst rs; auto with aios).
  assert (Hord : 0 <= ds /\ 0 <= ks /\ 0 <= ms /\ 0 <= rs /\ ds + ks + ms + rs <= total) by (destruct Hc; lia).
  exists (b + ds), (b + ds + ks), (b + ds + ks + ms), (b + ds + ks + ms + rs).
  assert (total = e - b) by done. split_and!; auto with aios; lia.
Qed.

(** The whole initialization, for a config of page multiples. *)
Lemma pools_init_inv m b e c z1 z2 t :
  mem_ok m -> range_ok b e -> config_ok c -> zone_ok z1 -> zone_ok z2 ->
  let '(p0, m0) := pools_init m b e c z1 z2 in
  pools_disjoint p0 /\
  frames_inv p0 (fun q => from_option (usable z1 z2) (fun _ => False) (pool_get p0 q))
    (mk_frames p0 t m0, fun _ => []).
Proof.
  intros Hm Hr Hc Hz1 Hz2.
  destruct (pools_init_parts m b e c z1 z2 Hr Hc) as (x1 & x2 & x3 & x4 & Ha1 & Ha2 & Ha3 & Ha4 & Ho1 & Ho2 & Ho3 & ->).
  destruct Hr as [Hb Hba Hea Hlt He]. cbn zeta.
  pose proof (init_pool_ready m b x1 z1 z2 Hm Hba Ha1 ltac:(lia) ltac:(lia) Hz1 Hz2) as R1.
  set (s1 := init_pool m b x1 z1 z2) in *.
  pose proof (init_pool_ready _ x1 x2 z1 z2 (pr_mem _ _ _ _ _ _ R1) Ha1 Ha2 ltac:(lia) ltac:(lia) Hz1 Hz2) as R2.
  set (s2 := init_pool _ x1 x2 z1 z2) in *.
  pose proof (init_pool_ready _ x2 x3 z1 z2 (pr_mem _ _ _ _ _ _ R2) Ha2 Ha3 ltac:(lia) ltac:(lia) Hz1 Hz2) as R3.
  set (s3 := init_pool _ x2 x3 z1 z2) in *.
  pose proof (init_pool_ready _ x4 e z1 z2 (pr_mem _ _ _ _ _ _ R3) Ha4 Hea ltac:(lia) ltac:(lia) Hz1 Hz2) as R4.
  set (s4 := init_pool _ x4 e z1 z2) in *. clearbody s1 s2 s3 s4. split.
  - intros q q' bb bb' Hne Hq Hq' Hi Hi'.
    pose proof (pr_pool _ _ _ _ _ _ R1) as P1. pose proof (pr_pool _ _ _ _ _ _ R2) as P2.
    pose proof (pr_pool _ _ _ _ _ _ R3) as P3. pose proof (pr_pool _ _ _ _ _ _ R4) as P4.
    destruct (b <? x1), (x1 <? x2), (x2 <? x3), (x4 <? e), q, q'; cbn in Hq, Hq'; simplify_eq;
      try (by rewrite P1 in *); try (by rewrite P2 in *); try (by rewrite P3 in *); try (by rewrite P4 in *);
      intuition lia.
  - assert (Hm4 := pr_mem _ _ _ _ _ _ R4). split; [done|]. cbn [fst snd].
    assert (T3 : only (fun x => x3 <= x) (mem_of s3) (mem_of s4))
      by (eapply only_mono; [|exact (pr_only _ _ _ _ _ _ R4)]; cbv beta; lia).
    assert (T2 : only (fun x => x2 <= x) (mem_of s2) (mem_of s4)).
    { eapply only_trans; eapply only_mono; [|exact (pr_only _ _ _ _ _ _ R3)| |exact T3]; cbv beta; lia. }
    assert (T1 : only (fun x => x1 <= x) (mem_of s1) (mem_of s4)).
    { eapply only_trans; eapply only_mono; [|exact (pr_only _ _ _ _ _ _ R2)| |exact T2]; cbv beta; lia. }
    intros [].
    + eapply pool_ready_frame; [exact R2|exact Hm4| |done..]. eapply only_mono; [|exact T2]. cbv beta. lia.
    + eapply pool_ready_frame; [exact R4|exact Hm4|apply only_refl|done..].
    + destruct (x2 <? x3) eqn:E; [|done].
      eapply pool_ready_frame; [exact R3|exact Hm4| |done..]. eapply only_mono; [|exact T3]. cbv beta. lia.
    + eapply pool_ready_frame; [exact R1|exact Hm4| |done..]. eapply only_mono; [|exact T1]. cbv beta. lia.
Qed.

(** ** Properties *)

Definition live_total (Ls : lives) : Z :=
  live_pages (Ls PoolKernel) + live_pages (Ls PoolUser) + live_pages (Ls PoolModel) + live_pages (Ls PoolDma).

Lemma pool_conserves p0 Fs f L q :
  pool_inv p0 Fs q f L ->
  from_option total_free 0 (pool_get (f_pools f) q) + live_pages L =
  from_option total_free 0 (pool_get p0 q).
Proof.
  unfold pool_inv. destruct (pool_get p0 q) as [b0|]; [|by intros [-> ->]].
  intros (b & -> & H). destruct (initialized b0) eqn:E; [|by destruct H as [[-> ->] ->]].
  destruct H as [fl []]. pose proof (i_total _ _ _ si_inv) as Ht. cbn in *. lia.
Qed.

(** in every run of the frame allocator from [PagePools::init], each held
    block lies in the usable part of the pool it was allocated from, its
    address leads back to that pool, blocks of the same or different pools
    never overlap, a free fails only on the poison pattern, and free and held
    pages add up to the initial total. *)
Theorem frame_runs_safe m b e c z1 z2 t p0 m0 f Ls :
  pools_init m b e c z1 z2 = (p0, m0) ->
  mem_ok m -> range_ok b e -> config_ok c -> zone_ok z1 -> zone_ok z2 ->
  rtc frame_step (mk_frames p0 t m0, fun _ => []) (f, Ls) ->
  (forall q a k, (a, k) ∈ Ls q ->
     pool_for_addr (f_pools f) a = Some q /\
     (exists b0, pool_get p0 q = Some b0 /\ forall x, covers a k x -> usable z1 z2 b0 x) /\
     (frame_free_pages f a k = None <-> load32 (f_mem f) a = POISON_PATTERN) /\
     forall q' a' k', (a', k') ∈ Ls q' -> (q, a, k) <> (q', a', k') -> disj a k a' k') /\
  total_free_pages (f_pools f) + live_total Ls = total_free_pages p0.
Proof.
  pose proof (pools_init_inv m b e c z1 z2 t) as Hinit.
  intros E Hm Hr Hc Hz1 Hz2 Hrun. rewrite E in Hinit. clear E.
  destruct (Hinit Hm Hr Hc Hz1 Hz2) as [Hd Hi]. clear Hinit.
  apply (rtc_preserves _ _ _ _ (fun c c' H Hc => frame_step_inv _ _ Hd c c' Hc H) Hrun) in Hi.
  split.
  - intros q a k Hin. destruct (live_pool _ _ Hd _ _ _ _ _ Hi Hin) as (b0 & bb & fl & H0 & Hi0 & Hb & Hs & Hpa).
    split; [done|]. rewrite H0 in Hs. cbn [from_option] in Hs. split_and!.
    + exists b0. split; [done|]. intros x Hx. apply (si_all _ _ _ _ _ Hs). right. by exists a, k.
    + unfold frame_free_pages. rewrite Hpa, Hb.
      destruct (decide (load32 (f_mem f) a = POISON_PATTERN)) as [Hp|Hp].
      * rewrite free_pages_poisoned; [done| |done].
        pose proof (sr_init _ _ (si_same _ _ _ _ _ Hs)) as Hsi. cbn in Hsi |- *. by rewrite Hsi.
      * destruct (sys_can_free _ _ _ _ _ _ _ _ Hs Hin Hp) as (s' & fl' & -> & _). done.
    + intros q' a' k' Hin' Hne. destruct (decide (q = q')) as [<-|Hq].
      * apply (live_disjoint_elem _ (a, k) (a', k') (si_disj _ _ _ _ _ Hs) Hin Hin'). congruence.
      * destruct (live_pool _ _ Hd _ _ _ _ _ Hi Hin') as (b1 & bb' & fl' & H1 & Hi1 & Hb' & Hs' & _).
        pose proof (held_block_range _ _ _ _ _ _ _ _ Hs Hin). pose proof (held_block_range _ _ _ _ _ _ _ _ Hs' Hin').
        unfold disj. destruct (Hd q q' b0 b1 Hq H0 H1 Hi0 Hi1); lia.
  - destruct Hi as [_ Hi]. unfold total_free_pages, live_total.
    pose proof (pool_conserves _ _ _ _ _ (Hi PoolKernel)). pose proof (pool_conserves _ _ _ _ _ (Hi PoolUser)).
    pose proof (pool_conserves _ _ _ _ _ (Hi PoolModel)). pose proof (pool_conserves _ _ _ _ _ (Hi PoolDma)).
    cbn in *. lia.
Qed.

Lemma worst_level_spec f qs w :
  let r := worst_level f qs w in
  (forall p, w = Some p -> exists p', r = Some p' /\ pressure_rank p <= pressure_rank p') /\
  (forall q, q ∈ qs -> pool_total_pages f q <> 0 -> exists p', r = Some p' /\
     pressure_rank (from_free_ratio (pool_free_pages f q) (pool_total_pages f q)) <= pressure_rank p') /\
  (forall p, r = Some p -> w = Some p \/ exists q, q ∈ qs /\ pool_total_pages f q <> 0 /\
     p = from_free_ratio (pool_free_pages f q) (pool_total_pages f q)).
Proof.
  revert w. induction qs as [|q qs IH]; intros w; cbn [worst_level]; cbn zeta.
  { split_and!; [intros p ->; exists p; split; [done|lia]|set_solver|by left]. }
  destruct (Z.eqb_spec (pool_total_pages f q) 0) as [Hz|Hz].
  - destruct (IH w) as (H1 & H2 & H3). split_and!; [done| |].
    + intros q' [->|Hq]%elem_of_cons Hne; [done|]. by apply H2.
    + intros p [->|(q' & ? & ? & ?)]%H3; [by left|right]. exists q'. set_solver.
  - set (pr := from_free_ratio (pool_free_pages f q) (pool_total_pages f q)). set (w' := Some _).
    destruct (IH w') as (H1 & H2 & H3).
    assert (Hw' : exists p, w' = Some p /\ pressure_rank pr <= pressure_rank p /\
      (forall p0, w = Some p0 -> pressure_rank p0 <= pressure_rank p) /\ (w = Some p \/ p = pr)).
    { subst w'. destruct w as [c|]; [|exists pr; split_and!; (done || lia || by right)].
      destruct (Z.geb_spec (pressure_rank c) (pressure_rank pr)); eexists; split_and!; try done; try lia;
        try (intros ? [= <-]; lia); auto. }
    destruct Hw' as (p & Ep & Hp1 & Hp2 & Hp3). destruct (H1 p Ep) as (p' & Er & Hle). split_and!.
    + intros p0 Hp0. exists p'. split; [done|]. specialize (Hp2 _ Hp0). lia.
    + intros q' [->|Hq]%elem_of_cons Hne; [|by apply H2]. exists p'. split; [done|]. fold pr. lia.
    + intros p2 Hr. destruct (H3 p2 Hr) as [E|(q' & ? & ? & ?)].
      * rewrite Ep in E. injection E as <-. destruct Hp3 as [ Hp3 | -> ]; [by left|]. right. exists q. set_solver.
      * right. exists q'. set_solver.
Qed.

(** The memory pressure reported for the machine is the worst pressure of
    its pools that are not empty, and out-of-memory when all are empty. *)
Theorem current_level_worst f :
  (forall q, pool_total_pages f q <> 0 ->
     pressure_rank (from_free_ratio (pool_free_pages f q) (pool_total_pages f q)) <= pressure_rank (current_level f)) /\
  ((exists q, pool_total_pages f q <> 0 /\
      current_level f = from_free_ratio (pool_free_pages f q) (pool_total_pages f q)) \/
   ((forall q, pool_total_pages f q = 0) /\ current_level f = POom)).
Proof.
  unfold current_level. destruct (worst_level_spec f all_pools None) as (_ & H2 & H3).
  assert (Hall : forall q, q ∈ all_pools) by (intros []; unfold all_pools; set_solver).
  split.
  - intros q Hq. destruct (H2 q (Hall q) Hq) as (p' & -> & ?). done.
  - destruct (worst_level f all_pools None) as [p|] eqn:E.
    + left. destruct (H3 p eq_refl) as [|(q & _ & ? & ->)]; [done|]. by exists q.
    + right. split; [|done]. intros q. destruct (decide (pool_total_pages f q = 0)) as [|Hne]; [done|].
      destruct (H2 q (Hall q) Hne) as (? & ? & _). done.
Qed.

(** ** Witness *)

Definition demo_config : PoolConfig := mk_config 0x10000 0x8000 0 0x10000 0x4000.
Definition demo_pools : PagePools * mem :=
  pools_init demo_mem 0x40000000 0x40040000 demo_config (0x40014000, 0x40016000) (0, 0).

Definition demo_frames : frames := mk_frames demo_pools.1 64 demo_pools.2.
Definition demo_frames_allocated : frames := (frame_alloc_pages demo_frames PoolKernel 1).2.

Lemma demo_frame_alloc :
  frame_alloc_pages demo_frames PoolKernel 1 = (Some 0x40016000, demo_frames_allocated).
Proof.
  unfold demo_frames_allocated. apply (pair_fst_eq (frame_alloc_pages demo_frames PoolKernel 1)).
  vm_compute. reflexivity.
Qed.

Lemma demo_frames_run :
  exists p0 m0 f, demo_pools = (p0, m0) /\
    frame_alloc_pages (mk_frames p0 64 m0) PoolKernel 1 = (Some 0x40016000, f).
Proof.
  exists demo_pools.1, demo_pools.2, demo_frames_allocated.
  split; [apply (surjective_pairing demo_pools)|exact demo_frame_alloc].
Qed.

Lemma frame_runs_safe_witness :
  exists p0 f, frame_alloc_pages (mk_frames p0.1 64 p0.2) PoolKernel 1 = (Some 0x40016000, f) /\
    pool_for_addr (f_pools f) 0x40016000 = Some PoolKernel /\
    total_free_pages (f_pools f) + 2 = total_free_pages p0.1.
Proof.
  destruct demo_frames_run as (p0 & m0 & f & Ep & Ea). exists (p0, m0), f. split; [exact Ea|].
  destruct (frame_runs_safe demo_mem 0x40000000 0x40040000 demo_config (0x40014000, 0x40016000) (0, 0) 64 p0 m0 f
    (lives_upd (fun _ => []) PoolKernel [(0x40016000, 1%nat)]) Ep) as [H1 H2].
  - exact demo_mem_ok.
  - by constructor.
  - by constructor.
  - unfold zone_ok. cbn [fst snd]. split_and!; [lia|reflexivity|reflexivity].
  - unfold zone_ok. cbn [fst snd]. split_and!; [lia|reflexivity|reflexivity].
  - eapply rtc_once, (fs_alloc _ (fun _ => [])); exact Ea.
  - destruct (H1 PoolKernel 0x40016000 1%nat) as [H _]; [apply elem_of_cons; by left|].
    split; [exact H|exact H2].
Defined.
