(* ===== verification/Paging.v ===== *)
(** * ASIDs and page table entries (kernel/src/mm/asid.rs, pgtable.rs)

    The ASID allocator as its state machine and the 64-bit descriptor
    encodings of the aarch64 page tables, with the queries and the mutators.
    An assertion that fails is [None]. *)

From S2P Require Import Prelude Abi.

(** ** ASIDs *)

Record Asid := mk_asid { asid_value : Z; asid_generation : Z }.
Definition ASID_KERNEL : Asid := mk_asid 0 0.

Record AsidAllocator := mk_asids { a_generation : Z; a_next : Z; a_max : Z }.

Definition asid_new : AsidAllocator := mk_asids 0 1 (umax 16).

Definition asid_alloc (s : AsidAllocator) : (Asid * bool) * AsidAllocator :=
  let value := a_next s in
  let next := wrapping_add 16 (a_next s) 1 in
  let '(next, generation, needs_flush) :=
    if next =? 0 then (1, wrapping_add 64 (a_generation s) 1, true)
    else (next, a_generation s, false) in
  ((mk_asid value generation, needs_flush), mk_asids generation next (a_max s)).

Definition asid_is_valid (s : AsidAllocator) (a : Asid) : bool := asid_generation a =? a_generation s.

(** ** Flags *)

Definition READ : Z := 1.
Definition WRITE : Z := 2.
Definition EXECUTE : Z := 4.
Definition USER : Z := 8.

Definition flags_contains (self other : Z) : bool := Z.land self other =? other.
Definition from_caller_bits (reg : Z) : result Z Z := flags_arg reg.

(** ** Descriptors *)

Definition VALID : Z := Z.shiftl 1 0.
Definition TABLE : Z := Z.shiftl 1 1.
Definition ATTR_IDX_SHIFT : Z := 2.
Definition AP_USER : Z := Z.shiftl 1 6.
Definition AP_RO : Z := Z.shiftl 1 7.
Definition SH_INNER : Z := Z.shiftl 3 8.
Definition AF : Z := Z.shiftl 1 10.
Definition NG : Z := Z.shiftl 1 11.
Definition PXN : Z := Z.shiftl 1 53.
Definition UXN : Z := Z.shiftl 1 54.
Definition PHYS_MASK : Z := 0x0000FFFFFFFFF000.
Definition BLOCK_MASK : Z := 0x0000FFFFFFE00000.

Infix "|||" := Z.lor (at level 50, left associativity) : aios_scope.
Infix "&&&" := Z.land (at level 40, left associativity) : aios_scope.

Definition new_table (next_table_phys : Z) : Z := next_table_phys &&& PHYS_MASK ||| TABLE ||| VALID.

(** The permission bits, as both leaf constructors add them. *)
Definition with_perms (pte flags : Z) : Z :=
  let pte := if flags_contains flags WRITE then pte else pte ||| AP_RO in
  let pte := if negb (flags_contains flags EXECUTE) then pte ||| (PXN ||| UXN)
             else if negb (flags_contains flags USER) then pte ||| UXN else pte in
  if flags_contains flags USER then pte ||| AP_USER ||| NG else pte.

Definition new_page (frame_phys mair_idx flags : Z) : option Z :=
  if flags_contains flags (WRITE ||| EXECUTE) then None
  else Some (with_perms
    (frame_phys &&& PHYS_MASK ||| VALID ||| TABLE ||| AF ||| SH_INNER |||
     Z.shiftl (mair_idx &&& 7) ATTR_IDX_SHIFT) flags).

Definition new_block_2m (block_phys mair_idx flags : Z) : option Z :=
  if negb (block_phys &&& 0x1FFFFF =? 0) then None
  else if flags_contains flags (WRITE ||| EXECUTE) then None
  else Some (with_perms
    (block_phys &&& BLOCK_MASK ||| VALID ||| AF ||| SH_INNER |||
     Z.shiftl (mair_idx &&& 7) ATTR_IDX_SHIFT) flags).

Definition is_valid (pte : Z) : bool := negb (pte &&& VALID =? 0).
Definition is_table (pte : Z) : bool := pte &&& (VALID ||| TABLE) =? (VALID ||| TABLE).
Definition is_block (pte : Z) : bool := pte &&& (VALID ||| TABLE) =? VALID.
Definition is_writable (pte : Z) : bool := pte &&& AP_RO =? 0.
Definition is_executable (pte : Z) : bool := pte &&& PXN =? 0.
Definition is_user (pte : Z) : bool := negb (pte &&& AP_USER =? 0).
Definition phys_addr (pte : Z) : Z := pte &&& PHYS_MASK.
Definition table_addr (pte : Z) : Z := phys_addr pte.

Definition set_writable (pte : Z) : Z := pte &&& unot 64 AP_RO ||| (PXN ||| UXN).
Definition set_executable (pte : Z) : Z := (pte ||| AP_RO) &&& unot 64 PXN ||| UXN.

(** Executable at EL0: the hardware reads UXN. *)
Definition is_user_executable (pte : Z) : bool := pte &&& UXN =? 0.

(** ** Virtual address indices *)

Definition l0_index (va : Z) : Z := Z.shiftr va 39 &&& 0x1FF.
Definition l1_index (va : Z) : Z := Z.shiftr va 30 &&& 0x1FF.
Definition l2_index (va : Z) : Z := Z.shiftr va 21 &&& 0x1FF.
Definition l3_index (va : Z) : Z := Z.shiftr va 12 &&& 0x1FF.

(** ** Facts about single bits *)

Lemma land_pow2_eqb x n : 0 <= n -> (Z.land x (2 ^ n) =? 0) = negb (Z.testbit x n).
Proof.
  intros Hn. destruct (Z.testbit x n) eqn:E; cbn.
  - apply Z.eqb_neq. intros H. pose proof (f_equal (fun y => Z.testbit y n) H) as Hb. cbn in Hb.
    rewrite Z.land_spec, E, Z.pow2_bits_true, Z.testbit_0_l in Hb; done.
  - apply Z.eqb_eq. by apply land_pow2_clear.
Qed.

Lemma contains_pow2 x n : 0 <= n -> flags_contains x (2 ^ n) = Z.testbit x n.
Proof.
  intros Hn. unfold flags_contains. pose proof (land_pow2_eqb x n Hn) as H.
  pose proof (Z.pow_pos_nonneg 2 n). destruct (Z.testbit x n) eqn:E.
  - apply Z.eqb_eq. apply Z.bits_inj'. intros i Hi. rewrite Z.land_spec, Z.pow2_bits_eqb by lia.
    destruct (Z.eqb_spec n i) as [<-|]; [by rewrite E|apply andb_false_r].
  - apply Z.eqb_eq in H. rewrite H. apply Z.eqb_neq. lia.
Qed.

(** ** ASID runs *)

(** The allocator after [n] allocations, and the result of the next one. *)
Definition asid_state (n : nat) : AsidAllocator := Nat.iter n (fun s => (asid_alloc s).2) asid_new.
Definition asid_nth (n : nat) : Asid * bool := (asid_alloc (asid_state n)).1.

Definition ASIDS : Z := 65535.

Lemma asid_state_eq n :
  asid_state n = mk_asids (wrap 64 (Z.of_nat n / ASIDS)) (Z.of_nat n mod ASIDS + 1) (umax 16).
Proof.
  induction n as [|n IH]; [done|]. change (asid_state (S n)) with (asid_alloc (asid_state n)).2.
  rewrite IH. unfold asid_alloc, wrapping_add. cbn [a_next a_generation a_max]. unfold wrap, ASIDS in *.
  rewrite Nat2Z.inj_succ. change (2 ^ 16) with 65536.
  destruct (Z.eqb_spec ((Z.of_nat n mod 65535 + 1 + 1) mod 65536) 0) as [H|H]; cbn [snd fst].
  - assert (Hn : Z.of_nat n mod 65535 = 65534) by divlia.
    assert (Hd : Z.succ (Z.of_nat n) / 65535 = Z.of_nat n / 65535 + 1) by divlia.
    rewrite Hd, Zplus_mod_idemp_l. f_equal; divlia.
  - assert (Hn : Z.of_nat n mod 65535 < 65534) by divlia.
    assert (Hd : Z.succ (Z.of_nat n) / 65535 = Z.of_nat n / 65535) by divlia.
    rewrite Hd. f_equal. rewrite Z.mod_small by divlia. divlia.
Qed.

Lemma asid_nth_eq n :
  asid_nth n = (mk_asid (Z.of_nat n mod ASIDS + 1) (wrap 64 ((Z.of_nat n + 1) / ASIDS)),
                (Z.of_nat n + 1) mod ASIDS =? 0).
Proof.
  unfold asid_nth. rewrite asid_state_eq. unfold asid_alloc, wrapping_add. cbn [a_next a_generation a_max].
  unfold wrap, ASIDS in *. change (2 ^ 16) with 65536.
  destruct (Z.eqb_spec ((Z.of_nat n mod 65535 + 1 + 1) mod 65536) 0) as [H|H]; cbn [snd fst].
  - assert (Hn : Z.of_nat n mod 65535 = 65534) by divlia.
    assert (Hd : (Z.of_nat n + 1) / 65535 = Z.of_nat n / 65535 + 1) by divlia.
    rewrite Hd, Zplus_mod_idemp_l. f_equal. symmetry. apply Z.eqb_eq. divlia.
  - assert (Hn : Z.of_nat n mod 65535 < 65534) by divlia.
    assert (Hd : (Z.of_nat n + 1) / 65535 = Z.of_nat n / 65535) by divlia.
    rewrite Hd. f_equal. symmetry. apply Z.eqb_neq. divlia.
Qed.

(** two ASIDs that are valid at the same time have different values, none of
    them the kernel's, and whenever a value is reused a full TLB flush was
    requested after its previous allocation. *)
Theorem asid_safe n i j :
  Z.of_nat n < ASIDS * 2 ^ 64 -> (i < j < n)%nat ->
  let '(a, _) := asid_nth i in
  let '(b, _) := asid_nth j in
  1 <= asid_value a < 2 ^ 16 /\
  (asid_is_valid (asid_state n) a = true -> asid_is_valid (asid_state n) b = true ->
     asid_value a <> asid_value b) /\
  (asid_value a = asid_value b -> exists k, (i < k <= j)%nat /\ (asid_nth k).2 = true).
Proof.
  intros Hn Hij. rewrite !asid_nth_eq. unfold asid_is_valid. rewrite asid_state_eq.
  cbn [asid_value asid_generation a_generation]. unfold wrap, ASIDS in *. change (2 ^ 16) with 65536.
  rewrite !(Z.mod_small _ (2 ^ 64)) by (split; [divlia|]; apply Z.div_lt_upper_bound; lia). split; [divlia|]. split.
  - intros Hi%Z.eqb_eq Hj%Z.eqb_eq. divlia.
  - intros Heq. exists (Z.to_nat (((Z.of_nat i + 1) / 65535 + 1) * 65535 - 1)). rewrite asid_nth_eq. cbn [snd].
    split; [divlia|]. apply Z.eqb_eq. unfold ASIDS. rewrite Z2Nat.id by divlia.
    replace (((Z.of_nat i + 1) / 65535 + 1) * 65535 - 1 + 1) with (((Z.of_nat i + 1) / 65535 + 1) * 65535) by lia.
    apply Z.mod_mul. lia.
Qed.

(** ** Bits of a descriptor *)

Lemma flags_contains_spec x m :
  flags_contains x m = true <-> forall i, 0 <= i -> Z.testbit m i = true -> Z.testbit x i = true.
Proof.
  unfold flags_contains. rewrite Z.eqb_eq. split.
  - intros H i Hi Hm. rewrite <-H, Z.land_spec in Hm. by apply andb_true_iff in Hm as [? _].
  - intros H. apply Z.bits_inj'. intros i Hi. rewrite Z.land_spec.
    destruct (Z.testbit m i) eqn:E; [by rewrite (H i Hi E)|apply andb_false_r].
Qed.

Lemma contains_lor x a b : flags_contains x (a ||| b) = flags_contains x a && flags_contains x b.
Proof.
  apply eq_iff_eq_true. rewrite andb_true_iff, !flags_contains_spec. setoid_rewrite Z.lor_spec. split.
  - intros H. split; intros i Hi Hb; apply H; [done|by rewrite Hb|done|by rewrite Hb, orb_true_r].
  - intros [Ha Hb] i Hi [H|H]%orb_true_iff; auto.
Qed.

Lemma land_lor_clear x c m : Z.land c m = 0 -> Z.land (x ||| c) m = Z.land x m.
Proof. intros H. by rewrite Z.land_lor_distr_l, H, Z.lor_0_r. Qed.

(** The MAIR index occupies bits 2 to 4. *)
Lemma mair_bit x i : ~ (2 <= i <= 4) -> Z.testbit (Z.shiftl (x &&& 7) ATTR_IDX_SHIFT) i = false.
Proof.
  intros Hi. unfold ATTR_IDX_SHIFT. destruct (Z.ltb_spec i 0); [by apply Z.testbit_neg_r|].
  rewrite Z.shiftl_spec, Z.land_spec by lia. change 7 with (Z.ones 3).
  destruct (decide (i < 2)); [by rewrite (Z.testbit_neg_r _ (i - 2)) by lia|].
  rewrite Z.ones_spec_high by lia. apply andb_false_r.
Qed.

Lemma mair_mask x m :
  Z.land 28 m = 0 -> Z.land (Z.shiftl (x &&& 7) ATTR_IDX_SHIFT) m = 0.
Proof.
  intros Hm. apply Z.bits_inj'. intros i Hi. rewrite Z.land_spec, Z.testbit_0_l.
  destruct (decide (2 <= i <= 4)); [|by rewrite mair_bit].
  apply andb_false_intro2. pose proof (f_equal (fun y => Z.testbit y i) Hm) as H. cbn in H.
  rewrite Z.land_spec, Z.testbit_0_l in H. assert (i = 2 \/ i = 3 \/ i = 4) as [->|[->| ->]] by lia; exact H.
Qed.

Ltac pte_bits :=
  repeat first
    [ rewrite Z.lor_spec | rewrite Z.land_spec | rewrite mair_bit by lia
    | match goal with |- context [Z.testbit ?c ?i] =>
        let v := eval vm_compute in (Z.testbit c i) in
        match v with true => change (Z.testbit c i) with true | false => change (Z.testbit c i) with false end end
    | rewrite andb_false_r | rewrite andb_true_r | rewrite orb_false_r | rewrite orb_true_r
    | rewrite orb_false_l | rewrite orb_true_l ].

Lemma query_bit pte n : 0 <= n -> (pte &&& Z.shiftl 1 n =? 0) = negb (Z.testbit pte n).
Proof. intros. rewrite Z.shiftl_1_l. by apply land_pow2_eqb. Qed.

(** The permission bits added to a descriptor without any. *)
Lemma with_perms_bits pte flags :
  Z.testbit pte 6 = false -> Z.testbit pte 7 = false -> Z.testbit pte 53 = false -> Z.testbit pte 54 = false ->
  let r := with_perms pte flags in
  is_writable r = flags_contains flags WRITE /\ is_executable r = flags_contains flags EXECUTE /\
  is_user r = flags_contains flags USER /\
  is_user_executable r = flags_contains flags EXECUTE && flags_contains flags USER /\
  (forall m, Z.land (AP_RO ||| PXN ||| UXN ||| AP_USER ||| NG) m = 0 -> Z.land r m = Z.land pte m).
Proof.
  intros H6 H7 H53 H54 r. subst r. unfold with_perms, is_writable, is_executable, is_user, is_user_executable.
  unfold AP_RO, PXN, AP_USER, UXN, NG. rewrite !query_bit by lia.
  destruct (flags_contains flags WRITE), (flags_contains flags EXECUTE), (flags_contains flags USER); cbn [negb andb];
    (split; [pte_bits; by rewrite ?H7|]); (split; [pte_bits; by rewrite ?H53|]);
    (split; [pte_bits; by rewrite ?H6|]); (split; [pte_bits; by rewrite ?H54|]);
    intros m Hm; rewrite !Z.land_lor_distr_l in Hm; repeat (apply Z.lor_eq_0_iff in Hm as [Hm ?]);
    rewrite ?Z.land_lor_distr_l; repeat match goal with H : Z.land _ m = 0 |- _ => rewrite H end;
    by rewrite ?Z.lor_0_r.
Qed.

Lemma phys_mask_id x : 0 <= x < 2 ^ 48 -> x mod 4096 = 0 -> x &&& PHYS_MASK = x.
Proof.
  intros Hx Ha. apply Z.bits_inj'. intros i Hi. rewrite Z.land_spec.
  replace PHYS_MASK with (Z.shiftl (Z.ones 36) 12) by reflexivity. rewrite Z.shiftl_spec by lia.
  destruct (Z.ltb_spec i 12).
  - rewrite (Z.testbit_neg_r _ (i - 12)), andb_false_r by lia.
    rewrite <-(Z.mod_pow2_bits_low x 12 i) by lia. change (2 ^ 12) with 4096. by rewrite Ha, Z.testbit_0_l.
  - destruct (Z.ltb_spec i 48).
    + by rewrite Z.ones_spec_low, andb_true_r by lia.
    + rewrite (uint_testbit_high 48 x i) by (unfold uint; lia). done.
Qed.

Lemma block_mask_id x : 0 <= x < 2 ^ 48 -> x &&& 0x1FFFFF = 0 -> x &&& BLOCK_MASK = x.
Proof.
  intros Hx Ha. assert (Hm : x mod 4096 = 0).
  { change 0x1FFFFF with (2 ^ 21 - 1) in Ha. rewrite land_ones_mod in Ha by lia.
    change (2 ^ 21) with 2097152 in Ha. divlia. }
  rewrite <-(phys_mask_id x Hx Hm) at 2. replace PHYS_MASK with (BLOCK_MASK ||| 0x1FF000) by reflexivity.
  rewrite Z.land_lor_distr_r. replace (x &&& 0x1FF000) with 0; [by rewrite Z.lor_0_r|].
  change 0x1FF000 with (0x1FFFFF &&& 0x1FF000). by rewrite Z.land_assoc, Ha.
Qed.

(** [new_page] rejects exactly the flags that ask for write and execute; the
    descriptor it builds is a valid page whose queries give back the frame
    and the flags.  A user-executable page is executable at EL1 as well. *)
Theorem new_page_exact frame mair flags :
  0 <= frame < 2 ^ 48 -> frame mod 4096 = 0 ->
  match new_page frame mair flags with
  | None => flags_contains flags WRITE = true /\ flags_contains flags EXECUTE = true
  | Some pte =>
      (flags_contains flags WRITE && flags_contains flags EXECUTE) = false /\
      is_valid pte = true /\ is_table pte = true /\ phys_addr pte = frame /\
      is_writable pte = flags_contains flags WRITE /\ is_user pte = flags_contains flags USER /\
      is_executable pte = flags_contains flags EXECUTE /\
      is_user_executable pte = flags_contains flags EXECUTE && flags_contains flags USER
  end.
Proof.
  intros Hf Ha. unfold new_page. rewrite contains_lor.
  destruct (flags_contains flags WRITE && flags_contains flags EXECUTE) eqn:E; [by apply andb_true_iff|].
  split; [done|]. set (b := frame &&& PHYS_MASK ||| _ ||| _ ||| _ ||| _ ||| _).
  destruct (with_perms_bits b flags) as (Hw & Hx & Hu & Hux & Hm); [subst b; pte_bits; done..|].
  rewrite Hw, Hx, Hu, Hux. unfold is_valid, is_table, phys_addr. rewrite !Hm by reflexivity.
  subst b. split; [|split; [|split; [|done]]].
  - unfold VALID at 2. rewrite query_bit, negb_involutive by lia. by pte_bits.
  - apply (proj2 (flags_contains_spec _ (VALID ||| TABLE))). intros i Hi Hb.
    assert (i = 0 \/ i = 1) as [->| ->]; [|by pte_bits..].
    destruct (decide (i < 2)); [lia|]. change (VALID ||| TABLE) with (Z.ones 2) in Hb.
    by rewrite Z.ones_spec_high in Hb by lia.
  - rewrite land_lor_clear by by apply mair_mask. rewrite !land_lor_clear by reflexivity.
    rewrite <-Z.land_assoc. change (PHYS_MASK &&& PHYS_MASK) with PHYS_MASK. by apply phys_mask_id.
Qed.

(** The descriptors the kernel can build. *)
Inductive pte_made : Z -> Prop :=
| made_page frame mair flags pte : new_page frame mair flags = Some pte -> pte_made pte
| made_block block mair flags pte : new_block_2m block mair flags = Some pte -> pte_made pte
| made_writable pte : pte_made pte -> pte_made (set_writable pte)
| made_executable pte : pte_made pte -> pte_made (set_executable pte).

(** no descriptor built by [new_page] or [new_block_2m] and then changed by
    any sequence of [set_writable] and [set_executable] is both writable and
    executable, at EL1 or at EL0. *)
Theorem write_xor_execute pte :
  pte_made pte -> is_writable pte = true -> is_executable pte = false /\ is_user_executable pte = false.
Proof.
  intros H. destruct H as [frame mair flags pte H|block mair flags pte H|pte H|pte H].
  - unfold new_page in H. rewrite contains_lor in H.
    destruct (flags_contains flags WRITE && _) eqn:E; [done|]. injection H as <-.
    destruct (with_perms_bits (frame &&& PHYS_MASK ||| VALID ||| TABLE ||| AF ||| SH_INNER |||
      Z.shiftl (mair &&& 7) ATTR_IDX_SHIFT) flags) as (Hw & Hx & _ & Hux & _); [pte_bits; done..|].
    rewrite Hw, Hx, Hux. intros Hwr. rewrite Hwr in E. cbn in E. by rewrite E.
  - unfold new_block_2m in H. rewrite contains_lor in H. destruct (negb _); [done|].
    destruct (flags_contains flags WRITE && _) eqn:E; [done|]. injection H as <-.
    destruct (with_perms_bits (block &&& BLOCK_MASK ||| VALID ||| AF ||| SH_INNER |||
      Z.shiftl (mair &&& 7) ATTR_IDX_SHIFT) flags) as (Hw & Hx & _ & Hux & _); [pte_bits; done..|].
    rewrite Hw, Hx, Hux. intros Hwr. rewrite Hwr in E. cbn in E. by rewrite E.
  - intros _. unfold is_executable, is_user_executable, set_writable, PXN, UXN. rewrite !query_bit by lia.
    split; by pte_bits.
  - unfold is_writable, set_executable, AP_RO. rewrite query_bit by lia. by pte_bits.
Qed.

Lemma with_perms_bound pte flags : uint 64 pte -> uint 64 (with_perms pte flags).
Proof.
  intros H. unfold with_perms. repeat case_match; repeat (apply uint_lor; [lia| |done]); done.
Qed.

Lemma new_page_bound frame mair flags pte :
  0 <= frame -> 0 <= mair -> new_page frame mair flags = Some pte -> uint 64 pte.
Proof.
  intros Hf Hm. unfold new_page. case_match; [done|]. intros [= <-]. apply with_perms_bound.
  apply uint_lor; [lia| |].
  - repeat (apply uint_lor; [lia| |done]). by apply uint_land.
  - unfold ATTR_IDX_SHIFT. rewrite Z.shiftl_mul_pow2 by lia.
    assert (uint 3 (mair &&& 7)) as [? ?] by by apply uint_land. unfold uint. change (2 ^ 3) with 8 in *.
    change (2 ^ 2) with 4. lia.
Qed.

Lemma new_page_valid frame mair flags pte : new_page frame mair flags = Some pte -> is_valid pte = true.
Proof.
  unfold new_page. case_match; [done|]. intros [= <-]. set (b := frame &&& PHYS_MASK ||| _ ||| _ ||| _ ||| _ ||| _).
  destruct (with_perms_bits b flags) as (_ & _ & _ & _ & Hm); [subst b; pte_bits; done..|].
  unfold is_valid. rewrite Hm by reflexivity. subst b. unfold VALID at 2. rewrite query_bit, negb_involutive by lia.
  by pte_bits.
Qed.

Lemma va_digits va :
  0 <= va < 2 ^ 48 ->
  0 <= l0_index va < 512 /\ 0 <= l1_index va < 512 /\ 0 <= l2_index va < 512 /\ 0 <= l3_index va < 512 /\
  va = l0_index va * 2 ^ 39 + l1_index va * 2 ^ 30 + l2_index va * 2 ^ 21 + l3_index va * 2 ^ 12 + va mod 4096.
Proof.
  intros Hva. unfold l0_index, l1_index, l2_index, l3_index. change 0x1FF with (2 ^ 9 - 1).
  rewrite !land_ones_mod, !Z.shiftr_div_pow2 by lia.
  change (2 ^ 48) with 281474976710656 in Hva. change (2 ^ 39) with 549755813888. change (2 ^ 30) with 1073741824.
  change (2 ^ 21) with 2097152. change (2 ^ 12) with 4096. change (2 ^ 9) with 512. divlia.
Qed.

(** A table descriptor leads back to its page. *)
Lemma new_table_spec p :
  0 <= p < 2 ^ 48 -> p mod 4096 = 0 ->
  is_table (new_table p) = true /\ table_addr (new_table p) = p /\ 0 < new_table p < 2 ^ 64.
Proof.
  intros Hp Ha. assert (Hn : new_table p = p ||| 3).
  { unfold new_table. rewrite phys_mask_id, <-Z.lor_assoc by done. done. }
  assert (Hadd : p ||| 3 = p + 3).
  { symmetry. rewrite <-Z.lxor_lor, <-Z.add_nocarry_lxor; [done|..];
      (change 3 with (2 ^ 2 - 1); rewrite land_ones_mod by lia; change (2 ^ 2) with 4; divlia). }
  split; [|split].
  - apply (proj2 (flags_contains_spec _ (VALID ||| TABLE))). intros i Hi Hb. rewrite Hn, Z.lor_spec.
    change (VALID ||| TABLE) with 3 in Hb. rewrite Hb. apply orb_true_r.
  - unfold table_addr, phys_addr. rewrite Hn, land_lor_clear by reflexivity. by apply phys_mask_id.
  - rewrite Hn, Hadd. lia.
Qed.

(** The four table indices and the page offset are the digits of a 48-bit
    virtual address, so an address is determined by them. *)
Theorem va_indices_exact va :
  0 <= va < 2 ^ 48 ->
  0 <= l0_index va < 512 /\ 0 <= l1_index va < 512 /\ 0 <= l2_index va < 512 /\ 0 <= l3_index va < 512 /\
  va = l0_index va * 2 ^ 39 + l1_index va * 2 ^ 30 + l2_index va * 2 ^ 21 + l3_index va * 2 ^ 12 + va mod 4096.
Proof. apply va_digits. Qed.

(** ** Witnesses *)

Lemma asid_safe_witness : asid_value (asid_nth 0).1 <> asid_value (asid_nth 1).1.
Proof.
  pose proof (asid_safe 2 0 1) as H. rewrite !asid_nth_eq in H |- *.
  destruct H as (_ & H & _); [vm_compute; reflexivity|lia|]. apply H; rewrite asid_state_eq; vm_compute; reflexivity.
Defined.

Lemma new_page_exact_witness :
  exists pte, new_page 0x40080000 3 (READ ||| EXECUTE ||| USER) = Some pte /\
    phys_addr pte = 0x40080000 /\ is_writable pte = false /\ is_executable pte = true /\
    is_user_executable pte = true.
Proof.
  pose proof (new_page_exact 0x40080000 3 (READ ||| EXECUTE ||| USER)) as H.
  destruct (new_page 0x40080000 3 (READ ||| EXECUTE ||| USER)) as [pte|] eqn:E; [|discriminate E].
  destruct H as (_ & _ & _ & H1 & H2 & _ & H3 & H4); [lia|reflexivity|]. exists pte.
  split; [reflexivity|]. split; [exact H1|]. split; [exact H2|]. split; [exact H3|exact H4].
Defined.

Lemma write_xor_execute_witness :
  exists pte, new_page 0x40080000 3 (READ ||| WRITE) = Some pte /\ is_writable pte = true /\
    is_executable pte = false /\ is_user_executable pte = false.
Proof.
  destruct (new_page 0x40080000 3 (READ ||| WRITE)) as [pte|] eqn:E; [|discriminate E]. exists pte.
  assert (Hw : is_writable pte = true) by (injection E as <-; reflexivity).
  split; [reflexivity|]. split; [exact Hw|]. exact (write_xor_execute pte (made_page _ _ _ _ E) Hw).
Defined.

Lemma va_indices_exact_witness :
  0x123456789ABC = l0_index 0x123456789ABC * 2 ^ 39 + l1_index 0x123456789ABC * 2 ^ 30 +
    l2_index 0x123456789ABC * 2 ^ 21 + l3_index 0x123456789ABC * 2 ^ 12 + 0x123456789ABC mod 4096.
Proof. destruct (va_indices_exact 0x123456789ABC) as (_ & _ & _ & _ & H); [lia|exact H]. Defined.
