(* ===== verification/PageTables.v ===== *)
(** * Page tables (shared by kernel/src/mm/uspace.rs and kmap.rs)

    Four-level aarch64 page tables whose tables are pages of physical memory:
    the walk of the translation hardware, the forest of tables that the kernel
    keeps, and what installing a table or writing a descriptor does to every
    translation.  The page allocator is an interface, [PageSource], so the
    theorems hold for every allocator that keeps its promises; the frame
    allocator of [Pools] is shown to be one.  A failed assertion and an
    [expect] on an empty pool are [None]. *)

From S2P Require Import Prelude PhysMem Abi Memory Buddy BuddyInv BuddyInit BuddySystem Pools Paging.

(** ** The page allocator as its clients see it *)

Class PageSource (St : Type) := {
  ps_mem : St -> mem;
  ps_set : St -> mem -> St;
  ps_alloc : St -> option Z * St
}.

Definition page_ok (p : Z) : Prop := p mod 4096 = 0 /\ 0 < p /\ p + 4096 <= 2 ^ 48.
Definition in_page (p x : Z) : Prop := p <= x < p + 4096.
Definition in_pages (ps : list Z) (x : Z) : Prop := exists p, p ∈ ps /\ in_page p x.

(** A page it hands out is new, what the client holds keeps its content, and
    the client may write to the pages it holds. *)
Class PageSourceSpec (St : Type) `{PageSource St} := {
  ps_ok : St -> list Z -> Prop;
  ps_ok_mem st ps : ps_ok st ps -> mem_ok (ps_mem st);
  ps_ok_nodup st ps : ps_ok st ps -> NoDup ps;
  ps_ok_pages st ps : ps_ok st ps -> Forall page_ok ps;
  ps_alloc_ok st ps p st' : ps_ok st ps -> ps_alloc st = (Some p, st') ->
    ps_ok st' (p :: ps) /\ forall x, in_pages ps x -> ps_mem st' x = ps_mem st x;
  ps_set_ok st ps m' : ps_ok st ps -> mem_ok m' -> only (in_pages ps) (ps_mem st) m' -> ps_ok (ps_set st m') ps;
  ps_set_mem st m' : ps_mem (ps_set st m') = m'
}.

(** ** Operations *)

(** Entry [index] of the table at [table_phys]. *)
Definition entry_at (table_phys index : Z) : Z := table_phys + index * 8.
Definition entry (m : mem) (table_phys index : Z) : Z := load64 m (entry_at table_phys index).

Section operations.
Context {St : Type} `{PageSource St}.

Definition ensure_table_dmap (st : St) (table_phys index : Z) : option (Z * St) :=
  let raw := entry (ps_mem st) table_phys index in
  if negb (raw =? 0) then
    if Z.land raw (Z.lor VALID TABLE) =? Z.lor VALID TABLE then Some (Z.land raw PHYS_MASK, st) else None
  else
    match ps_alloc st with
    | (None, _) => None
    | (Some new_page, st1) =>
        let m1 := write_bytes (ps_mem st1) new_page 0 4096 in
        let m2 := store64 m1 (entry_at table_phys index) (new_table new_page) in
        Some (new_page, ps_set st1 m2)
    end.

(** A chain of lookups, one table per index. *)
Fixpoint ensure_path (st : St) (p : Z) (path : list Z) : option (Z * St) :=
  match path with
  | [] => Some (p, st)
  | i :: path' => '(q, st') ← ensure_table_dmap st p i; ensure_path st' q path'
  end.

Definition map_page_dmap (st : St) (pgd va pa mair_idx flags : Z) : option St :=
  '(l1, st) ← ensure_table_dmap st pgd (l0_index va);
  '(l2, st) ← ensure_table_dmap st l1 (l1_index va);
  '(l3, st) ← ensure_table_dmap st l2 (l2_index va);
  pte ← new_page pa mair_idx flags;
  Some (ps_set st (store64 (ps_mem st) (entry_at l3 (l3_index va)) pte)).

(** The chain of lookups of [map_page_dmap] as one path. *)
Lemma map_page_path st pgd va pa mair_idx flags :
  map_page_dmap st pgd va pa mair_idx flags =
  '(l3, st') ← ensure_path st pgd [l0_index va; l1_index va; l2_index va];
  pte ← new_page pa mair_idx flags;
  Some (ps_set st' (store64 (ps_mem st') (entry_at l3 (l3_index va)) pte)).
Proof.
  unfold map_page_dmap. cbn [ensure_path]. destruct (ensure_table_dmap st _ _) as [[l1 st1]|]; [|done].
  cbn [mbind option_bind]. destruct (ensure_table_dmap st1 _ _) as [[l2 st2]|]; [|done].
  cbn [mbind option_bind]. by destruct (ensure_table_dmap st2 _ _) as [[l3 st3]|].
Qed.
End operations.

(** ** The hardware walk *)

(** A descriptor found before the end of the path is a block; [rest] is the part
    of the path that it does not look at. *)
Definition leaf (e : Z) (rest : list Z) : option (Z * list Z) := if is_valid e then Some (e, rest) else None.

Fixpoint walk (m : mem) (p : Z) (path : list Z) : option (Z * list Z) :=
  match path with
  | [] => None
  | [i] => leaf (entry m p i) []
  | i :: path' => let e := entry m p i in if is_table e then walk m (table_addr e) path' else leaf e path'
  end.

Definition va_path (va : Z) : list Z := [l0_index va; l1_index va; l2_index va; l3_index va].

(** The descriptor that maps [va], if any. *)
Definition translate (m : mem) (pgd va : Z) : option (Z * list Z) := walk m pgd (va_path va).

(** ** Entries *)

Definition index_ok (i : Z) : Prop := 0 <= i < 512.

Lemma entry_store_eq m p i v : 0 <= v < 2 ^ 64 -> entry (store64 m (entry_at p i) v) p i = v.
Proof. intros. by apply load_store_eq. Qed.

Lemma entry_store_ne m p i v p' i' :
  p mod 4096 = 0 -> p' mod 4096 = 0 -> index_ok i -> index_ok i' -> (p', i') <> (p, i) ->
  entry (store64 m (entry_at p i) v) p' i' = entry m p' i'.
Proof.
  intros Hp Hp' Hi Hi' Hne. apply load_store_ne. change (Z.of_nat 8) with 8. unfold entry_at, index_ok in *.
  destruct (decide (p = p')) as [<-|].
  - destruct (decide (i = i')) as [<-|]; [done|]. lia.
  - assert (p + 4096 <= p' \/ p' + 4096 <= p) by divlia. lia.
Qed.

Lemma entry_ext m m' p i :
  index_ok i -> (forall x, in_page p x -> m' x = m x) -> entry m' p i = entry m p i.
Proof.
  intros Hi H. apply load_ext. intros x Hx. apply H. change (Z.of_nat 8) with 8 in Hx.
  unfold in_page, entry_at, index_ok in *. lia.
Qed.

Lemma entry_zero m p i : index_ok i -> entry (write_bytes m p 0 4096) p i = 0.
Proof.
  intros Hi. unfold entry, load64, load.
  assert (Hz : load_bytes (write_bytes m p 0 4096) (entry_at p i) 8 = replicate 8 0); [|by rewrite Hz].
  apply list_eq. intros j. unfold load_bytes. rewrite list_lookup_fmap.
  destruct (decide (j < 8)%nat) as [Hj|Hj].
  - rewrite lookup_seq_lt, lookup_replicate_2 by done. cbn [fmap option_fmap option_map]. f_equal.
    unfold write_bytes, entry_at, index_ok in *.
    destruct (Z.leb_spec p (p + i * 8 + Z.of_nat (0 + j))), (Z.ltb_spec (p + i * 8 + Z.of_nat (0 + j)) (p + 4096));
      try done; lia.
  - rewrite lookup_seq_ge by lia. symmetry. apply lookup_ge_None. rewrite length_replicate. lia.
Qed.

Lemma entry_bound m p i : mem_ok m -> 0 <= entry m p i < 2 ^ 64.
Proof. apply load_bound. Qed.

(** ** Paths *)

(** The table at the end of a path. *)
Fixpoint reach (m : mem) (p : Z) (path : list Z) : option Z :=
  match path with
  | [] => Some p
  | i :: path' => let e := entry m p i in if is_table e then reach m (table_addr e) path' else None
  end.

Lemma reach_snoc m p path i q :
  reach m p (path ++ [i]) = Some q <->
  exists r, reach m p path = Some r /\ is_table (entry m r i) = true /\ table_addr (entry m r i) = q.
Proof.
  revert p. induction path as [|j path IH]; intros p; cbn [reach app].
  - destruct (is_table (entry m p i)) eqn:E; split.
    + intros [= <-]. by exists p.
    + by intros (r & [= <-] & _ & <-).
    + done.
    + intros (r & [= <-] & Htab & _). congruence.
  - destruct (is_table (entry m p j)); [apply IH|]. split; [done|]. by intros (r & ? & _).
Qed.

Lemma walk_cons m p i path :
  path <> [] -> walk m p (i :: path) =
  if is_table (entry m p i) then walk m (table_addr (entry m p i)) path else leaf (entry m p i) path.
Proof. by destruct path. Qed.

Lemma walk_reach m p a q b : reach m p a = Some q -> b <> [] -> walk m p (a ++ b) = walk m q b.
Proof.
  revert p. induction a as [|i a IH]; intros p Hr Hb; [by injection Hr as ->|]. cbn [reach app] in *.
  rewrite walk_cons by (by destruct a). destruct (is_table (entry m p i)); [by apply IH|done].
Qed.

Lemma table_nonzero e : is_table e = true -> e <> 0.
Proof. by intros H ->. Qed.

(** ** Page table trees *)

(** [T] lists the tables with their level: 3 for a root, 0 for the tables of
    page descriptors.  No two entries lead to the same table.  With [B], the
    tables of level 1 may hold block descriptors. *)
Record tree (B : bool) (m : mem) (T : list (Z * nat)) : Prop := {
  tr_kind : forall p d i, (p, S d) ∈ T -> index_ok i -> entry m p i <> 0 ->
    is_table (entry m p i) = true \/ (B = true /\ d = 0%nat);
  tr_child : forall p d i, (p, S d) ∈ T -> index_ok i -> is_table (entry m p i) = true ->
    (table_addr (entry m p i), d) ∈ T;
  tr_unique : forall p d i p' d' i', (p, S d) ∈ T -> (p', S d') ∈ T -> index_ok i -> index_ok i' ->
    is_table (entry m p i) = true -> is_table (entry m p' i') = true ->
    table_addr (entry m p i) = table_addr (entry m p' i') -> p = p' /\ i = i'
}.

Lemma tree_blocks B m T : tree B m T -> tree true m T.
Proof. intros []. constructor; [|done..]. intros. destruct (tr_kind0 p d i) as [|[_ ?]]; auto. Qed.

Lemma reach_level B m T p path d q :
  tree B m T -> (p, d + length path)%nat ∈ T -> Forall index_ok path -> reach m p path = Some q -> (q, d) ∈ T.
Proof.
  intros Ht. revert p. induction path as [|i path IH]; intros p Hp Hpath; cbn [reach].
  { intros [= <-]. by rewrite Nat.add_0_r in Hp. }
  apply Forall_cons in Hpath as [Hi Hpath]. destruct (is_table (entry m p i)) eqn:E; [|done].
  intros Hr. cbn in Hp. rewrite Nat.add_succ_r in Hp. apply (IH (table_addr (entry m p i))); [|done|done].
  by apply (tr_child _ _ _ Ht).
Qed.

(** Paths of the same length from tables of the same level lead to different
    tables unless they are the same path from the same table. *)
Lemma reach_inj B m T p p' d path path' q :
  tree B m T -> (p, d + length path)%nat ∈ T -> (p', d + length path')%nat ∈ T -> length path = length path' ->
  Forall index_ok path -> Forall index_ok path' ->
  reach m p path = Some q -> reach m p' path' = Some q -> p = p' /\ path = path'.
Proof.
  intros Ht. revert d path' q. induction path as [|i path IH] using rev_ind; intros d path' q Hp Hp' Hlen Hi Hi' Hr Hr'.
  { destruct path'; cbn in *; naive_solver. }
  destruct path' as [|i' path' _] using rev_ind; [by rewrite length_app in Hlen; cbn in Hlen; lia|].
  rewrite !length_app in Hlen. cbn in Hlen. rewrite length_app, Nat.add_assoc in Hp, Hp'. cbn in Hp, Hp'.
  apply Forall_app in Hi as [Hpath [Hi _]%Forall_cons], Hi' as [Hpath' [Hi' _]%Forall_cons].
  apply reach_snoc in Hr as (r & Hr & Hne & Eq), Hr' as (r' & Hr' & Hne' & Eq').
  rewrite Nat.add_1_r in Hp, Hp'. change (S (d + ?n)) with (S d + n)%nat in *.
  pose proof (reach_level _ _ _ _ _ _ _ Ht Hp Hpath Hr) as Hl.
  pose proof (reach_level _ _ _ _ _ _ _ Ht Hp' Hpath' Hr') as Hl'.
  destruct (tr_unique _ _ _ Ht _ _ _ _ _ _ Hl Hl' Hi Hi' Hne Hne') as [-> ->]; [congruence|].
  destruct (IH (S d) path' r') as [-> ->]; (done || lia).
Qed.

Lemma level_unique (T : list (Z * nat)) p d d' :
  NoDup T.*1 -> (p, d) ∈ T -> (p, d') ∈ T -> d = d'.
Proof.
  induction T as [|[q k] T IH]; cbn; [set_solver|]. intros [Hq Hnd]%NoDup_cons [Hd|Hd]%elem_of_cons [Hd'|Hd']%elem_of_cons;
    simplify_eq; [done| | |auto].
  - destruct Hq. by apply (list_elem_of_fmap_2 fst) in Hd'.
  - destruct Hq. by apply (list_elem_of_fmap_2 fst) in Hd.
Qed.

Lemma walk_keep B m' m T (Ht : tree B m T)
    (Hold : forall r k j, (r, k) ∈ T -> index_ok j -> entry m' r j = entry m r j) r k path :
  (r, k) ∈ T -> length path = S k -> Forall index_ok path -> walk m' r path = walk m r path.
Proof.
  revert r k. induction path as [|i path IH]; intros r k Hr Hl Hpath; [done|].
  apply Forall_cons in Hpath as [Hi Hpath]. destruct path as [|i' path]; [cbn; by rewrite (Hold r k)|].
  rewrite (walk_cons m' r), (walk_cons m r), (Hold r k) by done. destruct (is_table (entry m r i)) eqn:E; [|done].
  destruct k as [|k]; [cbn in Hl; lia|]. apply (IH _ k); [|cbn in Hl |- *; lia|done]. by apply (tr_child _ _ _ Ht).
Qed.

(** *** Installing a table *)

(** [m'] extends the tree of [m] by an empty table at the empty slot [p, i]. *)
Record extended (m m' : mem) (T : list (Z * nat)) (p i np : Z) : Prop := {
  ex_old : forall r k j, (r, k) ∈ T -> index_ok j -> (r, j) <> (p, i) -> entry m' r j = entry m r j;
  ex_slot : entry m' p i = new_table np;
  ex_new : forall j, index_ok j -> entry m' np j = 0
}.

Section extension.
Context (B : bool) (m m' : mem) (T : list (Z * nat)) (p i np : Z) (d : nat).
Context (Ht : tree B m T) (Hnd : NoDup (np :: T.*1)) (Hnp : page_ok np) (Hp : (p, S d) ∈ T) (Hi : index_ok i).
Context (Hz : entry m p i = 0) (Hex : extended m m' T p i np).

Lemma extended_not_in k : (np, k) ∉ T.
Proof using Hnd. intros Hin%(list_elem_of_fmap_2 fst). apply NoDup_cons in Hnd as [? _]. done. Qed.

Lemma extended_slot : is_table (entry m' p i) = true /\ table_addr (entry m' p i) = np.
Proof using Hnp Hex.
  rewrite (ex_slot _ _ _ _ _ _ Hex). destruct Hnp as (? & ? & ?).
  destruct (new_table_spec np) as (? & ? & ?); [lia|done|]. by split.
Qed.

Lemma extended_tree : tree B m' ((np, d) :: T).
Proof using All.
  pose proof extended_slot as (Hs1 & Hs2). assert (Hnd' : NoDup T.*1) by by apply NoDup_cons in Hnd as [_ ?].
  assert (Hnew : forall j, index_ok j -> is_table (entry m' np j) = false)
    by (intros; by rewrite (ex_new _ _ _ _ _ _ Hex)).
  assert (Hout : forall r k j, (r, S k) ∈ T -> index_ok j -> is_table (entry m' r j) = true ->
    (r, j) <> (p, i) -> table_addr (entry m' r j) <> np).
  { intros r k j Hr Hj. intros Htab Hne Heq. rewrite (ex_old _ _ _ _ _ _ Hex r (S k)) in * by done.
    pose proof (tr_child _ _ _ Ht r k j Hr Hj Htab) as Hin. rewrite Heq in Hin. by destruct (extended_not_in k). }
  constructor.
  - intros r k j [[= -> _]|Hr]%elem_of_cons Hj Hne; [by rewrite (ex_new _ _ _ _ _ _ Hex) in Hne|].
    destruct (decide ((r, j) = (p, i))) as [[= -> ->]|Hrp]; [by left|].
    rewrite (ex_old _ _ _ _ _ _ Hex r (S k)) in * by done. by apply (tr_kind _ _ _ Ht r k j).
  - intros r k j [[= -> _]|Hr]%elem_of_cons Hj Hne; [by rewrite Hnew in Hne|]. apply elem_of_cons.
    destruct (decide ((r, j) = (p, i))) as [[= -> ->]|Hrp].
    + left. rewrite Hs2. assert (S k = S d) as [= ->] by by eapply level_unique. done.
    + right. rewrite (ex_old _ _ _ _ _ _ Hex r (S k)) in * by done. by apply (tr_child _ _ _ Ht).
  - intros r k j r' k' j' [[= -> _]|Hr]%elem_of_cons [[= -> _]|Hr']%elem_of_cons Hj Hj' Hne Hne' Heq;
      [by rewrite Hnew in Hne..|by rewrite Hnew in Hne'|].
    destruct (decide ((r, j) = (p, i))) as [[= -> ->]|Hrp], (decide ((r', j') = (p, i))) as [[= -> ->]|Hrp']; [done|..].
    + rewrite Hs2 in Heq. by destruct (Hout r' k' j').
    + rewrite Hs2 in Heq. by destruct (Hout r k j).
    + rewrite (ex_old _ _ _ _ _ _ Hex r (S k)), (ex_old _ _ _ _ _ _ Hex r' (S k')) in * by done.
      by eapply (tr_unique _ _ _ Ht).
Qed.

Lemma extended_walk r k path :
  (r, k) ∈ T -> length path = S k -> Forall index_ok path -> walk m' r path = walk m r path.
Proof using All.
  pose proof extended_slot as (Hs1 & Hs2). assert (Hnd' : NoDup T.*1) by by apply NoDup_cons in Hnd as [_ ?].
  revert r k. induction path as [|a path IH]; intros r k Hr Hl Hpath; [done|].
  apply Forall_cons in Hpath as [Ha Hpath]. destruct path as [|b path].
  { cbn. f_equal. apply (ex_old _ _ _ _ _ _ Hex r k); [done|done|]. intros [= -> ->].
    pose proof (level_unique _ _ _ _ Hnd' Hr Hp). cbn in Hl. lia. }
  rewrite (walk_cons m' r), (walk_cons m r) by done. destruct k as [|k]; [cbn in Hl; lia|].
  destruct (decide ((r, a) = (p, i))) as [[= -> ->]|Hne].
  - rewrite Hz, Hs1, Hs2. cbn [is_table]. apply Forall_cons in Hpath as [Hb _].
    assert (Hnb : entry m' np b = 0) by by apply (ex_new _ _ _ _ _ _ Hex).
    destruct path; [cbn; by rewrite Hnb|]. rewrite walk_cons by done. by rewrite Hnb.
  - rewrite (ex_old _ _ _ _ _ _ Hex r (S k)) by done.
    destruct (is_table (entry m r a)) eqn:E; [|done]. apply (IH _ k); [|cbn in Hl |- *; lia|done].
    by apply (tr_child _ _ _ Ht).
Qed.
End extension.

(** *** Writing a descriptor *)

Section store.
Context (B : bool) (m : mem) (T : list (Z * nat)) (Ht : tree B m T) (Hnd : NoDup T.*1).
Context (Hpages : forall p d, (p, d) ∈ T -> p mod 4096 = 0).
Context (q : Z) (d : nat) (j v : Z) (Hq : (q, d) ∈ T) (Hj : index_ok j) (Hv : 0 <= v < 2 ^ 64).
Context (Hkind : d = 0%nat \/ (B = true /\ d = 1%nat /\ is_table v = false)).
Abbreviation m' := (store64 m (entry_at q j) v).

Lemma stored_other r k i : (r, k) ∈ T -> index_ok i -> (r, i) <> (q, j) -> entry m' r i = entry m r i.
Proof using All. intros Hr Hi Hne. apply entry_store_ne; try done; by eapply Hpages. Qed.

Lemma stored_above r k i : (r, k) ∈ T -> (d < k)%nat -> index_ok i -> entry m' r i = entry m r i.
Proof using All.
  intros Hr Hk Hi. apply (stored_other r k); [done|done|]. intros [= -> ->].
  pose proof (level_unique _ _ _ _ Hnd Hr Hq). lia.
Qed.

(** An entry above the page descriptors is the new block or an old entry. *)
Lemma stored_upper r k i :
  (r, S k) ∈ T -> index_ok i ->
  (is_table (entry m' r i) = false /\ B = true /\ k = 0%nat) \/ entry m' r i = entry m r i.
Proof using All.
  intros Hr Hi. destruct (decide ((r, i) = (q, j))) as [[= -> ->]|Hne]; [|right; by apply (stored_other r (S k))].
  pose proof (level_unique _ _ _ _ Hnd Hr Hq) as Hl. destruct Hkind as [|(HB & Hd & Hb)]; [lia|].
  left. rewrite entry_store_eq by done. split_and!; [done|done|lia].
Qed.

Lemma stored_tree : tree B m' T.
Proof using All.
  constructor.
  - intros p k i Hp Hi Hne. destruct (stored_upper p k i Hp Hi) as [(_ & ? & ?)|E]; [by right|].
    rewrite E in *. by apply (tr_kind _ _ _ Ht).
  - intros p k i Hp Hi Htab. destruct (stored_upper p k i Hp Hi) as [(? & _)|E]; [congruence|].
    rewrite E in *. by apply (tr_child _ _ _ Ht).
  - intros p k i p' k' i' Hp Hp' Hi Hi' Htab Htab'.
    destruct (stored_upper p k i Hp Hi) as [(? & _)|E]; [congruence|].
    destruct (stored_upper p' k' i' Hp' Hi') as [(? & _)|E']; [congruence|].
    rewrite E, E' in *. by apply (tr_unique _ _ _ Ht _ k _ _ k').
Qed.

Lemma stored_reach r a : (r, d + length a)%nat ∈ T -> Forall index_ok a -> reach m' r a = reach m r a.
Proof using All.
  revert r. induction a as [|i a IH]; intros r Hr Ha; [done|]. cbn [reach length] in *.
  apply Forall_cons in Ha as [Hi Ha]. rewrite (stored_above r (d + S (length a))) by (done || lia).
  destruct (is_table (entry m r i)) eqn:E; [|done]. apply IH; [|done].
  rewrite Nat.add_succ_r in Hr. by apply (tr_child _ _ _ Ht).
Qed.

Lemma stored_walk_here r a rest :
  (r, d + length a)%nat ∈ T -> Forall index_ok a -> reach m r a = Some q -> length rest = d ->
  walk m' r (a ++ j :: rest) = leaf v rest.
Proof using All.
  intros Hr Ha Hreach Hrest. rewrite (walk_reach _ _ a q); [|by rewrite stored_reach|done].
  destruct rest as [|x rest]; [cbn; by rewrite entry_store_eq|]. cbn in Hrest.
  destruct Hkind as [|(_ & _ & Hb)]; [lia|]. rewrite walk_cons, entry_store_eq by done. by rewrite Hb.
Qed.

Lemma stored_walk_other r k path :
  (r, k) ∈ T -> length path = S k -> Forall index_ok path ->
  (forall a b, path = a ++ j :: b -> reach m r a <> Some q) -> walk m' r path = walk m r path.
Proof using All.
  revert r k. induction path as [|i path IH]; intros r k Hr Hl Hpath Hno; [done|].
  apply Forall_cons in Hpath as [Hi Hpath].
  assert (He : entry m' r i = entry m r i).
  { apply (stored_other r k); [done|done|]. intros [= -> ->]. by apply (Hno [] path). }
  destruct path as [|b path]; [cbn; by rewrite He|]. rewrite (walk_cons m' r), (walk_cons m r), He by done.
  destruct (is_table (entry m r i)) eqn:E; [|done]. destruct k as [|k]; [cbn in Hl; lia|].
  apply (IH _ k); [by apply (tr_child _ _ _ Ht)|cbn in Hl |- *; lia|done|].
  intros a' b' Ep Hreach. apply (Hno (i :: a') b'); [by rewrite Ep|]. cbn [reach]. by rewrite E.
Qed.
End store.

(** ** Forests of tables held from the allocator *)

Section spaces.
Context {St : Type} {PS : PageSource St} {PSS : PageSourceSpec St} (B : bool).

Definition space_ok (st : St) (T : list (Z * nat)) : Prop :=
  ps_ok st T.*1 /\ tree B (ps_mem st) T.

Lemma table_page_ok st T p d : space_ok st T -> (p, d) ∈ T -> page_ok p.
Proof.
  intros [Hok _] Hin%(list_elem_of_fmap_2 fst). pose proof (ps_ok_pages _ _ Hok) as Hp.
  rewrite Forall_forall in Hp. by apply Hp.
Qed.

(** What filling in tables does for the tables that were there. *)
Record grown (st : St) (T : list (Z * nat)) (st' : St) (T' : list (Z * nat)) : Prop := {
  gr_ok : space_ok st' T';
  gr_sub : forall p d, (p, d) ∈ T -> (p, d) ∈ T';
  gr_keep : forall r k j, (r, k) ∈ T -> index_ok j -> entry (ps_mem st) r j <> 0 ->
    entry (ps_mem st') r j = entry (ps_mem st) r j;
  gr_walk : forall r k path, (r, k) ∈ T -> length path = S k -> Forall index_ok path ->
    walk (ps_mem st') r path = walk (ps_mem st) r path
}.

Lemma grown_refl st T : space_ok st T -> grown st T st T.
Proof. by constructor. Qed.

Lemma grown_trans st1 T1 st2 T2 st3 T3 : grown st1 T1 st2 T2 -> grown st2 T2 st3 T3 -> grown st1 T1 st3 T3.
Proof.
  intros [] []. constructor; [done|auto| |].
  - intros r k j Hr Hj Hne. rewrite (gr_keep1 r k), (gr_keep0 r k); try done; [auto|]. by rewrite (gr_keep0 r k).
  - intros r k path Hr Hl Hp. rewrite (gr_walk1 r k); eauto.
Qed.

Lemma alloc_extended st T p d i np st1 :
  space_ok st T -> (p, S d) ∈ T -> index_ok i -> ps_alloc st = (Some np, st1) ->
  let m' := store64 (write_bytes (ps_mem st1) np 0 4096) (entry_at p i) (new_table np) in
  page_ok np /\ NoDup (np :: T.*1) /\ extended (ps_mem st) m' T p i np /\ ps_ok (ps_set st1 m') (np :: T.*1).
Proof.
  intros Hsp Hp Hi Ha m'. pose proof Hsp as [Hok Ht]. destruct (ps_alloc_ok _ _ _ _ Hok Ha) as [Hok1 Hsame].
  pose proof (ps_ok_pages _ _ Hok1) as [Hnp _]%Forall_cons. pose proof (ps_ok_nodup _ _ Hok1) as Hnd.
  assert (Hpp : page_ok p) by by eapply table_page_ok. pose proof Hnp as (Hn1 & Hn2 & Hn3). pose proof Hpp as (Hp1 & _).
  assert (Hne : p <> np).
  { intros ->. apply NoDup_cons in Hnd as [Hn _]. apply Hn. by apply (list_elem_of_fmap_2 fst) in Hp. }
  split_and!; [done..| |].
  - constructor.
    + intros r k j Hr Hj Hrp. assert (Hrr : page_ok r) by by eapply table_page_ok. destruct Hrr as (Hr1 & _).
      subst m'. rewrite entry_store_ne by done. apply entry_ext; [done|]. intros x Hx.
      assert (Hrin : r ∈ T.*1) by by apply (list_elem_of_fmap_2 fst) in Hr.
      rewrite <-Hsame by by exists r. apply only_write_bytes. apply NoDup_cons in Hnd as [Hn _].
      assert (r <> np) by by intros ->. unfold in_page in Hx. divlia.
    + subst m'. destruct (new_table_spec np) as (_ & _ & ?); [lia|done|]. apply entry_store_eq. lia.
    + intros j Hj. subst m'. rewrite entry_store_ne; [by apply entry_zero|done..|congruence].
  - apply ps_set_ok; [done| |].
    + apply store_mem_ok. intros x. unfold write_bytes. case_match; [done|]. by apply (ps_ok_mem _ _ Hok1).
    + eapply only_trans; eapply only_mono; [|apply only_write_bytes| |apply only_store]; cbv beta; intros x Hx.
      * exists np. split; [set_solver|exact Hx].
      * exists p. split; [apply elem_of_cons; right; by apply (list_elem_of_fmap_2 fst) in Hp|].
        change (Z.of_nat 8) with 8 in Hx. unfold in_page, entry_at, index_ok in *. lia.
Qed.

(** Where no block can be, the lookup fails only when the allocator does. *)
Lemma ensure_spec st T p d i :
  space_ok st T -> (p, S d) ∈ T -> index_ok i -> (B = false \/ d <> 0%nat) ->
  match ensure_table_dmap st p i with
  | None => (ps_alloc st).1 = None
  | Some (q, st') => exists T', grown st T st' T' /\ (q, d) ∈ T' /\
      is_table (entry (ps_mem st') p i) = true /\ table_addr (entry (ps_mem st') p i) = q
  end.
Proof.
  intros Hsp Hp Hi Hd. pose proof Hsp as [Hok Ht]. unfold ensure_table_dmap.
  destruct (Z.eqb_spec (entry (ps_mem st) p i) 0) as [Hz|Hne]; cbn [negb].
  - destruct (ps_alloc st) as [[np|] st1] eqn:Ha; [|done].
    destruct (alloc_extended st T p d i np st1 Hsp Hp Hi Ha) as (Hnp & Hnd & Hex & Hok').
    set (m' := store64 _ _ _) in *. exists ((np, d) :: T). rewrite ps_set_mem.
    destruct (extended_slot _ _ _ _ _ _ Hnp Hex) as (Hs1 & Hs2). split_and!; [|set_solver|done|done].
    constructor; rewrite ?ps_set_mem.
    + split; [done|]. rewrite ps_set_mem. by apply (extended_tree B (ps_mem st) m' T p i np d).
    + set_solver.
    + intros r k j Hr Hj Hrj. apply (ex_old _ _ _ _ _ _ Hex r k); [done|done|]. congruence.
    + intros r k path Hr Hl Hpath. by apply (extended_walk B (ps_mem st) m' T p i np d Ht Hnd Hnp Hp Hi Hz Hex r k).
  - destruct (tr_kind _ _ _ Ht p d i Hp Hi Hne) as [Htab|[HB H0]]; [|destruct Hd; congruence].
    pose proof (tr_child _ _ _ Ht p d i Hp Hi Htab) as Hin. pose proof Htab as Htab'. unfold is_table in Htab'.
    rewrite Htab'. exists T. split_and!; [by apply grown_refl|exact Hin|done|done].
Qed.

Lemma ensure_path_spec st T p path d :
  space_ok st T -> (p, d + length path)%nat ∈ T -> Forall index_ok path -> (B = false \/ d <> 0%nat) ->
  match ensure_path st p path with
  | None => exists st1 T1, grown st T st1 T1 /\ (ps_alloc st1).1 = None
  | Some (q, st') => exists T', grown st T st' T' /\ (q, d) ∈ T' /\ reach (ps_mem st') p path = Some q
  end.
Proof.
  intros Hsp Hp Hpath Hd. revert st T p Hsp Hp. induction path as [|i path IH]; intros st T p Hsp Hp; cbn [ensure_path].
  { exists T. rewrite Nat.add_0_r in Hp. split; [by apply grown_refl|done]. }
  apply Forall_cons in Hpath as [Hi Hpath]. cbn in Hp. rewrite Nat.add_succ_r in Hp.
  pose proof (ensure_spec st T p (d + length path) i Hsp Hp Hi ltac:(destruct Hd; [by left|right; lia])) as E.
  destruct (ensure_table_dmap st p i) as [[q st1]|]; cbn [mbind option_bind];
    [|exists st, T; split; [by apply grown_refl|exact E]].
  destruct E as (T1 & G1 & Hq & Htab & Ha). specialize (IH Hpath st1 T1 q (gr_ok _ _ _ _ G1) Hq).
  destruct (ensure_path st1 q path) as [[r st2]|].
  - destruct IH as (T2 & G2 & Hr & Hreach). exists T2. split_and!; [by eapply grown_trans|done|]. cbn [reach].
    rewrite (gr_keep _ _ _ _ G2 p (S (d + length path))); [by rewrite Htab, Ha|by apply (gr_sub _ _ _ _ G1)|done|].
    by apply table_nonzero.
  - destruct IH as (st2 & T2 & G2 & Hn). exists st2, T2. split; [by eapply grown_trans|done].
Qed.

(** Writing a descriptor into the table at the end of a path: a page
    descriptor, or a block where blocks may be. *)
Lemma put_spec st T root a q d j v :
  space_ok st T -> (root, d + length a)%nat ∈ T -> Forall index_ok a -> index_ok j ->
  reach (ps_mem st) root a = Some q -> 0 <= v < 2 ^ 64 ->
  (d = 0%nat \/ (B = true /\ d = 1%nat /\ is_table v = false)) ->
  let m' := store64 (ps_mem st) (entry_at q j) v in
  space_ok (ps_set st m') T /\
  (forall rest, length rest = d -> walk m' root (a ++ j :: rest) = leaf v rest) /\
  (forall r path, (r, d + length a)%nat ∈ T -> length path = S (d + length a) -> Forall index_ok path ->
     (r = root -> forall rest, path <> a ++ j :: rest) -> walk m' r path = walk (ps_mem st) r path).
Proof.
  intros Hsp Hroot Ha Hj Hreach Hv Hkind m'. pose proof Hsp as [Hok Ht]. pose proof (ps_ok_nodup _ _ Hok) as Hnd.
  pose proof (reach_level _ _ _ _ _ _ _ Ht Hroot Ha Hreach) as Hq.
  assert (Hpages : forall p k, (p, k) ∈ T -> p mod 4096 = 0) by (intros p k Hp; by eapply table_page_ok).
  split_and!.
  - split; [|rewrite ps_set_mem; by apply (stored_tree B _ T Ht Hnd Hpages q d)].
    apply ps_set_ok; [done|apply store_mem_ok; by eapply ps_ok_mem|]. eapply only_mono; [|apply only_store].
    cbv beta. intros x Hx. exists q. split; [by apply (list_elem_of_fmap_2 fst) in Hq|].
    change (Z.of_nat 8) with 8 in Hx. unfold in_page, entry_at, index_ok in *. lia.
  - intros rest Hrest. by apply (stored_walk_here B _ T Ht Hnd Hpages q d j v Hq Hj Hv Hkind).
  - intros r path Hr Hl Hpath Hno.
    apply (stored_walk_other B _ T Ht Hnd Hpages q d j v Hq Hj Hv Hkind r (d + length a)); [done..|].
    intros a' b -> Hra. apply Forall_app in Hpath as [Ha' _]. rewrite length_app in Hl. cbn in Hl.
    assert (Hr' : (r, length b + length a')%nat ∈ T) by (by replace (length b + length a')%nat with (d + length a)%nat by lia).
    pose proof (reach_level _ _ _ _ _ _ _ Ht Hr' Ha' Hra) as Hq'. assert (Hlb : length b = d) by by eapply level_unique.
    rewrite Hlb in Hr'.
    destruct (reach_inj _ _ T r root d a' a q Ht Hr' Hroot ltac:(lia) Ha' Ha Hra Hreach) as [-> ->]. by apply (Hno eq_refl b).
Qed.

(** A new root: a zeroed page. *)
Lemma new_root_spec st T np st1 :
  space_ok st T -> ps_alloc st = (Some np, st1) ->
  let m' := write_bytes (ps_mem st1) np 0 4096 in
  space_ok (ps_set st1 m') ((np, 3%nat) :: T) /\
  (forall i path, index_ok i -> path <> [] -> walk m' np (i :: path) = None) /\
  (forall r k path, (r, k) ∈ T -> length path = S k -> Forall index_ok path ->
     walk m' r path = walk (ps_mem st) r path).
Proof.
  intros Hsp Ha m'. pose proof Hsp as [Hok Ht].
  destruct (ps_alloc_ok _ _ _ _ Hok Ha) as [Hok1 Hsame]. pose proof (ps_ok_nodup _ _ Hok1) as Hnd.
  assert (Hold : forall r k j, (r, k) ∈ T -> index_ok j -> entry m' r j = entry (ps_mem st) r j).
  { intros r k j Hr Hj. apply entry_ext; [done|]. intros x Hx.
    pose proof (list_elem_of_fmap_2 fst _ _ Hr) as Hrin. cbn in Hrin. rewrite <-Hsame by by exists r.
    apply only_write_bytes. apply NoDup_cons in Hnd as [Hn _]. assert (r <> np) by by intros ->.
    destruct (table_page_ok _ _ _ _ Hsp Hr) as (Hr1 & _).
    pose proof (ps_ok_pages _ _ Hok1) as [(Hn1 & _) _]%Forall_cons. unfold in_page in Hx. divlia. }
  assert (Hnew : forall j, index_ok j -> entry m' np j = 0) by (intros; by apply entry_zero).
  split_and!.
  - split.
    + apply ps_set_ok; [done| |].
      * intros x. unfold m', write_bytes. case_match; [done|]. by apply (ps_ok_mem _ _ Hok1).
      * eapply only_mono; [|apply only_write_bytes]. intros x Hx. exists np. split; [set_solver|exact Hx].
    + rewrite ps_set_mem. constructor.
      * intros p d i [[= -> _]|Hp]%elem_of_cons Hi; [by rewrite Hnew|]. rewrite (Hold p (S d)) by done.
        by apply (tr_kind _ _ _ Ht).
      * intros p d i [[= -> _]|Hp]%elem_of_cons Hi; [by rewrite Hnew|]. rewrite (Hold p (S d)) by done.
        intros Htab. apply elem_of_cons. right. by apply (tr_child _ _ _ Ht).
      * intros p d i p' d' i' [[= -> _]|Hp]%elem_of_cons [[= -> _]|Hp']%elem_of_cons Hi Hi' Hne Hne';
          [by rewrite Hnew in Hne..|by rewrite Hnew in Hne'|].
        rewrite (Hold p (S d)), (Hold p' (S d')) in * by done. by apply (tr_unique _ _ _ Ht _ d _ _ d').
  - intros i path Hi Hp. rewrite walk_cons by done. by rewrite Hnew.
  - intros r k path Hr Hl Hpath. by apply (walk_keep B m' _ T Ht Hold r k).
Qed.
End spaces.

Lemma space_ok_blocks {St} `{PageSourceSpec St} B (st : St) T : space_ok B st T -> space_ok true st T.
Proof. intros [? ?]. split; [done|by eapply tree_blocks]. Qed.

(** *** Virtual addresses as paths *)

Lemma va_index_ok va :
  index_ok (l0_index va) /\ index_ok (l1_index va) /\ index_ok (l2_index va) /\ index_ok (l3_index va).
Proof.
  unfold index_ok, l0_index, l1_index, l2_index, l3_index. change 0x1FF with (2 ^ 9 - 1).
  rewrite !land_ones_mod by lia. change (2 ^ 9) with 512. divlia.
Qed.

Lemma va_path_ok va : Forall index_ok (va_path va).
Proof. destruct (va_index_ok va) as (? & ? & ? & ?). unfold va_path. rewrite !Forall_cons. by split_and!. Qed.

Lemma va_tables_ok va : Forall index_ok [l0_index va; l1_index va] /\ Forall index_ok [l0_index va; l1_index va; l2_index va].
Proof. destruct (va_index_ok va) as (? & ? & ? & ?). rewrite !Forall_cons. by split_and!. Qed.

(** The path is the page number in the 48 bits that are translated. *)
Lemma va_path_page va va' :
  0 <= va -> 0 <= va' -> va_path va = va_path va' <-> (va / 4096) mod 2 ^ 36 = (va' / 4096) mod 2 ^ 36.
Proof.
  intros Hva Hva'. unfold va_path, l0_index, l1_index, l2_index, l3_index. change 0x1FF with (2 ^ 9 - 1).
  rewrite !land_ones_mod, !Z.shiftr_div_pow2 by lia. change (2 ^ 39) with 549755813888. change (2 ^ 30) with 1073741824.
  change (2 ^ 21) with 2097152. change (2 ^ 12) with 4096. change (2 ^ 9) with 512. change (2 ^ 36) with 68719476736.
  split; [intros [= ? ? ? ?]; divlia|]. intros Heq. f_equal; [divlia|]. f_equal; [divlia|]. f_equal; [divlia|].
  f_equal. divlia.
Qed.

Section mapping.
Context {St : Type} {PS : PageSource St} {PSS : PageSourceSpec St}.

(** Mapping a page where there are no blocks. *)
Lemma map_page_spec st T pgd va pa mair flags :
  space_ok false st T -> (pgd, 3%nat) ∈ T -> 0 <= pa -> 0 <= mair ->
  match map_page_dmap st pgd va pa mair flags with
  | None => new_page pa mair flags = None \/ exists st1 T1, grown false st T st1 T1 /\ (ps_alloc st1).1 = None
  | Some st' => exists T' pte, space_ok false st' T' /\ (forall p d, (p, d) ∈ T -> (p, d) ∈ T') /\
      new_page pa mair flags = Some pte /\ walk (ps_mem st') pgd (va_path va) = Some (pte, []) /\
      forall r path, (r, 3%nat) ∈ T -> length path = 4%nat -> Forall index_ok path -> (r <> pgd \/ path <> va_path va) ->
        walk (ps_mem st') r path = walk (ps_mem st) r path
  end.
Proof.
  intros Hsp Hpgd Hpa Hm. rewrite map_page_path. destruct (va_tables_ok va) as [_ Hp]. destruct (va_index_ok va) as (_ & _ & _ & H3).
  pose proof (ensure_path_spec false st T pgd [l0_index va; l1_index va; l2_index va] 0 Hsp Hpgd Hp (or_introl eq_refl)) as Hw.
  destruct (ensure_path st pgd _) as [[l3 st3]|]; cbn [mbind option_bind]; [|by right].
  destruct Hw as (T3 & G & L3 & Hr). destruct (new_page pa mair flags) as [pte|] eqn:Ep; cbn [mbind option_bind]; [|by left].
  pose proof (new_page_bound pa mair flags pte Hpa Hm Ep) as Hb. pose proof (gr_sub _ _ _ _ _ G) as Hsub.
  destruct (put_spec false st3 T3 pgd [l0_index va; l1_index va; l2_index va] l3 0 (l3_index va) pte
    (gr_ok _ _ _ _ _ G) ltac:(by apply Hsub) Hp H3 Hr Hb (or_introl eq_refl)) as (Hok & Hhere & Hoth).
  exists T3, pte. rewrite ps_set_mem. split_and!; [done..| |].
  - change (va_path va) with ([l0_index va; l1_index va; l2_index va] ++ [l3_index va]). rewrite Hhere by done.
    unfold leaf. by rewrite (new_page_valid _ _ _ _ Ep).
  - intros r path Hr' Hl Hpath Hne. rewrite <-(gr_walk _ _ _ _ _ G r 3) by done. apply Hoth; [by apply Hsub|done|done|].
    intros -> rest ->. destruct Hne as [|Hne]; [done|]. apply Hne. destruct rest; [done|]. cbn in Hl. lia.
Qed.
End mapping.

(** ** The frame allocator as a page source *)

#[export] Instance frames_source : PageSource frames := {
  ps_mem := f_mem;
  ps_set f m := mk_frames (f_pools f) (f_total f) m;
  ps_alloc f := frame_alloc_page f PoolKernel
}.

(** Pages held by page tables among the live blocks of the kernel pool. *)
Record frames_hold (f : frames) (ps : list Z) (p0 : PagePools) (Fs : Pool -> Z -> Prop) (Ls : lives) (rest : live) : Prop := {
  fh_disj : pools_disjoint p0;
  fh_inv : frames_inv p0 Fs (f, Ls);
  fh_live : Ls PoolKernel ≡ₚ ((fun p => (p, 0%nat)) <$> ps) ++ rest;
  fh_bound : bend (p_kernel p0) <= 2 ^ 48
}.

Lemma frames_hold_block f ps p0 Fs Ls rest p :
  frames_hold f ps p0 Fs Ls rest -> p ∈ ps -> (p, 0%nat) ∈ Ls PoolKernel.
Proof.
  intros [] Hp. rewrite fh_live0. apply elem_of_app. left. by apply (list_elem_of_fmap_2 (fun p => (p, 0%nat))).
Qed.

Lemma frames_hold_pages f ps p0 Fs Ls rest : frames_hold f ps p0 Fs Ls rest -> Forall page_ok ps.
Proof.
  intros Hh. apply Forall_forall. intros p Hp. pose proof (frames_hold_block _ _ _ _ _ _ _ Hh Hp) as Hin. destruct Hh.
  destruct (live_pool _ _ fh_disj0 _ _ _ _ _ fh_inv0 Hin) as (b0 & b & fl & H0 & Hi0 & Hb & Hs & _). cbn in H0. simplify_eq.
  destruct (held_block_range _ _ _ _ _ _ _ _ Hs Hin). destruct Hs. cbn in *.
  rewrite Forall_forall in si_live. destruct (si_live _ Hin) as [Hv _]. cbn in Hv.
  destruct (valid_bounds _ _ _ (cfg_same _ _ (same_range_sym _ _ si_same) (i_cfg _ _ _ si_inv)) Hv) as (? & _ & _).
  unfold page_ok. change (size_of 0) with 4096 in *. destruct Hv. lia.
Qed.

Lemma frames_hold_nodup f ps p0 Fs Ls rest : frames_hold f ps p0 Fs Ls rest -> NoDup ps.
Proof.
  intros Hh. destruct ps as [|p ps']; [constructor|].
  pose proof (frames_hold_block _ _ _ _ _ _ p Hh ltac:(set_solver)) as Hin. destruct Hh.
  destruct (live_pool _ _ fh_disj0 _ _ _ _ _ fh_inv0 Hin) as (b0 & b & fl & _ & _ & _ & Hs & _).
  pose proof (live_nodup _ (si_disj _ _ _ _ _ Hs)) as Hnd. cbn in Hnd. rewrite fh_live0 in Hnd.
  apply NoDup_app in Hnd as [Hnd _]. by apply NoDup_fmap_1 in Hnd.
Qed.

Lemma in_pages_held f ps p0 Fs Ls rest x :
  frames_hold f ps p0 Fs Ls rest -> in_pages ps x -> held (Ls PoolKernel) x.
Proof. intros Hh (p & Hp & Hx). exists p, 0%nat. split; [by eapply frames_hold_block|exact Hx]. Qed.

#[export] Instance frames_source_spec : PageSourceSpec frames.
Proof.
  refine {| ps_ok f ps := exists p0 Fs Ls rest, frames_hold f ps p0 Fs Ls rest |}.
  - intros f ps (p0 & Fs & Ls & rest & Hh). apply (fh_inv _ _ _ _ _ _ Hh).
  - intros f ps (p0 & Fs & Ls & rest & Hh). by eapply frames_hold_nodup.
  - intros f ps (p0 & Fs & Ls & rest & Hh). by eapply frames_hold_pages.
  - intros f ps p f' (p0 & Fs & Ls & rest & Hh) Ha.
    change (frame_alloc_pages f PoolKernel 0 = (Some p, f')) in Ha. split.
    + exists p0, Fs, (lives_upd Ls PoolKernel ((p, 0%nat) :: Ls PoolKernel)), rest. pose proof Hh as []. constructor; [done| | |done].
      * apply (frame_step_inv p0 Fs fh_disj0 (f, Ls)); [done|]. by apply fs_alloc.
      * unfold lives_upd. rewrite decide_True by done. cbn. by rewrite fh_live0.
    + intros x Hx. pose proof Hh as []. by apply (frame_alloc_keeps p0 Fs fh_disj0 f Ls PoolKernel 0 p); [..|eapply in_pages_held].
  - intros f ps m' (p0 & Fs & Ls & rest & Hh) Hm Ho. exists p0, Fs, Ls, rest. pose proof Hh as []. constructor; try done.
    apply (frames_write p0 Fs fh_disj0 f Ls PoolKernel); [done..|]. eapply only_mono; [|exact Ho]. intros x Hx. by eapply in_pages_held.
  - done.
Defined.

Lemma tree_nil B m : tree B m [].
Proof. constructor; set_solver. Qed.

(** After boot no page is a page table yet. *)
Lemma machine_space_ok B m b e c z1 z2 t p0 m0 :
  pools_init m b e c z1 z2 = (p0, m0) ->
  mem_ok m -> range_ok b e -> config_ok c -> zone_ok z1 -> zone_ok z2 -> bend (p_kernel p0) <= 2 ^ 48 ->
  space_ok B (mk_frames p0 t m0) [].
Proof.
  intros E Hm Hr Hc Hz1 Hz2 Hb. pose proof (pools_init_inv m b e c z1 z2 t Hm Hr Hc Hz1 Hz2) as Hi.
  rewrite E in Hi. destruct Hi as [Hd Hi]. split; [|apply tree_nil]. by eexists p0, _, _, [].
Qed.
