(* ===== verification/AddressSpace.v ===== *)
(** * User address spaces (kernel/src/mm/uspace.rs)

    Creating an address space and mapping pages in it, on the page tables and
    the page allocator interface of [PageTables].  A failed assertion and an
    [expect] on an empty pool are [None].  Translation is the walk of the
    tables; there is no TLB in the model. *)

From S2P Require Import Prelude PhysMem Abi Memory Buddy BuddyInv BuddyInit BuddySystem Pools Paging PageTables.

Record MemoryStats := mk_mstats { pages_allocated : Z; peak_pages : Z }.
Definition mstats_new : MemoryStats := mk_mstats 0 0.
Definition track_alloc (s : MemoryStats) : MemoryStats :=
  let n := pages_allocated s + 1 in
  mk_mstats n (if n >? peak_pages s then n else peak_pages s).

Record UserAddressSpace := mk_space { pgd_phys : Z; space_asid : Asid; space_stats : MemoryStats }.

Definition MAIR_NORMAL_WB_IDX : Z := 3.

Section operations.
Context {St : Type} `{PageSource St}.

Definition create_user_address_space (st : St) (asids : AsidAllocator) :
    option (UserAddressSpace * bool * St * AsidAllocator) :=
  match ps_alloc st with
  | (None, _) => None
  | (Some pgd, st1) =>
      let st2 := ps_set st1 (write_bytes (ps_mem st1) pgd 0 4096) in
      let '((asid, needs_flush), asids') := asid_alloc asids in
      Some (mk_space pgd asid mstats_new, needs_flush, st2, asids')
  end.

Definition map_user_page (st : St) (sp : UserAddressSpace) (va pa flags : Z) : option (UserAddressSpace * St) :=
  if negb (flags_contains flags USER) then None
  else if negb (va <? 0x1000000000000) then None
  else if negb (Z.land va 4095 =? 0) then None
  else if negb (Z.land pa 4095 =? 0) then None
  else
    st' ← map_page_dmap st (pgd_phys sp) va pa MAIR_NORMAL_WB_IDX flags;
    Some (mk_space (pgd_phys sp) (space_asid sp) (track_alloc (space_stats sp)), st').
End operations.

(** [switch_address_space]: the value written to TTBR0_EL1. *)
Definition ttbr0_value (sp : UserAddressSpace) : Z :=
  Z.lor (Z.shiftl (asid_value (space_asid sp)) 48) (pgd_phys sp).

Section spaces.
Context {St : Type} {PS : PageSource St} {PSS : PageSourceSpec St}.


Lemma create_spec st T asids sp flush st' asids' :
  space_ok false st T -> create_user_address_space st asids = Some (sp, flush, st', asids') ->
  space_ok false st' ((pgd_phys sp, 3%nat) :: T) /\ ((space_asid sp, flush), asids') = asid_alloc asids /\
  forall va, translate (ps_mem st') (pgd_phys sp) va = None /\
    forall root, (root, 3%nat) ∈ T -> translate (ps_mem st') root va = translate (ps_mem st) root va.
Proof.
  intros Hsp Hc. unfold create_user_address_space in Hc.
  destruct (ps_alloc st) as [[np|] st1] eqn:Ha; [|done]. destruct (asid_alloc asids) as [[a fl] as'] eqn:Eas. simplify_eq.
  destruct (new_root_spec false st T np st1 Hsp Ha) as (Hok & Hnew & Hold). cbn [pgd_phys space_asid].
  split_and!; [done|done|]. intros va. rewrite ps_set_mem. unfold translate. split.
  - apply Hnew; [apply va_index_ok|done].
  - intros root Hroot. apply (Hold root 3%nat); [done|done|apply va_path_ok].
Qed.

(** A new address space translates no address, and every other space keeps
    its translations. *)
Theorem create_space_empty st T asids sp flush st' asids' :
  space_ok false st T -> create_user_address_space st asids = Some (sp, flush, st', asids') ->
  space_ok false st' ((pgd_phys sp, 3%nat) :: T) /\ ((space_asid sp, flush), asids') = asid_alloc asids /\
  forall va, translate (ps_mem st') (pgd_phys sp) va = None /\
    forall root, (root, 3%nat) ∈ T -> translate (ps_mem st') root va = translate (ps_mem st) root va.
Proof. apply create_spec. Qed.
End spaces.

(** ** Witnesses: a space in the kernel pool of the example machine *)

Definition demo_flags : Z := Z.lor READ (Z.lor WRITE USER).

Lemma demo_kernel_end : bend (p_kernel demo_pools.1) = 0x40020000.
Proof. vm_compute. reflexivity. Qed.

Lemma demo_frames_ok : exists f, f = demo_frames /\ space_ok false f [].
Proof.
  exists demo_frames. split; [reflexivity|]. eapply (machine_space_ok false demo_mem 0x40000000 0x40040000 demo_config
    (0x40014000, 0x40016000) (0, 0)).
  - apply (surjective_pairing demo_pools).
  - exact demo_mem_ok.
  - by constructor.
  - by constructor.
  - unfold zone_ok. cbn [fst snd]. split_and!; (lia || reflexivity).
  - unfold zone_ok. cbn [fst snd]. split_and!; (lia || reflexivity).
  - rewrite demo_kernel_end. lia.
Qed.

Definition mapped {A} (o : option A) : bool := match o with Some _ => true | None => false end.

Definition demo_maps (f : frames) : bool :=
  match create_user_address_space f asid_new with
  | Some (sp, _, f', _) => mapped (map_user_page f' sp 0x400000 0x40030000 demo_flags)
  | None => false
  end.

Lemma demo_maps_true : demo_maps demo_frames = true.
Proof. vm_compute. reflexivity. Qed.

Lemma demo_maps_inv f :
  demo_maps f = true -> exists sp flush f' asids',
    create_user_address_space f asid_new = Some (sp, flush, f', asids') /\
    mapped (map_user_page f' sp 0x400000 0x40030000 demo_flags) = true.
Proof.
  unfold demo_maps. destruct (create_user_address_space f asid_new) as [[[[sp flush] f'] asids']|]; [|done].
  intros H. exists sp, flush, f', asids'. split; [reflexivity|exact H].
Qed.

Lemma demo_space :
  exists f sp flush f' asids', f = demo_frames /\ space_ok false f [] /\
    create_user_address_space f asid_new = Some (sp, flush, f', asids') /\
    mapped (map_user_page f' sp 0x400000 0x40030000 demo_flags) = true.
Proof.
  destruct demo_frames_ok as (f & Ef & Hok). pose proof demo_maps_true as Hs. rewrite <-Ef in Hs.
  destruct (demo_maps_inv f Hs) as (sp & flush & f' & asids' & Hc & Hm). exists f, sp, flush, f', asids'.
  split; [exact Ef|]. split; [exact Hok|]. split; [exact Hc|exact Hm].
Qed.

Lemma create_space_empty_witness :
  exists f sp flush f' asids', f = demo_frames /\
    create_user_address_space f asid_new = Some (sp, flush, f', asids') /\
    translate (f_mem f') (pgd_phys sp) 0x400000 = None.
Proof.
  destruct demo_space as (f & sp & flush & f' & asids' & Ef & Hok & Hc & _). exists f, sp, flush, f', asids'.
  destruct (create_space_empty f [] asid_new sp flush f' asids' Hok Hc) as (_ & _ & H).
  split; [exact Ef|]. split; [exact Hc|]. exact (proj1 (H 0x400000)).
Defined.

