(* ===== verification/Storage.v ===== *)
(** * Storage: shared types and in-memory indexes

    Models shared/src/storage.rs: the identifiers and records of the storage
    subsystem, CRC-32C, the block index [MemTable], the [ObjectIndex], the
    [SpaceTable] and the 64-byte [WalEntry].

    Byte arrays are lists of bytes in [Z].  A [repr(C)] record that the code views as
    bytes has its layout written out ([*_bytes]) together with its inverse
    ([*_of_bytes], the [read_unaligned] of the code).  SHA-256 is the third-party crate [sha2]: the
    parameter [sha256] of the definitions that hash.  An arithmetic overflow panics
    (the workspace builds with the dev profile): such an operation returns [None]. *)

From S2P Require Import SortedVec Prelude.

(** ** Identifiers, classifications, errors *)

Definition ContentHash := list Z.
Definition hash_ZERO : ContentHash := replicate 32 0.
Definition hash_is_zero (h : ContentHash) : bool := bool_decide (h = hash_ZERO).

Definition ObjectId := list Z.
Definition object_id_ZERO : ObjectId := replicate 16 0.
Definition SpaceId := list Z.
Definition space_id_ZERO : SpaceId := replicate 16 0.

Inductive ContentType :=
| Directory | Document | Text | Code | Markdown | Json | Xml | Image | Video | Audio
| Config | Credential | Executable | GameSave | CacheEntry | SessionToken | Cookie | Binary.

Inductive SecurityZone := Core | Personal | Collaborative | Untrusted | Ephemeral.

Inductive StorageTier := Hot | Warm | Cold.

Inductive StorageError :=
| BlockNotFound | ChecksumFailed | DecryptionFailed | IoError | QuotaExceeded | DeviceFull
| WalFull | SuperblockCorrupt | DeviceNotFound | VirtioError | MemTableFull | ObjectNotFound
| SpaceNotFound | SpaceNotEmpty | VersionNotFound | NameExists | NotADirectory | FdTableFull
| InvalidFd.

#[export] Instance ContentType_eq_dec : EqDecision ContentType.
Proof. solve_decision. Defined.
#[export] Instance SecurityZone_eq_dec : EqDecision SecurityZone.
Proof. solve_decision. Defined.
#[export] Instance StorageTier_eq_dec : EqDecision StorageTier.
Proof. solve_decision. Defined.
#[export] Instance StorageError_eq_dec : EqDecision StorageError.
Proof. solve_decision. Defined.

Record BlockLocation := mk_loc { loc_offset : Z; loc_size : Z; loc_tier : StorageTier }.

#[export] Instance BlockLocation_eq_dec : EqDecision BlockLocation.
Proof. solve_decision. Defined.

(** ** Layout constants *)

Definition MAX_OBJECT_NAME_LEN : nat := 64.
Definition MAX_AUTHOR_LEN : nat := 32.
Definition MAX_SPACES : nat := 16.
Definition MAX_SPACE_NAME_LEN : nat := 32.
Definition MAX_VERSION_MESSAGE_LEN : nat := 64.
Definition OBJECT_INDEX_MAX_ENTRIES : Z := 16384.
Definition MAX_TEXT_CONTENT_LEN : nat := 128.
Definition ENCRYPTION_OVERHEAD : Z := 28.
Definition SUPERBLOCK_MAGIC : Z := 0x41494F5350414345.
Definition SUPERBLOCK_VERSION : Z := 2.
Definition SECTOR_SIZE : Z := 512.
Definition BLOCK_SIZE : Z := 4096.
Definition WAL_START_SECTOR : Z := 8.
Definition WAL_SIZE_SECTORS : Z := 131072.
Definition DATA_START_SECTOR : Z := WAL_START_SECTOR + WAL_SIZE_SECTORS.
Definition MEMTABLE_MAX_ENTRIES : Z := 65536.
Definition WAL_ENTRY_SIZE : Z := 64.
Definition WAL_ENTRIES_PER_SECTOR : Z := SECTOR_SIZE / WAL_ENTRY_SIZE.

Inductive CompressionType := CompNone | CompLz4.
Definition compression_byte (c : CompressionType) : Z :=
  match c with CompNone => 0 | CompLz4 => 1 end.
Definition COMPRESSION_HEADER_SIZE : Z := 5.

(** ** Length-prefixed text in a fixed array *)

(** [set_name], [set_text], [set_message]: the new array and its length byte. *)
Definition set_text_in (arr : list Z) (cap : nat) (s : list Z) : list Z * Z :=
  let len := Nat.min (length s) cap in
  (copy_at arr 0 (take len s), Z.of_nat len).

(** [name_bytes], [text_bytes], [message_bytes]. *)
Definition text_of (arr : list Z) (cap : nat) (len : Z) : list Z :=
  take (Nat.min (Z.to_nat len) cap) arr.

(** The bytes of a [repr(C)] field. *)
Definition field (b : list Z) (off n : nat) : list Z := take n (drop off b).

(** ** Objects, versions, spaces *)

Module CompactObject.
Record t := mk {
  id : ObjectId;
  space_id : SpaceId;
  name : list Z;
  content_hash : ContentHash;
  version_head : ContentHash;
  created_by : list Z;
  modified_by : list Z;
  text_content : list Z;
  created_at : Z;
  modified_at : Z;
  content_size : Z;
  content_type : ContentType;
  name_len : Z;
  text_len : Z
}.

Definition ZERO : t := mk object_id_ZERO space_id_ZERO (replicate MAX_OBJECT_NAME_LEN 0)
  hash_ZERO hash_ZERO (replicate MAX_AUTHOR_LEN 0) (replicate MAX_AUTHOR_LEN 0)
  (replicate MAX_TEXT_CONTENT_LEN 0) 0 0 0 Binary 0 0.

Definition name_bytes (o : t) : list Z := text_of (name o) MAX_OBJECT_NAME_LEN (name_len o).

Definition set_name (o : t) (s : list Z) : t :=
  let '(arr, len) := set_text_in (name o) MAX_OBJECT_NAME_LEN s in
  mk (id o) (space_id o) arr (content_hash o) (version_head o) (created_by o) (modified_by o)
    (text_content o) (created_at o) (modified_at o) (content_size o) (content_type o) len (text_len o).

Definition text_bytes (o : t) : list Z := text_of (text_content o) MAX_TEXT_CONTENT_LEN (text_len o).

Definition set_text (o : t) (s : list Z) : t :=
  let '(arr, len) := set_text_in (text_content o) MAX_TEXT_CONTENT_LEN s in
  mk (id o) (space_id o) (name o) (content_hash o) (version_head o) (created_by o) (modified_by o)
    arr (created_at o) (modified_at o) (content_size o) (content_type o) (name_len o) len.

Definition is_zero (o : t) : bool := bool_decide (id o = object_id_ZERO).
End CompactObject.

Module Version.
Record t := mk {
  hash : ContentHash;
  parent : ContentHash;
  merge_parent : ContentHash;
  content_hash : ContentHash;
  object_id : ObjectId;
  author : list Z;
  message : list Z;
  timestamp : Z;
  content_size : Z;
  message_len : Z
}.

Definition ZERO : t := mk hash_ZERO hash_ZERO hash_ZERO hash_ZERO object_id_ZERO
  (replicate MAX_AUTHOR_LEN 0) (replicate MAX_VERSION_MESSAGE_LEN 0) 0 0 0.

Definition is_root (v : t) : bool := hash_is_zero (parent v).

Definition message_bytes (v : t) : list Z := text_of (message v) MAX_VERSION_MESSAGE_LEN (message_len v).

Definition set_message (v : t) (s : list Z) : t :=
  let '(arr, len) := set_text_in (message v) MAX_VERSION_MESSAGE_LEN s in
  mk (hash v) (parent v) (merge_parent v) (content_hash v) (object_id v) (author v) arr
    (timestamp v) (content_size v) len.

(** The [repr(C)] layout, 256 bytes. *)
Definition bytes (v : t) : list Z :=
  hash v ++ parent v ++ merge_parent v ++ content_hash v ++ object_id v ++ author v ++ message v ++
  le_bytes 8 (timestamp v) ++ le_bytes 4 (content_size v) ++ le_bytes 1 (message_len v) ++ replicate 3 0.

Definition of_bytes (b : list Z) : t := mk
  (field b 0 32) (field b 32 32) (field b 64 32) (field b 96 32) (field b 128 16)
  (field b 144 32) (field b 176 64) (le_val (field b 240 8)) (le_val (field b 248 4))
  (le_val (field b 252 1)).

(** The sizes and widths of the Rust fields. *)
Record typed (v : t) : Prop := {
  t_hash : length (hash v) = 32%nat;
  t_parent : length (parent v) = 32%nat;
  t_merge : length (merge_parent v) = 32%nat;
  t_content : length (content_hash v) = 32%nat;
  t_object : length (object_id v) = 16%nat;
  t_author : length (author v) = 32%nat;
  t_message : length (message v) = 64%nat;
  t_time : uint 64 (timestamp v);
  t_size : uint 32 (content_size v);
  t_mlen : uint 8 (message_len v)
}.
End Version.

(** [compute_version_hash]: SHA-256 of parent, content hash, timestamp and object id. *)
Definition compute_version_hash (sha256 : list Z -> list Z) (parent content_hash : ContentHash)
    (timestamp : Z) (object_id : ObjectId) : ContentHash :=
  sha256 (parent ++ content_hash ++ le_bytes 8 timestamp ++ object_id).

Record SpaceQuota := mk_quota { max_bytes : Z; max_objects : Z }.
Definition quota_UNLIMITED : SpaceQuota := mk_quota (umax 64) (umax 32).

Module Space.
Record t := mk {
  id : SpaceId;
  name : list Z;
  parent : SpaceId;
  created_at : Z;
  modified_at : Z;
  quota_max_bytes : Z;
  total_size : Z;
  object_count : Z;
  quota_max_objects : Z;
  security_zone : SecurityZone;
  name_len : Z
}.

Definition ZERO : t := mk space_id_ZERO (replicate MAX_SPACE_NAME_LEN 0) space_id_ZERO 0 0 0 0 0 0 Core 0.

Definition name_bytes (s : t) : list Z := text_of (name s) MAX_SPACE_NAME_LEN (name_len s).

Definition set_name (s : t) (n : list Z) : t :=
  let '(arr, len) := set_text_in (name s) MAX_SPACE_NAME_LEN n in
  mk (id s) arr (parent s) (created_at s) (modified_at s) (quota_max_bytes s) (total_size s)
    (object_count s) (quota_max_objects s) (security_zone s) len.

Definition is_zero (s : t) : bool := bool_decide (id s = space_id_ZERO).

Definition set_quota (s : t) (q : SpaceQuota) : t :=
  mk (id s) (name s) (parent s) (created_at s) (modified_at s) (max_bytes q) (total_size s)
    (object_count s) (max_objects q) (security_zone s) (name_len s).

Definition quota (s : t) : SpaceQuota := mk_quota (quota_max_bytes s) (quota_max_objects s).

Definition would_exceed_quota (s : t) (bytes : Z) : bool :=
  (object_count s >=? quota_max_objects s)
  || (saturating_add 64 (total_size s) bytes >? quota_max_bytes s).

(** The two counters the object store charges. *)
Definition set_usage (s : t) (count size : Z) : t :=
  mk (id s) (name s) (parent s) (created_at s) (modified_at s) (quota_max_bytes s) size
    count (quota_max_objects s) (security_zone s) (name_len s).
End Space.

Inductive PressureLevel := PNormal | PWarning | PCritical | PEmergency.
Definition from_free_percentage (pct : Z) : PressureLevel :=
  if pct >? 20 then PNormal else if pct >? 10 then PWarning
  else if pct >? 5 then PCritical else PEmergency.

(** ** CRC-32C *)

Definition CRC_POLY : Z := 0x82F63B78.

(** One turn of the inner loop of the table's initialiser. *)
Definition crc_bit (crc : Z) : Z :=
  if Z.land crc 1 =? 0 then Z.shiftr crc 1 else Z.lxor (Z.shiftr crc 1) CRC_POLY.

Definition CRC32C_TABLE : list Z :=
  map (fun i => Nat.iter 8 crc_bit (Z.of_nat i)) (seq 0 256).

(** [CRC32C_TABLE[i]]; the index is masked to a byte, so it is in range. *)
Definition crc_entry (i : Z) : Z := default 0 (CRC32C_TABLE.[i]).

Definition crc_step (crc byte : Z) : Z :=
  Z.lxor (crc_entry (Z.land (Z.lxor crc byte) 0xFF)) (Z.shiftr crc 8).

Definition crc32c (data : list Z) : Z := unot 32 (foldl crc_step (unot 32 0) data).

(** ** The block index *)

Module MemTable.
Record entry := mk_entry { key : ContentHash; location : BlockLocation; refcount : Z }.
Record t := mk { entries : list entry; capacity : Z }.

Definition new (capacity : Z) : t := mk [] capacity.
Definition with_default_capacity : t := new MEMTABLE_MAX_ENTRIES.
Definition count (m : t) : Z := alen (entries m).
Definition is_full (m : t) : bool := alen (entries m) >=? capacity m.

Definition binary_search (m : t) (k : ContentHash) : result nat nat :=
  binary_search_by key (entries m) k.

Definition get (m : t) (k : ContentHash) : option entry :=
  match binary_search m k with Ok idx => entries m !! idx | Err _ => None end.

(** [get_mut]: the entry, and the table after the borrower wrote a new value. *)
Definition get_mut (m : t) (k : ContentHash) : option (entry * (entry -> t)) :=
  match binary_search m k with
  | Ok idx => e ← entries m !! idx; Some (e, fun e' => mk (<[idx := e']> (entries m)) (capacity m))
  | Err _ => None
  end.

(** [entry.refcount += 1] *)
Definition bump (e : entry) : option entry :=
  n ← checked_add 32 (refcount e) 1; Some (mk_entry (key e) (location e) n).

Definition insert (m : t) (k : ContentHash) (loc : BlockLocation) :
    option (result StorageError bool * t) :=
  match binary_search m k with
  | Ok idx => e ← entries m !! idx; e' ← bump e;
      Some (Ok false, mk (<[idx := e']> (entries m)) (capacity m))
  | Err insert_pos =>
      if is_full m then Some (Err MemTableFull, m)
      else Some (Ok true, mk (vec_insert (entries m) insert_pos (mk_entry k loc 1)) (capacity m))
  end.

Definition remove (m : t) (k : ContentHash) : option BlockLocation * t :=
  match binary_search m k with
  | Ok idx => (location <$> entries m !! idx, mk (delete idx (entries m)) (capacity m))
  | Err _ => (None, m)
  end.

Definition dec_ref (m : t) (k : ContentHash) : option (BlockLocation * bool) * t :=
  match binary_search m k with
  | Ok idx =>
      match entries m !! idx with
      | Some e =>
          if refcount e <=? 1 then (Some (location e, true), mk (delete idx (entries m)) (capacity m))
          else (Some (location e, false),
                mk (<[idx := mk_entry (key e) (location e) (refcount e - 1)]> (entries m)) (capacity m))
      | None => (None, m)
      end
  | Err _ => (None, m)
  end.
End MemTable.

(** ** The object index *)

Module ObjectIndex.
Record entry := mk_entry { id : ObjectId; object : CompactObject.t }.
Definition t := list entry.

Definition new : t := [].
Definition count (x : t) : Z := alen x.
Definition binary_search (x : t) (k : ObjectId) : result nat nat := binary_search_by id x k.

Definition get (x : t) (k : ObjectId) : option CompactObject.t :=
  match binary_search x k with Ok idx => object <$> x !! idx | Err _ => None end.

Definition get_mut (x : t) (k : ObjectId) : option (CompactObject.t * (CompactObject.t -> t)) :=
  match binary_search x k with
  | Ok idx => e ← x !! idx; Some (object e, fun o => <[idx := mk_entry (id e) o]> x)
  | Err _ => None
  end.

Definition insert (x : t) (o : CompactObject.t) : result StorageError unit * t :=
  if alen x >=? OBJECT_INDEX_MAX_ENTRIES then (Err MemTableFull, x) else
  match binary_search x (CompactObject.id o) with
  | Ok _ => (Err NameExists, x)
  | Err pos => (Ok tt, vec_insert x pos (mk_entry (CompactObject.id o) o))
  end.

Definition remove (x : t) (k : ObjectId) : option CompactObject.t * t :=
  match binary_search x k with
  | Ok idx => (object <$> x !! idx, delete idx x)
  | Err _ => (None, x)
  end.

Definition find_by_name (x : t) (space : SpaceId) (name : list Z) : option ObjectId :=
  (fun p => id p.2) <$> list_find (fun e =>
    CompactObject.space_id (object e) = space /\ CompactObject.name_bytes (object e) = name) x.

Definition list_by_space (x : t) (space : SpaceId) : list ObjectId :=
  id <$> filter (fun e => CompactObject.space_id (object e) = space) x.
End ObjectIndex.

(** ** The space registry *)

Module SpaceTable.
Definition t := list (option Space.t).

Definition new : t := replicate MAX_SPACES None.
Definition count (x : t) : Z := alen (occupied x).

Definition get (x : t) (k : SpaceId) : option Space.t :=
  snd <$> list_find (fun s => Space.id s = k) (occupied x).

(** The slot that holds the space, for [get_mut] and [remove]. *)
Definition slot_of (x : t) (k : SpaceId) : option nat :=
  fst <$> list_find (fun o => Space.id <$> o = Some k) x.

Definition get_mut (x : t) (k : SpaceId) : option (Space.t * (Space.t -> t)) :=
  i ← slot_of x k; o ← x !! i; s ← o; Some (s, fun s' => <[i := Some s']> x).

Definition insert (x : t) (s : Space.t) : result StorageError unit * t :=
  match first_none x with
  | Some i => (Ok tt, <[i := Some s]> x)
  | None => (Err QuotaExceeded, x)
  end.

Definition remove (x : t) (k : SpaceId) : option Space.t * t :=
  match slot_of x k with
  | Some i => (mjoin (x !! i), <[i := None]> x)
  | None => (None, x)
  end.

Definition list_spaces (x : t) : list Space.t := occupied x.

Definition find_by_name (x : t) (name : list Z) : option Space.t :=
  snd <$> list_find (fun s => Space.name_bytes s = name) (occupied x).
End SpaceTable.

(** ** Write-ahead log entries *)

Module WalEntry.
Record t := mk {
  sequence_number : Z;
  block_id : list Z;
  data_offset : Z;
  data_size : Z;
  committed : Z;
  pad : list Z;
  checksum : Z;
  pad2 : list Z
}.

Definition ZERO : t := mk 0 (replicate 32 0) 0 0 0 (replicate 3 0) 0 (replicate 4 0).

Definition new (seq : Z) (block_id : list Z) (offset size committed : Z) : t :=
  mk seq block_id offset size committed (replicate 3 0) 0 (replicate 4 0).

(** The first 56 bytes of the [repr(C)] layout: everything before the checksum. *)
Definition body (e : t) : list Z :=
  le_bytes 8 (sequence_number e) ++ block_id e ++ le_bytes 8 (data_offset e) ++
  le_bytes 4 (data_size e) ++ le_bytes 1 (committed e) ++ pad e.

Definition bytes (e : t) : list Z := body e ++ le_bytes 4 (checksum e) ++ pad2 e.

Definition of_bytes (b : list Z) : t :=
  mk (le_val (field b 0 8)) (field b 8 32) (le_val (field b 40 8)) (le_val (field b 48 4))
    (le_val (field b 52 1)) (field b 53 3) (le_val (field b 56 4)) (field b 60 4).

Definition compute_checksum (e : t) : Z := crc32c (body e).
Definition is_valid (e : t) : bool := checksum e =? compute_checksum e.
Definition content_hash (e : t) : ContentHash := block_id e.

(** [entry.checksum = entry.compute_checksum()] *)
Definition seal (e : t) : t :=
  mk (sequence_number e) (block_id e) (data_offset e) (data_size e) (committed e) (pad e)
    (compute_checksum e) (pad2 e).

(** [entry.committed = 1] *)
Definition set_committed (e : t) : t :=
  mk (sequence_number e) (block_id e) (data_offset e) (data_size e) 1 (pad e) (checksum e) (pad2 e).
End WalEntry.

(** ** Fixed-size text *)

Lemma text_of_set_text_in arr cap s :
  length arr = cap -> (cap < 256)%nat ->
  let '(arr', len) := set_text_in arr cap s in
  length arr' = cap /\ uint 8 len /\ text_of arr' cap len = take cap s.
Proof.
  intros Ha Hc. unfold set_text_in, text_of. set (len := Nat.min (length s) cap).
  assert (length (take len s) = len) as Hlen by (rewrite length_take; lia).
  split_and!.
  - rewrite length_copy_at; lia.
  - unfold uint. change (2 ^ 8) with 256. lia.
  - rewrite Nat2Z.id. replace (Nat.min len cap) with len by lia.
    transitivity (take len s).
    + rewrite <-Hlen at 1. change (take (length (take len s)) (drop 0 (copy_at arr 0 (take len s))) = take len s).
      apply copy_at_read. lia.
    + destruct (decide (length s <= cap)%nat); [|f_equal; lia].
      by rewrite !take_ge by lia.
Qed.

(** ** CRC-32C: the table is the bitwise division, and no one-byte error goes unseen *)

(** Bitwise reference: the shift register that divides by the polynomial. *)
Definition crc_step_bitwise (crc byte : Z) : Z := Nat.iter 8 crc_bit (Z.lxor crc byte).

Lemma crc_bit_lxor x y : crc_bit (Z.lxor x y) = Z.lxor (crc_bit x) (crc_bit y).
Proof.
  unfold crc_bit. assert (Hl : forall z, (Z.land z 1 =? 0) = negb (Z.testbit z 0)).
  { intros z. change 1 with (Z.ones 1). rewrite Z.land_ones, Z.bit0_odd by lia. change (2 ^ 1) with 2.
    rewrite Zmod_odd. by destruct (Z.odd z). }
  rewrite !Hl, Z.lxor_spec, Z.shiftr_lxor.
  destruct (Z.testbit x 0), (Z.testbit y 0); cbn [negb xorb]; apply Z.bits_inj'; intros i _;
    rewrite !Z.lxor_spec; by destruct (Z.testbit (Z.shiftr x 1) i), (Z.testbit (Z.shiftr y 1) i), (Z.testbit CRC_POLY i).
Qed.

Lemma crc_iter_lxor n x y :
  Nat.iter n crc_bit (Z.lxor x y) = Z.lxor (Nat.iter n crc_bit x) (Nat.iter n crc_bit y).
Proof. induction n as [|n IH]; [done|]. by rewrite !Nat.iter_succ, IH, crc_bit_lxor. Qed.

(** A word whose low [n] bits are clear is only shifted. *)
Lemma crc_iter_shift n z : Nat.iter n crc_bit (Z.shiftl z (Z.of_nat n)) = z.
Proof.
  revert z. induction n as [|n IH]; intros z; [apply Z.shiftl_0_r|].
  rewrite Nat.iter_succ_r. unfold crc_bit at 2.
  assert (Z.land (Z.shiftl z (Z.of_nat (S n))) 1 = 0) as ->.
  { apply Z.bits_inj'. intros i Hi. rewrite Z.land_spec, Z.testbit_0_l, Z.shiftl_spec by lia.
    destruct (decide (i = 0)) as [->|]; [by rewrite Z.testbit_neg_r by lia|].
    change 1 with (Z.ones 1). rewrite Z.ones_spec_high by lia. apply andb_false_r. }
  cbn [Z.eqb]. rewrite Z.shiftr_shiftl_l by lia. replace (Z.of_nat (S n) - 1) with (Z.of_nat n) by lia. apply IH.
Qed.

Lemma crc_entry_iter i : 0 <= i < 256 -> crc_entry i = Nat.iter 8 crc_bit i.
Proof.
  intros Hi. unfold crc_entry, CRC32C_TABLE, aget.
  rewrite list_lookup_fmap, lookup_seq_lt by lia.
  change (Nat.iter 8 crc_bit (Z.of_nat (0 + Z.to_nat i)) = Nat.iter 8 crc_bit i).
  by rewrite Nat.add_0_l, Z2Nat.id by lia.
Qed.

Lemma crc_step_table crc b : 0 <= crc -> is_byte b -> crc_step crc b = crc_step_bitwise crc b.
Proof.
  intros Hc Hb. unfold crc_step, crc_step_bitwise, is_byte in *. change 0xFF with (Z.ones 8).
  set (x := Z.lxor crc b). rewrite crc_entry_iter by (rewrite Z.land_ones by lia; by apply Z.mod_pos_bound).
  assert (Z.shiftr crc 8 = Z.shiftr x 8) as ->.
  { unfold x. rewrite Z.shiftr_lxor, (Z.shiftr_div_pow2 b) by lia. rewrite (Z.div_small b) by (change (2 ^ 8) with 256; lia).
    by rewrite Z.lxor_0_r. }
  rewrite <-(crc_iter_shift 8 (Z.shiftr x 8)) at 1. rewrite <-crc_iter_lxor. f_equal.
  rewrite <-Z.ldiff_ones_r by lia. apply Z.bits_inj'. intros i Hi. rewrite Z.lxor_spec, Z.land_spec, Z.ldiff_spec.
  change (Z.of_nat 8) with 8. by destruct (Z.testbit x i), (Z.testbit (Z.ones 8) i).
Qed.

Lemma crc_entry_bound i : 0 <= i < 256 -> uint 32 (crc_entry i).
Proof.
  intros Hi. assert (H : forallb (fun c => bool_decide (uint 32 c)) CRC32C_TABLE = true) by (vm_compute; reflexivity).
  unfold crc_entry. destruct (aget_is_Some CRC32C_TABLE i) as [c Ec].
  { unfold alen, CRC32C_TABLE. rewrite length_map, length_seq. lia. }
  rewrite Ec. cbn. rewrite forallb_forall in H. apply (bool_decide_eq_true_1 (uint 32 c)), H, list_elem_of_In.
  by eapply list_elem_of_lookup_2.
Qed.

Lemma crc_top_inj i j : 0 <= i < 256 -> 0 <= j < 256 ->
  Z.shiftr (crc_entry i) 24 = Z.shiftr (crc_entry j) 24 -> i = j.
Proof.
  intros Hi Hj E.
  assert (Hn : NoDup ((fun c => Z.shiftr c 24) <$> CRC32C_TABLE)).
  { apply (bool_decide_eq_true_1 (NoDup _)). vm_compute. reflexivity. }
  assert (Hlen : alen CRC32C_TABLE = 256) by (unfold alen, CRC32C_TABLE; by rewrite length_map, length_seq).
  destruct (aget_is_Some CRC32C_TABLE i) as [c Ec]; [lia|].
  destruct (aget_is_Some CRC32C_TABLE j) as [d Ed]; [lia|].
  unfold crc_entry in E. rewrite Ec, Ed in E. change (Z.shiftr c 24 = Z.shiftr d 24) in E. unfold aget in *.
  enough (Z.to_nat i = Z.to_nat j) by lia.
  eapply NoDup_lookup; [exact Hn|rewrite list_lookup_fmap, Ec; reflexivity|rewrite list_lookup_fmap, Ed; cbn; by rewrite E].
Qed.

Lemma byte_land x : 0 <= Z.land x 0xFF < 256.
Proof. change 0xFF with (Z.ones 8). rewrite Z.land_ones by lia. by apply Z.mod_pos_bound. Qed.

Lemma crc_step_uint crc b : uint 32 crc -> uint 32 (crc_step crc b).
Proof.
  intros Hc. apply uint_lxor; [lia|apply crc_entry_bound, byte_land|].
  rewrite Z.shiftr_div_pow2 by lia. unfold uint in *. split; [apply Z.div_pos; lia|].
  apply Z.div_lt_upper_bound; lia.
Qed.

Lemma crc_fold_uint data crc : uint 32 crc -> uint 32 (foldl crc_step crc data).
Proof. revert crc. induction data as [|b data IH]; intros; cbn; [done|]. by apply IH, crc_step_uint. Qed.

(** The low byte of the register xored with a byte. *)
Lemma land_lxor_byte c b : is_byte b -> Z.land (Z.lxor c b) 0xFF = Z.lxor (c mod 256) b.
Proof.
  intros Hb. change 0xFF with (Z.ones 8). change 256 with (2 ^ 8). rewrite <-Z.land_ones by lia.
  apply Z.bits_inj'. intros i Hi. rewrite Z.land_spec, !Z.lxor_spec, Z.land_spec.
  destruct (decide (i < 8)); [rewrite Z.ones_spec_low by lia; by rewrite !andb_true_r|].
  rewrite Z.ones_spec_high, (uint_testbit_high 8 b) by (try done; lia). by rewrite !andb_false_r.
Qed.

Lemma crc_step_inj_crc c1 c2 b : uint 32 c1 -> uint 32 c2 -> is_byte b ->
  crc_step c1 b = crc_step c2 b -> c1 = c2.
Proof.
  intros H1 H2 Hb E.
  assert (Htop : forall c, uint 32 c ->
    Z.shiftr (crc_step c b) 24 = Z.shiftr (crc_entry (Z.land (Z.lxor c b) 0xFF)) 24).
  { intros c Hc. unfold crc_step. rewrite Z.shiftr_lxor, Z.shiftr_shiftr by lia.
    rewrite (Z.shiftr_div_pow2 c), (Z.div_small c) by (try done; lia). apply Z.lxor_0_r. }
  assert (Ei : Z.land (Z.lxor c1 b) 0xFF = Z.land (Z.lxor c2 b) 0xFF).
  { apply crc_top_inj; [apply byte_land..|]. by rewrite <-!Htop, E. }
  unfold crc_step in E. rewrite Ei in E. apply lxor_cancel_l in E.
  rewrite !land_lxor_byte in Ei by done. rewrite !(Z.lxor_comm _ b) in Ei. apply lxor_cancel_l in Ei.
  rewrite !Z.shiftr_div_pow2 in E by lia. change (2 ^ 8) with 256 in E. divlia.
Qed.

Lemma crc_step_inj_byte c a b : is_byte a -> is_byte b -> crc_step c a = crc_step c b -> a = b.
Proof.
  intros Ha Hb E. unfold crc_step in E. rewrite !(Z.lxor_comm _ (Z.shiftr c 8)) in E. apply lxor_cancel_l in E.
  apply (f_equal (fun x => Z.shiftr x 24)), crc_top_inj in E; [|apply byte_land..].
  rewrite !land_lxor_byte in E by done. by apply lxor_cancel_l in E.
Qed.

Lemma crc_fold_inj data c1 c2 : uint 32 c1 -> uint 32 c2 -> Forall is_byte data ->
  foldl crc_step c1 data = foldl crc_step c2 data -> c1 = c2.
Proof.
  intros H1 H2 Hd. revert c1 c2 H1 H2. induction Hd as [|b data Hb _ IH]; intros c1 c2 H1 H2; cbn; [done|].
  intros E%IH; [|by apply crc_step_uint..]. by apply crc_step_inj_crc in E.
Qed.

Lemma unot_inj w a b : unot w a = unot w b -> a = b.
Proof. unfold unot. rewrite !(Z.lxor_comm _ (Z.ones w)). apply lxor_cancel_l. Qed.

Lemma crc32c_uint data : uint 32 (crc32c data).
Proof. apply uint_lxor; [lia|apply crc_fold_uint|]; vm_compute; split; congruence. Qed.

Lemma crc32c_byte_error pre a b post :
  is_byte a -> is_byte b -> Forall is_byte post -> a <> b ->
  crc32c (pre ++ a :: post) <> crc32c (pre ++ b :: post).
Proof.
  intros Ha Hb Hp Hne E%unot_inj. rewrite !foldl_app in E. cbn [foldl] in E.
  assert (uint 32 (foldl crc_step (unot 32 0) pre)) by (apply crc_fold_uint; vm_compute; split; congruence).
  apply crc_fold_inj in E; [|by apply crc_step_uint..|done]. by apply crc_step_inj_byte in E.
Qed.

Lemma crc32c_bitwise data : Forall is_byte data ->
  crc32c data = unot 32 (foldl crc_step_bitwise (unot 32 0) data).
Proof.
  intros Hd. unfold crc32c. f_equal. assert (Hc : uint 32 (unot 32 0)) by (vm_compute; split; congruence).
  revert Hc. generalize (unot 32 0). induction Hd as [|b data Hb _ IH]; intros c Hc; cbn [foldl]; [done|].
  rewrite <-crc_step_table by (try done; apply Hc). by apply IH, crc_step_uint.
Qed.

(** ** The block index refines a bounded finite map with reference counts *)

Module MemSpec.
Import MemTable.

Abbreviation block_map := (gmap ContentHash (BlockLocation * Z)).

Inductive op := Get (k : ContentHash) | Insert (k : ContentHash) (loc : BlockLocation)
| Remove (k : ContentHash) | DecRef (k : ContentHash) | IncRef (k : ContentHash).

Inductive out := OEntry (o : option (BlockLocation * Z)) | OInserted (r : result StorageError bool)
| ORemoved (o : option BlockLocation) | ODec (o : option (BlockLocation * bool)) | OInc (found : bool).

Definition value (e : entry) : BlockLocation * Z := (location e, refcount e).

(** One call on the table; [None] is the overflow panic of [refcount += 1]. *)
Definition step (m : t) (o : op) : option (out * t) :=
  match o with
  | Get k => Some (OEntry (value <$> get m k), m)
  | Insert k loc => '(r, m') ← insert m k loc; Some (OInserted r, m')
  | Remove k => let '(r, m') := remove m k in Some (ORemoved r, m')
  | DecRef k => let '(r, m') := dec_ref m k in Some (ODec r, m')
  | IncRef k =>
      match get_mut m k with
      | Some (e, put) => e' ← bump e; Some (OInc true, put e')
      | None => Some (OInc false, m)
      end
  end.

(** The same calls on the map: what the index promises. *)
Definition spec_step (cap : Z) (M : block_map) (o : op) : option (out * block_map) :=
  match o with
  | Get k => Some (OEntry (M !! k), M)
  | Insert k loc =>
      match M !! k with
      | Some (l, n) => n' ← checked_add 32 n 1; Some (OInserted (Ok false), <[k := (l, n')]> M)
      | None => if Z.of_nat (size M) >=? cap then Some (OInserted (Err MemTableFull), M)
                else Some (OInserted (Ok true), <[k := (loc, 1)]> M)
      end
  | Remove k => Some (ORemoved (fst <$> M !! k), delete k M)
  | DecRef k =>
      match M !! k with
      | Some (l, n) => if n <=? 1 then Some (ODec (Some (l, true)), delete k M)
                       else Some (ODec (Some (l, false)), <[k := (l, n - 1)]> M)
      | None => Some (ODec None, M)
      end
  | IncRef k =>
      match M !! k with
      | Some (l, n) => n' ← checked_add 32 n 1; Some (OInc true, <[k := (l, n')]> M)
      | None => Some (OInc false, M)
      end
  end.

(** The outputs of a run; it ends at a panic. *)
Fixpoint run {S} (f : S -> op -> option (out * S)) (s : S) (os : list op) : list (option out) :=
  match os with
  | [] => []
  | o :: os' => match f s o with Some (r, s') => Some r :: run f s' os' | None => [None] end
  end.

Record rep (cap : Z) (m : t) (M : block_map) : Prop := {
  rep_sorted : sorted key (entries m);
  rep_map : value <$> as_map key (entries m) = M;
  rep_cap : capacity m = cap
}.

Lemma rep_lookup cap m M k : rep cap m M ->
  match binary_search m k with
  | Ok i => exists e, entries m !! i = Some e /\ key e = k /\ M !! k = Some (value e)
  | Err _ => M !! k = None
  end.
Proof.
  intros [Hs Hm _]. unfold binary_search. destruct (binary_search_by key (entries m) k) as [i|i] eqn:Hb.
  - destruct (search_Ok key _ _ _ Hs Hb) as (e & ? & ? & He). exists e. split_and!; [done..|].
    by rewrite <-Hm, lookup_fmap, He.
  - by rewrite <-Hm, lookup_fmap, (search_Err key _ _ _ Hs Hb).
Qed.

Lemma rep_size cap m M : rep cap m M -> Z.of_nat (size M) = alen (entries m).
Proof. intros [Hs <- _]. by rewrite map_size_fmap, as_map_size. Qed.

Lemma rep_update cap m M k i e : rep cap m M -> binary_search m k = Ok i -> key e = k ->
  rep cap (mk (<[i := e]> (entries m)) (capacity m)) (<[k := value e]> M).
Proof.
  intros [Hs Hm Hc] Hb Hk. destruct (vec_update_ok key _ _ _ e Hs Hb Hk) as [Hs' Hm'].
  split; [done| |done]. cbn [entries]. by rewrite Hm', fmap_insert, Hm.
Qed.

Lemma rep_delete cap m M k i : rep cap m M -> binary_search m k = Ok i ->
  rep cap (mk (delete i (entries m)) (capacity m)) (delete k M).
Proof.
  intros [Hs Hm Hc] Hb. destruct (vec_remove_ok key _ _ _ Hs Hb) as [Hs' Hm'].
  split; [done| |done]. cbn [entries]. by rewrite Hm', fmap_delete, Hm.
Qed.

Lemma rep_insert cap m M k i loc : rep cap m M -> binary_search m k = Err i ->
  rep cap (mk (vec_insert (entries m) i (mk_entry k loc 1)) (capacity m)) (<[k := (loc, 1)]> M).
Proof.
  intros [Hs Hm Hc] Hb. destruct (vec_insert_ok key _ _ _ (mk_entry k loc 1) Hs Hb eq_refl) as [Hs' Hm'].
  split; [done| |done]. cbn [entries]. by rewrite Hm', fmap_insert, Hm.
Qed.

Lemma rep_new cap : rep cap (new cap) ∅.
Proof. split; [|apply fmap_empty|done]. intros i j a b _. cbn. by rewrite lookup_nil. Qed.

(** A call on the table and the same call on the map answer alike and stay related. *)
Definition related (cap : Z) (x : option (out * t)) (y : option (out * block_map)) : Prop :=
  match x, y with
  | Some (r, m), Some (r', M) => r = r' /\ rep cap m M
  | None, None => True
  | _, _ => False
  end.

Lemma bump_spec e : bump e = (fun n => mk_entry (key e) (location e) n) <$> checked_add 32 (refcount e) 1.
Proof. unfold bump. by destruct (checked_add _ _ _). Qed.

Lemma step_related cap m M o : rep cap m M -> related cap (step m o) (spec_step cap M o).
Proof.
  intros HR. destruct o as [k|k loc|k|k|k];
    pose proof (rep_lookup cap m M k HR) as Hl; cbn [step spec_step];
    unfold get, insert, remove, dec_ref, get_mut; destruct (binary_search m k) as [i|i] eqn:Hb.
  all: try (destruct Hl as (e & Ei & Ek & HM); rewrite Ei, HM; unfold value at 1; cbn [mbind option_bind fmap option_fmap option_map]).
  all: try rewrite Hl; try rewrite bump_spec.
  1, 2: by split.
  - destruct (checked_add 32 (refcount e) 1) as [n|]; [|done]. cbn. split; [done|].
    by apply (rep_update cap m M k i (mk_entry (key e) (location e) n)).
  - unfold is_full. rewrite (rep_size cap m M HR). destruct (rep_cap _ _ _ HR).
    destruct (_ >=? _); cbn [related]; (split; [done|]); [done|]. by apply rep_insert.
  - split; [done|]. by apply rep_delete.
  - split; [done|]. by rewrite delete_id.
  - destruct (refcount e <=? 1); cbn [related]; (split; [done|]); [by apply rep_delete|].
    by apply (rep_update cap m M k i (mk_entry (key e) (location e) (refcount e - 1))).
  - by split.
  - destruct (checked_add 32 (refcount e) 1) as [n|]; [|done]. cbn. split; [done|].
    by apply (rep_update cap m M k i (mk_entry (key e) (location e) n)).
  - by split.
Qed.

Lemma run_related cap os m M : rep cap m M -> run step m os = run (spec_step cap) M os.
Proof.
  revert m M. induction os as [|o os IH]; intros m M HR; [done|]. cbn [run].
  pose proof (step_related cap m M o HR) as Hs. unfold related in Hs.
  destruct (step m o) as [[r m']|], (spec_step cap M o) as [[r' M']|]; [|done..].
  destruct Hs as [-> HR']. by rewrite (IH m' M').
Qed.
End MemSpec.

(** ** [repr(C)] layouts *)

Lemma field_here (a b : list Z) off n : off = O -> length a = n -> field (a ++ b) off n = a.
Proof. intros -> <-. apply take_app_length. Qed.

Lemma field_last (a : list Z) off n : off = O -> length a = n -> field a off n = a.
Proof. intros -> <-. by apply take_ge. Qed.

Lemma field_skip (a b : list Z) off n :
  (length a <= off)%nat -> field (a ++ b) off n = field b (off - length a) n.
Proof. intros. unfold field. by rewrite drop_app_ge. Qed.

Lemma le_val_uint w n z : uint w z -> w = 8 * Z.of_nat n -> le_val (le_bytes n z) = z.
Proof. intros Hz ->. apply le_val_small. unfold uint in Hz. by rewrite Z.pow_mul_r in Hz by lia. Qed.

(** Reads one field of a concatenation of fields of known lengths. *)
Ltac field_len := rewrite ?length_le_bytes; cbn [length]; lia.
Ltac fields :=
  repeat first
    [ rewrite field_here by field_len
    | rewrite field_last by field_len
    | rewrite field_skip by field_len ];
  try (eapply le_val_uint; [eassumption|lia]); try done.

(** ** The 64-byte log entry *)

Module WalEntryLaws.
Import WalEntry.

(** The sizes and widths of the Rust fields. *)
Record typed (e : t) : Prop := {
  t_seq : uint 64 (sequence_number e);
  t_block : length (block_id e) = 32%nat;
  t_block_bytes : Forall is_byte (block_id e);
  t_offset : uint 64 (data_offset e);
  t_size : uint 32 (data_size e);
  t_committed : uint 8 (committed e);
  t_pad : length (pad e) = 3%nat;
  t_pad_bytes : Forall is_byte (pad e);
  t_checksum : uint 32 (checksum e);
  t_pad2 : length (pad2 e) = 4%nat;
  t_pad2_bytes : Forall is_byte (pad2 e)
}.

Lemma body_length e : typed e -> length (body e) = 56%nat.
Proof. intros []. unfold body. rewrite !length_app, !length_le_bytes. lia. Qed.

Lemma bytes_length e : typed e -> length (bytes e) = 64%nat.
Proof. intros H. pose proof (body_length e H). destruct H. unfold bytes. rewrite !length_app, !length_le_bytes. lia. Qed.

Lemma body_bytes e : typed e -> Forall is_byte (body e).
Proof. intros []. unfold body. rewrite !Forall_app. split_and!; auto with aios. Qed.

Lemma bytes_bytes e : typed e -> Forall is_byte (bytes e).
Proof.
  intros He. unfold bytes. rewrite !Forall_app.
  split_and!; [by apply body_bytes|auto with aios|apply He].
Qed.

Lemma of_bytes_bytes e : typed e -> of_bytes (bytes e) = e.
Proof.
  intros []. unfold of_bytes, bytes, body. rewrite <-!app_assoc. destruct e as [seq blk off sz com p ck p2].
  cbn [sequence_number block_id data_offset data_size committed pad checksum pad2] in *. f_equal; fields.
Qed.

Lemma seal_valid e : is_valid (seal e) = true.
Proof. apply Z.eqb_refl. Qed.

Lemma seal_typed e : typed e -> typed (seal e).
Proof. intros []. split; try done. apply crc32c_uint. Qed.

Lemma set_committed_typed e : typed e -> typed (set_committed e).
Proof. by intros []; split. Qed.

Lemma new_typed seq blk off sz : uint 64 seq -> length blk = 32%nat -> Forall is_byte blk ->
  uint 64 off -> uint 32 sz -> typed (new seq blk off sz 0).
Proof. intros. split; try done; by repeat constructor. Qed.
End WalEntryLaws.

Module WalTamper.
Import WalEntry WalEntryLaws.

Lemma field_split b off n m : field b off (n + m) = field b off n ++ field b (off + n) m.
Proof. unfold field. by rewrite <-take_take_drop, drop_drop. Qed.

Lemma field_bytes b off n : Forall is_byte b -> Forall is_byte (field b off n).
Proof. intros. by apply Forall_take, Forall_drop. Qed.

Lemma field_le b off n : Forall is_byte b -> (off + n <= length b)%nat ->
  le_bytes n (le_val (field b off n)) = field b off n.
Proof.
  intros Hb Hl. rewrite <-(le_bytes_le_val (field b off n)) at 2 by by apply field_bytes.
  f_equal. unfold field. rewrite length_take, length_drop. lia.
Qed.

(** The bytes covered by the checksum survive a read. *)
Lemma body_of_bytes b : length b = 64%nat -> Forall is_byte b -> body (of_bytes b) = take 56 b.
Proof.
  intros Hl Hb. unfold body, of_bytes. cbn [sequence_number block_id data_offset data_size committed pad].
  rewrite !field_le by (done || lia). change (take 56 b) with (field b 0 (8 + (32 + (8 + (4 + (1 + 3)))))).
  by rewrite !field_split.
Qed.

Lemma checksum_of_bytes b : checksum (of_bytes b) = le_val (field b 56 4).
Proof. done. Qed.

Lemma le_val_inj a b : Forall is_byte a -> Forall is_byte b -> length a = length b ->
  le_val a = le_val b -> a = b.
Proof.
  intros Ha Hb Hl E. rewrite <-(le_bytes_le_val a), <-(le_bytes_le_val b) by done. by rewrite Hl, E.
Qed.

Lemma tamper_body bs i x y : length bs = 64%nat -> Forall is_byte bs -> is_byte y ->
  (i < 56)%nat -> bs !! i = Some x -> x <> y ->
  compute_checksum (of_bytes (<[i := y]> bs)) <> compute_checksum (of_bytes bs).
Proof.
  intros Hl Hb Hy Hi Hx Hne. unfold compute_checksum.
  rewrite !body_of_bytes by (rewrite ?length_insert; try done; by apply Forall_insert).
  rewrite take_insert_lt by done.
  assert (Hx' : take 56 bs !! i = Some x) by by rewrite lookup_take_lt.
  intros E. apply (crc32c_byte_error (take i (take 56 bs)) x y (drop (S i) (take 56 bs))); try done.
  - rewrite Forall_lookup in Hb. eauto.
  - by apply Forall_drop, Forall_take.
  - rewrite (take_drop_middle _ _ _ Hx'), <-E. by rewrite insert_take_drop by (rewrite length_take; lia).
Qed.

Lemma insert_field_other bs i y off n : (i < off \/ off + n <= i)%nat ->
  field (<[i := y]> bs) off n = field bs off n.
Proof.
  intros Hi. apply list_eq. intros j. unfold field. destruct (decide (j < n)%nat); [|by rewrite !lookup_take_ge by lia].
  rewrite !lookup_take_lt, !lookup_drop by done. apply list_lookup_insert_ne. lia.
Qed.

Lemma tamper_checksum bs i x y : length bs = 64%nat -> Forall is_byte bs -> is_byte y ->
  (56 <= i < 60)%nat -> bs !! i = Some x -> x <> y ->
  checksum (of_bytes (<[i := y]> bs)) <> checksum (of_bytes bs).
Proof.
  intros Hl Hb Hy Hi Hx Hne. rewrite !checksum_of_bytes. intros E%le_val_inj.
  - apply (f_equal (fun l => l !! (i - 56)%nat)) in E. unfold field in E.
    rewrite !lookup_take_lt, !lookup_drop in E by lia. replace (56 + (i - 56))%nat with i in E by lia.
    rewrite list_lookup_insert_eq, Hx in E by lia. congruence.
  - by apply field_bytes, Forall_insert.
  - by apply field_bytes.
  - unfold field. rewrite !length_take, !length_drop, length_insert. done.
Qed.

Lemma tamper_rejected bs i x y : length bs = 64%nat -> Forall is_byte bs -> is_byte y ->
  (i < 60)%nat -> bs !! i = Some x -> x <> y ->
  is_valid (of_bytes bs) = true -> is_valid (of_bytes (<[i := y]> bs)) = false.
Proof.
  intros Hl Hb Hy Hi Hx Hne Hv. unfold is_valid in *. apply Z.eqb_eq in Hv. apply Z.eqb_neq.
  destruct (decide (i < 56)%nat) as [Hlt|Hge].
  - rewrite checksum_of_bytes, insert_field_other, <-checksum_of_bytes, Hv by lia.
    intros E. symmetry in E. by eapply tamper_body in E.
  - assert (compute_checksum (of_bytes (<[i := y]> bs)) = compute_checksum (of_bytes bs)) as ->.
    { unfold compute_checksum. rewrite !body_of_bytes by (rewrite ?length_insert; try done; by apply Forall_insert).
      f_equal. apply (insert_field_other bs i y 0 56). lia. }
    rewrite <-Hv. by eapply tamper_checksum; [..|done|done]; try done; lia.
Qed.
End WalTamper.

(** ** Properties *)

(** [MemTable] (a sorted [Vec] searched by [binary_search_by]) refines a bounded
    finite map from content hashes to a location and a reference count: every
    sequence of [get], [insert], [remove], [dec_ref] and refcount increments gives
    the same answers, error cases and the overflow panic included, as on the map. *)
Theorem memtable_refines_map (cap : Z) (os : list MemSpec.op) :
  MemSpec.run MemSpec.step (MemTable.new cap) os = MemSpec.run (MemSpec.spec_step cap) ∅ os.
Proof. apply MemSpec.run_related, MemSpec.rep_new. Qed.

(** the table-driven [crc32c] computes the bitwise polynomial division, and two
    byte strings of equal length that differ in exactly one byte never have the
    same checksum. *)
Theorem crc32c_exact (pre post : list Z) (a b : Z) :
  Forall is_byte pre -> Forall is_byte post -> is_byte a -> is_byte b -> a <> b ->
  crc32c (pre ++ a :: post) = unot 32 (foldl crc_step_bitwise (unot 32 0) (pre ++ a :: post)) /\
  crc32c (pre ++ a :: post) <> crc32c (pre ++ b :: post).
Proof.
  intros Hpre Hpost Ha Hb Hne. split; [|by apply crc32c_byte_error].
  apply crc32c_bitwise. apply Forall_app. by split; [|constructor].
Qed.

Lemma crc32c_exact_witness :
  crc32c [49; 50; 51; 52; 53; 54; 55; 56; 57] = 0xE3069283 /\
  crc32c [49; 50; 51] <> crc32c [49; 48; 51].
Proof.
  split; [vm_compute; reflexivity|].
  refine (proj2 (crc32c_exact [49] [51] 50 48 _ _ _ _ _)); try done; unfold is_byte; repeat constructor; lia.
Defined.

(** a write-ahead-log entry read back from its 64 bytes is the entry that was
    written; sealing it makes it valid; and changing any one of the bytes the
    checksum covers, or of the checksum, makes [is_valid] reject it. *)
Theorem wal_entry_integrity (e : WalEntry.t) (i : nat) (x y : Z) :
  WalEntryLaws.typed e ->
  let bs := WalEntry.bytes (WalEntry.seal e) in
  (i < 60)%nat -> bs !! i = Some x -> is_byte y -> x <> y ->
  WalEntry.of_bytes bs = WalEntry.seal e /\
  WalEntry.is_valid (WalEntry.of_bytes bs) = true /\
  WalEntry.is_valid (WalEntry.of_bytes (<[i := y]> bs)) = false.
Proof.
  intros He bs Hi Hx Hy Hne. pose proof (WalEntryLaws.seal_typed e He) as Hs.
  assert (Hr : WalEntry.of_bytes bs = WalEntry.seal e) by by apply WalEntryLaws.of_bytes_bytes.
  assert (Hv : WalEntry.is_valid (WalEntry.of_bytes bs) = true) by (rewrite Hr; apply WalEntryLaws.seal_valid).
  split_and!; [done..|]. apply (WalTamper.tamper_rejected bs i x y); try done.
  - by apply WalEntryLaws.bytes_length.
  - by apply WalEntryLaws.bytes_bytes.
Qed.

Lemma wal_entry_integrity_witness :
  let e := WalEntry.new 7 (replicate 32 0xAB) 67112960 100 0 in
  WalEntry.is_valid (WalEntry.of_bytes (<[9%nat := 0]> (WalEntry.bytes (WalEntry.seal e)))) = false.
Proof.
  cbv zeta. refine (proj2 (proj2 (wal_entry_integrity _ 9 0xAB 0 _ _ _ _ _))); try done; try lia.
  apply WalEntryLaws.new_typed; try done. by repeat constructor.
Defined.
