(* ===== verification/Prog.v ===== *)
(** * Stateful, fallible code

    A Rust function that mutates state [S], returns [Result<A, E>] and may panic is a
    [prog S E A]: it maps a state to [None] (a panic: an overflow, a slice out of range,
    a division by zero) or to a result and the state it left, errors included: the
    [?] operator returns early and keeps the writes already made. *)

From S2P Require Import Prelude.

Definition prog (S E A : Type) : Type := S -> option (result E A * S).

Section prog.
Context {S E : Type}.

Definition pret {A} (a : A) : prog S E A := fun s => Some (Ok a, s).
Definition pfail {A} (e : E) : prog S E A := fun s => Some (Err e, s).
Definition panic {A} : prog S E A := fun _ => None.

(** [let a = m?; f(a)] *)
Definition pbind {A B} (m : prog S E A) (f : A -> prog S E B) : prog S E B := fun s =>
  match m s with
  | Some (Ok a, s') => f a s'
  | Some (Err e, s') => Some (Err e, s')
  | None => None
  end.

(** [let r = m;] a call whose error is inspected or ignored by the caller. *)
Definition pcatch {A} (m : prog S E A) : prog S E (result E A) := fun s =>
  match m s with Some (r, s') => Some (Ok r, s') | None => None end.

Definition pget : prog S E S := fun s => Some (Ok s, s).
Definition pput (s' : S) : prog S E unit := fun _ => Some (Ok tt, s').

(** Lifts [Result] and arithmetic that panics. *)
Definition plift {A} (r : result E A) : prog S E A := fun s => Some (r, s).
Definition pchecked {A} (o : option A) : prog S E A :=
  match o with Some a => pret a | None => panic end.
End prog.

(** Runs a program on a component [T] of the state. *)
Definition zoom {S T E A} (get : S -> T) (set : S -> T -> S) (m : prog T E A) : prog S E A := fun s =>
  match m (get s) with Some (r, t) => Some (r, set s t) | None => None end.

Declare Scope prog_scope.
Delimit Scope prog_scope with prog.
Notation "x <- m ;; k" := (pbind m (fun x => k))
  (at level 100, m at next level, right associativity) : prog_scope.
Notation "m ;;; k" := (pbind m (fun _ => k))
  (at level 100, right associativity) : prog_scope.

Section laws.
Context {S E : Type}.

Lemma pbind_Ok {A B} (m : prog S E A) (f : A -> prog S E B) s a s1 :
  m s = Some (Ok a, s1) -> pbind m f s = f a s1.
Proof. unfold pbind. by intros ->. Qed.

Lemma pbind_inv {A B} (m : prog S E A) (f : A -> prog S E B) s r s' :
  pbind m f s = Some (r, s') ->
  (exists e, m s = Some (Err e, s') /\ r = Err e) \/
  (exists a s1, m s = Some (Ok a, s1) /\ f a s1 = Some (r, s')).
Proof.
  unfold pbind. destruct (m s) as [[[a|e] s1]|]; [|intros [= <- <-]|done].
  - intros H. right. by exists a, s1.
  - left. by exists e.
Qed.

Lemma pbind_get {A} (f : S -> prog S E A) s : pbind pget f s = f s s.
Proof. done. Qed.

Lemma pbind_put {A} (f : unit -> prog S E A) s s' : pbind (pput s') f s = f tt s'.
Proof. done. Qed.

Lemma pbind_checked_inv {A B} (o : option A) (f : A -> prog S E B) s x :
  pbind (pchecked o) f s = Some x -> exists a, o = Some a /\ f a s = Some x.
Proof. destruct o as [a|]; [|done]. intros H. by exists a. Qed.

(** A property of states that each step keeps, on errors too. *)
Definition keeps {A} (P : S -> Prop) (m : prog S E A) : Prop :=
  forall s r s', P s -> m s = Some (r, s') -> P s'.

Lemma keeps_bind {A B} P (m : prog S E A) (f : A -> prog S E B) :
  keeps P m -> (forall a, keeps P (f a)) -> keeps P (pbind m f).
Proof.
  intros Hm Hf s r s' Hs [(e & H & _)|(a & s1 & H1 & H2)]%pbind_inv; [by eapply Hm|].
  eapply Hf; [|exact H2]. by eapply Hm.
Qed.

Lemma keeps_ret {A} P (a : A) : keeps P (pret (E := E) a).
Proof. intros s r s' ?. unfold pret. naive_solver. Qed.
Lemma keeps_fail {A} P (e : E) : keeps P (pfail (A := A) e).
Proof. intros s r s' ?. unfold pfail. naive_solver. Qed.
Lemma keeps_lift {A} P (r : result E A) : keeps P (plift r).
Proof. intros s r' s' ?. unfold plift. naive_solver. Qed.
Lemma keeps_checked {A} P (o : option A) : keeps P (pchecked (E := E) o).
Proof. intros s r s' ?. destruct o; cbn; unfold pret, panic; naive_solver. Qed.
(** After reading the state, the property is known of the state that was read. *)
Lemma keeps_get {A} P (f : S -> prog S E A) :
  (forall s, P s -> keeps P (f s)) -> keeps P (pbind pget f).
Proof. intros Hf s r s' Hs. unfold pbind, pget. by apply Hf. Qed.
Lemma keeps_put P s : P s -> keeps P (pput (E := E) s).
Proof. intros ? s1 r s' ?. unfold pput. naive_solver. Qed.
Lemma keeps_catch {A} P (m : prog S E A) : keeps P m -> keeps P (pcatch m).
Proof.
  intros Hm s r s' Hs. unfold pcatch. destruct (m s) as [[r1 s1]|] eqn:E1; [|done].
  intros [= <- <-]. by eapply Hm.
Qed.
End laws.

(** Decomposes [keeps P m] along the program; leaves the calls and the writes. *)
Ltac keeps :=
  repeat match goal with
  | |- keeps _ (pbind pget _) => apply keeps_get; intros ? ?
  | |- keeps _ (pbind _ _) => apply keeps_bind; [|intros ?]
  | |- keeps _ (pret _) => apply keeps_ret
  | |- keeps _ (pfail _) => apply keeps_fail
  | |- keeps _ (plift _) => apply keeps_lift
  | |- keeps _ (pchecked _) => apply keeps_checked
  | |- keeps _ (pcatch _) => apply keeps_catch
  | |- keeps _ (pput _) => apply keeps_put
  | |- keeps _ (let _ := _ in _) => cbv zeta
  | |- keeps _ (match ?x with _ => _ end) => destruct x
  end.

(** Splits a run of a sequence of calls into the runs of the calls. *)
Ltac prog_inv H :=
  let e := fresh "e" in let a := fresh "a" in let s := fresh "s" in
  let H1 := fresh "Hm" in let H2 := fresh "Hk" in
  apply pbind_inv in H as [(e & H1 & H2)|(a & s & H1 & H2)].
