(* ===== verification/BlockDevice.v ===== *)
(** * The block device

    The storage stack reads and writes 512-byte sectors through
    [virtio_blk::read_sector] and [write_sector] (kernel/src/drivers/virtio_blk.rs).
    [BlockDevice] is that interface and [BlockDeviceSpec] what the stack relies
    on; [ReliableDevice] is a device on which no request fails.

    [VirtioBlk] models the driver's entry points (the missing-device and capacity
    checks) over the virtqueue request [submit_request], which talks to hardware and is a
    parameter; [RamDisk] is a concrete device that the witnesses run on. *)

From S2P Require Import SortedVec Prelude Storage.

Class BlockDevice (D : Type) := {
  read_sector : D -> Z -> result StorageError (list Z);
  write_sector : D -> Z -> list Z -> result StorageError unit * D;
  capacity_sectors : D -> Z
}.

Definition sector (b : list Z) : Prop := length b = 512%nat /\ Forall is_byte b.

#[export] Instance sector_dec b : Decision (sector b).
Proof. unfold sector, is_byte. apply _. Defined.

(** A write that succeeds is what a later read returns; a write, failed or not,
    changes no other sector; requests outside the device fail. *)
Class BlockDeviceSpec (D : Type) {BD : BlockDevice D} : Prop := {
  read_is_sector d s b : read_sector d s = Ok b -> sector b;
  read_in_range d s b : read_sector d s = Ok b -> s < capacity_sectors d;
  write_capacity d s b : capacity_sectors (write_sector d s b).2 = capacity_sectors d;
  write_same d s b d' : sector b -> write_sector d s b = (Ok tt, d') -> read_sector d' s = Ok b;
  write_other d s s' b : s' <> s -> read_sector (write_sector d s b).2 s' = read_sector d s'
}.

(** Every request inside the device succeeds. *)
Class ReliableDevice (D : Type) {BD : BlockDevice D} : Prop := {
  reliable_read d s : 0 <= s < capacity_sectors d -> exists b, read_sector d s = Ok b;
  reliable_write d s b : 0 <= s < capacity_sectors d -> (write_sector d s b).1 = Ok tt
}.

(** ** The driver's entry points *)

Module VirtioBlk.
Section driver.
(** [submit_request] for a read and for a write, on the hardware's state. *)
Context {H : Type} (request_in : H -> Z -> result StorageError (list Z))
  (request_out : H -> Z -> list Z -> result StorageError unit * H).

Record t := mk { capacity : Z; hw : H }.

(** [VIRTIO_BLK]: [None] until a device was probed. *)
Definition state := option t.

Definition read (st : state) (s : Z) : result StorageError (list Z) :=
  match st with
  | None => Err DeviceNotFound
  | Some blk => if s >=? capacity blk then Err IoError else request_in (hw blk) s
  end.

Definition write (st : state) (s : Z) (b : list Z) : result StorageError unit * state :=
  match st with
  | None => (Err DeviceNotFound, st)
  | Some blk => if s >=? capacity blk then (Err IoError, st) else
      let '(r, h) := request_out (hw blk) s b in (r, Some (mk (capacity blk) h))
  end.

Definition sectors (st : state) : Z := match st with Some blk => capacity blk | None => 0 end.

#[export] Instance virtio_device : BlockDevice state := {|
  read_sector := read; write_sector := write; capacity_sectors := sectors |}.

(** The driver meets the interface when the virtqueue requests do. *)
Lemma virtio_device_spec :
  (forall h s b, request_in h s = Ok b -> sector b) ->
  (forall h s b h', sector b -> request_out h s b = (Ok tt, h') -> request_in h' s = Ok b) ->
  (forall h s s' b, s' <> s -> request_in (request_out h s b).2 s' = request_in h s') ->
  BlockDeviceSpec state.
Proof.
  intros Hsec Hsame Hother. split; cbn.
  - intros [blk|] s b; cbn; [|done]. destruct (_ >=? _); [done|]. apply Hsec.
  - intros [blk|] s b; cbn; [|done]. destruct (Z.geb_spec s (capacity blk)); [done|]. lia.
  - intros [blk|] s b; cbn; [|done]. destruct (_ >=? _); [done|]. by destruct (request_out _ _ _).
  - intros [blk|] s b d' Hb; cbn; [|done]. destruct (s >=? capacity blk) eqn:Ec; [done|].
    destruct (request_out (hw blk) s b) as [r h] eqn:Er. intros [= -> <-]. cbn. rewrite Ec. by eapply Hsame.
  - intros [blk|] s s' b Hne; cbn; [|done]. destruct (s >=? capacity blk); [done|].
    specialize (Hother (hw blk) s s' b Hne). destruct (request_out (hw blk) s b) as [r h]. cbn in *.
    by destruct (s' >=? capacity blk).
Qed.
End driver.
End VirtioBlk.

(** ** A disk in memory *)

Module RamDisk.
Record t := mk { size : Z; sectors : gmap Z (list Z) }.

Definition zeros : list Z := replicate 512 0.

Definition read (d : t) (s : Z) : result StorageError (list Z) :=
  if (0 <=? s) && (s <? size d) then
    Ok (match sectors d !! s with
        | Some b => if bool_decide (sector b) then b else zeros
        | None => zeros
        end)
  else Err IoError.

Definition write (d : t) (s : Z) (b : list Z) : result StorageError unit * t :=
  if (0 <=? s) && (s <? size d) then (Ok tt, mk (size d) (<[s := b]> (sectors d))) else (Err IoError, d).

#[global] Instance ram_device : BlockDevice t := {|
  read_sector := read; write_sector := write; capacity_sectors := size |}.

Lemma zeros_sector : sector zeros.
Proof. split; [done|]. apply Forall_replicate. unfold is_byte. lia. Qed.

#[global] Instance ram_device_spec : BlockDeviceSpec t.
Proof.
  split; cbn; unfold read, write.
  - intros d s b. destruct (_ && _); [|done]. intros [= <-].
    destruct (sectors d !! s) as [b'|]; [case_bool_decide; [done|]|]; apply zeros_sector.
  - intros d s b. destruct (Z.ltb_spec s (size d)); [done|]. by rewrite andb_false_r.
  - intros d s b. by destruct (_ && _).
  - intros d s b d' Hb. destruct (_ && _) eqn:Er; [|done]. intros [= <-]. cbn. rewrite Er, lookup_insert_eq.
    by rewrite bool_decide_eq_true_2.
  - intros d s s' b Hne. destruct ((0 <=? s) && (s <? size d)); [|done]. cbn. by rewrite lookup_insert_ne.
Qed.

#[global] Instance ram_device_reliable : ReliableDevice t.
Proof.
  split; cbn; unfold read, write; intros d s *; intros [? ?];
    rewrite (proj2 (Z.leb_le 0 s)), (proj2 (Z.ltb_lt s (size d))) by done; [by eexists|done].
Qed.
End RamDisk.
