(* ===== verification/Wal.v ===== *)
(** * The write-ahead log

    Models kernel/src/storage/wal.rs: a ring of 64-byte entries, eight to a sector, in a
    region of the disk.  Positions [head] and [tail] are logical and only grow; an
    entry's slot is its position modulo the capacity.  Programs run on the
    device and the log's state.

    The abstract log is the list of the live entries ([ring]); on a reliable
    device [append], [commit_at], [commit] and [trim_committed] implement the list
    operations.  On any device, they touch no sector outside their region
    ([outside_region]). *)

From S2P Require Import SortedVec Prelude Prog Storage BlockDevice.
Open Scope prog_scope.

Module Wal.
Record t := mk {
  start_sector : Z;
  size_sectors : Z;
  head : Z;
  tail : Z;
  next_sequence : Z
}.

Definition new (start size : Z) : t := mk start size 0 0 1.

Definition capacity_entries (w : t) : option Z := checked_mul 64 (size_sectors w) WAL_ENTRIES_PER_SECTOR.

Definition set_positions (w : t) (head tail next_seq : Z) : t :=
  mk (start_sector w) (size_sectors w) head tail next_seq.

(** The disk sector and the byte offset in it of a logical index, as [read_entry] and
    [write_entry] compute them ([%] panics on an empty log). *)
Definition locate (w : t) (index : Z) : option (Z * nat) :=
  cap ← capacity_entries w;
  if cap =? 0 then None else
  let wrapped := index mod cap in
  let sector_in_wal := wrapped / WAL_ENTRIES_PER_SECTOR in
  let entry_in_sector := wrapped mod WAL_ENTRIES_PER_SECTOR in
  disk_sector ← checked_add 64 (start_sector w) sector_in_wal;
  Some (disk_sector, Z.to_nat (entry_in_sector * WAL_ENTRY_SIZE)).

Section ops.
Context {D : Type} `{BD : BlockDevice D}.
Abbreviation wprog := (prog (D * t) StorageError).

Definition read_entry (index : Z) : wprog WalEntry.t :=
  s <- pget ;;
  loc <- pchecked (locate s.2 index) ;;
  buf <- plift (read_sector s.1 loc.1) ;;
  pret (WalEntry.of_bytes (field buf loc.2 64)).

Definition write_entry (index : Z) (entry : WalEntry.t) : wprog unit :=
  s <- pget ;;
  loc <- pchecked (locate s.2 index) ;;
  buf <- plift (read_sector s.1 loc.1) ;;
  let buf' := copy_at buf loc.2 (WalEntry.bytes entry) in
  let '(r, d') := write_sector s.1 loc.1 buf' in
  pput (d', s.2) ;;; plift r.

Definition append (block_id : ContentHash) (data_offset data_size : Z) : wprog (Z * Z) :=
  s <- pget ;;
  let w := s.2 in
  cap <- pchecked (capacity_entries w) ;;
  if saturating_sub (head w) (tail w) >=? cap then pfail WalFull else
  let seq := next_sequence w in
  let entry := WalEntry.seal (WalEntry.new seq block_id data_offset data_size 0) in
  let index := head w in
  write_entry index entry ;;;
  s' <- pget ;;
  head' <- pchecked (checked_add 64 (head w) 1) ;;
  seq' <- pchecked (checked_add 64 (next_sequence w) 1) ;;
  pput (s'.1, mk (start_sector w) (size_sectors w) head' (tail w) seq') ;;;
  pret (seq, index).

Definition commit_at (index : Z) : wprog unit :=
  entry <- read_entry index ;;
  write_entry index (WalEntry.seal (WalEntry.set_committed entry)).

(** [for idx in self.tail..self.head], [n] indices left from [idx]. *)
Fixpoint commit_loop (n : nat) (idx sequence_number : Z) : wprog unit :=
  match n with
  | O => pfail IoError
  | S n' =>
      entry <- read_entry idx ;;
      if WalEntry.sequence_number entry =? sequence_number
      then write_entry idx (WalEntry.seal (WalEntry.set_committed entry))
      else commit_loop n' (idx + 1) sequence_number
  end.

Definition commit (sequence_number : Z) : wprog unit :=
  s <- pget ;; commit_loop (Z.to_nat (head s.2 - tail s.2)) (tail s.2) sequence_number.

(** [while self.tail < self.head]: each turn advances [tail], so the distance is
    enough fuel. *)
Fixpoint trim_loop (n : nat) : wprog unit :=
  match n with
  | O => pret tt
  | S n' =>
      s <- pget ;;
      let w := s.2 in
      if tail w <? head w then
        r <- pcatch (read_entry (tail w)) ;;
        match r with
        | Ok entry =>
            if WalEntry.is_valid entry && (WalEntry.committed entry =? 1) then
              tail' <- pchecked (checked_add 64 (tail w) 1) ;;
              pput (s.1, mk (start_sector w) (size_sectors w) (head w) tail' (next_sequence w)) ;;;
              trim_loop n'
            else pret tt
        | Err _ => pret tt
        end
      else pret tt
  end.

Definition trim_committed : wprog unit :=
  s <- pget ;; trim_loop (Z.to_nat (head s.2 - tail s.2)).
End ops.
End Wal.

Module WalLaws.
Import Wal.

Section laws.
Context {D : Type} `{BD : BlockDevice D} `{BDS : !BlockDeviceSpec D}.
Implicit Types (d : D) (w : t) (s : D * t).

(** The log's region lies in the device. *)
Record wf d w : Prop := {
  wf_start : 0 <= start_sector w;
  wf_size : 0 < size_sectors w;
  wf_end : start_sector w + size_sectors w <= capacity_sectors d;
  wf_device : capacity_sectors d <= 2 ^ 54
}.

Definition cap w : Z := size_sectors w * 8.

Definition in_region w (x : Z) : Prop := start_sector w <= x < start_sector w + size_sectors w.

(** The sector of a slot and the offset in it. *)
Definition slot_sector w (i : Z) : Z := start_sector w + (i mod cap w) / 8.
Definition slot_offset w (i : Z) : nat := Z.to_nat ((i mod cap w) mod 8 * 64).

Lemma capacity_wf d w : wf d w -> capacity_entries w = Some (cap w).
Proof. intros []. apply checked_mul_in. change WAL_ENTRIES_PER_SECTOR with 8. lia. Qed.

Lemma slot_in_region d w i : wf d w -> in_region w (slot_sector w i).
Proof.
  intros []. unfold in_region, slot_sector. pose proof (Z.mod_pos_bound i (cap w)). unfold cap in *.
  assert (0 <= i mod (size_sectors w * 8) / 8 < size_sectors w); [|lia]. divlia.
Qed.

Lemma slot_offset_bound w i : (slot_offset w i + 64 <= 512)%nat.
Proof. unfold slot_offset. pose proof (Z.mod_pos_bound (i mod cap w) 8). lia. Qed.

Lemma locate_wf d w i : wf d w -> locate w i = Some (slot_sector w i, slot_offset w i).
Proof.
  intros Hwf. pose proof (slot_in_region d w i Hwf) as Hr. unfold locate. rewrite (capacity_wf d w Hwf). cbn [mbind option_bind].
  destruct Hwf. unfold cap at 1. destruct (Z.eqb_spec (size_sectors w * 8) 0); [lia|].
  change WAL_ENTRIES_PER_SECTOR with 8. unfold slot_sector, in_region in *. rewrite checked_add_in by lia. done.
Qed.

(** Two positions with different slots do not overlap. *)
Lemma slots_apart w i j : i mod cap w <> j mod cap w ->
  slot_sector w i <> slot_sector w j \/
  (slot_sector w i = slot_sector w j /\
   (slot_offset w i + 64 <= slot_offset w j \/ slot_offset w j + 64 <= slot_offset w i)%nat).
Proof.
  unfold slot_sector, slot_offset. generalize (i mod cap w), (j mod cap w). intros x y Hxy.
  destruct (decide (x / 8 = y / 8)) as [E|]; [right|left; lia]. split; [lia|].
  pose proof (Z.mod_pos_bound x 8). pose proof (Z.mod_pos_bound y 8).
  pose proof (Z.div_mod x 8). pose proof (Z.div_mod y 8). lia.
Qed.

(** What the disk holds at a position. *)
Definition entry_at d w (i : Z) : option WalEntry.t :=
  match read_sector d (slot_sector w i) with
  | Ok b => Some (WalEntry.of_bytes (field b (slot_offset w i) 64))
  | Err _ => None
  end.

Lemma read_entry_run d w i : wf d w -> read_entry i (d, w) =
  match read_sector d (slot_sector w i) with
  | Ok b => Some (Ok (WalEntry.of_bytes (field b (slot_offset w i) 64)), (d, w))
  | Err e => Some (Err e, (d, w))
  end.
Proof.
  intros Hwf. unfold read_entry, pbind, pget. cbn [fst snd]. rewrite (locate_wf d w i Hwf). cbn [pchecked pret].
  unfold pret, plift. cbn [fst snd]. by destruct (read_sector _ _).
Qed.

Lemma read_entry_at d w i e : wf d w -> entry_at d w i = Some e -> read_entry i (d, w) = Some (Ok e, (d, w)).
Proof. intros Hwf. rewrite read_entry_run by done. unfold entry_at. destruct (read_sector _ _); naive_solver. Qed.

Lemma write_entry_run d w i e : wf d w -> write_entry i e (d, w) =
  match read_sector d (slot_sector w i) with
  | Ok b => let x := write_sector d (slot_sector w i) (copy_at b (slot_offset w i) (WalEntry.bytes e)) in
            Some (x.1, (x.2, w))
  | Err err => Some (Err err, (d, w))
  end.
Proof.
  intros Hwf. unfold write_entry, pbind, pget. cbn [fst snd]. rewrite (locate_wf d w i Hwf). cbn [pchecked].
  unfold pret, plift, pput. cbn [fst snd]. destruct (read_sector _ _) as [b|]; [|done].
  by destruct (write_sector _ _ _).
Qed.

(** ** The region's frame, on any device *)

(** [s] has the same region as [s0] and the disk outside it is unchanged. *)
Record framed s0 s : Prop := {
  fr_start : start_sector s.2 = start_sector s0.2;
  fr_size : size_sectors s.2 = size_sectors s0.2;
  fr_capacity : capacity_sectors s.1 = capacity_sectors s0.1;
  fr_outside x : ~ in_region s0.2 x -> read_sector s.1 x = read_sector s0.1 x
}.

Lemma framed_refl s : framed s s.
Proof. by split. Qed.

Lemma framed_wf s0 s : wf s0.1 s0.2 -> framed s0 s -> wf s.1 s.2.
Proof. intros [] []. split; lia. Qed.

Lemma framed_write s0 s i b : wf s0.1 s0.2 -> framed s0 s ->
  framed s0 ((write_sector s.1 (slot_sector s.2 i) b).2, s.2).
Proof.
  intros Hwf Hf. pose proof (slot_in_region _ _ i (framed_wf _ _ Hwf Hf)) as Hr. destruct Hf as [Hs Hz Hc Ho].
  split; cbn [fst snd]; [done..|by rewrite write_capacity|]. intros x Hx. rewrite write_other; [by apply Ho|].
  intros ->. apply Hx. unfold in_region in *. by rewrite <-Hs, <-Hz.
Qed.

Lemma framed_positions s0 s h tl n : framed s0 s ->
  framed s0 (s.1, mk (start_sector s.2) (size_sectors s.2) h tl n).
Proof. by intros []. Qed.

Lemma keeps_read_entry s0 i : wf s0.1 s0.2 -> keeps (framed s0) (read_entry i).
Proof.
  intros Hwf [d w] r s' Hf. pose proof (framed_wf _ _ Hwf Hf) as Hwf'. cbn [fst snd] in Hwf'.
  rewrite read_entry_run by done. destruct (read_sector _ _); by intros [= <- <-].
Qed.

Lemma keeps_write_entry s0 i e : wf s0.1 s0.2 -> keeps (framed s0) (write_entry i e).
Proof.
  intros Hwf [d w] r s' Hf. pose proof (framed_wf _ _ Hwf Hf) as Hwf'. cbn [fst snd] in Hwf'.
  rewrite write_entry_run by done. destruct (read_sector _ _); [|by intros [= <- <-]].
  intros [= <- <-]. by apply (framed_write s0 (d, w)).
Qed.

Lemma framed_renumber s0 s s' h tl n : framed s0 s -> framed s0 s' ->
  framed s0 (s'.1, mk (start_sector s.2) (size_sectors s.2) h tl n).
Proof. by intros [] []. Qed.

Lemma keeps_append s0 blk off sz : wf s0.1 s0.2 -> keeps (framed s0) (append blk off sz).
Proof.
  intros Hwf. unfold append. keeps; [by apply keeps_write_entry|by apply framed_renumber].
Qed.

Lemma keeps_commit_at s0 i : wf s0.1 s0.2 -> keeps (framed s0) (commit_at i).
Proof. intros Hwf. unfold commit_at. keeps; [by apply keeps_read_entry|by apply keeps_write_entry]. Qed.

Lemma keeps_commit s0 seq : wf s0.1 s0.2 -> keeps (framed s0) (commit seq).
Proof.
  intros Hwf. unfold commit. keeps. generalize (tail s.2), (Z.to_nat (head s.2 - tail s.2)). intros i n.
  revert i. induction n as [|n IH]; intros i; cbn [commit_loop]; keeps;
    [by apply keeps_read_entry|by apply keeps_write_entry|apply IH].
Qed.

Lemma keeps_trim s0 : wf s0.1 s0.2 -> keeps (framed s0) trim_committed.
Proof.
  intros Hwf. unfold trim_committed. keeps. generalize (Z.to_nat (head s.2 - tail s.2)).
  induction n as [|n IH]; cbn [trim_loop]; keeps; [by apply keeps_read_entry|by apply framed_renumber|done].
Qed.
End laws.
End WalLaws.

(** ** The log as a list, on a reliable device *)

Module WalRing.
Import Wal WalLaws.

Section ring.
Context {D : Type} `{BD : BlockDevice D} `{BDS : !BlockDeviceSpec D} `{RD : !ReliableDevice D}.
Implicit Types (d : D) (w : t) (s : D * t) (l : list WalEntry.t).

(** The live entries, oldest first. *)
Record ring s l : Prop := {
  r_wf : wf s.1 s.2;
  r_tail : 0 <= tail s.2;
  r_head : head s.2 = tail s.2 + alen l;
  r_len : alen l <= cap s.2;
  r_typed : Forall WalEntryLaws.typed l;
  r_entry i e : 0 <= i -> l.[i] = Some e -> entry_at s.1 s.2 (tail s.2 + i) = Some e
}.

Lemma mod_ne x y n : x <> y -> Z.abs (x - y) < n -> x mod n <> y mod n.
Proof.
  intros Hne Hd E. apply Hne. pose proof (Z.div_mod x n ltac:(lia)) as Hx. pose proof (Z.div_mod y n ltac:(lia)) as Hy.
  revert Hx Hy E. generalize (x / n), (y / n), (x mod n), (y mod n). intros p q r r' Hx Hy ->.
  destruct (Z.lt_trichotomy p q) as [Hpq|[->|Hpq]]; [|lia|]; exfalso; assert (n * (p - q) = x - y) by lia; nia.
Qed.

Lemma write_entry_ok d w i e : wf d w -> WalEntryLaws.typed e -> exists d',
  write_entry i e (d, w) = Some (Ok tt, (d', w)) /\ framed (d, w) (d', w) /\ wf d' w /\
  entry_at d' w i = Some e /\ forall j, j mod cap w <> i mod cap w -> entry_at d' w j = entry_at d w j.
Proof.
  intros Hwf He. pose proof (slot_in_region d w i Hwf) as Hr.
  assert (Hin : 0 <= slot_sector w i < capacity_sectors d) by (unfold in_region in Hr; destruct Hwf; lia).
  destruct (reliable_read d _ Hin) as [b Hb]. pose proof (read_is_sector _ _ _ Hb) as [Hbl Hbb].
  pose proof (slot_offset_bound w i) as Hoff. pose proof (WalEntryLaws.bytes_length e He) as Hel.
  set (b' := copy_at b (slot_offset w i) (WalEntry.bytes e)).
  assert (Hb' : sector b').
  { split; [unfold b'; rewrite length_copy_at; lia|]. unfold b', copy_at. rewrite !Forall_app.
    split_and!; [by apply Forall_take|by apply WalEntryLaws.bytes_bytes|by apply Forall_drop]. }
  pose proof (write_entry_run d w i e Hwf) as Hrun. rewrite Hb in Hrun. fold b' in Hrun.
  pose proof (framed_write (d, w) (d, w) i b' Hwf (framed_refl _)) as Hf. cbn [fst snd] in Hf.
  pose proof (reliable_write d _ b' Hin) as Hw.
  destruct (write_sector d (slot_sector w i) b') as [r d'] eqn:Ew. cbn [fst snd] in *. subst r.
  pose proof (write_same _ _ _ _ Hb' Ew) as Hrd. exists d'. split_and!; [done..| | |].
  - by apply (framed_wf (d, w) (d', w)).
  - unfold entry_at. rewrite Hrd. f_equal. unfold field, b'. rewrite <-Hel at 1. rewrite copy_at_read by lia.
    by apply WalEntryLaws.of_bytes_bytes.
  - intros j Hj. unfold entry_at. destruct (slots_apart w j i Hj) as [Hs|[Hs Ho]].
    + pose proof (write_other d (slot_sector w i) (slot_sector w j) b' Hs) as Hot. rewrite Ew in Hot. cbn in Hot. by rewrite Hot.
    + rewrite Hs, Hrd, Hb. f_equal. f_equal. unfold field, b'. apply copy_at_other; rewrite Hel; lia.
Qed.

(** Rewriting one live entry. *)
Lemma ring_write s l i e e' : ring s l -> 0 <= i -> l.[i] = Some e -> WalEntryLaws.typed e' -> exists d',
  write_entry (tail s.2 + i) e' s = Some (Ok tt, (d', s.2)) /\ framed s (d', s.2) /\
  ring (d', s.2) (aset l i e').
Proof.
  intros [Hwf Ht Hh Hl Hty He] Hi Hli Hty'. destruct s as [d w]. cbn [fst snd] in *.
  destruct (write_entry_ok d w (tail w + i) e' Hwf Hty') as (d' & Hrun & Hf & Hwf' & Hs & Ho).
  pose proof (aget_lt l i e Hi Hli) as Hlt. exists d'. split_and!; [done..|].
  split; cbn [fst snd]; rewrite ?alen_aset; try done.
  - by apply Forall_insert.
  - intros j x Hj Hx. destruct (decide (i = j)) as [->|Hne].
    + rewrite aget_aset_eq in Hx by (pose proof (alen_nonneg l); lia). injection Hx as <-. done.
    + rewrite aget_aset_ne in Hx by lia. rewrite Ho; [by apply He|].
      apply mod_ne; [lia|]. pose proof (aget_lt l j x Hj Hx). lia.
Qed.

Lemma append_full s l blk off sz : ring s l -> alen l = cap s.2 ->
  append blk off sz s = Some (Err WalFull, s).
Proof.
  intros [Hwf Ht Hh Hl Hty He] Hfull. unfold append, pbind, pget. rewrite (capacity_wf _ _ Hwf). cbn [pchecked pret].
  unfold pret. rewrite Hh, <-Hfull. unfold saturating_sub. destruct (Z.geb_spec (Z.max 0 (tail s.2 + alen l - tail s.2)) (alen l)); [done|].
  lia.
Qed.

Definition new_entry s (blk : ContentHash) (off sz : Z) : WalEntry.t :=
  WalEntry.seal (WalEntry.new (next_sequence s.2) blk off sz 0).

Lemma append_ok s l blk off sz : ring s l -> alen l < cap s.2 ->
  head s.2 + 1 < 2 ^ 64 -> 0 <= next_sequence s.2 -> next_sequence s.2 + 1 < 2 ^ 64 ->
  length blk = 32%nat -> Forall is_byte blk -> uint 64 off -> uint 32 sz ->
  exists d', let w' := mk (start_sector s.2) (size_sectors s.2) (head s.2 + 1) (tail s.2) (next_sequence s.2 + 1) in
  append blk off sz s = Some (Ok (next_sequence s.2, head s.2), (d', w')) /\
  framed s (d', w') /\ ring (d', w') (l ++ [new_entry s blk off sz]).
Proof.
  intros [Hwf Ht Hh Hl Hty He] Hroom Hh64 Hn Hn64 Hb1 Hb2 Ho Hs. destruct s as [d w]. cbn [fst snd] in *.
  assert (Hne : WalEntryLaws.typed (new_entry (d, w) blk off sz)).
  { apply WalEntryLaws.seal_typed, WalEntryLaws.new_typed; try done. split; cbn [snd]; lia. }
  destruct (write_entry_ok d w (head w) _ Hwf Hne) as (d' & Hrun & Hf & Hwf' & Hsame & Hoth).
  exists d'. cbv zeta. split_and!.
  - unfold append, pbind, pget. cbn [fst snd]. rewrite (capacity_wf _ _ Hwf). cbn [pchecked]. unfold pret.
    destruct (Z.geb_spec (saturating_sub (head w) (tail w)) (cap w)) as [Hge|_]; [pose proof (alen_nonneg l); unfold saturating_sub in Hge; lia|].
    cbv zeta. unfold new_entry in Hrun. cbn [snd] in Hrun. rewrite Hrun. rewrite !checked_add_in by lia. done.
  - by apply (framed_renumber (d, w) (d, w) (d', w)); [apply framed_refl|].
  - split; cbn [fst snd tail head start_sector size_sectors].
    + by destruct Hwf'; split.
    + done.
    + autorewrite with aios_rw. lia.
    + autorewrite with aios_rw. unfold cap in *. cbn [size_sectors]. lia.
    + by apply Forall_app; split; [|constructor].
    + intros i e Hi Hie. change (entry_at d' w (tail w + i) = Some e).
      apply aget_snoc in Hie as [[Hlt Hie]|[-> ->]]; [|by rewrite <-Hh|done].
      rewrite Hoth; [by apply He|]. apply mod_ne; lia.
Qed.

(** The committed form of an entry. *)
Definition commit_entry (e : WalEntry.t) : WalEntry.t := WalEntry.seal (WalEntry.set_committed e).

Lemma commit_entry_typed e : WalEntryLaws.typed e -> WalEntryLaws.typed (commit_entry e).
Proof. intros. by apply WalEntryLaws.seal_typed, WalEntryLaws.set_committed_typed. Qed.

Lemma commit_at_ok s l i e : ring s l -> 0 <= i -> l.[i] = Some e -> exists d',
  commit_at (tail s.2 + i) s = Some (Ok tt, (d', s.2)) /\ framed s (d', s.2) /\
  ring (d', s.2) (aset l i (commit_entry e)).
Proof.
  intros HR Hi Hl. assert (Hty : WalEntryLaws.typed e).
  { eapply Forall_lookup_1; [apply HR|exact Hl]. }
  destruct (ring_write s l i e (commit_entry e) HR Hi Hl (commit_entry_typed e Hty)) as (d' & Hrun & Hf & HR').
  exists d'. split_and!; [|done..]. unfold commit_at. destruct s as [d w]. cbn [fst snd] in *.
  rewrite (pbind_Ok _ _ _ e (d, w)); [done|]. apply read_entry_at; [apply HR|]. by apply (r_entry _ _ HR).
Qed.

(** [commit] marks the oldest live entry with the sequence number. *)
Lemma commit_ok s l seq : ring s l ->
  match list_find (fun e => WalEntry.sequence_number e = seq) l with
  | Some (i, e) => exists d', commit seq s = Some (Ok tt, (d', s.2)) /\ framed s (d', s.2) /\
      ring (d', s.2) (aset l (Z.of_nat i) (commit_entry e))
  | None => commit seq s = Some (Err IoError, s)
  end.
Proof.
  intros HR. change (commit seq s) with (commit_loop (Z.to_nat (head s.2 - tail s.2)) (tail s.2) seq s).
  assert (Hloop : forall n k, alen l = Z.of_nat (k + n) ->
    match list_find (fun e => WalEntry.sequence_number e = seq) (drop k l) with
    | Some (i, e) => exists d', commit_loop n (tail s.2 + Z.of_nat k) seq s = Some (Ok tt, (d', s.2)) /\
        framed s (d', s.2) /\ ring (d', s.2) (aset l (Z.of_nat (k + i)) (commit_entry e))
    | None => commit_loop n (tail s.2 + Z.of_nat k) seq s = Some (Err IoError, s)
    end).
  { induction n as [|n IH]; intros k Hk; cbn [commit_loop].
    { by rewrite drop_ge by (unfold alen in Hk; lia). }
    destruct (lookup_lt_is_Some_2 l k) as [e Hke]; [unfold alen in Hk; lia|].
    rewrite (drop_S l e k Hke). cbn [list_find].
    assert (Hrd : read_entry (tail s.2 + Z.of_nat k) s = Some (Ok e, s)).
    { destruct s as [d w]. apply read_entry_at; [apply HR|]. apply (r_entry _ _ HR); [lia|].
      unfold aget. by rewrite Nat2Z.id. }
    rewrite (pbind_Ok _ _ _ e s Hrd). destruct (Z.eqb_spec (WalEntry.sequence_number e) seq) as [Hs|Hs].
    - rewrite decide_True by done. rewrite Nat.add_0_r.
      apply (ring_write s l (Z.of_nat k) e (commit_entry e) HR); [lia|unfold aget; by rewrite Nat2Z.id|].
      apply commit_entry_typed. eapply Forall_lookup_1; [apply HR|exact Hke].
    - rewrite decide_False by done. specialize (IH (S k) ltac:(lia)).
      replace (tail s.2 + Z.of_nat k + 1) with (tail s.2 + Z.of_nat (S k)) by lia.
      destruct (list_find _ (drop (S k) l)) as [[i x]|]; cbn [fmap option_fmap option_map prod_map fst snd]; [|done].
      destruct IH as (d' & H1 & H2 & H3). exists d'. split_and!; [done..|].
      by replace (Z.of_nat (k + S i)) with (Z.of_nat (S k + i)) by lia. }
  specialize (Hloop (length l) O eq_refl). rewrite drop_0 in Hloop. cbn [Nat.add] in Hloop.
  replace (tail s.2 + Z.of_nat 0) with (tail s.2) in Hloop by lia.
  replace (Z.to_nat (head s.2 - tail s.2)) with (length l); [done|].
  rewrite (r_head _ _ HR). unfold alen. lia.
Qed.

(** ** Trimming *)

(** The entries left once the committed prefix is dropped. *)
Fixpoint uncommitted (l : list WalEntry.t) : list WalEntry.t :=
  match l with
  | [] => []
  | e :: l' => if WalEntry.is_valid e && (WalEntry.committed e =? 1) then uncommitted l' else l
  end.

Lemma ring_tail s e l : ring s (e :: l) ->
  ring (s.1, mk (start_sector s.2) (size_sectors s.2) (head s.2) (tail s.2 + 1) (next_sequence s.2)) l.
Proof.
  intros [Hwf Ht Hh Hl Hty He]. rewrite alen_cons in *. split; cbn [fst snd start_sector size_sectors head tail].
  - by destruct Hwf; split.
  - lia.
  - lia.
  - change (alen l <= cap s.2). lia.
  - by inversion Hty.
  - intros i x Hi Hx. change (entry_at s.1 s.2 (tail s.2 + 1 + i) = Some x).
    replace (tail s.2 + 1 + i) with (tail s.2 + (i + 1)) by lia. apply He; [lia|]. by rewrite aget_cons_S.
Qed.

Lemma trim_ok s l : ring s l -> head s.2 < 2 ^ 64 -> exists w',
  trim_committed s = Some (Ok tt, (s.1, w')) /\ head w' = head s.2 /\ ring (s.1, w') (uncommitted l).
Proof.
  intros HR H64. change (trim_committed s) with (trim_loop (Z.to_nat (head s.2 - tail s.2)) s).
  replace (Z.to_nat (head s.2 - tail s.2)) with (length l) by (rewrite (r_head _ _ HR); unfold alen; lia).
  revert s HR H64. induction l as [|e l IH]; intros s HR H64; cbn [length trim_loop uncommitted].
  { exists s.2. by destruct s. }
  unfold pbind at 1, pget at 1. cbv beta iota zeta. pose proof (r_head _ _ HR) as Hh. rewrite alen_cons in Hh.
  pose proof (alen_nonneg l). destruct (Z.ltb_spec (tail s.2) (head s.2)); [|lia].
  assert (Hrd : read_entry (tail s.2) s = Some (Ok e, s)).
  { destruct s as [d w]. apply read_entry_at; [apply HR|]. cbn [fst snd].
    replace (tail w) with (tail w + 0) by lia. by apply (r_entry _ _ HR). }
  rewrite (pbind_Ok _ _ _ (Ok e) s) by (unfold pcatch; by rewrite Hrd).
  destruct (WalEntry.is_valid e && (WalEntry.committed e =? 1)); [|exists s.2; by destruct s].
  rewrite (pbind_Ok _ _ _ (tail s.2 + 1) s) by (rewrite checked_add_in by lia; done).
  apply ring_tail in HR. apply IH in HR; [|done]. exact HR.
Qed.
End ring.
End WalRing.

(** ** Properties *)

(** C39: on a device whose reads and writes of sectors in range succeed
    ([ReliableDevice]), the write-ahead log is a bounded list of entries, from
    the empty log on: [append], with counters below 2^64, adds a sealed
    uncommitted entry at the end and returns its sequence number and position,
    and answers [WalFull] on a full log without touching the disk; [commit_at]
    at a live position and [commit] of a live sequence number rewrite exactly
    the addressed entry as committed, and [commit] answers [IoError] for any
    other number; [trim_committed] drops exactly the committed prefix.  The
    live entries in all other slots of the ring keep their value, and no
    sector outside the region changes. *)
Theorem wal_refines_log (D : Type) (BD : BlockDevice D) (BDS : BlockDeviceSpec D) (RD : ReliableDevice D)
    (s : D * Wal.t) (l : list WalEntry.t) :
  WalRing.ring s l ->
  (forall blk off sz, Wal.head s.2 + 1 < 2 ^ 64 -> 0 <= Wal.next_sequence s.2 -> Wal.next_sequence s.2 + 1 < 2 ^ 64 ->
   length blk = 32%nat -> Forall is_byte blk -> uint 64 off -> uint 32 sz ->
   if decide (alen l < WalLaws.cap s.2) then exists s',
     Wal.append blk off sz s = Some (Ok (Wal.next_sequence s.2, Wal.head s.2), s') /\
     WalLaws.framed s s' /\ WalRing.ring s' (l ++ [WalRing.new_entry s blk off sz])
   else Wal.append blk off sz s = Some (Err WalFull, s)) /\
  (forall i e, 0 <= i -> l.[i] = Some e -> exists s', Wal.commit_at (Wal.tail s.2 + i) s = Some (Ok tt, s') /\
     WalLaws.framed s s' /\ WalRing.ring s' (aset l i (WalRing.commit_entry e))) /\
  (forall seq, match list_find (fun e => WalEntry.sequence_number e = seq) l with
   | Some (j, x) => exists s', Wal.commit seq s = Some (Ok tt, s') /\
       WalLaws.framed s s' /\ WalRing.ring s' (aset l (Z.of_nat j) (WalRing.commit_entry x))
   | None => Wal.commit seq s = Some (Err IoError, s)
   end) /\
  (Wal.head s.2 < 2 ^ 64 -> exists s', Wal.trim_committed s = Some (Ok tt, s') /\ s'.1 = s.1 /\
     WalRing.ring s' (WalRing.uncommitted l)).
Proof.
  intros HR. split_and!.
  - intros blk off sz Hh Hn0 Hn Hb1 Hb2 Ho Hs. destruct (decide _) as [Hlt|Hge].
    + destruct (WalRing.append_ok s l blk off sz HR Hlt Hh Hn0 Hn Hb1 Hb2 Ho Hs) as (d' & H1 & H2 & H3). eauto.
    + apply (WalRing.append_full s l); [done|]. pose proof (WalRing.r_len _ _ HR). lia.
  - intros i e Hi Hl. destruct (WalRing.commit_at_ok s l i e HR Hi Hl) as (d' & H1 & H2 & H3). eauto.
  - intros seq. pose proof (WalRing.commit_ok s l seq HR) as Hc. destruct (list_find _ l) as [[j x]|]; [|done].
    destruct Hc as (d' & H1 & H2 & H3). eauto.
  - intros Hh. destruct (WalRing.trim_ok s l HR Hh) as (w' & H1 & _ & H3). exists (s.1, w'). eauto.
Qed.

(** A log of two sectors on a small disk, empty. *)
Definition demo_log : RamDisk.t * Wal.t := (RamDisk.mk 16 ∅, Wal.new 8 2).

Lemma demo_log_ring : WalRing.ring demo_log [].
Proof.
  split; try (cbn; lia); [split; cbn; lia|done|done|constructor|]. intros i e _. by rewrite aget_nil.
Qed.

Lemma wal_refines_log_witness : exists s : RamDisk.t * Wal.t,
  Wal.append (replicate 32 7) 4096 20 demo_log = Some (Ok (1, 0), s) /\ WalRing.ring s [WalRing.new_entry demo_log (replicate 32 7) 4096 20].
Proof.
  destruct (wal_refines_log RamDisk.t _ _ _ demo_log [] demo_log_ring) as (Ha & _).
  destruct (Ha (replicate 32 7) 4096 20) as (s' & H1 & _ & H3); try (cbn; lia); try done; [apply Forall_replicate; unfold is_byte; lia|].
  by exists s'.
Defined.
