(* ===== verification/BlockEngine.v ===== *)
(** * The block engine

    Models kernel/src/storage/crypto.rs ([DeviceKeyManager]) and
    kernel/src/storage/block_engine.rs: the superblock, the write path (hash, deduplicate,
    compress, log, encrypt, write, commit, index), the read path, reference counts,
    and recovery from the log at boot.

    SHA-256, LZ4 and AES-256-GCM are third-party crates: the class [Codec] names their
    functions and [CodecSpec] what the engine relies on.  The programs run on
    the device and the engine's state ([eprog]); [&self] methods are functions
    of the two.  [TICK_COUNT] is the argument [tick]. *)

From S2P Require Import SortedVec Prelude Prog Storage BlockDevice Wal.
Open Scope prog_scope.

(** ** Hashing, compression, encryption *)

Class Codec := {
  sha256 : list Z -> list Z;
  lz4_compress : list Z -> list Z;
  (** The bytes written to an output buffer of the given length, or an error. *)
  lz4_decompress_into : list Z -> nat -> option (list Z);
  aes_key : Type;
  aes_new : list Z -> aes_key;
  (** Key, nonce, plaintext; ciphertext and tag. *)
  aes_encrypt : aes_key -> list Z -> list Z -> option (list Z * list Z);
  (** Key, nonce, ciphertext, tag; plaintext. *)
  aes_decrypt : aes_key -> list Z -> list Z -> list Z -> option (list Z)
}.

(** What the crates document: a 32-byte digest, lossless compression into a buffer of the
    original size, and authenticated decryption of what was encrypted under the
    same key and nonce. *)
Class CodecSpec {C : Codec} : Prop := {
  sha256_length d : length (sha256 d) = 32%nat;
  sha256_bytes d : Forall is_byte (sha256 d);
  lz4_bytes d : Forall is_byte d -> Forall is_byte (lz4_compress d);
  lz4_roundtrip d : Forall is_byte d -> lz4_decompress_into (lz4_compress d) (length d) = Some d;
  lz4_bound p n d : lz4_decompress_into p n = Some d -> (length d <= n)%nat;
  aes_bytes k n p c t : Forall is_byte p -> aes_encrypt k n p = Some (c, t) -> Forall is_byte c /\ Forall is_byte t;
  aes_length k n p c t : aes_encrypt k n p = Some (c, t) -> length c = length p /\ length t = 16%nat;
  aes_roundtrip k n p c t : aes_encrypt k n p = Some (c, t) -> aes_decrypt k n c t = Some p
}.

Module Crypto.
Section crypto.
Context {C : Codec}.

Definition CRASH_RECOVERY_GAP : Z := 1000.

Record t := mk { cipher : aes_key; epoch : Z; nonce_counter : Z; random_prefix : Z }.

(** The bytes of [aios-device-key-salt]. *)
Definition salt : list Z :=
  [97; 105; 111; 115; 45; 100; 101; 118; 105; 99; 101; 45; 107; 101; 121; 45; 115; 97; 108; 116].

Definition from_passphrase (passphrase : list Z) (initial_counter prefix : Z) : t :=
  let key_bytes := sha256 (passphrase ++ salt) in
  mk (aes_new key_bytes) 1 (saturating_add 64 initial_counter CRASH_RECOVERY_GAP) prefix.

(** The nonce, and the manager after [fetch_add], which wraps. *)
Definition next_nonce (m : t) : list Z * t :=
  (le_bytes 4 (random_prefix m) ++ le_bytes 8 (nonce_counter m),
   mk (cipher m) (epoch m) (wrapping_add 64 (nonce_counter m) 1) (random_prefix m)).

(** [encrypt]: the result, the output buffer and the manager. *)
Definition encrypt (m : t) (plaintext buf : list Z) : result StorageError Z * list Z * t :=
  let total := alen plaintext + ENCRYPTION_OVERHEAD in
  if alen buf <? total then (Err IoError, buf, m) else
  let '(nonce, m') := next_nonce m in
  let buf1 := copy_at (copy_at buf 0 nonce) 12 plaintext in
  match aes_encrypt (cipher m) nonce plaintext with
  | None => (Err IoError, buf1, m')
  | Some (ct, tag) => (Ok total, copy_at (copy_at buf1 12 ct) (12 + length plaintext) tag, m')
  end.

(** [decrypt]: in place; the plaintext length and the buffer. *)
Definition decrypt (m : t) (encrypted : list Z) : result StorageError Z * list Z :=
  if alen encrypted <? ENCRYPTION_OVERHEAD then (Err DecryptionFailed, encrypted) else
  let plaintext_len := (length encrypted - 28)%nat in
  let nonce := field encrypted 0 12 in
  let tag := field encrypted (12 + plaintext_len) 16 in
  match aes_decrypt (cipher m) nonce (field encrypted 12 plaintext_len) tag with
  | None => (Err DecryptionFailed, encrypted)
  | Some pt => (Ok (Z.of_nat plaintext_len), copy_at encrypted 12 pt)
  end.
End crypto.
End Crypto.

(** ** The superblock *)

Module Superblock.
Record t := mk {
  magic : Z;
  version : Z;
  block_size : Z;
  total_sectors : Z;
  wal_start_sector : Z;
  wal_size_sectors : Z;
  data_start_sector : Z;
  data_next_sector : Z;
  wal_head : Z;
  wal_tail : Z;
  free_data_sectors : Z;
  lsm_l0_offset : Z;
  encryption_epoch : Z;
  nonce_counter : Z;
  nonce_random_prefix : Z;
  checksum : Z;
  padding : list Z
}.

(** The 108 bytes before the checksum. *)
Definition body (s : t) : list Z :=
  le_bytes 8 (magic s) ++ le_bytes 4 (version s) ++ le_bytes 4 (block_size s) ++
  le_bytes 8 (total_sectors s) ++ le_bytes 8 (wal_start_sector s) ++ le_bytes 8 (wal_size_sectors s) ++
  le_bytes 8 (data_start_sector s) ++ le_bytes 8 (data_next_sector s) ++ le_bytes 8 (wal_head s) ++
  le_bytes 8 (wal_tail s) ++ le_bytes 8 (free_data_sectors s) ++ le_bytes 8 (lsm_l0_offset s) ++
  le_bytes 8 (encryption_epoch s) ++ le_bytes 8 (nonce_counter s) ++ le_bytes 4 (nonce_random_prefix s).

Definition PADDING : nat := 3984.

Definition bytes (s : t) : list Z := body s ++ le_bytes 4 (checksum s) ++ padding s.

Definition of_bytes (b : list Z) : t :=
  mk (le_val (field b 0 8)) (le_val (field b 8 4)) (le_val (field b 12 4)) (le_val (field b 16 8))
    (le_val (field b 24 8)) (le_val (field b 32 8)) (le_val (field b 40 8)) (le_val (field b 48 8))
    (le_val (field b 56 8)) (le_val (field b 64 8)) (le_val (field b 72 8)) (le_val (field b 80 8))
    (le_val (field b 88 8)) (le_val (field b 96 8)) (le_val (field b 104 4)) (le_val (field b 108 4))
    (field b 112 PADDING).

Definition compute_checksum (s : t) : Z := crc32c (body s).

Definition is_valid (s : t) : bool :=
  (magic s =? SUPERBLOCK_MAGIC) && (version s =? SUPERBLOCK_VERSION) && (checksum s =? compute_checksum s).

(** [sb.checksum = sb.compute_checksum()] *)
Definition seal (s : t) : t :=
  mk (magic s) (version s) (block_size s) (total_sectors s) (wal_start_sector s) (wal_size_sectors s)
    (data_start_sector s) (data_next_sector s) (wal_head s) (wal_tail s) (free_data_sectors s)
    (lsm_l0_offset s) (encryption_epoch s) (nonce_counter s) (nonce_random_prefix s)
    (compute_checksum s) (padding s).

Definition format (tick total : Z) : t :=
  let data_sectors := saturating_sub total DATA_START_SECTOR in
  let random_prefix := Z.land tick 0xFFFFFFFF in
  seal (mk SUPERBLOCK_MAGIC SUPERBLOCK_VERSION BLOCK_SIZE total WAL_START_SECTOR WAL_SIZE_SECTORS
    DATA_START_SECTOR DATA_START_SECTOR 0 0 data_sectors 0 1 0 random_prefix 0 (replicate PADDING 0)).
End Superblock.

(** ** The engine *)

Module Engine.
Section engine.
Context {C : Codec} {D : Type} `{BD : BlockDevice D}.

Record t := mk {
  superblock : Superblock.t;
  wal : Wal.t;
  memtable : MemTable.t;
  object_index : ObjectIndex.t;
  space_table : SpaceTable.t;
  crypto : option Crypto.t;
  data_next_sector : Z
}.

Abbreviation eprog := (prog (D * t) StorageError).

Definition set_superblock (e : t) (x : Superblock.t) : t :=
  mk x (wal e) (memtable e) (object_index e) (space_table e) (crypto e) (data_next_sector e).
Definition set_wal (e : t) (x : Wal.t) : t :=
  mk (superblock e) x (memtable e) (object_index e) (space_table e) (crypto e) (data_next_sector e).
Definition set_memtable (e : t) (x : MemTable.t) : t :=
  mk (superblock e) (wal e) x (object_index e) (space_table e) (crypto e) (data_next_sector e).
Definition set_object_index (e : t) (x : ObjectIndex.t) : t :=
  mk (superblock e) (wal e) (memtable e) x (space_table e) (crypto e) (data_next_sector e).
Definition set_space_table (e : t) (x : SpaceTable.t) : t :=
  mk (superblock e) (wal e) (memtable e) (object_index e) x (crypto e) (data_next_sector e).
Definition set_crypto (e : t) (x : option Crypto.t) : t :=
  mk (superblock e) (wal e) (memtable e) (object_index e) (space_table e) x (data_next_sector e).
Definition set_data_next_sector (e : t) (x : Z) : t :=
  mk (superblock e) (wal e) (memtable e) (object_index e) (space_table e) (crypto e) x.

(** A field assignment [self.f = x]. *)
Definition modify (f : t -> t) : eprog unit := s <- pget ;; pput (s.1, f s.2).

(** A call on [self.wal]. *)
Definition on_wal {A} (m : prog (D * Wal.t) StorageError A) : eprog A :=
  zoom (fun s => (s.1, wal s.2)) (fun s x => (x.1, set_wal s.2 x.2)) m.

(** [virtio_blk::write_sector] *)
Definition put_sector (x : Z) (b : list Z) : eprog unit :=
  s <- pget ;; let '(r, d) := write_sector s.1 x b in pput (d, s.2) ;;; plift r.

(** ** Superblock I/O *)

(** [n] sectors from [x] on, concatenated. *)
Fixpoint read_sectors (d : D) (n : nat) (x : Z) : result StorageError (list Z) :=
  match n with
  | O => Ok []
  | S n' => match read_sector d x with
            | Err e => Err e
            | Ok b => match read_sectors d n' (x + 1) with Err e => Err e | Ok bs => Ok (b ++ bs) end
            end
  end.

Definition read_superblock (d : D) : result StorageError (option Superblock.t) :=
  match read_sectors d 8 0 with
  | Err e => Err e
  | Ok buf => let sb := Superblock.of_bytes buf in
              if Superblock.is_valid sb then Ok (Some sb) else Ok None
  end.

(** [n] sectors from [x] on, the [i]-th of them from offset [512 i] of the bytes. *)
Fixpoint write_chunks (n : nat) (x : Z) (bytes : list Z) : eprog unit :=
  match n with
  | O => pret tt
  | S n' => put_sector x (take 512 bytes) ;;; write_chunks n' (x + 1) (drop 512 bytes)
  end.

Definition write_superblock (sb : Superblock.t) : eprog unit :=
  write_chunks 8 0 (Superblock.bytes sb).

Definition flush_superblock : eprog unit :=
  s <- pget ;;
  let e := s.2 in let sb := superblock e in
  let nonce := match crypto e with Some c => Crypto.nonce_counter c | None => Superblock.nonce_counter sb end in
  let sb' := Superblock.seal (Superblock.mk (Superblock.magic sb) (Superblock.version sb)
    (Superblock.block_size sb) (Superblock.total_sectors sb) (Superblock.wal_start_sector sb)
    (Superblock.wal_size_sectors sb) (Superblock.data_start_sector sb) (data_next_sector e)
    (Wal.head (wal e)) (Wal.tail (wal e))
    (saturating_sub (Superblock.total_sectors sb) (data_next_sector e)) (Superblock.lsm_l0_offset sb)
    (Superblock.encryption_epoch sb) nonce (Superblock.nonce_random_prefix sb)
    (Superblock.checksum sb) (Superblock.padding sb)) in
  modify (fun e => set_superblock e sb') ;;;
  write_superblock sb'.

(** ** The write path *)

(** The loop [while write_offset < write_data.len()]: each turn writes one sector, zero-padded,
    so the length of the data is enough fuel. *)
Fixpoint write_data_loop (fuel : nat) (x : Z) (bytes : list Z) : eprog unit :=
  match fuel with
  | O => pret tt
  | S fuel' =>
      if bool_decide (bytes = []) then pret tt else
      let chunk := take 512 bytes in
      put_sector x (chunk ++ replicate (512 - length chunk) 0) ;;;
      write_data_loop fuel' (x + 1) (drop 512 bytes)
  end.

(** The choice of compression: LZ4 unless it saves less than a tenth. *)
Definition choose_compression (data : list Z) (limit : Z) : CompressionType * list Z :=
  let compressed := lz4_compress data in
  if alen compressed <? limit then (CompLz4, compressed) else (CompNone, data).

(** The plaintext envelope; its five copies fill the vector. *)
Definition envelope (crc : Z) (comp : CompressionType) (data payload : list Z) : list Z :=
  le_bytes 4 crc ++ le_bytes 4 (COMPRESSION_HEADER_SIZE + alen payload) ++ [compression_byte comp] ++
  le_bytes 4 (alen data) ++ payload.

(** Encryption of the envelope, the nonce counter persisted before the data is written. *)
Definition seal_envelope (env : list Z) (on_disk_size : Z) : eprog (list Z) :=
  s <- pget ;;
  match crypto s.2 with
  | Some c =>
      let '(r, buf, c') := Crypto.encrypt c env (replicate (Z.to_nat on_disk_size) 0) in
      modify (fun e => set_crypto e (Some c')) ;;;
      plift r ;;;
      flush_superblock ;;;
      pret buf
  | None => pret env
  end.

Definition on_disk_bytes (encrypted : bool) (size : Z) : Z :=
  if encrypted then 8 + size + ENCRYPTION_OVERHEAD else 8 + size.

Definition is_encrypted (e : t) : bool := match crypto e with Some _ => true | None => false end.

Definition write_block (data : list Z) : eprog (ContentHash * BlockLocation) :=
  if bool_decide (data = []) then pfail IoError else
  let content_hash := sha256 data in
  s <- pget ;;
  match MemTable.get_mut (memtable s.2) content_hash with
  | Some (entry, put) =>
      entry' <- pchecked (MemTable.bump entry) ;;
      modify (fun e => set_memtable e (put entry')) ;;;
      pret (content_hash, MemTable.location entry)
  | None =>
      let data_crc := crc32c data in
      nine <- pchecked (checked_mul 64 (alen data) 9) ;;
      let '(comp, payload) := choose_compression data (nine / 10) in
      let wrapped_len := COMPRESSION_HEADER_SIZE + alen payload in
      let on_disk_size := on_disk_bytes (is_encrypted s.2) wrapped_len in
      let sectors_needed := div_ceil on_disk_size SECTOR_SIZE in
      data_end <- pchecked (checked_add 64 (data_next_sector s.2) sectors_needed) ;;
      if data_end >? Superblock.total_sectors (superblock s.2) then pfail DeviceFull else
      if wrapped_len >? umax 32 then pfail IoError else
      byte_offset <- pchecked (checked_mul 64 (data_next_sector s.2) SECTOR_SIZE) ;;
      wal_pos <- on_wal (Wal.append content_hash byte_offset wrapped_len) ;;
      write_data <- seal_envelope (envelope data_crc comp data payload) on_disk_size ;;
      write_data_loop (length write_data) (data_next_sector s.2) write_data ;;;
      on_wal (Wal.commit_at wal_pos.2) ;;;
      modify (fun e => set_data_next_sector e data_end) ;;;
      let location := mk_loc byte_offset wrapped_len Hot in
      s' <- pget ;;
      ins <- pchecked (MemTable.insert (memtable s'.2) content_hash location) ;;
      modify (fun e => set_memtable e ins.2) ;;;
      match ins.1 with
      | Ok _ => pret (content_hash, location)
      | Err _ => pfail MemTableFull
      end
  end.

(** ** The read path *)

(** [decompress_and_verify]: the result and the caller's buffer. *)
Definition decompress_and_verify (wrapped : list Z) (stored_crc : Z) (buf : list Z) :
    result StorageError Z * list Z :=
  if alen wrapped <? COMPRESSION_HEADER_SIZE then (Err IoError, buf) else
  let comp_type := default 0 (wrapped !! 0%nat) in
  let uncompressed_size := le_val (field wrapped 1 4) in
  let n := Z.to_nat uncompressed_size in
  let payload := drop 5 wrapped in
  if alen buf <? uncompressed_size then (Err IoError, buf) else
  let check buf' :=
    if crc32c (take n buf') =? stored_crc then (Ok uncompressed_size, buf') else (Err ChecksumFailed, buf') in
  if comp_type =? compression_byte CompLz4 then
    match lz4_decompress_into payload n with
    | None => (Err IoError, buf)
    | Some out => let buf' := copy_at buf 0 out in
                  if alen out =? uncompressed_size then check buf' else (Err IoError, buf')
    end
  else if comp_type =? compression_byte CompNone then
    if alen payload =? uncompressed_size then check (copy_at buf 0 payload) else (Err IoError, buf)
  else (Err IoError, buf).

(** The envelope of a block: its sectors, decrypted when encryption is on. *)
Definition read_envelope (d : D) (e : t) (loc : BlockLocation) : result StorageError (list Z) :=
  let start_sector := loc_offset loc / SECTOR_SIZE in
  let plaintext_envelope := 8 + loc_size loc in
  match crypto e with
  | Some c =>
      let on_disk_size := plaintext_envelope + ENCRYPTION_OVERHEAD in
      match read_sectors d (Z.to_nat (div_ceil on_disk_size SECTOR_SIZE)) start_sector with
      | Err err => Err err
      | Ok raw =>
          let '(r, dec) := Crypto.decrypt c (take (Z.to_nat on_disk_size) raw) in
          match r with Err err => Err err | Ok pt_len => Ok (field dec 12 (Z.to_nat pt_len)) end
      end
  | None =>
      match read_sectors d (Z.to_nat (div_ceil plaintext_envelope SECTOR_SIZE)) start_sector with
      | Err err => Err err
      | Ok raw => Ok (take (Z.to_nat plaintext_envelope) raw)
      end
  end.

Definition read_block (d : D) (e : t) (loc : BlockLocation) (buf : list Z) : result StorageError Z * list Z :=
  match read_envelope d e loc with
  | Err err => (Err err, buf)
  | Ok env =>
      if alen env <? 8 then (Err ChecksumFailed, buf) else
      let stored_crc := le_val (field env 0 4) in
      let stored_len := le_val (field env 4 4) in
      if stored_len =? loc_size loc
      then decompress_and_verify (field env 8 (Z.to_nat (loc_size loc))) stored_crc buf
      else (Err ChecksumFailed, buf)
  end.

Definition read_block_by_hash (d : D) (e : t) (hash : ContentHash) (buf : list Z) :
    result StorageError Z * list Z :=
  match MemTable.get (memtable e) hash with
  | Some entry => read_block d e (MemTable.location entry) buf
  | None => (Err BlockNotFound, buf)
  end.

Definition verify_block_crc (d : D) (e : t) (loc : BlockLocation) : result StorageError unit :=
  let buf_size := saturating_add 64 (Z.min (loc_size loc * 256) (umax 64)) 4096 in
  match (read_block d e loc (replicate (Z.to_nat buf_size) 0)).1 with
  | Ok _ => Ok tt
  | Err err => Err err
  end.

(** ** Reference counts *)

Definition inc_ref (hash : ContentHash) : eprog unit :=
  s <- pget ;;
  match MemTable.get_mut (memtable s.2) hash with
  | Some (entry, put) =>
      entry' <- pchecked (MemTable.bump entry) ;; modify (fun e => set_memtable e (put entry'))
  | None => pfail BlockNotFound
  end.

Definition dec_ref (hash : ContentHash) : eprog bool :=
  s <- pget ;;
  let '(r, m) := MemTable.dec_ref (memtable s.2) hash in
  modify (fun e => set_memtable e m) ;;;
  match r with Some (_, freed) => pret freed | None => pfail BlockNotFound end.

(** ** Recovery *)

(** [self.memtable.insert(..).is_ok()] *)
Definition replay (hash : ContentHash) (loc : BlockLocation) : eprog bool :=
  s <- pget ;;
  ins <- pchecked (MemTable.insert (memtable s.2) hash loc) ;;
  modify (fun e => set_memtable e ins.2) ;;;
  pret (is_ok ins.1).

(** [for idx in tail..head]: [n] indices left; the entries replayed and the end of the data. *)
Fixpoint recover_loop (n : nat) (idx replayed max_data_sector : Z) : eprog (Z * Z) :=
  match n with
  | O => pret (replayed, max_data_sector)
  | S n' =>
      r <- pcatch (on_wal (Wal.read_entry idx)) ;;
      match r with
      | Err _ => recover_loop n' (idx + 1) replayed max_data_sector
      | Ok entry =>
          if negb (WalEntry.is_valid entry) then recover_loop n' (idx + 1) replayed max_data_sector else
          let hash := WalEntry.content_hash entry in
          let loc := mk_loc (WalEntry.data_offset entry) (WalEntry.data_size entry) Hot in
          let continue_with replayed' :=
            s <- pget ;;
            let entry_sectors := div_ceil (on_disk_bytes (is_encrypted s.2) (WalEntry.data_size entry)) SECTOR_SIZE in
            entry_end <- pchecked (checked_add 64 (WalEntry.data_offset entry / SECTOR_SIZE) entry_sectors) ;;
            recover_loop n' (idx + 1) replayed' (Z.max max_data_sector entry_end) in
          if WalEntry.committed entry =? 1 then
            ok <- replay hash loc ;;
            if ok : bool then continue_with (replayed + 1) else pret (replayed, max_data_sector)
          else
            s <- pget ;;
            if (WalEntry.data_size entry >? 0) && is_ok (verify_block_crc s.1 s.2 loc) then
              ok <- replay hash loc ;;
              if ok : bool then
                pcatch (on_wal (Wal.commit (WalEntry.sequence_number entry))) ;;;
                continue_with (replayed + 1)
              else pret (replayed, max_data_sector)
            else continue_with replayed
      end
  end.

Definition recover : eprog Z :=
  s <- pget ;;
  let w := wal s.2 in
  r <- recover_loop (Z.to_nat (Wal.head w - Wal.tail w)) (Wal.tail w) 0 (data_next_sector s.2) ;;
  modify (fun e => if r.2 >? data_next_sector e then set_data_next_sector e r.2 else e) ;;;
  pret r.1.

(** [b"aios-dev-key"] *)
Definition passphrase : list Z := [97; 105; 111; 115; 45; 100; 101; 118; 45; 107; 101; 121].

Definition crypto_of (sb : Superblock.t) : option Crypto.t :=
  if Superblock.encryption_epoch sb >? 0 then
    Some (Crypto.from_passphrase passphrase (Superblock.nonce_counter sb) (Superblock.nonce_random_prefix sb))
  else None.

Definition fresh_engine (sb : Superblock.t) (w : Wal.t) (data_next : Z) : t :=
  mk sb w MemTable.with_default_capacity ObjectIndex.new SpaceTable.new (crypto_of sb) data_next.
End engine.

(** [BlockEngine::init]: the engine's state is built by the call, so it runs on the
    device alone. *)
Definition init {C : Codec} {D : Type} `{BD : BlockDevice D} (tick : Z) : prog D StorageError t :=
  d <- pget ;;
  let total := capacity_sectors d in
  if total =? 0 then pfail DeviceNotFound else
  sb <- plift (read_superblock d) ;;
  let run {A} (e : t) (m : prog (D * t) StorageError A) : prog D StorageError t := fun d =>
    match m (d, e) with
    | Some (Ok _, (d', e')) => Some (Ok e', d')
    | Some (Err err, (d', _)) => Some (Err err, d')
    | None => None
    end in
  match sb with
  | Some sb =>
      next <- pchecked (checked_add 64 (Superblock.wal_head sb) 1) ;;
      let w := Wal.set_positions (Wal.new (Superblock.wal_start_sector sb) (Superblock.wal_size_sectors sb))
                 (Superblock.wal_head sb) (Superblock.wal_tail sb) next in
      run (fresh_engine sb w (Superblock.data_next_sector sb)) recover
  | None =>
      let sb := Superblock.format tick total in
      let w := Wal.new (Superblock.wal_start_sector sb) (Superblock.wal_size_sectors sb) in
      run (fresh_engine sb w (Superblock.data_start_sector sb)) (write_superblock sb)
  end.
End Engine.
