(* ===== verification/BlockStore.v ===== *)
(** * The block store: what is written is read back

    Theorems about BlockEngine.v.  [stored] says that reading a location yields the
    given bytes; [store_inv] that every entry of the block index has such a location, in the
    part of the disk that was already written.  The write path keeps the invariant
    and every stored block on any device, also when a sector write or the
    encryption fails halfway ([write_block_inv]). *)

From S2P Require Import SortedVec Prelude Prog Storage BlockDevice Wal BlockEngine.
Open Scope prog_scope.

(** ** Lists *)

Lemma copy_at_mid {A} (a b b' c : list A) :
  length b = length b' -> copy_at (a ++ b ++ c) (length a) b' = a ++ b' ++ c.
Proof.
  intros Hl. unfold copy_at. rewrite take_app_length. do 2 f_equal.
  rewrite <-Hl, <-length_app, app_assoc. apply drop_app_length.
Qed.

Lemma take_copy_at_0 {A} (buf src : list A) : take (length src) (copy_at buf 0 src) = src.
Proof. unfold copy_at. rewrite take_0. cbn [app]. apply take_app_length. Qed.

(** ** The codec *)

Module CodecLaws.
Import Engine.
Section codec.
Context {C : Codec} {CS : CodecSpec}.

(** An encrypted buffer is nonce, ciphertext, tag. *)
Lemma encrypt_layout (m m' : Crypto.t) env buf total :
  Crypto.encrypt m env (replicate (length env + 28) 0) = (Ok total, buf, m') ->
  exists ct tag, aes_encrypt (Crypto.cipher m) (Crypto.next_nonce m).1 env = Some (ct, tag) /\
    buf = (Crypto.next_nonce m).1 ++ ct ++ tag /\ Crypto.cipher m' = Crypto.cipher m.
Proof.
  unfold Crypto.encrypt. destruct (_ <? _); [done|]. unfold Crypto.next_nonce. cbn [fst].
  set (nonce := le_bytes 4 _ ++ le_bytes 8 _).
  assert (Hn : length nonce = 12%nat) by (unfold nonce; by rewrite length_app, !length_le_bytes).
  destruct (aes_encrypt (Crypto.cipher m) nonce env) as [[ct tag]|] eqn:Ee; [|done]. intros [= _ <- <-].
  exists ct, tag. destruct (aes_length _ _ _ _ _ Ee) as [Hct Htag]. split_and!; [done| |done].
  replace (length env + 28)%nat with (12 + (length env + 16))%nat by lia. rewrite !replicate_add.
  set (z12 := replicate 12 0). assert (E1 : copy_at (z12 ++ replicate (length env) 0 ++ replicate 16 0) 0 nonce =
    nonce ++ replicate (length env) 0 ++ replicate 16 0).
  { apply (copy_at_mid [] z12 nonce). by rewrite Hn. }
  assert (E2 : forall b b', length b = length b' ->
    copy_at (nonce ++ b ++ replicate 16 0) 12 b' = nonce ++ b' ++ replicate 16 0).
  { intros b b' Hbb. replace 12%nat with (length nonce) by done. by apply copy_at_mid. }
  rewrite E1, !E2 by (rewrite ?length_replicate; done).
  assert (Hpos : length (nonce ++ ct) = (12 + length env)%nat) by (rewrite length_app; lia).
  transitivity (copy_at ((nonce ++ ct) ++ replicate 16 0 ++ []) (length (nonce ++ ct)) tag);
    [by rewrite Hpos, app_nil_r, <-app_assoc|].
  rewrite copy_at_mid by by rewrite length_replicate. by rewrite app_nil_r, <-app_assoc.
Qed.

Lemma decrypt_encrypt (m m' m2 : Crypto.t) env buf total :
  Forall is_byte env ->
  Crypto.encrypt m env (replicate (length env + 28) 0) = (Ok total, buf, m') ->
  Crypto.cipher m2 = Crypto.cipher m ->
  length buf = (length env + 28)%nat /\ Forall is_byte buf /\ Crypto.cipher m' = Crypto.cipher m /\
  exists dec, Crypto.decrypt m2 buf = (Ok (alen env), dec) /\ field dec 12 (length env) = env.
Proof.
  intros Hb (ct & tag & Ha & -> & Hc)%encrypt_layout H2. destruct (aes_length _ _ _ _ _ Ha) as [Hct Htag].
  destruct (aes_bytes _ _ _ _ _ Hb Ha) as [Bct Btag]. set (nonce := (Crypto.next_nonce m).1) in *.
  assert (Hn : length nonce = 12%nat) by (unfold nonce, Crypto.next_nonce; cbn [fst]; by rewrite length_app, !length_le_bytes).
  assert (Bn : Forall is_byte nonce) by (unfold nonce, Crypto.next_nonce; cbn [fst]; apply Forall_app; auto with aios).
  assert (Hl : length (nonce ++ ct ++ tag) = (length env + 28)%nat) by (rewrite !length_app; lia).
  split_and!; [done|by rewrite !Forall_app|done|]. unfold Crypto.decrypt, alen. rewrite Hl, H2.
  destruct (Z.ltb_spec (Z.of_nat (length env + 28)) ENCRYPTION_OVERHEAD) as [Hlt|_]; [unfold ENCRYPTION_OVERHEAD in Hlt; lia|].
  replace (length env + 28 - 28)%nat with (length env) by lia.
  rewrite (field_here nonce) by (done || lia).
  rewrite (field_skip nonce), (field_here ct) by lia.
  rewrite (field_skip nonce), (field_skip ct), (field_last tag) by lia.
  rewrite (aes_roundtrip _ _ _ _ _ Ha). eexists. split; [done|]. unfold field. rewrite <-Hn.
  rewrite (copy_at_mid nonce) by done. rewrite drop_app_length. apply take_app_length.
Qed.

(** Parsing the envelope the writer built. *)
Lemma envelope_fields crc comp data payload :
  uint 32 crc -> alen payload + 5 < 2 ^ 32 ->
  let env := envelope crc comp data payload in
  length env = (13 + length payload)%nat /\
  le_val (field env 0 4) = crc /\ le_val (field env 4 4) = 5 + alen payload /\
  field env 8 (5 + length payload) = [compression_byte comp] ++ le_bytes 4 (alen data) ++ payload.
Proof.
  intros Hc Hp. unfold envelope, COMPRESSION_HEADER_SIZE. cbv zeta. split_and!.
  - rewrite !length_app, !length_le_bytes. cbn. lia.
  - fields.
  - assert (uint 32 (5 + alen payload)) by (pose proof (alen_nonneg payload); unfold uint; lia). fields.
  - rewrite field_skip, field_skip by field_len. rewrite !length_le_bytes. apply field_last; [done|].
    rewrite !length_app, length_le_bytes. cbn. lia.
Qed.

Lemma envelope_bytes crc comp data payload :
  Forall is_byte payload -> Forall is_byte (envelope crc comp data payload).
Proof.
  intros Hp. unfold envelope. rewrite !Forall_app. split_and!; auto with aios.
  constructor; [|done]. destruct comp; unfold is_byte; cbn; lia.
Qed.

(** Decompression of the writer's choice gives the data back. *)
Lemma decompress_ok data limit buf comp payload :
  choose_compression data limit = (comp, payload) -> Forall is_byte data -> alen data < 2 ^ 32 ->
  (length data <= length buf)%nat ->
  decompress_and_verify ([compression_byte comp] ++ le_bytes 4 (alen data) ++ payload) (crc32c data) buf =
  (Ok (alen data), copy_at buf 0 data).
Proof.
  intros Hch Hb Hd Hbuf. unfold decompress_and_verify. cbn [app lookup list_lookup default].
  set (w := compression_byte comp :: le_bytes 4 (alen data) ++ payload).
  assert (Hw : alen w = 5 + alen payload).
  { unfold w. rewrite alen_cons, alen_app. unfold alen at 1. rewrite length_le_bytes. lia. }
  pose proof (alen_nonneg payload). rewrite Hw. destruct (Z.ltb_spec (5 + alen payload) COMPRESSION_HEADER_SIZE) as [Hlt|_];
    [unfold COMPRESSION_HEADER_SIZE in Hlt; lia|].
  assert (Hsz : le_val (field w 1 4) = alen data).
  { assert (uint 32 (alen data)) by (pose proof (alen_nonneg data); unfold uint; lia).
    change w with ([compression_byte comp] ++ le_bytes 4 (alen data) ++ payload). rewrite field_skip by (cbn; lia). fields. }
  rewrite Hsz. assert (Hpl : drop 5 w = payload).
  { change (drop 4 (le_bytes 4 (alen data) ++ payload) = payload). rewrite drop_app_length'; [done|]. by rewrite length_le_bytes. }
  rewrite Hpl. destruct (Z.ltb_spec (alen buf) (alen data)) as [Hlt|_]; [unfold alen in Hlt; lia|].
  assert (Hn : Z.to_nat (alen data) = length data) by (unfold alen; lia). rewrite Hn.
  assert (Hcrc : (crc32c (take (length data) (copy_at buf 0 data)) =? crc32c data) = true)
    by (rewrite take_copy_at_0; apply Z.eqb_refl).
  unfold choose_compression in Hch. destruct (_ <? limit); injection Hch as <- <-; unfold id; cbn [compression_byte Z.eqb].
  - rewrite (lz4_roundtrip data Hb). cbv zeta. by rewrite Z.eqb_refl, Hcrc.
  - by rewrite Z.eqb_refl, Hcrc.
Qed.
End codec.
End CodecLaws.

(** ** Reading sectors *)

Module EngineLaws.
Import Engine CodecLaws.

Section laws.
Context {C : Codec} {CS : CodecSpec} {D : Type} `{BD : BlockDevice D} `{BDS : !BlockDeviceSpec D}.
Implicit Types (d : D) (e : t) (s : D * t).

Lemma read_sectors_same d d' n x :
  (forall y, x <= y < x + Z.of_nat n -> read_sector d' y = read_sector d y) ->
  read_sectors d' n x = read_sectors d n x.
Proof.
  revert x. induction n as [|n IH]; intros x H; cbn [read_sectors]; [done|].
  rewrite H by lia. rewrite (IH (x + 1)); [done|]. intros. apply H. lia.
Qed.

Lemma read_sectors_length d n x b : read_sectors d n x = Ok b -> length b = (512 * n)%nat.
Proof.
  revert x b. induction n as [|n IH]; intros x b; cbn [read_sectors]; [by intros [= <-]|].
  destruct (read_sector d x) as [b1|] eqn:E1; [|done]. destruct (read_sectors d n (x + 1)) as [b2|] eqn:E2; [|done].
  intros [= <-]. rewrite length_app, (IH _ _ E2). destruct (read_is_sector _ _ _ E1). lia.
Qed.

(** The number of sectors of a location. *)
Definition sectors_of e (loc : BlockLocation) : Z :=
  div_ceil (on_disk_bytes (is_encrypted e) (loc_size loc)) SECTOR_SIZE.

Definition same_cipher e e' : Prop :=
  Crypto.cipher <$> crypto e' = Crypto.cipher <$> crypto e.

Lemma same_cipher_encrypted e e' : same_cipher e e' -> is_encrypted e' = is_encrypted e.
Proof. unfold same_cipher, is_encrypted. destruct (crypto e), (crypto e'); naive_solver. Qed.

(** A read depends on the key and on the sectors of the location only. *)
Lemma read_block_same d d' e e' loc buf :
  same_cipher e e' ->
  (forall y, loc_offset loc / 512 <= y < loc_offset loc / 512 + sectors_of e loc -> read_sector d' y = read_sector d y) ->
  read_block d' e' loc buf = read_block d e loc buf.
Proof.
  intros Hc Hs. unfold read_block. assert (read_envelope d' e' loc = read_envelope d e loc) as ->; [|done].
  unfold read_envelope, sectors_of, is_encrypted, same_cipher in *.
  destruct (crypto e) as [c|], (crypto e') as [c'|]; try done.
  - injection Hc as Hc. unfold on_disk_bytes in Hs. change SECTOR_SIZE with 512 in *.
    rewrite (read_sectors_same d d'); [|intros y Hy; apply Hs; lia].
    destruct (read_sectors d _ _) as [raw|]; [|done]. unfold Crypto.decrypt. rewrite Hc. done.
  - unfold on_disk_bytes in Hs. change SECTOR_SIZE with 512 in *.
    by rewrite (read_sectors_same d d'); [|intros y Hy; apply Hs; lia].
Qed.

(** ** Writing the data sectors *)

(** The sectors a buffer of [n] bytes needs. *)
Definition nsectors (n : nat) : nat := Z.to_nat (div_ceil (Z.of_nat n) 512).

Lemma nsectors_step n : (0 < n)%nat -> nsectors n = S (nsectors (n - 512)).
Proof.
  intros. unfold nsectors, div_ceil. destruct (decide (512 <= n)%nat).
  - replace (Z.of_nat n + 512 - 1) with ((Z.of_nat (n - 512) + 512 - 1) + 1 * 512) by lia.
    rewrite Z.div_add by lia. rewrite Z2Nat.inj_add by (try apply Z.div_pos; lia). lia.
  - replace (n - 512)%nat with O by lia. replace ((Z.of_nat 0 + 512 - 1) / 512) with 0 by reflexivity.
    assert ((Z.of_nat n + 512 - 1) / 512 = 1) as -> by divlia. done.
Qed.

Lemma put_sector_run x b s : put_sector x b s =
  Some ((write_sector s.1 x b).1, ((write_sector s.1 x b).2, s.2)).
Proof. unfold put_sector, pbind, pget, pput, plift. by destruct (write_sector s.1 x b). Qed.

(** The loop ends, changes only the sectors from [x] on, and on success the bytes are on the disk. *)
Lemma write_data_loop_spec fuel x bytes s :
  (length bytes <= fuel)%nat -> Forall is_byte bytes -> exists r d',
  write_data_loop fuel x bytes s = Some (r, (d', s.2)) /\
  capacity_sectors d' = capacity_sectors s.1 /\
  (forall y, y < x \/ x + Z.of_nat (nsectors (length bytes)) <= y -> read_sector d' y = read_sector s.1 y) /\
  (r = Ok tt -> exists raw, read_sectors d' (nsectors (length bytes)) x = Ok raw /\ take (length bytes) raw = bytes).
Proof.
  revert x bytes s. induction fuel as [|fuel IH]; intros x bytes s Hf Hb; cbn [write_data_loop].
  { destruct bytes; [|cbn in Hf; lia]. exists (Ok tt), s.1. split_and!; [by destruct s|done..|]. intros _. by exists []. }
  case_bool_decide as Hnil.
  { subst. exists (Ok tt), s.1. split_and!; [by destruct s|done..|]. intros _. by exists []. }
  assert (Hpos : (0 < length bytes)%nat) by (destruct bytes; [done|cbn; lia]).
  set (chunk := take 512 bytes). set (b := chunk ++ replicate (512 - length chunk) 0).
  assert (Hcl : length chunk = Nat.min 512 (length bytes)) by apply length_take.
  assert (Hsec : sector b).
  { split; [unfold b; rewrite length_app, length_replicate; lia|].
    apply Forall_app. split; [by apply Forall_take|apply Forall_replicate; unfold is_byte; lia]. }
  unfold pbind. rewrite put_sector_run. pose proof (write_capacity s.1 x b) as Hcap.
  pose proof (fun y => write_other s.1 x y b) as Hoth. destruct (write_sector s.1 x b) as [r d1] eqn:Ew. cbn [fst snd] in *.
  rewrite nsectors_step by done. destruct r as [[]|err]; cycle 1.
  { exists (Err err), d1. split_and!; [done..| |done]. intros y Hy. apply Hoth. lia. }
  destruct (IH (x + 1) (drop 512 bytes) (d1, s.2)) as (r & d' & Hrun & Hc & Ho & Hr);
    [rewrite length_drop; lia|by apply Forall_drop|]. cbn [fst snd] in *. rewrite length_drop in *.
  exists r, d'. split_and!; [done|by rewrite Hc| |].
  - intros y Hy. rewrite Ho by lia. apply Hoth. lia.
  - intros ->. destruct (Hr eq_refl) as (raw & Hraw & Htk). exists (b ++ raw). cbn [read_sectors].
    rewrite Ho, (write_same _ _ _ _ Hsec Ew), Hraw by lia. split; [done|].
    rewrite <-(take_drop 512 bytes) at 2. rewrite <-Htk. unfold b. fold chunk.
    destruct (decide (512 <= length bytes)%nat).
    + replace (512 - length chunk)%nat with O by lia. cbn [replicate]. rewrite app_nil_r, take_app_ge by lia. f_equal. f_equal. lia.
    + replace (length bytes - 512)%nat with O by lia. rewrite take_0, app_nil_r, <-app_assoc, take_app_le by lia.
      apply take_ge. lia.
Qed.

(** ** The frame of the write path *)

(** The log's region and the data region, in order, after the superblock. *)
Record layout s : Prop := {
  ly_wal : WalLaws.wf s.1 (wal s.2);
  ly_super : 8 <= Wal.start_sector (wal s.2);
  ly_data : Wal.start_sector (wal s.2) + Wal.size_sectors (wal s.2) <= Superblock.data_start_sector (superblock s.2);
  ly_next : Superblock.data_start_sector (superblock s.2) <= data_next_sector s.2
}.

(** From [s0] to [s]: same regions, key and indexes; the data sectors below [hi] unchanged. *)
Record frame (hi : Z) s0 s : Prop := {
  f_wal_start : Wal.start_sector (wal s.2) = Wal.start_sector (wal s0.2);
  f_wal_size : Wal.size_sectors (wal s.2) = Wal.size_sectors (wal s0.2);
  f_capacity : capacity_sectors s.1 = capacity_sectors s0.1;
  f_cipher : same_cipher s0.2 s.2;
  f_start : Superblock.data_start_sector (superblock s.2) = Superblock.data_start_sector (superblock s0.2);
  f_total : Superblock.total_sectors (superblock s.2) = Superblock.total_sectors (superblock s0.2);
  f_memtable : memtable s.2 = memtable s0.2;
  f_next : data_next_sector s.2 = data_next_sector s0.2;
  f_objects : object_index s.2 = object_index s0.2;
  f_spaces : space_table s.2 = space_table s0.2;
  f_old y : Superblock.data_start_sector (superblock s0.2) <= y < hi -> read_sector s.1 y = read_sector s0.1 y
}.

Lemma frame_refl hi s : frame hi s s.
Proof. by split. Qed.

Lemma frame_layout hi s0 s : layout s0 -> frame hi s0 s -> layout s.
Proof. intros [[] ? ? ?] []. split; [split|..]; lia. Qed.

Lemma keeps_on_wal {A} hi s0 (m : prog (D * Wal.t) StorageError A) :
  layout s0 -> (forall x, WalLaws.wf x.1 x.2 -> keeps (WalLaws.framed x) m) -> keeps (frame hi s0) (on_wal m).
Proof.
  intros Hly Hm s r s' Hf. pose proof (frame_layout _ _ _ Hly Hf) as Hls. unfold on_wal, zoom.
  destruct (m (s.1, wal s.2)) as [[r1 [d w]]|] eqn:Em; [|done]. intros [= <- <-].
  pose proof (Hm (s.1, wal s.2) (ly_wal _ Hls) _ _ _ (WalLaws.framed_refl _) Em) as [H1 H2 H3 H4]. cbn [fst snd] in *.
  destruct Hf, Hly. split; cbn [fst snd wal superblock memtable data_next_sector object_index space_table set_wal crypto]; try done; try congruence.
  intros y Hy. rewrite H4; [by auto|]. unfold WalLaws.in_region. cbn [snd]. lia.
Qed.

Lemma keeps_put_sector hi s0 x b : layout s0 -> x < 8 \/ hi <= x -> keeps (frame hi s0) (put_sector x b).
Proof.
  intros Hly Hx s r s' Hf. rewrite put_sector_run. intros [= <- <-]. pose proof (write_capacity s.1 x b) as Hc.
  pose proof (fun y => write_other s.1 x y b) as Ho. destruct Hf, Hly.
  split; cbn [fst snd]; try done; try congruence. intros y Hy. rewrite Ho; [by auto|]. destruct ly_wal0. lia.
Qed.

Lemma keeps_modify hi s0 (f : t -> t) :
  (forall s, frame hi s0 s -> frame hi s0 (s.1, f s.2)) -> keeps (frame hi s0) (modify f).
Proof. intros Hf. unfold modify. keeps. by apply Hf. Qed.

Lemma keeps_write_chunks hi s0 n x bytes : layout s0 -> x + Z.of_nat n <= 8 ->
  keeps (frame hi s0) (write_chunks n x bytes).
Proof.
  intros Hly. revert x bytes. induction n as [|n IH]; intros x bytes Hx; cbn [write_chunks]; keeps.
  - apply keeps_put_sector; [done|]. lia.
  - apply IH. lia.
Qed.

Lemma keeps_flush hi s0 : layout s0 -> keeps (frame hi s0) flush_superblock.
Proof.
  intros Hly. unfold flush_superblock. keeps; [|by apply keeps_write_chunks].
  apply keeps_modify. intros s1 []. destruct H. by split.
Qed.

Lemma keeps_data_loop hi s0 fuel x bytes : layout s0 -> hi <= x ->
  keeps (frame hi s0) (write_data_loop fuel x bytes).
Proof.
  intros Hly. revert x bytes. induction fuel as [|fuel IH]; intros x bytes Hx; cbn [write_data_loop]; keeps.
  - apply keeps_put_sector; [done|lia].
  - apply IH. lia.
Qed.

Lemma encrypt_cipher (c c' : Crypto.t) env buf r out :
  Crypto.encrypt c env buf = (r, out, c') -> Crypto.cipher c' = Crypto.cipher c.
Proof.
  unfold Crypto.encrypt, Crypto.next_nonce. destruct (_ <? _); [by intros [= _ _ <-]|].
  destruct (aes_encrypt _ _ _) as [[? ?]|]; by intros [= _ _ <-].
Qed.

Lemma keeps_seal hi s0 env size : layout s0 -> keeps (frame hi s0) (seal_envelope env size).
Proof.
  intros Hly. unfold seal_envelope. apply keeps_get. intros s1 Hs1. destruct (crypto s1.2) as [c|] eqn:Ec; [|keeps].
  destruct (Crypto.encrypt c env _) as [[r buf] c'] eqn:Ee. apply encrypt_cipher in Ee. keeps; [|by apply keeps_flush].
  apply keeps_modify. intros s2 []. destruct Hs1. split; try done. unfold same_cipher in *. cbn [snd crypto set_crypto].
  rewrite <-f_cipher1, Ec. cbn. by rewrite Ee.
Qed.

(** ** Stored blocks *)

(** Reading the location gives the bytes. *)
Definition stored d e (loc : BlockLocation) (data : list Z) : Prop :=
  forall buf, (length data <= length buf)%nat -> read_block d e loc buf = (Ok (alen data), copy_at buf 0 data).

(** ... and it lies in the written part of the data region. *)
Definition on_disk s (loc : BlockLocation) (data : list Z) : Prop :=
  Superblock.data_start_sector (superblock s.2) <= loc_offset loc / 512 /\
  loc_offset loc / 512 + sectors_of s.2 loc <= data_next_sector s.2 /\
  stored s.1 s.2 loc data.

Definition indexed s (h : ContentHash) : option BlockLocation :=
  MemTable.location <$> MemTable.get (memtable s.2) h.

(** The reference count of a hash; zero when it is not indexed. *)
Definition refs s (h : ContentHash) : Z := from_option MemTable.refcount 0 (MemTable.get (memtable s.2) h).

(** The block with hash [h] is indexed at [loc] and reads as [data]. *)
Definition held s (h : ContentHash) (loc : BlockLocation) (data : list Z) : Prop :=
  indexed s h = Some loc /\ sha256 data = h /\ on_disk s loc data.

Record store_inv s : Prop := {
  si_layout : layout s;
  si_sorted : sorted MemTable.key (MemTable.entries (memtable s.2));
  si_held h loc : indexed s h = Some loc -> exists data, held s h loc data
}.

(** What a later state keeps of the data of an earlier one. *)
Record extends s s' : Prop := {
  x_start : Superblock.data_start_sector (superblock s'.2) = Superblock.data_start_sector (superblock s.2);
  x_next : data_next_sector s.2 <= data_next_sector s'.2;
  x_cipher : same_cipher s.2 s'.2;
  x_old y : Superblock.data_start_sector (superblock s.2) <= y < data_next_sector s.2 ->
    read_sector s'.1 y = read_sector s.1 y
}.

Lemma on_disk_extends s s' loc data : extends s s' -> on_disk s loc data -> on_disk s' loc data.
Proof.
  intros [Hs Hn Hc Ho] (H1 & H2 & H3). unfold on_disk, sectors_of in *. rewrite (same_cipher_encrypted _ _ Hc), Hs.
  split_and!; [done|lia|]. intros buf Hb. rewrite <-(H3 buf Hb). apply read_block_same; [done|].
  intros y Hy. apply Ho. unfold sectors_of in Hy. lia.
Qed.

Lemma frame_extends s0 s : frame (data_next_sector s0.2) s0 s -> extends s0 s.
Proof. intros []. split; [done|lia|done|done]. Qed.

(** ** The index *)

Lemma get_as_map (m : MemTable.t) h : sorted MemTable.key (MemTable.entries m) ->
  MemTable.get m h = as_map MemTable.key (MemTable.entries m) !! h.
Proof. intros Hs. rewrite search_lookup by done. done. Qed.

Lemma get_mut_spec (m : MemTable.t) h en put : sorted MemTable.key (MemTable.entries m) ->
  MemTable.get_mut m h = Some (en, put) ->
  MemTable.get m h = Some en /\ MemTable.key en = h /\
  forall en', MemTable.key en' = h ->
    sorted MemTable.key (MemTable.entries (put en')) /\
    forall k, MemTable.get (put en') k = if decide (k = h) then Some en' else MemTable.get m k.
Proof.
  intros Hs. unfold MemTable.get_mut, MemTable.get at 1, MemTable.binary_search.
  destruct (binary_search_by _ _ h) as [i|i] eqn:Hb; [|done].
  destruct (search_Ok _ _ _ _ Hs Hb) as (e0 & Hi & Hk & Hm). rewrite Hi. cbn [mbind option_bind]. intros [= <- <-].
  split_and!; [done..|]. intros en' Hk'. destruct (vec_update_ok _ _ _ _ en' Hs Hb Hk') as [Hs' Hm'].
  split; [done|]. intros k. rewrite !get_as_map by done. cbn [MemTable.entries]. rewrite Hm'.
  destruct (decide (k = h)) as [->|Hne]; [by rewrite lookup_insert_eq|by rewrite lookup_insert_ne].
Qed.

Lemma get_mut_None (m : MemTable.t) h : MemTable.get_mut m h = None ->
  sorted MemTable.key (MemTable.entries m) -> MemTable.get m h = None.
Proof.
  intros H Hs. rewrite get_as_map by done. unfold MemTable.get_mut, MemTable.binary_search in H.
  destruct (binary_search_by _ _ h) as [i|i] eqn:Hb; [|by eapply search_Err].
  destruct (search_Ok _ _ _ _ Hs Hb) as (e0 & Hi & _). by rewrite Hi in H.
Qed.

(** Inserting a hash that is not in the index. *)
Lemma insert_new (m m' : MemTable.t) h loc r : sorted MemTable.key (MemTable.entries m) ->
  MemTable.get m h = None -> MemTable.insert m h loc = Some (r, m') ->
  sorted MemTable.key (MemTable.entries m') /\
  (forall k, MemTable.get m' k = if decide (k = h /\ is_ok r = true) then Some (MemTable.mk_entry h loc 1) else MemTable.get m k).
Proof.
  intros Hs Hg. rewrite get_as_map in Hg by done. unfold MemTable.insert, MemTable.binary_search.
  destruct (binary_search_by _ _ h) as [i|i] eqn:Hb.
  { destruct (search_Ok _ _ _ _ Hs Hb) as (e0 & _ & _ & Hm). congruence. }
  destruct (MemTable.is_full m); intros [= <- <-].
  { split; [done|]. intros k. rewrite decide_False; [done|]. by intros [_ ?]. }
  destruct (vec_insert_ok _ _ _ _ (MemTable.mk_entry h loc 1) Hs Hb eq_refl) as [Hs' Hm']. split; [done|].
  intros k. rewrite !get_as_map by done. cbn [MemTable.entries]. rewrite Hm'. destruct (decide (k = h)) as [->|Hne].
  - by rewrite decide_True, lookup_insert_eq.
  - rewrite decide_False, lookup_insert_ne by naive_solver. done.
Qed.

(** ** A written block can be read *)

Lemma seal_decodes env size s wd s' :
  seal_envelope env size s = Some (Ok wd, s') ->
  size = on_disk_bytes (is_encrypted s.2) (alen env - 8) -> Forall is_byte env ->
  Forall is_byte wd /\ alen wd = size /\
  forall d' e' loc raw, same_cipher s.2 e' -> loc_size loc = alen env - 8 ->
    read_sectors d' (nsectors (length wd)) (loc_offset loc / 512) = Ok raw -> take (length wd) raw = wd ->
    read_envelope d' e' loc = Ok env.
Proof.
  unfold seal_envelope, pbind at 1, pget at 1. unfold is_encrypted, on_disk_bytes, same_cipher, read_envelope.
  destruct (crypto s.2) as [c|]; intros Hrun Hsize Hb; change ENCRYPTION_OVERHEAD with 28 in *; change SECTOR_SIZE with 512.
  - assert (Hz : Z.to_nat size = (length env + 28)%nat) by (unfold alen in Hsize; lia). rewrite Hz in Hrun.
    destruct (Crypto.encrypt c env _) as [[r buf] c'] eqn:Ee.
    prog_inv Hrun; [done|]. prog_inv Hk; [done|]. injection Hm0 as -> _. prog_inv Hk0; [done|]. injection Hk as <- _.
    destruct (decrypt_encrypt c c' c env buf a0 Hb Ee eq_refl) as (Hl & Hbb & _ & _).
    split_and!; [done|unfold alen in *; lia|]. intros d' e' loc raw Hc Hloc Hraw Htk.
    destruct (crypto e') as [c2|]; [|done]. injection Hc as Hc.
    destruct (decrypt_encrypt c c' c2 env buf a0 Hb Ee Hc) as (_ & _ & _ & dec & Hdec & Hf).
    replace (8 + loc_size loc + 28) with (alen buf) by (unfold alen in *; lia).
    change (Z.to_nat (div_ceil (alen buf) 512)) with (nsectors (length buf)). rewrite Hraw. unfold alen at 1. rewrite Nat2Z.id, Htk, Hdec.
    unfold alen. by rewrite Nat2Z.id, Hf.
  - injection Hrun as <- _. split_and!; [done|lia|]. intros d' e' loc raw Hc Hloc Hraw Htk.
    destruct (crypto e'); [done|]. replace (8 + loc_size loc) with (alen env) by lia.
    change (Z.to_nat (div_ceil (alen env) 512)) with (nsectors (length env)). rewrite Hraw. unfold alen. by rewrite Nat2Z.id, Htk.
Qed.

Lemma envelope_stored d e loc data comp payload limit :
  choose_compression data limit = (comp, payload) -> Forall is_byte data -> alen data < 2 ^ 32 ->
  5 + alen payload < 2 ^ 32 -> loc_size loc = 5 + alen payload ->
  read_envelope d e loc = Ok (envelope (crc32c data) comp data payload) -> stored d e loc data.
Proof.
  intros Hch Hb Hd Hp Hloc Henv buf Hbuf. unfold read_block. rewrite Henv.
  destruct (envelope_fields (crc32c data) comp data payload (crc32c_uint data) ltac:(lia)) as (Hl & H1 & H2 & H3).
  pose proof (alen_nonneg payload). destruct (Z.ltb_spec (alen (envelope (crc32c data) comp data payload)) 8) as [Hlt|_];
    [unfold alen in *; lia|].
  rewrite H1, H2, Hloc, Z.eqb_refl. replace (Z.to_nat (5 + alen payload)) with (5 + length payload)%nat by (unfold alen; lia).
  rewrite H3. by eapply decompress_ok.
Qed.

(** ** The invariant *)

Lemma extends_refl s : extends s s.
Proof. split; [done|lia|done|done]. Qed.

(** An index whose locations come from the old one, over extended data. *)
Lemma store_inv_intro s s' : store_inv s -> layout s' -> extends s s' ->
  sorted MemTable.key (MemTable.entries (memtable s'.2)) ->
  (forall h loc, indexed s' h = Some loc -> indexed s h = Some loc \/ exists data, held s' h loc data) ->
  store_inv s'.
Proof.
  intros [_ _ Hh] Hly Hx Hs Hi. split; [done..|]. intros h loc Hl. destruct (Hi h loc Hl) as [Ho|Hn]; [|done].
  destruct (Hh h loc Ho) as (data & _ & Hsha & Hd). exists data. split_and!; [done..|]. by eapply on_disk_extends.
Qed.

Lemma held_extends s s' h loc data : extends s s' -> indexed s' h = indexed s h ->
  held s h loc data -> held s' h loc data.
Proof. intros Hx Hi (H1 & H2 & H3). split_and!; [by rewrite Hi|done|]. by eapply on_disk_extends. Qed.

(** The outcome of a call that may add the block [data]. *)
Definition stores s (data : list Z) (r : result StorageError (ContentHash * BlockLocation)) s' : Prop :=
  store_inv s' /\ extends s s' /\ (forall h loc old, held s h loc old -> held s' h loc old) /\
  object_index s'.2 = object_index s.2 /\ space_table s'.2 = space_table s.2 /\
  (forall h, if decide (h = sha256 data /\ is_ok r = true) then refs s' h = refs s h + 1
             else MemTable.get (memtable s'.2) h = MemTable.get (memtable s.2) h) /\
  forall h loc, r = Ok (h, loc) -> h = sha256 data /\
    exists old, held s' h loc old /\ (old = data \/ indexed s h = Some loc).

(** A failed call that changed neither index nor old data. *)
Lemma stores_err s data err s' : store_inv s -> frame (data_next_sector s.2) s s' -> stores s data (Err err) s'.
Proof.
  intros Hi Hf. pose proof (frame_layout _ _ _ (si_layout _ Hi) Hf) as Hly. pose proof (frame_extends _ _ Hf) as Hx.
  assert (Hix : forall h, indexed s' h = indexed s h) by (intros; unfold indexed; by rewrite (f_memtable _ _ _ Hf)).
  split_and!; [|done|intros; by eapply held_extends|apply Hf..| |done].
  2: { intros h. rewrite (f_memtable _ _ _ Hf), decide_False by naive_solver. done. }
  eapply store_inv_intro; [done..| |].
  - rewrite (f_memtable _ _ _ Hf). apply Hi.
  - intros h loc. rewrite Hix. by left.
Qed.

(** Deduplication: the hash is indexed, its reference count grows. *)
Lemma stores_dedup s data en put en' : store_inv s ->
  MemTable.get_mut (memtable s.2) (sha256 data) = Some (en, put) -> MemTable.bump en = Some en' ->
  stores s data (Ok (sha256 data, MemTable.location en)) (s.1, set_memtable s.2 (put en')).
Proof.
  intros Hi Hg Hbp. pose proof (si_sorted _ Hi) as Hs. destruct (get_mut_spec _ _ _ _ Hs Hg) as (Hget & Hk & Hput).
  unfold MemTable.bump in Hbp. destruct (checked_add _ _ _) as [n|] eqn:En; [|done].
  apply checked_add_Some in En as [-> _]. injection Hbp as <-.
  destruct (Hput (MemTable.mk_entry (MemTable.key en) (MemTable.location en) (MemTable.refcount en + 1)) Hk) as [Hs' Hg']. set (s' := (s.1, set_memtable s.2 _)).
  assert (Hx : extends s s') by (destruct (extends_refl s); by split).
  assert (Hix : forall h, indexed s' h = indexed s h).
  { intros h. unfold indexed. cbn [s' snd memtable set_memtable]. rewrite Hg'. destruct (decide (h = sha256 data)) as [->|]; [by rewrite Hget|done]. }
  split_and!; [|done|intros; by eapply held_extends|done..| |].
  - eapply store_inv_intro; [done|by destruct (si_layout _ Hi); split|done|exact Hs'|]. intros h loc. rewrite Hix. by left.
  - intros h. unfold refs. cbn [s' snd memtable set_memtable is_ok]. rewrite Hg'. destruct (decide (_ /\ _)) as [[-> _]|Hne].
    + by rewrite Hget, decide_True.
    + by rewrite decide_False by naive_solver.
  - intros h loc [= <- <-]. split; [done|]. assert (Hin : indexed s (sha256 data) = Some (MemTable.location en)) by (unfold indexed; by rewrite Hget).
    destruct (si_held _ Hi _ _ Hin) as (old & Hold). exists old. split; [by eapply held_extends|by right].
Qed.

(** A new block: written beyond the old data, then inserted in the index. *)
Lemma stores_insert s s1 data loc next r m' : store_inv s -> frame (data_next_sector s.2) s s1 ->
  MemTable.get (memtable s.2) (sha256 data) = None -> data_next_sector s.2 <= next ->
  MemTable.insert (memtable s1.2) (sha256 data) loc = Some (r, m') ->
  on_disk (s1.1, set_data_next_sector s1.2 next) loc data ->
  stores s data (match r with Ok _ => Ok (sha256 data, loc) | Err _ => Err MemTableFull end)
    (s1.1, set_memtable (set_data_next_sector s1.2 next) m').
Proof.
  intros Hi Hf Hn Hnext Hins Hod. pose proof (frame_layout _ _ _ (si_layout _ Hi) Hf) as Hly.
  rewrite (f_memtable _ _ _ Hf) in Hins. destruct (insert_new _ _ _ _ _ (si_sorted _ Hi) Hn Hins) as [Hs' Hg'].
  set (s' := (s1.1, set_memtable _ m')).
  assert (Hx : extends s s').
  { destruct (frame_extends _ _ Hf) as [H1 H2 H3 H4]. split; [done|exact Hnext|done|done]. }
  assert (Hnone : indexed s (sha256 data) = None) by (unfold indexed; by rewrite Hn).
  assert (Hsame : forall h, h <> sha256 data -> MemTable.get (memtable s'.2) h = MemTable.get (memtable s.2) h).
  { intros h Hne. cbn [s' snd memtable set_memtable]. rewrite Hg', decide_False; [done|naive_solver]. }
  assert (Hnew : forall l, indexed s' (sha256 data) = Some l -> l = loc /\ held s' (sha256 data) loc data).
  { intros l Hl. assert (l = loc) as ->; [|by split_and!].
    unfold indexed in Hl. cbn [s' snd memtable set_memtable] in Hl. rewrite Hg' in Hl.
    destruct (decide _); [by injection Hl|by rewrite Hn in Hl]. }
  split_and!; [|done| |apply Hf..| |].
  - eapply store_inv_intro; [done| |done|exact Hs'|].
    + destruct Hly as [H1 H2 H3 H4]. split; [done..|]. cbn [s' snd superblock data_next_sector set_memtable set_data_next_sector].
      rewrite (f_next _ _ _ Hf) in H4. lia.
    + intros h l Hl. destruct (decide (h = sha256 data)) as [->|Hne]; [right|left].
      * destruct (Hnew l Hl) as [-> ?]. eauto.
      * unfold indexed in *. by rewrite <-Hsame.
  - intros h l old Hh. eapply held_extends; [done| |done]. unfold indexed. rewrite Hsame; [done|].
    intros ->. destruct Hh as [Hh _]. congruence.
  - intros h. unfold refs. cbn [s' snd memtable set_memtable]. rewrite Hg'. destruct r as [b|].
    + cbn [is_ok]. destruct (decide (_ /\ _)) as [[-> _]|Hne]; [by rewrite Hn|done].
    + by rewrite !decide_False by naive_solver.
  - intros h l. destruct r as [b|]; [|done]. intros [= <- <-]. split; [done|]. exists data. split; [|by left].
    refine (proj2 (Hnew loc _)). unfold indexed. cbn [s' snd memtable set_memtable]. by rewrite Hg', decide_True.
Qed.

Lemma modify_run (f : t -> t) s : modify f s = Some (Ok tt, (s.1, f s.2)).
Proof. done. Qed.

(** The steps of the write path that put the block on the disk. *)
Lemma write_path_on_disk s data comp payload limit wd s1 s2 s3 s4 i next :
  layout s -> frame (data_next_sector s.2) s s1 ->
  choose_compression data limit = (comp, payload) -> Forall is_byte data -> alen data < 2 ^ 32 ->
  5 + alen payload < 2 ^ 32 ->
  let size := on_disk_bytes (is_encrypted s.2) (5 + alen payload) in
  next = data_next_sector s.2 + div_ceil size 512 ->
  seal_envelope (envelope (crc32c data) comp data payload) size s1 = Some (Ok wd, s2) ->
  write_data_loop (length wd) (data_next_sector s.2) wd s2 = Some (Ok tt, s3) ->
  on_wal (Wal.commit_at i) s3 = Some (Ok tt, s4) ->
  frame (data_next_sector s.2) s s4 /\
  on_disk (s4.1, set_data_next_sector s4.2 next) (mk_loc (data_next_sector s.2 * 512) (5 + alen payload) Hot) data.
Proof.
  intros Hly Hf1 Hch Hb Hd Hp size Hnext Hseal Hdata Hcom. pose proof (alen_nonneg payload) as Hp0.
  destruct (envelope_fields (crc32c data) comp data payload (crc32c_uint data) ltac:(lia)) as (Hel & _).
  assert (Hpb : Forall is_byte payload).
  { unfold choose_compression in Hch. destruct (_ <? _); injection Hch as <- <-; [by apply lz4_bytes|done]. }
  pose proof (same_cipher_encrypted _ _ (f_cipher _ _ _ Hf1)) as Henc.
  pose proof (keeps_seal _ _ _ _ Hly _ _ _ Hf1 Hseal) as Hf2.
  destruct (seal_decodes _ _ _ _ _ Hseal) as (Hwb & Hwl & Hdec);
    [rewrite Henc; unfold size; f_equal; unfold alen; lia|by apply envelope_bytes|].
  pose proof (keeps_data_loop _ _ _ _ _ Hly (Z.le_refl _) _ _ _ Hf2 Hdata) as Hf3.
  pose proof (frame_layout _ _ _ Hly Hf3) as Hly3.
  pose proof (keeps_on_wal next s3 (Wal.commit_at i) Hly3 (fun x => WalLaws.keeps_commit_at x i) _ _ _ (frame_refl _ _) Hcom) as Hfc.
  pose proof (keeps_on_wal _ _ (Wal.commit_at i) Hly (fun x => WalLaws.keeps_commit_at x i) _ _ _ Hf3 Hcom) as Hf4.
  split; [done|].
  destruct (write_data_loop_spec (length wd) (data_next_sector s.2) wd s2 (le_n _) Hwb) as (r & d' & Hrun & _ & _ & Hr).
  rewrite Hdata in Hrun. injection Hrun as <- ->. destruct (Hr eq_refl) as (raw & Hraw & Htk).
  assert (Hns : Z.of_nat (nsectors (length wd)) = div_ceil size 512).
  { unfold nsectors. change (Z.of_nat (length wd)) with (alen wd). rewrite Hwl, Z2Nat.id; [done|]. apply div_ceil_nonneg; [lia|].
    unfold size, on_disk_bytes, ENCRYPTION_OVERHEAD. destruct (is_encrypted _); lia. }
  assert (Hc4 : same_cipher s.2 (set_data_next_sector s4.2 next)) by apply (f_cipher _ _ _ Hf4).
  unfold on_disk, sectors_of. cbn [fst snd loc_offset loc_size superblock data_next_sector set_data_next_sector].
  rewrite Z.div_mul, (f_start _ _ _ Hf4), (same_cipher_encrypted _ _ Hc4) by lia.
  split_and!; [apply Hly|rewrite Hnext; done|].
  eapply envelope_stored; try done. eapply Hdec with (raw := raw).
  - unfold same_cipher in *. rewrite (f_cipher _ _ _ Hf1). exact Hc4.
  - cbn [loc_size]. unfold alen. lia.
  - cbn [loc_offset]. rewrite Z.div_mul by lia. rewrite <-Hraw. apply read_sectors_same. intros y Hy.
    rewrite (f_old _ _ _ Hfc); [done|]. pose proof (ly_next _ Hly). pose proof (f_start _ _ _ Hf3) as Hst. cbn [snd] in *. lia.
  - done.
Qed.

Lemma write_block_inv s data r s' : store_inv s -> Forall is_byte data -> alen data < 2 ^ 32 ->
  write_block data s = Some (r, s') -> stores s data r s'.
Proof.
  intros Hi Hb Hd Hrun. pose proof (si_layout _ Hi) as Hly. unfold write_block in Hrun. case_bool_decide.
  { injection Hrun as <- <-. apply stores_err; [done|apply frame_refl]. }
  rewrite pbind_get in Hrun. destruct (MemTable.get_mut (memtable s.2) (sha256 data)) as [[en put]|] eqn:Eg.
  { apply pbind_checked_inv in Hrun as (en' & Hbp & Hrun). injection Hrun as <- <-. by apply stores_dedup. }
  apply get_mut_None in Eg; [|apply Hi]. apply pbind_checked_inv in Hrun as (nine & _ & Hrun).
  destruct (choose_compression data (nine / 10)) as [comp payload] eqn:Hch.
  apply pbind_checked_inv in Hrun as (next & [-> _]%checked_add_Some & Hrun). change COMPRESSION_HEADER_SIZE with 5 in *.
  change SECTOR_SIZE with 512 in *.
  set (size := on_disk_bytes (is_encrypted s.2) (5 + alen payload)) in *.
  destruct (_ >? Superblock.total_sectors _); [injection Hrun as <- <-; apply stores_err; [done|apply frame_refl]|].
  destruct (Z.gtb_spec (5 + alen payload) (umax 32)) as [|Hp]; [injection Hrun as <- <-; apply stores_err; [done|apply frame_refl]|].
  apply pbind_checked_inv in Hrun as (off & Hoff & Hrun).
  assert (off = data_next_sector s.2 * 512) as -> by (unfold checked_mul in Hoff; destruct (_ <? _); congruence).
  pose proof (frame_refl (data_next_sector s.2) s) as Hf.
  prog_inv Hrun.
  { subst r. apply stores_err; [done|]. by eapply (keeps_on_wal _ s _ Hly (fun x => WalLaws.keeps_append x _ _ _)). }
  pose proof (keeps_on_wal _ s _ Hly (fun x => WalLaws.keeps_append x _ _ _) _ _ _ Hf Hm) as Hf1.
  prog_inv Hk. { subst r. apply stores_err; [done|]. by eapply keeps_seal. }
  pose proof (keeps_seal _ _ _ _ Hly _ _ _ Hf1 Hm0) as Hf2.
  prog_inv Hk0. { subst r. apply stores_err; [done|]. by eapply keeps_data_loop. }
  pose proof (keeps_data_loop _ _ _ _ _ Hly (Z.le_refl _) _ _ _ Hf2 Hm1) as Hf3.
  prog_inv Hk. { subst r. apply stores_err; [done|]. by eapply (keeps_on_wal _ s _ Hly (fun x => WalLaws.keeps_commit_at x _)). }
  destruct a1, a2. destruct (write_path_on_disk _ _ _ _ _ _ _ _ _ _ _ (data_next_sector s.2 + div_ceil size 512)
    Hly Hf1 Hch Hb Hd ltac:(unfold umax in Hp; lia) eq_refl Hm0 Hm1 Hm2) as [Hf4 Hod].
  rewrite (pbind_Ok _ _ _ tt _ (modify_run _ _)), pbind_get in Hk0.
  apply pbind_checked_inv in Hk0 as ([ri m'] & Hins & Hk0). cbn [fst snd] in *.
  rewrite (pbind_Ok _ _ _ tt _ (modify_run _ _)) in Hk0. cbn [fst snd] in Hk0.
  assert (Hle : data_next_sector s.2 <= data_next_sector s.2 + div_ceil size 512).
  { enough (0 <= div_ceil size 512) by lia. apply div_ceil_nonneg; [lia|]. pose proof (alen_nonneg payload).
    unfold size, on_disk_bytes, ENCRYPTION_OVERHEAD. destruct (is_encrypted _); lia. }
  pose proof (stores_insert s s3 data _ _ ri m' Hi Hf4 Eg Hle Hins Hod) as Hst.
  destruct ri; injection Hk0 as <- <-; exact Hst.
Qed.

(** ** Reference counts *)

(** Nothing is added to the index. *)
Lemma dec_ref_indexed (m m' : MemTable.t) h r : sorted MemTable.key (MemTable.entries m) ->
  MemTable.dec_ref m h = (r, m') ->
  sorted MemTable.key (MemTable.entries m') /\
  forall k, MemTable.location <$> MemTable.get m' k =
    if decide (k = h /\ snd <$> r = Some true) then None else MemTable.location <$> MemTable.get m k.
Proof.
  intros Hs. unfold MemTable.dec_ref, MemTable.binary_search. destruct (binary_search_by _ _ h) as [i|i] eqn:Hb.
  2: { intros [= <- <-]. split; [done|]. intros k. rewrite decide_False; [done|]. naive_solver. }
  destruct (search_Ok _ _ _ _ Hs Hb) as (e0 & Hi & Hk & Hm). rewrite Hi. destruct (_ <=? 1); intros [= <- <-].
  - destruct (vec_remove_ok _ _ _ _ Hs Hb) as [Hs' Hm']. split; [done|]. intros k. rewrite !get_as_map by done.
    cbn [MemTable.entries]. rewrite Hm'. destruct (decide (k = h)) as [->|Hne].
    + rewrite decide_True, lookup_delete_eq by done. done.
    + rewrite decide_False, lookup_delete_ne by naive_solver. done.
  - set (e1 := MemTable.mk_entry _ _ _).
    destruct (vec_update_ok _ _ _ _ e1 Hs Hb Hk) as [Hs' Hm']. split; [done|]. intros k.
    rewrite decide_False by naive_solver. rewrite !get_as_map by done. cbn [MemTable.entries]. rewrite Hm'.
    destruct (decide (k = h)) as [->|Hne]; [by rewrite lookup_insert_eq, Hm|by rewrite lookup_insert_ne].
Qed.

(** Replacing the index by one with no new locations keeps the invariant. *)
Lemma store_inv_index s m' : store_inv s -> sorted MemTable.key (MemTable.entries m') ->
  (forall k l, MemTable.location <$> MemTable.get m' k = Some l -> indexed s k = Some l) ->
  store_inv (s.1, set_memtable s.2 m').
Proof.
  intros Hi Hs Hk. eapply (store_inv_intro s); [done|by destruct (si_layout _ Hi)|by destruct (extends_refl s)|done|].
  intros h l Hl. left. by apply Hk.
Qed.

Lemma inc_ref_inv s h r s' : store_inv s -> inc_ref h s = Some (r, s') ->
  store_inv s' /\ forall k, indexed s' k = indexed s k.
Proof.
  intros Hi. unfold inc_ref. rewrite pbind_get. destruct (MemTable.get_mut _ h) as [[en put]|] eqn:Eg; [|by intros [= <- <-]].
  intros (en' & Hbp & [= <- <-])%pbind_checked_inv.
  destruct (get_mut_spec _ _ _ _ (si_sorted _ Hi) Eg) as (Hget & Hk & Hput).
  unfold MemTable.bump in Hbp. destruct (checked_add _ _ _) as [n|]; [|done]. injection Hbp as <-.
  destruct (Hput (MemTable.mk_entry (MemTable.key en) (MemTable.location en) n) Hk) as [Hs' Hg'].
  assert (Hix : forall k, MemTable.location <$> MemTable.get (put (MemTable.mk_entry (MemTable.key en) (MemTable.location en) n)) k = indexed s k).
  { intros k. unfold indexed. rewrite Hg'. destruct (decide (k = h)) as [->|]; [by rewrite Hget|done]. }
  split; [|exact Hix]. apply store_inv_index; [done..|]. intros k l. by rewrite Hix.
Qed.

Lemma dec_ref_inv s h r s' : store_inv s -> dec_ref h s = Some (r, s') ->
  store_inv s' /\ forall k, indexed s' k = if decide (k = h /\ r = Ok true) then None else indexed s k.
Proof.
  intros Hi. unfold dec_ref. rewrite pbind_get. destruct (MemTable.dec_ref (memtable s.2) h) as [o m'] eqn:Ed.
  destruct (dec_ref_indexed _ _ _ _ (si_sorted _ Hi) Ed) as [Hs' Hk'].
  assert (Hinv : store_inv (s.1, set_memtable s.2 m')).
  { apply store_inv_index; [done..|]. intros k l. rewrite Hk'. by destruct (decide _). }
  rewrite (pbind_Ok _ _ _ tt _ (modify_run _ _)). destruct o as [[l freed]|]; intros [= <- <-]; (split; [done|]);
    intros k; etransitivity; [apply Hk'| |apply Hk'|].
  - destruct freed; [|by rewrite !decide_False by naive_solver].
    destruct (decide (k = h)); [by rewrite !decide_True|by rewrite !decide_False by naive_solver].
  - rewrite !decide_False by naive_solver. done.
Qed.

(** What the two calls do to the counts: they change nothing but the index. *)
Lemma inc_ref_effect s h r s' : store_inv s -> inc_ref h s = Some (r, s') ->
  (exists m', s' = (s.1, set_memtable s.2 m')) /\
  (forall k, refs s' k = refs s k + if decide (k = h /\ is_ok r = true) then 1 else 0) /\
  (is_Some (indexed s h) -> r = Ok tt).
Proof.
  intros Hi. unfold inc_ref. rewrite pbind_get. destruct (MemTable.get_mut _ h) as [[en put]|] eqn:Eg.
  2: { intros [= <- <-]. apply get_mut_None in Eg; [|apply Hi]. split_and!.
    - exists (memtable s.2). by destruct s as [d []].
    - intros k. rewrite decide_False by naive_solver. lia.
    - unfold indexed. rewrite Eg. by intros []. }
  intros (en' & Hbp & [= <- <-])%pbind_checked_inv.
  destruct (get_mut_spec _ _ _ _ (si_sorted _ Hi) Eg) as (Hget & Hk & Hput).
  unfold MemTable.bump in Hbp. destruct (checked_add _ _ _) as [n|] eqn:En; [|done].
  apply checked_add_Some in En as [-> _]. injection Hbp as <-.
  destruct (Hput (MemTable.mk_entry (MemTable.key en) (MemTable.location en) (MemTable.refcount en + 1)) Hk) as [_ Hg'].
  split_and!; [by eexists| |done]. intros k. unfold refs. cbn [snd memtable set_memtable is_ok]. rewrite Hg'.
  destruct (decide (k = h)) as [->|]; [by rewrite Hget, decide_True|]. rewrite decide_False by naive_solver. lia.
Qed.

Lemma dec_ref_effect s h r s' : store_inv s -> dec_ref h s = Some (r, s') ->
  (exists m', s' = (s.1, set_memtable s.2 m')) /\
  (forall k, (if decide (k = h) then refs s k - 1 else refs s k) <= refs s' k) /\
  (forall k, k <> h -> MemTable.get (memtable s'.2) k = MemTable.get (memtable s.2) k).
Proof.
  intros Hi. unfold dec_ref. rewrite pbind_get. destruct (MemTable.dec_ref (memtable s.2) h) as [o m'] eqn:Ed.
  rewrite (pbind_Ok _ _ _ tt _ (modify_run _ _)). intros Hrun.
  assert (s' = (s.1, set_memtable s.2 m')) as -> by (destruct o as [[? ?]|]; by injection Hrun as <- <-). clear Hrun.
  pose proof (si_sorted _ Hi) as Hs. split; [by eexists|].
  enough (Hg : forall k, MemTable.get m' k = if decide (k = h) then
      (en ← MemTable.get (memtable s.2) h; if MemTable.refcount en <=? 1 then None
       else Some (MemTable.mk_entry (MemTable.key en) (MemTable.location en) (MemTable.refcount en - 1)))
      else MemTable.get (memtable s.2) k).
  { split; intros k; unfold refs; cbn [snd memtable set_memtable]; rewrite Hg; [|by intros; rewrite decide_False].
    destruct (decide (k = h)) as [->|]; [|lia]. destruct (MemTable.get _ h) as [en|]; cbn; [|lia].
    destruct (Z.leb_spec (MemTable.refcount en) 1); cbn; lia. }
  revert Ed. unfold MemTable.dec_ref, MemTable.binary_search. destruct (binary_search_by _ _ h) as [i|i] eqn:Hb.
  2: { intros [= <- <-] k. case_decide; [|done]. subst k. rewrite !get_as_map, (search_Err _ _ _ _ Hs Hb) by done. done. }
  destruct (search_Ok _ _ _ _ Hs Hb) as (en & Hix & Hk & Hm). rewrite Hix. intros Ed k. rewrite !(get_as_map (memtable s.2)), Hm by done.
  cbn [mbind option_bind]. destruct (MemTable.refcount en <=? 1); injection Ed as <- <-.
  - destruct (vec_remove_ok _ _ _ _ Hs Hb) as [Hs' Hm']. rewrite get_as_map by done. cbn [MemTable.entries]. rewrite Hm'.
    case_decide; [subst; by rewrite lookup_delete_eq|by rewrite lookup_delete_ne].
  - destruct (vec_update_ok _ _ _ _ (MemTable.mk_entry (MemTable.key en) (MemTable.location en) (MemTable.refcount en - 1)) Hs Hb Hk) as [Hs' Hm'].
    rewrite get_as_map by done. cbn [MemTable.entries]. rewrite Hm'.
    case_decide; [subst; by rewrite lookup_insert_eq|by rewrite lookup_insert_ne].
Qed.

(** ** Runs *)

(** The calls a client can make, with any outcome. *)
Inductive store_step : D * t -> D * t -> Prop :=
| step_write data s r s' : Forall is_byte data -> alen data < 2 ^ 32 ->
    write_block data s = Some (r, s') -> store_step s s'
| step_inc h s r s' : inc_ref h s = Some (r, s') -> store_step s s'
| step_dec h s r s' : dec_ref h s = Some (r, s') -> store_step s s'
| step_flush s r s' : flush_superblock s = Some (r, s') -> store_step s s'.

Lemma flush_inv s r s' : store_inv s -> flush_superblock s = Some (r, s') ->
  store_inv s' /\ forall k, indexed s' k = indexed s k.
Proof.
  intros Hi Hrun. pose proof (si_layout _ Hi) as Hly.
  pose proof (keeps_flush _ _ Hly _ _ _ (frame_refl (data_next_sector s.2) s) Hrun) as Hf.
  assert (Hix : forall k, indexed s' k = indexed s k) by (intros; unfold indexed; by rewrite (f_memtable _ _ _ Hf)).
  split; [|done]. eapply store_inv_intro; [done|by eapply frame_layout|by apply frame_extends| |].
  - rewrite (f_memtable _ _ _ Hf). apply Hi.
  - intros h l. rewrite Hix. by left.
Qed.

Lemma store_step_inv s s' : store_step s s' -> store_inv s -> store_inv s'.
Proof.
  intros [data s1 r s2 Hb Hd Hrun|h s1 r s2 Hrun|h s1 r s2 Hrun|s1 r s2 Hrun] Hi.
  - by apply (write_block_inv _ _ _ _ Hi Hb Hd Hrun).
  - by apply (inc_ref_inv _ _ _ _ Hi Hrun).
  - by apply (dec_ref_inv _ _ _ _ Hi Hrun).
  - by apply (flush_inv _ _ _ Hi Hrun).
Qed.

(** A freshly formatted store. *)
Lemma fresh_store_inv d tick w : w = Wal.new WAL_START_SECTOR WAL_SIZE_SECTORS ->
  DATA_START_SECTOR <= capacity_sectors d <= 2 ^ 54 ->
  store_inv (d, fresh_engine (Superblock.format tick (capacity_sectors d)) w DATA_START_SECTOR).
Proof.
  intros -> Hd. split.
  - split; [split|..]; cbn; unfold DATA_START_SECTOR, WAL_START_SECTOR, WAL_SIZE_SECTORS in *; lia.
  - intros i j a b _. cbn. by rewrite lookup_nil.
  - intros h loc. by cbn.
Qed.
End laws.
End EngineLaws.
