(* ===== verification/Recovery.v ===== *)
(** * Durability and recovery of the block store

    What survives a reboot.  [durable s l] relates the running engine to what the disk
    holds: a valid superblock with the current log positions, a log [l] whose
    entries are all committed and point at readable blocks, and an index whose
    hashes all occur in the log.  On a reliable device with encryption on, every
    [write_block] succeeds while there is room and re-establishes it
    ([write_block_durable]); [init] on such a disk rebuilds an index with every
    block ([init_recovers]). *)

From S2P Require Import SortedVec Prelude Prog Storage BlockDevice Wal BlockEngine BlockStore.
Open Scope prog_scope.

(** AES-GCM encryption succeeds (the crate fails only above 2^36 bytes). *)
Class TotalCodec {C : Codec} : Prop :=
  aes_total : forall k n p, exists c t, aes_encrypt k n p = Some (c, t).

Module SuperblockLaws.
Import Superblock.

(** The widths of the fields, and what [is_valid] checks besides the checksum. *)
Record typed (s : t) : Prop := {
  t_magic : magic s = SUPERBLOCK_MAGIC;
  t_version : version s = SUPERBLOCK_VERSION;
  t_block : uint 32 (block_size s);
  t_total : uint 64 (total_sectors s);
  t_wstart : uint 64 (wal_start_sector s);
  t_wsize : uint 64 (wal_size_sectors s);
  t_start : uint 64 (data_start_sector s);
  t_next : uint 64 (data_next_sector s);
  t_head : uint 64 (wal_head s);
  t_tail : uint 64 (wal_tail s);
  t_free : uint 64 (free_data_sectors s);
  t_lsm : uint 64 (lsm_l0_offset s);
  t_epoch : uint 64 (encryption_epoch s);
  t_nonce : uint 64 (nonce_counter s);
  t_prefix : uint 32 (nonce_random_prefix s);
  t_check : uint 32 (checksum s);
  t_pad : length (padding s) = PADDING;
  t_pad_bytes : Forall is_byte (padding s)
}.

Lemma sb_body_length s : length (body s) = 108%nat.
Proof. unfold body. by rewrite !length_app, !length_le_bytes. Qed.

Lemma sb_bytes_length s : typed s -> length (bytes s) = 4096%nat.
Proof. intros []. unfold bytes. by rewrite !length_app, sb_body_length, length_le_bytes, t_pad0. Qed.

Lemma sb_bytes_bytes s : typed s -> Forall is_byte (bytes s).
Proof.
  intros []. unfold bytes, body. rewrite !Forall_app. split_and!; auto with aios.
Qed.

Lemma sb_of_bytes_bytes s : typed s -> of_bytes (bytes s) = s.
Proof.
  intros []. assert (uint 64 (magic s)) by (rewrite t_magic0; vm_compute; split; congruence).
  assert (uint 32 (version s)) by (rewrite t_version0; vm_compute; split; congruence).
  unfold of_bytes, bytes, body. rewrite <-!app_assoc. destruct s. cbn [magic version block_size total_sectors
    wal_start_sector wal_size_sectors data_start_sector data_next_sector wal_head wal_tail free_data_sectors
    lsm_l0_offset encryption_epoch nonce_counter nonce_random_prefix checksum padding] in *. f_equal; fields.
Qed.

Lemma sb_seal_typed s : typed s -> typed (seal s).
Proof. intros []. split; try done. apply crc32c_uint. Qed.

Lemma sb_seal_idem s : seal (seal s) = seal s.
Proof.
  assert (E : compute_checksum (seal s) = compute_checksum s) by (unfold compute_checksum; f_equal).
  unfold seal at 1. rewrite E. reflexivity.
Qed.

Lemma sb_seal_valid s : typed s -> is_valid (seal s) = true.
Proof.
  intros [Hm Hv]. assert (Hb : body (seal s) = body s) by reflexivity. unfold is_valid, compute_checksum. rewrite Hb.
  apply andb_true_intro. split; [apply andb_true_intro; split; by apply Z.eqb_eq|]. apply Z.eqb_eq. reflexivity.
Qed.
End SuperblockLaws.

Module Durable.
Import Engine EngineLaws.

Section durable.
Context {C : Codec} {CS : CodecSpec} {TC : TotalCodec} {D : Type} `{BD : BlockDevice D}
  `{BDS : !BlockDeviceSpec D} `{RD : !ReliableDevice D}.
Implicit Types (d : D) (e : t) (s : D * t) (l : list WalEntry.t).

(** ** Sector writes succeed *)

Lemma put_sector_ok x b s : 0 <= x < capacity_sectors s.1 -> exists d',
  put_sector x b s = Some (Ok tt, (d', s.2)) /\ capacity_sectors d' = capacity_sectors s.1 /\
  (sector b -> read_sector d' x = Ok b) /\ forall y, y <> x -> read_sector d' y = read_sector s.1 y.
Proof.
  intros Hx. rewrite put_sector_run. pose proof (reliable_write s.1 x b Hx) as Hw. pose proof (write_capacity s.1 x b) as Hc.
  pose proof (fun y => write_other s.1 x y b) as Ho. pose proof (fun Hb d' => write_same s.1 x b d' Hb) as Hsame.
  destruct (write_sector s.1 x b) as [r d']. cbn [fst snd] in *. subst r. exists d'. eauto.
Qed.

Lemma write_chunks_ok n x bytes s : 0 <= x -> x + Z.of_nat n <= capacity_sectors s.1 ->
  length bytes = (512 * n)%nat -> Forall is_byte bytes -> exists d',
  write_chunks n x bytes s = Some (Ok tt, (d', s.2)) /\ capacity_sectors d' = capacity_sectors s.1 /\
  read_sectors d' n x = Ok bytes /\
  forall y, y < x \/ x + Z.of_nat n <= y -> read_sector d' y = read_sector s.1 y.
Proof.
  revert x bytes s. induction n as [|n IH]; intros x bytes s Hx Hc Hl Hb; cbn [write_chunks].
  { exists s.1. destruct bytes; [|done]. by destruct s. }
  assert (Hsec : sector (take 512 bytes)) by (split; [rewrite length_take; lia|by apply Forall_take]).
  destruct (put_sector_ok x (take 512 bytes) s) as (d1 & H1 & H2 & H3 & H4); [lia|]. rewrite (pbind_Ok _ _ _ _ _ H1).
  destruct (IH (x + 1) (drop 512 bytes) (d1, s.2)) as (d' & J1 & J2 & J3 & J4);
    [lia|cbn [fst]; lia|rewrite length_drop; lia|by apply Forall_drop|].
  cbn [fst snd] in *. exists d'. split_and!; [done|by rewrite J2| |].
  - cbn [read_sectors]. rewrite J4, (H3 Hsec), J3 by lia. by rewrite take_drop.
  - intros y Hy. rewrite J4, H4 by lia. done.
Qed.

Lemma write_data_loop_ok fuel x bytes s : 0 <= x -> x + Z.of_nat (nsectors (length bytes)) <= capacity_sectors s.1 ->
  (length bytes <= fuel)%nat -> exists d', write_data_loop fuel x bytes s = Some (Ok tt, (d', s.2)).
Proof.
  revert x bytes s. induction fuel as [|fuel IH]; intros x bytes s Hx Hc Hf; cbn [write_data_loop].
  { exists s.1. by destruct s. }
  case_bool_decide as Hnil; [exists s.1; by destruct s|].
  assert (Hpos : (0 < length bytes)%nat) by (destruct bytes; [done|cbn; lia]). rewrite nsectors_step in Hc by done.
  destruct (put_sector_ok x (take 512 bytes ++ replicate (512 - length (take 512 bytes)) 0) s) as (d1 & H1 & H2 & _); [lia|].
  rewrite (pbind_Ok _ _ _ _ _ H1). apply (IH (x + 1) (drop 512 bytes) (d1, s.2)); rewrite ?length_drop; cbn [fst]; lia.
Qed.

(** ** Flushing the superblock *)

(** The superblock a flush writes. *)
Definition flushed e : Superblock.t :=
  let sb := superblock e in
  let nonce := match crypto e with Some c => Crypto.nonce_counter c | None => Superblock.nonce_counter sb end in
  Superblock.seal (Superblock.mk (Superblock.magic sb) (Superblock.version sb)
    (Superblock.block_size sb) (Superblock.total_sectors sb) (Superblock.wal_start_sector sb)
    (Superblock.wal_size_sectors sb) (Superblock.data_start_sector sb) (data_next_sector e)
    (Wal.head (wal e)) (Wal.tail (wal e))
    (saturating_sub (Superblock.total_sectors sb) (data_next_sector e)) (Superblock.lsm_l0_offset sb)
    (Superblock.encryption_epoch sb) nonce (Superblock.nonce_random_prefix sb)
    (Superblock.checksum sb) (Superblock.padding sb)).

(** The engine's fields fit the superblock. *)
Record fits e : Prop := {
  fit_sb : SuperblockLaws.typed (superblock e);
  fit_next : uint 64 (data_next_sector e);
  fit_head : uint 64 (Wal.head (wal e));
  fit_tail : uint 64 (Wal.tail (wal e));
  fit_nonce : forall c, crypto e = Some c -> uint 64 (Crypto.nonce_counter c)
}.

Lemma flushed_typed e : fits e -> SuperblockLaws.typed (flushed e).
Proof.
  intros [[] ? ? ? Hn]. apply SuperblockLaws.sb_seal_typed. split; try done.
  - unfold uint, saturating_sub in *. cbn [Superblock.free_data_sectors]. lia.
  - cbn [Superblock.nonce_counter]. destruct (crypto e); [by apply Hn|done].
Qed.

Lemma read_flushed d sb : SuperblockLaws.typed sb -> sb = Superblock.seal sb ->
  read_sectors d 8 0 = Ok (Superblock.bytes sb) -> read_superblock d = Ok (Some sb).
Proof.
  intros Ht Hs Hr. unfold read_superblock. rewrite Hr, SuperblockLaws.sb_of_bytes_bytes by done.
  pose proof (SuperblockLaws.sb_seal_valid sb Ht) as Hv. rewrite <-Hs in Hv. rewrite Hv. reflexivity.
Qed.

Lemma flush_ok s : fits s.2 -> 8 <= capacity_sectors s.1 -> exists d',
  flush_superblock s = Some (Ok tt, (d', set_superblock s.2 (flushed s.2))) /\
  capacity_sectors d' = capacity_sectors s.1 /\ read_superblock d' = Ok (Some (flushed s.2)) /\
  forall y, 8 <= y -> read_sector d' y = read_sector s.1 y.
Proof.
  intros Hf Hc. pose proof (flushed_typed _ Hf) as Ht.
  destruct (write_chunks_ok 8 0 (Superblock.bytes (flushed s.2)) (s.1, set_superblock s.2 (flushed s.2))) as (d' & H1 & H2 & H3 & H4);
    [lia|cbn [fst]; lia|by apply SuperblockLaws.sb_bytes_length|by apply SuperblockLaws.sb_bytes_bytes|].
  exists d'. split_and!; [exact H1|done| |]; [apply read_flushed; [done|symmetry; apply SuperblockLaws.sb_seal_idem|done]|]. intros y Hy. apply H4. lia.
Qed.

(** ** What the disk holds *)

Definition loc_of (x : WalEntry.t) : BlockLocation := mk_loc (WalEntry.data_offset x) (WalEntry.data_size x) Hot.

(** A committed entry that points at a readable block with its hash. *)
Definition good s (x : WalEntry.t) : Prop :=
  WalEntry.is_valid x = true /\ WalEntry.committed x = 1 /\
  exists data, sha256 data = WalEntry.block_id x /\ on_disk s (loc_of x) data.

(** The superblock on the disk agrees with the engine. *)
Record matches s (sb : Superblock.t) : Prop := {
  m_wstart : Superblock.wal_start_sector sb = Wal.start_sector (wal s.2);
  m_wsize : Superblock.wal_size_sectors sb = Wal.size_sectors (wal s.2);
  m_head : Superblock.wal_head sb = Wal.head (wal s.2);
  m_tail : Superblock.wal_tail sb = Wal.tail (wal s.2);
  m_start : Superblock.data_start_sector sb = Superblock.data_start_sector (superblock s.2);
  m_total : Superblock.total_sectors sb = Superblock.total_sectors (superblock s.2);
  m_next : Superblock.data_start_sector sb <= Superblock.data_next_sector sb <= data_next_sector s.2;
  m_cipher : Crypto.cipher <$> crypto_of sb = Crypto.cipher <$> crypto s.2;
  m_nonce c : crypto s.2 = Some c ->
    Crypto.nonce_counter c <= saturating_add 64 (Superblock.nonce_counter sb) Crypto.CRASH_RECOVERY_GAP;
  m_typed : SuperblockLaws.typed sb
}.

(** The engine's own superblock names its regions and its key. *)
Record coherent e : Prop := {
  c_wstart : Superblock.wal_start_sector (superblock e) = Wal.start_sector (wal e);
  c_wsize : Superblock.wal_size_sectors (superblock e) = Wal.size_sectors (wal e);
  c_epoch : Superblock.encryption_epoch (superblock e) > 0;
  c_cipher : Crypto.cipher <$> crypto e = Some (aes_new (sha256 (passphrase ++ Crypto.salt)));
  c_seq : Wal.next_sequence (wal e) = Wal.head (wal e) + 1
}.

Record durable s l : Prop := {
  du_inv : store_inv s;
  du_ring : WalRing.ring (s.1, wal s.2) l;
  du_good : Forall (good s) l;
  du_index h : is_Some (indexed s h) -> h ∈ WalEntry.block_id <$> l;
  du_fits : fits s.2;
  du_coherent : coherent s.2;
  du_total : Superblock.total_sectors (superblock s.2) <= capacity_sectors s.1;
  du_disk : exists sb, read_superblock s.1 = Ok (Some sb) /\ matches s sb
}.

Lemma crypto_of_cipher sb : Superblock.encryption_epoch sb > 0 ->
  Crypto.cipher <$> crypto_of sb = Some (aes_new (sha256 (passphrase ++ Crypto.salt))).
Proof. intros. unfold crypto_of. destruct (Z.gtb_spec (Superblock.encryption_epoch sb) 0); [done|lia]. Qed.

(** The log does not depend on the rest of the disk. *)
Lemma ring_same d d' w l : WalRing.ring (d, w) l -> capacity_sectors d' = capacity_sectors d ->
  (forall y, WalLaws.in_region w y -> read_sector d' y = read_sector d y) -> WalRing.ring (d', w) l.
Proof.
  intros [Hwf Ht Hh Hl Hty He] Hc Hs. cbn [fst snd] in *. assert (Hwf' : WalLaws.wf d' w) by (destruct Hwf; split; lia).
  split; try done. intros i x Hi Hx. cbn [fst snd]. rewrite <-(He i x Hi Hx). unfold WalLaws.entry_at.
  rewrite Hs; [done|]. by apply (WalLaws.slot_in_region d).
Qed.

Lemma good_extends s s' x : extends s s' -> good s x -> good s' x.
Proof. intros Hx (H1 & H2 & data & H3 & H4). split_and!; [done..|]. exists data. split; [done|]. by eapply on_disk_extends. Qed.

Lemma aset_last {A} (l : list A) x y : aset (l ++ [x]) (alen l) y = l ++ [y].
Proof. unfold aset, alen. rewrite Nat2Z.id, insert_app_r_alt, Nat.sub_diag by lia. done. Qed.

(** Compression never makes the payload longer than the data. *)
Lemma choose_shorter data limit comp payload : choose_compression data limit = (comp, payload) ->
  limit <= alen data -> alen payload <= alen data.
Proof.
  unfold choose_compression. destruct (Z.ltb_spec (alen (lz4_compress data)) limit); intros [= _ <-] ?; lia.
Qed.

Lemma choose_bytes data limit comp payload : choose_compression data limit = (comp, payload) ->
  Forall is_byte data -> Forall is_byte payload.
Proof. unfold choose_compression. destruct (_ <? _); intros [= _ <-] ?; [by apply lz4_bytes|done]. Qed.

(** What a new block needs: a free log slot, disk space, room in the index. *)
Record room s l (data : list Z) : Prop := {
  rm_nonempty : data <> [];
  rm_bytes : Forall is_byte data;
  rm_size : alen data < 2 ^ 28;
  rm_new : MemTable.get (memtable s.2) (sha256 data) = None;
  rm_log : alen l < WalLaws.cap (wal s.2);
  rm_head : Wal.head (wal s.2) + 2 < 2 ^ 64;
  rm_disk : data_next_sector s.2 + div_ceil (8 + (5 + alen data) + 28) 512 <= Superblock.total_sectors (superblock s.2);
  rm_index : MemTable.is_full (memtable s.2) = false
}.

(** The log entry of a new block once committed. *)
Definition block_entry s (data : list Z) (size : Z) : WalEntry.t :=
  WalRing.commit_entry (WalRing.new_entry (s.1, wal s.2) (sha256 data) (data_next_sector s.2 * 512) size).

(** ** Encryption and flush *)

Lemma seal_ok s env : fits s.2 -> 8 <= capacity_sectors s.1 -> is_encrypted s.2 = true -> exists wd d' c',
  let e' := set_superblock (set_crypto s.2 (Some c')) (flushed (set_crypto s.2 (Some c'))) in
  seal_envelope env (alen env + 28) s = Some (Ok wd, (d', e')) /\
  Crypto.cipher <$> crypto s.2 = Some (Crypto.cipher c') /\ fits (set_crypto s.2 (Some c')) /\
  length wd = (length env + 28)%nat /\ capacity_sectors d' = capacity_sectors s.1 /\
  read_superblock d' = Ok (Some (flushed (set_crypto s.2 (Some c')))) /\
  forall y, 8 <= y -> read_sector d' y = read_sector s.1 y.
Proof.
  intros Hf Hc He. unfold is_encrypted in He. destruct (crypto s.2) as [c|] eqn:Ec; [|done].
  set (nonce := (Crypto.next_nonce c).1). set (c' := (Crypto.next_nonce c).2).
  destruct (aes_total (Crypto.cipher c) nonce env) as (ct & tag & Ha). destruct (aes_length _ _ _ _ _ Ha) as [Hct Htag].
  assert (Hz : Z.to_nat (alen env + 28) = (length env + 28)%nat) by (unfold alen; lia).
  set (zeros := replicate (length env + 28) 0) in *.
  set (wd := copy_at (copy_at (copy_at (copy_at zeros 0 nonce) 12 env) 12 ct) (12 + length env) tag).
  assert (Henc : Crypto.encrypt c env zeros = (Ok (alen env + 28), wd, c')).
  { unfold Crypto.encrypt. destruct (Z.ltb_spec (alen zeros) (alen env + ENCRYPTION_OVERHEAD)) as [Hlt|_].
    { unfold alen, zeros, ENCRYPTION_OVERHEAD in Hlt. rewrite length_replicate in Hlt. lia. }
    change (Crypto.next_nonce c) with (nonce, c'). cbv beta iota zeta. by rewrite Ha. }
  destruct (CodecLaws.encrypt_layout _ _ _ _ _ Henc) as (ct' & tag' & Ha' & Hwd & _).
  fold nonce in Ha', Hwd. rewrite Ha in Ha'. injection Ha' as <- <-.
  assert (Hfc : fits (set_crypto s.2 (Some c'))).
  { destruct Hf as [? ? ? ? Hn]. split; try done. intros x [= <-]. apply uint_wrap. lia. }
  destruct (flush_ok (s.1, set_crypto s.2 (Some c')) Hfc Hc) as (d' & H1 & H2 & H3 & H4).
  exists wd, d', c'. cbv zeta. split_and!; try done.
  - unfold seal_envelope. rewrite pbind_get, Ec, Hz. fold zeros. rewrite Henc.
    rewrite (pbind_Ok _ _ _ tt _ (modify_run _ _)). change (pbind (plift (Ok (alen env + 28))) ?f ?x) with (f (alen env + 28) x).
    cbv beta. by rewrite (pbind_Ok _ _ _ tt _ H1).
  - rewrite Hwd. unfold nonce, Crypto.next_nonce. cbn [fst]. rewrite !length_app, !length_le_bytes. lia.
Qed.

(** ** A write succeeds while there is room *)

Lemma on_wal_run {A} (m : prog (D * Wal.t) StorageError A) s r x :
  m (s.1, wal s.2) = Some (r, x) -> on_wal m s = Some (r, (x.1, set_wal s.2 x.2)).
Proof. intros H. unfold on_wal, zoom. by rewrite H. Qed.

Lemma insert_ok (m : MemTable.t) h loc : sorted MemTable.key (MemTable.entries m) ->
  MemTable.get m h = None -> MemTable.is_full m = false ->
  exists m', MemTable.insert m h loc = Some (Ok true, m').
Proof.
  intros Hs Hg Hfull. rewrite get_as_map in Hg by done. unfold MemTable.insert, MemTable.binary_search.
  destruct (binary_search_by _ _ h) as [i|i] eqn:Hb; [|rewrite Hfull; by eexists].
  destruct (search_Ok _ _ _ _ Hs Hb) as (e0 & _ & _ & Hm). congruence.
Qed.

Lemma get_mut_miss (m : MemTable.t) h : sorted MemTable.key (MemTable.entries m) ->
  MemTable.get m h = None -> MemTable.get_mut m h = None.
Proof.
  intros Hs Hg. rewrite get_as_map in Hg by done. unfold MemTable.get_mut, MemTable.binary_search.
  destruct (binary_search_by _ _ h) as [i|i] eqn:Hb; [|done].
  destruct (search_Ok _ _ _ _ Hs Hb) as (e0 & _ & _ & Hm). congruence.
Qed.

(** The outcome of the three disk phases (log, encrypted data, commit), from [s] to [s4]. *)
Record wrote s l (data : list Z) (size : Z) s4 : Prop := {
  wr_ring : WalRing.ring (s4.1, wal s4.2) (l ++ [block_entry s data size]);
  wr_wal : wal s4.2 = Wal.mk (Wal.start_sector (wal s.2)) (Wal.size_sectors (wal s.2)) (Wal.head (wal s.2) + 1)
             (Wal.tail (wal s.2)) (Wal.next_sequence (wal s.2) + 1);
  wr_frame : frame (data_next_sector s.2) s s4;
  wr_sb : exists e, superblock s4.2 = flushed e /\ fits e /\ coherent e /\ wal e = wal s4.2 /\
    superblock e = superblock s.2 /\ data_next_sector e = data_next_sector s.2 /\ crypto e = crypto s4.2;
  wr_disk : read_superblock s4.1 = Ok (Some (superblock s4.2))
}.

Lemma read_superblock_same d d' : (forall y, 0 <= y < 8 -> read_sector d' y = read_sector d y) ->
  read_superblock d' = read_superblock d.
Proof. intros H. unfold read_superblock. by rewrite (read_sectors_same d d'). Qed.

Lemma div_ceil_mono a b n : 0 < n -> a <= b -> div_ceil a n <= div_ceil b n.
Proof. intros. unfold div_ceil. apply Z.div_le_mono; lia. Qed.

Lemma write_phases s l data comp payload limit : durable s l -> room s l data ->
  choose_compression data limit = (comp, payload) -> alen payload <= alen data ->
  let size := 5 + alen payload in
  exists pos wd s1 s2 s3 s4,
  on_wal (Wal.append (sha256 data) (data_next_sector s.2 * 512) size) s = Some (Ok pos, s1) /\
  seal_envelope (envelope (crc32c data) comp data payload) (on_disk_bytes true size) s1 = Some (Ok wd, s2) /\
  write_data_loop (length wd) (data_next_sector s.2) wd s2 = Some (Ok tt, s3) /\
  on_wal (Wal.commit_at pos.2) s3 = Some (Ok tt, s4) /\ wrote s l data size s4.
Proof.
  intros Hd Hr Hch Hpl size. destruct Hr as [_ Hb Hsz Hnew Hlog Hhead Hdisk _]. destruct Hd as [Hi HR _ _ Hfit Hco Htot _].
  pose proof (si_layout _ Hi) as Hly. destruct (Hly) as [[Hw1 Hw2 Hw3 Hw4] Hl2 Hl3 Hl4].
  pose proof (alen_nonneg payload) as Hp0. pose proof (WalRing.r_head _ _ HR) as Hh. pose proof (WalRing.r_tail _ _ HR) as Ht.
  pose proof (alen_nonneg l) as Hal. cbn [fst snd] in *. pose proof (c_seq _ Hco) as Hseq.
  pose proof (div_ceil_mono (8 + size + 28) (8 + (5 + alen data) + 28) 512 ltac:(lia) ltac:(unfold size; lia)) as Hceil.
  assert (Hcap8 : 8 <= capacity_sectors s.1) by lia. 
  pose proof (div_ceil_nonneg (8 + size + 28) 512 ltac:(lia) ltac:(unfold size; lia)) as Hc0.
  assert (Hnext : 0 <= data_next_sector s.2 <= 2 ^ 54) by lia.
  destruct (WalRing.append_ok (s.1, wal s.2) l (sha256 data) (data_next_sector s.2 * 512) size HR) as (d1 & A1 & A2 & A3);
    cbn [fst snd]; try lia; [apply sha256_length|apply sha256_bytes|unfold uint; lia|unfold uint, size; lia|].
  cbn [fst snd] in *. set (w1 := Wal.mk _ _ _ _ _) in *. set (s1 := (d1, set_wal s.2 w1)).
  pose proof (on_wal_run _ s _ _ A1) as R1. cbn [fst snd] in R1. fold s1 in R1.
  assert (Hc1 : capacity_sectors d1 = capacity_sectors s.1) by apply A2.
  assert (Hf1 : fits s1.2) by (destruct Hfit; split; try done; cbn; unfold uint in *; lia).
  assert (Henc : is_encrypted s1.2 = true) by (pose proof (c_cipher _ Hco) as E; unfold is_encrypted; cbn; destruct (crypto s.2); done).
  set (env := envelope (crc32c data) comp data payload).
  destruct (CodecLaws.envelope_fields (crc32c data) comp data payload (crc32c_uint data) ltac:(lia)) as (Hel & _). fold env in Hel.
  destruct (seal_ok s1 env Hf1 ltac:(cbn [s1 fst]; lia) Henc) as (wd & d2 & c' & R2 & Hci & Hfc & Hwl & Hc2 & Hrs & Ho2).
  replace (alen env + 28) with (on_disk_bytes true size) in R2 by (unfold on_disk_bytes, size, ENCRYPTION_OVERHEAD, alen in *; lia).
  cbv zeta in R2. change (capacity_sectors d2 = capacity_sectors d1) in Hc2. set (e1 := set_crypto s1.2 (Some c')) in *. set (e2 := set_superblock e1 (flushed e1)) in *.
  assert (Hns : Z.of_nat (nsectors (length wd)) = div_ceil (8 + size + 28) 512).
  { unfold nsectors. rewrite Z2Nat.id by (apply div_ceil_nonneg; lia). f_equal. unfold size, alen in *. lia. }
  destruct (write_data_loop_ok (length wd) (data_next_sector s.2) wd (d2, e2)) as (d3 & R3); [lia|cbn [fst] in *; lia|done|].
  destruct (write_data_loop_spec (length wd) (data_next_sector s.2) wd (d2, e2) (le_n _)) as (r & d3' & R3' & Hc3 & Ho3 & _).
  { apply (seal_decodes _ _ _ _ _ R2); [|by apply CodecLaws.envelope_bytes, (choose_bytes _ _ _ _ Hch)].
    rewrite Henc. f_equal. unfold size, alen in *. lia. }
  rewrite R3 in R3'. injection R3' as <- <-. cbn [fst snd] in *.
  assert (HR3 : WalRing.ring (d3, w1) (l ++ [WalRing.new_entry (s.1, wal s.2) (sha256 data) (data_next_sector s.2 * 512) size])).
  { apply (ring_same d1); [done|congruence|]. intros y Hy. unfold WalLaws.in_region in Hy. cbn [w1 Wal.start_sector Wal.size_sectors] in Hy.
    rewrite Ho3, Ho2 by lia. done. }
  destruct (WalRing.commit_at_ok (d3, w1) _ (alen l) (WalRing.new_entry (s.1, wal s.2) (sha256 data) (data_next_sector s.2 * 512) size) HR3 Hal) as (d4 & R4 & F4 & HR4).
  { unfold aget, alen. rewrite Nat2Z.id, lookup_app_r, Nat.sub_diag by lia. done. }
  cbn [snd w1 Wal.tail] in R4. rewrite <-Hh in R4. fold w1 in R4. rewrite aset_last in HR4.
  pose proof (on_wal_run _ (d3, e2) _ _ R4) as R4'. cbn [fst snd] in R4'.
  exists (Wal.next_sequence (wal s.2), Wal.head (wal s.2)), wd, s1, (d2, e2), (d3, e2), (d4, set_wal e2 w1).
  split_and!; [done..|]. split; cbn [fst snd]; [done|done| | |].
  - eapply (keeps_on_wal _ s _ Hly (fun x => WalLaws.keeps_commit_at x _)); [|exact R4'].
    eapply (keeps_data_loop _ _ _ _ _ Hly (Z.le_refl _)); [|exact R3].
    eapply keeps_seal; [done| |exact R2].
    eapply (keeps_on_wal _ s _ Hly (fun x => WalLaws.keeps_append x _ _ _)); [apply frame_refl|exact R1].
  - exists e1. split_and!; try done. destruct Hco. split; try done; [exact (eq_trans (eq_sym Hci) c_cipher0)|cbn; lia].
  - change (read_superblock d4 = Ok (Some (flushed e1))). rewrite <-Hrs. apply read_superblock_same. intros y Hy. rewrite (WalLaws.fr_outside _ _ F4), Ho3; [done|lia|].
    unfold WalLaws.in_region. cbn [snd w1 Wal.start_sector Wal.size_sectors]. lia.
Qed.

Lemma write_block_run s l data : durable s l -> room s l data -> exists size s4 m',
  let loc := mk_loc (data_next_sector s.2 * 512) size Hot in
  let next := data_next_sector s.2 + div_ceil (8 + size + 28) 512 in
  write_block data s = Some (Ok (sha256 data, loc), (s4.1, set_memtable (set_data_next_sector s4.2 next) m')) /\
  MemTable.insert (memtable s.2) (sha256 data) loc = Some (Ok true, m') /\
  5 <= size /\ next <= Superblock.total_sectors (superblock s.2) /\ wrote s l data size s4.
Proof.
  intros Hd Hr. destruct (Hd) as [Hi _ _ _ _ Hco Htot _]. destruct (Hr) as [Hne Hb Hsz Hnew _ _ Hdisk Hfull].
  pose proof (si_layout _ Hi) as [[Hw1 Hw2 Hw3 Hw4] Hl2 Hl3 Hl4]. cbn [fst snd] in *. pose proof (alen_nonneg data) as Hd0.
  set (nine := alen data * 9). destruct (choose_compression data (nine / 10)) as [comp payload] eqn:Hch.
  assert (Hpl : alen payload <= alen data).
  { eapply choose_shorter; [exact Hch|]. unfold nine. apply Z.div_le_upper_bound; lia. }
  pose proof (alen_nonneg payload) as Hp0.
  destruct (write_phases s l data comp payload _ Hd Hr Hch Hpl) as (pos & wd & s1 & s2 & s3 & s4 & R1 & R2 & R3 & R4 & Hwr).
  set (size := 5 + alen payload) in *.
  destruct (insert_ok (memtable s.2) (sha256 data) (mk_loc (data_next_sector s.2 * 512) size Hot) (si_sorted _ Hi) Hnew Hfull) as (m' & Hins).
  pose proof (div_ceil_mono (8 + size + 28) (8 + (5 + alen data) + 28) 512 ltac:(lia) ltac:(unfold size; lia)) as Hceil.
  pose proof (div_ceil_nonneg (8 + size + 28) 512 ltac:(lia) ltac:(unfold size; lia)) as Hc0.
  assert (Henc : is_encrypted s.2 = true) by (pose proof (c_cipher _ Hco) as E; unfold is_encrypted; destruct (crypto s.2); done).
  exists size, s4, m'. cbv zeta. split_and!; [|done|unfold size; lia|lia|done].
  unfold write_block. rewrite bool_decide_eq_false_2 by done. cbv zeta.
  rewrite pbind_get, (get_mut_miss _ _ (si_sorted _ Hi) Hnew), checked_mul_in by lia.
  rewrite (pbind_Ok _ _ _ nine s) by done. rewrite Hch. cbv beta iota zeta. change (COMPRESSION_HEADER_SIZE + alen payload) with size.
  rewrite Henc. change (on_disk_bytes true size) with (8 + size + 28) in *. change SECTOR_SIZE with 512.
  rewrite checked_add_in, (pbind_Ok _ _ _ (data_next_sector s.2 + div_ceil (8 + size + 28) 512) s) by (done || lia). cbv beta.
  destruct (Z.gtb_spec (data_next_sector s.2 + div_ceil (8 + size + 28) 512) (Superblock.total_sectors (superblock s.2))); [lia|].
  destruct (Z.gtb_spec size (umax 32)) as [Hgt|_]; [unfold umax, size in Hgt; lia|].
  rewrite checked_mul_in, (pbind_Ok _ _ _ (data_next_sector s.2 * 512) s) by (done || lia).
  rewrite (pbind_Ok _ _ _ _ _ R1), (pbind_Ok _ _ _ _ _ R2), (pbind_Ok _ _ _ _ _ R3), (pbind_Ok _ _ _ _ _ R4).
  rewrite (pbind_Ok _ _ _ tt _ (modify_run _ _)), pbind_get.
  assert (Hm4 : memtable (set_data_next_sector s4.2 (data_next_sector s.2 + div_ceil (8 + size + 28) 512)) = memtable s.2)
    by apply (f_memtable _ _ _ (wr_frame _ _ _ _ _ Hwr)).
  cbn [fst snd]. rewrite Hm4, Hins. done.
Qed.

(** ** A successful write is durable *)

Lemma block_entry_good s s' data size old :
  held s' (sha256 data) (mk_loc (data_next_sector s.2 * 512) size Hot) old -> good s' (block_entry s data size).
Proof.
  intros (_ & Hsha & Hod). split_and!; [apply WalEntryLaws.seal_valid|done|]. exists old. by split.
Qed.

Lemma flushed_fits e e4 : superblock e4 = flushed e -> fits e -> wal e = wal e4 -> crypto e = crypto e4 ->
  uint 64 (data_next_sector e4) -> fits e4.
Proof.
  intros Hs Hf Hw Hc Hn. pose proof (flushed_typed _ Hf). destruct Hf as [H1 H2 H3 H4 H5]. split; rewrite -> ?Hs, <-?Hw, <-?Hc in *; done.
Qed.

Lemma flushed_coherent e e4 : superblock e4 = flushed e -> coherent e -> wal e = wal e4 -> crypto e = crypto e4 -> coherent e4.
Proof. intros Hs [] Hw Hc. split; rewrite -> ?Hs, <-?Hw, <-?Hc in *; done. Qed.

Lemma write_block_durable_run s l data : durable s l -> room s l data -> exists size s',
  write_block data s = Some (Ok (sha256 data, mk_loc (data_next_sector s.2 * 512) size Hot), s') /\
  durable s' (l ++ [block_entry s data size]) /\ Wal.head (wal s'.2) = Wal.head (wal s.2) + 1.
Proof.
  intros Hd Hr. destruct (write_block_run s l data Hd Hr) as (size & s4 & m' & Hrun & Hins & Hsz & Htot & Hwr).
  exists size. eexists. split; [exact Hrun|]. set (s' := (s4.1, _)).
  split; [|change (Wal.head (wal s4.2) = Wal.head (wal s.2) + 1); by rewrite (wr_wal _ _ _ _ _ Hwr)].
  destruct (Hd) as [Hi HR Hg Hix Hfit Hco Hcap Hdisk]. destruct (Hr) as [_ Hb Hsize Hnew _ Hhead Hroom _].
  destruct (write_block_inv s data _ s' Hi Hb ltac:(lia) Hrun) as (Hinv & Hx & _ & _ & _ & Hsame & Hnewb).
  destruct (Hnewb _ _ eq_refl) as (_ & old & Hheld & _).
  destruct Hwr as [Hring Hwal Hf (e & Hsb & Hfe & Hce & Hwe & Hsbe & Hne & Hcre) Hrd].
  pose proof (si_layout _ Hi) as [[? ? Hw3 Hw4] ? ? Hl4]. cbn [fst snd] in *.
  assert (Hc0 : 0 <= div_ceil (8 + size + 28) 512) by (apply div_ceil_nonneg; lia).
  split.
  - done.
  - exact Hring.
  - apply Forall_app. split; [eapply Forall_impl; [exact Hg|intros x; by apply good_extends]|].
    constructor; [|done]. by eapply block_entry_good.
  - intros h Hh. rewrite fmap_app. apply elem_of_app. destruct (decide (h = sha256 data)) as [->|Hne'].
    + right. by apply list_elem_of_singleton.
    + left. apply Hix. specialize (Hsame h). rewrite decide_False in Hsame by naive_solver. unfold indexed in *. by rewrite <-Hsame.
  - apply (flushed_fits e); [done..|]. cbn [s' snd data_next_sector set_memtable set_data_next_sector]. unfold uint. lia.
  - by apply (flushed_coherent e).
  - change (Superblock.total_sectors (superblock s4.2) <= capacity_sectors s4.1). rewrite (f_total _ _ _ Hf), (f_capacity _ _ _ Hf). done.
  - exists (superblock s4.2). split; [exact Hrd|]. pose proof (flushed_typed _ Hfe) as Hty. rewrite <-Hsb in Hty.
    destruct Hce. split; cbn [s' snd wal superblock crypto data_next_sector set_memtable set_data_next_sector]; try done; try (rewrite Hsb, <-?Hwe; done).
    + rewrite Hsb. cbn [flushed Superblock.seal Superblock.data_start_sector Superblock.data_next_sector]. rewrite Hsbe, Hne. lia.
    + rewrite crypto_of_cipher; [by rewrite <-Hcre|]. by rewrite Hsb.
    + intros c Hc. rewrite Hsb. cbn [flushed Superblock.seal Superblock.nonce_counter]. rewrite Hcre, Hc.
      destruct (fit_nonce _ Hfe c) as [Hn0 Hn1]; [by rewrite Hcre|]. unfold saturating_add, umax, Crypto.CRASH_RECOVERY_GAP. lia.
Qed.

(** ** Replaying the log *)

(** The index after the entries [p] were replayed: each hash at the place of one of its entries. *)
Record replayed (p : list WalEntry.t) (m : MemTable.t) : Prop := {
  rp_sorted : sorted MemTable.key (MemTable.entries m);
  rp_capacity : MemTable.capacity m = MEMTABLE_MAX_ENTRIES;
  rp_count : alen (MemTable.entries m) <= alen p;
  rp_from h en : MemTable.get m h = Some en ->
    MemTable.refcount en <= alen p /\ exists x, x ∈ p /\ WalEntry.block_id x = h /\ MemTable.location en = loc_of x;
  rp_all x : x ∈ p -> is_Some (MemTable.get m (WalEntry.block_id x))
}.

Lemma replayed_nil : replayed [] MemTable.with_default_capacity.
Proof.
  split; [|done|done|done|].
  - intros i j a b _. cbn. by rewrite lookup_nil.
  - intros x Hx. by apply not_elem_of_nil in Hx.
Qed.

(** An entry whose hash is already indexed bumps its count. *)
Lemma replayed_dup p m m' x en en' :
  replayed p m -> sorted MemTable.key (MemTable.entries m') ->
  MemTable.capacity m' = MemTable.capacity m -> alen (MemTable.entries m') = alen (MemTable.entries m) ->
  MemTable.get m (WalEntry.block_id x) = Some en -> MemTable.location en' = MemTable.location en ->
  MemTable.refcount en' = MemTable.refcount en + 1 ->
  (forall k, MemTable.get m' k = if decide (k = WalEntry.block_id x) then Some en' else MemTable.get m k) ->
  replayed (p ++ [x]) m'.
Proof.
  intros [H1 H2 H3 H4 H5] Hs Hc Hl Hg Hloc Hrc Hk. split; [done|congruence| | |]; autorewrite with aios_rw.
  - lia.
  - intros h e0. rewrite Hk. destruct (decide _) as [->|Hne].
    + intros [= <-]. destruct (H4 _ _ Hg) as (Hr & y & Hy & Hyb & Hyl). split; [lia|].
      exists y. split_and!; [apply elem_of_app; by left|done|congruence].
    + intros He0. destruct (H4 _ _ He0) as (Hr & y & Hy & Hyb & Hyl). split; [lia|].
      exists y. split_and!; [apply elem_of_app; by left|done..].
  - intros y. rewrite elem_of_app, list_elem_of_singleton, Hk. destruct (decide _) as [|Hne]; [done|].
    intros [Hy| ->]; [by apply H5|done].
Qed.

(** A new hash gets the entry's location. *)
Lemma replayed_new p m m' x :
  replayed p m -> sorted MemTable.key (MemTable.entries m') -> MemTable.capacity m' = MemTable.capacity m ->
  alen (MemTable.entries m') = alen (MemTable.entries m) + 1 ->
  (forall k, MemTable.get m' k = if decide (k = WalEntry.block_id x) then Some (MemTable.mk_entry (WalEntry.block_id x) (loc_of x) 1)
             else MemTable.get m k) ->
  replayed (p ++ [x]) m'.
Proof.
  intros [H1 H2 H3 H4 H5] Hs Hc Hl Hk. pose proof (alen_nonneg p).
  split; [done|congruence| | |]; autorewrite with aios_rw.
  - lia.
  - intros h e0. rewrite Hk. destruct (decide _) as [->|Hne].
    + intros [= <-]. split; [cbn; lia|]. exists x. split_and!; [apply elem_of_app; right; by apply list_elem_of_singleton|done..].
    + intros He0. destruct (H4 _ _ He0) as (Hr & y & Hy & Hyb & Hyl). split; [lia|].
      exists y. split_and!; [apply elem_of_app; by left|done..].
  - intros y. rewrite elem_of_app, list_elem_of_singleton, Hk. destruct (decide _) as [|Hne]; [done|].
    intros [Hy| ->]; [by apply H5|done].
Qed.

Lemma replay_insert p m x : replayed p m -> alen p < MEMTABLE_MAX_ENTRIES -> exists b m',
  MemTable.insert m (WalEntry.block_id x) (loc_of x) = Some (Ok b, m') /\ replayed (p ++ [x]) m'.
Proof.
  intros Hrp Hp. destruct (Hrp) as [Hs Hc Hn Hf Ha]. pose proof (alen_nonneg p) as Hp0. unfold MEMTABLE_MAX_ENTRIES in *.
  unfold MemTable.insert, MemTable.binary_search. destruct (binary_search_by _ _ _) as [i|i] eqn:Hb.
  - destruct (search_Ok _ _ _ _ Hs Hb) as (en & Hi & Hk & Hm). rewrite Hi. cbn [mbind option_bind].
    assert (Hg : MemTable.get m (WalEntry.block_id x) = Some en) by by rewrite get_as_map.
    destruct (Hf _ _ Hg) as [Hrc _]. unfold MemTable.bump. rewrite checked_add_in by lia. cbn [mbind option_bind].
    set (en' := MemTable.mk_entry _ _ _). destruct (vec_update_ok _ _ _ _ en' Hs Hb Hk) as [Hs' Hm'].
    eexists _, _. split; [done|]. eapply (replayed_dup p m _ x en en'); try done.
    + cbn [MemTable.entries]. unfold alen. by rewrite length_insert.
    + intros k. rewrite !get_as_map by done. cbn [MemTable.entries]. rewrite Hm'.
      destruct (decide _) as [->|]; [by rewrite lookup_insert_eq|by rewrite lookup_insert_ne].
  - unfold MemTable.is_full. rewrite Hc. destruct (Z.geb_spec (alen (MemTable.entries m)) 65536); [lia|].
    destruct (vec_insert_ok _ _ _ _ (MemTable.mk_entry (WalEntry.block_id x) (loc_of x) 1) Hs Hb eq_refl) as [Hs' Hm'].
    eexists _, _. split; [done|]. apply (replayed_new p m _ x); try done.
    + cbn [MemTable.entries]. unfold alen, vec_insert. rewrite length_app. cbn [length]. rewrite length_take, length_drop. lia.
    + intros k. rewrite !get_as_map by done. cbn [MemTable.entries]. rewrite Hm'.
      destruct (decide _) as [->|]; [by rewrite lookup_insert_eq|by rewrite lookup_insert_ne].
Qed.

(** The sector after an entry's block. *)
Definition end_of e (x : WalEntry.t) : Z :=
  WalEntry.data_offset x / 512 + div_ceil (on_disk_bytes (is_encrypted e) (WalEntry.data_size x)) 512.

Lemma recover_loop_ok d e l bound : WalRing.ring (d, wal e) l -> alen l <= MEMTABLE_MAX_ENTRIES ->
  Forall (fun x => WalEntry.is_valid x = true /\ WalEntry.committed x = 1 /\ end_of e x <= bound) l -> bound < 2 ^ 64 ->
  forall q p m r mx, l = p ++ q -> replayed p m -> exists m' mx',
  recover_loop (length q) (Wal.tail (wal e) + alen p) r mx (d, set_memtable e m) =
    Some (Ok (r + alen q, mx'), (d, set_memtable e m')) /\
  replayed l m' /\ mx <= mx' /\ (mx <= bound -> mx' <= bound) /\ Forall (fun x => end_of e x <= mx') q.
Proof.
  intros HR Hlen Hall Hbd. induction q as [|x q IH]; intros p m r mx Hl Hrp.
  { exists m, mx. rewrite app_nil_r in Hl. subst p. rewrite alen_nil, Z.add_0_r. split_and!; try done; lia. }
  pose proof (alen_nonneg p) as Hp0. pose proof (alen_nonneg q) as Hq0.
  assert (Hx : l.[alen p] = Some x).
  { subst l. unfold aget, alen. by rewrite Nat2Z.id, lookup_app_r, Nat.sub_diag by lia. }
  assert (Hxa : WalEntry.is_valid x = true /\ WalEntry.committed x = 1 /\ end_of e x <= bound).
  { rewrite Forall_forall in Hall. apply Hall. subst l. apply elem_of_app. right. apply elem_of_cons. by left. }
  destruct Hxa as (Hv & Hcm & Hend). assert (Hlq : alen l = alen p + alen q + 1) by (subst l; autorewrite with aios_rw; lia).
  destruct (replay_insert p m x Hrp ltac:(lia)) as (b & m1 & Hins & Hrp1).
  destruct (IH (p ++ [x]) m1 (r + 1) (Z.max mx (end_of e x))) as (m' & mx' & Hrun & Hrp' & Hmx & Hbnd & Hends);
    [by rewrite <-app_assoc|done|].
  exists m', mx'. rewrite alen_cons. split_and!; [|done|lia|intros; apply Hbnd; lia|constructor; [lia|done]].
  rewrite alen_app, alen_cons, alen_nil in Hrun.
  cbn [length recover_loop].
  assert (Hrd : on_wal (Wal.read_entry (Wal.tail (wal e) + alen p)) (d, set_memtable e m) = Some (Ok x, (d, set_memtable e m))).
  { rewrite (on_wal_run _ _ (Ok x) (d, wal e)); [done|]. apply WalLaws.read_entry_at; [apply HR|].
    by apply (WalRing.r_entry _ _ HR). }
  rewrite (pbind_Ok _ _ _ (Ok x) (d, set_memtable e m)) by (unfold pcatch; by rewrite Hrd).
  cbv beta iota zeta. rewrite Hv. cbn [negb]. rewrite Hcm, Z.eqb_refl.
  rewrite (pbind_Ok _ _ _ true (d, set_memtable e m1)); cycle 1.
  { unfold replay. rewrite pbind_get. cbn [snd memtable set_memtable].
    change (WalEntry.content_hash x) with (WalEntry.block_id x). fold (loc_of x). rewrite Hins. done. }
  cbv iota. rewrite pbind_get. cbn [snd]. change SECTOR_SIZE with 512.
  assert (Hca : checked_add 64 (WalEntry.data_offset x / 512)
    (div_ceil (on_disk_bytes (is_encrypted (set_memtable e m1)) (WalEntry.data_size x)) 512) = Some (end_of e x)).
  { apply checked_add_Some. split; [done|]. change (end_of e x < 2 ^ 64). lia. }
  rewrite Hca, (pbind_Ok _ _ _ (end_of e x) (d, set_memtable e m1)) by done.
  replace (Wal.tail (wal e) + alen p + 1) with (Wal.tail (wal e) + (alen p + (0 + 1))) by lia.
  replace (r + (alen q + 1)) with (r + 1 + alen q) by lia. exact Hrun.
Qed.

(** ** Booting from a durable disk *)

Lemma recovered_on_disk s e' x data : same_cipher s.2 e' ->
  Superblock.data_start_sector (superblock e') = Superblock.data_start_sector (superblock s.2) ->
  end_of e' x <= data_next_sector e' -> on_disk s (loc_of x) data -> on_disk (s.1, e') (loc_of x) data.
Proof.
  intros Hc Hs He (H1 & H2 & H3). split_and!; [cbn [snd]; by rewrite Hs|exact He|]. intros buf Hb. rewrite <-(H3 buf Hb).
  by apply read_block_same.
Qed.

Lemma good_end s x : good s x -> end_of s.2 x <= data_next_sector s.2.
Proof. intros (_ & _ & data & _ & _ & H & _). exact H. Qed.

Lemma init_run tick s l : durable s l -> alen l <= MEMTABLE_MAX_ENTRIES -> Wal.head (wal s.2) + 1 < 2 ^ 64 ->
  exists sb m next, let e := set_data_next_sector (set_memtable (fresh_engine sb (wal s.2) (Superblock.data_next_sector sb)) m) next in
  init tick s.1 = Some (Ok e, s.1) /\ read_superblock s.1 = Ok (Some sb) /\ matches s sb /\ same_cipher s.2 e /\
  replayed l m /\ Forall (fun x => end_of e x <= next) l /\
  Superblock.data_next_sector sb <= next <= data_next_sector s.2.
Proof.
  intros [Hi HR Hg _ Hft Hco Htot (sb & Hsb & Hm)] Hlen H64. pose proof (si_layout _ Hi) as [[Hw1 Hw2 Hw3 Hw4] Hl2 Hl3 Hl4]. cbn [fst snd] in *.
  destruct (Hm) as [Hm1 Hm2 Hm3 Hm4 Hm5 Hm6 Hm7 Hm8 Hm9 _]. exists sb.
  set (e0 := fresh_engine sb (wal s.2) (Superblock.data_next_sector sb)).
  assert (Hci : same_cipher s.2 e0) by exact Hm8.
  assert (Hend : forall x, end_of e0 x = end_of s.2 x) by (intros; unfold end_of; by rewrite (same_cipher_encrypted _ _ Hci)).
  pose proof (proj2 (fit_next _ Hft)) as Hnext.
  destruct (recover_loop_ok s.1 e0 l (data_next_sector s.2) HR Hlen) with (q := l) (p := @nil WalEntry.t)
    (m := MemTable.with_default_capacity) (r := 0) (mx := Superblock.data_next_sector sb)
    as (m & mx & Hrun & Hrp & Hmx & Hbnd & Hends); [|done|done|apply replayed_nil|].
  { eapply Forall_impl; [exact Hg|]. intros x Hx. destruct (Hx) as (? & ? & _). rewrite Hend. split_and!; [done..|]. by apply good_end. }
  specialize (Hbnd ltac:(lia)). rewrite alen_nil, Z.add_0_r, Z.add_0_l in Hrun.
  exists m, mx. cbv zeta. split_and!; try done.
  unfold init. rewrite pbind_get. cbv zeta. destruct (Z.eqb_spec (capacity_sectors s.1) 0); [lia|]. rewrite Hsb.
  rewrite (pbind_Ok _ _ _ (Some sb) s.1) by done. cbv iota beta. rewrite checked_add_in by lia.
  rewrite (pbind_Ok _ _ _ (Superblock.wal_head sb + 1) s.1) by done.
  assert (Hwal : Wal.set_positions (Wal.new (Superblock.wal_start_sector sb) (Superblock.wal_size_sectors sb))
    (Superblock.wal_head sb) (Superblock.wal_tail sb) (Superblock.wal_head sb + 1) = wal s.2).
  { pose proof (c_seq _ Hco) as Hseq. unfold Wal.set_positions. cbn [Wal.new Wal.start_sector Wal.size_sectors].
    rewrite Hm1, Hm2, Hm3, Hm4, <-Hseq. by destruct (wal s.2). }
  rewrite Hwal. fold e0. unfold recover. rewrite pbind_get. cbv zeta. cbn [snd].
  replace (Z.to_nat (Wal.head (wal e0) - Wal.tail (wal e0))) with (length l);
    [|pose proof (WalRing.r_head _ _ HR) as Hh; cbn [snd] in Hh; unfold alen in Hh; change (wal e0) with (wal s.2); lia].
  change e0 with (set_memtable e0 MemTable.with_default_capacity) at 4. change (data_next_sector e0) with (Superblock.data_next_sector sb) at 1.
  rewrite (pbind_Ok _ _ _ _ _ Hrun). rewrite (pbind_Ok _ _ _ tt _ (modify_run _ _)). cbn [fst snd]. unfold pret. f_equal. f_equal. f_equal.
  change (data_next_sector (set_memtable e0 m)) with (Superblock.data_next_sector sb).
  destruct (Z.gtb_spec mx (Superblock.data_next_sector sb)); [done|]. by replace mx with (Superblock.data_next_sector sb) by lia.
Qed.

(** ** A recovered engine is durable again *)

Lemma init_durable tick s l : durable s l -> alen l <= MEMTABLE_MAX_ENTRIES -> Wal.head (wal s.2) + 1 < 2 ^ 64 ->
  exists e, init tick s.1 = Some (Ok e, s.1) /\ durable (s.1, e) l /\
  (forall h, is_Some (indexed s h) -> is_Some (indexed (s.1, e) h)) /\
  (forall c, crypto s.2 = Some c -> exists c', crypto e = Some c' /\ Crypto.nonce_counter c <= Crypto.nonce_counter c').
Proof.
  intros Hd Hlen H64. destruct (init_run tick s l Hd Hlen H64) as (sb & m & next & Hrun & Hsb & Hm & Hci & Hrp & Hends & Hnx).
  cbv zeta in *. set (e := set_data_next_sector _ next) in *. destruct (Hd) as [Hi HR Hg Hix Hft Hco Htot _].
  pose proof (si_layout _ Hi) as [[Hw1 Hw2 Hw3 Hw4] Hl2 Hl3 Hl4]. cbn [fst snd] in *. destruct (Hm) as [Hm1 Hm2 Hm3 Hm4 Hm5 Hm6 Hm7 Hm8 Hm9 Hm10].
  assert (Hgood : Forall (good (s.1, e)) l).
  { rewrite Forall_forall in Hg, Hends |- *. intros x Hx. destruct (Hg x Hx) as (H1 & H2 & data & H3 & H4).
    split_and!; [done..|]. exists data. split; [done|]. apply recovered_on_disk; try done. by apply Hends. }
  assert (Hidx : forall h loc, indexed (s.1, e) h = Some loc -> exists x, x ∈ l /\ WalEntry.block_id x = h /\ loc = loc_of x).
  { intros h loc Hh. unfold indexed in Hh. apply fmap_Some in Hh as (en & Hen & ->).
    destruct (rp_from _ _ Hrp h en Hen) as (_ & x & Hx). eauto. }
  assert (Hly' : layout (s.1, e)).
  { split; [by split|done| |].
    - change (Wal.start_sector (wal s.2) + Wal.size_sectors (wal s.2) <= Superblock.data_start_sector sb). by rewrite Hm5.
    - change (Superblock.data_start_sector sb <= next). lia. }
  exists e. split_and!; [done| | |].
  - split; try done.
    + split; [exact Hly'|apply Hrp|].
      intros h loc Hh. destruct (Hidx h loc Hh) as (x & Hx & Hb & ->). rewrite Forall_forall in Hgood.
      destruct (Hgood x Hx) as (_ & _ & data & Hs & Hod). exists data. split_and!; [done|congruence|done].
    + intros h [loc Hh]. destruct (Hidx h loc Hh) as (x & Hx & <- & _). by apply list_elem_of_fmap_2.
    + destruct Hft as [F1 F2 F3 F4 F5]. split; cbn [snd]; try done.
      * change (uint 64 next). unfold uint in *. lia.
      * intros c Hc. unfold crypto_of in Hc. cbn in Hc. unfold crypto_of in Hc. destruct (_ >? 0); [|done]. injection Hc as <-. cbn.
        destruct (SuperblockLaws.t_nonce _ Hm10). unfold uint, saturating_add, umax, Crypto.CRASH_RECOVERY_GAP. lia.
    + assert (Hep : Superblock.encryption_epoch sb > 0).
      { pose proof (c_cipher _ Hco) as Hc. rewrite <-Hm8 in Hc. unfold crypto_of in Hc.
        destruct (Z.gtb_spec (Superblock.encryption_epoch sb) 0); [lia|done]. }
      destruct Hco. split; try done. by apply crypto_of_cipher.
    + change (Superblock.total_sectors sb <= capacity_sectors s.1). lia.
    + exists sb. split; [done|]. split; try done; [change (data_next_sector (s.1, e).2) with next; lia|].
      intros c Hc. cbn in Hc. unfold crypto_of in Hc. destruct (_ >? 0); [|done]. injection Hc as <-. cbn. lia.
  - intros h Hh. apply Hix in Hh. apply list_elem_of_fmap in Hh as (x & -> & Hx). unfold indexed. apply fmap_is_Some. by apply (rp_all _ _ Hrp).
  - intros c Hc. assert (Hs : is_Some (crypto e)) by (apply (fmap_is_Some (Crypto.cipher) _); unfold same_cipher in Hci; rewrite Hci, Hc; done).
    destruct Hs as [c' Hc']. exists c'. split; [done|]. etransitivity; [by apply Hm9|].
    cbn in Hc'. unfold crypto_of in Hc'. destruct (_ >? 0); [|done]. injection Hc' as <-. done.
Qed.

(** ** Formatting *)

Lemma format_typed tick total : uint 64 total -> uint 64 tick -> SuperblockLaws.typed (Superblock.format tick total).
Proof.
  intros Ht Hk. apply SuperblockLaws.sb_seal_typed. split; try done; cbn [Superblock.total_sectors Superblock.free_data_sectors Superblock.nonce_random_prefix Superblock.padding].
  - unfold uint, saturating_sub, DATA_START_SECTOR, WAL_START_SECTOR, WAL_SIZE_SECTORS in *. lia.
  - apply uint_land; [apply Hk|done].
  - apply Forall_replicate. unfold is_byte. lia.
Qed.

Definition formatted tick (total : Z) : t :=
  fresh_engine (Superblock.format tick total) (Wal.new WAL_START_SECTOR WAL_SIZE_SECTORS) DATA_START_SECTOR.

Lemma init_format tick d : read_superblock d = Ok None -> uint 64 tick ->
  DATA_START_SECTOR <= capacity_sectors d <= 2 ^ 54 -> exists d',
  init tick d = Some (Ok (formatted tick (capacity_sectors d)), d') /\ capacity_sectors d' = capacity_sectors d /\
  durable (d', formatted tick (capacity_sectors d)) [].
Proof.
  intros Hsb Htk Hcap. unfold DATA_START_SECTOR, WAL_START_SECTOR, WAL_SIZE_SECTORS in Hcap.
  set (sb := Superblock.format tick (capacity_sectors d)).
  assert (Hty : SuperblockLaws.typed sb) by (apply format_typed; [unfold uint; lia|done]).
  destruct (write_chunks_ok 8 0 (Superblock.bytes sb) (d, formatted tick (capacity_sectors d))) as (d' & H1 & H2 & H3 & H4);
    [lia|cbn [fst]; lia|by apply SuperblockLaws.sb_bytes_length|by apply SuperblockLaws.sb_bytes_bytes|]. cbn [fst snd] in *.
  exists d'. split_and!; [|done|].
  - unfold init. rewrite pbind_get. cbv zeta. destruct (Z.eqb_spec (capacity_sectors d) 0); [lia|]. rewrite Hsb.
    rewrite (pbind_Ok _ _ _ None d) by done. cbv iota beta. unfold write_superblock. fold sb. change (fresh_engine sb _ _) with (formatted tick (capacity_sectors d)).
    by rewrite H1.
  - pose proof (fresh_store_inv d' tick _ eq_refl ltac:(rewrite H2; unfold DATA_START_SECTOR, WAL_START_SECTOR, WAL_SIZE_SECTORS; lia)) as Hi.
    rewrite H2 in Hi. fold (formatted tick (capacity_sectors d)) in Hi. split.
    + done.
    + split; [apply (si_layout _ Hi)|done|done|done|constructor|]. intros i x _. by rewrite aget_nil.
    + done.
    + intros h [loc Hh]. done.
    + split; try done. intros c Hc. injection Hc as <-. by vm_compute.
    + by split.
    + cbn [fst snd]. rewrite H2. done.
    + exists sb. split; [apply read_flushed; [done|symmetry; apply SuperblockLaws.sb_seal_idem|done]|].
      split; try done. intros c Hc. injection Hc as <-. done.
Qed.
End durable.
End Durable.
