(* ===== verification/StoreProps.v ===== *)
(** * Properties of the block store

    The theorems of the storage stack as a client sees it, proved from BlockStore.v and
    Recovery.v, and instances of them on a disk in memory with a simple codec. *)

From S2P Require Import SortedVec Prelude Prog Storage BlockDevice Wal BlockEngine BlockStore Recovery.
Import Engine EngineLaws Durable.

(** ** A codec for the examples *)

Module DemoCodec.
(** A polynomial hash modulo a prime in 32 bytes, no compression, no encryption. *)
Definition hash (d : list Z) : list Z := le_bytes 32 (foldl (fun h b => (h * 257 + b + 1) mod 65521) 0 d).

#[global] Instance demo : Codec := {|
  sha256 := hash;
  lz4_compress := fun d => d;
  lz4_decompress_into := fun p n => if (length p <=? n)%nat then Some p else None;
  aes_key := list Z;
  aes_new := fun k => k;
  aes_encrypt := fun _ _ p => Some (p, replicate 16 0);
  aes_decrypt := fun _ _ c _ => Some c
|}.

#[global] Instance demo_spec : CodecSpec.
Proof.
  split; cbn [sha256 lz4_compress lz4_decompress_into aes_encrypt aes_decrypt demo].
  - intros. apply length_le_bytes.
  - intros. apply le_bytes_bytes.
  - done.
  - intros. by rewrite Nat.leb_refl.
  - intros p n d. destruct (Nat.leb_spec (length p) n); naive_solver.
  - intros k n p c t Hp [= <- <-]. split; [done|]. by repeat constructor.
  - intros k n p c t [= <- <-]. done.
  - intros k n p c t [= <- <-]. done.
Qed.

#[global] Instance demo_total : TotalCodec.
Proof. intros k n p. by eexists _, _. Qed.
End DemoCodec.

(** A blank disk, a little larger than the log. *)
Definition blank_disk : RamDisk.t := RamDisk.mk (DATA_START_SECTOR + 100) ∅.

Lemma blank_disk_unformatted : read_superblock blank_disk = Ok None.
Proof. vm_compute. reflexivity. Qed.

Lemma demo_boot : exists s : RamDisk.t * Engine.t, durable s [] /\ s.2 = formatted 5 (DATA_START_SECTOR + 100).
Proof.
  destruct (init_format 5 blank_disk blank_disk_unformatted) as (d' & _ & _ & Hd); [vm_compute; split; congruence..|].
  exists (d', formatted 5 (DATA_START_SECTOR + 100)). split; [exact Hd|reflexivity].
Qed.

Lemma demo_room (s : RamDisk.t * Engine.t) data : s.2 = formatted 5 (DATA_START_SECTOR + 100) -> data <> [] -> Forall is_byte data ->
  alen data <= 1000 -> room s [] data.
Proof.
  intros Hs Hne Hb Hl. pose proof (alen_nonneg data). split; rewrite ?Hs; try done; try lia.
  - change (DATA_START_SECTOR + div_ceil (8 + (5 + alen data) + 28) 512 <= DATA_START_SECTOR + 100).
    pose proof (div_ceil_spec (8 + (5 + alen data) + 28) 512). lia.
Qed.

(** ** Properties *)

(** C26: whatever the device does, [write_block] keeps the store sound: every hash in
    the index, old or new, leads to a location inside the written data region that
    reads back, decrypted and decompressed, as bytes with that hash; all blocks
    held before are held after, also when the call fails halfway.  When it
    succeeds, the returned hash is the content's SHA-256 and the returned location
    holds the content (or, when the hash was already indexed, the bytes stored
    under it). *)
Theorem write_block_stores (C : Codec) (CS : CodecSpec) (D : Type) (BD : BlockDevice D) (BDS : BlockDeviceSpec D)
    (s s' : D * Engine.t) (data : list Z) (r : result StorageError (ContentHash * BlockLocation)) :
  store_inv s -> Forall is_byte data -> alen data < 2 ^ 32 -> write_block data s = Some (r, s') ->
  store_inv s' /\
  (forall h loc old, held s h loc old -> held s' h loc old) /\
  (forall h loc, r = Ok (h, loc) -> h = sha256 data /\
     exists old, held s' h loc old /\ (old = data \/ indexed s h = Some loc)).
Proof. intros Hi Hb Hd Hrun. by destruct (write_block_inv s data r s' Hi Hb Hd Hrun) as (H1 & _ & H3 & _ & _ & _ & H7). Qed.

Lemma write_block_stores_witness : exists (s s' : RamDisk.t * Engine.t) loc,
  write_block [104; 105] s = Some (Ok (sha256 [104; 105], loc), s') /\ store_inv s' /\
  exists old, held s' (sha256 [104; 105]) loc old.
Proof.
  destruct demo_boot as (s & Hd & Hs).
  destruct (write_block_durable_run s [] [104; 105] Hd) as (size & s' & Hrun & _ & _);
    [apply demo_room; [done..|by repeat constructor|vm_compute; congruence]|].
  destruct (write_block_stores _ _ _ _ _ s s' [104; 105] _ (du_inv _ _ Hd)
    ltac:(by repeat constructor) ltac:(vm_compute; reflexivity) Hrun) as (H1 & _ & H3).
  destruct (H3 _ _ eq_refl) as (_ & old & Hold & _). eauto 10.
Defined.



(** C28: on a reliable device with encryption on, [write_block] of new content returns
    [Ok] whenever the log, the disk and the index have room for it, and the block is
    then on the disk in a state from which a reboot recovers: committed log entry,
    superblock with the new log head, readable data. *)
Theorem write_block_durable (C : Codec) (CS : CodecSpec) (TC : TotalCodec) (D : Type) (BD : BlockDevice D)
    (BDS : BlockDeviceSpec D) (RD : ReliableDevice D) (s : D * Engine.t) (l : list WalEntry.t) (data : list Z) :
  durable s l -> room s l data -> exists loc s' x,
  write_block data s = Some (Ok (sha256 data, loc), s') /\ durable s' (l ++ [x]) /\
  WalEntry.block_id x = sha256 data /\ loc_of x = loc.
Proof.
  intros Hd Hr. destruct (write_block_durable_run s l data Hd Hr) as (size & s' & Hrun & Hd' & _).
  eexists _, s', _. split_and!; [exact Hrun|exact Hd'|done..].
Qed.

Lemma write_block_durable_witness : exists (s s' : RamDisk.t * Engine.t) loc x,
  write_block [7; 8; 9] s = Some (Ok (sha256 [7; 8; 9], loc), s') /\ durable s' [x].
Proof.
  destruct demo_boot as (s & Hd & Hs).
  destruct (write_block_durable _ _ _ _ _ _ _ s [] [7; 8; 9] Hd) as (loc & s' & x & Hrun & Hd' & _);
    [apply demo_room; [done..|by repeat constructor|vm_compute; congruence]|]. eauto 10.
Defined.

(** C27: booting from a durable disk succeeds, writes nothing, and rebuilds the index: every
    block that was held is held again (readable bytes with the same hash), the
    recovered engine is durable with the same log, and its nonce counter is not
    below the one in use before, so no nonce is used twice. *)
Theorem init_recovers (C : Codec) (CS : CodecSpec) (D : Type) (BD : BlockDevice D)
    (BDS : BlockDeviceSpec D) (tick : Z) (s : D * Engine.t) (l : list WalEntry.t) :
  durable s l -> alen l <= MEMTABLE_MAX_ENTRIES -> Wal.head (wal s.2) + 1 < 2 ^ 64 ->
  exists e, init tick s.1 = Some (Ok e, s.1) /\ durable (s.1, e) l /\
  (forall h loc data, held s h loc data -> exists loc' data', held (s.1, e) h loc' data') /\
  (forall c, crypto s.2 = Some c -> exists c', crypto e = Some c' /\ Crypto.nonce_counter c <= Crypto.nonce_counter c').
Proof.
  intros Hd Hl Hh. destruct (init_durable tick s l Hd Hl Hh) as (e & Hrun & Hd' & Hix & Hn). exists e. split_and!; [done..| |done].
  intros h loc data (Hi & _). destruct (Hix h) as [loc' Hl']; [by rewrite Hi|]. exists loc'. by apply (si_held _ (du_inv _ _ Hd')).
Qed.

Lemma init_recovers_witness : exists (s : RamDisk.t * Engine.t) e loc data,
  held s (sha256 [7; 8; 9]) loc data /\ init 6 s.1 = Some (Ok e, s.1) /\
  exists loc' data', held (s.1, e) (sha256 [7; 8; 9]) loc' data'.
Proof.
  destruct demo_boot as (s & Hd & Hs).
  destruct (write_block_durable_run s [] [7; 8; 9] Hd) as (size & s' & Hrun & Hd' & Hhd);
    [apply demo_room; [done..|by repeat constructor|vm_compute; congruence]|].
  destruct (write_block_inv s [7; 8; 9] _ s' (du_inv _ _ Hd) ltac:(by repeat constructor) ltac:(vm_compute; reflexivity) Hrun)
    as (_ & _ & _ & _ & _ & _ & H7).
  destruct (H7 _ _ eq_refl) as (_ & old & Hold & _).
  destruct (init_recovers _ _ _ _ _ 6 s' _ Hd') as (e & Hi & _ & Hh & _); [vm_compute; congruence| |eauto 10].
  rewrite Hhd, Hs. vm_compute. reflexivity.
Defined.
