(* ===== verification/ObjectStore.v ===== *)
(** * Objects, versions and spaces

    Models kernel/src/storage/object_store.rs, version_store.rs, space.rs and budget.rs on
    top of the block engine.  Content and version nodes are blocks; a version names its
    parent by the hash of the parent's block; the object index holds the head.

    A closure given to [with_engine] runs on the device, the engine and the two id
    counters ([oprog]); the global state adds that the engine may not be initialised
    ([sprog]).  Each load of [TICK_COUNT] is an argument. *)

From S2P Require Import SortedVec Prelude Prog Storage BlockDevice Wal BlockEngine.
Open Scope prog_scope.

(** The statics [OBJECT_ID_COUNTER] and [SPACE_ID_COUNTER]. *)
Module Ids.
Record t := mk { object_counter : Z; space_counter : Z }.
Definition boot : t := mk 1 1.
End Ids.

Record StorageBudget := mk_budget {
  total_bytes : Z; used_bytes : Z; free_bytes : Z; data_blocks : Z; wal_used : Z; index_entries : Z
}.

Module ObjectStore.
Section store.
Context {C : Codec} {D : Type} `{BD : BlockDevice D}.

Abbreviation oprog := (prog ((D * Engine.t) * Ids.t) StorageError).

Record state := mk { disk : D; engine : option Engine.t; ids : Ids.t }.
Abbreviation sprog := (prog state StorageError).

(** [block_engine::with_engine(f)?] *)
Definition with_engine {A} (f : oprog A) : sprog A := fun st =>
  match engine st with
  | None => Some (Err DeviceNotFound, st)
  | Some e =>
      match f ((disk st, e), ids st) with
      | Some (r, ((d, e'), i)) => Some (r, mk d (Some e') i)
      | None => None
      end
  end.

(** A method of the engine, and assignments to its index and its table. *)
Definition eng {A} (m : prog (D * Engine.t) StorageError A) : oprog A :=
  zoom fst (fun s x => (x, s.2)) m.
Definition get_engine : oprog Engine.t := s <- pget ;; pret s.1.2.
Definition put_index (x : ObjectIndex.t) : oprog unit := eng (Engine.modify (fun e => Engine.set_object_index e x)).
Definition put_spaces (x : SpaceTable.t) : oprog unit := eng (Engine.modify (fun e => Engine.set_space_table e x)).

(** [.ok_or(err)?] *)
Definition ok_or {A} (o : option A) (err : StorageError) : oprog A :=
  match o with Some a => pret a | None => pfail err end.

(** ** Identifiers *)

Definition make_id (tick counter : Z) : list Z := le_bytes 8 tick ++ le_bytes 8 counter.

Definition generate_object_id (tick : Z) : oprog ObjectId :=
  s <- pget ;;
  let i := s.2 in
  pput (s.1, Ids.mk (wrapping_add 64 (Ids.object_counter i) 1) (Ids.space_counter i)) ;;;
  pret (make_id tick (Ids.object_counter i)).

Definition generate_space_id (tick : Z) : oprog SpaceId :=
  s <- pget ;;
  let i := s.2 in
  pput (s.1, Ids.mk (Ids.object_counter i) (wrapping_add 64 (Ids.space_counter i) 1)) ;;;
  pret (make_id tick (Ids.space_counter i)).

(** ** Version nodes *)

(** [b"created"], [b"rollback"] *)
Definition msg_created : list Z := [99; 114; 101; 97; 116; 101; 100].
Definition msg_rollback : list Z := [114; 111; 108; 108; 98; 97; 99; 107].

(** The node each operation builds; [author] is empty where the code does not set it. *)
Definition new_version (parent content_hash : ContentHash) (content_size : Z) (object_id : ObjectId)
    (now : Z) (author message : list Z) : Version.t :=
  Version.set_message (Version.mk
    (compute_version_hash sha256 parent content_hash now object_id) parent hash_ZERO content_hash object_id
    (copy_at (Version.author Version.ZERO) 0 (take (Nat.min (length author) MAX_AUTHOR_LEN) author))
    (Version.message Version.ZERO) now content_size 0) message.

Definition write_version (v : Version.t) : oprog ContentHash :=
  r <- eng (Engine.write_block (Version.bytes v)) ;; pret r.1.

(** One turn of a walk along the parents: the block is read into the walk's
    buffer; a block of another size is not a version. *)
Definition read_version (s : D * Engine.t) (h : ContentHash) (buf : list Z) :
    result StorageError (option Version.t) * list Z :=
  let '(r, buf') := Engine.read_block_by_hash s.1 s.2 h buf in
  match r with
  | Err e => (Err e, buf')
  | Ok n => (Ok (if n =? 256 then Some (Version.of_bytes buf') else None), buf')
  end.

Definition MAX_DEPTH : nat := 1024.
Definition walk_buf : list Z := replicate 256 0.

(** ** Objects *)

(** [CompactObject] as [object_create] fills it, before the version head is known. *)
Definition new_object (id : ObjectId) (space : SpaceId) (name : list Z) (content_hash : ContentHash)
    (ct : ContentType) (now : Z) (content : list Z) : CompactObject.t :=
  let z := CompactObject.ZERO in
  let obj := CompactObject.set_name (CompactObject.mk id space (CompactObject.name z) content_hash
    (CompactObject.version_head z) (CompactObject.created_by z) (CompactObject.modified_by z)
    (CompactObject.text_content z) now now (alen content mod 2 ^ 32) ct 0 0) name in
  match ct with
  | Text | Code | Markdown | Json => CompactObject.set_text obj content
  | _ => obj
  end.

Definition set_head (o : CompactObject.t) (h : ContentHash) : CompactObject.t :=
  CompactObject.mk (CompactObject.id o) (CompactObject.space_id o) (CompactObject.name o)
    (CompactObject.content_hash o) h (CompactObject.created_by o) (CompactObject.modified_by o)
    (CompactObject.text_content o) (CompactObject.created_at o) (CompactObject.modified_at o)
    (CompactObject.content_size o) (CompactObject.content_type o) (CompactObject.name_len o) (CompactObject.text_len o).

(** The four assignments of [object_update] and [version_rollback]. *)
Definition set_content (o : CompactObject.t) (hash : ContentHash) (size : Z) (head : ContentHash) (now : Z) : CompactObject.t :=
  CompactObject.mk (CompactObject.id o) (CompactObject.space_id o) (CompactObject.name o) hash head
    (CompactObject.created_by o) (CompactObject.modified_by o) (CompactObject.text_content o)
    (CompactObject.created_at o) now size (CompactObject.content_type o) (CompactObject.name_len o) (CompactObject.text_len o).

(** [if let Some(space) = space_table_mut().get_mut(id)]: the counters after a create. *)
Definition charge_space (id : SpaceId) (bytes : Z) : oprog unit :=
  e <- get_engine ;;
  match SpaceTable.get_mut (Engine.space_table e) id with
  | Some (sp, put) =>
      n <- pchecked (checked_add 32 (Space.object_count sp) 1) ;;
      size <- pchecked (checked_add 64 (Space.total_size sp) bytes) ;;
      put_spaces (put (Space.set_usage sp n size))
  | None => pret tt
  end.

Definition release_space (id : SpaceId) (bytes : Z) : oprog unit :=
  e <- get_engine ;;
  match SpaceTable.get_mut (Engine.space_table e) id with
  | Some (sp, put) =>
      put_spaces (put (Space.set_usage sp (saturating_sub (Space.object_count sp) 1)
                         (saturating_sub (Space.total_size sp) bytes)))
  | None => pret tt
  end.

Definition object_create_in (tick now : Z) (space_id : SpaceId) (name content : list Z) (ct : ContentType) :
    oprog (ObjectId * ContentHash) :=
  e <- get_engine ;;
  match SpaceTable.get (Engine.space_table e) space_id with
  | None => pfail SpaceNotFound
  | Some space =>
      if Space.would_exceed_quota space (alen content) then pfail QuotaExceeded else
      w <- eng (Engine.write_block content) ;;
      let content_hash := w.1 in
      id <- generate_object_id tick ;;
      let obj := new_object id space_id name content_hash ct now content in
      block_hash <- write_version
        (new_version hash_ZERO content_hash (alen content mod 2 ^ 32) id now [] msg_created) ;;
      e' <- get_engine ;;
      let '(r, index) := ObjectIndex.insert (Engine.object_index e') (set_head obj block_hash) in
      put_index index ;;;
      plift r ;;;
      charge_space space_id (alen content) ;;;
      pret (id, content_hash)
  end.

(** The object, the number of bytes read and the caller's buffer. *)
Definition object_read_in (s : D * Engine.t) (id : ObjectId) (buf : list Z) :
    result StorageError (CompactObject.t * Z) * list Z :=
  match ObjectIndex.get (Engine.object_index s.2) id with
  | None => (Err ObjectNotFound, buf)
  | Some obj =>
      let '(r, buf') := Engine.read_block_by_hash s.1 s.2 (CompactObject.content_hash obj) buf in
      (match r with Ok n => Ok (obj, n) | Err e => Err e end, buf')
  end.

(** The walk of [object_delete]: errors end it silently. *)
Fixpoint delete_walk (depth : nat) (current : ContentHash) (buf : list Z) : oprog unit :=
  match depth with
  | O => pret tt
  | S depth' =>
      if hash_is_zero current then pret tt else
      s <- pget ;;
      let '(r, buf') := read_version s.1 current buf in
      match r with
      | Ok (Some ver) =>
          pcatch (eng (Engine.dec_ref (Version.content_hash ver))) ;;;
          pcatch (eng (Engine.dec_ref current)) ;;;
          delete_walk depth' (Version.parent ver) buf'
      | _ => pret tt
      end
  end.

Definition object_delete_in (id : ObjectId) : oprog unit :=
  e <- get_engine ;;
  let '(o, index) := ObjectIndex.remove (Engine.object_index e) id in
  put_index index ;;;
  obj <- ok_or o ObjectNotFound ;;
  delete_walk MAX_DEPTH (CompactObject.version_head obj) walk_buf ;;;
  release_space (CompactObject.space_id obj) (CompactObject.content_size obj).

(** ** Versions *)

Definition version_create_in (now : Z) (id : ObjectId) (content_hash : ContentHash) (content_size : Z)
    (author message : list Z) : oprog ContentHash :=
  e <- get_engine ;;
  obj <- ok_or (ObjectIndex.get (Engine.object_index e) id) ObjectNotFound ;;
  block_hash <- write_version
    (new_version (CompactObject.version_head obj) content_hash content_size id now author message) ;;
  e' <- get_engine ;;
  o <- ok_or (ObjectIndex.get_mut (Engine.object_index e') id) ObjectNotFound ;;
  put_index (o.2 (set_head o.1 block_hash)) ;;;
  pret block_hash.

Fixpoint list_walk (depth : nat) (s : D * Engine.t) (current : ContentHash) (buf : list Z) :
    result StorageError (list Version.t) :=
  match depth with
  | O => Ok []
  | S depth' =>
      if hash_is_zero current then Ok [] else
      let '(r, buf') := read_version s current buf in
      match r with
      | Err BlockNotFound => Ok []
      | Err e => Err e
      | Ok None => Ok []
      | Ok (Some v) =>
          match list_walk depth' s (Version.parent v) buf' with
          | Ok vs => Ok (v :: vs)
          | Err e => Err e
          end
      end
  end.

Definition version_list_in (s : D * Engine.t) (id : ObjectId) : result StorageError (list Version.t) :=
  match ObjectIndex.get (Engine.object_index s.2) id with
  | None => Err ObjectNotFound
  | Some obj => list_walk MAX_DEPTH s (CompactObject.version_head obj) walk_buf
  end.

(** The search of [version_rollback] for the logical hash. *)
Fixpoint find_walk (depth : nat) (s : D * Engine.t) (id : ObjectId) (target current : ContentHash) (buf : list Z) :
    result StorageError (option Version.t) :=
  match depth with
  | O => Ok None
  | S depth' =>
      if hash_is_zero current then Ok None else
      let '(r, buf') := read_version s current buf in
      match r with
      | Err BlockNotFound => Ok None
      | Err e => Err e
      | Ok None => Ok None
      | Ok (Some v) =>
          if bool_decide (Version.hash v = target /\ Version.object_id v = id) then Ok (Some v)
          else find_walk depth' s id target (Version.parent v) buf'
      end
  end.

(** [get_mut(object_id).ok_or(ObjectNotFound)?] and the assignments to the object. *)
Definition update_object (id : ObjectId) (hash : ContentHash) (size : Z) (head : ContentHash) (now : Z) : oprog unit :=
  e <- get_engine ;;
  o <- ok_or (ObjectIndex.get_mut (Engine.object_index e) id) ObjectNotFound ;;
  put_index (o.2 (set_content o.1 hash size head now)).

Definition version_rollback_in (now : Z) (id : ObjectId) (target : ContentHash) : oprog ContentHash :=
  s <- pget ;;
  obj <- ok_or (ObjectIndex.get (Engine.object_index s.1.2) id) ObjectNotFound ;;
  found <- plift (find_walk MAX_DEPTH s.1 id target (CompactObject.version_head obj) walk_buf) ;;
  ver <- ok_or found VersionNotFound ;;
  let version := new_version (CompactObject.version_head obj) (Version.content_hash ver)
                   (Version.content_size ver) id now [] msg_rollback in
  block_hash <- write_version version ;;
  eng (Engine.inc_ref (Version.content_hash ver)) ;;;
  update_object id (Version.content_hash ver) (Version.content_size ver) block_hash now ;;;
  pret (Version.hash version).

Definition object_update_in (now : Z) (id : ObjectId) (content author message : list Z) : oprog ContentHash :=
  e <- get_engine ;;
  obj <- ok_or (ObjectIndex.get (Engine.object_index e) id) ObjectNotFound ;;
  w <- eng (Engine.write_block content) ;;
  let size := alen content mod 2 ^ 32 in
  block_hash <- write_version
    (new_version (CompactObject.version_head obj) w.1 size id now author message) ;;
  update_object id w.1 size block_hash now ;;;
  pret w.1.

(** [KernelVersionStore::get_head]: the logical hash of the newest version. *)
Definition get_head_in (s : D * Engine.t) (id : ObjectId) : result StorageError ContentHash :=
  match ObjectIndex.get (Engine.object_index s.2) id with
  | None => Err ObjectNotFound
  | Some obj =>
      if hash_is_zero (CompactObject.version_head obj) then Ok hash_ZERO else
      match (read_version s (CompactObject.version_head obj) walk_buf).1 with
      | Err e => Err e
      | Ok None => Err BlockNotFound
      | Ok (Some v) => Ok (Version.hash v)
      end
  end.

(** ** Spaces *)

Definition new_space (id : SpaceId) (name : list Z) (zone : SecurityZone) (quota : SpaceQuota) (now : Z) : Space.t :=
  let z := Space.ZERO in
  Space.set_quota (Space.set_name (Space.mk id (Space.name z) (Space.parent z) now now 0 0 0 0 zone 0) name) quota.

Definition space_create_in (tick now : Z) (name : list Z) (zone : SecurityZone) (quota : SpaceQuota) : oprog SpaceId :=
  id <- generate_space_id tick ;;
  e <- get_engine ;;
  let '(r, tbl) := SpaceTable.insert (Engine.space_table e) (new_space id name zone quota now) in
  put_spaces tbl ;;;
  plift r ;;;
  pret id.

Definition space_delete_in (id : SpaceId) : oprog unit :=
  e <- get_engine ;;
  space <- ok_or (SpaceTable.get (Engine.space_table e) id) SpaceNotFound ;;
  if Space.object_count space >? 0 then pfail SpaceNotEmpty else
  let '(r, tbl) := SpaceTable.remove (Engine.space_table e) id in
  put_spaces tbl ;;;
  ok_or r SpaceNotFound ;;;
  pret tt.

(** ** Budget *)

(** [None] is the overflow of a multiplication. *)
Definition storage_stats_in (e : Engine.t) : option StorageBudget :=
  let sb := Engine.superblock e in
  let total := saturating_sub (Superblock.total_sectors sb) (Superblock.data_start_sector sb) in
  let used := saturating_sub (Engine.data_next_sector e) (Superblock.data_start_sector sb) in
  let free := saturating_sub total used in
  tb ← checked_mul 64 total SECTOR_SIZE; ub ← checked_mul 64 used SECTOR_SIZE; fb ← checked_mul 64 free SECTOR_SIZE;
  Some (mk_budget tb ub fb (MemTable.count (Engine.memtable e))
    (saturating_sub (Superblock.wal_head sb) (Superblock.wal_tail sb))
    (ObjectIndex.count (Engine.object_index e))).

Definition pressure_of (b : StorageBudget) : option PressureLevel :=
  n ← checked_mul 64 (free_bytes b) 100;
  Some (from_free_percentage (if total_bytes b =? 0 then 0 else n / total_bytes b)).

(** ** The module-level functions *)

(** A closure that only reads. *)
Definition viewing {A} (f : D * Engine.t -> result StorageError A) : oprog A := s <- pget ;; plift (f s.1).

Definition object_create tick now space_id name content ct : sprog (ObjectId * ContentHash) :=
  with_engine (object_create_in tick now space_id name content ct).
Definition object_read (id : ObjectId) (buf : list Z) : sprog (CompactObject.t * Z * list Z) :=
  with_engine (s <- pget ;;
    let '(r, buf') := object_read_in s.1 id buf in o <- plift r ;; pret (o, buf')).
Definition object_delete (id : ObjectId) : sprog unit := with_engine (object_delete_in id).
Definition version_create now id content_hash size author message : sprog ContentHash :=
  with_engine (version_create_in now id content_hash size author message).
Definition version_list (id : ObjectId) : sprog (list Version.t) :=
  with_engine (viewing (fun s => version_list_in s id)).
Definition version_rollback now id target : sprog ContentHash := with_engine (version_rollback_in now id target).
Definition object_update now id content author message : sprog ContentHash :=
  with_engine (object_update_in now id content author message).
Definition space_create tick now name zone quota : sprog SpaceId :=
  with_engine (space_create_in tick now name zone quota).
Definition space_list : sprog (list Space.t) :=
  with_engine (e <- get_engine ;; pret (SpaceTable.list_spaces (Engine.space_table e))).
Definition space_get (id : SpaceId) : sprog Space.t :=
  with_engine (e <- get_engine ;; ok_or (SpaceTable.get (Engine.space_table e) id) SpaceNotFound).
Definition space_delete (id : SpaceId) : sprog unit := with_engine (space_delete_in id).
Definition storage_stats : sprog StorageBudget :=
  with_engine (e <- get_engine ;; pchecked (storage_stats_in e)).
Definition check_pressure : sprog PressureLevel :=
  b <- storage_stats ;; pchecked (pressure_of b).

(** [b"system"], [b"user/home"], [b"ephemeral"] *)
Definition name_system : list Z := [115; 121; 115; 116; 101; 109].
Definition name_home : list Z := [117; 115; 101; 114; 47; 104; 111; 109; 101].
Definition name_ephemeral : list Z := [101; 112; 104; 101; 109; 101; 114; 97; 108].

(** The three results, in order; a failure does not stop the others.  Each call
    reads the tick twice. *)
Definition init_system_spaces (t1 n1 t2 n2 t3 n3 : Z) :
    sprog (result StorageError SpaceId * result StorageError SpaceId * result StorageError SpaceId) :=
  a <- pcatch (space_create t1 n1 name_system Core quota_UNLIMITED) ;;
  b <- pcatch (space_create t2 n2 name_home Personal quota_UNLIMITED) ;;
  c <- pcatch (space_create t3 n3 name_ephemeral Ephemeral quota_UNLIMITED) ;;
  pret (a, b, c).

(** ** Storage Kit *)

Definition kit_read_object (id : ObjectId) : sprog (list Z) :=
  r <- object_read id (replicate (Z.to_nat BLOCK_SIZE) 0) ;;
  pret (take (Z.to_nat r.1.2) r.2).

Definition kit_list_objects (space : SpaceId) : sprog (list CompactObject.t) :=
  r <- pcatch (with_engine (e <- get_engine ;;
         pret (omap (ObjectIndex.get (Engine.object_index e)) (ObjectIndex.list_by_space (Engine.object_index e) space)))) ;;
  pret (match r with Ok l => l | Err _ => [] end).

(** [b"kernel"] *)
Definition author_kernel : list Z := [107; 101; 114; 110; 101; 108].

Definition kit_get_head (id : ObjectId) : sprog ContentHash := with_engine (viewing (fun s => get_head_in s id)).

Definition kit_create_version (now : Z) (id : ObjectId) (data message : list Z) : sprog ContentHash :=
  object_update now id data author_kernel message ;;; kit_get_head id.
End store.
End ObjectStore.
