(* ===== verification/ObjectLaws.v ===== *)
(** * The object store refines a map of version histories

    Theorems about ObjectStore.v.  [history] is what an object promises: its versions with
    their content, newest first.  [rep] relates a store to a map from object ids to
    histories: every version node and every content block is held by the block engine, and
    no block has more users than references.  Every operation of the object and version
    stores then acts on the map as [ospec] says, on any device; a failed operation
    changes nothing.

    Blocks are found by their hash, so what is written must not collide with what is
    stored: [U] is a set of blocks, holding all that is written, on which SHA-256 is
    injective and never zero. *)

From S2P Require Import SortedVec Prelude Prog Storage BlockDevice Wal BlockEngine BlockStore ObjectStore.
Import Engine EngineLaws ObjectStore.
Open Scope prog_scope.

(** ** Version nodes as blocks *)

Module VersionLaws.
Import Version.

Definition all_bytes (v : t) : Prop :=
  Forall is_byte (hash v) /\ Forall is_byte (parent v) /\ Forall is_byte (merge_parent v) /\
  Forall is_byte (content_hash v) /\ Forall is_byte (object_id v) /\ Forall is_byte (author v) /\
  Forall is_byte (message v).

Lemma ver_length v : typed v -> length (bytes v) = 256%nat.
Proof. intros []. unfold bytes. rewrite !length_app, !length_le_bytes, length_replicate. lia. Qed.

Lemma ver_bytes v : all_bytes v -> Forall is_byte (bytes v).
Proof.
  intros (? & ? & ? & ? & ? & ? & ?). unfold bytes. rewrite !Forall_app. split_and!; auto with aios.
  apply Forall_replicate. unfold is_byte. lia.
Qed.

Lemma ver_of_bytes v : typed v -> of_bytes (bytes v) = v.
Proof.
  intros []. unfold of_bytes, bytes. destruct v.
  cbn [hash parent merge_parent content_hash object_id author message timestamp content_size message_len] in *.
  f_equal; fields.
Qed.
End VersionLaws.

Lemma copy_at_0_bytes (arr s : list Z) (n : nat) : Forall is_byte arr -> Forall is_byte s ->
  Forall is_byte (copy_at arr 0 (take n s)).
Proof.
  intros Ha Hs. unfold copy_at. rewrite take_0. cbn [app]. rewrite Forall_app. split; [by apply Forall_take|by apply Forall_drop].
Qed.

Lemma length_copy_at_0 (arr s : list Z) : (length s <= length arr)%nat -> length (copy_at arr 0 s) = length arr.
Proof. intros. unfold copy_at. rewrite take_0. cbn [app]. rewrite length_app, length_drop. lia. Qed.

Lemma copy_at_0_full (arr s : list Z) : length s = length arr -> copy_at arr 0 s = s.
Proof. intros Hl. unfold copy_at. rewrite take_0. cbn [app]. by rewrite Nat.add_0_l, drop_ge, app_nil_r by lia. Qed.

Lemma zeros_bytes n : Forall is_byte (replicate n 0).
Proof. apply Forall_replicate. unfold is_byte. lia. Qed.

Section new_version.
Context {C : Codec} {CS : CodecSpec}.

Lemma new_version_typed p ch size id now a m :
  length p = 32%nat -> length ch = 32%nat -> length id = 16%nat -> uint 32 size -> uint 64 now ->
  Version.typed (new_version p ch size id now a m).
Proof.
  intros Hp Hc Hid Hsz Hnow. unfold new_version, Version.set_message, set_text_in. split; try done.
  - apply sha256_length.
  - apply length_copy_at_0. rewrite length_take. unfold MAX_AUTHOR_LEN. cbn [Version.author Version.ZERO]. rewrite length_replicate. unfold MAX_AUTHOR_LEN. lia.
  - apply length_copy_at_0. rewrite length_take. unfold MAX_VERSION_MESSAGE_LEN. cbn [Version.message Version.ZERO]. rewrite length_replicate. unfold MAX_VERSION_MESSAGE_LEN. lia.
  - cbn [Version.message_len]. unfold uint, MAX_VERSION_MESSAGE_LEN. lia.
Qed.

Lemma new_version_bytes p ch size id now a m : Forall is_byte p -> Forall is_byte ch -> Forall is_byte id ->
  Forall is_byte a -> Forall is_byte m -> VersionLaws.all_bytes (new_version p ch size id now a m).
Proof.
  intros. unfold new_version, Version.set_message, set_text_in. split_and!; try done.
  - apply sha256_bytes.
  - apply zeros_bytes.
  - apply copy_at_0_bytes; [apply zeros_bytes|done].
  - apply copy_at_0_bytes; [apply zeros_bytes|done].
Qed.
End new_version.

(** A set of blocks without collisions. *)
Class CollisionFree {C : Codec} (U : list Z -> Prop) : Prop := {
  cf_inj a b : U a -> U b -> sha256 a = sha256 b -> a = b;
  cf_nonzero a : U a -> sha256 a <> hash_ZERO
}.

(** ** The object index *)

Section object_index.
Implicit Types x : ObjectIndex.t.

Lemma oi_get x k : sorted ObjectIndex.id x -> ObjectIndex.get x k = ObjectIndex.object <$> as_map ObjectIndex.id x !! k.
Proof.
  intros Hs. rewrite search_lookup by done. unfold ObjectIndex.get, ObjectIndex.binary_search.
  by destruct (binary_search_by _ _ k).
Qed.

Lemma oi_get_mut x k o : sorted ObjectIndex.id x -> ObjectIndex.get x k = Some o ->
  exists put, ObjectIndex.get_mut x k = Some (o, put) /\ forall o',
    sorted ObjectIndex.id (put o') /\ forall j, ObjectIndex.get (put o') j = if decide (j = k) then Some o' else ObjectIndex.get x j.
Proof.
  intros Hs. unfold ObjectIndex.get at 1, ObjectIndex.get_mut, ObjectIndex.binary_search. unfold ObjectIndex.t in *.
  destruct (binary_search_by _ _ k) as [i|i] eqn:Hb; [|done]. destruct (search_Ok _ _ _ _ Hs Hb) as (e & Hi & Hk & Hm).
  rewrite Hi. intros [= <-]. eexists. split; [done|]. intros o'.
  destruct (vec_update_ok _ _ _ _ (ObjectIndex.mk_entry (ObjectIndex.id e) o') Hs Hb Hk) as [Hs' Hm']. split; [done|].
  intros j. rewrite !oi_get, Hm' by done. case_decide; [subst; by rewrite lookup_insert_eq|by rewrite lookup_insert_ne].
Qed.

Lemma oi_insert x o r x' : sorted ObjectIndex.id x -> ObjectIndex.insert x o = (r, x') ->
  (r = Ok tt /\ ObjectIndex.get x (CompactObject.id o) = None /\ sorted ObjectIndex.id x' /\
   forall k, ObjectIndex.get x' k = if decide (k = CompactObject.id o) then Some o else ObjectIndex.get x k) \/
  (exists e, r = Err e /\ x' = x).
Proof.
  intros Hs. unfold ObjectIndex.insert. destruct (_ >=? _); [intros [= <- <-]; right; by eexists|].
  unfold ObjectIndex.binary_search. destruct (binary_search_by _ _ _) as [i|i] eqn:Hb; intros [= <- <-]; [right; by eexists|].
  left. destruct (vec_insert_ok _ _ _ _ (ObjectIndex.mk_entry (CompactObject.id o) o) Hs Hb eq_refl) as [Hs' Hm'].
  split_and!; [done| |done|].
  - by rewrite oi_get, (search_Err _ _ _ _ Hs Hb).
  - intros k. rewrite !oi_get, Hm' by done. case_decide; [subst; by rewrite lookup_insert_eq|by rewrite lookup_insert_ne].
Qed.

Lemma oi_remove x k r x' : sorted ObjectIndex.id x -> ObjectIndex.remove x k = (r, x') ->
  r = ObjectIndex.get x k /\ sorted ObjectIndex.id x' /\
  forall j, ObjectIndex.get x' j = if decide (j = k) then None else ObjectIndex.get x j.
Proof.
  intros Hs. unfold ObjectIndex.remove, ObjectIndex.get at 1, ObjectIndex.binary_search. unfold ObjectIndex.t in *.
  destruct (binary_search_by _ _ k) as [i|i] eqn:Hb; intros [= <- <-].
  - destruct (vec_remove_ok _ _ _ _ Hs Hb) as [Hs' Hm']. split_and!; [done..|]. intros j. rewrite !oi_get, Hm' by done.
    case_decide; [subst; by rewrite lookup_delete_eq|by rewrite lookup_delete_ne].
  - split_and!; [done..|]. intros j. case_decide; [|done]. subst. by rewrite oi_get, (search_Err _ _ _ _ Hs Hb).
Qed.
End object_index.

Abbreviation history := (list (Version.t * list Z)).

Module ObjectLaws.
Section laws.
Context {C : Codec} {CS : CodecSpec} {D : Type} `{BD : BlockDevice D} `{BDS : !BlockDeviceSpec D}.
Context (U : list Z -> Prop) {CF : CollisionFree U}.
Implicit Types (s : D * Engine.t) (h : ContentHash).

(** ** Blocks that are held *)

Definition holds s h (data : list Z) : Prop := exists loc, held s h loc data.

(** The engine's invariant, and everything held is in [U]. *)
Record sound s : Prop := {
  so_inv : store_inv s;
  so_U h data : holds s h data -> U data
}.

Lemma stored_unique d e loc a b : stored d e loc a -> stored d e loc b -> a = b.
Proof.
  intros Ha Hb. set (buf := replicate (length a + length b) 0).
  assert (Hl : length buf = (length a + length b)%nat) by apply length_replicate.
  pose proof (Ha buf ltac:(lia)) as H1. pose proof (Hb buf ltac:(lia)) as H2. rewrite H1 in H2. injection H2 as Hn Hc.
  assert (length a = length b) as Hab by (unfold alen in Hn; lia).
  rewrite <-(take_copy_at_0 buf a), Hc, Hab. apply take_copy_at_0.
Qed.

Lemma holds_fun s h a b : holds s h a -> holds s h b -> a = b.
Proof.
  intros (l & Hl & _ & _ & _ & Ha) (l' & Hl' & _ & _ & _ & Hb). assert (l = l') as <- by congruence. by eapply stored_unique.
Qed.

Lemma holds_sha s h a : holds s h a -> sha256 a = h.
Proof. by intros (l & _ & ? & _). Qed.

Lemma holds_indexed s h a : holds s h a -> is_Some (indexed s h).
Proof. intros (l & Hl & _). by exists l. Qed.

Lemma refs_indexed s h : 1 <= refs s h -> is_Some (indexed s h).
Proof. unfold refs, indexed. destruct (MemTable.get _ h); cbn; [by eexists|lia]. Qed.

(** What later states keep: a block that is still indexed still reads the same. *)
Definition evolves s s' : Prop :=
  sound s' /\ forall h data, holds s h data -> is_Some (indexed s' h) -> holds s' h data.

Lemma write_evolves s data r s' : sound s -> U data -> Forall is_byte data -> alen data < 2 ^ 32 ->
  write_block data s = Some (r, s') ->
  evolves s s' /\ (forall h a, holds s h a -> holds s' h a) /\
  object_index s'.2 = object_index s.2 /\ space_table s'.2 = space_table s.2 /\
  (forall h, refs s h <= refs s' h) /\
  forall h loc, r = Ok (h, loc) -> h = sha256 data /\ holds s' h data /\ refs s' h = refs s h + 1.
Proof.
  intros [Hi HU] Hu Hb Hl Hrun. destruct (write_block_inv s data r s' Hi Hb Hl Hrun) as (Hi' & _ & Hh & Hoi & Hst & Hg & Hr).
  assert (Hkeep : forall h a, holds s h a -> holds s' h a) by (intros h a [l ?]; exists l; by apply Hh).
  assert (Hnew : forall h loc, r = Ok (h, loc) -> h = sha256 data /\ holds s' h data /\ refs s' h = refs s h + 1).
  { intros h loc ->. destruct (Hr _ _ eq_refl) as (-> & old & Hold & Hor). split; [done|].
    specialize (Hg (sha256 data)). rewrite decide_True in Hg by done. split; [|done].
    destruct Hor as [->|Hix]; [by exists loc|]. destruct (si_held _ Hi _ _ Hix) as (x & Hx).
    assert (x = old) as -> by (eapply holds_fun; [exists loc; by apply Hh|by exists loc]).
    assert (old = data) as <- by (apply (cf_inj old data); [by apply (HU (sha256 data)); exists loc|done|apply Hx]).
    by exists loc. }
  split_and!; [split; [split; [done|]|by auto]|done..| |exact Hnew].
  - intros h a Ha. specialize (Hg h). case_decide as Hc.
    + destruct Hc as [-> Hok]. destruct r as [[h' loc]|]; [|done]. destruct (Hnew _ _ eq_refl) as (-> & Hd & _). by rewrite (holds_fun _ _ _ _ Ha Hd).
    + destruct (holds_indexed _ _ _ Ha) as [l Hl']. unfold indexed in Hl'. rewrite Hg in Hl'.
      destruct (si_held _ Hi h l Hl') as (x & Hx). assert (Hxs : holds s h x) by by exists l.
      rewrite (holds_fun _ _ _ _ Ha (Hkeep _ _ Hxs)). by apply (HU h).
  - intros h. specialize (Hg h). case_decide; [lia|]. unfold refs. rewrite Hg. lia.
Qed.

(** A change of the index alone that adds no location. *)
Lemma index_evolves s m' : sound s -> store_inv (s.1, set_memtable s.2 m') ->
  (forall k l, MemTable.location <$> MemTable.get m' k = Some l -> indexed s k = Some l) ->
  evolves s (s.1, set_memtable s.2 m').
Proof.
  intros [Hi HU] Hi' Hsub. set (s' := (s.1, set_memtable s.2 m')).
  assert (Hx : extends s s') by (destruct (extends_refl s); by split).
  assert (Hback : forall h a, holds s' h a -> holds s h a).
  { intros h a Ha. destruct (holds_indexed _ _ _ Ha) as [l Hl]. pose proof (Hsub _ _ Hl) as Hl0.
    destruct (si_held _ Hi _ _ Hl0) as (x & Hx0). assert (Hxs : holds s' h x).
    { exists l. eapply held_extends; [done| |done]. by rewrite Hl, Hl0. }
    rewrite (holds_fun _ _ _ _ Ha Hxs). by exists l. }
  split; [split; [done|]|].
  - intros h a Ha. by apply (HU h), Hback.
  - intros h a [l Ha] [l' Hl']. exists l. eapply held_extends; [done| |done]. by rewrite Hl', (Hsub _ _ Hl').
Qed.

Lemma dec_ref_evolves s h r s' : sound s -> dec_ref h s = Some (r, s') ->
  evolves s s' /\ (forall k, (if decide (k = h) then refs s k - 1 else refs s k) <= refs s' k) /\
  (forall k, is_Some (indexed s' k) -> is_Some (indexed s k)) /\ exists m', s' = (s.1, set_memtable s.2 m').
Proof.
  intros Hs Hrun. pose proof (so_inv _ Hs) as Hi. destruct (dec_ref_inv _ _ _ _ Hi Hrun) as [Hi' Hix].
  destruct (dec_ref_effect _ _ _ _ Hi Hrun) as ((m' & ->) & Hrf & _).
  split_and!; [|done|intros k [l Hl]; rewrite Hix in Hl; case_decide; [done|by exists l]|by eexists].
  apply index_evolves; [done..|]. intros k l Hl. change (indexed (s.1, set_memtable s.2 m') k = Some l) in Hl.
  rewrite Hix in Hl. by destruct (decide _).
Qed.

Lemma inc_ref_evolves s h r s' : sound s -> inc_ref h s = Some (r, s') ->
  evolves s s' /\ (forall k, indexed s' k = indexed s k) /\
  (forall k, refs s' k = refs s k + if decide (k = h /\ is_ok r = true) then 1 else 0) /\
  exists m', s' = (s.1, set_memtable s.2 m').
Proof.
  intros Hs Hrun. pose proof (so_inv _ Hs) as Hi. destruct (inc_ref_inv _ _ _ _ Hi Hrun) as [Hi' Hix].
  destruct (inc_ref_effect _ _ _ _ Hi Hrun) as ((m' & ->) & Hrf & _). split_and!; [|done|done|by eexists].
  apply index_evolves; [done..|]. intros k l Hl. by rewrite <-Hix.
Qed.

(** Reading a held block. *)
Lemma read_held s h data buf : holds s h data -> (length data <= length buf)%nat ->
  read_block_by_hash s.1 s.2 h buf = (Ok (alen data), copy_at buf 0 data).
Proof.
  intros (loc & Hix & _ & _ & _ & Hst) Hl. unfold read_block_by_hash. unfold indexed in Hix.
  destruct (MemTable.get _ h) as [en|]; [|done]. injection Hix as ->. by apply Hst.
Qed.

(** ** Histories *)

Definition node_hash (v : Version.t) : ContentHash := sha256 (Version.bytes v).

Definition head_of (hist : history) : ContentHash :=
  match hist with [] => hash_ZERO | (v, _) :: _ => node_hash v end.

(** The chain of blocks from [h] on spells out the history. *)
Fixpoint chain s h (hist : history) : Prop :=
  match hist with
  | [] => h = hash_ZERO
  | (v, data) :: rest =>
      h = node_hash v /\ Version.typed v /\ holds s h (Version.bytes v) /\ holds s (Version.content_hash v) data /\
      chain s (Version.parent v) rest
  end.

(** How often a history uses a block: as a node, and as a content. *)
Fixpoint uses (hist : history) h : Z :=
  match hist with
  | [] => 0
  | (v, _) :: rest =>
      (if decide (h = node_hash v) then 1 else 0) + (if decide (h = Version.content_hash v) then 1 else 0) + uses rest h
  end.

Lemma uses_nonneg hist h : 0 <= uses hist h.
Proof. induction hist as [|[v data] rest IH]; cbn [uses]; repeat case_decide; lia. Qed.

Lemma history_head s h hist : chain s h hist -> h = head_of hist.
Proof. destruct hist as [|[v data] rest]; [done|]. by intros []. Qed.

Lemma chain_evolves s s' h hist : evolves s s' -> (forall k, uses hist k <= refs s' k) -> chain s h hist -> chain s' h hist.
Proof.
  intros [_ He]. revert h. induction hist as [|[v data] rest IH]; intros h Hu; cbn [chain]; [done|].
  intros (-> & Hv & Hn & Hc & Hr). cbn [uses] in Hu. split_and!; [done..| | |].
  - apply He; [done|]. apply refs_indexed. specialize (Hu (node_hash v)). rewrite decide_True in Hu by done.
    pose proof (uses_nonneg rest (node_hash v)). case_decide; lia.
  - apply He; [done|]. apply refs_indexed. specialize (Hu (Version.content_hash v)).
    rewrite (decide_True (P := Version.content_hash v = Version.content_hash v)) in Hu by done.
    pose proof (uses_nonneg rest (Version.content_hash v)). case_decide; lia.
  - apply IH; [|done]. intros k. specialize (Hu k). pose proof (uses_nonneg rest k). repeat case_decide; lia.
Qed.

Lemma node_nonzero s v : sound s -> holds s (node_hash v) (Version.bytes v) -> hash_is_zero (node_hash v) = false.
Proof. intros Hs Hh. apply bool_decide_eq_false. apply (cf_nonzero (Version.bytes v)). by eapply so_U. Qed.

Lemma read_version_ok s v buf : holds s (node_hash v) (Version.bytes v) -> Version.typed v -> length buf = 256%nat ->
  read_version s (node_hash v) buf = (Ok (Some v), Version.bytes v).
Proof.
  intros Hh Hv Hb. pose proof (VersionLaws.ver_length v Hv) as Hl. unfold read_version.
  rewrite (read_held _ _ _ _ Hh) by lia. rewrite copy_at_0_full by lia.
  assert ((alen (Version.bytes v) =? 256) = true) as -> by (apply Z.eqb_eq; unfold alen; lia).
  by rewrite VersionLaws.ver_of_bytes.
Qed.

(** The walks of the version store over a chain. *)
Lemma list_walk_ok depth s h hist buf : sound s -> chain s h hist -> length buf = 256%nat ->
  list_walk depth s h buf = Ok (take depth (fst <$> hist)).
Proof.
  intros Hs. revert depth h buf. induction hist as [|[v data] rest IH]; intros [|depth] h buf; cbn [chain list_walk]; try done.
  - by intros -> _.
  - intros (-> & Hv & Hn & _ & Hr) Hb. rewrite (node_nonzero s v) by done. rewrite read_version_ok by done.
    rewrite (IH depth _ (Version.bytes v)) by (done || by apply VersionLaws.ver_length). done.
Qed.

Definition is_target (id : ObjectId) (target : ContentHash) (x : Version.t * list Z) : Prop :=
  Version.hash x.1 = target /\ Version.object_id x.1 = id.
#[local] Instance is_target_dec id target x : Decision (is_target id target x).
Proof. unfold is_target. apply _. Defined.

Definition find_version (id : ObjectId) (target : ContentHash) (hist : history) : option (Version.t * list Z) :=
  snd <$> list_find (is_target id target) hist.

Lemma find_version_cons id target x rest : find_version id target (x :: rest) =
  if decide (is_target id target x) then Some x else find_version id target rest.
Proof.
  unfold find_version. cbn [list_find]. case_decide; [done|]. destruct (list_find _ rest) as [[]|]; done.
Qed.

Lemma find_walk_ok depth s id target h hist buf : sound s -> chain s h hist -> length buf = 256%nat ->
  find_walk depth s id target h buf = Ok (fst <$> find_version id target (take depth hist)).
Proof.
  intros Hs. revert depth h buf. induction hist as [|[v data] rest IH]; intros [|depth] h buf; cbn [chain find_walk]; try done.
  - by intros -> _.
  - intros (-> & Hv & Hn & _ & Hr) Hb. rewrite (node_nonzero s v) by done. rewrite read_version_ok by done.
    cbn [take]. rewrite find_version_cons. case_bool_decide as Hd.
    + by rewrite decide_True.
    + rewrite decide_False by done. rewrite (IH depth _ (Version.bytes v)) by (done || by apply VersionLaws.ver_length). done.
Qed.

Lemma find_version_in id target hist x : find_version id target hist = Some x ->
  x ∈ hist /\ is_target id target x.
Proof.
  unfold find_version. destruct (list_find _ hist) as [[i y]|] eqn:E; [|done]. intros [= ->].
  apply list_find_Some in E as (Hl & Ht & _). split; [by eapply list_elem_of_lookup_2|done].
Qed.

(** ** Deleting a chain *)

Lemma evolves_trans s1 s2 s3 : evolves s1 s2 -> evolves s2 s3 ->
  (forall k, is_Some (indexed s3 k) -> is_Some (indexed s2 k)) -> evolves s1 s3.
Proof. intros [_ H12] [Hs H23] Hsub. split; [done|]. intros h data Hh Hi. auto. Qed.

Lemma evolves_refl s : sound s -> evolves s s.
Proof. by split. Qed.

(** Dropping a reference, as the walk does it: the result is ignored. *)
Lemma drop_run s (i : Ids.t) h : sound s -> exists r m',
  pcatch (eng (dec_ref h)) (s, i) = Some (Ok r, ((s.1, set_memtable s.2 m'), i)) /\
  evolves s (s.1, set_memtable s.2 m') /\
  (forall k, (if decide (k = h) then refs s k - 1 else refs s k) <= refs (s.1, set_memtable s.2 m') k) /\
  (forall k, is_Some (indexed (s.1, set_memtable s.2 m') k) -> is_Some (indexed s k)).
Proof.
  intros Hs. assert (exists r s', dec_ref h s = Some (r, s')) as (r & s' & Hrun).
  { unfold dec_ref. rewrite pbind_get. destruct (MemTable.dec_ref _ h) as [[[]|] m']; by do 2 eexists. }
  destruct (dec_ref_evolves _ _ _ _ Hs Hrun) as (He & Hr & Hsub & m' & ->). exists r, m'. split_and!; [|done..].
  unfold pcatch, eng, zoom. cbn [fst snd]. by rewrite Hrun.
Qed.

(** Deleting a history gives back its references and spares the [R] references of others. *)
Lemma delete_walk_ok depth s (i : Ids.t) h hist buf (R : ContentHash -> Z) : sound s -> chain s h hist ->
  length buf = 256%nat -> (forall k, 0 <= R k) -> (forall k, uses hist k + R k <= refs s k) ->
  exists m', delete_walk depth h buf (s, i) = Some (Ok tt, ((s.1, set_memtable s.2 m'), i)) /\
  evolves s (s.1, set_memtable s.2 m') /\ (forall k, R k <= refs (s.1, set_memtable s.2 m') k).
Proof.
  enough (Hgen : sound s -> chain s h hist -> length buf = 256%nat -> (forall k, 0 <= R k) ->
    (forall k, uses hist k + R k <= refs s k) ->
    exists m', delete_walk depth h buf (s, i) = Some (Ok tt, ((s.1, set_memtable s.2 m'), i)) /\
    evolves s (s.1, set_memtable s.2 m') /\ (forall k, R k <= refs (s.1, set_memtable s.2 m') k) /\
    (forall k, is_Some (indexed (s.1, set_memtable s.2 m') k) -> is_Some (indexed s k))).
  { intros H1 H2 H3 H4 H5. destruct (Hgen H1 H2 H3 H4 H5) as (m' & ? & ? & ? & _). by exists m'. }
  revert depth s h buf. induction hist as [|[v data] rest IH]; intros depth s h buf Hs Hc Hb HR Hu.
  - exists (memtable s.2). replace (s.1, set_memtable s.2 (memtable s.2)) with s by (by destruct s as [d []]).
    cbn [chain] in Hc. subst h. cbn [uses] in Hu. split_and!; [by destruct depth|by apply evolves_refl|intros k; specialize (Hu k); lia|done].
  - destruct depth as [|depth].
    { exists (memtable s.2). replace (s.1, set_memtable s.2 (memtable s.2)) with s by (by destruct s as [d []]).
      split_and!; [done|by apply evolves_refl| |done]. intros k. specialize (Hu k). pose proof (uses_nonneg ((v, data) :: rest) k). lia. }
    destruct Hc as (-> & Hv & Hn & Hcd & Hr). cbn [delete_walk]. rewrite (node_nonzero s v) by done. rewrite pbind_get. cbn [fst].
    rewrite read_version_ok by done.
    destruct (drop_run s i (Version.content_hash v) Hs) as (r1 & m1 & Hd1 & He1 & Hf1 & Hsub1). rewrite (pbind_Ok _ _ _ _ _ Hd1).
    set (s1 := (s.1, set_memtable s.2 m1)) in *.
    destruct (drop_run s1 i (node_hash v) (proj1 He1)) as (r2 & m2 & Hd2 & He2 & Hf2 & Hsub2). rewrite (pbind_Ok _ _ _ _ _ Hd2).
    set (s2 := (s1.1, set_memtable s1.2 m2)) in *. pose proof (evolves_trans _ _ _ He1 He2 Hsub2) as He.
    assert (Hu2 : forall k, uses rest k + R k <= refs s2 k).
    { intros k. specialize (Hu k). specialize (Hf1 k). specialize (Hf2 k). cbn [uses] in Hu. repeat case_decide; lia. }
    destruct (IH depth s2 (Version.parent v) (Version.bytes v)) as (m' & Hrun & He3 & HR3 & Hsub3);
      [apply He2| |by apply VersionLaws.ver_length|done|done|].
    { eapply chain_evolves; [exact He| |done]. intros k. specialize (Hu2 k). specialize (HR k). lia. }
    exists m'. split_and!; [exact Hrun|by eapply evolves_trans|done|]. intros k Hk. by apply Hsub1, Hsub2, Hsub3.
Qed.

(** ** The representation *)

Abbreviation histories := (gmap ObjectId history).

(** The users of a block over all objects. *)
Definition total (H : histories) h : Z := map_fold (fun _ hist n => uses hist h + n) 0 H.

Lemma total_insert (H : histories) id hist h : H !! id = None -> total (<[id := hist]> H) h = uses hist h + total H h.
Proof. intros Hn. unfold total. rewrite map_fold_insert_L; [done| |done]. intros. lia. Qed.

Lemma total_delete (H : histories) id hist h : H !! id = Some hist -> total H h = uses hist h + total (delete id H) h.
Proof. intros Hs. rewrite <-(insert_delete_id H id hist Hs) at 1. apply total_insert, lookup_delete_eq. Qed.

Lemma total_replace (H : histories) id hist hist' h : H !! id = Some hist ->
  total (<[id := hist']> H) h = uses hist' h + total (delete id H) h.
Proof. intros Hs. rewrite <-insert_delete_eq. apply total_insert, lookup_delete_eq. Qed.

Lemma total_nonneg (H : histories) h : 0 <= total H h.
Proof.
  unfold total. apply (map_fold_weak_ind (fun n _ => 0 <= n)); [lia|]. intros id hist H' n _ Hn. pose proof (uses_nonneg hist h). lia.
Qed.

Lemma total_ge (H : histories) id hist h : H !! id = Some hist -> uses hist h <= total H h.
Proof. intros Hs. rewrite (total_delete _ _ _ _ Hs). pose proof (total_nonneg (delete id H) h). lia. Qed.

(** An object and its history: the metadata describe the newest version. *)
Record object_ok s (id : ObjectId) (o : CompactObject.t) (hist : history) : Prop := {
  ob_id : CompactObject.id o = id;
  ob_len : length id = 16%nat;
  ob_bytes : Forall is_byte id;
  ob_chain : chain s (CompactObject.version_head o) hist;
  ob_own : Forall (fun x => Version.object_id x.1 = id) hist;
  ob_head : match hist with
            | [] => False
            | (v, _) :: _ => CompactObject.content_hash o = Version.content_hash v /\
                CompactObject.content_size o = Version.content_size v /\ CompactObject.modified_at o = Version.timestamp v
            end
}.

Record rep s (H : histories) : Prop := {
  rp_sound : sound s;
  rp_sorted : sorted ObjectIndex.id (object_index s.2);
  rp_none id : ObjectIndex.get (object_index s.2) id = None <-> H !! id = None;
  rp_obj id o hist : ObjectIndex.get (object_index s.2) id = Some o -> H !! id = Some hist -> object_ok s id o hist;
  rp_refs h : total H h <= refs s h
}.

Lemma rep_object s H id o : rep s H -> ObjectIndex.get (object_index s.2) id = Some o ->
  exists hist, H !! id = Some hist /\ object_ok s id o hist.
Proof.
  intros HR Hg. destruct (H !! id) as [hist|] eqn:E; [exists hist; split; [done|by eapply rp_obj]|].
  apply (rp_none _ _ HR) in E. congruence.
Qed.

Lemma object_ok_evolves s s' id o hist : evolves s s' -> (forall k, uses hist k <= refs s' k) ->
  object_ok s id o hist -> object_ok s' id o hist.
Proof. intros He Hu []. split; try done. by eapply chain_evolves. Qed.

(** The store changed below the objects. *)
Lemma rep_evolves s s' H : rep s H -> evolves s s' -> object_index s'.2 = object_index s.2 ->
  (forall k, total H k <= refs s' k) -> rep s' H.
Proof.
  intros [Hs Hso Hn Ho Hr] He Hi Hr'. split; rewrite ?Hi; try done; [apply He|].
  intros id o hist Hg HH. eapply object_ok_evolves; [done| |by apply Ho]. intros k.
  pose proof (total_ge _ _ _ k HH). specialize (Hr' k). lia.
Qed.

(** The index changed: an entry was set, or removed. *)
Lemma sound_index s x : sound s -> sound (s.1, set_object_index s.2 x).
Proof.
  intros [[Hl Hs Hh] HU]. split; [split; [by destruct Hl as [[] ? ? ?]|exact Hs|exact Hh]|exact HU].
Qed.

Lemma set_index_evolves s x : sound s -> evolves s (s.1, set_object_index s.2 x).
Proof. intros Hs. split; [by apply sound_index|]. intros h data Hh _. exact Hh. Qed.

Lemma rep_set s H x id o hist : rep s H -> sorted ObjectIndex.id x ->
  (forall k, ObjectIndex.get x k = if decide (k = id) then Some o else ObjectIndex.get (object_index s.2) k) ->
  object_ok s id o hist -> (forall k, total (<[id := hist]> H) k <= refs s k) ->
  rep (s.1, set_object_index s.2 x) (<[id := hist]> H).
Proof.
  intros [Hs Hso Hn Ho Hr] Hx Hg Hok Ht. split; cbn [snd object_index set_object_index]; [by apply sound_index|done| | |done].
  - intros k. rewrite Hg. destruct (decide (k = id)) as [->|]; [by rewrite lookup_insert_eq|]. by rewrite lookup_insert_ne.
  - intros k o' hist'. rewrite Hg. destruct (decide (k = id)) as [->|].
    + rewrite lookup_insert_eq. intros [= <-] [= <-]. eapply object_ok_evolves; [by apply set_index_evolves| |done].
      intros h. etransitivity; [|apply Ht]. apply (total_ge _ id). by rewrite lookup_insert_eq.
    + rewrite lookup_insert_ne by done. intros H1 H2. eapply object_ok_evolves; [by apply set_index_evolves| |by apply Ho].
      intros h. etransitivity; [|apply Hr]. by apply (total_ge _ k).
Qed.

Lemma rep_unset s H x id : rep s H -> sorted ObjectIndex.id x ->
  (forall k, ObjectIndex.get x k = if decide (k = id) then None else ObjectIndex.get (object_index s.2) k) ->
  rep (s.1, set_object_index s.2 x) (delete id H).
Proof.
  intros [Hs Hso Hn Ho Hr] Hx Hg. split; cbn [snd object_index set_object_index]; [by apply sound_index|done| | |].
  - intros k. rewrite Hg. destruct (decide (k = id)) as [->|]; [by rewrite lookup_delete_eq|]. by rewrite lookup_delete_ne.
  - intros k o' hist'. rewrite Hg. destruct (decide (k = id)) as [->|]; [done|].
    rewrite lookup_delete_ne by done. intros H1 H2. eapply object_ok_evolves; [by apply set_index_evolves| |by apply Ho].
    intros h. etransitivity; [|apply Hr]. by apply (total_ge _ k).
  - intros h. etransitivity; [|apply Hr]. destruct (H !! id) as [hist|] eqn:E; [|by rewrite delete_id].
    rewrite (total_delete _ _ _ _ E). pose proof (uses_nonneg hist h). lia.
Qed.

(** ** The operations *)

Implicit Types i : Ids.t.

Lemma eng_inv {A} (m : prog (D * Engine.t) StorageError A) s i r s' i' :
  eng m (s, i) = Some (r, (s', i')) -> m s = Some (r, s') /\ i' = i.
Proof. unfold eng, zoom. cbn [fst snd]. destruct (m s) as [[r0 s0]|]; [|done]. by intros [= <- <- <-]. Qed.

Lemma pbind_engine {A} (f : Engine.t -> prog ((D * Engine.t) * Ids.t) StorageError A) s i :
  pbind get_engine f (s, i) = f s.2 (s, i).
Proof. done. Qed.

Lemma pbind_some {A B} (a : A) err (f : A -> prog ((D * Engine.t) * Ids.t) StorageError B) x :
  pbind (ok_or (Some a) err) f x = f a x.
Proof. done. Qed.

Lemma write_version_inv v s i r s' i' : write_version v (s, i) = Some (r, (s', i')) ->
  i' = i /\ exists r0, write_block (Version.bytes v) s = Some (r0, s') /\
  r = match r0 with Ok x => Ok x.1 | Err e => Err e end.
Proof.
  unfold write_version. intros H. prog_inv H.
  - subst r. apply eng_inv in Hm as [Hm ->]. split; [done|]. by eexists.
  - injection Hk as <- ->. apply eng_inv in Hm as [Hm ->]. split; [done|]. by eexists.
Qed.

Lemma put_index_run x s i : put_index x (s, i) = Some (Ok tt, ((s.1, set_object_index s.2 x), i)).
Proof. done. Qed.

Lemma update_object_run s H id o hash size head now i : rep s H -> ObjectIndex.get (object_index s.2) id = Some o ->
  exists x, update_object id hash size head now (s, i) = Some (Ok tt, ((s.1, set_object_index s.2 x), i)) /\
  sorted ObjectIndex.id x /\ forall k, ObjectIndex.get x k =
    if decide (k = id) then Some (set_content o hash size head now) else ObjectIndex.get (object_index s.2) k.
Proof.
  intros HR Hg. destruct (oi_get_mut _ _ _ (rp_sorted _ _ HR) Hg) as (put & Hgm & Hput).
  exists (put (set_content o hash size head now)). split; [|apply Hput].
  unfold update_object. rewrite pbind_engine, Hgm. done.
Qed.

Lemma bumped (f g : ContentHash -> Z) h : (forall k, f k <= g k) -> g h = f h + 1 ->
  forall k, f k + (if decide (k = h) then 1 else 0) <= g k.
Proof. intros Hle Hh k. case_decide as E; [rewrite E; lia|]. specialize (Hle k). lia. Qed.

(** Writing a version node: it is held, and has one more reference, when the call succeeds. *)
Lemma write_version_ok v s H i r s' i' : rep s H -> Version.typed v -> VersionLaws.all_bytes v -> U (Version.bytes v) ->
  write_version v (s, i) = Some (r, (s', i')) ->
  i' = i /\ evolves s s' /\ (forall k a, holds s k a -> holds s' k a) /\
  object_index s'.2 = object_index s.2 /\ space_table s'.2 = space_table s.2 /\ rep s' H /\
  (forall k, refs s k <= refs s' k) /\
  forall h, r = Ok h -> h = node_hash v /\ holds s' h (Version.bytes v) /\ refs s' h = refs s h + 1.
Proof.
  intros HR Hv Hvb HU (-> & r0 & Hw & ->)%write_version_inv. pose proof (VersionLaws.ver_length _ Hv) as Hlen.
  destruct (write_evolves _ _ _ _ (rp_sound _ _ HR) HU (VersionLaws.ver_bytes _ Hvb) ltac:(unfold alen; rewrite Hlen; lia) Hw)
    as (He & Hkp & Hoi & Hst & Hle & Hnew).
  split_and!; [done..| |done|].
  - eapply rep_evolves; [done..|]. intros k. specialize (Hle k). pose proof (rp_refs _ _ HR k). lia.
  - intros h. destruct r0 as [[h' loc]|]; [|done]. intros [= <-]. by eapply Hnew.
Qed.

(** A version becomes the head of its object, once node and content each have a reference to spare. *)
Lemma install_version s H id o hist v data i : rep s H -> ObjectIndex.get (object_index s.2) id = Some o -> H !! id = Some hist ->
  Version.typed v -> Version.parent v = head_of hist -> Version.object_id v = id ->
  holds s (node_hash v) (Version.bytes v) -> holds s (Version.content_hash v) data ->
  (forall k, total H k + (if decide (k = node_hash v) then 1 else 0) + (if decide (k = Version.content_hash v) then 1 else 0) <= refs s k) ->
  exists s', update_object id (Version.content_hash v) (Version.content_size v) (node_hash v) (Version.timestamp v) (s, i) = Some (Ok tt, (s', i)) /\
  rep s' (<[id := (v, data) :: hist]> H) /\ space_table s'.2 = space_table s.2.
Proof.
  intros HR Hg HH Hv Hp Hid Hn Hd Hr. destruct (rep_object _ _ _ _ HR Hg) as (hist' & HH' & Hok). assert (hist' = hist) as -> by congruence.
  destruct (update_object_run s H id o (Version.content_hash v) (Version.content_size v) (node_hash v) (Version.timestamp v) i HR Hg)
    as (x & Hu & Hx & Hgx). eexists. split_and!; [exact Hu| |done]. eapply rep_set; [done..| |].
  - destruct Hok. split; try done; [|by constructor]. cbn [chain]. split_and!; [done..|].
    by rewrite Hp, <-(history_head _ _ _ ob_chain0).
  - intros k. rewrite (total_replace _ _ _ _ _ HH). cbn [uses]. pose proof (total_delete _ _ _ k HH). specialize (Hr k).
    repeat case_decide; lia.
Qed.

(** The arguments of a call are bytes; its timestamps fit. *)
Definition fits_content (content : list Z) : Prop := Forall is_byte content /\ alen content < 2 ^ 32.

Lemma size_uint (content : list Z) : uint 32 (alen content mod 2 ^ 32).
Proof. pose proof (Z.mod_pos_bound (alen content) (2 ^ 32)). unfold uint. lia. Qed.

Lemma head_of_hash hist : length (head_of hist) = 32%nat /\ Forall is_byte (head_of hist).
Proof.
  destruct hist as [|[v data] rest]; cbn [head_of]; [split; [apply length_replicate|apply zeros_bytes]|].
  split; [apply sha256_length|apply sha256_bytes].
Qed.

Definition updated (hist : history) (content : list Z) (id : ObjectId) (now : Z) (a m : list Z) : Version.t :=
  new_version (head_of hist) (sha256 content) (alen content mod 2 ^ 32) id now a m.

Lemma object_update_ok now id content a m s H i r s' i' : rep s H -> fits_content content -> uint 64 now ->
  Forall is_byte a -> Forall is_byte m -> U content ->
  (forall hist, H !! id = Some hist -> U (Version.bytes (updated hist content id now a m))) ->
  object_update_in now id content a m (s, i) = Some (r, (s', i')) ->
  i' = i /\ space_table s'.2 = space_table s.2 /\
  match H !! id, r with
  | None, _ => r = Err ObjectNotFound /\ rep s' H
  | Some hist, Ok h => h = sha256 content /\ rep s' (<[id := (updated hist content id now a m, content) :: hist]> H)
  | Some _, Err _ => rep s' H
  end.
Proof.
  intros HR [Hcb Hcl] Hnow Ha Hm' HUc HUv Hrun. unfold object_update_in in Hrun. rewrite pbind_engine in Hrun.
  destruct (ObjectIndex.get (object_index s.2) id) as [o|] eqn:Hg.
  2: { injection Hrun as <- <- <-. apply (rp_none _ _ HR) in Hg. by rewrite Hg. }
  destruct (rep_object _ _ _ _ HR Hg) as (hist & HH & Hok). rewrite HH. specialize (HUv hist HH).
  rewrite (pbind_some o) in Hrun. rewrite (history_head _ _ _ (ob_chain _ _ _ _ Hok)) in Hrun.
  prog_inv Hrun.
  { subst r. apply eng_inv in Hm as [Hw ->].
    destruct (write_evolves _ _ _ _ (rp_sound _ _ HR) HUc Hcb Hcl Hw) as (He & _ & Hoi & Hst & Hle & _).
    split_and!; [done..|]. eapply rep_evolves; [done..|]. intros k. specialize (Hle k). pose proof (rp_refs _ _ HR k). lia. }
  destruct s0 as [s1 i1]. apply eng_inv in Hm as [Hw ->]. destruct a0 as [ch loc].
  destruct (write_evolves _ _ _ _ (rp_sound _ _ HR) HUc Hcb Hcl Hw) as (He & _ & Hoi & Hst & Hle & Hnew).
  destruct (Hnew _ _ eq_refl) as (-> & Hcd & Hinc). cbn [fst] in Hk. fold (updated hist content id now a m) in Hk.
  set (v := updated hist content id now a m) in *.
  assert (HR1 : rep s1 H) by (eapply rep_evolves; [done..|]; intros k; specialize (Hle k); pose proof (rp_refs _ _ HR k); lia).
  destruct (head_of_hash hist) as [Hh1 Hh2].
  assert (Hv : Version.typed v) by (apply new_version_typed; [done|apply sha256_length|apply Hok|apply size_uint|done]).
  assert (Hvb : VersionLaws.all_bytes v) by (apply new_version_bytes; [done|apply sha256_bytes|apply Hok|done..]).
  prog_inv Hk.
  { subst r. destruct (write_version_ok v s1 H i _ _ _ HR1 Hv Hvb HUv Hm) as (-> & _ & _ & _ & Hst2 & HR2 & _). split_and!; [done|congruence|done]. }
  destruct s0 as [s2 i2]. destruct (write_version_ok v s1 H i _ _ _ HR1 Hv Hvb HUv Hm) as (-> & _ & Hkp & Hoi2 & Hst2 & HR2 & Hle2 & Hnode).
  destruct (Hnode _ eq_refl) as (-> & Hnd & Hinc2).
  destruct (install_version s2 H id o hist v content i HR2) as (s3 & Hu & HR3 & Hst3); [by rewrite Hoi2, Hoi|done..|by apply Hkp| |].
  { intros k. pose proof (rp_refs _ _ HR k). pose proof (bumped _ _ _ Hle Hinc k). pose proof (bumped _ _ _ Hle2 Hinc2 k).
    change (Version.content_hash v) with (sha256 content). lia. }
  change (Version.content_hash v) with (sha256 content) in Hu. change (Version.timestamp v) with now in Hu.
  change (Version.content_size v) with (alen content mod 2 ^ 32) in Hu. rewrite (pbind_Ok _ _ _ _ _ Hu) in Hk0.
  injection Hk0 as <- <- <-. split_and!; [done|congruence|done|done].
Qed.

(** The part of a history that the bounded walks reach. *)
Definition visible (hist : history) : history := take MAX_DEPTH hist.

Definition rolled_back (hist : history) (ver : Version.t) (id : ObjectId) (now : Z) : Version.t :=
  new_version (head_of hist) (Version.content_hash ver) (Version.content_size ver) id now [] msg_rollback.

Lemma chain_elem s h hist x : chain s h hist -> x ∈ hist -> Version.typed x.1 /\ holds s (Version.content_hash x.1) x.2.
Proof.
  revert h. induction hist as [|[v data] rest IH]; intros h; [by intros _ ?%not_elem_of_nil|].
  intros (_ & Hv & _ & Hc & Hr) [->|Hin]%elem_of_cons; [done|]. by eapply IH.
Qed.

Lemma msg_bytes : Forall is_byte msg_rollback /\ Forall is_byte msg_created.
Proof. split; repeat (constructor; [unfold is_byte; lia|]); constructor. Qed.

Lemma inc_ref_ok h s H i r s' i' : rep s H -> eng (inc_ref h) (s, i) = Some (r, (s', i')) ->
  i' = i /\ object_index s'.2 = object_index s.2 /\ space_table s'.2 = space_table s.2 /\ rep s' H /\
  (forall k a, holds s k a -> holds s' k a) /\ (forall k, refs s k <= refs s' k) /\
  forall x, r = Ok x -> refs s' h = refs s h + 1.
Proof.
  intros HR [Hi ->]%eng_inv. destruct (inc_ref_evolves _ _ _ _ (rp_sound _ _ HR) Hi) as (He & Hix & Hr & m' & ->).
  set (s' := (s.1, _)) in *. assert (Hle : forall k, refs s k <= refs s' k) by (intros k; rewrite Hr; destruct (decide (_ /\ _)); lia).
  split_and!; [done..| | |done|].
  - eapply rep_evolves; [done..|]. intros k. pose proof (rp_refs _ _ HR k). specialize (Hle k). lia.
  - intros k x Hx. apply He; [done|]. rewrite Hix. by eapply holds_indexed.
  - intros x ->. by rewrite Hr, decide_True.
Qed.

Lemma version_rollback_ok now id target s H i r s' i' : rep s H -> uint 64 now ->
  (forall hist x, H !! id = Some hist -> find_version id target (visible hist) = Some x ->
     U (Version.bytes (rolled_back hist x.1 id now))) ->
  version_rollback_in now id target (s, i) = Some (r, (s', i')) ->
  i' = i /\ space_table s'.2 = space_table s.2 /\
  match H !! id with
  | None => r = Err ObjectNotFound /\ rep s' H
  | Some hist =>
      match find_version id target (visible hist), r with
      | None, _ => r = Err VersionNotFound /\ rep s' H
      | Some (ver, data), Ok h => h = Version.hash (rolled_back hist ver id now) /\
          rep s' (<[id := (rolled_back hist ver id now, data) :: hist]> H)
      | Some _, Err _ => rep s' H
      end
  end.
Proof.
  intros HR Hnow HUv Hrun. unfold version_rollback_in in Hrun. rewrite pbind_get in Hrun. cbn [fst] in Hrun.
  destruct (ObjectIndex.get (object_index s.2) id) as [o|] eqn:Hg.
  2: { injection Hrun as <- <- <-. apply (rp_none _ _ HR) in Hg. by rewrite Hg. }
  destruct (rep_object _ _ _ _ HR Hg) as (hist & HH & Hok). rewrite HH. rewrite (pbind_some o) in Hrun.
  rewrite (find_walk_ok _ _ _ _ _ hist) in Hrun by (apply HR || apply Hok || apply length_replicate). fold (visible hist) in Hrun.
  destruct (find_version id target (visible hist)) as [[ver data]|] eqn:Ef; [|by injection Hrun as <- <- <-].
  specialize (HUv hist _ HH Ef). cbn [fst fmap option_fmap option_map] in HUv, Hrun.
  change (pbind (plift (Ok (Some ver))) ?f (s, i)) with (f (Some ver) (s, i)) in Hrun. cbn beta in Hrun. rewrite (pbind_some ver) in Hrun.
  rewrite (history_head _ _ _ (ob_chain _ _ _ _ Hok)) in Hrun. cbv zeta in Hrun. fold (rolled_back hist ver id now) in Hrun.
  set (v := rolled_back hist ver id now) in *. apply find_version_in in Ef as [Hin _].
  destruct (chain_elem _ _ _ (ver, data) (ob_chain _ _ _ _ Hok)) as [Hver Hcd]; [by eapply elem_of_take in Hin as (? & ? & _); eapply list_elem_of_lookup_2|].
  cbn [fst snd] in Hver, Hcd. pose proof (holds_sha _ _ _ Hcd) as Hsha. destruct (head_of_hash hist) as [Hh1 Hh2].
  assert (Hv : Version.typed v) by (apply new_version_typed; [done|apply Hver|apply Hok|apply Hver|done]).
  assert (Hvb : VersionLaws.all_bytes v).
  { apply new_version_bytes; [done|rewrite <-Hsha; apply sha256_bytes|apply Hok|constructor|apply msg_bytes]. }
  prog_inv Hrun.
  { subst r. destruct (write_version_ok v s H i _ _ _ HR Hv Hvb HUv Hm) as (-> & _ & _ & _ & Hst2 & HR2 & _). by split_and!. }
  destruct s0 as [s1 i1]. destruct (write_version_ok v s H i _ _ _ HR Hv Hvb HUv Hm) as (-> & _ & Hkp & Hoi & Hst & HR1 & Hle & Hnode).
  destruct (Hnode _ eq_refl) as (-> & Hnd & Hinc). clear Hm.
  prog_inv Hk.
  { subst r. by apply inc_ref_ok with (H := H) in Hm as (-> & _ & Hst2 & HR2 & _); [split_and!; [|congruence|]|]. }
  destruct s0 as [s2 i2]. apply inc_ref_ok with (H := H) in Hm as (-> & Hoi2 & Hst2 & HR2 & Hkp2 & Hle2 & Hinc2); [|done].
  specialize (Hinc2 _ eq_refl).
  destruct (install_version s2 H id o hist v data i HR2) as (s3 & Hu & HR3 & Hst3); [by rewrite Hoi2, Hoi|done..|by apply Hkp2|by apply Hkp2, Hkp| |].
  { intros k. pose proof (rp_refs _ _ HR k). pose proof (bumped _ _ _ Hle Hinc k). pose proof (bumped _ _ _ Hle2 Hinc2 k).
    change (Version.content_hash v) with (Version.content_hash ver). lia. }
  change (Version.content_hash v) with (Version.content_hash ver) in Hu. change (Version.timestamp v) with now in Hu.
  change (Version.content_size v) with (Version.content_size ver) in Hu. rewrite (pbind_Ok _ _ _ _ _ Hu) in Hk0.
  injection Hk0 as <- <- <-. split_and!; [done|congruence|done|done].
Qed.

(** The space table is no part of the representation. *)
Lemma rep_spaces s H t : rep s H -> rep (s.1, set_space_table s.2 t) H.
Proof.
  intros HR. destruct (rp_sound _ _ HR) as [[Hl Hs Hh] HU]. eapply (rep_evolves s); [done| |done|apply HR].
  split; [|intros h a Ha _; exact Ha]. split; [split; [by destruct Hl as [[] ? ? ?]|exact Hs|exact Hh]|exact HU].
Qed.

(** The call only changes the usage counters of one space. *)
Lemma charge_ok id bytes s H i r s' i' : rep s H -> charge_space id bytes (s, i) = Some (r, (s', i')) ->
  r = Ok tt /\ i' = i /\ rep s' H /\ object_index s'.2 = object_index s.2.
Proof.
  intros HR. unfold charge_space. rewrite pbind_engine. destruct (SpaceTable.get_mut _ id) as [[sp put]|]; [|by intros [= <- <- <-]].
  intros (n & _ & Hrun)%pbind_checked_inv. apply pbind_checked_inv in Hrun as (sz & _ & [= <- <- <-]).
  split_and!; [done..|by apply rep_spaces|done].
Qed.

Lemma release_ok id bytes s H i : rep s H -> exists s', release_space id bytes (s, i) = Some (Ok tt, (s', i)) /\ rep s' H.
Proof.
  intros HR. unfold release_space. rewrite pbind_engine. destruct (SpaceTable.get_mut _ id) as [[sp put]|]; [|by exists s].
  eexists. split; [done|by apply rep_spaces].
Qed.

Lemma make_id_ok tick n : length (make_id tick n) = 16%nat /\ Forall is_byte (make_id tick n).
Proof. unfold make_id. rewrite length_app, !length_le_bytes. split; [done|]. apply Forall_app. auto with aios. Qed.

Definition created (content : list Z) (id : ObjectId) (now : Z) : Version.t :=
  new_version hash_ZERO (sha256 content) (alen content mod 2 ^ 32) id now [] msg_created.

Lemma new_object_fields id sp name h ct now content : let o := new_object id sp name h ct now content in
  CompactObject.id o = id /\ CompactObject.content_hash o = h /\
  CompactObject.content_size o = alen content mod 2 ^ 32 /\ CompactObject.modified_at o = now /\ CompactObject.space_id o = sp.
Proof. unfold new_object. by destruct ct. Qed.

(** A fresh object: its entry is inserted once content and node have a reference to spare. *)
Lemma insert_object s H o id v data x : rep s H -> ObjectIndex.insert (object_index s.2) o = (Ok tt, x) ->
  CompactObject.id o = id -> length id = 16%nat -> Forall is_byte id -> CompactObject.version_head o = node_hash v ->
  CompactObject.content_hash o = Version.content_hash v -> CompactObject.content_size o = Version.content_size v ->
  CompactObject.modified_at o = Version.timestamp v -> Version.object_id v = id ->
  Version.typed v -> Version.parent v = hash_ZERO -> holds s (node_hash v) (Version.bytes v) -> holds s (Version.content_hash v) data ->
  (forall k, total H k + (if decide (k = node_hash v) then 1 else 0) + (if decide (k = Version.content_hash v) then 1 else 0) <= refs s k) ->
  H !! id = None /\ rep (s.1, set_object_index s.2 x) (<[id := [(v, data)]]> H).
Proof.
  intros HR Hins Hid Hl Hb Hvh Hch Hcs Hma Hvid Hv Hp Hn Hd Hr.
  destruct (oi_insert _ _ _ _ (rp_sorted _ _ HR) Hins) as [(_ & Hnone & Hx & Hg)|(e & He & _)]; [|done].
  rewrite Hid in Hnone, Hg. assert (HN : H !! id = None) by by apply (rp_none _ _ HR). split; [done|].
  eapply rep_set; [done..| |].
  - split; try done; [|by constructor]. cbn [chain]. by rewrite Hvh.
  - intros k. rewrite total_insert by done. cbn [uses]. specialize (Hr k). repeat case_decide; lia.
Qed.

Lemma generate_run tick s i : generate_object_id tick (s, i) =
  Some (Ok (make_id tick (Ids.object_counter i)), (s, Ids.mk (wrapping_add 64 (Ids.object_counter i) 1) (Ids.space_counter i))).
Proof. done. Qed.

Lemma object_create_ok tick now sp name content ct s H i r s' i' : rep s H -> fits_content content -> uint 64 now ->
  U content -> U (Version.bytes (created content (make_id tick (Ids.object_counter i)) now)) ->
  object_create_in tick now sp name content ct (s, i) = Some (r, (s', i')) ->
  Ids.space_counter i' = Ids.space_counter i /\
  match r with
  | Ok (id, h) => id = make_id tick (Ids.object_counter i) /\ h = sha256 content /\ H !! id = None /\
      rep s' (<[id := [(created content id now, content)]]> H)
  | Err _ => rep s' H
  end.
Proof.
  intros HR [Hcb Hcl] Hnow HUc HUv Hrun. unfold object_create_in in Hrun. rewrite pbind_engine in Hrun.
  destruct (SpaceTable.get (space_table s.2) sp) as [space|]; [|by injection Hrun as <- <- <-].
  destruct (Space.would_exceed_quota space (alen content)); [by injection Hrun as <- <- <-|].
  prog_inv Hrun.
  { subst r. apply eng_inv in Hm as [Hw ->].
    destruct (write_evolves _ _ _ _ (rp_sound _ _ HR) HUc Hcb Hcl Hw) as (He & _ & Hoi & _ & Hle & _). split; [done|].
    eapply rep_evolves; [done..|]. intros k. specialize (Hle k). pose proof (rp_refs _ _ HR k). lia. }
  destruct s0 as [s1 i1]. apply eng_inv in Hm as [Hw ->]. destruct a as [ch loc].
  destruct (write_evolves _ _ _ _ (rp_sound _ _ HR) HUc Hcb Hcl Hw) as (He & _ & Hoi & _ & Hle & Hnew).
  destruct (Hnew _ _ eq_refl) as (-> & Hcd & Hinc). cbn [fst] in Hk.
  rewrite (pbind_Ok _ _ _ _ _ (generate_run tick s1 i)) in Hk. set (id := make_id tick (Ids.object_counter i)) in *.
  set (i1 := Ids.mk _ _) in *. fold (created content id now) in Hk.
  set (v := created content id now) in *. destruct (make_id_ok tick (Ids.object_counter i)) as [Hil Hib]. fold id in Hil, Hib.
  assert (HR1 : rep s1 H) by (eapply rep_evolves; [done..|]; intros k; specialize (Hle k); pose proof (rp_refs _ _ HR k); lia).
  assert (Hv : Version.typed v) by (apply new_version_typed; [apply length_replicate|apply sha256_length|done|apply size_uint|done]).
  assert (Hvb : VersionLaws.all_bytes v).
  { apply new_version_bytes; [apply zeros_bytes|apply sha256_bytes|done|constructor|apply msg_bytes]. }
  prog_inv Hk.
  { subst r. by destruct (write_version_ok v s1 H i1 _ _ _ HR1 Hv Hvb HUv Hm) as (-> & _ & _ & _ & _ & HR2 & _). }
  destruct s0 as [s2 i2]. destruct (write_version_ok v s1 H i1 _ _ _ HR1 Hv Hvb HUv Hm) as (-> & _ & Hkp & _ & _ & HR2 & Hle2 & Hnode).
  destruct (Hnode _ eq_refl) as (-> & Hnd & Hinc2). rewrite pbind_engine in Hk0.
  set (o := set_head _ _) in *. destruct (ObjectIndex.insert (object_index s2.2) o) as [ri x] eqn:Hins.
  rewrite (pbind_Ok _ _ _ _ _ (put_index_run x s2 i1)) in Hk0.
  destruct ri as [[]|e].
  2: { injection Hk0 as <- <- <-. split; [done|]. destruct (oi_insert _ _ _ _ (rp_sorted _ _ HR2) Hins) as [(? & _)|(? & _ & ->)]; [done|].
    eapply rep_evolves; [exact HR2|by apply set_index_evolves, HR2|done|apply HR2]. }
  destruct (new_object_fields id sp name (sha256 content) ct now content) as (F1 & F2 & F3 & F4 & _).
  destruct (insert_object s2 H o id v content x HR2 Hins) as [HN HR3]; [done..|by apply Hkp| |].
  { intros k. pose proof (rp_refs _ _ HR k). pose proof (bumped _ _ _ Hle Hinc k). pose proof (bumped _ _ _ Hle2 Hinc2 k).
    change (Version.content_hash v) with (sha256 content). lia. }
  change (pbind (plift (Ok tt)) ?f ?y) with (f tt y) in Hk0. cbv beta in Hk0. prog_inv Hk0.
  - subst r. by apply charge_ok with (H := <[id:=[(v, content)]]> H) in Hm0 as (? & _).
  - destruct s0 as [s3 i3]. apply charge_ok with (H := <[id:=[(v, content)]]> H) in Hm0 as (_ & -> & HR4 & _); [|done].
    injection Hk as <- <- <-. done.
Qed.

Lemma object_delete_ok id s H i : rep s H -> exists s',
  object_delete_in id (s, i) = Some (match H !! id with Some _ => Ok tt | None => Err ObjectNotFound end, (s', i)) /\
  rep s' (delete id H).
Proof.
  intros HR. unfold object_delete_in. rewrite pbind_engine. destruct (ObjectIndex.remove (object_index s.2) id) as [ro x] eqn:Er.
  destruct (oi_remove _ _ _ _ (rp_sorted _ _ HR) Er) as (-> & Hx & Hg). rewrite (pbind_Ok _ _ _ _ _ (put_index_run x s i)).
  pose proof (rep_unset s H x id HR Hx Hg) as HR1. set (s1 := (s.1, set_object_index s.2 x)) in *.
  destruct (ObjectIndex.get (object_index s.2) id) as [o|] eqn:Ho.
  2: { exists s1. apply (rp_none _ _ HR) in Ho. by rewrite Ho. }
  destruct (rep_object _ _ _ _ HR Ho) as (hist & HH & Hok). rewrite HH, (pbind_some o).
  assert (Htot : forall k, uses hist k + total (delete id H) k <= refs s1 k).
  { intros k. rewrite <-(total_delete _ _ _ k HH). apply HR. }
  destruct (delete_walk_ok MAX_DEPTH s1 i (CompactObject.version_head o) hist walk_buf (total (delete id H))) as (m' & Hrun & He & HRk);
    [apply HR1| |apply length_replicate|apply total_nonneg|done|].
  { eapply chain_evolves; [by apply set_index_evolves, HR| |apply Hok]. intros k. etransitivity; [by apply (total_ge H id)|apply HR]. }
  rewrite (pbind_Ok _ _ _ _ _ Hrun).
  destruct (release_ok (CompactObject.space_id o) (CompactObject.content_size o) (s1.1, set_memtable s1.2 m') (delete id H) i) as (s' & Hrel & HR').
  { by eapply rep_evolves. }
  by exists s'.
Qed.

Lemma object_read_ok s H id buf : rep s H ->
  match (H !! id : option history) with
  | Some ((v, data) :: _) => (length data <= length buf)%nat ->
      exists o, ObjectIndex.get (object_index s.2) id = Some o /\
      object_read_in s id buf = (Ok (o, alen data), copy_at buf 0 data)
  | _ => object_read_in s id buf = (Err ObjectNotFound, buf)
  end.
Proof.
  intros HR. unfold object_read_in. destruct (ObjectIndex.get (object_index s.2) id) as [o|] eqn:Hg.
  2: { apply (rp_none _ _ HR) in Hg. by rewrite Hg. }
  destruct (rep_object _ _ _ _ HR Hg) as (hist & HH & [_ _ _ Hc _ Hh]). rewrite HH. destruct hist as [|[v data] rest]; [done|].
  destruct Hh as (-> & _). intros Hl. exists o. split; [done|]. destruct Hc as (_ & _ & _ & Hd & _). by rewrite (read_held _ _ _ _ Hd Hl).
Qed.

Lemma version_list_ok s H id : rep s H ->
  version_list_in s id = match H !! id with Some hist => Ok (fst <$> visible hist) | None => Err ObjectNotFound end.
Proof.
  intros HR. unfold version_list_in. destruct (ObjectIndex.get (object_index s.2) id) as [o|] eqn:Hg.
  2: { apply (rp_none _ _ HR) in Hg. by rewrite Hg. }
  destruct (rep_object _ _ _ _ HR Hg) as (hist & HH & Hok). rewrite HH, (list_walk_ok _ _ _ hist) by (apply HR || apply Hok || apply length_replicate).
  unfold visible. by rewrite fmap_take.
Qed.

Lemma get_head_ok s H id : rep s H ->
  get_head_in s id = match (H !! id : option history) with Some ((v, _) :: _) => Ok (Version.hash v) | _ => Err ObjectNotFound end.
Proof.
  intros HR. unfold get_head_in. destruct (ObjectIndex.get (object_index s.2) id) as [o|] eqn:Hg.
  2: { apply (rp_none _ _ HR) in Hg. by rewrite Hg. }
  destruct (rep_object _ _ _ _ HR Hg) as (hist & HH & [_ _ _ Hc _ Hh]). rewrite HH. destruct hist as [|[v data] rest]; [done|].
  destruct Hc as (-> & Hv & Hn & _). rewrite (node_nonzero s v) by (done || apply HR). by rewrite read_version_ok by (done || apply length_replicate).
Qed.
End laws.
End ObjectLaws.
