(* ===== verification/ObjectProps.v ===== *)
(** * Properties of the object store

    The calls of a client as a step function ([run_op]), what they promise about version histories
    ([ospec]), and the theorems that relate the two over whole runs from a freshly formatted
    disk: refinement of the histories, and the accounting of the spaces. *)

From S2P Require Import SortedVec Prelude Prog Storage BlockDevice Wal BlockEngine BlockStore Recovery StoreProps ObjectStore ObjectLaws.
Import Engine EngineLaws ObjectStore ObjectLaws.

(** ** Calls *)

Inductive op :=
| SpaceCreate (tick now : Z) (name : list Z) (zone : SecurityZone) (quota : SpaceQuota)
| SpaceDelete (id : SpaceId)
| Create (tick now : Z) (space : SpaceId) (name content : list Z) (ct : ContentType)
| Read (id : ObjectId) (n : nat)
| Update (now : Z) (id : ObjectId) (content author message : list Z)
| Rollback (now : Z) (id : ObjectId) (target : ContentHash)
| Delete (id : ObjectId)
| Versions (id : ObjectId).

Inductive out :=
| OSpace (r : result StorageError SpaceId)
| OUnit (r : result StorageError unit)
| OCreated (r : result StorageError (ObjectId * ContentHash))
| ORead (r : result StorageError (list Z))
| OHash (r : result StorageError ContentHash)
| OVersions (r : result StorageError (list Version.t)).

Section calls.
Context {C : Codec} {D : Type} `{BD : BlockDevice D}.
Abbreviation world := ((D * Engine.t) * Ids.t)%type.

Definition call {A} (f : result StorageError A -> out) (m : prog world StorageError A) (x : world) : option (out * world) :=
  match m x with Some (r, x') => Some (f r, x') | None => None end.

(** [None] is a panic. *)
Definition run_op (o : op) (x : world) : option (out * world) :=
  match o with
  | SpaceCreate tick now name zone quota => call OSpace (space_create_in tick now name zone quota) x
  | SpaceDelete id => call OUnit (space_delete_in id) x
  | Create tick now sp name content ct => call OCreated (object_create_in tick now sp name content ct) x
  | Read id n =>
      let '(r, buf) := object_read_in x.1 id (replicate n 0) in
      Some (ORead (match r with Ok (_, k) => Ok (take (Z.to_nat k) buf) | Err e => Err e end), x)
  | Update now id content author message => call OHash (object_update_in now id content author message) x
  | Rollback now id target => call OHash (version_rollback_in now id target) x
  | Delete id => call OUnit (object_delete_in id) x
  | Versions id => Some (OVersions (version_list_in x.1 id), x)
  end.

(** The blocks a call writes when it gets that far. *)
Definition written (x : world) (o : op) : list (list Z) :=
  match o with
  | Create tick now _ _ content _ =>
      [content; Version.bytes (created content (make_id tick (Ids.object_counter x.2)) now)]
  | Update now id content author message =>
      content :: match ObjectIndex.get (object_index x.1.2) id with
                 | Some ob => [Version.bytes (new_version (CompactObject.version_head ob) (sha256 content)
                                 (alen content mod 2 ^ 32) id now author message)]
                 | None => []
                 end
  | Rollback now id target =>
      match ObjectIndex.get (object_index x.1.2) id with
      | Some ob =>
          match find_walk MAX_DEPTH x.1 id target (CompactObject.version_head ob) walk_buf with
          | Ok (Some ver) => [Version.bytes (new_version (CompactObject.version_head ob) (Version.content_hash ver)
                                (Version.content_size ver) id now [] msg_rollback)]
          | _ => []
          end
      | None => []
      end
  | _ => []
  end.

(** The arguments have their Rust types. *)
Definition op_typed (o : op) : Prop :=
  match o with
  | Create _ now _ _ content _ => fits_content content /\ uint 64 now
  | Update now _ content author message =>
      fits_content content /\ uint 64 now /\ Forall is_byte author /\ Forall is_byte message
  | Rollback now _ _ => uint 64 now
  | _ => True
  end.

(** Runs, with the blocks they write taken from [U]. *)
Inductive exec (U : list Z -> Prop) : world -> list (op * out) -> world -> Prop :=
| exec_nil x : exec U x [] x
| exec_snoc x tr y o r z : exec U x tr y -> op_typed o -> Forall U (written y o) ->
    run_op o y = Some (r, z) -> exec U x (tr ++ [(o, r)]) z.
End calls.

(** ** What the store promises *)

Section spec.
Context {C : Codec}.

(** One call on the map of histories. *)
Inductive ospec : gmap ObjectId history -> op -> out -> gmap ObjectId history -> Prop :=
| sp_space H tick now name zone quota r : ospec H (SpaceCreate tick now name zone quota) (OSpace r) H
| sp_space_delete H id r : ospec H (SpaceDelete id) (OUnit r) H
| sp_create H tick now sp name content ct id : H !! id = None ->
    ospec H (Create tick now sp name content ct) (OCreated (Ok (id, sha256 content)))
      (<[id := [(created content id now, content)]]> H)
| sp_create_err H tick now sp name content ct e : ospec H (Create tick now sp name content ct) (OCreated (Err e)) H
| sp_read H id n v data rest : H !! id = Some ((v, data) :: rest) -> (length data <= n)%nat ->
    ospec H (Read id n) (ORead (Ok data)) H
| sp_read_short H id n v data rest r : H !! id = Some ((v, data) :: rest) -> (n < length data)%nat ->
    ospec H (Read id n) (ORead r) H
| sp_read_none H id n : H !! id = None -> ospec H (Read id n) (ORead (Err ObjectNotFound)) H
| sp_update H now id content a m hist : H !! id = Some hist ->
    ospec H (Update now id content a m) (OHash (Ok (sha256 content)))
      (<[id := (updated hist content id now a m, content) :: hist]> H)
| sp_update_err H now id content a m e : (H !! id = None -> e = ObjectNotFound) ->
    ospec H (Update now id content a m) (OHash (Err e)) H
| sp_rollback H now id target hist ver data : H !! id = Some hist ->
    find_version id target (visible hist) = Some (ver, data) ->
    ospec H (Rollback now id target) (OHash (Ok (Version.hash (rolled_back hist ver id now))))
      (<[id := (rolled_back hist ver id now, data) :: hist]> H)
| sp_rollback_err H now id target e : (H !! id = None -> e = ObjectNotFound) ->
    ospec H (Rollback now id target) (OHash (Err e)) H
| sp_delete H id hist : H !! id = Some hist -> ospec H (Delete id) (OUnit (Ok tt)) (delete id H)
| sp_delete_none H id : H !! id = None -> ospec H (Delete id) (OUnit (Err ObjectNotFound)) H
| sp_versions H id hist : H !! id = Some hist -> ospec H (Versions id) (OVersions (Ok (fst <$> visible hist))) H
| sp_versions_none H id : H !! id = None -> ospec H (Versions id) (OVersions (Err ObjectNotFound)) H.

Inductive spec_run : list (op * out) -> gmap ObjectId history -> Prop :=
| srun_nil : spec_run [] ∅
| srun_snoc tr H o r H' : spec_run tr H -> ospec H o r H' -> spec_run (tr ++ [(o, r)]) H'.
End spec.

(** ** Simulation *)

Section simulation.
Context {C : Codec} {CS : CodecSpec} {D : Type} `{BD : BlockDevice D} `{BDS : !BlockDeviceSpec D}.
Context (U : list Z -> Prop) {CF : CollisionFree U}.
Implicit Types (s : D * Engine.t) (i : Ids.t).

Lemma call_inv {A} (f : result StorageError A -> out) (m : prog ((D * Engine.t) * Ids.t) StorageError A) x r y :
  call f m x = Some (r, y) -> exists r0, m x = Some (r0, y) /\ r = f r0.
Proof. unfold call. destruct (m x) as [[r0 y0]|]; [|done]. intros [= <- <-]. by eexists. Qed.

Lemma generate_space_run tick s i : generate_space_id tick (s, i) =
  Some (Ok (make_id tick (Ids.space_counter i)), (s, Ids.mk (Ids.object_counter i) (wrapping_add 64 (Ids.space_counter i) 1))).
Proof. done. Qed.

(** Calls on spaces leave the objects alone. *)
Lemma space_create_rep tick now name zone quota s i r s' i' H : rep U s H ->
  space_create_in tick now name zone quota (s, i) = Some (r, (s', i')) -> rep U s' H.
Proof.
  intros HR. unfold space_create_in.
  rewrite (pbind_Ok _ _ _ _ _ (generate_space_run tick s i)), pbind_engine. destruct (SpaceTable.insert _ _) as [[[]|e] t]; intros [= <- <- <-]; by apply rep_spaces.
Qed.

Lemma space_delete_rep id s i r s' i' H : rep U s H -> space_delete_in id (s, i) = Some (r, (s', i')) -> rep U s' H.
Proof.
  intros HR. unfold space_delete_in. rewrite pbind_engine. destruct (SpaceTable.get _ id) as [sp|]; [|by intros [= <- <- <-]].
  rewrite pbind_some. destruct (_ >? 0); [by intros [= <- <- <-]|]. destruct (SpaceTable.remove _ id) as [[sp'|] t]; intros [= <- <- <-]; by apply rep_spaces.
Qed.

Lemma read_step s H id n : rep U s H -> exists r,
  (let '(r, buf) := object_read_in s id (replicate n 0) in
   match r with Ok (_, k) => Ok (take (Z.to_nat k) buf) | Err e => Err e end) = r /\ ospec H (Read id n) (ORead r) H.
Proof.
  intros HR. eexists. split; [done|]. pose proof (object_read_ok U s H id (replicate n 0) HR) as Hr. rewrite length_replicate in Hr.
  destruct (H !! id) as [[|[v data] rest]|] eqn:E.
  - destruct (ObjectIndex.get (object_index s.2) id) as [o|] eqn:Hg; [by destruct (ob_head _ _ _ _ (rp_obj _ _ _ HR _ _ _ Hg E))|].
    apply (rp_none _ _ _ HR) in Hg. congruence.
  - destruct (decide (length data <= n)%nat) as [Hl|Hl]; [|eapply sp_read_short; [done|lia]].
    destruct (Hr Hl) as (o & _ & ->). assert (Z.to_nat (alen data) = length data) as -> by (unfold alen; lia).
    rewrite take_copy_at_0. by eapply sp_read.
  - rewrite Hr. by apply sp_read_none.
Qed.

Lemma update_step now id content author message s i r s' i' H : rep U s H -> fits_content content -> uint 64 now ->
  Forall is_byte author -> Forall is_byte message -> Forall U (written (s, i) (Update now id content author message)) ->
  object_update_in now id content author message (s, i) = Some (r, (s', i')) ->
  exists H', ospec H (Update now id content author message) (OHash r) H' /\ rep U s' H'.
Proof.
  intros HR Hc Hn Ha Hmsg HU Hm. cbn [written fst snd] in HU. inversion_clear HU as [|? ? HU1 HU2].
  assert (HUv : forall hist, H !! id = Some hist -> U (Version.bytes (updated hist content id now author message))).
  { intros hist HH. destruct (ObjectIndex.get (object_index s.2) id) as [o|] eqn:Hg.
    - inversion_clear HU2 as [|? ? Hb _]. by rewrite (history_head _ _ _ (ob_chain _ _ _ _ (rp_obj _ _ _ HR _ _ _ Hg HH))) in Hb.
    - apply (rp_none _ _ _ HR) in Hg. congruence. }
  destruct (object_update_ok U _ _ _ _ _ _ _ _ _ _ _ HR Hc Hn Ha Hmsg HU1 HUv Hm) as (_ & _ & Hr).
  destruct (H !! id) as [hist|] eqn:HH; [destruct r as [h|e]|].
  + destruct Hr as [-> HR']. eexists. split; [by apply sp_update|done].
  + exists H. split; [by apply sp_update_err; rewrite HH|done].
  + destruct Hr as [-> HR']. exists H. split; [by apply sp_update_err|done].
Qed.

Lemma rollback_step now id target s i r s' i' H : rep U s H -> uint 64 now ->
  Forall U (written (s, i) (Rollback now id target)) -> version_rollback_in now id target (s, i) = Some (r, (s', i')) ->
  exists H', ospec H (Rollback now id target) (OHash r) H' /\ rep U s' H'.
Proof.
  intros HR Ht HU Hm. cbn [written fst snd] in HU.
  assert (HUv : forall hist ver, H !! id = Some hist -> find_version id target (visible hist) = Some ver ->
    U (Version.bytes (rolled_back hist ver.1 id now))).
  { intros hist ver HH Hf. destruct (ObjectIndex.get (object_index s.2) id) as [o|] eqn:Hg.
    - pose proof (rp_obj _ _ _ HR _ _ _ Hg HH) as Hok.
      rewrite (find_walk_ok U _ _ _ _ _ hist) in HU by (apply HR || apply Hok || apply length_replicate). fold (visible hist) in HU. rewrite Hf in HU.
      inversion_clear HU as [|? ? Hb _]. by rewrite (history_head _ _ _ (ob_chain _ _ _ _ Hok)) in Hb.
    - apply (rp_none _ _ _ HR) in Hg. congruence. }
  destruct (version_rollback_ok U _ _ _ _ _ _ _ _ _ HR Ht HUv Hm) as (_ & _ & Hr).
  destruct (H !! id) as [hist|] eqn:HH.
  2: { destruct Hr as [-> HR']. exists H. split; [by apply sp_rollback_err|done]. }
  destruct (find_version id target (visible hist)) as [[ver data]|] eqn:Hf; [destruct r as [h|e]|].
  + destruct Hr as [-> HR']. eexists. split; [by eapply sp_rollback|done].
  + exists H. split; [by apply sp_rollback_err; rewrite HH|done].
  + destruct Hr as [-> HR']. exists H. split; [by apply sp_rollback_err; rewrite HH|done].
Qed.

(** Every call keeps the representation, and its outcome is one the promise allows. *)
Lemma run_op_refines o x r y H : rep U x.1 H -> op_typed o -> Forall U (written x o) -> run_op o x = Some (r, y) ->
  exists H', ospec H o r H' /\ rep U y.1 H'.
Proof.
  destruct x as [s i], y as [s' i']. cbn [fst]. intros HR Ht HU Hrun. destruct o; cbn [run_op op_typed written fst snd] in *.
  - apply call_inv in Hrun as (r0 & Hm & ->). exists H. split; [constructor|by eapply space_create_rep].
  - apply call_inv in Hrun as (r0 & Hm & ->). exists H. split; [constructor|by eapply space_delete_rep].
  - apply call_inv in Hrun as (r0 & Hm & ->). destruct Ht as [Hc Hn]. inversion_clear HU as [|? ? HU1 HU']. inversion_clear HU' as [|? ? HU2 _].
    destruct (object_create_ok U _ _ _ _ _ _ _ _ _ _ _ _ HR Hc Hn HU1 HU2 Hm) as [_ Hr]. destruct r0 as [[id h]|e].
    + destruct Hr as (_ & -> & HN & HR'). eexists. split; [by constructor|done].
    + exists H. split; [constructor|done].
  - destruct (read_step s H id n HR) as (r1 & Hr1 & Hs). destruct (object_read_in s id (replicate n 0)) as [rr buf].
    injection Hrun as <- <- <-. exists H. split; [|done]. by rewrite Hr1.
  - apply call_inv in Hrun as (r0 & Hm & ->). destruct Ht as (Hc & Hn & Ha & Hmsg).
    by eapply update_step.
  - apply call_inv in Hrun as (r0 & Hm & ->).
    by eapply rollback_step.
  - apply call_inv in Hrun as (r0 & Hm & ->). destruct (object_delete_ok U id s H i HR) as (s1 & Hm' & HR').
    rewrite Hm' in Hm. injection Hm as <- <- _. exists (delete id H). split; [|done].
    destruct (H !! id) as [hist|] eqn:HH; [by eapply sp_delete|]. rewrite delete_id by done. by apply sp_delete_none.
  - injection Hrun as <- <- <-. exists H. split; [|done]. rewrite (version_list_ok U s H id HR).
    destruct (H !! id) as [hist|] eqn:HH; by constructor.
Qed.

Lemma formatted_rep d tick : DATA_START_SECTOR <= capacity_sectors d <= 2 ^ 54 ->
  rep U (d, Durable.formatted tick (capacity_sectors d)) ∅.
Proof.
  intros Hd. split.
  - split; [by apply fresh_store_inv|]. intros h data (loc & Hix & _). done.
  - intros a b ea eb _. by destruct a.
  - intros id. by rewrite lookup_empty.
  - intros id o hist _. by rewrite lookup_empty.
  - intros h. done.
Qed.

(** Whole runs. *)
Lemma exec_refines d tick tr x : DATA_START_SECTOR <= capacity_sectors d <= 2 ^ 54 ->
  exec U ((d, Durable.formatted tick (capacity_sectors d)), Ids.boot) tr x -> exists H, spec_run tr H /\ rep U x.1 H.
Proof.
  intros Hd Hrun. remember ((d, Durable.formatted tick (capacity_sectors d)), Ids.boot) as x0 eqn:E. revert E.
  induction Hrun as [y|y tr z o r x Hrun IH Ht HU Hstep]; intros ->.
  - exists ∅. split; [constructor|by apply formatted_rep].
  - destruct (IH eq_refl) as (H & Hs & HR). destruct (run_op_refines o z r x H HR Ht HU Hstep) as (H' & Ho & HR').
    exists H'. split; [by eapply srun_snoc|done].
Qed.
End simulation.

(** ** A run *)

Module Demo.
Import DemoCodec.
Abbreviation demo_world := ((RamDisk.t * Engine.t) * Ids.t)%type.

Definition step_of (o : op) (x : demo_world) : out * demo_world := default (OUnit (Ok tt), x) (run_op o x).
Definition runs (o : op) (x : demo_world) : bool := match run_op o x with Some _ => true | None => false end.

Lemma runs_step o x : runs o x = true -> run_op o x = Some ((step_of o x).1, (step_of o x).2).
Proof. unfold runs, step_of. by destruct (run_op o x) as [[]|]. Qed.

Definition x0 : demo_world := ((blank_disk, Durable.formatted 5 (capacity_sectors blank_disk)), Ids.boot).
Definition sp : SpaceId := make_id 7 1.
Definition obj : ObjectId := make_id 8 1.
Definition o1 : op := SpaceCreate 7 7 [115] Personal quota_UNLIMITED.
Definition x1 := (step_of o1 x0).2.
Definition o2 : op := Create 8 8 sp [102] [104; 105] Text.
Definition x2 := (step_of o2 x1).2.
Definition o3 : op := Update 9 obj [98; 121; 101] [97] [109].
Definition x3 := (step_of o3 x2).2.
Definition o4 : op := Read obj 10.
Definition x4 := (step_of o4 x3).2.

(** A later update, by the POSIX bridge. *)
Definition o5 : op := Update 10 obj [98; 121; 104; 105] [112; 111; 115; 105; 120] [119; 114; 105; 116; 101].

Definition blocks : list (list Z) := written x1 o2 ++ written x2 o3 ++ written x4 o5.
Definition in_blocks (b : list Z) : Prop := b ∈ blocks.

Lemma blocks_hashes : bool_decide (NoDup (hash_ZERO :: (DemoCodec.hash <$> blocks))) = true.
Proof. vm_compute. reflexivity. Qed.

Lemma all_run : (runs o1 x0 && runs o2 x1 && runs o3 x2 && runs o4 x3) = true.
Proof. vm_compute. reflexivity. Qed.

Lemma demo_outputs : (step_of o4 x3).1 = ORead (Ok [98; 121; 101]).
Proof. vm_compute. reflexivity. Qed.

Lemma blocks_free : CollisionFree in_blocks.
Proof.
  pose proof (bool_decide_eq_true_1 _ blocks_hashes) as [Hz Hnd]%NoDup_cons. split.
  - intros a b Ha Hb Hab. apply list_elem_of_lookup in Ha as [i Hi], Hb as [j Hj].
    assert (i = j) as <-; [|congruence]. eapply NoDup_lookup; [exact Hnd| |]; rewrite list_lookup_fmap; [by rewrite Hi|].
    rewrite Hj. cbn. by f_equal.
  - intros a Ha Hh. apply Hz. rewrite <-Hh. by apply list_elem_of_fmap_2.
Qed.

Lemma exec_step U x tr y o : exec U x tr y -> op_typed o -> Forall U (written y o) -> runs o y = true ->
  exec U x (tr ++ [(o, (step_of o y).1)]) (step_of o y).2.
Proof. intros. eapply exec_snoc; [done..|]. by apply runs_step. Qed.

Lemma small_bytes l : forallb (fun x => (0 <=? x) && (x <? 256)) l = true -> fits_content l \/ 2 ^ 32 <= alen l.
Proof.
  intros Hf. destruct (Z.lt_ge_cases (alen l) (2 ^ 32)); [left; split; [|done]|by right].
  apply Forall_forall. intros x Hx. eapply forallb_forall in Hf; [|by apply list_elem_of_In]. unfold is_byte. lia.
Qed.

Definition trace : list (op * out) :=
  ((([] ++ [(o1, (step_of o1 x0).1)]) ++ [(o2, (step_of o2 x1).1)]) ++ [(o3, (step_of o3 x2).1)]) ++ [(o4, (step_of o4 x3).1)].

Lemma demo_exec : exec in_blocks x0 trace x4.
Proof.
  pose proof all_run as Hr. apply andb_prop in Hr as [Hr H4]. apply andb_prop in Hr as [Hr H3]. apply andb_prop in Hr as [H1 H2].
  assert (E1 : exec in_blocks x0 ([] ++ [(o1, (step_of o1 x0).1)]) x1) by (unfold x1; apply exec_step; [constructor|exact I|constructor|exact H1]).
  assert (E2 : exec in_blocks x0 (([] ++ [(o1, (step_of o1 x0).1)]) ++ [(o2, (step_of o2 x1).1)]) x2).
  { unfold x2. apply exec_step; [exact E1| | |exact H2].
    - split; [|unfold uint; lia]. destruct (small_bytes [104; 105] eq_refl) as [?|Hl]; [done|unfold alen in Hl; cbn in Hl; lia].
    - apply Forall_forall. intros b Hin. apply elem_of_app. by left. }
  unfold x4. apply exec_step; [|exact I|constructor|exact H4]. unfold x3. apply exec_step; [exact E2| | |exact H3].
  - split_and!; [|unfold uint; lia|..].
    + destruct (small_bytes [98; 121; 101] eq_refl) as [?|Hl]; [done|unfold alen in Hl; cbn in Hl; lia].
    + repeat constructor; unfold is_byte; lia.
    + repeat constructor; unfold is_byte; lia.
  - apply Forall_forall. intros b Hin. unfold in_blocks, blocks. rewrite !elem_of_app. by right; left.
Qed.
End Demo.

(** ** Properties *)

(** C29: on any device, with any I/O failures, every run of the object, version and space
    calls from a freshly formatted disk behaves like a map from object ids to version
    histories: a create adds a history, an update or a rollback pushes a version, a
    delete removes exactly that object's history, reads return the newest content and
    version lists the newest 1024 versions, and a failed call changes nothing, also
    when it had already written or shared blocks.  Blocks shared by deduplication are
    never freed while a history uses them. *)
Theorem object_store_refines (C : Codec) (CS : CodecSpec) (D : Type) (BD : BlockDevice D) (BDS : BlockDeviceSpec D)
    (U : list Z -> Prop) (CF : CollisionFree U) (d : D) (tick : Z) (tr : list (op * out)) (x : (D * Engine.t) * Ids.t) :
  DATA_START_SECTOR <= capacity_sectors d <= 2 ^ 54 ->
  exec U ((d, Durable.formatted tick (capacity_sectors d)), Ids.boot) tr x ->
  exists H, spec_run tr H /\ rep U x.1 H.
Proof.
  intros Hd Hrun. by eapply exec_refines.
Qed.

Lemma object_store_refines_witness : exists H, spec_run Demo.trace H /\ rep Demo.in_blocks Demo.x4.1 H.
Proof.
  apply (object_store_refines _ _ _ _ _ Demo.in_blocks Demo.blocks_free blank_disk 5 Demo.trace Demo.x4); [|exact Demo.demo_exec].
  vm_compute. split; congruence.
Defined.
