(* ===== verification/SpaceLaws.v ===== *)
(** * The accounting of spaces

    Theorems about the space side of ObjectStore.v: in every run the object count of a space
    is the number of its objects, every object has its space, and no two spaces share an id
    ([accounts]); but the byte count does not follow updates ([update_skips_quota]). *)

From S2P Require Import SortedVec Prelude Prog Storage BlockDevice Wal BlockEngine BlockStore Recovery StoreProps ObjectStore ObjectLaws ObjectProps.
Import Engine EngineLaws ObjectStore ObjectLaws.
Open Scope prog_scope.

Section spaces.
Implicit Types (x : SpaceTable.t) (sp : Space.t) (k : SpaceId).

Abbreviation ids_of x := (Space.id <$> occupied x).

Lemma st_slot x k i : SpaceTable.slot_of x k = Some i -> exists sp, x !! i = Some (Some sp) /\ Space.id sp = k.
Proof.
  unfold SpaceTable.slot_of. destruct (list_find _ x) as [[j o]|] eqn:E; [|done]. intros [= <-].
  apply list_find_Some in E as (Hj & Ho & _). destruct o as [sp|]; [|done]. injection Ho as Ho. by exists sp.
Qed.

Lemma st_slot_None x k : SpaceTable.slot_of x k = None -> k ∉ ids_of x.
Proof.
  unfold SpaceTable.slot_of. destruct (list_find _ x) as [[j o]|] eqn:E; [done|]. intros _ (sp & -> & Hin)%list_elem_of_fmap.
  apply list_find_None in E. apply elem_of_occupied in Hin as [i Hi]. rewrite Forall_forall in E.
  apply (E (Some sp)); [by eapply list_elem_of_lookup_2|done].
Qed.

Lemma st_get x k sp : SpaceTable.get x k = Some sp -> sp ∈ occupied x /\ Space.id sp = k.
Proof.
  unfold SpaceTable.get. destruct (list_find _ _) as [[j s]|] eqn:E; [|done]. intros [= ->].
  apply list_find_Some in E as (Hj & Hk & _). split; [by eapply list_elem_of_lookup_2|done].
Qed.

Lemma st_get_mut x k : k ∈ ids_of x -> exists sp put rest, SpaceTable.get_mut x k = Some (sp, put) /\ Space.id sp = k /\
  occupied x ≡ₚ sp :: rest /\ forall sp', occupied (put sp') ≡ₚ sp' :: rest.
Proof.
  intros Hk. unfold SpaceTable.get_mut. destruct (SpaceTable.slot_of x k) as [i|] eqn:Hs; [|by apply st_slot_None in Hs].
  destruct (st_slot _ _ _ Hs) as (sp & Hi & Hid). unfold SpaceTable.t in *. cbn [mbind option_bind]. rewrite Hi. cbn [option_bind].
  destruct (occupied_insert_Some x i sp sp Hi) as (rest & H1 & _ & Hr). eexists sp, _, rest. split_and!; [done..|].
  intros sp'. destruct (occupied_insert_Some x i sp sp' Hi) as (rest' & _ & H2 & Hr'). rewrite H2. by rewrite <-Hr', Hr.
Qed.

Lemma st_insert x sp r x' : SpaceTable.insert x sp = (r, x') ->
  (r = Ok tt /\ occupied x' ≡ₚ sp :: occupied x) \/ (exists e, r = Err e /\ x' = x).
Proof.
  unfold SpaceTable.insert. destruct (first_none x) as [i|] eqn:E; intros [= <- <-]; [left|right; by eexists]. split; [done|].
  apply first_none_Some in E as [Hi _].
  unfold SpaceTable.t in *. rewrite occupied_insert_None, (occupied_split x i) by done. by rewrite Permutation_middle.
Qed.

Lemma st_remove x k r x' : SpaceTable.remove x k = (r, x') ->
  (exists sp, r = Some sp /\ Space.id sp = k /\ occupied x ≡ₚ sp :: occupied x') \/ (r = None /\ x' = x).
Proof.
  unfold SpaceTable.remove. destruct (SpaceTable.slot_of x k) as [i|] eqn:Hs; intros [= <- <-]; [left|by right].
  destruct (st_slot _ _ _ Hs) as (sp & Hi & Hid). exists sp. unfold SpaceTable.t in *. rewrite Hi. split_and!; [done..|].
  destruct (occupied_insert_Some x i sp sp Hi) as (rest & H1 & _ & ->). done.
Qed.
End spaces.

(** ** Members of a space *)

Section members.
Implicit Types x : ObjectIndex.t.

Definition home (e : ObjectIndex.entry) : SpaceId := CompactObject.space_id (ObjectIndex.object e).
Definition members x (k : SpaceId) : Z := alen (ObjectIndex.list_by_space x k).

Lemma members_perm x y k : x ≡ₚ y -> members x k = members y k.
Proof. intros Hp. unfold members, alen, ObjectIndex.list_by_space, ObjectIndex.t in *. by rewrite Hp. Qed.

Lemma members_cons e x k : members (e :: x) k = (if decide (home e = k) then 1 else 0) + members x k.
Proof.
  unfold members, alen, ObjectIndex.list_by_space, ObjectIndex.t in *. rewrite filter_cons. unfold home. case_decide; cbn [fmap list_fmap length]; lia.
Qed.

Lemma members_zero x k : members x k = 0 <-> forall e, e ∈ x -> home e <> k.
Proof.
  induction x as [|e x IH]; [split; [by intros _ e ?%not_elem_of_nil|done]|]. rewrite members_cons.
  assert (0 <= members x k) by (unfold members; apply alen_nonneg). split.
  - case_decide; [lia|]. intros Hz e' [->|Hin]%elem_of_cons; [done|]. apply IH; [lia|done].
  - intros He. rewrite decide_False by (apply He; by left). rewrite Z.add_0_l. apply IH. intros e' Hin. apply He. by right.
Qed.

Lemma members_home e x : e ∈ x -> 1 <= members x (home e).
Proof.
  intros Hin. pose proof (alen_nonneg (ObjectIndex.list_by_space x (home e))) as Hn. fold (members x (home e)) in Hn.
  destruct (decide (members x (home e) = 0)) as [Hz|]; [|lia]. by destruct (proj1 (members_zero x (home e)) Hz e Hin).
Qed.

Lemma index_insert_perm x o x' : ObjectIndex.insert x o = (Ok tt, x') -> x' ≡ₚ ObjectIndex.mk_entry (CompactObject.id o) o :: x.
Proof.
  unfold ObjectIndex.insert. destruct (_ >=? _); [done|]. destruct (ObjectIndex.binary_search _ _) as [i|i]; [done|].
  intros [= <-]. unfold vec_insert. by rewrite <-Permutation_middle, take_drop.
Qed.

Lemma index_remove_perm x k o x' : ObjectIndex.remove x k = (Some o, x') -> exists e, x ≡ₚ e :: x' /\ ObjectIndex.object e = o.
Proof.
  unfold ObjectIndex.remove. destruct (ObjectIndex.binary_search _ _) as [i|i]; [|done]. unfold ObjectIndex.t in *.
  destruct (x !! i) as [e|] eqn:Hi; [|done]. intros [= <- <-]. exists e. split; [by apply delete_Permutation|done].
Qed.

Lemma index_insert_err x o e x' : ObjectIndex.insert x o = (Err e, x') -> x' = x.
Proof. unfold ObjectIndex.insert. destruct (_ >=? _); [congruence|]. destruct (ObjectIndex.binary_search _ _); congruence. Qed.

Lemma index_remove_none x k x' : ObjectIndex.remove x k = (None, x') -> x' = x.
Proof.
  unfold ObjectIndex.remove. destruct (ObjectIndex.binary_search _ _) as [i|i]; [|congruence]. unfold ObjectIndex.t in *.
  destruct (x !! i) eqn:Hi; [done|]. intros [= <-]. revert i Hi. induction x as [|e x IH]; intros [|i]; cbn; try done.
  intros Hi. f_equal. by apply IH.
Qed.

Lemma index_update_perm x k o put o' : ObjectIndex.get_mut x k = Some (o, put) -> exists e e' rest,
  x ≡ₚ e :: rest /\ put o' ≡ₚ e' :: rest /\ ObjectIndex.object e = o /\ ObjectIndex.object e' = o'.
Proof.
  unfold ObjectIndex.get_mut. destruct (ObjectIndex.binary_search _ _) as [i|i]; [|done]. unfold ObjectIndex.t in *.
  destruct (x !! i) as [e|] eqn:Hi; [|done]. intros [= <- <-].
  exists e, (ObjectIndex.mk_entry (ObjectIndex.id e) o'), (take i x ++ drop (S i) x). split_and!; [| |done..].
  - by rewrite Permutation_middle, take_drop_middle.
  - by rewrite insert_take_drop, Permutation_middle by (by eapply lookup_lt_Some).
Qed.
End members.

(** ** The engine does not touch the tables *)

Section tables.
Context {C : Codec} {D : Type} `{BD : BlockDevice D}.
Implicit Types s : D * Engine.t.

Definition same_tables (oi : ObjectIndex.t) (st : SpaceTable.t) s : Prop := object_index s.2 = oi /\ space_table s.2 = st.

Lemma tables_modify oi st f : (forall e, object_index (f e) = object_index e /\ space_table (f e) = space_table e) ->
  keeps (same_tables oi st) (modify f).
Proof. intros Hf s r s' [H1 H2] [= _ <-]. destruct (Hf s.2). split; cbn [snd]; congruence. Qed.

Lemma tables_on_wal {A} oi st (m : prog (D * Wal.t) StorageError A) : keeps (same_tables oi st) (on_wal m).
Proof. intros s r s' [H1 H2]. unfold on_wal, zoom. destruct (m _) as [[r0 y]|]; [|done]. by intros [= _ <-]. Qed.

Lemma tables_put oi st x b : keeps (same_tables oi st) (put_sector x b).
Proof. intros s r s' [H1 H2]. unfold put_sector. rewrite pbind_get. destruct (write_sector s.1 x b) as [r0 d]. by intros [= _ <-]. Qed.

Lemma tables_chunks oi st n x b : keeps (same_tables oi st) (write_chunks n x b).
Proof. revert x b. induction n as [|n IH]; intros x b; cbn [write_chunks]; keeps; [apply tables_put|apply IH]. Qed.

Lemma tables_data oi st n x b : keeps (same_tables oi st) (write_data_loop n x b).
Proof.
  revert x b. induction n as [|n IH]; intros x b; cbn [write_data_loop]; keeps; [apply tables_put|apply IH].
Qed.

Lemma tables_flush oi st : keeps (same_tables oi st) flush_superblock.
Proof. unfold flush_superblock. keeps; [by apply tables_modify|apply tables_chunks]. Qed.

Lemma tables_seal oi st env n : keeps (same_tables oi st) (seal_envelope env n).
Proof. unfold seal_envelope. keeps; [by apply tables_modify|apply tables_flush]. Qed.

Lemma tables_write oi st data : keeps (same_tables oi st) (write_block data).
Proof.
  unfold write_block. keeps; first [by apply tables_modify|apply tables_on_wal|apply tables_seal|apply tables_data].
Qed.

Lemma tables_inc oi st h : keeps (same_tables oi st) (inc_ref h).
Proof. unfold inc_ref. keeps. by apply tables_modify. Qed.

Lemma tables_dec oi st h : keeps (same_tables oi st) (dec_ref h).
Proof. unfold dec_ref. keeps. by apply tables_modify. Qed.

(** ** Programs of the object store *)

Abbreviation world := ((D * Engine.t) * Ids.t)%type.

(** The tables and the space counter. *)
Definition fixed (oi : ObjectIndex.t) (st : SpaceTable.t) (n : Z) (x : world) : Prop :=
  same_tables oi st x.1 /\ Ids.space_counter x.2 = n.

Lemma fixed_eng {A} oi st n (m : prog (D * Engine.t) StorageError A) : keeps (same_tables oi st) m -> keeps (fixed oi st n) (eng m).
Proof.
  intros Hm x r x' [H1 H2]. unfold eng, zoom. destruct (m x.1) as [[r0 y]|] eqn:E; [|done]. intros [= _ <-].
  split; [by eapply Hm|done].
Qed.

Lemma fixed_version oi st n v : keeps (fixed oi st n) (write_version v).
Proof. unfold write_version. keeps. apply fixed_eng, tables_write. Qed.

Lemma fixed_walk oi st n depth h buf : keeps (fixed oi st n) (delete_walk depth h buf).
Proof.
  revert h buf. induction depth as [|depth IH]; intros h buf; cbn [delete_walk]; keeps; first [apply fixed_eng, tables_dec|apply IH].
Qed.

Lemma walk_succeeds depth h buf (x : world) e y : delete_walk depth h buf x <> Some (Err e, y).
Proof.
  revert h buf x. induction depth as [|depth IH]; intros h buf x; cbn [delete_walk]; [done|]. destruct (hash_is_zero h); [done|].
  rewrite pbind_get. destruct (read_version x.1 h buf) as [[[v|]|e'] b]; [|done..]. unfold pbind at 1.
  destruct (pcatch _ x) as [[[a|e1] z]|] eqn:E1; [| |done].
  - unfold pbind at 1. destruct (pcatch _ z) as [[[a2|e2] z2]|] eqn:E2; [apply IH| |done].
    revert E2. unfold pcatch. by destruct (eng _ z) as [[]|].
  - revert E1. unfold pcatch. by destruct (eng _ x) as [[]|].
Qed.

Lemma fixed_generate oi st n tick : keeps (fixed oi st n) (generate_object_id tick).
Proof. intros x r x' [H1 H2] [= _ <-]. by split. Qed.

(** ** Accounts *)

Record accounts (oi : ObjectIndex.t) (st : SpaceTable.t) (n : Z) : Prop := {
  ac_nodup : NoDup (Space.id <$> occupied st);
  ac_count sp : sp ∈ occupied st -> Space.object_count sp = members oi (Space.id sp);
  ac_home e : e ∈ oi -> home e ∈ Space.id <$> occupied st;
  ac_ids sp : sp ∈ occupied st -> exists t m, Space.id sp = make_id t m /\ 0 <= m < n
}.

Definition world_ok (x : world) : Prop := accounts (object_index x.1.2) (space_table x.1.2) (Ids.space_counter x.2).

Lemma fixed_self (x : world) : fixed (object_index x.1.2) (space_table x.1.2) (Ids.space_counter x.2) x.
Proof. by split. Qed.

Lemma fixed_ok oi st n (x : world) : fixed oi st n x -> accounts oi st n -> world_ok x.
Proof. unfold world_ok. by intros [[-> ->] ->]. Qed.

(** Replacing one space by another with the same id. *)
Lemma accounts_recount oi oi' st st' n sp sp' rest : accounts oi st n -> occupied st ≡ₚ sp :: rest -> occupied st' ≡ₚ sp' :: rest ->
  Space.id sp' = Space.id sp -> Space.object_count sp' = members oi' (Space.id sp) ->
  (forall k, k <> Space.id sp -> members oi' k = members oi k) ->
  (forall e, e ∈ oi' -> home e = Space.id sp \/ exists e', e' ∈ oi /\ home e' = home e) -> accounts oi' st' n.
Proof.
  intros [Hnd Hc Hh Hi] Hp Hp' Hid Hcnt Hother Hhome. assert (Hids : Space.id <$> occupied st' ≡ₚ Space.id <$> occupied st).
  { rewrite Hp, Hp'. cbn. by rewrite Hid. }
  split.
  - by rewrite Hids.
  - intros w2 Hin. rewrite Hp' in Hin. apply elem_of_cons in Hin as [->|Hin]; [by rewrite Hid|].
    rewrite Hother; [apply Hc; rewrite Hp; by right|]. intros E. rewrite Hp in Hnd. cbn in Hnd. apply NoDup_cons in Hnd as [Hn _].
    apply Hn. rewrite <-E. by apply list_elem_of_fmap_2.
  - intros e He. rewrite Hids. destruct (Hhome e He) as [->|(e' & He' & <-)]; [|by apply Hh].
    rewrite Hp. cbn. by left.
  - intros w2 Hin. rewrite Hp' in Hin. apply elem_of_cons in Hin as [->|Hin]; [rewrite Hid|]; apply Hi; rewrite Hp; [by left|by right].
Qed.

(** A new entry, then the charge to its space. *)
Lemma charge_accounts oi st n e oi' k bytes (x : world) r y : accounts oi st n -> k ∈ Space.id <$> occupied st -> home e = k ->
  oi' ≡ₚ e :: oi -> fixed oi' st n x -> charge_space k bytes x = Some (r, y) -> world_ok y.
Proof.
  intros Ha Hk He Hp [[Ho Hs] Hn]. destruct x as [s i]. cbn [fst snd] in *. unfold charge_space. rewrite pbind_engine, Hs.
  destruct (st_get_mut st k Hk) as (sp & put & rest & -> & Hid & Hp1 & Hp2).
  intros (c & [-> _]%checked_add_Some & Hrun)%pbind_checked_inv. apply pbind_checked_inv in Hrun as (sz & _ & [= _ <-]).
  unfold world_ok. cbn [fst snd put_spaces object_index space_table set_space_table]. rewrite Ho, Hn.
  eapply (accounts_recount oi oi' st); [done|done|apply Hp2|done| | |].
  - cbn [Space.object_count Space.set_usage]. rewrite (ac_count _ _ _ Ha sp) by (rewrite Hp1; by left).
    rewrite (members_perm _ _ _ Hp), members_cons, Hid, decide_True by done. lia.
  - intros j Hj. rewrite (members_perm _ _ _ Hp), members_cons, decide_False by congruence. lia.
  - intros e' Hin. rewrite Hp in Hin. apply elem_of_cons in Hin as [->|Hin]; [left; congruence|right; by exists e'].
Qed.

(** An entry removed, then the release of its space. *)
Lemma release_accounts oi st n e oi' bytes (x : world) r y : accounts oi st n -> oi ≡ₚ e :: oi' ->
  fixed oi' st n x -> release_space (home e) bytes x = Some (r, y) -> world_ok y.
Proof.
  intros Ha Hp [[Ho Hs] Hn]. destruct x as [s i]. cbn [fst snd] in *. unfold release_space. rewrite pbind_engine, Hs.
  assert (Hin : e ∈ oi) by (rewrite Hp; by left).
  destruct (st_get_mut st (home e) (ac_home _ _ _ Ha e Hin)) as (sp & put & rest & -> & Hid & Hp1 & Hp2). intros [= _ <-].
  unfold world_ok. cbn [fst snd put_spaces object_index space_table set_space_table]. rewrite Ho, Hn.
  eapply (accounts_recount oi oi' st); [done|done|apply Hp2|done| | |].
  - cbn [Space.object_count Space.set_usage]. rewrite (ac_count _ _ _ Ha sp) by (rewrite Hp1; by left).
    pose proof (members_home e oi Hin). rewrite Hid, (members_perm _ _ _ Hp), members_cons, decide_True in * by done.
    unfold saturating_sub. lia.
  - intros j Hj. rewrite (members_perm _ _ _ Hp), members_cons, decide_False by congruence. lia.
  - intros e' He'. right. exists e'. split; [rewrite Hp; by right|done].
Qed.

(** An entry replaced by one in the same space. *)
Lemma update_accounts oi st n id hash size head now (x : world) r y : accounts oi st n -> fixed oi st n x ->
  update_object id hash size head now x = Some (r, y) -> world_ok y.
Proof.
  intros Ha Hf. pose proof Hf as [[Ho Hs] Hn]. destruct x as [s i]. cbn [fst snd] in *. unfold update_object. rewrite pbind_engine, Ho.
  destruct (ObjectIndex.get_mut oi id) as [[o put]|] eqn:Hg; [|intros [= _ <-]; by eapply fixed_ok].
  rewrite pbind_some. intros [= _ <-]. unfold world_ok. cbn [fst snd object_index space_table set_object_index]. rewrite Hs, Hn.
  destruct (index_update_perm oi id o put (set_content o hash size head now) Hg) as (e & e' & rest & H1 & H2 & Ho1 & Ho2).
  assert (Hhe : home e' = home e) by (unfold home; by rewrite Ho1, Ho2). destruct Ha as [Hnd Hc Hh Hi]. split; [done| | |done].
  - intros sp Hin. rewrite (Hc sp Hin), (members_perm _ _ _ H1), (members_perm _ _ _ H2), !members_cons. by rewrite Hhe.
  - intros e2 Hin. cbn [fst snd] in Hin. rewrite H2 in Hin. apply elem_of_cons in Hin as [->|Hin]; [rewrite Hhe|]; apply Hh; rewrite H1; [by left|by right].
Qed.

(** ** The calls *)

(** The call before the tables change, and what it may be followed by. *)
Lemma fixed_bind {A B} oi st n (m : prog world StorageError A) (f : A -> prog world StorageError B) (x : world) r y :
  accounts oi st n -> keeps (fixed oi st n) m -> fixed oi st n x ->
  (forall a z, m x = Some (Ok a, z) -> fixed oi st n z -> f a z = Some (r, y) -> world_ok y) ->
  pbind m f x = Some (r, y) -> world_ok y.
Proof.
  intros Ha Hk Hx Hf Hrun. prog_inv Hrun; [eapply fixed_ok; [by eapply Hk|done]|]. eapply Hf; [done|by eapply Hk|done].
Qed.

Lemma create_accounts tick now k name content ct (x : world) r y : world_ok x ->
  object_create_in tick now k name content ct x = Some (r, y) -> world_ok y.
Proof.
  intros Ha. pose proof (fixed_self x) as Hx. unfold world_ok in Ha. destruct x as [s i]. unfold object_create_in. rewrite pbind_engine.
  destruct (SpaceTable.get _ k) as [space|] eqn:Hg; [|by intros [= _ <-]]. destruct (Space.would_exceed_quota _ _); [by intros [= _ <-]|].
  apply st_get in Hg as [Hin Hid]. assert (Hk : k ∈ Space.id <$> occupied (space_table s.2)) by (rewrite <-Hid; by apply list_elem_of_fmap_2).
  eapply fixed_bind; [done|apply fixed_eng, tables_write|done|]. intros w x1 _ Hx1.
  eapply fixed_bind; [done|apply fixed_generate|done|]. intros id x2 _ Hx2. cbv zeta.
  eapply fixed_bind; [done|apply fixed_version|done|]. intros h x3 _ Hx3. destruct x3 as [s3 i3]. rewrite pbind_engine.
  set (o := set_head _ _). pose proof Hx3 as [[Ho Hs] Hn]. cbn [fst snd] in Ho, Hs, Hn. rewrite Ho.
  destruct (ObjectIndex.insert _ o) as [[[]|e] oi'] eqn:Hins; rewrite (pbind_Ok _ _ _ _ _ (put_index_run oi' s3 i3)).
  2: { intros [= _ <-]. apply index_insert_err in Hins as ->. eapply fixed_ok; [|exact Ha]. by split. }
  change (pbind (plift (Ok tt)) ?f ?z) with (f tt z). cbv beta. intros Hrun.
  set (e := ObjectIndex.mk_entry (CompactObject.id o) o). assert (He : home e = k).
  { unfold home, e, o. cbn [ObjectIndex.object CompactObject.space_id set_head]. apply new_object_fields. }
  assert (Hx4 : fixed oi' (space_table s.2) (Ids.space_counter i) ((s3.1, set_object_index s3.2 oi'), i3)) by done.
  prog_inv Hrun; [by eapply charge_accounts; [..|apply index_insert_perm|exact Hx4|]|].
  injection Hk0 as _ <-. by eapply charge_accounts; [..|apply index_insert_perm|exact Hx4|].
Qed.

Lemma delete_accounts id (x : world) r y : world_ok x -> object_delete_in id x = Some (r, y) -> world_ok y.
Proof.
  intros Ha. destruct x as [s i]. unfold world_ok in Ha. cbn [fst snd] in Ha. unfold object_delete_in. rewrite pbind_engine.
  destruct (ObjectIndex.remove _ id) as [[o|] oi'] eqn:Hr; rewrite (pbind_Ok _ _ _ _ _ (put_index_run oi' s i)).
  2: { intros [= _ <-]. by apply index_remove_none in Hr as ->. }
  rewrite pbind_some. destruct (index_remove_perm _ _ _ _ Hr) as (e & Hp & <-). intros Hrun.
  assert (Hx : fixed oi' (space_table s.2) (Ids.space_counter i) ((s.1, set_object_index s.2 oi'), i)) by done.
  prog_inv Hrun.
  - by apply walk_succeeds in Hm.
  - eapply release_accounts; [done|exact Hp| |exact Hk]. by eapply fixed_walk.
Qed.

Lemma updates_accounts now id content a m (x : world) r y : world_ok x ->
  object_update_in now id content a m x = Some (r, y) -> world_ok y.
Proof.
  intros Ha. pose proof (fixed_self x) as Hx. unfold world_ok in Ha. destruct x as [s i]. unfold object_update_in. rewrite pbind_engine.
  destruct (ObjectIndex.get _ id) as [o|]; [|by intros [= _ <-]]. rewrite pbind_some.
  eapply fixed_bind; [done|apply fixed_eng, tables_write|done|]. intros w x1 _ Hx1. cbv zeta.
  eapply fixed_bind; [done|apply fixed_version|done|]. intros h x2 _ Hx2 Hrun.
  prog_inv Hrun; [by eapply update_accounts|]. injection Hk as _ <-. by eapply update_accounts.
Qed.

Lemma rollback_accounts now id target (x : world) r y : world_ok x ->
  version_rollback_in now id target x = Some (r, y) -> world_ok y.
Proof.
  intros Ha. pose proof (fixed_self x) as Hx. unfold world_ok in Ha. unfold version_rollback_in. rewrite pbind_get.
  destruct (ObjectIndex.get _ id) as [o|]; [|by intros [= _ <-]]. rewrite pbind_some.
  destruct (find_walk _ _ _ _ _ _) as [[ver|]|e]; [|by intros [= _ <-]..].
  change (pbind (plift (Ok (Some ver))) ?f x) with (f (Some ver) x). cbv beta. rewrite pbind_some. cbv zeta.
  eapply fixed_bind; [done|apply fixed_version|done|]. intros h x2 _ Hx2.
  eapply fixed_bind; [done|apply fixed_eng, tables_inc|done|]. intros u x3 _ Hx3 Hrun.
  prog_inv Hrun; [by eapply update_accounts|]. injection Hk as _ <-. by eapply update_accounts.
Qed.

Lemma make_id_inj t m t' m' : 0 <= m < 2 ^ 64 -> 0 <= m' < 2 ^ 64 -> make_id t m = make_id t' m' -> m = m'.
Proof.
  intros Hm Hm' E. unfold make_id in E. apply app_inj_1 in E as [_ E]; [|by rewrite !length_le_bytes].
  rewrite <-(le_val_small 8 m), <-(le_val_small 8 m'), E by (cbn; lia). done.
Qed.

Lemma space_create_accounts tick now name zone quota (x : world) r y : world_ok x ->
  1 <= Ids.space_counter x.2 < 2 ^ 64 - 1 -> space_create_in tick now name zone quota x = Some (r, y) -> world_ok y.
Proof.
  intros Ha Hc. destruct x as [s i]. unfold world_ok in Ha. cbn [fst snd] in *. unfold space_create_in.
  rewrite (pbind_Ok _ _ _ _ _ (generate_space_run tick s i)), pbind_engine.
  set (n := Ids.space_counter i) in *. set (sp := new_space _ _ _ _ _). set (i' := Ids.mk _ _).
  assert (Hn : Ids.space_counter i' = n + 1) by (unfold i', wrapping_add, wrap; cbn [Ids.space_counter]; rewrite Z.mod_small; lia).
  destruct Ha as [Hnd Hcnt Hh Hi].
  assert (Hfresh : forall w2, w2 ∈ occupied (space_table s.2) -> Space.id w2 <> make_id tick n).
  { intros w2 Hin E. destruct (Hi w2 Hin) as (t & m & E2 & Hm). rewrite E2 in E. apply make_id_inj in E; lia. }
  assert (Hni : make_id tick n ∉ Space.id <$> occupied (space_table s.2)).
  { intros (w2 & E & Hin)%list_elem_of_fmap. by eapply Hfresh. }
  assert (Hmono : forall w2, w2 ∈ occupied (space_table s.2) -> exists t m, Space.id w2 = make_id t m /\ 0 <= m < n + 1).
  { intros w2 Hin. destruct (Hi w2 Hin) as (t & m & ? & ?). exists t, m. split; [done|lia]. }
  assert (Hid : Space.id sp = make_id tick n) by done.
  destruct (SpaceTable.insert (space_table s.2) sp) as [rr tbl] eqn:Hins.
  destruct (st_insert _ _ _ _ Hins) as [[-> Hp]|(e & -> & ->)]; intros [= _ <-]; unfold world_ok;
    cbn [fst snd object_index space_table set_space_table]; rewrite Hn; [|by split].
  split.
  - rewrite Hp, fmap_cons, Hid. by constructor.
  - intros w2 Hin. rewrite Hp in Hin. apply elem_of_cons in Hin as [->|Hin]; [|by apply Hcnt].
    transitivity 0; [done|]. symmetry. apply members_zero. intros e He E. apply Hni. rewrite <-Hid, <-E. by apply Hh.
  - intros e He. rewrite Hp, fmap_cons. right. by apply Hh.
  - intros w2 Hin. rewrite Hp in Hin. apply elem_of_cons in Hin as [->|Hin]; [|by apply Hmono]. exists tick, n. split; [done|lia].
Qed.

Lemma space_delete_accounts id (x : world) r y : world_ok x -> space_delete_in id x = Some (r, y) -> world_ok y.
Proof.
  intros Ha. destruct x as [s i]. unfold world_ok in Ha. cbn [fst snd] in *. unfold space_delete_in. rewrite pbind_engine.
  destruct (SpaceTable.get _ id) as [sp|] eqn:Hg; [|by intros [= _ <-]]. rewrite pbind_some. apply st_get in Hg as [Hin Hid].
  destruct (Z.gtb_spec (Space.object_count sp) 0) as [|Hz]; [by intros [= _ <-]|].
  destruct (SpaceTable.remove _ id) as [ro tbl] eqn:Hr. destruct (st_remove _ _ _ _ Hr) as [(sp2 & -> & Hid2 & Hp)|[-> ->]]; [|by intros [= _ <-]].
  intros [= _ <-]. unfold world_ok. cbn [fst snd object_index space_table set_space_table]. destruct Ha as [Hnd Hcnt Hh Hi].
  assert (Hmz : members (object_index s.2) id = 0).
  { rewrite (Hcnt sp Hin), Hid in Hz. pose proof (alen_nonneg (ObjectIndex.list_by_space (object_index s.2) id)). unfold members in *. lia. }
  assert (Hsub : forall w2, w2 ∈ occupied tbl -> w2 ∈ occupied (space_table s.2)) by (intros w2 Hs2; rewrite Hp; by right).
  split; [|by auto| |by auto].
  - rewrite Hp in Hnd. cbn in Hnd. by apply NoDup_cons in Hnd as [_ ?].
  - intros e He. pose proof (Hh e He) as Hm. rewrite Hp in Hm. cbn in Hm. apply elem_of_cons in Hm as [E|Hm]; [|done].
    destruct (proj1 (members_zero _ _) Hmz e He). congruence.
Qed.

(** The space counter moves by at most one. *)
Lemma run_op_counter o (x : world) r y : 1 <= Ids.space_counter x.2 < 2 ^ 64 - 1 -> run_op o x = Some (r, y) ->
  Ids.space_counter x.2 <= Ids.space_counter y.2 <= Ids.space_counter x.2 + 1.
Proof.
  intros Hc Hrun. set (n := Ids.space_counter x.2) in *. pose (P := fun z : world => Ids.space_counter z.2 = n).
  assert (Heng : forall A (m : prog (D * Engine.t) StorageError A), keeps P (eng m)).
  { intros A m z r0 z' Hz. unfold eng, zoom. destruct (m z.1) as [[]|]; [|done]. by intros [= _ <-]. }
  assert (Hput : forall t, keeps P (put_spaces t)) by (intros; apply Heng).
  assert (Hidx : forall t, keeps P (put_index t)) by (intros; apply Heng).
  assert (Hget : keeps P get_engine) by (unfold get_engine; by keeps).
  assert (Hor : forall A (a : option A) e, keeps P (ok_or a e)) by (intros A [a|] e; cbn; keeps).
  assert (Hgen : forall t, keeps P (generate_object_id t)) by (intros t z r0 z' Hz [= _ <-]; done).
  assert (Hver : forall v, keeps P (write_version v)) by (intros; unfold write_version; keeps; apply Heng).
  assert (Hupd : forall i h z d w, keeps P (update_object i h z d w)) by (intros; unfold update_object; keeps; auto).
  assert (Hwalk : forall k h b, keeps P (delete_walk k h b)).
  { intros k. induction k as [|k IH]; intros; cbn [delete_walk]; keeps; auto. }
  assert (Hcall : forall A (f : result StorageError A -> out) m, call f m x = Some (r, y) -> keeps P m -> Ids.space_counter y.2 = n).
  { intros A f m Hm Hk. apply call_inv in Hm as (r0 & Hm & _). by eapply (Hk x). }
  destruct o; cbn [run_op] in Hrun.
  - apply call_inv in Hrun as (r0 & Hm & _). destruct x as [s i]. unfold space_create_in in Hm.
    rewrite (pbind_Ok _ _ _ _ _ (generate_space_run tick s i)), pbind_engine in Hm.
    assert (Ids.space_counter y.2 = n + 1) as ->; [|lia]. destruct (SpaceTable.insert _ _) as [[[]|e] tbl]; injection Hm as _ <-;
      unfold n; cbn [snd Ids.space_counter]; unfold wrapping_add, wrap; rewrite Z.mod_small; unfold n in Hc; cbn [snd] in Hc; lia.
  - rewrite (Hcall _ _ _ Hrun) by (unfold space_delete_in; keeps; auto). lia.
  - rewrite (Hcall _ _ _ Hrun) by (unfold object_create_in, charge_space; keeps; auto). lia.
  - destruct (object_read_in _ _ _). injection Hrun as _ <-. unfold n. lia.
  - rewrite (Hcall _ _ _ Hrun) by (unfold object_update_in; keeps; auto). lia.
  - rewrite (Hcall _ _ _ Hrun) by (unfold version_rollback_in; keeps; auto). lia.
  - rewrite (Hcall _ _ _ Hrun) by (unfold object_delete_in, release_space; keeps; auto). lia.
  - injection Hrun as _ <-. unfold n. lia.
Qed.

Lemma run_op_accounts o (x : world) r y : world_ok x -> 1 <= Ids.space_counter x.2 < 2 ^ 64 - 1 ->
  run_op o x = Some (r, y) -> world_ok y.
Proof.
  intros Ha Hc Hrun. destruct o; cbn [run_op] in Hrun.
  4: { destruct (object_read_in _ _ _). by injection Hrun as _ <-. }
  7: by injection Hrun as _ <-.
  all: apply call_inv in Hrun as (r0 & Hm & _).
  - by eapply space_create_accounts.
  - by eapply space_delete_accounts.
  - by eapply create_accounts.
  - by eapply updates_accounts.
  - by eapply rollback_accounts.
  - by eapply delete_accounts.
Qed.
End tables.

(** ** Properties *)

(** C36: in every run of up to [2^64 - 2] calls from a freshly formatted disk, whatever fails on
    the way, the object count of each space is the number of its objects in the index, so
    the object quota is enforced on the true count and only an empty space can be
    deleted; every object's space exists, and no two spaces share an id. *)
Theorem space_accounting (C : Codec) (D : Type) (BD : BlockDevice D) (U : list Z -> Prop) (d : D) (tick : Z)
    (tr : list (op * out)) (x : (D * Engine.t) * Ids.t) :
  Z.of_nat (length tr) < 2 ^ 64 - 2 ->
  exec U ((d, Durable.formatted tick (capacity_sectors d)), Ids.boot) tr x ->
  NoDup (Space.id <$> occupied (space_table x.1.2)) /\
  (forall sp, sp ∈ occupied (space_table x.1.2) ->
     Space.object_count sp = alen (ObjectIndex.list_by_space (object_index x.1.2) (Space.id sp))) /\
  (forall e, e ∈ object_index x.1.2 ->
     exists sp, sp ∈ occupied (space_table x.1.2) /\ CompactObject.space_id (ObjectIndex.object e) = Space.id sp).
Proof.
  intros Hl Hrun. enough (Hok : world_ok x /\ 1 <= Ids.space_counter x.2 <= 1 + Z.of_nat (length tr)).
  { destruct Hok as [[H1 H2 H3 _] _]. split_and!; [done..|]. intros e He. apply H3, list_elem_of_fmap in He as (sp & E & Hin). by exists sp. }
  remember ((d, Durable.formatted tick (capacity_sectors d)), Ids.boot) as x0 eqn:E. revert Hl E.
  induction Hrun as [y|y tr z o r x Hrun IH Ht HU Hstep]; intros Hl ->.
  - split; [|cbn; lia]. split; [constructor|by intros sp ?%not_elem_of_nil..].
  - rewrite length_app in *. cbn [length] in *. destruct (IH ltac:(lia) eq_refl) as [Hok Hc].
    pose proof (run_op_counter o z r x ltac:(lia) Hstep). split; [apply (run_op_accounts o z r x); [done|lia|done]|lia].
Qed.

Lemma space_accounting_witness : exists sp, sp ∈ occupied (space_table Demo.x4.1.2) /\
  Space.object_count sp = alen (ObjectIndex.list_by_space (object_index Demo.x4.1.2) (Space.id sp)).
Proof.
  destruct (space_accounting _ _ _ Demo.in_blocks blank_disk 5 Demo.trace Demo.x4 ltac:(vm_compute; reflexivity) Demo.demo_exec) as (_ & H2 & _).
  destruct (occupied (space_table Demo.x4.1.2)) as [|sp l] eqn:E; [|exists sp; split; [by left|apply H2; by left]].
  exfalso. assert (Hb : bool_decide (occupied (space_table Demo.x4.1.2) = []) = false) by (vm_compute; reflexivity).
  rewrite E in Hb. discriminate Hb.
Defined.

(** The byte quota bounds creates only: an update neither checks nor charges it.  A space with a
    quota of ten bytes holds an object of a hundred, and still counts two. *)
Module QuotaExample.
Import DemoCodec Demo.
Definition q1 : op := SpaceCreate 7 7 [115] Personal (mk_quota 10 5).
Definition q2 : op := Update 9 obj (replicate 100 65) [] [].
Definition final : demo_world := (step_of q2 (step_of o2 (step_of q1 x0).2).2).2.

Example update_skips_quota :
  (step_of (Read obj 200) final).1 = ORead (Ok (replicate 100 65)) /\
  (fun s => (Space.total_size s, Space.quota_max_bytes s)) <$> occupied (space_table final.1.2) = [(2, 10)].
Proof. vm_compute. split; reflexivity. Qed.
End QuotaExample.
