(* ===== verification/Posix.v ===== *)
(** * The POSIX bridge

    Models kernel/src/storage/posix_bridge.rs: the file descriptor table, path resolution, and
    open, read, write, close, stat, readdir, mkdir and unlink on top of the object store.

    A method runs on the bridge and the global storage state ([pprog]); an index out of range of the
    table would panic, so table accesses go through the checked index [.[i]] where the code indexes, and
    through [get] where the code uses [get]. *)

From S2P Require Import SortedVec Prelude Prog Storage BlockDevice Wal BlockEngine ObjectStore.
Import ObjectStore.
Open Scope prog_scope.

Definition O_RDONLY : Z := 0.
Definition O_WRONLY : Z := 1.
Definition O_RDWR : Z := 2.
Definition O_CREAT : Z := 0x40.
Definition O_APPEND : Z := 0x400.
Definition MAX_FDS : nat := 256.

(** [0o755], [0o644] *)
Definition MODE_DIR : Z := 493.
Definition MODE_FILE : Z := 420.

Record PosixStat := mk_stat { st_size : Z; st_mode : Z; st_modified : Z; st_nlink : Z }.
Record DirEntry := mk_dirent {
  de_name : list Z; de_name_len : Z; de_object_id : ObjectId; de_content_type : ContentType; de_size : Z
}.

(** ** Path strings *)

Definition slash : Z := 47.

(** [iter().position(|&b| b == b'/')] *)
Definition position_slash (l : list Z) : option nat := fst <$> list_find (fun b => b = slash) l.

Definition starts_with (haystack needle : list Z) : bool :=
  (length needle <=? length haystack)%nat && bool_decide (take (length needle) haystack = needle).

(** [b"."], [b".."] *)
Definition is_dots (component : list Z) : bool := bool_decide (component = [46]) || bool_decide (component = [46; 46]).

(** The loop of [contains_traversal] from [start] on; [rest] is [path[start..]], and each turn
    drops at least a slash. *)
Fixpoint traversal_loop (fuel : nat) (rest : list Z) : bool :=
  match fuel with
  | O => false
  | S fuel' =>
      let e := default (length rest) (position_slash rest) in
      if is_dots (take e rest) then true
      else if (length rest <=? e)%nat then false
      else traversal_loop fuel' (drop (S e) rest)
  end.

Definition contains_traversal (path : list Z) : bool := traversal_loop (S (length path)) path.

(** The loop of [split_first_component] from [search_from] on. *)
Fixpoint split_loop (fuel : nat) (known : list Z -> bool) (path : list Z) (search_from : nat) : list Z * list Z :=
  match fuel with
  | O => (path, [])
  | S fuel' =>
      match position_slash (drop search_from path) with
      | None => (path, [])
      | Some rel_pos =>
          let pos := (search_from + rel_pos)%nat in
          let candidate := take pos path in
          if known candidate then (candidate, drop (S pos) path)
          else split_loop fuel' known path (S pos)
      end
  end.

Definition split_first_component (known : list Z -> bool) (path : list Z) : list Z * list Z :=
  split_loop (S (length path)) known path 0.

(** [b"spaces/"], [b"home/user/"], [b"home/user"], [b"tmp/"], [b"tmp"] *)
Definition pre_spaces : list Z := [115; 112; 97; 99; 101; 115; 47].
Definition pre_home_dir : list Z := [104; 111; 109; 101; 47; 117; 115; 101; 114; 47].
Definition pre_home : list Z := [104; 111; 109; 101; 47; 117; 115; 101; 114].
Definition pre_tmp_dir : list Z := [116; 109; 112; 47].
Definition pre_tmp : list Z := [116; 109; 112].

Module Posix.
Record FdEntry := mk_fd {
  fd_space : SpaceId;
  fd_object : ObjectId;
  fd_offset : Z;
  fd_flags : Z;
  fd_is_directory : bool
}.

Record t := mk { fd_table : list (option FdEntry); next_fd : nat }.

Definition new : t := mk (replicate MAX_FDS None) 0.

(** [for i in 0..MAX_FDS]: [n] slots left to look at. *)
Fixpoint alloc_loop (n i : nat) (b : t) : result StorageError nat * t :=
  match n with
  | O => (Err FdTableFull, b)
  | S n' =>
      let idx := ((next_fd b + i) mod MAX_FDS)%nat in
      match fd_table b !! idx with
      | Some None => (Ok idx, mk (fd_table b) ((idx + 1) mod MAX_FDS)%nat)
      | _ => alloc_loop n' (S i) b
      end
  end.

Definition alloc_fd (b : t) : result StorageError nat * t := alloc_loop MAX_FDS 0 b.

(** [fd_table.get(fd).and_then(|e| e.as_ref())] *)
Definition entry_of (b : t) (fd : nat) : option FdEntry := mjoin (fd_table b !! fd).

Definition set_fd (b : t) (fd : nat) (o : option FdEntry) : t := mk (<[fd := o]> (fd_table b)) (next_fd b).

(** [if let Some(Some(entry)) = fd_table.get_mut(fd) { entry.offset = x }] *)
Definition set_offset (b : t) (fd : nat) (x : Z) : t :=
  match entry_of b fd with
  | Some e => set_fd b fd (Some (mk_fd (fd_space e) (fd_object e) x (fd_flags e) (fd_is_directory e)))
  | None => b
  end.

Definition close (b : t) (fd : nat) : result StorageError unit * t :=
  match entry_of b fd with
  | Some _ => (Ok tt, set_fd b fd None)
  | None => (Err InvalidFd, b)
  end.

Section bridge.
Context {C : Codec} {D : Type} `{BD : BlockDevice D}.

Abbreviation storage := (ObjectStore.state (D := D)).
Abbreviation pprog := (prog (t * storage) StorageError).

Definition on_store {A} (m : prog storage StorageError A) : pprog A := zoom snd (fun s x => (s.1, x)) m.
Definition on_table {A} (f : t -> result StorageError A * t) : pprog A :=
  s <- pget ;; let '(r, b) := f s.1 in pput (b, s.2) ;;; plift r.

(** A closure that reads the engine's tables. *)
Definition look {A} (f : Engine.t -> A) : pprog A := on_store (with_engine (e <- get_engine ;; pret (f e))).
Definition ok_or {A} (o : option A) (err : StorageError) : pprog A :=
  match o with Some a => pret a | None => pfail err end.

(** ** Path resolution *)

Definition find_space_by_name (name : list Z) : pprog SpaceId :=
  o <- look (fun e => SpaceTable.find_by_name (Engine.space_table e) name) ;;
  sp <- ok_or o SpaceNotFound ;; pret (Space.id sp).

(** The prefixes that name a space; none when the engine is not there ([unwrap_or(false)]). *)
Definition known_space (st : storage) (candidate : list Z) : bool :=
  match engine st with
  | Some e => match SpaceTable.find_by_name (Engine.space_table e) candidate with Some _ => true | None => false end
  | None => false
  end.

Definition strip_slash (path : list Z) : list Z :=
  match path with b :: rest => if b =? slash then rest else path | [] => path end.

Definition resolve_path (path0 : list Z) : pprog (SpaceId * list Z) :=
  let path := strip_slash path0 in
  if contains_traversal path then pfail SpaceNotFound
  else if starts_with path pre_spaces then
    s <- pget ;;
    let '(name, obj_path) := split_first_component (known_space s.2) (drop 7 path) in
    space <- find_space_by_name name ;; pret (space, obj_path)
  else if starts_with path pre_home_dir then
    space <- find_space_by_name name_home ;; pret (space, drop 10 path)
  else if starts_with path pre_home && (length path =? 9)%nat then
    space <- find_space_by_name name_home ;; pret (space, [])
  else if starts_with path pre_tmp_dir then
    space <- find_space_by_name name_ephemeral ;; pret (space, drop 4 path)
  else if bool_decide (path = pre_tmp) then
    space <- find_space_by_name name_ephemeral ;; pret (space, [])
  else pfail SpaceNotFound.

(** ** File operations *)

Definition find_object (space : SpaceId) (name : list Z) : pprog (option ObjectId) :=
  look (fun e => ObjectIndex.find_by_name (Engine.object_index e) space name).
Definition get_object (id : ObjectId) : pprog CompactObject.t :=
  o <- look (fun e => ObjectIndex.get (Engine.object_index e) id) ;; ok_or o ObjectNotFound.

Definition open (tick now : Z) (path : list Z) (flags : Z) : pprog nat :=
  r <- resolve_path path ;;
  let '(space_id, obj_name) := r in
  existing <- find_object space_id obj_name ;;
  od <- (match existing with
         | Some id => obj <- get_object id ;; pret (id, bool_decide (CompactObject.content_type obj = Directory))
         | None =>
             if negb (Z.land flags O_CREAT =? 0) then
               c <- on_store (object_create tick now space_id obj_name [0] Text) ;; pret (c.1, false)
             else pfail ObjectNotFound
         end) ;;
  fd <- on_table alloc_fd ;;
  on_table (fun b => (Ok tt, set_fd b fd (Some (mk_fd space_id od.1 0 flags od.2)))) ;;;
  pret fd.

(** The number of bytes and the caller's buffer. *)
Definition read (fd : nat) (buf : list Z) : pprog (Z * list Z) :=
  s <- pget ;;
  entry <- ok_or (entry_of s.1 fd) InvalidFd ;;
  if Z.land (fd_flags entry) 3 =? O_WRONLY then pfail IoError else
  r <- on_store (object_read (fd_object entry) (replicate 4096 0)) ;;
  let '(_, total, full_buf) := r in
  let offset := fd_offset entry in
  if offset >=? total then pret (0, buf) else
  let to_copy := Z.min (total - offset) (alen buf) in
  let buf' := copy_at buf 0 (take (Z.to_nat to_copy) (drop (Z.to_nat offset) full_buf)) in
  offset' <- pchecked (checked_add 64 offset to_copy) ;;
  on_table (fun b => (Ok tt, set_offset b fd offset')) ;;;
  pret (to_copy, buf').

(** [b"posix"], [b"write"] *)
Definition author_posix : list Z := [112; 111; 115; 105; 120].
Definition msg_write : list Z := [119; 114; 105; 116; 101].

(** The three copies into a zeroed array. *)
Definition splice (current : list Z) (current_len write_offset : nat) (data : list Z) : list Z :=
  let write_end := (write_offset + length data)%nat in
  let a1 := copy_at (replicate 4096 0) 0 (take write_offset current) in
  let a2 := copy_at a1 write_offset data in
  let a3 := if (write_end <? current_len)%nat
            then copy_at a2 write_end (take (current_len - write_end) (drop write_end current)) else a2 in
  take (Nat.max write_end current_len) a3.

Definition write (now : Z) (fd : nat) (data : list Z) : pprog Z :=
  s <- pget ;;
  entry <- ok_or (entry_of s.1 fd) InvalidFd ;;
  if Z.land (fd_flags entry) 3 =? O_RDONLY then pfail IoError else
  let is_append := negb (Z.land (fd_flags entry) O_APPEND =? 0) in
  let offset := if is_append then umax 64 else fd_offset entry in
  r <- pcatch (on_store (object_read (fd_object entry) (replicate 4096 0))) ;;
  cur <- (match r with
          | Ok (_, n, buf) => pret (Z.to_nat n, buf)
          | Err ObjectNotFound => pret (0%nat, replicate 4096 0)
          | Err e => pfail e
          end) ;;
  let '(current_len, current) := cur in
  let write_offset := if offset =? umax 64 then current_len else Nat.min (Z.to_nat offset) current_len in
  if (4096 <? length data)%nat || (4096 <? write_offset + length data)%nat then pfail QuotaExceeded else
  on_store (object_update now (fd_object entry) (splice current current_len write_offset data) author_posix msg_write) ;;;
  on_table (fun b => (Ok tt, set_offset b fd (Z.of_nat (write_offset + length data)))) ;;;
  pret (alen data).

Definition stat (path : list Z) : pprog PosixStat :=
  r <- resolve_path path ;;
  let '(space_id, obj_name) := r in
  if bool_decide (obj_name = []) then pret (mk_stat 0 MODE_DIR 0 1) else
  o <- find_object space_id obj_name ;;
  id <- ok_or o ObjectNotFound ;;
  obj <- get_object id ;;
  pret (mk_stat (CompactObject.content_size obj)
    (match CompactObject.content_type obj with Directory => MODE_DIR | _ => MODE_FILE end)
    (CompactObject.modified_at obj) 1).

Definition dir_entry (id : ObjectId) (obj : CompactObject.t) : DirEntry :=
  let name := CompactObject.name_bytes obj in
  let len := Nat.min (length name) MAX_OBJECT_NAME_LEN in
  mk_dirent (copy_at (replicate MAX_OBJECT_NAME_LEN 0) 0 (take len name)) (Z.of_nat len) id
    (CompactObject.content_type obj) (CompactObject.content_size obj).

Fixpoint readdir_loop (oids : list ObjectId) : pprog (list DirEntry) :=
  match oids with
  | [] => pret []
  | oid :: rest =>
      obj <- get_object oid ;;
      es <- readdir_loop rest ;;
      pret (dir_entry oid obj :: es)
  end.

Definition readdir (path : list Z) : pprog (list DirEntry) :=
  r <- resolve_path path ;;
  ids <- look (fun e => ObjectIndex.list_by_space (Engine.object_index e) r.1) ;;
  readdir_loop ids.

Definition mkdir (tick now : Z) (path : list Z) : pprog unit :=
  r <- resolve_path path ;;
  let '(space_id, dir_name) := r in
  if bool_decide (dir_name = []) then pfail IoError else
  exists_ <- find_object space_id dir_name ;;
  match exists_ with
  | Some _ => pfail NameExists
  | None => on_store (object_create tick now space_id dir_name [0] Directory) ;;; pret tt
  end.

Definition unlink (path : list Z) : pprog unit :=
  r <- resolve_path path ;;
  let '(space_id, obj_name) := r in
  o <- find_object space_id obj_name ;;
  id <- ok_or o ObjectNotFound ;;
  on_store (object_delete id).
End bridge.
End Posix.
