(* ===== verification/PosixProps.v ===== *)
(** * Properties of the POSIX bridge

    Theorems about Posix.v: a resolved path stays inside its space, descriptors are
    allocated exactly when one is free, and reads and writes of a descriptor are slices
    and splices of the newest version of its object, by the refinement of ObjectLaws.v. *)

From S2P Require Import SortedVec Prelude Prog Storage BlockDevice Wal BlockEngine BlockStore Recovery StoreProps ObjectStore ObjectLaws ObjectProps Posix.
Import Engine EngineLaws ObjectStore ObjectLaws Posix.
Open Scope prog_scope.

(** ** Components of a path *)

Fixpoint components (path : list Z) : list (list Z) :=
  match path with
  | [] => [[]]
  | b :: rest =>
      if b =? slash then [] :: components rest
      else match components rest with c :: cs => (b :: c) :: cs | [] => [[b]] end
  end.

Definition dotted (c : list Z) : Prop := c = [46] \/ c = [46; 46].

Lemma is_dots_spec c : is_dots c = true <-> dotted c.
Proof. unfold is_dots, dotted. rewrite orb_true_iff, !bool_decide_eq_true. done. Qed.

Lemma components_cons path : exists c cs, components path = c :: cs.
Proof.
  destruct path as [|b rest]; cbn; [by do 2 eexists|]. destruct (b =? slash); [by do 2 eexists|]. destruct (components rest); by do 2 eexists.
Qed.

Lemma components_app a b : components (a ++ slash :: b) = components a ++ components b.
Proof.
  induction a as [|x a IH]; cbn [components app]; [done|]. destruct (x =? slash); [by rewrite IH|]. rewrite IH.
  destruct (components_cons a) as (c & cs & ->). done.
Qed.

Lemma position_slash_Some l p : position_slash l = Some p ->
  l = take p l ++ slash :: drop (S p) l /\ components (take p l) = [take p l].
Proof.
  unfold position_slash. destruct (list_find _ l) as [[i x]|] eqn:E; [|done]. intros [= <-]. cbn [fst].
  apply list_find_Some in E as (Hi & -> & Hf). split; [by rewrite take_drop_middle|].
  clear -Hf. revert i Hf. induction l as [|b l IH]; intros [|i] Hf; try done. cbn [take components].
  destruct (Z.eqb_spec b slash) as [->|_]; [by destruct (Hf 0%nat slash eq_refl); lia|].
  rewrite IH; [done|]. intros j y Hj Hlt. apply (Hf (S j) y Hj). lia.
Qed.

Lemma position_slash_None l : position_slash l = None -> components l = [l].
Proof.
  unfold position_slash. destruct (list_find _ l) as [[i x]|] eqn:E; [done|]. intros _. apply list_find_None in E.
  induction E as [|b l Hb _ IH]; [done|]. cbn [components]. destruct (Z.eqb_spec b slash); [done|]. by rewrite IH.
Qed.

Lemma traversal_loop_spec fuel rest : (length rest < fuel)%nat ->
  traversal_loop fuel rest = true <-> exists c, c ∈ components rest /\ dotted c.
Proof.
  revert rest. induction fuel as [|fuel IH]; intros rest Hf; [lia|]. cbn [traversal_loop].
  destruct (position_slash rest) as [p|] eqn:Ep; cbn [default]; unfold id.
  - destruct (position_slash_Some _ _ Ep) as [Hr Hc]. assert (Hp : (p < length rest)%nat).
    { destruct (decide (p < length rest)%nat); [done|]. rewrite (drop_ge rest) in Hr by lia. rewrite (take_ge rest) in Hr by lia.
      apply (f_equal length) in Hr. rewrite length_app in Hr. cbn in Hr. lia. }
    rewrite (proj2 (Nat.leb_gt _ _)) by done.
    assert (components rest = [take p rest] ++ components (drop (S p) rest)) as -> by (by rewrite <-Hc, <-components_app, <-Hr).
    destruct (is_dots (take p rest)) eqn:Ed.
    + split; [intros _|done]. exists (take p rest). split; [by left|by apply is_dots_spec].
    + rewrite IH by (rewrite length_drop; lia). split; intros (c & Hin & Hd); exists c; (split; [|done]).
      * by right.
      * apply elem_of_app in Hin as [->%list_elem_of_singleton|Hin]; [|done]. apply is_dots_spec in Hd. congruence.
  - rewrite take_ge by lia. rewrite Nat.leb_refl, (position_slash_None _ Ep).
    destruct (is_dots rest) eqn:Ed; split; try done.
    + intros _. exists rest. split; [by left|by apply is_dots_spec].
    + intros (c & ->%list_elem_of_singleton & Hd). apply is_dots_spec in Hd. congruence.
Qed.

(** The prefix that names a space ends at a slash, or is everything. *)
Lemma split_loop_spec fuel known path from name obj : split_loop fuel known path from = (name, obj) ->
  (path = name ++ slash :: obj /\ known name = true) \/ (name = path /\ obj = []).
Proof.
  revert from. induction fuel as [|fuel IH]; intros from; cbn [split_loop]; [intros [= <- <-]; by right|].
  destruct (position_slash (drop from path)) as [p|] eqn:Ep; [|intros [= <- <-]; by right].
  destruct (known (take (from + p) path)) eqn:Ek; [|by apply IH]. intros [= <- <-]. left. split; [|done].
  unfold position_slash in Ep. destruct (list_find _ _) as [[i x]|] eqn:E; [|done]. injection Ep as ->.
  apply list_find_Some in E as (Hi & -> & _). rewrite lookup_drop in Hi. by rewrite take_drop_middle.
Qed.

Lemma starts_with_drop l p : starts_with l p = true -> l = p ++ drop (length p) l.
Proof.
  unfold starts_with. intros [_ H%bool_decide_eq_true]%andb_prop. rewrite <-H at 1. by rewrite take_drop.
Qed.

(** ** Path resolution *)

Section resolution.
Context {C : Codec} {D : Type} `{BD : BlockDevice D}.
Abbreviation world := (Posix.t * ObjectStore.state (D := D))%type.

Lemma look_inv {A} (f : Engine.t -> A) (s : world) r s' : look f s = Some (r, s') ->
  s' = s /\ match engine s.2 with Some e => r = Ok (f e) | None => r = Err DeviceNotFound end.
Proof.
  destruct s as [b [d [e|] i]]; unfold look, on_store, zoom, with_engine; cbn; by intros [= <- <-].
Qed.

Lemma find_space_inv name (s : world) sp s' : find_space_by_name name s = Some (Ok sp, s') ->
  s' = s /\ exists e space, engine s.2 = Some e /\ space ∈ occupied (space_table e) /\ Space.id space = sp /\ Space.name_bytes space = name.
Proof.
  unfold find_space_by_name. intros H. prog_inv H; [done|]. apply look_inv in Hm as [-> Hr].
  destruct (engine s.2) as [e|]; [|done]. injection Hr as ->. unfold SpaceTable.find_by_name in Hk.
  destruct (list_find _ _) as [[j space]|] eqn:E; [|done]. injection Hk as <- <-. split; [done|]. exists e, space.
  apply list_find_Some in E as (Hj & Hn & _). split_and!; [done|by eapply list_elem_of_lookup_2|done..].
Qed.

(** The outcome of a resolution: the space exists, and the name is what follows a prefix of the path. *)
Lemma resolve_path_inv path (s : world) sp name s' : resolve_path path s = Some (Ok (sp, name), s') ->
  s' = s /\ contains_traversal (strip_slash path) = false /\
  (name = [] \/ exists pre, strip_slash path = pre ++ slash :: name) /\
  exists e space, engine s.2 = Some e /\ space ∈ occupied (space_table e) /\ Space.id space = sp.
Proof.
  unfold resolve_path. set (p := strip_slash path). destruct (contains_traversal p); [done|].
  assert (Hfin : forall nm nm2, (sp0 <- find_space_by_name nm ;; pret (sp0, nm2)) s = Some (Ok (sp, name), s') ->
    s' = s /\ nm2 = name /\ exists e space, engine s.2 = Some e /\ space ∈ occupied (space_table e) /\ Space.id space = sp).
  { intros nm nm2 H. prog_inv H; [done|]. injection Hk as -> <- <-. apply find_space_inv in Hm as (-> & e & space & ? & ? & ? & _).
    split_and!; [done..|]. by exists e, space. }
  destruct (starts_with p pre_spaces) eqn:E1.
  { rewrite pbind_get. destruct (split_first_component _ _) as [nm nm2] eqn:Es. intros (-> & <- & He)%Hfin. split_and!; [done..| |done].
    apply starts_with_drop in E1. change (length pre_spaces) with 7%nat in E1.
    apply split_loop_spec in Es as [[Hd _]|[_ ->]]; [|by left]. right. exists (pre_spaces ++ nm). by rewrite <-app_assoc, <-Hd. }
  destruct (starts_with p pre_home_dir) eqn:E2.
  { intros (-> & <- & He)%Hfin. split_and!; [done..| |done]. apply starts_with_drop in E2. right. exists pre_home. exact E2. }
  destruct (_ && _). { intros (-> & <- & He)%Hfin. split_and!; [done..|by left|done]. }
  destruct (starts_with p pre_tmp_dir) eqn:E3.
  { intros (-> & <- & He)%Hfin. split_and!; [done..| |done]. apply starts_with_drop in E3. right. exists pre_tmp. exact E3. }
  destruct (bool_decide _); [|done]. intros (-> & <- & He)%Hfin. split_and!; [done..|by left|done].
Qed.
End resolution.

(** ** Descriptors *)

Definition table_wf (b : Posix.t) : Prop := length (fd_table b) = MAX_FDS /\ (next_fd b < MAX_FDS)%nat.

Lemma alloc_loop_spec n i b : table_wf b -> (i + n = MAX_FDS)%nat ->
  (forall j, (j < i)%nat -> exists e, fd_table b !! ((next_fd b + j) mod MAX_FDS)%nat = Some (Some e)) ->
  match alloc_loop n i b with
  | (Ok fd, b') => fd_table b !! fd = Some None /\ fd_table b' = fd_table b /\ table_wf b'
  | (Err e, b') => e = FdTableFull /\ b' = b /\
      forall j, (j < MAX_FDS)%nat -> exists en, fd_table b !! ((next_fd b + j) mod MAX_FDS)%nat = Some (Some en)
  end.
Proof.
  intros Hw. revert i. induction n as [|n IH]; intros i Hi Hj; cbn [alloc_loop].
  { split_and!; [done..|]. intros j Hlt. apply Hj. lia. }
  set (idx := ((next_fd b + i) mod MAX_FDS)%nat).
  assert (Hidx : (idx < MAX_FDS)%nat) by (apply Nat.mod_upper_bound; unfold MAX_FDS; lia).
  destruct (fd_table b !! idx) as [[e|]|] eqn:E.
  - apply IH; [lia|]. intros j Hlt. destruct (decide (j = i)) as [->|]; [by exists e|]. apply Hj. lia.
  - split_and!; [done..|]. split; [apply Hw|]. cbn [next_fd]. apply Nat.mod_upper_bound. unfold MAX_FDS. lia.
  - apply lookup_ge_None in E. destruct Hw. lia.
Qed.

(** Every slot is looked at. *)
Lemma slot_covered b i : table_wf b -> (i < MAX_FDS)%nat -> exists j, (j < MAX_FDS)%nat /\ i = ((next_fd b + j) mod MAX_FDS)%nat.
Proof.
  intros [_ Hn] Hi. unfold MAX_FDS in *. destruct (decide (next_fd b <= i)%nat) as [Hle|Hgt].
  - exists (i - next_fd b)%nat. split; [lia|]. rewrite Nat.mod_small; lia.
  - exists (256 + i - next_fd b)%nat. split; [lia|]. replace (next_fd b + (256 + i - next_fd b))%nat with (i + 1 * 256)%nat by lia.
    rewrite Nat.Div0.mod_add, Nat.mod_small; lia.
Qed.

(** ** Splices *)

Lemma copy_at_app (a b c : list Z) (n : nat) d : length a = n -> length b = length d -> copy_at (a ++ b ++ c) n d = a ++ d ++ c.
Proof. intros <- Hl. by apply copy_at_mid. Qed.

Lemma splice_spec (cur data : list Z) (wo : nat) : (length cur <= 4096)%nat -> (wo <= length cur)%nat -> (wo + length data <= 4096)%nat ->
  splice (copy_at (replicate 4096 0) 0 cur) (length cur) wo data = take wo cur ++ data ++ drop (wo + length data) cur.
Proof.
  intros Hc Hw Hd. unfold splice. set (n := length cur). set (we := (wo + length data)%nat).
  assert (Hbuf : copy_at (replicate 4096 0) 0 cur = cur ++ replicate (4096 - n) 0).
  { unfold copy_at. rewrite take_0. cbn [app]. f_equal. rewrite Nat.add_0_l. apply drop_replicate. }
  rewrite Hbuf, (take_app_le cur) by lia.
  assert (Ha1 : copy_at (replicate 4096 0) 0 (take wo cur) = take wo cur ++ replicate (length data) 0 ++ replicate (4096 - we) 0).
  { unfold copy_at. rewrite take_0. cbn [app]. f_equal. rewrite Nat.add_0_l, drop_replicate, length_take, Nat.min_l, <-replicate_add by lia. f_equal. lia. }
  rewrite Ha1, copy_at_app by (rewrite ?length_replicate, ?length_take; lia).
  destruct (Nat.ltb_spec we n) as [Hlt|Hge].
  - rewrite Nat.max_r by lia. rewrite (drop_app_le cur), (take_app_le (drop we cur)) by (rewrite ?length_drop; lia).
    rewrite (take_ge (drop we cur)) by (rewrite length_drop; lia).
    replace (4096 - we)%nat with ((n - we) + (4096 - n))%nat by lia. rewrite replicate_add, (app_assoc (take wo cur)).
    rewrite copy_at_app by (rewrite ?length_app, ?length_take, ?length_replicate, ?length_drop; lia).
    rewrite <-app_assoc, (app_assoc (take wo cur)), (app_assoc (take wo cur ++ data)). rewrite take_app_length'.
    + by rewrite <-app_assoc.
    + rewrite !length_app, length_take, length_drop. lia.
  - rewrite Nat.max_l by lia. rewrite app_assoc, take_app_length' by (rewrite length_app, length_take; lia).
    by rewrite (drop_ge cur), app_nil_r by lia.
Qed.

(** ** Reading and writing *)

Section io.
Context {C : Codec} {CS : CodecSpec} {D : Type} `{BD : BlockDevice D} `{BDS : !BlockDeviceSpec D}.
Context (U : list Z -> Prop) {CF : CollisionFree U}.
Implicit Types (d : D) (e : Engine.t) (i : Ids.t) (b : Posix.t).

Lemma object_read_run d e i H id v (data : list Z) rest (b : Posix.t) : rep U (d, e) H -> H !! id = Some ((v, data) :: rest) -> (length data <= 4096)%nat ->
  exists o, on_store (object_read id (replicate 4096 0)) (b, ObjectStore.mk d (Some e) i) =
    Some (Ok (o, alen data, copy_at (replicate 4096 0) 0 data), (b, ObjectStore.mk d (Some e) i)).
Proof.
  intros HR HH Hl. pose proof (object_read_ok U (d, e) H id (replicate 4096 0) HR) as Hr. rewrite HH, length_replicate in Hr.
  destruct (Hr Hl) as (o & _ & Hrd). exists o. unfold on_store, zoom, object_read, with_engine. cbn [snd fst engine ObjectStore.disk ObjectStore.ids].
  rewrite pbind_get. cbn [fst]. rewrite Hrd. done.
Qed.

(** The newest content is what the index names. *)
Lemma newest_content (s : D * Engine.t) H id o content : rep U s H -> ObjectIndex.get (object_index s.2) id = Some o ->
  CompactObject.content_hash o = sha256 content -> U content ->
  exists v rest, H !! id = Some ((v, content) :: rest) /\ head_of ((v, content) :: rest) = CompactObject.version_head o.
Proof.
  intros HR Hg Hc HU. destruct (rep_object U _ _ _ _ HR Hg) as (hist & HH & [_ _ _ Hch _ Hh]).
  destruct hist as [|[v data] rest]; [done|]. pose proof (history_head _ _ _ Hch) as Hhd. destruct Hh as (Hcv & _). destruct Hch as (_ & _ & _ & Hd & _).
  assert (data = content) as ->; [|by exists v, rest].
  apply (cf_inj data content); [by eapply so_U; [apply HR|]|done|]. rewrite (holds_sha _ _ _ Hd). congruence.
Qed.

Lemma set_offset_entry b fd en x : entry_of b fd = Some en ->
  entry_of (set_offset b fd x) fd = Some (mk_fd (fd_space en) (fd_object en) x (fd_flags en) (fd_is_directory en)) /\
  forall fd', fd' <> fd -> entry_of (set_offset b fd x) fd' = entry_of b fd'.
Proof.
  intros He. unfold set_offset. rewrite He. unfold entry_of, set_fd in *. cbn [fd_table]. split.
  - rewrite list_lookup_insert_eq; [done|]. destruct (fd_table b !! fd) eqn:E; [by eapply lookup_lt_Some|done].
  - intros fd' Hne. by rewrite list_lookup_insert_ne.
Qed.

Lemma read_run d e i H b fd en v (data : list Z) rest buf : rep U (d, e) H -> entry_of b fd = Some en ->
  Z.land (fd_flags en) 3 <> O_WRONLY -> H !! fd_object en = Some ((v, data) :: rest) -> (length data <= 4096)%nat -> 0 <= fd_offset en ->
  let n := Z.max 0 (Z.min (alen data - fd_offset en) (alen buf)) in
  exists b', read fd buf (b, ObjectStore.mk d (Some e) i) =
    Some (Ok (n, copy_at buf 0 (take (Z.to_nat n) (drop (Z.to_nat (fd_offset en)) data))), (b', ObjectStore.mk d (Some e) i)) /\
  (n = 0 \/ b' = set_offset b fd (fd_offset en + n)) /\ (n = 0 -> b' = b \/ b' = set_offset b fd (fd_offset en)).
Proof.
  intros HR He Hfl HH Hl Ho n. unfold read. rewrite pbind_get. cbn [fst]. rewrite He.
  change (pbind (Posix.ok_or (Some en) InvalidFd) ?f ?s) with (f en s). cbv beta. rewrite (proj2 (Z.eqb_neq _ _)) by done.
  destruct (object_read_run d e i H _ v data rest b HR HH Hl) as (o & Hrun). rewrite (pbind_Ok _ _ _ _ _ Hrun).
  pose proof (alen_nonneg buf). pose proof (alen_nonneg data).
  destruct (Z.geb_spec (fd_offset en) (alen data)) as [Hge|Hlt].
  { exists b. assert (n = 0) as -> by (unfold n; lia). rewrite take_0. split_and!; [|by left|by left].
    unfold copy_at. rewrite take_0. cbn [app length]. by rewrite Nat.add_0_l, drop_0. }
  assert (Hn : Z.min (alen data - fd_offset en) (alen buf) = n) by (unfold n; lia). rewrite Hn. clearbody n.
  assert (Hsum : checked_add 64 (fd_offset en) n = Some (fd_offset en + n)) by (apply checked_add_in; unfold uint, alen in *; lia).
  rewrite Hsum. exists (set_offset b fd (fd_offset en + n)). split_and!; [|by right|intros ->; right; by rewrite Z.add_0_r].
  change (pbind (pchecked (Some ?x)) ?f ?s) with (f x s). cbv beta. do 3 f_equal. f_equal.
  assert (Hb : copy_at (replicate 4096 0) 0 data = data ++ replicate (4096 - length data) 0).
  { unfold copy_at. rewrite take_0. cbn [app]. f_equal. rewrite Nat.add_0_l. apply drop_replicate. }
  rewrite Hb, drop_app_le by (unfold alen in *; lia). rewrite take_app_le; [done|]. rewrite length_drop. unfold alen in *. lia.
Qed.

(** Where a write goes, and the content after it. *)
Definition write_at (en : FdEntry) (cur : list Z) : nat :=
  if Z.land (fd_flags en) O_APPEND =? 0 then Nat.min (Z.to_nat (fd_offset en)) (length cur) else length cur.
Definition spliced (en : FdEntry) (cur data : list Z) : list Z :=
  take (write_at en cur) cur ++ data ++ drop (write_at en cur + length data) cur.

Lemma spliced_length en cur data : (write_at en cur + length data <= 4096)%nat -> (length cur <= 4096)%nat ->
  (length (spliced en cur data) <= 4096)%nat.
Proof. intros. unfold spliced. rewrite !length_app, length_take, length_drop. lia. Qed.

Lemma on_update_inv now id content a m b d e i r b' st' :
  on_store (object_update now id content a m) (b, ObjectStore.mk d (Some e) i) = Some (r, (b', st')) ->
  b' = b /\ exists s' i', object_update_in now id content a m ((d, e), i) = Some (r, (s', i')) /\ st' = ObjectStore.mk s'.1 (Some s'.2) i'.
Proof.
  unfold on_store, zoom, object_update, with_engine. cbn [fst snd engine ObjectStore.disk ObjectStore.ids].
  destruct (object_update_in now id content a m ((d, e), i)) as [[r0 [[d' e'] i']]|] eqn:E; [|done]. intros [= <- <- <-].
  split; [done|]. by exists (d', e'), i'.
Qed.

Lemma posix_msgs : Forall is_byte author_posix /\ Forall is_byte msg_write.
Proof. split; repeat (constructor; [unfold is_byte; lia|]); constructor. Qed.

Lemma write_run now d e i H b fd en v (cur : list Z) rest data r b' st' : rep U (d, e) H -> entry_of b fd = Some en ->
  Z.land (fd_flags en) 3 <> O_RDONLY -> H !! fd_object en = Some ((v, cur) :: rest) -> (length cur <= 4096)%nat ->
  0 <= fd_offset en < umax 64 -> uint 64 now -> Forall is_byte cur -> Forall is_byte data ->
  let new := spliced en cur data in let ver := updated ((v, cur) :: rest) new (fd_object en) now author_posix msg_write in
  U new -> U (Version.bytes ver) ->
  write now fd data (b, ObjectStore.mk d (Some e) i) = Some (r, (b', st')) ->
  if (4096 <? write_at en cur + length data)%nat then r = Err QuotaExceeded /\ b' = b /\ st' = ObjectStore.mk d (Some e) i
  else exists e', engine st' = Some e' /\
    match r with
    | Ok n => n = alen data /\ b' = set_offset b fd (Z.of_nat (write_at en cur + length data)) /\
        rep U (ObjectStore.disk st', e') (<[fd_object en := (ver, new) :: (v, cur) :: rest]> H)
    | Err _ => b' = b /\ rep U (ObjectStore.disk st', e') H
    end.
Proof.
  intros HR He Hfl HH Hl Ho Hnow Hcb Hdb new ver HU1 HU2. unfold write. rewrite pbind_get. cbn [fst]. rewrite He.
  change (pbind (Posix.ok_or (Some en) InvalidFd) ?f ?s) with (f en s). cbv beta. rewrite (proj2 (Z.eqb_neq _ _)) by done. cbv zeta.
  destruct (object_read_run d e i H _ v cur rest b HR HH Hl) as (o & Hrun).
  rewrite (pbind_Ok _ _ _ (Ok (o, alen cur, copy_at (replicate 4096 0) 0 cur)) (b, ObjectStore.mk d (Some e) i)) by (unfold pcatch; by rewrite Hrun).
  change (pbind (pret ?x) ?f ?s) with (f x s). cbv beta iota. assert (Z.to_nat (alen cur) = length cur) as -> by (unfold alen; lia).
  assert (Hwo : (if (if negb (Z.land (fd_flags en) O_APPEND =? 0) then umax 64 else fd_offset en) =? umax 64 then length cur
    else Nat.min (Z.to_nat (if negb (Z.land (fd_flags en) O_APPEND =? 0) then umax 64 else fd_offset en)) (length cur)) = write_at en cur).
  { unfold write_at. destruct (Z.land _ O_APPEND =? 0); cbn [negb]; [|by rewrite Z.eqb_refl]. by rewrite (proj2 (Z.eqb_neq _ _)) by lia. }
  rewrite Hwo. assert (Hwl : (write_at en cur <= length cur)%nat) by (unfold write_at; destruct (_ =? 0); lia).
  assert (((4096 <? length data)%nat || (4096 <? write_at en cur + length data)%nat) = (4096 <? write_at en cur + length data)%nat) as ->.
  { destruct (Nat.ltb_spec 4096 (length data)), (Nat.ltb_spec 4096 (write_at en cur + length data)); try done; lia. }
  destruct (Nat.ltb_spec 4096 (write_at en cur + length data)) as [|Hfit]; [by intros [= <- <- <-]|].
  rewrite splice_spec by done. fold (spliced en cur data). fold new. intros Hw.
  pose proof (spliced_length en cur data Hfit Hl) as Hnl. fold new in Hnl.
  assert (Hfc : fits_content new).
  { split; [unfold new, spliced; rewrite !Forall_app; split_and!; [by apply Forall_take|done|by apply Forall_drop]|unfold alen; lia]. }
  assert (Hupd : forall r2 s2 st2, on_store (object_update now (fd_object en) new author_posix msg_write) (b, ObjectStore.mk d (Some e) i) = Some (r2, (s2, st2)) ->
    s2 = b /\ exists e', engine st2 = Some e' /\ match r2 with Ok _ => rep U (ObjectStore.disk st2, e') (<[fd_object en := (ver, new) :: (v, cur) :: rest]> H) | Err _ => rep U (ObjectStore.disk st2, e') H end).
  { intros r2 s2 st2 (-> & s' & i' & Hu & ->)%on_update_inv. split; [done|]. exists s'.2. split; [done|].
    destruct (object_update_ok U now (fd_object en) new author_posix msg_write (d, e) H i r2 s' i' HR Hfc Hnow) as (_ & _ & Hr);
      [apply posix_msgs|apply posix_msgs|done|intros hist Hh; rewrite HH in Hh; by injection Hh as <-|done|].
    rewrite HH in Hr. destruct s' as [d' e']. cbn [ObjectStore.disk fst snd]. destruct r2; [by destruct Hr|done]. }
  prog_inv Hw.
  - subst r. destruct (Hupd _ _ _ Hm) as (-> & e' & He' & HR'). by exists e'.
  - destruct s as [b1 st1]. destruct (Hupd _ _ _ Hm) as (-> & e' & He' & HR'). injection Hk as <- <- <-. by exists e'.
Qed.
End io.

(** ** A bridge on the run of ObjectProps.v *)

Module PosixDemo.
Import DemoCodec Demo.

Definition demo_storage : ObjectStore.state := ObjectStore.mk x4.1.1 (Some x4.1.2) x4.2.
(** [/spaces/s/f] *)
Definition demo_path : list Z := [47; 115; 112; 97; 99; 101; 115; 47; 115; 47; 102].
Definition fd_rw : FdEntry := mk_fd sp obj 2 O_RDWR false.
Definition demo_bridge : Posix.t := set_fd Posix.new 0 (Some fd_rw).

Lemma demo_resolves : exists s', resolve_path demo_path (demo_bridge, demo_storage) = Some (Ok (sp, [102]), s').
Proof.
  assert (Hb : match resolve_path demo_path (demo_bridge, demo_storage) with
    | Some (Ok (a, b), _) => bool_decide (a = sp) && bool_decide (b = [102]) | _ => false end = true) by (vm_compute; reflexivity).
  destruct (resolve_path demo_path _) as [[[[a b]|] s']|]; [|done..].
  apply andb_prop in Hb as [->%bool_decide_eq_true_1 ->%bool_decide_eq_true_1]. by exists s'.
Qed.

Lemma demo_in_blocks : in_blocks [98; 121; 101] /\ in_blocks [98; 121; 104; 105] /\
  in_blocks (Version.bytes (new_version
    (from_option CompactObject.version_head hash_ZERO (ObjectIndex.get (object_index x4.1.2) obj)) (sha256 [98; 121; 104; 105]) 4 obj 10 author_posix msg_write)).
Proof.
  unfold in_blocks. assert (Hb : (bool_decide ([98; 121; 101] ∈ blocks) && bool_decide ([98; 121; 104; 105] ∈ blocks) &&
    bool_decide (Version.bytes (new_version (from_option CompactObject.version_head hash_ZERO (ObjectIndex.get (object_index x4.1.2) obj))
      (sha256 [98; 121; 104; 105]) 4 obj 10 author_posix msg_write) ∈ blocks)) = true) by (vm_compute; reflexivity).
  apply andb_prop in Hb as [Hb H3%bool_decide_eq_true_1]. apply andb_prop in Hb as [H1%bool_decide_eq_true_1 H2%bool_decide_eq_true_1]. done.
Qed.

Lemma demo_object : exists o, ObjectIndex.get (object_index x4.1.2) obj = Some o /\ CompactObject.content_hash o = sha256 [98; 121; 101].
Proof.
  assert (Hb : match ObjectIndex.get (object_index x4.1.2) obj with
    | Some o => bool_decide (CompactObject.content_hash o = sha256 [98; 121; 101]) | None => false end = true) by (vm_compute; reflexivity).
  destruct (ObjectIndex.get _ obj) as [o|]; [|done]. exists o. split; [done|]. by apply bool_decide_eq_true_1 in Hb.
Qed.

(** The history of the object: its newest content, and the head that the next version names. *)
Lemma demo_history : exists H v rest, rep in_blocks x4.1 H /\ H !! obj = Some ((v, [98; 121; 101]) :: rest) /\
  in_blocks (Version.bytes (updated ((v, [98; 121; 101]) :: rest) [98; 121; 104; 105] obj 10 author_posix msg_write)).
Proof.
  pose proof blocks_free as CF. destruct (exec_refines in_blocks blank_disk 5 trace x4) as (H & _ & HR);
    [vm_compute; split; congruence|exact demo_exec|].
  destruct demo_object as (o & Hg & Hc). destruct demo_in_blocks as (HU1 & _ & HU3). rewrite Hg in HU3.
  destruct (newest_content in_blocks _ _ _ _ _ HR Hg Hc HU1) as (v & rest & HH & Hhd).
  exists H, v, rest. split; [exact HR|]. split; [exact HH|]. unfold updated. rewrite Hhd. exact HU3.
Qed.
End PosixDemo.

(** ** Properties *)

(** a path resolves only inside the storage: when [resolve_path] succeeds it changed
    nothing, the space it returns is in the space table, no component of the path (split at
    slashes, after the leading one) is [.] or [..], and neither is any component of the
    object name, which is the part of the path after the one that names the space. *)
Theorem resolve_path_confined (C : Codec) (D : Type) (BD : BlockDevice D) (path : list Z)
    (s s' : Posix.t * ObjectStore.state (D := D)) (sp : SpaceId) (name : list Z) :
  resolve_path path s = Some (Ok (sp, name), s') ->
  s' = s /\
  (forall c, c ∈ components (strip_slash path) -> ~ dotted c) /\ (forall c, c ∈ components name -> ~ dotted c) /\
  (name = [] \/ exists pre, strip_slash path = pre ++ slash :: name) /\
  exists e space, engine s.2 = Some e /\ space ∈ occupied (space_table e) /\ Space.id space = sp.
Proof.
  intros (-> & Ht & Hn & Hsp)%resolve_path_inv. assert (Hd : forall c, c ∈ components (strip_slash path) -> ~ dotted c).
  { intros c Hin Hc. enough (contains_traversal (strip_slash path) = true) by congruence. apply traversal_loop_spec; [lia|]. by exists c. }
  split_and!; [done..| |done|done]. destruct Hn as [->|[pre Hp]].
  - intros c ->%list_elem_of_singleton [?|?]; done.
  - intros c Hin. apply Hd. rewrite Hp, components_app. apply elem_of_app. by right.
Qed.

Lemma resolve_path_confined_witness : exists s',
  resolve_path PosixDemo.demo_path (PosixDemo.demo_bridge, PosixDemo.demo_storage) = Some (Ok (Demo.sp, [102]), s') /\
  forall c, c ∈ components [102] -> ~ dotted c.
Proof.
  destruct PosixDemo.demo_resolves as (s' & Hr). exists s'. split; [exact Hr|].
  exact (proj1 (proj2 (proj2 (resolve_path_confined _ _ _ _ _ _ _ _ Hr)))).
Defined.

(** [alloc_fd] fails, with [FdTableFull] and without changing the table, exactly when all
    256 descriptors are open; otherwise it returns the index of a free slot and leaves
    the open ones alone. *)
Theorem alloc_fd_exact (b : Posix.t) : table_wf b ->
  match alloc_fd b with
  | (Ok fd, b') => fd_table b !! fd = Some None /\ fd_table b' = fd_table b /\ table_wf b'
  | (Err e, b') => e = FdTableFull /\ b' = b /\ forall fd, (fd < MAX_FDS)%nat -> is_Some (entry_of b fd)
  end.
Proof.
  intros Hw. pose proof (alloc_loop_spec MAX_FDS 0 b Hw eq_refl ltac:(lia)) as Ha. unfold alloc_fd.
  destruct (alloc_loop MAX_FDS 0 b) as [[fd|e] b']; [done|]. destruct Ha as (-> & -> & Hall). split_and!; [done..|].
  intros fd Hfd. destruct (slot_covered b fd Hw Hfd) as (j & Hj & ->). destruct (Hall j Hj) as [en Hen]. exists en. unfold entry_of. by rewrite Hen.
Qed.

Lemma alloc_fd_exact_witness : table_wf Posix.new /\ fd_table Posix.new !! 0%nat = Some None.
Proof.
  assert (Hw : table_wf Posix.new) by (split; [apply length_replicate|cbn; unfold MAX_FDS; lia]). split; [exact Hw|].
  pose proof (alloc_fd_exact Posix.new Hw) as Ha. assert (Hb : alloc_fd Posix.new = (Ok 0%nat, Posix.mk (fd_table Posix.new) 1)) by (vm_compute; reflexivity).
  rewrite Hb in Ha. exact (proj1 Ha).
Defined.

(** reading a descriptor returns the bytes of the newest version of its object from the
    descriptor's offset on, as many as there are and as the buffer holds, and advances
    the offset of that descriptor by their number; nothing else changes. *)
Theorem posix_read_slice (C : Codec) (CS : CodecSpec) (D : Type) (BD : BlockDevice D) (BDS : BlockDeviceSpec D)
    (U : list Z -> Prop) (CF : CollisionFree U) (d : D) (e : Engine.t) (i : Ids.t) (H : gmap ObjectId history)
    (b : Posix.t) (fd : nat) (en : FdEntry) (v : Version.t) (data : list Z) (rest : history) (buf : list Z) :
  rep U (d, e) H -> entry_of b fd = Some en -> Z.land (fd_flags en) 3 <> O_WRONLY ->
  H !! fd_object en = Some ((v, data) :: rest) -> (length data <= 4096)%nat -> 0 <= fd_offset en ->
  let n := Z.max 0 (Z.min (alen data - fd_offset en) (alen buf)) in
  exists b', read fd buf (b, ObjectStore.mk d (Some e) i) =
    Some (Ok (n, copy_at buf 0 (take (Z.to_nat n) (drop (Z.to_nat (fd_offset en)) data))), (b', ObjectStore.mk d (Some e) i)) /\
  (option_map fd_offset (entry_of b' fd) = Some (fd_offset en + n)) /\ forall fd', fd' <> fd -> entry_of b' fd' = entry_of b fd'.
Proof.
  intros HR He Hfl HH Hl Ho n. destruct (read_run U d e i H b fd en v data rest buf HR He Hfl HH Hl Ho) as (b' & Hrun & Hnz & Hz).
  fold n in Hrun, Hnz, Hz. exists b'. split; [exact Hrun|]. pose proof (set_offset_entry b fd en) as Hs.
  assert (Hcases : b' = set_offset b fd (fd_offset en + n) \/ (n = 0 /\ b' = b)).
  { destruct (decide (n = 0)) as [E|]; [|left; by destruct Hnz]. destruct (Hz E) as [->| ->]; [by right|left; by rewrite E, Z.add_0_r]. }
  destruct Hcases as [->|[-> ->]]; [destruct (Hs (fd_offset en + n) He) as [-> Ho']; by split|]. rewrite He, Z.add_0_r. by split.
Qed.

Lemma posix_read_slice_witness : exists b', read 0 (replicate 5 0) (PosixDemo.demo_bridge, PosixDemo.demo_storage) =
    Some (Ok (1, [101; 0; 0; 0; 0]), (b', PosixDemo.demo_storage)) /\ option_map fd_offset (entry_of b' 0) = Some 3.
Proof.
  destruct PosixDemo.demo_history as (H & v & rest & HR & HH & _).
  destruct (posix_read_slice _ _ _ _ _ Demo.in_blocks Demo.blocks_free (fst (fst Demo.x4)) (snd (fst Demo.x4)) (snd Demo.x4) H
    PosixDemo.demo_bridge 0 PosixDemo.fd_rw v [98; 121; 101] rest (replicate 5 0)) as (b' & Hrun & Hoff & _);
    [|reflexivity|discriminate|exact HH|cbn; lia|cbn; lia|exists b'; split; [exact Hrun|exact Hoff]].
  rewrite <-surjective_pairing. exact HR.
Defined.

(** C31: writing to a descriptor replaces the newest version of its object by a new one in which
    the data overwrite the content from the offset on (or from the end with [O_APPEND]) and
    the bytes beyond are kept, and moves the offset behind the data; a write that would pass
    4096 bytes fails with [QuotaExceeded], and every failure leaves the object, its
    history and the descriptor as they were. *)
Theorem posix_write_splices (C : Codec) (CS : CodecSpec) (D : Type) (BD : BlockDevice D) (BDS : BlockDeviceSpec D)
    (U : list Z -> Prop) (CF : CollisionFree U) (d : D) (e : Engine.t) (i : Ids.t) (H : gmap ObjectId history) (now : Z)
    (b : Posix.t) (fd : nat) (en : FdEntry) (v : Version.t) (cur : list Z) (rest : history) (data : list Z)
    (r : result StorageError Z) (b' : Posix.t) (st' : ObjectStore.state) :
  rep U (d, e) H -> entry_of b fd = Some en -> Z.land (fd_flags en) 3 <> O_RDONLY ->
  H !! fd_object en = Some ((v, cur) :: rest) -> (length cur <= 4096)%nat -> 0 <= fd_offset en < umax 64 ->
  uint 64 now -> Forall is_byte cur -> Forall is_byte data -> U (spliced en cur data) ->
  U (Version.bytes (updated ((v, cur) :: rest) (spliced en cur data) (fd_object en) now author_posix msg_write)) ->
  write now fd data (b, ObjectStore.mk d (Some e) i) = Some (r, (b', st')) ->
  if (4096 <? write_at en cur + length data)%nat then r = Err QuotaExceeded /\ b' = b /\ st' = ObjectStore.mk d (Some e) i
  else exists e', engine st' = Some e' /\
    match r with
    | Ok n => n = alen data /\ b' = set_offset b fd (Z.of_nat (write_at en cur + length data)) /\
        rep U (ObjectStore.disk st', e')
          (<[fd_object en := (updated ((v, cur) :: rest) (spliced en cur data) (fd_object en) now author_posix msg_write,
                              spliced en cur data) :: (v, cur) :: rest]> H)
    | Err _ => b' = b /\ rep U (ObjectStore.disk st', e') H
    end.
Proof. intros HR He Hfl HH Hl Ho Hn Hc Hd HU1 HU2. by apply write_run. Qed.

Lemma posix_write_splices_witness : exists b' st' H e',
  write 10 0 [104; 105] (PosixDemo.demo_bridge, PosixDemo.demo_storage) = Some (Ok 2, (b', st')) /\
  rep Demo.in_blocks (ObjectStore.disk st', e') H /\ snd <$> (H !! Demo.obj ≫= head) = Some [98; 121; 104; 105].
Proof.
  destruct PosixDemo.demo_history as (H & v & rest & HR & HH & HU).
  assert (Hb : match write 10 0 [104; 105] (PosixDemo.demo_bridge, PosixDemo.demo_storage) with Some (Ok n, _) => n =? 2 | _ => false end = true)
    by (vm_compute; reflexivity).
  destruct (write 10 0 [104; 105] _) as [[[n|] [b' st']]|] eqn:Ew; [|discriminate Hb..]. apply Z.eqb_eq in Hb as ->.
  pose proof (posix_write_splices _ _ _ _ _ Demo.in_blocks Demo.blocks_free (fst (fst Demo.x4)) (snd (fst Demo.x4)) (snd Demo.x4) H 10
    PosixDemo.demo_bridge 0 PosixDemo.fd_rw v [98; 121; 101] rest [104; 105] (Ok 2) b' st') as Hp.
  destruct Hp as (e' & _ & _ & _ & HR');
    [rewrite <-surjective_pairing; exact HR|reflexivity|discriminate|exact HH|cbn; lia|cbn; unfold umax; lia|unfold uint; lia
    |repeat (constructor; [unfold is_byte; lia|]); constructor|repeat (constructor; [unfold is_byte; lia|]); constructor
    |exact (proj1 (proj2 PosixDemo.demo_in_blocks))|exact HU|exact Ew|].
  exists b', st'. eexists _, e'. split; [reflexivity|]. split; [exact HR'|]. by rewrite lookup_insert_eq.
Defined.

(** A file that [open] created is not empty: it holds the NUL byte that stands for no content. *)
Example new_file_reads_nul :
  match (fd <- Posix.open 11 11 [47; 115; 112; 97; 99; 101; 115; 47; 115; 47; 103] (Z.lor O_RDWR O_CREAT) ;; read fd [7; 7; 7])
          (Posix.new, PosixDemo.demo_storage) with
  | Some (Ok (n, buf), _) => Some (n, buf)
  | _ => None
  end = Some (1, [0; 7; 7]).
Proof. vm_compute. reflexivity. Qed.
