(* ===== verification/Input.v ===== *)
(** * Input: evdev keys and the input subsystem

    The key codes, events and coordinate conversion of shared/src/input.rs and
    the translation of raw device events in kernel/src/input/mod.rs: keyboard
    events are queued at once with the modifier state, pointer events collect
    until the [SYN_REPORT] that ends their group.  The globals of the module
    ([INPUT_QUEUE], [MODIFIER_STATE], [PENDING_POINTER], the cached display
    size) are the fields of [input].  The VirtIO driver is not modelled: what
    [poll_all] returned, call by call, and the axis ranges its device table
    holds are arguments. *)

From S2P Require Import Prelude Collections.

(** ** Evdev constants *)

Definition EV_SYN : Z := 0.
Definition EV_KEY : Z := 1.
Definition EV_ABS : Z := 3.
Definition SYN_REPORT : Z := 0.
Definition BTN_LEFT : Z := 0x110.
Definition BTN_RIGHT : Z := 0x111.
Definition BTN_MIDDLE : Z := 0x112.
Definition ABS_X : Z := 0.
Definition ABS_Y : Z := 1.

(** Logical keys. *)
Inductive KeyCode :=
| KeyA | KeyB | KeyC | KeyD | KeyE | KeyF | KeyG | KeyH | KeyI | KeyJ | KeyK | KeyL | KeyM
| KeyN | KeyO | KeyP | KeyQ | KeyR | KeyS | KeyT | KeyU | KeyV | KeyW | KeyX | KeyY | KeyZ
| Num0 | Num1 | Num2 | Num3 | Num4 | Num5 | Num6 | Num7 | Num8 | Num9
| Enter | Esc | Backspace | Tab | Space | Minus | Equal | LeftBracket | RightBracket
| Backslash | Semicolon | Apostrophe | Grave | Comma | Period | Slash | CapsLock | Delete
| Home | End_ | PageUp | PageDown
| F1 | F2 | F3 | F4 | F5 | F6 | F7 | F8 | F9 | F10 | F11 | F12
| Up | Down | Left_ | Right_
| LeftShift | RightShift | LeftCtrl | RightCtrl | LeftAlt | RightAlt | LeftSuper | RightSuper
| Unknown (code : Z).

#[export] Instance KeyCode_eq_dec : EqDecision KeyCode.
Proof. solve_decision. Defined.

(** [KeyCode::from_evdev], the match on the [KEY_*] constants written with
    their values. *)
Definition from_evdev (code : Z) : KeyCode :=
  match code with
  | 30 => KeyA | 48 => KeyB | 46 => KeyC | 32 => KeyD | 18 => KeyE | 33 => KeyF | 34 => KeyG
  | 35 => KeyH | 23 => KeyI | 36 => KeyJ | 37 => KeyK | 38 => KeyL | 50 => KeyM | 49 => KeyN
  | 24 => KeyO | 25 => KeyP | 16 => KeyQ | 19 => KeyR | 31 => KeyS | 20 => KeyT | 22 => KeyU
  | 47 => KeyV | 17 => KeyW | 45 => KeyX | 21 => KeyY | 44 => KeyZ
  | 11 => Num0 | 2 => Num1 | 3 => Num2 | 4 => Num3 | 5 => Num4 | 6 => Num5 | 7 => Num6
  | 8 => Num7 | 9 => Num8 | 10 => Num9
  | 28 => Enter | 1 => Esc | 14 => Backspace | 15 => Tab | 57 => Space | 12 => Minus
  | 13 => Equal | 26 => LeftBracket | 27 => RightBracket | 43 => Backslash | 39 => Semicolon
  | 40 => Apostrophe | 41 => Grave | 51 => Comma | 52 => Period | 53 => Slash
  | 58 => CapsLock | 111 => Delete | 102 => Home | 107 => End_ | 104 => PageUp
  | 109 => PageDown
  | 59 => F1 | 60 => F2 | 61 => F3 | 62 => F4 | 63 => F5 | 64 => F6 | 65 => F7 | 66 => F8
  | 67 => F9 | 68 => F10 | 87 => F11 | 88 => F12
  | 103 => Up | 108 => Down | 105 => Left_ | 106 => Right_
  | 42 => LeftShift | 54 => RightShift | 29 => LeftCtrl | 97 => RightCtrl | 56 => LeftAlt
  | 100 => RightAlt | 125 => LeftSuper | 126 => RightSuper
  | other => Unknown other
  end.

(** [KeyCode::to_evdev]. *)
Definition to_evdev (k : KeyCode) : Z :=
  match k with
  | KeyA => 30 | KeyB => 48 | KeyC => 46 | KeyD => 32 | KeyE => 18 | KeyF => 33 | KeyG => 34
  | KeyH => 35 | KeyI => 23 | KeyJ => 36 | KeyK => 37 | KeyL => 38 | KeyM => 50 | KeyN => 49
  | KeyO => 24 | KeyP => 25 | KeyQ => 16 | KeyR => 19 | KeyS => 31 | KeyT => 20 | KeyU => 22
  | KeyV => 47 | KeyW => 17 | KeyX => 45 | KeyY => 21 | KeyZ => 44
  | Num0 => 11 | Num1 => 2 | Num2 => 3 | Num3 => 4 | Num4 => 5 | Num5 => 6 | Num6 => 7
  | Num7 => 8 | Num8 => 9 | Num9 => 10
  | Enter => 28 | Esc => 1 | Backspace => 14 | Tab => 15 | Space => 57 | Minus => 12
  | Equal => 13 | LeftBracket => 26 | RightBracket => 27 | Backslash => 43 | Semicolon => 39
  | Apostrophe => 40 | Grave => 41 | Comma => 51 | Period => 52 | Slash => 53
  | CapsLock => 58 | Delete => 111 | Home => 102 | End_ => 107 | PageUp => 104
  | PageDown => 109
  | F1 => 59 | F2 => 60 | F3 => 61 | F4 => 62 | F5 => 63 | F6 => 64 | F7 => 65 | F8 => 66
  | F9 => 67 | F10 => 68 | F11 => 87 | F12 => 88
  | Up => 103 | Down => 108 | Left_ => 105 | Right_ => 106
  | LeftShift => 42 | RightShift => 54 | LeftCtrl => 29 | RightCtrl => 97 | LeftAlt => 56
  | RightAlt => 100 | LeftSuper => 125 | RightSuper => 126
  | Unknown code => code
  end.

(** ** Typed events *)

Inductive KeyState := KeyReleased | KeyPressed | KeyRepeat.
Inductive MouseButton := ButtonLeft | ButtonRight | ButtonMiddle.
Inductive ButtonState := BtnPressed | BtnReleased.

#[export] Instance KeyState_eq_dec : EqDecision KeyState.
Proof. solve_decision. Defined.
#[export] Instance MouseButton_eq_dec : EqDecision MouseButton.
Proof. solve_decision. Defined.
#[export] Instance ButtonState_eq_dec : EqDecision ButtonState.
Proof. solve_decision. Defined.

Definition key_state_from_value (value : Z) : option KeyState :=
  match value with
  | 0 => Some KeyReleased | 1 => Some KeyPressed | 2 => Some KeyRepeat | _ => None
  end.

Definition MOD_SHIFT : Z := 1.
Definition MOD_CTRL : Z := 2.
Definition MOD_ALT : Z := 4.
Definition MOD_SUPER : Z := 8.

Inductive InputEvent :=
| Keyboard (key : KeyCode) (state : KeyState) (modifiers : Z)
| Pointer (x y : Z) (button : option MouseButton) (state : option ButtonState).

#[export] Instance InputEvent_eq_dec : EqDecision InputEvent.
Proof. solve_decision. Defined.

(** [abs_to_display]: an axis value to a display coordinate; the product is
    taken at 64 bits, the result cut to 32. *)
Definition abs_to_display (abs_val abs_max display_dim : Z) : Z :=
  if (abs_max =? 0) || (display_dim =? 0) then 0
  else
    let clamped := if abs_val >? abs_max then abs_max else abs_val in
    wrap 32 (wrap 64 (clamped * display_dim) / (abs_max + 1)).

(** ** The input subsystem *)

Record VirtioInputEvent := raw_event { event_type : Z; code : Z; value : Z }.

Record PendingPointer := {
  pp_x : Z; pp_y : Z;
  pp_button : option MouseButton;
  pp_state : option ButtonState;
  pp_dirty : bool
}.

Record input := mk_input {
  queue : @FixedQueue.t InputEvent;
  modifier_state : Z;
  poll_due : bool;
  pending : PendingPointer;
  display_width : Z;
  display_height : Z
}.

Definition INPUT_QUEUE_LEN : Z := 256.

Definition input_boot : input :=
  mk_input (FixedQueue.new INPUT_QUEUE_LEN) 0 false (Build_PendingPointer 0 0 None None false) 1280 800.

Definition with_pending (p : PendingPointer) (s : input) : input :=
  mk_input (queue s) (modifier_state s) (poll_due s) p (display_width s) (display_height s).

(** [push_back] on [INPUT_QUEUE]; a full queue drops the event with a warning. *)
Definition push_event (e : InputEvent) (s : input) : input :=
  mk_input (FixedQueue.push_back INPUT_QUEUE_LEN (queue s) e).2
    (modifier_state s) (poll_due s) (pending s) (display_width s) (display_height s).

Definition pop_event (s : input) : option InputEvent * input :=
  let (e, q) := FixedQueue.pop_front INPUT_QUEUE_LEN (queue s) in
  (e, mk_input q (modifier_state s) (poll_due s) (pending s) (display_width s) (display_height s)).

(** The modifier flag of a key, if it is a modifier key. *)
Definition modifier_flag (code : Z) : option Z :=
  match code with
  | 42 | 54 => Some MOD_SHIFT
  | 29 | 97 => Some MOD_CTRL
  | 56 | 100 => Some MOD_ALT
  | 125 | 126 => Some MOD_SUPER
  | _ => None
  end.

Definition update_modifiers (code value : Z) (s : input) : input :=
  match modifier_flag code with
  | None => s
  | Some flag =>
      let m := if negb (value =? 0) then Z.lor (modifier_state s) flag
               else Z.land (modifier_state s) (unot 8 flag) in
      mk_input (queue s) m (poll_due s) (pending s) (display_width s) (display_height s)
  end.

Definition process_key_event (code value : Z) (s : input) : input :=
  let key := from_evdev code in
  let s := update_modifiers code value s in
  match key_state_from_value value with
  | None => s
  | Some state => push_event (Keyboard key state (modifier_state s)) s
  end.

Definition process_button_event (code value : Z) (s : input) : input :=
  let set b :=
    let st := if negb (value =? 0) then BtnPressed else BtnReleased in
    let p := pending s in
    with_pending (Build_PendingPointer (pp_x p) (pp_y p) (Some b) (Some st) true) s in
  if code =? BTN_LEFT then set ButtonLeft
  else if code =? BTN_RIGHT then set ButtonRight
  else if code =? BTN_MIDDLE then set ButtonMiddle
  else s.

(** [get_abs_info] over the driver's device table: the range of the first
    device that has absolute axes. *)
Fixpoint first_abs (devs : list (option (Z * Z))) : option (Z * Z) :=
  match devs with
  | [] => None
  | Some r :: _ => Some r
  | None :: devs' => first_abs devs'
  end.
Definition get_abs_max_x (devs : list (option (Z * Z))) : Z := from_option fst 32767 (first_abs devs).
Definition get_abs_max_y (devs : list (option (Z * Z))) : Z := from_option snd 32767 (first_abs devs).

Definition process_abs_event (devs : list (option (Z * Z))) (code value : Z) (s : input) : input :=
  let p := pending s in
  if code =? ABS_X then
    let new_x := abs_to_display value (get_abs_max_x devs) (display_width s) in
    with_pending (Build_PendingPointer new_x (pp_y p) (pp_button p) (pp_state p) true) s
  else if code =? ABS_Y then
    let new_y := abs_to_display value (get_abs_max_y devs) (display_height s) in
    with_pending (Build_PendingPointer (pp_x p) new_y (pp_button p) (pp_state p) true) s
  else s.

Definition flush_pending_pointer (s : input) : input :=
  let p := pending s in
  if negb (pp_dirty p) then s
  else
    push_event (Pointer (pp_x p) (pp_y p) (pp_button p) (pp_state p))
      (with_pending (Build_PendingPointer (pp_x p) (pp_y p) None None false) s).

Definition process_raw_event (devs : list (option (Z * Z))) (raw : VirtioInputEvent) (s : input) : input :=
  if event_type raw =? EV_KEY then
    if code raw <? BTN_LEFT then process_key_event (code raw) (value raw) s
    else process_button_event (code raw) (value raw) s
  else if event_type raw =? EV_ABS then process_abs_event devs (code raw) (value raw) s
  else if (event_type raw =? EV_SYN) && (code raw =? SYN_REPORT) then flush_pending_pointer s
  else s.

Definition process_raw_events (devs : list (option (Z * Z))) (raws : list VirtioInputEvent) (s : input) : input :=
  foldl (fun s raw => process_raw_event devs raw s) s raws.

(** [poll_if_due]: [polls] is what the calls of [poll_all] returned; the loop
    ends at the first empty one. *)
Fixpoint poll_loop (devs : list (option (Z * Z))) (polls : list (list VirtioInputEvent)) (s : input) : input :=
  match polls with
  | [] | [] :: _ => s
  | batch :: polls' => poll_loop devs polls' (process_raw_events devs batch s)
  end.

Definition set_poll_due (s : input) : input :=
  mk_input (queue s) (modifier_state s) true (pending s) (display_width s) (display_height s).

Definition poll_if_due (devs : list (option (Z * Z))) (polls : list (list VirtioInputEvent)) (s : input) : input :=
  if negb (poll_due s) then s
  else poll_loop devs polls
         (mk_input (queue s) (modifier_state s) false (pending s) (display_width s) (display_height s)).

(** ** Key codes *)

Lemma to_from_evdev c : to_evdev (from_evdev c) = c.
Proof. unfold from_evdev. repeat case_match; reflexivity. Qed.

(** translating an evdev code to a [KeyCode] and back loses nothing, and every [KeyCode] the
    translation produces survives the trip through its wire format; in particular no two codes
    share a key. *)
Theorem key_code_roundtrip c :
  to_evdev (from_evdev c) = c /\ from_evdev (to_evdev (from_evdev c)) = from_evdev c.
Proof. by rewrite to_from_evdev. Qed.

(** ** Coordinates *)

Lemma abs_to_display_value v m d : uint 32 v -> uint 32 m -> uint 32 d -> 0 < m -> 0 < d ->
  abs_to_display v m d = Z.min v m * d / (m + 1).
Proof.
  unfold uint, abs_to_display. intros Hv Hm Hd Hm0 Hd0.
  destruct (Z.eqb_spec m 0), (Z.eqb_spec d 0); try lia. cbn [orb].
  replace (if v >? m then m else v) with (Z.min v m) by (destruct (v >? m) eqn:?; lia).
  assert (0 <= Z.min v m * d < 2 ^ 64) by nia. rewrite (wrap_small 64) by done.
  apply wrap_small. split; [apply Z.div_pos; lia|]. apply Z.div_lt_upper_bound; nia.
Qed.

(** the display coordinate of an axis value is on the display, whatever the device reports;
    it grows with the axis value, starts at pixel 0, and ends at the last pixel on a device with
    at least as many positions as the display has pixels. *)
Theorem abs_to_display_on_screen v v' m d :
  uint 32 v -> uint 32 v' -> uint 32 m -> uint 32 d -> 0 < m -> 0 < d -> v <= v' ->
  0 <= abs_to_display v m d < d /\
  abs_to_display v m d <= abs_to_display v' m d /\
  abs_to_display 0 m d = 0 /\
  (d <= m + 1 -> m <= v' -> abs_to_display v' m d = d - 1).
Proof.
  intros Hv Hv' Hm Hd Hm0 Hd0 Hle. rewrite !abs_to_display_value by (done || (unfold uint; lia)).
  unfold uint in *. split_and!.
  - apply Z.div_pos; nia.
  - apply Z.div_lt_upper_bound; nia.
  - apply Z.div_le_mono; nia.
  - rewrite Z.min_l by lia. apply Z.div_0_l. lia.
  - intros. rewrite Z.min_r by lia. symmetry. apply (Z.div_unique _ _ _ (m * d - (m + 1) * (d - 1))); nia.
Qed.

Lemma abs_to_display_on_screen_witness :
  0 <= abs_to_display 40000 32767 1280 < 1280 /\ abs_to_display 40000 32767 1280 = 1279.
Proof.
  assert (H : uint 32 40000 /\ uint 32 32767 /\ uint 32 1280) by (unfold uint; lia).
  destruct H as (Hv & Hm & Hd).
  pose proof (abs_to_display_on_screen 40000 40000 32767 1280 Hv Hv Hm Hd eq_refl eq_refl (Z.le_refl _)) as (H1 & _ & _ & H4).
  split; [exact H1|]. apply H4; lia.
Defined.

(** ** Event groups *)

Definition is_syn (r : VirtioInputEvent) : bool := (event_type r =? EV_SYN) && (code r =? SYN_REPORT).
Definition is_axis (axis : Z) (r : VirtioInputEvent) : bool := (event_type r =? EV_ABS) && (code r =? axis).
Definition is_button (r : VirtioInputEvent) : bool :=
  (event_type r =? EV_KEY) && (BTN_LEFT <=? code r) && (code r <=? BTN_MIDDLE).
Definition is_key (r : VirtioInputEvent) : bool :=
  (event_type r =? EV_KEY) && (code r <? BTN_LEFT) && bool_decide (is_Some (key_state_from_value (value r))).
Definition is_pointer (r : VirtioInputEvent) : bool := is_axis ABS_X r || is_axis ABS_Y r || is_button r.

Definition button_of (r : VirtioInputEvent) : MouseButton :=
  if code r =? BTN_LEFT then ButtonLeft else if code r =? BTN_RIGHT then ButtonRight else ButtonMiddle.
Definition button_state_of (r : VirtioInputEvent) : ButtonState :=
  if negb (value r =? 0) then BtnPressed else BtnReleased.

(** The last event of a group with a property. *)
Definition last_of (f : VirtioInputEvent -> bool) (raws : list VirtioInputEvent) : option VirtioInputEvent :=
  last (filter (fun r => f r = true) raws).

Lemma last_of_snoc f raws r :
  last_of f (raws ++ [r]) = if f r then Some r else last_of f raws.
Proof.
  unfold last_of. rewrite filter_app, filter_cons, filter_nil.
  destruct (decide (f r = true)) as [E|E]; [by rewrite E, last_snoc|].
  apply not_true_is_false in E. by rewrite E, app_nil_r.
Qed.

(** The pointer state after a group: the last position of each axis, the
    last button. *)
Definition collected (devs : list (option (Z * Z))) (s : input) (raws : list VirtioInputEvent) : PendingPointer :=
  let p := pending s in
  Build_PendingPointer
    (from_option (fun r => abs_to_display (value r) (get_abs_max_x devs) (display_width s)) (pp_x p)
       (last_of (is_axis ABS_X) raws))
    (from_option (fun r => abs_to_display (value r) (get_abs_max_y devs) (display_height s)) (pp_y p)
       (last_of (is_axis ABS_Y) raws))
    (from_option (fun r => Some (button_of r)) (pp_button p) (last_of is_button raws))
    (from_option (fun r => Some (button_state_of r)) (pp_state p) (last_of is_button raws))
    (pp_dirty p || existsb is_pointer raws).

Definition keyboard_key (e : InputEvent) : option KeyCode :=
  match e with Keyboard k _ _ => Some k | Pointer _ _ _ _ => None end.
Definition group_keys (raws : list VirtioInputEvent) : list (option KeyCode) :=
  (fun r => Some (from_evdev (code r))) <$> filter (fun r => is_key r = true) raws.

Lemma push_event_rep e s l :
  FixedQueue.rep INPUT_QUEUE_LEN (queue s) l -> alen l < INPUT_QUEUE_LEN ->
  FixedQueue.rep INPUT_QUEUE_LEN (queue (push_event e s)) (l ++ [e]).
Proof.
  intros Hr Hl. destruct (FixedQueue.fq_rep_push INPUT_QUEUE_LEN ltac:(done) _ _ e Hr) as [_ H].
  unfold Fifo.push in H. destruct (Z.geb_spec (alen l) INPUT_QUEUE_LEN); [lia|done].
Qed.

(** A raw event other than [SYN_REPORT] collects, or queues one keyboard
    event. *)
Lemma last_of_one f r : last_of f [r] = if f r then Some r else None.
Proof. apply (last_of_snoc f []). Qed.

Lemma process_key_event_spec c v s l :
  FixedQueue.rep INPUT_QUEUE_LEN (queue s) l -> alen l < INPUT_QUEUE_LEN ->
  let s' := process_key_event c v s in
  pending s' = pending s /\ display_width s' = display_width s /\ display_height s' = display_height s /\
  exists ks, FixedQueue.rep INPUT_QUEUE_LEN (queue s') (l ++ ks) /\
    keyboard_key <$> ks = if key_state_from_value v is Some _ then [Some (from_evdev c)] else [].
Proof.
  intros Hr Hl. set (s1 := update_modifiers c v s).
  assert (Hs : queue s1 = queue s /\ pending s1 = pending s /\ display_width s1 = display_width s /\
    display_height s1 = display_height s) by (subst s1; unfold update_modifiers; by destruct (modifier_flag c)).
  destruct Hs as (Hq & Hp & Hw & Hh). unfold process_key_event. cbn zeta. fold s1.
  destruct (key_state_from_value v) as [st|]; cbn; split_and!; try done.
  - exists [Keyboard (from_evdev c) st (modifier_state s1)]. split; [|done].
    apply push_event_rep; [by rewrite Hq|done].
  - exists []. by rewrite app_nil_r, Hq.
Qed.

Lemma process_raw_event_spec devs r s l :
  is_syn r = false -> FixedQueue.rep INPUT_QUEUE_LEN (queue s) l -> alen l < INPUT_QUEUE_LEN ->
  let s' := process_raw_event devs r s in
  pending s' = collected devs s [r] /\ display_width s' = display_width s /\
  display_height s' = display_height s /\
  exists ks, FixedQueue.rep INPUT_QUEUE_LEN (queue s') (l ++ ks) /\ keyboard_key <$> ks = group_keys [r].
Proof.
  destruct r as [ty c v]. intros Hs Hr Hl.
  assert (Hnil : exists ks, FixedQueue.rep INPUT_QUEUE_LEN (queue s) (l ++ ks) /\ keyboard_key <$> ks = [])
    by (exists []; by rewrite app_nil_r).
  unfold process_raw_event, collected, group_keys. rewrite !last_of_one, filter_cons, filter_nil.
  unfold is_syn, is_pointer, existsb, is_axis, is_button, is_key in *. cbn [event_type code value] in *.
  destruct (pending s) as [px py pb pst pd] eqn:Ep.
  destruct (Z.eqb_spec ty EV_KEY) as [->|]; [destruct (Z.ltb_spec c BTN_LEFT)|].
  - destruct (process_key_event_spec c v s l Hr Hl) as (E1 & E2 & E3 & ks & E4 & E5).
    rewrite Ep in E1.
    replace (BTN_LEFT <=? c) with false by lia. cbn. rewrite orb_false_r.
    split_and!; [done..|]. exists ks. split; [done|]. rewrite E5.
    by destruct (key_state_from_value v); [rewrite decide_True by (by rewrite bool_decide_true)|].
  - replace (BTN_LEFT <=? c) with true by lia. rewrite decide_False by (by destruct (EV_KEY =? EV_KEY)).
    unfold process_button_event, BTN_LEFT, BTN_RIGHT, BTN_MIDDLE, button_of, button_state_of in *. cbn [code value].
    destruct (Z.eqb_spec c 272); [subst; cbn; rewrite Ep; cbn; by rewrite ?orb_true_r|].
    destruct (Z.eqb_spec c 273); [subst; cbn; rewrite Ep; cbn; by rewrite ?orb_true_r|].
    destruct (Z.eqb_spec c 274); [subst; cbn; rewrite Ep; cbn; by rewrite ?orb_true_r|].
    replace (c <=? 274) with false by lia. cbn. rewrite Ep, orb_false_r. done.
  - cbn [andb]. rewrite decide_False by done. destruct (Z.eqb_spec ty EV_ABS) as [->|].
    + unfold process_abs_event. destruct (Z.eqb_spec c ABS_X) as [->|].
      { cbn. rewrite Ep. cbn. by rewrite orb_true_r. }
      destruct (Z.eqb_spec c ABS_Y) as [->|]; cbn; rewrite Ep; cbn; by rewrite ?orb_true_r, ?orb_false_r.
    + rewrite Hs. cbn. rewrite Ep, orb_false_r. done.
Qed.

Lemma group_spec devs raws s l :
  Forall (fun r => is_syn r = false) raws -> FixedQueue.rep INPUT_QUEUE_LEN (queue s) l ->
  alen l + alen raws <= INPUT_QUEUE_LEN ->
  let s' := process_raw_events devs raws s in
  pending s' = collected devs s raws /\ display_width s' = display_width s /\
  display_height s' = display_height s /\
  exists ks, FixedQueue.rep INPUT_QUEUE_LEN (queue s') (l ++ ks) /\ keyboard_key <$> ks = group_keys raws.
Proof.
  intros Hs Hr. induction raws as [|r raws IH] using rev_ind.
  { intros _. unfold collected. cbn. rewrite orb_false_r. split_and!; [by destruct (pending s)|done..|].
    exists []. by rewrite app_nil_r. }
  rewrite alen_app, alen_cons, alen_nil. intros Hl. apply Forall_app in Hs as [Hs Hs1].
  rewrite Forall_singleton in Hs1. destruct (IH Hs ltac:(lia)) as (E1 & E2 & E3 & ks & E4 & E5).
  unfold process_raw_events in *. rewrite foldl_app. cbn [foldl]. set (s1 := foldl _ s raws) in *.
  assert (Hk : alen ks <= alen raws).
  { unfold alen. rewrite <-(length_fmap keyboard_key ks), E5. unfold group_keys. rewrite length_fmap.
    pose proof (length_filter (fun r => is_key r = true) raws). lia. }
  destruct (process_raw_event_spec devs r s1 (l ++ ks) Hs1 E4 ltac:(rewrite alen_app; lia))
    as (F1 & F2 & F3 & ks' & F4 & F5).
  split_and!; [|congruence..|].
  - rewrite F1. unfold collected. rewrite E1, E2, E3, !last_of_one, !last_of_snoc. unfold collected. cbn.
    rewrite existsb_app. cbn. rewrite !orb_false_r, orb_assoc.
    by destruct (is_axis ABS_X r), (is_axis ABS_Y r), (is_button r).
  - exists (ks ++ ks'). rewrite app_assoc. split; [done|]. rewrite fmap_app, E5, F5.
    unfold group_keys. by rewrite filter_app, fmap_app.
Qed.

Definition syn_report : VirtioInputEvent := raw_event EV_SYN SYN_REPORT 0.

(** evdev grouping. A group of raw events closed by [SYN_REPORT] queues its keyboard events in
    order and then exactly one pointer event, if it held an axis or button event, with the last
    position of each axis (an axis it does not mention keeps its old position) and the last button
    transition; afterwards nothing is pending, so no event of the group leaks into the next one. *)
Theorem pointer_report_exact devs s raws l :
  Forall (fun r => is_syn r = false) raws ->
  FixedQueue.rep INPUT_QUEUE_LEN (queue s) l -> alen l + alen raws + 1 <= INPUT_QUEUE_LEN ->
  pp_dirty (pending s) = false -> pp_button (pending s) = None -> pp_state (pending s) = None ->
  let s' := process_raw_events devs (raws ++ [syn_report]) s in
  let p := collected devs s raws in
  pending s' = Build_PendingPointer (pp_x p) (pp_y p) None None false /\
  exists ks, keyboard_key <$> ks = group_keys raws /\
    FixedQueue.rep INPUT_QUEUE_LEN (queue s')
      (l ++ ks ++ if existsb is_pointer raws
                  then [Pointer (pp_x p) (pp_y p) (button_of <$> last_of is_button raws)
                          (button_state_of <$> last_of is_button raws)] else []).
Proof.
  intros Hs Hr Hl Hd Hb Hst. destruct (group_spec devs raws s l Hs Hr ltac:(lia)) as (E1 & E2 & E3 & ks & E4 & E5).
  cbn zeta. unfold process_raw_events in *. rewrite foldl_app. cbn [foldl]. set (s1 := foldl _ s raws) in *.
  set (p := collected devs s raws) in *.
  assert (Ep : pp_dirty p = existsb is_pointer raws /\ pp_button p = button_of <$> last_of is_button raws /\
    pp_state p = button_state_of <$> last_of is_button raws).
  { subst p. unfold collected. cbn. rewrite Hd, Hb, Hst. by destruct (last_of is_button raws). }
  destruct Ep as (Ed & Eb & Es). unfold process_raw_event, syn_report. cbn [event_type code Z.eqb EV_SYN EV_KEY EV_ABS SYN_REPORT andb].
  unfold flush_pending_pointer. rewrite E1, Ed. destruct (existsb is_pointer raws) eqn:Ex; cbn [negb].
  - split; [done|]. exists ks. split; [done|]. rewrite app_assoc, <-Eb, <-Es.
    apply push_event_rep; [done|]. rewrite alen_app. assert (alen ks <= alen raws); [|lia].
    unfold alen. rewrite <-(length_fmap keyboard_key ks), E5. unfold group_keys. rewrite length_fmap.
    pose proof (length_filter (fun r => is_key r = true) raws). lia.
  - split; [|exists ks; by rewrite app_nil_r].
    assert (El : last_of is_button raws = None).
    { unfold last_of. destruct (last _) as [r|] eqn:E; [|done]. apply last_Some_elem_of in E.
      apply list_elem_of_filter in E as [E1' E2']. assert (existsb is_pointer raws = true); [|congruence].
      apply existsb_exists. exists r. split; [by apply list_elem_of_In|]. unfold is_pointer. rewrite E1'. by rewrite orb_true_r. }
    rewrite E1. rewrite El in Eb, Es. destruct p; cbn in *. congruence.
Qed.

Definition demo_group : list VirtioInputEvent :=
  [raw_event EV_ABS ABS_X 16384; raw_event EV_KEY 42 1; raw_event EV_ABS ABS_X 32767; raw_event EV_KEY BTN_LEFT 1].

Lemma pointer_report_exact_witness :
  pending (process_raw_events [] (demo_group ++ [syn_report]) input_boot) =
    Build_PendingPointer 1279 0 None None false /\
  exists ks, keyboard_key <$> ks = [Some LeftShift] /\
    FixedQueue.rep INPUT_QUEUE_LEN (queue (process_raw_events [] (demo_group ++ [syn_report]) input_boot))
      ([] ++ ks ++ [Pointer 1279 0 (Some ButtonLeft) (Some BtnPressed)]).
Proof.
  apply (pointer_report_exact [] input_boot demo_group []).
  - by repeat constructor.
  - by apply FixedQueue.fq_rep_new.
  - done.
  - done.
  - done.
  - done.
Defined.

(** ** Modifiers *)

(** The raw events of a modifier's two keys. *)
Definition is_modifier (flag : Z) (r : VirtioInputEvent) : bool :=
  (event_type r =? EV_KEY) && bool_decide (modifier_flag (code r) = Some flag).

Lemma modifier_flag_pow c f : modifier_flag c = Some f -> exists k, 0 <= k < 4 /\ f = 2 ^ k.
Proof.
  unfold modifier_flag, MOD_SHIFT, MOD_CTRL, MOD_ALT, MOD_SUPER. intros H.
  repeat case_match; simplify_eq; (by exists 0) || (by exists 1) || (by exists 2) || (by exists 3).
Qed.

Lemma modifier_flag_key c f : modifier_flag c = Some f -> c < BTN_LEFT.
Proof. unfold modifier_flag, BTN_LEFT. intros H. repeat case_match; simplify_eq; lia. Qed.

Lemma update_modifiers_bit c v s k : 0 <= k < 4 ->
  Z.testbit (modifier_state (update_modifiers c v s)) k =
  if bool_decide (modifier_flag c = Some (2 ^ k)) then negb (v =? 0) else Z.testbit (modifier_state s) k.
Proof.
  intros Hk. unfold update_modifiers. destruct (modifier_flag c) as [f|] eqn:Ef; [|by rewrite bool_decide_false].
  destruct (modifier_flag_pow _ _ Ef) as (j & Hj & ->). cbn [modifier_state].
  assert (Hb : bool_decide (Some (2 ^ j) = Some (2 ^ k)) = (j =? k)).
  { destruct (Z.eqb_spec j k) as [->|Hne]; [by rewrite bool_decide_true|]. rewrite bool_decide_false; [done|].
    intros [= E]. apply Hne, (Z.pow_inj_r 2); lia. }
  rewrite Hb. destruct (v =? 0); cbn [negb].
  - rewrite Z.land_spec, unot_spec, Z.pow2_bits_eqb by lia. destruct (j =? k); [apply andb_false_r|apply andb_true_r].
  - rewrite Z.lor_spec, Z.pow2_bits_eqb by lia. destruct (j =? k); [apply orb_true_r|apply orb_false_r].
Qed.

Lemma process_raw_event_modifiers devs r s :
  modifier_state (process_raw_event devs r s) =
  if event_type r =? EV_KEY then modifier_state (update_modifiers (code r) (value r) s) else modifier_state s.
Proof.
  unfold process_raw_event. destruct (event_type r =? EV_KEY).
  - destruct (Z.ltb_spec (code r) BTN_LEFT) as [Hc|Hc].
    + unfold process_key_event. by destruct (key_state_from_value (value r)).
    + unfold update_modifiers. destruct (modifier_flag (code r)) eqn:E; [apply modifier_flag_key in E; lia|].
      unfold process_button_event. by repeat case_match.
  - destruct (event_type r =? EV_ABS); [unfold process_abs_event; by repeat case_match|].
    destruct ((event_type r =? EV_SYN) && (code r =? SYN_REPORT)); [|done].
    unfold flush_pending_pointer. by destruct (pp_dirty (pending s)).
Qed.

(** modifier tracking. After any sequence of raw events each modifier flag says whether the last
    event of either of its two keys was a press or repeat; a flag none of whose keys occurred is
    unchanged. (So releasing one of two held shift keys clears the flag.) *)
Theorem modifier_tracks_last_key devs raws s k : 0 <= k < 4 ->
  Z.testbit (modifier_state (process_raw_events devs raws s)) k =
  from_option (fun r => negb (value r =? 0)) (Z.testbit (modifier_state s) k)
    (last_of (is_modifier (2 ^ k)) raws).
Proof.
  intros Hk. induction raws as [|r raws IH] using rev_ind; [done|].
  unfold process_raw_events in *. rewrite foldl_app, last_of_snoc. cbn [foldl].
  rewrite process_raw_event_modifiers. unfold is_modifier. destruct (event_type r =? EV_KEY); [|done].
  rewrite update_modifiers_bit by done. by destruct (bool_decide _).
Qed.

Lemma modifier_tracks_last_key_witness :
  let raws := [raw_event EV_KEY 42 1; raw_event EV_KEY 54 1; raw_event EV_KEY 54 0] in
  Z.testbit (modifier_state (process_raw_events [] raws input_boot)) 0 = false.
Proof. intros raws. rewrite (modifier_tracks_last_key [] raws input_boot 0); [reflexivity|lia]. Defined.
