(* ===== verification/Utf8.v ===== *)
(** * UTF-8 text, as the standard library reads it

    A string slice is a list of bytes that [core::str::from_utf8] accepts:
    a concatenation of well-formed characters of one to four bytes. *)

From S2P Require Import Prelude.

Definition in_bytes (lo hi b : Z) : bool := (lo <=? b) && (b <=? hi).
Definition cont_byte (b : Z) : bool := in_bytes 0x80 0xBF b.

(** The length a first byte announces. *)
Definition lead_len (b : Z) : option nat :=
  if in_bytes 0 0x7F b then Some 1%nat
  else if in_bytes 0xC2 0xDF b then Some 2%nat
  else if in_bytes 0xE0 0xEF b then Some 3%nat
  else if in_bytes 0xF0 0xF4 b then Some 4%nat
  else None.

(** The second byte: no overlong forms, no surrogates, nothing above
    U+10FFFF. *)
Definition second_ok (lead b : Z) : bool :=
  if lead =? 0xE0 then in_bytes 0xA0 0xBF b
  else if lead =? 0xED then in_bytes 0x80 0x9F b
  else if lead =? 0xF0 then in_bytes 0x90 0xBF b
  else if lead =? 0xF4 then in_bytes 0x80 0x8F b
  else cont_byte b.

(** The length of the character at the front. *)
Definition char_at (l : list Z) : option nat :=
  match l with
  | [] => None
  | lead :: tl =>
      n ← lead_len lead;
      match n, tl with
      | 1%nat, _ => Some 1%nat
      | S (S k), b1 :: tl' =>
          if second_ok lead b1 && forallb cont_byte (take k tl') && (k <=? length tl')%nat then Some n else None
      | _, _ => None
      end
  end.

(** [Utf8Error::valid_up_to], or the length of a valid slice. *)
Fixpoint valid_scan (fuel : nat) (l : list Z) : nat :=
  match fuel with
  | O => O
  | S fuel' => match char_at l with Some n => (n + valid_scan fuel' (drop n l))%nat | None => O end
  end.
Definition valid_up_to (l : list Z) : nat := valid_scan (length l) l.

Definition is_str (s : list Z) : bool := (valid_up_to s =? length s)%nat.

(** [str::is_char_boundary] *)
Definition is_char_boundary (s : list Z) (i : nat) : bool :=
  (i =? 0)%nat || (i =? length s)%nat || match s !! i with Some b => negb (cont_byte b) | None => false end.

(** ** Characters *)

Definition is_utf8_char (c : list Z) : Prop := char_at c = Some (length c).

Lemma char_shape c : is_utf8_char c -> exists lead tl, c = lead :: tl /\ cont_byte lead = false /\ Forall (fun b => cont_byte b = true) tl.
Proof.
  unfold is_utf8_char. destruct c as [|lead tl]; [done|]. cbn. intros (n & Hn & E)%bind_Some. exists lead, tl. split; [done|].
  assert (cont_byte lead = false) as Hl.
  { unfold lead_len, cont_byte, in_bytes in *. apply andb_false_iff. rewrite !Z.leb_gt. repeat case_match; try done; rewrite ?andb_true_iff, ?andb_false_iff in *; lia. }
  split; [done|]. destruct n as [|[|k]]; [done| |].
  - injection E as E. destruct tl; [constructor|done].
  - destruct tl as [|b1 tl]; [done|]. case_match eqn:Ec; [|done]. injection E as E. cbn in E. apply andb_true_iff in Ec as [[Hs Hf]%andb_true_iff _].
    rewrite take_ge in Hf by lia. constructor; [|by rewrite Forall_forall; intros b Hb; rewrite forallb_forall in Hf; apply Hf, list_elem_of_In].
    unfold second_ok, cont_byte, in_bytes in *. repeat case_match; rewrite ?andb_true_iff in *; lia.
Qed.

Lemma char_at_app c rest : is_utf8_char c -> char_at (c ++ rest) = Some (length c).
Proof.
  unfold is_utf8_char. destruct c as [|lead tl]; [done|]. cbn. destruct (lead_len lead) as [n|]; [|done]. cbn [mbind option_bind].
  destruct n as [|[|k]]; [done|done|]. destruct tl as [|b1 tl]; [done|]. cbn [app]. case_match eqn:Ec; [|done]. intros E. injection E as E. cbn in E.
  apply andb_true_iff in Ec as [Ec Hk]. rewrite take_app_le by (apply Nat.leb_le in Hk; lia). rewrite length_app, Ec. cbn [andb].
  rewrite (proj2 (Nat.leb_le k (length tl + length rest))); [by rewrite E|]. apply Nat.leb_le in Hk. lia.
Qed.

Lemma char_pos l n : char_at l = Some n -> (0 < n <= length l)%nat /\ is_utf8_char (take n l).
Proof.
  unfold is_utf8_char. destruct l as [|lead tl]; [done|]. cbn [char_at]. intros (m & Hm & E)%bind_Some.
  destruct m as [|[|k]]; [done| |].
  - injection E as <-. cbn. split; [lia|]. by rewrite Hm.
  - destruct tl as [|b1 tl]; [done|]. case_match eqn:Ec; [|done]. injection E as <-. apply andb_true_iff in Ec as [[Hs Hf]%andb_true_iff Hk%Nat.leb_le].
    split; [cbn; lia|]. cbn. rewrite Hm. cbn [mbind option_bind]. rewrite take_take, Nat.min_id, Hs, Hf, length_take, (proj2 (Nat.leb_le _ _)) by lia. cbn. f_equal. lia.
Qed.

Lemma valid_scan_chars cs : forall fuel, Forall is_utf8_char cs -> (length (concat cs) <= fuel)%nat -> valid_scan fuel (concat cs) = length (concat cs).
Proof.
  induction cs as [|c cs IH]; intros fuel Hcs Hf.
  - cbn. by destruct fuel.
  - apply Forall_cons in Hcs as [Hc Hcs]. cbn [concat] in *. rewrite length_app in *. destruct (char_pos c _ Hc) as [Hp _].
    destruct fuel as [|fuel]; [lia|]. cbn [valid_scan]. rewrite char_at_app by done. rewrite drop_app_length, IH by (done || lia). done.
Qed.

Lemma scan_chars fuel l : valid_scan fuel l = length l -> exists cs, Forall is_utf8_char cs /\ l = concat cs.
Proof.
  revert l. induction fuel as [|fuel IH]; intros l E; cbn in E.
  - exists []. destruct l; done.
  - destruct (char_at l) as [n|] eqn:Ec; [|by exists []; destruct l].
    destruct (char_pos l n Ec) as [Hn Hc]. destruct (IH (drop n l)) as (cs & Hcs & El); [rewrite length_drop; lia|].
    exists (take n l :: cs). split; [by constructor|]. cbn. by rewrite <-El, take_drop.
Qed.

(** A valid slice is a sequence of characters. *)
Lemma is_str_chars s : is_str s = true <-> exists cs, Forall is_utf8_char cs /\ s = concat cs.
Proof.
  unfold is_str. rewrite Nat.eqb_eq. split; [apply scan_chars|]. intros (cs & Hcs & ->). by apply valid_scan_chars.
Qed.

Lemma is_str_app s t : is_str s = true -> is_str t = true -> is_str (s ++ t) = true.
Proof.
  rewrite !is_str_chars. intros (cs & Hcs & ->) (ds & Hds & ->). exists (cs ++ ds). split; [by apply Forall_app|]. by rewrite concat_app.
Qed.

(** A byte below 128 is a character. *)
Lemma ascii_char b : 0 <= b < 128 -> is_utf8_char [b].
Proof.
  intros Hb. unfold is_utf8_char, char_at, lead_len, in_bytes. destruct (Z.leb_spec 0 b), (Z.leb_spec b 0x7F); [done|lia..].
Qed.

(** ** Prefixes of whole characters *)

Lemma concat_split {A} (cs : list (list A)) k c :
  cs !! k = Some c -> concat cs = concat (take k cs) ++ c ++ concat (drop (S k) cs).
Proof. intros Hk. rewrite <-(take_drop_middle cs k c Hk) at 1. by rewrite concat_app. Qed.

Lemma concat_take_S {A} (cs : list (list A)) k c :
  cs !! k = Some c -> length (concat (take (S k) cs)) = (length (concat (take k cs)) + length c)%nat.
Proof. intros Hk. rewrite (take_S_r _ _ _ Hk), concat_app, length_app. cbn. by rewrite app_nil_r. Qed.

(** As many whole characters as fit. *)
Lemma chars_fit (cs : list (list Z)) (m : nat) : exists n, (n <= length cs)%nat /\
  (length (concat (take n cs)) <= m)%nat /\
  ((n < length cs)%nat -> (m < length (concat (take (S n) cs)))%nat).
Proof.
  revert m. induction cs as [|c cs IH]; intros m; [exists O; cbn; split_and!; lia|].
  destruct (le_lt_dec (length c) m) as [Hc|Hc].
  - destruct (IH (m - length c)%nat) as (n & Hn & H1 & H2). exists (S n). cbn [length] in *.
    rewrite !firstn_cons. cbn [concat]. rewrite !length_app. split_and!; [lia|lia|]. intros. specialize (H2 ltac:(lia)). lia.
  - exists O. cbn. rewrite take_0, app_nil_r. split_and!; [lia|lia|done].
Qed.

Lemma concat_take_le {A} (cs : list (list A)) j k : (j <= k)%nat -> (length (concat (take j cs)) <= length (concat (take k cs)))%nat.
Proof.
  intros Hjk. replace (take k cs) with (take j cs ++ drop j (take k cs)); [rewrite concat_app, length_app; lia|].
  rewrite <-(take_drop j (take k cs)) at 2. by rewrite take_take, Nat.min_l by lia.
Qed.

Lemma take_concat {A} (cs : list (list A)) n : take (length (concat (take n cs))) (concat cs) = concat (take n cs).
Proof. rewrite <-(take_drop n cs) at 2. rewrite concat_app. by rewrite take_app_length. Qed.
Lemma drop_concat {A} (cs : list (list A)) n : drop (length (concat (take n cs))) (concat cs) = concat (drop n cs).
Proof. rewrite <-(take_drop n cs) at 2. rewrite concat_app. by rewrite drop_app_length. Qed.

(** The ends of characters are boundaries, the bytes inside are not. *)
Lemma boundary_chars cs n : Forall is_utf8_char cs -> is_char_boundary (concat cs) (length (concat (take n cs))) = true.
Proof.
  intros Hcs. unfold is_char_boundary. destruct (cs !! n) as [c|] eqn:Hn.
  - rewrite (concat_split cs n c Hn). rewrite Forall_lookup in Hcs. destruct (char_shape c (Hcs n c Hn)) as (lead & tl & -> & Hl & _).
    rewrite lookup_app_r by lia. rewrite Nat.sub_diag. cbn. rewrite Hl. apply orb_true_r.
  - apply lookup_ge_None in Hn. rewrite take_ge by lia. rewrite Nat.eqb_refl, orb_true_r. done.
Qed.

Lemma boundary_inside cs n i : Forall is_utf8_char cs -> (n < length cs)%nat ->
  (length (concat (take n cs)) < i < length (concat (take (S n) cs)))%nat -> is_char_boundary (concat cs) i = false.
Proof.
  intros Hcs Hn Hi. destruct (lookup_lt_is_Some_2 cs n Hn) as [c Hc]. rewrite Forall_lookup in Hcs.
  destruct (char_shape c (Hcs n c Hc)) as (lead & tl & -> & _ & Ht). rewrite (concat_take_S cs n _ Hc) in Hi. cbn [length] in Hi.
  unfold is_char_boundary. rewrite (concat_split cs n _ Hc), !length_app. destruct (Nat.eqb_spec i 0); [lia|].
  destruct (Nat.eqb_spec i (length (concat (take n cs)) + (length (lead :: tl) + length (concat (drop (S n) cs))))%nat); [cbn in *; lia|]. cbn [orb].
  rewrite lookup_app_r by lia. destruct (i - length (concat (take n cs)))%nat as [|j] eqn:Ej; [lia|]. rewrite lookup_app_l by (cbn; lia). rewrite lookup_cons.
  destruct (lookup_lt_is_Some_2 tl j ltac:(lia)) as [b Hb]. rewrite Hb. rewrite Forall_lookup in Ht. by rewrite (Ht j b Hb).
Qed.
