(* ===== verification/Compositor.v ===== *)
(** * Compositor: the protocol types of shared/src/compositor.rs

    Surfaces and their state machine, window geometry ([hit_zone]), the
    z-order list, the focus history, UTF-8 titles, damage tracking and the
    wire format of requests and events.  Fixed-capacity lists keep the code's
    array and length; [i32] and [u32] arithmetic is checked, [None] is the
    panic of an overflow. *)

From S2P Require Import Prelude Utf8 Input.

Definition MAX_SURFACES : Z := 32.
Definition SURFACE_TITLE_MAX : Z := 64.
Definition MIN_WINDOW_WIDTH : Z := 200.
Definition MIN_WINDOW_HEIGHT : Z := 100.
Definition FOCUS_HISTORY_CAPACITY : Z := 16.

(** ** Surface identity, states and layers *)

(** [SurfaceId::NONE] is 0, the first id given out is 1. *)
Definition NONE_ID : Z := 0.
Definition FIRST_ID : Z := 1.
Definition is_none_id (id : Z) : bool := id =? 0.

Inductive SurfaceState := Created | Configured | Active | Suspended | Destroyed.
#[export] Instance SurfaceState_eq_dec : EqDecision SurfaceState.
Proof. solve_decision. Defined.

Definition is_terminal (s : SurfaceState) : bool := match s with Destroyed => true | _ => false end.
Definition is_visible (s : SurfaceState) : bool := match s with Active => true | _ => false end.
Definition can_transition_to (s next : SurfaceState) : bool :=
  match s, next with
  | Created, Configured => true
  | Configured, Active => true
  | Active, Active => true
  | Active, Suspended => true
  | Suspended, Active => true
  | Created, Destroyed => true
  | Configured, Destroyed => true
  | Active, Destroyed => true
  | Suspended, Destroyed => true
  | _, _ => false
  end.

Inductive SurfaceLayer := Background | Normal | TopLevel | Overlay | Panel.
#[export] Instance SurfaceLayer_eq_dec : EqDecision SurfaceLayer.
Proof. solve_decision. Defined.
Definition layer_num (l : SurfaceLayer) : Z :=
  match l with Background => 0 | Normal => 1 | TopLevel => 2 | Overlay => 3 | Panel => 4 end.

Inductive SurfaceContentType := Document | Terminal | Browser | Game | Settings | SystemUI | Generic.
#[export] Instance SurfaceContentType_eq_dec : EqDecision SurfaceContentType.
Proof. solve_decision. Defined.
Definition content_type_from_u8 (v : Z) : option SurfaceContentType :=
  match v with
  | 0 => Some Document | 1 => Some Terminal | 2 => Some Browser | 3 => Some Game
  | 4 => Some Settings | 5 => Some SystemUI | 6 => Some Generic | _ => None
  end.

(** ** Window geometry *)

Record WindowDecoration := {
  title_bar_height : Z;
  border_width : Z;
  close_button_width : Z;
  resize_margin : Z
}.
Definition DEFAULT_DECO : WindowDecoration := Build_WindowDecoration 24 1 24 8.

Inductive ResizeEdge := North | South | East | West | NorthEast | NorthWest | SouthEast | SouthWest.
#[export] Instance ResizeEdge_eq_dec : EqDecision ResizeEdge.
Proof. solve_decision. Defined.

Inductive HitZone := TitleBar | CloseButton | Content | ResizeBorder (e : ResizeEdge).
#[export] Instance HitZone_eq_dec : EqDecision HitZone.
Proof. solve_decision. Defined.

(** [hit_zone]: the outer [None] is an overflow of the [i32] arithmetic. *)
Definition hit_zone (px py x y width height : Z) (deco : WindowDecoration) : option (option HitZone) :=
  let w := as_signed 32 width in
  let h := as_signed 32 height in
  if (w <=? 0) || (h <=? 0) then Some None
  else
    let x_end := saturating_add_i32 x w in
    let y_end := saturating_add_i32 y h in
    if (px <? x) || (px >=? x_end) || (py <? y) || (py >=? y_end) then Some None
    else
      let rm := as_signed 32 (resize_margin deco) in
      xl ← i32v (x + rm); xr ← i32v (x_end - rm);
      yt ← i32v (y + rm); yb ← i32v (y_end - rm);
      let on_left := px <? xl in
      let on_right := px >=? xr in
      let on_top := py <? yt in
      let on_bottom := py >=? yb in
      if on_top && on_left then Some (Some (ResizeBorder NorthWest))
      else if on_top && on_right then Some (Some (ResizeBorder NorthEast))
      else if on_bottom && on_left then Some (Some (ResizeBorder SouthWest))
      else if on_bottom && on_right then Some (Some (ResizeBorder SouthEast))
      else if on_top then Some (Some (ResizeBorder North))
      else if on_bottom then Some (Some (ResizeBorder South))
      else if on_left then Some (Some (ResizeBorder West))
      else if on_right then Some (Some (ResizeBorder East))
      else
        title_bar_top ← i32v (y + as_signed 32 (border_width deco));
        title_bar_bottom ← i32v (title_bar_top + as_signed 32 (title_bar_height deco));
        if py <? title_bar_bottom then
          c ← i32v (x_end - as_signed 32 (border_width deco));
          close_left ← i32v (c - as_signed 32 (close_button_width deco));
          if px >=? close_left then Some (Some CloseButton) else Some (Some TitleBar)
        else Some (Some Content).

Definition clamp_window_size (width height : Z) : Z * Z :=
  (Z.max width MIN_WINDOW_WIDTH, Z.max height MIN_WINDOW_HEIGHT).

(** ** Arrays shifted in place *)

(** [for i in pos..end { e[i] = e[i + 1] }] with [n] rounds left. *)
Fixpoint shift_down (e : list Z) (i : nat) (n : nat) : list Z :=
  match n with
  | O => e
  | S n' => shift_down (match e !! S i with Some v => <[i := v]> e | None => e end) (S i) n'
  end.

(** [for i in (1..=n).rev() { e[i] = e[i - 1] }]. *)
Fixpoint shift_up (e : list Z) (n : nat) : list Z :=
  match n with
  | O => e
  | S n' => shift_up (match e !! n' with Some v => <[n := v]> e | None => e end) n'
  end.

(** ** Z-order *)

Record ZOrder := mk_z { z_entries : list Z; z_len : Z }.
Definition zorder_new : ZOrder := mk_z (array_of MAX_SURFACES NONE_ID) 0.

Definition z_live (z : ZOrder) : list Z := take (Z.to_nat (z_len z)) (z_entries z).

Definition z_push (id : Z) (z : ZOrder) : bool * ZOrder :=
  if (z_len z >=? MAX_SURFACES) || is_none_id id then (false, z)
  else (true, mk_z ((z_entries z).[z_len z <- id]) (z_len z + 1)).

Definition z_remove (id : Z) (z : ZOrder) : ZOrder :=
  match position (fun s => s =? id) (z_live z) with
  | None => z
  | Some pos =>
      let e := shift_down (z_entries z) pos (Z.to_nat (z_len z) - 1 - pos) in
      mk_z (e.[z_len z - 1 <- NONE_ID]) (z_len z - 1)
  end.

Definition z_raise_to_top (id : Z) (z : ZOrder) : ZOrder :=
  if existsb (fun s => s =? id) (z_live z) then (z_push id (z_remove id z)).2 else z.

Definition z_iter_top_down (z : ZOrder) : list Z := rev (z_live z).

(** ** Focus history *)

Record FocusHistory := mk_h { h_entries : list Z; h_len : Z }.
Definition history_new : FocusHistory := mk_h (array_of FOCUS_HISTORY_CAPACITY NONE_ID) 0.

Definition h_live (h : FocusHistory) : list Z := take (Z.to_nat (h_len h)) (h_entries h).

Definition h_touch (id : Z) (h : FocusHistory) : FocusHistory :=
  if is_none_id id then h
  else
    match position (fun s => s =? id) (h_live h) with
    | Some pos => mk_h ((shift_up (h_entries h) pos).[0 <- id]) (h_len h)
    | None =>
        let new_len := Z.min (h_len h + 1) FOCUS_HISTORY_CAPACITY in
        let shift_end := saturating_sub new_len 1 in
        let e := (shift_up (h_entries h) (Z.to_nat shift_end)).[0 <- id] in
        mk_h (if new_len <? FOCUS_HISTORY_CAPACITY then e.[new_len <- NONE_ID] else e) new_len
    end.

Definition h_remove (id : Z) (h : FocusHistory) : FocusHistory :=
  match position (fun s => s =? id) (h_live h) with
  | None => h
  | Some pos =>
      let e := shift_down (h_entries h) pos (Z.to_nat (h_len h) - 1 - pos) in
      mk_h (e.[h_len h - 1 <- NONE_ID]) (h_len h - 1)
  end.

Definition h_most_recent (h : FocusHistory) : option Z :=
  if h_len h =? 0 then None else (h_entries h).[0].
Definition h_nth (n : Z) (h : FocusHistory) : option Z :=
  if n >=? h_len h then None else (h_entries h).[n].

(** ** Input routing *)

Inductive RouteTarget :=
| ToSurface (id : Z)
| ToDecoration (surface : Z) (zone : HitZone)
| ToNone.

Definition route_event (event : InputEvent) (keyboard_focus : option Z)
    (pointer_hit : option (Z * HitZone)) : RouteTarget :=
  match event with
  | Keyboard _ _ _ =>
      match keyboard_focus with Some id => ToSurface id | None => ToNone end
  | Pointer _ _ _ _ =>
      match pointer_hit with
      | Some (id, Content) => ToSurface id
      | Some (id, zone) => ToDecoration id zone
      | None => ToNone
      end
  end.

(** ** Titles *)

Record SurfaceTitle := { title_bytes : list Z; title_len : Z }.

Definition is_cont (b : Z) : bool := Z.land b 0xC0 =? 0x80.
Definition expected_len (lead : Z) : nat :=
  if Z.land lead 0x80 =? 0 then 1
  else if Z.land lead 0xE0 =? 0xC0 then 2
  else if Z.land lead 0xF0 =? 0xE0 then 3
  else if Z.land lead 0xF8 =? 0xF0 then 4
  else 1.

(** The inner [while] of [from_bytes]: back over continuation bytes. *)
Fixpoint probe_back (input : list Z) (probe : nat) : nat :=
  match probe with
  | O => O
  | S p => if is_cont (nth probe input 0) then probe_back input p else probe
  end.

(** The outer [while]: [cut] moves back while it splits a character. *)
Fixpoint walk_back (input : list Z) (cut : nat) : nat :=
  match cut with
  | O => O
  | S c =>
      let probe := probe_back input c in
      if is_cont (nth c input 0) && (cut <? probe + expected_len (nth probe input 0%Z))%nat
      then walk_back input c else cut
  end.

(** A lead byte with outstanding continuation bytes is cut off too. *)
Definition title_cut (input : list Z) : nat :=
  let cut := walk_back input (Nat.min (length input) (Z.to_nat SURFACE_TITLE_MAX)) in
  match cut with
  | O => O
  | S c =>
      let e := expected_len (nth c input 0) in
      if (1 <? e)%nat && (cut <? c + e)%nat then c else cut
  end.

Definition title_from_bytes (input : list Z) : SurfaceTitle :=
  let cut := title_cut input in
  {| title_bytes := copy_at (array_of SURFACE_TITLE_MAX 0) 0 (take cut input);
     title_len := wrap 8 (Z.of_nat cut) |}.

Definition title_as_bytes (t : SurfaceTitle) : list Z := take (Z.to_nat (title_len t)) (title_bytes t).

(** ** Damage *)

Inductive DamageRegion := RectDamage (x y width height : Z) | FullSurface | EmptyDamage.
#[export] Instance DamageRegion_eq_dec : EqDecision DamageRegion.
Proof. solve_decision. Defined.

Definition region_has_damage (d : DamageRegion) : bool :=
  match d with
  | EmptyDamage => false
  | RectDamage _ _ width height => (width >? 0) && (height >? 0)
  | FullSurface => true
  end.

Record DamageRect := mk_rect { dr_x : Z; dr_y : Z; dr_width : Z; dr_height : Z }.
#[export] Instance DamageRect_eq_dec : EqDecision DamageRect.
Proof. solve_decision. Defined.
Record DamageTracker := { dt_bounds : option DamageRect; dt_full : bool }.

Definition tracker_new : DamageTracker := Build_DamageTracker None false.
Definition tracker_has_damage (t : DamageTracker) : bool := dt_full t || bool_decide (is_Some (dt_bounds t)).
Definition mark_full (t : DamageTracker) : DamageTracker := Build_DamageTracker None true.
Definition tracker_clear (t : DamageTracker) : DamageTracker := Build_DamageTracker None false.
Definition tracker_bounds (t : DamageTracker) : option DamageRect :=
  if dt_full t then None else dt_bounds t.

Definition union_rect (a b : DamageRect) : option DamageRect :=
  let x0 := if dr_x a <? dr_x b then dr_x a else dr_x b in
  let y0 := if dr_y a <? dr_y b then dr_y a else dr_y b in
  a_x1 ← u32v (dr_x a + dr_width a);
  a_y1 ← u32v (dr_y a + dr_height a);
  b_x1 ← u32v (dr_x b + dr_width b);
  b_y1 ← u32v (dr_y b + dr_height b);
  let x1 := if a_x1 >? b_x1 then a_x1 else b_x1 in
  let y1 := if a_y1 >? b_y1 then a_y1 else b_y1 in
  w ← u32v (x1 - x0); h ← u32v (y1 - y0);
  Some (mk_rect x0 y0 w h).

(** [DamageTracker::union]; [None] is an overflow panic. *)
Definition tracker_union (rect : DamageRect) (t : DamageTracker) : option DamageTracker :=
  if (dr_width rect =? 0) || (dr_height rect =? 0) then Some t
  else if dt_full t then Some t
  else
    match dt_bounds t with
    | None => Some (Build_DamageTracker (Some rect) (dt_full t))
    | Some existing =>
        r ← union_rect existing rect; Some (Build_DamageTracker (Some r) (dt_full t))
    end.

(** ** The wire format *)

Inductive CompositorCommand := CreateSurface | AttachBuffer | DestroySurface | Resize | SetLayer.
Definition command_from_u32 (v : Z) : option CompositorCommand :=
  match v with
  | 1 => Some CreateSurface | 2 => Some AttachBuffer | 3 => Some DestroySurface
  | 4 => Some Resize | 5 => Some SetLayer | _ => None
  end.

(** [CompositorRequest], without its padding. *)
Record CompositorRequest := {
  rq_command : Z;
  rq_surface_id : Z;
  rq_width : Z;
  rq_height : Z;
  rq_layer : Z;
  rq_content_type : Z;
  rq_damage_tag : Z;
  rq_title : list Z;
  rq_title_len : Z;
  rq_shmem_id : Z;
  rq_damage_x : Z;
  rq_damage_y : Z;
  rq_damage_w : Z;
  rq_damage_h : Z
}.

Definition decode_damage (r : CompositorRequest) : DamageRegion :=
  match rq_damage_tag r with
  | 0 => EmptyDamage
  | 1 => FullSurface
  | 2 => RectDamage (rq_damage_x r) (rq_damage_y r) (rq_damage_w r) (rq_damage_h r)
  | _ => EmptyDamage
  end.

Record InputEventBytes := {
  ie_tag : Z;
  ie_key_or_buttons : Z;
  ie_state_or_modifiers : Z;
  ie_x : Z;
  ie_y : Z;
  ie_button_state : Z
}.
Definition input_bytes_zeroed : InputEventBytes := Build_InputEventBytes 0 0 0 0 0 0.

Definition key_state_num (s : KeyState) : Z :=
  match s with KeyReleased => 0 | KeyPressed => 1 | KeyRepeat => 2 end.
Definition button_num (b : MouseButton) : Z :=
  match b with ButtonLeft => 0 | ButtonRight => 1 | ButtonMiddle => 2 end.
Definition button_state_num (b : ButtonState) : Z :=
  match b with BtnPressed => 0 | BtnReleased => 1 end.

(** [InputEventBytes::encode]. *)
Definition input_encode (event : InputEvent) : InputEventBytes :=
  match event with
  | Keyboard key state modifiers =>
      Build_InputEventBytes 1 (to_evdev key)
        (Z.lor (Z.land (key_state_num state) 0xFF) (wrap 32 (Z.shiftl modifiers 8))) 0 0 0
  | Pointer x y button state =>
      Build_InputEventBytes 2 (from_option (fun b => button_num b + 1) 0 button) 0 x y
        (from_option (fun s => button_state_num s + 1) 0 state)
  end.

Record CompositorEvent := {
  ev_tag : Z;
  ev_surface_id : Z;
  ev_width : Z;
  ev_height : Z;
  ev_scale_x100 : Z;
  ev_focused : Z;
  ev_shmem_id : Z;
  ev_timestamp_ticks : Z;
  ev_input : InputEventBytes
}.
Definition event_zeroed : CompositorEvent := Build_CompositorEvent 0 0 0 0 0 0 0 0 input_bytes_zeroed.

Definition ev_configure (surface width height scale_x100 : Z) : CompositorEvent :=
  Build_CompositorEvent 1 surface width height scale_x100 0 0 0 input_bytes_zeroed.
Definition ev_focus_changed (surface : Z) (focused : bool) : CompositorEvent :=
  Build_CompositorEvent 2 surface 0 0 0 (if focused then 1 else 0) 0 0 input_bytes_zeroed.
Definition ev_close_requested (surface : Z) : CompositorEvent :=
  Build_CompositorEvent 3 surface 0 0 0 0 0 0 input_bytes_zeroed.
Definition ev_buffer_released (surface shmem_id : Z) : CompositorEvent :=
  Build_CompositorEvent 4 surface 0 0 0 0 shmem_id 0 input_bytes_zeroed.
Definition ev_input_for (surface : Z) (event : InputEvent) : CompositorEvent :=
  Build_CompositorEvent 6 surface 0 0 0 0 0 0 (input_encode event).

(** The [repr(C)] image of an event: fields little-endian, named padding zero. *)
Definition event_bytes (e : CompositorEvent) : list Z :=
  le_bytes 4 (ev_tag e) ++ array_of 4 0 ++ le_bytes 8 (ev_surface_id e) ++
  le_bytes 4 (ev_width e) ++ le_bytes 4 (ev_height e) ++ le_bytes 4 (ev_scale_x100 e) ++
  le_bytes 1 (ev_focused e) ++ array_of 3 0 ++ le_bytes 4 (ev_shmem_id e) ++ array_of 4 0 ++
  le_bytes 8 (ev_timestamp_ticks e) ++
  let i := ev_input e in
  le_bytes 4 (ie_tag i) ++ le_bytes 4 (ie_key_or_buttons i) ++ le_bytes 4 (ie_state_or_modifiers i) ++
  le_bytes 4 (ie_x i) ++ le_bytes 4 (ie_y i) ++ le_bytes 4 (ie_button_state i) ++ array_of 8 0.

(** ** In-place shifts *)

Lemma shift_down_spec e i n : (i + n < length e)%nat ->
  shift_down e i n = take i e ++ take n (drop (S i) e) ++ drop (i + n) e.
Proof.
  revert e i. induction n as [|n IH]; intros e i Hl; cbn [shift_down].
  { by rewrite take_0, Nat.add_0_r, app_nil_l, take_drop. }
  destruct (lookup_lt_is_Some_2 e (S i)) as [v Hv]; [lia|]. rewrite Hv.
  rewrite IH by (rewrite length_insert; lia).
  rewrite (take_S_r _ i v) by (apply list_lookup_insert_eq; lia).
  rewrite take_insert_ge, !drop_insert_lt by lia. rewrite (drop_S e v (S i)) by done.
  rewrite firstn_cons, <-!app_assoc. cbn. do 4 f_equal. lia.
Qed.

Lemma shift_up_spec e n v : (n < length e)%nat -> e !! O = Some v ->
  shift_up e n = v :: take n e ++ drop (S n) e.
Proof.
  revert e. induction n as [|n IH]; intros e Hl Hv; cbn [shift_up].
  { rewrite take_0. cbn. by rewrite <-(take_drop 1 e) at 1; destruct e; simplify_eq/=. }
  destruct (lookup_lt_is_Some_2 e n) as [w Hw]; [lia|]. rewrite Hw.
  rewrite IH; [|rewrite length_insert; lia|rewrite list_lookup_insert_ne by lia; done].
  rewrite take_insert_ge by lia. rewrite (take_S_r e n w) by done.
  rewrite (drop_S _ w (S n)) by (apply list_lookup_insert_eq; lia).
  rewrite drop_insert_lt by lia. by rewrite <-app_assoc.
Qed.

(** A fixed-capacity array of [n] slots holding [l], the rest [NONE_ID]. *)
Definition holds_list (n : Z) (e : list Z) (len : Z) (l : list Z) : Prop :=
  len = alen l /\ alen l <= n /\ e = l ++ array_of (n - alen l) NONE_ID.

Lemma holds_list_live n e len l : holds_list n e len l -> take (Z.to_nat len) e = l.
Proof. intros (-> & _ & ->). unfold alen. rewrite Nat2Z.id. apply take_app_length. Qed.

Lemma array_of_cons {A} n (x : A) : 0 < n -> array_of n x = x :: array_of (n - 1) x.
Proof. intros. unfold array_of. by replace (Z.to_nat n) with (S (Z.to_nat (n - 1))) by lia. Qed.

Lemma holds_list_new n : 0 <= n -> holds_list n (array_of n NONE_ID) 0 [].
Proof. intros. split_and!; [done|done|]. cbn. by rewrite Z.sub_0_r. Qed.

Lemma holds_list_push n e len l id :
  holds_list n e len l -> alen l < n -> holds_list n (e.[len <- id]) (len + 1) (l ++ [id]).
Proof.
  intros (-> & Hn & ->) Hl. unfold holds_list. rewrite alen_app, alen_cons, alen_nil. split_and!; [lia|lia|].
  rewrite (array_of_cons (n - alen l)) by lia. unfold aset, alen. rewrite Nat2Z.id.
  rewrite insert_app_r_alt, Nat.sub_diag by done. rewrite <-app_assoc. cbn. do 3 f_equal. lia.
Qed.

(** Deleting the entry at [pos] by shifting the tail down. *)
Lemma holds_list_remove n e len l pos :
  holds_list n e len l -> (pos < length l)%nat ->
  holds_list n ((shift_down e pos (Z.to_nat len - 1 - pos)).[len - 1 <- NONE_ID]) (len - 1) (delete pos l).
Proof.
  intros (-> & Hn & ->) Hp. destruct (lookup_lt_is_Some_2 l pos Hp) as [x Hx].
  rewrite <-(take_drop_middle l pos x Hx) in Hn |- *. set (a := take pos l) in *. set (b := drop (S pos) l) in *.
  assert (Ha : pos = length a) by (subst a; rewrite length_take; lia). clearbody a b. clear Hx Hp l. subst pos.
  rewrite delete_middle. set (pad := array_of _ NONE_ID).
  assert (Hl : alen (a ++ x :: b) = alen a + alen b + 1) by (rewrite alen_app, alen_cons; lia).
  replace (Z.to_nat (alen (a ++ x :: b)) - 1 - length a)%nat with (length b) by (unfold alen in *; lia).
  rewrite shift_down_spec by (rewrite !length_app; cbn; lia). rewrite <-app_assoc, take_app_length. cbn [app].
  rewrite (drop_app_ge a) by lia. replace (S (length a) - length a)%nat with 1%nat by lia.
  cbn [drop]. rewrite drop_0, take_app_length.
  destruct (lookup_lt_is_Some_2 (x :: b) (length b)) as [y Hy]; [cbn; lia|].
  rewrite drop_app_add', (drop_S _ y) by (done || by rewrite (lookup_app_l (x :: b) pad) by (cbn; lia)).
  unfold holds_list. rewrite Hl, alen_app. split_and!; [lia|lia|]. unfold aset.
  rewrite app_assoc, insert_app_r_alt by (rewrite length_app; unfold alen; lia).
  replace (Z.to_nat _ - length (a ++ b))%nat with O by (rewrite length_app; unfold alen; lia). cbn.
  rewrite (array_of_cons (n - _)), drop_app_length, <-!app_assoc by lia. subst pad. do 4 f_equal. lia.
Qed.

(** Moving the entry at [pos] to the front by shifting the ones before it up. *)
Lemma holds_list_front n e len l pos id :
  holds_list n e len l -> (pos < length l)%nat ->
  holds_list n ((shift_up e pos).[0 <- id]) len (id :: delete pos l).
Proof.
  intros (-> & Hn & ->) Hp. destruct l as [|v l]; [cbn in Hp; lia|]. set (pad := array_of _ NONE_ID).
  rewrite (shift_up_spec _ _ v) by (done || (rewrite length_app; lia)). cbn [aset insert list_insert Z.to_nat].
  unfold holds_list. rewrite delete_take_drop.
  assert (E : alen (id :: take pos (v :: l) ++ drop (S pos) (v :: l)) = alen (v :: l)).
  { unfold alen. cbn [length]. rewrite length_app, length_take, length_drop. cbn [length] in *. lia. }
  rewrite E. split_and!; [done|done|]. change (v :: l ++ pad) with ((v :: l) ++ pad).
  rewrite take_app_le, drop_app_le by lia. cbn [app]. by rewrite <-app_assoc.
Qed.

Lemma holds_list_cons n e len l id :
  holds_list n e len l -> alen l < n ->
  holds_list n ((shift_up e (Z.to_nat len)).[0 <- id]) (len + 1) (id :: l).
Proof.
  intros (-> & Hn & ->) Hl. set (pad := array_of _ NONE_ID).
  assert (Hpad : pad = NONE_ID :: array_of (n - alen l - 1) NONE_ID) by (apply array_of_cons; lia).
  assert (Hv : exists v, (l ++ pad) !! O = Some v) by (rewrite Hpad; destruct l; cbn; eauto).
  destruct Hv as [v Hv]. rewrite (shift_up_spec _ _ v); [|rewrite length_app, Hpad; unfold alen; cbn; lia|done].
  unfold holds_list. rewrite alen_cons. split_and!; [done|lia|].
  cbn. unfold alen at 1 2. rewrite Nat2Z.id, take_app_length, Hpad.
  rewrite drop_app_ge by lia. replace (S (length l) - length l)%nat with 1%nat by lia. cbn.
  rewrite drop_0. by replace (n - (alen l + 1)) with (n - alen l - 1) by lia.
Qed.

Lemma holds_list_full n e len l id : 0 < n ->
  holds_list n e len l -> alen l = n ->
  holds_list n ((shift_up e (Z.to_nat (n - 1))).[0 <- id]) n (id :: take (Z.to_nat (n - 1)) l).
Proof.
  intros Hn0 (-> & Hn & ->) Hl. replace (n - alen l) with 0 by lia. unfold array_of at 1. change (replicate (Z.to_nat 0) NONE_ID) with (@nil Z).
  rewrite app_nil_r. destruct l as [|v l]; [rewrite alen_nil in Hl; lia|].
  rewrite (shift_up_spec _ _ v) by (done || (unfold alen in Hl; cbn [length] in *; lia)). cbn [aset insert list_insert Z.to_nat].
  rewrite (drop_ge (v :: l)) by (unfold alen in Hl; lia). rewrite app_nil_r.
  unfold holds_list. assert (E : alen (id :: take (Z.to_nat (n - 1)) (v :: l)) = n).
  { unfold alen in *. cbn [length] in *. rewrite length_take. cbn [length]. lia. }
  rewrite E. split_and!; [done|done|]. by rewrite Z.sub_diag, app_nil_r.
Qed.

(** ** Lists without one element *)

(** [l] without the entries equal to [id]. *)
Definition without (id : Z) (l : list Z) : list Z := filter (fun s => s <> id) l.

Lemma without_notin id l : id ∉ l -> without id l = l.
Proof.
  unfold without. induction l as [|x l IH]; [done|]. rewrite not_elem_of_cons. intros [Hx Hl].
  by rewrite filter_cons_True, IH by done.
Qed.

Lemma without_delete id l pos : NoDup l -> l !! pos = Some id -> without id l = delete pos l.
Proof.
  intros Hnd Hp. rewrite delete_take_drop. rewrite <-(take_drop_middle l pos id Hp) in Hnd |- * at 1.
  apply NoDup_app in Hnd as (_ & Ha & [Hb _]%NoDup_cons). unfold without in *.
  rewrite filter_app, filter_cons_False by naive_solver. f_equal; apply without_notin; [|done].
  intros Hin. by apply (Ha id Hin), list_elem_of_here.
Qed.

Lemma elem_of_without id l x : x ∈ without id l <-> x ∈ l /\ x <> id.
Proof. unfold without. rewrite list_elem_of_filter. naive_solver. Qed.

Lemma NoDup_without id l : NoDup l -> NoDup (without id l).
Proof. apply NoDup_filter. Qed.

Lemma position_eqb_Some id l pos : position (fun s => s =? id) l = Some pos -> l !! pos = Some id.
Proof. intros (x & Hx & E & _)%position_Some. apply Z.eqb_eq in E. by subst. Qed.

Lemma position_eqb_None id l : position (fun s => s =? id) l = None <-> id ∉ l.
Proof.
  rewrite position_None. split.
  - intros H Hin%H. by rewrite Z.eqb_refl in Hin.
  - intros H x Hx. apply Z.eqb_neq. naive_solver.
Qed.

(** ** The z-order list and the focus history as lists *)

Definition z_rep (z : ZOrder) (l : list Z) : Prop := holds_list MAX_SURFACES (z_entries z) (z_len z) l.
Definition h_rep (h : FocusHistory) (l : list Z) : Prop := holds_list FOCUS_HISTORY_CAPACITY (h_entries h) (h_len h) l.

(** Raising an entry of the stack, touching an entry of the history. *)
Definition raised (id : Z) (l : list Z) : list Z := if decide (id ∈ l) then without id l ++ [id] else l.
Definition touched (id : Z) (l : list Z) : list Z :=
  take (Z.to_nat FOCUS_HISTORY_CAPACITY) (id :: without id l).

Lemma z_rep_new : z_rep zorder_new [].
Proof. by apply holds_list_new. Qed.
Lemma h_rep_new : h_rep history_new [].
Proof. by apply holds_list_new. Qed.

Lemma z_rep_push z l id : z_rep z l ->
  if decide (id <> NONE_ID /\ alen l < MAX_SURFACES)
  then (z_push id z).1 = true /\ z_rep (z_push id z).2 (l ++ [id])
  else z_push id z = (false, z).
Proof.
  intros Hz. pose proof Hz as (Hl & Hn & _). unfold z_push, is_none_id, NONE_ID.
  rewrite Hl, Z.geb_leb. destruct (Z.leb_spec MAX_SURFACES (alen l)), (Z.eqb_spec id 0); cbn [orb];
    try (rewrite decide_False by (intros [? ?]; lia); done).
  rewrite decide_True by done. split; [done|]. rewrite <-Hl. by apply holds_list_push.
Qed.

Lemma z_rep_remove z l id : z_rep z l -> NoDup l -> z_rep (z_remove id z) (without id l).
Proof.
  intros Hz Hnd. unfold z_remove, z_live. rewrite (holds_list_live _ _ _ _ Hz).
  destruct (position _ l) as [pos|] eqn:E.
  - apply position_eqb_Some in E. rewrite (without_delete id l pos) by done.
    apply holds_list_remove; [done|]. by eapply lookup_lt_Some.
  - apply position_eqb_None in E. by rewrite without_notin.
Qed.

Lemma existsb_eqb id l : existsb (fun s => s =? id) l = bool_decide (id ∈ l).
Proof.
  apply eq_true_iff_eq. rewrite existsb_exists, bool_decide_eq_true. split.
  - intros (x & Hx%list_elem_of_In & ->%Z.eqb_eq). done.
  - intros H. exists id. split; [by apply list_elem_of_In|apply Z.eqb_refl].
Qed.

Lemma z_rep_raise z l id : z_rep z l -> NoDup l -> NONE_ID ∉ l -> z_rep (z_raise_to_top id z) (raised id l).
Proof.
  intros Hz Hnd H0. unfold z_raise_to_top, z_live, raised. rewrite (holds_list_live _ _ _ _ Hz), existsb_eqb.
  case_decide as Hin; [rewrite bool_decide_true by done|by rewrite bool_decide_false].
  pose proof (z_rep_push _ _ id (z_rep_remove z l id Hz Hnd)) as Hp.
  rewrite decide_True in Hp; [apply Hp|]. split; [by intros ->|].
  apply list_elem_of_lookup in Hin as [pos Hpos]. rewrite (without_delete id l pos) by done.
  destruct Hz as (_ & Hn & _). unfold alen in *. rewrite length_delete by eauto.
  apply lookup_lt_Some in Hpos. lia.
Qed.

Lemma h_rep_remove h l id : h_rep h l -> NoDup l -> h_rep (h_remove id h) (without id l).
Proof.
  intros Hz Hnd. unfold h_remove, h_live. rewrite (holds_list_live _ _ _ _ Hz).
  destruct (position _ l) as [pos|] eqn:E.
  - apply position_eqb_Some in E. rewrite (without_delete id l pos) by done.
    apply holds_list_remove; [done|]. by eapply lookup_lt_Some.
  - apply position_eqb_None in E. by rewrite without_notin.
Qed.

Lemma aset_same {A} (l : list A) i x : l.[i] = Some x -> l.[i <- x] = l.
Proof. unfold aget, aset. apply list_insert_id. Qed.

Lemma holds_list_aset_none n e len l : holds_list n e len l -> len < n -> e.[len <- NONE_ID] = e.
Proof.
  intros (-> & Hn & ->) Hl. apply aset_same. unfold aget, alen. rewrite Nat2Z.id.
  rewrite lookup_app_r, Nat.sub_diag by done. rewrite array_of_cons by (unfold alen in *; lia). done.
Qed.

Lemma h_rep_touch h l id : h_rep h l -> NoDup l -> id <> NONE_ID -> h_rep (h_touch id h) (touched id l).
Proof.
  intros Hh Hnd Hid. pose proof Hh as (Hl & Hn & _). unfold h_touch, h_live, touched, is_none_id.
  replace (id =? 0) with false by (symmetry; by apply Z.eqb_neq).
  rewrite (holds_list_live _ _ _ _ Hh). set (C := FOCUS_HISTORY_CAPACITY) in *.
  destruct (position _ l) as [pos|] eqn:E.
  - apply position_eqb_Some in E. pose proof (lookup_lt_Some _ _ _ E) as Hp.
    rewrite (without_delete id l pos) by done.
    rewrite take_ge by (cbn [length]; rewrite length_delete by eauto; unfold alen in *; lia).
    by apply holds_list_front.
  - apply position_eqb_None in E. rewrite without_notin by done.
    destruct (Z.lt_ge_cases (h_len h) C) as [Hlt|Hge].
    + rewrite take_ge by (cbn [length]; unfold alen in *; lia). rewrite Z.min_l by lia.
      replace (saturating_sub (h_len h + 1) 1) with (h_len h) by (unfold saturating_sub, alen in *; lia).
      pose proof (holds_list_cons _ _ _ _ id Hh ltac:(lia)) as Hc.
      destruct (Z.ltb_spec (h_len h + 1) C); [|done].
      unfold h_rep. cbn. by rewrite (holds_list_aset_none _ _ _ _ Hc).
    + rewrite Z.min_r by lia. replace (saturating_sub C 1) with (C - 1) by done.
      rewrite Z.ltb_irrefl. replace (Z.to_nat C) with (S (Z.to_nat (C - 1))) by done. rewrite firstn_cons.
      apply (holds_list_full _ _ (h_len h)); [done|done|unfold alen in *; lia].
Qed.

Lemma elem_of_touched id l x : x ∈ touched id l -> x = id \/ x ∈ l.
Proof. intros [H|[H _]%elem_of_without]%subseteq_take%elem_of_cons; auto. Qed.
Lemma NoDup_touched id l : NoDup l -> NoDup (touched id l).
Proof.
  intros H. eapply sublist_NoDup; [|apply sublist_take]. constructor; [|by apply NoDup_without].
  rewrite elem_of_without. naive_solver.
Qed.
Lemma elem_of_raised id l x : x ∈ raised id l <-> x ∈ l.
Proof.
  unfold raised. case_decide; [|done]. rewrite elem_of_app, elem_of_without, list_elem_of_singleton.
  destruct (decide (x = id)); naive_solver.
Qed.
Lemma NoDup_raised id l : NoDup l -> NoDup (raised id l).
Proof.
  intros H. unfold raised. case_decide; [|done]. apply NoDup_app. split_and!.
  - by apply NoDup_without.
  - intros x [_ Hx]%elem_of_without. by rewrite list_elem_of_singleton.
  - apply NoDup_singleton.
Qed.

(** ** Hit testing *)

(** One case of the test: the zone is known, and so is where the point lies. *)
Local Ltac zone_case :=
  eexists; split; [reflexivity|]; split_and!; intros; split; intros;
  try match goal with H : exists _, _ |- _ => destruct H end;
  simplify_eq; try done; try (eexists; reflexivity); lia.

(** the zone of a pointer position is exact. For every window of at most [2^30] pixels a side placed within
    [2^30] of the origin, the test does not overflow; it answers nothing exactly outside the window,
    a resize border exactly in the 8-pixel frame (named after its corner where two margins meet),
    and inside the frame the close button, the title bar and the content split the rest. *)
Theorem hit_zone_exact px py x y w h :
  sint 32 px -> sint 32 py -> - 2 ^ 30 <= x <= 2 ^ 30 -> - 2 ^ 30 <= y <= 2 ^ 30 ->
  0 < w < 2 ^ 30 -> 0 < h < 2 ^ 30 ->
  let inside := x <= px < x + w /\ y <= py < y + h in
  let frame := px < x + 8 \/ x + w - 8 <= px \/ py < y + 8 \/ y + h - 8 <= py in
  exists r, hit_zone px py x y w h DEFAULT_DECO = Some r /\
  (r = None <-> ~ inside) /\
  (r = Some Content <-> inside /\ ~ frame /\ y + 25 <= py) /\
  (r = Some CloseButton <-> inside /\ ~ frame /\ py < y + 25 /\ x + w - 25 <= px) /\
  (r = Some TitleBar <-> inside /\ ~ frame /\ py < y + 25 /\ px < x + w - 25) /\
  ((exists e, r = Some (ResizeBorder e)) <-> inside /\ frame) /\
  (r = Some (ResizeBorder NorthWest) <-> inside /\ px < x + 8 /\ py < y + 8) /\
  (16 <= w -> 16 <= h ->
   r = Some (ResizeBorder SouthEast) <-> inside /\ x + w - 8 <= px /\ y + h - 8 <= py).
Proof.
  intros Hpx Hpy Hx Hy Hw Hh. cbn zeta. unfold hit_zone, DEFAULT_DECO, saturating_add_i32.
  cbn [resize_margin border_width title_bar_height close_button_width].
  change (2 ^ 30) with 1073741824 in *. unfold sint in *. change (2 ^ (32 - 1)) with 2147483648 in *.
  change (2 ^ 31) with 2147483648.
  rewrite !as_signed_small by (change (2 ^ (32 - 1)) with 2147483648; lia).
  rewrite !(Z.min_l (_ + _)), !(Z.max_r _ (_ + _)) by lia.
  assert (Hi : forall n, -1200000000 <= n <= 2147483647 -> i32v n = Some n)
    by (intros; apply i32v_in; unfold sint; change (2 ^ (32 - 1)) with 2147483648; lia).
  destruct (Z.leb_spec w 0), (Z.leb_spec h 0); try lia. cbn [orb].
  destruct ((px <? x) || (px >=? x + w) || (py <? y) || (py >=? y + h)) eqn:Eo; [zone_case|].
  repeat (rewrite ?Hi by lia; cbn [mbind option_bind]).
  destruct (Z.ltb_spec px (x + 8)), (Z.ltb_spec py (y + 8)), (Z.geb_spec px (x + w - 8)), (Z.geb_spec py (y + h - 8));
    cbn [andb]; try zone_case.
  repeat (rewrite ?Hi by lia; cbn [mbind option_bind]). destruct (Z.ltb_spec py (y + 1 + 24)); [|zone_case].
  repeat (rewrite ?Hi by lia; cbn [mbind option_bind]). destruct (Z.geb_spec px (x + w - 1 - 24)); zone_case.
Qed.

Lemma hit_zone_exact_witness :
  exists r, hit_zone 110 130 100 100 640 480 DEFAULT_DECO = Some r /\ (r = Some Content <->
    (100 <= 110 < 740 /\ 100 <= 130 < 580) /\ ~ (110 < 108 \/ 732 <= 110 \/ 130 < 108 \/ 572 <= 130) /\ 125 <= 130).
Proof.
  assert (H : sint 32 110 /\ sint 32 130) by (unfold sint; lia). destruct H as [H1 H2].
  destruct (hit_zone_exact 110 130 100 100 640 480 H1 H2) as (r & Hr & _ & Hc & _); [lia..|].
  exists r. split; [exact Hr|exact Hc].
Defined.

(** ** Titles keep whole characters *)

(** A character's encoding, as far as lengths go: a lead byte and as many
    continuation bytes as it announces. *)
Definition is_char (c : list Z) : Prop :=
  exists lead conts, c = lead :: conts /\ is_cont lead = false /\
    Forall (fun b => is_cont b = true) conts /\ expected_len lead = length c.

Lemma nth_app_at (a : list Z) i b : nth (length a + i) (a ++ b) 0 = nth i b 0.
Proof. rewrite app_nth2 by lia. f_equal. lia. Qed.

Lemma nth_lead (pre : list Z) lead b : nth (length pre) (pre ++ lead :: b) 0 = lead.
Proof. rewrite <-(Nat.add_0_r (length pre)) at 1. by rewrite nth_app_at. Qed.

Lemma conts_nth conts rest i : Forall (fun b => is_cont b = true) conts -> (i < length conts)%nat ->
  is_cont (nth i (conts ++ rest) 0) = true.
Proof.
  intros Hc Hi. rewrite app_nth1 by done. rewrite Forall_lookup in Hc. apply (Hc i).
  destruct (lookup_lt_is_Some_2 conts i Hi) as [x Hx]. by rewrite (nth_lookup_Some _ _ _ _ Hx).
Qed.

(** From inside a character the probe finds its lead byte. *)
Lemma probe_back_lead pre lead conts rest j :
  is_cont lead = false -> Forall (fun b => is_cont b = true) conts -> (j <= length conts)%nat ->
  probe_back (pre ++ (lead :: conts) ++ rest) (length pre + j) = length pre.
Proof.
  intros Hl Hc. induction j as [|j IH]; intros Hj.
  - rewrite Nat.add_0_r. destruct (length pre) eqn:E; [done|]. cbn [probe_back]. rewrite <-E.
    rewrite <-(Nat.add_0_r (length pre)), nth_app_at. cbn. by rewrite Hl.
  - rewrite Nat.add_succ_r. cbn [probe_back]. rewrite <-Nat.add_succ_r, nth_app_at. cbn [app nth].
    rewrite conts_nth by (done || lia). apply IH. lia.
Qed.

(** Inside a character the cut walks back to just after its lead byte. *)
Lemma walk_back_inside pre lead conts rest j :
  is_cont lead = false -> Forall (fun b => is_cont b = true) conts ->
  expected_len lead = S (length conts) -> (j < length conts)%nat ->
  walk_back (pre ++ (lead :: conts) ++ rest) (length pre + S j) = S (length pre).
Proof.
  intros Hl Hc He. induction j as [|j IH]; intros Hj; rewrite Nat.add_succ_r; cbn [walk_back].
  - rewrite nth_app_at. cbn [app nth]. rewrite Hl. cbn [andb]. by rewrite Nat.add_0_r.
  - rewrite probe_back_lead by (done || lia). rewrite nth_app_at. cbn [app nth].
    rewrite conts_nth by (done || lia). rewrite nth_lead, He. cbn [andb]. destruct (Nat.ltb_spec (S (length pre + S j)) (length pre + S (length conts))); [apply IH; lia|lia].
Qed.

(** At the end of a character the cut stays. *)
Lemma walk_back_end pre c rest : is_char c ->
  walk_back (pre ++ c ++ rest) (length pre + length c) = (length pre + length c)%nat.
Proof.
  intros (lead & conts & -> & Hl & Hc & He). cbn [length] in *. rewrite Nat.add_succ_r. cbn [walk_back].
  rewrite probe_back_lead by (done || lia). cbn [app]. rewrite nth_lead, He. replace (_ <? _)%nat with false by (symmetry; apply Nat.ltb_ge; lia). by rewrite andb_false_r.
Qed.

Lemma expected_len_cont b : is_cont b = true -> expected_len b = 1%nat.
Proof.
  unfold is_cont. intros H%Z.eqb_eq. assert (H6 : Z.testbit b 6 = false).
  { apply (f_equal (fun z => Z.testbit z 6)) in H. rewrite Z.land_spec in H. by rewrite andb_true_r in H. }
  assert (Hm : forall m v, Z.testbit m 6 = true -> Z.testbit v 6 = true -> (Z.land b m =? v) = false).
  { intros m v Hm Hv. apply Z.eqb_neq. intros E%(f_equal (fun z => Z.testbit z 6)).
    rewrite Z.land_spec, H6, Hv in E. done. }
  unfold expected_len. rewrite (Hm 0xE0 0xC0), (Hm 0xF0 0xE0), (Hm 0xF8 0xF0) by done. by destruct (_ =? _).
Qed.

Lemma title_cut_end pre c rest : is_char c ->
  Nat.min (length (pre ++ c ++ rest)) 64 = (length pre + length c)%nat ->
  title_cut (pre ++ c ++ rest) = (length pre + length c)%nat.
Proof.
  intros Hchar E. unfold title_cut. change (Z.to_nat SURFACE_TITLE_MAX) with 64%nat.
  rewrite E, walk_back_end by done. destruct Hchar as (lead & conts & -> & Hl & Hc & He). cbn [length] in *.
  rewrite Nat.add_succ_r, nth_app_at. cbn [app].
  assert (Hone : expected_len (nth (length conts) (lead :: conts ++ rest) 0) = 1%nat); [|by rewrite Hone].
  destruct conts as [|b conts]; [done|]. cbn [length nth]. apply expected_len_cont, conts_nth; [done|cbn; lia].
Qed.

Lemma title_cut_inside pre c rest j : is_char c -> (S j < length c)%nat ->
  Nat.min (length (pre ++ c ++ rest)) 64 = (length pre + S j)%nat ->
  title_cut (pre ++ c ++ rest) = length pre.
Proof.
  intros (lead & conts & -> & Hl & Hc & He) Hj E. unfold title_cut. change (Z.to_nat SURFACE_TITLE_MAX) with 64%nat.
  cbn [length] in Hj, He. rewrite E, walk_back_inside by (done || lia). cbn [app]. rewrite nth_lead, He.
  destruct (Nat.ltb_spec 1 (S (length conts))), (Nat.ltb_spec (S (length pre)) (length pre + S (length conts))); cbn; lia.
Qed.

Lemma title_cut_boundary cs n : Forall is_char cs -> (n <= length cs)%nat ->
  Nat.min (length (concat cs)) 64 = length (concat (take n cs)) ->
  title_cut (concat cs) = length (concat (take n cs)).
Proof.
  intros Hcs Hn E. destruct n as [|k].
  { unfold title_cut. change (Z.to_nat SURFACE_TITLE_MAX) with 64%nat. by rewrite E. }
  destruct (lookup_lt_is_Some_2 cs k) as [c Hc]; [lia|]. rewrite (concat_take_S _ _ _ Hc) in *.
  rewrite (concat_split _ _ _ Hc) in *. apply title_cut_end; [|done]. by eapply Forall_lookup_1.
Qed.

Lemma title_cut_chars cs : Forall is_char cs -> exists n, (n <= length cs)%nat /\
  title_cut (concat cs) = length (concat (take n cs)) /\ (length (concat (take n cs)) <= 64)%nat /\
  ((n < length cs)%nat -> (64 < length (concat (take (S n) cs)))%nat).
Proof.
  intros Hcs. destruct (chars_fit cs 64) as (n & Hn & H1 & H2). exists n. split; [done|]. split; [|done].
  destruct (decide (n < length cs)%nat) as [Hlt|Hge].
  - specialize (H2 Hlt). destruct (lookup_lt_is_Some_2 cs n Hlt) as [c Hc].
    rewrite (concat_take_S _ _ _ Hc) in H2. pose proof (concat_split _ _ _ Hc) as Hs.
    assert (Hl : (64 < length (concat cs))%nat) by (rewrite Hs, !length_app; lia).
    destruct (decide (length (concat (take n cs)) = 64)%nat) as [E64|Hne]; [apply title_cut_boundary; [done|lia|lia]|].
    rewrite Hs. apply (title_cut_inside _ _ _ (63 - length (concat (take n cs)))).
    + by eapply Forall_lookup_1.
    + lia.
    + rewrite <-Hs. lia.
  - rewrite (take_ge cs) in * by lia. rewrite <-(take_ge cs n) at 2 by lia.
    apply title_cut_boundary; [done|lia|]. rewrite (take_ge cs n) by lia. lia.
Qed.

(** a title of well-formed characters is stored as the longest prefix of whole characters that
    fits its 64 bytes; no character is ever cut in two. *)
Theorem title_keeps_whole_characters cs : Forall is_char cs -> exists n,
  title_as_bytes (title_from_bytes (concat cs)) = concat (take n cs) /\
  alen (concat (take n cs)) <= SURFACE_TITLE_MAX /\
  ((n < length cs)%nat -> SURFACE_TITLE_MAX < alen (concat (take (S n) cs))).
Proof.
  intros Hcs. destruct (title_cut_chars cs Hcs) as (n & Hn & Hcut & Hle & Hmax). exists n.
  unfold alen, SURFACE_TITLE_MAX. split; [|split; [lia|intros ?%Hmax; lia]].
  unfold title_as_bytes, title_from_bytes. cbn [title_len title_bytes]. rewrite Hcut.
  rewrite wrap_small by (unfold uint; lia). rewrite Nat2Z.id.
  assert (Ht : take (length (concat (take n cs))) (concat cs) = concat (take n cs)).
  { rewrite <-(take_drop n cs) at 2. by rewrite concat_app, take_app_length. }
  rewrite Ht. pose proof (copy_at_read (array_of SURFACE_TITLE_MAX 0) 0 (concat (take n cs))) as Hr.
  rewrite drop_0 in Hr. apply Hr. lia.
Qed.

(** 'A' and a three-byte character. *)
Definition demo_chars : list (list Z) := replicate 21 [0xE2; 0x82; 0xAC] ++ [[65]; [0xC3; 0xA9]].

Lemma title_keeps_whole_characters_witness : exists n,
  title_as_bytes (title_from_bytes (concat demo_chars)) = concat (take n demo_chars) /\
  alen (concat (take n demo_chars)) <= SURFACE_TITLE_MAX /\
  ((n < length demo_chars)%nat -> SURFACE_TITLE_MAX < alen (concat (take (S n) demo_chars))).
Proof.
  apply (title_keeps_whole_characters demo_chars). unfold demo_chars. apply Forall_app_2.
  - apply Forall_replicate. exists 0xE2, [0x82; 0xAC]. by repeat constructor.
  - repeat constructor; [exists 65, []|exists 0xC3, [0xA9]]; by repeat constructor.
Defined.

(** ** Damage: the least bounding rectangle *)

Definition rect_ok (r : DamageRect) : Prop :=
  0 <= dr_x r /\ 0 <= dr_y r /\ 0 <= dr_width r /\ 0 <= dr_height r /\
  dr_x r + dr_width r < 2 ^ 32 /\ dr_y r + dr_height r < 2 ^ 32.
Definition rect_empty (r : DamageRect) : bool := (dr_width r =? 0) || (dr_height r =? 0).
(** [r] lies inside [b]. *)
Definition within (r b : DamageRect) : Prop :=
  dr_x b <= dr_x r /\ dr_y b <= dr_y r /\
  dr_x r + dr_width r <= dr_x b + dr_width b /\ dr_y r + dr_height r <= dr_y b + dr_height b.

Lemma within_trans a b c : within a b -> within b c -> within a c.
Proof. unfold within. lia. Qed.

Lemma if_gtb_max a b : (if a >? b then a else b) = Z.max a b.
Proof. destruct (a >? b) eqn:?; lia. Qed.
Lemma if_ltb_min a b : (if a <? b then a else b) = Z.min a b.
Proof. destruct (a <? b) eqn:?; lia. Qed.

Lemma union_rect_ok a b : rect_ok a -> rect_ok b -> exists c,
  union_rect a b = Some c /\ rect_ok c /\ within a c /\ within b c /\
  (forall d, within a d -> within b d -> within c d).
Proof.
  destruct a as [ax ay aw ah], b as [bx by_ bw bh]. unfold rect_ok, within, union_rect. cbn. intros Ha Hb.
  change (2 ^ 32) with 4294967296 in *.
  rewrite !u32v_in by (unfold uint; lia). cbn.
  rewrite !if_gtb_max, !if_ltb_min. rewrite !u32v_in by (unfold uint; lia). cbn.
  eexists. split; [done|]. cbn. split_and!; try lia; intros [dx dy dw dh]; cbn; lia.
Qed.

(** The bounds of a tracker after the damage [rs]. *)
Definition tracks (t : DamageTracker) (rs : list DamageRect) : Prop :=
  dt_full t = false /\
  match dt_bounds t with
  | None => rs = []
  | Some b => rect_ok b /\ Forall (fun r => within r b) rs /\ rs <> [] /\
              forall d, Forall (fun r => within r d) rs -> within b d
  end.

Lemma tracker_union_tracks t rs r : tracks t rs -> rect_ok r -> exists t',
  tracker_union r t = Some t' /\ tracks t' (if rect_empty r then rs else rs ++ [r]).
Proof.
  intros [Hf Hb] Hr. unfold tracker_union. fold (rect_empty r). destruct (rect_empty r); [by exists t|]. rewrite Hf.
  destruct (dt_bounds t) as [b|] eqn:Eb.
  - destruct Hb as (Hb1 & Hb2 & Hb3 & Hb4). destruct (union_rect_ok b r Hb1 Hr) as (c & -> & Hc & Hbc & Hrc & Hmin).
    eexists. split; [done|]. split; [done|]. cbn. split_and!; [done|..].
    + apply Forall_app_2; [|by constructor]. eapply Forall_impl; [exact Hb2|]. intros x Hx. by apply (within_trans x b c).
    + by destruct rs.
    + intros d [Hd1 Hd2]%Forall_app. rewrite Forall_singleton in Hd2. by apply Hmin; [apply Hb4|].
  - subst rs. eexists. split; [done|]. split; [done|]. cbn. split_and!; [done| |done|].
    + constructor; [|done]. unfold within. lia.
    + intros d Hd. by rewrite Forall_singleton in Hd.
Qed.

Definition union_all (rs : list DamageRect) : option DamageTracker :=
  foldl (fun t r => t ≫= tracker_union r) (Some tracker_new) rs.

(** damage accumulation. Unioning any rectangles of the 32-bit plane never overflows, and the
    tracker's bounds are the least rectangle that contains every non-empty one; without one there
    is no damage. *)
Theorem damage_bounds_least rs : Forall rect_ok rs -> exists t, union_all rs = Some t /\
  let live := filter (fun r => rect_empty r = false) rs in
  match tracker_bounds t with
  | None => live = [] /\ tracker_has_damage t = false
  | Some b => Forall (fun r => within r b) live /\
              forall d, Forall (fun r => within r d) live -> within b d
  end.
Proof.
  intros Hrs. assert (H : exists t, union_all rs = Some t /\ tracks t (filter (fun r => rect_empty r = false) rs)).
  { unfold union_all. induction rs as [|r rs IH] using rev_ind; [by exists tracker_new|].
    apply Forall_app in Hrs as [Hrs Hr]. rewrite Forall_singleton in Hr. destruct (IH Hrs) as (t & Ht & Htr).
    rewrite foldl_app, Ht. cbn. destruct (tracker_union_tracks _ _ _ Htr Hr) as (t' & -> & Htr').
    exists t'. split; [done|]. rewrite filter_app, filter_cons, filter_nil.
    destruct (rect_empty r); cbn; [by rewrite app_nil_r|done]. }
  destruct H as (t & Ht & Hf & Hb). exists t. split; [done|]. cbn zeta. unfold tracker_bounds. rewrite Hf.
  destruct (dt_bounds t) as [b|] eqn:Eb; [by destruct Hb as (_ & ? & _ & ?)|].
  split; [done|]. unfold tracker_has_damage. by rewrite Hf, Eb.
Qed.

Lemma damage_bounds_least_witness : exists t,
  union_all [mk_rect 10 20 30 5; mk_rect 0 0 0 9; mk_rect 5 40 1 1] = Some t /\
  tracker_bounds t = Some (mk_rect 5 20 35 21).
Proof.
  destruct (damage_bounds_least [mk_rect 10 20 30 5; mk_rect 0 0 0 9; mk_rect 5 40 1 1]) as (t & Ht & _).
  - repeat constructor; cbn; lia.
  - exists t. split; [exact Ht|]. vm_compute in Ht. injection Ht as <-. reflexivity.
Defined.

(** ** Input events on the wire *)

(** Events the input subsystem produces: canonical keys, 8-bit modifiers. *)
Definition event_ok (e : InputEvent) : Prop :=
  match e with
  | Keyboard k _ m => from_evdev (to_evdev k) = k /\ uint 8 m
  | Pointer _ _ _ _ => True
  end.

Lemma lor_byte s m : 0 <= s < 256 -> 0 <= m -> Z.lor s (Z.shiftl m 8) = s + 256 * m.
Proof.
  intros Hs Hm. assert (Hl : Z.land s (Z.shiftl m 8) = 0).
  { apply Z.bits_inj'. intros i Hi. rewrite Z.land_spec, Z.testbit_0_l. destruct (Z.lt_ge_cases i 8).
    - rewrite Z.shiftl_spec_low by lia. apply andb_false_r.
    - by rewrite (uint_testbit_high 8) by (unfold uint; lia). }
  rewrite <-Z.lxor_lor, <-Z.add_nocarry_lxor, Z.shiftl_mul_pow2 by (done || lia). lia.
Qed.

Lemma state_or_modifiers_value st m : uint 8 m ->
  Z.lor (Z.land (key_state_num st) 0xFF) (wrap 32 (Z.shiftl m 8)) = key_state_num st + 256 * m.
Proof.
  unfold uint. intros Hm. rewrite wrap_small by (unfold uint; rewrite Z.shiftl_mul_pow2; lia).
  replace (Z.land (key_state_num st) 0xFF) with (key_state_num st) by (by destruct st).
  apply lor_byte; [destruct st; cbn; lia|lia].
Qed.

(** the wire encoding of input events loses nothing: two events the input subsystem can produce
    that encode alike are the same event. *)
Theorem input_encode_injective e1 e2 :
  event_ok e1 -> event_ok e2 -> input_encode e1 = input_encode e2 -> e1 = e2.
Proof.
  destruct e1 as [k1 s1 m1|x1 y1 b1 s1], e2 as [k2 s2 m2|x2 y2 b2 s2]; cbn [event_ok input_encode]; [|done|done|].
  - intros [Hk1 Hm1] [Hk2 Hm2]. rewrite !state_or_modifiers_value by done. intros [= Hk Hs].
    assert (k1 = k2) as -> by congruence.
    assert (key_state_num s1 = key_state_num s2 /\ m1 = m2) as [Hs' ->] by (destruct s1, s2; cbn in *; lia).
    by destruct s1, s2.
  - intros _ _ [= Hb Hx Hy Hs]. subst. f_equal.
    + by destruct b1 as [[]|], b2 as [[]|].
    + by destruct s1 as [[]|], s2 as [[]|].
Qed.

Lemma input_encode_injective_witness :
  Keyboard (from_evdev 15) KeyPressed 4 = Keyboard Tab KeyPressed 4.
Proof.
  apply (input_encode_injective (Keyboard (from_evdev 15) KeyPressed 4) (Keyboard Tab KeyPressed 4)).
  - split; [reflexivity|unfold uint; lia].
  - split; [reflexivity|unfold uint; lia].
  - reflexivity.
Defined.
