(* ===== verification/Windows.v ===== *)
(** * Windows: the compositor service (kernel/src/compositor)

    Surfaces (surface.rs), focus (focus.rs), hotkeys (hotkey.rs), the window
    manager's z-order, hit testing and drags (window.rs), the input pipeline
    (input_route.rs) and the request dispatch (service.rs).  All of it runs on
    the compositor thread, so the module's globals are the fields of one state
    [comp] and an operation is a function on it; [None] is the panic of an
    arithmetic overflow.  The events the compositor sends, in order, are
    [sent]: an [ipc_send] whose result the code drops.  The owner of a request
    ([process_of_thread] of its sender) and the events [pop_event] returned
    are arguments. *)

From S2P Require Import Prelude Input Compositor.

(** ** State *)

Record Surface := {
  s_id : Z;
  s_state : SurfaceState;
  s_layer : SurfaceLayer;
  s_title : SurfaceTitle;
  s_content_type : SurfaceContentType;
  s_x : Z; s_y : Z;
  s_width : Z; s_height : Z;
  s_shmem_id : option Z;
  s_owner_pid : Z;
  s_channel : Z;
  s_layer_seq : Z;
  s_damaged : bool
}.

Inductive SurfaceError := TableFull | NotFound | NotOwner | InvalidTransition | InvalidSize.

Record FocusManager := {
  keyboard_focus : option Z;
  pointer_focus : option Z;
  focus_history : FocusHistory
}.
Definition focus_new : FocusManager := Build_FocusManager None None history_new.

Record FocusChange := { lost : option Z; gained : option Z }.
Definition no_change : FocusChange := Build_FocusChange None None.

Inductive DragState :=
| Idle
| Moving (surface : Z) (start_pointer start_origin : Z * Z)
| Resizing (surface : Z) (edge : ResizeEdge) (start_pointer start_origin start_dims : Z * Z).

Record comp := mk_comp {
  table : list (option Surface);
  next_surface_id : Z;
  next_layer_seq : Z;
  z_order : ZOrder;
  focus : FocusManager;
  drag : DragState;
  cursor_pos : Z * Z;
  self_channel : option Z;
  sent : list (Z * CompositorEvent)
}.

Definition comp_boot (ch : option Z) : comp :=
  mk_comp (array_of MAX_SURFACES None) FIRST_ID 1 zorder_new focus_new Idle (400, 300) ch [].

Definition with_table (t : list (option Surface)) (c : comp) : comp :=
  mk_comp t (next_surface_id c) (next_layer_seq c) (z_order c) (focus c) (drag c) (cursor_pos c) (self_channel c) (sent c).
Definition with_counters (id seq : Z) (c : comp) : comp :=
  mk_comp (table c) id seq (z_order c) (focus c) (drag c) (cursor_pos c) (self_channel c) (sent c).
Definition with_z (z : ZOrder) (c : comp) : comp :=
  mk_comp (table c) (next_surface_id c) (next_layer_seq c) z (focus c) (drag c) (cursor_pos c) (self_channel c) (sent c).
Definition with_focus (f : FocusManager) (c : comp) : comp :=
  mk_comp (table c) (next_surface_id c) (next_layer_seq c) (z_order c) f (drag c) (cursor_pos c) (self_channel c) (sent c).
Definition with_drag (d : DragState) (c : comp) : comp :=
  mk_comp (table c) (next_surface_id c) (next_layer_seq c) (z_order c) (focus c) d (cursor_pos c) (self_channel c) (sent c).

(** ** Surfaces (surface.rs) *)

Definition slot_test (f : Surface -> bool) (s : option Surface) : bool :=
  match s with Some x => f x | None => false end.

(** The first slot whose surface satisfies [f], and its surface: the
    [iter().find_map(..)] and [find_mut] of the module. *)
Definition find_slot (f : Surface -> bool) (t : list (option Surface)) : option (nat * Surface) :=
  i ← position (slot_test f) t; s ← mjoin (t !! i); Some (i, s).

Definition find_mut (t : list (option Surface)) (id : Z) : option (nat * Surface) :=
  find_slot (fun s => s_id s =? id) t.

Definition put_slot (i : nat) (s : option Surface) (t : list (option Surface)) : list (option Surface) := <[i := s]> t.

Definition surface_create (owner_pid channel width height : Z) (title : SurfaceTitle)
    (content_type : SurfaceContentType) (layer : SurfaceLayer) (c : comp) : comp * result SurfaceError Z :=
  if (width =? 0) || (height =? 0) then (c, Err InvalidSize)
  else
    let id := next_surface_id c in
    let layer_seq := next_layer_seq c in
    let c := with_counters (wrapping_add 64 id 1) (wrapping_add 64 layer_seq 1) c in
    match first_none (table c) with
    | None => (c, Err TableFull)
    | Some i =>
        let s := {| s_id := id; s_state := Created; s_layer := layer; s_title := title;
                    s_content_type := content_type; s_x := 0; s_y := 0; s_width := width;
                    s_height := height; s_shmem_id := None; s_owner_pid := owner_pid;
                    s_channel := channel; s_layer_seq := layer_seq; s_damaged := true |} in
        (with_table (put_slot i (Some s) (table c)) c, Ok id)
    end.

Definition surface_attach_buffer (id shmem_id : Z) (damage : DamageRegion) (caller_pid : Z) (c : comp)
    : comp * result SurfaceError unit :=
  match find_mut (table c) id with
  | None => (c, Err NotFound)
  | Some (i, s) =>
      if negb (s_owner_pid s =? caller_pid) then (c, Err NotOwner)
      else if is_terminal (s_state s) then (c, Err InvalidTransition)
      else
        match (match s_state s with
               | Created | Configured => Some Active
               | Active | Suspended => Some Active
               | Destroyed => None
               end) with
        | None => (c, Err InvalidTransition)
        | Some next_state =>
            if negb (can_transition_to (s_state s) next_state) then (c, Err InvalidTransition)
            else
              let s' := {| s_id := s_id s; s_state := next_state; s_layer := s_layer s; s_title := s_title s;
                           s_content_type := s_content_type s; s_x := s_x s; s_y := s_y s;
                           s_width := s_width s; s_height := s_height s; s_shmem_id := Some shmem_id;
                           s_owner_pid := s_owner_pid s; s_channel := s_channel s; s_layer_seq := s_layer_seq s;
                           s_damaged := if region_has_damage damage then true else s_damaged s |} in
              (with_table (put_slot i (Some s') (table c)) c, Ok ())
        end
  end.

Definition surface_destroy (id caller_pid : Z) (c : comp) : comp * result SurfaceError unit :=
  match find_mut (table c) id with
  | None => (c, Err NotFound)
  | Some (i, s) =>
      if negb (s_owner_pid s =? caller_pid) then (c, Err NotOwner)
      else if negb (can_transition_to (s_state s) Destroyed) then (c, Err InvalidTransition)
      else (with_table (put_slot i None (table c)) c, Ok ())
  end.

(** A surface with a new origin and size, damaged. *)
Definition with_geometry (x y width height : Z) (s : Surface) : Surface :=
  {| s_id := s_id s; s_state := s_state s; s_layer := s_layer s; s_title := s_title s;
     s_content_type := s_content_type s; s_x := x; s_y := y; s_width := width; s_height := height;
     s_shmem_id := s_shmem_id s; s_owner_pid := s_owner_pid s; s_channel := s_channel s;
     s_layer_seq := s_layer_seq s; s_damaged := true |}.

Definition surface_resize (id width height caller_pid : Z) (c : comp) : comp * result SurfaceError (Z * Z) :=
  if (width =? 0) || (height =? 0) then (c, Err InvalidSize)
  else
    match find_mut (table c) id with
    | None => (c, Err NotFound)
    | Some (i, s) =>
        if negb (s_owner_pid s =? caller_pid) then (c, Err NotOwner)
        else if is_terminal (s_state s) then (c, Err InvalidTransition)
        else (with_table (put_slot i (Some (with_geometry (s_x s) (s_y s) width height s)) (table c)) c,
              Ok (width, height))
    end.

Definition surface_set_layer (id : Z) (layer : SurfaceLayer) (caller_pid : Z) (c : comp)
    : comp * result SurfaceError unit :=
  match find_mut (table c) id with
  | None => (c, Err NotFound)
  | Some (i, s) =>
      if negb (s_owner_pid s =? caller_pid) then (c, Err NotOwner)
      else if is_terminal (s_state s) then (c, Err InvalidTransition)
      else
        let s' := {| s_id := s_id s; s_state := s_state s; s_layer := layer; s_title := s_title s;
                     s_content_type := s_content_type s; s_x := s_x s; s_y := s_y s;
                     s_width := s_width s; s_height := s_height s; s_shmem_id := s_shmem_id s;
                     s_owner_pid := s_owner_pid s; s_channel := s_channel s;
                     s_layer_seq := next_layer_seq c; s_damaged := true |} in
        (with_table (put_slot i (Some s') (table c))
           (with_counters (next_surface_id c) (wrapping_add 64 (next_layer_seq c) 1) c), Ok ())
  end.

(** The channel of a surface, as the senders look it up. *)
Definition channel_of (id : Z) (c : comp) : option Z :=
  '(_, s) ← find_mut (table c) id; Some (s_channel s).

(** ** Focus (focus.rs) *)

Definition set_keyboard_focus (id : option Z) (f : FocusManager) : FocusManager * FocusChange :=
  if decide (id = keyboard_focus f) then (f, no_change)
  else
    (Build_FocusManager id (pointer_focus f)
       (match id with Some new => h_touch new (focus_history f) | None => focus_history f end),
     Build_FocusChange (keyboard_focus f) id).

Definition set_pointer_focus (id : option Z) (f : FocusManager) : FocusManager :=
  Build_FocusManager (keyboard_focus f) id (focus_history f).

Definition alt_tab_target (f : FocusManager) : option Z :=
  List.find (fun id => negb (bool_decide (Some id = keyboard_focus f))) (h_live (focus_history f)).

Definition surface_destroyed (id : Z) (f : FocusManager) : FocusManager * FocusChange :=
  let h := h_remove id (focus_history f) in
  let pf := if decide (pointer_focus f = Some id) then None else pointer_focus f in
  if decide (keyboard_focus f = Some id)
  then (Build_FocusManager None pf h, Build_FocusChange (Some id) None)
  else (Build_FocusManager (keyboard_focus f) pf h, no_change).

(** ** Sending events (input_route.rs) *)

Definition is_self_channel (ch : Z) (c : comp) : bool :=
  match self_channel c with Some self_ch => self_ch =? ch | None => false end.

Definition send_event_bytes (channel : Z) (event : CompositorEvent) (c : comp) : comp :=
  if is_self_channel channel c then c
  else mk_comp (table c) (next_surface_id c) (next_layer_seq c) (z_order c) (focus c) (drag c)
         (cursor_pos c) (self_channel c) (sent c ++ [(channel, event)]).

(** Send [event] to the channel of surface [id], if it still exists. *)
Definition send_to (id : Z) (event : CompositorEvent) (c : comp) : comp :=
  match channel_of id c with Some ch => send_event_bytes ch event c | None => c end.

Definition notify_focus_change (change : FocusChange) (c : comp) : comp :=
  let lost_channel := id ← lost change; channel_of id c in
  let gained_channel := id ← gained change; channel_of id c in
  let c := match lost change, lost_channel with
           | Some id, Some ch => send_event_bytes ch (ev_focus_changed id false) c
           | _, _ => c
           end in
  match gained change, gained_channel with
  | Some id, Some ch => send_event_bytes ch (ev_focus_changed id true) c
  | _, _ => c
  end.

Definition promote_to_focus (id : Z) (c : comp) : comp :=
  let (f, change) := set_keyboard_focus (Some id) (focus c) in
  let c := with_focus f c in
  let c := with_z (z_raise_to_top id (z_order c)) c in
  notify_focus_change change c.

(** ** Hotkeys (hotkey.rs) *)

Inductive HotkeyAction := SwitchWindow | CloseWindow | ShowWorkspace.

Definition SYSTEM_HOTKEYS : list (KeyCode * Z * HotkeyAction) :=
  [(Tab, MOD_ALT, SwitchWindow); (F4, MOD_ALT, CloseWindow)].

Definition match_hotkey (key : KeyCode) (modifiers : Z) (state : KeyState) : option HotkeyAction :=
  match state with
  | KeyPressed =>
      snd <$> List.find (fun '(k, m, _) => bool_decide (k = key) && (m =? modifiers)) SYSTEM_HOTKEYS
  | _ => None
  end.

Definition apply_switch_window (c : comp) : comp :=
  let target := alt_tab_target (focus c) in
  let (f, change) := set_keyboard_focus target (focus c) in
  let c := with_focus f c in
  let c := match target with
           | Some id => with_z (z_raise_to_top id (z_order c)) c
           | None => c
           end in
  notify_focus_change change c.

Definition apply_close_window (c : comp) : comp :=
  match keyboard_focus (focus c) with
  | None => c
  | Some id => send_to id (ev_close_requested id) c
  end.

Definition apply_hotkey (action : HotkeyAction) (c : comp) : comp :=
  match action with
  | SwitchWindow => apply_switch_window c
  | CloseWindow => apply_close_window c
  | ShowWorkspace => c
  end.

(** ** Windows (window.rs) *)

Definition CASCADE_STEP : Z := 24.
Definition CASCADE_WRAP : Z := 8 * CASCADE_STEP.

(** [default_position]; the division and remainder are Rust's, towards zero. *)
Definition default_position (width height display_w display_h sequence : Z) : option (Z * Z) :=
  dx ← i32v (as_signed 32 display_w - as_signed 32 width);
  dy ← i32v (as_signed 32 display_h - as_signed 32 height);
  let cx := Z.max (Z.quot dx 2) 0 in
  let cy := Z.max (Z.quot dy 2) 0 in
  m ← i32v (as_signed 32 sequence * CASCADE_STEP);
  let offset := Z.rem m CASCADE_WRAP in
  x ← i32v (cx + offset); y ← i32v (cy + offset);
  Some (x, y).

Definition is_decorated (s : Surface) : bool :=
  match s_layer s with Normal | TopLevel => true | _ => false end.

Definition outer_rect (s : Surface) (deco : WindowDecoration) : option (Z * Z * Z * Z) :=
  if negb (is_decorated s) then Some (s_x s, s_y s, s_width s, s_height s)
  else
    b2 ← u32v (2 * border_width deco);
    outer_w ← u32v (s_width s + b2);
    h ← u32v (s_height s + b2);
    outer_h ← u32v (h + title_bar_height deco);
    Some (s_x s, s_y s, outer_w, outer_h).

(** The walk of [hit_test_topmost] (window.rs) and [topmost_at]
    (input_route.rs), the same code. *)
Fixpoint topmost_walk (ids : list Z) (px py : Z) (deco : WindowDecoration) (t : list (option Surface))
    : option (option (Z * HitZone)) :=
  match ids with
  | [] => Some None
  | id :: ids' =>
      if is_none_id id then topmost_walk ids' px py deco t
      else
        match find_slot (fun s => (s_id s =? id) && is_visible (s_state s)) t with
        | None => topmost_walk ids' px py deco t
        | Some (_, s) =>
            '(x, y, w, h) ← outer_rect s deco;
            r ← hit_zone px py x y w h deco;
            match r with
            | Some zone => Some (Some (s_id s, zone))
            | None => topmost_walk ids' px py deco t
            end
        end
  end.

Definition topmost_at (px py : Z) (deco : WindowDecoration) (c : comp) : option (option (Z * HitZone)) :=
  topmost_walk (z_iter_top_down (z_order c)) px py deco (table c).

Definition apply_geometry (id x y width height : Z) (c : comp) : comp :=
  match find_mut (table c) id with
  | Some (i, s) => with_table (put_slot i (Some (with_geometry x y width height s)) (table c)) c
  | None => c
  end.

Definition surface_geometry (id : Z) (c : comp) : option ((Z * Z) * (Z * Z)) :=
  '(_, s) ← find_mut (table c) id; Some ((s_x s, s_y s), (s_width s, s_height s)).

(** The new geometry of a drag with the pointer at [(px, py)]: the surface,
    its origin and, for a resize, its size. *)
Definition drag_action (d : DragState) (px py : Z) : option (option (Z * Z * Z * option (Z * Z))) :=
  match d with
  | Moving surface start_pointer start_origin =>
      dx ← i32v (px - start_pointer.1); nx ← i32v (start_origin.1 + dx);
      dy ← i32v (py - start_pointer.2); ny ← i32v (start_origin.2 + dy);
      Some (Some (surface, nx, ny, None))
  | Resizing surface edge start_pointer start_origin start_dims =>
      dx ← i32v (px - start_pointer.1);
      dy ← i32v (py - start_pointer.2);
      let w0 := as_signed 32 start_dims.1 in
      let h0 := as_signed 32 start_dims.2 in
      nw ← (match edge with
            | East | SouthEast | NorthEast => i32v (w0 + dx)
            | West | SouthWest | NorthWest => i32v (w0 - dx)
            | North | South => Some w0
            end);
      nh ← (match edge with
            | South | SouthEast | SouthWest => i32v (h0 + dy)
            | North | NorthEast | NorthWest => i32v (h0 - dy)
            | East | West => Some h0
            end);
      nx ← (match edge with
            | West | SouthWest | NorthWest => i32v (start_origin.1 + dx)
            | _ => Some start_origin.1
            end);
      ny ← (match edge with
            | North | NorthEast | NorthWest => i32v (start_origin.2 + dy)
            | _ => Some start_origin.2
            end);
      let '(nw_clamped, nh_clamped) := clamp_window_size (Z.max nw 0) (Z.max nh 0) in
      nx ← (match edge with
            | West | NorthWest | SouthWest =>
                e ← i32v (start_origin.1 + w0); i32v (e - as_signed 32 nw_clamped)
            | _ => Some nx
            end);
      ny ← (match edge with
            | North | NorthEast | NorthWest =>
                e ← i32v (start_origin.2 + h0); i32v (e - as_signed 32 nh_clamped)
            | _ => Some ny
            end);
      Some (Some (surface, nx, ny, Some (nw_clamped, nh_clamped)))
  | Idle => Some None
  end.

(** Carrying the action out: the surface moves, a resized one is told. *)
Definition apply_drag (action : option (Z * Z * Z * option (Z * Z))) (c : comp) : comp :=
  match action with
  | None => c
  | Some (id, nx, ny, dims) =>
      let '(w, h) := match dims with
                     | Some d => d
                     | None => from_option snd (0, 0) (surface_geometry id c)
                     end in
      if (w >? 0) && (h >? 0) then
        let c := apply_geometry id nx ny w h c in
        match dims with
        | Some _ => send_to id (ev_configure id w h 100) c
        | None => c
        end
      else c
  end.

Definition handle_decoration_event (surface : Z) (zone : HitZone) (event : InputEvent) (c : comp) : option comp :=
  match event with
  | Keyboard _ _ _ => Some c
  | Pointer x y button state =>
      let px := as_signed 32 x in
      let py := as_signed 32 y in
      match button, state with
      | Some ButtonLeft, Some BtnPressed =>
          match zone with
          | TitleBar =>
              Some (match surface_geometry surface c with
                    | Some (origin, _) => with_drag (Moving surface (px, py) origin) c
                    | None => c
                    end)
          | ResizeBorder edge =>
              Some (match surface_geometry surface c with
                    | Some (origin, dims) => with_drag (Resizing surface edge (px, py) origin dims) c
                    | None => c
                    end)
          | CloseButton => Some (send_to surface (ev_close_requested surface) c)
          | Content => Some c
          end
      | Some ButtonLeft, Some BtnReleased => Some (with_drag Idle c)
      | None, None => action ← drag_action (drag c) px py; Some (apply_drag action c)
      | _, _ => Some c
      end
  end.

(** ** The input pipeline (input_route.rs) *)

Definition deliver_to_surface (id : Z) (event : InputEvent) (c : comp) : comp :=
  match channel_of id c with
  | None => c
  | Some channel =>
      let c := match event with
               | Pointer _ _ (Some ButtonLeft) (Some BtnPressed) => promote_to_focus id c
               | _ => c
               end in
      send_event_bytes channel (ev_input_for id event) c
  end.

(** [HotkeyFilter::filter]: [None] when the event is consumed. *)
Definition hotkey_filter (event : InputEvent) (c : comp) : option InputEvent * comp :=
  match event with
  | Keyboard key state modifiers =>
      match match_hotkey key modifiers state with
      | Some action => (None, apply_hotkey action c)
      | None => (Some event, c)
      end
  | Pointer _ _ _ _ => (Some event, c)
  end.

Definition run_through_stages (event : InputEvent) (deco : WindowDecoration) (c : comp) : option comp :=
  match hotkey_filter event c with
  | (None, c) => Some c
  | (Some event, c) =>
      let kbd_focus := keyboard_focus (focus c) in
      pointer_hit ← (match event with
                     | Pointer x y _ _ => topmost_at (as_signed 32 x) (as_signed 32 y) deco c
                     | Keyboard _ _ _ => Some None
                     end);
      let c := match event with
               | Pointer _ _ _ _ => with_focus (set_pointer_focus (fst <$> pointer_hit) (focus c)) c
               | Keyboard _ _ _ => c
               end in
      match route_event event kbd_focus pointer_hit with
      | ToSurface id => Some (deliver_to_surface id event c)
      | ToDecoration surface zone => handle_decoration_event surface zone event c
      | ToNone => Some c
      end
  end.

Definition motion (p : Z * Z) : InputEvent := Pointer p.1 p.2 None None.

Definition set_position (x y : Z) (c : comp) : comp :=
  mk_comp (table c) (next_surface_id c) (next_layer_seq c) (z_order c) (focus c) (drag c) (x, y) (self_channel c) (sent c).

(** Flush the coalesced motion, if any, then nothing is pending. *)
Definition flush_pending (pending : option (Z * Z)) (c : comp) : option comp :=
  match pending with
  | Some p => run_through_stages (motion p) DEFAULT_DECO c
  | None => Some c
  end.

(** [drain_and_route] on the events [pop_event] returned, with the
    coalescer's pending motion. *)
Fixpoint drain (events : list InputEvent) (pending : option (Z * Z)) (c : comp) : option comp :=
  match events with
  | [] => flush_pending pending c
  | event :: events' =>
      match event with
      | Pointer x y button state =>
          let c := set_position (as_signed 32 x) (as_signed 32 y) c in
          match button, state with
          | None, None => drain events' (Some (x, y)) c
          | _, _ =>
              c ← flush_pending pending c;
              c ← run_through_stages event DEFAULT_DECO c;
              drain events' None c
          end
      | Keyboard _ _ _ =>
          c ← flush_pending pending c;
          c ← run_through_stages event DEFAULT_DECO c;
          drain events' None c
      end
  end.

Definition drain_and_route (events : list InputEvent) (c : comp) : option comp := drain events None c.

(** ** Requests (service.rs) *)

(** [read_unaligned] of the [repr(C)] request: 120 bytes, little-endian. *)
Definition field (bytes : list Z) (off n : nat) : list Z := take n (drop off bytes).

Definition decode_request (bytes : list Z) : option CompositorRequest :=
  if alen bytes <? 120 then None
  else Some {|
    rq_command := le_val (field bytes 0 4);
    rq_surface_id := le_val (field bytes 8 8);
    rq_width := le_val (field bytes 16 4);
    rq_height := le_val (field bytes 20 4);
    rq_layer := le_val (field bytes 24 1);
    rq_content_type := le_val (field bytes 25 1);
    rq_damage_tag := le_val (field bytes 26 1);
    rq_title := field bytes 28 64;
    rq_title_len := le_val (field bytes 92 1);
    rq_shmem_id := le_val (field bytes 100 4);
    rq_damage_x := le_val (field bytes 104 4);
    rq_damage_y := le_val (field bytes 108 4);
    rq_damage_w := le_val (field bytes 112 4);
    rq_damage_h := le_val (field bytes 116 4) |}.

Definition layer_of_u8 (v : Z) : SurfaceLayer :=
  match v with
  | 0 => Background | 1 => Normal | 2 => TopLevel | 3 => Overlay | 4 => Panel | _ => Normal
  end.

Definition handle_create_surface (req : CompositorRequest) (owner_pid service_channel : Z) (c : comp) : comp * CompositorEvent :=
  let layer := layer_of_u8 (rq_layer req) in
  let content_type := default Generic (content_type_from_u8 (rq_content_type req)) in
  let title_bytes := take (Nat.min (Z.to_nat (rq_title_len req)) (length (rq_title req))) (rq_title req) in
  let title := title_from_bytes title_bytes in
  match surface_create owner_pid service_channel (rq_width req) (rq_height req) title content_type layer c with
  | (c, Ok id) =>
      let c := with_z (z_push id (z_order c)).2 c in
      let (f, change) := match keyboard_focus (focus c) with
                         | None => set_keyboard_focus (Some id) (focus c)
                         | Some _ => (focus c, no_change)
                         end in
      let c := with_focus f c in
      (notify_focus_change change c, ev_configure id (rq_width req) (rq_height req) 100)
  | (c, Err _) => (c, event_zeroed)
  end.

Definition handle_attach_buffer (req : CompositorRequest) (owner_pid : Z) (c : comp) : comp * CompositorEvent :=
  let id := rq_surface_id req in
  match surface_attach_buffer id (rq_shmem_id req) (decode_damage req) owner_pid c with
  | (c, Ok _) => (c, ev_buffer_released id (rq_shmem_id req))
  | (c, Err _) => (c, event_zeroed)
  end.

Definition handle_destroy_surface (req : CompositorRequest) (owner_pid : Z) (c : comp) : comp * CompositorEvent :=
  let id := rq_surface_id req in
  match surface_destroy id owner_pid c with
  | (c, Ok _) =>
      let c := with_z (z_remove id (z_order c)) c in
      let (f, change) := surface_destroyed id (focus c) in
      (notify_focus_change change (with_focus f c), ev_close_requested id)
  | (c, Err _) => (c, event_zeroed)
  end.

Definition handle_resize (req : CompositorRequest) (owner_pid : Z) (c : comp) : comp * CompositorEvent :=
  let id := rq_surface_id req in
  let (w, h) := clamp_window_size (rq_width req) (rq_height req) in
  match surface_resize id w h owner_pid c with
  | (c, Ok (width, height)) => (c, ev_configure id width height 100)
  | (c, Err _) => (c, event_zeroed)
  end.

Definition handle_set_layer (req : CompositorRequest) (owner_pid : Z) (c : comp) : comp * CompositorEvent :=
  let id := rq_surface_id req in
  match surface_set_layer id (layer_of_u8 (rq_layer req)) owner_pid c with
  | (c, Ok _) => (c, ev_configure id 0 0 100)
  | (c, Err _) => (c, event_zeroed)
  end.

(** [process_request]: the new state and the bytes replied on the service
    channel. [owner] is the process of the sender. *)
Definition process_request (payload : list Z) (owner : option Z) (service_channel : Z) (c : comp) : comp * list Z :=
  match decode_request payload with
  | None => (c, [])
  | Some req =>
      match owner with
      | None => (c, [])
      | Some owner_pid =>
          let (c, event) :=
            match command_from_u32 (rq_command req) with
            | Some CreateSurface => handle_create_surface req owner_pid service_channel c
            | Some AttachBuffer => handle_attach_buffer req owner_pid c
            | Some DestroySurface => handle_destroy_surface req owner_pid c
            | Some Resize => handle_resize req owner_pid c
            | Some SetLayer => handle_set_layer req owner_pid c
            | None => (c, event_zeroed)
            end in
          (c, event_bytes event)
      end
  end.

(** ** The service loop *)

(** What one round of [compositor_loop] receives: a request or a timeout,
    then the events the input queue held. *)
Record round := { ro_request : option (list Z * option Z); ro_events : list InputEvent }.

Definition compositor_round (ch : Z) (r : round) (c : comp) : option comp :=
  let c := match ro_request r with
           | Some (payload, owner) => (process_request payload owner ch c).1
           | None => c
           end in
  drain_and_route (ro_events r) c.

Definition compositor_rounds (ch : Z) (rs : list round) (c : comp) : option comp :=
  foldl (fun c r => c ≫= compositor_round ch r) (Some c) rs.
