(* ===== verification/WindowsProps.v ===== *)
(** * WindowsProps: what the compositor guarantees

    The well-formedness of the compositor's state ([cwf]): the z-order list
    holds exactly the live surfaces, the focus history only live ones with the
    keyboard focus in front, ids are never reused.  Every request and every
    routed input event keeps it.  Then the behaviour of the parts: ownership
    of surfaces, Alt+Tab, click to focus, drags, motion coalescing, and what a
    run of the service from boot can reach. *)

From S2P Require Import Prelude Input Compositor Windows.

Create HintDb surf discriminated.

(** ** Surface ids *)

Definition slot_ids (t : list (option Surface)) : list (option Z) := (fun s : option Surface => s_id <$> s) <$> t.
Definition ids_of (t : list (option Surface)) : list Z := occupied (slot_ids t).

Lemma elem_of_ids t id : id ∈ ids_of t <-> exists (i : nat) s, t !! i = Some (Some s) /\ s_id s = id.
Proof.
  unfold ids_of, slot_ids. rewrite elem_of_occupied. split.
  - intros (i & Hi). rewrite list_lookup_fmap in Hi. apply fmap_Some in Hi as ([s|] & Hi & E); simplify_eq/=. eauto.
  - intros (i & s & Hi & <-). exists i. by rewrite list_lookup_fmap, Hi.
Qed.

Lemma find_slot_Some f t i s : find_slot f t = Some (i, s) -> t !! i = Some (Some s) /\ f s = true.
Proof.
  unfold find_slot. destruct (position (slot_test f) t) as [j|] eqn:E; [|done].
  apply position_Some in E as ([x|] & Hj & Hf & _); [|done]. cbn. rewrite Hj. cbn. intros [= <- <-]. done.
Qed.

Lemma find_slot_None f t : find_slot f t = None -> forall (i : nat) s, t !! i = Some (Some s) -> f s = false.
Proof.
  unfold find_slot. destruct (position (slot_test f) t) as [j|] eqn:E.
  - apply position_Some in E as ([x|] & Hj & Hf & _); [|done]. cbn. by rewrite Hj.
  - intros _ i s Hi. apply (proj1 (position_None _ _) E (Some s)). by eapply list_elem_of_lookup_2.
Qed.

Lemma find_mut_Some t id i s : find_mut t id = Some (i, s) -> t !! i = Some (Some s) /\ s_id s = id.
Proof. unfold find_mut. intros [? E%Z.eqb_eq]%find_slot_Some. done. Qed.

Lemma find_mut_None t id : find_mut t id = None <-> id ∉ ids_of t.
Proof.
  rewrite elem_of_ids. split.
  - intros H (i & s & Hi & E). apply (find_slot_None _ _ H) in Hi. apply Z.eqb_neq in Hi. done.
  - intros H. destruct (find_mut t id) as [[i s]|] eqn:E; [|done]. apply find_mut_Some in E. naive_solver.
Qed.

Lemma find_mut_elem t id : id ∈ ids_of t -> exists i s, find_mut t id = Some (i, s).
Proof.
  intros H. destruct (find_mut t id) as [[i s]|] eqn:E; [eauto|]. by apply find_mut_None in E.
Qed.

(** Replacing a surface by one of the same id. *)
Lemma slot_ids_put t i s s' : t !! i = Some (Some s) -> s_id s' = s_id s -> slot_ids (put_slot i (Some s') t) = slot_ids t.
Proof.
  intros Hi E. unfold slot_ids, put_slot. rewrite list_fmap_insert. apply list_insert_id.
  rewrite list_lookup_fmap, Hi. cbn. by rewrite E.
Qed.

(** ** Well-formed states *)

Record core_wf (sl : list (option Z)) (nid : Z) (z : ZOrder) (f : FocusManager) : Prop := {
  cw_len : alen sl = MAX_SURFACES;
  cw_nodup : NoDup (occupied sl);
  cw_range : Forall (fun id => 1 <= id < nid) (occupied sl);
  cw_z : exists l, z_rep z l /\ l ≡ₚ occupied sl;
  cw_hist : exists l, h_rep (focus_history f) l /\ NoDup l /\ (forall x, x ∈ l -> x ∈ occupied sl) /\
              forall k, keyboard_focus f = Some k -> exists l', l = k :: l';
  cw_pointer : forall p, pointer_focus f = Some p -> p ∈ occupied sl
}.

Definition cwf (c : comp) : Prop :=
  core_wf (slot_ids (table c)) (next_surface_id c) (z_order c) (focus c).

(** Two states that differ only in geometry, drags, the cursor and what was
    sent. *)
Definition same_core (c c' : comp) : Prop :=
  slot_ids (table c') = slot_ids (table c) /\ next_surface_id c' = next_surface_id c /\
  z_order c' = z_order c /\ focus c' = focus c.

#[export] Instance same_core_preorder : PreOrder same_core.
Proof.
  split; [done|]. intros a b c (A1 & A2 & A3 & A4) (B1 & B2 & B3 & B4).
  repeat split; congruence.
Qed.

Lemma cwf_same_core c c' : same_core c c' -> cwf c -> cwf c'.
Proof. unfold cwf. intros (-> & -> & -> & ->). done. Qed.

Lemma cwf_boot ch : cwf (comp_boot ch).
Proof.
  assert (E : occupied (slot_ids (table (comp_boot ch))) = []) by reflexivity.
  split; rewrite ?E; [reflexivity|constructor|constructor|..|done].
  - exists []. split; [apply z_rep_new|done].
  - exists []. split_and!; [apply h_rep_new|constructor|done|done].
Qed.

Lemma send_event_core ch e c : same_core c (send_event_bytes ch e c).
Proof. unfold send_event_bytes. by case_match. Qed.
Lemma send_to_core id e c : same_core c (send_to id e c).
Proof. unfold send_to. case_match; [apply send_event_core|done]. Qed.
Lemma notify_core ch c : same_core c (notify_focus_change ch c).
Proof. unfold notify_focus_change. repeat case_match; repeat (etrans; [|apply send_event_core]); done. Qed.
Lemma apply_geometry_core id x y w h c : same_core c (apply_geometry id x y w h c).
Proof.
  unfold apply_geometry. destruct (find_mut _ _) as [[i s]|] eqn:E; [|done].
  apply find_mut_Some in E as [Hi _]. split; [|done]. by eapply slot_ids_put.
Qed.
Lemma apply_drag_core a c : same_core c (apply_drag a c).
Proof.
  unfold apply_drag. repeat case_match; try done; try apply apply_geometry_core.
  etrans; [apply apply_geometry_core|apply send_to_core].
Qed.
Lemma set_position_core x y c : same_core c (set_position x y c).
Proof. done. Qed.
Lemma with_drag_core d c : same_core c (with_drag d c).
Proof. done. Qed.

Lemma handle_decoration_core s zone e c c' : handle_decoration_event s zone e c = Some c' -> same_core c c'.
Proof.
  unfold handle_decoration_event. intros H.
  repeat (case_match; simplify_eq/=; try done);
    try apply with_drag_core; try apply send_to_core.
  apply bind_Some in H as (a & _ & [= <-]). apply apply_drag_core.
Qed.

(** ** Focus and stacking keep the state well-formed *)

Lemma core_ids_pos sl nid z f id : core_wf sl nid z f -> id ∈ occupied sl -> 1 <= id < nid.
Proof. intros H Hin. by apply (proj1 (Forall_forall _ _) (cw_range _ _ _ _ H)). Qed.

Lemma core_set_focus sl nid z f id :
  core_wf sl nid z f -> (forall k, id = Some k -> k ∈ occupied sl) -> core_wf sl nid z (set_keyboard_focus id f).1.
Proof.
  intros Hw Hid. unfold set_keyboard_focus. case_decide; [done|]. pose proof Hw as [H1 H2 H3 H4 (l & Hl & Hnd & Hin & Hk) H6].
  split; [done..| |done]. cbn. destruct id as [k|]; [|by exists l].
  exists (touched k l). split_and!.
  - apply h_rep_touch; [done|done|]. pose proof (core_ids_pos _ _ _ _ _ Hw (Hid k eq_refl)). unfold NONE_ID. lia.
  - by apply NoDup_touched.
  - intros x [->|Hx]%elem_of_touched; [by apply Hid|by apply Hin].
  - intros ? [= <-]. unfold touched. eexists. change (Z.to_nat FOCUS_HISTORY_CAPACITY) with 16%nat. by rewrite firstn_cons.
Qed.

Lemma core_set_pointer sl nid z f id :
  core_wf sl nid z f -> (forall k, id = Some k -> k ∈ occupied sl) -> core_wf sl nid z (set_pointer_focus id f).
Proof. intros [H1 H2 H3 H4 H5 H6] Hid. by split. Qed.

Lemma core_raise sl nid z f id : core_wf sl nid z f -> core_wf sl nid (z_raise_to_top id z) f.
Proof.
  intros Hw. pose proof Hw as [H1 H2 H3 (l & Hl & Hp) H5 H6]. split; [done..| |done|done].
  assert (NoDup l) by (by rewrite Hp). exists (raised id l). split.
  - apply z_rep_raise; [done|done|]. rewrite Hp. intros Hin%(core_ids_pos _ _ _ _ _ Hw). unfold NONE_ID in Hin. lia.
  - rewrite <-Hp. apply NoDup_Permutation; [by apply NoDup_raised|done|]. intros x. apply elem_of_raised.
Qed.

Lemma promote_wf id c : cwf c -> id ∈ ids_of (table c) -> cwf (promote_to_focus id c).
Proof.
  intros Hw Hid. unfold promote_to_focus. pose proof (core_set_focus _ _ _ _ (Some id) Hw) as Hf.
  destruct (set_keyboard_focus (Some id) (focus c)) as [f ch]. eapply cwf_same_core; [apply notify_core|].
  apply core_raise, Hf. by intros ? [= <-].
Qed.

Lemma alt_tab_live c k : cwf c -> alt_tab_target (focus c) = Some k -> k ∈ ids_of (table c).
Proof.
  intros Hw. destruct (cw_hist _ _ _ _ Hw) as (l & Hl & _ & Hin & _). unfold alt_tab_target, h_live.
  rewrite (holds_list_live _ _ _ _ Hl). intros [H _]%List.find_some. by apply Hin, list_elem_of_In.
Qed.

Lemma switch_window_wf c : cwf c -> cwf (apply_switch_window c).
Proof.
  intros Hw. unfold apply_switch_window. pose proof (core_set_focus _ _ _ _ (alt_tab_target (focus c)) Hw) as Hf.
  destruct (set_keyboard_focus (alt_tab_target (focus c)) (focus c)) as [f ch].
  eapply cwf_same_core; [apply notify_core|]. assert (cwf (with_focus f c)) by (apply Hf; intros k; by apply alt_tab_live).
  destruct (alt_tab_target (focus c)); [by apply core_raise|done].
Qed.

Lemma hotkey_wf a c : cwf c -> cwf (apply_hotkey a c).
Proof.
  intros Hw. destruct a; cbn; [by apply switch_window_wf| |done].
  unfold apply_close_window. case_match; [|done]. eapply cwf_same_core; [apply send_to_core|done].
Qed.

(** ** Input events keep the state well-formed *)

Lemma topmost_walk_live ids px py deco t id zone :
  topmost_walk ids px py deco t = Some (Some (id, zone)) -> id ∈ ids_of t.
Proof.
  induction ids as [|x ids IH]; cbn; [done|]. destruct (is_none_id x); [done|].
  destruct (find_slot _ t) as [[i s]|] eqn:E; [|done]. apply find_slot_Some in E as [Hi _].
  intros ([[[x0 y0] w] h] & _ & H)%bind_Some. apply bind_Some in H as ([z|] & _ & H); [|by apply IH].
  simplify_eq. apply elem_of_ids. eauto.
Qed.

Lemma deliver_wf id e c : cwf c -> cwf (deliver_to_surface id e c).
Proof.
  intros Hw. unfold deliver_to_surface, channel_of. destruct (find_mut (table c) id) as [[i s]|] eqn:E; [|done]. cbn.
  assert (Hid : id ∈ ids_of (table c)) by (apply find_mut_Some in E as [Hi <-]; apply elem_of_ids; eauto).
  eapply cwf_same_core; [apply send_event_core|]. repeat case_match; try done. by apply promote_wf.
Qed.

Lemma hotkey_filter_wf e c : cwf c -> cwf (hotkey_filter e c).2.
Proof. intros Hw. unfold hotkey_filter. repeat case_match; try done. by apply hotkey_wf. Qed.

Lemma stages_wf e deco c c' : run_through_stages e deco c = Some c' -> cwf c -> cwf c'.
Proof.
  unfold run_through_stages. intros H Hw.
  pose proof (hotkey_filter_wf e c Hw) as Hf.
  destruct (hotkey_filter e c) as [[e1|] c1]; cbn in Hf; [|by injection H as <-].
  apply bind_Some in H as (hit & Hhit & H).
  set (c2 := match e1 with Pointer _ _ _ _ => _ | Keyboard _ _ _ => _ end) in H.
  assert (Hw2 : cwf c2).
  { subst c2. destruct e1 as [|x y b st]; [done|]. apply core_set_pointer; [done|]. intros k.
    destruct hit as [[id zone]|]; [|done]. intros [= <-]. by apply topmost_walk_live in Hhit. }
  destruct (route_event _ _ _); simplify_eq; [by apply deliver_wf| |done].
  eapply cwf_same_core; [by eapply handle_decoration_core|done].
Qed.

Lemma flush_wf p c c' : flush_pending p c = Some c' -> cwf c -> cwf c'.
Proof. unfold flush_pending. destruct p; [apply stages_wf|]. by intros [= <-]. Qed.

Lemma drain_wf es p c c' : drain es p c = Some c' -> cwf c -> cwf c'.
Proof.
  revert p c. induction es as [|e es IH]; intros p c; cbn [drain]; [apply flush_wf|].
  assert (Hk : forall c0, (flush_pending p c0 ≫= fun c1 => run_through_stages e DEFAULT_DECO c1 ≫= drain es None) = Some c' ->
    cwf c0 -> cwf c').
  { intros c0 (c1 & H1 & (c2 & H2 & H3)%bind_Some)%bind_Some Hw.
    eapply IH; [done|]. eapply stages_wf; [done|]. by eapply flush_wf. }
  intros H Hw. destruct e as [k st m|x y b st]; [by eapply Hk|].
  destruct b, st; try (eapply Hk; [exact H|done]). eapply IH; [exact H|done].
Qed.

(** ** Requests keep the state well-formed *)

Lemma slot_ids_insert t i o : slot_ids (put_slot i o t) = <[i := s_id <$> o]> (slot_ids t).
Proof. unfold slot_ids, put_slot. apply list_fmap_insert. Qed.

Lemma slot_ids_lookup t i o : t !! i = Some o -> slot_ids t !! i = Some (s_id <$> o).
Proof. intros H. unfold slot_ids. by rewrite list_lookup_fmap, H. Qed.

(** A new surface at the top of the stack. *)
Lemma core_create sl nid z f i : core_wf sl nid z f -> 1 <= nid -> sl !! i = Some None ->
  core_wf (<[i := Some nid]> sl) (nid + 1) (z_push nid z).2 f.
Proof.
  intros Hw Hn Hi. pose proof Hw as [H1 H2 H3 (l & Hl & Hp) (hl & Hh & Hnd & Hin & Hk) H6].
  pose proof (occupied_put sl i nid Hi) as Ho.
  assert (Hfresh : nid ∉ occupied sl) by (intros Hx%(core_ids_pos _ _ _ _ _ Hw); lia).
  assert (Hsub : forall x, x ∈ occupied sl -> x ∈ occupied (<[i := Some nid]> sl))
    by (intros x Hx; rewrite Ho; by apply list_elem_of_further).
  split.
  - unfold alen in *. by rewrite length_insert.
  - rewrite Ho. by constructor.
  - rewrite Ho. constructor; [lia|]. eapply Forall_impl; [exact H3|]. intros x Hx; cbn in *; lia.
  - exists (l ++ [nid]). pose proof (z_rep_push z l nid Hl) as Hpush. rewrite decide_True in Hpush.
    + split; [apply Hpush|]. rewrite Ho, <-Hp. symmetry. apply Permutation_cons_append.
    + split; [unfold NONE_ID; lia|]. assert (E : alen l = alen (occupied sl)) by (unfold alen; by rewrite Hp).
      rewrite E. pose proof (length_occupied (<[i := Some nid]> sl)) as Hle.
      rewrite Ho, length_insert in Hle. cbn in Hle. unfold alen in *. lia.
  - exists hl. split_and!; [done|done| |done]. intros x Hx. by apply Hsub, Hin.
  - intros p Hpf. by apply Hsub, H6.
Qed.

Lemma create_wf req pid ch c : cwf c -> 1 <= next_surface_id c -> next_surface_id c + 1 < 2 ^ 64 ->
  let c' := (handle_create_surface req pid ch c).1 in
  cwf c' /\ next_surface_id c <= next_surface_id c' <= next_surface_id c + 1.
Proof.
  intros Hw Hn Hb. unfold handle_create_surface, surface_create.
  destruct ((rq_width req =? 0) || (rq_height req =? 0)); [cbn; split; [done|lia]|]. cbn [table with_counters].
  assert (Ew : wrapping_add 64 (next_surface_id c) 1 = next_surface_id c + 1)
    by (apply wrap_small; unfold uint; lia). rewrite Ew.
  assert (Hinc : core_wf (slot_ids (table c)) (next_surface_id c + 1) (z_order c) (focus c)).
  { destruct Hw as [H1 H2 H3 H4 H5 H6]. split; try done. eapply Forall_impl; [exact H3|]. intros; cbn in *; lia. }
  destruct (first_none (table c)) as [i|] eqn:E; [|cbn; split; [exact Hinc|lia]].
  apply first_none_Some in E as [Hi _].
  set (s := {| s_id := _ |}). cbn zeta.
  set (c1 := with_z _ _). assert (Hw1 : cwf c1).
  { subst c1. unfold cwf. cbn. rewrite slot_ids_insert. apply core_create; [done|done|]. by apply slot_ids_lookup in Hi. }
  assert (Hid : next_surface_id c ∈ occupied (slot_ids (table c1))).
  { subst c1. cbn. rewrite slot_ids_insert. apply slot_ids_lookup in Hi.
    pose proof (occupied_put _ _ (next_surface_id c) Hi) as Ho.
    change (next_surface_id c ∈ occupied (<[i := Some (next_surface_id c)]> (slot_ids (table c)))).
    rewrite Ho. apply list_elem_of_here. }
  pose proof (core_set_focus _ _ _ _ (Some (next_surface_id c)) Hw1) as Hf.
  change (focus c1) with (focus c) in *.
  destruct (keyboard_focus (focus c)) as [k|].
  - cbn [fst]. split; [eapply cwf_same_core; [apply notify_core|exact Hw1]|].
    destruct (notify_core no_change (with_focus (focus c) c1)) as (_ & -> & _). cbn. lia.
  - destruct (set_keyboard_focus (Some (next_surface_id c)) (focus c)) as [f chg]. cbn [fst].
    split; [eapply cwf_same_core; [apply notify_core|]; apply Hf; by intros ? [= <-]|].
    destruct (notify_core chg (with_focus f c1)) as (_ & -> & _). cbn. lia.
Qed.

(** A surface leaves the stack, the history and both focus slots. *)
Lemma occupied_remove (sl : list (option Z)) i id : sl !! i = Some (Some id) -> NoDup (occupied sl) ->
  occupied (<[i := None]> sl) ≡ₚ without id (occupied sl).
Proof.
  intros Hi Hnd. destruct (occupied_insert_Some sl i id id Hi) as (rest & Hp & _ & Hr).
  rewrite Hr. assert (Hnd' : NoDup (id :: rest)) by (by rewrite <-Hp). apply NoDup_cons in Hnd' as [Hn Hnd'].
  apply NoDup_Permutation; [done|by apply NoDup_without|]. intros x. rewrite elem_of_without, Hp, elem_of_cons. naive_solver.
Qed.

Lemma core_destroy sl nid z f i id : core_wf sl nid z f -> sl !! i = Some (Some id) ->
  core_wf (<[i := None]> sl) nid (z_remove id z) (surface_destroyed id f).1.
Proof.
  intros Hw Hi. pose proof Hw as [H1 H2 H3 (l & Hl & Hp) (hl & Hh & Hnd & Hin & Hk) H6].
  pose proof (occupied_remove sl i id Hi H2) as Ho.
  assert (Hsub : forall x, x ∈ occupied (<[i := None]> sl) <-> x ∈ occupied sl /\ x <> id)
    by (intros x; by rewrite Ho, elem_of_without).
  assert (Ef : focus_history (surface_destroyed id f).1 = h_remove id (focus_history f))
    by (unfold surface_destroyed; by case_decide).
  split.
  - unfold alen in *. by rewrite length_insert.
  - rewrite Ho. by apply NoDup_without.
  - apply Forall_forall. intros x [Hx _]%Hsub. by apply (proj1 (Forall_forall _ _) H3).
  - exists (without id l). split; [apply z_rep_remove; [done|by rewrite Hp]|]. rewrite Ho. unfold without. by rewrite Hp.
  - exists (without id hl). rewrite Ef. split_and!; [by apply h_rep_remove|by apply NoDup_without| |].
    + intros x [Hx ?]%elem_of_without. apply Hsub. split; [by apply Hin|done].
    + intros k Hkf. unfold surface_destroyed in Hkf. case_decide as Ek; [done|]. cbn in Hkf.
      destruct (Hk k Hkf) as [l' ->]. exists (without id l'). unfold without. rewrite filter_cons_True; [done|].
      intros ->. done.
  - intros p Hpf. unfold surface_destroyed in Hpf.
    assert (Hpf' : (if decide (pointer_focus f = Some id) then None else pointer_focus f) = Some p)
      by (destruct (decide (keyboard_focus f = Some id)); exact Hpf).
    clear Hpf. case_decide; [done|]. apply Hsub. split; [by apply H6|]. intros ->. done.
Qed.

Lemma destroy_wf req pid c : cwf c -> cwf (handle_destroy_surface req pid c).1.
Proof.
  intros Hw. unfold handle_destroy_surface, surface_destroy.
  destruct (find_mut (table c) (rq_surface_id req)) as [[i s]|] eqn:E; [|done].
  apply find_mut_Some in E as [Hi Hid]. destruct (negb (s_owner_pid s =? pid)); [done|].
  destruct (negb _); [done|]. cbn [z_order with_table with_z focus].
  pose proof (core_destroy _ _ _ _ i (rq_surface_id req) Hw) as Hd.
  destruct (surface_destroyed (rq_surface_id req) (focus c)) as [f chg]. cbn [fst].
  eapply cwf_same_core; [apply notify_core|]. unfold cwf. cbn. rewrite slot_ids_insert. apply Hd.
  apply slot_ids_lookup in Hi. by rewrite Hi, <-Hid.
Qed.

Lemma put_core i s s' c nid seq : table c !! i = Some (Some s) -> s_id s' = s_id s -> nid = next_surface_id c ->
  same_core c (with_table (put_slot i (Some s') (table c)) (with_counters nid seq c)).
Proof. intros Hi E ->. split; [by eapply slot_ids_put|done]. Qed.

Lemma other_requests_core req pid c :
  same_core c (handle_attach_buffer req pid c).1 /\ same_core c (handle_resize req pid c).1 /\
  same_core c (handle_set_layer req pid c).1.
Proof.
  unfold handle_attach_buffer, handle_resize, handle_set_layer, surface_attach_buffer, surface_resize, surface_set_layer, clamp_window_size.
  destruct (find_mut (table c) (rq_surface_id req)) as [[i s]|] eqn:E; [apply find_mut_Some in E as [Hi Hid]|].
  - split_and!; repeat (case_match; simplify_eq/=; try done).
    all: try (split; [by eapply slot_ids_put|done]).
  - split_and!; [done| |done]. by destruct (_ || _).
Qed.

Lemma request_wf payload owner ch c : cwf c -> 1 <= next_surface_id c -> next_surface_id c + 1 < 2 ^ 64 ->
  let c' := (process_request payload owner ch c).1 in
  cwf c' /\ next_surface_id c <= next_surface_id c' <= next_surface_id c + 1.
Proof.
  intros Hw Hn Hb. unfold process_request. destruct (decode_request payload) as [req|]; [|cbn; split; [done|lia]].
  destruct owner as [pid|]; [|cbn; split; [done|lia]].
  destruct (other_requests_core req pid c) as (Ha & Hr & Hs).
  assert (Hsame : forall c', same_core c c' -> cwf c' /\ next_surface_id c <= next_surface_id c' <= next_surface_id c + 1).
  { intros c' Hc. split; [by eapply cwf_same_core|]. destruct Hc as (_ & -> & _). lia. }
  destruct (command_from_u32 (rq_command req)) as [[]|]; cbn zeta.
  - pose proof (create_wf req pid ch c Hw Hn Hb) as H. by destruct (handle_create_surface req pid ch c).
  - apply Hsame in Ha. by destruct (handle_attach_buffer req pid c).
  - pose proof (destroy_wf req pid c Hw) as Hd.
    assert (En : next_surface_id (handle_destroy_surface req pid c).1 = next_surface_id c).
    { unfold handle_destroy_surface, surface_destroy. repeat (case_match; simplify_eq/=; try done).
      all: unfold notify_focus_change; repeat case_match; unfold send_event_bytes; by repeat case_match. }
    destruct (handle_destroy_surface req pid c). cbn in *. split; [done|lia].
  - apply Hsame in Hr. by destruct (handle_resize req pid c).
  - apply Hsame in Hs. by destruct (handle_set_layer req pid c).
  - cbn. split; [done|lia].
Qed.

(** ** Runs of the service *)

(** Input events create and destroy no surface. *)
Definition same_surfaces (c c' : comp) : Prop :=
  slot_ids (table c') = slot_ids (table c) /\ next_surface_id c' = next_surface_id c.

#[export] Instance same_surfaces_preorder : PreOrder same_surfaces.
Proof. split; [done|]. intros a b c [A1 A2] [B1 B2]. split; congruence. Qed.

Lemma core_surfaces c c' : same_core c c' -> same_surfaces c c'.
Proof. by intros (? & ? & _). Qed.
#[export] Hint Resolve core_surfaces send_event_core send_to_core notify_core handle_decoration_core : surf.

Lemma promote_surfaces id c : same_surfaces c (promote_to_focus id c).
Proof. unfold promote_to_focus. destruct (set_keyboard_focus _ _). etrans; [|eauto with surf]. done. Qed.

Lemma hotkey_filter_surfaces e c : same_surfaces c (hotkey_filter e c).2.
Proof.
  unfold hotkey_filter. repeat case_match; try done. destruct h; cbn; [| |done].
  - unfold apply_switch_window. destruct (set_keyboard_focus _ _).
    etrans; [|eauto with surf]. by destruct (alt_tab_target _).
  - unfold apply_close_window. case_match; eauto with surf. done.
Qed.

Lemma deliver_surfaces id e c : same_surfaces c (deliver_to_surface id e c).
Proof.
  unfold deliver_to_surface. case_match; [|done]. etrans; [|eauto with surf].
  repeat case_match; try done. apply promote_surfaces.
Qed.

Lemma stages_surfaces e d c c' : run_through_stages e d c = Some c' -> same_surfaces c c'.
Proof.
  unfold run_through_stages. pose proof (hotkey_filter_surfaces e c) as Hk.
  destruct (hotkey_filter e c) as [[e1|] c1]; cbn in Hk; [|by intros [= <-]].
  intros (hit & _ & H)%bind_Some. etrans; [exact Hk|].
  set (c2 := match e1 with Pointer _ _ _ _ => _ | Keyboard _ _ _ => _ end) in H.
  transitivity c2; [subst c2; by destruct e1|]. clearbody c2.
  destruct (route_event _ _ _); simplify_eq; [apply deliver_surfaces|eauto with surf|done].
Qed.

Lemma drain_surfaces es p c c' : drain es p c = Some c' -> same_surfaces c c'.
Proof.
  assert (Hf : forall p c c', flush_pending p c = Some c' -> same_surfaces c c').
  { intros [q|] c0 c0'; cbn [flush_pending]; [apply stages_surfaces|by intros [= <-]]. }
  revert p c. induction es as [|e es IH]; intros p c; cbn [drain]; [apply Hf|].
  assert (Hk : forall c0, same_surfaces c c0 ->
    (flush_pending p c0 ≫= fun c1 => run_through_stages e DEFAULT_DECO c1 ≫= drain es None) = Some c' ->
    same_surfaces c c').
  { intros c0 E (c1 & H1 & (c2 & H2 & H3)%bind_Some)%bind_Some.
    etrans; [exact E|]. etrans; [by eapply Hf|]. etrans; [by eapply stages_surfaces|by eapply IH]. }
  intros H. destruct e as [k st m|x y b st]; [by eapply Hk|].
  destruct b, st; try (eapply Hk; [|exact H]; done). by apply IH in H.
Qed.

Lemma rounds_snoc ch rs r c : compositor_rounds ch (rs ++ [r]) c = compositor_rounds ch rs c ≫= compositor_round ch r.
Proof. unfold compositor_rounds. by rewrite foldl_app. Qed.

Lemma round_wf ch r c c' : compositor_round ch r c = Some c' -> cwf c -> 1 <= next_surface_id c ->
  next_surface_id c + 1 < 2 ^ 64 ->
  cwf c' /\ next_surface_id c <= next_surface_id c' <= next_surface_id c + 1.
Proof.
  unfold compositor_round, drain_and_route. intros H Hw H1 H2.
  set (c1 := match ro_request r with Some _ => _ | None => _ end) in H.
  assert (Hc1 : cwf c1 /\ next_surface_id c <= next_surface_id c1 <= next_surface_id c + 1).
  { subst c1. destruct (ro_request r) as [[payload owner]|]; [by apply request_wf|]. split; [done|lia]. }
  destruct Hc1 as [Hw1 Hn1]. destruct (drain_surfaces _ _ _ _ H) as [_ ->]. split; [by eapply drain_wf|done].
Qed.

(** C32: the compositor's state stays consistent through every run of the service, whatever requests
    and input events arrive: the z-order list holds each live surface exactly once and nothing else,
    the focus history and both focus slots name live surfaces only, the keyboard focus is the most
    recent entry of the history, and ids stay below the counter, so no id is given out twice. *)
Theorem compositor_state_consistent ch rs c c' :
  cwf c -> 1 <= next_surface_id c -> next_surface_id c + alen rs < 2 ^ 64 ->
  compositor_rounds ch rs c = Some c' ->
  cwf c' /\ next_surface_id c <= next_surface_id c' <= next_surface_id c + alen rs.
Proof.
  intros Hw Hn. revert c'. induction rs as [|r rs IH] using rev_ind; intros c' Hb.
  { intros [= <-]. split; [done|]. rewrite alen_nil. lia. }
  rewrite alen_app, alen_cons, alen_nil in *. rewrite rounds_snoc. intros (c1 & H1 & H2)%bind_Some.
  destruct (IH c1 ltac:(lia) H1) as [Hw1 Hn1].
  destruct (round_wf ch r c1 c' H2 Hw1 ltac:(lia) ltac:(lia)) as [Hw2 Hn2]. split; [done|lia].
Qed.

(** ** From boot: no window is ever shown

    The only transition into [Active] a request can ask for is the one from
    [Created], which the state machine refuses, and no code moves a surface to
    [Configured]. *)

Definition hidden (ch : Z) (s : Surface) : Prop := s_state s = Created /\ s_channel s = ch.
Definition quiet (ch : Z) (c : comp) : Prop :=
  self_channel c = Some ch /\ sent c = [] /\ drag c = Idle /\
  forall i s, table c !! i = Some (Some s) -> hidden ch s.

Lemma quiet_boot ch : quiet ch (comp_boot (Some ch)).
Proof. split_and!; [done..|]. intros i s. cbn. intros H%lookup_replicate. naive_solver. Qed.

Lemma channel_of_quiet ch id c ch' : quiet ch c -> channel_of id c = Some ch' -> ch' = ch.
Proof.
  intros (_ & _ & _ & Ht). unfold channel_of. destruct (find_mut _ _) as [[i s]|] eqn:E; [|done].
  apply find_mut_Some in E as [Hi _]. cbn. intros [= <-]. by apply Ht in Hi as [_ ?].
Qed.

Lemma send_quiet ch e c : quiet ch c -> send_event_bytes ch e c = c.
Proof. intros (H & _). unfold send_event_bytes, is_self_channel. by rewrite H, Z.eqb_refl. Qed.

Lemma send_to_quiet ch id e c : quiet ch c -> send_to id e c = c.
Proof.
  intros Hq. unfold send_to. destruct (channel_of id c) as [ch'|] eqn:E; [|done].
  apply (channel_of_quiet _ _ _ _ Hq) in E as ->. by apply send_quiet.
Qed.

Lemma notify_quiet ch chg c : quiet ch c -> notify_focus_change chg c = c.
Proof.
  intros Hq. unfold notify_focus_change. destruct chg as [lo ga]. cbn.
  destruct lo as [l|]; cbn; [destruct (channel_of l c) as [lc|] eqn:El|];
    (destruct ga as [g|]; cbn; [destruct (channel_of g c) as [gc|] eqn:Eg|]); try done;
    repeat match goal with E : channel_of _ c = Some _ |- _ => apply (channel_of_quiet _ _ _ _ Hq) in E as -> end;
    by rewrite ?(send_quiet ch _ c) by done.
Qed.

Lemma quiet_focus ch f c : quiet ch c -> quiet ch (with_focus f c).
Proof. done. Qed.
Lemma quiet_z ch z c : quiet ch c -> quiet ch (with_z z c).
Proof. done. Qed.

Lemma hotkey_quiet ch a c : quiet ch c -> quiet ch (apply_hotkey a c).
Proof.
  intros Hq. destruct a; cbn; [| |done].
  - unfold apply_switch_window. destruct (set_keyboard_focus _ _) as [f chg].
    destruct (alt_tab_target (focus c)); by rewrite (notify_quiet ch).
  - unfold apply_close_window. case_match; [|done]. by rewrite (send_to_quiet ch).
Qed.

(** Nothing visible, so nothing is under the pointer. *)
Lemma topmost_quiet ch ids px py deco c : quiet ch c -> topmost_walk ids px py deco (table c) = Some None.
Proof.
  intros (_ & _ & _ & Ht). induction ids as [|id ids IH]; cbn; [done|]. destruct (is_none_id id); [done|].
  destruct (find_slot _ _) as [[i s]|] eqn:E; [|done]. apply find_slot_Some in E as [Hi [_ Hv]%andb_true_iff].
  apply Ht in Hi as [Hs _]. by rewrite Hs in Hv.
Qed.

Lemma stages_quiet ch e c : quiet ch c -> exists c', run_through_stages e DEFAULT_DECO c = Some c' /\ quiet ch c'.
Proof.
  intros Hq. unfold run_through_stages. destruct e as [k st m|x y b st].
  - cbn [hotkey_filter]. destruct (match_hotkey k m st) as [a|]; [eexists; split; [done|by apply hotkey_quiet]|].
    cbn. destruct (keyboard_focus (focus c)) as [id|]; [|eauto]. eexists. split; [done|].
    unfold deliver_to_surface. destruct (channel_of id c) as [ch'|] eqn:E; [|done].
    apply (channel_of_quiet _ _ _ _ Hq) in E as ->. by rewrite (send_quiet ch).
  - cbn [hotkey_filter]. unfold topmost_at. rewrite (topmost_quiet ch _ _ _ _ _ Hq). cbn. eexists. by split.
Qed.

Lemma drain_quiet ch es p c : quiet ch c -> exists c', drain es p c = Some c' /\ quiet ch c'.
Proof.
  assert (Hf : forall p c, quiet ch c -> exists c', flush_pending p c = Some c' /\ quiet ch c').
  { intros [q|] c0 Hq; cbn [flush_pending]; [by apply stages_quiet|eauto]. }
  revert p c. induction es as [|e es IH]; intros p c Hq; cbn [drain]; [by apply Hf|].
  assert (Hk : forall c0, quiet ch c0 -> exists c',
    (flush_pending p c0 ≫= fun c1 => run_through_stages e DEFAULT_DECO c1 ≫= drain es None) = Some c' /\ quiet ch c').
  { intros c0 H0. destruct (Hf p c0 H0) as (c1 & -> & H1). destruct (stages_quiet ch e c1 H1) as (c2 & E2 & H2).
    destruct (IH None c2 H2) as (c3 & E3 & H3). cbn. rewrite E2. cbn. eauto. }
  destruct e as [k st m|x y b st]; [by apply Hk|]. destruct b, st; try (by apply Hk). by apply IH.
Qed.

Lemma quiet_put ch i o c nid seq : quiet ch c -> (forall s, o = Some s -> hidden ch s) ->
  quiet ch (with_table (put_slot i o (table c)) (with_counters nid seq c)).
Proof.
  intros (H1 & H2 & H3 & Ht) Ho. split_and!; [done..|]. cbn. intros j s Hj. unfold put_slot in Hj.
  destruct (decide (i = j)) as [<-|]; [|rewrite list_lookup_insert_ne in Hj by done; by eapply Ht].
  destruct (decide (i < length (table c))%nat) as [Hl|Hl].
  - rewrite list_lookup_insert_eq in Hj by done. apply Ho. congruence.
  - rewrite list_insert_ge in Hj by lia. by eapply Ht.
Qed.

Lemma request_quiet payload owner ch c : quiet ch c -> quiet ch (process_request payload owner ch c).1.
Proof.
  intros Hq. unfold process_request. destruct (decode_request payload) as [req|]; [|done].
  destruct owner as [pid|]; [|done]. pose proof Hq as (_ & _ & _ & Ht).
  destruct (command_from_u32 (rq_command req)) as [[]|]; cbn zeta; [| | | | |done].
  - unfold handle_create_surface, surface_create. destruct (_ || _); [done|]. cbn [table with_counters].
    destruct (first_none (table c)) as [i|]; [|done]. cbn zeta. set (s := {| s_id := _ |}).
    assert (Hq1 : quiet ch (with_table (put_slot i (Some s) (table c))
      (with_counters (wrapping_add 64 (next_surface_id c) 1) (wrapping_add 64 (next_layer_seq c) 1) c)))
      by (apply quiet_put; [done|by intros ? [= <-]]).
    destruct (match keyboard_focus _ with Some _ => _ | None => _ end) as [f chg]. cbn [fst].
    by rewrite (notify_quiet ch) by (apply quiet_focus, quiet_z, Hq1).
  - unfold handle_attach_buffer, surface_attach_buffer. destruct (find_mut _ _) as [[i s]|] eqn:E; [|done].
    apply find_mut_Some in E as [[Hs _]%Ht _]. rewrite Hs. by destruct (negb _).
  - unfold handle_destroy_surface, surface_destroy. destruct (find_mut _ _) as [[i s]|]; [|done].
    destruct (negb (s_owner_pid s =? pid)); [done|]. destruct (negb _); [done|].
    destruct (surface_destroyed _ _) as [f chg]. cbn [fst].
    assert (Hq1 : quiet ch (with_table (put_slot i None (table c)) (with_counters (next_surface_id c) (next_layer_seq c) c)))
      by (by apply quiet_put). by rewrite (notify_quiet ch) by (apply quiet_focus, quiet_z, Hq1).
  - unfold handle_resize, surface_resize, clamp_window_size. destruct (_ || _); [done|].
    destruct (find_mut _ _) as [[i s]|] eqn:E; [|done]. apply find_mut_Some in E as [[Hs Hc]%Ht _].
    destruct (negb _); [done|]. destruct (is_terminal _); [done|]. cbn [fst].
    apply (quiet_put ch i _ c (next_surface_id c) (next_layer_seq c)); [done|]. by intros ? [= <-].
  - unfold handle_set_layer, surface_set_layer. destruct (find_mut _ _) as [[i s]|] eqn:E; [|done].
    apply find_mut_Some in E as [[Hs Hc]%Ht _]. destruct (negb _); [done|]. destruct (is_terminal _); [done|].
    cbn [fst]. apply quiet_put; [done|]. by intros ? [= <-].
Qed.

(** C34: from boot every run of the service returns (no panic, whatever the requests and events), no
    surface ever becomes visible, every AttachBuffer is refused with the zeroed reply and leaves the
    state as it is, and no event is sent to any client. *)
Theorem windows_never_shown ch rs : exists c,
  compositor_rounds ch rs (comp_boot (Some ch)) = Some c /\ sent c = [] /\
  (forall i s, table c !! i = Some (Some s) -> is_visible (s_state s) = false) /\
  forall payload req pid, decode_request payload = Some req -> command_from_u32 (rq_command req) = Some AttachBuffer ->
    process_request payload (Some pid) ch c = (c, event_bytes event_zeroed).
Proof.
  assert (H : exists c, compositor_rounds ch rs (comp_boot (Some ch)) = Some c /\ quiet ch c).
  { induction rs as [|r rs (c & E & Hq)] using rev_ind; [eexists; split; [done|apply quiet_boot]|].
    rewrite rounds_snoc, E. cbn. unfold compositor_round, drain_and_route. apply drain_quiet.
    destruct (ro_request r) as [[payload owner]|]; [by apply request_quiet|done]. }
  destruct H as (c & E & Hq). exists c. pose proof Hq as (_ & Hs & _ & Ht). split_and!; [done..| |].
  - intros i s [Hc _]%Ht. by rewrite Hc.
  - intros payload req pid Hd Hcmd. unfold process_request. rewrite Hd, Hcmd.
    unfold handle_attach_buffer, surface_attach_buffer. destruct (find_mut _ _) as [[i s]|] eqn:Ef; [|done].
    apply find_mut_Some in Ef as [[Hc _]%Ht _]. rewrite Hc. by destruct (negb _).
Qed.

(** ** Ownership *)

Lemma put_other {t : list (option Surface)} {i j : nat} {s s' : Surface} o : t !! i = Some (Some s) -> t !! j = Some (Some s') ->
  s_owner_pid s <> s_owner_pid s' -> put_slot j o t !! i = Some (Some s).
Proof. intros Hi Hj Hne. unfold put_slot. rewrite list_lookup_insert_ne; [done|]. intros ->. congruence. Qed.

Lemma notify_table chg c : table (notify_focus_change chg c) = table c.
Proof. unfold notify_focus_change, send_event_bytes. by repeat case_match. Qed.

(** C33: isolation between clients. Whatever bytes a process sends, a surface of another process keeps
    its slot with every field as it was: no client can attach to, destroy, resize or restack a
    surface it does not own. *)
Theorem requests_isolated payload pid ch c i s :
  table c !! i = Some (Some s) -> s_owner_pid s <> pid ->
  table (process_request payload (Some pid) ch c).1 !! i = Some (Some s).
Proof.
  intros Hi Ho. unfold process_request. destruct (decode_request payload) as [req|]; [|done].
  assert (Hown : forall j s', find_mut (table c) (rq_surface_id req) = Some (j, s') -> (s_owner_pid s' =? pid) = true ->
    forall o, put_slot j o (table c) !! i = Some (Some s)).
  { intros j s' [Hj _]%find_mut_Some E%Z.eqb_eq o. apply (put_other o Hi Hj). congruence. }
  destruct (command_from_u32 (rq_command req)) as [[]|]; cbn zeta; [| | | | |done].
  - unfold handle_create_surface, surface_create. destruct (_ || _); [done|]. cbn [table with_counters].
    destruct (first_none (table c)) as [j|] eqn:Ej; [|done]. apply first_none_Some in Ej as [Hj _]. cbn zeta.
    destruct (match keyboard_focus _ with Some _ => _ | None => _ end) as [f chg]. cbn [fst]. rewrite notify_table. cbn.
    unfold put_slot. rewrite list_lookup_insert_ne; [done|]. intros ->. congruence.
  - unfold handle_attach_buffer, surface_attach_buffer. destruct (find_mut _ _) as [[j s']|] eqn:E; [|done].
    destruct (s_owner_pid s' =? pid) eqn:Eo; [|done]. repeat (case_match; simplify_eq/=; try done); by eapply Hown.
  - unfold handle_destroy_surface, surface_destroy. destruct (find_mut _ _) as [[j s']|] eqn:E; [|done].
    destruct (s_owner_pid s' =? pid) eqn:Eo; [|done]. cbn [negb]. destruct (negb _); [done|].
    destruct (surface_destroyed _ _). cbn [fst]. rewrite notify_table. by eapply Hown.
  - unfold handle_resize, surface_resize, clamp_window_size. destruct (_ || _); [done|].
    destruct (find_mut _ _) as [[j s']|] eqn:E; [|done]. destruct (s_owner_pid s' =? pid) eqn:Eo; [|done].
    cbn [negb]. destruct (is_terminal _); [done|]. by eapply Hown.
  - unfold handle_set_layer, surface_set_layer. destruct (find_mut _ _) as [[j s']|] eqn:E; [|done].
    destruct (s_owner_pid s' =? pid) eqn:Eo; [|done]. cbn [negb]. destruct (is_terminal _); [done|]. by eapply Hown.
Qed.

(** ** Alt+Tab *)

Lemma switch_window_parts c :
  focus (apply_switch_window c) = (set_keyboard_focus (alt_tab_target (focus c)) (focus c)).1 /\
  z_order (apply_switch_window c) = match alt_tab_target (focus c) with Some id => z_raise_to_top id (z_order c) | None => z_order c end.
Proof.
  unfold apply_switch_window. destruct (set_keyboard_focus _ _) as [f chg].
  match goal with |- focus (notify_focus_change _ ?x) = _ /\ _ => destruct (notify_core chg x) as (_ & _ & -> & ->) end.
  by destruct (alt_tab_target (focus c)).
Qed.

Lemma alt_tab_focus f k x l : keyboard_focus f = Some k -> h_rep (focus_history f) (k :: x :: l) ->
  NoDup (k :: x :: l) -> x <> NONE_ID ->
  alt_tab_target f = Some x /\ keyboard_focus (set_keyboard_focus (Some x) f).1 = Some x /\
  h_rep (focus_history (set_keyboard_focus (Some x) f).1) (x :: k :: l).
Proof.
  intros Hk Hh Hnd Hx. apply NoDup_cons in Hnd as Hnd'. destruct Hnd' as [Hkn Hnd'].
  assert (k <> x) by (intros ->; by apply Hkn, list_elem_of_here). split.
  { unfold alt_tab_target, h_live. rewrite (holds_list_live _ _ _ _ Hh), Hk. cbn.
    rewrite bool_decide_true by done. cbn. by rewrite bool_decide_false by congruence. }
  unfold set_keyboard_focus. rewrite decide_False by congruence. cbn. split; [done|].
  pose proof (h_rep_touch _ _ x Hh Hnd Hx) as Ht. unfold touched in Ht.
  assert (E : without x (k :: x :: l) = k :: l).
  { unfold without. rewrite filter_cons_True, filter_cons_False by naive_solver. f_equal. apply without_notin.
    by apply NoDup_cons in Hnd' as [? _]. }
  rewrite E, take_ge in Ht; [done|]. destruct Hh as (_ & Hn & _). unfold alen in Hn. cbn [length] in *. lia.
Qed.

(** Alt+Tab. With the history [k :: x :: l], [k] focused, it focuses the most recently used other
    window [x], puts it on top of the stack and to the front of the history, so a second Alt+Tab
    returns to [k]; with [k] alone in the history it leaves no window focused. *)
Theorem alt_tab_exact c k l :
  cwf c -> h_rep (focus_history (focus c)) (k :: l) -> keyboard_focus (focus c) = Some k ->
  let c' := apply_switch_window c in
  match l with
  | x :: l' =>
      keyboard_focus (focus c') = Some x /\ h_rep (focus_history (focus c')) (x :: k :: l') /\
      (exists zl, z_rep (z_order c') (zl ++ [x])) /\
      keyboard_focus (focus (apply_switch_window c')) = Some k
  | [] => keyboard_focus (focus c') = None
  end.
Proof.
  intros Hw Hh Hk. pose proof (cw_hist _ _ _ _ Hw) as (hl & Hhl & Hnd & Hin & _).
  assert (hl = k :: l) as -> by (rewrite <-(holds_list_live _ _ _ _ Hhl); by rewrite (holds_list_live _ _ _ _ Hh)).
  cbn zeta. destruct (switch_window_parts c) as [Ef Ez]. destruct l as [|x l].
  { rewrite Ef. replace (alt_tab_target (focus c)) with (@None Z).
    { unfold set_keyboard_focus. rewrite decide_False by congruence. done. }
    unfold alt_tab_target, h_live. rewrite (holds_list_live _ _ _ _ Hh), Hk. cbn. by rewrite bool_decide_true. }
  assert (Hpos : forall y, y ∈ k :: x :: l -> y <> NONE_ID).
  { intros y Hy%Hin%(core_ids_pos _ _ _ _ _ Hw). unfold NONE_ID. lia. }
  destruct (alt_tab_focus _ _ _ _ Hk Hh Hnd (Hpos x ltac:(set_solver))) as (Et & Ek & Ehist).
  rewrite Et in Ef, Ez. split_and!; [by rewrite Ef..| |].
  - destruct (cw_z _ _ _ _ Hw) as (zl & Hz & Hp). rewrite Ez.
    assert (Hx : x ∈ zl) by (rewrite Hp; apply Hin; set_solver).
    exists (without x zl). pose proof (z_rep_raise _ _ x Hz) as Hr. unfold raised in Hr. rewrite decide_True in Hr by done.
    apply Hr; [rewrite Hp; apply (cw_nodup _ _ _ _ Hw)|]. rewrite Hp. intros H0%(core_ids_pos _ _ _ _ _ Hw). unfold NONE_ID in H0. lia.
  - destruct (switch_window_parts (apply_switch_window c)) as [-> _]. rewrite Ef.
    destruct (alt_tab_focus _ _ _ _ Ek Ehist) as (-> & ? & _); [|apply Hpos; set_solver|done].
    apply NoDup_cons in Hnd as [Hkn [Hxn ?]%NoDup_cons]. repeat constructor; set_solver.
Qed.

(** Two surfaces of process 7, the first focused. *)
Definition request_bytes (command width : Z) : list Z :=
  le_bytes 8 command ++ le_bytes 8 0 ++ le_bytes 4 width ++ le_bytes 4 300 ++ 1 :: array_of 95 0.
Definition demo_windows : comp :=
  (process_request (request_bytes 1 400) (Some 7) 3 (process_request (request_bytes 1 300) (Some 7) 3 (comp_boot (Some 3))).1).1.
(** Then the second one gets the focus. *)
Definition demo_focused : comp := promote_to_focus 2 demo_windows.

Lemma demo_windows_wf : cwf demo_windows.
Proof. do 2 (eapply request_wf; [|vm_compute; congruence|vm_compute; reflexivity]). apply cwf_boot. Qed.

Lemma demo_focused_wf : cwf demo_focused.
Proof. apply promote_wf; [apply demo_windows_wf|]. vm_compute. set_solver. Qed.

Lemma alt_tab_exact_witness :
  keyboard_focus (focus (apply_switch_window demo_focused)) = Some 1 /\
  keyboard_focus (focus (apply_switch_window (apply_switch_window demo_focused))) = Some 2.
Proof.
  assert (Hh : h_rep (focus_history (focus demo_focused)) [2; 1]) by (split_and!; vm_compute; [reflexivity|congruence|reflexivity]).
  assert (Hk : keyboard_focus (focus demo_focused) = Some 2) by (vm_compute; reflexivity).
  pose proof (alt_tab_exact demo_focused 2 [1] demo_focused_wf Hh Hk) as (H1 & _ & _ & H2).
  exact (conj H1 H2).
Defined.

Lemma compositor_state_consistent_witness : exists c',
  compositor_rounds 3 [{| ro_request := Some (request_bytes 1 200, Some 9); ro_events := [Pointer 10 10 None None] |}] demo_windows = Some c' /\
  cwf c'.
Proof.
  destruct (compositor_rounds 3 [{| ro_request := Some (request_bytes 1 200, Some 9); ro_events := [Pointer 10 10 None None] |}] demo_windows)
    as [c'|] eqn:E; [|exfalso; vm_compute in E; discriminate].
  exists c'. split; [reflexivity|].
  apply (compositor_state_consistent 3 [{| ro_request := Some (request_bytes 1 200, Some 9); ro_events := [Pointer 10 10 None None] |}] demo_windows c').
  - exact demo_windows_wf.
  - vm_compute; congruence.
  - vm_compute; reflexivity.
  - exact E.
Defined.

Definition demo_surface : Surface :=
  {| s_id := 1; s_state := Created; s_layer := Normal; s_title := title_from_bytes []; s_content_type := Document;
     s_x := 0; s_y := 0; s_width := 300; s_height := 300; s_shmem_id := None; s_owner_pid := 7; s_channel := 3;
     s_layer_seq := 1; s_damaged := true |}.

Lemma requests_isolated_witness :
  table (process_request (request_bytes 3 0) (Some 8) 3 demo_windows).1 !! 0%nat = Some (Some demo_surface).
Proof.
  apply (requests_isolated (request_bytes 3 0) 8 3 demo_windows 0 demo_surface).
  - vm_compute. reflexivity.
  - vm_compute. congruence.
Defined.

(** ** Dragging *)

Definition moves_west (e : ResizeEdge) : bool := match e with West | NorthWest | SouthWest => true | _ => false end.
Definition moves_east (e : ResizeEdge) : bool := match e with East | NorthEast | SouthEast => true | _ => false end.
Definition moves_north (e : ResizeEdge) : bool := match e with North | NorthEast | NorthWest => true | _ => false end.
Definition moves_south (e : ResizeEdge) : bool := match e with South | SouthEast | SouthWest => true | _ => false end.

Definition coord (n : Z) : Prop := - 2 ^ 28 <= n <= 2 ^ 28.

(** resizing by an edge or corner. Within [2^28] pixels of the origin nothing overflows; the new
    size is the old one plus the pointer's travel on the sides that move, never below the 200x100
    minimum; and the side opposite to a moving one stays where it was, also when the minimum stops
    the drag. *)
Theorem resize_drag_exact id edge sp so sd px py :
  coord px -> coord py -> coord sp.1 -> coord sp.2 -> coord so.1 -> coord so.2 ->
  0 < sd.1 <= 2 ^ 28 -> 0 < sd.2 <= 2 ^ 28 ->
  exists nx ny w h, drag_action (Resizing id edge sp so sd) px py = Some (Some (id, nx, ny, Some (w, h))) /\
  w = Z.max MIN_WINDOW_WIDTH (sd.1 + (if moves_east edge then px - sp.1 else if moves_west edge then sp.1 - px else 0)) /\
  h = Z.max MIN_WINDOW_HEIGHT (sd.2 + (if moves_south edge then py - sp.2 else if moves_north edge then sp.2 - py else 0)) /\
  (if moves_west edge then nx + w = so.1 + sd.1 else nx = so.1) /\
  (if moves_north edge then ny + h = so.2 + sd.2 else ny = so.2).
Proof.
  destruct sp as [spx spy], so as [sox soy], sd as [sw sh]. unfold coord. change (2 ^ 28) with 268435456. cbn [fst snd].
  intros. assert (Hi : forall n, -2147483648 <= n <= 2147483647 -> i32v n = Some n) by (intros; apply i32v_in; unfold sint; lia).
  assert (Hs : forall n, 0 <= n < 2147483648 -> as_signed 32 n = n) by (intros; by apply as_signed_small).
  unfold drag_action. cbn [fst snd]. rewrite !(Hs sw), !(Hs sh) by lia.
  destruct edge; cbn [moves_west moves_east moves_north moves_south];
    repeat (rewrite ?Hi by lia; cbn [mbind option_bind clamp_window_size]);
    unfold clamp_window_size, MIN_WINDOW_WIDTH, MIN_WINDOW_HEIGHT;
    repeat (rewrite ?Hs, ?Hi by lia; cbn [mbind option_bind]);
    do 4 eexists; (split; [reflexivity|]); lia.
Qed.

Lemma resize_drag_exact_witness : exists nx ny w h,
  drag_action (Resizing 1 NorthWest (100, 100) (90, 90) (400, 300)) 350 120 = Some (Some (1, nx, ny, Some (w, h))) /\
  w = 200 /\ h = 280 /\ nx + w = 490 /\ ny + h = 390.
Proof.
  apply (resize_drag_exact 1 NorthWest (100, 100) (90, 90) (400, 300) 350 120); unfold coord; cbn; lia.
Defined.

(** ** Coalescing *)

Definition is_motion (e : InputEvent) : bool :=
  match e with Pointer _ _ None None => true | _ => false end.

(** A motion directly followed by another motion is dropped. *)
Fixpoint coalesce (es : list InputEvent) : list InputEvent :=
  match es with
  | [] => []
  | e :: es' =>
      match es' with
      | e' :: _ => if is_motion e && is_motion e' then coalesce es' else e :: coalesce es'
      | [] => [e]
      end
  end.

(** The last pointer position of the events. *)
Definition cursor_after (es : list InputEvent) (pos : Z * Z) : Z * Z :=
  foldl (fun p e => match e with Pointer x y _ _ => (as_signed 32 x, as_signed 32 y) | Keyboard _ _ _ => p end) pos es.

Definition route_all (es : list InputEvent) (c : comp) : option comp :=
  foldl (fun c e => c ≫= run_through_stages e DEFAULT_DECO) (Some c) es.

(** The pipeline neither reads nor moves the cursor. *)
Definition at_pos (p : Z * Z) (c : comp) : comp := set_position p.1 p.2 c.

Lemma at_pos_self c : at_pos (cursor_pos c) c = c.
Proof. by destruct c as [? ? ? ? ? ? [? ?] ? ?]. Qed.
Lemma at_pos_twice p q c : at_pos p (at_pos q c) = at_pos p c.
Proof. done. Qed.

Lemma send_event_at p ch e c : send_event_bytes ch e (at_pos p c) = at_pos p (send_event_bytes ch e c).
Proof. unfold send_event_bytes. change (is_self_channel ch (at_pos p c)) with (is_self_channel ch c). by case_match. Qed.
Lemma send_to_at p id e c : send_to id e (at_pos p c) = at_pos p (send_to id e c).
Proof. unfold send_to. change (channel_of id (at_pos p c)) with (channel_of id c). case_match; [apply send_event_at|done]. Qed.
Lemma notify_at p chg c : notify_focus_change chg (at_pos p c) = at_pos p (notify_focus_change chg c).
Proof.
  assert (Hc : forall id, channel_of id (at_pos p c) = channel_of id c) by done.
  unfold notify_focus_change. destruct (lost chg) as [l|], (gained chg) as [g|]; cbn [mbind option_bind]; rewrite ?Hc;
    [destruct (channel_of l c), (channel_of g c)|destruct (channel_of l c)|destruct (channel_of g c)|];
    by rewrite ?send_event_at.
Qed.
Lemma promote_at p id c : promote_to_focus id (at_pos p c) = at_pos p (promote_to_focus id c).
Proof.
  unfold promote_to_focus. change (focus (at_pos p c)) with (focus c). destruct (set_keyboard_focus _ _) as [f chg].
  by rewrite <-notify_at.
Qed.
Lemma hotkey_filter_at p e c :
  hotkey_filter e (at_pos p c) = ((hotkey_filter e c).1, at_pos p (hotkey_filter e c).2).
Proof.
  unfold hotkey_filter. destruct e as [k st m|]; [|done]. destruct (match_hotkey k m st) as [[]|]; cbn; try done; f_equal.
  - unfold apply_switch_window. change (focus (at_pos p c)) with (focus c).
    destruct (set_keyboard_focus _ _) as [f chg]. rewrite <-notify_at. by destruct (alt_tab_target (focus c)).
  - unfold apply_close_window. change (focus (at_pos p c)) with (focus c). case_match; [apply send_to_at|done].
Qed.
Lemma deliver_at p id e c : deliver_to_surface id e (at_pos p c) = at_pos p (deliver_to_surface id e c).
Proof.
  unfold deliver_to_surface. change (channel_of id (at_pos p c)) with (channel_of id c). case_match; [|done].
  rewrite <-send_event_at. f_equal. repeat case_match; try done. apply promote_at.
Qed.
Lemma apply_geometry_at p id x y w h c : apply_geometry id x y w h (at_pos p c) = at_pos p (apply_geometry id x y w h c).
Proof. unfold apply_geometry. change (table (at_pos p c)) with (table c). by case_match; [case_match|]. Qed.
Lemma apply_drag_at p a c : apply_drag a (at_pos p c) = at_pos p (apply_drag a c).
Proof.
  unfold apply_drag. destruct a as [[[[id nx] ny] dims]|]; [|done].
  change (surface_geometry id (at_pos p c)) with (surface_geometry id c).
  destruct (match dims with Some d => d | None => _ end) as [w h]. destruct (_ && _); [|done].
  destruct dims; by rewrite apply_geometry_at, ?send_to_at.
Qed.
Lemma handle_decoration_at p id z e c :
  handle_decoration_event id z e (at_pos p c) = at_pos p <$> handle_decoration_event id z e c.
Proof.
  unfold handle_decoration_event. change (surface_geometry id (at_pos p c)) with (surface_geometry id c).
  change (drag (at_pos p c)) with (drag c). destruct e as [|x y b st]; [done|].
  destruct b as [[]|], st as [[]|]; try done.
  - destruct z; try done; cbn; [by repeat case_match|by rewrite send_to_at|by repeat case_match].
  - destruct (drag_action (drag c) _ _) as [a|]; cbn; [by rewrite apply_drag_at|done].
Qed.

Lemma stages_at p e d c : run_through_stages e d (at_pos p c) = at_pos p <$> run_through_stages e d c.
Proof.
  unfold run_through_stages. rewrite hotkey_filter_at. destruct (hotkey_filter e c) as [[e1|] c1]; [|done]. cbn [fst snd].
  assert (Ht : forall x y, topmost_at x y d (at_pos p c1) = topmost_at x y d c1) by done.
  destruct e1 as [k st m|x y b st]; cbn [mbind option_bind].
  - change (focus (at_pos p c1)) with (focus c1). destruct (keyboard_focus (focus c1)); cbn [route_event]; [|done].
    by rewrite deliver_at.
  - rewrite Ht. destruct (topmost_at _ _ d c1) as [hit|]; cbn [mbind option_bind]; [|done].
    change (with_focus (set_pointer_focus (fst <$> hit) (focus (at_pos p c1))) (at_pos p c1))
      with (at_pos p (with_focus (set_pointer_focus (fst <$> hit) (focus c1)) c1)).
    destruct (route_event _ _ hit); [by rewrite deliver_at|by rewrite handle_decoration_at|done].
Qed.

Lemma route_all_cons e es c : route_all (e :: es) c = run_through_stages e DEFAULT_DECO c ≫= route_all es.
Proof.
  unfold route_all. cbn. destruct (run_through_stages e DEFAULT_DECO c); cbn; [done|].
  induction es; [done|]. by cbn.
Qed.

Lemma route_all_at p es c : route_all es (at_pos p c) = at_pos p <$> route_all es c.
Proof.
  revert c. induction es as [|e es IH]; intros c; [done|]. rewrite !route_all_cons, stages_at.
  destruct (run_through_stages e DEFAULT_DECO c); [|done]. apply IH.
Qed.

(** A run leaves the cursor where it was. *)
Lemma route_all_cursor es c : at_pos (cursor_pos c) <$> route_all es c = route_all es c.
Proof. by rewrite <-route_all_at, at_pos_self. Qed.

Definition pending_list (p : option (Z * Z)) : list InputEvent := from_option (fun q => [motion q]) [] p.

Lemma coalesce_pending p e es : is_motion e = false ->
  coalesce (pending_list p ++ e :: es) = pending_list p ++ e :: coalesce es.
Proof.
  intros He. assert (E : coalesce (e :: es) = e :: coalesce es) by (cbn; destruct es; [done|]; by rewrite He).
  destruct p as [q|]; [|done]. cbn [pending_list from_option app]. rewrite <-E.
  change (coalesce (motion q :: e :: es)) with (if is_motion (motion q) && is_motion e then coalesce (e :: es) else motion q :: coalesce (e :: es)).
  by rewrite He.
Qed.

Lemma route_all_pending p es c :
  route_all (pending_list p ++ es) c = flush_pending p c ≫= route_all es.
Proof. destruct p; [|done]. cbn [pending_list from_option app]. apply route_all_cons. Qed.

Lemma stages_cursor e d c c' : run_through_stages e d c = Some c' -> cursor_pos c' = cursor_pos c.
Proof. intros H. pose proof (stages_at (cursor_pos c) e d c) as E. rewrite at_pos_self, H in E. injection E as E. rewrite E. by destruct (cursor_pos c). Qed.

Lemma flush_cursor p c c' : flush_pending p c = Some c' -> cursor_pos c' = cursor_pos c.
Proof. unfold flush_pending. destruct p; [apply stages_cursor|by intros [= <-]]. Qed.

Lemma drain_coalesce es p c :
  drain es p c = at_pos (cursor_after es (cursor_pos c)) <$> route_all (coalesce (pending_list p ++ es)) c.
Proof.
  revert p c. induction es as [|e es IH]; intros p c; cbn [drain].
  { rewrite app_nil_r. cbn [cursor_after foldl]. rewrite route_all_cursor.
    destruct p as [q|]; [|done]. cbn [pending_list from_option coalesce flush_pending]. rewrite route_all_cons.
    destruct (run_through_stages (motion q) DEFAULT_DECO c); done. }
  assert (Hk : forall q, is_motion e = false -> cursor_after [e] (cursor_pos c) = q ->
    (flush_pending p (at_pos q c) ≫= fun c1 => run_through_stages e DEFAULT_DECO c1 ≫= drain es None) =
    at_pos (cursor_after (e :: es) (cursor_pos c)) <$> route_all (coalesce (pending_list p ++ e :: es)) c).
  { intros q He Hq. rewrite coalesce_pending by done.
    replace (cursor_after (e :: es) (cursor_pos c)) with (cursor_after es q) by (rewrite <-Hq; done).
    transitivity (at_pos (cursor_after es q) <$> route_all (pending_list p ++ e :: coalesce es) (at_pos q c));
      [|rewrite route_all_at; by destruct (route_all _ c)].
    rewrite route_all_pending. destruct (flush_pending p (at_pos q c)) as [c1|] eqn:E1; [|done]. cbn [mbind option_bind].
    rewrite route_all_cons. destruct (run_through_stages e DEFAULT_DECO c1) as [c2|] eqn:E2; [|done]. cbn [mbind option_bind].
    rewrite IH. do 2 f_equal. rewrite (stages_cursor _ _ _ _ E2), (flush_cursor _ _ _ E1). by destruct q. }
  destruct e as [k st m|x y b st].
  { rewrite <-(Hk (cursor_pos c)) by done. by rewrite at_pos_self. }
  destruct b as [b|], st as [st|]; try (rewrite <-(Hk (as_signed 32 x, as_signed 32 y)) by done; done).
  rewrite IH. change (set_position (as_signed 32 x) (as_signed 32 y) c) with (at_pos (as_signed 32 x, as_signed 32 y) c).
  rewrite route_all_at.
  replace (coalesce (pending_list p ++ Pointer x y None None :: es)) with (coalesce (pending_list (Some (x, y)) ++ es)) by (by destruct p).
  clear Hk IH. destruct (route_all _ c); reflexivity.
Qed.

(** motion coalescing. Draining the input queue is routing its events in order, one by one,
    except that a motion directly followed by another motion is skipped; the cursor ends at the last
    pointer position. No button or key event is lost, reordered or merged. *)
Theorem drain_routes_coalesced es c :
  drain_and_route es c =
  at_pos (cursor_after es (cursor_pos c)) <$> route_all (coalesce es) c /\
  filter (fun e => is_motion e = false) (coalesce es) = filter (fun e => is_motion e = false) es.
Proof.
  split; [apply (drain_coalesce es None c)|]. induction es as [|e es IH]; [done|]. cbn [coalesce].
  destruct es as [|e' es]; [done|]. destruct (is_motion e && is_motion e') eqn:E.
  - apply andb_true_iff in E as [E _]. rewrite IH. by rewrite (filter_cons_False _ e) by (by rewrite E).
  - rewrite !(filter_cons _ e). by rewrite IH.
Qed.

(** ** Click to focus *)

(** What sending [e] to surface [id] puts on the wire. *)
Definition out (c : comp) (id : Z) (e : CompositorEvent) : list (Z * CompositorEvent) :=
  match channel_of id c with
  | Some ch => if is_self_channel ch c then [] else [(ch, e)]
  | None => []
  end.

Lemma send_event_sent ch e c : sent (send_event_bytes ch e c) = sent c ++ if is_self_channel ch c then [] else [(ch, e)].
Proof. unfold send_event_bytes. case_match; [by rewrite app_nil_r|done]. Qed.

Lemma notify_sent chg c :
  sent (notify_focus_change chg c) =
  sent c ++ from_option (fun id => out c id (ev_focus_changed id false)) [] (lost chg)
         ++ from_option (fun id => out c id (ev_focus_changed id true)) [] (gained chg).
Proof.
  assert (Hself : forall ch e ch', is_self_channel ch' (send_event_bytes ch e c) = is_self_channel ch' c)
    by (intros; unfold send_event_bytes; by case_match).
  unfold notify_focus_change, out. destruct (lost chg) as [l|], (gained chg) as [g|]; cbn [from_option mbind option_bind];
    [destruct (channel_of l c), (channel_of g c)|destruct (channel_of l c)|destruct (channel_of g c)|];
    rewrite ?send_event_sent, ?Hself, ?send_event_sent, ?app_nil_r, <-?app_assoc; done.
Qed.

Lemma send_event_same ch e c :
  table (send_event_bytes ch e c) = table c /\ z_order (send_event_bytes ch e c) = z_order c /\
  focus (send_event_bytes ch e c) = focus c /\ self_channel (send_event_bytes ch e c) = self_channel c.
Proof. unfold send_event_bytes. by case_match. Qed.

Lemma notify_self chg c : self_channel (notify_focus_change chg c) = self_channel c.
Proof. unfold notify_focus_change, send_event_bytes. by repeat case_match. Qed.

Lemma set_focus_slots id f :
  keyboard_focus (set_keyboard_focus id f).1 = id /\ pointer_focus (set_keyboard_focus id f).1 = pointer_focus f.
Proof. unfold set_keyboard_focus. by case_decide. Qed.

(** Delivering a left press to a live surface. *)
Lemma deliver_press_parts c x y id ch :
  let e := Pointer x y (Some ButtonLeft) (Some BtnPressed) in
  let c' := deliver_to_surface id e c in
  channel_of id c = Some ch ->
  focus c' = (set_keyboard_focus (Some id) (focus c)).1 /\ z_order c' = z_raise_to_top id (z_order c) /\
  table c' = table c /\
  sent c' = sent c ++
    (if decide (keyboard_focus (focus c) = Some id) then []
     else from_option (fun k => out c k (ev_focus_changed k false)) [] (keyboard_focus (focus c)) ++ out c id (ev_focus_changed id true))
    ++ out c id (ev_input_for id e).
Proof.
  intros e c' Hch. subst c'. unfold deliver_to_surface. rewrite Hch. subst e. cbv beta iota. unfold promote_to_focus.
  destruct (set_keyboard_focus (Some id) (focus c)) as [f chg] eqn:Ef.
  set (c1 := with_z _ (with_focus f c)). set (ev := ev_input_for id _).
  destruct (send_event_same ch ev (notify_focus_change chg c1)) as (-> & -> & -> & _).
  rewrite notify_table, send_event_sent, notify_sent. destruct (notify_core chg c1) as (_ & _ & -> & ->).
  split_and!; [done..|]. unfold is_self_channel. rewrite notify_self. change (self_channel c1) with (self_channel c).
  fold (is_self_channel ch c). rewrite <-app_assoc. change (sent c1) with (sent c). f_equal.
  assert (Ho : forall k e, out c1 k e = out c k e) by done.
  assert (Hi : out c id ev = if is_self_channel ch c then [] else [(ch, ev)]) by (unfold out; by rewrite Hch).
  rewrite <-Hi. unfold set_keyboard_focus in Ef.
  destruct (decide (Some id = keyboard_focus (focus c))) as [E|E]; injection Ef as <- <-.
  - by rewrite decide_True.
  - by rewrite decide_False by congruence.
Qed.

(** a left press on a window's content focuses it, raises it to the top of the stack and to the
    front of the history, and sends, in this order, FocusChanged(lost) to the window that had the
    focus, FocusChanged(gained) to the new one (neither if it had the focus already), and the press
    itself; nothing else is sent, and no surface changes. *)
Theorem click_focuses c x y id :
  let e := Pointer x y (Some ButtonLeft) (Some BtnPressed) in
  let old := keyboard_focus (focus c) in
  cwf c -> topmost_at (as_signed 32 x) (as_signed 32 y) DEFAULT_DECO c = Some (Some (id, Content)) ->
  exists c', run_through_stages e DEFAULT_DECO c = Some c' /\ cwf c' /\
  keyboard_focus (focus c') = Some id /\ pointer_focus (focus c') = Some id /\ table c' = table c /\
  (exists zl, z_rep (z_order c') (zl ++ [id])) /\
  (exists hl, h_rep (focus_history (focus c')) (id :: hl)) /\
  sent c' = sent c ++
    (if decide (old = Some id) then []
     else from_option (fun k => out c k (ev_focus_changed k false)) [] old ++ out c id (ev_focus_changed id true))
    ++ out c id (ev_input_for id e).
Proof.
  intros e old Hw Hhit. unfold run_through_stages. cbn [hotkey_filter e]. rewrite Hhit. cbn [mbind option_bind route_event].
  pose proof (topmost_walk_live _ _ _ _ _ _ _ Hhit) as Hid. destruct (find_mut_elem _ _ Hid) as (i & s & Hf).
  set (c1 := with_focus _ c). eexists. split; [done|].
  assert (Hw1 : cwf (deliver_to_surface id e c1)) by (apply deliver_wf, core_set_pointer; [done|]; by intros ? [= <-]).
  destruct (deliver_press_parts c1 x y id (s_channel s)) as (Ef & Ez & Et & Es); [unfold channel_of; change (table c1) with (table c); by rewrite Hf|].
  fold e in Ef, Ez, Et, Es. assert (Ek : keyboard_focus (focus (deliver_to_surface id e c1)) = Some id).
  { rewrite Ef. apply set_focus_slots. }
  split_and!; [done|done| |done| | |exact Es].
  - rewrite Ef. apply (proj2 (set_focus_slots (Some id) (focus c1))).
  - destruct (cw_z _ _ _ _ Hw) as (zl & Hz & Hp). exists (without id zl). rewrite Ez.
    pose proof (z_rep_raise _ _ id Hz) as Hr. unfold raised in Hr. rewrite decide_True in Hr by (by rewrite Hp).
    apply Hr; [rewrite Hp; apply (cw_nodup _ _ _ _ Hw)|]. rewrite Hp. intros H0%(core_ids_pos _ _ _ _ _ Hw). unfold NONE_ID in H0. lia.
  - destruct (cw_hist _ _ _ _ Hw1) as (hl & Hh & _ & _ & Hk). destruct (Hk _ Ek) as [l' ->]. by exists l'.
Qed.

(** [demo_windows] with its second surface shown, on a client's channel. *)
Definition demo_shown : comp :=
  with_table (put_slot 1 (Some
    {| s_id := 2; s_state := Active; s_layer := Normal; s_title := title_from_bytes []; s_content_type := Document;
       s_x := 50; s_y := 50; s_width := 400; s_height := 300; s_shmem_id := Some 4; s_owner_pid := 7; s_channel := 5;
       s_layer_seq := 2; s_damaged := true |}) (table demo_windows)) demo_windows.

Lemma click_focuses_witness : exists c',
  run_through_stages (Pointer 100 150 (Some ButtonLeft) (Some BtnPressed)) DEFAULT_DECO demo_shown = Some c' /\
  keyboard_focus (focus c') = Some 2 /\
  sent c' = [(5, ev_focus_changed 2 true); (5, ev_input_for 2 (Pointer 100 150 (Some ButtonLeft) (Some BtnPressed)))].
Proof.
  assert (Hw : cwf demo_shown).
  { eapply (cwf_same_core demo_windows); [|exact demo_windows_wf]. repeat split. }
  assert (Hhit : topmost_at (as_signed 32 100) (as_signed 32 150) DEFAULT_DECO demo_shown = Some (Some (2, Content)))
    by (vm_compute; reflexivity).
  destruct (click_focuses demo_shown 100 150 2 Hw Hhit) as (c' & H1 & _ & H2 & _ & _ & _ & _ & H3).
  exists c'. split; [exact H1|]. split; [exact H2|]. rewrite H3. vm_compute. reflexivity.
Defined.
