(* ===== verification/Render.v ===== *)
(** * Render: software composition (kernel/src/compositor/render.rs, window.rs, text.rs, cursor.rs)

    A framebuffer is the list of its pixels, row by row.  Slices and indices
    out of range are panics ([None]), so is an overflow of the checked [i32]
    arithmetic; the products of two 32-bit numbers fit [usize].  The font is
    the [spleen_font] crate: a parameter that gives the pixel rows of a
    character. *)

From S2P Require Import Prelude Input Compositor Windows.

(** ** Slices *)

(** [dst[start..start + vals.len()].copy_from_slice(vals)]. *)
Definition put_row (start : Z) (vals dst : list Z) : option (list Z) :=
  if start + alen vals <=? alen dst then Some (copy_at dst (Z.to_nat start) vals) else None.
(** [&src[start..start + n]]. *)
Definition get_slice (start n : Z) (src : list Z) : option (list Z) :=
  if start + n <=? alen src then Some (take (Z.to_nat n) (drop (Z.to_nat start) src)) else None.
(** [dst[i] = v]. *)
Definition put_px (i v : Z) (dst : list Z) : option (list Z) :=
  if i <? alen dst then Some (dst.[i <- v]) else None.

(** [for i in first..first + n { dst = f i dst }]. *)
Fixpoint for_range (n : nat) (first : Z) (f : Z -> list Z -> option (list Z)) (dst : list Z) : option (list Z) :=
  match n with
  | O => Some dst
  | S n' => d ← f first dst; for_range n' (first + 1) f d
  end.

(** ** Blitting (render.rs) *)

Record ClipRect := {
  cl_src_x : Z; cl_src_y : Z;
  cl_dst_x : Z; cl_dst_y : Z;
  cl_copy_w : Z; cl_copy_h : Z
}.

(** [ClipRect::new], at 64 bits: nothing overflows. *)
Definition clip_new (dst_x dst_y src_w src_h dst_w dst_h : Z) : option ClipRect :=
  if (src_w =? 0) || (src_h =? 0) then None
  else
    let dst_x_start := Z.max dst_x 0 in
    let dst_y_start := Z.max dst_y 0 in
    let dst_x_end := Z.min (dst_x + src_w) dst_w in
    let dst_y_end := Z.min (dst_y + src_h) dst_h in
    if (dst_x_end <=? dst_x_start) || (dst_y_end <=? dst_y_start) then None
    else Some {|
      cl_src_x := dst_x_start - dst_x;
      cl_src_y := dst_y_start - dst_y;
      cl_dst_x := as_signed 32 dst_x_start;
      cl_dst_y := as_signed 32 dst_y_start;
      cl_copy_w := wrap 32 (dst_x_end - dst_x_start);
      cl_copy_h := wrap 32 (dst_y_end - dst_y_start) |}.

Definition clip_damage (c : ClipRect) : DamageRect :=
  mk_rect (wrap 32 (cl_dst_x c)) (wrap 32 (cl_dst_y c)) (cl_copy_w c) (cl_copy_h c).

(** The blitted framebuffer and the damaged rectangle. *)
Definition blit_opaque (src : list Z) (src_w src_h : Z) (dst : list Z) (dst_w dst_h dst_x dst_y : Z)
    : option (list Z * option DamageRect) :=
  match clip_new dst_x dst_y src_w src_h dst_w dst_h with
  | None => Some (dst, None)
  | Some clip =>
      let step row dst :=
        let src_row_start := (cl_src_y clip + row) * src_w + cl_src_x clip in
        let dst_row_start := (wrap 64 (cl_dst_y clip) + row) * dst_w + wrap 64 (cl_dst_x clip) in
        src_slice ← get_slice src_row_start (cl_copy_w clip) src;
        put_row dst_row_start src_slice dst in
      d ← for_range (Z.to_nat (cl_copy_h clip)) 0 step dst;
      Some (d, Some (clip_damage clip))
  end.

(** [blend_premultiplied]: per channel [src + (dst * (255 - alpha)) >> 8]. *)
Definition blend_premultiplied (src dst : Z) : Z :=
  let sa := Z.land (Z.shiftr src 24) 0xFF in
  let inv := 255 - sa in
  let sr := Z.land (Z.shiftr src 16) 0xFF in
  let sg := Z.land (Z.shiftr src 8) 0xFF in
  let sb := Z.land src 0xFF in
  let dr := Z.land (Z.shiftr dst 16) 0xFF in
  let dg := Z.land (Z.shiftr dst 8) 0xFF in
  let db := Z.land dst 0xFF in
  let da := Z.land (Z.shiftr dst 24) 0xFF in
  let out_a := sa + Z.shiftr (da * inv) 8 in
  let out_r := sr + Z.shiftr (dr * inv) 8 in
  let out_g := sg + Z.shiftr (dg * inv) 8 in
  let out_b := sb + Z.shiftr (db * inv) 8 in
  Z.lor (Z.lor (Z.lor (Z.shiftl (Z.land out_a 0xFF) 24) (Z.shiftl (Z.land out_r 0xFF) 16))
    (Z.shiftl (Z.land out_g 0xFF) 8)) (Z.land out_b 0xFF).

Definition blit_alpha_premultiplied (src : list Z) (src_w src_h : Z) (dst : list Z) (dst_w dst_h dst_x dst_y : Z)
    : option (list Z * option DamageRect) :=
  match clip_new dst_x dst_y src_w src_h dst_w dst_h with
  | None => Some (dst, None)
  | Some clip =>
      let step row dst :=
        let src_row := (cl_src_y clip + row) * src_w + cl_src_x clip in
        let dst_row := (wrap 64 (cl_dst_y clip) + row) * dst_w + wrap 64 (cl_dst_x clip) in
        for_range (Z.to_nat (cl_copy_w clip)) 0
          (fun col dst =>
             src_px ← src.[src_row + col];
             dst_px ← dst.[dst_row + col];
             put_px (dst_row + col) (blend_premultiplied src_px dst_px) dst) dst in
      d ← for_range (Z.to_nat (cl_copy_h clip)) 0 step dst;
      Some (d, Some (clip_damage clip))
  end.

(** [z_order_key]. *)
Definition z_order_key (s : Surface) : Z * Z := (layer_num (s_layer s), s_layer_seq s).

(** [compose_frame]; [resolve] is the closure that finds a surface's pixels. *)
Fixpoint compose_surfaces (surfaces : list Surface) (dst_w dst_h : Z) (resolve : Surface -> option (list Z))
    (dst : list Z) (damage : DamageTracker) : option (list Z * DamageTracker) :=
  match surfaces with
  | [] => Some (dst, damage)
  | s :: rest =>
      match resolve s with
      | None => compose_surfaces rest dst_w dst_h resolve dst damage
      | Some src =>
          if (s_width s =? 0) || (s_height s =? 0) then compose_surfaces rest dst_w dst_h resolve dst damage
          else if alen src <? s_width s * s_height s then compose_surfaces rest dst_w dst_h resolve dst damage
          else
            '(dst, blitted) ← blit_opaque src (s_width s) (s_height s) dst dst_w dst_h (s_x s) (s_y s);
            damage ← (match blitted with Some rect => tracker_union rect damage | None => Some damage end);
            compose_surfaces rest dst_w dst_h resolve dst damage
      end
  end.

Definition compose_frame (dst : list Z) (dst_w dst_h : Z) (surfaces : list Surface) (damage : DamageTracker)
    (clear_first : bool) (clear_color : Z) (resolve : Surface -> option (list Z)) : option (list Z * DamageTracker) :=
  if (dst_w =? 0) || (dst_h =? 0) || (alen dst =? 0) then Some (dst, damage)
  else
    let '(dst, damage) := if clear_first then (replicate (length dst) clear_color, mark_full damage) else (dst, damage) in
    compose_surfaces surfaces dst_w dst_h resolve dst damage.

(** ** Decorations (window.rs) *)

Definition fill_rect (dst : list Z) (dst_w dst_h x y width height color : Z) : option (list Z) :=
  if (width =? 0) || (height =? 0) then Some dst
  else
    let dst_w_i := as_signed 32 dst_w in
    let dst_h_i := as_signed 32 dst_h in
    let x0 := Z.min (Z.max x 0) dst_w_i in
    let y0 := Z.min (Z.max y 0) dst_h_i in
    let x1 := Z.min (Z.max (saturating_add_i32 x (as_signed 32 width)) 0) dst_w_i in
    let y1 := Z.min (Z.max (saturating_add_i32 y (as_signed 32 height)) 0) dst_h_i in
    if (x1 <=? x0) || (y1 <=? y0) then Some dst
    else
      for_range (Z.to_nat (y1 - y0)) (wrap 64 y0)
        (fun row dst => put_row (row * dst_w + wrap 64 x0) (array_of (wrap 64 x1 - wrap 64 x0) color) dst) dst.

Definition BORDER_FOCUSED : Z := 0xFF5B8CFF.
Definition BORDER_UNFOCUSED : Z := 0xFF7A8190.
Definition TITLE_BAR_FOCUSED_BG : Z := 0xFF1E2A48.
Definition TITLE_BAR_UNFOCUSED_BG : Z := 0xFF555A66.
Definition TITLE_BAR_FG : Z := 0xFFECF0F8.
Definition CLOSE_BUTTON_FG : Z := 0xFFFFFFFF.

Definition render_focus_indicator (dst : list Z) (dst_w dst_h x y width height : Z) (focused : bool)
    (deco : WindowDecoration) : option (list Z) :=
  let color := if focused then BORDER_FOCUSED else BORDER_UNFOCUSED in
  let border := border_width deco in
  if border =? 0 then Some dst
  else
    d ← fill_rect dst dst_w dst_h x y width border color;
    yb ← i32v (y + as_signed 32 height); yb ← i32v (yb - as_signed 32 border);
    d ← fill_rect d dst_w dst_h x yb width border color;
    d ← fill_rect d dst_w dst_h x y border height color;
    xr ← i32v (x + as_signed 32 width); xr ← i32v (xr - as_signed 32 border);
    fill_rect d dst_w dst_h xr y border height color.

(** [(0..dst_w as i32).contains(&x) && (0..dst_h as i32).contains(&y)]. *)
Definition on_screen (x y dst_w dst_h : Z) : bool :=
  (0 <=? x) && (x <? as_signed 32 dst_w) && ((0 <=? y) && (y <? as_signed 32 dst_h)).

Definition draw_close_glyph (dst : list Z) (dst_w dst_h cell_x cell_y cell_w cell_h color : Z) : option (list Z) :=
  let pad := as_signed 32 (Z.max (Z.min cell_w cell_h / 4) 2) in
  inner_w ← i32v (as_signed 32 cell_w - 2 * pad);
  inner_h ← i32v (as_signed 32 cell_h - 2 * pad);
  if (inner_w <=? 0) || (inner_h <=? 0) then Some dst
  else
    let span := Z.min inner_w inner_h in
    for_range (Z.to_nat span) 0
      (fun i dst =>
         x_main ← i32v (cell_x + pad + i);
         y_main ← i32v (cell_y + pad + i);
         x_anti ← i32v (cell_x + pad + (span - 1 - i));
         d ← (if on_screen x_main y_main dst_w dst_h then put_px (y_main * dst_w + x_main) color dst else Some dst);
         if on_screen x_anti y_main dst_w dst_h then put_px (y_main * dst_w + x_anti) color d else Some d) dst.

(** ** Title text (text.rs) *)

Definition TITLE_GLYPH_WIDTH : Z := 8.

Section font.
(** The pixel rows [PSF2Font::glyph_for_utf8] gives for the UTF-8 bytes of a
    character. *)
Context (glyph_for_utf8 : list Z -> option (list (list bool))).

(** One glyph row: skipped left of the screen, cut at [max_x] and the edge. *)
Fixpoint glyph_cols (cols : list bool) (col : Z) (py glyph_x max_x dst_w fg bg : Z) (dst : list Z) : option (list Z) :=
  match cols with
  | [] => Some dst
  | pixel_on :: cols' =>
      px ← i32v (glyph_x + col);
      if px <? 0 then glyph_cols cols' (col + 1) py glyph_x max_x dst_w fg bg dst
      else if (px >=? max_x) || (px >=? as_signed 32 dst_w) then Some dst
      else
        d ← put_px (py * dst_w + px) (if pixel_on : bool then fg else bg) dst;
        glyph_cols cols' (col + 1) py glyph_x max_x dst_w fg bg d
  end.

Fixpoint glyph_rows (rows : list (list bool)) (row : Z) (glyph_x glyph_y max_x dst_w dst_h fg bg : Z) (dst : list Z) : option (list Z) :=
  match rows with
  | [] => Some dst
  | cols :: rows' =>
      py ← i32v (glyph_y + row);
      if py <? 0 then glyph_rows rows' (row + 1) glyph_x glyph_y max_x dst_w dst_h fg bg dst
      else if py >=? as_signed 32 dst_h then Some dst
      else
        d ← glyph_cols cols 0 py glyph_x max_x dst_w fg bg dst;
        glyph_rows rows' (row + 1) glyph_x glyph_y max_x dst_w dst_h fg bg d
  end.

Definition QUESTION_MARK : Z := 63.

Definition blit_glyph (dst : list Z) (dst_w dst_h glyph_x glyph_y max_x ch fg bg : Z) : option (list Z) :=
  match glyph_for_utf8 [ch] with
  | Some g => glyph_rows g 0 glyph_x glyph_y max_x dst_w dst_h fg bg dst
  | None =>
      match glyph_for_utf8 [QUESTION_MARK] with
      | Some g => glyph_rows g 0 glyph_x glyph_y max_x dst_w dst_h fg bg dst
      | None => Some dst
      end
  end.

Fixpoint draw_text_clipped (dst : list Z) (dst_w dst_h x start_y max_x : Z) (text : list Z) (fg bg : Z) : option (list Z) :=
  match text with
  | [] => Some dst
  | byte :: text' =>
      x1 ← i32v (x + TITLE_GLYPH_WIDTH);
      if x1 >? max_x then Some dst
      else
        let ch := if byte <? 128 then byte else QUESTION_MARK in
        d ← blit_glyph dst dst_w dst_h x start_y max_x ch fg bg;
        draw_text_clipped d dst_w dst_h x1 start_y max_x text' fg bg
  end.

Definition render_title_bar (dst : list Z) (dst_w dst_h x y content_width : Z) (focused : bool) (title : list Z)
    (deco : WindowDecoration) : option (list Z) :=
  b2 ← u32v (2 * border_width deco);
  outer_w ← u32v (content_width + b2);
  bar_y ← i32v (y + as_signed 32 (border_width deco));
  let bg := if focused then TITLE_BAR_FOCUSED_BG else TITLE_BAR_UNFOCUSED_BG in
  d ← fill_rect dst dst_w dst_h x bar_y outer_w (title_bar_height deco) bg;
  let close_w := as_signed 32 (close_button_width deco) in
  right ← i32v (x + as_signed 32 outer_w);
  right ← i32v (right - as_signed 32 (border_width deco));
  cell_x ← i32v (right - close_w);
  text_max_x ← i32v (cell_x - 4);
  text_x ← i32v (x + 8);
  text_y ← i32v (bar_y + Z.quot (as_signed 32 (title_bar_height deco)) 2);
  text_y ← i32v (text_y - 6);
  d ← (if text_max_x >? text_x
       then draw_text_clipped d dst_w dst_h text_x text_y text_max_x title TITLE_BAR_FG bg
       else Some d);
  draw_close_glyph d dst_w dst_h cell_x bar_y (close_button_width deco) (title_bar_height deco) CLOSE_BUTTON_FG.
End font.

(** ** The cursor (cursor.rs) *)

Definition CURSOR_WIDTH : Z := 16.
Definition CURSOR_HEIGHT : Z := 16.
Definition CURSOR_ARROW : list Z :=
  let T := 0 in let W := 0xFFFFFFFF in let B := 0xFF000000 in
  [B; T; T; T; T; T; T; T; T; T; T; T; T; T; T; T;
   B; B; T; T; T; T; T; T; T; T; T; T; T; T; T; T;
   B; W; B; T; T; T; T; T; T; T; T; T; T; T; T; T;
   B; W; W; B; T; T; T; T; T; T; T; T; T; T; T; T;
   B; W; W; W; B; T; T; T; T; T; T; T; T; T; T; T;
   B; W; W; W; W; B; T; T; T; T; T; T; T; T; T; T;
   B; W; W; W; W; W; B; T; T; T; T; T; T; T; T; T;
   B; W; W; W; W; W; W; B; T; T; T; T; T; T; T; T;
   B; W; W; W; W; W; W; W; B; T; T; T; T; T; T; T;
   B; W; W; W; W; W; B; B; B; T; T; T; T; T; T; T;
   B; W; W; B; W; W; B; T; T; T; T; T; T; T; T; T;
   B; W; B; T; B; W; W; B; T; T; T; T; T; T; T; T;
   B; B; T; T; B; W; W; B; T; T; T; T; T; T; T; T;
   B; T; T; T; T; B; W; W; B; T; T; T; T; T; T; T;
   T; T; T; T; T; B; W; W; B; T; T; T; T; T; T; T;
   T; T; T; T; T; T; B; B; T; T; T; T; T; T; T; T].

Definition render_cursor (dst : list Z) (dst_w dst_h : Z) (c : comp) : option (list Z * option DamageRect) :=
  blit_alpha_premultiplied CURSOR_ARROW CURSOR_WIDTH CURSOR_HEIGHT dst dst_w dst_h (cursor_pos c).1 (cursor_pos c).2.
