(* ===== verification/RenderProps.v ===== *)
(** * RenderProps: composition pixel by pixel

    Every drawing operation is described by the pixels of the framebuffer it
    leaves: a blit shows the source where it covers the screen and the old
    picture elsewhere, a composed frame shows at each pixel the last surface
    that covers it, a filled rectangle and a title bar stay inside their
    bounds.  None of them indexes outside the framebuffer. *)

From S2P Require Import Prelude Input Compositor Windows Render.

(** The pixel at [(x, y)] of a picture of width [w]. *)
Definition px (d : list Z) (w x y : Z) : option Z := d.[y * w + x].

(** ** Slices *)

Lemma aget_copy_at (d v : list Z) off i : 0 <= off -> off + alen v <= alen d -> 0 <= i < alen d ->
  (copy_at d (Z.to_nat off) v).[i] = if (off <=? i) && (i <? off + alen v) then v.[i - off] else d.[i].
Proof.
  unfold aget, copy_at, alen. intros Hoff Hl Hi.
  destruct (Z.leb_spec off i), (Z.ltb_spec i (off + Z.of_nat (length v))); cbn [andb].
  - rewrite lookup_app_r, length_take by (rewrite length_take; lia). rewrite lookup_app_l by lia. f_equal. lia.
  - rewrite lookup_app_r, length_take by (rewrite length_take; lia). rewrite lookup_app_r, lookup_drop by lia. f_equal. lia.
  - rewrite lookup_app_l by (rewrite length_take; lia). rewrite lookup_take_lt by lia. done.
  - lia.
Qed.

(** Two pixels have the same index only if they are the same. *)
Lemma px_index w x y x' y' : 0 <= x < w -> 0 <= x' < w -> y * w + x = y' * w + x' -> x = x' /\ y = y'.
Proof. intros. assert (y = y') by nia. subst. lia. Qed.

Lemma px_range w h x y : 0 <= x < w -> 0 <= y < h -> 0 <= y * w + x < w * h.
Proof. nia. Qed.

Lemma put_row_px d v w h x0 y0 : alen d = w * h -> 0 <= x0 -> x0 + alen v <= w -> 0 <= y0 < h ->
  exists d', put_row (y0 * w + x0) v d = Some d' /\ alen d' = w * h /\
  forall x y, 0 <= x < w -> 0 <= y < h ->
    px d' w x y = if (y =? y0) && ((x0 <=? x) && (x <? x0 + alen v)) then v.[x - x0] else px d w x y.
Proof.
  intros Hd Hx0 Hv Hy0. pose proof (alen_nonneg v). assert (y0 * w + x0 + alen v <= alen d) by nia.
  assert (Hoff : 0 <= y0 * w + x0) by nia.
  unfold put_row. destruct (Z.leb_spec (y0 * w + x0 + alen v) (alen d)); [|lia]. eexists. split; [done|]. split.
  { unfold alen in *. rewrite length_copy_at; lia. }
  intros x y Hx Hy. unfold px. rewrite aget_copy_at by (try lia; rewrite Hd; by apply px_range).
  destruct (Z.eqb_spec y y0) as [->|Hne]; cbn [andb].
  - replace (y0 * w + x0 <=? y0 * w + x) with (x0 <=? x) by (apply eq_true_iff_eq; rewrite !Z.leb_le; lia).
    replace (y0 * w + x <? y0 * w + x0 + alen v) with (x <? x0 + alen v) by (apply eq_true_iff_eq; rewrite !Z.ltb_lt; lia).
    destruct (_ && _); [f_equal; lia|done].
  - destruct (Z.leb_spec (y0 * w + x0) (y * w + x)), (Z.ltb_spec (y * w + x) (y0 * w + x0 + alen v)); try done.
    exfalso. apply Hne. nia.
Qed.

Lemma put_px_px d v w h x0 y0 : alen d = w * h -> 0 <= x0 < w -> 0 <= y0 < h ->
  exists d', put_px (y0 * w + x0) v d = Some d' /\ alen d' = w * h /\
  forall x y, 0 <= x < w -> 0 <= y < h ->
    px d' w x y = if (y =? y0) && (x =? x0) then Some v else px d w x y.
Proof.
  intros Hd Hx0 Hy0. pose proof (px_range w h x0 y0 Hx0 Hy0). unfold put_px.
  destruct (Z.ltb_spec (y0 * w + x0) (alen d)); [|lia]. eexists. split; [done|]. split; [by rewrite alen_aset|].
  intros x y Hx Hy. unfold px. pose proof (px_range w h x y Hx Hy). destruct (Z.eqb_spec y y0) as [->|], (Z.eqb_spec x x0) as [->|]; cbn [andb].
  - apply aget_aset_eq. lia.
  - apply aget_aset_ne; lia.
  - apply aget_aset_ne; [lia|lia|]. intros E. apply (px_index w) in E; naive_solver.
  - apply aget_aset_ne; [lia|lia|]. intros E. apply (px_index w) in E; naive_solver.
Qed.

(** The invariant of a counting loop. *)
Lemma for_range_inv (P : Z -> list Z -> Prop) n first f d :
  P first d -> (forall i d, first <= i < first + Z.of_nat n -> P i d -> exists d', f i d = Some d' /\ P (i + 1) d') ->
  exists d', for_range n first f d = Some d' /\ P (first + Z.of_nat n) d'.
Proof.
  revert first d. induction n as [|n IH]; intros first d H0 Hs; cbn [for_range].
  { exists d. by rewrite Z.add_0_r. }
  destruct (Hs first d ltac:(lia) H0) as (d1 & -> & H1). cbn.
  destruct (IH (first + 1) d1 H1) as (d2 & -> & H2); [intros; apply Hs; [lia|done]|].
  exists d2. split; [done|]. by replace (first + Z.of_nat (S n)) with (first + 1 + Z.of_nat n) by lia.
Qed.

(** [d'] is [d] with [color] at the pixels where [inside] holds. *)
Definition paints (w h : Z) (d d' : list Z) (inside : Z -> Z -> bool) (color : Z -> Z -> option Z) : Prop :=
  alen d' = w * h /\
  forall x y, 0 <= x < w -> 0 <= y < h -> px d' w x y = if inside x y then color x y else px d w x y.

(** The point lies in the rectangle. *)
Definition in_rect (rx ry rw rh x y : Z) : bool :=
  (rx <=? x) && (x <? rx + rw) && ((ry <=? y) && (y <? ry + rh)).

Lemma in_rect_spec rx ry rw rh x y :
  in_rect rx ry rw rh x y = true <-> rx <= x < rx + rw /\ ry <= y < ry + rh.
Proof. unfold in_rect. rewrite !andb_true_iff, !Z.leb_le, !Z.ltb_lt. lia. Qed.

(** A rectangle one row taller. *)
Lemma in_rect_grow rx ry rw k x y : 0 <= k ->
  in_rect rx ry rw (k + 1) x y = ((y =? ry + k) && ((rx <=? x) && (x <? rx + rw))) || in_rect rx ry rw k x y.
Proof.
  intros Hk. unfold in_rect. destruct (Z.leb_spec rx x), (Z.ltb_spec x (rx + rw)), (Z.leb_spec ry y),
    (Z.ltb_spec y (ry + (k + 1))), (Z.ltb_spec y (ry + k)), (Z.eqb_spec y (ry + k)); cbn; lia.
Qed.

(** The clipped rectangle and the whole one agree on the screen. *)
Lemma in_rect_clip dx dy sw sh w h x y : 0 <= x < w -> 0 <= y < h ->
  in_rect (Z.max dx 0) (Z.max dy 0) (Z.min (dx + sw) w - Z.max dx 0) (Z.min (dy + sh) h - Z.max dy 0) x y = in_rect dx dy sw sh x y.
Proof. intros Hx Hy. apply eq_true_iff_eq. rewrite !in_rect_spec. lia. Qed.

Lemma paints_nothing w h d inside color : alen d = w * h ->
  (forall x y, 0 <= x < w -> 0 <= y < h -> inside x y = false) -> paints w h d d inside color.
Proof. intros Hd Hi. split; [done|]. intros x y Hx Hy. by rewrite Hi. Qed.

(** A screen of at most [2^31 - 1] pixels a side and its framebuffer. *)
Record screen (w h : Z) (d : list Z) : Prop := {
  sc_w : 0 < w < 2 ^ 31;
  sc_h : 0 < h < 2 ^ 31;
  sc_len : alen d = w * h
}.

Lemma clip_new_spec dx dy sw sh w h :
  0 < w < 2 ^ 31 -> 0 < h < 2 ^ 31 -> 0 <= sw < 2 ^ 31 -> 0 <= sh < 2 ^ 31 -> sint 32 dx -> sint 32 dy ->
  match clip_new dx dy sw sh w h with
  | None => forall x y, 0 <= x < w -> 0 <= y < h -> in_rect dx dy sw sh x y = false
  | Some c =>
      cl_dst_x c = Z.max dx 0 /\ cl_dst_y c = Z.max dy 0 /\
      cl_src_x c = cl_dst_x c - dx /\ cl_src_y c = cl_dst_y c - dy /\
      cl_copy_w c = Z.min (dx + sw) w - cl_dst_x c /\ cl_copy_h c = Z.min (dy + sh) h - cl_dst_y c /\
      0 < cl_copy_w c < 2 ^ 31 /\ 0 < cl_copy_h c < 2 ^ 31
  end.
Proof.
  unfold sint. change (2 ^ (32 - 1)) with 2147483648. change (2 ^ 31) with 2147483648. intros Hw Hh Hsw Hsh Hdx Hdy.
  unfold clip_new. destruct ((sw =? 0) || (sh =? 0)) eqn:E0.
  { intros x y Hx Hy. apply not_true_iff_false. rewrite in_rect_spec. lia. }
  cbn zeta. destruct ((Z.min (dx + sw) w <=? Z.max dx 0) || (Z.min (dy + sh) h <=? Z.max dy 0)) eqn:E1.
  { intros x y Hx Hy. apply not_true_iff_false. rewrite in_rect_spec. lia. }
  cbn. rewrite !as_signed_small by lia. rewrite !wrap_small by (unfold uint; lia). lia.
Qed.

Lemma get_slice_px src sw sh start n : sw * sh <= alen src -> 0 <= start -> 0 <= n -> start + n <= sw * sh ->
  exists v, get_slice start n src = Some v /\ alen v = n /\ forall i, 0 <= i < n -> v.[i] = src.[start + i].
Proof.
  intros Hs H0 Hn Hl. unfold get_slice. destruct (Z.leb_spec (start + n) (alen src)); [|lia].
  eexists. split; [done|]. split; [unfold alen in *; rewrite length_take, length_drop; lia|].
  intros i Hi. unfold aget. rewrite lookup_take_lt, lookup_drop by lia. f_equal. lia.
Qed.

(** An opaque blit never leaves its buffers, and the framebuffer then shows
    the source's pixel wherever the source rectangle covers the screen; the
    damage it reports is exactly the covered part of the screen. *)
Lemma blit_opaque_paints src sw sh d w h dx dy :
  screen w h d -> 0 <= sw < 2 ^ 31 -> 0 <= sh < 2 ^ 31 -> sw * sh <= alen src -> sint 32 dx -> sint 32 dy ->
  exists d' r, blit_opaque src sw sh d w h dx dy = Some (d', r) /\
  paints w h d d' (in_rect dx dy sw sh) (fun x y => px src sw (x - dx) (y - dy)) /\
  match r with
  | Some r => rect_ok r /\ forall x y, 0 <= x < w -> 0 <= y < h ->
                in_rect (dr_x r) (dr_y r) (dr_width r) (dr_height r) x y = in_rect dx dy sw sh x y
  | None => forall x y, 0 <= x < w -> 0 <= y < h -> in_rect dx dy sw sh x y = false
  end.
Proof.
  intros [Hw Hh Hd] Hsw Hsh Hs Hdx Hdy. unfold blit_opaque.
  pose proof (clip_new_spec dx dy sw sh w h Hw Hh Hsw Hsh Hdx Hdy) as Hc.
  destruct (clip_new dx dy sw sh w h) as [c|]; [|exists d, None; split; [done|]; split; [by apply paints_nothing|done]].
  destruct Hc as (Ex & Ey & Esx & Esy & Ew & Eh & Hcw & Hch). unfold sint in *.
  change (2 ^ (32 - 1)) with 2147483648 in *. change (2 ^ 31) with 2147483648 in *.
  rewrite (wrap_small 64 (cl_dst_y c)), (wrap_small 64 (cl_dst_x c)) by (unfold uint; lia).
  match goal with |- context [for_range _ 0 ?f d] => destruct (for_range_inv
    (fun row d' => paints w h d d' (in_rect (cl_dst_x c) (cl_dst_y c) (cl_copy_w c) row) (fun x y => px src sw (x - dx) (y - dy)))
    (Z.to_nat (cl_copy_h c)) 0 f d) as (d' & -> & Hp) end.
  - apply paints_nothing; [done|]. intros. apply not_true_iff_false. rewrite in_rect_spec. lia.
  - intros row d1 Hrow [Hl Hpx]. rewrite Z2Nat.id in Hrow by lia.
    destruct (get_slice_px src sw sh ((cl_src_y c + row) * sw + cl_src_x c) (cl_copy_w c)) as (v & -> & Hv & Hvi); [done|nia..|].
    cbn. destruct (put_row_px d1 v w h (cl_dst_x c) (cl_dst_y c + row)) as (d2 & -> & Hl2 & Hp2); [done|lia|lia|lia|].
    exists d2. split; [done|]. split; [done|]. intros x y Hx Hy. rewrite Hp2, Hpx, Hv, in_rect_grow by (done || lia).
    destruct (_ && _) eqn:Eb; [|done]. cbn [orb]. rewrite !andb_true_iff, Z.eqb_eq, Z.leb_le, Z.ltb_lt in Eb.
    rewrite Hvi by lia. unfold px. f_equal. nia.
  - exists d', (Some (clip_damage c)). split; [done|]. rewrite Z.add_0_l, Z2Nat.id in Hp by lia.
    rewrite Ew, Eh, Ex, Ey in Hp. split.
    + destruct Hp as [Hl Hp]. split; [done|]. intros x y Hx Hy. by rewrite Hp, in_rect_clip.
    + unfold clip_damage, rect_ok. cbn. rewrite !wrap_small by (unfold uint; lia). change (2 ^ 32) with 4294967296.
      split; [lia|]. intros x y Hx Hy. rewrite Ew, Eh, Ex, Ey. by apply in_rect_clip.
Qed.

(** ** The damage of a frame *)

Definition tracker_ok (t : DamageTracker) : Prop := forall b, dt_bounds t = Some b -> rect_ok b.
Definition damaged_at (t : DamageTracker) (x y : Z) : Prop :=
  dt_full t = true \/
  exists b, dt_bounds t = Some b /\ in_rect (dr_x b) (dr_y b) (dr_width b) (dr_height b) x y = true.

Lemma within_in_rect a b x y : within a b ->
  in_rect (dr_x a) (dr_y a) (dr_width a) (dr_height a) x y = true ->
  in_rect (dr_x b) (dr_y b) (dr_width b) (dr_height b) x y = true.
Proof. unfold within. rewrite !in_rect_spec. lia. Qed.

Lemma tracker_union_damage r t : rect_ok r -> tracker_ok t -> exists t',
  tracker_union r t = Some t' /\ tracker_ok t' /\
  (forall x y, damaged_at t x y -> damaged_at t' x y) /\
  (forall x y, in_rect (dr_x r) (dr_y r) (dr_width r) (dr_height r) x y = true -> damaged_at t' x y).
Proof.
  intros Hr Ht. unfold tracker_union. destruct (_ || _) eqn:E.
  { exists t. split_and!; [done..|]. intros x y Hin%in_rect_spec. lia. }
  destruct (dt_full t) eqn:Ef; [exists t; split_and!; [done..|]; intros; by left|].
  destruct (dt_bounds t) as [b|] eqn:Eb.
  - destruct (union_rect_ok b r (Ht _ Eb) Hr) as (c & -> & Hc & Hb & Hrc & _). cbn. eexists. split; [done|].
    split_and!; [by intros ? [= <-]|..].
    + intros x y [?|(b' & Hb' & Hin)]; [congruence|]. right. exists c. split; [done|].
      rewrite Eb in Hb'. injection Hb' as <-. exact (within_in_rect _ _ _ _ Hb Hin).
    + intros x y Hin. right. exists c. split; [done|]. exact (within_in_rect _ _ _ _ Hrc Hin).
  - eexists. split; [done|]. split_and!; [by intros ? [= <-]|..].
    + intros x y [?|(b' & Hb' & _)]; congruence.
    + intros x y Hin. right. by exists r.
Qed.

(** ** Composition *)

(** The pixels of a surface that takes part in the frame. *)
Definition frame_src (resolve : Surface -> option (list Z)) (s : Surface) : option (list Z) :=
  src ← resolve s;
  if (s_width s =? 0) || (s_height s =? 0) || (alen src <? s_width s * s_height s) then None else Some src.

(** What painting [s] over the pixel [p] at [(x, y)] shows. *)
Definition paint_over (resolve : Surface -> option (list Z)) (x y : Z) (p : option Z) (s : Surface) : option Z :=
  match frame_src resolve s with
  | Some src => if in_rect (s_x s) (s_y s) (s_width s) (s_height s) x y
                then px src (s_width s) (x - s_x s) (y - s_y s) else p
  | None => p
  end.

Definition covered_by (resolve : Surface -> option (list Z)) (x y : Z) (s : Surface) : Prop :=
  is_Some (frame_src resolve s) /\ in_rect (s_x s) (s_y s) (s_width s) (s_height s) x y = true.

Definition placed (s : Surface) : Prop :=
  sint 32 (s_x s) /\ sint 32 (s_y s) /\ 0 <= s_width s < 2 ^ 31 /\ 0 <= s_height s < 2 ^ 31.

(** One surface of the frame. *)
Lemma compose_step s rest w h resolve d t : screen w h d -> placed s -> tracker_ok t ->
  exists d1 t1, compose_surfaces (s :: rest) w h resolve d t = compose_surfaces rest w h resolve d1 t1 /\
  screen w h d1 /\ tracker_ok t1 /\
  (forall x y, 0 <= x < w -> 0 <= y < h -> px d1 w x y = paint_over resolve x y (px d w x y) s) /\
  (forall x y, damaged_at t x y -> damaged_at t1 x y) /\
  (forall x y, 0 <= x < w -> 0 <= y < h -> covered_by resolve x y s -> damaged_at t1 x y).
Proof.
  intros Hsc (Hx & Hy & Hw & Hh) Ht. cbn [compose_surfaces]. unfold paint_over, covered_by, frame_src.
  destruct (resolve s) as [src|]; cbn [mbind option_bind]; [|exists d, t; split_and!; try done; by intros x y _ _ [[? ?] _]].
  destruct ((s_width s =? 0) || (s_height s =? 0)); cbn [orb]; [exists d, t; split_and!; try done; by intros x y _ _ [[? ?] _]|].
  destruct (Z.ltb_spec (alen src) (s_width s * s_height s)); [exists d, t; split_and!; try done; by intros x y _ _ [[? ?] _]|].
  destruct (blit_opaque_paints src (s_width s) (s_height s) d w h (s_x s) (s_y s)) as (d1 & r & -> & [Hl1 Hp1] & Hr); [done..|].
  cbn [mbind option_bind]. assert (Hsc1 : screen w h d1) by (destruct Hsc; by split).
  destruct r as [r|].
  - destruct Hr as [Hr Hin]. destruct (tracker_union_damage r t Hr Ht) as (t1 & -> & Ht1 & Hm & Hc).
    exists d1, t1. cbn. split_and!; try done. intros x y Hx0 Hy0 [_ Hcov]. apply Hc. by rewrite Hin.
  - exists d1, t. cbn. split_and!; try done. intros x y Hx0 Hy0 [_ Hcov]. by rewrite Hr in Hcov.
Qed.

Lemma compose_surfaces_paints surfaces w h resolve d t :
  screen w h d -> Forall placed surfaces -> tracker_ok t ->
  exists d' t', compose_surfaces surfaces w h resolve d t = Some (d', t') /\ alen d' = w * h /\
  (forall x y, 0 <= x < w -> 0 <= y < h -> px d' w x y = foldl (paint_over resolve x y) (px d w x y) surfaces) /\
  (forall x y, damaged_at t x y -> damaged_at t' x y) /\
  (forall x y, 0 <= x < w -> 0 <= y < h -> Exists (covered_by resolve x y) surfaces -> damaged_at t' x y).
Proof.
  intros Hsc Hpl Ht. revert d t Hsc Ht. induction Hpl as [|s rest Hs _ IH]; intros d t Hsc Ht.
  { exists d, t. split_and!; [done|apply Hsc|done|done|]. intros x y _ _ H. by apply Exists_nil in H. }
  destruct (compose_step s rest w h resolve d t Hsc Hs Ht) as (d1 & t1 & -> & Hsc1 & Ht1 & Hp1 & Hm1 & Hc1).
  destruct (IH d1 t1 Hsc1 Ht1) as (d' & t' & E & H1 & H2 & H3 & H4). exists d', t'. split_and!; [done|done|..].
  - intros x y Hx Hy. by rewrite H2, Hp1.
  - intros x y ?. by apply H3, Hm1.
  - intros x y Hx Hy [Hc|Hr]%Exists_cons; [by apply H3, Hc1|by apply H4].
Qed.

(** C35: composing a frame is the painter's algorithm. For surfaces anywhere in the 32-bit plane it
    returns, and each pixel then shows the last surface of the list whose buffer covers it, or else
    the clear colour (or the old pixel when nothing is cleared); every pixel a surface covers is
    inside the reported damage, and a cleared frame is damaged as a whole. *)
Theorem compose_frame_painter d w h surfaces clear_first clear_color resolve :
  screen w h d -> Forall placed surfaces ->
  exists d' t, compose_frame d w h surfaces tracker_new clear_first clear_color resolve = Some (d', t) /\
  alen d' = w * h /\
  (forall x y, 0 <= x < w -> 0 <= y < h ->
     px d' w x y = foldl (paint_over resolve x y) (if clear_first then Some clear_color else px d w x y) surfaces) /\
  (forall x y, 0 <= x < w -> 0 <= y < h ->
     clear_first = true \/ Exists (covered_by resolve x y) surfaces -> damaged_at t x y).
Proof.
  intros Hsc Hpl. pose proof Hsc as [Hw Hh Hl]. unfold compose_frame.
  destruct (Z.eqb_spec w 0), (Z.eqb_spec h 0), (Z.eqb_spec (alen d) 0); try nia. cbn [orb].
  destruct clear_first.
  - destruct (compose_surfaces_paints surfaces w h resolve (replicate (length d) clear_color) (mark_full tracker_new))
      as (d' & t & E & H1 & H2 & H3 & H4); [|done|done|].
    { split; [done|done|]. unfold alen in *. by rewrite length_replicate. }
    exists d', t. split_and!; [done|done|..].
    + intros x y Hx Hy. rewrite H2 by done. f_equal. unfold px, aget. apply lookup_replicate_2.
      pose proof (px_range w h x y Hx Hy). unfold alen in *. lia.
    + intros x y Hx Hy _. apply H3. by left.
  - destruct (compose_surfaces_paints surfaces w h resolve d tracker_new) as (d' & t & E & H1 & H2 & H3 & H4); [done|done|done|].
    exists d', t. split_and!; [done|done|done|]. intros x y Hx Hy [?|?]; [done|by apply H4].
Qed.

Definition demo_placed (x y width height layer_seq : Z) : Surface :=
  {| s_id := layer_seq; s_state := Active; s_layer := Normal; s_title := title_from_bytes []; s_content_type := Generic;
     s_x := x; s_y := y; s_width := width; s_height := height; s_shmem_id := Some layer_seq; s_owner_pid := 1;
     s_channel := 1; s_layer_seq := layer_seq; s_damaged := true |}.
Definition demo_resolve (s : Surface) : option (list Z) := Some (array_of (s_width s * s_height s) (s_layer_seq s)).

(** Two overlapping surfaces, the first partly off the 4x3 screen. *)
Lemma compose_frame_painter_witness : exists d' t,
  compose_frame (array_of 12 7) 4 3 [demo_placed (-1) 0 3 2 1; demo_placed 1 1 2 2 2] tracker_new true 9 demo_resolve = Some (d', t) /\
  px d' 4 0 0 = Some 1 /\ px d' 4 1 1 = Some 2 /\ px d' 4 3 0 = Some 9 /\ damaged_at t 3 0.
Proof.
  destruct (compose_frame_painter (array_of 12 7) 4 3 [demo_placed (-1) 0 3 2 1; demo_placed 1 1 2 2 2] true 9 demo_resolve)
    as (d' & t & E & _ & Hp & Hd).
  - split; [lia|lia|reflexivity].
  - repeat constructor; cbn; unfold sint; lia.
  - exists d', t. split; [exact E|]. rewrite !Hp by lia. split_and!; [reflexivity..|]. apply Hd; [lia|lia|by left].
Defined.

(** ** Alpha blending *)

(** The byte of a pixel at bit [k]. *)
Definition chan (k v : Z) : Z := Z.land (Z.shiftr v k) 0xFF.

Lemma chan_byte k v : 0 <= v -> 0 <= chan k v < 256.
Proof.
  intros Hv. apply (uint_land 8); [by apply Z.shiftr_nonneg|]. unfold uint. lia.
Qed.

Lemma chan_value k v : 0 <= k -> chan k v = v / 2 ^ k mod 256.
Proof. intros. unfold chan. rewrite Z.shiftr_div_pow2 by lia. change 0xFF with (2 ^ 8 - 1). by rewrite land_ones_mod. Qed.

Lemma land_byte v : 0 <= v < 256 -> Z.land v 0xFF = v.
Proof. intros. change 0xFF with (2 ^ 8 - 1). rewrite land_ones_mod by lia. by apply Z.mod_small. Qed.

Lemma pack_value a r g b : 0 <= a < 256 -> 0 <= r < 256 -> 0 <= g < 256 -> 0 <= b < 256 ->
  Z.lor (Z.lor (Z.lor (Z.shiftl a 24) (Z.shiftl r 16)) (Z.shiftl g 8)) b = a * 2 ^ 24 + r * 2 ^ 16 + g * 2 ^ 8 + b.
Proof.
  intros Ha Hr Hg Hb.
  assert (E1 : Z.lor (Z.shiftl a 24) (Z.shiftl r 16) = Z.shiftl (Z.lor (Z.shiftl a 8) r) 16)
    by (rewrite Z.shiftl_lor, Z.shiftl_shiftl by lia; done).
  rewrite E1, (Z.lor_comm (Z.shiftl a 8)), (lor_byte r a) by lia.
  assert (E2 : Z.lor (Z.shiftl (r + 256 * a) 16) (Z.shiftl g 8) = Z.shiftl (Z.lor (Z.shiftl (r + 256 * a) 8) g) 8)
    by (rewrite Z.shiftl_lor, Z.shiftl_shiftl by lia; done).
  rewrite E2, (Z.lor_comm (Z.shiftl (r + 256 * a) 8)), (lor_byte g (r + 256 * a)) by lia.
  rewrite Z.lor_comm, lor_byte by lia. lia.
Qed.

(** A premultiplied pixel: no channel exceeds its alpha. *)
Definition premultiplied (v : Z) : Prop :=
  uint 32 v /\ chan 16 v <= chan 24 v /\ chan 8 v <= chan 24 v /\ chan 0 v <= chan 24 v.

Definition mix (src dst k : Z) : Z := chan k src + chan k dst * (255 - chan 24 src) / 256.

Lemma mix_byte src dst k : premultiplied src -> uint 32 dst -> In k [24; 16; 8; 0] -> 0 <= mix src dst k < 256.
Proof.
  intros (Hs & Hr & Hg & Hb) Hd Hk. pose proof (chan_byte k src ltac:(unfold uint in Hs; lia)) as B1.
  pose proof (chan_byte k dst ltac:(unfold uint in Hd; lia)) as B2. pose proof (chan_byte 24 src ltac:(unfold uint in Hs; lia)) as B3.
  assert (Hle : chan k src <= chan 24 src) by (cbn in Hk; destruct Hk as [<-|[<-|[<-|[<-|[]]]]]; lia).
  unfold mix. assert (0 <= chan k dst * (255 - chan 24 src) / 256 <= 255 - chan 24 src); [|lia].
  split; [apply Z.div_pos; nia|]. apply Z.div_le_upper_bound; nia.
Qed.

Lemma blend_value src dst : premultiplied src -> uint 32 dst ->
  blend_premultiplied src dst = mix src dst 24 * 2 ^ 24 + mix src dst 16 * 2 ^ 16 + mix src dst 8 * 2 ^ 8 + mix src dst 0.
Proof.
  intros Hs Hd. unfold blend_premultiplied. fold (chan 24 src) (chan 16 src) (chan 8 src) (chan 24 dst) (chan 16 dst) (chan 8 dst).
  assert (E0 : forall v, Z.land v 0xFF = chan 0 v) by (intros; unfold chan; by rewrite Z.shiftr_0_r).
  rewrite (E0 src), (E0 dst), !Z.shiftr_div_pow2 by lia. change (2 ^ 8) with 256.
  fold (mix src dst 24) (mix src dst 16) (mix src dst 8) (mix src dst 0).
  rewrite !land_byte by (apply mix_byte; [done|done|cbn; tauto]).
  apply pack_value; apply mix_byte; try done; cbn; tauto.
Qed.

Lemma chan_pack a r g b : 0 <= a < 256 -> 0 <= r < 256 -> 0 <= g < 256 -> 0 <= b < 256 ->
  let v := a * 2 ^ 24 + r * 2 ^ 16 + g * 2 ^ 8 + b in
  chan 24 v = a /\ chan 16 v = r /\ chan 8 v = g /\ chan 0 v = b.
Proof. intros. subst v. rewrite !chan_value by lia. split_and!; divlia. Qed.

Lemma paints_ext w h d d' i1 i2 color :
  (forall x y, 0 <= x < w -> 0 <= y < h -> i1 x y = i2 x y) -> paints w h d d' i1 color -> paints w h d d' i2 color.
Proof. intros Hi [Hl Hp]. split; [done|]. intros x y Hx Hy. by rewrite Hp, Hi. Qed.

(** One more pixel of a picture, read and written in place. *)
Lemma paint_pixel w h d d1 inside color x0 y0 v :
  paints w h d d1 inside color -> 0 <= x0 < w -> 0 <= y0 < h -> color x0 y0 = Some v ->
  exists d2, put_px (y0 * w + x0) v d1 = Some d2 /\
  paints w h d d2 (fun x y => inside x y || ((y =? y0) && (x =? x0))) color.
Proof.
  intros [Hl Hp] Hx0 Hy0 Hc. destruct (put_px_px d1 v w h x0 y0 Hl Hx0 Hy0) as (d2 & -> & Hl2 & Hp2).
  exists d2. split; [done|]. split; [done|]. intros x y Hx Hy. rewrite Hp2, Hp by done.
  destruct (Z.eqb_spec y y0) as [->|], (Z.eqb_spec x x0) as [->|]; cbn [andb]; rewrite ?orb_false_r; try done.
  by rewrite orb_true_r.
Qed.

Definition blended (src : list Z) (sw : Z) (d : list Z) (w dx dy x y : Z) : option Z :=
  s ← px src sw (x - dx) (y - dy); p ← px d w x y; Some (blend_premultiplied s p).

(** The inner loop of the alpha blit: one row of the covered part. *)
Lemma blend_row src sw sh d w h dx dy x0 y0 cw rows d1 :
  screen w h d -> sw * sh <= alen src -> 0 <= x0 -> 0 < cw -> x0 + cw <= w -> 0 <= rows -> 0 <= y0 -> y0 + rows < h ->
  dx <= x0 -> dy <= y0 -> x0 + cw <= dx + sw -> y0 + rows < dy + sh ->
  paints w h d d1 (in_rect x0 y0 cw rows) (blended src sw d w dx dy) ->
  exists d2, for_range (Z.to_nat cw) 0
    (fun col dst => src_px ← src.[(y0 + rows - dy) * sw + (x0 - dx) + col];
                    dst_px ← dst.[(y0 + rows) * w + x0 + col];
                    put_px ((y0 + rows) * w + x0 + col) (blend_premultiplied src_px dst_px) dst) d1 = Some d2 /\
  paints w h d d2 (in_rect x0 y0 cw (rows + 1)) (blended src sw d w dx dy).
Proof.
  intros [Hw Hh Hd] Hs Hx0 Hcw Hxw Hr Hy0 Hyh Hdx Hdy Hsx Hsy Hp1.
  destruct (for_range_inv (fun col d' => paints w h d d' (fun x y => in_rect x0 y0 cw rows x y || in_rect x0 (y0 + rows) col 1 x y)
      (blended src sw d w dx dy)) (Z.to_nat cw) 0
    (fun col dst => src_px ← src.[(y0 + rows - dy) * sw + (x0 - dx) + col];
                    dst_px ← dst.[(y0 + rows) * w + x0 + col];
                    put_px ((y0 + rows) * w + x0 + col) (blend_premultiplied src_px dst_px) dst) d1) as (d2 & -> & Hp2).
  - eapply paints_ext; [|exact Hp1]. intros x y _ _. replace (in_rect x0 (y0 + rows) 0 1 x y) with false; [by rewrite orb_false_r|].
    symmetry. apply not_true_iff_false. rewrite in_rect_spec. lia.
  - intros col d' Hcol Hp. rewrite Z2Nat.id in Hcol by lia.
    assert (Hnew : in_rect x0 y0 cw rows (x0 + col) (y0 + rows) || in_rect x0 (y0 + rows) col 1 (x0 + col) (y0 + rows) = false).
    { apply orb_false_iff. split; apply not_true_iff_false; rewrite in_rect_spec; lia. }
    destruct (aget_is_Some src ((y0 + rows - dy) * sw + (x0 - dx) + col)) as [sv Esv]; [nia|].
    destruct (aget_is_Some d ((y0 + rows) * w + (x0 + col))) as [dv Edv]; [rewrite Hd; apply px_range; lia|].
    assert (Edv' : d'.[(y0 + rows) * w + x0 + col] = Some dv).
    { pose proof (proj2 Hp (x0 + col) (y0 + rows) ltac:(lia) ltac:(lia)) as E. cbv beta in E. rewrite Hnew in E. unfold px in E.
      rewrite Edv in E. rewrite <-E. f_equal. lia. }
    rewrite Esv, Edv'. cbn. replace ((y0 + rows) * w + x0 + col) with ((y0 + rows) * w + (x0 + col)) by lia.
    destruct (paint_pixel _ _ _ _ _ _ (x0 + col) (y0 + rows) (blend_premultiplied sv dv) Hp) as (d3 & E3 & Hp3); [lia|lia| |].
    { unfold blended, px. rewrite Edv. replace ((y0 + rows - dy) * sw + (x0 + col - dx)) with ((y0 + rows - dy) * sw + (x0 - dx) + col) by lia.
      by rewrite Esv. }
    exists d3. split; [exact E3|]. eapply paints_ext; [|exact Hp3]. intros x y _ _. cbn beta.
    rewrite <-orb_assoc. f_equal. apply eq_true_iff_eq. rewrite orb_true_iff, andb_true_iff, !in_rect_spec, !Z.eqb_eq. lia.
  - exists d2. split; [done|]. eapply paints_ext; [|exact Hp2]. intros x y _ _. cbn beta. apply eq_true_iff_eq.
    rewrite orb_true_iff, !in_rect_spec. lia.
Qed.

Lemma blit_alpha_paints src sw sh d w h dx dy :
  screen w h d -> 0 <= sw < 2 ^ 31 -> 0 <= sh < 2 ^ 31 -> sw * sh <= alen src -> sint 32 dx -> sint 32 dy ->
  exists d' r, blit_alpha_premultiplied src sw sh d w h dx dy = Some (d', r) /\
  paints w h d d' (in_rect dx dy sw sh) (blended src sw d w dx dy).
Proof.
  intros Hsc Hsw Hsh Hs Hdx Hdy. pose proof Hsc as [Hw Hh Hd]. unfold blit_alpha_premultiplied.
  pose proof (clip_new_spec dx dy sw sh w h Hw Hh Hsw Hsh Hdx Hdy) as Hc.
  destruct (clip_new dx dy sw sh w h) as [c|]; [|exists d, None; split; [done|by apply paints_nothing]].
  destruct Hc as (Ex & Ey & Esx & Esy & Ew & Eh & Hcw & Hch). unfold sint in *.
  change (2 ^ (32 - 1)) with 2147483648 in *. change (2 ^ 31) with 2147483648 in *.
  rewrite (wrap_small 64 (cl_dst_y c)), (wrap_small 64 (cl_dst_x c)) by (unfold uint; lia).
  match goal with |- context [for_range _ 0 ?f d] => destruct (for_range_inv
    (fun row d' => 0 <= row /\ paints w h d d' (in_rect (cl_dst_x c) (cl_dst_y c) (cl_copy_w c) row) (blended src sw d w dx dy))
    (Z.to_nat (cl_copy_h c)) 0 f d) as (d' & -> & _ & Hp) end.
  - split; [done|]. apply paints_nothing; [done|]. intros. apply not_true_iff_false. rewrite in_rect_spec. lia.
  - intros row d1 Hrow [Hr0 Hp]. rewrite Z2Nat.id in Hrow by lia.
    destruct (blend_row src sw sh d w h dx dy (cl_dst_x c) (cl_dst_y c) (cl_copy_w c) row d1) as (d2 & E & Hp2); try lia; try done.
    exists d2. split; [|split; [lia|done]]. rewrite Esx, Esy.
    replace (cl_dst_y c - dy + row) with (cl_dst_y c + row - dy) by lia. exact E.
  - exists d', (Some (clip_damage c)). split; [done|]. rewrite Z.add_0_l, Z2Nat.id in Hp by lia.
    rewrite Ew, Eh, Ex, Ey in Hp. eapply paints_ext; [|exact Hp]. intros x y Hx Hy. by apply in_rect_clip.
Qed.

(** Each channel of a pixel one level down (zero stays). *)
Definition darken (p : Z) : Z :=
  Z.max 0 (chan 24 p - 1) * 2 ^ 24 + Z.max 0 (chan 16 p - 1) * 2 ^ 16 + Z.max 0 (chan 8 p - 1) * 2 ^ 8 + Z.max 0 (chan 0 p - 1).

Lemma mix_transparent p k : uint 32 p -> mix 0 p k = Z.max 0 (chan k p - 1).
Proof.
  intros Hp. unfold uint in Hp. pose proof (chan_byte k p ltac:(lia)). unfold mix.
  replace (chan k 0) with 0 by (unfold chan; by rewrite Z.shiftr_0_l). change (chan 24 0) with 0.
  destruct (Z.eq_dec (chan k p) 0) as [->|]; [done|]. rewrite Z.max_r by lia. divlia.
Qed.

Lemma blend_transparent p : uint 32 p -> blend_premultiplied 0 p = darken p.
Proof. intros Hp. rewrite blend_value by done. unfold darken. by rewrite !mix_transparent. Qed.

Lemma mix_opaque s p k : chan 24 s = 255 -> mix s p k = chan k s.
Proof. intros Hs. unfold mix. rewrite Hs, Z.mul_0_r, Z.add_0_r. done. Qed.

Lemma chan_recompose v : uint 32 v -> chan 24 v * 2 ^ 24 + chan 16 v * 2 ^ 16 + chan 8 v * 2 ^ 8 + chan 0 v = v.
Proof. unfold uint. intros Hv. rewrite !chan_value by lia. divlia. Qed.

Lemma blend_opaque s p : premultiplied s -> chan 24 s = 255 -> uint 32 p -> blend_premultiplied s p = s.
Proof. intros Hs Ha Hp. rewrite blend_value, !mix_opaque by done. apply chan_recompose, Hs. Qed.

(** What the cursor leaves of a pixel [p] under the sprite pixel [s]. *)
Definition under_cursor (s p : Z) : Z := if s =? 0 then darken p else s.

Lemma sprite_pixels i s : CURSOR_ARROW !! i = Some s -> s = 0 \/ premultiplied s /\ chan 24 s = 255.
Proof.
  assert (H : Forall (fun s => s = 0 \/ s = 0xFFFFFFFF \/ s = 0xFF000000) CURSOR_ARROW)
    by (repeat (constructor; [auto|]); constructor).
  intros Hi. eapply Forall_lookup_1 in Hi; [|exact H]. destruct Hi as [->|[->| ->]]; [by left|right..];
    (split; [|done]; split; [unfold uint; lia|done]).
Qed.

(** the cursor is drawn last and stays inside its 16x16 square: an opaque pixel of the arrow
    replaces the screen's, pixels outside the square are untouched; but a transparent pixel of the
    sprite does not leave the screen as it is: it lowers every non-zero channel by one. *)
Theorem cursor_drawn_exact c d w h :
  screen w h d -> Forall (uint 32) d -> sint 32 (cursor_pos c).1 -> sint 32 (cursor_pos c).2 ->
  exists d' r, render_cursor d w h c = Some (d', r) /\ alen d' = w * h /\
  forall x y p, 0 <= x < w -> 0 <= y < h -> px d w x y = Some p ->
    px d' w x y = Some (if in_rect (cursor_pos c).1 (cursor_pos c).2 16 16 x y
                        then from_option (fun s => under_cursor s p) p (px CURSOR_ARROW 16 (x - (cursor_pos c).1) (y - (cursor_pos c).2))
                        else p).
Proof.
  intros Hsc Hd Hx Hy. destruct (cursor_pos c) as [cx cy] eqn:Ec. cbn [fst snd] in *.
  destruct (blit_alpha_paints CURSOR_ARROW 16 16 d w h cx cy Hsc) as (d' & r & E & Hl & Hp); [lia|lia|done|done|done|].
  exists d', r. split; [unfold render_cursor; rewrite Ec; exact E|]. split; [done|]. intros x y p Hx0 Hy0 Hpx. rewrite Hp by done.
  destruct (in_rect cx cy 16 16 x y) eqn:Ei; [|done]. apply in_rect_spec in Ei. unfold blended. rewrite Hpx.
  destruct (aget_is_Some CURSOR_ARROW ((y - cy) * 16 + (x - cx))) as [s Es]; [change (alen CURSOR_ARROW) with 256; nia|].
  unfold px at 1 2. rewrite Es. cbn. f_equal. assert (Hup : uint 32 p).
  { unfold px, aget in Hpx. by eapply Forall_lookup_1 in Hpx. }
  unfold under_cursor. destruct (sprite_pixels _ _ Es) as [->|[Hs Ha]]; [by apply blend_transparent|].
  destruct (Z.eqb_spec s 0) as [->|]; [done|]. by apply blend_opaque.
Qed.

Lemma cursor_drawn_exact_witness : exists d' r,
  render_cursor (array_of 480000 0xFF102030) 800 600 (comp_boot None) = Some (d', r) /\
  px d' 800 401 300 = Some 0xFE0F1F2F.
Proof.
  destruct (cursor_drawn_exact (comp_boot None) (array_of 480000 0xFF102030) 800 600) as (d' & r & E & _ & Hp).
  - split; [lia|lia|]. apply alen_array_of. lia.
  - unfold array_of. apply Forall_replicate. unfold uint. lia.
  - unfold sint. cbn. lia.
  - unfold sint. cbn. lia.
  - exists d', r. split; [exact E|]. rewrite (Hp 401 300 0xFF102030); [reflexivity|lia|lia|]. apply aget_array_of. lia.
Defined.

(** ** Decorations *)

(** [d'] differs from [d] only where [inside] holds. *)
Definition changes (w h : Z) (d d' : list Z) (inside : Z -> Z -> bool) : Prop :=
  alen d' = w * h /\ forall x y, 0 <= x < w -> 0 <= y < h -> inside x y = false -> px d' w x y = px d w x y.

Lemma changes_refl w h d inside : alen d = w * h -> changes w h d d inside.
Proof. done. Qed.
Lemma changes_trans w h d1 d2 d3 inside : changes w h d1 d2 inside -> changes w h d2 d3 inside -> changes w h d1 d3 inside.
Proof. intros [_ H1] [Hl H2]. split; [done|]. intros x y Hx Hy Hi. by rewrite H2, H1. Qed.
Lemma paints_changes w h d d' inside color : paints w h d d' inside color -> changes w h d d' inside.
Proof. intros [Hl Hp]. split; [done|]. intros x y Hx Hy Hi. by rewrite Hp, Hi. Qed.
Lemma changes_mono w h d d' i1 i2 :
  (forall x y, i1 x y = true -> i2 x y = true) -> changes w h d d' i1 -> changes w h d d' i2.
Proof.
  intros Hi [Hl Hp]. split; [done|]. intros x y Hx Hy H2. apply Hp; [done|done|].
  destruct (i1 x y) eqn:E; [|done]. apply Hi in E. congruence.
Qed.
Lemma changes_screen w h d d' inside : screen w h d -> changes w h d d' inside -> screen w h d'.
Proof. intros [? ? ?] [? _]. by split. Qed.

Lemma clamp_saturated a w : w < 2147483648 ->
  Z.min (Z.max (Z.max (- 2147483648) (Z.min a (2147483648 - 1))) 0) w = Z.min (Z.max a 0) w.
Proof. lia. Qed.

Lemma fill_rect_paints d w h x y rw rh color :
  screen w h d -> sint 32 x -> sint 32 y -> 0 <= rw < 2 ^ 31 -> 0 <= rh < 2 ^ 31 ->
  exists d', fill_rect d w h x y rw rh color = Some d' /\ paints w h d d' (in_rect x y rw rh) (fun _ _ => Some color).
Proof.
  intros [Hw Hh Hd] Hx Hy Hrw Hrh. unfold fill_rect, saturating_add_i32, sint in *.
  change (2 ^ (32 - 1)) with 2147483648 in *. change (2 ^ 31) with 2147483648 in *.
  assert (Hnone : (forall x' y', 0 <= x' < w -> 0 <= y' < h -> in_rect x y rw rh x' y' = false) ->
    exists d', Some d = Some d' /\ paints w h d d' (in_rect x y rw rh) (fun _ _ => Some color))
    by (intros; exists d; split; [done|by apply paints_nothing]).
  destruct ((rw =? 0) || (rh =? 0)) eqn:E0.
  { apply Hnone. intros x' y' _ _. apply not_true_iff_false. rewrite in_rect_spec. lia. }
  rewrite !as_signed_small by lia.
  rewrite !clamp_saturated by lia.
  remember (Z.min (Z.max x 0) w) as x0 eqn:Ex0. remember (Z.min (Z.max y 0) h) as y0 eqn:Ey0.
  remember (Z.min (Z.max (x + rw) 0) w) as x1 eqn:Ex1. remember (Z.min (Z.max (y + rh) 0) h) as y1 eqn:Ey1.
  destruct ((x1 <=? x0) || (y1 <=? y0)) eqn:E1.
  { apply Hnone. intros x' y' ? ?. apply not_true_iff_false. rewrite in_rect_spec. lia. }
  rewrite !wrap_small by (unfold uint; lia).
  destruct (for_range_inv (fun row d' => y0 <= row /\ paints w h d d' (in_rect x0 y0 (x1 - x0) (row - y0)) (fun _ _ => Some color))
    (Z.to_nat (y1 - y0)) y0 (fun row dst => put_row (row * w + x0) (array_of (x1 - x0) color) dst) d) as (d' & -> & _ & Hp).
  - split; [lia|]. apply paints_nothing; [done|]. intros. apply not_true_iff_false. rewrite in_rect_spec. lia.
  - intros row d1 Hrow [Hr0 [Hl Hp]]. rewrite Z2Nat.id in Hrow by lia.
    destruct (put_row_px d1 (array_of (x1 - x0) color) w h x0 row) as (d2 & -> & Hl2 & Hp2);
      [done|lia|rewrite alen_array_of; lia|lia|].
    exists d2. split; [done|]. split; [lia|]. split; [done|]. intros x' y' Hx' Hy'. rewrite Hp2, Hp, alen_array_of by (done || lia).
    replace (row + 1 - y0) with (row - y0 + 1) by lia. rewrite in_rect_grow by lia. replace (y0 + (row - y0)) with row by lia.
    destruct (_ && _) eqn:Eb; [|done]. cbn [orb]. rewrite !andb_true_iff, Z.eqb_eq, Z.leb_le, Z.ltb_lt in Eb.
    apply aget_array_of. lia.
  - exists d'. split; [done|]. eapply paints_ext; [|exact Hp]. intros x' y' ? ?. apply eq_true_iff_eq. rewrite !in_rect_spec. lia.
Qed.

(** A pixel write inside the region. *)
Lemma put_px_changes w h d inside x0 y0 v :
  alen d = w * h -> 0 <= x0 < w -> 0 <= y0 < h -> inside x0 y0 = true ->
  exists d', put_px (y0 * w + x0) v d = Some d' /\ changes w h d d' inside.
Proof.
  intros Hd Hx0 Hy0 Hin. destruct (put_px_px d v w h x0 y0 Hd Hx0 Hy0) as (d' & -> & Hl & Hp).
  exists d'. split; [done|]. split; [done|]. intros x y Hx Hy Hi. rewrite Hp by done.
  destruct (Z.eqb_spec y y0) as [->|], (Z.eqb_spec x x0) as [->|]; try done. cbn. congruence.
Qed.

Definition near (n : Z) : Prop := - 2 ^ 29 <= n <= 2 ^ 29.

Lemma near_i32 n : near n -> i32v n = Some n.
Proof. unfold near. intros. apply i32v_in. unfold sint. lia. Qed.

Section text.
Context (glyph : list Z -> option (list (list bool))).

Lemma glyph_cols_changes cols col py gx max_x w h fg bg d :
  screen w h d -> 0 <= py < h -> 0 <= col -> near gx -> near (gx + col + alen cols) ->
  exists d', glyph_cols cols col py gx max_x w fg bg d = Some d' /\ changes w h d d' (in_rect gx py (max_x - gx) 1).
Proof.
  revert col d. induction cols as [|b cols IH]; intros col d Hsc Hpy Hcol Hgx Hlen; cbn [glyph_cols].
  { exists d. split; [done|]. apply changes_refl, Hsc. }
  rewrite alen_cons in Hlen. pose proof (alen_nonneg cols). unfold near in *. rewrite near_i32 by (unfold near; lia). cbn [mbind option_bind].
  pose proof Hsc as [Hw Hh Hl]. rewrite as_signed_small by lia.
  destruct (Z.ltb_spec (gx + col) 0); [apply IH; try done; lia|].
  destruct ((gx + col >=? max_x) || (gx + col >=? w)) eqn:E; [exists d; split; [done|by apply changes_refl]|].
  destruct (put_px_changes w h d (in_rect gx py (max_x - gx) 1) (gx + col) py (if b then fg else bg)) as (d1 & -> & Hc1);
    [done|lia|done|apply in_rect_spec; lia|]. cbn [mbind option_bind].
  destruct (IH (col + 1) d1) as (d2 & -> & Hc2); [by eapply changes_screen|done|lia|done|lia|].
  exists d2. split; [done|]. by eapply changes_trans.
Qed.

Definition small_glyph (g : list (list bool)) : Prop := alen g <= 16 /\ Forall (fun cols => alen cols <= 64) g.

Lemma glyph_rows_changes rows row gx gy max_x w h fg bg d :
  screen w h d -> 0 <= row -> row + alen rows <= 16 -> Forall (fun cols => alen cols <= 64) rows ->
  near gx -> near gy -> near (gx + 64) -> near (gy + 16) ->
  exists d', glyph_rows rows row gx gy max_x w h fg bg d = Some d' /\ changes w h d d' (in_rect gx gy (max_x - gx) 16).
Proof.
  revert row d. induction rows as [|cols rows IH]; intros row d Hsc Hr Hlen Hall Hgx Hgy Hgx' Hgy'; cbn [glyph_rows].
  { exists d. split; [done|]. apply changes_refl, Hsc. }
  rewrite alen_cons in Hlen. apply Forall_cons in Hall as [Hc Hall]. pose proof (alen_nonneg rows). unfold near in *.
  rewrite near_i32 by (unfold near; lia). cbn [mbind option_bind]. pose proof Hsc as [Hw Hh Hl]. rewrite as_signed_small by lia.
  destruct (Z.ltb_spec (gy + row) 0); [apply IH; try done; lia|].
  destruct (Z.geb_spec (gy + row) h); [exists d; split; [done|by apply changes_refl]|].
  pose proof (alen_nonneg cols).
  destruct (glyph_cols_changes cols 0 (gy + row) gx max_x w h fg bg d) as (d1 & -> & Hc1); [done|lia|lia|done|unfold near; lia|].
  cbn [mbind option_bind]. destruct (IH (row + 1) d1) as (d2 & -> & Hc2); [by eapply changes_screen|lia|lia|done|done|done|done|done|].
  exists d2. split; [done|]. eapply changes_trans; [|exact Hc2]. eapply changes_mono; [|exact Hc1].
  intros x y. rewrite !in_rect_spec. lia.
Qed.

Context (Hglyph : forall c g, glyph c = Some g -> small_glyph g).

Lemma draw_text_changes text x0 x start_y max_x w h fg bg d :
  screen w h d -> near x -> near start_y -> near (start_y + 16) -> near (max_x + 64) -> x0 <= x -> near x0 ->
  exists d', draw_text_clipped glyph d w h x start_y max_x text fg bg = Some d' /\
  changes w h d d' (in_rect x0 start_y (max_x - x0) 16).
Proof using Hglyph.
  revert x d. induction text as [|b text IH]; intros x d Hsc Hx Hy Hy' Hm Hx0 Hnx; cbn [draw_text_clipped].
  { exists d. split; [done|]. apply changes_refl, Hsc. }
  unfold TITLE_GLYPH_WIDTH, near in *. rewrite i32v_in by (unfold sint; lia). cbn [mbind option_bind].
  destruct (Z.gtb_spec (x + 8) max_x); [exists d; split; [done|apply changes_refl, Hsc]|].
  assert (Hg : exists d1, blit_glyph glyph d w h x start_y max_x (if b <? 128 then b else QUESTION_MARK) fg bg = Some d1 /\
    changes w h d d1 (in_rect x0 start_y (max_x - x0) 16)).
  { assert (Hrows : forall g, small_glyph g -> exists d1, glyph_rows g 0 x start_y max_x w h fg bg d = Some d1 /\
      changes w h d d1 (in_rect x0 start_y (max_x - x0) 16)).
    { intros g [Hg1 Hg2]. destruct (glyph_rows_changes g 0 x start_y max_x w h fg bg d) as (d1 & E & Hc);
        [done|lia|lia|done|unfold near; lia..|]. exists d1. split; [done|]. eapply changes_mono; [|exact Hc].
      intros x' y'. rewrite !in_rect_spec. lia. }
    unfold blit_glyph. destruct (glyph [_]) as [g|] eqn:E1; [by eapply Hrows, Hglyph|].
    destruct (glyph [QUESTION_MARK]) as [g|] eqn:E2; [by eapply Hrows, Hglyph|].
    exists d. split; [done|]. apply changes_refl, Hsc. }
  destruct Hg as (d1 & -> & Hc1). cbn [mbind option_bind].
  destruct (IH (x + 8) d1) as (d2 & -> & Hc2); [by eapply changes_screen|lia..|].
  exists d2. split; [done|]. by eapply changes_trans.
Qed.

Lemma close_glyph_changes d w h cx cy color :
  screen w h d -> near cx -> near cy ->
  exists d', draw_close_glyph d w h cx cy 24 24 color = Some d' /\ changes w h d d' (in_rect cx cy 24 24).
Proof.
  intros Hsc Hx Hy. pose proof Hsc as [Hw Hh Hl]. unfold draw_close_glyph, near in *.
  change (as_signed 32 (Z.max (Z.min 24 24 / 4) 2)) with 6. change (as_signed 32 24 - 2 * 6) with 12.
  change (i32v 12) with (Some 12). cbn [mbind option_bind]. change ((12 <=? 0) || (12 <=? 0)) with false. cbv iota.
  change (Z.min 12 12) with 12.
  match goal with |- context [for_range _ 0 ?f d] => destruct (for_range_inv
    (fun _ d' => changes w h d d' (in_rect cx cy 24 24)) (Z.to_nat 12) 0 f d) as (d' & E & Hp) end.
  - by apply changes_refl.
  - intros i d1 Hi Hc. change (0 + Z.of_nat (Z.to_nat 12)) with 12 in Hi.
    rewrite !i32v_in by (unfold sint; lia). cbn [mbind option_bind].
    assert (Hput : forall d2 x y, changes w h d d2 (in_rect cx cy 24 24) -> cx <= x < cx + 24 -> cy <= y < cy + 24 ->
      exists d3, (if on_screen x y w h then put_px (y * w + x) color d2 else Some d2) = Some d3 /\ changes w h d d3 (in_rect cx cy 24 24)).
    { intros d2 x y Hc2 Hx2 Hy2. unfold on_screen. rewrite !as_signed_small by lia.
      destruct ((0 <=? x) && (x <? w) && ((0 <=? y) && (y <? h))) eqn:Eo; [|eauto].
      destruct (put_px_changes w h d2 (in_rect cx cy 24 24) x y color) as (d3 & -> & Hc3); [apply Hc2|lia|lia|apply in_rect_spec; lia|].
      exists d3. split; [done|]. by eapply changes_trans. }
    destruct (Hput d1 (cx + 6 + i) (cy + 6 + i) Hc ltac:(lia) ltac:(lia)) as (d2 & -> & Hc2). cbn [mbind option_bind].
    apply Hput; [done|lia|lia].
  - exists d'. by split.
Qed.

(** drawing a window's title bar never indexes outside the framebuffer and changes only the
    pixels of the bar itself (the 24 rows under the top border, as wide as the decorated window),
    wherever the window is (if it is at least 23 pixels wide), whatever the title's bytes, and however wide the font's glyphs are (64
    columns at most), as long as they have at most 16 rows. *)
Theorem title_bar_contained d w h x y content_width focused title :
  screen w h d -> - 2 ^ 28 <= x <= 2 ^ 28 -> - 2 ^ 28 <= y <= 2 ^ 28 -> 23 <= content_width <= 2 ^ 27 ->
  exists d', render_title_bar glyph d w h x y content_width focused title DEFAULT_DECO = Some d' /\
  changes w h d d' (in_rect x (y + 1) (content_width + 2) 24).
Proof using Hglyph.
  intros Hsc Hx Hy Hc. pose proof Hsc as [Hw Hh Hl]. change (2 ^ 28) with 268435456 in *. change (2 ^ 27) with 134217728 in *.
  assert (Hn : forall n, -536870912 <= n <= 536870912 -> i32v n = Some n) by (intros; apply near_i32; unfold near; lia).
  unfold render_title_bar, DEFAULT_DECO. cbv zeta. cbn [border_width title_bar_height close_button_width].
  change (u32v (2 * 1)) with (Some 2). cbn [mbind option_bind]. rewrite u32v_in by (unfold uint; lia). cbn [mbind option_bind].
  change (as_signed 32 1) with 1. change (as_signed 32 24) with 24. change (Z.quot 24 2) with 12.
  rewrite (Hn (y + 1)) by lia. cbn [mbind option_bind].
  destruct (fill_rect_paints d w h x (y + 1) (content_width + 2) 24 (if focused then TITLE_BAR_FOCUSED_BG else TITLE_BAR_UNFOCUSED_BG))
    as (d1 & -> & Hp1%paints_changes); [done|unfold sint; lia..|]. cbn [mbind option_bind].
  rewrite as_signed_small by lia. repeat (rewrite ?Hn by lia; cbn [mbind option_bind]).
  assert (Hsc1 : screen w h d1) by (by eapply changes_screen). set (bar := in_rect x (y + 1) (content_width + 2) 24) in *.
  match goal with |- context [draw_text_clipped glyph d1 w h ?tx ?ty ?mx title ?fg ?bg] => set (text_x := tx); set (text_y := ty); set (max_x := mx);
    assert (Ht : exists d2, (if max_x >? text_x then draw_text_clipped glyph d1 w h text_x text_y max_x title fg bg else Some d1) = Some d2 /\
      changes w h d1 d2 bar) end.
  { destruct (Z.gtb_spec max_x text_x); [|exists d1; split; [done|apply changes_refl, Hsc1]].
    match goal with |- context [draw_text_clipped _ _ _ _ _ _ _ _ ?fg ?bg] =>
      destruct (draw_text_changes title text_x text_x text_y max_x w h fg bg d1) as (d2 & E & Hc2) end;
      [done|unfold near; subst text_x text_y max_x; lia..|]. exists d2. split; [done|].
    eapply changes_mono; [|exact Hc2]. intros x' y'. subst bar text_x text_y max_x. rewrite !in_rect_spec. lia. }
  destruct Ht as (d2 & -> & Hc2). cbn [mbind option_bind].
  match goal with |- context [draw_close_glyph d2 w h ?cx ?cy 24 24 ?col] =>
    destruct (close_glyph_changes d2 w h cx cy col) as (d3 & -> & Hc3) end; [by eapply changes_screen|unfold near; lia..|].
  exists d3. split; [done|]. eapply changes_trans; [exact Hp1|]. eapply changes_trans; [exact Hc2|].
  eapply changes_mono; [|exact Hc3]. intros x' y'. subst bar. rewrite !in_rect_spec. lia.
Qed.
End text.

(** A font of one glyph, eight pixels by sixteen. *)
Definition demo_font (bytes : list Z) : option (list (list bool)) := Some (replicate 16 (replicate 8 true)).

Lemma title_bar_contained_witness : exists d',
  render_title_bar demo_font (array_of 480000 0) 800 600 (-20) (-10) 300 true [65; 200] DEFAULT_DECO = Some d' /\
  changes 800 600 (array_of 480000 0) d' (in_rect (-20) (-9) 302 24).
Proof.
  apply (title_bar_contained demo_font).
  - intros c g Hg. injection Hg as <-. split; [done|]. by repeat constructor.
  - split; [lia|lia|]. apply alen_array_of. lia.
  - lia.
  - lia.
  - lia.
Defined.
