(* ===== verification/Act.v ===== *)
(** * Kernel code as a sequence of critical sections

    A kernel function that several CPUs run at once is an [act]: a tree of
    critical sections.  A section ([Sec]) runs with a lock held and is one
    step: between two sections any other task may run any section of its own.
    What an interrupt does in the middle of a section on the same CPU is not
    part of this model; the lock code itself, with the interrupts that
    re-enter it, is the subject of [IrqLock] and [LockMachine].

    A section reads its environment: the CPU it runs on ([core_id()]),
    whether a [try_lock] finds its lock taken, the counter registers, the
    registers a context switch saves, and what TTBR0 lets the CPU reach below
    [USER_VA_LIMIT].  [None] is a panic (an index out of range, a failed
    assertion) or an access outside the model's memory.

    A thread that has been switched out waits at an [Await] until a CPU
    dispatches it again.  At a [Stop] nothing follows: the CPU has taken a
    fault that halts it, or it has gone over to a thread without saving the
    context it came from.

    Two semantics: [exec] (and [run], its result) executes an [act] alone;
    [pool_step] interleaves the sections of any number of tasks in any order.
    The tasks are not bound to CPUs, so a pool has at least the schedules
    that the hardware can produce.

    [safe] is the program logic for the second one: a task keeps an
    invariant [I] of the shared state at each section, never panics, and each
    of its sections relates the states before and after by [G].  [I] is also
    given the resources ([R], for instance memory blocks) that tasks own
    privately between two sections; a section acts on the resources of its own
    task and leaves those of the others alone. *)

From S2P Require Import Prelude.

(** What [save_context] stores: [x19] to [x30] and the stack pointer.  The
    link register [x30] is also the saved program counter. *)
Record cpu_regs := mk_regs { callee_saved : list Z; reg_sp : Z; reg_lr : Z }.

Record env := mk_env {
  core_id : Z;
  lock_busy : bool;
  cntvct : Z;
  cntfrq : Z;
  cpu_saved : cpu_regs;
  user_ttbr0 : bool;
  user_access : bool -> Z -> bool
}.

(** What the hardware and the caller guarantee of the environment.  A call
    leaves a return address in the link register.  [env_ttbr0] is the
    precondition of kernel/src/syscall/user.rs: TTBR0 holds nothing but user
    mappings of the calling process, so that a user address never reaches
    kernel memory.  [user_access w a] says whether the byte at the user
    address [a] may be read ([w = false]) or written ([w = true]); nothing is
    assumed of it. *)
Definition MAX_CORES : Z := 8.
Record env_ok (e : env) : Prop := {
  env_cpu : 0 <= core_id e < MAX_CORES;
  env_cntvct : uint 64 (cntvct e);
  env_cntfrq : uint 64 (cntfrq e);
  env_lr : 0 < reg_lr (cpu_saved e);
  env_ttbr0 : user_ttbr0 e = true
}.

Section act.
Context {S : Type}.

Definition sec (B : Type) : Type := env -> S -> option (S * B).

Inductive act (A : Type) : Type :=
| Ret (a : A)
| Sec (B : Type) (f : sec B) (c : B -> act A)
| Await (g : env -> S -> bool) (m : act A)
| Stop.
Arguments Ret {A} _.
Arguments Sec {A B} _ _.
Arguments Await {A} _ _.
Arguments Stop {A}.

Fixpoint abind {A B} (m : act A) (g : A -> act B) : act B :=
  match m with
  | Ret a => g a
  | Sec f c => Sec f (fun b => abind (c b) g)
  | Await w m' => Await w (abind m' g)
  | Stop => Stop
  end.

(** [let a = m?; g(a)] *)
Definition abind_ok {E A B} (m : act (result E A)) (g : A -> act (result E B)) : act (result E B) :=
  abind m (fun r => match r with Ok a => g a | Err e => Ret (Err e) end).

(** One critical section. *)
Definition atomic {B} (f : sec B) : act B := Sec f Ret.
(** A section that only reads. *)
Definition reads {B} (f : S -> B) : act B := atomic (fun _ s => Some (s, f s)).
(** A section that reads and may panic. *)
Definition reads_opt {B} (f : S -> option B) : act B :=
  atomic (fun _ s => b ← f s; Some (s, b)).
(** A section that updates the state. *)
Definition updates (f : S -> S) : act unit := atomic (fun _ s => Some (f s, tt)).
Definition updates_opt (f : S -> option S) : act unit := atomic (fun _ s => s' ← f s; Some (s', tt)).
Definition here : act Z := atomic (fun e s => Some (s, core_id e)).

(** A [for] loop over a list, in order. *)
Fixpoint afor {X} (xs : list X) (body : X -> act unit) : act unit :=
  match xs with
  | [] => Ret tt
  | x :: xs' => abind (body x) (fun _ => afor xs' body)
  end.

(** A loop that stops at the first error. *)
Fixpoint afor_ok {E X} (xs : list X) (body : X -> act (result E unit)) : act (result E unit) :=
  match xs with
  | [] => Ret (Ok tt)
  | x :: xs' => abind_ok (body x) (fun _ => afor_ok xs' body)
  end.

(** ** Running alone *)

(** How a task that runs alone, in one environment, ends. *)
Inductive outcome (A : Type) : Type :=
| Returns (s : S) (a : A)
| Waits (s : S)
| Stops (s : S)
| Panics.
Arguments Returns {A} _ _.
Arguments Waits {A} _.
Arguments Stops {A} _.
Arguments Panics {A}.

Fixpoint exec {A} (e : env) (m : act A) (s : S) : outcome A :=
  match m with
  | Ret a => Returns s a
  | Sec f c => match f e s with Some (s', b) => exec e (c b) s' | None => Panics end
  | Await g m' => if g e s then exec e m' s else Waits s
  | Stop => Stops s
  end.

(** The result, if it returns. *)
Fixpoint run {A} (e : env) (m : act A) (s : S) : option (S * A) :=
  match m with
  | Ret a => Some (s, a)
  | Sec f c => match f e s with Some (s', b) => run e (c b) s' | None => None end
  | Await g m' => if g e s then run e m' s else None
  | Stop => None
  end.

Lemma run_exec {A} e (m : act A) s s' a : run e m s = Some (s', a) <-> exec e m s = Returns s' a.
Proof.
  revert s. induction m as [x|B f c IH|g m IH|]; intros s; cbn; [naive_solver| | |done].
  - by destruct (f e s) as [[s1 b]|].
  - by destruct (g e s).
Qed.

Lemma run_bind {A B} e (m : act A) (g : A -> act B) s :
  run e (abind m g) s = match run e m s with Some (s', a) => run e (g a) s' | None => None end.
Proof.
  revert s. induction m as [a|C f c IH|w m IH|]; intros s; cbn; [done| | |done].
  - by destruct (f e s) as [[s' b]|].
  - by destruct (w e s).
Qed.

Lemma run_bind_ok {E A B} e (m : act (result E A)) (g : A -> act (result E B)) s :
  run e (abind_ok m g) s =
  match run e m s with
  | Some (s', Ok a) => run e (g a) s'
  | Some (s', Err err) => Some (s', Err err)
  | None => None
  end.
Proof. unfold abind_ok. rewrite run_bind. by destruct (run e m s) as [[s' [a|err]]|]. Qed.

(** A task that, in this environment, comes to no [Await], and to a [Stop] only
    if [P]. *)
Fixpoint straight {A} (P : Prop) (e : env) (m : act A) : Prop :=
  match m with
  | Ret _ => True
  | Sec f c => forall s s' b, f e s = Some (s', b) -> straight P e (c b)
  | Await _ _ => False
  | Stop => P
  end.
Abbreviation prompt := (straight False).

Section straight.
Context (P : Prop) (e : env).

Lemma straight_bind {A B} (m : act A) (g : A -> act B) :
  straight P e m -> (forall a, straight P e (g a)) -> straight P e (abind m g).
Proof. intros Hm Hg. induction m as [a|C f c IH|w m IH|]; cbn in *; eauto. Qed.

Lemma straight_bind_ok {E A B} (m : act (result E A)) (g : A -> act (result E B)) :
  straight P e m -> (forall a, straight P e (g a)) -> straight P e (abind_ok m g).
Proof. intros Hm Hg. apply straight_bind; [done|]. by intros [a|err]. Qed.

Lemma straight_atomic {B} (f : sec B) : straight P e (atomic f).
Proof. done. Qed.

Lemma straight_for {X} (xs : list X) (body : X -> act unit) :
  (forall x, straight P e (body x)) -> straight P e (afor xs body).
Proof. intros Hb. induction xs as [|x xs IH]; cbn; [done|]. by apply straight_bind. Qed.

Lemma straight_for_ok {E X} (xs : list X) (body : X -> act (result E unit)) :
  (forall x, straight P e (body x)) -> straight P e (afor_ok xs body).
Proof. intros Hb. induction xs as [|x xs IH]; cbn; [done|]. by apply straight_bind_ok. Qed.

Lemma straight_exec {A} (m : act A) s :
  straight P e m -> match exec e m s with Waits _ => False | Stops _ => P | _ => True end.
Proof.
  revert s. induction m as [a|B f c IH|g m IH|]; intros s Hm; cbn in *; [done| |done|done].
  destruct (f e s) as [[s' b]|] eqn:E; [|done]. by eapply IH, Hm.
Qed.
End straight.

(** ** Tasks whose sections stay in a relation *)

Fixpoint steps_in {A} (R : S -> S -> Prop) (m : act A) : Prop :=
  match m with
  | Ret _ => True
  | Sec f c => (forall e s s' b, f e s = Some (s', b) -> R s s') /\ forall b, steps_in R (c b)
  | Await _ m' => steps_in R m'
  | Stop => True
  end.

Lemma steps_in_bind {A B} R (m : act A) (g : A -> act B) :
  steps_in R m -> (forall a, steps_in R (g a)) -> steps_in R (abind m g).
Proof.
  intros Hm Hg. induction m as [a|C f c IH|w m IH|]; cbn in *; [done| |by apply IH|done].
  destruct Hm as [? Hc]. split; [done|]. intros b. by apply IH.
Qed.

Lemma steps_in_for {X} R (xs : list X) (body : X -> act unit) :
  (forall x, steps_in R (body x)) -> steps_in R (afor xs body).
Proof. intros Hb. induction xs as [|x xs IH]; cbn; [done|]. by apply steps_in_bind. Qed.

Lemma steps_in_run {A} R (m : act A) e s s' a : PreOrder R -> steps_in R m -> run e m s = Some (s', a) -> R s s'.
Proof.
  intros HR. revert s. induction m as [x|C f c IH|w m IH|]; intros s Hm Hr; cbn in *; [by simplify_eq| | |done].
  - destruct Hm as [Hf Hc]. destruct (f e s) as [[s1 b]|] eqn:E; [|done]. etransitivity; [by eapply Hf|]. by eapply IH.
  - destruct (w e s); [by apply IH|done].
Qed.

(** ** Running together *)

Inductive pool_step {A} : list (act A) * S -> list (act A) * S -> Prop :=
| pool_step_sec pool s i B (f : sec B) c e s' b :
    env_ok e -> pool !! i = Some (Sec f c) -> f e s = Some (s', b) ->
    pool_step (pool, s) (<[i := c b]> pool, s')
| pool_step_resume pool s i g m e :
    env_ok e -> pool !! i = Some (Await g m) -> g e s = true ->
    pool_step (pool, s) (<[i := m]> pool, s).

(** A task whose next section panics. *)
Definition section_panics {A} (cfg : list (act A) * S) : Prop :=
  exists i B (f : sec B) c e, env_ok e /\ cfg.1 !! i = Some (Sec f c) /\ f e cfg.2 = None.

(** An executable run of a pool: which task runs its next section, where. *)
Fixpoint pool_run {A} (sched : list (nat * env)) (pool : list (act A)) (s : S) : option (list (act A) * S) :=
  match sched with
  | [] => Some (pool, s)
  | (i, e) :: sched' =>
      match pool !! i with
      | Some (Sec f c) =>
          match f e s with
          | Some (s', b) => pool_run sched' (<[i := c b]> pool) s'
          | None => None
          end
      | Some (Await g m) => if g e s then pool_run sched' (<[i := m]> pool) s else None
      | _ => None
      end
  end.

Lemma pool_run_steps {A} sched (pool : list (act A)) s pool' s' :
  Forall (fun p => env_ok p.2) sched ->
  pool_run sched pool s = Some (pool', s') -> rtc pool_step (pool, s) (pool', s').
Proof.
  revert pool s. induction sched as [|[i e] sched IH]; intros pool s Hok Hr; cbn in Hr.
  { simplify_eq. reflexivity. }
  inversion Hok as [|? ? He Hok']; subst.
  destruct (pool !! i) as [[a|B f c|g m|]|] eqn:Ei; [done| | |done|done].
  - destruct (f e s) as [[s1 b]|] eqn:Ef; [|done].
    eapply rtc_l; [eapply pool_step_sec; [exact He|exact Ei|exact Ef]|]. by apply IH.
  - destruct (g e s) eqn:Eg; [|done].
    eapply rtc_l; [eapply pool_step_resume; [exact He|exact Ei|exact Eg]|]. by apply IH.
Qed.

(** ** The logic *)

Section logic.
Context {R : Type} (I : S -> list R -> Prop) (G : S -> S -> Prop).
Context (I_perm : forall s own own', own ≡ₚ own' -> I s own -> I s own').
Context (G_refl : forall s, G s s).

(** A section that turns the resources [own] into [own'] with result [b]. *)
Definition sec_safe {B} (own : list R) (f : sec B) (P : B -> list R -> Prop) : Prop :=
  forall e s F, env_ok e -> I s (own ++ F) ->
    exists s' b own', f e s = Some (s', b) /\ I s' (own' ++ F) /\ G s s' /\ P b own'.

Fixpoint safe {A} (own : list R) (m : act A) (Q : A -> list R -> Prop) : Prop :=
  match m with
  | Ret a => Q a own
  | Sec f c => sec_safe own f (fun b own' => safe own' (c b) Q)
  | Await _ m' => safe own m' Q
  | Stop => True
  end.

Lemma sec_safe_mono {B} own (f : sec B) (P P' : B -> list R -> Prop) :
  (forall b own', P b own' -> P' b own') -> sec_safe own f P -> sec_safe own f P'.
Proof.
  intros HP Hf e s F He Hs. destruct (Hf e s F He Hs) as (s' & b & own' & ? & ? & ? & ?).
  exists s', b, own'. naive_solver.
Qed.

Lemma safe_mono {A} own (m : act A) (Q Q' : A -> list R -> Prop) :
  (forall a own', Q a own' -> Q' a own') -> safe own m Q -> safe own m Q'.
Proof.
  intros HQ. revert own. induction m as [a|B f c IH|g m IH|]; intros own; cbn; [apply HQ| |apply IH|done].
  apply sec_safe_mono. intros b own'. apply IH.
Qed.

Lemma safe_bind {A B} own (m : act A) (g : A -> act B) Q :
  safe own m (fun a own' => safe own' (g a) Q) -> safe own (abind m g) Q.
Proof.
  revert own. induction m as [a|C f c IH|w m IH|]; intros own; cbn; [done| |apply IH|done].
  apply sec_safe_mono. intros b own'. apply IH.
Qed.

Lemma safe_bind_ok {E A B} own (m : act (result E A)) (g : A -> act (result E B)) Q :
  safe own m (fun r own' => match r with Ok a => safe own' (g a) Q | Err e => Q (Err e) own' end) ->
  safe own (abind_ok m g) Q.
Proof. intros H. apply safe_bind. eapply safe_mono; [|exact H]. by intros [a|e] own'. Qed.

Lemma safe_atomic {B} own (f : sec B) Q : sec_safe own f Q -> safe own (atomic f) Q.
Proof. done. Qed.

(** The logic's own rule for a call: a specification of the callee. *)
Lemma safe_call {A B} own own1 (P : A -> Prop) (m : act A) (g : A -> act B) Q :
  safe own m (fun a own' => own' = own1 /\ P a) -> (forall a, P a -> safe own1 (g a) Q) ->
  safe own (abind m g) Q.
Proof.
  intros Hm Hg. apply safe_bind. eapply safe_mono; [|exact Hm]. intros a own' [-> ?]. by apply Hg.
Qed.

Lemma safe_for {X} own (xs : list X) (body : X -> act unit) :
  (forall x, x ∈ xs -> safe own (body x) (fun _ own' => own' = own)) ->
  safe own (afor xs body) (fun _ own' => own' = own).
Proof.
  induction xs as [|x xs IH]; intros Hb; cbn; [done|]. apply safe_bind.
  eapply safe_mono; [|apply Hb, elem_of_cons; by left]. intros ? own' ->.
  apply IH. intros y Hy. apply Hb, elem_of_cons. by right.
Qed.

(** A safe task that runs alone does not panic, keeps the invariant, and
    satisfies its postcondition if it returns. *)
Lemma safe_exec {A} own F (m : act A) Q e s :
  env_ok e -> safe own m Q -> I s (own ++ F) ->
  match exec e m s with
  | Returns s' a => exists own', I s' (own' ++ F) /\ Q a own'
  | Waits s' | Stops s' => exists own', I s' (own' ++ F)
  | Panics => False
  end.
Proof.
  intros He. revert own s. induction m as [a|B f c IH|g m IH|]; intros own s Hm Hs; cbn in *; [by exists own| | |by exists own].
  - destruct (Hm e s F He Hs) as (s' & b & own' & -> & Hs' & _ & Hc). by apply (IH b own').
  - destruct (g e s); [by apply (IH own)|by exists own].
Qed.

Lemma safe_result {A} own F (m : act A) Q e s s' a :
  env_ok e -> safe own m Q -> I s (own ++ F) -> run e m s = Some (s', a) ->
  exists own', I s' (own' ++ F) /\ Q a own'.
Proof. intros He Hm Hs Hr%run_exec. pose proof (safe_exec own F m Q e s He Hm Hs) as H. by rewrite Hr in H. Qed.

(** A safe task without waiting points returns. *)
Lemma safe_run {A} own F (m : act A) Q e s :
  env_ok e -> prompt e m -> safe own m Q -> I s (own ++ F) ->
  exists s' a own', run e m s = Some (s', a) /\ I s' (own' ++ F) /\ Q a own'.
Proof.
  intros He. revert own s. induction m as [a|B f c IH|g m IH|]; intros own s Hw Hm Hs; cbn in *; [by exists s, a, own| |done|done].
  destruct (Hm e s F He Hs) as (s' & b & own' & E & Hs' & _ & Hc). rewrite E. apply (IH b own'); [by eapply Hw|done|done].
Qed.

(** Every run of a pool of safe tasks keeps the invariant and never panics. *)
Definition pool_safe {A} (Q : A -> list R -> Prop) (cfg : list (act A) * S) : Prop :=
  exists owns, Forall2 (fun m own => safe own m Q) cfg.1 owns /\ I cfg.2 (mjoin owns).

Lemma owns_split (owns : list (list R)) i own :
  owns !! i = Some own -> mjoin owns ≡ₚ own ++ mjoin (take i owns) ++ mjoin (drop (Datatypes.S i) owns).
Proof.
  intros Hi. rewrite <-(take_drop_middle owns i own Hi) at 1. rewrite join_app. cbn.
  by rewrite Permutation_app_swap_app.
Qed.

Lemma pool_safe_next {A} (Q : A -> list R -> Prop) pool s i B (f : sec B) c e :
  env_ok e -> pool !! i = Some (Sec f c) -> pool_safe Q (pool, s) ->
  exists s' b, f e s = Some (s', b) /\ G s s' /\ pool_safe Q (<[i := c b]> pool, s').
Proof using I_perm.
  intros He Hi (owns & Hp & Hs). cbn in *.
  destruct (Forall2_lookup_l _ _ _ _ _ Hp Hi) as (own & Ho & Hsafe). cbn in Hsafe.
  set (F := mjoin (take i owns) ++ mjoin (drop (Datatypes.S i) owns)).
  destruct (Hsafe e s F He) as (s' & b & own' & Ef & HI & HG & Hc).
  { eapply I_perm; [|exact Hs]. by apply owns_split. }
  exists s', b. split; [done|]. split; [done|]. exists (<[i := own']> owns). cbn. split.
  - by apply Forall2_insert.
  - eapply I_perm; [|exact HI]. symmetry. pose proof (lookup_lt_Some _ _ _ Ho).
    rewrite (owns_split _ i own') by by apply list_lookup_insert_eq.
    unfold F. by rewrite take_insert_ge, drop_insert_lt by lia.
Qed.

Lemma pool_safe_resume {A} (Q : A -> list R -> Prop) pool s i g m :
  pool !! i = Some (Await g m) -> pool_safe Q (pool, s) -> pool_safe Q (<[i := m]> pool, s).
Proof.
  intros Hi (owns & Hp & Hs). cbn in *. destruct (Forall2_lookup_l _ _ _ _ _ Hp Hi) as (own & Ho & Hsafe).
  exists owns. cbn. split; [|done]. rewrite <-(list_insert_id owns i own Ho). by apply Forall2_insert.
Qed.

Lemma pool_safe_step {A} (Q : A -> list R -> Prop) cfg cfg' :
  pool_step cfg cfg' -> pool_safe Q cfg -> pool_safe Q cfg' /\ G cfg.2 cfg'.2.
Proof using I_perm G_refl.
  intros [pool s i B f c e s' b He Hi Ef|pool s i g m e He Hi Eg] Hsafe.
  - destruct (pool_safe_next Q _ _ _ _ _ _ _ He Hi Hsafe) as (s1 & b1 & E & HG & Hp).
    rewrite E in Ef. by simplify_eq.
  - split; [by eapply pool_safe_resume|apply G_refl].
Qed.

Lemma pool_safe_no_panic {A} (Q : A -> list R -> Prop) cfg : pool_safe Q cfg -> ~ section_panics cfg.
Proof using I_perm.
  intros Hsafe (i & B & f & c & e & He & Hi & Ef). destruct cfg as [pool s].
  destruct (pool_safe_next Q _ _ _ _ _ _ _ He Hi Hsafe) as (s1 & b1 & E & _). cbn in Ef. congruence.
Qed.

Lemma pool_safe_rtc {A} (Q : A -> list R -> Prop) cfg cfg' :
  rtc pool_step cfg cfg' -> pool_safe Q cfg -> pool_safe Q cfg'.
Proof using I_perm G_refl.
  apply rtc_preserves. intros a b Hab Ha. by eapply pool_safe_step.
Qed.
End logic.
End act.

Arguments act _ _ : clear implicits.
Arguments sec _ _ : clear implicits.
Arguments Ret {S A} _.
Arguments Sec {S A B} _ _.
Arguments Await {S A} _ _.
Arguments Stop {S A}.
Arguments Returns {S A} _ _.
Arguments Waits {S A} _.
Arguments Stops {S A} _.
Arguments Panics {S A}.
(** The state type is known before the section is read. *)
Arguments abind {S A B} & _ _.
Arguments abind_ok {S E A B} & _ _.
Arguments atomic {S B} & _.
Arguments reads {S B} & _.
Arguments reads_opt {S B} & _.
Arguments updates {S} & _.
Arguments updates_opt {S} & _.

Abbreviation prompt := (straight False).

Declare Scope act_scope.
Delimit Scope act_scope with act.
Bind Scope act_scope with act.
Notation "x <~ m ;; k" := (abind m (fun x => k))
  (at level 100, m at next level, right associativity) : act_scope.
Notation "m ;;; k" := (abind m (fun _ => k))
  (at level 100, right associativity) : act_scope.
Notation "x <~? m ;; k" := (abind_ok m (fun x => k))
  (at level 100, m at next level, right associativity) : act_scope.
