(* ===== verification/Task.v ===== *)
(** * Threads, processes and the kernel's shared state

    The data of kernel/src/task/mod.rs, kernel/src/task/process.rs,
    kernel/src/sched/mod.rs and of the IPC tables (kernel/src/ipc): every
    [static] that the scheduler, the IPC operations and the syscalls share is
    a field of [kernel], with one setter per field.  The counters of the
    tripwire and the metrics are not state: they are write-only. *)

From S2P Require Import Prelude Collections Abi Capability PhysMem Memory Pools AddressSpace Act.

Definition MAX_THREADS : Z := 64.

(** ** Threads (kernel/src/task/mod.rs) *)

Record SchedEntity := mk_se {
  thread_id : Z;
  agent_id : option Z;
  class : SchedulerClass;
  priority : Z;
  deadline : option Z;
  vruntime : Z;
  time_slice_remaining : Z;
  effective_class : SchedulerClass;
  effective_priority : Z;
  inherited_class : option SchedulerClass;
  inherited_priority : option Z;
  inherited_deadline : option Z;
  affinity : Z;
  state : ThreadState
}.

Record ThreadContext := mk_ctx {
  gp_regs : list Z;
  sp : Z;
  pc : Z;
  pstate : Z;
  ttbr0 : Z;
  timer_cval : Z;
  timer_ctl : Z
}.

Record Thread := mk_thread {
  sched : SchedEntity;
  context : ThreadContext;
  inheritance_depth : Z;
  owner_pid : option Z;
  stack_phys : Z;
  th_name : list Z
}.

(** [save_context] (arch/aarch64/context_switch.S): [x19] to [x30], the stack
    pointer, and the link register as the program counter. *)
Definition ctx_saved (c : ThreadContext) (r : cpu_regs) : ThreadContext :=
  mk_ctx (copy_at (gp_regs c) 19 (callee_saved r)) (reg_sp r) (reg_lr r) (pstate c) (ttbr0 c) (timer_cval c) (timer_ctl c).

Definition NEW_KERNEL_SP_OFFSET : Z := 4 * 4096.

(** [Thread::new_kernel] *)
Definition new_kernel (id : Z) (name : list Z) (entry_fn stack_phys : Z) : Thread :=
  let copy_len := Z.to_nat (Z.min (alen name) 16) in
  mk_thread
    (mk_se id None Normal 128 None 0 10000000 Normal 128 None None None cpuset_all Runnable)
    (mk_ctx (array_of 31 0) (stack_phys + NEW_KERNEL_SP_OFFSET) entry_fn 0x3C5 0 0 0)
    0 None stack_phys (take copy_len name ++ drop copy_len (array_of 16 0)).

(** Writes to fields of [thread.sched]. *)
Definition with_sched (t : Thread) (f : SchedEntity -> SchedEntity) : Thread :=
  mk_thread (f (sched t)) (context t) (inheritance_depth t) (owner_pid t) (stack_phys t) (th_name t).
Definition with_context (t : Thread) (c : ThreadContext) : Thread :=
  mk_thread (sched t) c (inheritance_depth t) (owner_pid t) (stack_phys t) (th_name t).
Definition with_depth (t : Thread) (d : Z) : Thread :=
  mk_thread (sched t) (context t) d (owner_pid t) (stack_phys t) (th_name t).
Definition se_state (st : ThreadState) (s : SchedEntity) : SchedEntity :=
  mk_se (thread_id s) (agent_id s) (class s) (priority s) (deadline s) (vruntime s)
    (time_slice_remaining s) (effective_class s) (effective_priority s) (inherited_class s)
    (inherited_priority s) (inherited_deadline s) (affinity s) st.
Definition se_slice (n : Z) (s : SchedEntity) : SchedEntity :=
  mk_se (thread_id s) (agent_id s) (class s) (priority s) (deadline s) (vruntime s)
    n (effective_class s) (effective_priority s) (inherited_class s)
    (inherited_priority s) (inherited_deadline s) (affinity s) (state s).
Definition se_effective (c : SchedulerClass) (p : Z) (s : SchedEntity) : SchedEntity :=
  mk_se (thread_id s) (agent_id s) (class s) (priority s) (deadline s) (vruntime s)
    (time_slice_remaining s) c p (inherited_class s)
    (inherited_priority s) (inherited_deadline s) (affinity s) (state s).
Definition se_inherited (c : option SchedulerClass) (p d : option Z) (s : SchedEntity) : SchedEntity :=
  mk_se (thread_id s) (agent_id s) (class s) (priority s) (deadline s) (vruntime s)
    (time_slice_remaining s) (effective_class s) (effective_priority s) c p d (affinity s) (state s).

(** ** Run queues (kernel/src/sched/mod.rs) *)

Definition SchedQueue : Type := FixedQueue.t Z.

Record RunQueue := mk_rq {
  rt : SchedQueue;
  interactive : SchedQueue;
  normal : SchedQueue;
  idle : SchedQueue
}.

(** ** Processes (kernel/src/task/process.rs) *)

Definition MAX_THREADS_PER_PROCESS : Z := 16.

Record ProcessControl := mk_proc {
  pid : Z;
  address_space : option UserAddressSpace;
  resource_limits : KernelResourceLimits;
  cap_table : CapabilityTable;
  thread_ids : list (option Z);
  pr_name : list Z
}.

Definition with_cap_table (p : ProcessControl) (t : CapabilityTable) : ProcessControl :=
  mk_proc (pid p) (address_space p) (resource_limits p) t (thread_ids p) (pr_name p).

(** ** IPC (kernel/src/ipc) *)

(** [MessageRing] *)
Record MessageRing := mk_ring { entries : list RawMessage; head : Z; tail : Z; len : Z }.

Record Channel := mk_channel {
  ch_id : Z;
  state_a : EndpointState;
  state_b : EndpointState;
  owner_a : Z;
  owner_b : option Z;
  ring : MessageRing;
  waiting_receiver : option Z;
  pending_caller : option Z;
  creation_cap : option Z
}.

Record TimeoutEntry := mk_timeout { te_tid : Z; wake_at_tick : Z; error_code : Z }.

(** [buf] is the address of the caller's reply buffer. *)
Record ReplySlot := mk_reply { rs_buf : Z; buf_len : Z; bytes_written : Z }.

Record Waiter := mk_waiter { w_tid : Z; w_mask : Z }.

Record NotificationObject := mk_notif {
  n_id : Z;
  word : Z;
  n_creator : Z;
  waiters : list (option Waiter)
}.

Record SelectWaiter := mk_select {
  sw_tid : Z;
  sw_entries : list (option SelectKind);
  entry_count : Z;
  ready_index : option Z;
  ready_bits : Z
}.

Record SharedMapping := mk_mapping { m_pid : Z; m_vaddr : Z; m_flags : Z }.

Record SharedMemoryRegion := mk_region {
  r_id : Z;
  r_base_phys : Z;
  r_order : Z;
  size_bytes : Z;
  ref_count : Z;
  r_creator : Z;
  max_flags : Z;
  r_creation_cap : option Z;
  mappings : list (option SharedMapping)
}.

Record PrivateAllocation := mk_private {
  pa_owner : Z;
  pa_base_phys : Z;
  pa_order : Z;
  pa_pages : Z
}.

(** ** Services (kernel/src/service/mod.rs) *)

Record ServiceEntry := mk_service {
  s_name : ServiceName;
  s_pid : Z;
  s_channel : Z;
  s_state : ServiceState
}.

Record AuditEntry := mk_audit { a_timestamp : Z; a_pid : Z; a_event : list Z; a_len : Z }.

(** ** The shared state *)

Record sched_state := mk_sched_state {
  threads : list (option Thread);
  run_queues : list RunQueue;
  current_thread : list (option Z);
  in_scheduler : list bool;
  need_resched : bool;
  tick_count : Z
}.

Record ipc_state := mk_ipc_state {
  channels : list (option Channel);
  timeout_queue : list (option TimeoutEntry);
  reply_slots : list (option ReplySlot);
  wakeup_errors : list Z;
  notifications : list (option NotificationObject);
  notify_results : list (option Z);
  notify_deadlines : list Z;
  select_waiters : list (option SelectWaiter)
}.

Record proc_state := mk_proc_state {
  processes : list (option ProcessControl);
  process_waiters : list (option Z);
  exit_codes : list Z;
  next_token_id : Z;
  services : list (option ServiceEntry);
  service_count : Z;
  audit_ring : list AuditEntry;
  audit_head : Z
}.

(** Memory: the shared regions, the private blocks, the frame allocator
    ([None] before it is set up), and the bytes of kernel stacks and of the
    user address space in use. *)
Record mem_state := mk_mem_state {
  regions : list (option SharedMemoryRegion);
  privates : list (option PrivateAllocation);
  frame_alloc : option frames;
  kmem : Z -> Z;
  umem : Z -> Z
}.

Record kernel := mk_kernel {
  k_sched : sched_state;
  k_ipc : ipc_state;
  k_proc : proc_state;
  k_mem : mem_state
}.

(** Getters and setters of the tables. *)

Definition set_sched (k : kernel) (x : sched_state) : kernel :=
  mk_kernel x (k_ipc k) (k_proc k) (k_mem k).
Definition set_ipc (k : kernel) (x : ipc_state) : kernel :=
  mk_kernel (k_sched k) x (k_proc k) (k_mem k).
Definition set_proc (k : kernel) (x : proc_state) : kernel :=
  mk_kernel (k_sched k) (k_ipc k) x (k_mem k).
Definition set_mem (k : kernel) (x : mem_state) : kernel :=
  mk_kernel (k_sched k) (k_ipc k) (k_proc k) x.
Definition set_threads (k : kernel) x : kernel :=
  set_sched k (mk_sched_state x (run_queues (k_sched k)) (current_thread (k_sched k))
    (in_scheduler (k_sched k)) (need_resched (k_sched k)) (tick_count (k_sched k))).
Definition set_run_queues (k : kernel) x : kernel :=
  set_sched k (mk_sched_state (threads (k_sched k)) x (current_thread (k_sched k)) (in_scheduler
    (k_sched k)) (need_resched (k_sched k)) (tick_count (k_sched k))).
Definition set_current_thread (k : kernel) x : kernel :=
  set_sched k (mk_sched_state (threads (k_sched k)) (run_queues (k_sched k)) x (in_scheduler
    (k_sched k)) (need_resched (k_sched k)) (tick_count (k_sched k))).
Definition set_in_scheduler (k : kernel) x : kernel :=
  set_sched k (mk_sched_state (threads (k_sched k)) (run_queues (k_sched k)) (current_thread
    (k_sched k)) x (need_resched (k_sched k)) (tick_count (k_sched k))).
Definition set_need_resched (k : kernel) x : kernel :=
  set_sched k (mk_sched_state (threads (k_sched k)) (run_queues (k_sched k)) (current_thread
    (k_sched k)) (in_scheduler (k_sched k)) x (tick_count (k_sched k))).
Definition set_tick_count (k : kernel) x : kernel :=
  set_sched k (mk_sched_state (threads (k_sched k)) (run_queues (k_sched k)) (current_thread
    (k_sched k)) (in_scheduler (k_sched k)) (need_resched (k_sched k)) x).
Definition set_channels (k : kernel) x : kernel :=
  set_ipc k (mk_ipc_state x (timeout_queue (k_ipc k)) (reply_slots (k_ipc k)) (wakeup_errors
    (k_ipc k)) (notifications (k_ipc k)) (notify_results (k_ipc k)) (notify_deadlines (k_ipc k))
    (select_waiters (k_ipc k))).
Definition set_timeout_queue (k : kernel) x : kernel :=
  set_ipc k (mk_ipc_state (channels (k_ipc k)) x (reply_slots (k_ipc k)) (wakeup_errors (k_ipc
    k)) (notifications (k_ipc k)) (notify_results (k_ipc k)) (notify_deadlines (k_ipc k))
    (select_waiters (k_ipc k))).
Definition set_reply_slots (k : kernel) x : kernel :=
  set_ipc k (mk_ipc_state (channels (k_ipc k)) (timeout_queue (k_ipc k)) x (wakeup_errors (k_ipc
    k)) (notifications (k_ipc k)) (notify_results (k_ipc k)) (notify_deadlines (k_ipc k))
    (select_waiters (k_ipc k))).
Definition set_wakeup_errors (k : kernel) x : kernel :=
  set_ipc k (mk_ipc_state (channels (k_ipc k)) (timeout_queue (k_ipc k)) (reply_slots (k_ipc k))
    x (notifications (k_ipc k)) (notify_results (k_ipc k)) (notify_deadlines (k_ipc k))
    (select_waiters (k_ipc k))).
Definition set_notifications (k : kernel) x : kernel :=
  set_ipc k (mk_ipc_state (channels (k_ipc k)) (timeout_queue (k_ipc k)) (reply_slots (k_ipc k))
    (wakeup_errors (k_ipc k)) x (notify_results (k_ipc k)) (notify_deadlines (k_ipc k))
    (select_waiters (k_ipc k))).
Definition set_notify_results (k : kernel) x : kernel :=
  set_ipc k (mk_ipc_state (channels (k_ipc k)) (timeout_queue (k_ipc k)) (reply_slots (k_ipc k))
    (wakeup_errors (k_ipc k)) (notifications (k_ipc k)) x (notify_deadlines (k_ipc k))
    (select_waiters (k_ipc k))).
Definition set_notify_deadlines (k : kernel) x : kernel :=
  set_ipc k (mk_ipc_state (channels (k_ipc k)) (timeout_queue (k_ipc k)) (reply_slots (k_ipc k))
    (wakeup_errors (k_ipc k)) (notifications (k_ipc k)) (notify_results (k_ipc k)) x
    (select_waiters (k_ipc k))).
Definition set_select_waiters (k : kernel) x : kernel :=
  set_ipc k (mk_ipc_state (channels (k_ipc k)) (timeout_queue (k_ipc k)) (reply_slots (k_ipc k))
    (wakeup_errors (k_ipc k)) (notifications (k_ipc k)) (notify_results (k_ipc k))
    (notify_deadlines (k_ipc k)) x).
Definition set_processes (k : kernel) x : kernel :=
  set_proc k (mk_proc_state x (process_waiters (k_proc k)) (exit_codes (k_proc k))
    (next_token_id (k_proc k)) (services (k_proc k)) (service_count (k_proc k)) (audit_ring
    (k_proc k)) (audit_head (k_proc k))).
Definition set_process_waiters (k : kernel) x : kernel :=
  set_proc k (mk_proc_state (processes (k_proc k)) x (exit_codes (k_proc k)) (next_token_id
    (k_proc k)) (services (k_proc k)) (service_count (k_proc k)) (audit_ring (k_proc k))
    (audit_head (k_proc k))).
Definition set_exit_codes (k : kernel) x : kernel :=
  set_proc k (mk_proc_state (processes (k_proc k)) (process_waiters (k_proc k)) x (next_token_id
    (k_proc k)) (services (k_proc k)) (service_count (k_proc k)) (audit_ring (k_proc k))
    (audit_head (k_proc k))).
Definition set_next_token_id (k : kernel) x : kernel :=
  set_proc k (mk_proc_state (processes (k_proc k)) (process_waiters (k_proc k)) (exit_codes
    (k_proc k)) x (services (k_proc k)) (service_count (k_proc k)) (audit_ring (k_proc k))
    (audit_head (k_proc k))).
Definition set_services (k : kernel) x : kernel :=
  set_proc k (mk_proc_state (processes (k_proc k)) (process_waiters (k_proc k)) (exit_codes
    (k_proc k)) (next_token_id (k_proc k)) x (service_count (k_proc k)) (audit_ring (k_proc k))
    (audit_head (k_proc k))).
Definition set_service_count (k : kernel) x : kernel :=
  set_proc k (mk_proc_state (processes (k_proc k)) (process_waiters (k_proc k)) (exit_codes
    (k_proc k)) (next_token_id (k_proc k)) (services (k_proc k)) x (audit_ring (k_proc k))
    (audit_head (k_proc k))).
Definition set_audit_ring (k : kernel) x : kernel :=
  set_proc k (mk_proc_state (processes (k_proc k)) (process_waiters (k_proc k)) (exit_codes
    (k_proc k)) (next_token_id (k_proc k)) (services (k_proc k)) (service_count (k_proc k)) x
    (audit_head (k_proc k))).
Definition set_audit_head (k : kernel) x : kernel :=
  set_proc k (mk_proc_state (processes (k_proc k)) (process_waiters (k_proc k)) (exit_codes
    (k_proc k)) (next_token_id (k_proc k)) (services (k_proc k)) (service_count (k_proc k))
    (audit_ring (k_proc k)) x).
Definition set_regions (k : kernel) x : kernel :=
  set_mem k (mk_mem_state x (privates (k_mem k)) (frame_alloc (k_mem k)) (kmem (k_mem k)) (umem
    (k_mem k))).
Definition set_privates (k : kernel) x : kernel :=
  set_mem k (mk_mem_state (regions (k_mem k)) x (frame_alloc (k_mem k)) (kmem (k_mem k)) (umem
    (k_mem k))).
Definition set_frame_alloc (k : kernel) x : kernel :=
  set_mem k (mk_mem_state (regions (k_mem k)) (privates (k_mem k)) x (kmem (k_mem k)) (umem
    (k_mem k))).
Definition set_kmem (k : kernel) x : kernel :=
  set_mem k (mk_mem_state (regions (k_mem k)) (privates (k_mem k)) (frame_alloc (k_mem k)) x
    (umem (k_mem k))).
Definition set_umem (k : kernel) x : kernel :=
  set_mem k (mk_mem_state (regions (k_mem k)) (privates (k_mem k)) (frame_alloc (k_mem k)) (kmem
    (k_mem k)) x).

Coercion k_sched : kernel >-> sched_state.
Coercion k_ipc : kernel >-> ipc_state.
Coercion k_proc : kernel >-> proc_state.
Coercion k_mem : kernel >-> mem_state.

(** [table[tid]] for a thread id: [None] is an index past the table. *)
Definition thread_at (k : kernel) (tid : Z) : option (option Thread) := (threads k).[tid].
Definition put_thread (k : kernel) (tid : Z) (t : Thread) : kernel :=
  set_threads k ((threads k).[tid <- Some t]).

(** [process_slot_mut], [process_mut] and [process_ref]: the slot of a pid. *)
Definition process_slot (k : kernel) (p : Z) : result Z (option ProcessControl) :=
  match process_index p with
  | Some i => Ok (mjoin ((processes k).[i]))
  | None => Err (ipc_code Einval)
  end.
Definition process_ref (k : kernel) (p : Z) : result Z ProcessControl :=
  match process_slot k p with
  | Ok (Some pr) => Ok pr
  | Ok None => Err (ipc_code Eperm)
  | Err e => Err e
  end.
Definition put_process (k : kernel) (p : Z) (pr : ProcessControl) : kernel :=
  set_processes k ((processes k).[p <- Some pr]).
