(* ===== verification/Sched.v ===== *)
(** * The scheduler (kernel/src/sched)

    The per-CPU run queues, [schedule] and its callers ([thread_yield],
    [block_current], the timer tick, the preemption check), [unblock], the
    load balancer, and the IPC direct switch of kernel/src/ipc/direct.rs,
    which hands a CPU over without the run queues.

    A context switch publishes the next thread in [CURRENT_THREAD], saves
    the registers of the old one and goes over to the next.  The rest of the
    function is what the old thread runs when a CPU dispatches it again, so it
    comes after a [resumed]: a thread that blocks stays there until it is the
    current thread of some CPU.  Without an old thread nothing was saved and
    nothing follows ([Stop]).  The registers that [restore_context] loads
    become those of the thread that runs next; they are not state here. *)

From S2P Require Import Prelude Collections Abi Capability Act Task.
Local Open Scope act_scope.

Definition NS_PER_TICK : Z := 1000000.
Definition STACK_ORDER : Z := 3.
Definition STACK_SIZE : Z := Z.shiftl 1 STACK_ORDER * 4096.

(** ** Run queues *)

Definition rq_new : RunQueue :=
  let q := FixedQueue.new MAX_THREADS in mk_rq q q q q.

(** A full queue drops the thread. *)
Definition enqueue (rq : RunQueue) (tid : Z) (c : SchedulerClass) : RunQueue :=
  match c with
  | RealTime => mk_rq (FixedQueue.push_back MAX_THREADS (rt rq) tid).2 (interactive rq) (normal rq) (idle rq)
  | Interactive => mk_rq (rt rq) (FixedQueue.push_back MAX_THREADS (interactive rq) tid).2 (normal rq) (idle rq)
  | Normal => mk_rq (rt rq) (interactive rq) (FixedQueue.push_back MAX_THREADS (normal rq) tid).2 (idle rq)
  | Idle => mk_rq (rt rq) (interactive rq) (normal rq) (FixedQueue.push_back MAX_THREADS (idle rq) tid).2
  end.

Definition pick_next (rq : RunQueue) : option Z * RunQueue :=
  match FixedQueue.pop_front MAX_THREADS (rt rq) with
  | (Some tid, q) => (Some tid, mk_rq q (interactive rq) (normal rq) (idle rq))
  | (None, q) =>
      match FixedQueue.pop_front MAX_THREADS (interactive rq) with
      | (Some tid, q') => (Some tid, mk_rq q q' (normal rq) (idle rq))
      | (None, q') =>
          match FixedQueue.pop_front MAX_THREADS (normal rq) with
          | (Some tid, q2) => (Some tid, mk_rq q q' q2 (idle rq))
          | (None, q2) =>
              let '(r, q3) := FixedQueue.pop_front MAX_THREADS (idle rq) in (r, mk_rq q q' q2 q3)
          end
      end
  end.

Definition total_depth (rq : RunQueue) : Z :=
  FixedQueue.len (rt rq) + FixedQueue.len (interactive rq) +
  FixedQueue.len (normal rq) + FixedQueue.len (idle rq).

(** [for_each]: the queued threads in [pick_next] order. *)
Definition queued (rq : RunQueue) : list (Z * SchedulerClass) :=
  map (fun t => (t, RealTime)) (FixedQueue.iter MAX_THREADS (rt rq)) ++
  map (fun t => (t, Interactive)) (FixedQueue.iter MAX_THREADS (interactive rq)) ++
  map (fun t => (t, Normal)) (FixedQueue.iter MAX_THREADS (normal rq)) ++
  map (fun t => (t, Idle)) (FixedQueue.iter MAX_THREADS (idle rq)).

Definition put_queue (k : kernel) (cpu : Z) (rq : RunQueue) : kernel :=
  set_run_queues k ((run_queues k).[cpu <- rq]).

Definition enqueue_on_cpu (cpu tid : Z) (c : SchedulerClass) : act kernel unit :=
  updates_opt (fun k => rq ← (run_queues k).[cpu]; Some (put_queue k cpu (enqueue rq tid c))).

(** [allocate_thread] *)
Definition allocate_thread (t : Thread) : act kernel (option Z) :=
  atomic (fun _ k =>
    match first_none (threads k) with
    | Some i => Some (set_threads k (<[i := Some t]> (threads k)), Some (Z.of_nat i))
    | None => Some (k, None)
    end).

(** ** The current thread *)

Definition current_of (cpu : Z) : act kernel (option Z) := reads_opt (fun k => (current_thread k).[cpu]).

(** [ipc::current_thread_id] *)
Definition current_thread_id : act kernel (option Z) := cpu <~ here ;; current_of cpu.

Definition set_current (cpu : Z) (t : option Z) : act kernel unit :=
  updates_opt (fun k => _ ← (current_thread k).[cpu]; Some (set_current_thread k ((current_thread k).[cpu <- t]))).

Definition leave_scheduler (cpu : Z) : act kernel unit :=
  updates_opt (fun k => _ ← (in_scheduler k).[cpu]; Some (set_in_scheduler k ((in_scheduler k).[cpu <- false]))).

(** ** Timer tick *)

(** A busy lock skips the charge of this tick. *)
Definition timer_tick (cpu : Z) : act kernel unit :=
  cur <~ atomic (fun e k => if lock_busy e then Some (k, None) else c ← (current_thread k).[cpu]; Some (k, c)) ;;
  match cur with
  | None => Ret tt
  | Some tid =>
      atomic (fun e k =>
        if lock_busy e then Some (k, tt)
        else match thread_at k tid with
             | None => None
             | Some None => Some (k, tt)
             | Some (Some t) =>
                 let decrement := Z.min NS_PER_TICK (time_slice_remaining (sched t)) in
                 Some (put_thread k tid
                   (with_sched t (se_slice (time_slice_remaining (sched t) - decrement))), tt)
             end)
  end.

(** ** [schedule] *)

Inductive slice := Requeue (c : SchedulerClass) | KeepRunning | NotRunning.

(** What happens to the current thread under THREAD_TABLE. *)
Definition charge_current (tid : Z) : sec kernel slice := fun _ k =>
  match thread_at k tid with
  | None => None
  | Some None => Some (k, NotRunning)
  | Some (Some t) =>
      if bool_decide (state (sched t) = Running) && (time_slice_remaining (sched t) =? 0) then
        Some (put_thread k tid (with_sched t (fun s =>
                se_state Runnable (se_slice (default_slice (effective_class s)) s))),
              Requeue (effective_class (sched t)))
      else if bool_decide (state (sched t) = Running) then Some (k, KeepRunning)
      else Some (k, NotRunning)
  end.

Definition pick (cpu : Z) : sec kernel (option Z) := fun _ k =>
  rq ← (run_queues k).[cpu];
  let '(r, rq') := pick_next rq in Some (put_queue k cpu rq', r).

(** The switch under THREAD_TABLE: whether the next thread exists, and
    whether there is a context to save. *)
Definition switch_table (current : option Z) (next : Z) : sec kernel (option bool) := fun _ k =>
  match (match current with
         | None => Some (k, false)
         | Some tid =>
             match thread_at k tid with
             | None => None
             | Some None => Some (k, false)
             | Some (Some t) =>
                 Some (if bool_decide (state (sched t) = Running)
                       then put_thread k tid (with_sched t (se_state Runnable)) else k, true)
             end
         end) with
  | None => None
  | Some (k1, old) =>
      match thread_at k1 next with
      | None => None
      | Some None => Some (k1, None)
      | Some (Some t) => Some (put_thread k1 next (with_sched t (se_state Running)), Some old)
      end
  end.

Definition set_running (tid : Z) : sec kernel unit := fun _ k =>
  match thread_at k tid with
  | None => None
  | Some None => Some (k, tt)
  | Some (Some t) => Some (put_thread k tid (with_sched t (se_state Running)), tt)
  end.

(** [save_context] writes through the pointer into the thread table; an emptied
    slot is not read again. *)
Definition save_context (tid : Z) : act kernel unit :=
  atomic (fun e k =>
    match thread_at k tid with
    | None => None
    | Some None => Some (k, tt)
    | Some (Some t) => Some (put_thread k tid (with_context t (ctx_saved (context t) (cpu_saved e))), tt)
    end).

(** [panic!("restore_context with pc=0")] *)
Definition assert_valid_ctx (tid : Z) : act kernel unit :=
  atomic (fun _ k =>
    match thread_at k tid with
    | None => None
    | Some None => Some (k, tt)
    | Some (Some t) => if pc (context t) =? 0 then None else Some (k, tt)
    end).

(** The return of [save_context] in a thread that has been switched out: some
    CPU runs it again. *)
Definition resumed (tid : Z) : act kernel unit :=
  Await (fun e (k : kernel) => bool_decide ((current_thread k).[core_id e] = Some (Some tid))) (Ret tt).

(** From the run queue on: pick, and switch if it is another thread.
    Interrupts are masked, so the CPU and its [CURRENT_THREAD] are the same
    before and after [save_context]. *)
Definition dispatch (cpu : Z) (current : option Z) : act kernel unit :=
  next <~ atomic (pick cpu) ;;
  match next with
  | None => leave_scheduler cpu
  | Some next =>
      if bool_decide (current = Some next) then
        atomic (set_running next) ;;; leave_scheduler cpu
      else
        sw <~ atomic (switch_table current next) ;;
        match sw with
        | None => leave_scheduler cpu
        | Some old =>
            set_current cpu (Some next) ;;;
            match (if old : bool then current else None) with
            | Some tid =>
                save_context tid ;;;
                leave_scheduler cpu ;;;
                assert_valid_ctx next ;;;
                resumed tid ;;;
                cpu' <~ here ;;
                leave_scheduler cpu'
            | None =>
                leave_scheduler cpu ;;;
                assert_valid_ctx next ;;;
                Stop
            end
        end
  end.

Definition schedule : act kernel unit :=
  cpu <~ here ;;
  entered <~ atomic (fun _ k =>
    b ← (in_scheduler k).[cpu]; Some (set_in_scheduler k ((in_scheduler k).[cpu <- true]), b)) ;;
  if entered : bool then Ret tt
  else
    updates (fun k => set_need_resched k false) ;;;
    current <~ current_of cpu ;;
    match current with
    | None => dispatch cpu current
    | Some tid =>
        r <~ atomic (charge_current tid) ;;
        match r with
        | Requeue c => enqueue_on_cpu cpu tid c ;;; dispatch cpu current
        | KeepRunning => leave_scheduler cpu
        | NotRunning => dispatch cpu current
        end
    end.

(** ** Voluntary switches *)

(** [table[tid]] of the current thread, changed by [f] if it exists. *)
Definition update_current (f : Thread -> Thread) : act kernel unit :=
  cur <~ current_thread_id ;;
  match cur with
  | None => Ret tt
  | Some tid =>
      updates_opt (fun k => slot ← thread_at k tid;
        Some (match slot with Some t => put_thread k tid (f t) | None => k end))
  end.

Definition thread_yield : act kernel unit :=
  update_current (fun t => with_sched t (fun s => se_state Running (se_slice 0 s))) ;;; schedule.

Definition block_current (st : ThreadState) : act kernel unit :=
  update_current (fun t => with_sched t (se_state st)) ;;; schedule.

Definition check_preemption : act kernel unit :=
  cpu <~ here ;;
  nr <~ reads (fun k => need_resched k) ;;
  if negb nr then Ret tt
  else
    ins <~ reads_opt (fun k => (in_scheduler k).[cpu]) ;;
    if ins : bool then Ret tt else schedule.

(** ** [unblock] *)

(** Only a thread that is neither running nor queued becomes runnable. *)
Definition unblock_table (tid : Z) : sec kernel (option (SchedulerClass * Z)) := fun _ k =>
  match mjoin (thread_at k tid) with
  | None => Some (k, None)
  | Some t =>
      match state (sched t) with
      | Running | Runnable => Some (k, None)
      | _ =>
          Some (put_thread k tid (with_sched t (fun s =>
                  se_slice (default_slice (effective_class s)) (se_state Runnable s))),
                Some (effective_class (sched t), affinity (sched t)))
      end
  end.

(** The CPU a woken thread is queued on: this one if its affinity allows it,
    else the first one that it allows. *)
Definition wake_target (aff cpu : Z) : Z :=
  if cpuset_contains aff cpu then cpu
  else default 0 (List.find (fun c => cpuset_contains aff c) (seqZ 0 MAX_CORES)).

Definition unblock (tid : Z) : act kernel unit :=
  r <~ atomic (unblock_table tid) ;;
  match r with
  | None => Ret tt
  | Some (c, aff) => cpu <~ here ;; enqueue_on_cpu (wake_target aff cpu) tid c
  end.

(** ** Load balancing *)

(** The scan of the queues: the CPUs of the largest and the smallest depth
    seen ([usize::MAX] when no queue was free). *)
Fixpoint balance_scan (cpus : list Z) (max_cpu max_depth min_cpu min_depth : Z) : act kernel (Z * Z * Z * Z) :=
  match cpus with
  | [] => Ret (max_cpu, max_depth, min_cpu, min_depth)
  | cpu :: cpus' =>
      d <~ atomic (fun e k =>
        if lock_busy e then Some (k, None)
        else rq ← (run_queues k).[cpu]; Some (k, Some (total_depth rq))) ;;
      match d with
      | None => balance_scan cpus' max_cpu max_depth min_cpu min_depth
      | Some depth =>
          let '(mx, mxd) := if depth >? max_depth then (cpu, depth) else (max_cpu, max_depth) in
          let '(mn, mnd) := if depth <? min_depth then (cpu, depth) else (min_cpu, min_depth) in
          balance_scan cpus' mx mxd mn mnd
      end
  end.

(** Both queues held: move one Normal thread if its affinity allows. *)
Definition migrate (src dst : Z) : sec kernel unit := fun e k =>
  if lock_busy e then Some (k, tt)
  else
    rqs ← (run_queues k).[src]; rqd ← (run_queues k).[dst];
    match FixedQueue.pop_front MAX_THREADS (normal rqs) with
    | (None, q) => Some (put_queue k src (mk_rq (rt rqs) (interactive rqs) q (idle rqs)), tt)
    | (Some tid, q) =>
        slot ← thread_at k tid;
        let can_migrate := match slot with Some t => cpuset_contains (affinity (sched t)) dst | None => false end in
        if can_migrate then
          Some (put_queue (put_queue k src (mk_rq (rt rqs) (interactive rqs) q (idle rqs)))
                  dst (mk_rq (rt rqd) (interactive rqd)
                         (FixedQueue.push_back MAX_THREADS (normal rqd) tid).2 (idle rqd)), tt)
        else
          Some (put_queue k src (mk_rq (rt rqs) (interactive rqs)
                  (FixedQueue.push_back MAX_THREADS q tid).2 (idle rqs)), tt)
    end.

Definition try_load_balance (online : Z) : act kernel unit :=
  if online <? 2 then Ret tt
  else
    r <~ balance_scan (seqZ 0 online) 0 0 0 (umax 64) ;;
    let '(max_cpu, max_depth, min_cpu, min_depth) := r in
    if (max_depth <=? saturating_add 64 min_depth 1) || (max_cpu =? min_cpu) then Ret tt
    else atomic (migrate max_cpu min_cpu).
