(* ===== verification/KernelCap.v ===== *)
(** * Capability enforcement in the kernel (kernel/src/cap/mod.rs)

    The checks every IPC and memory operation makes, and the grants; the
    per-process tables and their laws are in Capability.v.  Revocation also
    destroys channels, so it is with the channels, in Channels.v. *)

From S2P Require Import Prelude Abi Capability Act Task Sched.
Local Open Scope act_scope.

(** [NEXT_TOKEN_ID.fetch_add(1)] *)
Definition new_token_id (k : kernel) : kernel * Z :=
  (set_next_token_id k (wrapping_add 64 (next_token_id k) 1), next_token_id k).

Definition tick_now : act kernel Z := reads (fun k => tick_count k).

Definition process_of_thread (tid : Z) : act kernel (option Z) :=
  reads (fun k => t ← mjoin (thread_at k tid); owner_pid t).

Definition current_process_id : act kernel (option Z) :=
  cur <~ current_thread_id ;;
  match cur with
  | Some tid => process_of_thread tid
  | None => Ret None
  end.

(** A missing process is a denial, whatever the lookup's own error. *)
Definition deny_missing_process (_ : Z) : Z := ipc_code Eperm.

Definition map_err {E E' A} (f : E -> E') (r : result E A) : result E' A :=
  match r with Ok a => Ok a | Err e => Err (f e) end.

(** [check_channel_create], [check_shared_memory_create]: the token that
    authorizes the creation. *)
Definition check_create (cap : Capability) (p : Z) : act kernel (result Z Z) :=
  now <~ tick_now ;;
  reads (fun k =>
    pr ← map_err deny_missing_process (process_ref k p);
    ok_or (find_authorizing_token (cap_table pr) cap now) (ipc_code Eperm)).
Definition check_channel_create : Z -> act kernel (result Z Z) := check_create ChannelCreate.
Definition check_shared_memory_create : Z -> act kernel (result Z Z) := check_create SharedMemoryCreate.

(** [check_shared_memory_access] and the table part of
    [check_channel_access]. *)
Definition check_access (cap : Capability) (p : Z) : act kernel (result Z unit) :=
  now <~ tick_now ;;
  reads (fun k =>
    pr ← map_err deny_missing_process (process_ref k p);
    if has_capability (cap_table pr) cap now then Ok tt else Err (ipc_code Eperm)).
Definition check_shared_memory_access (p region_id : Z) : act kernel (result Z unit) :=
  check_access (SharedMemoryAccess region_id) p.
Definition check_channel_access (p channel : Z) : act kernel (result Z unit) :=
  match channel_index channel with
  | None => Ret (Err (ipc_code Einval))
  | Some _ => check_access (ChannelAccess channel) p
  end.

(** A new root token of process [p]. *)
Definition new_token (id : Z) (cap : Capability) (p : Z) (deleg : bool) (now : Z) : CapabilityToken :=
  mk_token id cap p deleg false None 0 now None.

Definition grant_to_process (p : Z) (cap : Capability) (deleg : bool) : act kernel (result Z Z) :=
  now <~ tick_now ;;
  atomic (fun _ k =>
    match process_ref k p with
    | Err e => Some (k, Err e)
    | Ok pr =>
        let '(k1, id) := new_token_id k in
        let '(tb, r) := grant (cap_table pr) (new_token id cap p deleg now) in
        Some (put_process k1 p (with_cap_table pr tb), r)
    end).

(** ** The Capability Kit ([CapabilityEnforcer] of [KernelCapabilitySystem]) *)

Inductive CapabilityError :=
| NotGranted (requested : Capability)
| TableFull
| InvalidHandle (handle : Z)
| Revoked (token_id : Z)
| InvalidAttenuation.

(** The slot of the first live token with the id. *)
Definition handle_of (tb : CapabilityTable) (id : Z) : option Z :=
  Z.of_nat <$> position (fun slot =>
    match slot with Some t => (tok_id t =? id) && negb (revoked t) | None => false end) (tokens tb).

Definition kit_check (holder : Z) (action : Capability) : act kernel (result CapabilityError Z) :=
  now <~ tick_now ;;
  reads (fun k =>
    pr ← map_err (fun _ => NotGranted action) (process_ref k holder);
    id ← ok_or (find_authorizing_token (cap_table pr) action now) (NotGranted action);
    ok_or (handle_of (cap_table pr) id) (NotGranted action)).

Definition kit_grant (holder : Z) (cap : Capability) (granted_by : Z) : act kernel (result CapabilityError Z) :=
  now <~ tick_now ;;
  atomic (fun _ k =>
    match process_ref k holder with
    | Err _ => Some (k, Err (NotGranted cap))
    | Ok pr =>
        let '(k1, id) := new_token_id k in
        let '(tb, r) := grant (cap_table pr) (new_token id cap holder true now) in
        Some (put_process k1 holder (with_cap_table pr tb), map_err (fun _ => TableFull) r)
    end).

(** The token of a handle, told apart by what is wrong with it. *)
Definition live_token (tb : CapabilityTable) (handle : Z) : result CapabilityError Z :=
  match (tokens tb).[handle] with
  | None | Some None => Err (InvalidHandle handle)
  | Some (Some t) => if revoked t then Err (Revoked (tok_id t)) else Ok (tok_id t)
  end.

(** [attenuate] takes the id before it knows whether the table accepts. *)
Definition attenuate_in (p handle : Z) (cap : Capability) (expiry : option Z) : sec kernel (result Z Z) := fun _ k =>
  match process_ref k p with
  | Err e => Some (k, Err e)
  | Ok pr =>
      let '(k1, id) := new_token_id k in
      let '(tb, r) := attenuate (cap_table pr) handle cap expiry p id in
      Some (put_process k1 p (with_cap_table pr tb), r)
  end.

Definition kit_attenuate (holder handle : Z) (narrowed : Capability) : act kernel (result CapabilityError Z) :=
  atomic (fun e k =>
    match process_ref k holder with
    | Err _ => Some (k, Err (InvalidHandle handle))
    | Ok _ =>
        '(k', r) ← attenuate_in holder handle narrowed None e k;
        Some (k', map_err (fun _ => InvalidAttenuation) r)
    end).

Definition kit_list_active (holder : Z) : act kernel (list CapabilityToken) :=
  reads (fun k =>
    match process_ref k holder with
    | Err _ => []
    | Ok pr =>
        List.filter (fun t => negb (revoked t) &&
          match expires_at_tick t with Some e => negb (tick_count k >=? e) | None => true end)
          (occupied (tokens (cap_table pr)))
    end).
