(* ===== verification/Channels.v ===== *)
(** * Channels, timeouts and the direct switch
    (kernel/src/ipc/mod.rs, timeout.rs, direct.rs; revocation of
    kernel/src/cap/mod.rs)

    The message ring, the channel table and its operations, the per-thread
    timeout, error and reply tables with the functions that wake a thread,
    revocation with the channels it destroys, and the two direct switches.
    A function that holds one lock while it takes another is one section per
    lock: the changes of the outer table all precede the inner sections. *)

From S2P Require Import Prelude Collections Abi Capability Act Task Sched KernelCap.
Local Open Scope act_scope.

(** ** The message ring *)

Definition ring_new : MessageRing := mk_ring (array_of RING_CAPACITY RawMessage_EMPTY) 0 0 0.

Definition ring_push (r : MessageRing) (msg : RawMessage) : bool * MessageRing :=
  if len r >=? RING_CAPACITY then (false, r)
  else (true, mk_ring ((entries r).[tail r <- msg]) (head r) ((tail r + 1) mod RING_CAPACITY) (len r + 1)).

Definition ring_pop (r : MessageRing) : option RawMessage * MessageRing :=
  if len r =? 0 then (None, r)
  else ((entries r).[head r],
        mk_ring (entries r) ((head r + 1) mod RING_CAPACITY) (tail r) (len r - 1)).

(** ** The channel table *)

Definition channel_new (id owner : Z) : Channel :=
  mk_channel id EpActive EpActive owner None ring_new None None None.

(** Writes to the fields of a channel. *)
Definition ch_set_ring (c : Channel) (r : MessageRing) : Channel :=
  mk_channel (ch_id c) (state_a c) (state_b c) (owner_a c) (owner_b c) r
    (waiting_receiver c) (pending_caller c) (creation_cap c).
Definition ch_set_receiver (c : Channel) (t : option Z) : Channel :=
  mk_channel (ch_id c) (state_a c) (state_b c) (owner_a c) (owner_b c) (ring c)
    t (pending_caller c) (creation_cap c).
Definition ch_set_caller (c : Channel) (t : option Z) : Channel :=
  mk_channel (ch_id c) (state_a c) (state_b c) (owner_a c) (owner_b c) (ring c)
    (waiting_receiver c) t (creation_cap c).
Definition ch_set_peer (c : Channel) (p : Z) : Channel :=
  mk_channel (ch_id c) (state_a c) (state_b c) (owner_a c) (Some p) (ring c)
    (waiting_receiver c) (pending_caller c) (creation_cap c).
Definition ch_set_cap (c : Channel) (t : Z) : Channel :=
  mk_channel (ch_id c) (state_a c) (state_b c) (owner_a c) (owner_b c) (ring c)
    (waiting_receiver c) (pending_caller c) (Some t).

(** [state_a == Dead || state_b == Dead] *)
Definition ch_dead (c : Channel) : bool :=
  match state_a c, state_b c with EpActive, EpActive => false | _, _ => true end.

(** [channel_slot_mut] and [channel_mut] *)
Definition channel_slot (k : kernel) (id : Z) : result Z (option Channel) :=
  match channel_index id with
  | Some i => Ok (mjoin ((channels k).[i]))
  | None => Err (ipc_code Einval)
  end.
Definition channel_ref (k : kernel) (id : Z) : result Z Channel :=
  match channel_slot k id with
  | Ok (Some c) => Ok c
  | Ok None => Err (ipc_code Epipe)
  | Err e => Err e
  end.
Definition put_channel (k : kernel) (id : Z) (c : option Channel) : kernel :=
  set_channels k ((channels k).[id <- c]).

(** The first free slot gets the channel. *)
Definition insert_channel (owner : Z) (cap : option Z) : sec kernel (result Z Z) := fun _ k =>
  match first_none (channels k) with
  | None => Some (k, Err (ipc_code Enospc))
  | Some i =>
      let id := Z.of_nat i in
      let c := channel_new id owner in
      let c := match cap with Some t => ch_set_cap c t | None => c end in
      Some (set_channels k (<[i := Some c]> (channels k)), Ok id)
  end.

Definition channel_create (creator : Z) : act kernel (result Z Z) :=
  p <~ process_of_thread creator ;;
  match p with
  | None => Ret (Err (ipc_code Eperm))
  | Some p => auth_token <~? check_channel_create p ;; atomic (insert_channel p (Some auth_token))
  end.

(** [channel_create_unchecked] (kernel/src/ipc/tests/mod.rs), which the
    kernel services use at boot; a full table is a panic there. *)
Definition channel_create_unchecked (owner : Z) : act kernel (result Z Z) := atomic (insert_channel owner None).

Definition channel_set_peer (channel peer : Z) : act kernel (result Z unit) :=
  atomic (fun _ k =>
    match channel_ref k channel with
    | Err e => Some (k, Err e)
    | Ok c => Some (put_channel k channel (Some (ch_set_peer c peer)), Ok tt)
    end).

(** ** Timeouts and error wake-ups (kernel/src/ipc/timeout.rs) *)

Definition set_timeout (tid : Z) (e : option TimeoutEntry) : act kernel unit :=
  updates_opt (fun k => _ ← (timeout_queue k).[tid];
    Some (set_timeout_queue k ((timeout_queue k).[tid <- e]))).

(** A busy queue keeps the entry. *)
Definition clear_timeout (tid : Z) : act kernel unit :=
  atomic (fun e k =>
    if lock_busy e then Some (k, tt)
    else _ ← (timeout_queue k).[tid];
         Some (set_timeout_queue k ((timeout_queue k).[tid <- None]), tt)).

Definition wake_with_error (tid error : Z) : act kernel unit :=
  updates_opt (fun k => _ ← (wakeup_errors k).[tid];
    Some (set_wakeup_errors k ((wakeup_errors k).[tid <- error]))) ;;;
  clear_timeout tid ;;;
  unblock tid.

Definition get_wakeup_error (tid : Z) : act kernel Z :=
  atomic (fun _ k => error ← (wakeup_errors k).[tid];
    Some (set_wakeup_errors k ((wakeup_errors k).[tid <- 0]), error)).

(** The entries that have expired leave the queue. *)
Fixpoint expire (now : Z) (q : list (option TimeoutEntry)) : list (option TimeoutEntry) * list (Z * Z) :=
  match q with
  | [] => ([], [])
  | None :: q' => let '(r, w) := expire now q' in (None :: r, w)
  | Some te :: q' =>
      let '(r, w) := expire now q' in
      if now >=? wake_at_tick te then (None :: r, (te_tid te, error_code te) :: w) else (Some te :: r, w)
  end.

(** [deadline_from_now] and [arm_timeout] (kernel/src/ipc/channel.rs) *)
Definition deadline_from_now (k : kernel) (timeout_ticks : Z) : option Z :=
  deadline_after (tick_count k) timeout_ticks.
Definition arm_timeout (tid : Z) (deadline : option Z) : act kernel unit :=
  match deadline with
  | Some wake_at => set_timeout tid (Some (mk_timeout tid wake_at (ipc_code Etimedout)))
  | None => Ret tt
  end.

Definition sleep_ticks (ticks : Z) : act kernel unit :=
  if ticks =? 0 then Ret tt
  else
    cur <~ current_thread_id ;;
    match cur with
    | None => Ret tt
    | Some tid =>
        now <~ tick_now ;;
        let deadline := default (umax 64) (deadline_after now ticks) in
        set_timeout tid (Some (mk_timeout tid deadline 0)) ;;;
        block_current (BlockedIpc (umax 64))
    end.

(** ** Destroying channels *)

Definition take_channel (channel : Z) : sec kernel (result Z Channel) := fun _ k =>
  match channel_ref k channel with
  | Err e => Some (k, Err e)
  | Ok c => Some (put_channel k channel None, Ok c)
  end.

Definition wake_all (tids : list (option Z)) (error : Z) : act kernel unit :=
  afor (occupied tids) (fun tid => wake_with_error tid error).

Definition channel_destroy_unchecked (channel : Z) : act kernel (result Z unit) :=
  c <~? atomic (take_channel channel) ;;
  wake_all [waiting_receiver c; pending_caller c] (ipc_code Epipe) ;;;
  Ret (Ok tt).

Definition channel_destroy (channel : Z) : act kernel (result Z unit) :=
  p <~ current_process_id ;;
  match p with
  | None => Ret (Err (ipc_code Eperm))
  | Some p =>
      _ <~? check_channel_access p channel ;;
      channel_destroy_unchecked channel
  end.

(** The ids of the channels a token created. *)
Definition channels_of_cap (k : kernel) (token : Z) : list Z :=
  map Z.of_nat (List.filter (fun i =>
    match mjoin (channels k !! i) with
    | Some c => bool_decide (creation_cap c = Some token)
    | None => false
    end) (seq 0 (length (channels k)))).

Definition revoke_channels_for_cap (token : Z) : act kernel unit :=
  ids <~ reads (fun k => channels_of_cap k token) ;;
  afor ids (fun id => channel_destroy_unchecked id ;;; Ret tt).

Definition revoke_in_process (p token : Z) : act kernel (result Z unit) :=
  match process_index p with
  | None => Ret (Err (ipc_code Einval))
  | Some _ =>
      updates (fun k =>
        match process_slot k p with
        | Ok (Some pr) => put_process k p (with_cap_table pr (revoke (cap_table pr) token))
        | _ => k
        end) ;;;
      revoke_channels_for_cap token ;;;
      Ret (Ok tt)
  end.

Definition kit_revoke (holder handle : Z) : act kernel (result CapabilityError unit) :=
  token <~? atomic (fun _ k =>
    match process_ref k holder with
    | Err _ => Some (k, Err (InvalidHandle handle))
    | Ok pr =>
        match live_token (cap_table pr) handle with
        | Err e => Some (k, Err e)
        | Ok token =>
            Some (put_process k holder (with_cap_table pr (revoke (cap_table pr) token)), Ok token)
        end
    end) ;;
  revoke_channels_for_cap token ;;;
  Ret (Ok tt).

(** ** Direct switch (kernel/src/ipc/direct.rs) *)

Definition is_blocked_ipc (t : Thread) : bool :=
  match state (sched t) with BlockedIpc _ => true | _ => false end.

(** [sender_eff_class > receiver.sched.class] *)
Definition outranks (c1 c2 : SchedulerClass) : bool := class_rank c1 >? class_rank c2.

(** The receiver inherits from the sender and takes its time slice. *)
Definition inherit (sender receiver : Thread) : option Thread :=
  depth ← checked_add 8 (inheritance_depth sender) 1;
  let s := sched sender in
  let f := fun r : SchedEntity =>
    let r := se_inherited (Some (effective_class s)) (Some (effective_priority s)) (deadline s) r in
    let r := if outranks (effective_class s) (class r)
             then se_effective (effective_class s) (effective_priority s) r else r in
    se_state Runnable (se_slice (time_slice_remaining s) r) in
  Some (with_depth (with_sched receiver f) (Z.min depth MAX_INHERITANCE_DEPTH)).

Definition direct_table (sender receiver : Z) : sec kernel bool := fun _ k =>
  match mjoin (thread_at k sender), mjoin (thread_at k receiver) with
  | Some s, Some r =>
      if is_blocked_ipc r then
        r' ← inherit s r;
        let k1 := put_thread k receiver r' in
        match mjoin (thread_at k1 sender) with
        | Some s' =>
            Some (put_thread k1 sender (with_sched s' (fun x => se_slice 0 (se_state (BlockedIpc 0) x))), true)
        | None => None
        end
      else Some (k, false)
  | _, _ => Some (k, false)
  end.

Definition try_direct_switch (sender receiver : Z) : act kernel bool :=
  cpu <~ here ;;
  ok <~ atomic (direct_table sender receiver) ;;
  if ok : bool then
    set_current cpu (Some receiver) ;;;
    save_context sender ;;;
    resumed sender ;;;
    Ret true
  else Ret false.

(** The replier's own priority comes back and the caller gets the rest of
    its time slice. *)
Definition reply_table (replier caller : Z) : sec kernel (option SchedulerClass) := fun _ k =>
  match mjoin (thread_at k replier), mjoin (thread_at k caller) with
  | Some r, Some c =>
      if is_blocked_ipc c then
        let restore := fun s => se_inherited None None None (se_effective (class s) (priority s) s) in
        let k1 := put_thread k replier
          (with_depth (with_sched r restore) (saturating_sub (inheritance_depth r) 1)) in
        r1 ← mjoin (thread_at k1 replier); c1 ← mjoin (thread_at k1 caller);
        let k2 := put_thread k1 caller
          (with_sched c1 (fun s => se_state Running (se_slice (time_slice_remaining (sched r1)) s))) in
        r2 ← mjoin (thread_at k2 replier);
        let k3 := put_thread k2 replier (with_sched r2 (fun s => se_slice 0 (se_state Runnable s))) in
        r3 ← mjoin (thread_at k3 replier);
        Some (k3, Some (effective_class (sched r3)))
      else Some (k, None)
  | _, _ => Some (k, None)
  end.

Definition try_reply_switch (replier caller : Z) : act kernel bool :=
  cpu <~ here ;;
  r <~ atomic (reply_table replier caller) ;;
  match r with
  | None => Ret false
  | Some c =>
      set_current cpu (Some caller) ;;;
      enqueue_on_cpu cpu replier c ;;;
      save_context replier ;;;
      resumed replier ;;;
      Ret true
  end.
