(* ===== verification/Notify.v ===== *)
(** * Notifications and select waiters
    (kernel/src/ipc/notify.rs, the wake helpers of select.rs, check_timeouts)

    A notification is a 64-bit word and eight waiter slots; a signal ORs bits
    in and hands each waiter whose mask matches the bits it waits for.  A
    thread in [ipc_select] is woken through its entry of [SELECT_WAITERS]. *)

From S2P Require Import Prelude Abi Capability Act Task Sched KernelCap Channels.
Local Open Scope act_scope.

(** ** Select wake-ups (kernel/src/ipc/select.rs) *)

(** The same source: masks are not compared. *)
Definition same_source (a b : SelectKind) : bool :=
  match a, b with
  | SelChannel x, SelChannel y => x =? y
  | SelNotification x _, SelNotification y _ => x =? y
  | _, _ => false
  end.

(** The first of the [entry_count] entries that matches the source. *)
Definition match_entry (sw : SelectWaiter) (source : SelectKind) : option Z :=
  Z.of_nat <$> position (fun e => match e with Some x => same_source x source | None => false end)
    (take (Z.to_nat (entry_count sw)) (sw_entries sw)).

Definition sw_ready (sw : SelectWaiter) (i bits : Z) : SelectWaiter :=
  mk_select (sw_tid sw) (sw_entries sw) (entry_count sw) (Some i) bits.

(** The section of SELECT_WAITERS that both wake helpers share: marks the
    entry ready; [true] if there was one. *)
Definition mark_ready (tid : Z) (source : SelectKind) (bits : Z) : sec kernel bool := fun _ k =>
  slot ← (select_waiters k).[tid];
  match slot with
  | None => Some (k, false)
  | Some sw =>
      match match_entry sw source with
      | None => Some (k, false)
      | Some i => Some (set_select_waiters k ((select_waiters k).[tid <- Some (sw_ready sw i bits)]), true)
      end
  end.

Definition try_wake_select (tid : Z) (source : SelectKind) (bits : Z) : act kernel bool :=
  is_select <~ reads_opt (fun k => slot ← thread_at k tid;
    Some (match slot with Some t => bool_decide (state (sched t) = BlockedSelect) | None => false end)) ;;
  if negb is_select then Ret false
  else
    found <~ atomic (mark_ready tid source bits) ;;
    if found : bool then unblock tid ;;; Ret true else Ret false.

Definition set_select_ready (tid : Z) (source : SelectKind) (bits : Z) : act kernel unit :=
  atomic (mark_ready tid source bits) ;;; Ret tt.

(** ** Notification objects *)

Definition notif_new (id creator : Z) : NotificationObject :=
  mk_notif id 0 creator (array_of MAX_WAITERS_PER_NOTIFICATION None).

Definition with_word (n : NotificationObject) (w : Z) : NotificationObject :=
  mk_notif (n_id n) w (n_creator n) (waiters n).
Definition with_waiters (n : NotificationObject) (ws : list (option Waiter)) : NotificationObject :=
  mk_notif (n_id n) (word n) (n_creator n) ws.

Definition put_notif (k : kernel) (id : Z) (n : option NotificationObject) : kernel :=
  set_notifications k ((notifications k).[id <- n]).

Definition notification_create (p : Z) : act kernel (result Z Z) :=
  atomic (fun _ k =>
    match first_none (notifications k) with
    | None => Some (k, Err (ipc_code Enomem))
    | Some i =>
        Some (set_notifications k (<[i := Some (notif_new (Z.of_nat i) p)]> (notifications k)), Ok (Z.of_nat i))
    end).

(** [fetch_and(!matched)] *)
Definition clear_bits (w matched : Z) : Z := Z.land w (unot 64 matched).

(** The loop over the waiters: in slot order, each takes the bits of its mask
    that are still set. *)
Fixpoint signal_scan (ws : list (option Waiter)) (w : Z) : list (option Waiter) * Z * list (Z * Z) :=
  match ws with
  | [] => ([], w, [])
  | None :: ws' => let '(r, w', wake) := signal_scan ws' w in (None :: r, w', wake)
  | Some x :: ws' =>
      let matched := Z.land w (w_mask x) in
      if negb (matched =? 0) then
        let '(r, w', wake) := signal_scan ws' (clear_bits w matched) in
        (None :: r, w', (w_tid x, matched) :: wake)
      else
        let '(r, w', wake) := signal_scan ws' w in (Some x :: r, w', wake)
  end.

Definition signal_table (id bits : Z) : sec kernel (result Z (list (Z * Z))) := fun _ k =>
  slot ← (notifications k).[id];
  match slot with
  | None => Some (k, Err (ipc_code Einval))
  | Some n =>
      let '(ws, w, wake) := signal_scan (waiters n) (Z.lor (word n) bits) in
      Some (put_notif k id (Some (with_waiters (with_word n w) ws)), Ok wake)
  end.

(** [results[tid] = Some(matched)] for each woken thread. *)
Fixpoint store_results (wake : list (Z * Z)) (results : list (option Z)) : option (list (option Z)) :=
  match wake with
  | [] => Some results
  | (tid, matched) :: wake' => _ ← results.[tid]; store_results wake' (results.[tid <- Some matched])
  end.

Definition notification_signal (id bits : Z) : act kernel (result Z unit) :=
  if id >=? MAX_NOTIFICATIONS then Ret (Err (ipc_code Einval))
  else
    wake <~? atomic (signal_table id bits) ;;
    (if 0 <? alen wake then
       updates_opt (fun k => r ← store_results wake (notify_results k); Some (set_notify_results k r)) ;;;
       afor wake (fun x =>
         woken <~ try_wake_select x.1 (SelNotification id x.2) x.2 ;;
         if woken : bool then Ret tt else unblock x.1)
     else Ret tt) ;;;
    Ret (Ok tt).

(** The bits of [mask] that are set, taken out of the word. *)
Definition take_bits (n : NotificationObject) (mask : Z) : option (Z * NotificationObject) :=
  let matched := Z.land (word n) mask in
  if negb (matched =? 0) then Some (matched, with_word n (clear_bits (word n) matched)) else None.

Definition poll_table (id mask : Z) : sec kernel (result Z (option Z)) := fun _ k =>
  slot ← (notifications k).[id];
  match slot with
  | None => Some (k, Err (ipc_code Einval))
  | Some n =>
      match take_bits n mask with
      | Some (matched, n') => Some (put_notif k id (Some n'), Ok (Some matched))
      | None => Some (k, Ok None)
      end
  end.

(** The second look at the word, and the registration as a waiter. *)
Definition register_table (id mask tid : Z) : sec kernel (result Z (option Z)) := fun _ k =>
  slot ← (notifications k).[id];
  match slot with
  | None => Some (k, Err (ipc_code Einval))
  | Some n =>
      match take_bits n mask with
      | Some (matched, n') => Some (put_notif k id (Some n'), Ok (Some matched))
      | None =>
          match first_none (waiters n) with
          | None => Some (k, Err (ipc_code Enomem))
          | Some i =>
              Some (put_notif k id (Some (with_waiters n (<[i := Some (mk_waiter tid mask)]> (waiters n)))), Ok None)
          end
      end
  end.

Definition set_thread_deadline (tid deadline : Z) : act kernel unit :=
  updates_opt (fun k => _ ← (notify_deadlines k).[tid];
    Some (set_notify_deadlines k ((notify_deadlines k).[tid <- deadline]))).

(** The first slot of the thread is emptied. *)
Definition remove_waiter (tid : Z) (ws : list (option Waiter)) : list (option Waiter) :=
  match position (fun s => match s with Some x => w_tid x =? tid | None => false end) ws with
  | Some i => <[i := None]> ws
  | None => ws
  end.

Definition cleanup_waiter (id tid : Z) : act kernel unit :=
  updates_opt (fun k => slot ← (notifications k).[id];
    Some (match slot with
          | Some n => put_notif k id (Some (with_waiters n (remove_waiter tid (waiters n))))
          | None => k
          end)).

Definition take_result (tid : Z) : act kernel (option Z) :=
  atomic (fun _ k => r ← (notify_results k).[tid];
    Some (set_notify_results k ((notify_results k).[tid <- None]), r)).

Definition notification_wait (id mask timeout_ticks : Z) : act kernel (result Z Z) :=
  if id >=? MAX_NOTIFICATIONS then Ret (Err (ipc_code Einval))
  else
    cur <~ current_thread_id ;;
    match cur with
    | None => Ret (Err (ipc_code Einval))
    | Some my_tid =>
        fast <~? atomic (poll_table id mask) ;;
        match fast with
        | Some matched => Ret (Ok matched)
        | None =>
            now <~ tick_now ;;
            let deadline := default (umax 64) (deadline_after now timeout_ticks) in
            slow <~? atomic (register_table id mask my_tid) ;;
            match slow with
            | Some matched => Ret (Ok matched)
            | None =>
                set_thread_deadline my_tid deadline ;;;
                block_current (BlockedNotification id) ;;;
                r <~ take_result my_tid ;;
                match r with
                | Some bits => Ret (Ok bits)
                | None => cleanup_waiter id my_tid ;;; Ret (Err (ipc_code Etimedout))
                end
            end
        end
    end.

Definition take_notif (id : Z) : sec kernel (option NotificationObject) := fun _ k =>
  slot ← (notifications k).[id]; Some (put_notif k id None, slot).

Definition notification_destroy (id : Z) : act kernel unit :=
  if id >=? MAX_NOTIFICATIONS then Ret tt
  else
    n <~ atomic (take_notif id) ;;
    match n with
    | None => Ret tt
    | Some n => afor (occupied (waiters n)) (fun x => unblock (w_tid x))
    end.

(** ** Expiry (timer interrupt) *)

(** A deadline that has passed is cleared. *)
Definition expire_deadline (now i : Z) : sec kernel bool := fun _ k =>
  d ← (notify_deadlines k).[i];
  if d <=? now then Some (set_notify_deadlines k ((notify_deadlines k).[i <- umax 64]), true)
  else Some (k, false).

(** [try_lock] on the tables from the interrupt: a busy one is skipped. *)
Definition expire_waiter (notification tid : Z) : act kernel unit :=
  atomic (fun e k =>
    if lock_busy e then Some (k, tt)
    else slot ← (notifications k).[notification];
         Some (match slot with
               | Some n => put_notif k notification (Some (with_waiters n (remove_waiter tid (waiters n))))
               | None => k
               end, tt)).

Definition expire_select (tid : Z) : act kernel unit :=
  atomic (fun e k =>
    if lock_busy e then Some (k, tt)
    else _ ← (select_waiters k).[tid];
         Some (set_select_waiters k ((select_waiters k).[tid <- None]), tt)).

Definition expire_thread (now i : Z) : act kernel unit :=
  due <~ atomic (expire_deadline now i) ;;
  if negb due then Ret tt
  else
    st <~ atomic (fun e k =>
      if lock_busy e then Some (k, None)
      else match thread_at k i with
           | None => None
           | Some slot => Some (k, option_map (fun t => state (sched t)) slot)
           end) ;;
    match st with
    | Some (BlockedNotification n) => expire_waiter n i ;;; unblock i
    | Some BlockedSelect => expire_select i ;;; unblock i
    | _ => Ret tt
    end.

Definition check_notification_timeouts (now : Z) : act kernel unit :=
  busy <~ atomic (fun e k => Some (k, lock_busy e)) ;;
  if busy : bool then Ret tt else afor (seqZ 0 MAX_THREADS) (expire_thread now).

Definition check_timeouts : act kernel unit :=
  now <~ tick_now ;;
  expired <~ atomic (fun e k =>
    if lock_busy e then Some (k, None)
    else let '(q, w) := expire now (timeout_queue k) in Some (set_timeout_queue k q, Some w)) ;;
  match expired with
  | None => Ret tt
  | Some w =>
      afor w (fun x => wake_with_error x.1 x.2) ;;;
      check_notification_timeouts now
  end.
