(* ===== verification/Ipc.v ===== *)
(** * The IPC operations (kernel/src/ipc/channel.rs, select.rs)

    [ipc_call], [ipc_recv], [ipc_reply], [ipc_send], [ipc_cancel] and
    [ipc_select], with the capability checks they start with.  A receive
    returns the bytes it copies into the caller's buffer; a reply goes
    through the address in [REPLY_SLOTS], so the reply buffer is kernel
    memory. *)

From S2P Require Import Prelude Abi Capability Act Task Sched KernelCap Channels Notify.
Local Open Scope act_scope.

(** [copy_nonoverlapping] to kernel or user memory. *)
Definition store_bytes (m : Z -> Z) (a : Z) (bs : list Z) : Z -> Z := fun x =>
  if (a <=? x) && (x <? a + alen bs) then default (m x) (bs.[x - a]) else m x.

(** The message built from a payload that fits. *)
Definition message (sender : Z) (payload : list Z) : RawMessage :=
  {| msg_sender := sender; msg_data := copy_at (msg_data RawMessage_EMPTY) 0 payload; msg_len := alen payload |}.

(** The check of [ipc_call], [ipc_send] and [ipc_recv]. *)
Definition thread_access (tid channel : Z) : act kernel (result Z unit) :=
  p <~ process_of_thread tid ;;
  match p with
  | Some p => check_channel_access p channel
  | None => Ret (Err (ipc_code Eperm))
  end.

(** An operation that returns an [i64]: errors are negative codes. *)
Definition code_of {A} (f : A -> Z) (r : result Z A) : Z := match r with Ok a => f a | Err e => e end.

(** ** [ipc_call] *)

(** Under CHANNEL_TABLE: the request is queued, the caller registered, and a
    waiting receiver taken. *)
Definition call_table (channel caller : Z) (msg : RawMessage) (timeout_ticks : Z) :
    sec kernel (result Z (option Z * option Z)) := fun _ k =>
  match channel_ref k channel with
  | Err e => Some (k, Err e)
  | Ok c =>
      if ch_dead c then Some (k, Err (ipc_code Epipe))
      else match pending_caller c with
           | Some _ => Some (k, Err (ipc_code Eagain))
           | None =>
               let '(ok, r) := ring_push (ring c) msg in
               if negb ok then Some (k, Err (ipc_code Enospc))
               else
                 let deadline := if timeout_ticks =? 0 then None else deadline_from_now k timeout_ticks in
                 let c' := ch_set_receiver (ch_set_caller (ch_set_ring c r) (Some caller)) None in
                 Some (put_channel k channel (Some c'), Ok (deadline, waiting_receiver c))
           end
  end.

Definition set_reply_slot (tid : Z) (s : option ReplySlot) : act kernel unit :=
  updates_opt (fun k => _ ← (reply_slots k).[tid];
    Some (set_reply_slots k ((reply_slots k).[tid <- s]))).

(** Hands the CPU to the waiting receiver, or wakes it and blocks. *)
Definition call_switch (channel caller receiver : Z) : act kernel unit :=
  switched <~ try_direct_switch caller receiver ;;
  if switched : bool then Ret tt
  else
    woken <~ try_wake_select receiver (SelChannel channel) 0 ;;
    (if woken : bool then Ret tt else unblock receiver) ;;;
    block_current (BlockedIpc channel).

(** After the wake-up: the bytes of the reply, or the error. *)
Definition call_result (channel caller : Z) : act kernel Z :=
  set_timeout caller None ;;;
  written <~ atomic (fun _ k => s ← (reply_slots k).[caller];
    Some (set_reply_slots k ((reply_slots k).[caller <- None]),
          match s with Some s => bytes_written s | None => 0 end)) ;;
  error <~ get_wakeup_error caller ;;
  if negb (error =? 0) then
    updates (fun k =>
      match channel_ref k channel with
      | Ok c => if bool_decide (pending_caller c = Some caller)
                then put_channel k channel (Some (ch_set_caller c None)) else k
      | Err _ => k
      end) ;;;
    Ret error
  else Ret written.

Definition ipc_call (channel : Z) (send_buf : list Z) (recv_ptr recv_len timeout_ticks : Z) : act kernel Z :=
  if alen send_buf >? MAX_MESSAGE_SIZE then Ret (ipc_code Enospc)
  else
    cur <~ current_thread_id ;;
    match cur with
    | None => Ret (ipc_code Eperm)
    | Some caller =>
        acc <~ thread_access caller channel ;;
        match acc with
        | Err e => Ret e
        | Ok _ =>
            queued <~ atomic (call_table channel caller (message caller send_buf) timeout_ticks) ;;
            match queued with
            | Err e => Ret e
            | Ok (deadline, target) =>
                (match target with
                 | Some receiver =>
                     clear_timeout receiver ;;;
                     set_select_ready receiver (SelChannel channel) 0
                 | None => Ret tt
                 end) ;;;
                set_reply_slot caller (Some (mk_reply recv_ptr recv_len 0)) ;;;
                arm_timeout caller deadline ;;;
                (match target with
                 | Some receiver => call_switch channel caller receiver
                 | None => block_current (BlockedIpc channel)
                 end) ;;;
                call_result channel caller
            end
        end
    end.

(** ** [ipc_recv] *)

(** The copy of a message into a buffer of [recv_len] bytes. *)
Definition delivered (msg : RawMessage) (recv_len : Z) : option (list Z * Z) :=
  let copy_len := Z.min (msg_len msg) recv_len in
  if copy_len <=? alen (msg_data msg)
  then Some (take (Z.to_nat copy_len) (msg_data msg), msg_sender msg) else None.

(** The first look at the ring: a message, or the registration. *)
Definition recv_table (channel receiver recv_len timeout_ticks : Z) :
    sec kernel (result Z ((list Z * Z) + option Z)) := fun _ k =>
  match channel_ref k channel with
  | Err e => Some (k, Err e)
  | Ok c =>
      if ch_dead c then Some (k, Err (ipc_code Epipe))
      else match ring_pop (ring c) with
           | (Some msg, r) =>
               out ← delivered msg recv_len;
               Some (put_channel k channel (Some (ch_set_ring c r)), Ok (inl out))
           | (None, _) =>
               if timeout_ticks =? 0 then Some (k, Err (ipc_code Eagain))
               else match waiting_receiver c with
                    | Some _ => Some (k, Err (ipc_code Eagain))
                    | None =>
                        Some (put_channel k channel (Some (ch_set_receiver c (Some receiver))),
                              Ok (inr (deadline_from_now k timeout_ticks)))
                    end
           end
  end.

(** [waiting_receiver] is cleared if it is still this thread. *)
Definition unregister_receiver (channel tid : Z) : act kernel unit :=
  updates (fun k =>
    match channel_ref k channel with
    | Ok c => if bool_decide (waiting_receiver c = Some tid)
              then put_channel k channel (Some (ch_set_receiver c None)) else k
    | Err _ => k
    end).

Definition retry_table (channel recv_len : Z) : sec kernel (result Z (list Z * Z)) := fun _ k =>
  match channel_ref k channel with
  | Err e => Some (k, Err e)
  | Ok c =>
      match ring_pop (ring c) with
      | (Some msg, r) =>
          out ← delivered msg recv_len;
          Some (put_channel k channel (Some (ch_set_ring c r)), Ok out)
      | (None, _) => Some (k, Err (ipc_code Eagain))
      end
  end.

Definition ipc_recv (channel recv_len timeout_ticks : Z) : act kernel (result Z (list Z * Z)) :=
  cur <~ current_thread_id ;;
  match cur with
  | None => Ret (Err (ipc_code Eperm))
  | Some receiver =>
      _ <~? thread_access receiver channel ;;
      r <~? atomic (recv_table channel receiver recv_len timeout_ticks) ;;
      match r with
      | inl out => Ret (Ok out)
      | inr deadline =>
          arm_timeout receiver deadline ;;;
          block_current (BlockedIpc channel) ;;;
          set_timeout receiver None ;;;
          unregister_receiver channel receiver ;;;
          error <~ get_wakeup_error receiver ;;
          if negb (error =? 0) then Ret (Err error) else atomic (retry_table channel recv_len)
      end
  end.

(** ** [ipc_reply] *)

Definition take_caller (channel : Z) (none : Z) : sec kernel (result Z Z) := fun _ k =>
  match channel_ref k channel with
  | Err e => Some (k, Err e)
  | Ok c =>
      match pending_caller c with
      | None => Some (k, Err none)
      | Some t => Some (put_channel k channel (Some (ch_set_caller c None)), Ok t)
      end
  end.

(** The reply is copied through the caller's slot. *)
Definition reply_copy (caller : Z) (reply_buf : list Z) : sec kernel unit := fun _ k =>
  slot ← (reply_slots k).[caller];
  match slot with
  | None => Some (k, tt)
  | Some s =>
      let copy_len := Z.min (alen reply_buf) (buf_len s) in
      let k1 := set_kmem k (store_bytes (kmem k) (rs_buf s) (take (Z.to_nat copy_len) reply_buf)) in
      Some (set_reply_slots k1 ((reply_slots k).[caller <- Some (mk_reply (rs_buf s) (buf_len s) copy_len)]), tt)
  end.

Definition ipc_reply (channel : Z) (reply_buf : list Z) : act kernel Z :=
  if alen reply_buf >? MAX_MESSAGE_SIZE then Ret (ipc_code Enospc)
  else
    cur <~ current_thread_id ;;
    match cur with
    | None => Ret (ipc_code Eperm)
    | Some replier =>
        r <~ atomic (take_caller channel (ipc_code Eproto)) ;;
        match r with
        | Err e => Ret e
        | Ok caller =>
            atomic (reply_copy caller reply_buf) ;;;
            clear_timeout caller ;;;
            switched <~ try_reply_switch replier caller ;;
            if switched : bool then Ret 0 else unblock caller ;;; Ret 0
        end
    end.

(** ** [ipc_send] *)

Definition send_table (channel : Z) (msg : RawMessage) : sec kernel (result Z (option Z)) := fun _ k =>
  match channel_ref k channel with
  | Err e => Some (k, Err e)
  | Ok c =>
      if ch_dead c then Some (k, Err (ipc_code Epipe))
      else
        let '(ok, r) := ring_push (ring c) msg in
        if negb ok then Some (k, Err (ipc_code Eagain))
        else Some (put_channel k channel (Some (ch_set_receiver (ch_set_ring c r) None)), Ok (waiting_receiver c))
  end.

Definition ipc_send (channel : Z) (send_buf : list Z) : act kernel Z :=
  if alen send_buf >? MAX_MESSAGE_SIZE then Ret (ipc_code Enospc)
  else
    cur <~ current_thread_id ;;
    match cur with
    | None => Ret (ipc_code Eperm)
    | Some sender =>
        acc <~ thread_access sender channel ;;
        match acc with
        | Err e => Ret e
        | Ok _ =>
            r <~ atomic (send_table channel (message sender send_buf)) ;;
            match r with
            | Err e => Ret e
            | Ok None => Ret 0
            | Ok (Some receiver) =>
                clear_timeout receiver ;;;
                woken <~ try_wake_select receiver (SelChannel channel) 0 ;;
                (if woken : bool then Ret tt else unblock receiver) ;;;
                Ret 0
            end
        end
    end.

(** ** [ipc_cancel] *)

(** [take_caller] with 0 for nothing to cancel. *)
Definition ipc_cancel (channel : Z) : act kernel Z :=
  p <~ current_process_id ;;
  match p with
  | None => Ret (ipc_code Eperm)
  | Some p =>
      acc <~ check_channel_access p channel ;;
      match acc with
      | Err e => Ret e
      | Ok _ =>
          r <~ atomic (take_caller channel 0) ;;
          match r with
          | Err e => Ret e
          | Ok caller => wake_with_error caller (ipc_code Ecanceled) ;;; Ret 0
          end
      end
  end.

(** ** [ipc_select] *)

Definition entry_in_range (e : SelectKind) : bool :=
  match e with
  | SelChannel ch => match channel_index ch with Some _ => true | None => false end
  | SelNotification n _ => n <? MAX_NOTIFICATIONS
  end.

Definition select_channels (entries : list SelectKind) : list Z :=
  omap (fun e => match e with SelChannel ch => Some ch | SelNotification _ _ => None end) entries.

Definition check_channel_entries (tid : Z) (entries : list SelectKind) : act kernel (result Z unit) :=
  match select_channels entries with
  | [] => Ret (Ok tt)
  | chs =>
      p <~ process_of_thread tid ;;
      match p with
      | None => Ret (Err (ipc_code Eperm))
      | Some p => afor_ok chs (check_channel_access p)
      end
  end.

(** One entry of the scan: the matched bits if its source is ready. *)
Definition scan_entry (e : SelectKind) : sec kernel (option Z) := fun _ k =>
  match e with
  | SelChannel ch =>
      Some (k, match channel_ref k ch with
               | Ok c => if len (ring c) >? 0 then Some 0 else None
               | Err _ => None
               end)
  | SelNotification n mask =>
      slot ← (notifications k).[n];
      match slot with
      | None => Some (k, None)
      | Some x =>
          match take_bits x mask with
          | Some (matched, x') => Some (put_notif k n (Some x'), Some matched)
          | None => Some (k, None)
          end
      end
  end.

Fixpoint scan_entries (i : Z) (entries : list SelectKind) : act kernel (option (Z * Z)) :=
  match entries with
  | [] => Ret None
  | e :: entries' =>
      r <~ atomic (scan_entry e) ;;
      match r with
      | Some bits => Ret (Some (i, bits))
      | None => scan_entries (i + 1) entries'
      end
  end.

Definition register_entry (tid : Z) (e : SelectKind) : act kernel unit :=
  updates_opt (fun k =>
    match e with
    | SelChannel ch =>
        Some (match channel_ref k ch with
              | Ok c => match waiting_receiver c with
                        | None => put_channel k ch (Some (ch_set_receiver c (Some tid)))
                        | Some _ => k
                        end
              | Err _ => k
              end)
    | SelNotification n mask =>
        slot ← (notifications k).[n];
        Some (match slot with
              | None => k
              | Some x =>
                  match first_none (waiters x) with
                  | Some i => put_notif k n (Some (with_waiters x (<[i := Some (mk_waiter tid mask)]> (waiters x))))
                  | None => k
                  end
              end)
    end).

Definition unregister_entry (tid : Z) (e : SelectKind) : act kernel unit :=
  match e with
  | SelChannel ch => unregister_receiver ch tid
  | SelNotification n _ => cleanup_waiter n tid
  end.

Definition select_waiter (tid : Z) (entries : list SelectKind) : SelectWaiter :=
  mk_select tid (copy_at (array_of MAX_SELECT_ENTRIES None) 0 (map Some entries)) (alen entries) None 0.

Definition ipc_select (entries : list SelectKind) (timeout_ticks : Z) : act kernel (result Z (Z * Z)) :=
  cur <~ current_thread_id ;;
  match cur with
  | None => Ret (Err (ipc_code Einval))
  | Some my_tid =>
      if (alen entries =? 0) || (alen entries >? MAX_SELECT_ENTRIES) then Ret (Err (ipc_code Einval))
      else if negb (forallb entry_in_range entries) then Ret (Err (ipc_code Einval))
      else
        _ <~? check_channel_entries my_tid entries ;;
        ready <~ scan_entries 0 entries ;;
        match ready with
        | Some r => Ret (Ok r)
        | None =>
            now <~ tick_now ;;
            let deadline := default (umax 64) (deadline_after now timeout_ticks) in
            updates_opt (fun k => _ ← (select_waiters k).[my_tid];
              Some (set_select_waiters k ((select_waiters k).[my_tid <- Some (select_waiter my_tid entries)]))) ;;;
            afor entries (register_entry my_tid) ;;;
            set_thread_deadline my_tid deadline ;;;
            block_current BlockedSelect ;;;
            r <~ atomic (fun _ k => slot ← (select_waiters k).[my_tid];
              Some (set_select_waiters k ((select_waiters k).[my_tid <- None]),
                    match slot with Some sw => (ready_index sw, ready_bits sw) | None => (None, 0) end)) ;;
            afor entries (unregister_entry my_tid) ;;;
            match r with
            | (Some idx, bits) => Ret (Ok (idx, bits))
            | (None, _) => Ret (Err (ipc_code Etimedout))
            end
        end
  end.
