(* ===== verification/Shmem.v ===== *)
(** * Shared and private memory (kernel/src/ipc/shmem.rs)

    Regions of contiguous pages shared under capabilities, with their
    mappings and reference counts, and the private blocks of MemoryMap.  The
    pages come from the user pool of the frame allocator (Pools.v); the
    direct map makes physical memory writable, so zeroing a block writes the
    allocator's memory. *)

From S2P Require Import Prelude Abi Capability PhysMem Memory Buddy Pools Paging Act Task Sched KernelCap.
Local Open Scope act_scope.

Definition SHM_VA_BASE : Z := 0x10000000.
Definition MAX_SHARED_REGION_PAGES : Z := Z.shiftl 1 (Z.of_nat MAX_ORDER).
Definition SHM_VA_STRIDE : Z := MAX_SHARED_REGION_PAGES * 4096.
Definition MAX_PRIVATE_PAGES : Z := 64.
Definition MAX_PRIVATE_ALLOCATIONS : Z := 64.
Definition PRIVATE_VA_BASE : Z := SHM_VA_BASE + MAX_SHARED_REGIONS * SHM_VA_STRIDE.
Definition PRIVATE_VA_STRIDE : Z := MAX_PRIVATE_PAGES * 4096.

(** [flags.contains(WRITE | EXECUTE)] *)
Definition violates_wx (flags : Z) : bool := flags_contains flags (Z.lor WRITE EXECUTE).

(** [size.div_ceil(PAGE_SIZE).max(1)] *)
Definition pages_of (size : Z) : Z := Z.max (div_ceil size 4096) 1.

(** ** The frame allocator's user pool (kernel/src/mm/frame.rs) *)

Definition alloc_user_pages (order : Z) : act kernel (option Z) :=
  atomic (fun _ k =>
    match frame_alloc k with
    | None => Some (k, None)
    | Some f =>
        let '(r, f') := frame_alloc_pages f PoolUser (Z.to_nat order) in
        Some (set_frame_alloc k (Some f'), r)
    end).

Definition free_user_pages (phys order : Z) : act kernel unit :=
  updates_opt (fun k =>
    match frame_alloc k with
    | None => Some k
    | Some f => f' ← frame_free_pages f phys (Z.to_nat order); Some (set_frame_alloc k (Some f'))
    end).

(** [write_bytes(dmap_va, 0, (1 << order) * PAGE_SIZE)] *)
Definition zero_pages (phys order : Z) : act kernel unit :=
  updates (fun k =>
    match frame_alloc k with
    | None => k
    | Some f =>
        set_frame_alloc k (Some (mk_frames (f_pools f) (f_total f)
          (write_bytes (f_mem f) phys 0 (Z.shiftl 1 order * 4096))))
    end).

(** ** Regions *)

Definition put_region (k : kernel) (id : Z) (r : option SharedMemoryRegion) : kernel :=
  set_regions k ((regions k).[id <- r]).

Definition with_mappings (r : SharedMemoryRegion) (ms : list (option SharedMapping)) (refs : Z) : SharedMemoryRegion :=
  mk_region (r_id r) (r_base_phys r) (r_order r) (size_bytes r) refs (r_creator r) (max_flags r)
    (r_creation_cap r) ms.

Definition insert_region (p base_phys order size_pages flags token : Z) : sec kernel (option Z) := fun _ k =>
  match first_none (regions k) with
  | None => Some (k, None)
  | Some i =>
      let id := Z.of_nat i in
      let r := mk_region id base_phys order (size_pages * 4096) 0 p flags (Some token)
                 (array_of MAX_SHARED_MAPPINGS None) in
      Some (set_regions k (<[i := Some r]> (regions k)), Some id)
  end.

Definition shared_memory_create (p size flags : Z) : act kernel (result Z Z) :=
  if violates_wx flags then Ret (Err (ipc_code Einval))
  else
    let size_pages := pages_of size in
    if size_pages >? MAX_SHARED_REGION_PAGES then Ret (Err (ipc_code Einval))
    else
      token <~? check_shared_memory_create p ;;
      let order := order_for_pages size_pages in
      block <~ alloc_user_pages order ;;
      match block with
      | None => Ret (Err (ipc_code Enomem))
      | Some base_phys =>
          zero_pages base_phys order ;;;
          slot <~ atomic (insert_region p base_phys order size_pages flags token) ;;
          match slot with
          | None => free_user_pages base_phys order ;;; Ret (Err (ipc_code Enospc))
          | Some id =>
              grant_to_process p (SharedMemoryAccess id) true ;;;
              Ret (Ok id)
          end
      end.

(** The mapping of a process, if it has one. *)
Definition mapped_by (p : Z) (m : option SharedMapping) : bool :=
  match m with Some m => m_pid m =? p | None => false end.

Definition map_region (p region_id flags : Z) : sec kernel (result Z Z) := fun _ k =>
  slot ← (regions k).[region_id];
  match slot with
  | None => Some (k, Err (ipc_code Epipe))
  | Some r =>
      if negb (flags_contains (max_flags r) flags) then Some (k, Err (ipc_code Einval))
      else if existsb (mapped_by p) (mappings r) then Some (k, Err (ipc_code Eexist))
      else match first_none (mappings r) with
           | None => Some (k, Err (ipc_code Enospc))
           | Some i =>
               let va := SHM_VA_BASE + region_id * SHM_VA_STRIDE in
               Some (put_region k region_id (Some (with_mappings r
                       (<[i := Some (mk_mapping p va flags)]> (mappings r))
                       (wrapping_add 32 (ref_count r) 1))), Ok va)
           end
  end.

Definition shared_memory_map (p region_id flags : Z) : act kernel (result Z Z) :=
  if region_id >=? MAX_SHARED_REGIONS then Ret (Err (ipc_code Einval))
  else if violates_wx flags then Ret (Err (ipc_code Einval))
  else
    _ <~? check_shared_memory_access p region_id ;;
    atomic (map_region p region_id flags).

(** Removes the process's mapping; the block to free if it was the last. *)
Definition unmap_region (p region_id : Z) : sec kernel (result Z (option (Z * Z))) := fun _ k =>
  slot ← (regions k).[region_id];
  match slot with
  | None => Some (k, Err (ipc_code Epipe))
  | Some r =>
      match position (mapped_by p) (mappings r) with
      | None => Some (k, Err (ipc_code Eperm))
      | Some i =>
          let ms := <[i := None]> (mappings r) in
          if ref_count r =? 0 then
            Some (put_region k region_id (Some (with_mappings r ms (ref_count r))), Err (ipc_code Einval))
          else if ref_count r =? 1 then
            Some (put_region k region_id None, Ok (Some (r_base_phys r, r_order r)))
          else
            Some (put_region k region_id (Some (with_mappings r ms (wrapping_sub 32 (ref_count r) 1))), Ok None)
      end
  end.

Definition shared_memory_unmap (p region_id : Z) : act kernel (result Z unit) :=
  if region_id >=? MAX_SHARED_REGIONS then Ret (Err (ipc_code Einval))
  else
    block <~? atomic (unmap_region p region_id) ;;
    match block with
    | Some (base_phys, order) => free_user_pages base_phys order ;;; Ret (Ok tt)
    | None => Ret (Ok tt)
    end.

Definition shared_memory_share (p region_id target : Z) : act kernel (result Z unit) :=
  if region_id >=? MAX_SHARED_REGIONS then Ret (Err (ipc_code Einval))
  else match process_index target with
       | None => Ret (Err (ipc_code Einval))
       | Some _ =>
           _ <~? reads_opt (fun k =>
             slot ← (regions k).[region_id];
             Some (match slot with
                   | None => Err (ipc_code Epipe)
                   | Some r => if negb (r_creator r =? p) then Err (ipc_code Eperm) else Ok tt
                   end)) ;;
           _ <~? grant_to_process target (SharedMemoryAccess region_id) false ;;
           Ret (Ok tt)
       end.

(** One region of the exit walk: its slot afterwards and the block to free. *)
Definition cleanup_region (p : Z) (slot : option SharedMemoryRegion) : option SharedMemoryRegion * option (Z * Z) :=
  match slot with
  | None => (None, None)
  | Some r =>
      match position (mapped_by p) (mappings r) with
      | None => (Some r, None)
      | Some i =>
          let ms := <[i := None]> (mappings r) in
          if ref_count r =? 0 then (Some (with_mappings r ms (ref_count r)), None)
          else if ref_count r =? 1 then (None, Some (r_base_phys r, r_order r))
          else (Some (with_mappings r ms (wrapping_sub 32 (ref_count r) 1)), None)
      end
  end.

Definition cleanup_regions (p : Z) : sec kernel (list (Z * Z)) := fun _ k =>
  let rs := map (cleanup_region p) (regions k) in
  Some (set_regions k (map fst rs), omap snd rs).

Definition process_cleanup_shared_memory (p : Z) : act kernel unit :=
  to_free <~ atomic (cleanup_regions p) ;;
  afor to_free (fun b => free_user_pages b.1 b.2).

(** [region_dmap_addr] without the direct map's base, and [region_size]. *)
Definition region_phys (region_id : Z) : act kernel (option Z) :=
  if region_id >=? MAX_SHARED_REGIONS then Ret None
  else reads_opt (fun k => slot ← (regions k).[region_id]; Some (option_map r_base_phys slot)).
Definition region_size (region_id : Z) : act kernel (option Z) :=
  if region_id >=? MAX_SHARED_REGIONS then Ret None
  else reads_opt (fun k => slot ← (regions k).[region_id]; Some (option_map size_bytes slot)).

(** ** Private memory *)

Definition insert_private (p base_phys order pages : Z) : sec kernel (option Z) := fun _ k =>
  match first_none (privates k) with
  | None => Some (k, None)
  | Some i =>
      Some (set_privates k (<[i := Some (mk_private p base_phys order pages)]> (privates k)), Some (Z.of_nat i))
  end.

Definition memory_map (p size flags : Z) : act kernel (result Z Z) :=
  if violates_wx flags then Ret (Err (ipc_code Einval))
  else
    let pages := pages_of size in
    if pages >? MAX_PRIVATE_PAGES then Ret (Err (ipc_code Einval))
    else
      let order := order_for_pages pages in
      block <~ alloc_user_pages order ;;
      match block with
      | None => Ret (Err (ipc_code Enomem))
      | Some base_phys =>
          zero_pages base_phys order ;;;
          slot <~ atomic (insert_private p base_phys order pages) ;;
          match slot with
          | None => free_user_pages base_phys order ;;; Ret (Err (ipc_code Enospc))
          | Some i => Ret (Ok (PRIVATE_VA_BASE + i * PRIVATE_VA_STRIDE))
          end
      end.

Definition private_slot (va : Z) : option Z :=
  if va <? PRIVATE_VA_BASE then None
  else
    let offset := va - PRIVATE_VA_BASE in
    let idx := offset / PRIVATE_VA_STRIDE in
    if (offset mod PRIVATE_VA_STRIDE =? 0) && (idx <? MAX_PRIVATE_ALLOCATIONS) then Some idx else None.

(** Takes the slot's allocation if it is this process's and of this size. *)
Definition take_private (p idx pages : Z) : sec kernel (option PrivateAllocation) := fun _ k =>
  slot ← (privates k).[idx];
  match slot with
  | Some a =>
      if (pa_owner a =? p) && (pa_pages a =? pages)
      then Some (set_privates k ((privates k).[idx <- None]), Some a) else Some (k, None)
  | None => Some (k, None)
  end.

Definition memory_unmap (p va size : Z) : act kernel (result Z unit) :=
  let private :=
    match private_slot va with
    | None => Ret (Err (ipc_code Einval))
    | Some idx =>
        a <~ atomic (take_private p idx (pages_of size)) ;;
        match a with
        | None => Ret (Err (ipc_code Einval))
        | Some a => free_user_pages (pa_base_phys a) (pa_order a) ;;; Ret (Ok tt)
        end
    end in
  if (SHM_VA_BASE <=? va) && (va <? SHM_VA_BASE + MAX_SHARED_REGIONS * SHM_VA_STRIDE) then
    let region_idx := (va - SHM_VA_BASE) / SHM_VA_STRIDE in
    if region_idx <? MAX_SHARED_REGIONS then shared_memory_unmap p region_idx else private
  else private.
