(* ===== verification/Process.v ===== *)
(** * Process exit and the service registry
    (kernel/src/task/process.rs, kernel/src/service/mod.rs) *)

From S2P Require Import Prelude Abi Capability Act Task Sched KernelCap Channels Shmem.
Local Open Scope act_scope.

(** ** Services *)

Definition service_insert (name : list Z) (p channel : Z) : sec kernel (result Z unit) := fun _ k =>
  let svc_name := service_name_from_bytes name in
  if existsb (fun s => service_name_eq (s_name s) svc_name) (occupied (services k))
  then Some (k, Err (ipc_code Eexist))
  else match first_none (services k) with
       | None => Some (k, Err (ipc_code Enospc))
       | Some i =>
           let k1 := set_services k (<[i := Some (mk_service svc_name p channel SvcRunning)]> (services k)) in
           Some (set_service_count k1 (service_count k + 1), Ok tt)
       end.
Definition service_register (name : list Z) (p channel : Z) : act kernel (result Z unit) :=
  atomic (service_insert name p channel).

Definition is_running (s : ServiceEntry) : bool :=
  match s_state s with SvcRunning => true | SvcDead => false end.

Definition service_lookup (name : list Z) : act kernel (option (Z * Z)) :=
  reads (fun k =>
    option_map (fun s => (s_pid s, s_channel s))
      (List.find (fun s => is_running s && service_name_matches (s_name s) name) (occupied (services k)))).

(** ** The audit ring *)

Definition AUDIT_RING_SIZE : Z := 256.

Definition audit_log (p : Z) (event : list Z) : act kernel unit :=
  n <~ atomic (fun _ k => Some (set_audit_head k (wrapping_add 64 (audit_head k) 1), audit_head k)) ;;
  tick <~ tick_now ;;
  let event_len := Z.min (alen event) 48 in
  let data := copy_at (array_of 48 0) 0 (take (Z.to_nat event_len) event) in
  updates_opt (fun k =>
    let idx := n mod AUDIT_RING_SIZE in
    _ ← (audit_ring k).[idx];
    Some (set_audit_ring k ((audit_ring k).[idx <- mk_audit tick p data event_len]))).

(** The bytes of [b"service_death"]. *)
Definition service_death_msg : list Z := [115; 101; 114; 118; 105; 99; 101; 95; 100; 101; 97; 116; 104].

(** The loop returns at the first service it marks. *)
Definition mark_dead (p : Z) : sec kernel bool := fun _ k =>
  match position (fun s => match s with Some x => (s_pid x =? p) && is_running x | None => false end) (services k) with
  | None => Some (k, false)
  | Some i =>
      match mjoin (services k !! i) with
      | None => Some (k, false)
      | Some s =>
          Some (set_services k (<[i := Some (mk_service (s_name s) (s_pid s) (s_channel s) SvcDead)]> (services k)), true)
      end
  end.

Definition service_on_death (p : Z) : act kernel unit :=
  found <~ atomic (mark_dead p) ;;
  if found : bool then audit_log p service_death_msg else Ret tt.

(** ** Exit *)

Definition NO_EXIT_CODE : Z := - 2 ^ 31.
Definition EPIPE_WAKEUPS : Z := 16.

Definition kill_thread (p : Z) (slot : option Thread) : option Thread :=
  match slot with
  | Some t => Some (if bool_decide (owner_pid t = Some p) then with_sched t (se_state Dead) else t)
  | None => None
  end.

(** [if epipe_count < epipe_wakeups.len()]: a full array drops the wake-up. *)
Definition collect (w : list Z) (t : option Z) : list Z :=
  match t with Some tid => if alen w <? EPIPE_WAKEUPS then w ++ [tid] else w | None => w end.

Definition owned_channel (p : Z) (c : Channel) : bool :=
  (owner_a c =? p) || bool_decide (owner_b c = Some p).

(** Both endpoints die and lose their waiting threads. *)
Definition kill_channel (c : Channel) : Channel :=
  mk_channel (ch_id c) EpDead EpDead (owner_a c) (owner_b c) (ring c) None None (creation_cap c).

Fixpoint exit_walk (p : Z) (chs : list (option Channel)) (w : list Z) : list (option Channel) * list Z :=
  match chs with
  | [] => ([], w)
  | None :: chs' => let '(r, w') := exit_walk p chs' w in (None :: r, w')
  | Some c :: chs' =>
      if owned_channel p c then
        let '(r, w') := exit_walk p chs' (collect (collect w (waiting_receiver c)) (pending_caller c)) in
        (Some (kill_channel c) :: r, w')
      else let '(r, w') := exit_walk p chs' w in (Some c :: r, w')
  end.

Definition process_exit (p exit_code : Z) : act kernel unit :=
  match process_index p with
  | None => Ret tt
  | Some idx =>
      has_process <~ reads_opt (fun k => slot ← (processes k).[idx];
        Some (match slot with Some _ => true | None => false end)) ;;
      (if has_process : bool then
         updates_opt (fun k => _ ← (exit_codes k).[idx]; Some (set_exit_codes k ((exit_codes k).[idx <- exit_code])))
       else Ret tt) ;;;
      updates (fun k => set_threads k (map (kill_thread p) (threads k))) ;;;
      wakeups <~ atomic (fun _ k =>
        let '(chs, w) := exit_walk p (channels k) [] in Some (set_channels k chs, w)) ;;
      afor wakeups (fun tid => wake_with_error tid (ipc_code Epipe)) ;;;
      process_cleanup_shared_memory p ;;;
      service_on_death p ;;;
      (if has_process : bool then
         w <~ atomic (fun _ k => t ← (process_waiters k).[idx];
           Some (set_process_waiters k ((process_waiters k).[idx <- None]), t)) ;;
         match w with Some tid => unblock tid | None => Ret tt end
       else Ret tt)
  end.

Definition exit_code_of (idx : Z) : act kernel Z := reads_opt (fun k => (exit_codes k).[idx]).

Definition process_wait (parent child : Z) : act kernel (result Z Z) :=
  match process_index child with
  | None => Ret (Err (ipc_code Einval))
  | Some idx =>
      code <~ exit_code_of idx ;;
      if negb (code =? NO_EXIT_CODE) then Ret (Ok code)
      else
        _ <~? reads (fun k => process_ref k child) ;;
        updates_opt (fun k => _ ← (process_waiters k).[idx];
          Some (set_process_waiters k ((process_waiters k).[idx <- Some parent]))) ;;;
        block_current (BlockedProcessWait child) ;;;
        code' <~ exit_code_of idx ;;
        if negb (code' =? NO_EXIT_CODE) then Ret (Ok code') else Ret (Err (ipc_code Eperm))
  end.
