(* ===== verification/Syscall.v ===== *)
(** * Syscall dispatch (kernel/src/syscall/mod.rs, user.rs) and the timer
    interrupt (kernel/src/arch/aarch64/timer.rs)

    A syscall reads its arguments from the saved registers ([x]), runs the
    kernel operation and returns in [x0].  User memory is reached only
    through [copy_from_user] and [copy_to_user].  [sp] is the address of the
    handler's reply buffer on the kernel stack. *)

From S2P Require Import Prelude Abi Capability PhysMem Memory Act Task Sched KernelCap Channels Notify Ipc Shmem Process.
Local Open Scope act_scope.

(** [v as i64], [v as i32] and [r as u64]. *)
Definition to_signed (w v : Z) : Z :=
  let u := wrap w v in if u >=? 2 ^ (w - 1) then u - 2 ^ w else u.

(** ** User memory *)

(** Whether TTBR0 lets the CPU read or write every byte of a range.  A
    non-empty copy with a TTBR0 that holds more than the caller's mappings
    may reach kernel memory, which is outside the model. *)
Definition user_reach (e : env) (n : Z) : option unit := if (n =? 0) || user_ttbr0 e then Some tt else None.
Definition accessible (e : env) (w : bool) (a n : Z) : bool := forallb (user_access e w) (seqZ a n).

(** A byte that is not accessible takes an EL1 data abort: the vector halts the
    CPU. *)
Definition copy_from_user (n src : Z) : act kernel (result Z (list Z)) :=
  if negb (validate_user_va src n) then Ret (Err (ipc_code Einval))
  else
    r <~ atomic (fun e k => _ ← user_reach e n;
      Some (k, if accessible e false src n then Some (map (wrap 8) (load_bytes (umem k) src (Z.to_nat n))) else None)) ;;
    match r with Some bytes => Ret (Ok bytes) | None => Stop end.

(** The bytes before the first that faults are written, in ascending order. *)
Fixpoint stored_prefix (e : env) (dst : Z) (src : list Z) : list Z :=
  match src with
  | [] => []
  | b :: src' => if user_access e true dst then b :: stored_prefix e (dst + 1) src' else []
  end.

Definition copy_to_user (dst : Z) (src : list Z) : act kernel (result Z unit) :=
  if negb (validate_user_va dst (alen src)) then Ret (Err (ipc_code Einval))
  else
    ok <~ atomic (fun e k => _ ← user_reach e (alen src);
      Some (set_umem k (store_bytes (umem k) dst (stored_prefix e dst src)), accessible e true dst (alen src))) ;;
    if ok : bool then Ret (Ok tt) else Stop.

(** ** Handlers *)

(** The registers of the trap frame; a handler may also write [x1]. *)
Definition reg (x : list Z) (i : Z) : Z := default 0 (x.[i]).
Definition ret (r : Z) : act kernel (Z * option Z) := Ret (r, None).

(** [match m { Ok(a) => f(a), Err(e) => return e }] *)
Definition or_return {A B} (m : result Z A) (f : A -> act kernel (Z * option B)) : act kernel (Z * option B) :=
  match m with Ok a => f a | Err e => Ret (e, None) end.
Definition abind_ret {A B} (m : act kernel (result Z A)) (f : A -> act kernel (Z * option B)) :
    act kernel (Z * option B) := abind m (fun r => or_return r f).
Definition with_pid (f : Z -> act kernel (Z * option Z)) : act kernel (Z * option Z) :=
  p <~ current_process_id ;;
  match p with Some p => f p | None => ret (ipc_code Eperm) end.
Definition finish {A} (f : A -> Z) (m : act kernel (result Z A)) : act kernel (Z * option Z) :=
  r <~ m ;; ret (code_of f r).

Definition sys_debug_print (x : list Z) : act kernel (Z * option Z) :=
  if reg x 1 >? 256 then ret (ipc_code Enospc)
  else abind_ret (copy_from_user (reg x 1) (reg x 0)) (fun _ => ret 0).

Definition sys_time_get (x : list Z) : act kernel (Z * option Z) :=
  t <~ atomic (fun e k => Some (k, (cntvct e, cntfrq e))) ;;
  ret (to_signed 64 (ticks_to_ns t.1 t.2)).

Definition sys_time_sleep (x : list Z) : act kernel (Z * option Z) :=
  if reg x 0 =? 0 then ret 0
  else sleep_ticks (div_ceil (reg x 0) 1000000) ;;; ret 0.

Definition sys_ipc_call (sp : Z) (x : list Z) : act kernel (Z * option Z) :=
  or_return (id_arg (reg x 0)) (fun channel =>
    let send_len := reg x 2 in
    let recv_len := reg x 4 in
    if (send_len >? MAX_MESSAGE_SIZE) || (recv_len >? MAX_MESSAGE_SIZE) then ret (ipc_code Enospc)
    else if negb (validate_user_va (reg x 1) send_len) || negb (validate_user_va (reg x 3) recv_len)
    then ret (ipc_code Einval)
    else abind_ret (copy_from_user send_len (reg x 1)) (fun send_buf =>
      updates (fun k => set_kmem k (store_bytes (kmem k) sp (array_of MAX_MESSAGE_SIZE 0))) ;;;
      result <~ ipc_call channel send_buf sp recv_len (reg x 5) ;;
      if result <? 0 then ret result
      else
        let reply_len := Z.min result recv_len in
        reply <~ reads (fun k => load_bytes (kmem k) sp (Z.to_nat reply_len)) ;;
        finish (fun _ => reply_len) (copy_to_user (reg x 3) reply))).

Definition sys_ipc_send (x : list Z) : act kernel (Z * option Z) :=
  or_return (id_arg (reg x 0)) (fun channel =>
    if reg x 2 >? MAX_MESSAGE_SIZE then ret (ipc_code Enospc)
    else abind_ret (copy_from_user (reg x 2) (reg x 1)) (fun send_buf =>
      r <~ ipc_send channel send_buf ;; ret r)).

(** [x1] gets the sender. *)
Definition sys_ipc_recv (x : list Z) : act kernel (Z * option Z) :=
  or_return (id_arg (reg x 0)) (fun channel =>
    if reg x 2 >? MAX_MESSAGE_SIZE then ret (ipc_code Enospc)
    else if negb (validate_user_va (reg x 1) (reg x 2)) then ret (ipc_code Einval)
    else abind_ret (ipc_recv channel (reg x 2) (reg x 3)) (fun out =>
      abind_ret (copy_to_user (reg x 1) out.1) (fun _ => Ret (alen out.1, Some out.2)))).

Definition sys_ipc_reply (x : list Z) : act kernel (Z * option Z) :=
  or_return (id_arg (reg x 0)) (fun channel =>
    if reg x 2 >? MAX_MESSAGE_SIZE then ret (ipc_code Enospc)
    else abind_ret (copy_from_user (reg x 2) (reg x 1)) (fun reply_buf =>
      r <~ ipc_reply channel reply_buf ;; ret r)).

Definition sys_ipc_cancel (x : list Z) : act kernel (Z * option Z) :=
  or_return (id_arg (reg x 0)) (fun channel => r <~ ipc_cancel channel ;; ret r).

Definition sys_channel_create (x : list Z) : act kernel (Z * option Z) :=
  cur <~ current_thread_id ;;
  match cur with
  | None => ret (ipc_code Eperm)
  | Some tid => finish id (channel_create tid)
  end.

Definition sys_channel_destroy (x : list Z) : act kernel (Z * option Z) :=
  or_return (id_arg (reg x 0)) (fun channel => finish (fun _ => 0) (channel_destroy channel)).

(** The capability a caller may ask for. *)
Definition decode_cap (kind resource : Z) : result Z Capability :=
  if kind =? 0 then Ok ChannelCreate
  else if kind =? 1 then ChannelAccess <$> id_arg resource
  else if kind =? 2 then Ok SharedMemoryCreate
  else if kind =? 3 then SharedMemoryAccess <$> id_arg resource
  else if kind =? 4 then Ok SpawnAgent
  else if kind =? 5 then Ok DebugPrint
  else Err (ipc_code Einval).

Definition sys_capability_attenuate (x : list Z) : act kernel (Z * option Z) :=
  or_return (cap_handle_arg (reg x 0)) (fun handle =>
    let new_expiry := if reg x 2 =? 0 then None else Some (reg x 2) in
    with_pid (fun p =>
      or_return (decode_cap (reg x 1) (reg x 3)) (fun new_cap =>
        finish id (atomic (attenuate_in p handle new_cap new_expiry))))).

Definition sys_capability_revoke (x : list Z) : act kernel (Z * option Z) :=
  or_return (cap_handle_arg (reg x 0)) (fun handle =>
    with_pid (fun p =>
      abind_ret (reads (fun k =>
        pr ← process_ref k p; ok_or (tok_id <$> get (cap_table pr) handle) (ipc_code Eperm))) (fun token =>
      finish (fun _ => 0) (revoke_in_process p token)))).

(** The ids are copied out one by one. *)
Fixpoint copy_ids (ids : list Z) (dst : Z) : act kernel (result Z unit) :=
  match ids with
  | [] => Ret (Ok tt)
  | i :: ids' => _ <~? copy_to_user dst (le_bytes 8 i) ;; copy_ids ids' (dst + 8)
  end.

Definition sys_capability_list (x : list Z) : act kernel (Z * option Z) :=
  let byte_len := Z.min (reg x 1 * 8) (umax 64) in
  if negb (validate_user_va (reg x 0) byte_len) then ret (ipc_code Einval)
  else
    with_pid (fun p =>
      let capped := Z.min (reg x 1) MAX_CAPS_PER_PROCESS in
      abind_ret (reads (fun k =>
        pr ← process_ref k p; Ok (list_tokens (cap_table pr) MAX_CAPS_PER_PROCESS capped))) (fun ids =>
      finish (fun _ => alen ids) (copy_ids ids (reg x 0)))).

Definition sys_memory_map (x : list Z) : act kernel (Z * option Z) :=
  or_return (flags_arg (reg x 1)) (fun flags =>
    with_pid (fun p => finish (to_signed 64) (memory_map p (reg x 0) flags))).

Definition sys_memory_unmap (x : list Z) : act kernel (Z * option Z) :=
  with_pid (fun p => finish (fun _ => 0) (memory_unmap p (reg x 0) (reg x 1))).

Definition sys_shared_memory_create (x : list Z) : act kernel (Z * option Z) :=
  or_return (flags_arg (reg x 1)) (fun flags =>
    with_pid (fun p => finish id (shared_memory_create p (reg x 0) flags))).

Definition sys_shared_memory_map (x : list Z) : act kernel (Z * option Z) :=
  or_return (id_arg (reg x 0)) (fun region_id =>
    or_return (flags_arg (reg x 1)) (fun flags =>
      with_pid (fun p => finish (to_signed 64) (shared_memory_map p region_id flags)))).

Definition sys_shared_memory_share (x : list Z) : act kernel (Z * option Z) :=
  or_return (id_arg (reg x 0)) (fun region_id =>
    or_return (id_arg (reg x 1)) (fun target =>
      with_pid (fun p => finish (fun _ => 0) (shared_memory_share p region_id target)))).

Definition sys_notification_create (x : list Z) : act kernel (Z * option Z) :=
  with_pid (fun p => finish id (notification_create p)).

Definition sys_notification_signal (x : list Z) : act kernel (Z * option Z) :=
  or_return (id_arg (reg x 0)) (fun n => finish (fun _ => 0) (notification_signal n (reg x 1))).

Definition sys_notification_wait (x : list Z) : act kernel (Z * option Z) :=
  or_return (id_arg (reg x 0)) (fun n =>
    finish (to_signed 64) (notification_wait n (reg x 1) (reg x 2))).

(** [as_chunks::<16>()] of the copied array, decoded in order. *)
Fixpoint decode_entries (n : nat) (wire : list Z) : result Z (list SelectKind) :=
  match n with
  | O => Ok []
  | S n' =>
      e ← entry_try_from (raw_from_bytes (take 16 wire));
      es ← decode_entries n' (drop 16 wire);
      Ok (e :: es)
  end.

(** [x1] gets the matched bits. *)
Definition sys_ipc_select (x : list Z) : act kernel (Z * option Z) :=
  let entry_count := reg x 1 in
  if (entry_count =? 0) || (entry_count >? MAX_SELECT_ENTRIES) then ret (ipc_code Einval)
  else
    abind_ret (copy_from_user (entry_count * RAW_SELECT_SIZE) (reg x 0)) (fun wire =>
      or_return (decode_entries (Z.to_nat entry_count) wire) (fun entries =>
        abind_ret (ipc_select entries (reg x 2)) (fun r => Ret (r.1, Some r.2)))).

Definition sys_process_exit (x : list Z) : act kernel (Z * option Z) :=
  with_pid (fun p => process_exit p (to_signed 32 (reg x 0)) ;;; ret 0).

Definition sys_process_wait (x : list Z) : act kernel (Z * option Z) :=
  or_return (id_arg (reg x 0)) (fun child =>
    cur <~ current_thread_id ;;
    match cur with
    | None => ret (ipc_code Eperm)
    | Some tid => finish id (process_wait tid child)
    end).

Definition sys_audit_log (x : list Z) : act kernel (Z * option Z) :=
  if reg x 1 >? 48 then ret (ipc_code Enospc)
  else
    abind_ret (copy_from_user (reg x 1) (reg x 0)) (fun event =>
      with_pid (fun p => audit_log p event ;;; ret 0)).

(** [x8] selects the handler. *)
Definition handler (sp : Z) (x : list Z) : act kernel (Z * option Z) :=
  let nr := reg x 8 in
  if nr =? 0 then sys_ipc_call sp x
  else if nr =? 1 then sys_ipc_send x
  else if nr =? 2 then sys_ipc_recv x
  else if nr =? 3 then sys_ipc_reply x
  else if nr =? 4 then sys_ipc_cancel x
  else if nr =? 5 then sys_ipc_select x
  else if nr =? 6 then sys_channel_create x
  else if nr =? 7 then sys_channel_destroy x
  else if nr =? 10 then sys_notification_create x
  else if nr =? 11 then sys_notification_signal x
  else if nr =? 12 then sys_notification_wait x
  else if nr =? 15 then sys_capability_attenuate x
  else if nr =? 16 then sys_capability_revoke x
  else if nr =? 17 then sys_capability_list x
  else if nr =? 18 then sys_memory_map x
  else if nr =? 19 then sys_memory_unmap x
  else if nr =? 20 then sys_shared_memory_create x
  else if nr =? 21 then sys_shared_memory_map x
  else if nr =? 22 then sys_shared_memory_share x
  else if nr =? 24 then sys_process_exit x
  else if nr =? 25 then sys_process_wait x
  else if nr =? 26 then sys_time_get x
  else if nr =? 27 then sys_time_sleep x
  else if nr =? 29 then sys_audit_log x
  else if nr =? 30 then sys_debug_print x
  else ret (ipc_code Enotsup).

Definition syscall_dispatch (sp : Z) (x : list Z) : act kernel (list Z) :=
  r <~ handler sp x ;;
  let x' := match r.2 with Some v => x.[1 <- v] | None => x end in
  Ret (x'.[0 <- wrap 64 r.1]).

(** ** The timer interrupt *)

(** Ticks, time slices, timeouts and balancing on one CPU; the log rings and
    the heartbeat line are not modelled. *)
Definition timer_tick_handler (online : Z) : act kernel unit :=
  cpu <~ here ;;
  (if cpu =? 0 then updates (fun k => set_tick_count k (wrapping_add 64 (tick_count k) 1)) else Ret tt) ;;;
  timer_tick cpu ;;;
  check_timeouts ;;;
  tick <~ tick_now ;;
  (if tick mod 4 =? 0 then try_load_balance online else Ret tt) ;;;
  updates (fun k => set_need_resched k true).

(** The interrupt, with the preemption check on its return path. *)
Definition timer_irq (online : Z) : act kernel unit :=
  timer_tick_handler online ;;; check_preemption.
