(* ===== verification/KernelInv.v ===== *)
(** * The invariant of the kernel's shared state

    [kinv k own] says that every table has its size and that what the tables
    refer to exists: thread ids are slots of the thread table, saved contexts
    have a program counter, message rings
    and run queues are well formed, capability tables are consistent, a
    region's reference count is its number of mappings and none of them is
    both writable and executable, and the memory blocks recorded in the
    region and private tables, together with the blocks [own] that tasks hold
    between two sections, are distinct live blocks of the frame allocator.
    [chan_step] relates the message queues before and after one section. *)

From S2P Require Import Prelude Collections Abi Capability PhysMem Memory Buddy BuddyInv BuddySystem Pools Paging.
From S2P Require Import Act Task Sched KernelCap Channels Shmem.

(** ** Arrays and tables of a fixed size *)

Definition arr {A} (n : Z) (P : A -> Prop) (l : list A) : Prop := alen l = n /\ Forall P l.
Definition opt {A} (P : A -> Prop) (o : option A) : Prop := from_option P True o.
Definition table {A} (n : Z) (P : A -> Prop) (l : list (option A)) : Prop := arr n (opt P) l.

Section arr.
Context {A : Type} (n : Z) (P : A -> Prop).

Lemma arr_get l i : arr n P l -> 0 <= i < n -> exists x, l.[i] = Some x /\ P x.
Proof.
  intros [Hn Hl] Hi. destruct (aget_is_Some l i) as [x Hx]; [lia|]. exists x. split; [done|].
  eapply Forall_lookup_1; [done|exact Hx].
Qed.

Lemma arr_lookup l i x : arr n P l -> l.[i] = Some x -> P x.
Proof. intros [_ Hl] Hx. by eapply Forall_lookup_1. Qed.

Lemma arr_set l i x : arr n P l -> P x -> arr n P (l.[i <- x]).
Proof. intros [Hn Hl] Hx. split; [by rewrite alen_aset|]. by apply Forall_insert. Qed.

Lemma arr_insert l (i : nat) x : arr n P l -> P x -> arr n P (<[i := x]> l).
Proof. intros [Hn Hl] Hx. split; [unfold alen in *; by rewrite length_insert|]. by apply Forall_insert. Qed.

Lemma arr_map l f : (forall x, P x -> P (f x)) -> arr n P l -> arr n P (map f l).
Proof.
  intros Hf [Hn Hl]. split; [unfold alen in *; by rewrite length_map|]. apply Forall_map.
  eapply Forall_impl; [exact Hl|done].
Qed.

Lemma arr_of x : 0 <= n -> P x -> arr n P (array_of n x).
Proof. intros Hn Hx. split; [by apply alen_array_of|]. by apply Forall_replicate. Qed.
End arr.

Lemma table_get {A} n (P : A -> Prop) l i :
  table n P l -> 0 <= i < n -> exists o, l.[i] = Some o /\ opt P o.
Proof. apply arr_get. Qed.

Lemma table_join {A} n (P : A -> Prop) l i x : table n P l -> mjoin (l.[i]) = Some x -> P x.
Proof.
  intros Ht Hx. destruct (l.[i]) as [[y|]|] eqn:E; cbn in Hx; [|done..]. simplify_eq.
  by apply (arr_lookup _ _ _ _ _ Ht E).
Qed.

Lemma table_occupied {A} n (P : A -> Prop) l : table n P l -> Forall P (occupied l).
Proof.
  intros [_ Hl]. apply Forall_forall. intros x (i & Hi)%elem_of_occupied.
  exact (Forall_lookup_1 _ _ _ _ Hl Hi).
Qed.

Lemma first_none_lt {A} n (P : A -> Prop) l i : table n P l -> first_none l = Some i -> 0 <= Z.of_nat i < n.
Proof. intros [Hn _] [Hi _]%first_none_Some. apply lookup_lt_Some in Hi. unfold alen in Hn. lia. Qed.

(** ** Message rings *)

Record mring_rep (r : MessageRing) (l : list RawMessage) : Prop := {
  rr_entries : alen (entries r) = RING_CAPACITY;
  rr_len : len r = alen l;
  rr_cap : alen l <= RING_CAPACITY;
  rr_head : 0 <= head r < RING_CAPACITY;
  rr_tail : tail r = (head r + len r) mod RING_CAPACITY;
  rr_live : Cyclic.holds id RING_CAPACITY (entries r) (head r) l
}.

Lemma mring_rep_new : mring_rep ring_new [].
Proof. by split. Qed.

Lemma mring_rep_push r l m : mring_rep r l ->
  (ring_push r m).1 = (Fifo.push RING_CAPACITY l m).1 /\
  mring_rep (ring_push r m).2 (Fifo.push RING_CAPACITY l m).2.
Proof.
  intros Hr. pose proof Hr as [He Hl Hc Hh Ht Hlive]. unfold ring_push, Fifo.push.
  rewrite Hl. destruct (Z.geb_spec (alen l) RING_CAPACITY); [done|].
  split; [done|]. pose proof (alen_nonneg l).
  split; cbn [entries head tail len snd]; autorewrite with aios_rw; try lia.
  - rewrite Ht, Hl, Zplus_mod_idemp_l. f_equal. lia.
  - rewrite Ht, Hl. by apply (Cyclic.holds_push id).
Qed.

Lemma mring_rep_pop r l : mring_rep r l ->
  (ring_pop r).1 = (Fifo.pop l).1 /\ mring_rep (ring_pop r).2 (Fifo.pop l).2.
Proof.
  intros Hr. pose proof Hr as [He Hl Hc Hh Ht Hlive]. unfold ring_pop, Fifo.pop. destruct l as [|x l].
  { by rewrite Hl. }
  pose proof (alen_nonneg l). pose proof (alen_cons x l).
  destruct (Z.eqb_spec (len r) 0); [lia|]. split.
  { cbn. by rewrite (Cyclic.holds_head id RING_CAPACITY eq_refl _ _ _ _ Hh Hlive). }
  split; cbn [entries head tail len snd]; try lia.
  - by apply Cyclic.mod_range.
  - rewrite Ht, Zplus_mod_idemp_l. f_equal. lia.
  - intros i v Hi Hv. rewrite Zplus_mod_idemp_l, <-Z.add_assoc, (Z.add_comm 1).
    apply Hlive; [lia|]. by rewrite aget_cons_S.
Qed.

(** The queued messages, front first. *)
Definition ring_list (r : MessageRing) : list RawMessage :=
  omap (fun i => (entries r).[(head r + i) mod RING_CAPACITY]) (seqZ 0 (len r)).

Lemma mring_rep_list r l : mring_rep r l -> ring_list r = l.
Proof.
  intros [_ Hl _ _ _ Hlive]. unfold ring_list. rewrite Hl. clear Hl.
  assert (H : forall l' j, (forall i v, 0 <= i -> l'.[i] = Some v -> (entries r).[(head r + (j + i)) mod RING_CAPACITY] = Some v) ->
    omap (fun i => (entries r).[(head r + i) mod RING_CAPACITY]) (seqZ j (alen l')) = l').
  { induction l' as [|x l' IH]; intros j Hj; [done|].
    rewrite alen_cons, seqZ_cons by (pose proof (alen_nonneg l'); lia). cbn [omap list_omap].
    pose proof (Hj 0 x) as Hx. rewrite Z.add_0_r in Hx. rewrite Hx by done. f_equal.
    replace (Z.pred (alen l' + 1)) with (alen l') by lia. apply IH. intros i v Hi Hv.
    replace (Z.succ j + i) with (j + (1 + i)) by lia. apply (Hj (1 + i)); [lia|]. by rewrite Z.add_comm, aget_cons_S. }
  apply H. intros i v Hi Hv. by apply Hlive.
Qed.

(** ** The invariant, table by table *)

Definition tid_ok (t : Z) : Prop := 0 <= t < MAX_THREADS.
Definition msg_ok (m : RawMessage) : Prop := alen (msg_data m) = MAX_MESSAGE_SIZE /\ 0 <= msg_len m <= MAX_MESSAGE_SIZE.

Definition thread_ok (t : Thread) : Prop :=
  (0 <= inheritance_depth t <= MAX_INHERITANCE_DEPTH /\ opt (fun p => 0 <= p) (owner_pid t) /\ pc (context t) <> 0) /\
  match state (sched t) with BlockedNotification n => 0 <= n < MAX_NOTIFICATIONS | _ => True end.

Definition queue_ok (q : SchedQueue) : Prop :=
  exists l, FixedQueue.rep MAX_THREADS q l /\ Forall tid_ok l.
Record rq_ok (rq : RunQueue) : Prop := {
  rq_rt : queue_ok (rt rq);
  rq_interactive : queue_ok (interactive rq);
  rq_normal : queue_ok (normal rq);
  rq_idle : queue_ok (idle rq)
}.

Record channel_ok (c : Channel) : Prop := {
  co_ring : exists l, mring_rep (ring c) l /\ Forall msg_ok l;
  co_receiver : opt tid_ok (waiting_receiver c);
  co_caller : opt tid_ok (pending_caller c)
}.

Definition reply_ok (s : ReplySlot) : Prop := 0 <= bytes_written s <= buf_len s.

Definition notif_ok (n : NotificationObject) : Prop :=
  table MAX_WAITERS_PER_NOTIFICATION (fun w => tid_ok (w_tid w)) (waiters n).

Definition mapping_pids (r : SharedMemoryRegion) : list Z := map m_pid (occupied (mappings r)).

Record region_ok (r : SharedMemoryRegion) : Prop := {
  ro_wx : violates_wx (max_flags r) = false;
  ro_maps : alen (mappings r) = MAX_SHARED_MAPPINGS;
  ro_refs : ref_count r = alen (occupied (mappings r));
  ro_pids : NoDup (mapping_pids r);
  ro_flags : forall m, m ∈ occupied (mappings r) -> flags_contains (max_flags r) (m_flags m) = true
}.

Record sched_inv (s : sched_state) : Prop := {
  si_threads : table MAX_THREADS thread_ok (threads s);
  si_queues : arr MAX_CORES rq_ok (run_queues s);
  si_current : table MAX_CORES tid_ok (current_thread s);
  si_insched : alen (in_scheduler s) = MAX_CORES
}.

Record ipc_inv (s : ipc_state) : Prop := {
  ii_channels : table MAX_CHANNELS channel_ok (channels s);
  ii_timeouts : table MAX_THREADS (fun te => tid_ok (te_tid te)) (timeout_queue s);
  ii_replies : table MAX_THREADS reply_ok (reply_slots s);
  ii_errors : alen (wakeup_errors s) = MAX_THREADS;
  ii_notifs : table MAX_NOTIFICATIONS notif_ok (notifications s);
  ii_results : alen (notify_results s) = MAX_THREADS;
  ii_deadlines : alen (notify_deadlines s) = MAX_THREADS;
  ii_selects : alen (select_waiters s) = MAX_THREADS
}.

Record proc_inv (s : proc_state) : Prop := {
  pi_procs : table MAX_PROCESSES (fun p => table_wf (cap_table p)) (processes s);
  pi_waiters : table MAX_PROCESSES tid_ok (process_waiters s);
  pi_exits : alen (exit_codes s) = MAX_PROCESSES;
  pi_services : alen (services s) = MAX_SERVICES;
  pi_audit : alen (audit_ring s) = 256
}.

(** The blocks the tables record. *)
Definition region_block (r : SharedMemoryRegion) : Z * nat := (r_base_phys r, Z.to_nat (r_order r)).
Definition private_block (a : PrivateAllocation) : Z * nat := (pa_base_phys a, Z.to_nat (pa_order a)).
Definition recorded (s : mem_state) : list (Z * nat) :=
  map region_block (occupied (regions s)) ++ map private_block (occupied (privates s)).

Section inv.
Context (p0 : PagePools) (Fs : Pool -> Z -> Prop).

(** A block a task owns; [true] once the task has zeroed it. *)
Definition block := (Z * nat * bool)%type.
Definition zeroed (own : list block) : list (Z * nat) := omap (fun b : block => if b.2 then Some b.1 else None) own.

Definition frames_ok (f : option frames) (rec : list (Z * nat)) (own : list block) : Prop :=
  match f with
  | None => rec = [] /\ own = []
  | Some f => exists Ls rest, frames_inv p0 Fs (f, Ls) /\
      Ls PoolUser ≡ₚ rec ++ map fst own ++ rest /\
      forall b, b ∈ rec ++ zeroed own -> load32 (f_mem f) b.1 <> POISON_PATTERN
  end.

Record mem_inv (s : mem_state) (own : list block) : Prop := {
  mi_regions : table MAX_SHARED_REGIONS region_ok (regions s);
  mi_privates : alen (privates s) = MAX_PRIVATE_ALLOCATIONS;
  mi_frames : frames_ok (frame_alloc s) (recorded s) own
}.

Record kinv (k : kernel) (own : list block) : Prop := {
  ki_sched : sched_inv k;
  ki_ipc : ipc_inv k;
  ki_proc : proc_inv k;
  ki_mem : mem_inv k own
}.

Lemma frames_ok_perm f rec rec' own own' :
  rec ≡ₚ rec' -> own ≡ₚ own' -> frames_ok f rec own -> frames_ok f rec' own'.
Proof.
  intros Hr Ho. destruct f as [f|]; cbn.
  - intros (Ls & rest & Hi & HL & Hp). exists Ls, rest. split_and!; [done|by rewrite <-Hr, <-Ho|].
    intros b Hb. apply Hp. unfold zeroed in *. by rewrite Hr, Ho.
  - intros [-> ->]. by apply Permutation_nil_l in Hr, Ho.
Qed.

Lemma kinv_perm k own own' : own ≡ₚ own' -> kinv k own -> kinv k own'.
Proof. intros Ho [? ? ? []]. split; try done. split; try done. by eapply frames_ok_perm. Qed.
End inv.

(** ** The message queues, step by step *)

Inductive ring_step : option (list RawMessage) -> option (list RawMessage) -> Prop :=
| rs_same o : ring_step o o
| rs_push l m : alen l < RING_CAPACITY -> ring_step (Some l) (Some (l ++ [m]))
| rs_pop m l : ring_step (Some (m :: l)) (Some l)
| rs_create : ring_step None (Some [])
| rs_destroy l : ring_step (Some l) None.

(** The messages queued on a channel; [None] if there is no such channel. *)
Definition queue_of (k : kernel) (id : Z) : option (list RawMessage) :=
  option_map (fun c => ring_list (ring c)) (mjoin ((channels k).[id])).

Definition chan_step (k k' : kernel) : Prop := forall id, 0 <= id -> ring_step (queue_of k id) (queue_of k' id).

Lemma chan_step_same (k k' : kernel) : channels k' = channels k -> chan_step k k'.
Proof. intros E id _. unfold queue_of. rewrite E. constructor. Qed.

Lemma chan_step_put (k : kernel) id (o : option Channel) :
  0 <= id < alen (channels k) ->
  ring_step (queue_of k id) (option_map (fun c => ring_list (ring c)) o) ->
  chan_step k (put_channel k id o).
Proof.
  intros Hid Hs j Hj. unfold queue_of in *. cbn [put_channel set_channels channels k_ipc set_ipc].
  destruct (decide (j = id)) as [->|].
  - by rewrite aget_aset_eq.
  - rewrite aget_aset_ne by lia. constructor.
Qed.
