(* ===== verification/KernelLogic.v ===== *)
(** * The program logic of the kernel operations

    The logic of Act.v at the invariant of KernelInv.v.  [spec m P] is for the operations that neither take nor give
    away memory blocks: whatever else runs between its sections, [m] never
    panics, keeps the invariant, changes each message queue only as
    [chan_step] allows, and returns a value in [P]. *)

From S2P Require Import Prelude Collections Abi Capability PhysMem Memory Buddy BuddyInv BuddySystem Pools Paging.
From S2P Require Import Act Task Sched KernelCap Channels Shmem KernelInv.

Section rules.
Context {p0 : PagePools} {Fs : Pool -> Z -> Prop}.
Local Abbreviation kinv := (kinv p0 Fs).
Local Abbreviation ksafe := (safe kinv chan_step).

Definition spec {A} (m : act kernel A) (P : A -> Prop) : Prop :=
  forall own, ksafe own m (fun a own' => own' = own /\ P a).

(** ** The rules *)

Lemma spec_ret {A} (a : A) (P : A -> Prop) : P a -> spec (Ret a) P.
Proof. by intros ? ?. Qed.

Lemma spec_bind {A B} (P : A -> Prop) (m : act kernel A) (g : A -> act kernel B) Q :
  spec m P -> (forall a, P a -> spec (g a) Q) -> spec (abind m g) Q.
Proof. intros Hm Hg own. eapply safe_call; [apply Hm|]. intros a Ha. by apply Hg. Qed.

Lemma spec_mono {A} (m : act kernel A) (P Q : A -> Prop) : (forall a, P a -> Q a) -> spec m P -> spec m Q.
Proof. intros HPQ Hm own. eapply safe_mono; [|apply Hm]. naive_solver. Qed.

Lemma spec_true {A} (m : act kernel A) (P : A -> Prop) : spec m P -> spec m (fun _ => True).
Proof. by apply spec_mono. Qed.

(** A result whose value, if it is not an error, is in [P]. *)
Definition okv {E A} (P : A -> Prop) (r : result E A) : Prop := match r with Ok a => P a | Err _ => True end.

Lemma spec_bind_ok {E A B} (P : A -> Prop) (m : act kernel (result E A)) (g : A -> act kernel (result E B)) Q :
  spec m (okv P) -> (forall a, P a -> spec (g a) (okv Q)) -> spec (abind_ok m g) (okv Q).
Proof. intros Hm Hg. eapply spec_bind; [exact Hm|]. intros [a|e] Ha; [by apply Hg|]. by apply spec_ret. Qed.

Lemma spec_atomic {B} (f : sec kernel B) (P : B -> Prop) :
  (forall e k own, env_ok e -> kinv k own ->
     exists k' b, f e k = Some (k', b) /\ kinv k' own /\ chan_step k k' /\ P b) ->
  spec (atomic f) P.
Proof.
  intros Hf own e k F He Hk. destruct (Hf e k _ He Hk) as (k' & b & E & Hk' & Hc & Hb).
  by exists k', b, own.
Qed.

(** A switched-out thread goes on when it is dispatched; after a stop nothing
    follows. *)
Lemma spec_await {A} g (m : act kernel A) (P : A -> Prop) : spec m P -> spec (Await g m) P.
Proof. done. Qed.

Lemma spec_stop {A} (P : A -> Prop) : spec Stop P.
Proof. done. Qed.

Lemma spec_here : spec here (fun c => 0 <= c < MAX_CORES).
Proof.
  apply spec_atomic. intros e k own He Hk. exists k, (core_id e). split; [done|]. split; [done|].
  split; [by apply chan_step_same|]. apply He.
Qed.

Lemma spec_reads {B} (f : kernel -> B) (P : B -> Prop) :
  (forall k own, kinv k own -> P (f k)) -> spec (reads f) P.
Proof.
  intros Hf. apply spec_atomic. intros e k own _ Hk. eexists _, _. split_and!; try done; [by apply chan_step_same|eauto].
Qed.

Lemma spec_reads_opt {B} (f : kernel -> option B) (P : B -> Prop) :
  (forall k own, kinv k own -> exists b, f k = Some b /\ P b) -> spec (reads_opt f) P.
Proof.
  intros Hf. apply spec_atomic. intros e k own _ Hk. destruct (Hf k own Hk) as (b & E & Hb). rewrite E.
  eexists _, _. split_and!; try done. by apply chan_step_same.
Qed.

Lemma spec_updates (f : kernel -> kernel) :
  (forall k own, kinv k own -> kinv (f k) own /\ chan_step k (f k)) -> spec (updates f) (fun _ => True).
Proof. intros Hf. apply spec_atomic. intros e k own _ Hk. destruct (Hf k own Hk). by eexists _, _. Qed.

Lemma spec_updates_opt (f : kernel -> option kernel) :
  (forall k own, kinv k own -> exists k', f k = Some k' /\ kinv k' own /\ chan_step k k') ->
  spec (updates_opt f) (fun _ => True).
Proof.
  intros Hf. apply spec_atomic. intros e k own _ Hk. destruct (Hf k own Hk) as (k' & E & ? & ?). rewrite E.
  by eexists _, _.
Qed.

Lemma spec_for {X} (xs : list X) (body : X -> act kernel unit) (P : X -> Prop) :
  Forall P xs -> (forall x, P x -> spec (body x) (fun _ => True)) -> spec (afor xs body) (fun _ => True).
Proof.
  intros Hx Hb. induction Hx as [|x xs Hx _ IH]; cbn; [by apply spec_ret|].
  eapply spec_bind; [by apply Hb|]. by intros [] _.
Qed.

Lemma spec_for_ok {E X} (xs : list X) (body : X -> act kernel (result E unit)) :
  (forall x, spec (body x) (okv (fun _ => True))) -> spec (afor_ok xs body) (okv (fun _ => True)).
Proof.
  intros Hb. induction xs as [|x xs IH]; cbn; [by apply spec_ret|].
  eapply spec_bind_ok; [by apply Hb|]. by intros [] _.
Qed.

(** ** Running alone *)

Lemma spec_exec {A} (m : act kernel A) P e k own :
  env_ok e -> spec m P -> kinv k own ->
  match exec e m k with
  | Returns k' a => kinv k' own /\ P a
  | Waits k' | Stops k' => exists own', kinv k' own'
  | Panics => False
  end.
Proof.
  intros He Hm Hk. pose proof (safe_exec _ _ own [] m _ e k He (Hm own)) as H. rewrite app_nil_r in H. specialize (H Hk).
  destruct (exec e m k) as [k' a|k'|k'|]; [|by destruct H as [own' H]; eexists..|done].
  destruct H as (own' & Hk' & -> & Ha). by rewrite app_nil_r in Hk'.
Qed.

Lemma spec_result {A} (m : act kernel A) P e k own k' a :
  env_ok e -> spec m P -> kinv k own -> run e m k = Some (k', a) -> kinv k' own /\ P a.
Proof. intros He Hm Hk Hr%run_exec. pose proof (spec_exec m P e k own He Hm Hk) as H. by rewrite Hr in H. Qed.

Lemma spec_run {A} (m : act kernel A) P e k own :
  env_ok e -> prompt e m -> spec m P -> kinv k own -> exists k' a, run e m k = Some (k', a) /\ kinv k' own /\ P a.
Proof.
  intros He Hw Hm Hk. destruct (safe_run _ _ own [] m _ e k He Hw (Hm own)) as (k' & a & own' & E & Hk' & -> & Ha);
    [by rewrite app_nil_r|]. rewrite app_nil_r in Hk'. by exists k', a.
Qed.
End rules.
Arguments spec p0 Fs {A} m P.

Create HintDb kspec discriminated.

(** A section that leaves the channels alone: names the result, leaves the
    invariant and the postcondition. *)
Ltac same_chan := eexists _, _; split; [reflexivity|]; split; [|split; [by apply chan_step_same|]].

(** Follows an operation along its calls. *)
Ltac spec_go :=
  repeat match goal with
  | |- spec _ _ (Ret _) _ => by apply spec_ret
  | |- spec _ _ Stop _ => apply spec_stop
  | |- spec _ _ (if ?b then _ else _) _ => destruct b eqn:?
  | |- spec _ _ (abind (Ret _) _) _ => cbn [abind]
  | |- spec _ _ (abind (if ?b then _ else _) _) _ => destruct b eqn:?
  | |- spec _ _ (abind _ _) _ => eapply spec_bind; [solve [eauto with kspec]|intros; cbv beta in *]
  | |- spec _ _ (abind_ok _ _) _ => eapply spec_bind_ok; [solve [eauto with kspec]|intros; cbv beta in *]
  | |- spec _ _ (match ?x with Some _ => _ | None => _ end) _ => destruct x eqn:?; simplify_eq; cbn [opt from_option] in *
  | |- spec _ _ (match ?x with Ok _ => _ | Err _ => _ end) _ => destruct x eqn:?; simplify_eq; cbn [okv] in *
  | |- spec _ _ (let '(_, _) := ?x in _) _ => destruct x eqn:?
  | |- spec _ _ _ _ => solve [eauto with kspec]
  end.
