(* ===== verification/SchedSafe.v ===== *)
(** * The scheduler keeps the invariant *)

From S2P Require Import Prelude Collections Abi Capability PhysMem Memory Buddy BuddyInv BuddySystem Pools Paging.
From S2P Require Import Act Task Sched KernelCap Channels Shmem KernelInv KernelLogic.

Section safe.
Context {p0 : PagePools} {Fs : Pool -> Z -> Prop}.
Local Abbreviation kinv := (kinv p0 Fs).
Local Abbreviation spec := (spec p0 Fs).

(** ** States *)

Lemma kinv_threads k own ts :
  kinv k own -> table MAX_THREADS thread_ok ts -> kinv (set_threads k ts) own.
Proof. intros [[] ? ? ?] ?. by split. Qed.

Lemma kinv_thread k own tid t : kinv k own -> thread_ok t -> kinv (put_thread k tid t) own.
Proof.
  intros Hk Ht. apply kinv_threads; [done|]. destruct Hk as [[] _ _ _]. by apply (arr_set MAX_THREADS (opt thread_ok)).
Qed.

Lemma kinv_queue k own cpu rq : kinv k own -> rq_ok rq -> kinv (put_queue k cpu rq) own.
Proof. intros [[] ? ? ?] ?. split; try done. split; try done. by apply arr_set. Qed.

Lemma thread_get k own tid :
  kinv k own -> tid_ok tid -> exists slot, thread_at k tid = Some slot /\ opt thread_ok slot.
Proof. intros [[] _ _ _] ?. by apply (table_get MAX_THREADS thread_ok). Qed.

Lemma thread_join k own tid t : kinv k own -> mjoin (thread_at k tid) = Some t -> thread_ok t.
Proof. intros [[] _ _ _]. by apply (table_join MAX_THREADS). Qed.

Lemma queue_get k own cpu :
  kinv k own -> 0 <= cpu < MAX_CORES -> exists rq, (run_queues k).[cpu] = Some rq /\ rq_ok rq.
Proof. intros [[] _ _ _] ?. by apply arr_get with (n := MAX_CORES). Qed.

Lemma current_get k own cpu :
  kinv k own -> 0 <= cpu < MAX_CORES -> exists o, (current_thread k).[cpu] = Some o /\ opt tid_ok o.
Proof. intros [[] _ _ _] ?. by apply table_get with (n := MAX_CORES). Qed.

(** A write to the scheduling fields that leaves a notification wait alone. *)
Lemma thread_ok_sched t f :
  thread_ok t -> (match state (f (sched t)) with BlockedNotification n => 0 <= n < MAX_NOTIFICATIONS | _ => True end) ->
  thread_ok (with_sched t f).
Proof. intros [? ?] ?. by split. Qed.

Lemma thread_ok_state t st :
  thread_ok t -> (match st with BlockedNotification n => 0 <= n < MAX_NOTIFICATIONS | _ => True end) ->
  thread_ok (with_sched t (se_state st)).
Proof. intros ? ?. by apply thread_ok_sched. Qed.

Lemma queue_push q tid : queue_ok q -> tid_ok tid -> queue_ok (FixedQueue.push_back MAX_THREADS q tid).2.
Proof.
  intros (l & Hr & Hl) Ht. destruct (FixedQueue.fq_rep_push MAX_THREADS eq_refl q l tid Hr) as [_ Hr'].
  eexists. split; [exact Hr'|]. unfold Fifo.push. case_match; [done|]. apply Forall_app. split; [done|by constructor].
Qed.

Lemma queue_pop q :
  queue_ok q -> opt tid_ok (FixedQueue.pop_front MAX_THREADS q).1 /\ queue_ok (FixedQueue.pop_front MAX_THREADS q).2.
Proof.
  intros (l & Hr & Hl). destruct (FixedQueue.fq_rep_pop MAX_THREADS eq_refl q l Hr) as [E Hr'].
  rewrite E. destruct Hl as [|x l Hx Hl]; cbn in *; (split; [done|]); by eexists.
Qed.

Lemma enqueue_ok rq tid c : rq_ok rq -> tid_ok tid -> rq_ok (enqueue rq tid c).
Proof. intros [] ?. destruct c; split; cbn; try done; by apply queue_push. Qed.

Lemma pick_next_ok rq : rq_ok rq -> opt tid_ok (pick_next rq).1 /\ rq_ok (pick_next rq).2.
Proof.
  intros [H1 H2 H3 H4]. unfold pick_next. pose proof H1 as H1'. pose proof H2 as H2'. pose proof H3 as H3'.
  apply queue_pop in H1', H2', H3'. pose proof (queue_pop _ H4) as H4'.
  destruct (FixedQueue.pop_front MAX_THREADS (rt rq)) as [[t|] q]; [by split; [apply H1'|split; try done; apply H1']|].
  destruct (FixedQueue.pop_front MAX_THREADS (interactive rq)) as [[t|] q2];
    [by split; [apply H2'|split; try done; [apply H1'|apply H2']]|].
  destruct (FixedQueue.pop_front MAX_THREADS (normal rq)) as [[t|] q3];
    [by split; [apply H3'|split; try done; [apply H1'|apply H2'|apply H3']]|].
  destruct (FixedQueue.pop_front MAX_THREADS (idle rq)) as [t q4].
  split; [apply H4'|split; [apply H1'|apply H2'|apply H3'|apply H4']].
Qed.

(** ** Scheduler *)

Lemma spec_enqueue_on_cpu cpu tid c :
  0 <= cpu < MAX_CORES -> tid_ok tid -> spec (enqueue_on_cpu cpu tid c) (fun _ => True).
Proof.
  intros Hc Ht. apply spec_updates_opt. intros k own Hk. destruct (queue_get k own cpu Hk Hc) as (rq & E & Hrq).
  rewrite E. eexists. split; [done|]. split; [|by apply chan_step_same]. by apply kinv_queue, enqueue_ok.
Qed.

Lemma spec_current_of cpu : 0 <= cpu < MAX_CORES -> spec (current_of cpu) (opt tid_ok).
Proof. intros Hc. apply spec_reads_opt. intros k own Hk. by eapply current_get. Qed.

Lemma spec_current_thread_id : spec current_thread_id (opt tid_ok).
Proof. eapply spec_bind; [apply spec_here|]. apply spec_current_of. Qed.

Lemma spec_set_current cpu t : 0 <= cpu < MAX_CORES -> opt tid_ok t -> spec (set_current cpu t) (fun _ => True).
Proof.
  intros Hc Ht. apply spec_updates_opt. intros k own Hk. destruct (current_get k own cpu Hk Hc) as (o & E & _).
  rewrite E. eexists. split; [done|]. split; [|by apply chan_step_same].
  destruct Hk as [[] ? ? ?]. split; try done. split; try done. by apply arr_set.
Qed.

Lemma insched_get k own cpu : kinv k own -> 0 <= cpu < MAX_CORES -> exists b, (in_scheduler k).[cpu] = Some b.
Proof. intros [[] _ _ _] ?. apply aget_is_Some. lia. Qed.

Lemma kinv_insched k own cpu b : kinv k own -> kinv (set_in_scheduler k ((in_scheduler k).[cpu <- b])) own.
Proof. intros [[] ? ? ?]. split; try done. split; try done. cbn. by rewrite alen_aset. Qed.

Lemma spec_leave_scheduler cpu : 0 <= cpu < MAX_CORES -> spec (leave_scheduler cpu) (fun _ => True).
Proof.
  intros Hc. apply spec_updates_opt. intros k own Hk. destruct (insched_get k own cpu Hk Hc) as (b & E). rewrite E.
  eexists. split; [done|]. split; [by apply kinv_insched|by apply chan_step_same].
Qed.

Lemma spec_timer_tick cpu : 0 <= cpu < MAX_CORES -> spec (timer_tick cpu) (fun _ => True).
Proof.
  intros Hc. eapply (spec_bind (opt tid_ok)).
  - apply spec_atomic. intros e k own _ Hk. destruct (current_get k own cpu Hk Hc) as (o & E & Ho). rewrite E.
    destruct (lock_busy e); (eexists _, _; split; [done|]; split; [done|]; split; [by apply chan_step_same|done]).
  - intros [tid|] Ht; [|by apply spec_ret]. apply spec_atomic. intros e k own _ Hk.
    destruct (thread_get k own tid Hk Ht) as (slot & E & Hs). rewrite E.
    destruct (lock_busy e), slot as [t|]; (eexists _, _; split; [done|]; split; [|split; [by apply chan_step_same|done]]); try done.
    apply kinv_thread; [done|]. apply thread_ok_sched; [done|apply Hs].
Qed.

Lemma kinv_need k own b : kinv k own -> kinv (set_need_resched k b) own.
Proof. intros [[] ? ? ?]. by split. Qed.

Lemma spec_charge_current tid : tid_ok tid -> spec (atomic (charge_current tid)) (fun _ => True).
Proof.
  intros Ht. apply spec_atomic. intros e k own _ Hk. destruct (thread_get k own tid Hk Ht) as (slot & E & Hs).
  unfold charge_current. rewrite E. destruct slot as [t|]; [|by same_chan].
  destruct (bool_decide (state (sched t) = Running)) eqn:Er, (time_slice_remaining (sched t) =? 0); cbn [andb];
    same_chan; try done. apply kinv_thread; [done|]. by apply thread_ok_sched.
Qed.

Lemma spec_pick cpu : 0 <= cpu < MAX_CORES -> spec (atomic (pick cpu)) (opt tid_ok).
Proof.
  intros Hc. apply spec_atomic. intros e k own _ Hk. destruct (queue_get k own cpu Hk Hc) as (rq & E & Hrq).
  unfold pick. rewrite E. cbn. apply pick_next_ok in Hrq as [Ho Hrq]. destruct (pick_next rq) as [r rq'].
  same_chan; [by apply kinv_queue|done].
Qed.

Lemma spec_set_running tid : tid_ok tid -> spec (atomic (set_running tid)) (fun _ => True).
Proof.
  intros Ht. apply spec_atomic. intros e k own _ Hk. destruct (thread_get k own tid Hk Ht) as (slot & E & Hs).
  unfold set_running. rewrite E. destruct slot as [t|]; same_chan; try done. by apply kinv_thread, thread_ok_state.
Qed.

Lemma spec_switch_table current next :
  opt tid_ok current -> tid_ok next -> spec (atomic (switch_table current next)) (fun _ => True).
Proof.
  intros Hc Hn. apply spec_atomic. intros e k own _ Hk. unfold switch_table.
  assert (Hold : exists k1 old, (match current with
         | None => Some (k, false)
         | Some tid => match thread_at k tid with
             | None => None
             | Some None => Some (k, false)
             | Some (Some t) => Some (if bool_decide (state (sched t) = Running)
                       then put_thread k tid (with_sched t (se_state Runnable)) else k, true)
             end
         end) = Some (k1, old) /\ kinv k1 own /\ channels k1 = channels k).
  { destruct current as [tid|]; [|by exists k, false]. cbn in Hc.
    destruct (thread_get k own tid Hk Hc) as (slot & E & Hs). rewrite E. destruct slot as [t|]; [|by exists k, false].
    eexists _, true. split; [reflexivity|]. case_bool_decide; [|done]. split; [|done]. by apply kinv_thread, thread_ok_state. }
  destruct Hold as (k1 & old & -> & Hk1 & Hch). destruct (thread_get k1 own next Hk1 Hn) as (slot & E & Hs). rewrite E.
  destruct slot as [t|]; (eexists _, _; split; [reflexivity|]; split; [|split; [by apply chan_step_same|done]]); [|done].
  by apply kinv_thread, thread_ok_state.
Qed.

(** A saved context has the return address of the call as its program counter. *)
Lemma spec_save_context tid : tid_ok tid -> spec (save_context tid) (fun _ => True).
Proof.
  intros Ht. apply spec_atomic. intros e k own He Hk. destruct (thread_get k own tid Hk Ht) as (slot & E & Hs).
  rewrite E. destruct slot as [t|]; [|by same_chan]. same_chan; [|done]. apply kinv_thread; [done|].
  destruct Hs as [(? & ? & _) ?]. pose proof (env_lr _ He). split; [|done]. split; [done|]. split; [done|]. cbn. lia.
Qed.

Lemma spec_assert_valid_ctx tid : tid_ok tid -> spec (assert_valid_ctx tid) (fun _ => True).
Proof.
  intros Ht. apply spec_atomic. intros e k own _ Hk. destruct (thread_get k own tid Hk Ht) as (slot & E & Hs).
  rewrite E. destruct slot as [t|]; [|by same_chan]. destruct Hs as [(_ & _ & Hpc) _].
  destruct (Z.eqb_spec (pc (context t)) 0); [done|by same_chan].
Qed.

Lemma spec_resumed tid : spec (resumed tid) (fun _ => True).
Proof. by apply spec_await, spec_ret. Qed.

Hint Resolve spec_here spec_enqueue_on_cpu spec_current_of spec_current_thread_id spec_set_current
  spec_leave_scheduler spec_timer_tick spec_charge_current spec_pick spec_set_running spec_switch_table
  spec_save_context spec_assert_valid_ctx spec_resumed : kspec.

Lemma spec_dispatch cpu current :
  0 <= cpu < MAX_CORES -> opt tid_ok current -> spec (dispatch cpu current) (fun _ => True).
Proof. intros Hc Ho. unfold dispatch. spec_go; destruct b; simplify_eq; spec_go. Qed.
Hint Resolve spec_dispatch : kspec.

Lemma spec_schedule : spec schedule (fun _ => True).
Proof.
  unfold schedule. eapply spec_bind; [apply spec_here|]. intros cpu Hc. eapply (spec_bind (fun _ => True)).
  - apply spec_atomic. intros e k own _ Hk. destruct (insched_get k own cpu Hk Hc) as (b & E). rewrite E.
    same_chan; [|done]. by apply kinv_insched.
  - intros [] _; [by apply spec_ret|]. eapply (spec_bind (fun _ => True)).
    + apply spec_updates. intros k own Hk. split; [by apply kinv_need|by apply chan_step_same].
    + intros [] _. spec_go. destruct a; spec_go.
Qed.
Hint Resolve spec_schedule : kspec.

Lemma spec_update_current f :
  (forall t, thread_ok t -> thread_ok (f t)) -> spec (update_current f) (fun _ => True).
Proof.
  intros Hf. unfold update_current. spec_go. apply spec_updates_opt. intros k own Hk.
  destruct (thread_get k own z Hk ltac:(done)) as (slot & E & Hs). rewrite E. eexists. split; [reflexivity|].
  destruct slot as [t|]; [|split; [done|by apply chan_step_same]]. split; [|by apply chan_step_same].
  apply kinv_thread; [done|by apply Hf].
Qed.

Lemma spec_thread_yield : spec thread_yield (fun _ => True).
Proof.
  unfold thread_yield. eapply spec_bind; [|intros; apply spec_schedule]. apply spec_update_current.
  intros t Ht. by apply thread_ok_sched.
Qed.

Lemma spec_block_current st :
  (match st with BlockedNotification n => 0 <= n < MAX_NOTIFICATIONS | _ => True end) ->
  spec (block_current st) (fun _ => True).
Proof.
  intros Hst. unfold block_current. eapply spec_bind; [|intros; apply spec_schedule]. apply spec_update_current.
  intros t Ht. by apply thread_ok_state.
Qed.

Lemma spec_check_preemption : spec check_preemption (fun _ => True).
Proof.
  unfold check_preemption. eapply spec_bind; [apply spec_here|]. intros cpu Hc.
  eapply (spec_bind (fun _ => True)); [by apply spec_reads|]. intros nr _. spec_go.
  eapply (spec_bind (fun _ => True)); [|intros; spec_go]. apply spec_reads_opt. intros k own Hk.
  destruct (insched_get k own cpu Hk Hc) as (b & ->). by exists b.
Qed.

Lemma wake_target_range aff cpu : 0 <= cpu < MAX_CORES -> 0 <= wake_target aff cpu < MAX_CORES.
Proof.
  intros Hc. unfold wake_target. case_match; [done|]. destruct (List.find _ _) as [c|] eqn:E; [|done].
  apply find_some in E as [Hin _]. apply list_elem_of_In, elem_of_seqZ in Hin. cbn. lia.
Qed.

Lemma spec_unblock_table tid : spec (atomic (unblock_table tid)) (fun _ => True).
Proof.
  apply spec_atomic. intros e k own _ Hk. unfold unblock_table.
  destruct (mjoin (thread_at k tid)) as [t|] eqn:E; [|by same_chan].
  assert (Hb : thread_ok t) by by eapply thread_join.
  destruct (state (sched t)); same_chan; try done; by apply kinv_thread, thread_ok_sched.
Qed.

Lemma spec_unblock tid : tid_ok tid -> spec (unblock tid) (fun _ => True).
Proof.
  intros Ht. unfold unblock. eapply spec_bind; [apply spec_unblock_table|]. intros [[c aff]|] _; [|by apply spec_ret].
  eapply spec_bind; [apply spec_here|]. intros cpu Hc. apply spec_enqueue_on_cpu; [by apply wake_target_range|done].
Qed.

Lemma spec_allocate_thread t : thread_ok t -> spec (allocate_thread t) (opt tid_ok).
Proof.
  intros Ht. apply spec_atomic. intros e k own _ Hk. destruct (first_none (threads k)) as [i|] eqn:E; same_chan; try done.
  - apply kinv_threads; [done|]. destruct Hk as [[] _ _ _]. by apply (arr_insert MAX_THREADS (opt thread_ok)).
  - destruct Hk as [[] _ _ _]. by eapply first_none_lt.
Qed.

(** The scan returns CPUs of the list it was given. *)
Lemma spec_balance_scan cpus mx mxd mn mnd :
  Forall (fun c => 0 <= c < MAX_CORES) cpus -> 0 <= mx < MAX_CORES -> 0 <= mn < MAX_CORES ->
  spec (balance_scan cpus mx mxd mn mnd) (fun r => 0 <= r.1.1.1 < MAX_CORES /\ 0 <= r.1.2 < MAX_CORES).
Proof.
  intros Hl. revert mx mxd mn mnd. induction Hl as [|c cpus Hc _ IH]; intros mx mxd mn mnd Hmx Hmn; cbn [balance_scan];
    [by apply spec_ret|].
  eapply (spec_bind (fun _ => True)).
  - apply spec_atomic. intros e k own _ Hk. destruct (queue_get k own c Hk Hc) as (rq & E & _). rewrite E.
    destruct (lock_busy e); by same_chan.
  - intros [d|] _; [|by apply IH]. destruct (d >? mxd), (d <? mnd); by apply IH.
Qed.

Lemma spec_migrate src dst :
  0 <= src < MAX_CORES -> 0 <= dst < MAX_CORES -> spec (atomic (migrate src dst)) (fun _ => True).
Proof.
  intros Hs Hd. apply spec_atomic. intros e k own _ Hk. unfold migrate. destruct (lock_busy e); [by same_chan|].
  destruct (queue_get k own src Hk Hs) as (rqs & -> & Hrs). destruct (queue_get k own dst Hk Hd) as (rqd & -> & Hrd).
  cbn [mbind option_bind]. pose proof (queue_pop _ (rq_normal _ Hrs)) as [Ht Hq].
  destruct (FixedQueue.pop_front MAX_THREADS (normal rqs)) as [[tid|] q]; cbn in Ht, Hq.
  - destruct (thread_get k own tid Hk Ht) as (slot & -> & Hsl). cbn [mbind option_bind].
    destruct slot as [t|]; [destruct (cpuset_contains _ _)|]; same_chan; try done;
      repeat apply kinv_queue; try done; destruct Hrs, Hrd; split; cbn; try done; by apply queue_push.
  - same_chan; [|done]. apply kinv_queue; [done|]. destruct Hrs. by split.
Qed.

Lemma spec_try_load_balance online : 0 <= online <= MAX_CORES -> spec (try_load_balance online) (fun _ => True).
Proof.
  intros Ho. unfold try_load_balance. destruct (online <? 2); [by apply spec_ret|].
  eapply spec_bind; [apply spec_balance_scan; try done|].
  - apply Forall_forall. intros c Hc%elem_of_seqZ. lia.
  - intros [[[mx mxd] mn] mnd] [Hmx Hmn]. cbn in Hmx, Hmn. destruct (_ || _); [by apply spec_ret|].
    by apply spec_migrate.
Qed.

Hint Resolve spec_thread_yield spec_block_current spec_check_preemption spec_unblock spec_try_load_balance : kspec.
End safe.

#[export] Hint Resolve spec_here spec_enqueue_on_cpu spec_current_of spec_current_thread_id spec_set_current
  spec_leave_scheduler spec_timer_tick spec_charge_current spec_pick spec_set_running
  spec_switch_table spec_save_context spec_assert_valid_ctx spec_resumed spec_dispatch spec_schedule spec_thread_yield spec_block_current
  spec_check_preemption spec_unblock spec_try_load_balance : kspec.
