(* ===== verification/ChannelSafe.v ===== *)
(** * Capabilities, channels and the direct switch keep the invariant *)

From S2P Require Import Prelude Collections Abi Capability PhysMem Memory Buddy BuddyInv BuddySystem Pools Paging.
From S2P Require Import Act Task Sched KernelCap Channels Shmem KernelInv KernelLogic SchedSafe.

Section safe.
Context {p0 : PagePools} {Fs : Pool -> Z -> Prop}.
Local Abbreviation kinv := (kinv p0 Fs).
Local Abbreviation spec := (spec p0 Fs).

(** ** Capabilities *)

Lemma process_ref_wf k own p pr : kinv k own -> process_ref k p = Ok pr -> table_wf (cap_table pr).
Proof.
  intros [_ _ [Hp _ _ _ _] _]. unfold process_ref, process_slot. destruct (process_index p) as [i|]; [|done].
  destruct (mjoin _) as [pr'|] eqn:E; [|done]. intros [= ->]. exact (table_join _ _ _ _ _ Hp E).
Qed.

Lemma kinv_process k own p pr tb :
  kinv k own -> table_wf tb -> kinv (put_process k p (with_cap_table pr tb)) own.
Proof.
  intros [? ? [] ?] Ht. split; try done. split; try done. by apply (arr_set MAX_PROCESSES (opt _)).
Qed.

Lemma kinv_token k own : kinv k own -> kinv (new_token_id k).1 own.
Proof. intros [? ? [] ?]. by split. Qed.

Lemma spec_tick_now : spec tick_now (fun _ => True).
Proof. by apply spec_reads. Qed.
Lemma spec_process_of_thread tid : spec (process_of_thread tid) (opt (fun p => 0 <= p)).
Proof.
  apply spec_reads. intros k own Hk. destruct (mjoin (thread_at k tid)) as [t|] eqn:E; [|done].
  by destruct (thread_join k own tid t Hk E) as [(_ & Ho & _) _].
Qed.
Hint Resolve spec_tick_now spec_process_of_thread : kspec.

Lemma spec_current_process_id : spec current_process_id (opt (fun p => 0 <= p)).
Proof. unfold current_process_id. spec_go. Qed.

Lemma spec_check_create cap p : spec (check_create cap p) (okv (fun _ => True)).
Proof. unfold check_create. spec_go. apply spec_reads. intros k own Hk. by destruct (_ ≫= _). Qed.

Lemma spec_check_access cap p : spec (check_access cap p) (okv (fun _ => True)).
Proof. unfold check_access. spec_go. apply spec_reads. intros k own Hk. by destruct (_ ≫= _). Qed.

Lemma spec_check_channel_access p ch : spec (check_channel_access p ch) (okv (fun _ => True)).
Proof. unfold check_channel_access. case_match; [apply spec_check_access|by apply spec_ret]. Qed.

(** The three operations that add a token to a process's table. *)
Lemma spec_add_token {E} p (f : CapabilityTable -> Z -> CapabilityTable * result Z Z) (err : Z -> result E Z)
    (g : result Z Z -> result E Z) :
  (forall tb id, table_wf tb -> table_wf (f tb id).1) ->
  spec (atomic (fun _ k =>
    match process_ref k p with
    | Err e => Some (k, err e)
    | Ok pr =>
        let '(k1, id) := new_token_id k in
        let '(tb, r) := f (cap_table pr) id in
        Some (put_process k1 p (with_cap_table pr tb), g r)
    end)) (fun _ => True).
Proof.
  intros Hf. apply spec_atomic. intros e k own _ Hk. destruct (process_ref k p) as [pr|c] eqn:E1; [|by same_chan].
  pose proof (Hf (cap_table pr) (next_token_id k) (process_ref_wf _ _ _ _ Hk E1)) as Hw.
  cbn [new_token_id]. destruct (f (cap_table pr) (next_token_id k)) as [tb r]. same_chan; [|done].
  by apply kinv_process; [apply (kinv_token k)|].
Qed.

Lemma spec_grant_to_process p cap deleg : spec (grant_to_process p cap deleg) (fun _ => True).
Proof.
  unfold grant_to_process. spec_go. apply (spec_add_token p (fun tb id => grant tb _) Err id).
  intros tb i. by apply grant_wf.
Qed.

Lemma spec_attenuate_in p h cap exp : spec (atomic (attenuate_in p h cap exp)) (fun _ => True).
Proof. apply (spec_add_token p (fun tb id => attenuate tb h cap exp p id) Err id). intros tb i. by apply attenuate_wf. Qed.

Lemma spec_kit_grant p cap by_ : spec (kit_grant p cap by_) (fun _ => True).
Proof.
  unfold kit_grant. spec_go.
  apply (spec_add_token p (fun tb id => grant tb _) (fun _ => Err (NotGranted cap)) (map_err (fun _ => TableFull))).
  intros tb i. by apply grant_wf.
Qed.

Hint Resolve spec_current_process_id spec_check_create spec_check_access spec_check_channel_access
  spec_grant_to_process spec_attenuate_in : kspec.

(** ** Channels *)

Lemma kinv_channels k own chs :
  kinv k own -> table MAX_CHANNELS channel_ok chs -> kinv (set_channels k chs) own.
Proof. intros [? [] ? ?] ?. by split. Qed.

Lemma kinv_channel k own id c : kinv k own -> opt channel_ok c -> kinv (put_channel k id c) own.
Proof.
  intros Hk Hc. apply kinv_channels; [done|]. destruct Hk as [_ [] _ _]. by apply (arr_set MAX_CHANNELS (opt channel_ok)).
Qed.

Lemma channel_ref_Ok k own id c :
  kinv k own -> 0 <= id -> channel_ref k id = Ok c ->
  channel_ok c /\ 0 <= id < alen (channels k) /\ queue_of k id = Some (ring_list (ring c)).
Proof.
  intros [_ [Hch _ _ _ _ _ _ _] _ _] Hid. unfold channel_ref, channel_slot, channel_index, queue_of.
  destruct (Z.ltb_spec id MAX_CHANNELS); [|done]. destruct (mjoin _) as [c'|] eqn:E; [|done]. intros [= ->].
  split; [exact (table_join _ _ _ _ _ Hch E)|]. destruct Hch as [-> _]. done.
Qed.

(** Writing a channel back with the same ring. *)
Lemma put_same_ring k own id c c' :
  kinv k own -> 0 <= id -> channel_ref k id = Ok c -> channel_ok c' -> ring c' = ring c ->
  kinv (put_channel k id (Some c')) own /\ chan_step k (put_channel k id (Some c')).
Proof.
  intros Hk Hid Hc Hc' Hr. destruct (channel_ref_Ok _ _ _ _ Hk Hid Hc) as (_ & Hlen & Hq).
  split; [by apply kinv_channel|]. apply chan_step_put; [done|]. rewrite Hq. cbn. rewrite Hr. constructor.
Qed.

Lemma channel_ok_receiver c t : channel_ok c -> opt tid_ok t -> channel_ok (ch_set_receiver c t).
Proof. intros [] ?. by split. Qed.
Lemma channel_ok_caller c t : channel_ok c -> opt tid_ok t -> channel_ok (ch_set_caller c t).
Proof. intros [] ?. by split. Qed.
Lemma channel_ok_new id p : channel_ok (channel_new id p).
Proof. split; [|done..]. exists []. split; [apply mring_rep_new|done]. Qed.

Lemma spec_insert_channel p cap : spec (atomic (insert_channel p cap)) (okv (fun id => 0 <= id)).
Proof.
  apply spec_atomic. intros e k own _ Hk. unfold insert_channel.
  destruct (first_none (channels k)) as [i|] eqn:E; [|by same_chan].
  set (c := match cap with Some t => _ | None => _ end).
  assert (Hc : channel_ok c /\ ring_list (ring c) = []).
  { subst c. destruct cap; (split; [|done]); [|apply channel_ok_new]. destruct (channel_ok_new (Z.of_nat i) p). by split. }
  destruct Hc as [Hc Hr]. apply first_none_Some in E as [Hi _].
  eexists _, _. split; [reflexivity|]. split.
  { apply kinv_channels; [done|]. destruct Hk as [_ [] _ _]. by apply (arr_insert MAX_CHANNELS (opt channel_ok)). }
  split; [|cbn; lia]. pose proof (lookup_lt_Some _ _ _ Hi).
  replace (set_channels k _) with (put_channel k (Z.of_nat i) (Some c))
    by (unfold put_channel, aset; by rewrite Nat2Z.id).
  apply chan_step_put; [unfold alen; lia|]. unfold queue_of, aget. rewrite Nat2Z.id, Hi. cbn. rewrite Hr. constructor.
Qed.

Lemma spec_channel_create tid : spec (channel_create tid) (okv (fun id => 0 <= id)).
Proof.
  unfold channel_create. spec_go. apply spec_insert_channel.
Qed.

Lemma spec_channel_set_peer ch peer : 0 <= ch -> spec (channel_set_peer ch peer) (fun _ => True).
Proof.
  intros Hid. apply spec_atomic. intros e k own _ Hk. destruct (channel_ref k ch) as [c|err] eqn:E; [|by same_chan].
  destruct (channel_ref_Ok _ _ _ _ Hk Hid E) as ([] & _ & _).
  destruct (put_same_ring k own ch c (ch_set_peer c peer) Hk Hid E) as [? ?]; [by split|done|]. by eexists _, _.
Qed.

(** ** Timeouts *)

Lemma kinv_timeouts k own q :
  kinv k own -> table MAX_THREADS (fun te => tid_ok (te_tid te)) q -> kinv (set_timeout_queue k q) own.
Proof. intros [? [] ? ?] ?. by split. Qed.

Lemma timeout_get k own tid : kinv k own -> tid_ok tid -> exists o, (timeout_queue k).[tid] = Some o.
Proof. intros [_ [_ [Hn _] _ _ _ _ _ _] _ _] ?. apply aget_is_Some. unfold tid_ok in *. lia. Qed.

Lemma kinv_timeout k own tid o :
  kinv k own -> opt (fun te => tid_ok (te_tid te)) o -> kinv (set_timeout_queue k ((timeout_queue k).[tid <- o])) own.
Proof.
  intros Hk Ho. apply kinv_timeouts; [done|]. destruct Hk as [_ [] _ _]. by apply (arr_set MAX_THREADS (opt _)).
Qed.

Lemma spec_set_timeout tid o :
  tid_ok tid -> opt (fun te => tid_ok (te_tid te)) o -> spec (set_timeout tid o) (fun _ => True).
Proof.
  intros Ht Ho. apply spec_updates_opt. intros k own Hk. destruct (timeout_get k own tid Hk Ht) as (x & ->).
  eexists. split; [reflexivity|]. split; [by apply kinv_timeout|by apply chan_step_same].
Qed.

Lemma spec_clear_timeout tid : tid_ok tid -> spec (clear_timeout tid) (fun _ => True).
Proof.
  intros Ht. apply spec_atomic. intros e k own _ Hk. destruct (timeout_get k own tid Hk Ht) as (x & ->).
  destruct (lock_busy e); same_chan; try done. by apply kinv_timeout.
Qed.

Lemma error_get k own tid : kinv k own -> tid_ok tid -> exists o, (wakeup_errors k).[tid] = Some o.
Proof. intros [_ [_ _ _ Hn _ _ _ _] _ _] ?. apply aget_is_Some. unfold tid_ok in *. lia. Qed.

Lemma kinv_error k own tid err : kinv k own -> kinv (set_wakeup_errors k ((wakeup_errors k).[tid <- err])) own.
Proof. intros [? [] ? ?]. split; try done. split; try done. cbn. by rewrite alen_aset. Qed.

Lemma spec_get_wakeup_error tid : tid_ok tid -> spec (get_wakeup_error tid) (fun _ => True).
Proof.
  intros Ht. apply spec_atomic. intros e k own _ Hk. destruct (error_get k own tid Hk Ht) as (x & ->).
  same_chan; [|done]. by apply kinv_error.
Qed.

Hint Resolve spec_clear_timeout spec_get_wakeup_error : kspec.

Lemma spec_wake_with_error tid err : tid_ok tid -> spec (wake_with_error tid err) (fun _ => True).
Proof.
  intros Ht. unfold wake_with_error. eapply (spec_bind (fun _ => True)); [|intros; spec_go].
  apply spec_updates_opt. intros k own Hk. destruct (error_get k own tid Hk Ht) as (x & ->).
  eexists. split; [reflexivity|]. split; [by apply kinv_error|by apply chan_step_same].
Qed.

Lemma spec_arm_timeout tid d : tid_ok tid -> spec (arm_timeout tid d) (fun _ => True).
Proof. intros Ht. destruct d; [by apply spec_set_timeout|by apply spec_ret]. Qed.

Lemma spec_sleep_ticks n : spec (sleep_ticks n) (fun _ => True).
Proof.
  unfold sleep_ticks. spec_go. eapply spec_bind; [by apply spec_set_timeout|]. intros. by apply spec_block_current.
Qed.

Hint Resolve spec_wake_with_error spec_arm_timeout spec_sleep_ticks : kspec.

(** ** Destroying channels *)

Lemma spec_take_channel ch : 0 <= ch -> spec (atomic (take_channel ch)) (okv channel_ok).
Proof.
  intros Hid. apply spec_atomic. intros e k own _ Hk. unfold take_channel.
  destruct (channel_ref k ch) as [c|err] eqn:E; [|by same_chan].
  destruct (channel_ref_Ok _ _ _ _ Hk Hid E) as (Hc & Hlen & Hq).
  eexists _, _. split; [reflexivity|]. split; [by apply kinv_channel|]. split; [|done].
  apply chan_step_put; [done|]. rewrite Hq. constructor.
Qed.

Lemma opt_occupied {A} (P : A -> Prop) l : Forall (opt P) l -> Forall P (occupied l).
Proof.
  intros Hl. apply Forall_forall. intros x (i & Hi)%elem_of_occupied. exact (Forall_lookup_1 _ _ _ _ Hl Hi).
Qed.

Lemma spec_channel_destroy_unchecked ch : 0 <= ch -> spec (channel_destroy_unchecked ch) (okv (fun _ => True)).
Proof.
  intros Hid. unfold channel_destroy_unchecked. eapply spec_bind_ok; [by apply spec_take_channel|]. intros c [].
  eapply (spec_bind (fun _ => True)); [|intros; by apply spec_ret]. unfold wake_all. apply (spec_for _ _ tid_ok).
  - apply opt_occupied. by repeat constructor.
  - intros t Ht. by apply spec_wake_with_error.
Qed.
Hint Resolve spec_channel_destroy_unchecked : kspec.

Lemma spec_channel_destroy ch : 0 <= ch -> spec (channel_destroy ch) (okv (fun _ => True)).
Proof. intros Hid. unfold channel_destroy. spec_go. Qed.

Lemma spec_revoke_channels token : spec (revoke_channels_for_cap token) (fun _ => True).
Proof.
  unfold revoke_channels_for_cap. eapply (spec_bind (Forall (fun id => 0 <= id))).
  - apply spec_reads. intros k own _. unfold channels_of_cap. apply Forall_map, Forall_forall. intros i _. lia.
  - intros ids Hids. apply (spec_for _ _ _ Hids). intros id Hid. eapply spec_bind; [by apply spec_channel_destroy_unchecked|].
    intros. by apply spec_ret.
Qed.
Hint Resolve spec_channel_destroy spec_revoke_channels : kspec.

Lemma spec_revoke_in_process p token : spec (revoke_in_process p token) (okv (fun _ => True)).
Proof.
  unfold revoke_in_process. destruct (process_index p) as [i|] eqn:Ei; [|by apply spec_ret].
  eapply (spec_bind (fun _ => True)); [|intros; spec_go].
  apply spec_updates. intros k own Hk. split; [|by apply chan_step_same; repeat case_match].
  destruct (process_slot k p) as [[pr|]|] eqn:E; try done. apply kinv_process; [done|]. apply revoke_wf.
  apply (process_ref_wf k own p); [done|]. unfold process_ref. by rewrite E.
Qed.

Lemma spec_kit_revoke p h : spec (kit_revoke p h) (okv (fun _ => True)).
Proof.
  unfold kit_revoke. eapply (spec_bind_ok (fun _ => True)); [|intros; spec_go].
  apply spec_atomic. intros e k own _ Hk. destruct (process_ref k p) as [pr|] eqn:E; [|by same_chan].
  destruct (live_token _ _); same_chan; try done. apply kinv_process; [done|]. apply revoke_wf. by eapply process_ref_wf.
Qed.

(** ** Direct switch *)

Lemma inherit_ok s r : thread_ok s -> thread_ok r -> exists r', inherit s r = Some r' /\ thread_ok r'.
Proof.
  unfold thread_ok, MAX_INHERITANCE_DEPTH. intros [[Hs _] _] [(Hr & Ho & Hpc) Hn]. unfold inherit.
  destruct (checked_add 8 (inheritance_depth s) 1) as [d|] eqn:E; [|apply checked_add_None in E; lia].
  apply checked_add_Some in E as [-> _]. eexists. split; [reflexivity|]. cbn. unfold MAX_INHERITANCE_DEPTH.
  split; [|done]. split; [lia|by split].
Qed.

Lemma put_thread_slot k tid t u :
  mjoin (thread_at k u) <> None -> mjoin (thread_at (put_thread k tid t) u) <> None.
Proof.
  unfold thread_at, aget. cbn [put_thread set_threads k_sched set_sched threads]. unfold aset.
  destruct (decide (Z.to_nat tid = Z.to_nat u)) as [->|Hne]; [|by rewrite list_lookup_insert_ne].
  intros H. destruct (threads k !! Z.to_nat u) as [o|] eqn:E; [|done]. apply lookup_lt_Some in E.
  by rewrite list_lookup_insert_eq.
Qed.

Lemma put_thread_join k tid t u x :
  mjoin (thread_at k u) = Some x -> exists y, mjoin (thread_at (put_thread k tid t) u) = Some y.
Proof.
  intros H. destruct (mjoin (thread_at (put_thread k tid t) u)) eqn:E; [by eexists|].
  exfalso. revert E. apply put_thread_slot. by rewrite H.
Qed.

Lemma spec_direct_table s r : spec (atomic (direct_table s r)) (fun _ => True).
Proof.
  apply spec_atomic. intros e k own _ Hk. unfold direct_table.
  destruct (mjoin (thread_at k s)) as [ts|] eqn:Es; [|by same_chan].
  destruct (mjoin (thread_at k r)) as [tr|] eqn:Er; [|by same_chan].
  destruct (is_blocked_ipc tr); [|by same_chan].
  assert (Hs : thread_ok ts) by by eapply thread_join. assert (Hr : thread_ok tr) by by eapply thread_join.
  destruct (inherit_ok ts tr Hs Hr) as (tr' & -> & Hr'). cbn [mbind option_bind].
  pose proof (kinv_thread k own r tr' Hk Hr') as Hk1. destruct (put_thread_join k r tr' s ts Es) as [ts' Es'].
  rewrite Es'. assert (Hs' : thread_ok ts') by (by eapply thread_join). same_chan; [|done].
  apply kinv_thread; [done|]. by apply thread_ok_sched.
Qed.

Lemma spec_try_direct_switch s r : tid_ok s -> tid_ok r -> spec (try_direct_switch s r) (fun _ => True).
Proof.
  intros Hs Hr. unfold try_direct_switch. eapply spec_bind; [apply spec_here|]. intros cpu Hc.
  eapply spec_bind; [apply spec_direct_table|]. intros [] _; spec_go.
Qed.

Lemma spec_reply_table r c : spec (atomic (reply_table r c)) (fun _ => True).
Proof.
  apply spec_atomic. intros e k own _ Hk. unfold reply_table.
  destruct (mjoin (thread_at k r)) as [tr|] eqn:Er; [|by same_chan].
  destruct (mjoin (thread_at k c)) as [tc|] eqn:Ec; [|by same_chan].
  destruct (is_blocked_ipc tc); [|by same_chan].
  assert (Hr : thread_ok tr) by by eapply thread_join.
  set (t1 := with_depth _ _). assert (Ht1 : thread_ok t1).
  { destruct Hr as [[Hd Ho] Hb]. split; [|done]. split; [|done]. cbn. unfold saturating_sub, MAX_INHERITANCE_DEPTH in *. lia. }
  pose proof (kinv_thread k own r t1 Hk Ht1) as Hk1.
  destruct (put_thread_join k r t1 r tr Er) as [r1 E1]. destruct (put_thread_join k r t1 c tc Ec) as [c1 Ec1].
  rewrite E1, Ec1. cbn [mbind option_bind]. assert (Hc1 : thread_ok c1) by by eapply thread_join.
  set (t2 := with_sched c1 _). assert (Ht2 : thread_ok t2) by by apply thread_ok_sched.
  pose proof (kinv_thread _ own c t2 Hk1 Ht2) as Hk2. destruct (put_thread_join _ c t2 r r1 E1) as [r2 E2].
  rewrite E2. cbn [mbind option_bind]. assert (Hr2 : thread_ok r2) by by eapply thread_join.
  set (t3 := with_sched r2 _). assert (Ht3 : thread_ok t3) by by apply thread_ok_sched.
  destruct (put_thread_join _ r t3 r r2 E2) as [r3 E3]. rewrite E3. cbn [mbind option_bind].
  same_chan; [by apply kinv_thread|done].
Qed.

Lemma spec_try_reply_switch r c : tid_ok r -> tid_ok c -> spec (try_reply_switch r c) (fun _ => True).
Proof.
  intros Hr Hc. unfold try_reply_switch. eapply spec_bind; [apply spec_here|]. intros cpu Hcpu.
  eapply spec_bind; [apply spec_reply_table|]. intros [cl|] _; spec_go.
Qed.
Hint Resolve spec_revoke_in_process spec_try_direct_switch spec_try_reply_switch : kspec.
End safe.

#[export] Hint Resolve spec_tick_now spec_process_of_thread spec_current_process_id spec_check_create spec_check_access
  spec_check_channel_access spec_grant_to_process spec_attenuate_in spec_clear_timeout
  spec_get_wakeup_error spec_wake_with_error spec_arm_timeout spec_sleep_ticks
  spec_channel_destroy_unchecked spec_channel_destroy spec_revoke_channels
  spec_revoke_in_process spec_try_direct_switch spec_try_reply_switch : kspec.
