(* ===== verification/IpcSafe.v ===== *)
(** * Notifications, calls, receives, replies, sends and select keep the
    invariant *)

From S2P Require Import Prelude Collections Abi Capability PhysMem Memory Buddy BuddyInv BuddySystem Pools Paging.
From S2P Require Import Act Task Sched KernelCap Channels Notify Ipc Shmem KernelInv KernelLogic SchedSafe ChannelSafe.

Section safe.
Context {p0 : PagePools} {Fs : Pool -> Z -> Prop}.
Local Abbreviation kinv := (kinv p0 Fs).
Local Abbreviation spec := (spec p0 Fs).

(** ** Select wake-ups *)

Lemma select_get k own tid : kinv k own -> tid_ok tid -> exists o, (select_waiters k).[tid] = Some o.
Proof. intros [_ [_ _ _ _ _ _ _ Hn] _ _] ?. apply aget_is_Some. unfold tid_ok in *. lia. Qed.

Lemma kinv_select k own tid o : kinv k own -> kinv (set_select_waiters k ((select_waiters k).[tid <- o])) own.
Proof. intros [? [] ? ?]. split; try done. split; try done. cbn. by rewrite alen_aset. Qed.

Lemma spec_mark_ready tid src bits : tid_ok tid -> spec (atomic (mark_ready tid src bits)) (fun _ => True).
Proof.
  intros Ht. apply spec_atomic. intros e k own _ Hk. unfold mark_ready.
  destruct (select_get k own tid Hk Ht) as (o & ->). cbn [mbind option_bind]. destruct o as [sw|]; [|by same_chan].
  destruct (match_entry sw src); same_chan; try done. by apply kinv_select.
Qed.
Hint Resolve spec_mark_ready : kspec.

Lemma spec_try_wake_select tid src bits : tid_ok tid -> spec (try_wake_select tid src bits) (fun _ => True).
Proof.
  intros Ht. unfold try_wake_select. eapply (spec_bind (fun _ => True)); [|intros; spec_go].
  apply spec_reads_opt. intros k own Hk. destruct (thread_get k own tid Hk Ht) as (slot & -> & _). by eexists.
Qed.

Lemma spec_set_select_ready tid src bits : tid_ok tid -> spec (set_select_ready tid src bits) (fun _ => True).
Proof. intros Ht. unfold set_select_ready. spec_go. Qed.
Hint Resolve spec_try_wake_select spec_set_select_ready : kspec.

(** ** Notifications *)

Lemma kinv_notifs k own ns : kinv k own -> table MAX_NOTIFICATIONS notif_ok ns -> kinv (set_notifications k ns) own.
Proof. intros [? [] ? ?] ?. by split. Qed.

Lemma kinv_notif k own id n : kinv k own -> opt notif_ok n -> kinv (put_notif k id n) own.
Proof.
  intros Hk Hn. apply kinv_notifs; [done|]. destruct Hk as [_ [] _ _]. by apply (arr_set MAX_NOTIFICATIONS (opt notif_ok)).
Qed.

Lemma notif_get k own id :
  kinv k own -> 0 <= id < MAX_NOTIFICATIONS -> exists o, (notifications k).[id] = Some o /\ opt notif_ok o.
Proof. intros [_ [] _ _] ?. by apply (table_get MAX_NOTIFICATIONS notif_ok). Qed.

Lemma notif_ok_insert n i tid mask :
  notif_ok n -> tid_ok tid -> notif_ok (with_waiters n (<[i := Some (mk_waiter tid mask)]> (waiters n))).
Proof. intros Hn Ht. by apply (arr_insert MAX_WAITERS_PER_NOTIFICATION (opt _)). Qed.

Lemma notif_ok_remove n tid : notif_ok n -> notif_ok (with_waiters n (remove_waiter tid (waiters n))).
Proof.
  intros Hn. unfold remove_waiter. case_match; [|done]. by apply (arr_insert MAX_WAITERS_PER_NOTIFICATION (opt _)).
Qed.

Lemma spec_notification_create p : spec (notification_create p) (okv (fun id => 0 <= id)).
Proof.
  apply spec_atomic. intros e k own _ Hk. destruct (first_none (notifications k)) as [i|]; same_chan; try done.
  - apply kinv_notifs; [done|]. destruct Hk as [_ [] _ _]. apply (arr_insert MAX_NOTIFICATIONS (opt notif_ok)); [done|].
    by apply (arr_of MAX_WAITERS_PER_NOTIFICATION (opt _)).
  - cbn. lia.
Qed.

(** The scan empties slots and wakes threads of the slots. *)
Lemma signal_scan_ok ws w :
  let '(r, _, wake) := signal_scan ws w in
  length r = length ws /\
  forall P, Forall (opt (fun x => P (w_tid x))) ws ->
    Forall (opt (fun x => P (w_tid x))) r /\ Forall (fun x => P x.1) wake.
Proof.
  revert w. induction ws as [|[x|] ws IH]; intros w; cbn.
  - split; [done|]. intros P _. done.
  - destruct (negb _).
    + specialize (IH (clear_bits w (Z.land w (w_mask x)))). destruct (signal_scan ws _) as [[r w'] wake].
      destruct IH as [Hl IH]. split; [cbn; by rewrite Hl|]. intros P (Hx & Hw)%Forall_cons. apply IH in Hw as [? ?].
      split; by constructor.
    + specialize (IH w). destruct (signal_scan ws w) as [[r w'] wake]. destruct IH as [Hl IH]. split; [cbn; by rewrite Hl|].
      intros P (Hx & Hw)%Forall_cons. apply IH in Hw as [? ?]. split; [by constructor|done].
  - specialize (IH w). destruct (signal_scan ws w) as [[r w'] wake]. destruct IH as [Hl IH]. split; [cbn; by rewrite Hl|].
    intros P (Hx & Hw)%Forall_cons. apply IH in Hw as [? ?]. split; [by constructor|done].
Qed.

Lemma spec_signal_table id bits :
  0 <= id < MAX_NOTIFICATIONS -> spec (atomic (signal_table id bits)) (okv (Forall (fun x => tid_ok x.1))).
Proof.
  intros Hid. apply spec_atomic. intros e k own _ Hk. unfold signal_table.
  destruct (notif_get k own id Hk Hid) as (o & -> & Ho). cbn [mbind option_bind]. destruct o as [n|]; [|by same_chan].
  pose proof (signal_scan_ok (waiters n) (Z.lor (word n) bits)) as Hs.
  destruct (signal_scan _ _) as [[ws w] wake]. destruct Hs as [Hl Hs]. destruct Ho as [Hlen Hw].
  destruct (Hs tid_ok Hw) as [Hws Hwake]. same_chan; [|done]. apply kinv_notif; [done|]. split; [|done].
  cbn. unfold alen in *. by rewrite Hl.
Qed.

Lemma store_results_ok wake rs :
  Forall (fun x => tid_ok x.1) wake -> alen rs = MAX_THREADS ->
  exists rs', store_results wake rs = Some rs' /\ alen rs' = MAX_THREADS.
Proof.
  intros Hw. revert rs. induction Hw as [|[tid m] wake Ht _ IH]; intros rs Hn; cbn [store_results]; [by eexists|].
  destruct (aget_is_Some rs tid) as [o ->]; [unfold tid_ok in Ht; cbn in Ht; lia|]. cbn [mbind option_bind].
  apply IH. by rewrite alen_aset.
Qed.

Lemma kinv_results k own r : kinv k own -> alen r = MAX_THREADS -> kinv (set_notify_results k r) own.
Proof. intros [? [] ? ?] ?. by split. Qed.

Lemma spec_notification_signal id bits : 0 <= id -> spec (notification_signal id bits) (okv (fun _ => True)).
Proof.
  intros Hid. unfold notification_signal. destruct (Z.geb_spec id MAX_NOTIFICATIONS); [by apply spec_ret|].
  eapply spec_bind_ok; [by apply spec_signal_table|]. intros wake Hwake.
  eapply (spec_bind (fun _ => True)); [|intros; by apply spec_ret]. destruct (0 <? alen wake); [|by apply spec_ret].
  eapply (spec_bind (fun _ => True)).
  - apply spec_updates_opt. intros k own Hk. pose proof Hk as [_ [_ _ _ _ _ Hr _ _] _ _].
    destruct (store_results_ok wake _ Hwake Hr) as (rs' & -> & Hn). eexists. split; [reflexivity|].
    split; [by apply kinv_results|by apply chan_step_same].
  - intros _ _. apply (spec_for _ _ _ Hwake). intros [tid m] Ht. cbn [fst snd] in *. spec_go.
Qed.

Lemma notif_ok_word n w : notif_ok n -> notif_ok (with_word n w).
Proof. done. Qed.

Lemma spec_poll_table id mask : 0 <= id < MAX_NOTIFICATIONS -> spec (atomic (poll_table id mask)) (okv (fun _ => True)).
Proof.
  intros Hid. apply spec_atomic. intros e k own _ Hk. unfold poll_table, take_bits.
  destruct (notif_get k own id Hk Hid) as (o & -> & Ho). cbn [mbind option_bind]. destruct o as [n|]; [|by same_chan].
  destruct (negb _); same_chan; try done. by apply kinv_notif.
Qed.

Lemma spec_register_table id mask tid :
  0 <= id < MAX_NOTIFICATIONS -> tid_ok tid -> spec (atomic (register_table id mask tid)) (okv (fun _ => True)).
Proof.
  intros Hid Ht. apply spec_atomic. intros e k own _ Hk. unfold register_table, take_bits.
  destruct (notif_get k own id Hk Hid) as (o & -> & Ho). cbn [mbind option_bind]. destruct o as [n|]; [|by same_chan].
  destruct (negb _); [same_chan; [by apply kinv_notif|done]|].
  destruct (first_none (waiters n)); same_chan; try done. apply kinv_notif; [done|]. by apply notif_ok_insert.
Qed.

Lemma deadline_get k own tid : kinv k own -> tid_ok tid -> exists o, (notify_deadlines k).[tid] = Some o.
Proof. intros [_ [_ _ _ _ _ _ Hn _] _ _] ?. apply aget_is_Some. unfold tid_ok in *. lia. Qed.

Lemma kinv_deadline k own tid d : kinv k own -> kinv (set_notify_deadlines k ((notify_deadlines k).[tid <- d])) own.
Proof. intros [? [] ? ?]. split; try done. split; try done. cbn. by rewrite alen_aset. Qed.

Lemma spec_set_thread_deadline tid d : tid_ok tid -> spec (set_thread_deadline tid d) (fun _ => True).
Proof.
  intros Ht. apply spec_updates_opt. intros k own Hk. destruct (deadline_get k own tid Hk Ht) as (o & ->).
  eexists. split; [reflexivity|]. split; [by apply kinv_deadline|by apply chan_step_same].
Qed.

Lemma spec_cleanup_waiter id tid : 0 <= id < MAX_NOTIFICATIONS -> spec (cleanup_waiter id tid) (fun _ => True).
Proof.
  intros Hid. apply spec_updates_opt. intros k own Hk. destruct (notif_get k own id Hk Hid) as (o & -> & Ho).
  eexists. split; [reflexivity|]. destruct o as [n|]; (split; [|by apply chan_step_same]); [|done].
  apply kinv_notif; [done|]. by apply notif_ok_remove.
Qed.

Lemma spec_take_result tid : tid_ok tid -> spec (take_result tid) (fun _ => True).
Proof.
  intros Ht. apply spec_atomic. intros e k own _ Hk. pose proof Hk as [_ [_ _ _ _ _ Hr _ _] _ _].
  destruct (aget_is_Some (notify_results k) tid) as [o ->]; [unfold tid_ok in Ht; lia|].
  same_chan; [|done]. apply kinv_results; [done|]. by rewrite alen_aset.
Qed.
Hint Resolve spec_poll_table spec_register_table spec_set_thread_deadline spec_cleanup_waiter spec_take_result : kspec.

Lemma spec_notification_wait id mask t : 0 <= id -> spec (notification_wait id mask t) (okv (fun _ => True)).
Proof.
  intros Hid. unfold notification_wait. destruct (Z.geb_spec id MAX_NOTIFICATIONS); [by apply spec_ret|].
  assert (0 <= id < MAX_NOTIFICATIONS) by lia. spec_go.
Qed.

Lemma spec_notification_destroy id : 0 <= id -> spec (notification_destroy id) (fun _ => True).
Proof.
  intros Hid. unfold notification_destroy. destruct (Z.geb_spec id MAX_NOTIFICATIONS); [by apply spec_ret|].
  eapply (spec_bind (opt notif_ok)).
  - apply spec_atomic. intros e k own _ Hk. unfold take_notif.
    destruct (notif_get k own id Hk ltac:(lia)) as (o & -> & Ho). same_chan; [by apply kinv_notif|done].
  - intros [n|] Hn; [|by apply spec_ret]. apply (spec_for _ _ (fun x => tid_ok (w_tid x))).
    + by apply table_occupied in Hn.
    + intros x Hx. by apply spec_unblock.
Qed.
Hint Resolve spec_notification_create spec_notification_signal spec_notification_wait : kspec.

(** ** Expiry *)

Lemma spec_expire_thread now i : tid_ok i -> spec (expire_thread now i) (fun _ => True).
Proof.
  intros Hi. unfold expire_thread. eapply (spec_bind (fun _ => True)).
  - apply spec_atomic. intros e k own _ Hk. unfold expire_deadline. destruct (deadline_get k own i Hk Hi) as (d & ->).
    cbn [mbind option_bind]. destruct (d <=? now); same_chan; try done. by apply kinv_deadline.
  - intros due _. destruct (negb due); [by apply spec_ret|].
    eapply (spec_bind (fun st => match st with Some (BlockedNotification n) => 0 <= n < MAX_NOTIFICATIONS | _ => True end)).
    + apply spec_atomic. intros e k own _ Hk. destruct (thread_get k own i Hk Hi) as (slot & -> & Hs).
      destruct (lock_busy e); same_chan; try done. destruct slot as [t|]; [apply Hs|done].
    + intros st Hst.
      destruct st as [[]|]; try by apply spec_ret.
      * eapply (spec_bind (fun _ => True)); [|intros; by apply spec_unblock]. apply spec_atomic. intros e k own _ Hk.
        destruct (notif_get k own notification Hk Hst) as (o & -> & Ho).
        destruct (lock_busy e); [by same_chan|]. destruct o as [n|]; same_chan; try done.
        apply kinv_notif; [done|]. by apply notif_ok_remove.
      * eapply (spec_bind (fun _ => True)); [|intros; by apply spec_unblock]. apply spec_atomic. intros e k own _ Hk.
        destruct (select_get k own i Hk Hi) as (o & ->). destruct (lock_busy e); same_chan; try done. by apply kinv_select.
Qed.

Lemma spec_check_notification_timeouts now : spec (check_notification_timeouts now) (fun _ => True).
Proof.
  unfold check_notification_timeouts. eapply (spec_bind (fun _ => True)).
  - apply spec_atomic. intros e k own _ Hk. by same_chan.
  - intros [] _; [by apply spec_ret|]. apply (spec_for _ _ tid_ok); [|by apply spec_expire_thread].
    apply Forall_forall. intros t Ht%elem_of_seqZ. unfold tid_ok. lia.
Qed.

Lemma expire_ok now q (P : Z -> Prop) :
  Forall (opt (fun te => P (te_tid te))) q ->
  length (expire now q).1 = length q /\ Forall (opt (fun te => P (te_tid te))) (expire now q).1 /\
  Forall (fun x => P x.1) (expire now q).2.
Proof.
  induction 1 as [|[te|] q Ht _ IH]; cbn [expire]; [done|..].
  - destruct (expire now q) as [r w]. cbn in IH. destruct IH as (Hl & Hr & Hw).
    destruct (now >=? wake_at_tick te); cbn; rewrite Hl; (split; [done|split; by repeat constructor]).
  - destruct (expire now q) as [r w]. cbn in IH. destruct IH as (Hl & Hr & Hw).
    cbn; rewrite Hl; (split; [done|split; by repeat constructor]).
Qed.

Lemma spec_check_timeouts : spec check_timeouts (fun _ => True).
Proof.
  unfold check_timeouts. eapply spec_bind; [apply spec_tick_now|]. intros now _.
  eapply (spec_bind (opt (Forall (fun x => tid_ok x.1)))).
  - apply spec_atomic. intros e k own _ Hk. destruct (lock_busy e); [by same_chan|].
    pose proof Hk as [_ [_ [Hn Ht] _ _ _ _ _ _] _ _]. destruct (expire_ok now _ tid_ok Ht) as (Hl & Hr & Hw).
    destruct (expire now (timeout_queue k)) as [r w]. same_chan; [|done]. apply kinv_timeouts; [done|].
    split; [unfold alen in *; cbn in Hl; by rewrite Hl|done].
  - intros [w|] Hw; [|by apply spec_ret]. eapply (spec_bind (fun _ => True)).
    + apply (spec_for _ _ _ Hw). intros [tid err] Ht. by apply spec_wake_with_error.
    + intros _ _. apply spec_check_notification_timeouts.
Qed.

(** ** Messages *)

Lemma message_ok sender payload : alen payload <= MAX_MESSAGE_SIZE -> msg_ok (message sender payload).
Proof.
  intros Hl. pose proof (alen_nonneg payload). split; cbn [message msg_data msg_len]; [|lia].
  unfold alen in *. rewrite length_copy_at; [done|]. cbn [RawMessage_EMPTY msg_data]. unfold array_of, MAX_MESSAGE_SIZE in *.
  rewrite length_replicate. lia.
Qed.

(** A message accepted by the ring. *)
Lemma channel_push c m :
  channel_ok c -> msg_ok m -> (ring_push (ring c) m).1 = true ->
  channel_ok (ch_set_ring c (ring_push (ring c) m).2) /\
  ring_step (Some (ring_list (ring c))) (Some (ring_list (ring_push (ring c) m).2)).
Proof.
  intros [(l & Hr & Hl) Hw Hp] Hm Hok. destruct (mring_rep_push (ring c) l m Hr) as [E Hr'].
  rewrite Hok in E. unfold Fifo.push in *. destruct (Z.geb_spec (alen l) RING_CAPACITY); [done|]. cbn in Hr'.
  split; [split; try done; exists (l ++ [m]); split; [done|apply Forall_app; split; [done|by constructor]]|].
  rewrite (mring_rep_list _ _ Hr), (mring_rep_list _ _ Hr'). by constructor.
Qed.

Lemma channel_pop c m r :
  channel_ok c -> ring_pop (ring c) = (Some m, r) ->
  msg_ok m /\ channel_ok (ch_set_ring c r) /\ ring_step (Some (ring_list (ring c))) (Some (ring_list r)).
Proof.
  intros [(l & Hr & Hl) Hw Hp] Hpop. destruct (mring_rep_pop (ring c) l Hr) as [E Hr']. rewrite Hpop in E, Hr'.
  destruct Hl as [|x l Hx Hl]; [done|]. cbn in E, Hr'. simplify_eq.
  split; [done|]. split; [split; try done; by exists l|].
  rewrite (mring_rep_list _ _ Hr), (mring_rep_list _ _ Hr'). constructor.
Qed.

Lemma delivered_ok m n : msg_ok m -> 0 <= n -> exists out, delivered m n = Some out /\ alen out.1 <= n.
Proof.
  intros [Hd Hl] Hn. unfold delivered. destruct (Z.leb_spec (Z.min (msg_len m) n) (alen (msg_data m))); [|lia].
  eexists. split; [reflexivity|]. cbn. unfold alen. rewrite length_take. lia.
Qed.

(** ** [ipc_call] *)

Lemma spec_thread_access tid ch : spec (thread_access tid ch) (okv (fun _ => True)).
Proof. unfold thread_access. spec_go. Qed.

(** Putting back a channel whose ring took one step. *)
Lemma put_ring_step k own id c c' :
  kinv k own -> 0 <= id -> channel_ref k id = Ok c -> channel_ok c' ->
  ring_step (Some (ring_list (ring c))) (Some (ring_list (ring c'))) ->
  kinv (put_channel k id (Some c')) own /\ chan_step k (put_channel k id (Some c')).
Proof.
  intros Hk Hid Hc Hc' Hr. destruct (channel_ref_Ok _ _ _ _ Hk Hid Hc) as (_ & Hlen & Hq).
  split; [by apply kinv_channel|]. apply chan_step_put; [done|]. by rewrite Hq.
Qed.

Lemma spec_call_table ch caller m t :
  0 <= ch -> tid_ok caller -> msg_ok m ->
  spec (atomic (call_table ch caller m t)) (okv (fun r => opt tid_ok r.2)).
Proof.
  intros Hid Hc Hm. apply spec_atomic. intros e k own _ Hk. unfold call_table.
  destruct (channel_ref k ch) as [c|err] eqn:E; [|by same_chan].
  destruct (channel_ref_Ok _ _ _ _ Hk Hid E) as (Hok & _ & _).
  destruct (ch_dead c); [by same_chan|]. destruct (pending_caller c) eqn:Ep; [by same_chan|].
  pose proof (channel_push c m Hok Hm) as Hp. destruct (ring_push (ring c) m) as [[] r]; cbn [negb]; [|by same_chan].
  destruct (Hp eq_refl) as [Hc1 Hs]. cbn in Hc1, Hs. eexists _, _. split; [reflexivity|].
  assert (Hc2 : channel_ok (ch_set_receiver (ch_set_caller (ch_set_ring c r) (Some caller)) None))
    by (apply channel_ok_receiver; [by apply channel_ok_caller|done]).
  destruct (put_ring_step k own ch c _ Hk Hid E Hc2 Hs) as [? ?]. split_and!; try done. apply Hok.
Qed.

Lemma reply_get k own tid : kinv k own -> tid_ok tid -> exists o, (reply_slots k).[tid] = Some o /\ opt reply_ok o.
Proof. intros [_ [] _ _] ?. by apply (table_get MAX_THREADS reply_ok). Qed.

Lemma kinv_reply k own tid o :
  kinv k own -> opt reply_ok o -> kinv (set_reply_slots k ((reply_slots k).[tid <- o])) own.
Proof.
  intros [? [] ? ?] ?. split; try done. split; try done. by apply (arr_set MAX_THREADS (opt reply_ok)).
Qed.

Lemma spec_set_reply_slot tid o : tid_ok tid -> opt reply_ok o -> spec (set_reply_slot tid o) (fun _ => True).
Proof.
  intros Ht Ho. apply spec_updates_opt. intros k own Hk. destruct (reply_get k own tid Hk Ht) as (x & -> & _).
  eexists. split; [reflexivity|]. split; [by apply kinv_reply|by apply chan_step_same].
Qed.

Hint Resolve spec_thread_access spec_call_table spec_set_reply_slot : kspec.

Lemma spec_call_switch ch caller r : tid_ok caller -> tid_ok r -> spec (call_switch ch caller r) (fun _ => True).
Proof.
  intros Hc Hr. unfold call_switch. eapply spec_bind; [by apply spec_try_direct_switch|]. intros [] _; [by apply spec_ret|].
  eapply spec_bind; [by apply spec_try_wake_select|]. intros [] _.
  - eapply spec_bind; [by apply (spec_ret _ (fun _ => True))|]. intros. by apply spec_block_current.
  - eapply spec_bind; [by apply spec_unblock|]. intros. by apply spec_block_current.
Qed.

(** The registration of a thread leaves a channel, its ring unchanged. *)
Lemma spec_channel_cleanup ch (test : Channel -> bool) (f : Channel -> Channel) :
  0 <= ch -> (forall c, channel_ok c -> channel_ok (f c)) -> (forall c, ring (f c) = ring c) ->
  spec (updates (fun k =>
    match channel_ref k ch with
    | Ok c => if test c then put_channel k ch (Some (f c)) else k
    | Err _ => k
    end)) (fun _ => True).
Proof.
  intros Hid Hf Hr. apply spec_updates. intros k own Hk.
  destruct (channel_ref k ch) as [c|] eqn:E; [|split; [done|by apply chan_step_same]].
  destruct (channel_ref_Ok _ _ _ _ Hk Hid E) as (Hok & _ & _).
  destruct (test c); [|split; [done|by apply chan_step_same]]. eapply put_same_ring; eauto.
Qed.

Lemma spec_call_result ch caller : 0 <= ch -> tid_ok caller -> spec (call_result ch caller) (fun _ => True).
Proof.
  intros Hid Hc. unfold call_result. eapply spec_bind; [by apply spec_set_timeout|]. intros _ _.
  eapply (spec_bind (fun _ => True)).
  - apply spec_atomic. intros e k own _ Hk. destruct (reply_get k own caller Hk Hc) as (o & -> & Ho).
    same_chan; [|done]. by apply kinv_reply.
  - intros w _. eapply spec_bind; [by apply spec_get_wakeup_error|]. intros err _.
    destruct (negb _); [|by apply spec_ret]. eapply spec_bind; [|intros; by apply spec_ret].
    apply (spec_channel_cleanup ch (fun c => bool_decide (pending_caller c = Some caller)) (fun c => ch_set_caller c None));
      [done| |done]. intros c Hok. by apply channel_ok_caller.
Qed.
Hint Resolve spec_call_switch spec_call_result : kspec.

Lemma spec_ipc_call ch buf ptr n t : 0 <= ch -> 0 <= n -> spec (ipc_call ch buf ptr n t) (fun _ => True).
Proof.
  intros Hid Hn. unfold ipc_call. destruct (Z.gtb_spec (alen buf) MAX_MESSAGE_SIZE); [by apply spec_ret|].
  eapply spec_bind; [apply spec_current_thread_id|]. intros [caller|] Hc; [|by apply spec_ret].
  eapply spec_bind; [apply spec_thread_access|]. intros [[]|e] _; [|by apply spec_ret].
  eapply spec_bind; [by apply spec_call_table; [| |apply message_ok]|]. intros [[d target]|e] Ht; [|by apply spec_ret].
  cbn in Ht. eapply (spec_bind (fun _ => True)).
  { destruct target; [|by apply spec_ret]. spec_go. }
  intros _ _. eapply spec_bind; [apply spec_set_reply_slot; [done|]; cbn; unfold reply_ok; cbn; lia|]. intros _ _.
  eapply spec_bind; [by apply spec_arm_timeout|]. intros _ _. eapply (spec_bind (fun _ => True)).
  { destruct target; [by apply spec_call_switch|by apply spec_block_current]. }
  intros _ _. by apply spec_call_result.
Qed.

(** ** [ipc_recv] *)

Lemma spec_recv_table ch r n t :
  0 <= ch -> 0 <= n -> tid_ok r ->
  spec (atomic (recv_table ch r n t)) (okv (fun x => match x with inl out => alen out.1 <= n | inr _ => True end)).
Proof.
  intros Hid Hn Hr. apply spec_atomic. intros e k own _ Hk. unfold recv_table.
  destruct (channel_ref k ch) as [c|err] eqn:E; [|by same_chan].
  destruct (channel_ref_Ok _ _ _ _ Hk Hid E) as (Hok & _ & _). destruct (ch_dead c); [by same_chan|].
  destruct (ring_pop (ring c)) as [[m|] rr] eqn:Ep.
  - destruct (channel_pop c m rr Hok Ep) as (Hm & Hc' & Hs). destruct (delivered_ok m n Hm Hn) as (out & -> & Ho).
    cbn [mbind option_bind]. eexists _, _. split; [reflexivity|].
    destruct (put_ring_step k own ch c _ Hk Hid E Hc' Hs). by split_and!.
  - destruct (t =? 0); [by same_chan|]. destruct (waiting_receiver c); [by same_chan|].
    eexists _, _. split; [reflexivity|].
    destruct (put_same_ring k own ch c (ch_set_receiver c (Some r)) Hk Hid E); [by apply channel_ok_receiver|done|].
    by split_and!.
Qed.

Lemma spec_retry_table ch n :
  0 <= ch -> 0 <= n -> spec (atomic (retry_table ch n)) (okv (fun out => alen out.1 <= n)).
Proof.
  intros Hid Hn. apply spec_atomic. intros e k own _ Hk. unfold retry_table.
  destruct (channel_ref k ch) as [c|err] eqn:E; [|by same_chan].
  destruct (channel_ref_Ok _ _ _ _ Hk Hid E) as (Hok & _ & _).
  destruct (ring_pop (ring c)) as [[m|] rr] eqn:Ep; [|by same_chan].
  destruct (channel_pop c m rr Hok Ep) as (Hm & Hc' & Hs). destruct (delivered_ok m n Hm Hn) as (out & -> & Ho).
  cbn [mbind option_bind]. eexists _, _. split; [reflexivity|].
  destruct (put_ring_step k own ch c _ Hk Hid E Hc' Hs). by split_and!.
Qed.

Lemma spec_unregister_receiver ch tid : 0 <= ch -> spec (unregister_receiver ch tid) (fun _ => True).
Proof.
  intros Hid.
  apply (spec_channel_cleanup ch (fun c => bool_decide (waiting_receiver c = Some tid)) (fun c => ch_set_receiver c None));
    [done| |done]. intros c Hok. by apply channel_ok_receiver.
Qed.
Hint Resolve spec_recv_table spec_retry_table spec_unregister_receiver : kspec.

Lemma spec_ipc_recv ch n t : 0 <= ch -> 0 <= n -> spec (ipc_recv ch n t) (okv (fun out => alen out.1 <= n)).
Proof.
  intros Hid Hn. unfold ipc_recv. eapply spec_bind; [apply spec_current_thread_id|].
  intros [r|] Hr; [|by apply spec_ret]. eapply spec_bind_ok; [apply spec_thread_access|]. intros _ _.
  eapply spec_bind_ok; [by apply spec_recv_table|]. intros [out|d] Ho; [by apply spec_ret|].
  eapply spec_bind; [by apply spec_arm_timeout|]. intros _ _. eapply spec_bind; [by apply spec_block_current|]. intros _ _.
  eapply spec_bind; [by apply spec_set_timeout|]. intros _ _.
  eapply spec_bind; [by apply spec_unregister_receiver|]. intros _ _.
  eapply spec_bind; [by apply spec_get_wakeup_error|]. intros err _. destruct (negb _); [by apply spec_ret|].
  by apply spec_retry_table.
Qed.

(** ** [ipc_reply], [ipc_send], [ipc_cancel] *)

Lemma spec_take_caller ch none : 0 <= ch -> spec (atomic (take_caller ch none)) (okv tid_ok).
Proof.
  intros Hid. apply spec_atomic. intros e k own _ Hk. unfold take_caller.
  destruct (channel_ref k ch) as [c|err] eqn:E; [|by same_chan].
  destruct (channel_ref_Ok _ _ _ _ Hk Hid E) as (Hok & _ & _).
  destruct (pending_caller c) as [t|] eqn:Ep; [|by same_chan]. eexists _, _. split; [reflexivity|].
  destruct (put_same_ring k own ch c (ch_set_caller c None) Hk Hid E); [by apply channel_ok_caller|done|].
  split_and!; try done. pose proof (co_caller _ Hok) as Hc. by rewrite Ep in Hc.
Qed.

Lemma kinv_kmem k own m : kinv k own -> kinv (set_kmem k m) own.
Proof. intros [? ? ? []]. by split. Qed.

Lemma spec_reply_copy caller buf : tid_ok caller -> spec (atomic (reply_copy caller buf)) (fun _ => True).
Proof.
  intros Hc. apply spec_atomic. intros e k own _ Hk. unfold reply_copy.
  destruct (reply_get k own caller Hk Hc) as (o & -> & Ho). cbn [mbind option_bind]. destruct o as [s|]; [|by same_chan].
  same_chan; [|done]. apply (kinv_reply (set_kmem k _)); [by apply kinv_kmem|].
  unfold reply_ok in *. cbn in *. pose proof (alen_nonneg buf). lia.
Qed.
Hint Resolve spec_take_caller spec_reply_copy : kspec.

Lemma spec_ipc_reply ch buf : 0 <= ch -> spec (ipc_reply ch buf) (fun _ => True).
Proof.
  intros Hid. unfold ipc_reply. destruct (_ >? _); [by apply spec_ret|].
  eapply spec_bind; [apply spec_current_thread_id|]. intros [r|] Hr; [|by apply spec_ret].
  eapply spec_bind; [by apply spec_take_caller|]. intros [c|] Hc; [|by apply spec_ret]. cbn in Hr, Hc. spec_go.
Qed.

Lemma spec_send_table ch m :
  0 <= ch -> msg_ok m -> spec (atomic (send_table ch m)) (okv (opt tid_ok)).
Proof.
  intros Hid Hm. apply spec_atomic. intros e k own _ Hk. unfold send_table.
  destruct (channel_ref k ch) as [c|err] eqn:E; [|by same_chan].
  destruct (channel_ref_Ok _ _ _ _ Hk Hid E) as (Hok & _ & _). destruct (ch_dead c); [by same_chan|].
  pose proof (channel_push c m Hok Hm) as Hp. destruct (ring_push (ring c) m) as [[] r]; cbn [negb]; [|by same_chan].
  destruct (Hp eq_refl) as [Hc1 Hs]. cbn in Hc1, Hs. eexists _, _. split; [reflexivity|].
  assert (Hc2 : channel_ok (ch_set_receiver (ch_set_ring c r) None)) by by apply channel_ok_receiver.
  destruct (put_ring_step k own ch c _ Hk Hid E Hc2 Hs). split_and!; try done. apply Hok.
Qed.

Lemma spec_ipc_send ch buf : 0 <= ch -> spec (ipc_send ch buf) (fun _ => True).
Proof.
  intros Hid. unfold ipc_send. destruct (Z.gtb_spec (alen buf) MAX_MESSAGE_SIZE); [by apply spec_ret|].
  eapply spec_bind; [apply spec_current_thread_id|]. intros [s|] Hs; [|by apply spec_ret].
  eapply spec_bind; [apply spec_thread_access|]. intros [[]|e] _; [|by apply spec_ret].
  eapply spec_bind; [by apply spec_send_table; [|apply message_ok]|]. intros [[r|]|e] Hr; [|by apply spec_ret..].
  cbn in Hr. spec_go.
Qed.

Lemma spec_ipc_cancel ch : 0 <= ch -> spec (ipc_cancel ch) (fun _ => True).
Proof.
  intros Hid. unfold ipc_cancel. eapply spec_bind; [apply spec_current_process_id|]. intros [p|] _; [|by apply spec_ret].
  eapply spec_bind; [apply spec_check_channel_access|]. intros [[]|e] _; [|by apply spec_ret].
  eapply spec_bind; [by apply spec_take_caller|]. intros [c|e] Hc; [|by apply spec_ret]. cbn in Hc. spec_go.
Qed.
Hint Resolve spec_ipc_call spec_ipc_recv spec_ipc_reply spec_ipc_send spec_ipc_cancel spec_check_timeouts : kspec.

(** ** [ipc_select] *)

(** Entries whose ids are [u32]s, and in range. *)
Definition entry_nonneg (e : SelectKind) : Prop := match e with SelChannel ch => 0 <= ch | SelNotification n _ => 0 <= n end.
Definition entry_ok (e : SelectKind) : Prop :=
  match e with SelChannel ch => 0 <= ch | SelNotification n _ => 0 <= n < MAX_NOTIFICATIONS end.

Lemma entries_in_range es : Forall entry_nonneg es -> forallb entry_in_range es = true -> Forall entry_ok es.
Proof.
  induction 1 as [|[ch|n m] es He _ IH]; cbn [forallb]; [done| |]; intros [H1 H2]%andb_true_iff;
    (constructor; [|by apply IH]); cbn in *; [done|]. apply Z.ltb_lt in H1. done.
Qed.

Lemma spec_check_channel_entries tid es : spec (check_channel_entries tid es) (okv (fun _ => True)).
Proof.
  unfold check_channel_entries. destruct (select_channels es) as [|c cs]; [by apply spec_ret|].
  eapply spec_bind; [apply spec_process_of_thread|]. intros [p|] _; [|by apply spec_ret]. apply spec_for_ok.
  intros. apply spec_check_channel_access.
Qed.

Lemma spec_scan_entries es i : Forall entry_ok es -> spec (scan_entries i es) (fun _ => True).
Proof.
  intros Hes. revert i. induction Hes as [|e es He _ IH]; intros i; cbn [scan_entries]; [by apply spec_ret|].
  eapply (spec_bind (fun _ => True)).
  - apply spec_atomic. intros env k own _ Hk. unfold scan_entry, take_bits. destruct e as [ch|n mask]; [by same_chan|].
    destruct (notif_get k own n Hk He) as (o & -> & Ho). cbn [mbind option_bind]. destruct o as [x|]; [|by same_chan].
    destruct (negb _); same_chan; try done. by apply kinv_notif.
  - intros [b|] _; [by apply spec_ret|apply IH].
Qed.

Lemma spec_register_entry tid e : tid_ok tid -> entry_ok e -> spec (register_entry tid e) (fun _ => True).
Proof.
  intros Ht He. apply spec_updates_opt. intros k own Hk. destruct e as [ch|n mask].
  - eexists. split; [reflexivity|]. destruct (channel_ref k ch) as [c|] eqn:E; [|split; [done|by apply chan_step_same]].
    destruct (waiting_receiver c); [split; [done|by apply chan_step_same]|].
    destruct (channel_ref_Ok _ _ _ _ Hk He E) as (Hok & _ & _). eapply put_same_ring; eauto. by apply channel_ok_receiver.
  - destruct (notif_get k own n Hk He) as (o & -> & Ho). cbn [mbind option_bind]. eexists. split; [reflexivity|].
    destruct o as [x|]; [|split; [done|by apply chan_step_same]].
    destruct (first_none (waiters x)); (split; [|by apply chan_step_same]); [|done].
    apply kinv_notif; [done|]. by apply notif_ok_insert.
Qed.

Lemma spec_unregister_entry tid e : entry_ok e -> spec (unregister_entry tid e) (fun _ => True).
Proof. destruct e; intros He; [by apply spec_unregister_receiver|by apply spec_cleanup_waiter]. Qed.

Lemma spec_ipc_select es t : Forall entry_nonneg es -> spec (ipc_select es t) (okv (fun _ => True)).
Proof.
  intros Hes. unfold ipc_select. eapply spec_bind; [apply spec_current_thread_id|].
  intros [tid|] Ht; [|by apply spec_ret]. cbn in Ht. destruct (_ || _); [by apply spec_ret|].
  destruct (forallb entry_in_range es) eqn:Er; cbn [negb]; [|by apply spec_ret].
  pose proof (entries_in_range es Hes Er) as Hok. eapply spec_bind_ok; [apply spec_check_channel_entries|]. intros _ _.
  eapply spec_bind; [by apply spec_scan_entries|]. intros [r|] _; [by apply spec_ret|].
  eapply spec_bind; [apply spec_tick_now|]. intros now _. eapply (spec_bind (fun _ => True)).
  { apply spec_updates_opt. intros k own Hk. destruct (select_get k own tid Hk Ht) as (o & ->).
    eexists. split; [reflexivity|]. split; [by apply kinv_select|by apply chan_step_same]. }
  intros _ _. eapply spec_bind; [apply (spec_for _ _ _ Hok); intros; by apply spec_register_entry|]. intros _ _.
  eapply spec_bind; [by apply spec_set_thread_deadline|]. intros _ _.
  eapply spec_bind; [by apply spec_block_current|]. intros _ _. eapply (spec_bind (fun _ => True)).
  { apply spec_atomic. intros e k own _ Hk. destruct (select_get k own tid Hk Ht) as (o & ->).
    same_chan; [|done]. by apply kinv_select. }
  intros r _. eapply spec_bind; [apply (spec_for _ _ _ Hok); intros; by apply spec_unregister_entry|]. intros _ _.
  destruct r as [[i|] b]; by apply spec_ret.
Qed.
End safe.

#[export] Hint Resolve spec_notification_create spec_notification_signal spec_notification_wait
  spec_ipc_call spec_ipc_recv spec_ipc_reply spec_ipc_send spec_ipc_cancel spec_ipc_select
  spec_check_timeouts : kspec.
