(* ===== verification/MemSafe.v ===== *)
(** * Shared and private memory keep the invariant

    The operations of Shmem.v.  A block is owned by the running task from
    its allocation until a table records it, and from its removal from a
    table until it is freed; so the blocks that the tables record and those
    that tasks hold are always distinct live blocks, whatever the
    interleaving. *)

From S2P Require Import Prelude Collections Abi Capability PhysMem Memory Buddy BuddyInv BuddyInit BuddySystem Pools Paging.
From S2P Require Import Act Task Sched KernelCap Channels Ipc Shmem KernelInv KernelLogic SchedSafe ChannelSafe IpcSafe.
Local Open Scope act_scope.

(** ** First words *)

Lemma load32_same m m' a : (forall x, a <= x < a + 4096 -> m' x = m x) -> load32 m' a = load32 m a.
Proof.
  intros H. unfold load32, load, load_bytes. cbn [seq fmap list_fmap]. by rewrite !H by lia.
Qed.

Lemma covers_first a k x : a <= x < a + 4096 -> covers a k x.
Proof. intros H. unfold covers, size_of. pose proof (Z.pow_pos_nonneg 2 (Z.of_nat k)). nia. Qed.

Lemma load32_held L m m' b : b ∈ L -> (forall x, held L x -> m' x = m x) -> load32 m' b.1 = load32 m b.1.
Proof.
  intros Hb H. apply load32_same. intros x Hx. apply H. exists b.1, b.2. destruct b. split; [done|]. by apply covers_first.
Qed.

Lemma load32_zeroed m a k : load32 (write_bytes m a 0 (size_of k)) a = 0.
Proof.
  assert (H : forall i, 0 <= i < 4096 -> write_bytes m a 0 (size_of k) (a + i) = 0).
  { intros i Hi. pose proof (covers_first a k (a + i) ltac:(lia)) as Hc. unfold write_bytes, covers in *.
    destruct (Z.leb_spec a (a + i)), (Z.ltb_spec (a + i) (a + size_of k)); cbn [andb]; lia. }
  unfold load32, load, load_bytes. cbn [seq fmap list_fmap]. by rewrite !H by lia.
Qed.

Section safe.
Context {p0 : PagePools} {Fs : Pool -> Z -> Prop} (Hdisj : pools_disjoint p0).
Local Abbreviation kinv := (kinv p0 Fs).
Local Abbreviation spec := (spec p0 Fs).
Local Abbreviation ksafe := (safe kinv chan_step).
Local Abbreviation frames_ok := (frames_ok p0 Fs).

(** ** The blocks of the tables and of the tasks *)

Lemma elem_of_zeroed own b : b ∈ zeroed own -> b ∈ map fst own.
Proof.
  unfold zeroed. intros ([b' []] & Hb' & E)%list_elem_of_omap; [|done]. cbn in E. simplify_eq. apply list_elem_of_fmap.
  by exists (b, true).
Qed.

Lemma elem_of_held rec own rest b : b ∈ rec ++ zeroed own -> b ∈ rec ++ map fst own ++ rest.
Proof. rewrite !elem_of_app. intros [?|?%elem_of_zeroed]; auto. Qed.

Lemma frames_ok_alloc f rec own order r f' :
  frames_ok (Some f) rec own -> frame_alloc_pages f PoolUser order = (r, f') ->
  frames_ok (Some f') rec (match r with Some a => (a, order, false) :: own | None => own end).
Proof using Hdisj.
  intros (Ls & rest & Hi & HL & Hp) Ha. destruct r as [a|].
  - exists (lives_upd Ls PoolUser ((a, order) :: Ls PoolUser)), rest. split_and!.
    + eapply frame_step_inv; [done|exact Hi|]. by constructor.
    + unfold lives_upd. rewrite decide_True by done. rewrite HL. cbn. by rewrite Permutation_middle.
    + intros b Hb. cbn in Hb. rewrite (load32_held (Ls PoolUser) (f_mem f)); [by apply Hp|rewrite HL; by apply elem_of_held|].
      intros x. by eapply frame_alloc_keeps.
  - rewrite (frame_alloc_none _ _ _ _ _ _ _ Hi Ha). by exists Ls, rest.
Qed.

(** A block of the pool, apart from the others. *)
Lemma live_apart f (Ls : lives) a k L' b :
  frames_inv p0 Fs (f, Ls) -> Ls PoolUser ≡ₚ (a, k) :: L' -> b ∈ L' -> disj a k b.1 b.2.
Proof using Hdisj.
  intros Hi HL Hb. destruct (live_pool _ _ Hdisj f Ls PoolUser a k Hi) as (b0 & bb & fl & _ & _ & _ & Hs & _);
    [rewrite HL; set_solver|].
  destruct (live_disjoint_perm _ _ HL (si_disj _ _ _ _ _ Hs)) as [Hd _]. rewrite Forall_forall in Hd. by apply Hd.
Qed.

Lemma frames_ok_zero f rec own a (k : nat) z :
  frames_ok (Some f) rec ((a, k, z) :: own) ->
  frames_ok (Some (mk_frames (f_pools f) (f_total f) (write_bytes (f_mem f) a 0 (size_of k)))) rec ((a, k, true) :: own).
Proof using Hdisj.
  intros (Ls & rest & Hi & HL & Hp). cbn [map fst] in HL.
  assert (HL' : Ls PoolUser ≡ₚ (a, k) :: rec ++ map fst own ++ rest).
  { rewrite HL. symmetry. apply Permutation_middle. }
  exists Ls, rest. split_and!; [|done|].
  - apply (frames_write _ _ Hdisj f Ls PoolUser); [done| |].
    + intros x. unfold write_bytes. destruct (_ && _); [unfold is_byte; lia|]. destruct Hi as [Hm _]. apply Hm.
    + eapply only_mono; [|apply only_write_bytes]. intros x Hx. exists a, k. rewrite HL'. split; [set_solver|done].
  - cbn [f_mem]. intros b Hb.
    assert (Hb' : b = (a, k) \/ b ∈ rec ++ zeroed own).
    { cbn in Hb. apply elem_of_app in Hb as [?|[->|?]%elem_of_cons]; rewrite ?elem_of_app; auto. }
    destruct Hb' as [->|Hb'].
    + by rewrite load32_zeroed.
    + rewrite (load32_same (f_mem f)).
      * apply Hp. rewrite elem_of_app in Hb'. destruct z; cbn; rewrite elem_of_app, ?elem_of_cons; tauto.
      * intros x Hx. apply (only_write_bytes _ _ _ (size_of k)). intros Hx'.
        pose proof (live_apart f Ls a k _ b Hi HL' (elem_of_held _ _ _ _ Hb')) as Hd.
        pose proof (covers_first b.1 b.2 x Hx). unfold disj, covers in *. lia.
Qed.

Lemma frames_ok_free f rec own a k :
  frames_ok (Some f) rec ((a, k, true) :: own) ->
  exists f', frame_free_pages f a k = Some f' /\ frames_ok (Some f') rec own.
Proof using Hdisj.
  intros (Ls & rest & Hi & HL & Hp). cbn [map fst] in HL.
  assert (HL' : Ls PoolUser ≡ₚ (a, k) :: rec ++ map fst own ++ rest).
  { rewrite HL. symmetry. apply Permutation_middle. }
  destruct (frame_can_free p0 Fs Hdisj f Ls PoolUser a k _ Hi HL') as (f' & Ef & Hm).
  { apply (Hp (a, k)). cbn. rewrite elem_of_app, elem_of_cons. auto. }
  exists f'. split; [done|]. exists (lives_upd Ls PoolUser (rec ++ map fst own ++ rest)), rest. split_and!.
  - eapply frame_step_inv; [done|exact Hi|]. by eapply fs_free.
  - unfold lives_upd. by rewrite decide_True.
  - intros b Hb. rewrite (load32_held (rec ++ map fst own ++ rest) (f_mem f)); [|by apply elem_of_held|done].
    apply Hp. cbn. rewrite elem_of_app in *. rewrite elem_of_cons. tauto.
Qed.

(** A zeroed block goes from a task to a table, or back. *)
Lemma frames_ok_record f rec own b :
  frames_ok f rec ((b, true) :: own) <-> frames_ok f (b :: rec) own.
Proof.
  destruct f as [f|]; cbn; [|naive_solver]. split; intros (Ls & rest & Hi & HL & Hp); exists Ls, rest;
    (split_and!; [done|rewrite HL; first [apply Permutation_middle|symmetry; apply Permutation_middle]|
      intros b' Hb'; apply Hp; revert Hb'; cbn; rewrite ?elem_of_cons, !elem_of_app, ?elem_of_cons; tauto]).
Qed.

Lemma frames_ok_record_all f rec bs own :
  frames_ok f rec (map (fun b => (b, true)) bs ++ own) <-> frames_ok f (bs ++ rec) own.
Proof.
  revert rec. induction bs as [|b bs IH]; intros rec; [done|]. cbn [map app].
  rewrite frames_ok_record, IH. split; apply frames_ok_perm; try done; by rewrite Permutation_middle.
Qed.

(** ** The user pool *)

Lemma kinv_frames (k : kernel) own f own' :
  kinv k own -> frames_ok f (recorded k) own' -> kinv (set_frame_alloc k f) own'.
Proof. intros [? ? ? []] Hf. by split. Qed.

Lemma safe_alloc own order :
  ksafe own (alloc_user_pages order)
    (fun r own' => own' = match r with Some a => (a, Z.to_nat order, false) :: own | None => own end).
Proof using Hdisj.
  intros e k F _ Hk. cbv beta. destruct (frame_alloc k) as [f|] eqn:Ef; [|by exists k, None, own; split_and!; [..|apply chan_step_same|]].
  destruct (frame_alloc_pages f PoolUser (Z.to_nat order)) as [r f'] eqn:Ea. pose proof (mi_frames _ _ _ _ (ki_mem _ _ _ _ Hk)) as Hf.
  rewrite Ef in Hf. pose proof (frames_ok_alloc _ _ _ _ _ _ Hf Ea) as Hf'.
  eexists _, _, _. split_and!; [reflexivity| |by apply chan_step_same|reflexivity].
  eapply kinv_frames; [exact Hk|]. by destruct r.
Qed.

Lemma size_of_pages order : 0 <= order -> Z.shiftl 1 order * 4096 = size_of (Z.to_nat order).
Proof. intros H. unfold size_of. rewrite Z.shiftl_1_l, Z2Nat.id by done. lia. Qed.

Lemma safe_zero own a order : 0 <= order ->
  ksafe ((a, Z.to_nat order, false) :: own) (zero_pages a order) (fun _ own' => own' = (a, Z.to_nat order, true) :: own).
Proof using Hdisj.
  intros Ho e k F _ Hk. cbv beta. pose proof (mi_frames _ _ _ _ (ki_mem _ _ _ _ Hk)) as Hf. cbn [app] in Hf.
  destruct (frame_alloc k) as [f|] eqn:Ef; [|by destruct Hf].
  eexists _, _, _. split_and!; [reflexivity| |by apply chan_step_same|reflexivity]. eapply kinv_frames; [exact Hk|].
  rewrite size_of_pages by done. by eapply frames_ok_zero.
Qed.

Lemma safe_free own a order :
  ksafe ((a, Z.to_nat order, true) :: own) (free_user_pages a order) (fun _ own' => own' = own).
Proof using Hdisj.
  intros e k F _ Hk. cbv beta. pose proof (mi_frames _ _ _ _ (ki_mem _ _ _ _ Hk)) as Hf. cbn [app] in Hf.
  destruct (frame_alloc k) as [f|] eqn:Ef; [|by destruct Hf].
  destruct (frames_ok_free _ _ _ _ _ Hf) as (f' & -> & Hf'). cbn.
  eexists _, _, _. split_and!; [reflexivity| |by apply chan_step_same|reflexivity]. by eapply kinv_frames.
Qed.

(** ** Regions *)

Lemma kinv_regions (k : kernel) own rs own' :
  kinv k own -> table MAX_SHARED_REGIONS region_ok rs ->
  frames_ok (frame_alloc k) (map region_block (occupied rs) ++ map private_block (occupied (privates k))) own' ->
  kinv (set_regions k rs) own'.
Proof. intros [? ? ? []] Hr Hf. by split. Qed.

Lemma kinv_blocks (k : kernel) own : kinv k own ->
  frames_ok (frame_alloc k) (map region_block (occupied (regions k)) ++ map private_block (occupied (privates k))) own.
Proof. intros [_ _ _ []]. done. Qed.

Lemma region_get k own id : kinv k own -> 0 <= id < MAX_SHARED_REGIONS ->
  exists o, (regions k).[id] = Some o /\ opt region_ok o.
Proof. intros [_ _ _ []] ?. by apply (table_get MAX_SHARED_REGIONS region_ok). Qed.

Lemma region_ok_new id base order size p flags cap :
  violates_wx flags = false ->
  region_ok (mk_region id base order size 0 p flags cap (array_of MAX_SHARED_MAPPINGS None)).
Proof. intros Hw. split; cbn; try done; [constructor|]. intros m Hm. by apply not_elem_of_nil in Hm. Qed.

Lemma safe_insert_region own p base order pages flags token :
  violates_wx flags = false ->
  ksafe ((base, Z.to_nat order, true) :: own) (atomic (insert_region p base order pages flags token))
    (fun r own' => match r with
                   | Some id => own' = own /\ 0 <= id
                   | None => own' = (base, Z.to_nat order, true) :: own
                   end).
Proof.
  intros Hw e k F _ Hk. unfold insert_region. destruct (first_none (regions k)) as [i|] eqn:Ei.
  - apply first_none_Some in Ei as [Ei _]. eexists _, _, own. split_and!; [reflexivity| |by apply chan_step_same|cbn; split; [done|lia]].
    eapply kinv_regions; [exact Hk| |].
    + apply (arr_insert MAX_SHARED_REGIONS (opt region_ok)); [apply Hk|]. by apply region_ok_new.
    + pose proof (kinv_blocks _ _ Hk) as Hf. cbn [app] in Hf. apply (proj1 (frames_ok_record _ _ _ _)) in Hf.
      eapply frames_ok_perm; [|done|exact Hf]. rewrite occupied_put by done. cbn [map app]. done.
  - eexists _, _, _. split_and!; [reflexivity|exact Hk|by apply chan_step_same|done].
Qed.

(** An update of one region that keeps its block. *)
Lemma kinv_region_put k own id r r' :
  kinv k own -> (regions k).[id] = Some (Some r) -> region_ok r' -> region_block r' = region_block r ->
  kinv (put_region k id (Some r')) own.
Proof.
  intros Hk Hid Hr' Hb. eapply kinv_regions; [exact Hk| |].
  - apply (arr_set MAX_SHARED_REGIONS (opt region_ok)); [apply Hk|done].
  - destruct (occupied_insert_Some _ _ _ r' Hid) as (rest & H1 & H2 & _). pose proof (kinv_blocks _ _ Hk) as Hf.
    eapply frames_ok_perm; [|done|exact Hf]. unfold aset. rewrite H1, H2. cbn. by rewrite Hb.
Qed.

(** Removing a region gives its block to the task. *)
Lemma kinv_region_take k own id r :
  kinv k own -> (regions k).[id] = Some (Some r) -> kinv (put_region k id None) ((region_block r, true) :: own).
Proof.
  intros Hk Hid. eapply kinv_regions; [exact Hk| |].
  - apply (arr_set MAX_SHARED_REGIONS (opt region_ok)); [apply Hk|done].
  - destruct (occupied_insert_Some _ _ _ r Hid) as (rest & H1 & _ & H2). pose proof (kinv_blocks _ _ Hk) as Hf.
    apply frames_ok_record. eapply frames_ok_perm; [|done|exact Hf]. unfold aset. rewrite H1, H2. done.
Qed.

Lemma region_refs r : region_ok r -> 0 <= ref_count r <= MAX_SHARED_MAPPINGS.
Proof. intros []. rewrite ro_refs, <-ro_maps. unfold alen. pose proof (length_occupied (mappings r)). lia. Qed.

Lemma mapped_by_pid p r : existsb (mapped_by p) (mappings r) = false -> p ∉ mapping_pids r.
Proof.
  intros He (m & -> & Hm)%list_elem_of_fmap. apply elem_of_occupied in Hm as (i & Hi).
  apply not_true_iff_false in He. apply He, existsb_exists. exists (Some m).
  split; [|cbn; lia]. by eapply list_elem_of_In, list_elem_of_lookup_2.
Qed.

Lemma region_ok_map r i p va flags :
  region_ok r -> mappings r !! i = Some None -> existsb (mapped_by p) (mappings r) = false ->
  flags_contains (max_flags r) flags = true ->
  region_ok (with_mappings r (<[i := Some (mk_mapping p va flags)]> (mappings r)) (wrapping_add 32 (ref_count r) 1)).
Proof.
  intros Hr Hi Hp Hf. pose proof (region_refs r Hr) as Hc. pose proof (occupied_put _ _ (mk_mapping p va flags) Hi) as Ho.
  destruct Hr. split; cbn [with_mappings max_flags mappings ref_count]; try done.
  - unfold alen in *. by rewrite length_insert.
  - unfold wrapping_add. rewrite wrap_small by (unfold uint, MAX_SHARED_MAPPINGS in *; lia). unfold alen. rewrite Ho. cbn.
    unfold alen in ro_refs. lia.
  - unfold mapping_pids in *. cbn [with_mappings mappings]. rewrite Ho. cbn. constructor; [by apply mapped_by_pid|done].
  - intros m. rewrite Ho, elem_of_cons. intros [->|]; auto.
Qed.

Lemma region_ok_unmap r i m :
  region_ok r -> mappings r !! i = Some (Some m) ->
  0 < ref_count r /\ region_ok (with_mappings r (<[i := None]> (mappings r)) (ref_count r - 1)).
Proof.
  intros Hr Hi. destruct (occupied_insert_Some _ _ _ m Hi) as (rest & H1 & _ & H2). destruct Hr.
  assert (Hc : ref_count r = 1 + alen rest).
  { rewrite ro_refs. unfold alen. rewrite H1. cbn. lia. }
  pose proof (alen_nonneg rest). split; [lia|]. split; cbn [with_mappings max_flags mappings ref_count]; try done.
  - unfold alen in *. by rewrite length_insert.
  - rewrite H2. lia.
  - unfold mapping_pids in *. cbn [with_mappings mappings]. rewrite H2. rewrite H1 in ro_pids. by apply NoDup_cons in ro_pids as [_ ?].
  - intros x. rewrite H2. intros Hx. apply ro_flags. rewrite H1, elem_of_cons. auto.
Qed.

Lemma mapped_position p r i :
  position (mapped_by p) (mappings r) = Some i -> exists m, mappings r !! i = Some (Some m) /\ m_pid m = p.
Proof.
  intros (x & Hx & Hm & _)%position_Some. destruct x as [m|]; [|done]. exists m. split; [done|]. cbn in Hm. lia.
Qed.

Lemma wrap32_pred n : 1 <= n <= MAX_SHARED_MAPPINGS -> wrapping_sub 32 n 1 = n - 1.
Proof. intros H. unfold wrapping_sub. apply wrap_small. unfold uint, MAX_SHARED_MAPPINGS in *. lia. Qed.

(** ** Operations on shared memory *)

Lemma pages_order size bound :
  pages_of size <= bound -> bound <= 2 ^ 63 -> 0 <= order_for_pages (pages_of size).
Proof. intros H1 H2. apply (order_for_pages_least (pages_of size)). unfold pages_of in *. lia. Qed.

(** Allocates, zeroes and hands the block to a table, or frees it. *)
Lemma safe_new_block {A} own order (m : Z -> act kernel (option A)) (g : Z -> A -> act kernel (result Z Z)) (err : Z) :
  0 <= order ->
  (forall base own, ksafe ((base, Z.to_nat order, true) :: own) (m base)
     (fun r own' => match r with Some a => own' = own /\ forall Q, (forall v, Q (Ok v) own) -> ksafe own (g base a) Q
                    | None => own' = (base, Z.to_nat order, true) :: own end)) ->
  ksafe own
    (block <~ alloc_user_pages order ;;
     match block with
     | None => Ret (Err (ipc_code Enomem))
     | Some base =>
         zero_pages base order ;;;
         slot <~ m base ;;
         match slot with
         | None => free_user_pages base order ;;; Ret (Err err)
         | Some a => g base a
         end
     end) (fun r own' => own' = own /\ okv (fun _ => True) r).
Proof using Hdisj.
  intros Ho Hm. apply safe_bind. eapply safe_mono; [|apply safe_alloc]. intros [base|] own1 ->; [|done].
  apply safe_bind. eapply safe_mono; [|by apply safe_zero]. intros _ own1 ->.
  apply safe_bind. eapply safe_mono; [|apply Hm]. intros [a|] own1; cbv beta iota.
  - intros [-> Hg]. by apply Hg.
  - intros ->. apply safe_bind. eapply safe_mono; [|by apply safe_free]. by intros _ own1 ->.
Qed.

Lemma spec_shared_memory_create p size flags : spec (shared_memory_create p size flags) (okv (fun _ => True)).
Proof using Hdisj.
  unfold shared_memory_create. destruct (violates_wx flags) eqn:Hw; [by apply spec_ret|].
  destruct (Z.gtb_spec (pages_of size) MAX_SHARED_REGION_PAGES) as [|Hs]; [by apply spec_ret|].
  eapply spec_bind_ok; [apply spec_check_create|]. intros token _ own.
  refine (safe_new_block own _ (fun base => atomic (insert_region p base _ _ flags token))
    (fun base id => grant_to_process p (SharedMemoryAccess id) true ;;; Ret (Ok id)) _ _ _).
  { by apply (pages_order size MAX_SHARED_REGION_PAGES). }
  intros base own'. eapply safe_mono; [|by apply safe_insert_region]. intros [id|] own1; [|done].
  intros [-> _]. split; [done|]. intros Q HQ. apply safe_bind.
  eapply safe_mono; [|apply spec_grant_to_process]. intros r own1 [-> _]. apply HQ.
Qed.

Lemma spec_map_region p id flags :
  0 <= id < MAX_SHARED_REGIONS -> spec (atomic (map_region p id flags)) (okv (fun _ => True)).
Proof.
  intros Hid. apply spec_atomic. intros e k own _ Hk. unfold map_region.
  destruct (region_get k own id Hk Hid) as (o & E & Ho). rewrite E. cbn [mbind option_bind].
  destruct o as [r|]; [|by same_chan]. cbn in Ho. destruct (flags_contains (max_flags r) flags) eqn:Hf; cbn [negb]; [|by same_chan].
  destruct (existsb (mapped_by p) (mappings r)) eqn:Hp; [by same_chan|].
  destruct (first_none (mappings r)) as [i|] eqn:Ei; [|by same_chan]. apply first_none_Some in Ei as [Ei _].
  same_chan; [|done]. eapply kinv_region_put; [exact Hk|exact E|by apply region_ok_map|done].
Qed.

Lemma spec_shared_memory_map p id flags : 0 <= id -> spec (shared_memory_map p id flags) (okv (fun _ => True)).
Proof.
  intros Hid. unfold shared_memory_map. destruct (Z.geb_spec id MAX_SHARED_REGIONS); [by apply spec_ret|].
  destruct (violates_wx flags); [by apply spec_ret|]. eapply spec_bind_ok; [apply spec_check_access|]. intros _ _.
  by apply spec_map_region.
Qed.

(** The owned form of a block the tables give back. *)
Definition held_block (b : Z * Z) : block := (b.1, Z.to_nat b.2, true).

Lemma safe_unmap_region own p id :
  0 <= id < MAX_SHARED_REGIONS ->
  ksafe own (atomic (unmap_region p id))
    (fun r own' => own' = match r with Ok (Some b) => held_block b :: own | _ => own end).
Proof.
  intros Hid e k F _ Hk. unfold unmap_region. destruct (region_get k _ id Hk Hid) as (o & E & Ho). rewrite E.
  cbn [mbind option_bind]. assert (Hsame : forall x : result Z (option (Z * Z)), match x with Ok (Some _) => False | _ => True end ->
    exists s' b own', Some (k, x) = Some (s', b) /\ kinv s' (own' ++ F) /\ chan_step k s' /\
      ksafe own' (Ret b) (fun r own' => own' = match r with Ok (Some b) => held_block b :: own | _ => own end)).
  { intros x Hx. eexists _, _, own. split_and!; [reflexivity|done|by apply chan_step_same|]. by destruct x as [[]|]. }
  destruct o as [r|]; [|by apply Hsame]. cbn in Ho.
  destruct (position _ _) as [i|] eqn:Ei; [|by apply Hsame]. destruct (mapped_position p r i Ei) as (m & Hm & _).
  destruct (region_ok_unmap r i m Ho Hm) as [Hpos Hr']. pose proof (region_refs r Ho) as Hc.
  destruct (Z.eqb_spec (ref_count r) 0); [lia|]. destruct (Z.eqb_spec (ref_count r) 1).
  - eexists _, _, (held_block (r_base_phys r, r_order r) :: own). split_and!; [reflexivity| |by apply chan_step_same|done].
    by apply (kinv_region_take k (own ++ F) id r).
  - eexists _, _, own. split_and!; [reflexivity| |by apply chan_step_same|done]. rewrite wrap32_pred by lia.
    by apply (kinv_region_put k (own ++ F) id r).
Qed.

Lemma spec_shared_memory_unmap p id : 0 <= id -> spec (shared_memory_unmap p id) (okv (fun _ => True)).
Proof using Hdisj.
  intros Hid own. unfold shared_memory_unmap. destruct (Z.geb_spec id MAX_SHARED_REGIONS); [done|].
  apply safe_bind_ok. eapply safe_mono; [|by apply safe_unmap_region]. intros [[[b o]|]|e] own' ->; [|done..].
  apply safe_bind. eapply safe_mono; [|by apply safe_free]. by intros _ own1 ->.
Qed.

Lemma spec_shared_memory_share p id target : 0 <= id -> spec (shared_memory_share p id target) (okv (fun _ => True)).
Proof.
  intros Hid. unfold shared_memory_share. destruct (Z.geb_spec id MAX_SHARED_REGIONS); [by apply spec_ret|].
  destruct (process_index target); [|by apply spec_ret]. eapply (spec_bind_ok (fun _ => True)).
  - apply spec_reads_opt. intros k own Hk. destruct (region_get k own id Hk ltac:(done)) as (o & -> & _).
    eexists. split; [reflexivity|]. destruct o as [r|]; [|done]. by destruct (negb _).
  - intros _ _. eapply (spec_bind_ok (fun _ => True)); [|intros; by apply spec_ret].
    eapply spec_mono; [|apply spec_grant_to_process]. by intros [].
Qed.

(** ** The exit walk *)

Definition plain_block (b : Z * Z) : Z * nat := (b.1, Z.to_nat b.2).

Lemma cleanup_region_ok p slot : opt region_ok slot ->
  opt region_ok (cleanup_region p slot).1 /\
  map region_block (option_list slot) =
    map plain_block (option_list (cleanup_region p slot).2) ++ map region_block (option_list (cleanup_region p slot).1).
Proof.
  destruct slot as [r|]; [|done]. cbn [opt from_option]. intros Hr. unfold cleanup_region.
  destruct (position _ _) as [i|] eqn:Ei; [|done]. destruct (mapped_position p r i Ei) as (m & Hm & _).
  destruct (region_ok_unmap r i m Hr Hm) as [Hpos Hr']. pose proof (region_refs r Hr) as Hc.
  destruct (Z.eqb_spec (ref_count r) 0); [lia|]. destruct (Z.eqb_spec (ref_count r) 1); [done|].
  rewrite wrap32_pred by lia. done.
Qed.

Lemma cleanup_regions_ok p l : Forall (opt region_ok) l ->
  Forall (opt region_ok) (map fst (map (cleanup_region p) l)) /\
  map region_block (occupied l) ≡ₚ
    map plain_block (omap snd (map (cleanup_region p) l)) ++
    map region_block (occupied (map fst (map (cleanup_region p) l))).
Proof.
  induction 1 as [|slot l Hs _ [IH1 IH2]]; [done|]. destruct (cleanup_region_ok p slot Hs) as [H1 H2].
  unfold occupied in *. cbn [map omap list_omap]. destruct (cleanup_region p slot) as [s' b]. cbn [fst snd] in *.
  split; [by constructor|]. destruct slot, s', b; cbn in H2 |- *; simplify_eq; rewrite IH2; try done.
  - rewrite <-Permutation_middle. unfold region_block at 1 4. by rewrite H, H2.
  - by match goal with E : region_block _ = _ |- _ => rewrite E end.
Qed.

Lemma safe_cleanup_regions own p :
  ksafe own (atomic (cleanup_regions p)) (fun bs own' => own' = map held_block bs ++ own).
Proof.
  intros e k F _ Hk. unfold cleanup_regions. pose proof (mi_regions _ _ _ _ (ki_mem _ _ _ _ Hk)) as [Hn Hr].
  destruct (cleanup_regions_ok p _ Hr) as [Hr' Hb]. eexists _, _, _. split_and!; [reflexivity| |by apply chan_step_same|done].
  eapply kinv_regions; [exact Hk|split; [unfold alen in *; by rewrite !length_map|done]|].
  replace (map held_block _) with (map (fun b => (b, true)) (map plain_block (omap snd (map (cleanup_region p) (regions k)))))
    by by rewrite map_map.
  rewrite <-app_assoc. apply frames_ok_record_all. eapply frames_ok_perm; [|done|by apply kinv_blocks].
  rewrite app_assoc. by rewrite Hb.
Qed.

Lemma spec_process_cleanup p : spec (process_cleanup_shared_memory p) (fun _ => True).
Proof using Hdisj.
  intros own. unfold process_cleanup_shared_memory. apply safe_bind. eapply safe_mono; [|apply safe_cleanup_regions].
  intros bs own' ->. induction bs as [|b bs IH]; [done|]. cbn [afor map app]. apply safe_bind.
  eapply safe_mono; [|apply safe_free]. intros _ own1 ->. exact IH.
Qed.

(** ** Private memory *)

Lemma kinv_privates (k : kernel) own l own' :
  kinv k own -> alen l = MAX_PRIVATE_ALLOCATIONS ->
  frames_ok (frame_alloc k) (map region_block (occupied (regions k)) ++ map private_block (occupied l)) own' ->
  kinv (set_privates k l) own'.
Proof. intros [? ? ? []] Hr Hf. by split. Qed.

Lemma safe_insert_private own p base order pages :
  ksafe ((base, Z.to_nat order, true) :: own) (atomic (insert_private p base order pages))
    (fun r own' => match r with Some _ => own' = own | None => own' = (base, Z.to_nat order, true) :: own end).
Proof.
  intros e k F _ Hk. unfold insert_private. destruct (first_none (privates k)) as [i|] eqn:Ei.
  - apply first_none_Some in Ei as [Ei _]. eexists _, _, own. split_and!; [reflexivity| |by apply chan_step_same|done].
    eapply kinv_privates; [exact Hk| |].
    + pose proof (mi_privates _ _ _ _ (ki_mem _ _ _ _ Hk)). unfold alen in *. by rewrite length_insert.
    + pose proof (kinv_blocks _ _ Hk) as Hf. cbn [app] in Hf. apply (proj1 (frames_ok_record _ _ _ _)) in Hf.
      eapply frames_ok_perm; [|done|exact Hf]. rewrite occupied_put by done. cbn [map]. apply Permutation_middle.
  - eexists _, _, _. split_and!; [reflexivity|exact Hk|by apply chan_step_same|done].
Qed.

Lemma spec_memory_map p size flags : spec (memory_map p size flags) (okv (fun _ => True)).
Proof using Hdisj.
  unfold memory_map. destruct (violates_wx flags); [by apply spec_ret|].
  destruct (Z.gtb_spec (pages_of size) MAX_PRIVATE_PAGES) as [|Hs]; [by apply spec_ret|]. intros own.
  refine (safe_new_block own _ (fun base => atomic (insert_private p base _ _))
    (fun _ i => Ret (Ok (PRIVATE_VA_BASE + i * PRIVATE_VA_STRIDE))) _ _ _).
  { by apply (pages_order size MAX_PRIVATE_PAGES). }
  intros base own'. eapply safe_mono; [|by apply safe_insert_private]. intros [id|] own1; [|done].
  intros ->. split; [done|]. intros Q HQ. apply HQ.
Qed.

Lemma private_slot_range va i : private_slot va = Some i -> 0 <= i < MAX_PRIVATE_ALLOCATIONS.
Proof.
  unfold private_slot. destruct (Z.ltb_spec va PRIVATE_VA_BASE); [done|]. destruct (_ && _) eqn:E; [|done].
  intros [= <-]. apply andb_true_iff in E as [_ E%Z.ltb_lt]. split; [|done]. apply Z.div_pos; [lia|done].
Qed.

Lemma safe_take_private own p i pages : 0 <= i < MAX_PRIVATE_ALLOCATIONS ->
  ksafe own (atomic (take_private p i pages))
    (fun r own' => own' = match r with Some a => held_block (pa_base_phys a, pa_order a) :: own | None => own end).
Proof.
  intros Hi e k F _ Hk. unfold take_private. pose proof (mi_privates _ _ _ _ (ki_mem _ _ _ _ Hk)) as Hn.
  destruct (aget_is_Some (privates k) i) as [o Eo]; [lia|]. rewrite Eo. cbn [mbind option_bind].
  destruct o as [a|]; [|eexists _, _, own; split_and!; [reflexivity|done|by apply chan_step_same|done]].
  destruct (_ && _); [|eexists _, _, own; split_and!; [reflexivity|done|by apply chan_step_same|done]].
  eexists _, _, (held_block (pa_base_phys a, pa_order a) :: own). split_and!; [reflexivity| |by apply chan_step_same|done].
  eapply kinv_privates; [exact Hk|by rewrite alen_aset|].
  destruct (occupied_insert_Some _ _ _ a Eo) as (rest & H1 & _ & H2). pose proof (kinv_blocks _ _ Hk) as Hf.
  apply frames_ok_record. eapply frames_ok_perm; [|done|exact Hf]. unfold aset. rewrite H1, H2. cbn [map].
  symmetry. apply Permutation_middle.
Qed.

Lemma spec_memory_unmap p va size : spec (memory_unmap p va size) (okv (fun _ => True)).
Proof using Hdisj.
  unfold memory_unmap. set (private := match private_slot va with Some _ => _ | None => _ end).
  assert (Hpriv : spec private (okv (fun _ => True))).
  { subst private. destruct (private_slot va) as [i|] eqn:Ei; [|by apply spec_ret]. intros own. apply safe_bind.
    eapply safe_mono; [|apply safe_take_private; by eapply private_slot_range]. intros [a|] own' ->; [|done].
    apply safe_bind. eapply safe_mono; [|by apply safe_free]. by intros _ own1 ->. }
  destruct (_ && _) eqn:E; [|done]. destruct (_ <? MAX_SHARED_REGIONS); [|done].
  apply spec_shared_memory_unmap. apply andb_true_iff in E as [E%Z.leb_le _]. apply Z.div_pos; [lia|done].
Qed.
End safe.
