(* ===== verification/SyscallSafe.v ===== *)
(** * Processes, services, system calls and interrupts keep the invariant *)

From S2P Require Import Prelude Collections Abi Capability PhysMem Memory Buddy BuddyInv BuddySystem Pools Paging.
From S2P Require Import Act Task Sched KernelCap Channels Notify Ipc Shmem Process Syscall KernelInv KernelLogic SchedSafe ChannelSafe.
From S2P Require Import IpcSafe MemSafe.
Local Open Scope act_scope.

Section safe.
Context {p0 : PagePools} {Fs : Pool -> Z -> Prop} (Hdisj : pools_disjoint p0).
Local Abbreviation kinv := (kinv p0 Fs).
Local Abbreviation spec := (spec p0 Fs).

(** ** Services and the audit ring *)

Lemma kinv_services (k : kernel) own l : kinv k own -> alen l = MAX_SERVICES -> kinv (set_services k l) own.
Proof. intros [? ? [] ?] ?. by split. Qed.

Lemma spec_mark_dead p : spec (atomic (mark_dead p)) (fun _ => True).
Proof.
  apply spec_atomic. intros e k own _ Hk. unfold mark_dead. destruct (position _ _) as [i|]; [|by same_chan].
  destruct (mjoin _); [|by same_chan]. same_chan; [|done]. apply kinv_services; [done|].
  destruct Hk as [_ _ [] _]. unfold alen in *. by rewrite length_insert.
Qed.

Lemma spec_audit_log p event : spec (audit_log p event) (fun _ => True).
Proof.
  unfold audit_log. eapply (spec_bind (fun _ => True)).
  { apply spec_atomic. intros e k own _ Hk. same_chan; [|done]. destruct Hk as [? ? [] ?]. by split. }
  intros n _. eapply spec_bind; [apply spec_tick_now|]. intros tick _. apply spec_updates_opt. intros k own Hk.
  pose proof (pi_audit _ (ki_proc _ _ _ _ Hk)) as Ha. pose proof (Z.mod_pos_bound n AUDIT_RING_SIZE ltac:(done)) as Hn.
  destruct (aget_is_Some (audit_ring k) (n mod AUDIT_RING_SIZE)) as [x ->]; [by rewrite Ha|].
  eexists. split; [reflexivity|]. split; [|by apply chan_step_same]. destruct Hk as [? ? [] ?]. split; try done.
  split; try done. cbn. by rewrite alen_aset.
Qed.
Hint Resolve spec_mark_dead spec_audit_log : kspec.

Lemma spec_service_on_death p : spec (service_on_death p) (fun _ => True).
Proof. unfold service_on_death. spec_go. Qed.

(** ** Exit *)

Lemma kill_thread_ok p slot : opt thread_ok slot -> opt thread_ok (kill_thread p slot).
Proof. destruct slot as [t|]; [|done]. cbn. intros [H1 H2]. destruct (bool_decide _); split; done. Qed.

Lemma collect_ok w t : Forall tid_ok w -> opt tid_ok t -> Forall tid_ok (collect w t).
Proof. intros Hw Ht. destruct t; [|done]. cbn. destruct (_ <? _); [|done]. apply Forall_app. split; [done|by constructor]. Qed.

Lemma kill_channel_ok c : channel_ok c -> channel_ok (kill_channel c).
Proof. intros []. by split. Qed.

(** The walk kills endpoints but leaves every ring alone. *)
Lemma exit_walk_ok p chs w : Forall (opt channel_ok) chs -> Forall tid_ok w ->
  let '(chs', w') := exit_walk p chs w in
  Forall (opt channel_ok) chs' /\ Forall tid_ok w' /\
  map (option_map ring) chs' = map (option_map ring) chs.
Proof.
  intros Hc. revert w. induction Hc as [|[c|] chs Hc _ IH]; intros w Hw; cbn [exit_walk]; [done| |].
  - cbn in Hc. destruct (owned_channel p c).
    + specialize (IH (collect (collect w (waiting_receiver c)) (pending_caller c))). destruct (exit_walk _ _ _) as [r w'].
      destruct IH as (H1 & H2 & H3); [apply collect_ok; [apply collect_ok|]; [done|apply Hc|apply Hc]|].
      split_and!; [|done|cbn; by rewrite H3]. constructor; [by apply kill_channel_ok|done].
    + specialize (IH w Hw). destruct (exit_walk _ _ _) as [r w']. destruct IH as (H1 & H2 & H3).
      split_and!; [by constructor|done|cbn; by rewrite H3].
  - specialize (IH w Hw). destruct (exit_walk _ _ _) as [r w']. destruct IH as (H1 & H2 & H3).
    split_and!; [by constructor|done|cbn; by rewrite H3].
Qed.

Lemma chan_step_rings (k k' : kernel) :
  map (option_map ring) (channels k') = map (option_map ring) (channels k) -> chan_step k k'.
Proof.
  intros E id _. replace (queue_of k' id) with (queue_of k id); [constructor|]. unfold queue_of, aget.
  apply (f_equal (fun l => l !! Z.to_nat id)) in E. rewrite !list_lookup_fmap in E.
  destruct (channels k' !! _) as [[c'|]|], (channels k !! _) as [[c|]|]; cbn in *; congruence.
Qed.

Lemma spec_exit_walk p :
  spec (atomic (fun _ k => let '(chs, w) := exit_walk p (channels k) [] in Some (set_channels k chs, w)))
    (Forall tid_ok).
Proof.
  apply spec_atomic. intros e k own _ Hk. pose proof (ii_channels _ (ki_ipc _ _ _ _ Hk)) as [Hn Hc].
  pose proof (exit_walk_ok p _ [] Hc ltac:(constructor)) as H. destruct (exit_walk _ _ _) as [chs w].
  destruct H as (H1 & H2 & H3). eexists _, _. split; [reflexivity|]. split_and!; [|by apply chan_step_rings|done].
  apply kinv_channels; [done|]. split; [|done]. rewrite <-Hn. unfold alen. apply (f_equal length) in H3. rewrite !length_map in H3. by rewrite H3.
Qed.

Lemma spec_set_exit_code idx code : 0 <= idx < MAX_PROCESSES ->
  spec (updates_opt (fun k => _ ← (exit_codes k).[idx]; Some (set_exit_codes k ((exit_codes k).[idx <- code])))) (fun _ => True).
Proof.
  intros Hi. apply spec_updates_opt. intros k own Hk. pose proof (pi_exits _ (ki_proc _ _ _ _ Hk)) as Hn.
  destruct (aget_is_Some (exit_codes k) idx) as [x ->]; [by rewrite Hn|]. eexists. split; [reflexivity|].
  split; [|by apply chan_step_same]. destruct Hk as [? ? [] ?]. split; try done. split; try done. cbn. by rewrite alen_aset.
Qed.

Lemma waiter_get k own idx : kinv k own -> 0 <= idx < MAX_PROCESSES ->
  exists o, (process_waiters k).[idx] = Some o /\ opt tid_ok o.
Proof. intros [_ _ [] _] ?. by apply (table_get MAX_PROCESSES tid_ok). Qed.

Lemma kinv_waiter k own idx o : kinv k own -> opt tid_ok o ->
  kinv (set_process_waiters k ((process_waiters k).[idx <- o])) own.
Proof. intros [? ? [] ?] ?. split; try done. split; try done. by apply (arr_set MAX_PROCESSES (opt tid_ok)). Qed.

Lemma spec_take_waiter idx : 0 <= idx < MAX_PROCESSES ->
  spec (atomic (fun _ k => t ← (process_waiters k).[idx];
    Some (set_process_waiters k ((process_waiters k).[idx <- None]), t))) (opt tid_ok).
Proof.
  intros Hi. apply spec_atomic. intros e k own _ Hk. destruct (waiter_get k own idx Hk Hi) as (o & -> & Ho).
  cbn [mbind option_bind]. same_chan; [|done]. by apply kinv_waiter.
Qed.

Lemma spec_has_process idx : 0 <= idx < MAX_PROCESSES ->
  spec (reads_opt (fun k => slot ← (processes k).[idx]; Some (match slot with Some _ => true | None => false end)))
    (fun _ => True).
Proof.
  intros Hi. apply spec_reads_opt. intros k own [_ _ [Hp _ _ _ _] _].
  destruct (table_get MAX_PROCESSES (fun p => table_wf (cap_table p)) _ idx Hp Hi) as (o & -> & _). by eexists.
Qed.

Lemma process_index_Some p idx : process_index p = Some idx -> idx = p /\ p < MAX_PROCESSES.
Proof. unfold process_index. destruct (Z.ltb_spec p MAX_PROCESSES); naive_solver. Qed.

Lemma spec_process_exit p code : 0 <= p -> spec (process_exit p code) (fun _ => True).
Proof using Hdisj.
  intros Hp. unfold process_exit. destruct (process_index p) as [idx|] eqn:E; [|by apply spec_ret].
  apply process_index_Some in E as [-> Hlt]. eapply spec_bind; [by apply spec_has_process|]. intros has _.
  eapply (spec_bind (fun _ => True)). { destruct has; [by apply spec_set_exit_code|by apply spec_ret]. }
  intros _ _. eapply (spec_bind (fun _ => True)).
  { apply spec_updates. intros k own Hk. split; [|by apply chan_step_same]. apply kinv_threads; [done|].
    apply (arr_map MAX_THREADS (opt thread_ok)); [apply kill_thread_ok|apply Hk]. }
  intros _ _. eapply spec_bind; [apply spec_exit_walk|]. intros w Hw. eapply spec_bind.
  { apply (spec_for _ _ _ Hw). intros x Hx. by apply spec_wake_with_error. }
  intros _ _. eapply spec_bind; [by apply spec_process_cleanup|]. intros _ _.
  eapply spec_bind; [apply spec_service_on_death|]. intros _ _. destruct has; [|by apply spec_ret].
  eapply spec_bind; [by apply spec_take_waiter|]. intros [t|] Ht; [by apply spec_unblock|by apply spec_ret].
Qed.

Lemma spec_exit_code_of idx : 0 <= idx < MAX_PROCESSES -> spec (exit_code_of idx) (fun _ => True).
Proof.
  intros Hi. apply spec_reads_opt. intros k own Hk. pose proof (pi_exits _ (ki_proc _ _ _ _ Hk)) as Hn.
  destruct (aget_is_Some (exit_codes k) idx) as [x ->]; [by rewrite Hn|]. by eexists.
Qed.

Lemma spec_process_wait parent child : tid_ok parent -> 0 <= child -> spec (process_wait parent child) (okv (fun _ => True)).
Proof.
  intros Ht Hc. unfold process_wait. destruct (process_index child) as [idx|] eqn:E; [|by apply spec_ret].
  apply process_index_Some in E as [-> Hlt]. eapply spec_bind; [by apply spec_exit_code_of|]. intros code _.
  destruct (negb _); [by apply spec_ret|]. eapply (spec_bind_ok (fun _ => True)).
  { apply spec_reads. intros k own _. by destruct (process_ref k child). }
  intros _ _. eapply (spec_bind (fun _ => True)).
  { apply spec_updates_opt. intros k own Hk. destruct (waiter_get k own child Hk ltac:(done)) as (o & -> & _).
    eexists. split; [reflexivity|]. split; [by apply kinv_waiter|by apply chan_step_same]. }
  intros _ _. eapply spec_bind; [by apply spec_block_current|]. intros _ _.
  eapply spec_bind; [by apply spec_exit_code_of|]. intros code' _. destruct (negb _); by apply spec_ret.
Qed.

(** ** System calls *)

Lemma kinv_umem k own m : kinv k own -> kinv (set_umem k m) own.
Proof. intros [? ? ? []]. by split. Qed.

(** A process's own mappings are all that TTBR0 holds. *)
Lemma user_reach_ok e n : env_ok e -> user_reach e n = Some tt.
Proof. intros He. unfold user_reach. by rewrite (env_ttbr0 _ He), orb_true_r. Qed.

Lemma spec_copy_from_user n a :
  0 <= n -> spec (copy_from_user n a) (okv (fun bs => alen bs = n /\ Forall is_byte bs)).
Proof.
  intros Hn. unfold copy_from_user. destruct (negb _); [by apply spec_ret|].
  eapply (spec_bind (opt (fun bs => alen bs = n /\ Forall is_byte bs))).
  - apply spec_atomic. intros e k own He Hk. rewrite (user_reach_ok e n He). cbn [mbind option_bind]. same_chan; [done|].
    destruct (accessible e false a n); [|done]. cbn. split.
    + unfold alen, load_bytes. rewrite length_map, length_fmap, length_seq. lia.
    + apply Forall_map, Forall_true. intros x. by apply (uint_wrap 8).
  - intros [bs|] Hb; [by apply spec_ret|apply spec_stop].
Qed.

Lemma spec_copy_to_user a bs : spec (copy_to_user a bs) (okv (fun _ => True)).
Proof.
  unfold copy_to_user. destruct (negb _); [by apply spec_ret|]. eapply (spec_bind (fun _ => True)).
  - apply spec_atomic. intros e k own He Hk. rewrite (user_reach_ok e _ He). cbn [mbind option_bind]. same_chan; [|done].
    by apply kinv_umem.
  - intros [] _; [by apply spec_ret|apply spec_stop].
Qed.

Lemma spec_or_return {A B} (r : result Z A) (f : A -> act kernel (Z * option B)) (P : A -> Prop) :
  okv P r -> (forall a, P a -> spec (f a) (fun _ => True)) -> spec (or_return r f) (fun _ => True).
Proof. intros Hr Hf. destruct r; [by apply Hf|by apply spec_ret]. Qed.

Lemma spec_abind_ret {A B} (P : A -> Prop) (m : act kernel (result Z A)) (f : A -> act kernel (Z * option B)) :
  spec m (okv P) -> (forall a, P a -> spec (f a) (fun _ => True)) -> spec (abind_ret m f) (fun _ => True).
Proof. intros Hm Hf. eapply spec_bind; [exact Hm|]. intros r Hr. by eapply spec_or_return. Qed.

Lemma spec_with_pid f : (forall p, 0 <= p -> spec (f p) (fun _ => True)) -> spec (with_pid f) (fun _ => True).
Proof. intros Hf. eapply spec_bind; [apply spec_current_process_id|]. intros [p|] Hp; [by apply Hf|by apply spec_ret]. Qed.

Lemma spec_finish {A} (f : A -> Z) m P : spec m P -> spec (finish f m) (fun _ => True).
Proof. intros Hm. eapply spec_bind; [exact Hm|]. intros. by apply spec_ret. Qed.

Lemma id_arg_nonneg r : okv (fun i => 0 <= i) (id_arg r).
Proof. unfold id_arg. destruct (_ <=? _); [|done]. cbn. by apply uint_wrap. Qed.

Lemma okv_true {E A} (r : result E A) : okv (fun _ => True) r.
Proof. by destruct r. Qed.

(** One step into a handler. *)
Local Ltac handler_step :=
  lazymatch goal with
  | |- KernelLogic.spec _ _ (or_return (id_arg _) _) _ => apply (spec_or_return _ _ _ (id_arg_nonneg _)); intros ? ?
  | |- KernelLogic.spec _ _ (or_return _ _) _ => apply (spec_or_return _ _ _ (okv_true _)); intros ? _
  | |- KernelLogic.spec _ _ (with_pid _) _ => apply spec_with_pid; intros ? ?
  | |- KernelLogic.spec _ _ (finish _ _) _ => eapply spec_finish
  | |- KernelLogic.spec _ _ (ret _) _ => by apply spec_ret
  | |- KernelLogic.spec _ _ (Ret _) _ => by apply spec_ret
  | |- KernelLogic.spec _ _ (if ?b then _ else _) _ => destruct b eqn:?
  end.

Section regs.
Context (x : list Z) (Hx : Forall (uint 64) x).

Lemma reg_uint i : uint 64 (reg x i).
Proof using Hx.
  unfold reg. destruct (x.[i]) as [v|] eqn:E; [|done]. cbn. by apply (Forall_lookup_1 _ _ _ _ Hx E).
Qed.

Lemma reg_nonneg i : 0 <= reg x i.
Proof using Hx. apply reg_uint. Qed.

(** A handler that copies a buffer of the caller in. *)
Lemma spec_with_buffer n a (f : list Z -> act kernel (Z * option Z)) :
  0 <= n -> (forall bs, alen bs = n -> Forall is_byte bs -> spec (f bs) (fun _ => True)) ->
  spec (abind_ret (copy_from_user n a) f) (fun _ => True).
Proof. intros Hn Hf. eapply spec_abind_ret; [by apply spec_copy_from_user|]. intros bs []. by apply Hf. Qed.

Lemma spec_sys_ipc_call sp : spec (sys_ipc_call sp x) (fun _ => True).
Proof using Hx.
  unfold sys_ipc_call. do 3 handler_step; [by handler_step..|].
  apply spec_with_buffer; [apply reg_nonneg|]. intros bs _ _. eapply (spec_bind (fun _ => True)).
  { apply spec_updates. intros k own Hk. split; [by apply kinv_kmem|by apply chan_step_same]. }
  intros _ _. eapply spec_bind; [apply spec_ipc_call; [done|apply reg_nonneg]|]. intros r _. handler_step; [handler_step|].
  eapply (spec_bind (fun _ => True)); [by apply spec_reads|]. intros reply _. handler_step. apply spec_copy_to_user.
Qed.

Lemma spec_sys_ipc_recv : spec (sys_ipc_recv x) (fun _ => True).
Proof using Hx.
  unfold sys_ipc_recv. do 3 handler_step; [by handler_step..|].
  eapply spec_abind_ret; [apply spec_ipc_recv; [done|apply reg_nonneg]|]. intros out _.
  eapply spec_abind_ret; [apply spec_copy_to_user|]. intros _ _. by apply spec_ret.
Qed.

Lemma spec_copy_ids ids a : spec (copy_ids ids a) (okv (fun _ => True)).
Proof.
  revert a. induction ids as [|i ids IH]; intros a; cbn [copy_ids]; [by apply spec_ret|].
  eapply spec_bind_ok; [apply spec_copy_to_user|]. intros _ _. apply IH.
Qed.

Lemma spec_sys_capability_list : spec (sys_capability_list x) (fun _ => True).
Proof.
  unfold sys_capability_list. handler_step; [handler_step|]. handler_step. eapply (spec_abind_ret (fun _ => True)).
  - apply spec_reads. intros k own _. apply okv_true.
  - intros ids _. handler_step. apply spec_copy_ids.
Qed.

Lemma spec_sys_capability_revoke : spec (sys_capability_revoke x) (fun _ => True).
Proof.
  unfold sys_capability_revoke. do 2 handler_step. eapply (spec_abind_ret (fun _ => True)).
  - apply spec_reads. intros k own _. apply okv_true.
  - intros t _. handler_step. apply spec_revoke_in_process.
Qed.

Lemma spec_sys_capability_attenuate : spec (sys_capability_attenuate x) (fun _ => True).
Proof. unfold sys_capability_attenuate. do 4 handler_step. apply spec_attenuate_in. Qed.

Lemma decode_entries_ok n wire : Forall is_byte wire -> okv (Forall entry_nonneg) (decode_entries n wire).
Proof.
  revert wire. induction n as [|n IH]; intros wire Hw; [by constructor|]. cbn [decode_entries].
  assert (Hid : 0 <= raw_id (raw_from_bytes (take 16 wire))) by (cbn; apply le_val_bound; eauto using Forall_take, Forall_drop).
  unfold entry_try_from. specialize (IH (drop 16 wire) ltac:(by apply Forall_drop)).
  destruct (_ =? SELECT_KIND_CHANNEL); [|destruct (_ =? _); [|done]];
    (cbn; destruct (decode_entries n (drop 16 wire)) as [es|]; [|done]; by constructor).
Qed.

Lemma spec_sys_ipc_select : spec (sys_ipc_select x) (fun _ => True).
Proof using Hx.
  unfold sys_ipc_select. handler_step; [handler_step|]. apply spec_with_buffer.
  { pose proof (reg_nonneg 1). unfold RAW_SELECT_SIZE. lia. }
  intros wire _ Hw. eapply spec_or_return; [by apply decode_entries_ok|]. intros es Hes.
  eapply spec_abind_ret; [by apply spec_ipc_select|]. intros r _. by apply spec_ret.
Qed.

Lemma spec_sys_process_wait : spec (sys_process_wait x) (fun _ => True).
Proof.
  unfold sys_process_wait. handler_step. eapply spec_bind; [apply spec_current_thread_id|].
  intros [t|] Ht; [|by apply spec_ret]. handler_step. by apply spec_process_wait.
Qed.

Lemma spec_sys_channel_create : spec (sys_channel_create x) (fun _ => True).
Proof.
  unfold sys_channel_create. eapply spec_bind; [apply spec_current_thread_id|].
  intros [t|] Ht; [|by apply spec_ret]. handler_step. apply spec_channel_create.
Qed.

Lemma spec_sys_time_get : spec (sys_time_get x) (fun _ => True).
Proof.
  eapply (spec_bind (fun _ => True)); [|intros; by apply spec_ret]. apply spec_atomic. intros e k own _ Hk. by same_chan.
Qed.
End regs.

Lemma spec_handler sp x : Forall (uint 64) x -> spec (handler sp x) (fun _ => True).
Proof using Hdisj.
  intros Hx. pose proof (reg_nonneg x Hx) as Hr. unfold handler.
  repeat match goal with
  | |- KernelLogic.spec _ _ (if _ then _ else _) _ => destruct (_ =? _)
  end; try first
    [ by apply spec_sys_ipc_call | by apply spec_sys_ipc_recv | by apply spec_sys_ipc_select
    | apply spec_sys_channel_create | apply spec_sys_capability_attenuate | apply spec_sys_capability_revoke
    | apply spec_sys_capability_list | apply spec_sys_process_wait | apply spec_sys_time_get | by apply spec_ret ].
  - unfold sys_ipc_send. do 2 handler_step; [handler_step|]. apply spec_with_buffer; [apply Hr|]. intros bs _ _.
    eapply spec_bind; [by apply spec_ipc_send|]. intros. by apply spec_ret.
  - unfold sys_ipc_reply. do 2 handler_step; [handler_step|]. apply spec_with_buffer; [apply Hr|]. intros bs _ _.
    eapply spec_bind; [by apply spec_ipc_reply|]. intros. by apply spec_ret.
  - unfold sys_ipc_cancel. handler_step. eapply spec_bind; [by apply spec_ipc_cancel|]. intros. by apply spec_ret.
  - unfold sys_channel_destroy. do 2 handler_step. by apply spec_channel_destroy.
  - unfold sys_notification_create. do 2 handler_step. apply spec_notification_create.
  - unfold sys_notification_signal. do 2 handler_step. by apply spec_notification_signal.
  - unfold sys_notification_wait. do 2 handler_step. by apply spec_notification_wait.
  - unfold sys_memory_map. do 3 handler_step. by apply spec_memory_map.
  - unfold sys_memory_unmap. do 2 handler_step. by apply spec_memory_unmap.
  - unfold sys_shared_memory_create. do 3 handler_step. by apply spec_shared_memory_create.
  - unfold sys_shared_memory_map. do 4 handler_step. by apply spec_shared_memory_map.
  - unfold sys_shared_memory_share. do 4 handler_step. by apply spec_shared_memory_share.
  - unfold sys_process_exit. handler_step. eapply spec_bind; [by apply spec_process_exit|]. intros. by apply spec_ret.
  - unfold sys_time_sleep. handler_step; [handler_step|]. eapply spec_bind; [apply spec_sleep_ticks|]. intros. by apply spec_ret.
  - unfold sys_audit_log. handler_step; [handler_step|]. apply spec_with_buffer; [apply Hr|]. intros bs _ _. handler_step.
    eapply spec_bind; [apply spec_audit_log|]. intros. by apply spec_ret.
  - unfold sys_debug_print. handler_step; [handler_step|]. apply spec_with_buffer; [apply Hr|]. intros bs _ _. handler_step.
Qed.

Lemma spec_syscall_dispatch sp x : Forall (uint 64) x -> spec (syscall_dispatch sp x) (fun _ => True).
Proof using Hdisj. intros Hx. eapply spec_bind; [by apply spec_handler|]. intros. by apply spec_ret. Qed.

(** ** The timer interrupt *)

Lemma spec_timer_irq online : 0 <= online <= MAX_CORES -> spec (timer_irq online) (fun _ => True).
Proof.
  intros Ho. unfold timer_irq, timer_tick_handler. eapply spec_bind; [|intros; apply spec_check_preemption].
  eapply spec_bind; [apply spec_here|]. intros cpu Hcpu. eapply (spec_bind (fun _ => True)).
  { destruct (cpu =? 0); [|by apply spec_ret]. apply spec_updates. intros k own [[] ? ? ?].
    split; [by split|by apply chan_step_same]. }
  intros _ _. eapply spec_bind; [by apply spec_timer_tick|]. intros _ _. eapply spec_bind; [apply spec_check_timeouts|].
  intros _ _. eapply spec_bind; [apply spec_tick_now|]. intros tick _. eapply (spec_bind (fun _ => True)).
  { destruct (_ =? _); [by apply spec_try_load_balance|by apply spec_ret]. }
  intros _ _. apply spec_updates. intros k own Hk. split; [by apply kinv_need|by apply chan_step_same].
Qed.
End safe.
