(* ===== verification/KernelProps.v ===== *)
(** * Properties of the running kernel

    The tasks that run in kernel mode are system calls with any register
    contents and timer interrupts; user code stores to its memory in between.
    The theorems hold for every interleaving of the critical sections of any
    number of such tasks. *)

From S2P Require Import Prelude Collections Abi Capability PhysMem Memory Buddy BuddyInv BuddyInit BuddySystem Pools Paging.
From S2P Require Import Act Task Sched KernelCap Channels Notify Ipc Shmem Process Syscall KernelInv KernelLogic SchedSafe ChannelSafe.
From S2P Require Import IpcSafe MemSafe SyscallSafe.
Local Open Scope act_scope.

(** ** The tables at boot *)

Definition sched_boot : sched_state :=
  mk_sched_state (array_of MAX_THREADS None) (array_of MAX_CORES rq_new) (array_of MAX_CORES None)
    (array_of MAX_CORES false) false 0.

Definition ipc_boot : ipc_state :=
  mk_ipc_state (array_of MAX_CHANNELS None) (array_of MAX_THREADS None) (array_of MAX_THREADS None)
    (array_of MAX_THREADS 0) (array_of MAX_NOTIFICATIONS None) (array_of MAX_THREADS None)
    (array_of MAX_THREADS (umax 64)) (array_of MAX_THREADS None).

Definition proc_boot : proc_state :=
  mk_proc_state (array_of MAX_PROCESSES None) (array_of MAX_PROCESSES None) (array_of MAX_PROCESSES NO_EXIT_CODE) 1
    (array_of MAX_SERVICES None) 0 (array_of AUDIT_RING_SIZE (mk_audit 0 0 (array_of 48 0) 0)) 0.

Definition boot (f : option frames) (km um : Z -> Z) : kernel :=
  mk_kernel sched_boot ipc_boot proc_boot
    (mk_mem_state (array_of MAX_SHARED_REGIONS None) (array_of MAX_PRIVATE_ALLOCATIONS None) f km um).

(** ** Tasks *)

Inductive job :=
| SyscallJob (sp : Z) (x : list Z)
| TimerJob (online : Z)
| UserStore (addr : Z) (bytes : list Z).

Definition job_act (j : job) : act kernel unit :=
  match j with
  | SyscallJob sp x => syscall_dispatch sp x ;;; Ret tt
  | TimerJob online => timer_irq online
  | UserStore a bs => updates (fun k => set_umem k (store_bytes (umem k) a bs))
  end.

Definition job_ok (j : job) : Prop :=
  match j with
  | SyscallJob _ x => Forall (uint 64) x
  | TimerJob online => 0 <= online <= MAX_CORES
  | UserStore _ _ => True
  end.

(** The blocks of the shared and private memory of [k] are apart. *)
Definition blocks_apart (k : kernel) : Prop :=
  forall i j b b', recorded k !! i = Some b -> recorded k !! j = Some b' -> i <> j -> disj b.1 b.2 b'.1 b'.2.

Section runs.
Context {p0 : PagePools} {Fs : Pool -> Z -> Prop}.

Lemma spec_job (Hd : pools_disjoint p0) j : job_ok j -> spec p0 Fs (job_act j) (fun _ => True).
Proof.
  destruct j as [sp x|online|a bs]; intros Hj; cbn [job_act].
  - eapply spec_bind; [by apply spec_syscall_dispatch|]. intros. by apply spec_ret.
  - by apply spec_timer_irq.
  - apply spec_updates. intros k own Hk. split; [by apply kinv_umem|by apply chan_step_same].
Qed.

(** Every task of the pool is safe and ends with no block of its own. *)
Definition pool_ok (cfg : list (act kernel unit) * kernel) : Prop :=
  pool_safe (kinv p0 Fs) chan_step (fun _ own => own = []) cfg.

Lemma pool_ok_start (k : kernel) jobs :
  pools_disjoint p0 -> kinv p0 Fs k [] -> Forall job_ok jobs -> pool_ok (map job_act jobs, k).
Proof.
  intros Hd Hk Hj. exists (map (fun _ => []) jobs). cbn. split.
  - apply Forall2_fmap, Forall_Forall2_diag. eapply Forall_impl; [exact Hj|]. intros j Hok.
    eapply safe_mono; [|by apply (spec_job Hd j Hok [])]. by intros ? ? [-> _].
  - by replace (mjoin (map (fun _ => []) jobs)) with (@nil block) by (clear; induction jobs; done).
Qed.

Lemma chan_step_refl (k : kernel) : chan_step k k.
Proof. by apply chan_step_same. Qed.

Lemma pool_ok_reach cfg cfg' : rtc pool_step cfg cfg' -> pool_ok cfg -> pool_ok cfg'.
Proof. apply pool_safe_rtc; [apply kinv_perm|apply chan_step_refl]. Qed.

Lemma pool_ok_inv pool k : pool_ok (pool, k) -> exists own, kinv p0 Fs k own.
Proof. intros (owns & _ & Hk). by exists (mjoin owns). Qed.

Lemma pool_ok_done pool k :
  pool_ok (pool, k) -> Forall (fun m => exists a, m = Ret a) pool -> kinv p0 Fs k [].
Proof.
  intros (owns & Hp & Hk) Hr. cbn in *. replace (mjoin owns) with (@nil block) in Hk; [done|].
  clear Hk. induction Hp as [|m own pool owns Hm _ IH]; [done|]. inversion Hr as [|? ? [a ->] Hr']; subst. cbn in *.
  subst. by apply IH.
Qed.

End runs.

(** ** A small system *)

Module Demo.
(** All of the user address space is mapped. *)
Definition env_on (cpu : Z) : env :=
  mk_env cpu false 0 1000000 (mk_regs (array_of 12 0) 0x3000 0x1000) true (fun _ _ => true).
Definition env0 : env := env_on 0.
Definition env1 : env := env_on 1.

Definition thread (tid p : Z) : Thread :=
  let t := new_kernel tid [] 0x1000 0x2000 in
  mk_thread (sched t) (context t) 0 (Some p) (stack_phys t) (th_name t).
Definition proc (p : Z) : ProcessControl := mk_proc p None limits_system table_new (array_of 8 None) [].

(** Processes 0 and 1 with a running thread each, on CPUs 0 and 1. *)
Definition base : kernel :=
  let k := boot (Some demo_frames) (fun _ => 0) (fun _ => 0) in
  let k := put_thread (put_thread k 0 (thread 0 0)) 1 (thread 1 1) in
  let k := set_current_thread k ((current_thread k).[0 <- Some 0].[1 <- Some 1]) in
  put_process (put_process k 0 (proc 0)) 1 (proc 1).

(** Process 0 creates channel 0 and a shared region; process 1 may use both. *)
Definition setup : act kernel unit :=
  grant_to_process 0 ChannelCreate true ;;;
  grant_to_process 0 SharedMemoryCreate true ;;;
  channel_create 0 ;;;
  grant_to_process 0 (ChannelAccess 0) true ;;;
  grant_to_process 1 (ChannelAccess 0) true ;;;
  shared_memory_create 0 4096 3 ;;;
  shared_memory_share 0 0 1 ;;;
  Ret tt.
Definition start : kernel := match run env0 setup base with Some (k, _) => k | None => base end.

Definition p0 : PagePools := demo_pools.1.
Definition Fs : Pool -> Z -> Prop :=
  fun q => from_option (usable (0x40014000, 0x40016000) (0, 0)) (fun _ => False) (pool_get p0 q).
End Demo.

(** ** The boot state satisfies the invariant *)

Lemma demo_env_ok cpu : 0 <= cpu < MAX_CORES -> env_ok (Demo.env_on cpu).
Proof. by constructor. Qed.

Lemma demo_env0_ok : env_ok Demo.env0.
Proof. by apply demo_env_ok. Qed.

Lemma boot_kinv p0 Fs f km um : frames_inv p0 Fs (f, fun _ => []) -> kinv p0 Fs (boot (Some f) km um) [].
Proof.
  intros Hf.
  assert (Hq : rq_ok rq_new).
  { assert (queue_ok (FixedQueue.new MAX_THREADS)) by (exists []; split; [by apply FixedQueue.fq_rep_new|constructor]).
    by split. }
  split; split; cbn -[array_of]; try (by apply arr_of); try (by apply alen_array_of).
  exists (fun _ => []), []. split_and!; [done|done|]. intros b Hb. by apply not_elem_of_nil in Hb.
Qed.

Lemma kinv_put_process p0 Fs (k : kernel) own p pr :
  kinv p0 Fs k own -> table_wf (cap_table pr) -> kinv p0 Fs (put_process k p pr) own.
Proof.
  intros [? ? [] ?] Hw. split; try done. split; try done.
  by apply (arr_set MAX_PROCESSES (opt (fun p => table_wf (cap_table p)))).
Qed.

Lemma demo_kernel_frames_ok : pools_disjoint Demo.p0 /\ frames_inv Demo.p0 Demo.Fs (demo_frames, fun _ => []).
Proof.
  pose proof (pools_init_inv demo_mem 0x40000000 0x40040000 demo_config (0x40014000, 0x40016000) (0, 0) 64 demo_mem_ok
    ltac:(by constructor) ltac:(by constructor)) as H.
  unfold Demo.Fs, Demo.p0, demo_frames. fold demo_pools in H. destruct demo_pools as [pp mm]. apply H.
  - unfold zone_ok. cbn [fst snd]. split_and!; [lia|reflexivity|reflexivity].
  - unfold zone_ok. cbn [fst snd]. split_and!; [lia|reflexivity|reflexivity].
Qed.

Lemma demo_base_kinv : kinv Demo.p0 Demo.Fs Demo.base [].
Proof.
  unfold Demo.base. cbv zeta. do 2 (apply kinv_put_process; [|apply table_new_wf]).
  assert (Ht : forall tid p, 0 <= p -> thread_ok (Demo.thread tid p)) by (intros tid p Hp; split; [by split_and!|done]).
  pose proof (boot_kinv _ _ demo_frames (fun _ => 0) (fun _ => 0) (proj2 demo_kernel_frames_ok)) as Hb.
  apply (kinv_thread _ _ 0 (Demo.thread 0 0)) in Hb; [|by apply Ht].
  apply (kinv_thread _ _ 1 (Demo.thread 1 1)) in Hb; [|by apply Ht].
  destruct Hb as [[] ? ? ?]. split; try done. split; try done.
  by do 2 (apply (arr_set MAX_CORES (opt tid_ok)); [|done]).
Qed.

Lemma spec_setup : spec Demo.p0 Demo.Fs Demo.setup (fun _ => True).
Proof.
  unfold Demo.setup. repeat (eapply spec_bind; [first [apply spec_grant_to_process|apply spec_channel_create|
    apply spec_shared_memory_create, demo_kernel_frames_ok|by apply spec_shared_memory_share]|intros ? _]). by apply spec_ret.
Qed.

Lemma demo_start_kinv : kinv Demo.p0 Demo.Fs Demo.start [].
Proof.
  unfold Demo.start. destruct (run Demo.env0 Demo.setup Demo.base) as [[k a]|] eqn:E; [|exact demo_base_kinv].
  exact (proj1 (spec_result Demo.setup (fun _ => True) Demo.env0 Demo.base [] k a demo_env0_ok spec_setup
    demo_base_kinv E)).
Qed.

(** ** Safety of all runs *)


(** C2: In every run, each step of the system leaves the message queue of a
    live channel alone, appends one message to a queue that was not full, or
    removes the oldest message: messages are neither lost, duplicated nor
    reordered while the channel lives. *)
Theorem channel_queues_fifo p0 Fs (k : kernel) jobs pool k1 cfg id q q' :
  pools_disjoint p0 -> kinv p0 Fs k [] -> Forall job_ok jobs ->
  rtc pool_step (map job_act jobs, k) (pool, k1) -> pool_step (pool, k1) cfg ->
  0 <= id -> queue_of k1 id = Some q -> queue_of cfg.2 id = Some q' ->
  q' = q \/ (exists m, alen q < RING_CAPACITY /\ q' = q ++ [m]) \/ exists m, q = m :: q'.
Proof.
  intros Hd Hk Hj Hr Hs Hid Hq Hq'. pose proof (pool_ok_reach _ _ Hr (pool_ok_start k jobs Hd Hk Hj)) as Hp.
  destruct (pool_safe_step _ _ (kinv_perm p0 Fs) chan_step_refl _ _ _ Hs Hp) as [_ Hg]. specialize (Hg id Hid). cbn [snd] in Hg.
  rewrite Hq, Hq' in Hg. inversion Hg; subst; eauto.
Qed.

(** ** Memory *)

Lemma violates_wx_mono a b : flags_contains a b = true -> violates_wx a = false -> violates_wx b = false.
Proof.
  unfold violates_wx, flags_contains. rewrite !Z.eqb_neq, Z.eqb_eq. intros Hab Ha Hb. apply Ha.
  rewrite <-Hb at 1. rewrite Z.land_assoc, Hab. exact Hb.
Qed.

Lemma live_disjoint_lookup L i j b b' :
  live_disjoint L -> L !! i = Some b -> L !! j = Some b' -> i <> j -> disj b.1 b.2 b'.1 b'.2.
Proof.
  revert i j. induction L as [|[a k] L IH]; intros i j HL Hi Hj Hne; [done|]. destruct HL as [Hd HL]. rewrite Forall_forall in Hd.
  destruct i as [|i], j as [|j]; cbn in Hi, Hj; simplify_eq.
  - apply Hd. by eapply list_elem_of_lookup_2.
  - apply disj_sym, Hd. by eapply list_elem_of_lookup_2.
  - apply (IH i j); [done..|congruence].
Qed.

Lemma kinv_apart p0 Fs (k : kernel) own : pools_disjoint p0 -> kinv p0 Fs k own -> blocks_apart k.
Proof.
  intros Hd [_ _ _ [_ _ Hf]] i j b b' Hi Hj Hne. destruct (frame_alloc k) as [f|]; cbn in Hf.
  - destruct Hf as (Ls & rest & HI & HL & _). assert (Hb : b ∈ Ls PoolUser).
    { rewrite HL, elem_of_app. left. by eapply list_elem_of_lookup_2. }
    destruct b as [a o]. destruct (live_pool _ _ Hd f Ls PoolUser a o HI Hb) as (b0 & bb & fl & _ & _ & _ & Hs & _).
    apply (live_disjoint_lookup (recorded k ++ map fst own ++ rest) i j); [|by apply lookup_app_l_Some..|done].
    eapply live_disjoint_perm; [exact HL|apply Hs].
  - destruct Hf as [Hn _]. by rewrite Hn in Hi.
Qed.

(** C3: In every state that a run of the kernel reaches, the blocks behind
    shared regions and private mappings never overlap; a shared region's
    reference count is the number of its mappings, a process maps it at most
    once, and neither the region nor any mapping of it is both writable and
    executable.  A private mapping records no permissions; a request for one
    with write and execute is refused and touches nothing. *)
Theorem user_memory_sound p0 Fs (k : kernel) jobs pool k' :
  pools_disjoint p0 -> kinv p0 Fs k [] -> Forall job_ok jobs ->
  rtc pool_step (map job_act jobs, k) (pool, k') ->
  blocks_apart k' /\
  (forall r, r ∈ occupied (regions k') ->
    ref_count r = alen (occupied (mappings r)) /\ NoDup (map m_pid (occupied (mappings r))) /\
    violates_wx (max_flags r) = false /\
    forall m, m ∈ occupied (mappings r) -> violates_wx (m_flags m) = false) /\
  forall p size flags, violates_wx flags = true -> memory_map p size flags = Ret (Err (ipc_code Einval)).
Proof.
  intros Hd Hk Hj Hr. destruct (pool_ok_inv _ _ (pool_ok_reach _ _ Hr (pool_ok_start k jobs Hd Hk Hj))) as [own Hk'].
  split; [by eapply kinv_apart|]. split.
  - intros r Hin. destruct Hk' as [_ _ _ [Ht _ _]].
    pose proof (table_occupied _ _ _ Ht) as Ho. rewrite Forall_forall in Ho. destruct (Ho r Hin).
    split_and!; try done. intros m Hm. eapply violates_wx_mono; [by apply ro_flags|done].
  - intros p size flags Hwx. unfold memory_map. by rewrite Hwx.
Qed.

(** ** Witnesses *)

Module DemoRun.
Definition regs (nr x0 x1 x2 x3 : Z) : list Z := [x0; x1; x2; x3; 0; 0; 0; 0; nr] ++ array_of 22 0.
(** Thread 0 sends four bytes on channel 0 while thread 1 receives, the timer
    fires and user code stores. *)
Definition jobs : list job :=
  [SyscallJob 0x8000 (regs 1 0 0x400000 4 0); SyscallJob 0x9000 (regs 2 0 0x500000 16 0); TimerJob 2;
   UserStore 0x400000 [1; 2; 3; 4]].
Definition schedule0 : list (nat * env) :=
  [(3%nat, Demo.env0); (0%nat, Demo.env0); (1%nat, Demo.env1); (0%nat, Demo.env0); (2%nat, Demo.env1);
   (0%nat, Demo.env0); (1%nat, Demo.env1); (0%nat, Demo.env0); (2%nat, Demo.env0); (0%nat, Demo.env0);
   (0%nat, Demo.env0)].
Definition reached : list (act kernel unit) * kernel :=
  match pool_run schedule0 (map job_act jobs) Demo.start with Some c => c | None => ([], Demo.start) end.
Definition sent : list (act kernel unit) * kernel :=
  match pool_run [(0%nat, Demo.env0)] reached.1 reached.2 with Some c => c | None => ([], Demo.start) end.
End DemoRun.

Lemma demo_regs_ok nr x0 x1 x2 x3 :
  uint 64 nr -> uint 64 x0 -> uint 64 x1 -> uint 64 x2 -> uint 64 x3 -> Forall (uint 64) (DemoRun.regs nr x0 x1 x2 x3).
Proof. intros. apply Forall_app. split; [|by apply Forall_replicate]. by do 9 (apply Forall_cons; split; [done|]). Qed.

Lemma demo_jobs_ok : Forall job_ok DemoRun.jobs.
Proof. repeat constructor; try done; cbn; apply demo_regs_ok; done. Qed.

Lemma demo_sched_ok : Forall (fun p => env_ok p.2) DemoRun.schedule0.
Proof. repeat (apply Forall_cons; split; [by apply demo_env_ok|]). constructor. Qed.

Lemma demo_reached : rtc pool_step (map job_act DemoRun.jobs, Demo.start) DemoRun.reached.
Proof.
  assert (H : match pool_run DemoRun.schedule0 (map job_act DemoRun.jobs) Demo.start with Some _ => true | None => false end = true)
    by (vm_compute; reflexivity).
  unfold DemoRun.reached. destruct (pool_run _ _ _) as [[pool k]|] eqn:E; [|discriminate H].
  by eapply pool_run_steps; [apply demo_sched_ok|].
Qed.

Lemma demo_sent : pool_step DemoRun.reached DemoRun.sent.
Proof.
  assert (H : match DemoRun.reached.1 !! 0%nat with
              | Some (Sec f c) => match f Demo.env0 DemoRun.reached.2 with Some _ => true | None => false end
              | _ => false end = true) by (vm_compute; reflexivity).
  unfold DemoRun.sent. cbn [pool_run]. destruct DemoRun.reached as [pool k]. cbn [fst snd] in *.
  destruct (pool !! 0%nat) as [[a|B f c|g m|]|] eqn:Ei; [discriminate H| |discriminate H..].
  destruct (f Demo.env0 k) as [[k' b]|] eqn:Ef; [|discriminate H]. apply (pool_step_sec pool k 0 B f c Demo.env0 k' b); [exact demo_env0_ok|exact Ei|exact Ef].
Qed.


Lemma demo_queues :
  queue_of DemoRun.reached.2 0 = Some [] /\ queue_of DemoRun.sent.2 0 = Some [message 0 [1; 2; 3; 4]].
Proof. split; vm_compute; reflexivity. Qed.

Lemma channel_queues_fifo_witness :
  exists q', queue_of DemoRun.sent.2 0 = Some q' /\
    (q' = [] \/ (exists m, alen (@nil RawMessage) < RING_CAPACITY /\ q' = [] ++ [m]) \/ exists m, [] = m :: q').
Proof.
  exists [message 0 [1; 2; 3; 4]]. split; [exact (proj2 demo_queues)|].
  pose proof demo_reached as Hr. pose proof demo_sent as Hs. pose proof demo_queues as [Hq Hq'].
  destruct DemoRun.reached as [pool k1].
  exact (channel_queues_fifo Demo.p0 Demo.Fs Demo.start DemoRun.jobs pool k1 DemoRun.sent 0 [] [message 0 [1; 2; 3; 4]]
    (proj1 demo_kernel_frames_ok) demo_start_kinv demo_jobs_ok Hr Hs ltac:(lia) Hq Hq').
Defined.

Lemma user_memory_sound_witness :
  rtc pool_step (map job_act DemoRun.jobs, Demo.start) DemoRun.reached /\ blocks_apart DemoRun.reached.2.
Proof.
  split; [exact demo_reached|]. pose proof demo_reached as Hr. destruct DemoRun.reached as [pool k'].
  exact (proj1 (user_memory_sound Demo.p0 Demo.Fs Demo.start DemoRun.jobs pool k' (proj1 demo_kernel_frames_ok)
    demo_start_kinv demo_jobs_ok Hr)).
Defined.
