(* ===== verification/SyscallProps.v ===== *)
(** * What a system call returns

    A system call that runs alone returns, waits for its thread to be
    dispatched again, or stops.  The handlers without a context switch are
    shown to return whenever the user buffer they copy is accessible. *)

From S2P Require Import Prelude Collections Abi Capability PhysMem Memory Buddy BuddyInv BuddyInit BuddySystem Pools Paging.
From S2P Require Import Act Task Sched KernelCap Channels Notify Ipc Shmem Process Syscall KernelInv KernelLogic SchedSafe ChannelSafe.
From S2P Require Import IpcSafe MemSafe SyscallSafe KernelProps.
Local Open Scope act_scope.

(** ** Calls that may switch threads *)

(** [IpcCall], [IpcRecv], [IpcReply], [IpcSelect], [NotificationWait],
    [ProcessWait] and [TimeSleep]. *)
Definition switches (nr : Z) : bool := existsb (Z.eqb nr) [0; 2; 3; 5; 12; 25; 27].

(** The user buffer that one of the other calls copies: whether it is written,
    its address and its length. *)
Definition user_buffer (x : list Z) : bool * Z * Z :=
  let nr := reg x 8 in
  if nr =? 1 then (false, reg x 1, reg x 2)
  else if nr =? 17 then (true, reg x 0, reg x 1 * 8)
  else if (nr =? 29) || (nr =? 30) then (false, reg x 0, reg x 1)
  else (false, 0, 0).

Definition buffer_accessible (e : env) (x : list Z) : bool :=
  let '(w, a, n) := user_buffer x in accessible e w a n.

(** ** Handlers without a switch *)

Lemma accessible_sub e w a n a' n' :
  a <= a' -> a' + n' <= a + n -> accessible e w a' n' = false -> accessible e w a n = false.
Proof.
  intros Ha Hn. rewrite <-!not_true_iff_false. intros Hf Ht. apply Hf. revert Ht. unfold accessible. rewrite !forallb_forall.
  intros H x Hx%list_elem_of_In. apply elem_of_seqZ in Hx. apply H, list_elem_of_In, elem_of_seqZ. lia.
Qed.

Section straight.
Context (P : Prop) (e : env).

(** Goes along the calls of an operation. *)
Ltac straight_go :=
  repeat match goal with
  | |- straight _ _ (Ret _) => exact Logic.I
  | |- straight _ _ (ret _) => exact Logic.I
  | |- straight _ _ (atomic _) => apply straight_atomic
  | |- straight _ _ (reads _) => apply straight_atomic
  | |- straight _ _ (reads_opt _) => apply straight_atomic
  | |- straight _ _ (updates _) => apply straight_atomic
  | |- straight _ _ (updates_opt _) => apply straight_atomic
  | |- straight _ _ here => apply straight_atomic
  | |- straight _ _ (abind _ _) => apply straight_bind; [|intros ?]
  | |- straight _ _ (abind_ok _ _) => apply straight_bind_ok; [|intros ?]
  | |- straight _ _ (abind_ret _ _) => apply straight_bind; [|intros ?]
  | |- straight _ _ (afor _ _) => apply straight_for; intros ?
  | |- straight _ _ (afor_ok _ _) => apply straight_for_ok; intros ?
  | |- straight _ _ (match ?x with _ => _ end) => destruct x
  | |- straight _ _ ?m => let h := head_of m in unfold h
  end
with head_of m := lazymatch m with ?f _ => head_of f | ?f => f end.

Lemma straight_copy_from n a : (accessible e false a n = false -> P) -> straight P e (copy_from_user n a).
Proof.
  intros Ha. unfold copy_from_user. destruct (negb _); [done|]. cbn. intros s s' b.
  destruct (user_reach e n); [|done]. cbn. destruct (accessible e false a n); intros [= <- <-]; [done|by apply Ha].
Qed.

Lemma straight_copy_to a bs : (accessible e true a (alen bs) = false -> P) -> straight P e (copy_to_user a bs).
Proof.
  intros Ha. unfold copy_to_user. destruct (negb _); [done|]. cbn. intros s s' b.
  destruct (user_reach e _); [|done]. cbn. destruct (accessible e true a _); intros [= <- <-]; [done|by apply Ha].
Qed.

Lemma straight_copy_ids ids a : (accessible e true a (8 * alen ids) = false -> P) -> straight P e (copy_ids ids a).
Proof.
  revert a. induction ids as [|i ids IH]; intros a Ha; cbn [copy_ids]; [done|].
  rewrite alen_cons in Ha. pose proof (alen_nonneg ids). apply straight_bind_ok.
  - apply straight_copy_to. assert (El : alen (le_bytes 8 i) = 8) by (unfold alen; by rewrite length_le_bytes). rewrite El.
    intros Hf. apply Ha. revert Hf. apply accessible_sub; lia.
  - intros _. apply IH. intros Hf. apply Ha. revert Hf. apply accessible_sub; lia.
Qed.

Lemma list_loop_length ts n m w : 0 <= w <= m -> alen (list_loop ts n m w) <= m - w.
Proof.
  revert w. induction ts as [|slot ts IH]; intros w Hw; cbn [list_loop]; [rewrite alen_nil; lia|].
  destruct (_ || _) eqn:E; [rewrite alen_nil; lia|]. apply orb_false_iff in E as [E _]. rewrite Z.geb_leb in E. apply Z.leb_gt in E.
  destruct slot as [t|]; [|apply IH; lia]. destruct (negb _); [|apply IH; lia].
  rewrite alen_cons. specialize (IH (w + 1) ltac:(lia)). lia.
Qed.

Lemma straight_abind_ret {A B} (m : act kernel (result Z A)) (f : A -> act kernel (Z * option B)) :
  straight P e m -> (forall a, straight P e (f a)) -> straight P e (abind_ret m f).
Proof. intros Hm Hf. apply straight_bind; [done|]. intros [a|err]; [apply Hf|exact Logic.I]. Qed.

Lemma straight_sys_capability_list x :
  (accessible e true (reg x 0) (reg x 1 * 8) = false -> P) -> 0 <= reg x 1 -> straight P e (sys_capability_list x).
Proof.
  intros Ha Hn. unfold sys_capability_list, with_pid. destruct (negb _); [done|]. apply straight_bind; [straight_go|].
  intros [p|]; [|done]. cbn [abind_ret abind reads atomic straight]. intros s s' b [= <- <-].
  destruct (process_ref s p) as [pr|]; [|done]. cbn [mbind result_bind or_return]. apply straight_bind; [|done].
  apply straight_copy_ids. intros Hf. apply Ha. revert Hf. apply accessible_sub; [lia|].
  pose proof (list_loop_length (tokens (cap_table pr)) MAX_CAPS_PER_PROCESS (Z.min (reg x 1) MAX_CAPS_PER_PROCESS) 0
    ltac:(unfold MAX_CAPS_PER_PROCESS; lia)) as Hl. unfold list_tokens. lia.
Qed.

(** None of the other handlers waits, and only a fault stops it. *)
Lemma straight_handler sp x :
  Forall (uint 64) x -> switches (reg x 8) = false -> (buffer_accessible e x = false -> P) -> straight P e (handler sp x).
Proof.
  intros Hx Hs Hb. pose proof (reg_nonneg x Hx) as Hr. unfold buffer_accessible, user_buffer in Hb.
  unfold switches in Hs. cbn [existsb] in Hs. rewrite !orb_false_iff in Hs.
  destruct Hs as (H0 & H2 & H3 & H5 & H12 & H25 & H27 & _). unfold handler. rewrite H0, H2, H3, H5, H12, H25, H27.
  destruct (Z.eqb_spec (reg x 8) 1) as [E|_].
  { unfold sys_ipc_send, or_return. destruct (id_arg _); [|done]. destruct (_ >? _); [done|].
    apply straight_abind_ret; [by apply straight_copy_from|]. intros bs. straight_go. }
  destruct (Z.eqb_spec (reg x 8) 17) as [E|_].
  { rewrite E. cbn [Z.eqb Pos.eqb]. apply straight_sys_capability_list; [exact Hb|apply Hr]. }
  destruct (Z.eqb_spec (reg x 8) 29) as [E|_].
  { rewrite E. cbn [Z.eqb Pos.eqb]. unfold sys_audit_log. destruct (_ >? _); [done|].
    apply straight_abind_ret; [by apply straight_copy_from|]. intros bs. straight_go. }
  destruct (Z.eqb_spec (reg x 8) 30) as [E|_].
  { rewrite E. cbn [Z.eqb Pos.eqb]. unfold sys_debug_print. destruct (_ >? _); [done|].
    apply straight_abind_ret; [by apply straight_copy_from|done]. }
  clear. repeat match goal with |- straight _ _ (if ?b then _ else _) => destruct b; [straight_go|] end. done.
Qed.
End straight.

(** ** The registers after a call *)

Definition regs_after (x x' : list Z) : Prop :=
  alen x' = alen x /\ (exists r, x'.[0] = Some r /\ uint 64 r) /\ forall i, 2 <= i -> x'.[i] = x.[i].

Lemma regs_after_set x y r :
  0 < alen x -> alen y = alen x -> (forall i, 2 <= i -> y.[i] = x.[i]) -> regs_after x (y.[0 <- wrap 64 r]).
Proof.
  intros Hn Hy Hi. split; [by rewrite alen_aset|]. split.
  - exists (wrap 64 r). split; [apply aget_aset_eq; lia|by apply uint_wrap].
  - intros i H2. rewrite aget_aset_ne by lia. by apply Hi.
Qed.

Lemma spec_dispatch_regs p0 Fs sp x :
  pools_disjoint p0 -> Forall (uint 64) x -> 0 < alen x -> spec p0 Fs (syscall_dispatch sp x) (regs_after x).
Proof.
  intros Hd Hx Hn. eapply spec_bind; [by apply spec_handler|]. intros [r o] _. apply spec_ret. cbn [fst snd].
  destruct o as [v|]; apply regs_after_set; try done; [by rewrite alen_aset|]. intros i H2. by rewrite aget_aset_ne by lia.
Qed.

Lemma straight_dispatch e sp x :
  Forall (uint 64) x -> switches (reg x 8) = false -> straight (buffer_accessible e x = false) e (syscall_dispatch sp x).
Proof. intros Hx Hs. apply straight_bind; [by apply straight_handler|done]. Qed.


(** ** Witness *)

