(* ===== verification/SchedProps.v ===== *)
(** * What the scheduler does

    The run queues against a specification of priority queues, and the effect
    of waking a thread. *)

From S2P Require Import Prelude Collections Abi Capability PhysMem Memory Buddy BuddyInv BuddySystem Pools Paging.
From S2P Require Import Act Task Sched KernelCap Channels Shmem KernelInv KernelLogic SchedSafe KernelProps.
Local Open Scope act_scope.

(** ** Run queues *)

(** The specification of a CPU's run queue: a FIFO list per class, the highest
    non-empty class first. *)
Module ReadyQueue.
Definition t := SchedulerClass -> list Z.
Definition new : t := fun _ => [].
Definition order : list SchedulerClass := [RealTime; Interactive; Normal; Idle].
Definition set (q : t) (c : SchedulerClass) (l : list Z) : t := fun d => if decide (d = c) then l else q d.
Definition enqueue (q : t) (tid : Z) (c : SchedulerClass) : t := set q c (Fifo.push MAX_THREADS (q c) tid).2.
Fixpoint pick (cs : list SchedulerClass) (q : t) : option Z * t :=
  match cs with
  | [] => (None, q)
  | c :: cs' => match q c with [] => pick cs' q | x :: l => (Some x, set q c l) end
  end.
Definition listing (q : t) : list (Z * SchedulerClass) := concat (map (fun c => map (fun x => (x, c)) (q c)) order).
End ReadyQueue.

Inductive rq_op := RqEnqueue (tid : Z) (c : SchedulerClass) | RqPick.

(** The threads picked by a sequence of operations, and the final queue. *)
Definition rq_step (rq : RunQueue) (o : rq_op) : list (option Z) * RunQueue :=
  match o with RqEnqueue tid c => ([], enqueue rq tid c) | RqPick => let '(r, q) := pick_next rq in ([r], q) end.
Definition ready_step (q : ReadyQueue.t) (o : rq_op) : list (option Z) * ReadyQueue.t :=
  match o with
  | RqEnqueue tid c => ([], ReadyQueue.enqueue q tid c)
  | RqPick => let '(r, q') := ReadyQueue.pick ReadyQueue.order q in ([r], q')
  end.
Fixpoint run_ops {Q} (step : Q -> rq_op -> list (option Z) * Q) (os : list rq_op) (q : Q) : list (option Z) * Q :=
  match os with
  | [] => ([], q)
  | o :: os' => let '(out, q') := step q o in let '(outs, q2) := run_ops step os' q' in (out ++ outs, q2)
  end.

Record rq_rep (rq : RunQueue) (q : ReadyQueue.t) : Prop := {
  rep_rt : FixedQueue.rep MAX_THREADS (rt rq) (q RealTime);
  rep_interactive : FixedQueue.rep MAX_THREADS (interactive rq) (q Interactive);
  rep_normal : FixedQueue.rep MAX_THREADS (normal rq) (q Normal);
  rep_idle : FixedQueue.rep MAX_THREADS (idle rq) (q Idle)
}.

Lemma fq_pop_cases (q : SchedQueue) l : FixedQueue.rep MAX_THREADS q l ->
  match l with
  | [] => exists q', FixedQueue.pop_front MAX_THREADS q = (None, q') /\ FixedQueue.rep MAX_THREADS q' []
  | x :: l' => exists q', FixedQueue.pop_front MAX_THREADS q = (Some x, q') /\ FixedQueue.rep MAX_THREADS q' l'
  end.
Proof.
  intros Hr. destruct (FixedQueue.fq_rep_pop MAX_THREADS eq_refl q l Hr) as [E Hr'].
  destruct (FixedQueue.pop_front MAX_THREADS q) as [r q'], l; cbn in *; subst; eauto.
Qed.

(** One class of [pick_next]: pop it, or go on with the next one. *)
Local Ltac pick_class H q c :=
  let q' := fresh "q" in let P := fresh "P" in
  pose proof (fq_pop_cases _ _ H) as P;
  destruct (q c) eqn:?; destruct P as (q' & -> & P).

Lemma rq_rep_step rq q o : rq_rep rq q ->
  (rq_step rq o).1 = (ready_step q o).1 /\ rq_rep (rq_step rq o).2 (ready_step q o).2.
Proof.
  intros [H1 H2 H3 H4]. destruct o as [tid c|]; cbn.
  - split; [done|].
    pose proof (fun q l H => proj2 (FixedQueue.fq_rep_push MAX_THREADS eq_refl q l tid H)) as Hp.
    destruct c; split; cbn; unfold ReadyQueue.enqueue, ReadyQueue.set; repeat case_decide; try done; auto.
  - unfold pick_next. pick_class H1 q RealTime; [pick_class H2 q Interactive; [pick_class H3 q Normal; [pick_class H4 q Idle|]|]|];
      cbn; (split; [done|]); split; unfold ReadyQueue.set; cbn; repeat case_decide; congruence.
Qed.

Lemma run_ops_rep os rq q : rq_rep rq q ->
  (run_ops rq_step os rq).1 = (run_ops ready_step os q).1 /\
  rq_rep (run_ops rq_step os rq).2 (run_ops ready_step os q).2.
Proof.
  revert rq q. induction os as [|o os IH]; intros rq q Hr; cbn [run_ops]; [done|].
  destruct (rq_rep_step rq q o Hr) as [E Hr']. destruct (rq_step rq o) as [out rq'], (ready_step q o) as [out' q'].
  cbn [fst snd] in *. destruct (IH rq' q' Hr') as [E2 Hr2].
  destruct (run_ops rq_step os rq') as [outs rq2], (run_ops ready_step os q') as [outs' q2]. cbn [fst snd] in *. by subst.
Qed.

Lemma rq_rep_new : rq_rep rq_new ReadyQueue.new.
Proof. split; by apply FixedQueue.fq_rep_new. Qed.

(** C22: A CPU's run queue (four circular buffers) implements a priority queue:
    after any sequence of enqueues and picks, the threads picked are those of
    the specification, which serves the classes from RealTime down to Idle
    and each class first in, first out, and [for_each] lists what is left in
    that order. *)
Theorem run_queue_refines os :
  (run_ops rq_step os rq_new).1 = (run_ops ready_step os ReadyQueue.new).1 /\
  queued (run_ops rq_step os rq_new).2 = ReadyQueue.listing (run_ops ready_step os ReadyQueue.new).2.
Proof.
  destruct (run_ops_rep os _ _ rq_rep_new) as [E [H1 H2 H3 H4]]. split; [done|].
  unfold queued, ReadyQueue.listing. cbn [ReadyQueue.order map concat].
  pose proof (FixedQueue.iter_spec (T := Z) MAX_THREADS eq_refl ltac:(done)) as Hi.
  rewrite (Hi _ _ H1), (Hi _ _ H2), (Hi _ _ H3), (Hi _ _ H4).
  by rewrite app_nil_r.
Qed.

(** ** Waking a thread *)

(** Waking a blocked thread makes it runnable with a fresh time slice and
    puts it at the end of its class's queue on a CPU its affinity allows (the
    waking one if possible); nothing else changes.  Waking a running or
    runnable thread does nothing, so a thread is never queued twice. *)
Theorem unblock_effect p0 Fs own e (k : kernel) tid t :
  kinv p0 Fs k own -> env_ok e -> 0 <= tid -> thread_at k tid = Some (Some t) ->
  exists k', run e (unblock tid) k = Some (k', tt) /\
    match state (sched t) with
    | Running | Runnable => k' = k
    | _ =>
        let cpu := wake_target (affinity (sched t)) (core_id e) in
        let t' := with_sched t (fun s => se_slice (default_slice (effective_class s)) (se_state Runnable s)) in
        (forall c, 0 <= c < MAX_CORES -> cpuset_contains (affinity (sched t)) c = true ->
           cpuset_contains (affinity (sched t)) cpu = true) /\
        exists rq, (run_queues k).[cpu] = Some rq /\
          k' = put_queue (put_thread k tid t') cpu (enqueue rq tid (effective_class (sched t)))
    end.
Proof.
  intros Hk He Ht Hx. unfold unblock. rewrite run_bind. cbn [run atomic]. unfold unblock_table. rewrite Hx. cbn [mjoin option_join].
  assert (Haff : forall c, 0 <= c < MAX_CORES -> cpuset_contains (affinity (sched t)) c = true ->
    cpuset_contains (affinity (sched t)) (wake_target (affinity (sched t)) (core_id e)) = true).
  { intros c Hc Hin. unfold wake_target. destruct (cpuset_contains _ (core_id e)) eqn:E; [done|].
    destruct (List.find _ _) as [c'|] eqn:Ef; [by apply find_some in Ef as [_ ?]|].
    assert (Hc' : In c (seqZ 0 MAX_CORES)) by (apply list_elem_of_In, elem_of_seqZ; lia).
    pose proof (find_none _ _ Ef c Hc') as Hn. cbn in Hn. congruence. }
  destruct (queue_get k own (wake_target (affinity (sched t)) (core_id e)) Hk) as (rq & Hrq & _).
  { apply wake_target_range, He. }
  destruct (state (sched t)); try (by exists k);
    (rewrite run_bind; cbn [run here atomic enqueue_on_cpu updates_opt]; eexists; split;
     [change (run_queues (put_thread k tid ?x)) with (run_queues k); cbn; rewrite Hrq; reflexivity|]; split; [done|]; by exists rq).
Qed.

(** ** Witnesses *)

(** Thread 1 of the demo system waits for a message. *)
Definition demo_blocked : kernel :=
  put_thread Demo.start 1 (with_sched (Demo.thread 1 1) (se_state (BlockedIpc 0))).

Lemma demo_blocked_kinv : kinv Demo.p0 Demo.Fs demo_blocked [].
Proof. apply kinv_thread; [apply demo_start_kinv|]. by split; [split|]. Qed.

Lemma unblock_effect_witness :
  exists k', run Demo.env0 (unblock 1) demo_blocked = Some (k', tt) /\
    exists rq, k' = put_queue (put_thread demo_blocked 1 (with_sched (with_sched (Demo.thread 1 1) (se_state (BlockedIpc 0)))
      (fun s => se_slice (default_slice (effective_class s)) (se_state Runnable s)))) 0 (enqueue rq 1 Normal).
Proof.
  destruct (unblock_effect Demo.p0 Demo.Fs [] Demo.env0 demo_blocked 1
    (with_sched (Demo.thread 1 1) (se_state (BlockedIpc 0))) demo_blocked_kinv) as (k' & E & _ & rq & _ & Hk).
  - by constructor.
  - lia.
  - vm_compute. reflexivity.
  - exists k'. split; [exact E|]. exists rq. exact Hk.
Defined.
