(* ===== verification/IpcProps.v ===== *)
(** * What the kernel operations do

    The effect of scheduler, capability and IPC operations when they run
    without interference: access control, message transfer, notification
    delivery, wake-ups and priority inheritance. *)

From S2P Require Import Prelude Collections Abi Capability PhysMem Memory Buddy BuddyInv BuddyInit BuddySystem Pools Paging.
From S2P Require Import Act Task Sched KernelCap Channels Notify Ipc Shmem Process Syscall KernelInv KernelLogic SchedSafe ChannelSafe.
From S2P Require Import IpcSafe MemSafe SyscallSafe KernelProps SchedProps.
Local Open Scope act_scope.

(** ** Access control *)

(** The process of a thread, and whether a thread may use a channel. *)
Definition thread_pid (k : kernel) (tid : Z) : option Z := t ← mjoin (thread_at k tid); owner_pid t.
Definition may_access (k : kernel) (tid channel : Z) : bool :=
  match thread_pid k tid with
  | Some p =>
      match process_ref k p with
      | Ok pr => has_capability (cap_table pr) (ChannelAccess channel) (tick_count k)
      | Err _ => false
      end
  | None => false
  end.

Section access.
Context (e : env) (k : kernel) (tid : Z).
Context (Hcur : (current_thread k).[core_id e] = Some (Some tid)).

Lemma run_current : run e current_thread_id k = Some (k, Some tid).
Proof using Hcur. unfold current_thread_id. cbn. by rewrite Hcur. Qed.

Lemma run_thread_access ch : 0 <= ch < MAX_CHANNELS ->
  run e (thread_access tid ch) k = Some (k, if may_access k tid ch then Ok tt else Err (ipc_code Eperm)).
Proof.
  intros Hch. unfold thread_access, may_access. rewrite run_bind. cbn [run process_of_thread reads atomic].
  fold (thread_pid k tid). destruct (thread_pid k tid) as [p|]; [|done].
  unfold check_channel_access, channel_index. destruct (Z.ltb_spec ch MAX_CHANNELS); [|lia].
  unfold check_access. rewrite run_bind. cbn [run tick_now reads atomic].
  destruct (process_ref k p) as [pr|]; [|done]. cbn. by destruct (has_capability _ _ _).
Qed.
End access.

(** The check of [ipc_select] stops at a channel the thread may not use. *)
Lemma run_check_entries e (k : kernel) tid chs :
  (forall ch, ch ∈ chs -> 0 <= ch < MAX_CHANNELS) -> (exists ch, ch ∈ chs /\ may_access k tid ch = false) ->
  forall p, thread_pid k tid = Some p ->
  run e (afor_ok chs (check_channel_access p)) k = Some (k, Err (ipc_code Eperm)).
Proof.
  intros Hr Hd p Hp. induction chs as [|ch chs IH]; [by destruct Hd as (? & ?%not_elem_of_nil & _)|].
  assert (Hc : run e (check_channel_access p ch) k =
    Some (k, if may_access k tid ch then Ok tt else Err (ipc_code Eperm))).
  { pose proof (run_thread_access e k tid ch ltac:(apply Hr, elem_of_cons; by left)) as H. unfold thread_access in H.
    rewrite run_bind in H. cbn [run process_of_thread reads atomic] in H. fold (thread_pid k tid) in H. by rewrite Hp in H. }
  cbn [afor_ok]. rewrite run_bind_ok, Hc. destruct (may_access k tid ch) eqn:Ea; [|done]. apply IH.
  - intros c Hin. apply Hr, elem_of_cons. by right.
  - destruct Hd as (c & [->|?]%elem_of_cons & Hf); [congruence|by exists c].
Qed.

Lemma elem_of_select_channels ch es : ch ∈ select_channels es <-> SelChannel ch ∈ es.
Proof.
  unfold select_channels. rewrite list_elem_of_omap. split.
  - intros ([c|n m] & Hin & E); cbn in E; by simplify_eq.
  - intros H. by exists (SelChannel ch).
Qed.

(** C19: A thread whose process holds no live [ChannelAccess] token for a
    channel gets [EPERM] from each of the six operations that require one
    (call, send, receive, cancel, destroy, and a select that names the
    channel), and the kernel state does not change at all.  [ipc_reply]
    requires none: it answers the pending caller of the channel. *)
Theorem channel_access_denied e (k : kernel) tid ch buf ptr n t es :
  (current_thread k).[core_id e] = Some (Some tid) -> 0 <= ch < MAX_CHANNELS -> may_access k tid ch = false ->
  thread_pid k tid <> None -> alen buf <= MAX_MESSAGE_SIZE ->
  SelChannel ch ∈ es -> alen es <= MAX_SELECT_ENTRIES -> forallb entry_in_range es = true -> Forall entry_nonneg es ->
  run e (ipc_call ch buf ptr n t) k = Some (k, ipc_code Eperm) /\
  run e (ipc_send ch buf) k = Some (k, ipc_code Eperm) /\
  run e (ipc_recv ch n t) k = Some (k, Err (ipc_code Eperm)) /\
  run e (ipc_cancel ch) k = Some (k, ipc_code Eperm) /\
  run e (channel_destroy ch) k = Some (k, Err (ipc_code Eperm)) /\
  run e (ipc_select es t) k = Some (k, Err (ipc_code Eperm)).
Proof.
  intros Hcur Hch Hm Hp Hb Hin Hlen Hrange Hnn. destruct (thread_pid k tid) as [p|] eqn:Ep; [clear Hp|done].
  pose proof (run_current e k tid Hcur) as Hc. pose proof (run_thread_access e k tid ch Hch) as Ha. rewrite Hm in Ha.
  assert (Hpid : run e current_process_id k = Some (k, Some p)).
  { unfold current_process_id. rewrite run_bind, Hc. cbn. by rewrite <-Ep. }
  assert (Hcheck : run e (check_channel_access p ch) k = Some (k, Err (ipc_code Eperm))).
  { unfold thread_access in Ha. rewrite run_bind in Ha. cbn [run process_of_thread reads atomic] in Ha.
    fold (thread_pid k tid) in Ha. by rewrite Ep in Ha. }
  assert (Hsize : (alen buf >? MAX_MESSAGE_SIZE) = false) by lia.
  split_and!.
  - unfold ipc_call. rewrite Hsize, run_bind, Hc. cbn [fst snd]. by rewrite run_bind, Ha.
  - unfold ipc_send. rewrite Hsize, run_bind, Hc. cbn [fst snd]. by rewrite run_bind, Ha.
  - unfold ipc_recv. rewrite run_bind, Hc. cbn [fst snd]. by rewrite run_bind_ok, Ha.
  - unfold ipc_cancel. rewrite run_bind, Hpid. cbn [fst snd]. by rewrite run_bind, Hcheck.
  - unfold channel_destroy. rewrite run_bind, Hpid. cbn [fst snd]. by rewrite run_bind_ok, Hcheck.
  - unfold ipc_select. rewrite run_bind, Hc. cbv beta iota.
    destruct es as [|e0 es]; [by apply not_elem_of_nil in Hin|]. rewrite Hrange.
    destruct ((alen (e0 :: es) =? 0) || (alen (e0 :: es) >? MAX_SELECT_ENTRIES)) eqn:E.
    { apply orb_true_iff in E. rewrite alen_cons in *. pose proof (alen_nonneg es). lia. }
    cbn [negb]. rewrite run_bind_ok. unfold check_channel_entries.
    pose proof (proj2 (elem_of_select_channels ch (e0 :: es)) Hin) as Hsel.
    destruct (select_channels (e0 :: es)) as [|c0 cs] eqn:Es; [by apply not_elem_of_nil in Hsel|].
    rewrite run_bind. cbn [run process_of_thread reads atomic]. fold (thread_pid k tid). rewrite Ep.
    rewrite (run_check_entries e k tid); [done| |by exists ch|done].
    intros c Hin'. rewrite <-Es, elem_of_select_channels in Hin'. rewrite Forall_forall in Hnn. specialize (Hnn _ Hin').
    rewrite forallb_forall in Hrange. apply list_elem_of_In in Hin'. specialize (Hrange _ Hin'). cbn in Hnn, Hrange.
    unfold channel_index in Hrange. destruct (Z.ltb_spec c MAX_CHANNELS); [lia|done].
Qed.

(** ** Messages *)

Lemma run_send_open e (k : kernel) own p0 Fs tid ch buf c :
  kinv p0 Fs k own -> (current_thread k).[core_id e] = Some (Some tid) -> 0 <= ch < MAX_CHANNELS ->
  may_access k tid ch = true -> alen buf <= MAX_MESSAGE_SIZE ->
  channel_ref k ch = Ok c -> ch_dead c = false -> waiting_receiver c = None -> alen (ring_list (ring c)) < RING_CAPACITY ->
  exists r, ring_push (ring c) (message tid buf) = (true, r) /\
    ring_list r = ring_list (ring c) ++ [message tid buf] /\
    run e (ipc_send ch buf) k = Some (put_channel k ch (Some (ch_set_receiver (ch_set_ring c r) None)), 0).
Proof.
  intros Hk Hcur Hch Ha Hb Hc Hd Hw Hq. destruct (channel_ref_Ok _ _ _ _ Hk (proj1 Hch) Hc) as (Hok & _ & _).
  destruct (co_ring _ Hok) as (l & Hl & _). rewrite (mring_rep_list _ _ Hl) in *.
  destruct (mring_rep_push _ _ (message tid buf) Hl) as [Hp1 Hp2]. unfold Fifo.push in Hp1, Hp2.
  destruct (Z.geb_spec (alen l) RING_CAPACITY); [lia|]. cbn in Hp1, Hp2.
  destruct (ring_push (ring c) (message tid buf)) as [b r] eqn:Er. cbn in Hp1, Hp2. subst b. exists r.
  split; [done|]. split; [by apply mring_rep_list|].
  unfold ipc_send. destruct (Z.gtb_spec (alen buf) MAX_MESSAGE_SIZE); [lia|].
  rewrite run_bind, (run_current e k tid Hcur). cbv beta iota. rewrite run_bind, (run_thread_access e k tid ch Hch), Ha.
  cbv beta iota. rewrite run_bind. cbn [run atomic]. unfold send_table. rewrite Hc, Hd, Er. cbn [negb]. rewrite Hw. done.
Qed.

Lemma delivered_message s buf n :
  alen buf <= MAX_MESSAGE_SIZE -> 0 <= n ->
  delivered (message s buf) n = Some (take (Z.to_nat (Z.min (alen buf) n)) buf, s).
Proof.
  intros Hb Hn. pose proof (alen_nonneg buf) as H0. pose proof (message_ok s buf Hb) as [Hd _].
  unfold delivered. rewrite Hd. cbn [message msg_len msg_sender]. destruct (Z.leb_spec (Z.min (alen buf) n) MAX_MESSAGE_SIZE); [|lia].
  do 2 f_equal. cbn [message msg_data]. unfold copy_at. rewrite take_0. cbn [app]. apply take_app_le.
  unfold alen in *. lia.
Qed.

Lemma channel_ref_put (k : kernel) ch c c' :
  0 <= ch -> channel_ref k ch = Ok c -> channel_ref (put_channel k ch (Some c')) ch = Ok c'.
Proof.
  intros Hch. unfold channel_ref, channel_slot. destruct (channel_index ch) as [i|] eqn:Ei; [|done].
  unfold channel_index in Ei. destruct (_ <? _); [|done]. injection Ei as <-. cbn.
  destruct ((channels k).[ch]) as [o|] eqn:Eo; [|done]. rewrite aget_aset_eq; [done|].
  unfold aget in Eo. apply lookup_lt_Some in Eo. unfold alen. lia.
Qed.

Lemma queue_of_ref (k : kernel) ch c : 0 <= ch -> channel_ref k ch = Ok c -> queue_of k ch = Some (ring_list (ring c)).
Proof.
  intros Hch. unfold channel_ref, channel_slot, channel_index, queue_of. destruct (_ <? _); [|done]. cbn.
  destruct (mjoin _) as [x|]; [|done]. cbn. congruence.
Qed.

(** C20: A message sent on an idle open channel is queued, and a receiver that
    may use the channel gets exactly the bytes sent, cut to its buffer, and
    the sender's thread id; the queue is empty again afterwards. *)
Theorem send_recv_roundtrip e1 e2 (k : kernel) own p0 Fs s r ch buf n t c :
  kinv p0 Fs k own -> 0 <= ch < MAX_CHANNELS ->
  (current_thread k).[core_id e1] = Some (Some s) -> (current_thread k).[core_id e2] = Some (Some r) ->
  may_access k s ch = true -> may_access k r ch = true ->
  channel_ref k ch = Ok c -> ch_dead c = false -> waiting_receiver c = None -> ring_list (ring c) = [] ->
  alen buf <= MAX_MESSAGE_SIZE -> 0 <= n ->
  exists k1 k2,
    run e1 (ipc_send ch buf) k = Some (k1, 0) /\ queue_of k1 ch = Some [message s buf] /\
    run e2 (ipc_recv ch n t) k1 = Some (k2, Ok (take (Z.to_nat (Z.min (alen buf) n)) buf, s)) /\
    queue_of k2 ch = Some [].
Proof.
  intros Hk Hch Hs Hr Has Har Hc Hd Hw Hq Hb Hn.
  destruct (run_send_open e1 k own p0 Fs s ch buf c) as (rg & Hpush & Hrg & Hsend); [done..|by rewrite Hq|].
  rewrite Hq in Hrg. cbn in Hrg. set (c1 := ch_set_receiver (ch_set_ring c rg) None) in *.
  set (k1 := put_channel k ch (Some c1)) in *. assert (Hc1 : channel_ref k1 ch = Ok c1) by (eapply channel_ref_put; [lia|done]).
  destruct (channel_ref_Ok _ _ _ _ Hk (proj1 Hch) Hc) as (Hok & _ & _). destruct (co_ring _ Hok) as (l & Hl & _).
  rewrite (mring_rep_list _ _ Hl) in Hq. subst l.
  destruct (mring_rep_push _ _ (message s buf) Hl) as [_ Hp]. rewrite Hpush in Hp.
  destruct (mring_rep_pop _ _ Hp) as [Hpop Hp']. cbn [fst snd] in *. change (Fifo.push RING_CAPACITY [] (message s buf)).2 with [message s buf] in *.
  cbn [Fifo.pop fst snd] in Hpop, Hp'. destruct (ring_pop rg) as [m rg'] eqn:Epop. cbn in Hpop, Hp'. subst m.
  exists k1, (put_channel k1 ch (Some (ch_set_ring c1 rg'))). split_and!.
  - exact Hsend.
  - rewrite (queue_of_ref k1 ch c1) by (lia || done). by rewrite <-Hrg.
  - unfold ipc_recv. rewrite run_bind, (run_current e2 k1 r Hr). cbv beta iota.
    rewrite run_bind_ok, (run_thread_access e2 k1 r ch Hch). change (may_access k1 r ch) with (may_access k r ch). rewrite Har.
    rewrite run_bind_ok. cbn [run atomic]. unfold recv_table. rewrite Hc1.
    change (ch_dead c1) with (ch_dead c). rewrite Hd. change (ring c1) with rg. rewrite Epop.
    by rewrite delivered_message.
  - rewrite (queue_of_ref _ ch (ch_set_ring c1 rg')) by (lia || by eapply channel_ref_put; [lia|]).
    cbn. f_equal. by apply mring_rep_list.
Qed.

(** ** Notifications *)

Lemma clear_bits_testbit w m i : 0 <= i < 64 -> Z.testbit (clear_bits w m) i = Z.testbit w i && negb (Z.testbit m i).
Proof. intros Hi. unfold clear_bits. by rewrite Z.land_spec, unot_spec. Qed.

Lemma clear_bits_land w m x : Z.land w x = 0 -> Z.land (clear_bits w m) x = 0.
Proof.
  intros H. unfold clear_bits. rewrite <-Z.land_assoc, (Z.land_comm _ x), Z.land_assoc, H. apply Z.land_0_l.
Qed.

Lemma uint_clear_bits w m : uint 64 w -> 0 <= m -> uint 64 (clear_bits w m).
Proof. intros Hw Hm. unfold clear_bits. rewrite Z.land_comm. apply uint_land; [|done]. by apply Z.lxor_nonneg. Qed.

(** How many of the words have bit [i]. *)
Definition holders (i : Z) (ws : list Z) : nat := length (List.filter (fun b => Z.testbit b i) ws).

Lemma signal_scan_spec ws w : uint 64 w ->
  let '(r, w', wake) := signal_scan ws w in
  uint 64 w' /\
  (forall i, 0 <= i < 64 -> holders i (w' :: map snd wake) = if Z.testbit w i then 1%nat else 0%nat) /\
  (forall m, Z.land w m = 0 -> Z.land w' m = 0) /\
  Forall (fun x => Z.land w' (w_mask x) = 0) (occupied r) /\
  Forall (fun y => y.2 <> 0 /\ exists x, x ∈ occupied ws /\ w_tid x = y.1 /\ Z.land y.2 (w_mask x) = y.2) wake /\
  map w_tid (occupied ws) ≡ₚ map w_tid (occupied r) ++ map fst wake.
Proof.
  revert w. induction ws as [|[x|] ws IH]; intros w Hw; cbn [signal_scan].
  - split_and!; try done; [|constructor..]. intros i _. unfold holders. cbn. by destruct (Z.testbit w i).
  - destruct (Z.eqb_spec (Z.land w (w_mask x)) 0) as [E|E]; cbn [negb].
    + specialize (IH w Hw). destruct (signal_scan ws w) as [[r w'] wake]. destruct IH as (H1 & H2 & H3 & H4 & H5 & H6).
      split_and!; try done; rewrite ?occupied_cons_Some.
      * constructor; [by apply H3|done].
      * eapply Forall_impl; [exact H5|]. intros y (Hn & z & Hz & Hr). split; [done|]. exists z. split; [by right|done].
      * cbn. by rewrite H6.
    + set (m := Z.land w (w_mask x)) in *. specialize (IH (clear_bits w m) (uint_clear_bits w m Hw ltac:(subst m; apply Z.land_nonneg; left; apply Hw))).
      destruct (signal_scan ws (clear_bits w m)) as [[r w'] wake]. destruct IH as (H1 & H2 & H3 & H4 & H5 & H6).
      split_and!; try done; rewrite ?occupied_cons_Some, ?occupied_cons_None.
      * intros i Hi. specialize (H2 i Hi). rewrite clear_bits_testbit in H2 by done.
        assert (Hm : Z.testbit m i = true -> Z.testbit w i = true) by (subst m; rewrite Z.land_spec; by intros [? _]%andb_true_iff).
        unfold holders in *. cbn [map List.filter snd] in *.
        destruct (Z.testbit w i), (Z.testbit m i), (Z.testbit w' i); cbn in *; naive_solver.
      * intros y Hy. by apply H3, clear_bits_land.
      * constructor.
        -- split; [done|]. exists x. split; [by left|]. split; [done|]. cbn. subst m. by rewrite <-Z.land_assoc, Z.land_diag.
        -- eapply Forall_impl; [exact H5|]. intros y (Hn & z & Hz & Hr). split; [done|]. exists z. split; [by right|done].
      * cbn. rewrite H6. apply Permutation_middle.
  - specialize (IH w Hw). destruct (signal_scan ws w) as [[r w'] wake]. by rewrite !occupied_cons_None.
Qed.

(** A signal gives each bit that becomes set to at most one waiter and
    keeps it set if there is none: the bits of the new word and of the woken
    threads partition the old word's bits and the signalled ones.  A woken
    thread gets a non-empty part of its mask, a waiter that stays has none of
    its bits set, and every waiter is either kept or woken. *)
Theorem signal_partitions_bits e (k : kernel) id bits n :
  (notifications k).[id] = Some (Some n) -> uint 64 (word n) -> uint 64 bits ->
  exists n' wake,
    signal_table id bits e k = Some (put_notif k id (Some n'), Ok wake) /\
    (forall i, 0 <= i < 64 ->
       holders i (word n' :: map snd wake) = if Z.testbit (Z.lor (word n) bits) i then 1%nat else 0%nat) /\
    Forall (fun x => Z.land (word n') (w_mask x) = 0) (occupied (waiters n')) /\
    Forall (fun y => y.2 <> 0 /\ exists x, x ∈ occupied (waiters n) /\ w_tid x = y.1 /\ Z.land y.2 (w_mask x) = y.2) wake /\
    map w_tid (occupied (waiters n)) ≡ₚ map w_tid (occupied (waiters n')) ++ map fst wake.
Proof.
  intros Hn Hw Hb. unfold signal_table. rewrite Hn. cbn [mbind option_bind].
  pose proof (signal_scan_spec (waiters n) (Z.lor (word n) bits) (uint_lor 64 _ _ ltac:(done) Hw Hb)) as H.
  destruct (signal_scan _ _) as [[ws w] wake]. destruct H as (_ & H2 & _ & H4 & H5 & H6).
  eexists _, _. split; [reflexivity|]. cbn [with_waiters with_word word waiters]. by split_and!.
Qed.

(** ** Priority inheritance *)

Lemma thread_at_put (k : kernel) tid t u x :
  0 <= tid -> 0 <= u -> thread_at k tid = Some x ->
  thread_at (put_thread k tid t) u = if decide (u = tid) then Some (Some t) else thread_at k u.
Proof.
  intros Ht Hu Hx. unfold thread_at, put_thread in *. cbn. case_decide as E.
  - subst. apply aget_aset_eq. unfold aget in Hx. apply lookup_lt_Some in Hx. unfold alen. lia.
  - by apply aget_aset_ne; lia.
Qed.

(** C23: A direct switch lends the caller's scheduling class and remaining time
    slice to the receiver, which then runs in the higher class of the two; the
    reply switch takes them back: the receiver has its own class and priority
    and no inheritance, and the caller runs again with the time slice it
    had. *)
Theorem priority_lent_and_returned e (k : kernel) s r ts tr :
  0 <= s -> 0 <= r -> s <> r -> thread_at k s = Some (Some ts) -> thread_at k r = Some (Some tr) ->
  is_blocked_ipc tr = true -> effective_class (sched tr) = class (sched tr) ->
  0 <= inheritance_depth ts <= MAX_INHERITANCE_DEPTH ->
  exists k1 tr1 k2 tr2 ts2,
    direct_table s r e k = Some (k1, true) /\ thread_at k1 r = Some (Some tr1) /\
    class_rank (effective_class (sched tr1)) = Z.max (class_rank (effective_class (sched ts))) (class_rank (class (sched tr))) /\
    time_slice_remaining (sched tr1) = time_slice_remaining (sched ts) /\
    reply_table r s e k1 = Some (k2, Some (class (sched tr))) /\
    thread_at k2 r = Some (Some tr2) /\ thread_at k2 s = Some (Some ts2) /\
    effective_class (sched tr2) = class (sched tr) /\ effective_priority (sched tr2) = priority (sched tr) /\
    inherited_class (sched tr2) = None /\ inherited_priority (sched tr2) = None /\
    state (sched ts2) = Running /\ time_slice_remaining (sched ts2) = time_slice_remaining (sched ts).
Proof.
  intros Hs Hr Hne Es Er Hb Heff Hd. unfold direct_table. rewrite Es, Er. cbn [mjoin option_join]. rewrite Hb.
  unfold inherit. destruct (checked_add 8 (inheritance_depth ts) 1) as [d|] eqn:Ed.
  2: { apply checked_add_None in Ed. unfold MAX_INHERITANCE_DEPTH in *. lia. }
  cbn [mbind option_bind]. set (tr1 := with_depth _ _). set (k0 := put_thread k r tr1).
  assert (Es0 : thread_at k0 s = Some (Some ts)) by (unfold k0; rewrite (thread_at_put k r tr1 s _ Hr Hs Er), decide_False; done).
  assert (Er0 : thread_at k0 r = Some (Some tr1)) by (unfold k0; by rewrite (thread_at_put k r tr1 r _ Hr Hr Er), decide_True).
  rewrite Es0. cbn [mjoin option_join]. set (ts1 := with_sched ts _). set (k1 := put_thread k0 s ts1).
  assert (Es1 : thread_at k1 s = Some (Some ts1)) by (unfold k1; by rewrite (thread_at_put k0 s ts1 s _ Hs Hs Es0), decide_True).
  assert (Er1 : thread_at k1 r = Some (Some tr1)) by (unfold k1; rewrite (thread_at_put k0 s ts1 r _ Hs Hr Es0), decide_False; congruence).
  exists k1, tr1. unfold reply_table. rewrite Er1, Es1. cbn [mjoin option_join].
  change (is_blocked_ipc ts1) with true. cbv iota zeta.
  set (ra := with_depth (with_sched tr1 _) _). set (ka := put_thread k1 r ra).
  assert (Era : thread_at ka r = Some (Some ra)) by (unfold ka; by rewrite (thread_at_put k1 r ra r _ Hr Hr Er1), decide_True).
  assert (Esa : thread_at ka s = Some (Some ts1)) by (unfold ka; rewrite (thread_at_put k1 r ra s _ Hr Hs Er1), decide_False; congruence).
  rewrite Era, Esa. cbn [mjoin option_join mbind option_bind].
  set (sb := with_sched ts1 _). set (kb := put_thread ka s sb).
  assert (Erb : thread_at kb r = Some (Some ra)) by (unfold kb; rewrite (thread_at_put ka s sb r _ Hs Hr Esa), decide_False; congruence).
  assert (Esb : thread_at kb s = Some (Some sb)) by (unfold kb; by rewrite (thread_at_put ka s sb s _ Hs Hs Esa), decide_True).
  rewrite Erb. cbn [mjoin option_join mbind option_bind]. set (rc := with_sched ra _). set (kc := put_thread kb r rc).
  assert (Erc : thread_at kc r = Some (Some rc)) by (unfold kc; by rewrite (thread_at_put kb r rc r _ Hr Hr Erb), decide_True).
  assert (Esc : thread_at kc s = Some (Some sb)) by (unfold kc; rewrite (thread_at_put kb r rc s _ Hr Hs Erb), decide_False; congruence).
  rewrite Erc. cbn [mjoin option_join mbind option_bind]. exists kc, rc, sb.
  assert (Hcls : class (sched tr1) = class (sched tr) /\ priority (sched tr1) = priority (sched tr)).
  { subst tr1. cbn. by destruct (outranks _ _). }
  split_and!; try done; subst rc ra sb tr1 ts1; cbn; try (by destruct (outranks _ _)).
  - unfold outranks. cbn. destruct (Z.gtb_spec (class_rank (effective_class (sched ts))) (class_rank (class (sched tr)))); cbn; [lia|].
    rewrite Heff. lia.
Qed.

(** ** Revocation *)

(** What a wake-up leaves alone. *)
Definition same_tables (k k' : kernel) : Prop := channels k' = channels k /\ k_proc k' = k_proc k /\ k_mem k' = k_mem k.
#[local] Instance same_tables_preorder : PreOrder same_tables.
Proof. split; unfold same_tables; [done|]. intros x y z (-> & -> & ->) (-> & -> & ->). done. Qed.

Lemma wake_same_tables tid err : steps_in same_tables (wake_with_error tid err).
Proof.
  assert (H : forall e (k k' : kernel) b, unblock_table tid e k = Some (k', b) -> same_tables k k').
  { intros e k k' b. unfold unblock_table. destruct (mjoin (thread_at k tid)) as [t|]; cbn; [|intros; simplify_eq; by repeat split].
    destruct (state (sched t)); intros; simplify_eq; by repeat split. }
  unfold wake_with_error, clear_timeout, unblock. repeat apply steps_in_bind; try intros []; cbn; split; try done.
  - intros e k k' b. destruct (_ .[_]); cbn; intros; simplify_eq; by repeat split.
  - intros e k k' b. destruct (lock_busy e); [intros; simplify_eq; by repeat split|]. destruct (_ .[_]); cbn; intros; simplify_eq; by repeat split.
  - intros _. split; [exact H|]. intros [[c aff]|]; [|done]. cbn. split; [intros; simplify_eq; by repeat split|]. intros cpu. split; [|done].
    intros e k k' b. destruct (_ .[_]); cbn; intros; simplify_eq; by repeat split.
Qed.

Lemma destroy_prompt e ch : prompt e (channel_destroy_unchecked ch).
Proof.
  apply straight_bind_ok; [done|]. intros c. apply straight_bind; [|done]. apply straight_for. intros tid.
  apply straight_bind; [done|]. intros _. apply straight_bind; [done|]. intros _. apply straight_bind; [done|].
  by intros [[c' aff]|].
Qed.

(** The effect on the channel table. *)
Lemma run_destroy p0 Fs own e (k : kernel) ch : kinv p0 Fs k own -> env_ok e -> 0 <= ch ->
  exists k' r, run e (channel_destroy_unchecked ch) k = Some (k', r) /\ kinv p0 Fs k' own /\
    k_proc k' = k_proc k /\ (ch < alen (channels k) -> channels k' = (channels k).[ch <- None]).
Proof.
  intros Hk He Hch. pose proof (spec_channel_destroy_unchecked (p0 := p0) (Fs := Fs) ch Hch) as Hs.
  destruct (spec_run _ _ e k own He (destroy_prompt e ch) Hs Hk) as (k' & r & E & Hk' & _).
  exists k', r. split; [done|]. split; [done|].
  unfold channel_destroy_unchecked in E. rewrite run_bind_ok in E. cbn [run atomic] in E. unfold take_channel in E.
  destruct (channel_ref k ch) as [c|err] eqn:Ec.
  - rewrite run_bind in E. destruct (run e (wake_all _ _) _) as [[k2 []]|] eqn:Ew; [|done].
    apply (steps_in_run same_tables) in Ew as (Hc & Hp & _); [|apply _|apply steps_in_for; intros; apply wake_same_tables].
    cbn in E. simplify_eq. split; [by rewrite Hp|]. intros _. by rewrite Hc.
  - simplify_eq. split; [done|]. intros Hlt. unfold channel_ref, channel_slot, channel_index in Ec.
    pose proof (ii_channels _ (ki_ipc _ _ _ _ Hk)) as [Hn _]. rewrite Hn in Hlt. destruct (Z.ltb_spec ch MAX_CHANNELS); [|lia].
    destruct (aget_is_Some (channels k') ch) as [o Eo]; [lia|]. rewrite Eo in Ec. destruct o; [done|].
    symmetry. by apply list_insert_id.
Qed.

(** The slot of every listed channel is emptied. *)
Lemma run_destroy_all p0 Fs own e ids : env_ok e -> forall k : kernel, kinv p0 Fs k own ->
  Forall (fun id => 0 <= id < alen (channels k)) ids ->
  exists k', run e (afor ids (fun id => channel_destroy_unchecked id ;;; Ret tt)) k = Some (k', tt) /\
    kinv p0 Fs k' own /\ k_proc k' = k_proc k /\
    forall i, 0 <= i -> (channels k').[i] = if decide (i ∈ ids) then Some None else (channels k).[i].
Proof.
  intros He. induction ids as [|id ids IH]; intros k Hk Hids; cbn [afor].
  { by exists k. }
  apply Forall_cons in Hids as [Hid Hids]. rewrite run_bind, run_bind.
  destruct (run_destroy p0 Fs own e k id Hk He ltac:(lia)) as (k1 & r & -> & Hk1 & Hp1 & Hc1). specialize (Hc1 ltac:(lia)).
  cbn [run]. destruct (IH k1 Hk1) as (k2 & -> & Hk2 & Hp2 & Hc2).
  { by rewrite Hc1, alen_aset. }
  exists k2. split_and!; try done; [by rewrite Hp2|]. intros i Hi. rewrite Hc2, Hc1 by done.
  destruct (decide (i ∈ ids)) as [Hin|Hin]; [by rewrite decide_True by set_solver|].
  destruct (decide (i = id)) as [->|Hne]; [rewrite decide_True by set_solver; by apply aget_aset_eq|].
  rewrite decide_False by set_solver. by apply aget_aset_ne; lia.
Qed.

Lemma elem_of_channels_of_cap (k : kernel) token i :
  0 <= i -> i ∈ channels_of_cap k token <-> exists c, (channels k).[i] = Some (Some c) /\ creation_cap c = Some token.
Proof.
  intros Hi. unfold channels_of_cap. rewrite list_elem_of_fmap. unfold aget. split.
  - intros (j & -> & Hj). rewrite Nat2Z.id. apply list_elem_of_In, filter_In in Hj as [_ Hj].
    destruct (channels k !! j) as [[c|]|]; cbn in Hj; try done. apply bool_decide_eq_true in Hj. eauto.
  - intros (c & Hc & Ht). exists (Z.to_nat i). split; [lia|]. apply list_elem_of_In, filter_In. rewrite Hc. cbn.
    split; [apply in_seq; apply lookup_lt_Some in Hc; lia|by apply bool_decide_eq_true].
Qed.

(** C21: Revoking a token in a process revokes it and its descendants in the
    process's table and destroys exactly the channels created under the token
    itself.  So a channel created under a descendant survives, although the
    descendant is revoked with it; docs/security/model/capabilities.md and
    docs/phases/03-ipc-and-capability-system.md want the channels of every
    revoked token destroyed. *)
Theorem revoke_destroys_channels p0 Fs own e (k : kernel) p token pr :
  kinv p0 Fs k own -> env_ok e -> 0 <= p -> process_ref k p = Ok pr ->
  exists k' pr', run e (revoke_in_process p token) k = Some (k', Ok tt) /\
    process_ref k' p = Ok pr' /\ cap_table pr' = revoke (cap_table pr) token /\
    forall i, 0 <= i -> (channels k').[i] =
      match (channels k).[i] with
      | Some (Some c) => Some (if bool_decide (creation_cap c = Some token) then None else Some c)
      | o => o
      end.
Proof.
  intros Hk He Hp Hpr. unfold revoke_in_process. unfold process_ref, process_slot in Hpr.
  destruct (process_index p) as [idx|] eqn:Ei; [|done]. pose proof (process_index_Some _ _ Ei) as [-> Hlt].
  destruct (mjoin ((processes k).[p])) as [x|] eqn:Ex; [|done]. simplify_eq.
  rewrite run_bind. cbn [run updates atomic]. unfold process_slot. rewrite Ei, Ex.
  set (pr1 := with_cap_table pr (revoke (cap_table pr) token)). set (k1 := put_process k p pr1).
  assert (Hk1 : kinv p0 Fs k1 own).
  { apply kinv_put_process; [done|]. apply revoke_wf. apply (process_ref_wf (p0 := p0) (Fs := Fs) k own p); [done|].
    unfold process_ref, process_slot. by rewrite Ei, Ex. }
  unfold revoke_channels_for_cap. rewrite !run_bind. cbn [run reads atomic].
  destruct (run_destroy_all p0 Fs own e (channels_of_cap k1 token) He k1 Hk1) as (k2 & -> & Hk2 & Hp2 & Hc2).
  { unfold channels_of_cap. apply Forall_map, Forall_forall. intros i Hi%list_elem_of_In. apply filter_In in Hi as [Hi _].
    apply in_seq in Hi. unfold alen. lia. }
  cbn [run]. exists k2, pr1. split_and!; [done| |done|].
  - unfold process_ref, process_slot. rewrite Ei, Hp2. cbn. rewrite aget_aset_eq; [done|].
    destruct Hk as [_ _ [[Hn _] _ _ _ _] _]. lia.
  - intros i Hi. rewrite Hc2 by done. change (channels k1) with (channels k).
    pose proof (elem_of_channels_of_cap k1 token i Hi) as Hin. change (channels k1) with (channels k) in Hin.
    destruct (decide (i ∈ channels_of_cap k1 token)) as [Hd|Hd].
    + apply Hin in Hd as (c & -> & Ht). by rewrite bool_decide_eq_true_2.
    + destruct ((channels k).[i]) as [[c|]|]; try done. rewrite bool_decide_eq_false_2; [done|].
      intros Ht. apply Hd, Hin. eauto.
Qed.

(** ** Witnesses *)

Lemma channel_access_denied_witness :
  run Demo.env0 (ipc_send 5 [1; 2]) Demo.start = Some (Demo.start, ipc_code Eperm).
Proof.
  refine (proj1 (proj2 (channel_access_denied Demo.env0 Demo.start 0 5 [1; 2] 0 0 0 [SelChannel 5] _ _ _ _ _ _ _ _ _))).
  - vm_compute. reflexivity.
  - by split.
  - vm_compute. reflexivity.
  - vm_compute. discriminate.
  - vm_compute. discriminate.
  - apply elem_of_cons. by left.
  - vm_compute. discriminate.
  - reflexivity.
  - constructor; [cbn; lia|constructor].
Defined.

Definition demo_channel : Channel :=
  match channel_ref Demo.start 0 with Ok c => c | Err _ => channel_new 0 0 end.

Lemma send_recv_roundtrip_witness :
  exists k1 k2, run Demo.env0 (ipc_send 0 [7; 8; 9]) Demo.start = Some (k1, 0) /\
    run Demo.env1 (ipc_recv 0 2 0) k1 = Some (k2, Ok ([7; 8], 0)).
Proof.
  destruct (send_recv_roundtrip Demo.env0 Demo.env1 Demo.start [] Demo.p0 Demo.Fs 0 1 0 [7; 8; 9] 2 0 demo_channel demo_start_kinv)
    as (k1 & k2 & H1 & _ & H2 & _).
  1: by split.
  1-8: vm_compute; reflexivity.
  - vm_compute. discriminate.
  - lia.
  - exists k1, k2. split; [exact H1|exact H2].
Defined.

(** A notification with bit 4 set and two waiters. *)
Definition demo_notif : NotificationObject :=
  mk_notif 0 4 0 ([Some (mk_waiter 0 3); Some (mk_waiter 1 1)] ++ array_of (MAX_WAITERS_PER_NOTIFICATION - 2) None).
Definition demo_notified : kernel := put_notif Demo.start 0 (Some demo_notif).

Lemma signal_partitions_bits_witness :
  exists n' wake, signal_table 0 1 Demo.env0 demo_notified = Some (put_notif demo_notified 0 (Some n'), Ok wake) /\
    map w_tid (occupied (waiters demo_notif)) ≡ₚ map w_tid (occupied (waiters n')) ++ map fst wake.
Proof.
  destruct (signal_partitions_bits Demo.env0 demo_notified 0 1 demo_notif) as (n' & wake & E & _ & _ & _ & Hp).
  - vm_compute. reflexivity.
  - by split.
  - by split.
  - exists n', wake. split; [exact E|exact Hp].
Defined.

Lemma priority_lent_and_returned_witness :
  exists k1 k2, direct_table 0 1 Demo.env0 demo_blocked = Some (k1, true) /\
    reply_table 1 0 Demo.env0 k1 = Some (k2, Some Normal).
Proof.
  destruct (priority_lent_and_returned Demo.env0 demo_blocked 0 1 (Demo.thread 0 0)
    (with_sched (Demo.thread 1 1) (se_state (BlockedIpc 0)))) as (k1 & tr1 & k2 & tr2 & ts2 & H1 & _ & _ & _ & H2 & _).
  1-3: lia.
  1-4: vm_compute; reflexivity.
  - cbn. unfold MAX_INHERITANCE_DEPTH. lia.
  - exists k1, k2. split; [exact H1|exact H2].
Defined.

Definition demo_proc0 : ProcessControl := match process_ref Demo.start 0 with Ok p => p | Err _ => Demo.proc 0 end.

Lemma revoke_destroys_channels_witness :
  exists k', run Demo.env0 (revoke_in_process 0 1) Demo.start = Some (k', Ok tt) /\ (channels k').[0] = Some None.
Proof.
  destruct (revoke_destroys_channels Demo.p0 Demo.Fs [] Demo.env0 Demo.start 0 1 demo_proc0 demo_start_kinv)
    as (k' & pr' & E & _ & _ & Hc).
  - exact demo_env0_ok.
  - lia.
  - vm_compute. reflexivity.
  - exists k'. split; [exact E|]. rewrite (Hc 0) by lia. vm_compute. reflexivity.
Defined.
