(* ===== verification/Text.v ===== *)
(** * Byte text: number output (shared/src/tripwire.rs) and line splitting
    (tools/src/cmd/soak/awk.rs)

    Text is a list of bytes.  The kernel writes numbers without a buffer
    ([put_dec], [put_hex]); the soak tool splits lines into fields
    ([fields]) and looks for markers ([find_bytes]). *)

From S2P Require Import Prelude.
From stdpp Require Import strings.
Local Open Scope Z_scope.

(** The bytes of an ASCII literal. *)
Definition text (s : string) : list Z :=
  (fun a => Z.of_nat (Ascii.nat_of_ascii a)) <$> String.list_ascii_of_string s.

Definition is_ascii_digit (b : Z) : bool := (48 <=? b) && (b <=? 57).
Definition is_blank (b : Z) : bool := (b =? 32) || (b =? 9).

(** ** Numbers *)

(** The largest power of 10 not above [v], or 1: at most 20 turns, since
    10^20 overflows. *)
Fixpoint dec_div (fuel : nat) (v div : Z) : Z :=
  match fuel with
  | O => div
  | S fuel' =>
      match checked_mul 64 div 10 with
      | Some next => if next >? v then div else dec_div fuel' v next
      | None => div
      end
  end.

Fixpoint dec_digits (fuel : nat) (v div : Z) : list Z :=
  match fuel with
  | O => []
  | S fuel' =>
      let digit := (if div =? 0 then 0 else v / div) mod 10 in
      wrap 8 (48 + wrap 8 digit) :: (if div <=? 1 then [] else dec_digits fuel' v (div / 10))
  end.

Definition put_dec (v : Z) : list Z := dec_digits 20 v (dec_div 20 v 1).

Definition hex_digit (nibble : Z) : Z :=
  if nibble <? 10 then wrap 8 (48 + nibble) else wrap 8 (97 + wrapping_sub 8 nibble 10).

Fixpoint hex_digits (fuel : nat) (v shift : Z) : list Z :=
  match fuel with
  | O => []
  | S fuel' =>
      hex_digit (Z.land (Z.shiftr v shift) 15) ::
        (if shift =? 0 then [] else hex_digits fuel' v (wrapping_sub 32 shift 4))
  end.

Definition put_hex (v : Z) : list Z := text "0x" ++ hex_digits 16 v 60.

(** [str::parse::<usize>] of a string of ASCII digits. *)
Definition dec_val (l : list Z) : Z := foldl (fun acc d => acc * 10 + (d - 48)) 0 l.
Definition parse_usize (l : list Z) : option Z :=
  match l with
  | [] => None
  | _ => if forallb is_ascii_digit l && (dec_val l <? 2 ^ 64) then Some (dec_val l) else None
  end.

(** ** Splitting and searching *)

(** [slice::split]: one piece more than there are separators. *)
Fixpoint split_on (sep : Z -> bool) (l : list Z) : list (list Z) :=
  match l with
  | [] => [[]]
  | x :: l' =>
      if sep x then [] :: split_on sep l'
      else match split_on sep l' with p :: ps => (x :: p) :: ps | [] => [[x]] end
  end.

Definition non_empty (l : list Z) : bool := match l with [] => false | _ => true end.
Definition fields (line : list Z) : list (list Z) :=
  List.filter non_empty (split_on is_blank line).

Definition windows (k : nat) (l : list Z) : list (list Z) :=
  (fun i => take k (drop i l)) <$> seq 0 (S (length l) - k).

Definition find_bytes (haystack needle : list Z) : option nat :=
  match needle with
  | [] => Some 0%nat
  | _ => position (fun w => bool_decide (w = needle)) (windows (length needle) haystack)
  end.

(** ** Laws of numbers *)

Lemma dec_div_pow fuel v k : 0 <= k ->
  exists j, k <= j <= k + Z.of_nat fuel /\ dec_div fuel v (10 ^ k) = 10 ^ j /\
    (10 ^ k <= Z.max v 1 -> 10 ^ j <= Z.max v 1) /\
    (v < 10 ^ (k + Z.of_nat fuel) -> uint 64 v -> v < 10 ^ (j + 1)).
Proof.
  revert k. induction fuel as [|fuel IH]; intros k Hk.
  - exists k. cbn [dec_div]. rewrite Z.add_0_r. split_and!; [lia|lia|done|done|].
    intros Hv _. rewrite Z.pow_add_r by lia. lia.
  - cbn [dec_div]. unfold checked_mul.
    assert (10 ^ (k + 1) = 10 ^ k * 10) as Hp by (rewrite Z.pow_add_r by lia; lia).
    rewrite <-Hp. destruct (Z.ltb_spec (10 ^ (k + 1)) (2 ^ 64)) as [Hlt|Hge].
    + rewrite Z.gtb_ltb. destruct (Z.ltb_spec v (10 ^ (k + 1))) as [Hv|Hv].
      * exists k. split_and!; [lia|lia|done|done|done].
      * destruct (IH (k + 1)) as (j & Hj & -> & Hle & Hup); [lia|].
        exists j. split_and!; [lia|lia|done| |].
        -- intros _. apply Hle. lia.
        -- replace (k + Z.of_nat (S fuel)) with (k + 1 + Z.of_nat fuel) by lia. exact Hup.
    + exists k. split_and!; [lia|lia|done|done|]. intros _ Hv. unfold uint in Hv. lia.
Qed.

Lemma foldl_dec acc l : foldl (fun acc d => acc * 10 + (d - 48)) acc l = acc * 10 ^ alen l + dec_val l.
Proof.
  unfold dec_val. revert acc. induction l as [|d l IH]; intros acc; cbn [foldl].
  - rewrite alen_nil. lia.
  - rewrite IH, (IH (0 * 10 + (d - 48))), alen_cons, Z.pow_add_r by (try lia; apply alen_nonneg). lia.
Qed.

Lemma dec_val_cons d l : dec_val (d :: l) = (d - 48) * 10 ^ alen l + dec_val l.
Proof. unfold dec_val at 1. cbn [foldl]. rewrite foldl_dec. lia. Qed.

Lemma dec_digits_spec fuel v k : 0 <= v -> 0 <= k < Z.of_nat fuel ->
  Forall (fun d => 48 <= d <= 57) (dec_digits fuel v (10 ^ k)) /\
  alen (dec_digits fuel v (10 ^ k)) = k + 1 /\
  dec_val (dec_digits fuel v (10 ^ k)) = v mod 10 ^ (k + 1).
Proof.
  intros Hv. revert k. induction fuel as [|fuel IH]; intros k Hk; [lia|].
  cbn [dec_digits]. assert (0 < 10 ^ k) as Hp by (apply Z.pow_pos_nonneg; lia).
  rewrite (proj2 (Z.eqb_neq (10 ^ k) 0)) by lia.
  remember ((v / 10 ^ k) mod 10) as d eqn:Ed.
  assert (0 <= d < 10) as Hd by (subst d; apply Z.mod_pos_bound; lia).
  assert (wrap 8 (48 + wrap 8 d) = 48 + d) as ->.
  { rewrite (wrap_small 8 d) by (unfold uint; lia). apply wrap_small. unfold uint. lia. }
  assert (v mod 10 ^ (k + 1) = d * 10 ^ k + v mod 10 ^ k) as Hm.
  { rewrite Z.pow_add_r, Z.pow_1_r by lia. rewrite Z.rem_mul_r by lia. subst d. lia. }
  destruct (Z.eq_dec k 0) as [->|Hk0].
  - change (10 ^ 0 <=? 1) with true. cbv iota. rewrite Hm, dec_val_cons, alen_cons, alen_nil.
    change (10 ^ 0) with 1. rewrite Z.mod_1_r. split_and!; [repeat constructor; lia|lia|].
    unfold dec_val. cbn. lia.
  - assert (10 ^ k = 10 * 10 ^ (k - 1)) as Hp1.
    { replace k with (Z.succ (k - 1)) at 1 by lia. rewrite Z.pow_succ_r by lia. done. }
    assert (0 < 10 ^ (k - 1)) by (apply Z.pow_pos_nonneg; lia).
    rewrite (proj2 (Z.leb_gt (10 ^ k) 1)) by lia.
    replace (10 ^ k / 10) with (10 ^ (k - 1)) by (rewrite Hp1, Z.mul_comm, Z.div_mul; lia).
    destruct (IH (k - 1)) as (HF & Hl & Hval); [lia|]. replace (k - 1 + 1) with k in Hl, Hval by lia.
    split_and!; [constructor; [lia|done]|rewrite alen_cons; lia|].
    rewrite dec_val_cons, Hl, Hval, Hm. lia.
Qed.

(** [put_dec] prints the digits of [v]: between 1 and 20 of them. *)
Lemma put_dec_spec v : uint 64 v ->
  Forall (fun d => 48 <= d <= 57) (put_dec v) /\ 1 <= alen (put_dec v) <= 20 /\ dec_val (put_dec v) = v.
Proof.
  intros Hv. unfold put_dec.
  destruct (dec_div_pow 20 v 0) as (j & Hj & Hdiv & Hle & Hup); [lia|].
  change (10 ^ 0) with 1 in *. rewrite Hdiv.
  assert (10 ^ j <= Z.max v 1) as Hjv by (apply Hle; lia).
  assert (j < 20) as Hj20.
  { apply Z.nle_gt. intros Hge. pose proof (Z.pow_le_mono_r 10 20 j ltac:(lia) Hge). unfold uint in Hv. lia. }
  destruct (dec_digits_spec 20 v j) as (HF & Hl & Hval); [unfold uint in Hv; lia|lia|].
  split_and!; [done|lia|lia|]. rewrite Hval. apply Z.mod_small. split; [unfold uint in Hv; lia|].
  apply Hup; [|done]. unfold uint in Hv. cbn. lia.
Qed.

Lemma put_dec_parse v : uint 64 v -> parse_usize (put_dec v) = Some v.
Proof.
  intros Hv. destruct (put_dec_spec v Hv) as (HF & Hl & Hval). unfold parse_usize.
  assert (forallb is_ascii_digit (put_dec v) = true) as Hd.
  { apply forallb_forall. intros d Hd. apply list_elem_of_In in Hd. rewrite Forall_forall in HF.
    specialize (HF d Hd). unfold is_ascii_digit. lia. }
  destruct (put_dec v) eqn:E; [rewrite alen_nil in Hl; lia|]. rewrite Hd, Hval. unfold uint in Hv.
  by rewrite (proj2 (Z.ltb_lt _ _)) by lia.
Qed.

Lemma put_dec_len v k : uint 64 v -> 0 < k -> v < 10 ^ k -> alen (put_dec v) <= k.
Proof.
  intros Hv Hk Hlt. unfold put_dec. destruct (dec_div_pow 20 v 0) as (j & Hj & Hdiv & Hle & _); [lia|].
  change (10 ^ 0) with 1 in *. rewrite Hdiv. assert (10 ^ j <= Z.max v 1) as Hjv by (apply Hle; lia).
  assert (10 ^ j < 10 ^ k) as Hpow by (pose proof (Z.pow_gt_1 10 k ltac:(lia)) as [H _]; specialize (H Hk); lia).
  apply Z.pow_lt_mono_r_iff in Hpow; [|lia|lia].
  assert (j < 20) as Hj20.
  { apply Z.nle_gt. intros Hge. pose proof (Z.pow_le_mono_r 10 20 j ltac:(lia) Hge). unfold uint in Hv. lia. }
  destruct (dec_digits_spec 20 v j) as (_ & Hl & _); [unfold uint in Hv; lia|lia|]. lia.
Qed.

(** ** Laws of splitting *)

Lemma split_on_cons sep l : exists p ps, split_on sep l = p :: ps.
Proof. destruct l as [|x l]; cbn; [eauto|]. cases; eauto. Qed.

Lemma split_on_sep sep a x b :
  sep x = true -> split_on sep (a ++ x :: b) = split_on sep a ++ split_on sep b.
Proof.
  intros Hx. induction a as [|y a IH]; cbn; [by rewrite Hx|]. rewrite IH.
  destruct (split_on_cons sep a) as (p & ps & ->). by destruct (sep y).
Qed.

Lemma split_on_word sep w : Forall (fun b => sep b = false) w -> split_on sep w = [w].
Proof. induction 1 as [|b w Hb _ IH]; cbn; [done|]. by rewrite Hb, IH. Qed.

Lemma fields_blank a x b : is_blank x = true -> fields (a ++ x :: b) = fields a ++ fields b.
Proof. intros Hx. unfold fields. by rewrite split_on_sep, List.filter_app. Qed.

Lemma fields_word w : w <> [] -> Forall (fun b => is_blank b = false) w -> fields w = [w].
Proof. intros Hw HF. unfold fields. rewrite split_on_word by done. by destruct w. Qed.

(** A line of words, each after a blank. *)
Lemma fields_words ws :
  Forall (fun w => w <> [] /\ Forall (fun b => is_blank b = false) w) ws ->
  fields (concat (map (cons 32) ws)) = ws.
Proof.
  induction 1 as [|w ws [Hw HF] _ IH]; [done|]. cbn [map concat].
  change ((32 :: w) ++ ?r) with ([] ++ 32 :: (w ++ r)). rewrite fields_blank by done.
  destruct ws as [|w' ws'].
  - cbn. rewrite app_nil_r. by rewrite fields_word.
  - cbn [map concat] in IH |- *. change ((32 :: w') ++ ?r) with ([] ++ 32 :: (w' ++ r)) in IH.
    rewrite fields_blank in IH by done. change ((32 :: w') ++ ?r) with (32 :: (w' ++ r)).
    rewrite fields_blank by done. rewrite (fields_word w) by done.
    change (fields []) with (@nil (list Z)) in *. cbn [app] in *. by rewrite IH.
Qed.

(** ** Laws of searching *)

Lemma position_intro {A} (f : A -> bool) l i x :
  l !! i = Some x -> f x = true -> (forall j y, (j < i)%nat -> l !! j = Some y -> f y = false) ->
  position f l = Some i.
Proof.
  revert i. induction l as [|y l IH]; intros i Hi Hx Hb; [done|]. cbn. destruct i as [|i].
  - cbn in Hi. simplify_eq. by rewrite Hx.
  - rewrite (Hb 0%nat y) by (done || lia). rewrite (IH i); [done|done|done|].
    intros j z Hj Hz. apply (Hb (S j)); [lia|done].
Qed.

Lemma find_Some h c n i : find_bytes h (c :: n) = Some i <->
  take (S (length n)) (drop i h) = c :: n /\
  forall j, (j < i)%nat -> take (S (length n)) (drop j h) <> c :: n.
Proof.
  cbn [find_bytes length]. unfold windows.
  assert (forall k w, ((fun i => take (S (length n)) (drop i h)) <$> seq 0 (S (length h) - S (length n))) !! k
    = Some w <-> w = take (S (length n)) (drop k h) /\ (k + S (length n) <= length h)%nat) as Hw.
  { intros k w. rewrite list_lookup_fmap, fmap_Some. setoid_rewrite lookup_seq. split.
    - intros (k' & [-> Hk] & ->). cbn. split; [done|lia].
    - intros [-> Hk]. exists k. split; [cbn; lia|done]. }
  assert (forall k, take (S (length n)) (drop k h) = c :: n -> (k + S (length n) <= length h)%nat) as Hlen.
  { intros k Hk. apply (f_equal length) in Hk. rewrite length_take, length_drop in Hk. cbn [length] in Hk. lia. }
  split.
  - intros (w & Hi & Hd & Hb)%position_Some. apply Hw in Hi as [-> Hi]. apply bool_decide_eq_true in Hd. split; [done|].
    intros j Hj Heq. eapply bool_decide_eq_false; [|exact Heq]. eapply Hb; [exact Hj|]. apply Hw. split; [done|lia].
  - intros [Heq Hb]. eapply position_intro; [apply Hw; split; [done|by apply Hlen]|by apply bool_decide_eq_true|].
    intros j y Hj Hy. apply Hw in Hy as [-> Hy]. apply bool_decide_eq_false. by apply Hb.
Qed.

Lemma find_None h c n : find_bytes h (c :: n) = None ->
  forall j, take (S (length n)) (drop j h) <> c :: n.
Proof.
  cbn [find_bytes length]. rewrite position_None. intros Hn j Hj.
  assert (j + S (length n) <= length h)%nat as Hl.
  { apply (f_equal length) in Hj. rewrite length_take, length_drop in Hj. cbn [length] in Hj. lia. }
  assert (bool_decide (take (S (length n)) (drop j h) = c :: n) = false) as Hd.
  { apply Hn. apply list_elem_of_fmap. exists j. split; [done|]. apply elem_of_seq. lia. }
  by apply bool_decide_eq_false in Hd.
Qed.

(** A marker whose first byte does not recur in it is found where the text
    after [pre] starts, unless [pre] holds it already. *)
Lemma find_marker pre c n rest :
  c ∉ n -> find_bytes pre (c :: n) = None -> find_bytes (pre ++ c :: n ++ rest) (c :: n) = Some (length pre).
Proof.
  intros Hc Hpre. apply find_Some. split.
  - rewrite drop_app_length. cbn [take]. f_equal. by rewrite take_app_length.
  - intros j Hj Heq. apply (find_None _ _ _ Hpre j). rewrite <-Heq. rewrite !drop_app_le by lia.
    destruct (decide (j + S (length n) <= length pre)%nat) as [Hle|Hgt].
    { rewrite (take_app_le (drop j pre)) by (rewrite length_drop; lia). done. }
    exfalso. assert ((c :: n) !! (length pre - j)%nat = Some c) as Hl.
    { rewrite <-Heq. rewrite lookup_take_lt by lia. rewrite drop_app_le by lia. rewrite lookup_app_r by (rewrite length_drop; lia).
      rewrite length_drop. by replace (length pre - j - (length pre - j))%nat with 0%nat by lia. }
    destruct (length pre - j)%nat as [|k] eqn:Ek; [lia|]. cbn in Hl. apply Hc. by eapply list_elem_of_lookup_2.
Qed.
