(* ===== verification/OwnerStamp.v ===== *)
(** * The owner stamp of a lock word (shared/src/lock.rs)

    A held lock word is its holder's stamp: the HELD bit, whether IRQs were
    on, the CPU and the low 54 bits of that CPU's switch generation.  The
    file also has the lock classes. *)

From S2P Require Import Prelude Text.
From stdpp Require Import strings.
Local Open Scope Z_scope.

Definition TID_NONE : Z := 2 ^ 32 - 1.
Definition SCALAR_INDEX : Z := 255.

(** ** [OwnerStamp] *)

Definition HELD : Z := Z.shiftl 1 63.
Definition IRQS_ON : Z := Z.shiftl 1 62.
Definition CPU_SHIFT : Z := 54.
Definition CPU_MASK : Z := Z.shiftl 255 CPU_SHIFT.
Definition GEN_MASK : Z := Z.shiftl 1 CPU_SHIFT - 1.

Definition stamp_new (cpu gen : Z) (irqs_on : bool) : Z :=
  let irqs := if irqs_on then IRQS_ON else 0 in
  Z.lor (Z.lor (Z.lor HELD irqs) (Z.shiftl cpu CPU_SHIFT)) (Z.land gen GEN_MASK).

Definition from_word (word : Z) : option Z :=
  if Z.land word HELD =? 0 then None else if word =? 0 then None else Some word.

Definition stamp_cpu (s : Z) : Z := wrap 8 (Z.shiftr (Z.land s CPU_MASK) CPU_SHIFT).
Definition stamp_gen (s : Z) : Z := Z.land s GEN_MASK.
Definition stamp_irqs_on (s : Z) : bool := negb (Z.land s IRQS_ON =? 0).
Definition gen_matches (s gen : Z) : bool := stamp_gen s =? Z.land gen GEN_MASK.

(** ** [LockClass] *)

Inductive LockClass :=
| ThreadTable | CurrentThread | RunQueues | WakeupErrors | TimeoutQueue | NotifyDeadlines
| NotificationTable | SelectWaiters | BootLog.
#[export] Instance LockClass_eq_dec : EqDecision LockClass.
Proof. solve_decision. Defined.

Definition LOCK_CLASSES : list LockClass :=
  [ThreadTable; CurrentThread; RunQueues; WakeupErrors; TimeoutQueue; NotifyDeadlines;
   NotificationTable; SelectWaiters; BootLog].

Definition lock_class_index (c : LockClass) : Z :=
  match c with
  | ThreadTable => 0 | CurrentThread => 1 | RunQueues => 2 | WakeupErrors => 3 | TimeoutQueue => 4
  | NotifyDeadlines => 5 | NotificationTable => 6 | SelectWaiters => 7 | BootLog => 8
  end.

Definition lock_class_name (c : LockClass) : list Z := text
  match c with
  | ThreadTable => "THREAD_TABLE"
  | CurrentThread => "CURRENT_THREAD"
  | RunQueues => "RUN_QUEUES"
  | WakeupErrors => "WAKEUP_ERRORS"
  | TimeoutQueue => "TIMEOUT_QUEUE"
  | NotifyDeadlines => "NOTIFY_DEADLINES"
  | NotificationTable => "NOTIFICATION_TABLE"
  | SelectWaiters => "SELECT_WAITERS"
  | BootLog => "BOOT_LOG"
  end.

(** ** Laws *)

Lemma lor_low k a b : 0 <= k -> 0 <= b < 2 ^ k -> Z.lor (a * 2 ^ k) b = a * 2 ^ k + b.
Proof.
  intros Hk Hb. rewrite Z.add_nocarry_lxor, Z.lxor_lor; [done| |].
  all: rewrite <-Z.shiftl_mul_pow2 by done; apply Z.bits_inj'; intros i Hi;
    rewrite Z.land_spec, Z.bits_0; destruct (decide (i < k));
    [rewrite Z.shiftl_spec_low by lia; done|].
  all: rewrite (uint_testbit_high k b i); [apply andb_false_r|done|lia].
Qed.

(** A stamp in numbers. *)
Lemma stamp_new_eq cpu gen irqs : uint 8 cpu -> 0 <= gen ->
  stamp_new cpu gen irqs = 2 ^ 63 + (if irqs then 2 ^ 62 else 0) + cpu * 2 ^ 54 + gen mod 2 ^ 54.
Proof.
  intros Hc Hg. unfold stamp_new, HELD, IRQS_ON, GEN_MASK, CPU_SHIFT.
  change (Z.shiftl 1 54) with (2 ^ 54). rewrite land_ones_mod by lia. rewrite !Z.shiftl_mul_pow2 by lia.
  pose proof (Z.mod_pos_bound gen (2 ^ 54) ltac:(lia)) as Hm.
  unfold uint in Hc.
  assert (Z.lor (1 * 2 ^ 63) (if irqs then 1 * 2 ^ 62 else 0) = (if irqs then 3 else 2) * 2 ^ 62) as -> by by destruct irqs.
  assert (Z.lor ((if irqs then 3 else 2) * 2 ^ 62) (cpu * 2 ^ 54) = ((if irqs then 768 else 512) + cpu) * 2 ^ 54) as ->.
  { rewrite (lor_low 62) by lia. destruct irqs; lia. }
  rewrite (lor_low 54) by lia. destruct irqs; lia.
Qed.

Lemma stamp_gen_eq s : stamp_gen s = s mod 2 ^ 54.
Proof. unfold stamp_gen, GEN_MASK, CPU_SHIFT. change (Z.shiftl 1 54) with (2 ^ 54). by rewrite land_ones_mod. Qed.

Lemma gen_matches_eq s gen : gen_matches s gen = (stamp_gen s =? gen mod 2 ^ 54).
Proof.
  unfold gen_matches, GEN_MASK, CPU_SHIFT. change (Z.shiftl 1 54) with (2 ^ 54). by rewrite land_ones_mod.
Qed.

Lemma stamp_cpu_eq s : stamp_cpu s = (s / 2 ^ 54) mod 2 ^ 8.
Proof.
  unfold stamp_cpu, CPU_MASK, CPU_SHIFT, wrap. rewrite Z.shiftr_land, Z.shiftr_shiftl_r by lia.
  change (54 - 54) with 0. rewrite Z.shiftr_0_r, Z.shiftr_div_pow2 by lia. change 255 with (2 ^ 8 - 1).
  rewrite land_ones_mod by lia. by rewrite Z.mod_mod.
Qed.

Lemma land_shift_1 s k : 0 <= k -> (Z.land s (Z.shiftl 1 k) =? 0) = negb (Z.testbit s k).
Proof.
  intros Hk. rewrite Z.shiftl_1_l. destruct (Z.testbit s k) eqn:E; cbn.
  - apply Z.eqb_neq. intros H. assert (Z.testbit (Z.land s (2 ^ k)) k = false) as Hf by by rewrite H, Z.bits_0.
    rewrite Z.land_spec, E, Z.pow2_bits_true in Hf by lia. done.
  - apply Z.eqb_eq. by apply land_pow2_clear.
Qed.

Lemma testbit_div s k : 0 <= k -> Z.testbit s k = Z.odd (s / 2 ^ k).
Proof. intros Hk. by rewrite Z.testbit_odd, Z.shiftr_div_pow2. Qed.

Lemma stamp_irqs_on_eq s : stamp_irqs_on s = Z.testbit s 62.
Proof. unfold stamp_irqs_on, IRQS_ON. by rewrite land_shift_1, negb_involutive. Qed.

Lemma from_word_eq w : from_word w = if Z.testbit w 63 then Some w else None.
Proof.
  unfold from_word, HELD. rewrite land_shift_1 by lia. destruct (Z.testbit w 63) eqn:E; [|done]. cbn.
  destruct (Z.eqb_spec w 0) as [->|]; [by rewrite Z.bits_0 in E|done].
Qed.

(** A stamp names its CPU, its generation modulo 2^54 and its IRQ state, and
    is a held word. *)
Lemma stamp_new_fields cpu gen irqs : uint 8 cpu -> 0 <= gen ->
  from_word (stamp_new cpu gen irqs) = Some (stamp_new cpu gen irqs) /\
  stamp_cpu (stamp_new cpu gen irqs) = cpu /\ stamp_gen (stamp_new cpu gen irqs) = gen mod 2 ^ 54 /\
  stamp_irqs_on (stamp_new cpu gen irqs) = irqs /\ uint 64 (stamp_new cpu gen irqs).
Proof.
  intros Hc Hg. rewrite from_word_eq, stamp_cpu_eq, stamp_gen_eq, stamp_irqs_on_eq.
  rewrite !testbit_div by lia. rewrite (stamp_new_eq cpu gen irqs Hc Hg).
  pose proof (Z.mod_pos_bound gen (2 ^ 54) ltac:(lia)) as Hm. unfold uint in *.
  remember (gen mod 2 ^ 54) as g. clear Heqg.
  remember (2 ^ 63 + (if irqs then 2 ^ 62 else 0) + cpu * 2 ^ 54 + g) as w eqn:Ew.
  assert (w / 2 ^ 63 = 1) as -> by (symmetry; apply (Z.div_unique _ _ _ (w - 2 ^ 63)); destruct irqs; lia).
  assert (w / 2 ^ 62 = if irqs then 3 else 2) as ->.
  { symmetry. apply (Z.div_unique _ _ _ (cpu * 2 ^ 54 + g)); destruct irqs; lia. }
  assert (w / 2 ^ 54 = (if irqs then 768 else 512) + cpu) as ->.
  { symmetry. apply (Z.div_unique _ _ _ g); destruct irqs; lia. }
  split_and!; [done| | |by destruct irqs|destruct irqs; lia|destruct irqs; lia].
  - symmetry. apply (Z.mod_unique _ _ (if irqs then 3 else 2)); destruct irqs; lia.
  - symmetry. apply (Z.mod_unique _ _ ((if irqs then 768 else 512) + cpu)); destruct irqs; lia.
Qed.
