(* ===== verification/Tripwire.v ===== *)
(** * Tripwire counters, lines and scan rules (shared/src/tripwire.rs)

    The catalogue of counter keys, the per-CPU counter rows, the
    [\[tripwire\]] line and the [lock re-entry:] message, the classification
    of saved PCs, thread slots and wakes, and the two-strike confirmation of
    the heartbeat scans.  A [Sink] receives bytes in order, so a function
    that writes to one is the list of the bytes it puts. *)

From S2P Require Import Prelude Text Abi OwnerStamp.
From stdpp Require Import strings.
Local Open Scope Z_scope.

Definition SCHEMA_VERSION : Z := 1.
Definition LINE_PREFIX : list Z := text "[tripwire]".
Definition MAX_CPUS : Z := 8.
Definition CLASS_COUNT : Z := 4.
Definition MASK_TIDS : Z := 64.
Definition MAX_REENTRY_MSG_LEN : Z := 160.
Definition STARVE_TICKS : Z := 1000.
Definition STRIKE_TICK_ADVANCE : Z := 100.
Definition IRQ_CTX_THREAD : Z := 0.
Definition IRQ_CTX_IRQ : Z := 1.
Definition IRQ_CTX_EXIT : Z := 2.
Definition PHASE_IDLE : Z := 0.
Definition PHASE_PUBLISHED : Z := 1.
Definition PHASE_ARMED : Z := 2.
Definition PHASE_UNTIMED : Z := 0x80.

Definition wait_phase (step : Z) (timed : bool) : Z := if timed then step else Z.lor step PHASE_UNTIMED.

(** ** Index sets *)

Inductive WakeSource :=
| WCall | WReply | WSend | WSelCall | WSelSend | WSelSig | WSig | WNDestroy | WNto | WNsto
| WPWait | WTo | WChDestroy | WPExit | WCancel.
#[export] Instance WakeSource_eq_dec : EqDecision WakeSource.
Proof. solve_decision. Defined.

Definition WAKE_SOURCES : list WakeSource :=
  [WCall; WReply; WSend; WSelCall; WSelSend; WSelSig; WSig; WNDestroy; WNto; WNsto;
   WPWait; WTo; WChDestroy; WPExit; WCancel].

Definition wake_index (s : WakeSource) : Z :=
  match s with
  | WCall => 0 | WReply => 1 | WSend => 2 | WSelCall => 3 | WSelSend => 4 | WSelSig => 5 | WSig => 6
  | WNDestroy => 7 | WNto => 8 | WNsto => 9 | WPWait => 10 | WTo => 11 | WChDestroy => 12
  | WPExit => 13 | WCancel => 14
  end.

Definition marker (s : WakeSource) : Z := wrapping_add 8 (wake_index s) 1.
Definition from_marker (m : Z) : option WakeSource :=
  if m <? 1 then None else WAKE_SOURCES.[m - 1].

Inductive N2Kind := Rpre | Rblk | Vpre | Vblk.
#[export] Instance N2Kind_eq_dec : EqDecision N2Kind.
Proof. solve_decision. Defined.
Definition n2_index (k : N2Kind) : Z := match k with Rpre => 0 | Rblk => 1 | Vpre => 2 | Vblk => 3 end.

Inductive BadchanSite := BadCap | BadSelect | BadSlot.
Definition badchan_index (s : BadchanSite) : Z := match s with BadCap => 0 | BadSelect => 1 | BadSlot => 2 end.

(** ** Keys *)

Inductive Width := WidthCpu | WidthOne | WidthSource | WidthLock | WidthClass | WidthN2 | WidthBadchan.
#[export] Instance Width_eq_dec : EqDecision Width.
Proof. solve_decision. Defined.

Definition slots (w : Width) : Z :=
  match w with
  | WidthCpu | WidthOne => 1
  | WidthSource => 15
  | WidthLock => 9
  | WidthClass => CLASS_COUNT
  | WidthN2 => 4
  | WidthBadchan => 3
  end.

Definition values (w : Width) (ncpu : Z) : Z := match w with WidthCpu => ncpu | _ => slots w end.

Inductive Key :=
| Key_Tick | Key_Irqsw | Key_Irqsw0 | Key_Nest | Key_Elrmm | Key_Spsrmm | Key_N4 | Key_Insched
| Key_Rsthold | Key_Tpidrbad | Key_Xdir | Key_Xrep | Key_Xnever | Key_N1 | Key_Pcnull | Key_Pcphys
| Key_Pcother | Key_Spbad | Key_Latereply | Key_Misrep | Key_Ctbusy | Key_Badtid | Key_N2
| Key_Ubrun | Key_Ubrbl | Key_Ubdead | Key_Ubnone | Key_Ubmove | Key_Lkph | Key_Lkpho | Key_Lkphrun
| Key_Lkoxp | Key_Lkself | Key_Lktry | Key_Lktph | Key_Lkstk | Key_Scana | Key_Skipa
| Key_Skipaself | Key_Scanb | Key_Skipb | Key_Scanstall | Key_Hbdefer | Key_Orphan | Key_Nowaker
| Key_Wakefl | Key_Starved | Key_Dupcur | Key_Dupq | Key_Qbad | Key_OrphanNow | Key_NowakerNow
| Key_WakeflNow | Key_Scanhold1 | Key_Scanhold2 | Key_Lb | Key_Enqfull | Key_Badchan | Key_Twc
| Key_Twn | Key_Twmax.

Definition KEYS : list Key :=
  [Key_Tick; Key_Irqsw; Key_Irqsw0; Key_Nest; Key_Elrmm; Key_Spsrmm; Key_N4; Key_Insched;
   Key_Rsthold; Key_Tpidrbad; Key_Xdir; Key_Xrep; Key_Xnever; Key_N1; Key_Pcnull; Key_Pcphys;
   Key_Pcother; Key_Spbad; Key_Latereply; Key_Misrep; Key_Ctbusy; Key_Badtid; Key_N2; Key_Ubrun;
   Key_Ubrbl; Key_Ubdead; Key_Ubnone; Key_Ubmove; Key_Lkph; Key_Lkpho; Key_Lkphrun; Key_Lkoxp;
   Key_Lkself; Key_Lktry; Key_Lktph; Key_Lkstk; Key_Scana; Key_Skipa; Key_Skipaself; Key_Scanb;
   Key_Skipb; Key_Scanstall; Key_Hbdefer; Key_Orphan; Key_Nowaker; Key_Wakefl; Key_Starved;
   Key_Dupcur; Key_Dupq; Key_Qbad; Key_OrphanNow; Key_NowakerNow; Key_WakeflNow; Key_Scanhold1;
   Key_Scanhold2; Key_Lb; Key_Enqfull; Key_Badchan; Key_Twc; Key_Twn; Key_Twmax].

Definition key_index (k : Key) : Z :=
  match k with
  | Key_Tick => 0 | Key_Irqsw => 1 | Key_Irqsw0 => 2 | Key_Nest => 3 | Key_Elrmm => 4
  | Key_Spsrmm => 5 | Key_N4 => 6 | Key_Insched => 7 | Key_Rsthold => 8 | Key_Tpidrbad => 9
  | Key_Xdir => 10 | Key_Xrep => 11 | Key_Xnever => 12 | Key_N1 => 13 | Key_Pcnull => 14
  | Key_Pcphys => 15 | Key_Pcother => 16 | Key_Spbad => 17 | Key_Latereply => 18 | Key_Misrep => 19
  | Key_Ctbusy => 20 | Key_Badtid => 21 | Key_N2 => 22 | Key_Ubrun => 23 | Key_Ubrbl => 24
  | Key_Ubdead => 25 | Key_Ubnone => 26 | Key_Ubmove => 27 | Key_Lkph => 28 | Key_Lkpho => 29
  | Key_Lkphrun => 30 | Key_Lkoxp => 31 | Key_Lkself => 32 | Key_Lktry => 33 | Key_Lktph => 34
  | Key_Lkstk => 35 | Key_Scana => 36 | Key_Skipa => 37 | Key_Skipaself => 38 | Key_Scanb => 39
  | Key_Skipb => 40 | Key_Scanstall => 41 | Key_Hbdefer => 42 | Key_Orphan => 43
  | Key_Nowaker => 44 | Key_Wakefl => 45 | Key_Starved => 46 | Key_Dupcur => 47 | Key_Dupq => 48
  | Key_Qbad => 49 | Key_OrphanNow => 50 | Key_NowakerNow => 51 | Key_WakeflNow => 52
  | Key_Scanhold1 => 53 | Key_Scanhold2 => 54 | Key_Lb => 55 | Key_Enqfull => 56
  | Key_Badchan => 57 | Key_Twc => 58 | Key_Twn => 59 | Key_Twmax => 60
  end.

Definition key_name (k : Key) : list Z := text
  match k with
  | Key_Tick => "tick" | Key_Irqsw => "irqsw" | Key_Irqsw0 => "irqsw0" | Key_Nest => "nest"
  | Key_Elrmm => "elrmm" | Key_Spsrmm => "spsrmm" | Key_N4 => "n4" | Key_Insched => "insched"
  | Key_Rsthold => "rsthold" | Key_Tpidrbad => "tpidrbad" | Key_Xdir => "xdir" | Key_Xrep => "xrep"
  | Key_Xnever => "xnever" | Key_N1 => "n1" | Key_Pcnull => "pcnull" | Key_Pcphys => "pcphys"
  | Key_Pcother => "pcother" | Key_Spbad => "spbad" | Key_Latereply => "latereply"
  | Key_Misrep => "misrep" | Key_Ctbusy => "ctbusy" | Key_Badtid => "badtid" | Key_N2 => "n2"
  | Key_Ubrun => "ubrun" | Key_Ubrbl => "ubrbl" | Key_Ubdead => "ubdead" | Key_Ubnone => "ubnone"
  | Key_Ubmove => "ubmove" | Key_Lkph => "lkph" | Key_Lkpho => "lkpho" | Key_Lkphrun => "lkphrun"
  | Key_Lkoxp => "lkoxp" | Key_Lkself => "lkself" | Key_Lktry => "lktry" | Key_Lktph => "lktph"
  | Key_Lkstk => "lkstk" | Key_Scana => "scana" | Key_Skipa => "skipa"
  | Key_Skipaself => "skipaself" | Key_Scanb => "scanb" | Key_Skipb => "skipb"
  | Key_Scanstall => "scanstall" | Key_Hbdefer => "hbdefer" | Key_Orphan => "orphan"
  | Key_Nowaker => "nowaker" | Key_Wakefl => "wakefl" | Key_Starved => "starved"
  | Key_Dupcur => "dupcur" | Key_Dupq => "dupq" | Key_Qbad => "qbad"
  | Key_OrphanNow => "orphan_now" | Key_NowakerNow => "nowaker_now" | Key_WakeflNow => "wakefl_now"
  | Key_Scanhold1 => "scanhold1" | Key_Scanhold2 => "scanhold2" | Key_Lb => "lb"
  | Key_Enqfull => "enqfull" | Key_Badchan => "badchan" | Key_Twc => "twc" | Key_Twn => "twn"
  | Key_Twmax => "twmax"
  end.

Definition key_width (k : Key) : Width :=
  match k with
  | Key_Tick | Key_Irqsw | Key_Irqsw0 | Key_Nest | Key_Elrmm | Key_Spsrmm | Key_N4 | Key_Insched
  | Key_Rsthold | Key_Tpidrbad => WidthCpu
  | Key_N2 => WidthN2
  | Key_Ubrun | Key_Ubrbl | Key_Ubdead | Key_Ubnone | Key_Ubmove => WidthSource
  | Key_Lkph | Key_Lkpho | Key_Lkphrun | Key_Lkoxp | Key_Lkself | Key_Lktry | Key_Lktph | Key_Lkstk => WidthLock
  | Key_Starved => WidthClass
  | Key_Badchan => WidthBadchan
  | _ => WidthOne
  end.

Definition is_gauge (k : Key) : bool :=
  match k with
  | Key_OrphanNow | Key_NowakerNow | Key_WakeflNow | Key_Scanhold1 | Key_Scanhold2 | Key_Twmax => true
  | _ => false
  end.

Definition is_always_printed (k : Key) : bool :=
  match k with Key_Twc | Key_Twn | Key_Twmax => true | _ => false end.

Lemma KEYS_index k : KEYS.[key_index k] = Some k.
Proof. by destruct k. Qed.

Lemma key_index_inj k1 k2 : key_index k1 = key_index k2 -> k1 = k2.
Proof. intros H. pose proof (KEYS_index k1) as H1. rewrite H, KEYS_index in H1. by injection H1. Qed.

#[export] Instance Key_eq_dec : EqDecision Key.
Proof.
  intros k1 k2. destruct (decide (key_index k1 = key_index k2)) as [H|H].
  - left. by apply key_index_inj.
  - right. intros ->. done.
Defined.

(** [slot_bases] and [slot_total]: the first slot of each key, and their number. *)
Fixpoint slot_bases_from (next : Z) (ks : list Key) : list Z :=
  match ks with
  | [] => []
  | k :: ks' => next :: slot_bases_from (next + slots (key_width k)) ks'
  end.
Definition SLOT_BASE : list Z := slot_bases_from 0 KEYS.
Definition SLOTS : Z := foldl (fun total k => total + slots (key_width k)) 0 KEYS.

Definition slot (k : Key) (idx : Z) : option Z :=
  if idx >=? slots (key_width k) then None
  else (fun base => wrapping_add 64 base idx) <$> SLOT_BASE.[key_index k].

(** ** Per-CPU counters: one row of [SLOTS] counters per CPU *)

Definition CpuCounters := list (list Z).

Definition counters_new (cpus : Z) : CpuCounters := array_of cpus (array_of SLOTS 0).

(** Out-of-range CPUs and slots are ignored and read 0. *)
Definition counter_get (c : CpuCounters) (cpu slot : Z) : Z :=
  from_option id 0 (row ← c.[cpu]; row.[slot]).

Definition counter_put (c : CpuCounters) (cpu slot v : Z) : CpuCounters :=
  match c.[cpu] with Some row => c.[cpu <- row.[slot <- v]] | None => c end.

Definition counter_add (c : CpuCounters) (cpu slot n : Z) : CpuCounters :=
  counter_put c cpu slot (wrapping_add 64 (counter_get c cpu slot) n).

Definition counter_store_max (c : CpuCounters) (cpu slot v : Z) : CpuCounters :=
  if v >? counter_get c cpu slot then counter_put c cpu slot v else c.

Definition counter_sum (c : CpuCounters) (slot : Z) : Z :=
  foldl (fun acc row => wrapping_add 64 acc (from_option id 0 row.[slot])) 0 c.

Definition counter_max (c : CpuCounters) (slot : Z) : Z :=
  foldl (fun acc row => Z.max acc (from_option id 0 row.[slot])) 0 c.

Definition counter_value (c : CpuCounters) (k : Key) (idx : Z) : Z :=
  if decide (key_width k = WidthCpu) then
    match slot k 0 with Some s => counter_get c idx s | None => 0 end
  else
    match slot k idx with
    | Some s => if is_gauge k then counter_max c s else counter_sum c s
    | None => 0
    end.

(** ** Sinks *)

(** A [BufSink]: its capacity, the bytes kept and whether one was dropped. *)
Record BufSink := mk_buf { cap : Z; kept : list Z; overflowed : bool }.
Definition buf_new (n : Z) : BufSink := {| cap := n; kept := []; overflowed := false |}.
Definition buf_put (b : BufSink) (byte : Z) : BufSink :=
  if alen (kept b) <? cap b then {| cap := cap b; kept := kept b ++ [byte]; overflowed := overflowed b |}
  else {| cap := cap b; kept := kept b; overflowed := true |}.
Definition buf_put_all (b : BufSink) (bytes : list Z) : BufSink := foldl buf_put b bytes.

(** The kernel's UART sink sends [\n] as [\r\n]. *)
Definition uart_put (byte : Z) : list Z := if byte =? 10 then [13; byte] else [byte].

(** ** The tripwire line *)

Inductive LineSrc := Hb | G1 | Panic | Exc.
#[export] Instance LineSrc_eq_dec : EqDecision LineSrc.
Proof. solve_decision. Defined.
Definition LINE_SRCS : list LineSrc := [Hb; G1; Panic; Exc].
Definition src_name (s : LineSrc) : list Z := text
  match s with Hb => "hb" | G1 => "g1" | Panic => "panic" | Exc => "exc" end.

Inductive LineMode := NonZero | Full.
#[export] Instance LineMode_eq_dec : EqDecision LineMode.
Proof. solve_decision. Defined.

Definition PREFIX_TOKENS : Z := 5.

(** [v] in base 10 has [dec_len v] digits: at most 20 turns for a [u64]. *)
Fixpoint dec_len_from (fuel : nat) (v n : Z) : Z :=
  match fuel with
  | O => n
  | S fuel' => if v >=? 10 then dec_len_from fuel' (v / 10) (n + 1) else n
  end.
Definition dec_len (v : Z) : Z := dec_len_from 20 v 1.

Definition max_line_len : Z :=
  let src_len := foldl (fun m s => if alen (src_name s) >? m then alen (src_name s) else m) 0 LINE_SRCS in
  let value_len := dec_len (umax 64) in
  let len := alen LINE_PREFIX + alen (text " v=") + dec_len SCHEMA_VERSION + alen (text " src=") + src_len
    + alen (text " cpu=") + dec_len (umax 8) + alen (text " t=") + value_len + alen (text " ncpu=") + dec_len MAX_CPUS in
  let len := foldl (fun len k =>
    let values := values (key_width k) MAX_CPUS in
    len + (1 + alen (key_name k) + 1 + values * value_len + (values - 1))) len KEYS in
  len + alen (text " n=") + dec_len (PREFIX_TOKENS + alen KEYS) + 1.

(** [0..n] *)
Definition range (n : Z) : list Z := map Z.of_nat (seq 0 (Z.to_nat n)).

(** The values of one key, comma-separated. *)
Definition put_values (value : Key -> Z -> Z) (k : Key) (count : Z) : list Z :=
  concat (map (fun idx => (if idx =? 0 then [] else text ",") ++ put_dec (value k idx)) (range count)).

(** Whether the line leaves the key out. *)
Definition omitted (mode : LineMode) (value : Key -> Z -> Z) (ncpu : Z) (k : Key) : bool :=
  bool_decide (mode = NonZero) && negb (is_always_printed k) &&
  forallb (fun idx => value k idx =? 0) (range (values (key_width k) ncpu)).

(** [value] is read twice per value in [NonZero] mode: [zero] is the reading
    of the zero test, [value] the one that is printed. *)
Definition write_line (src : LineSrc) (mode : LineMode) (cpu t ncpu : Z) (zero value : Key -> Z -> Z) : list Z :=
  let ncpu := Z.min (Z.max ncpu 1) MAX_CPUS in
  let prefix := LINE_PREFIX ++ text " v=" ++ put_dec SCHEMA_VERSION ++ text " src=" ++ src_name src
    ++ text " cpu=" ++ put_dec cpu ++ text " t=" ++ put_dec t ++ text " ncpu=" ++ put_dec ncpu in
  let body := foldl (fun '(out, tokens) k =>
      if omitted mode zero ncpu k then (out, tokens)
      else (out ++ text " " ++ key_name k ++ text "=" ++ put_values value k (values (key_width k) ncpu),
            wrapping_add 64 tokens 1))
    ([], PREFIX_TOKENS) KEYS in
  prefix ++ body.1 ++ text " n=" ++ put_dec body.2 ++ [10].

(** ** The re-entry message *)

Inductive Ctx := CtxThread | CtxThreadOff | CtxIrq | CtxIrqExit | CtxUnknown.
#[export] Instance Ctx_eq_dec : EqDecision Ctx.
Proof. solve_decision. Defined.

Definition ctx_from_raw (irq_ctx : Z) (irqs_masked : bool) : Ctx :=
  if irq_ctx =? IRQ_CTX_THREAD then (if irqs_masked then CtxThreadOff else CtxThread)
  else if irq_ctx =? IRQ_CTX_IRQ then CtxIrq
  else if irq_ctx =? IRQ_CTX_EXIT then CtxIrqExit
  else CtxUnknown.

Definition ctx_name (c : Ctx) : list Z := text
  match c with
  | CtxThread => "thread" | CtxThreadOff => "thread-off" | CtxIrq => "irq" | CtxIrqExit => "irq-exit"
  | CtxUnknown => "?"
  end.

Definition ctx_is_irq (c : Ctx) : bool := match c with CtxIrq | CtxIrqExit => true | _ => false end.

Record HolderSite := { hs_file : list Z; hs_line : Z }.
Record ReentryReport := {
  rr_class : LockClass; rr_index : Z; rr_cpu : Z; rr_ctx : Ctx;
  rr_holder : option HolderSite; rr_owner : Z; rr_tid : Z
}.

Definition write_reentry_msg (r : ReentryReport) : list Z :=
  text "lock re-entry: " ++ lock_class_name (rr_class r)
  ++ (if rr_index r =? SCALAR_INDEX then [] else text "[" ++ put_dec (rr_index r) ++ text "]")
  ++ text " on CPU " ++ put_dec (rr_cpu r) ++ text " ctx=" ++ ctx_name (rr_ctx r) ++ text " holder="
  ++ match rr_holder r with
     | Some site => hs_file site ++ text ":" ++ put_dec (hs_line site)
     | None => text "?"
     end
  ++ text " holder_irqs=" ++ (if stamp_irqs_on (rr_owner r) then text "on" else text "off")
  ++ text " tid=" ++ (if rr_tid r =? TID_NONE then text "?" else put_dec (rr_tid r))
  ++ text " gen=" ++ put_dec (stamp_gen (rr_owner r)).

(** ** Saved PCs *)

Record TextLayout := { text_lo : Z; text_hi : Z }.
Definition text_contains (l : TextLayout) (pc : Z) : bool := (text_lo l <=? pc) && (pc <? text_hi l).

Inductive PcClass := PcText | PcNull | PcPhys | PcOther.
Definition pc_key (c : PcClass) : option Key :=
  match c with PcText => None | PcNull => Some Key_Pcnull | PcPhys => Some Key_Pcphys | PcOther => Some Key_Pcother end.

Definition classify_pc (pc : Z) (layout : TextLayout) (virt_phys_offset : Z) : PcClass :=
  if pc =? 0 then PcNull
  else if negb (Z.land pc 3 =? 0) then PcOther
  else if text_contains layout pc then PcText
  else
    let alias := {| text_lo := wrapping_sub 64 (text_lo layout) virt_phys_offset;
                    text_hi := wrapping_sub 64 (text_hi layout) virt_phys_offset |} in
    if text_contains alias pc then PcPhys else PcOther.

(** ** Thread masks *)

Definition mask_bit (tid : Z) : option Z := if tid <? MASK_TIDS then Some (Z.shiftl 1 tid) else None.

Inductive MaskSet := MaskNew | MaskDup | MaskBadTid.

Definition mask_set (mask tid : Z) : MaskSet * Z :=
  match mask_bit tid with
  | None => (MaskBadTid, mask)
  | Some bit => if negb (Z.land mask bit =? 0) then (MaskDup, mask) else (MaskNew, Z.lor mask bit)
  end.

Definition mask_test (mask tid : Z) : bool :=
  match mask_bit tid with Some bit => negb (Z.land mask bit =? 0) | None => false end.

Definition trailing_zeros (mask : Z) : Z :=
  match position (fun i => Z.testbit mask (Z.of_nat i)) (seq 0 64) with Some i => Z.of_nat i | None => 64 end.

(** The lowest thread id of [mask], and the mask without it. *)
Definition pop_lowest (mask : Z) : option (Z * Z) :=
  if mask =? 0 then None
  else Some (trailing_zeros mask, Z.land mask (wrapping_sub 64 mask 1)).

Definition NIBBLE_BITS : list Z := [0; 1; 1; 2; 1; 2; 2; 3; 1; 2; 2; 3; 2; 3; 3; 4].

(** 16 turns empty a [u64]. *)
Fixpoint count_tids_from (fuel : nat) (rest count : Z) : Z :=
  match fuel with
  | O => count
  | S fuel' =>
      if rest =? 0 then count
      else count_tids_from fuel' (Z.shiftr rest 4)
        (wrapping_add 64 count (from_option id 0 NIBBLE_BITS.[Z.land rest 15]))
  end.
Definition count_tids (mask : Z) : Z := count_tids_from 16 mask 0.

(** ** Scan classification *)

Inductive SlotState :=
| SlEmpty | SlRunnable | SlRunning | SlBlockedIpc | SlBlockedNotification | SlBlockedSelect
| SlBlockedOther | SlSuspended | SlDead.
#[export] Instance SlotState_eq_dec : EqDecision SlotState.
Proof. solve_decision. Defined.

Definition slot_state_of (state : option ThreadState) : SlotState :=
  match state with
  | None => SlEmpty
  | Some Runnable => SlRunnable
  | Some Running => SlRunning
  | Some (BlockedIpc _) => SlBlockedIpc
  | Some (BlockedNotification _) => SlBlockedNotification
  | Some BlockedSelect => SlBlockedSelect
  | Some (BlockedProcessWait _) | Some (BlockedTimer _) | Some BlockedIo => SlBlockedOther
  | Some Suspended => SlSuspended
  | Some Dead => SlDead
  end.

Definition FLAG_NONE : Z := 0.
Definition FLAG_QUEUED : Z := Z.shiftl 1 0.
Definition FLAG_CURRENT : Z := Z.shiftl 1 1.
Definition FLAG_TIMEOUT : Z := Z.shiftl 1 2.
Definition FLAG_CHAN_REF : Z := Z.shiftl 1 3.
Definition FLAG_NDL : Z := Z.shiftl 1 4.
Definition FLAG_NOTIF_REF : Z := Z.shiftl 1 5.
Definition FLAG_WAKE_PENDING : Z := Z.shiftl 1 6.
Definition with_if (flags other : Z) (cond : bool) : Z := if cond then Z.lor flags other else flags.
Definition flags_contain (flags other : Z) : bool := Z.land flags other =? other.
Definition flags_intersect (flags other : Z) : bool := negb (Z.land flags other =? 0).

Inductive SlotVerdict := VClear | VOrphan | VStarved | VNoWaker | VWakeInFlight | VQueuedBad.
#[export] Instance SlotVerdict_eq_dec : EqDecision SlotVerdict.
Proof. solve_decision. Defined.

Definition is_starved (now last_run : Z) : bool := saturating_sub now last_run >? STARVE_TICKS.

Definition classify_slot (state : SlotState) (flags now last_run : Z) : SlotVerdict :=
  let queued := flags_contain flags FLAG_QUEUED in
  let current := flags_contain flags FLAG_CURRENT in
  let blocked wakers :=
    if flags_intersect flags wakers then VClear
    else if flags_contain flags FLAG_WAKE_PENDING then VWakeInFlight
    else VNoWaker in
  if bool_decide (state = SlRunnable) then
    if queued then (if is_starved now last_run then VStarved else VClear)
    else if current then VClear
    else VOrphan
  else if queued then VQueuedBad
  else if current then VClear
  else match state with
       | SlBlockedIpc => blocked (Z.lor FLAG_TIMEOUT FLAG_CHAN_REF)
       | SlBlockedNotification => blocked (Z.lor (Z.lor FLAG_NDL FLAG_NOTIF_REF) FLAG_TIMEOUT)
       | SlBlockedSelect => blocked (Z.lor (Z.lor (Z.lor FLAG_NDL FLAG_CHAN_REF) FLAG_NOTIF_REF) FLAG_TIMEOUT)
       | _ => VClear
       end.

(** ** Two strikes and edges *)

Record StrikeResult := { confirmed : Z; stalled : bool }.

Record TwoStrike := { armed : Z; ts_last_run : list Z; ts_ticks : list Z }.
Definition two_strike_new (cpus : Z) : TwoStrike :=
  {| armed := 0; ts_last_run := array_of MASK_TIDS 0; ts_ticks := array_of cpus 0 |}.

(** Some online CPU that has ever ticked has not advanced enough. *)
Definition strike_stall (ticks : list Z) (online : Z) (tick : Z -> Z) : bool :=
  existsb (fun cpu =>
      match ticks.[cpu] with
      | None => false
      | Some before => negb (tick cpu =? 0) && (wrapping_sub 64 (tick cpu) before <? STRIKE_TICK_ADVANCE)
      end) (range online).

(** The loop over the flagged threads: at most 64 of them. *)
Fixpoint strike_loop (fuel : nat) (rest candidates : Z) (last_run : Z -> Z) (snaps : list Z) (acc : Z) : list Z * Z :=
  match fuel with
  | O => (snaps, acc)
  | S fuel' =>
      match pop_lowest rest with
      | None => (snaps, acc)
      | Some (tid, rest') =>
          match snaps.[tid] with
          | None => strike_loop fuel' rest' candidates last_run snaps acc
          | Some snap =>
              let now := last_run tid in
              let acc' := if mask_test candidates tid && (snap =? now)
                          then Z.lor acc (default 0 (mask_bit tid)) else acc in
              strike_loop fuel' rest' candidates last_run snaps.[tid <- now] acc'
          end
      end
  end.

(** The tick counters move while the scan runs: [gate] are the readings of
    the stall test, [tick] the ones that are stored. *)
Definition strike_scan (s : TwoStrike) (flagged ncpu : Z) (last_run gate tick : Z -> Z) : StrikeResult * TwoStrike :=
  let online := Z.min ncpu (alen (ts_ticks s)) in
  let candidates := Z.land flagged (armed s) in
  if negb (candidates =? 0) && strike_stall (ts_ticks s) online gate
  then ({| confirmed := 0; stalled := true |}, s)
  else
    let '(snaps, acc) := strike_loop 65 flagged candidates last_run (ts_last_run s) 0 in
    let ticks := foldl (fun ts cpu => if bool_decide (is_Some ts.[cpu]) then ts.[cpu <- tick cpu] else ts)
                       (ts_ticks s) (range online) in
    ({| confirmed := acc; stalled := false |}, {| armed := flagged; ts_last_run := snaps; ts_ticks := ticks |}).

Record EdgeUpdate := { entered : Z; edge_confirmed : Z }.
(** [EdgeCounter::update]: the update and the new set. *)
Definition edge_update (before confirmed : Z) : EdgeUpdate * Z :=
  ({| entered := Z.land confirmed (unot 64 before); edge_confirmed := confirmed |}, confirmed).
Definition entered_count (u : EdgeUpdate) : Z := count_tids (entered u).
Definition edge_gauge (u : EdgeUpdate) : Z := count_tids (edge_confirmed u).

(** ** Wake attribution *)

Inductive UnblockKind := Woke | Revived | SkipRunning | SkipRunnable | NoThread.
#[export] Instance UnblockKind_eq_dec : EqDecision UnblockKind.
Proof. solve_decision. Defined.

Definition unblock_kind_of (state : option ThreadState) : UnblockKind :=
  match state with
  | None => NoThread
  | Some Running => SkipRunning
  | Some Runnable => SkipRunnable
  | Some (BlockedIpc _) | Some (BlockedNotification _) | Some BlockedSelect | Some (BlockedProcessWait _) => Woke
  | Some (BlockedTimer _) | Some BlockedIo | Some Suspended | Some Dead => Revived
  end.

Definition skipped (k : UnblockKind) : bool := match k with SkipRunning | SkipRunnable => true | _ => false end.
Definition made_runnable (k : UnblockKind) : bool := match k with Woke | Revived => true | _ => false end.
Definition unblock_key (k : UnblockKind) : option Key :=
  match k with
  | Woke => None
  | Revived => Some Key_Ubdead
  | SkipRunning => Some Key_Ubrun
  | SkipRunnable => Some Key_Ubrbl
  | NoThread => Some Key_Ubnone
  end.

Record UnblockOutcome := { uo_kind : UnblockKind; uo_phase : Z; uo_chan : Z }.

Inductive ClearResult := ClRemoved | ClAbsent | ClBusy.
#[export] Instance ClearResult_eq_dec : EqDecision ClearResult.
Proof. solve_decision. Defined.

Inductive WakeVerdict := NotCounted | N2Count (k : N2Kind) | LateReply | Misrep.

Definition wake_verdict_key (v : WakeVerdict) : option (Key * Z) :=
  match v with
  | NotCounted => None
  | N2Count k => Some (Key_N2, n2_index k)
  | LateReply => Some (Key_Latereply, 0)
  | Misrep => Some (Key_Misrep, 0)
  end.

Inductive SkipFate := NotInWait | HealsBeforeArm | HealsArmed | FateNoWaker.

Definition skip_fate (o : UnblockOutcome) (channel : Z) (clear : ClearResult) : SkipFate :=
  if negb (uo_chan o =? channel) then NotInWait
  else
    let untimed := negb (Z.land (uo_phase o) PHASE_UNTIMED =? 0) in
    let phase := Z.land (uo_phase o) (unot 8 PHASE_UNTIMED) in
    if ((phase =? PHASE_PUBLISHED) || (phase =? PHASE_ARMED)) && untimed then FateNoWaker
    else if phase =? PHASE_PUBLISHED then HealsBeforeArm
    else if (phase =? PHASE_ARMED) && bool_decide (clear = ClRemoved) then FateNoWaker
    else if phase =? PHASE_ARMED then HealsArmed
    else NotInWait.

Definition classify_reply (o : UnblockOutcome) (channel : Z) (clear : ClearResult) : WakeVerdict :=
  if skipped (uo_kind o) then
    match skip_fate o channel clear with
    | FateNoWaker => N2Count Rblk
    | HealsBeforeArm => N2Count Rpre
    | HealsArmed | NotInWait => LateReply
    end
  else
    let armed_here := (uo_chan o =? channel) && (Z.land (uo_phase o) (unot 8 PHASE_UNTIMED) =? PHASE_ARMED) in
    if made_runnable (uo_kind o) && negb armed_here then Misrep else NotCounted.

Definition classify_send (o : UnblockOutcome) (channel : Z) (clear : ClearResult) : WakeVerdict :=
  if negb (skipped (uo_kind o)) then NotCounted
  else match skip_fate o channel clear with
       | FateNoWaker => N2Count Vblk
       | HealsBeforeArm => N2Count Vpre
       | HealsArmed | NotInWait => NotCounted
       end.
