(* ===== verification/TripwireLog.v ===== *)
(** * Reading tripwire lines back (tools/src/cmd/soak/tripwire.rs)

    The soak tool's parser of serial logs, and what the kernel's line writer
    and the parser promise together: every line the kernel writes is read
    back whole, with the values it printed. *)

From S2P Require Import Prelude Text Abi OwnerStamp Tripwire.
From stdpp Require Import strings.
Local Open Scope Z_scope.

(** ** The parser *)

Record V1 := { v1_cpu : option (list Z); v1_t : option (list Z); v1_ncpu : option (list Z); v1_values : list (list Z) }.
Record Line := { line_text : list Z; line_version : option (list Z); line_src : option (list Z); line_v1 : option V1 }.

(** [V1::value] panics ([None]) on an index out of range. *)
Definition v1_value (v : V1) (k : Key) : option (list Z) := (v1_values v).[key_index k].

(** [KEY_INDEX]: positions by printed name. *)
Definition KEY_INDEX : list (list Z * Z) := map (fun k => (key_name k, key_index k)) KEYS.
Definition key_index_get (name : list Z) : option Z :=
  snd <$> List.find (fun p => bool_decide (p.1 = name)) (reverse KEY_INDEX).

Definition key_value (token : list Z) : option (list Z * list Z) :=
  eq ← position (fun b => b =? 61) token;
  let key := take eq token in
  let value := drop (S eq) token in
  if non_empty key && non_empty value then Some (key, value) else None.

(** The first pair with that key. *)
Definition get_pair (name : list Z) (pairs : list (list Z * list Z)) : option (list Z) :=
  snd <$> List.find (fun p => bool_decide (p.1 = name)) pairs.

Definition decode_v1 (before : list (list Z * list Z)) : V1 :=
  {| v1_cpu := get_pair (text "cpu") before; v1_t := get_pair (text "t") before;
     v1_ncpu := get_pair (text "ncpu") before;
     v1_values := foldl (fun values '(k, v) =>
         match key_index_get k with Some i => values.[i <- v] | None => values end)
       (array_of (alen KEYS) (text "0")) before |}.

(** [rposition] of a byte that is not a blank. *)
Definition rposition_text (line : list Z) : option nat :=
  (fun i => (length line - 1 - i)%nat) <$> position (fun b => negb (is_blank b)) (reverse line).

Definition parse_line (line : list Z) : option Line :=
  let marker := LINE_PREFIX ++ text " " in
  start ← find_bytes line marker;
  let rest := drop (start + length marker) line in
  pairs ← mapM key_value (fields rest);
  '(k, v) ← last pairs;
  let before := take (length pairs - 1) pairs in
  n ← (if bool_decide (k = text "n") && forallb is_ascii_digit v then parse_usize v else None);
  if negb (n =? alen before) then None
  else
    let version := get_pair (text "v") before in
    let v1 := if bool_decide (version = Some (put_dec SCHEMA_VERSION)) then Some (decode_v1 before) else None in
    let ending := match rposition_text line with Some p => S p | None => start end in
    Some {| line_text := take (ending - start) (drop start line); line_version := version;
            line_src := get_pair (text "src") before; line_v1 := v1 |}.

Record LastLines := { last_line : option Line; g1_line : option Line }.

Definition last_observe (l : LastLines) (line : list Z) : LastLines :=
  match parse_line line with
  | None => l
  | Some p =>
      {| last_line := Some p;
         g1_line := if bool_decide (line_src p = Some (src_name G1)) then Some p else g1_line l |}
  end.

Definition EVENT_PREFIX : list Z := text "[tripwire-ev] ".

Record EventCounts := { ev_ph : Z; ev_self_held : Z; ev_self_irq : Z; ev_stuck : Z }.

Definition count_event (e : EventCounts) (segment : list Z) : EventCounts :=
  match fields segment with
  | [] => e
  | kind :: tokens =>
      if bool_decide (kind = text "kind=ph")
      then {| ev_ph := ev_ph e + 1; ev_self_held := ev_self_held e; ev_self_irq := ev_self_irq e; ev_stuck := ev_stuck e |}
      else if bool_decide (kind = text "kind=stuck")
      then {| ev_ph := ev_ph e; ev_self_held := ev_self_held e; ev_self_irq := ev_self_irq e; ev_stuck := ev_stuck e + 1 |}
      else if bool_decide (kind = text "kind=self")
      then
        let irq := match tokens !! 3%nat with
                   | Some t => existsb (fun c => bool_decide (t = text "ctx=" ++ ctx_name c)) [CtxIrq; CtxIrqExit]
                   | None => false
                   end in
        {| ev_ph := ev_ph e; ev_self_held := ev_self_held e + 1;
           ev_self_irq := (if irq then ev_self_irq e + 1 else ev_self_irq e); ev_stuck := ev_stuck e |}
      else e
  end.

(** Each turn drops a marker, so a line of [n] bytes takes at most [n] turns. *)
Fixpoint events_from (fuel : nat) (rest : list Z) (e : EventCounts) : EventCounts :=
  match fuel with
  | O => e
  | S fuel' =>
      match find_bytes rest EVENT_PREFIX with
      | None => e
      | Some p =>
          let rest' := drop (p + length EVENT_PREFIX) rest in
          let segment := match find_bytes rest' EVENT_PREFIX with Some q => take q rest' | None => rest' end in
          events_from fuel' rest' (count_event e segment)
      end
  end.
Definition events_observe (e : EventCounts) (line : list Z) : EventCounts := events_from (S (length line)) line e.

(** ** The kernel's line in tokens *)

Definition tok (k v : list Z) : list Z := k ++ text "=" ++ v.

Definition clamp_ncpu (ncpu : Z) : Z := Z.min (Z.max ncpu 1) MAX_CPUS.

(** The keys of a line, and what it prints for each. *)
Definition printed (mode : LineMode) (zero : Key -> Z -> Z) (ncpu : Z) (ks : list Key) : list Key :=
  List.filter (fun k => negb (omitted mode zero ncpu k)) ks.
Definition printed_value (value : Key -> Z -> Z) (ncpu : Z) (k : Key) : list Z :=
  put_values value k (values (key_width k) ncpu).

Definition prefix_pairs (src : LineSrc) (cpu t ncpu : Z) : list (list Z * list Z) :=
  [(text "v", put_dec SCHEMA_VERSION); (text "src", src_name src); (text "cpu", put_dec cpu);
   (text "t", put_dec t); (text "ncpu", put_dec ncpu)].
Definition key_pairs (value : Key -> Z -> Z) (ncpu : Z) (ks : list Key) : list (list Z * list Z) :=
  map (fun k => (key_name k, printed_value value ncpu k)) ks.

Definition line_pairs src mode cpu t ncpu zero value : list (list Z * list Z) :=
  prefix_pairs src cpu t ncpu ++ key_pairs value ncpu (printed mode zero ncpu KEYS).

Definition words (pairs : list (list Z * list Z)) : list Z :=
  concat (map (fun p => 32 :: tok p.1 p.2) pairs).

Lemma words_app p1 p2 : words (p1 ++ p2) = words p1 ++ words p2.
Proof. unfold words. by rewrite map_app, concat_app. Qed.

Lemma body_fold mode zero value ncpu ks out tokens : 0 <= tokens -> tokens + alen ks < 2 ^ 64 ->
  foldl (fun '(out, tokens) k =>
      if omitted mode zero ncpu k then (out, tokens)
      else (out ++ text " " ++ key_name k ++ text "=" ++ put_values value k (values (key_width k) ncpu),
            wrapping_add 64 tokens 1)) (out, tokens) ks =
  (out ++ words (key_pairs value ncpu (printed mode zero ncpu ks)), tokens + alen (printed mode zero ncpu ks)).
Proof.
  unfold printed.
  revert out tokens. induction ks as [|k ks IH]; intros out tokens H0 H1.
  - cbn. rewrite app_nil_r, alen_nil. f_equal. lia.
  - rewrite alen_cons in H1. cbn [foldl List.filter]. destruct (omitted mode zero ncpu k); cbn [negb].
    + rewrite IH by lia. done.
    + unfold wrapping_add. pose proof (alen_nonneg ks). rewrite wrap_small by (unfold uint; lia). rewrite IH by lia.
      rewrite alen_cons. f_equal; [|lia]. rewrite <-!app_assoc. f_equal. cbn [key_pairs map words concat]. unfold tok, printed_value.
      cbn. by rewrite <-!app_assoc.
Qed.

Lemma printed_short mode zero ncpu : alen (printed mode zero ncpu KEYS) <= 61.
Proof.
  unfold printed, alen. pose proof (List.filter_length_le (fun k => negb (omitted mode zero ncpu k)) KEYS) as H.
  change (length KEYS) with 61%nat in H. lia.
Qed.

(** What [write_line] writes: the marker and the tokens, each after a space. *)
Lemma write_line_words src mode cpu t ncpu zero value :
  let n := clamp_ncpu ncpu in
  let ps := line_pairs src mode cpu t n zero value in
  write_line src mode cpu t ncpu zero value =
    (LINE_PREFIX ++ words (ps ++ [(text "n", put_dec (alen ps))])) ++ [10].
Proof.
  intros n ps. unfold write_line. fold (clamp_ncpu ncpu). fold n.
  assert (0 <= PREFIX_TOKENS /\ PREFIX_TOKENS + alen KEYS < 2 ^ 64) as [H0 H1] by by vm_compute.
  rewrite (body_fold mode zero value n KEYS [] PREFIX_TOKENS H0 H1). cbn [fst snd app].
  assert (PREFIX_TOKENS + alen (printed mode zero n KEYS) = alen ps) as ->.
  { unfold ps, line_pairs, key_pairs. rewrite alen_app. unfold alen at 3. rewrite length_map. done. }
  rewrite words_app. unfold ps at 2. unfold line_pairs. rewrite words_app.
  change (text " v=") with (32 :: text "v" ++ text "="). change (text " src=") with (32 :: text "src" ++ text "=").
  change (text " cpu=") with (32 :: text "cpu" ++ text "="). change (text " t=") with (32 :: text "t" ++ text "=").
  change (text " ncpu=") with (32 :: text "ncpu" ++ text "="). change (text " n=") with (32 :: text "n" ++ text "=").
  unfold words at 2 4. cbn [prefix_pairs map concat fst snd]. unfold tok.
  rewrite ?app_nil_r, <-?app_assoc. cbn [app]. rewrite <-?app_assoc. cbn [app]. by rewrite <-?app_assoc.
Qed.

(** ** The parser on tokens *)

Definition plain (l : list Z) : Prop := l <> [] /\ Forall (fun b => is_blank b = false) l.
Definition good_pair (p : list Z * list Z) : Prop :=
  plain p.1 /\ plain p.2 /\ Forall (fun b => (b =? 61) = false) p.1.

Lemma plain_dec l : non_empty l && forallb (fun b => negb (is_blank b)) l = true -> plain l.
Proof.
  intros [Hn Hb]%andb_true_iff. split; [by destruct l|]. apply Forall_forall. intros b Hin.
  rewrite forallb_forall in Hb. apply negb_true_iff, Hb. by apply list_elem_of_In.
Qed.

Lemma put_dec_plain v : uint 64 v -> plain (put_dec v).
Proof.
  intros Hv. destruct (put_dec_spec v Hv) as (HF & Hl & _). split.
  - intros E. rewrite E, alen_nil in Hl. lia.
  - eapply Forall_impl; [exact HF|]. intros d Hd. cbv beta in *. unfold is_blank. lia.
Qed.

Lemma put_dec_last v : uint 64 v -> exists l d, put_dec v = l ++ [d] /\ is_blank d = false.
Proof.
  intros Hv. destruct (put_dec_plain v Hv) as [Hn HF]. destruct (exists_last Hn) as (l & d & E).
  exists l, d. split; [done|]. rewrite E in HF. apply Forall_app in HF as [_ HF]. by inversion HF.
Qed.

Lemma key_value_tok p : good_pair p -> key_value (tok p.1 p.2) = Some p.
Proof.
  destruct p as [k v]. intros ([Hk _] & [Hv _] & HF). cbn [fst snd] in *. unfold key_value, tok.
  change (text "=") with [61]. cbn [app].
  assert (position (fun b => b =? 61) (k ++ 61 :: v) = Some (length k)) as ->.
  { eapply position_intro; [by rewrite list_lookup_middle|done|]. intros j y Hj Hy.
    rewrite lookup_app_l in Hy by lia. eapply Forall_lookup_1 in HF; [|exact Hy]. done. }
  cbn [mbind option_bind]. rewrite take_app_length, <-Nat.add_1_r, drop_app_add. cbn [drop].
  destruct k; [done|]. by destruct v.
Qed.

Lemma mapM_key_value ps : Forall good_pair ps -> mapM key_value (map (fun p => tok p.1 p.2) ps) = Some ps.
Proof. induction 1 as [|p ps Hp _ IH]; [done|]. cbn [map mapM]. rewrite key_value_tok by done. cbn. by rewrite IH. Qed.

Lemma fields_blanks bs : Forall (fun b => is_blank b = true) bs -> fields bs = [].
Proof. induction 1 as [|b bs Hb _ IH]; [done|]. change (b :: bs) with ([] ++ b :: bs). by rewrite fields_blank, IH. Qed.

Lemma fields_trailing l bs : Forall (fun b => is_blank b = true) bs -> fields (l ++ bs) = fields l.
Proof.
  intros H. destruct H as [|b bs Hb Hbs]; [by rewrite app_nil_r|].
  rewrite fields_blank by done. by rewrite (fields_blanks bs), app_nil_r.
Qed.

Lemma tok_plain p : good_pair p -> plain (tok p.1 p.2).
Proof.
  intros ([Hk HFk] & [Hv HFv] & _). split; [unfold tok; by destruct p.1|].
  apply Forall_app. split; [done|]. apply Forall_app. split; [by repeat constructor|done].
Qed.

Lemma fields_tokens ps bs : Forall good_pair ps -> Forall (fun b => is_blank b = true) bs ->
  fields (words ps ++ bs) = map (fun p => tok p.1 p.2) ps.
Proof.
  intros Hps Hbs. rewrite fields_trailing by done. unfold words.
  rewrite <-(map_map (fun p => tok p.1 p.2) (cons 32)). apply fields_words. apply Forall_map.
  eapply Forall_impl; [exact Hps|]. intros p Hp. apply (tok_plain p Hp).
Qed.

Lemma rposition_text_end l d bs : is_blank d = false -> Forall (fun b => is_blank b = true) bs ->
  rposition_text (l ++ [d] ++ bs) = Some (length l).
Proof.
  intros Hd Hbs. unfold rposition_text. rewrite !reverse_app. rewrite <-app_assoc. cbn [app].
  change (reverse [d]) with [d]. cbn [app].
  assert (position (fun b => negb (is_blank b)) (reverse bs ++ d :: reverse l) = Some (length bs)) as ->.
  { rewrite <-(length_reverse bs). eapply position_intro; [by rewrite list_lookup_middle|by rewrite Hd|].
    intros j y Hj Hy. rewrite lookup_app_l in Hy by lia. apply list_elem_of_lookup_2 in Hy.
    rewrite elem_of_reverse in Hy. rewrite Forall_forall in Hbs. by rewrite (Hbs y Hy). }
  cbn [fmap option_fmap option_map]. f_equal. rewrite !length_app. cbn [length]. lia.
Qed.

(** The pairs the parser sees. *)
Lemma parse_line_pairs pre qs bs : qs <> [] -> Forall good_pair qs ->
  find_bytes pre (LINE_PREFIX ++ text " ") = None -> Forall (fun b => is_blank b = true) bs ->
  let line := pre ++ (LINE_PREFIX ++ words qs) ++ bs in
  find_bytes line (LINE_PREFIX ++ text " ") = Some (length pre) /\
  mapM key_value (fields (drop (length pre + length (LINE_PREFIX ++ text " ")) line)) = Some qs.
Proof.
  intros Hne Hall Hpre Hbs line.
  assert (exists r, words qs = 32 :: r) as [r Hr] by (destruct qs as [|q qs]; [done|]; eexists; done).
  split.
  - unfold line. rewrite Hr. rewrite <-app_assoc. cbn [app].
    change (LINE_PREFIX ++ 32 :: r ++ bs) with (91 :: text "tripwire] " ++ r ++ bs).
    change (LINE_PREFIX ++ text " ") with (91 :: text "tripwire] ") in *. apply find_marker; [|done].
    apply (bool_decide_unpack _). by vm_compute.
  - unfold line. rewrite drop_app_add' by done.
    assert (fields (drop (length (LINE_PREFIX ++ text " ")) ((LINE_PREFIX ++ words qs) ++ bs)) = map (fun p => tok p.1 p.2) qs) as ->.
    { rewrite <-(fields_tokens qs bs) by done. rewrite Hr. change (length (LINE_PREFIX ++ text " ")) with 11%nat.
      symmetry. apply (fields_blank [] 32 (r ++ bs)). done. }
    by apply mapM_key_value.
Qed.

Lemma take_before {A} (ps : list A) q : take (length (ps ++ [q]) - 1) (ps ++ [q]) = ps.
Proof. rewrite length_app. cbn [length]. replace (length ps + 1 - 1)%nat with (length ps) by lia. apply take_app_length. Qed.

Lemma parse_usize_Some l m : parse_usize l = Some m -> forallb is_ascii_digit l = true /\ m = dec_val l.
Proof.
  unfold parse_usize. destruct l as [|c l]; [done|]. generalize (dec_val (c :: l)). intros v.
  destruct (forallb is_ascii_digit (c :: l)); [|done]. cbn [andb]. case_match; [|done]. by intros [= <-].
Qed.

(** Digits after a positive number make another one. *)
Lemma parse_glued n x m : uint 64 n -> 0 < n -> x <> [] -> parse_usize (put_dec n ++ x) = Some m -> m <> n.
Proof.
  intros Hu Hn Hx Hp. destruct (put_dec_spec n Hu) as (_ & _ & Hval).
  apply parse_usize_Some in Hp as [Hd ->]. rewrite forallb_app in Hd. apply andb_true_iff in Hd as [_ Hd].
  unfold dec_val. rewrite foldl_app, foldl_dec. fold (dec_val (put_dec n)). rewrite Hval.
  assert (0 <= dec_val x) as H0.
  { clear -Hd. induction x as [|d x IH]; [done|]. cbn in Hd. apply andb_true_iff in Hd as [H1 H2]. rewrite dec_val_cons. specialize (IH H2).
    unfold is_ascii_digit in H1. pose proof (Z.pow_nonneg 10 (alen x)). nia. }
  assert (10 <= 10 ^ alen x).
  { change 10 with (10 ^ 1) at 1. apply Z.pow_le_mono_r; [lia|]. destruct x; [done|]. rewrite alen_cons. pose proof (alen_nonneg x). lia. }
  nia.
Qed.

(** A line with text right after its [n=] is not complete. *)
Lemma parse_line_torn pre ps x bs : ps <> [] -> alen ps < 2 ^ 64 -> Forall good_pair ps ->
  find_bytes pre (LINE_PREFIX ++ text " ") = None -> Forall (fun b => is_blank b = true) bs -> plain x ->
  parse_line (pre ++ (LINE_PREFIX ++ words (ps ++ [(text "n", put_dec (alen ps))])) ++ x ++ bs) = None.
Proof.
  intros Hne Hlen Hps Hpre Hbs [Hx HFx].
  assert (uint 64 (alen ps)) as Hu by (split; [apply alen_nonneg|done]).
  set (qs := ps ++ [(text "n", put_dec (alen ps) ++ x)]).
  assert (Forall good_pair qs) as Hall.
  { apply Forall_app. split; [done|]. constructor; [|constructor]. destruct (put_dec_plain _ Hu) as [Hp1 Hp2].
    split; [by apply plain_dec|]. split; [|by repeat constructor]. split; [cbn; by destruct (put_dec (alen ps))|]. by apply Forall_app. }
  assert (pre ++ (LINE_PREFIX ++ words (ps ++ [(text "n", put_dec (alen ps))])) ++ x ++ bs = pre ++ (LINE_PREFIX ++ words qs) ++ bs) as ->.
  { unfold qs. rewrite !words_app. unfold words at 2 4. cbn [map concat fst snd]. unfold tok. rewrite ?app_nil_r, <-?app_assoc. cbn [app]. by rewrite <-?app_assoc. }
  destruct (parse_line_pairs pre qs bs) as [Hf Hm]; [by destruct ps|done|done|done|]. unfold parse_line. rewrite Hf. cbn [mbind option_bind]. rewrite Hm.
  cbn [mbind option_bind]. assert (last qs = Some (text "n", put_dec (alen ps) ++ x)) as -> by apply last_snoc.
  assert (take (length qs - 1) qs = ps) as -> by apply take_before. cbn [mbind option_bind].
  rewrite (bool_decide_eq_true_2 (text "n" = text "n")) by done. rewrite andb_true_l.
  destruct (forallb is_ascii_digit (put_dec (alen ps) ++ x)); [|done]. destruct (parse_usize (put_dec (alen ps) ++ x)) as [m|] eqn:En; [|done].
  cbn [mbind option_bind]. destruct (Z.eqb_spec m (alen ps)) as [->|]; [exfalso|done].
  assert (0 < alen ps) by (destruct ps; [done|]; rewrite alen_cons; pose proof (alen_nonneg ps); lia).
  by apply parse_glued in En.
Qed.

(** A complete line of good pairs is read back. *)
Lemma parse_line_words pre ps bs : ps <> [] -> alen ps < 2 ^ 64 -> Forall good_pair ps ->
  find_bytes pre (LINE_PREFIX ++ text " ") = None -> Forall (fun b => is_blank b = true) bs ->
  let body := LINE_PREFIX ++ words (ps ++ [(text "n", put_dec (alen ps))]) in
  parse_line (pre ++ body ++ bs) = Some {|
    line_text := body; line_version := get_pair (text "v") ps; line_src := get_pair (text "src") ps;
    line_v1 := if bool_decide (get_pair (text "v") ps = Some (put_dec SCHEMA_VERSION)) then Some (decode_v1 ps) else None |}.
Proof.
  intros Hne Hlen Hps Hpre Hbs body.
  assert (uint 64 (alen ps)) as Hu by (split; [apply alen_nonneg|done]).
  assert (Forall good_pair (ps ++ [(text "n", put_dec (alen ps))])) as Hall.
  { apply Forall_app. split; [done|]. constructor; [|constructor].
    split; [by apply plain_dec|]. split; [by apply put_dec_plain|]. by repeat constructor. }
  remember (ps ++ [(text "n", put_dec (alen ps))]) as qs eqn:Eqs.
  destruct (parse_line_pairs pre qs bs) as [Hf Hm]; [rewrite Eqs; by destruct ps|done|done|done|]. fold body in Hf, Hm.
  unfold parse_line. rewrite Hf. cbn [mbind option_bind]. rewrite Hm. cbn [mbind option_bind].
  rewrite Eqs at 1. rewrite last_snoc. cbn [mbind option_bind].
  assert (take (length qs - 1) qs = ps) as -> by (rewrite Eqs; apply take_before).
  rewrite (bool_decide_eq_true_2 (text "n" = text "n")) by done. rewrite andb_true_l.
  assert (forallb is_ascii_digit (put_dec (alen ps)) = true) as ->.
  { pose proof (put_dec_parse _ Hu) as Hp. unfold parse_usize in Hp. destruct (put_dec (alen ps)); [done|].
    destruct (forallb is_ascii_digit (z :: l)); [done|done]. }
  rewrite put_dec_parse by done. cbn [mbind option_bind]. rewrite Z.eqb_refl. cbn [negb].
  destruct (put_dec_last _ Hu) as (l & d & El & Hd).
  assert (exists b0, body = b0 ++ [d]) as [b0 Hb0].
  { unfold body. rewrite Eqs, words_app. unfold words at 2. cbn [map concat fst snd]. unfold tok. rewrite El.
    exists (LINE_PREFIX ++ words ps ++ 32 :: text "n" ++ text "=" ++ l). cbn [app]. rewrite app_nil_r, <-!app_assoc. cbn [app].
    by rewrite <-!app_assoc. }
  assert (rposition_text (pre ++ body ++ bs) = Some (length (pre ++ b0))) as ->.
  { rewrite Hb0, <-(app_assoc b0), app_assoc. by apply rposition_text_end. }
  f_equal. f_equal. rewrite drop_app_length.
  replace (S (length (pre ++ b0)) - length pre)%nat with (length body); [by rewrite take_app_length|].
  rewrite Hb0, !length_app. cbn [length]. lia.
Qed.

(** ** The line's pairs *)

Definition is_comma (b : Z) : bool := b =? 44.

Lemma split_on_list sep c w ws : sep c = true -> Forall (fun b => sep b = false) w ->
  Forall (Forall (fun b => sep b = false)) ws -> split_on sep (w ++ concat (map (cons c) ws)) = w :: ws.
Proof.
  intros Hc Hw Hws. revert w Hw. induction Hws as [|w' ws Hw' _ IH]; intros w Hw; cbn [map concat].
  - rewrite app_nil_r. by apply split_on_word.
  - change ((c :: w') ++ ?r) with (c :: (w' ++ r)). rewrite split_on_sep, (split_on_word _ w), IH by done. done.
Qed.

Lemma range_cons n : 1 <= n -> range n = 0 :: map Z.of_nat (seq 1 (Z.to_nat n - 1)).
Proof. intros Hn. unfold range. destruct (Z.to_nat n) as [|m] eqn:E; [lia|]. cbn. by rewrite Nat.sub_0_r. Qed.

Lemma put_values_list value k n : 1 <= n ->
  put_values value k n = put_dec (value k 0) ++
    concat (map (cons 44) (map (fun i => put_dec (value k i)) (map Z.of_nat (seq 1 (Z.to_nat n - 1))))).
Proof.
  intros Hn. unfold put_values. rewrite range_cons by done. cbn [map concat app]. f_equal. f_equal.
  rewrite (map_map (fun i => put_dec _)). apply map_ext_in. intros i (j & <- & Hj)%in_map_iff.
  apply in_seq in Hj. rewrite (proj2 (Z.eqb_neq _ _)) by lia. done.
Qed.

Section values.
Context (value : Key -> Z -> Z) (Hvalue : forall k i, uint 64 (value k i)).

(** The comma list of a key holds its values. *)
Lemma put_values_split k n : 1 <= n ->
  split_on is_comma (put_values value k n) = map (fun i => put_dec (value k i)) (range n).
Proof using Hvalue.
  intros Hn. rewrite put_values_list, range_cons by done. cbn [map].
  assert (forall i, Forall (fun b => is_comma b = false) (put_dec (value k i))) as HF.
  { intros i. destruct (put_dec_spec (value k i) (Hvalue k i)) as (H & _). eapply Forall_impl; [exact H|].
    intros d Hd. cbv beta in *. unfold is_comma. lia. }
  apply split_on_list; [done|done|]. apply Forall_map. apply Forall_forall. intros i _. apply HF.
Qed.

Lemma put_values_plain k n : 1 <= n -> plain (put_values value k n).
Proof using Hvalue.
  intros Hn. rewrite put_values_list by done. pose proof (fun i => put_dec_plain _ (Hvalue k i)) as Hp. split.
  - destruct (Hp 0) as [H _]. by destruct (put_dec (value k 0)).
  - apply Forall_app. split; [apply Hp|]. apply Forall_concat, Forall_map, Forall_map, Forall_forall.
    intros i _. constructor; [done|apply Hp].
Qed.

Lemma key_name_good k v : plain v -> good_pair (key_name k, v).
Proof using.
  intros Hv. split; [|split; [done|]]; cbn [fst].
  - apply plain_dec. by destruct k.
  - apply Forall_forall. intros b Hb. apply negb_true_iff.
    assert (forallb (fun b => negb (b =? 61)) (key_name k) = true) as H by by destruct k.
    rewrite forallb_forall in H. apply H. by apply list_elem_of_In.
Qed.

Lemma values_pos w n : 1 <= n -> 1 <= values w n.
Proof using. destruct w; cbn; unfold CLASS_COUNT; lia. Qed.

Lemma line_pairs_good src mode cpu t n zero : uint 8 cpu -> uint 64 t -> 1 <= n <= MAX_CPUS ->
  Forall good_pair (line_pairs src mode cpu t n zero value).
Proof using Hvalue.
  intros Hc Ht Hn. unfold line_pairs. apply Forall_app. split.
  - assert (forall s v, plain (text s) -> forallb (fun b => negb (b =? 61)) (text s) = true -> plain v ->
      good_pair (text s, v)) as Hg.
    { intros s v Hs He Hv. split; [done|split; [done|]]. apply Forall_forall. intros b Hb. apply negb_true_iff.
      rewrite forallb_forall in He. apply He. by apply list_elem_of_In. }
    unfold prefix_pairs, MAX_CPUS, uint in *.
    repeat (apply Forall_cons; split); try apply Forall_nil_2; apply Hg; try done;
      first [by apply plain_dec | by destruct src; apply plain_dec | apply put_dec_plain; unfold uint, SCHEMA_VERSION; lia].
  - unfold key_pairs. apply Forall_map, Forall_forall. intros k _. apply key_name_good. apply put_values_plain.
    apply values_pos. lia.
Qed.
End values.

Lemma key_index_get_name k : key_index_get (key_name k) = Some (key_index k).
Proof. destruct k; vm_compute; reflexivity. Qed.

Lemma key_index_range k : 0 <= key_index k < 61.
Proof. destruct k; cbn; lia. Qed.

Lemma decode_keys value n ks arr k : NoDup ks -> alen arr = 61 ->
  (foldl (fun values '(k, v) =>
       match key_index_get k with Some i => values.[i <- v] | None => values end) arr (key_pairs value n ks)).[key_index k] =
  if bool_decide (k ∈ ks) then Some (printed_value value n k) else arr.[key_index k].
Proof.
  intros Hnd. revert arr. induction Hnd as [|k' ks Hk' _ IH]; intros arr Hlen; [done|].
  cbn [key_pairs map foldl]. rewrite key_index_get_name. fold (key_pairs value n ks).
  rewrite IH by by rewrite alen_aset. pose proof (key_index_range k). pose proof (key_index_range k').
  destruct (decide (k = k')) as [->|Hne].
  - rewrite bool_decide_eq_false_2 by done. rewrite bool_decide_eq_true_2 by by left. apply aget_aset_eq. lia.
  - rewrite aget_aset_ne by (try lia; intros E; apply Hne; by apply key_index_inj).
    rewrite (bool_decide_ext (k ∈ k' :: ks) (k ∈ ks)); [done|]. rewrite elem_of_cons. naive_solver.
Qed.

Lemma KEYS_NoDup : NoDup KEYS.
Proof. apply (bool_decide_unpack _). by vm_compute. Qed.

Lemma elem_of_printed mode zero n k : k ∈ printed mode zero n KEYS <-> omitted mode zero n k = false.
Proof.
  unfold printed. rewrite list_elem_of_In, filter_In, negb_true_iff, <-list_elem_of_In. split; [tauto|].
  intros H. split; [|done]. eapply list_elem_of_lookup_2. apply KEYS_index.
Qed.

Lemma decode_line src mode cpu t n zero value k :
  v1_value (decode_v1 (line_pairs src mode cpu t n zero value)) k =
  Some (if omitted mode zero n k then text "0" else printed_value value n k).
Proof.
  unfold v1_value, decode_v1, line_pairs. cbn [v1_values]. rewrite foldl_app.
  assert (forall arr, foldl (fun values '(k, v) =>
       match key_index_get k with Some i => values.[i <- v] | None => values end) arr (prefix_pairs src cpu t n) = arr) as ->
    by done.
  assert (NoDup (printed mode zero n KEYS)) as Hnd by (apply NoDup_ListNoDup, List.NoDup_filter, NoDup_ListNoDup, KEYS_NoDup).
  rewrite decode_keys by done. destruct (omitted mode zero n k) eqn:E.
  - rewrite bool_decide_eq_false_2 by (rewrite elem_of_printed; congruence).
    apply aget_array_of. change (alen KEYS) with 61. apply key_index_range.
  - by rewrite bool_decide_eq_true_2 by by apply elem_of_printed.
Qed.

Lemma alen_map {A B} (f : A -> B) l : alen (map f l) = alen l.
Proof. unfold alen. by rewrite length_map. Qed.

Lemma line_pairs_short src mode cpu t n zero value : alen (line_pairs src mode cpu t n zero value) <= 66.
Proof.
  unfold line_pairs, key_pairs, prefix_pairs. rewrite alen_app, alen_map, !alen_cons, alen_nil.
  pose proof (printed_short mode zero n) as H. lia.
Qed.

Lemma get_pair_cons name k v ps : get_pair name ((k, v) :: ps) = if bool_decide (k = name) then Some v else get_pair name ps.
Proof. unfold get_pair. cbn [List.find fst]. by destruct (bool_decide (k = name)). Qed.

Lemma line_prefix src mode cpu t n zero value : let ps := line_pairs src mode cpu t n zero value in
  get_pair (text "v") ps = Some (put_dec SCHEMA_VERSION) /\ get_pair (text "src") ps = Some (src_name src) /\
  get_pair (text "cpu") ps = Some (put_dec cpu) /\ get_pair (text "t") ps = Some (put_dec t) /\
  get_pair (text "ncpu") ps = Some (put_dec n).
Proof.
  intros ps. unfold ps, line_pairs, prefix_pairs. cbn [app].
  rewrite !get_pair_cons.
  repeat match goal with
  | |- context [bool_decide (text ?a = text ?b)] =>
      let r := eval vm_compute in (bool_decide (text a = text b)) in
      replace (bool_decide (text a = text b)) with r by (vm_compute; reflexivity)
  end.
  done.
Qed.

(** ** The kernel and the tool agree *)


Definition demo_value (k : Key) (i : Z) : Z :=
  match k with Key_Elrmm => if i =? 0 then 1 else 0 | Key_Twc => 9 | Key_Tick => wrap 64 (100 + i) | _ => 0 end.

