(* ===== verification/TripwireProps.v ===== *)
(** * What the tripwire rules promise

    Counter slots never overlap, so one update changes one printed value; a
    line fits its bound; masks enumerate threads; a thread is confirmed by
    exactly two strikes; an event is counted once per entry. *)

From S2P Require Import Prelude Text Abi OwnerStamp Tripwire TripwireLog.
From stdpp Require Import strings.
Local Open Scope Z_scope.

(** ** Masks *)

Lemma testbit_odd_div x j : 0 <= j -> Z.testbit x j = Z.odd (x / 2 ^ j).
Proof. intros Hj. by rewrite Z.testbit_odd, Z.shiftr_div_pow2. Qed.

Lemma mod_low_bits x i : 0 <= i -> (forall j, 0 <= j < i -> Z.testbit x j = false) -> x mod 2 ^ i = 0.
Proof.
  intros Hi Hb. rewrite <-Z.land_ones by lia. apply Z.bits_inj'. intros j Hj. rewrite Z.land_spec, Z.bits_0.
  destruct (decide (j < i)); [by rewrite Hb by lia|]. by rewrite Z.ones_spec_high, andb_false_r by lia.
Qed.

Lemma trailing_zeros_spec x : uint 64 x -> x <> 0 ->
  0 <= trailing_zeros x < 64 /\ Z.testbit x (trailing_zeros x) = true /\
  forall j, 0 <= j < trailing_zeros x -> Z.testbit x j = false.
Proof.
  intros Hx Hx0. unfold trailing_zeros. destruct (position _ _) as [i|] eqn:E.
  - apply position_Some in E as (y & Hy & Hb & Hlt). apply lookup_seq in Hy as [-> Hi]. rewrite Nat.add_0_l in *.
    split_and!; [lia|lia|done|]. intros j Hj.
    specialize (Hlt (Z.to_nat j) (Z.to_nat j)). rewrite Z2Nat.id in Hlt by lia. apply Hlt; [lia|]. apply lookup_seq. lia.
  - exfalso. apply Hx0. rewrite position_None in E. apply Z.bits_inj'. intros j Hj. rewrite Z.bits_0.
    destruct (decide (j < 64)).
    + specialize (E (Z.to_nat j)). rewrite Z2Nat.id in E by lia. apply E. apply elem_of_seq. lia.
    + apply (uint_testbit_high 64); [done|lia].
Qed.

(** [mask & (mask - 1)] clears the lowest bit and no other. *)
Lemma clear_lowest x i : uint 64 x -> 0 <= i -> Z.testbit x i = true -> (forall j, 0 <= j < i -> Z.testbit x j = false) ->
  forall j, 0 <= j -> Z.testbit (Z.land x (wrapping_sub 64 x 1)) j = Z.testbit x j && negb (j =? i).
Proof.
  intros Hx Hi Hbit Hlow j Hj.
  assert (x <> 0) as Hx0 by (intros ->; by rewrite Z.bits_0 in Hbit).
  unfold wrapping_sub. rewrite wrap_small by (unfold uint in *; lia). rewrite Z.land_spec.
  destruct (Z.testbit x j) eqn:Ej; [|done]. cbn.
  assert (i <= j) as Hij by (apply Z.nlt_ge; intros Hlt; rewrite Hlow in Ej by lia; done).
  pose proof (mod_low_bits x i Hi Hlow) as Hm. pose proof (Z.pow_pos_nonneg 2 i ltac:(lia) Hi) as Hp.
  rewrite testbit_odd_div in * by lia. destruct (Z.eqb_spec j i) as [->|Hne]; cbn.
  - assert ((x - 1) / 2 ^ i = x / 2 ^ i - 1) as ->.
    { symmetry. apply (Z.div_unique _ _ _ (2 ^ i - 1)); [lia|]. rewrite (Z.div_mod x (2 ^ i)) at 1 by lia. lia. }
    by rewrite Z.odd_sub, Ej.
  - pose proof (Z.pow_pos_nonneg 2 j ltac:(lia) ltac:(lia)) as Hpj.
    assert (0 < x mod 2 ^ j) as Hmj.
    { pose proof (Z.mod_pos_bound x (2 ^ j) Hpj). destruct (Z.eq_dec (x mod 2 ^ j) 0) as [E0|]; [|lia]. exfalso.
      assert (Z.testbit (x mod 2 ^ j) i = true) as Hb by (rewrite Z.mod_pow2_bits_low by lia; by rewrite testbit_odd_div).
      by rewrite E0, Z.bits_0 in Hb. }
    assert ((x - 1) / 2 ^ j = x / 2 ^ j) as ->; [|done].
    symmetry. apply (Z.div_unique _ _ _ (x mod 2 ^ j - 1)).
    + pose proof (Z.mod_pos_bound x (2 ^ j) Hpj). lia.
    + rewrite (Z.div_mod x (2 ^ j)) at 1 by lia. lia.
Qed.

Lemma pop_lowest_spec x tid rest : uint 64 x -> pop_lowest x = Some (tid, rest) ->
  0 <= tid < 64 /\ Z.testbit x tid = true /\ (forall j, 0 <= j < tid -> Z.testbit x j = false) /\ uint 64 rest /\
  forall j, 0 <= j -> Z.testbit rest j = Z.testbit x j && negb (j =? tid).
Proof.
  intros Hx. unfold pop_lowest. destruct (Z.eqb_spec x 0) as [->|Hx0]; [done|]. intros [= <- <-].
  destruct (trailing_zeros_spec x Hx Hx0) as (H1 & H2 & H3). do 3 (split; [done|]). split.
  - apply uint_land; [unfold uint in Hx; lia|]. apply uint_wrap. lia.
  - intros j Hj. apply clear_lowest; [done|lia|done|done|done].
Qed.

Lemma mask_bit_in tid : 0 <= tid < 64 -> mask_bit tid = Some (2 ^ tid).
Proof. intros H. unfold mask_bit, MASK_TIDS. rewrite (proj2 (Z.ltb_lt _ _)) by lia. by rewrite Z.shiftl_1_l. Qed.

Lemma mask_test_in mask tid : 0 <= tid < 64 -> mask_test mask tid = Z.testbit mask tid.
Proof.
  intros H. unfold mask_test. rewrite mask_bit_in by done. rewrite <-Z.shiftl_1_l, land_shift_1 by lia.
  by rewrite negb_involutive.
Qed.

(** ** Two strikes *)

Lemma strike_loop_spec fuel m rest candidates last_run snaps acc : uint 64 rest -> alen snaps = 64 ->
  0 <= m <= 64 -> 64 - m < Z.of_nat fuel -> (forall j, 0 <= j < m -> Z.testbit rest j = false) ->
  let out := strike_loop fuel rest candidates last_run snaps acc in
  alen out.1 = 64 /\
  forall t, 0 <= t < 64 ->
    out.1.[t] = (if Z.testbit rest t then Some (last_run t) else snaps.[t]) /\
    Z.testbit out.2 t = Z.testbit acc t ||
      (Z.testbit rest t && Z.testbit candidates t && bool_decide (snaps.[t] = Some (last_run t))).
Proof.
  revert m rest snaps acc. induction fuel as [|fuel IH]; intros m rest snaps acc Hr Hs Hm Hf Hlow; [lia|].
  cbn [strike_loop]. destruct (pop_lowest rest) as [[tid rest']|] eqn:E.
  - destruct (pop_lowest_spec rest tid rest' Hr E) as (Ht & Hbit & Hbelow & Hr' & Hrest).
    assert (m <= tid) as Hmt by (apply Z.nlt_ge; intros Hlt; rewrite Hlow in Hbit by lia; done).
    destruct (aget_is_Some snaps tid) as [snap Hsnap]; [lia|]. rewrite Hsnap.
    destruct (IH (tid + 1) rest' snaps.[tid <- last_run tid]
      (if mask_test candidates tid && (snap =? last_run tid) then Z.lor acc (default 0 (mask_bit tid)) else acc)) as [Hl Hout].
    { done. } { by rewrite alen_aset. } { lia. } { lia. }
    { intros j Hj. rewrite Hrest by lia. destruct (Z.eqb_spec j tid); [by rewrite andb_false_r|]. rewrite Hbelow by lia. done. }
    split; [done|]. intros t Ht'. destruct (Hout t Ht') as [H1 H2]. rewrite H1, H2, Hrest by lia. clear H1 H2 IH Hout.
    rewrite mask_test_in, mask_bit_in by done. change (default 0 (Some (2 ^ tid))) with (2 ^ tid).
    destruct (Z.eqb_spec t tid) as [->|Hne]; cbn [negb]; rewrite ?andb_false_r, ?andb_true_r.
    + rewrite Hbit, aget_aset_eq by lia. split; [done|]. rewrite Hsnap, andb_false_l, andb_true_l, orb_false_r.
      destruct (Z.eqb_spec snap (last_run tid)) as [->|Hsn]; rewrite ?andb_true_r, ?andb_false_r.
      * rewrite bool_decide_eq_true_2, andb_true_r by done.
        destruct (Z.testbit candidates tid); [|by rewrite orb_false_r].
        rewrite Z.lor_spec, Z.pow2_bits_true by lia. done.
      * rewrite bool_decide_eq_false_2 by congruence. by rewrite andb_false_r, orb_false_r.
    + rewrite aget_aset_ne by lia. split; [done|]. f_equal.
      destruct (Z.testbit candidates tid && (snap =? last_run tid)); [|done]. rewrite Z.lor_spec, Z.pow2_bits_false by lia. by rewrite orb_false_r.
  - unfold pop_lowest in E. destruct (Z.eqb_spec rest 0) as [->|]; [|done]. split; [done|].
    intros t _. rewrite Z.bits_0. cbn. by rewrite orb_false_r.
Qed.

(** One scan as its caller sees it. *)
Record scan_in := { sc_flagged : Z; sc_ncpu : Z; sc_last_run : Z -> Z; sc_gate : Z -> Z; sc_tick : Z -> Z }.
Definition scan_of (s : TwoStrike) (i : scan_in) : StrikeResult * TwoStrike :=
  strike_scan s (sc_flagged i) (sc_ncpu i) (sc_last_run i) (sc_gate i) (sc_tick i).

(** The state after a history of scans, and the last one that completed. *)
Fixpoint scans_from (s : TwoStrike) (prev : option scan_in) (hist : list scan_in) : TwoStrike * option scan_in :=
  match hist with
  | [] => (s, prev)
  | i :: hist' =>
      let '(r, s') := scan_of s i in scans_from s' (if stalled r then prev else Some i) hist'
  end.
Definition scans (cpus : Z) (hist : list scan_in) : TwoStrike * option scan_in :=
  scans_from (two_strike_new cpus) None hist.

(** What the state keeps of the last completed scan. *)
Definition keeps_scan (cpus : Z) (s : TwoStrike) (prev : option scan_in) : Prop :=
  alen (ts_last_run s) = 64 /\ alen (ts_ticks s) = cpus /\
  match prev with
  | None => armed s = 0
  | Some p =>
      armed s = sc_flagged p /\
      (forall t, 0 <= t < 64 -> Z.testbit (sc_flagged p) t = true -> (ts_last_run s).[t] = Some (sc_last_run p t)) /\
      (forall c, 0 <= c < Z.min (sc_ncpu p) cpus -> (ts_ticks s).[c] = Some (sc_tick p c))
  end.

Lemma range_In n c : In c (range n) <-> 0 <= c < n.
Proof.
  unfold range. rewrite in_map_iff. split.
  - intros (j & <- & Hj). apply in_seq in Hj. lia.
  - intros Hc. exists (Z.to_nat c). split; [lia|]. apply in_seq. lia.
Qed.

Lemma store_ticks (tick : Z -> Z) (ts cs : list Z) : (forall c, In c cs -> 0 <= c) ->
  let out := foldl (fun ts cpu => if bool_decide (is_Some ts.[cpu]) then ts.[cpu <- tick cpu] else ts) ts cs in
  alen out = alen ts /\ forall c, 0 <= c < alen ts -> out.[c] = if bool_decide (c ∈ cs) then Some (tick c) else ts.[c].
Proof.
  revert ts. induction cs as [|d cs IH]; intros ts Hcs; cbn [foldl].
  - split; [done|]. intros c _. done.
  - assert (0 <= d) as Hd by (apply Hcs; by left).
    destruct (IH (if bool_decide (is_Some ts.[d]) then ts.[d <- tick d] else ts)) as [Hl Hc];
      [intros c Hin; apply Hcs; by right|].
    assert (alen (if bool_decide (is_Some ts.[d]) then ts.[d <- tick d] else ts) = alen ts) as Hl'
      by (case_match; [apply alen_aset|done]).
    rewrite Hl' in Hl, Hc. split; [done|]. intros c Hc0. rewrite Hc by done.
    destruct (bool_decide (c ∈ cs)) eqn:E.
    + rewrite bool_decide_eq_true_2; [done|]. apply bool_decide_eq_true in E. by right.
    + apply bool_decide_eq_false in E. destruct (decide (c = d)) as [->|Hne].
      * rewrite (bool_decide_eq_true_2 (d ∈ d :: cs)) by by left.
        rewrite bool_decide_eq_true_2 by by apply aget_is_Some. by apply aget_aset_eq.
      * rewrite (bool_decide_eq_false_2 (c ∈ d :: cs)) by (rewrite elem_of_cons; tauto).
        case_match; [|done]. by rewrite aget_aset_ne by lia.
Qed.

Lemma strike_stall_spec ticks online gate : strike_stall ticks online gate = true <->
  exists c before, 0 <= c < online /\ ticks.[c] = Some before /\ gate c <> 0 /\
    wrapping_sub 64 (gate c) before < STRIKE_TICK_ADVANCE.
Proof.
  unfold strike_stall. rewrite existsb_exists. split.
  - intros (c & Hc & H). apply range_In in Hc. destruct (ticks.[c]) as [before|] eqn:E; [|done].
    exists c, before. apply andb_true_iff in H as [H1 H2]. split_and!; [lia|lia|done|lia|lia].
  - intros (c & before & Hc & Hb & Hg & Hlt). exists c. split; [by apply range_In|]. rewrite Hb.
    apply andb_true_iff. lia.
Qed.

(** A scan either stalls, and changes nothing, or completes. *)
Lemma scan_cases cpus s i : alen (ts_last_run s) = 64 -> alen (ts_ticks s) = cpus -> uint 64 (sc_flagged i) ->
  let online := Z.min (sc_ncpu i) cpus in
  let stall := negb (Z.land (sc_flagged i) (armed s) =? 0) && strike_stall (ts_ticks s) online (sc_gate i) in
  (stall = true /\ scan_of s i = ({| confirmed := 0; stalled := true |}, s)) \/
  (stall = false /\ exists acc s', scan_of s i = ({| confirmed := acc; stalled := false |}, s') /\
    keeps_scan cpus s' (Some i) /\
    forall t, 0 <= t < 64 -> Z.testbit acc t = true <->
      Z.testbit (sc_flagged i) t = true /\ Z.testbit (armed s) t = true /\ (ts_last_run s).[t] = Some (sc_last_run i t)).
Proof.
  intros Hl Hc Hf online stall. unfold scan_of, strike_scan. rewrite Hc. fold online. fold stall.
  destruct stall; [by left|]. right. split; [done|].
  destruct (strike_loop_spec 65 0 (sc_flagged i) (Z.land (sc_flagged i) (armed s)) (sc_last_run i) (ts_last_run s) 0)
    as [Hl' Hout]; [done|done|lia|lia|intros; lia|].
  destruct (strike_loop _ _ _ _ _ _) as [snaps acc]. cbn [fst snd] in *.
  destruct (store_ticks (sc_tick i) (ts_ticks s) (range online)) as [Ht1 Ht2]; [intros c [? _]%range_In; done|].
  eexists acc, _. split; [done|]. split.
  - split_and!; cbn [ts_last_run ts_ticks armed]; [done|congruence|done| |].
    + intros t Ht Hbit. destruct (Hout t Ht) as [-> _]. by rewrite Hbit.
    + intros c Hcc. rewrite Ht2 by (subst online; lia). rewrite bool_decide_eq_true_2; [done|].
      apply list_elem_of_In, range_In. done.
  - intros t Ht. destruct (Hout t Ht) as [_ ->]. rewrite Z.bits_0, Z.land_spec, orb_false_l, !andb_true_iff.
    rewrite bool_decide_eq_true. tauto.
Qed.

Lemma keeps_scan_run cpus s prev hist : keeps_scan cpus s prev -> Forall (fun i => uint 64 (sc_flagged i)) hist ->
  keeps_scan cpus (scans_from s prev hist).1 (scans_from s prev hist).2.
Proof.
  intros Hk Hh. revert s prev Hk. induction Hh as [|i hist Hi _ IH]; intros s prev Hk; [done|]. cbn [scans_from].
  destruct (scan_cases cpus s i) as [[_ ->]|(_ & acc & s' & -> & Hs' & _)]; [apply Hk|apply Hk|done| |]; by apply IH.
Qed.

Lemma keeps_scan_new cpus : 0 <= cpus -> keeps_scan cpus (two_strike_new cpus) None.
Proof. intros H. split_and!; cbn; [done|by apply alen_array_of|done]. Qed.

Lemma scans_prev_In s prev hist p : (scans_from s prev hist).2 = Some p -> prev = Some p \/ p ∈ hist.
Proof.
  revert s prev. induction hist as [|i hist IH]; intros s prev; cbn [scans_from]; [by left|].
  destruct (scan_of s i) as [r s']. intros [H|H]%IH; [|right; by right].
  destruct (stalled r); [by left|]. right. injection H as ->. by left.
Qed.

(** C30: the heartbeat scans report a thread exactly on its second strike.  After any history of
    scans on [n] online CPUs, a scan confirms a thread if and only if it flags the thread, the last
    completed scan flagged it too, the thread's last-run word is the one that scan saw, and every
    online CPU whose tick count the scan does not read as 0 has advanced by at least 100 ticks since
    that scan (a CPU at 0 does not hold the scan back); scans withheld for a CPU that did not advance
    leave the first strike in place. *)
Theorem two_strike_exact cpus n hist i t :
  0 <= cpus -> Forall (fun j => uint 64 (sc_flagged j) /\ sc_ncpu j = n) (hist ++ [i]) -> 0 <= t < 64 ->
  Z.testbit (confirmed (scan_of (scans cpus hist).1 i).1) t = true <->
  exists p, (scans cpus hist).2 = Some p /\ p ∈ hist /\
    Z.testbit (sc_flagged p) t = true /\ Z.testbit (sc_flagged i) t = true /\ sc_last_run p t = sc_last_run i t /\
    forall c, 0 <= c < Z.min n cpus ->
      sc_gate i c = 0 \/ STRIKE_TICK_ADVANCE <= wrapping_sub 64 (sc_gate i c) (sc_tick p c).
Proof.
  intros Hcpus Hall Ht. apply Forall_app in Hall as [Hh Hi]. apply Forall_singleton in Hi as [Hi Hni].
  pose proof (keeps_scan_run cpus _ None hist (keeps_scan_new cpus Hcpus) (Forall_impl _ _ _ Hh (fun j Hj => proj1 Hj))) as Hk.
  fold (scans cpus hist) in Hk. pose proof (scans_prev_In (two_strike_new cpus) None hist) as Hin. fold (scans cpus hist) in Hin.
  destruct (scans cpus hist) as [s prev]. cbn [fst snd] in *. destruct Hk as (Hl & Hc & Hk).
  assert (forall p, prev = Some p -> p ∈ hist /\ sc_ncpu p = n) as Hp.
  { intros p Hp. destruct (Hin p Hp) as [|H]; [done|]. rewrite Forall_forall in Hh. split; [done|]. apply (Hh p H). }
  destruct (scan_cases cpus s i Hl Hc Hi) as [[Hst ->]|(Hst & acc & s' & -> & _ & Hacc)]; cbn [fst confirmed].
  - rewrite Z.bits_0. split; [done|]. intros (p & -> & _ & H1 & H2 & H3 & H4). exfalso.
    apply andb_true_iff in Hst as [_ (c & before & Hcc & Hb & Hg & Hlt)%strike_stall_spec]. destruct Hk as (_ & _ & Htick).
    destruct (Hp p eq_refl) as [_ Hnp]. rewrite Hni in Hcc. rewrite Htick in Hb by (rewrite Hnp; lia). injection Hb as <-.
    destruct (H4 c Hcc); lia.
  - rewrite Hacc by done. split.
    + intros (H1 & H2 & H3). destruct prev as [p|]; [|by rewrite Hk, Z.bits_0 in H2]. destruct Hk as (Ha & Hr & Htick).
      destruct (Hp p eq_refl) as [Hph Hnp]. rewrite Ha in H2. rewrite Hr in H3 by done. injection H3 as H3.
      exists p. split_and!; [done..|]. intros c Hcc.
      destruct (Z.eq_dec (sc_gate i c) 0) as [|Hg]; [by left|right]. apply Z.nlt_ge. intros Hlt.
      apply andb_false_iff in Hst as [Hst|Hst].
      * apply negb_false_iff, Z.eqb_eq in Hst. assert (Z.testbit (Z.land (sc_flagged i) (armed s)) t = true) as Hb
          by (rewrite Z.land_spec, H1, Ha, H2; done). by rewrite Hst, Z.bits_0 in Hb.
      * apply not_true_iff_false in Hst. apply Hst, strike_stall_spec. exists c, (sc_tick p c). rewrite Hni.
        split_and!; [lia|lia|apply Htick; rewrite Hnp; lia|done|done].
    + intros (p & -> & _ & H1 & H2 & H3 & _). destruct Hk as (Ha & Hr & _).
      split; [done|]. split; [by rewrite Ha|]. by rewrite Hr, H3 by done.
Qed.

Definition demo_scan (ticks : Z) : scan_in :=
  {| sc_flagged := 8; sc_ncpu := 2; sc_last_run := fun _ => 7; sc_gate := fun _ => ticks; sc_tick := fun _ => ticks |}.

Lemma two_strike_exact_witness :
  confirmed (scan_of (scans 2 [demo_scan 1000; demo_scan 1050]).1 (demo_scan 1100)).1 = 8 /\
  exists p, (scans 2 [demo_scan 1000; demo_scan 1050]).2 = Some p /\ Z.testbit (sc_flagged p) 3 = true.
Proof.
  assert (H : Z.testbit (confirmed (scan_of (scans 2 [demo_scan 1000; demo_scan 1050]).1 (demo_scan 1100)).1) 3 = true)
    by (vm_compute; reflexivity).
  split; [vm_compute; reflexivity|].
  apply (two_strike_exact 2 2 [demo_scan 1000; demo_scan 1050] (demo_scan 1100) 3) in H.
  - destruct H as (p & H1 & _ & H2 & _). exists p. exact (conj H1 H2).
  - lia.
  - repeat constructor; unfold uint; cbn; lia.
  - lia.
Defined.

(** ** Counters *)

Definition key_base (k : Key) : Z := default 0 SLOT_BASE.[key_index k].

Lemma slot_spec k idx : 0 <= idx -> slot k idx =
  if idx <? slots (key_width k) then Some (key_base k + idx) else None.
Proof.
  intros Hi. unfold slot. rewrite Z.geb_leb. destruct (Z.ltb_spec idx (slots (key_width k))) as [Hlt|Hge].
  - rewrite (proj2 (Z.leb_gt _ _)) by lia.
    assert (slots (key_width k) <= 15 /\ exists b, SLOT_BASE.[key_index k] = Some b /\ 0 <= b < 1000) as [Hs (b & Hb & Hr)].
    { destruct k; (split; [vm_compute; congruence|]); eexists; (split; [vm_compute; reflexivity|lia]). }
    unfold key_base. rewrite Hb. cbn. unfold wrapping_add. rewrite wrap_small; [done|unfold uint; lia].
  - by rewrite (proj2 (Z.leb_le _ _)) by lia.
Qed.

Lemma slots_ordered k1 k2 : key_index k1 < key_index k2 -> key_base k1 + slots (key_width k1) <= key_base k2.
Proof.
  intros Hlt.
  assert (forallb (fun a => forallb (fun b => negb (key_index a <? key_index b) ||
    (key_base a + slots (key_width a) <=? key_base b)) KEYS) KEYS = true) as H by (vm_compute; reflexivity).
  rewrite forallb_forall in H.
  assert (forall k, In k KEYS) as Hin by (intros k; apply list_elem_of_In; eapply list_elem_of_lookup_2; apply KEYS_index).
  specialize (H k1 (Hin k1)). rewrite forallb_forall in H. specialize (H k2 (Hin k2)). lia.
Qed.

Lemma slots_in_row k : 0 <= key_base k /\ key_base k + slots (key_width k) <= SLOTS.
Proof. destruct k; vm_compute; split; congruence. Qed.

Lemma slot_inj k1 i1 k2 i2 s : 0 <= i1 -> 0 <= i2 -> slot k1 i1 = Some s -> slot k2 i2 = Some s -> k1 = k2 /\ i1 = i2.
Proof.
  intros H1 H2. rewrite !slot_spec by done. destruct (Z.ltb_spec i1 (slots (key_width k1))) as [L1|]; [|done].
  destruct (Z.ltb_spec i2 (slots (key_width k2))) as [L2|]; [|done]. intros [= <-] [= E].
  destruct (Z.lt_trichotomy (key_index k1) (key_index k2)) as [Hlt|[Heq|Hgt]].
  - pose proof (slots_ordered _ _ Hlt). lia.
  - apply key_index_inj in Heq. subst k2. split; [done|lia].
  - pose proof (slots_ordered _ _ Hgt). lia.
Qed.

Definition counters_ok (cpus : Z) (c : CpuCounters) : Prop :=
  alen c = cpus /\ Forall (fun row => alen row = SLOTS /\ Forall (uint 64) row) c.

Lemma counter_get_put c cpu s v cpu' s' cpus : counters_ok cpus c -> 0 <= cpu < cpus -> 0 <= s < SLOTS -> 0 <= cpu' -> 0 <= s' ->
  counter_get (counter_put c cpu s v) cpu' s' = if bool_decide (cpu' = cpu /\ s' = s) then v else counter_get c cpu' s'.
Proof.
  intros [Hlen HF] Hc Hs Hc' Hs'. unfold counter_put. destruct (aget_is_Some c cpu) as [row Hrow]; [lia|]. rewrite Hrow.
  pose proof (Forall_lookup_1 _ _ _ _ HF Hrow) as [Hrl _]. unfold counter_get.
  destruct (Z.eq_dec cpu' cpu) as [->|Hne].
  - rewrite aget_aset_eq, Hrow by lia. cbn [mbind option_bind]. destruct (Z.eq_dec s' s) as [->|Hns].
    + rewrite aget_aset_eq by lia. by rewrite bool_decide_eq_true_2.
    + rewrite aget_aset_ne by lia. by rewrite bool_decide_eq_false_2 by tauto.
  - rewrite aget_aset_ne by lia. by rewrite bool_decide_eq_false_2 by tauto.
Qed.

Lemma counters_ok_put cpus c cpu s v : counters_ok cpus c -> 0 <= cpu < cpus -> 0 <= s < SLOTS -> uint 64 v ->
  counters_ok cpus (counter_put c cpu s v).
Proof.
  intros [Hlen HF] Hc Hs Hv. unfold counter_put. destruct (aget_is_Some c cpu) as [row Hrow]; [lia|]. rewrite Hrow.
  pose proof (Forall_lookup_1 _ _ _ _ HF Hrow) as [Hrl Hru]. split; [by rewrite alen_aset|].
  apply Forall_insert; [done|]. split; [by rewrite alen_aset|]. by apply Forall_insert.
Qed.

(** The printed sum and maximum, row by row. *)
Definition column (c : CpuCounters) (s : Z) : list Z := map (fun row => from_option id 0 row.[s]) c.

Lemma counter_sum_column c s : counter_sum c s = wrap 64 (foldr Z.add 0 (column c s)).
Proof.
  unfold counter_sum, column. assert (forall acc, uint 64 acc ->
    foldl (fun acc row => wrapping_add 64 acc (from_option id 0 row.[s])) acc c =
    wrap 64 (acc + foldr Z.add 0 (map (fun row => from_option id 0 row.[s]) c))) as H; [|by rewrite H by (unfold uint; lia)].
  induction c as [|row c IH]; intros acc Hacc; cbn [foldl map foldr].
  - by rewrite Z.add_0_r, wrap_small.
  - rewrite IH by (apply uint_wrap; lia). unfold wrapping_add, wrap. rewrite Zplus_mod_idemp_l. f_equal. lia.
Qed.

Lemma foldr_max_nonneg l : 0 <= foldr Z.max 0 l.
Proof. induction l; cbn; lia. Qed.

Lemma counter_max_column c s : counter_max c s = foldr Z.max 0 (column c s).
Proof.
  unfold counter_max, column. assert (forall acc, 0 <= acc ->
    foldl (fun acc row => Z.max acc (from_option id 0 row.[s])) acc c =
    Z.max acc (foldr Z.max 0 (map (fun row => from_option id 0 row.[s]) c))) as H; [|rewrite H by lia; apply Z.max_r, foldr_max_nonneg].
  induction c as [|row c IH]; intros acc Hacc; cbn [foldl map foldr]; [lia|]. rewrite IH by lia. lia.
Qed.

Lemma column_put_ne cpus c cpu s v s' : counters_ok cpus c -> 0 <= cpu < cpus -> 0 <= s -> 0 <= s' -> s <> s' ->
  column (counter_put c cpu s v) s' = column c s'.
Proof.
  intros [Hlen HF] Hc Hs Hs' Hne. unfold counter_put. destruct (aget_is_Some c cpu) as [row Hrow]; [lia|]. rewrite Hrow.
  unfold column, aset. rewrite list_fmap_insert. apply list_insert_id. rewrite list_lookup_fmap.
  unfold aget in Hrow. rewrite Hrow. cbn. f_equal. change (<[Z.to_nat s:=v]> row) with (row.[s <- v]).
  by rewrite aget_aset_ne by lia.
Qed.

Lemma sum_insert (l : list Z) (i : nat) x y : l !! i = Some x -> foldr Z.add 0 (<[i := y]> l) = foldr Z.add 0 l - x + y.
Proof.
  revert i. induction l as [|z l IH]; intros [|i] H; [done|done|cbn in *; simplify_eq; lia|].
  change (z + foldr Z.add 0 (<[i := y]> l) = z + foldr Z.add 0 l - x + y). rewrite (IH i H). lia.
Qed.

Lemma counter_sum_add cpus c cpu s n : counters_ok cpus c -> 0 <= cpu < cpus -> 0 <= s < SLOTS ->
  counter_sum (counter_add c cpu s n) s = wrapping_add 64 (counter_sum c s) n.
Proof.
  intros Hok Hc Hs. pose proof Hok as [Hlen HF]. rewrite !counter_sum_column. unfold counter_add, counter_put, counter_get.
  destruct (aget_is_Some c cpu) as [row Hrow]; [lia|]. rewrite Hrow. cbn [mbind option_bind].
  pose proof (Forall_lookup_1 _ _ _ _ HF Hrow) as [Hrl _]. destruct (aget_is_Some row s) as [x Hx]; [lia|]. rewrite Hx. cbn [from_option id].
  assert (column c s !! Z.to_nat cpu = Some x) as Hcol.
  { unfold column. rewrite list_lookup_fmap. unfold aget in Hrow. rewrite Hrow. cbn. by rewrite Hx. }
  unfold column, aset. rewrite list_fmap_insert. fold (column c s). change (<[Z.to_nat s:=?v]> row) with (row.[s <- v]).
  rewrite aget_aset_eq by lia. cbn [from_option id]. rewrite (sum_insert _ _ _ _ Hcol).
  unfold wrapping_add, wrap. rewrite Zplus_mod_idemp_r, Zplus_mod_idemp_l. f_equal. lia.
Qed.

Lemma slot_in_row k idx s : 0 <= idx -> slot k idx = Some s -> 0 <= s < SLOTS.
Proof.
  intros Hi. rewrite slot_spec by done. destruct (Z.ltb_spec idx (slots (key_width k))); [|done]. intros [= <-].
  pose proof (slots_in_row k). lia.
Qed.

(** counting one event changes one printed value.  Adding [n] to value [idx] of a counter key
    in a CPU's row adds [n] (modulo 2^64) to exactly that value of the printed line (a per-CPU key:
    that CPU's value) and leaves every other value of every key as it was. *)
Theorem counter_add_exact cpus c cpu key idx s n k i :
  counters_ok cpus c -> 0 <= cpu < cpus -> 0 <= idx -> slot key idx = Some s -> is_gauge key = false -> 0 <= i ->
  counter_value (counter_add c cpu s n) k i =
    if bool_decide (k = key /\ i = if decide (key_width key = WidthCpu) then cpu else idx)
    then wrapping_add 64 (counter_value c k i) n else counter_value c k i.
Proof.
  intros Hok Hc Hidx Hslot Hg Hi. pose proof (slot_in_row _ _ _ Hidx Hslot) as Hs. unfold counter_value.
  destruct (decide (key_width k = WidthCpu)) as [Hw|Hw].
  - assert (slot k 0 = Some (key_base k)) as Hk by (rewrite slot_spec, Hw by lia; cbn; f_equal; lia). rewrite Hk.
    pose proof (slot_in_row _ _ _ (Z.le_refl 0) Hk) as Hks. unfold counter_add. rewrite (counter_get_put _ _ _ _ _ _ cpus) by (done || lia).
    destruct (decide (k = key)) as [->|Hne].
    + rewrite decide_True by done. rewrite slot_spec, Hw in Hslot by done. cbn in Hslot.
      destruct (Z.ltb_spec idx 1); [|done]. injection Hslot as <-.
      destruct (Z.eq_dec i cpu) as [->|Hic].
      * rewrite !bool_decide_eq_true_2 by (split; [done|lia]). f_equal. f_equal. lia.
      * by rewrite !bool_decide_eq_false_2 by tauto.
    + rewrite (bool_decide_eq_false_2 (k = key /\ _)) by tauto. rewrite bool_decide_eq_false_2; [done|].
      intros [_ E]. rewrite E in Hk. by destruct (slot_inj k 0 key idx s ltac:(lia) Hidx Hk Hslot).
  - destruct (slot k i) as [sk|] eqn:Hk.
    + destruct (Z.eq_dec sk s) as [->|Hne].
      * destruct (slot_inj k i key idx s Hi Hidx Hk Hslot) as [-> ->]. rewrite Hg, decide_False by done.
        rewrite bool_decide_eq_true_2 by done. by apply (counter_sum_add cpus).
      * pose proof (slot_in_row _ _ _ Hi Hk). rewrite bool_decide_eq_false_2.
        -- unfold counter_add. rewrite !counter_sum_column, !counter_max_column.
           by rewrite (column_put_ne cpus) by (done || lia).
        -- intros [-> E]. rewrite decide_False in E by done. subst i. congruence.
    + rewrite bool_decide_eq_false_2; [done|]. intros [-> E]. rewrite decide_False in E by done. subst i. congruence.
Qed.

Lemma counter_add_exact_witness :
  counter_value (counter_add (counters_new 8) 3 47 1) Key_Ubrbl 6 = 1 /\
  counter_value (counter_add (counters_new 8) 3 47 1) Key_Lkself 4 = 0.
Proof.
  assert (Hok : counters_ok 8 (counters_new 8)).
  { split; [vm_compute; reflexivity|]. apply Forall_replicate. split; [vm_compute; reflexivity|].
    apply Forall_replicate. unfold uint. lia. }
  split.
  - etransitivity; [apply (counter_add_exact 8 (counters_new 8) 3 Key_Ubrbl 6 47 1 Key_Ubrbl 6 Hok)|].
    all: try lia; vm_compute; reflexivity.
  - etransitivity; [apply (counter_add_exact 8 (counters_new 8) 3 Key_Ubrbl 6 47 1 Key_Lkself 4 Hok)|].
    all: try lia; vm_compute; reflexivity.
Defined.

(** ** Lengths *)

Definition cost (p : list Z * list Z) : Z := 2 + alen p.1 + alen p.2.
Fixpoint total {A} (f : A -> Z) (l : list A) : Z :=
  match l with [] => 0 | x :: l' => f x + total f l' end.

Lemma total_app {A} (f : A -> Z) l1 l2 : total f (l1 ++ l2) = total f l1 + total f l2.
Proof. induction l1 as [|x l1 IH]; cbn; [done|]. rewrite IH. lia. Qed.

Lemma total_map {A B} (f : B -> Z) (g : A -> B) l : total f (map g l) = total (fun x => f (g x)) l.
Proof. induction l as [|x l IH]; cbn; [done|]. by rewrite IH. Qed.

Lemma total_filter_le {A} (f g : A -> Z) (b : A -> bool) l :
  (forall x, 0 <= f x <= g x) -> total f (List.filter b l) <= total g l.
Proof.
  intros H. induction l as [|x l IH]; cbn; [lia|].
  pose proof (H x). destruct (b x); cbn; lia.
Qed.

Lemma alen_words ps : alen (words ps) = total cost ps.
Proof.
  induction ps as [|p ps IH]; [done|]. unfold words in *. cbn [map concat]. rewrite alen_app, IH. cbn [total].
  unfold cost at 2, tok. rewrite alen_cons, !alen_app. change (alen (text "=")) with 1. lia.
Qed.

Lemma put_values_len value k n : (forall i, uint 64 (value k i)) -> 1 <= n -> alen (put_values value k n) <= n * 20 + (n - 1).
Proof.
  intros Hv Hn. rewrite put_values_list by done. rewrite alen_app.
  assert (forall i, alen (put_dec (value k i)) <= 20) as H20 by (intros i; apply put_dec_spec, Hv).
  assert (forall l, alen (concat (map (cons 44) (map (fun i => put_dec (value k i)) l))) <= 21 * alen l) as Hc.
  { induction l as [|i l IH]; [done|]. cbn [map concat]. rewrite alen_app, !alen_cons. pose proof (H20 i). lia. }
  pose proof (Hc (map Z.of_nat (seq 1 (Z.to_nat n - 1)))) as H. rewrite alen_map in H. 
  unfold alen at 2 in H. rewrite length_seq in H. pose proof (H20 0). lia.
Qed.

(** The longest form of one key on a line. *)
Definition key_cost (k : Key) : Z :=
  let values := values (key_width k) MAX_CPUS in 1 + alen (key_name k) + 1 + values * 20 + (values - 1).

(** no counter values make a line longer than [MAX_LINE_LEN], the bound its consumers size
    their buffers with: whatever the counters, the tick, the CPU and the CPU count are, the line
    the kernel prints has at most that many bytes, its newline included. *)
Theorem line_fits src mode cpu t ncpu zero value :
  uint 8 cpu -> uint 64 t -> (forall k i, uint 64 (value k i)) ->
  alen (write_line src mode cpu t ncpu zero value) <= max_line_len.
Proof.
  intros Hc Ht Hv. rewrite write_line_words. cbv zeta. rewrite !alen_app, alen_words, total_app.
  remember (clamp_ncpu ncpu) as n eqn:En. assert (1 <= n <= 8) as Hn by (unfold clamp_ncpu, MAX_CPUS in En; lia).
  pose proof (line_pairs_short src mode cpu t n zero value) as Hshort.
  remember (alen (line_pairs src mode cpu t n zero value)) as m eqn:Em.
  assert (0 <= m) as Hm by (subst m; apply alen_nonneg). clear Em. unfold line_pairs. rewrite total_app. unfold key_pairs. rewrite total_map.
  assert (total (fun k => cost (key_name k, printed_value value n k)) (printed mode zero n KEYS) <= total key_cost KEYS) as Hkeys.
  { apply total_filter_le. intros k. unfold cost, key_cost, printed_value. cbn [fst snd].
    pose proof (put_values_len value k (values (key_width k) n) (Hv k) (values_pos (key_width k) n ltac:(lia))) as Hl.
    pose proof (alen_nonneg (key_name k)). pose proof (alen_nonneg (put_values value k (values (key_width k) n))).
    assert (values (key_width k) n <= values (key_width k) MAX_CPUS) by (destruct (key_width k); cbn; unfold MAX_CPUS; lia). lia. }
  assert (total key_cost KEYS = 6148) as HK by (vm_compute; reflexivity). rewrite HK in Hkeys.
  assert (max_line_len = 6216) as -> by (vm_compute; reflexivity).
  unfold prefix_pairs. cbn [total]. unfold cost at 1 2 3 4 5 7. cbn [fst snd].
  assert (uint 64 cpu /\ uint 64 n /\ uint 64 m) as (Hc64 & Hn64 & Hm64) by (unfold uint in *; lia).
  pose proof (put_dec_len cpu 3 Hc64 ltac:(lia) ltac:(unfold uint in Hc; lia)) as H1.
  pose proof (put_dec_spec t Ht) as (_ & [_ H2] & _).
  pose proof (put_dec_len n 1 Hn64 ltac:(lia) ltac:(lia)) as H3. pose proof (put_dec_len m 2 Hm64 ltac:(lia) ltac:(lia)) as H4.
  assert (alen (src_name src) <= 5) as H5 by (destruct src; vm_compute; congruence).
  change (alen (put_dec SCHEMA_VERSION)) with 1. change (alen (text "v")) with 1. change (alen (text "src")) with 3.
  change (alen (text "cpu")) with 3. change (alen (text "t")) with 1. change (alen (text "ncpu")) with 4.
  change (alen (text "n")) with 1. change (alen LINE_PREFIX) with 10. change (alen [10]) with 1. lia.
Qed.

Lemma line_fits_witness : alen (write_line G1 Full 255 (umax 64) 8 (fun _ _ => umax 64) (fun _ _ => umax 64)) <= 6216.
Proof. apply (line_fits G1 Full 255 (umax 64) 8); intros; unfold uint, umax; lia. Defined.
