(* ===== verification/LogText.v ===== *)
(** * Log messages over ring entries (shared/src/observability.rs)

    A formatted message is laid out over one entry of 48 bytes or two, and
    the drain joins the entries again.  Text is a list of bytes; a copy that
    would leave its array is [None]. *)

From stdpp Require Import strings.
From S2P Require Import Prelude Text Utf8.
Local Open Scope Z_scope.

Inductive LogLevel := LvTrace | LvDebug | LvInfo | LvWarn | LvError | LvFatal.
Definition level_name (l : LogLevel) : list Z :=
  match l with
  | LvTrace => text "TRACE" | LvDebug => text "DEBUG" | LvInfo => text "INFO "
  | LvWarn => text "WARN " | LvError => text "ERROR" | LvFatal => text "FATAL"
  end.

Inductive Subsystem :=
  SsBoot | SsMm | SsSched | SsIpc | SsCap | SsIrq | SsTimer | SsUart | SsGic | SsMmu | SsSmp | SsStorage | SsAudit | SsGpu | SsInput | SsCompositor.
Definition subsystem_name (s : Subsystem) : list Z :=
  match s with
  | SsBoot => text "Boot " | SsMm => text "Mm   " | SsSched => text "Sched" | SsIpc => text "Ipc  "
  | SsCap => text "Cap  " | SsIrq => text "Irq  " | SsTimer => text "Timer" | SsUart => text "Uart "
  | SsGic => text "Gic  " | SsMmu => text "Mmu  " | SsSmp => text "Smp  " | SsStorage => text "Stor "
  | SsAudit => text "Audit" | SsGpu => text "Gpu  " | SsInput => text "Input" | SsCompositor => text "Comp "
  end.

Definition LOG_MSG_CAPACITY : nat := 48.
Definition LOG_CHAIN_CAPACITY : nat := 96.
Definition LOG_FLAG_CONTINUED : Z := 1.
Definition LOG_FLAG_CONTINUATION : Z := 2.
Definition LOG_OVERFLOW_MARK : Z := 126.
Definition LOG_LOST_TAIL_MARK : list Z := text "~<lost>".
Definition LOG_LOST_HEAD_MARK : list Z := text "<lost>~".

Record LogEntry := mk_entry {
  e_timestamp : Z; e_core : Z; e_level : LogLevel; e_subsystem : Subsystem; e_flags : Z; e_len : Z; e_message : list Z
}.

Definition ENTRY_ZERO : LogEntry := mk_entry 0 0 LvTrace SsBoot 0 0 (replicate LOG_MSG_CAPACITY 0).

Definition is_continued (e : LogEntry) : bool := negb (Z.land (e_flags e) LOG_FLAG_CONTINUED =? 0).
Definition is_continuation (e : LogEntry) : bool := negb (Z.land (e_flags e) LOG_FLAG_CONTINUATION =? 0).

Definition entry_text (e : LogEntry) : list Z :=
  let bytes := take (Nat.min (Z.to_nat (e_len e)) LOG_MSG_CAPACITY) (e_message e) in
  take (valid_up_to bytes) bytes.

Definition with_text (self : LogEntry) (flags : Z) (txt : list Z) (mark : bool) : option LogEntry :=
  let len := length txt in
  let put n m := mk_entry (e_timestamp self) (e_core self) (e_level self) (e_subsystem self) flags (wrap 8 (Z.of_nat n)) m in
  if (LOG_MSG_CAPACITY <? len)%nat then None
  else
    let m := txt ++ drop len (replicate LOG_MSG_CAPACITY 0) in
    if mark then
      if (len <? LOG_MSG_CAPACITY)%nat then Some (put (S len) (<[len := LOG_OVERFLOW_MARK]> m)) else None
    else Some (put len m).

(** The loop from [end] down to a boundary. *)
Fixpoint floor_from (s : list Z) (e : nat) : nat :=
  if is_char_boundary s e then e else match e with O => O | S e' => floor_from s e' end.
Definition floor_char_boundary (s : list Z) (max : nat) : nat :=
  if (length s <=? max)%nat then length s else floor_from s max.

Record LogSplit := mk_split { ls_head : list Z; ls_continuation : option (list Z); ls_overflow : bool }.

Definition split_log_message (msg : list Z) (truncated : bool) : LogSplit :=
  if negb truncated && (length msg <=? LOG_MSG_CAPACITY)%nat then mk_split msg None false
  else
    let cut := floor_char_boundary msg LOG_MSG_CAPACITY in
    let head := take cut msg in
    let rest := drop cut msg in
    if negb truncated && (length rest <=? LOG_MSG_CAPACITY)%nat then mk_split head (Some rest) false
    else mk_split head (Some (take (floor_char_boundary rest (LOG_MSG_CAPACITY - 1)) rest)) true.

Record LogMessageBuf := mk_msgbuf { mb_buf : list Z; mb_len : nat; mb_truncated : bool }.
Definition msgbuf_new : LogMessageBuf := mk_msgbuf (replicate LOG_CHAIN_CAPACITY 0) 0 false.

(** [as_str]: [unwrap_or_default] of an invalid text is empty. *)
Definition as_str (b : LogMessageBuf) : list Z :=
  let s := take (mb_len b) (mb_buf b) in if is_str s then s else [].

Definition write_str (b : LogMessageBuf) (s : list Z) : LogMessageBuf :=
  if mb_truncated b then b
  else
    let n := floor_char_boundary s (LOG_CHAIN_CAPACITY - mb_len b) in
    mk_msgbuf (take (mb_len b) (mb_buf b) ++ take n s ++ drop (mb_len b + n) (mb_buf b)) (mb_len b + n) (n <? length s)%nat.

Definition entries (b : LogMessageBuf) (timestamp core_id : Z) (level : LogLevel) (subsystem : Subsystem)
    : option (LogEntry * option LogEntry) :=
  let header := mk_entry timestamp core_id level subsystem 0 0 (replicate LOG_MSG_CAPACITY 0) in
  let split := split_log_message (as_str b) (mb_truncated b) in
  match ls_continuation split with
  | None => e ← with_text header 0 (ls_head split) false; Some (e, None)
  | Some rest =>
      e ← with_text header LOG_FLAG_CONTINUED (ls_head split) false;
      c ← with_text header LOG_FLAG_CONTINUATION rest (ls_overflow split);
      Some (e, Some c)
  end.

Inductive LogLineStatus := Whole | TailLost | HeadLost.
Record LogLine := mk_line { l_first : LogEntry; l_continuation : option LogEntry; l_status : LogLineStatus }.

Definition write_message (l : LogLine) : list Z :=
  match l_status l with HeadLost => LOG_LOST_HEAD_MARK | _ => [] end ++
  entry_text (l_first l) ++ from_option entry_text [] (l_continuation l) ++
  match l_status l with TailLost => LOG_LOST_TAIL_MARK | _ => [] end.

(** [next_log_line]; [pop] is [None] when the call does not return. *)
Definition next_log_line {S} (pop : S -> option (option LogEntry * S)) (pending : option LogEntry) (s : S)
    : option (option LogLine * option LogEntry * S) :=
  '(first, s1) ← match pending with Some e => Some (Some e, s) | None => pop s end;
  match first with
  | None => Some (None, None, s1)
  | Some first =>
      if is_continuation first then Some (Some (mk_line first None HeadLost), None, s1)
      else if negb (is_continued first) then Some (Some (mk_line first None Whole), None, s1)
      else
        '(next, s2) ← pop s1;
        match next with
        | Some n =>
            if is_continuation n && (e_timestamp n =? e_timestamp first) && (e_core n =? e_core first)
            then Some (Some (mk_line first (Some n) Whole), None, s2)
            else Some (Some (mk_line first None TailLost), next, s2)
        | None => Some (Some (mk_line first None TailLost), next, s2)
        end
  end.

Definition timestamp_to_secs_micros (timestamp freq : Z) : Z * Z :=
  if freq =? 0 then (0, 0)
  else let total_us := wrap 64 (timestamp * 1000000 / freq) in (total_us / 1000000, total_us mod 1000000).

(** ** Cutting at character boundaries *)

Lemma floor_at cs n m : Forall is_utf8_char cs -> (n <= length cs)%nat -> (length (concat (take n cs)) <= m)%nat ->
  ((n < length cs)%nat -> (m < length (concat (take (S n) cs)))%nat) -> floor_char_boundary (concat cs) m = length (concat (take n cs)).
Proof.
  intros Hcs Hn Hle Hgt. unfold floor_char_boundary. destruct (Nat.leb_spec (length (concat cs)) m) as [Hm|Hm].
  - destruct (decide (n = length cs)) as [->|Hne]; [by rewrite take_ge by done|]. pose proof (concat_take_le cs (S n) (length cs) ltac:(lia)) as Hc.
    rewrite (take_ge cs (length cs)) in Hc by done. specialize (Hgt ltac:(lia)). lia.
  - assert (n < length cs)%nat as Hlt. { destruct (decide (n = length cs)) as [->|]; [rewrite take_ge in Hle by done; lia|lia]. }
    specialize (Hgt Hlt). clear Hm. revert Hgt. induction m as [|m IH]; intros Hgt.
    + replace (length (concat (take n cs))) with O by lia. done.
    + cbn [floor_from]. destruct (decide (length (concat (take n cs)) = S m)) as [E|Hne].
      * rewrite <-E, boundary_chars by done. done.
      * rewrite (boundary_inside cs n) by (done || lia). apply IH; lia.
Qed.

Lemma floor_str s m : is_str s = true -> exists n cs, Forall is_utf8_char cs /\ s = concat cs /\ (n <= length cs)%nat /\
  (length (concat (take n cs)) <= m)%nat /\ ((n < length cs)%nat -> (m < length (concat (take (S n) cs)))%nat) /\
  floor_char_boundary s m = length (concat (take n cs)).
Proof.
  intros (cs & Hcs & ->)%is_str_chars. destruct (chars_fit cs m) as (n & Hn & Hle & Hgt). exists n, cs. split_and!; try done. by apply floor_at.
Qed.

Lemma floor_prefix s m : is_str s = true -> is_str (take (floor_char_boundary s m) s) = true /\ is_str (drop (floor_char_boundary s m) s) = true /\
  (floor_char_boundary s m <= m)%nat.
Proof.
  intros Hs. destruct (floor_str s m Hs) as (n & cs & Hcs & -> & Hn & Hle & Hgt & ->). rewrite take_concat, drop_concat. split_and!; [| |done].
  - apply is_str_chars. exists (take n cs). split; [by apply Forall_take|done].
  - apply is_str_chars. exists (drop n cs). split; [by apply Forall_drop|done].
Qed.

Lemma floor_all s m : (length s <= m)%nat -> floor_char_boundary s m = length s.
Proof. intros Hm. unfold floor_char_boundary. by rewrite (proj2 (Nat.leb_le _ _)). Qed.

(** After a text that fits, the cut falls in what follows. *)
Lemma floor_app s t m : is_str s = true -> is_str t = true -> (length s <= m)%nat ->
  floor_char_boundary (s ++ t) m = (length s + floor_char_boundary t (m - length s))%nat.
Proof.
  intros (cs & Hcs & ->)%is_str_chars Ht Hm. destruct (floor_str t (m - length (concat cs)) Ht) as (n & ds & Hds & -> & Hn & Hle & Hgt & ->).
  assert (forall k, take (length cs + k) (cs ++ ds) = cs ++ take k ds) as Htk by (intros k; rewrite take_app_ge by lia; repeat f_equal; lia).
  rewrite <-concat_app, (floor_at _ (length cs + n)%nat); [by rewrite Htk, concat_app, length_app|by apply Forall_app|rewrite length_app; lia| |].
  - rewrite Htk, concat_app, length_app. lia.
  - rewrite length_app. intros Hlt. rewrite <-Nat.add_succ_r, Htk, concat_app, length_app. specialize (Hgt ltac:(lia)). lia.
Qed.

(** What follows a cut text does not matter to the cut. *)
Lemma floor_cut s t m : is_str s = true -> is_str t = true -> (m < length s)%nat -> floor_char_boundary (s ++ t) m = floor_char_boundary s m.
Proof.
  intros Hs (ds & Hds & ->)%is_str_chars Hm. destruct (floor_str s m Hs) as (n & cs & Hcs & -> & Hn & Hle & Hgt & ->).
  assert (n < length cs)%nat as Hlt by (destruct (decide (n = length cs)) as [->|]; [rewrite take_ge in Hle by done; lia|lia]).
  rewrite <-concat_app, (floor_at _ n); [by rewrite take_app_le by lia|by apply Forall_app|rewrite length_app; lia|by rewrite take_app_le by lia|].
  intros _. rewrite take_app_le by lia. by apply Hgt.
Qed.

Lemma char_len_4 c : is_utf8_char c -> (0 < length c <= 4)%nat.
Proof.
  unfold is_utf8_char. destruct c as [|lead tl]; [done|]. cbn [char_at]. intros (n & Hn & E)%bind_Some.
  assert (n <= 4)%nat as H4 by (unfold lead_len in Hn; repeat case_match; simplify_eq; lia).
  destruct n as [|[|k]]; [done|injection E; cbn; lia|]. destruct tl as [|b1 tl]; [done|]. case_match; [|done]. injection E. cbn. lia.
Qed.

(** A cut loses less than a character. *)
Lemma floor_near s m : is_str s = true -> (m < length s)%nat -> (m - 3 <= floor_char_boundary s m)%nat.
Proof.
  intros Hs Hm. destruct (floor_str s m Hs) as (n & cs & Hcs & -> & Hn & Hle & Hgt & ->).
  assert (n < length cs)%nat as Hlt by (destruct (decide (n = length cs)) as [->|]; [rewrite take_ge in Hle by done; lia|lia]).
  destruct (lookup_lt_is_Some_2 cs n Hlt) as [c Hc]. specialize (Hgt Hlt). rewrite (concat_take_S cs n c Hc) in Hgt.
  rewrite Forall_lookup in Hcs. pose proof (char_len_4 c (Hcs n c Hc)). lia.
Qed.

Lemma floor_len s m : is_str s = true -> (floor_char_boundary s m <= length s)%nat.
Proof.
  intros Hs. destruct (floor_str s m Hs) as (n & cs & _ & -> & Hn & _ & _ & ->). pose proof (concat_take_le cs n (length cs) Hn) as Hc.
  by rewrite (take_ge cs (length cs)) in Hc by done.
Qed.

(** ** What the two entries keep of a message *)

(** A message that fits the two entries, cut only between characters, is kept
    whole; of a longer one, the whole characters before the overflow mark. *)
Definition kept_text (s : list Z) : list Z :=
  if (length s <=? LOG_MSG_CAPACITY)%nat then s
  else
    let f := floor_char_boundary s LOG_MSG_CAPACITY in
    if (length s <=? f + LOG_MSG_CAPACITY)%nat then s
    else take (f + floor_char_boundary (drop f s) (LOG_MSG_CAPACITY - 1)) s ++ [LOG_OVERFLOW_MARK].

(** The buffer after the writes that make up [s]. *)
Record buf_holds (b : LogMessageBuf) (s : list Z) : Prop := {
  bh_size : length (mb_buf b) = LOG_CHAIN_CAPACITY;
  bh_len : mb_len b = floor_char_boundary s LOG_CHAIN_CAPACITY;
  bh_text : take (mb_len b) (mb_buf b) = take (mb_len b) s;
  bh_truncated : mb_truncated b = (floor_char_boundary s LOG_CHAIN_CAPACITY <? length s)%nat
}.

Lemma write_str_holds b s t : is_str s = true -> is_str t = true -> buf_holds b s -> buf_holds (write_str b t) (s ++ t).
Proof.
  intros Hs Ht [Hsz Hl Htx Htr]. pose proof (floor_len s LOG_CHAIN_CAPACITY Hs) as Hle. unfold write_str. rewrite Htr.
  destruct (Nat.ltb_spec (floor_char_boundary s LOG_CHAIN_CAPACITY) (length s)) as [Hlt|Hge].
  - assert (LOG_CHAIN_CAPACITY < length s)%nat as H96 by (destruct (Nat.le_gt_cases (length s) LOG_CHAIN_CAPACITY) as [E|]; [rewrite floor_all in Hlt by done; lia|done]).
    constructor; rewrite ?(floor_cut s t) by done; [done|done|rewrite take_app_le by lia; done|]. rewrite Htr, length_app.
    symmetry. apply Nat.ltb_lt. lia.
  - assert (floor_char_boundary s LOG_CHAIN_CAPACITY = length s) as El by lia. destruct (floor_prefix s LOG_CHAIN_CAPACITY Hs) as (_ & _ & H96).
    rewrite El in *. set (n := floor_char_boundary t _). assert (n = floor_char_boundary t (LOG_CHAIN_CAPACITY - length s)) as En by (unfold n; by rewrite Hl).
    destruct (floor_prefix t (LOG_CHAIN_CAPACITY - length s) Ht) as (_ & _ & Hn). rewrite <-En in Hn. pose proof (floor_len t (LOG_CHAIN_CAPACITY - length s) Ht) as Hnt. rewrite <-En in Hnt.
    assert (take (mb_len b) (mb_buf b) = s) as Es by (rewrite Htx, Hl; by rewrite take_ge).
    constructor; cbn [mb_buf mb_len mb_truncated]; rewrite ?(floor_app s t) by done; rewrite <-?En.
    + rewrite Es, !length_app, length_take, length_drop, Hsz, Hl. lia.
    + by rewrite Hl.
    + rewrite Es, Hl, app_assoc, take_app_le by (rewrite length_app, length_take; lia). rewrite (take_app_ge s t) by lia. replace (length s + n - length s)%nat with n by lia.
      by rewrite take_ge by (rewrite length_app, length_take; lia).
    + rewrite length_app. destruct (Nat.ltb_spec n (length t)), (Nat.ltb_spec (length s + n) (length s + length t)); lia || done.
Qed.

Lemma writes_hold ws : forall b s, is_str s = true -> Forall (fun w => is_str w = true) ws -> buf_holds b s ->
  buf_holds (foldl write_str b ws) (s ++ concat ws) /\ is_str (s ++ concat ws) = true.
Proof.
  induction ws as [|w ws IH]; intros b s Hs Hws Hb; cbn [foldl concat]; [by rewrite app_nil_r|].
  apply Forall_cons in Hws as [Hw Hws]. rewrite app_assoc. apply IH; [by apply is_str_app|done|by apply write_str_holds].
Qed.

Record split_ok (sp : LogSplit) (s : list Z) : Prop := {
  so_text : ls_head sp ++ match ls_continuation sp with Some r => r | None => [] end ++ (if ls_overflow sp then [LOG_OVERFLOW_MARK] else []) = kept_text s;
  so_head : is_str (ls_head sp) = true /\ (length (ls_head sp) <= LOG_MSG_CAPACITY)%nat;
  so_rest : match ls_continuation sp with
            | Some r => is_str r = true /\ (length r + (if ls_overflow sp then 1 else 0) <= LOG_MSG_CAPACITY)%nat
            | None => ls_overflow sp = false
            end
}.

(** A message kept whole by the buffer. *)
Lemma split_whole s : is_str s = true -> split_ok (split_log_message s false) s.
Proof.
  intros Hs. unfold split_log_message. cbn [negb andb]. destruct (Nat.leb_spec (length s) LOG_MSG_CAPACITY) as [H48|H48].
  { constructor; cbn; [|done|done]. unfold kept_text. rewrite (proj2 (Nat.leb_le _ _)) by done. by rewrite app_nil_r. }
  set (f := floor_char_boundary s LOG_MSG_CAPACITY). destruct (floor_prefix s LOG_MSG_CAPACITY Hs) as (H1 & H2 & H3). fold f in H1, H2, H3.
  pose proof (floor_len s LOG_MSG_CAPACITY Hs) as H4. fold f in H4. rewrite length_drop.
  assert (length (take f s) <= LOG_MSG_CAPACITY)%nat by (rewrite length_take; lia).
  destruct (Nat.leb_spec (length s - f) LOG_MSG_CAPACITY) as [Hr|Hr]; constructor; cbn [ls_head ls_continuation ls_overflow]; try done.
  - unfold kept_text. fold f. rewrite (proj2 (Nat.leb_gt _ _)), (proj2 (Nat.leb_le _ _)) by lia. by rewrite app_nil_r, take_drop.
  - split; [done|]. rewrite length_drop. lia.
  - unfold kept_text. fold f. rewrite !(proj2 (Nat.leb_gt _ _)) by lia. rewrite app_assoc, take_take_drop. done.
  - destruct (floor_prefix (drop f s) (LOG_MSG_CAPACITY - 1) H2) as (H5 & _ & H6). split; [done|]. rewrite length_take. unfold LOG_MSG_CAPACITY in *. lia.
Qed.

(** A message the buffer cut. *)
Lemma split_cut s : is_str s = true -> (LOG_CHAIN_CAPACITY < length s)%nat ->
  split_ok (split_log_message (take (floor_char_boundary s LOG_CHAIN_CAPACITY) s) true) s.
Proof.
  intros Hs H96. set (k := floor_char_boundary s LOG_CHAIN_CAPACITY). destruct (floor_prefix s LOG_CHAIN_CAPACITY Hs) as (K1 & K2 & K3). fold k in K1, K2, K3.
  pose proof (floor_near s LOG_CHAIN_CAPACITY Hs H96) as K4. fold k in K4. unfold LOG_CHAIN_CAPACITY in *. set (t := take k s) in *. set (u := drop k s) in *.
  assert (s = t ++ u) as Es by (by rewrite <-(take_drop k s)). assert (length t = k) as Ek by (unfold t; rewrite length_take; lia).
  unfold split_log_message. cbn [negb andb]. set (f := floor_char_boundary t LOG_MSG_CAPACITY).
  assert (floor_char_boundary s LOG_MSG_CAPACITY = f) as Ef by (rewrite Es; apply floor_cut; [done|done|unfold LOG_MSG_CAPACITY; lia]).
  destruct (floor_prefix t LOG_MSG_CAPACITY K1) as (F1 & F2 & F3). fold f in F1, F2, F3. unfold LOG_MSG_CAPACITY in *.
  assert (floor_char_boundary (drop f s) 47 = floor_char_boundary (drop f t) 47) as Eg.
  { rewrite Es, drop_app_le by lia. destruct (Nat.lt_ge_cases 47 (length (drop f t))) as [Hl|Hl]; [by apply floor_cut|].
    rewrite (floor_app (drop f t) u) by done. rewrite (floor_all (drop f t)) by done.
    assert (floor_char_boundary u (47 - length (drop f t)) = 0%nat); [|lia].
    assert (floor_char_boundary s 96 = k) as Ek2 by done. rewrite Es, floor_app in Ek2 by (done || lia). pose proof Ek2 as Eu. clear Ek2.
    rewrite Ek in Eu. assert (floor_char_boundary u (96 - k) = 0%nat) as Eu0 by lia. clear Eu. rewrite length_drop, Ek in *.
    destruct (floor_str u (96 - k) K2) as (n & cs & Hcs & Ecs & Hn & Hle & Hgt & En). rewrite En in Eu0. rewrite Ecs. rewrite (floor_at cs n); [done|done|done|lia|].
    intros Hlt. specialize (Hgt Hlt). lia. }
  constructor; cbn [ls_head ls_continuation ls_overflow].
  - unfold kept_text. unfold LOG_MSG_CAPACITY. rewrite Ef, !(proj2 (Nat.leb_gt _ _)) by lia. change (48 - 1)%nat with 47%nat. rewrite Eg, app_assoc. f_equal.
    rewrite <-take_take_drop. destruct (floor_prefix (drop f t) 47 F2) as (_ & _ & G3). pose proof (floor_len (drop f t) 47 F2) as G4. rewrite length_drop, Ek in G4.
    rewrite Es. rewrite (take_app_le t u f), (drop_app_le t u f), take_app_le by (rewrite ?length_drop; lia). done.
  - split; [done|]. rewrite length_take. unfold LOG_MSG_CAPACITY. lia.
  - destruct (floor_prefix (drop f t) 47 F2) as (G1 & _ & G3). split; [done|]. rewrite length_take. unfold LOG_MSG_CAPACITY. change (48 - 1)%nat with 47%nat. lia.
Qed.

Lemma with_text_ok h flags txt (mark : bool) : is_str txt = true -> (length txt + (if mark then 1 else 0) <= LOG_MSG_CAPACITY)%nat ->
  exists e, with_text h flags txt mark = Some e /\ entry_text e = txt ++ (if mark then [LOG_OVERFLOW_MARK] else []) /\
    e_flags e = flags /\ e_timestamp e = e_timestamp h /\ e_core e = e_core h /\ e_level e = e_level h /\ e_subsystem e = e_subsystem h.
Proof.
  intros Hs Hlen. unfold with_text, LOG_MSG_CAPACITY in *. destruct (Nat.ltb_spec 48 (length txt)); [lia|]. set (z := drop (length txt) (replicate 48 0)).
  assert (length z = (48 - length txt)%nat) as Hz by (unfold z; rewrite length_drop, length_replicate; done).
  assert (forall n, (n <= 48)%nat -> Nat.min (Z.to_nat (wrap 8 (Z.of_nat n))) 48 = n) as Hw by (intros n Hn; unfold wrap; rewrite Z.mod_small by lia; lia).
  assert (forall w, is_str w = true -> take (valid_up_to w) w = w) as Hv by (intros w Hw'%Nat.eqb_eq; rewrite Hw'; by apply firstn_all).
  destruct mark.
  - destruct (Nat.ltb_spec (length txt) 48); [|lia]. eexists. split; [done|]. split; [|done]. unfold entry_text. cbn [e_len e_message]. unfold LOG_MSG_CAPACITY.
    rewrite Hw by lia. destruct z as [|z0 z]; [cbn in Hz; lia|]. rewrite insert_app_r_alt, Nat.sub_diag by done.
    assert (take (S (length txt)) (txt ++ LOG_OVERFLOW_MARK :: z) = txt ++ [LOG_OVERFLOW_MARK]) as Et.
    { rewrite take_app_ge by lia. replace (S (length txt) - length txt)%nat with 1%nat by lia. done. }
    change (<[0%nat := LOG_OVERFLOW_MARK]> (z0 :: z)) with (LOG_OVERFLOW_MARK :: z). rewrite Et. apply Hv, is_str_app; [done|reflexivity].
  - eexists. split; [done|]. split; [|done]. unfold entry_text. cbn [e_len e_message]. unfold LOG_MSG_CAPACITY. rewrite Hw by lia.
    rewrite take_app_length, app_nil_r. by apply Hv.
Qed.

(** The entries of a message: one, or a head and its continuation. *)
Definition msg_ok (m : LogEntry * option LogEntry) : Prop :=
  is_continuation m.1 = false /\ is_continued m.1 = bool_decide (is_Some m.2) /\
  match m.2 with Some c => is_continuation c = true /\ e_timestamp c = e_timestamp m.1 /\ e_core c = e_core m.1 | None => True end.
Definition msg_text (m : LogEntry * option LogEntry) : list Z := entry_text m.1 ++ from_option entry_text [] m.2.
Definition msg_entries (m : LogEntry * option LogEntry) : list LogEntry := m.1 :: option_list m.2.

Lemma entries_ok b s ts core level sub : is_str s = true -> buf_holds b s ->
  exists m, entries b ts core level sub = Some m /\ msg_ok m /\ msg_text m = kept_text s /\
    e_timestamp m.1 = ts /\ e_core m.1 = core /\ e_level m.1 = level /\ e_subsystem m.1 = sub.
Proof.
  intros Hs Hb. assert (split_ok (split_log_message (as_str b) (mb_truncated b)) s) as [Ht Hh Hr].
  { destruct Hb as [Hsz Hl Htx Htr]. unfold as_str. rewrite Htx, Hl, Htr. destruct (floor_prefix s LOG_CHAIN_CAPACITY Hs) as (-> & _ & Hle).
    destruct (Nat.ltb_spec (floor_char_boundary s LOG_CHAIN_CAPACITY) (length s)) as [Hlt|Hge].
    - apply split_cut; [done|]. destruct (Nat.le_gt_cases (length s) LOG_CHAIN_CAPACITY) as [E|]; [rewrite floor_all in Hlt by done; lia|done].
    - rewrite take_ge by done. by apply split_whole. }
  unfold entries. set (h := mk_entry _ _ _ _ _ _ _). destruct (ls_continuation _) as [r|].
  - destruct Hh as [H1 H2], Hr as [H3 H4]. destruct (with_text_ok h LOG_FLAG_CONTINUED _ false H1) as (e & -> & Ee & Fe & Te & Ce & Le & Se); [cbn; lia|].
    destruct (with_text_ok h LOG_FLAG_CONTINUATION _ _ H3 H4) as (c & Ec & Et & Fc & Tc & Cc & _). cbn [mbind option_bind]. rewrite Ec. cbn [mbind option_bind].
    eexists. split; [done|]. cbn [fst snd]. rewrite Te, Ce, Le, Se. split; [|split; [|done]].
    + unfold msg_ok, is_continuation, is_continued. cbn [fst snd]. rewrite Fe, Fc, Tc, Cc, Te, Ce. by split_and!.
    + unfold msg_text. cbn [fst snd from_option]. rewrite Ee, Et, app_nil_r. done.
  - rewrite Hr in *. destruct Hh as [H1 H2]. destruct (with_text_ok h 0 _ false H1) as (e & -> & Ee & Fe & Te & Ce & Le & Se); [cbn; lia|]. cbn [mbind option_bind].
    eexists. split; [done|]. cbn [fst snd]. rewrite Te, Ce, Le, Se. split; [|split; [|done]].
    + unfold msg_ok, is_continuation, is_continued. cbn [fst snd]. rewrite Fe. by split_and!.
    + unfold msg_text. cbn [fst snd from_option]. by rewrite Ee, <-app_assoc.
Qed.

(** The line of a message. *)
Definition msg_line (m : LogEntry * option LogEntry) : LogLine := mk_line m.1 m.2 Whole.

Lemma msg_line_text m : write_message (msg_line m) = msg_text m.
Proof. unfold write_message, msg_line, msg_text. cbn. by rewrite app_nil_r. Qed.

(** The drain joins a message whose entries come one after the other. *)
Lemma next_log_line_msg {S} (pop : S -> option (option LogEntry * S)) m s s1 s2 : msg_ok m -> pop s = Some (Some m.1, s1) ->
  match m.2 with Some c => pop s1 = Some (Some c, s2) | None => s2 = s1 end ->
  next_log_line pop None s = Some (Some (msg_line m), None, s2).
Proof.
  intros (H1 & H2 & H3) E1 E2. unfold next_log_line, msg_line. rewrite E1. cbn [mbind option_bind]. rewrite H1, H2. destruct (m.2) as [c|] eqn:Em.
  - rewrite bool_decide_true by eauto. cbn [negb]. rewrite E2. cbn [mbind option_bind]. destruct H3 as (-> & -> & ->). by rewrite !Z.eqb_refl.
  - rewrite bool_decide_false by (by intros [? ?]). cbn [negb]. by subst.
Qed.

(** The pop of a list of entries. *)
Definition list_pop (l : list LogEntry) : option (option LogEntry * list LogEntry) :=
  match l with [] => Some (None, []) | e :: l' => Some (Some e, l') end.

(** A message written in any pieces of valid UTF-8 is laid out over one or
    two entries, and the drain joins them into one whole line of its text. *)
Lemma log_message_joined ws ts core level sub rest : Forall (fun w => is_str w = true) ws ->
  exists m, entries (foldl write_str msgbuf_new ws) ts core level sub = Some m /\ msg_ok m /\
    next_log_line list_pop None (msg_entries m ++ rest) = Some (Some (msg_line m), None, rest) /\
    write_message (msg_line m) = kept_text (concat ws) /\
    e_timestamp m.1 = ts /\ e_core m.1 = core /\ e_level m.1 = level /\ e_subsystem m.1 = sub.
Proof.
  intros Hws. destruct (writes_hold ws msgbuf_new [] eq_refl Hws ltac:(by constructor)) as [Hb Hs]. cbn [app] in Hb, Hs.
  destruct (entries_ok _ _ ts core level sub Hs Hb) as (m & E & Hm & Ht & Hh). exists m. split; [done|]. split; [done|]. split; [|by rewrite msg_line_text].
  unfold msg_entries. apply (next_log_line_msg list_pop m _ (option_list m.2 ++ rest)); [done|done|]. by destruct m as [e [c|]].
Qed.

(** A line's text is at most 96 bytes. *)
Lemma kept_length s : is_str s = true -> (length (kept_text s) <= LOG_CHAIN_CAPACITY)%nat.
Proof.
  intros Hs. unfold kept_text. destruct (floor_prefix s LOG_MSG_CAPACITY Hs) as (_ & Hd & Hf). unfold LOG_MSG_CAPACITY, LOG_CHAIN_CAPACITY in *.
  destruct (Nat.leb_spec (length s) 48); [lia|]. destruct (Nat.leb_spec (length s) (floor_char_boundary s 48 + 48)); [lia|].
  destruct (floor_prefix _ (48 - 1) Hd) as (_ & _ & Hg). rewrite length_app, length_take. cbn [length]. lia.
Qed.
