(* ===== verification/LogRing.v ===== *)
(** * The per-core log ring (kernel/src/observability/mod.rs)

    One producer, the owning core, and one consumer, the drain, share a ring
    of 256 entries without a lock.  [push] and [pop] run one memory access at
    a time, in any interleaving, under sequential consistency; writing and
    reading an entry take time, and an entry under a write has no value.
    The specification is an atomic queue of messages with a count of the
    messages lost and the place of the latest loss. *)

From S2P Require Import Prelude Text Utf8 LogText.

Definition LOG_RING_SIZE : Z := 256.
Definition LOG_RING_MASK : Z := LOG_RING_SIZE - 1.

Record LogRing := mk_ring {
  r_entries : list (option LogEntry);
  r_head : Z; r_tail : Z; r_dropped : Z; r_drop_pos : Z; r_reported : Z
}.
Definition ring_init : LogRing := mk_ring (array_of LOG_RING_SIZE (Some ENTRY_ZERO)) 0 0 0 0 0.

Inductive RingItem := RiEntry (e : LogEntry) | RiDropped (n : Z).

Definition slot_index (pos : Z) : Z := Z.land pos LOG_RING_MASK.

Definition put_slot (r : LogRing) (pos : Z) (v : option LogEntry) : LogRing :=
  mk_ring ((r_entries r).[slot_index pos <- v]) (r_head r) (r_tail r) (r_dropped r) (r_drop_pos r) (r_reported r).
Definition get_slot (r : LogRing) (pos : Z) : option LogEntry := mjoin ((r_entries r).[slot_index pos]).
Definition put_head (r : LogRing) (v : Z) : LogRing :=
  mk_ring (r_entries r) v (r_tail r) (r_dropped r) (r_drop_pos r) (r_reported r).
Definition put_tail (r : LogRing) (v : Z) : LogRing :=
  mk_ring (r_entries r) (r_head r) v (r_dropped r) (r_drop_pos r) (r_reported r).
Definition put_dropped (r : LogRing) (v : Z) : LogRing :=
  mk_ring (r_entries r) (r_head r) (r_tail r) v (r_drop_pos r) (r_reported r).
Definition put_drop_pos (r : LogRing) (v : Z) : LogRing :=
  mk_ring (r_entries r) (r_head r) (r_tail r) (r_dropped r) v (r_reported r).
Definition put_reported (r : LogRing) (v : Z) : LogRing :=
  mk_ring (r_entries r) (r_head r) (r_tail r) (r_dropped r) (r_drop_pos r) v.

Notation msg := (LogEntry * option LogEntry)%type.

(** What an access decides: a message published or lost, a pop's result. *)
Inductive label := LPush (m : msg) | LLose (m : msg) | LPop (r : option RingItem).

(** ** Push *)

(** Where a [push] of [m] stands: the access it makes next. *)
Inductive push_pc :=
| PuHead (m : msg)
| PuTail (m : msg) (head : Z)
| PuDropPos (m : msg) (head : Z)
| PuLoadDropped
| PuStoreDropped (dropped : Z)
| PuWrite (m : msg) (pos : Z) (todo : list LogEntry)
| PuWriting (m : msg) (pos : Z) (e : LogEntry) (todo : list LogEntry).

(** One access; [None] when the call has returned.  [pos] walks from [head]
    to [next_head]. *)
Definition push_step (r : LogRing) (p : push_pc) : LogRing * option push_pc * option label :=
  match p with
  | PuHead m => (r, Some (PuTail m (r_head r)), None)
  | PuTail m head =>
      let next_head := wrapping_add 32 head (Z.of_nat (length (msg_entries m))) in
      if wrapping_sub 32 next_head (r_tail r) >? LOG_RING_SIZE then (r, Some (PuDropPos m head), None)
      else (r, Some (PuWrite m head (msg_entries m)), None)
  | PuDropPos m head => (put_drop_pos r head, Some PuLoadDropped, Some (LLose m))
  | PuLoadDropped => (r, Some (PuStoreDropped (r_dropped r)), None)
  | PuStoreDropped dropped => (put_dropped r (wrapping_add 32 dropped 1), None, None)
  | PuWrite m pos (e :: todo) => (put_slot r pos None, Some (PuWriting m pos e todo), None)
  | PuWriting m pos e todo => (put_slot r pos (Some e), Some (PuWrite m (wrapping_add 32 pos 1) todo), None)
  | PuWrite m pos [] => (put_head r pos, None, Some (LPush m))
  end.

(** ** Pop *)

Inductive pop_pc :=
| PoTail
| PoHead (tail : Z)
| PoDropped (tail head : Z)
| PoReported (tail head dropped : Z)
| PoDropPos (tail head dropped reported : Z)
| PoStoreReported (tail dropped reported : Z)
| PoRead (tail : Z)
| PoReading (tail : Z)
| PoStoreTail (tail : Z) (e : LogEntry)
| PoTorn.

(** Past the report: the entry at [tail], if there is one. *)
Definition pop_entry_at (tail head : Z) : option pop_pc * option label :=
  if tail =? head then (None, Some (LPop None)) else (Some (PoRead tail), None).

Definition pop_step (r : LogRing) (p : pop_pc) : LogRing * option pop_pc * option label :=
  match p with
  | PoTail => (r, Some (PoHead (r_tail r)), None)
  | PoHead tail => (r, Some (PoDropped tail (r_head r)), None)
  | PoDropped tail head => (r, Some (PoReported tail head (r_dropped r)), None)
  | PoReported tail head dropped =>
      let reported := r_reported r in
      if dropped =? reported then (r, (pop_entry_at tail head).1, (pop_entry_at tail head).2)
      else (r, Some (PoDropPos tail head dropped reported), None)
  | PoDropPos tail head dropped reported =>
      if r_drop_pos r =? tail
      then (r, Some (PoStoreReported tail dropped reported), Some (LPop (Some (RiDropped (wrapping_sub 32 dropped reported)))))
      else (r, (pop_entry_at tail head).1, (pop_entry_at tail head).2)
  | PoStoreReported tail dropped reported => (put_reported r dropped, None, None)
  | PoRead tail => (r, Some (PoReading tail), None)
  | PoReading tail => (r, Some (match get_slot r tail with Some e => PoStoreTail tail e | None => PoTorn end), None)
  | PoStoreTail tail e => (put_tail r (wrapping_add 32 tail 1), None, Some (LPop (Some (RiEntry e))))
  | PoTorn => (r, Some PoTorn, None)
  end.

(** ** The machine *)

Record config := mk_config { c_ring : LogRing; c_push : option push_pc; c_pop : option pop_pc }.

(** Fewer than 2^32 messages are lost between two reports. *)
Definition few_losses (r : LogRing) (p : push_pc) : Prop :=
  match p with PuStoreDropped dropped => wrapping_add 32 dropped 1 <> r_reported r | _ => True end.

Inductive step : config -> option label -> config -> Prop :=
| st_call_push r m c : step (mk_config r None c) None (mk_config r (Some (PuHead m)) c)
| st_push r p c r' p' l : few_losses r p -> push_step r p = (r', p', l) -> step (mk_config r (Some p) c) l (mk_config r' p' c)
| st_call_pop r p : step (mk_config r p None) None (mk_config r p (Some PoTail))
| st_pop r p c r' c' l : pop_step r c = (r', c', l) -> step (mk_config r p (Some c)) l (mk_config r' p c').

(** A run and what it decided, in order. *)
Inductive run : config -> list label -> config -> Prop :=
| run_nil c : run c [] c
| run_step c l c' tr c'' : run c tr c' -> step c' l c'' -> run c (tr ++ option_list l) c''.

(** ** The specification *)

(** The entries left of the message being read, the messages waiting, how
    many losses are not reported, and how many waiting messages precede the
    latest loss. *)
Record spec := mk_spec { sp_cur : list LogEntry; sp_queue : list (list LogEntry); sp_lost : Z; sp_at : nat }.
Definition spec_init : spec := mk_spec [] [] 0 0.

Inductive spec_step : spec -> label -> spec -> Prop :=
| ss_push cur q lost k m : spec_step (mk_spec cur q lost k) (LPush m) (mk_spec cur (q ++ [msg_entries m]) lost k)
| ss_lose cur q lost k m : spec_step (mk_spec cur q lost k) (LLose m) (mk_spec cur q (lost + 1) (length q))
| ss_next e cur q lost k : spec_step (mk_spec (e :: cur) q lost k) (LPop (Some (RiEntry e))) (mk_spec cur q lost k)
| ss_first e m q lost k : lost = 0 \/ (0 < k)%nat ->
    spec_step (mk_spec [] ((e :: m) :: q) lost k) (LPop (Some (RiEntry e))) (mk_spec m q lost (pred k))
| ss_report q lost n : 0 < n <= lost -> spec_step (mk_spec [] q lost 0) (LPop (Some (RiDropped n))) (mk_spec [] q (lost - n) 0)
| ss_none q lost k : spec_step (mk_spec [] q lost k) (LPop None) (mk_spec [] q lost k).

Inductive spec_run : spec -> list label -> spec -> Prop :=
| sr_nil s : spec_run s [] s
| sr_step s tr s' l s'' : spec_run s tr s' -> spec_step s' l s'' -> spec_run s (tr ++ [l]) s''.
