(* ===== verification/LogInv.v ===== *)
(** * The log ring implements its specification

    The invariant relates the ring's 32-bit positions to unbounded ones: [H]
    entries published, [T] read, [N] losses counted, [R] reported. *)

From S2P Require Import Prelude Text Utf8 LogText LogRing.

Lemma wrap_inj a b : - 2 ^ 32 < a - b < 2 ^ 32 -> wrap 32 a = wrap 32 b -> a = b.
Proof.
  intros Hab E. unfold wrap in E. pose proof (Z.div_mod a (2 ^ 32) ltac:(lia)). pose proof (Z.div_mod b (2 ^ 32) ltac:(lia)). nia.
Qed.
Lemma wrap_add a b : wrapping_add 32 (wrap 32 a) b = wrap 32 (a + b).
Proof. unfold wrapping_add, wrap. by rewrite Zplus_mod_idemp_l. Qed.
Lemma wrap_sub a b : 0 <= a - b < 2 ^ 32 -> wrapping_sub 32 (wrap 32 a) (wrap 32 b) = a - b.
Proof. intros Hab. unfold wrapping_sub, wrap. by rewrite <-Zminus_mod, Z.mod_small. Qed.

Lemma slot_index_mod pos : slot_index pos = pos mod 256.
Proof. unfold slot_index. change LOG_RING_MASK with (Z.ones 8). by rewrite Z.land_ones. Qed.
Lemma slot_wrap pos : slot_index (wrap 32 pos) = slot_index pos.
Proof. rewrite !slot_index_mod. unfold wrap. apply Z.mod_mod_divide. by exists (2 ^ 24). Qed.
Lemma slot_apart a b : 0 < b - a < 256 -> slot_index a <> slot_index b.
Proof.
  rewrite !slot_index_mod. intros Hab E. pose proof (Z.div_mod a 256 ltac:(lia)). pose proof (Z.div_mod b 256 ltac:(lia)). nia.
Qed.

Lemma get_put_same r pos v : alen (r_entries r) = 256 -> get_slot (put_slot r pos v) pos = v.
Proof.
  intros Hl. unfold get_slot. cbn [put_slot r_entries]. pose proof (Z.mod_pos_bound pos 256 ltac:(lia)).
  rewrite aget_aset_eq by (rewrite slot_index_mod; lia). by destruct v.
Qed.
Lemma get_put_other r pos v q : slot_index q <> slot_index pos -> get_slot (put_slot r pos v) q = get_slot r q.
Proof. intros Hne. unfold get_slot. cbn [put_slot r_entries]. rewrite aget_aset_ne; [done|..]; pose proof (Z.mod_pos_bound pos 256 ltac:(lia)); pose proof (Z.mod_pos_bound q 256 ltac:(lia)); rewrite !slot_index_mod in *; lia. Qed.
Lemma get_wrap r pos : get_slot r (wrap 32 pos) = get_slot r pos.
Proof. unfold get_slot. by rewrite slot_wrap. Qed.
Lemma put_wrap r pos v : put_slot r (wrap 32 pos) v = put_slot r pos v.
Proof. unfold put_slot. by rewrite slot_wrap. Qed.

(** ** The invariant *)

(** The entries waiting, and those before the latest loss. *)
Definition waiting (s : spec) : list LogEntry := sp_cur s ++ concat (sp_queue s).
Definition before (s : spec) : Z := alen (sp_cur s ++ concat (take (sp_at s) (sp_queue s))).

(** No unreported loss precedes the next entry. *)
Definition clear_ahead (s : spec) : Prop := sp_lost s = 0 \/ 0 < before s.

Definition written (r : LogRing) (pos : Z) (l : list LogEntry) : Prop :=
  forall i e, l !! i = Some e -> get_slot r (pos + Z.of_nat i) = Some e.

(** A loss placed and not yet counted; a report returned and not yet stored. *)
Definition uncounted (p : option push_pc) : Z := match p with Some (PuLoadDropped | PuStoreDropped _) => 1 | _ => 0 end.
Definition unstored (p : option pop_pc) : Z := match p with Some (PoStoreReported _ d rep) => wrapping_sub 32 d rep | _ => 0 end.

Definition push_inv (r : LogRing) (H T N : Z) (p : option push_pc) : Prop :=
  match p with
  | None | Some (PuHead _) | Some PuLoadDropped => True
  | Some (PuTail m h) | Some (PuDropPos m h) => h = wrap 32 H
  | Some (PuStoreDropped d) => d = wrap 32 N
  | Some (PuWrite m pos todo) => exists w, msg_entries m = w ++ todo /\ pos = wrap 32 (H + alen w) /\ written r H w /\ H + alen (msg_entries m) <= T + 256
  | Some (PuWriting m pos e todo) => exists w, msg_entries m = w ++ e :: todo /\ pos = wrap 32 (H + alen w) /\ written r H w /\ H + alen (msg_entries m) <= T + 256
  end.

(** What a pop knows of the head it loaded. *)
Definition saw_head (s : spec) (H T h0 : Z) (h : Z) : Prop := h = wrap 32 h0 /\ T <= h0 <= H /\ (sp_cur s <> [] -> T < h0).

Definition pop_inv (s : spec) (H T N R : Z) (p : option pop_pc) : Prop :=
  match p with
  | None | Some PoTail => True
  | Some (PoHead t) => t = wrap 32 T
  | Some (PoDropped t h) => t = wrap 32 T /\ exists h0, saw_head s H T h0 h
  | Some (PoReported t h d) => t = wrap 32 T /\ exists h0 d0, saw_head s H T h0 h /\ d = wrap 32 d0 /\ R <= d0 <= N /\ (T < h0 -> d0 = R -> clear_ahead s)
  | Some (PoDropPos t h d rep) => t = wrap 32 T /\ rep = wrap 32 R /\ exists h0 d0, saw_head s H T h0 h /\ d = wrap 32 d0 /\ R < d0 <= N
  | Some (PoStoreReported t d rep) => rep = wrap 32 R /\ exists d0, d = wrap 32 d0 /\ R < d0 <= N
  | Some (PoRead t) | Some (PoReading t) => t = wrap 32 T /\ T < H /\ clear_ahead s
  | Some (PoStoreTail t e) => t = wrap 32 T /\ clear_ahead s /\ waiting s !! 0%nat = Some e
  | Some PoTorn => False
  end.

Record ring_inv (c : config) (s : spec) (H T N R : Z) : Prop := {
  ri_size : alen (r_entries (c_ring c)) = 256;
  ri_head : r_head (c_ring c) = wrap 32 H;
  ri_tail : r_tail (c_ring c) = wrap 32 T;
  ri_dropped : r_dropped (c_ring c) = wrap 32 N;
  ri_reported : r_reported (c_ring c) = wrap 32 R;
  ri_range : T <= H <= T + 256;
  ri_losses : R <= N < R + 2 ^ 32;
  ri_count : H - T = alen (waiting s);
  ri_slots : written (c_ring c) T (waiting s);
  ri_msgs : Forall (fun m => m <> []) (sp_queue s);
  ri_at : (sp_at s <= length (sp_queue s))%nat;
  ri_lost : sp_lost s = N - R + uncounted (c_push c) - unstored (c_pop c);
  ri_place : 0 < sp_lost s -> r_drop_pos (c_ring c) = wrap 32 (T + before s);
  ri_last : uncounted (c_push c) = 1 -> sp_at s = length (sp_queue s);
  ri_push : push_inv (c_ring c) H T N (c_push c);
  ri_pop : pop_inv s H T N R (c_pop c)
}.

Lemma unstored_bounds s H T N R p : R <= N < R + 2 ^ 32 -> pop_inv s H T N R p -> 0 <= unstored p <= N - R.
Proof.
  intros Hn. destruct p as [[]|]; cbn; try lia. intros (-> & d0 & -> & ?). rewrite wrap_sub by lia. lia.
Qed.

Lemma inv_lost c s H T N R : ring_inv c s H T N R -> 0 <= sp_lost s.
Proof.
  intros Hi. rewrite (ri_lost _ _ _ _ _ _ Hi). pose proof (unstored_bounds _ _ _ _ _ _ (ri_losses _ _ _ _ _ _ Hi) (ri_pop _ _ _ _ _ _ Hi)).
  unfold uncounted. repeat case_match; lia.
Qed.

Lemma before_bounds s : (sp_at s <= length (sp_queue s))%nat -> 0 <= before s <= alen (waiting s).
Proof.
  intros Ha. unfold before, waiting. rewrite !alen_app. pose proof (concat_take_le (sp_queue s) (sp_at s) (length (sp_queue s)) Ha) as Hc.
  rewrite (take_ge _ (length _)) in Hc by done. unfold alen in *. lia.
Qed.

(** ** A message is published *)

Lemma waiting_push s m : waiting (mk_spec (sp_cur s) (sp_queue s ++ [msg_entries m]) (sp_lost s) (sp_at s)) = waiting s ++ msg_entries m.
Proof. unfold waiting. cbn. by rewrite concat_app, app_assoc; cbn; rewrite app_nil_r. Qed.

Lemma before_push s m : (sp_at s <= length (sp_queue s))%nat -> before (mk_spec (sp_cur s) (sp_queue s ++ [msg_entries m]) (sp_lost s) (sp_at s)) = before s.
Proof. intros Ha. unfold before. cbn. by rewrite take_app_le. Qed.

Lemma before_lose s n : before (mk_spec (sp_cur s) (sp_queue s) n (length (sp_queue s))) = alen (waiting s).
Proof. unfold before, waiting. cbn. by rewrite firstn_all. Qed.

(** A pop's knowledge survives a published message. *)
Lemma pop_inv_push s m H T N R p : (sp_at s <= length (sp_queue s))%nat -> pop_inv s H T N R p ->
  pop_inv (mk_spec (sp_cur s) (sp_queue s ++ [msg_entries m]) (sp_lost s) (sp_at s)) (H + alen (msg_entries m)) T N R p.
Proof.
  intros Ha. set (s' := mk_spec _ _ _ _). assert (clear_ahead s -> clear_ahead s') as Hc by (unfold clear_ahead, s'; by rewrite before_push).
  assert (forall h0 h, saw_head s H T h0 h -> saw_head s' (H + alen (msg_entries m)) T h0 h) as Hs.
  { intros h0 h (? & ? & ?). split_and!; [done|lia|pose proof (alen_nonneg (msg_entries m)); lia|done]. }
  pose proof (alen_nonneg (msg_entries m)). destruct p as [[]|]; cbn [pop_inv]; try done.
  - intros (? & h0 & ?). split; [done|]. exists h0. auto.
  - intros (? & h0 & d0 & ? & ? & ? & ?). split; [done|]. exists h0, d0. split_and!; auto; lia.
  - intros (? & ? & h0 & d0 & ? & ? & ?). split; [done|]. split; [done|]. exists h0, d0. split_and!; auto; lia.
  - intros (? & ? & ?). split_and!; [done|lia|auto].
  - intros (? & ? & ?). split_and!; [done|lia|auto].
  - intros (? & ? & E). split_and!; [done|auto|]. unfold s'. rewrite waiting_push. by apply lookup_app_l_Some.
Qed.

(** ... and a lost one. *)
Lemma pop_inv_lose s H T N R p : H - T = alen (waiting s) -> pop_inv s H T N R p ->
  pop_inv (mk_spec (sp_cur s) (sp_queue s) (sp_lost s + 1) (length (sp_queue s))) H T N R p.
Proof.
  intros Hw. set (s' := mk_spec _ _ _ _). assert (T < H -> clear_ahead s') as Hc by (intros ?; right; unfold s'; rewrite before_lose; lia).
  destruct p as [[]|]; cbn [pop_inv]; try done.
  - intros (? & h0 & d0 & Hs & ? & ? & ?). split; [done|]. exists h0, d0. split; [done|]. split; [done|]. split; [done|]. intros ? ?. apply Hc. destruct Hs as (_ & ? & _). lia.
  - intros (? & ? & ?). auto.
  - intros (? & ? & ?). auto.
  - intros (? & ? & E). split_and!; [done| |done]. apply Hc. apply lookup_lt_Some in E. unfold alen in Hw. lia.
Qed.

Lemma pop_inv_count s H T N R p : pop_inv s H T N R p -> pop_inv s H T (N + 1) R p.
Proof.
  destruct p as [[]|]; cbn [pop_inv]; try done.
  - intros (? & h0 & d0 & ? & ? & ? & ?). split; [done|]. exists h0, d0. split_and!; try done; lia.
  - intros (? & ? & h0 & d0 & ? & ? & ?). split; [done|]. split; [done|]. exists h0, d0. split_and!; try done; lia.
  - intros (? & d0 & ? & ?). split; [done|]. exists d0. split; [done|]. lia.
Qed.

Lemma msg_entries_len m : 1 <= alen (msg_entries m) <= 2.
Proof. destruct m as [e [c|]]; unfold alen; cbn; lia. Qed.

Lemma written_app r H a b : written r H a -> written r (H + alen a) b -> written r H (a ++ b).
Proof.
  intros Ha Hb i e Hi. apply lookup_app_Some in Hi as [Hi|[Hl Hi]]; [by apply Ha|]. apply Hb in Hi. rewrite <-Hi. f_equal. unfold alen. lia.
Qed.

Lemma written_put r pos v H l : (forall i, 0 <= i < alen l -> slot_index (H + i) <> slot_index pos) -> written r H l -> written (put_slot r pos v) H l.
Proof.
  intros Hne Hw i e Hi. rewrite get_put_other; [by apply Hw|]. apply Hne. apply lookup_lt_Some in Hi. unfold alen. lia.
Qed.

Lemma written_same r r' H l : r_entries r' = r_entries r -> written r H l -> written r' H l.
Proof. intros E Hw i e Hi. unfold get_slot. rewrite E. by apply Hw. Qed.

(** A change of a slot ahead of the published entries. *)
Lemma inv_put_slot r p p' c s H T N R pos v : ring_inv (mk_config r (Some p) c) s H T N R -> H <= pos < T + 256 ->
  uncounted (Some p') = uncounted (Some p) -> push_inv (put_slot r pos v) H T N (Some p') -> ring_inv (mk_config (put_slot r pos v) (Some p') c) s H T N R.
Proof.
  intros [] Hpos Hu Hp. cbn [c_ring c_push c_pop] in *. constructor; cbn [c_ring c_push c_pop put_slot r_entries r_head r_tail r_dropped r_reported r_drop_pos]; try done.
  - by rewrite alen_aset.
  - apply (written_put r pos v); [|done]. intros i Hi. apply slot_apart. lia.
  - by rewrite Hu.
  - by rewrite Hu.
Qed.

Definition matched (s : spec) (l : option label) (s' : spec) : Prop := match l with Some l => spec_step s l s' | None => s' = s end.

(** The store of the head publishes the message. *)
Lemma publish_ok r m pos c s H T N R : ring_inv (mk_config r (Some (PuWrite m pos [])) c) s H T N R ->
  ring_inv (mk_config (put_head r pos) None c) (mk_spec (sp_cur s) (sp_queue s ++ [msg_entries m]) (sp_lost s) (sp_at s)) (H + alen (msg_entries m)) T N R.
Proof.
  intros Hi. pose proof (ri_push _ _ _ _ _ _ Hi) as (w & Ew & -> & Hw & Hfit). rewrite app_nil_r in Ew. subst w. pose proof (msg_entries_len m).
  destruct Hi; constructor; cbn [c_ring c_push c_pop put_head r_entries r_head r_tail r_dropped r_reported r_drop_pos sp_cur sp_queue sp_lost sp_at] in *; try done.
  - lia.
  - rewrite waiting_push, alen_app. lia.
  - rewrite waiting_push. apply written_app; [by apply (written_same r)|]. rewrite <-ri_count0. replace (T + (H - T)) with H by lia. by apply (written_same r).
  - apply Forall_app. split; [done|]. by repeat constructor.
  - rewrite length_app. lia.
  - rewrite before_push by done. done.
  - by apply pop_inv_push.
Qed.

(** The store of the place of a loss. *)
Lemma lose_ok r m h c s H T N R : ring_inv (mk_config r (Some (PuDropPos m h)) c) s H T N R ->
  ring_inv (mk_config (put_drop_pos r h) (Some PuLoadDropped) c) (mk_spec (sp_cur s) (sp_queue s) (sp_lost s + 1) (length (sp_queue s))) H T N R.
Proof.
  intros Hi. pose proof (ri_push _ _ _ _ _ _ Hi) as Hh. cbn in Hh. subst h.
  destruct Hi; constructor; cbn [c_ring c_push c_pop put_drop_pos r_entries r_head r_tail r_dropped r_reported r_drop_pos sp_cur sp_queue sp_lost sp_at] in *; try done.
  - rewrite ri_lost0. cbn. lia.
  - intros _. rewrite before_lose, <-ri_count0. f_equal. lia.
  - by apply pop_inv_lose.
Qed.

Lemma push_ok r p c s H T N R r' p' l : ring_inv (mk_config r (Some p) c) s H T N R -> few_losses r p -> push_step r p = (r', p', l) ->
  exists s' H' N', ring_inv (mk_config r' p' c) s' H' T N' R /\ matched s l s'.
Proof.
  intros Hi Hf E. pose proof (ri_range _ _ _ _ _ _ Hi) as Hr. pose proof (ri_push _ _ _ _ _ _ Hi) as Hp. cbn [c_ring c_push] in Hp.
  destruct p as [m|m h|m h| |d|m pos [|e todo]|m pos e todo]; cbn [push_step push_inv few_losses] in *.
  - injection E as <- <- <-. exists s, H, N. split; [|done]. destruct Hi. by constructor.
  - subst h. rewrite wrap_add in E. pose proof (msg_entries_len m) as Hm. unfold alen in Hm. pose proof (ri_tail _ _ _ _ _ _ Hi) as Et. cbn [c_ring] in Et.
    rewrite Et, wrap_sub in E by lia. exists s, H, N. destruct (Z.gtb_spec (H + Z.of_nat (length (msg_entries m)) - T) LOG_RING_SIZE) as [Hg|Hg]; injection E as <- <- <-;
      (split; [|done]); destruct Hi; constructor; try done.
    cbn. exists []. split; [done|]. split; [by rewrite Z.add_0_r|]. split; [by intros i e Hi'|]. unfold LOG_RING_SIZE in Hg. unfold alen. lia.
  - injection E as <- <- <-. eexists _, H, N. split; [by apply (lose_ok r m h)|]. destruct s. constructor.
  - injection E as <- <- <-. exists s, H, N. split; [|done]. destruct Hi; by constructor.
  - injection E as <- <- <-. subst d. rewrite wrap_add in *. exists s, H, (N + 1). split; [|done]. pose proof (ri_losses _ _ _ _ _ _ Hi) as Hn. pose proof (ri_reported _ _ _ _ _ _ Hi) as Er. cbn in Er.
    assert (N + 1 <> R + 2 ^ 32) as Hne. { intros En. apply Hf. rewrite Er, En. unfold wrap. by rewrite <-(Z.mul_1_l (2 ^ 32)) at 1; rewrite Z.mod_add. }
    destruct Hi; constructor; cbn [c_ring c_push c_pop put_dropped r_entries r_head r_tail r_dropped r_reported r_drop_pos]; try done; [lia| |by apply pop_inv_count].
    rewrite ri_lost0. cbn. lia.
  - injection E as <- <- <-. eexists _, _, N. split; [by apply publish_ok|]. destruct s. constructor.
  - destruct Hp as (w & Ew & -> & Hw & Hfit). injection E as <- <- <-. exists s, H, N. split; [|done]. rewrite Ew, alen_app, alen_cons in Hfit. pose proof (alen_nonneg w). pose proof (alen_nonneg todo).
    rewrite put_wrap. eapply inv_put_slot; [exact Hi|lia|done|]. cbn. exists w. split; [done|]. split; [done|]. split; [|by rewrite Ew, alen_app, alen_cons].
    apply written_put; [|done]. intros i Hi'. apply slot_apart. lia.
  - destruct Hp as (w & Ew & -> & Hw & Hfit). injection E as <- <- <-. exists s, H, N. split; [|done]. rewrite Ew, alen_app, alen_cons in Hfit. pose proof (alen_nonneg w). pose proof (alen_nonneg todo).
    rewrite put_wrap. eapply inv_put_slot; [exact Hi|lia|done|]. cbn. exists (w ++ [e]). rewrite wrap_add, alen_app. split; [by rewrite <-app_assoc|]. split; [by rewrite Z.add_assoc|].
    split; [|by rewrite Ew, alen_app, alen_cons]. apply written_app.
    + apply written_put; [|done]. intros i Hi'. apply slot_apart. lia.
    + intros [|i] e' He'; [|done]. injection He' as <-. rewrite Z.add_0_r. apply get_put_same. apply Hi.
Qed.

(** ** An item is popped *)

(** A step of a pop that decides nothing. *)
Lemma inv_pop_step r p c c' s H T N R : ring_inv (mk_config r p (Some c)) s H T N R -> unstored c' = unstored (Some c) -> pop_inv s H T N R c' ->
  ring_inv (mk_config r p c') s H T N R.
Proof. intros [] Hu Hp. constructor; cbn [c_ring c_push c_pop] in *; try done. by rewrite Hu. Qed.

Lemma saw_none s H T h0 h : saw_head s H T h0 h -> T <= H <= T + 256 -> wrap 32 T = h -> sp_cur s = [] /\ h0 = T.
Proof.
  intros (-> & Hh & Hc) Hr E. apply wrap_inj in E; [|lia]. split; [|by symmetry]. destruct (sp_cur s); [done|]. assert (T < h0) by by apply Hc. lia.
Qed.

(** A loss not yet counted is past every published entry: [H] is its place. *)
Lemma uncounted_place c s H T N R : ring_inv c s H T N R -> N = R -> unstored (c_pop c) = 0 -> sp_lost s <> 0 -> T < H -> 0 < before s.
Proof.
  intros Hi En Eu Hl Hlt. pose proof (ri_lost _ _ _ _ _ _ Hi) as El. assert (uncounted (c_push c) = 1) as E1 by (unfold uncounted in *; repeat case_match; lia).
  pose proof (ri_last _ _ _ _ _ _ Hi E1) as Ea. pose proof (ri_count _ _ _ _ _ _ Hi) as Hw. unfold before. rewrite Ea, firstn_all. unfold waiting in Hw. lia.
Qed.

(** The end of a pop that reports nothing. *)
Lemma pop_entry_ok r p c s H T N R h0 h c' l : ring_inv (mk_config r p (Some c)) s H T N R -> unstored (Some c) = 0 -> saw_head s H T h0 h ->
  (T < h0 -> clear_ahead s) -> pop_entry_at (wrap 32 T) h = (c', l) -> ring_inv (mk_config r p c') s H T N R /\ matched s l s.
Proof.
  intros Hi Hu Hs Hc E. pose proof (ri_range _ _ _ _ _ _ Hi) as Hr. unfold pop_entry_at in E. destruct (Z.eqb_spec (wrap 32 T) h) as [Ht|Ht]; injection E as <- <-.
  - destruct (saw_none _ _ _ _ _ Hs Hr Ht) as [Ec _]. split; [by eapply inv_pop_step; [exact Hi|rewrite Hu|]|]. destruct s as [cur q lost k]. cbn in Ec. subst cur. constructor.
  - destruct Hs as (-> & Hh & _). assert (T <> h0) by (intros ->; done). split; [|done]. eapply inv_pop_step; [exact Hi|by rewrite Hu|]. split; [done|]. split; [lia|]. apply Hc. lia.
Qed.

(** A report: the place of the latest loss has been reached. *)
Lemma pop_report_ok r p s H T N R h d h0 d0 : let c := PoDropPos (wrap 32 T) h d (wrap 32 R) in
  ring_inv (mk_config r p (Some c)) s H T N R -> saw_head s H T h0 h -> d = wrap 32 d0 -> R < d0 <= N -> r_drop_pos r = wrap 32 T ->
  exists s', ring_inv (mk_config r p (Some (PoStoreReported (wrap 32 T) d (wrap 32 R)))) s' H T N R /\
    spec_step s (LPop (Some (RiDropped (wrapping_sub 32 d (wrap 32 R))))) s'.
Proof.
  intros c Hi Hs -> Hd Et. pose proof (ri_range _ _ _ _ _ _ Hi) as Hr. pose proof (ri_losses _ _ _ _ _ _ Hi) as Hn. rewrite wrap_sub by lia.
  pose proof (ri_lost _ _ _ _ _ _ Hi) as Hl. cbn in Hl. assert (0 <= uncounted p) as Hu by (unfold uncounted; repeat case_match; lia).
  pose proof (ri_place _ _ _ _ _ _ Hi ltac:(lia)) as Ep. cbn [c_ring] in Ep. rewrite Et in Ep. pose proof (before_bounds s (ri_at _ _ _ _ _ _ Hi)) as Hb.
  pose proof (ri_count _ _ _ _ _ _ Hi) as Hw. apply wrap_inj in Ep; [|lia]. assert (before s = 0) as Hb0 by lia.
  assert (sp_cur s = [] /\ sp_at s = O) as [Ec Ea].
  { unfold before in Hb0. rewrite alen_app in Hb0. destruct (sp_cur s) as [|e cur]; [split; [done|]|rewrite alen_cons in Hb0; pose proof (alen_nonneg cur); pose proof (alen_nonneg (concat (take (sp_at s) (sp_queue s)))); lia].
    pose proof (ri_msgs _ _ _ _ _ _ Hi) as Hm. pose proof (ri_at _ _ _ _ _ _ Hi) as Ha. destruct (sp_at s) as [|k]; [done|]. destruct (sp_queue s) as [|m q]; [cbn in Ha; lia|].
    apply Forall_cons in Hm as [Hm _]. destruct m as [|e m]; [done|]. unfold alen in Hb0. cbn in Hb0. lia. }
  destruct s as [cur q lost k]. cbn [sp_cur sp_at sp_lost] in *. subst cur k. exists (mk_spec [] q (lost - (d0 - R)) 0). split; [|constructor; lia].
  destruct Hi; constructor; cbn [c_ring c_push c_pop sp_cur sp_queue sp_lost sp_at] in *; try done.
  - cbn. rewrite wrap_sub by lia. lia.
  - intros _. rewrite Et. change (before _) with 0. by rewrite Z.add_0_r.
  - cbn. split; [done|]. by exists d0.
Qed.

(** The entry at the tail is read. *)
Lemma pop_read_ok r p e s H T N R : ring_inv (mk_config r p (Some (PoStoreTail (wrap 32 T) e))) s H T N R ->
  exists s', ring_inv (mk_config (put_tail r (wrap 32 (T + 1))) p None) s' H (T + 1) N R /\ spec_step s (LPop (Some (RiEntry e))) s'.
Proof.
  intros Hi. pose proof (ri_pop _ _ _ _ _ _ Hi) as (_ & Hc & He). pose proof (ri_msgs _ _ _ _ _ _ Hi) as Hm. pose proof (ri_at _ _ _ _ _ _ Hi) as Ha.
  assert (exists s', spec_step s (LPop (Some (RiEntry e))) s' /\ waiting s = e :: waiting s' /\ sp_lost s' = sp_lost s /\ (0 < sp_lost s -> before s = before s' + 1) /\
    Forall (fun m => m <> []) (sp_queue s') /\ (sp_at s' <= length (sp_queue s'))%nat /\ (sp_at s = length (sp_queue s) -> sp_at s' = length (sp_queue s'))) as (s' & Hst & Hw & Hl & Hb & Hm' & Ha' & Hlast).
  { destruct s as [[|e' cur] q lost k]; unfold waiting, before, clear_ahead in *; cbn [sp_cur sp_queue sp_lost sp_at app] in *.
    - destruct q as [|[|e' m] q]; [done|by apply Forall_cons in Hm as [? _]|]. injection He as ->. apply Forall_cons in Hm as [_ Hm]. cbn [length] in Ha.
      exists (mk_spec m q lost (pred k)). cbn [sp_cur sp_queue sp_lost sp_at length]. split; [|split_and!; [done|done| |done|lia|lia]].
      + constructor. destruct Hc as [Hc|Hc]; [by left|right]. destruct k as [|k]; [change (0 < 0) in Hc; lia|lia].
      + intros Hl. destruct Hc as [Hc|Hc]; [lia|]. destruct k as [|k]; [change (0 < 0) in Hc; lia|]. cbn [firstn concat pred app]. unfold alen. cbn. rewrite !length_app. lia.
    - injection He as ->. exists (mk_spec cur q lost k). split_and!; try done; [constructor|]. intros _. unfold alen. cbn. lia. }
  exists s'. split; [|done]. destruct Hi; constructor; cbn [c_ring c_push c_pop put_tail r_entries r_head r_tail r_dropped r_reported r_drop_pos] in *; try done.
  - rewrite Hw, alen_cons in ri_count0. pose proof (alen_nonneg (waiting s')). lia.
  - rewrite Hw, alen_cons in ri_count0. lia.
  - intros i e' Hi'. unfold get_slot. cbn [r_entries]. specialize (ri_slots0 (Datatypes.S i) e'). rewrite Hw in ri_slots0. specialize (ri_slots0 Hi'). unfold get_slot in ri_slots0. rewrite <-ri_slots0. do 3 f_equal. lia.
  - by rewrite Hl.
  - intros Hl'. rewrite Hl in Hl'. rewrite (ri_place0 Hl'), (Hb Hl'). f_equal. lia.
  - intros Hu. by apply Hlast, ri_last0.
  - unfold push_inv in *. destruct p as [[]|]; try done; destruct ri_push0 as (w & ? & ? & ? & ?); exists w; split_and!; try done; lia.
Qed.

Lemma pop_ok r p c s H T N R r' c' l : ring_inv (mk_config r p (Some c)) s H T N R -> pop_step r c = (r', c', l) ->
  exists s' T' R', ring_inv (mk_config r' p c') s' H T' N R' /\ matched s l s'.
Proof.
  intros Hi E. pose proof (ri_range _ _ _ _ _ _ Hi) as Hr. pose proof (ri_losses _ _ _ _ _ _ Hi) as Hn. pose proof (ri_pop _ _ _ _ _ _ Hi) as Hp. cbn [c_pop] in Hp.
  pose proof (ri_reported _ _ _ _ _ _ Hi) as Er. cbn [c_ring] in Er. destruct c as [|t|t h|t h d|t h d rep|t d rep|t|t|t e|]; cbn [pop_step pop_inv] in *.
  - injection E as <- <- <-. exists s, T, R. split; [|done]. eapply inv_pop_step; [exact Hi|done|]. apply (ri_tail _ _ _ _ _ _ Hi).
  - injection E as <- <- <-. subst t. exists s, T, R. split; [|done]. eapply inv_pop_step; [exact Hi|done|]. split; [done|]. exists H. split; [apply (ri_head _ _ _ _ _ _ Hi)|]. split; [lia|].
    intros Hc. pose proof (ri_count _ _ _ _ _ _ Hi) as Hw. unfold waiting in Hw. destruct (sp_cur s) as [|e cur]; [done|]. rewrite alen_app, alen_cons in Hw. pose proof (alen_nonneg cur). pose proof (alen_nonneg (concat (sp_queue s))). lia.
  - injection E as <- <- <-. destruct Hp as (-> & h0 & Hs). exists s, T, R. split; [|done]. eapply inv_pop_step; [exact Hi|done|]. split; [done|]. exists h0, N. split; [done|]. split; [apply (ri_dropped _ _ _ _ _ _ Hi)|]. split; [lia|].
    intros Hh En. pose proof (ri_lost _ _ _ _ _ _ Hi) as Hl. cbn in Hl. destruct (decide (sp_lost s = 0)) as [?|Hne]; [by left|right]. apply (uncounted_place _ _ _ _ _ _ Hi); [done|done|done|destruct Hs as (_ & ? & _); lia].
  - destruct Hp as (-> & h0 & d0 & Hs & -> & Hd & Hc). rewrite Er in E. destruct (Z.eqb_spec (wrap 32 d0) (wrap 32 R)) as [Ed|Ed].
    + apply wrap_inj in Ed; [|lia]. destruct (pop_entry_at (wrap 32 T) h) as [c1 l1] eqn:Ep. injection E as <- <- <-. exists s, T, R. eapply pop_entry_ok; [exact Hi|done|exact Hs|auto|done].
    + injection E as <- <- <-. exists s, T, R. split; [|done]. eapply inv_pop_step; [exact Hi|done|]. split; [done|]. split; [done|]. exists h0, d0. split_and!; try done; [|lia].
      assert (d0 <> R) by (by intros ->). lia.
  - destruct Hp as (-> & -> & h0 & d0 & Hs & -> & Hd). destruct (Z.eqb_spec (r_drop_pos r) (wrap 32 T)) as [Et|Et].
    + injection E as <- <- <-. destruct (pop_report_ok _ _ _ _ _ _ _ _ _ _ _ Hi Hs eq_refl Hd Et) as (s' & ? & ?). by exists s', T, R.
    + destruct (pop_entry_at (wrap 32 T) h) as [c1 l1] eqn:Ep. injection E as <- <- <-. exists s, T, R. eapply pop_entry_ok; [exact Hi|done|exact Hs| |done].
      intros _. destruct (decide (0 < sp_lost s)) as [Hl|Hl]; [|left; pose proof (inv_lost _ _ _ _ _ _ Hi); lia]. right. pose proof (before_bounds s (ri_at _ _ _ _ _ _ Hi)) as Hb.
      pose proof (ri_place _ _ _ _ _ _ Hi Hl) as Epl. cbn [c_ring] in Epl. destruct (decide (before s = 0)) as [E0|]; [|lia]. rewrite E0, Z.add_0_r in Epl. done.
  - injection E as <- <- <-. destruct Hp as (-> & d0 & -> & Hd). exists s, T, d0. split; [|done]. destruct Hi; constructor; cbn [c_ring c_push c_pop put_reported r_entries r_head r_tail r_dropped r_reported r_drop_pos] in *; try done; [lia|].
    rewrite ri_lost0. cbn. rewrite wrap_sub by lia. lia.
  - injection E as <- <- <-. exists s, T, R. split; [|done]. by eapply inv_pop_step.
  - destruct Hp as (-> & Hlt & Hc). injection E as <- <- <-. exists s, T, R. split; [|done]. eapply inv_pop_step; [exact Hi|by case_match|].
    pose proof (ri_count _ _ _ _ _ _ Hi) as Hw. destruct (waiting s) as [|e q] eqn:Ew; [unfold alen in Hw; cbn in Hw; lia|].
    pose proof (ri_slots _ _ _ _ _ _ Hi O e) as Hsl. rewrite Ew, Z.add_0_r in Hsl. cbn [c_ring] in Hsl. rewrite get_wrap, (Hsl eq_refl). split; [done|]. split; [done|]. by rewrite Ew.
  - destruct Hp as (-> & Hp). injection E as <- <- <-. rewrite wrap_add. destruct (pop_read_ok r p e s H T N R Hi) as (s' & ? & ?). by exists s', (T + 1), R.
  - done.
Qed.

(** ** Runs *)

Definition config_init : config := mk_config ring_init None None.

Lemma ring_inv_init : ring_inv config_init spec_init 0 0 0 0.
Proof. by constructor. Qed.

Lemma step_ok c s H T N R l c' : ring_inv c s H T N R -> step c l c' -> exists s' H' T' N' R', ring_inv c' s' H' T' N' R' /\ matched s l s'.
Proof.
  intros Hi Hst. destruct Hst as [r m c|r p c r' p' l Hf E|r p|r p c r' c' l E].
  - exists s, H, T, N, R. split; [|done]. destruct Hi. by constructor.
  - destruct (push_ok _ _ _ _ _ _ _ _ _ _ _ Hi Hf E) as (s' & H' & N' & ? & ?). by exists s', H', T, N', R.
  - exists s, H, T, N, R. split; [|done]. destruct Hi. by constructor.
  - destruct (pop_ok _ _ _ _ _ _ _ _ _ _ _ Hi E) as (s' & T' & R' & ? & ?). by exists s', H, T', N, R'.
Qed.

Lemma run_ok c tr : run config_init tr c -> exists s H T N R, spec_run spec_init tr s /\ ring_inv c s H T N R.
Proof.
  intros Hr. remember config_init as c0 eqn:E0. induction Hr as [c|c l c' tr c'' Hr IH Hst]; subst.
  - exists spec_init, 0, 0, 0, 0. split; [constructor|apply ring_inv_init].
  - destruct (IH eq_refl) as (s & H & T & N & R & Hs & Hi). destruct (step_ok _ _ _ _ _ _ _ _ Hi Hst) as (s' & H' & T' & N' & R' & Hi' & Hm).
    exists s', H', T', N', R'. split; [|done]. destruct l as [l|]; cbn in *; [by econstructor|]. subst s'. by rewrite app_nil_r.
Qed.

(** A pop that nothing interrupts. *)
Fixpoint pop_alone (fuel : nat) (r : LogRing) (p : pop_pc) (res : option (option RingItem)) : option (LogRing * option RingItem) :=
  match fuel with
  | O => None
  | Datatypes.S fuel' =>
      let '(r', p', l) := pop_step r p in
      let res' := match l with Some (LPop x) => Some x | _ => res end in
      match p' with
      | Some p' => pop_alone fuel' r' p' res'
      | None => x ← res'; Some (r', x)
      end
  end.

Lemma pop_alone_S k r p res : pop_alone (Datatypes.S k) r p res =
  let '(r', p', l) := pop_step r p in
  let res' := match l with Some (LPop x) => Some x | _ => res end in
  match p' with Some p' => pop_alone k r' p' res' | None => x ← res'; Some (r', x) end.
Proof. done. Qed.

Lemma pop_alone_entry r tail e k : get_slot r tail = Some e -> pop_alone (3 + k) r (PoRead tail) None = Some (put_tail r (wrapping_add 32 tail 1), Some (RiEntry e)).
Proof. intros E. cbn [pop_alone pop_step Nat.add]. by rewrite E. Qed.

(** Alone, a pop returns within eight accesses, and with nothing only when
    nothing waits. *)
Lemma pop_alone_ok c s H T N R : ring_inv c s H T N R -> c_push c = None -> c_pop c = None ->
  exists r' x, pop_alone 8 (c_ring c) PoTail None = Some (r', x) /\ (x = None -> waiting s = [] /\ sp_lost s = 0).
Proof.
  intros Hi Ep Eq. pose proof (ri_lost _ _ _ _ _ _ Hi) as Hl. rewrite Ep, Eq in Hl. cbn in Hl. pose proof (ri_count _ _ _ _ _ _ Hi) as Hw. pose proof (ri_range _ _ _ _ _ _ Hi) as Hr.
  pose proof (ri_losses _ _ _ _ _ _ Hi) as Hn. pose proof (before_bounds s (ri_at _ _ _ _ _ _ Hi)) as Hb.
  assert (T < H -> exists e, get_slot (c_ring c) (wrap 32 T) = Some e) as Hread.
  { intros Hlt. destruct (waiting s) as [|e q] eqn:Ew; [unfold alen in Hw; cbn in Hw; lia|]. exists e. rewrite get_wrap, <-(Z.add_0_r T). apply (ri_slots _ _ _ _ _ _ Hi O). by rewrite Ew. }
  do 4 (rewrite pop_alone_S; cbn [pop_step]). pose proof (ri_place _ _ _ _ _ _ Hi) as Hpl. destruct Hi.
  destruct c as [r p q]. cbn [c_ring] in *. rewrite ri_tail0, ri_head0, ri_dropped0, ri_reported0. unfold pop_entry_at. destruct (Z.eqb_spec (wrap 32 N) (wrap 32 R)) as [E|E].
  - apply wrap_inj in E; [|lia]. destruct (Z.eqb_spec (wrap 32 T) (wrap 32 H)) as [Et|Et]; cbn [fst snd].
    + apply wrap_inj in Et; [|lia]. eexists _, _. split; [done|]. intros _. split; [|lia]. apply nil_length_inv. unfold alen in Hw. lia.
    + destruct Hread as [e He]; [assert (T <> H) by congruence; lia|]. rewrite (pop_alone_entry _ _ _ 1 He : pop_alone 4 _ _ _ = _). eexists _, _. by split.
  - assert (N <> R) by congruence. specialize (Hpl ltac:(lia)). rewrite pop_alone_S. cbn [pop_step]. rewrite Hpl. destruct (Z.eqb_spec (wrap 32 (T + before s)) (wrap 32 T)) as [Et|Et].
    + eexists _, _. by split.
    + assert (before s <> 0) by (intros E0; apply Et; by rewrite E0, Z.add_0_r). unfold pop_entry_at. destruct (Z.eqb_spec (wrap 32 T) (wrap 32 H)) as [Eh|Eh]; [apply wrap_inj in Eh; lia|]. cbn [fst snd].
      destruct Hread as [e He]; [lia|]. rewrite (pop_alone_entry _ _ _ 0 He : pop_alone 3 _ _ _ = _). eexists _, _. by split.
Qed.
