(* ===== verification/LogProps.v ===== *)
(** * What the log ring promises

    The decisions of a run, in order, are a history of an atomic queue: what
    the drain reads is what was published, and every loss is reported where
    it happened. *)

From stdpp Require Import strings.
From S2P Require Import Prelude Text Utf8 LogText LogRing LogInv.
Local Open Scope Z_scope.

(** The entries published and read, the losses, and how many are reported. *)
Definition published (tr : list label) : list LogEntry :=
  concat ((fun l => match l with LPush m => msg_entries m | _ => [] end) <$> tr).
Definition read (tr : list label) : list LogEntry :=
  concat ((fun l => match l with LPop (Some (RiEntry e)) => [e] | _ => [] end) <$> tr).
Definition losses (tr : list label) : Z :=
  foldr Z.add 0 ((fun l => match l with LLose _ => 1 | _ => 0 end) <$> tr).
Definition reported (tr : list label) : Z :=
  foldr Z.add 0 ((fun l => match l with LPop (Some (RiDropped n)) => n | _ => 0 end) <$> tr).

Lemma published_app a b : published (a ++ b) = published a ++ published b.
Proof. unfold published. by rewrite fmap_app, concat_app. Qed.
Lemma read_app a b : read (a ++ b) = read a ++ read b.
Proof. unfold read. by rewrite fmap_app, concat_app. Qed.
Lemma foldr_add_app (a b : list Z) : foldr Z.add 0 (a ++ b) = foldr Z.add 0 a + foldr Z.add 0 b.
Proof. induction a as [|x a IH]; cbn; lia. Qed.
Lemma losses_app a b : losses (a ++ b) = losses a + losses b.
Proof. unfold losses. by rewrite fmap_app, foldr_add_app. Qed.
Lemma reported_app a b : reported (a ++ b) = reported a + reported b.
Proof. unfold reported. by rewrite fmap_app, foldr_add_app. Qed.
Lemma losses_nonneg tr : 0 <= losses tr.
Proof. unfold losses. induction tr as [|[]]; cbn in *; lia. Qed.
Lemma losses_in tr m : LLose m ∈ tr -> 0 < losses tr.
Proof. intros (a & b & ->)%list_elem_of_split. rewrite losses_app. pose proof (losses_nonneg a). pose proof (losses_nonneg b). unfold losses in *. cbn. lia. Qed.

(** Where the latest loss of [tr] lies. *)
Definition latest_loss (tr a : list label) : Prop := exists m b, tr = a ++ LLose m :: b /\ losses b = 0.

Record history (tr : list label) (s : spec) : Prop := {
  hy_fifo : published tr = read tr ++ waiting s;
  hy_losses : losses tr = reported tr + sp_lost s;
  hy_lost : 0 <= sp_lost s;
  hy_at : (sp_at s <= length (sp_queue s))%nat;
  hy_place : 0 < sp_lost s -> exists a, latest_loss tr a /\ alen (published a) = alen (read tr) + before s
}.

Lemma latest_snoc tr a l : latest_loss tr a -> losses [l] = 0 -> latest_loss (tr ++ [l]) a.
Proof. intros (m & b & -> & Hb) Hl. exists m, (b ++ [l]). split; [by rewrite <-app_assoc|]. rewrite losses_app. lia. Qed.

(** Every loss happened at or before the latest one. *)
Lemma latest_all tr a a' m b : latest_loss tr a -> tr = a' ++ LLose m :: b -> alen (published a') <= alen (published a).
Proof.
  intros (m0 & b0 & E & Hb) E'. rewrite E in E'. assert (a' `prefix_of` a \/ exists c, a' = a ++ LLose m0 :: c /\ b0 = c ++ LLose m :: b) as [[c ->]|(c & -> & ->)].
  { clear -E'. revert a' E'. induction a as [|x a IH]; intros [|x' a'] E'; cbn in E'; simplify_eq.
    - left. by apply prefix_nil.
    - right. exists a'. done.
    - left. apply prefix_nil.
    - destruct (IH a' H0) as [Hp|(c & -> & ->)]; [left; by apply prefix_cons|right; by exists c]. }
  - rewrite published_app, alen_app. pose proof (alen_nonneg (published c)). lia.
  - pose proof (losses_in (c ++ LLose m :: b) m ltac:(apply elem_of_app; right; by left)). lia.
Qed.

Lemma history_step tr s l s' : history tr s -> spec_step s l s' -> history (tr ++ [l]) s'.
Proof.
  intros [Hf Hl Hn Ha Hp] Hst. unfold waiting, before in *. destruct Hst as [cur q lost k m|cur q lost k m|e cur q lost k|e m q lost k Hc|q lost n Hr|q lost k];
    cbn [sp_cur sp_queue sp_lost sp_at] in *; constructor; unfold waiting, before; cbn [sp_cur sp_queue sp_lost sp_at]; rewrite ?published_app, ?read_app, ?losses_app, ?reported_app.
  - rewrite Hf. cbn. rewrite !app_nil_r, <-!app_assoc, concat_app. cbn. by rewrite app_nil_r.
  - cbn. lia.
  - done.
  - rewrite length_app. lia.
  - intros H0. destruct (Hp H0) as (a & Hla & E). exists a. split; [by apply latest_snoc|]. cbn. by rewrite app_nil_r, take_app_le.
  - rewrite Hf. cbn. by rewrite !app_nil_r.
  - cbn. lia.
  - lia.
  - done.
  - intros _. exists tr. split; [by exists m, []|]. rewrite Hf, firstn_all. cbn. by rewrite app_nil_r, alen_app.
  - rewrite Hf. cbn. by rewrite !app_nil_r, <-app_assoc.
  - cbn. lia.
  - done.
  - done.
  - intros H0. destruct (Hp H0) as (a & Hla & E). exists a. split; [by apply latest_snoc|]. rewrite E. unfold alen. cbn. rewrite !length_app. cbn. lia.
  - rewrite Hf. cbn. by rewrite !app_nil_r, <-app_assoc.
  - cbn. lia.
  - done.
  - cbn in Ha. lia.
  - intros H0. destruct (Hp H0) as (a & Hla & E). exists a. split; [by apply latest_snoc|]. rewrite E. destruct k as [|k]; [destruct Hc; lia|]. unfold alen. cbn. rewrite !length_app. cbn. lia.
  - rewrite Hf. cbn. by rewrite !app_nil_r.
  - cbn. lia.
  - lia.
  - lia.
  - intros H0. destruct (Hp ltac:(lia)) as (a & Hla & E). exists a. split; [by apply latest_snoc|]. rewrite E. cbn. by rewrite app_nil_r.
  - rewrite Hf. cbn. by rewrite !app_nil_r.
  - cbn. lia.
  - done.
  - done.
  - intros H0. destruct (Hp H0) as (a & Hla & E). exists a. split; [by apply latest_snoc|]. rewrite E. cbn. by rewrite app_nil_r.
Qed.

Lemma spec_history tr s : spec_run spec_init tr s -> history tr s.
Proof.
  intros Hr. remember spec_init as s0 eqn:E0. induction Hr as [s|s tr s' l s'' Hr IH Hst]; subst; [by constructor|]. eapply history_step; [by apply IH|done].
Qed.

Lemma spec_run_snoc s tr l s' : spec_run s (tr ++ [l]) s' -> exists s1, spec_run s tr s1 /\ spec_step s1 l s'.
Proof.
  intros Hr. remember (tr ++ [l]) as t eqn:Et. destruct Hr as [s|s t s' l' s'' Hr Hst]; [by destruct tr|]. apply app_inj_tail in Et as [-> ->]. eauto.
Qed.

Lemma spec_run_prefix s tr1 l tr2 s' : spec_run s (tr1 ++ l :: tr2) s' -> exists s1 s2, spec_run s tr1 s1 /\ spec_step s1 l s2.
Proof.
  revert s'. induction tr2 as [|l' tr2 IH] using rev_ind; intros s' Hr.
  - apply spec_run_snoc in Hr as (s1 & ? & ?). eauto.
  - rewrite app_comm_cons, app_assoc in Hr. apply spec_run_snoc in Hr as (s1 & Hr & _). eauto.
Qed.

Lemma prefix_of_both {A} (l1 l2 l : list A) : l1 `prefix_of` l -> l2 `prefix_of` l -> (length l1 <= length l2)%nat -> l1 `prefix_of` l2.
Proof.
  intros [k1 ->] [k2 E] Hle. exists (take (length l2 - length l1) k1). pose proof (f_equal (take (length l2)) E) as Et.
  by rewrite take_app_length, take_app_ge in Et.
Qed.

(** C14: one producer and one drain on a log ring, their accesses interleaved
    in any way, are an atomic queue of messages: the order of what they decide
    is a run of the specification.  No entry is read while it is written, the
    drain never reads a torn entry, and a pop that nothing interrupts returns
    within eight accesses, with nothing only when nothing waits and every
    loss is reported. *)
Theorem log_ring_refines tr c : run config_init tr c -> exists s, spec_run spec_init tr s /\
  c_pop c <> Some PoTorn /\
  (forall m pos e todo tail, c_push c = Some (PuWriting m pos e todo) -> c_pop c = Some (PoReading tail) -> slot_index pos <> slot_index tail) /\
  (c_push c = None -> c_pop c = None -> exists r' x, pop_alone 8 (c_ring c) PoTail None = Some (r', x) /\
     (x = None -> waiting s = [] /\ sp_lost s = 0)).
Proof.
  intros Hr. destruct (run_ok c tr Hr) as (s & H & T & N & R & Hs & Hi). exists s. split; [done|]. pose proof (ri_pop _ _ _ _ _ _ Hi) as Hp. split_and!.
  - intros E. by rewrite E in Hp.
  - intros m pos e todo tail E1 E2. pose proof (ri_push _ _ _ _ _ _ Hi) as Hq. rewrite E1 in Hq. rewrite E2 in Hp. destruct Hq as (w & Ew & -> & _ & Hfit), Hp as (-> & Hlt & _).
    rewrite Ew, alen_app, alen_cons in Hfit. pose proof (alen_nonneg w). pose proof (alen_nonneg todo). rewrite !slot_wrap. intros E. symmetry in E. revert E. apply slot_apart. lia.
  - intros Ep Eq. by apply (pop_alone_ok c s H T N R).
Qed.

(** C15: the drain reads exactly the published entries, in order, each once;
    every loss is reported or still to be reported.  A report comes after
    every entry published before one of the losses it counts, and an entry
    is not read past a loss before it unless a later loss, still ahead, will
    be reported with it. *)
Theorem losses_reported_in_place tr c : run config_init tr c ->
  (exists rest n, published tr = read tr ++ rest /\ losses tr = reported tr + n /\ 0 <= n) /\
  (forall tr1 n tr2 a m b, tr = tr1 ++ LPop (Some (RiDropped n)) :: tr2 -> tr1 = a ++ LLose m :: b -> published a `prefix_of` read tr1) /\
  (forall tr1 e tr2, tr = tr1 ++ LPop (Some (RiEntry e)) :: tr2 ->
     losses tr1 = reported tr1 \/ exists a, latest_loss tr1 a /\ alen (read tr1) < alen (published a)).
Proof.
  intros Hr. destruct (run_ok c tr Hr) as (s & H & T & N & R & Hs & _). split_and!.
  - destruct (spec_history tr s Hs) as [Hf Hl Hn _ _]. by exists (waiting s), (sp_lost s).
  - intros tr1 n tr2 a m b -> E. destruct (spec_run_prefix _ _ _ _ _ Hs) as (s1 & s2 & Hs1 & Hst). destruct (spec_history tr1 s1 Hs1) as [Hf _ _ _ Hp].
    inversion Hst; subst s1 s2. cbn [sp_lost] in Hp. destruct (Hp ltac:(lia)) as (a' & Hla & Ea). pose proof (latest_all _ _ _ _ _ Hla E) as Hle.
    assert (before (mk_spec [] q lost 0) = 0) as E0 by done. rewrite E0 in Ea. apply (prefix_of_both _ _ (published tr1)); [|by eexists|unfold alen in *; lia].
    rewrite E, published_app. by eexists.
  - intros tr1 e tr2 ->. destruct (spec_run_prefix _ _ _ _ _ Hs) as (s1 & s2 & Hs1 & Hst). destruct (spec_history tr1 s1 Hs1) as [Hf Hl Hn Ha Hp].
    destruct (decide (sp_lost s1 = 0)) as [E0|Hne]; [left; lia|right]. destruct (Hp ltac:(lia)) as (a & Hla & Ea). exists a. split; [done|]. rewrite Ea.
    assert (0 < before s1); [|lia]. inversion Hst; subst s1 s2.
    + unfold before. cbn [sp_cur]. rewrite alen_app, alen_cons. pose proof (alen_nonneg cur). pose proof (alen_nonneg (concat (take k q))). cbn [sp_at sp_queue]. lia.
    + cbn [sp_lost] in Hne. match goal with Hx : _ = 0 \/ _ |- _ => destruct Hx as [?|Hk]; [done|] end. unfold before. cbn. destruct k; [lia|]. cbn. rewrite alen_cons, alen_app. pose proof (alen_nonneg m). pose proof (alen_nonneg (concat (take k q))). lia.
Qed.

(** ** Witnesses *)

(** What a schedule does: a call of push or pop, an access of either. *)
Inductive act := APush (m : msg) | APop | AProducer | AConsumer.

Definition do_act (c : config) (a : act) : option (option label * config) :=
  match a, c with
  | APush m, mk_config r None k => Some (None, mk_config r (Some (PuHead m)) k)
  | APop, mk_config r p None => Some (None, mk_config r p (Some PoTail))
  | AProducer, mk_config r (Some (PuStoreDropped d)) k => None
  | AProducer, mk_config r (Some p) k => let '(r', p', l) := push_step r p in Some (l, mk_config r' p' k)
  | AConsumer, mk_config r p (Some q) => let '(r', q', l) := pop_step r q in Some (l, mk_config r' p q')
  | _, _ => None
  end.

Fixpoint do_acts (c : config) (tr : list label) (s : list act) : option (list label * config) :=
  match s with
  | [] => Some (tr, c)
  | a :: s' => '(l, c') ← do_act c a; do_acts c' (tr ++ option_list l) s'
  end.

Lemma do_act_step c a l c' : do_act c a = Some (l, c') -> step c l c'.
Proof.
  destruct c as [r p q], a; cbn; try destruct p as [p|]; try destruct q as [q|]; try done; intros E; simplify_eq; try constructor.
  - destruct p; try done; (destruct (push_step r _) as [[r' p'] l'] eqn:Es; simplify_eq; by apply st_push).
  - destruct p; try done; (destruct (push_step r _) as [[r' p'] l'] eqn:Es; simplify_eq; by apply st_push).
  - destruct (pop_step r q) as [[r' q'] l'] eqn:Es. simplify_eq. by apply st_pop.
  - destruct (pop_step r q) as [[r' q'] l'] eqn:Es. simplify_eq. by apply st_pop.
Qed.

Lemma do_acts_run c0 s : forall c tr tr' c', run c0 tr c -> do_acts c tr s = Some (tr', c') -> run c0 tr' c'.
Proof.
  induction s as [|a s IH]; intros c tr tr' c' Hr E; cbn in E; [by simplify_eq|]. apply bind_Some in E as ([l c1] & Ea & E).
  eapply IH; [|exact E]. eapply run_step; [exact Hr|by apply do_act_step in Ea].
Qed.

Definition acts_result (s : list act) : list label * config := default ([], config_init) (do_acts config_init [] s).

Lemma acts_run s : bool_decide (is_Some (do_acts config_init [] s)) = true -> run config_init (acts_result s).1 (acts_result s).2.
Proof.
  intros [[tr c] E]%bool_decide_eq_true. unfold acts_result. rewrite E. exact (do_acts_run config_init s config_init [] tr c (run_nil _) E).
Qed.

(** A message of 62 bytes and one of 3 bytes. *)
Definition demo_call (pieces : list (list Z)) : msg :=
  default (ENTRY_ZERO, None) (entries (foldl write_str msgbuf_new pieces) 62500000 0 LvInfo SsBoot).
Definition long_msg : msg := demo_call [text "scheduler started on core 0, "; text "four cores online, timer at 1 kHz"].
Definition short_msg : msg := demo_call [text "mmu"].

(** The producer publishes a pair while a pop is under way, then the drain
    reads it while the producer writes the next message. *)
Definition demo_schedule : list act :=
  [APush long_msg; APop; AConsumer; AProducer; AProducer; AConsumer; AProducer; AProducer; AProducer; AConsumer; AProducer; AProducer; AConsumer;
   APop; AConsumer; AConsumer; AConsumer; AConsumer; APush short_msg; AProducer; AProducer; AConsumer; AProducer; AConsumer; AConsumer;
   APop; AConsumer; AConsumer; AConsumer; AConsumer; AConsumer; AConsumer; AConsumer].

Lemma demo_run : run config_init (acts_result demo_schedule).1 (acts_result demo_schedule).2.
Proof. apply acts_run. vm_compute. reflexivity. Qed.

Lemma log_ring_refines_witness :
  length (read (acts_result demo_schedule).1) = 2%nat /\ exists s, spec_run spec_init (acts_result demo_schedule).1 s.
Proof.
  split; [vm_compute; reflexivity|]. destruct (log_ring_refines _ _ demo_run) as (s & Hs & _). exists s. exact Hs.
Defined.

Lemma losses_reported_in_place_witness :
  length (read (acts_result demo_schedule).1) = 2%nat /\
  exists rest n, published (acts_result demo_schedule).1 = read (acts_result demo_schedule).1 ++ rest /\
    losses (acts_result demo_schedule).1 = reported (acts_result demo_schedule).1 + n /\ 0 <= n.
Proof.
  split; [vm_compute; reflexivity|]. destruct (losses_reported_in_place _ _ demo_run) as (H1 & _). exact H1.
Defined.
