(* ===== verification/LogDrain.v ===== *)
(** * Draining the log rings (kernel/src/observability/mod.rs)

    The drain reads the rings of all cores in turn and prints one line for
    each message, with the losses reported between them.  What a ring's pops
    return to the drain is a list, consumed from its front; the list at its
    end is a pop that has not returned. *)

From stdpp Require Import strings.
From S2P Require Import Prelude Text Utf8 LogText LogRing LogInv LogProps.
Local Open Scope Z_scope.

Definition MAX_CORES : Z := 8.
Definition MAX_LINE_LEN : nat := 160.
Definition DRAIN_BATCH_SIZE : Z := 16.
Definition PANIC_DRAIN_CALLS : nat := Z.to_nat (LOG_RING_SIZE * MAX_CORES / DRAIN_BATCH_SIZE).

(** ** Lines *)

(** [log_impl] after boot: the entries a log call pushes. *)
Definition log_entries (timestamp core : Z) (level : LogLevel) (subsystem : Subsystem) (pieces : list (list Z)) : option msg :=
  entries (foldl write_str msgbuf_new pieces) timestamp (Z.min core (MAX_CORES - 1)) level subsystem.

(** [LineBuf::write_str]: what does not fit is left out. *)
Definition linebuf_write (buf s : list Z) : list Z := buf ++ take (MAX_LINE_LEN - length buf) s.

(** [{:4}] and [{:06}] *)
Definition pad_left (width : nat) (fill : Z) (s : list Z) : list Z := replicate (width - length s) fill ++ s.

Definition header_pieces (freq : Z) (e : LogEntry) : list (list Z) :=
  let '(secs, micros) := timestamp_to_secs_micros (e_timestamp e) freq in
  [text "["; pad_left 4 32 (put_dec secs); text "."; pad_left 6 48 (put_dec micros); text "] ["; put_dec (e_core e); text "] ";
   level_name (e_level e); text " "; subsystem_name (e_subsystem e); text " "].

Definition drain_line (freq : Z) (line : LogLine) : list Z :=
  foldl linebuf_write [] (header_pieces freq (l_first line) ++ [write_message line]).

Definition report_line (core count : Z) : list Z :=
  foldl linebuf_write [] [text "[log] core "; put_dec core; text ": "; put_dec count; text " messages dropped (ring full)"].

(** [emit_drained_line]: the line as the UART gets it. *)
Definition emit_line (line : list Z) : list Z := take (valid_up_to line) line.

(** ** The drain *)

Notation stream := (list (option RingItem)).

Fixpoint pop_entry (core : Z) (rs : stream) (out : list (list Z)) : option (option LogEntry * (stream * list (list Z))) :=
  match rs with
  | [] => None
  | None :: rs' => Some (None, (rs', out))
  | Some (RiEntry e) :: rs' => Some (Some e, (rs', out))
  | Some (RiDropped n) :: rs' => pop_entry core rs' (out ++ [emit_line (report_line core n)])
  end.

Inductive outcome (A : Type) := Returned (a : A) | Waiting | OutOfFuel.
Arguments Returned {A} _.
Arguments Waiting {A}.
Arguments OutOfFuel {A}.

(** The loop over one ring. *)
Fixpoint drain_ring (fuel : nat) (freq core drained : Z) (pending : option LogEntry) (rs : stream) (out : list (list Z))
    : outcome (Z * stream * list (list Z)) :=
  match fuel with
  | O => OutOfFuel
  | S fuel' =>
      if (drained <? DRAIN_BATCH_SIZE) || bool_decide (is_Some pending) then
        match next_log_line (fun st => pop_entry core st.1 st.2) pending (rs, out) with
        | None => Waiting
        | Some (None, _, (rs', out')) => Returned (drained, rs', out')
        | Some (Some line, pending', (rs', out')) =>
            drain_ring fuel' freq core (drained + 1) pending' rs' (out' ++ [emit_line (drain_line freq line)])
        end
      else Returned (drained, rs, out)
  end.

(** The rings from core [core] on. *)
Fixpoint drain_rings (fuel : nat) (freq core drained : Z) (rss : list stream) (out : list (list Z))
    : outcome (Z * list stream * list (list Z)) :=
  match rss with
  | [] => Returned (drained, [], out)
  | rs :: rss' =>
      match drain_ring fuel freq core drained None rs out with
      | Returned (drained', rs', out') =>
          match drain_rings fuel freq (core + 1) drained' rss' out' with
          | Returned (d, rss'', out'') => Returned (d, rs' :: rss'', out'')
          | Waiting => Waiting
          | OutOfFuel => OutOfFuel
          end
      | Waiting => Waiting
      | OutOfFuel => OutOfFuel
      end
  end.

(** [CPU0_DRAINING_MASKED], [CPU0_DRAINING_OPEN] *)
Record drain_flags := mk_flags { draining_masked : bool; draining_open : bool }.
Definition cpu0_draining (f : drain_flags) : bool := draining_masked f || draining_open f.

(** The calls of the panic drain. *)
Fixpoint panic_loop (calls fuel : nat) (freq : Z) (rss : list stream) (out : list (list Z)) : outcome (list stream * list (list Z)) :=
  match calls with
  | O => Returned (rss, out)
  | S calls' =>
      match drain_rings fuel freq 0 0 rss out with
      | Returned (d, rss', out') => if d <? DRAIN_BATCH_SIZE then Returned (rss', out') else panic_loop calls' fuel freq rss' out'
      | Waiting => Waiting
      | OutOfFuel => OutOfFuel
      end
  end.

Definition drain_logs_after_panic (fuel : nat) (freq core : Z) (f : drain_flags) (rss : list stream) (out : list (list Z))
    : outcome (list stream * list (list Z)) :=
  if negb (core =? 0) || cpu0_draining f then Returned (rss, out) else panic_loop PANIC_DRAIN_CALLS fuel freq rss out.

(** ** The boot log *)

Definition MAX_LOG_LINES : Z := 256.

Record BootLogBuffer := mk_bootlog { bl_lines : list (list Z); bl_lens : list Z; bl_count : Z }.
Definition bootlog_new : BootLogBuffer := mk_bootlog (array_of MAX_LOG_LINES (replicate MAX_LINE_LEN 0)) (array_of MAX_LOG_LINES 0) 0.

Definition push_line (b : BootLogBuffer) (line : list Z) : BootLogBuffer :=
  let idx := bl_count b mod MAX_LOG_LINES in
  let len := Nat.min (length line) MAX_LINE_LEN in
  let old := default [] ((bl_lines b).[idx]) in
  mk_bootlog ((bl_lines b).[idx <- take len line ++ drop len old]) ((bl_lens b).[idx <- wrap 8 (Z.of_nat len)]) (bl_count b + 1).

(** The most recent lines with their lengths, at most [capacity]. *)
Definition take_boot_log (b : BootLogBuffer) (capacity : Z) : list (list Z * Z) :=
  let total := bl_count b in
  let available := Z.min total MAX_LOG_LINES in
  let copy_count := Z.min available capacity in
  let start := saturating_sub total copy_count in
  (fun i => let src_idx := (start + Z.of_nat i) mod MAX_LOG_LINES in
            (default [] ((bl_lines b).[src_idx]), default 0 ((bl_lens b).[src_idx]))) <$> seq 0 (Z.to_nat copy_count).

(** ** A line is never cut *)

Lemma linebuf_fold ps : forall buf, (length buf <= MAX_LINE_LEN)%nat -> foldl linebuf_write buf ps = take MAX_LINE_LEN (buf ++ concat ps).
Proof.
  induction ps as [|p ps IH]; intros buf Hb; cbn [foldl concat]; [by rewrite app_nil_r, take_ge|].
  unfold linebuf_write at 2. rewrite IH; [|rewrite length_app, length_take; lia]. rewrite <-app_assoc. destruct (Nat.le_gt_cases (length p) (MAX_LINE_LEN - length buf)) as [Hp|Hp].
  - by rewrite (take_ge p) by done.
  - rewrite (take_app_ge buf), (take_app_ge buf (p ++ _)) by lia. f_equal. rewrite take_app_le by (rewrite length_take; lia). rewrite take_take, Nat.min_id, take_app_le by lia. done.
Qed.

Lemma linebuf_fits ps : (length (concat ps) <= MAX_LINE_LEN)%nat -> foldl linebuf_write [] ps = concat ps.
Proof. intros Hl. rewrite linebuf_fold by (cbn; lia). by rewrite take_ge. Qed.

Lemma pad_left_len w c s : length (pad_left w c s) = Nat.max w (length s).
Proof. unfold pad_left. rewrite length_app, length_replicate. lia. Qed.

Lemma secs_micros_bounds ts freq : 0 <= ts -> 0 <= freq -> let '(secs, micros) := timestamp_to_secs_micros ts freq in 0 <= secs < 10 ^ 14 /\ 0 <= micros < 10 ^ 6.
Proof.
  intros Ht Hf. unfold timestamp_to_secs_micros. destruct (Z.eqb_spec freq 0); [lia|]. set (us := wrap 64 _). assert (0 <= us < 2 ^ 64) as Hu by (apply Z.mod_pos_bound; lia).
  split; [split; [apply Z.div_pos; lia|apply Z.div_lt_upper_bound; lia]|]. apply Z.mod_pos_bound. lia.
Qed.

Definition level_len l : length (level_name l) = 5%nat := match l with LvTrace | LvDebug | LvInfo | LvWarn | LvError | LvFatal => eq_refl end.
Lemma subsystem_len s : length (subsystem_name s) = 5%nat.
Proof. by destruct s. Qed.

Lemma header_len freq e : uint 64 (e_timestamp e) -> 0 <= freq -> uint 8 (e_core e) -> (length (concat (header_pieces freq e)) <= 64)%nat.
Proof.
  intros Ht Hf Hc. unfold header_pieces. pose proof (secs_micros_bounds (e_timestamp e) freq (proj1 Ht) Hf) as Hb. destruct (timestamp_to_secs_micros _ _) as [secs micros].
  destruct Hb as [Hs Hm]. cbn [concat]. rewrite !length_app, !pad_left_len, level_len, subsystem_len. unfold uint in *. cbn [length].
  pose proof (put_dec_len secs 14 ltac:(unfold uint; lia) ltac:(lia) ltac:(lia)). pose proof (put_dec_len micros 6 ltac:(unfold uint; lia) ltac:(lia) ltac:(lia)).
  pose proof (put_dec_len (e_core e) 3 ltac:(unfold uint; lia) ltac:(lia) ltac:(lia)). unfold alen in *.
  change (length (text "[")) with 1%nat. change (length (text ".")) with 1%nat. change (length (text "] [")) with 3%nat. change (length (text "] ")) with 2%nat. change (length (text " ")) with 1%nat. lia.
Qed.

(** Decimal digits and the literals are ASCII. *)
Definition ascii (s : list Z) : Prop := Forall (fun b => 0 <= b < 128) s.

Lemma ascii_str s : ascii s -> is_str s = true.
Proof.
  intros Hs. apply is_str_chars. exists ((fun b => [b]) <$> s). split; [|induction s as [|b s IH]; [done|]; cbn; f_equal; apply IH; by apply Forall_cons in Hs as [_ ?]].
  induction Hs as [|b s Hb _ IH]; [constructor|]. cbn. constructor; [by apply ascii_char|done].
Qed.

Lemma ascii_dec v : uint 64 v -> ascii (put_dec v).
Proof. intros Hv. destruct (put_dec_spec v Hv) as (HF & _). eapply Forall_impl; [exact HF|]. cbn. lia. Qed.
Lemma ascii_pad w c s : 0 <= c < 128 -> ascii s -> ascii (pad_left w c s).
Proof. intros Hc Hs. apply Forall_app. split; [|done]. by apply Forall_replicate. Qed.

Lemma ascii_concat ps : Forall ascii ps -> ascii (concat ps).
Proof. intros Hps. induction Hps as [|p ps Hp _ IH]; [constructor|]. cbn. by apply Forall_app. Qed.

Lemma header_ascii freq e : uint 64 (e_timestamp e) -> 0 <= freq -> uint 8 (e_core e) -> ascii (concat (header_pieces freq e)).
Proof.
  intros Ht Hf Hc. unfold header_pieces. pose proof (secs_micros_bounds (e_timestamp e) freq (proj1 Ht) Hf) as Hb. destruct (timestamp_to_secs_micros _ _) as [secs micros].
  destruct Hb as [Hs Hm]. unfold uint in *. assert (forall t, forallb (fun b => (0 <=? b) && (b <? 128)) t = true -> ascii t) as Hlit.
  { intros t H. apply Forall_forall. intros b Hb. rewrite forallb_forall in H. specialize (H b ltac:(by apply list_elem_of_In)). lia. }
  apply ascii_concat, Forall_forall. intros t Hin.
  repeat (apply elem_of_cons in Hin as [->|Hin]; [first [by apply Hlit|apply ascii_pad; [lia|]; apply ascii_dec; unfold uint; lia|apply ascii_dec; unfold uint; lia|by destruct (e_level e); apply Hlit|by destruct (e_subsystem e); apply Hlit]|]).
  by apply elem_of_nil in Hin.
Qed.

Lemma kept_str s : is_str s = true -> is_str (kept_text s) = true.
Proof.
  intros Hs. unfold kept_text. case_match; [done|]. case_match; [done|]. destruct (floor_prefix s LOG_MSG_CAPACITY Hs) as (H1 & H2 & _).
  destruct (floor_prefix _ (LOG_MSG_CAPACITY - 1) H2) as (H3 & _). rewrite <-take_take_drop. apply is_str_app; [by apply is_str_app|reflexivity].
Qed.

(** C17: a log call, whatever pieces of valid UTF-8 its message is formatted
    in, pushes one or two entries which the drain joins into one whole line
    with the call's time, core, level and subsystem.  The line on the UART is
    never cut: it is the header and the message, or, of a message that does
    not fit two entries, its longest prefix of whole characters that fits and
    the overflow mark. *)
Theorem logged_line_printed ts core level sub freq ws rest : Forall (fun w => is_str w = true) ws -> uint 64 ts -> 0 <= core -> 0 <= freq ->
  exists m, log_entries ts core level sub ws = Some m /\ msg_ok m /\
    next_log_line list_pop None (msg_entries m ++ rest) = Some (Some (msg_line m), None, rest) /\
    emit_line (drain_line freq (msg_line m)) = concat (header_pieces freq m.1) ++ kept_text (concat ws) /\
    e_timestamp m.1 = ts /\ e_core m.1 = Z.min core (MAX_CORES - 1) /\ e_level m.1 = level /\ e_subsystem m.1 = sub.
Proof.
  intros Hws Ht Hc Hf. destruct (log_message_joined ws ts (Z.min core (MAX_CORES - 1)) level sub rest Hws) as (m & E & Hm & Hj & Hx & E1 & E2 & E3 & E4).
  exists m. do 3 (split; [done|]). split; [|done]. assert (is_str (concat ws) = true) as Hs by (apply (writes_hold ws msgbuf_new []); [done|done|by constructor]).
  assert (uint 64 (e_timestamp m.1) /\ uint 8 (e_core m.1)) as [Ht' Hc'] by (rewrite E1, E2; split; [done|]; unfold uint, MAX_CORES; lia).
  unfold drain_line. rewrite linebuf_fits, concat_app by (rewrite concat_app, length_app; cbn [concat]; rewrite app_nil_r, Hx;
    pose proof (header_len freq m.1 Ht' Hf Hc'); pose proof (kept_length _ Hs); unfold MAX_LINE_LEN, LOG_CHAIN_CAPACITY in *; cbn [msg_line l_first] in *; lia).
  cbn [concat msg_line l_first]. rewrite app_nil_r. fold (msg_line m). rewrite Hx.
  assert (is_str (concat (header_pieces freq m.1) ++ kept_text (concat ws)) = true) as Hst by (apply is_str_app; [by apply ascii_str, header_ascii|by apply kept_str]).
  unfold emit_line. apply Nat.eqb_eq in Hst. rewrite Hst. apply firstn_all.
Qed.

(** ** Pops group into messages *)

(** What the drain sees of a ring: a message, a report, or nothing. *)
Inductive item := IMsg (m : msg) | ILost (n : Z) | INone.

Definition item_pops (i : item) : stream :=
  match i with IMsg m => (fun e => Some (RiEntry e)) <$> msg_entries m | ILost n => [Some (RiDropped n)] | INone => [None] end.
Definition item_msgs (l : list item) : list msg := omap (fun i => match i with IMsg m => Some m | _ => None end) l.
Definition items_pops (l : list item) : stream := concat (item_pops <$> l).

Definition accepted (tr : list label) : list msg := omap (fun l => match l with LPush m => Some m | _ => None end) tr.
Definition pops (tr : list label) : stream := omap (fun l => match l with LPop r => Some r | _ => None end) tr.

(** The pops of a run so far, up to a message of which the entries [part] are
    read and the entries [sp_cur s] are not. *)
Record grouped (tr : list label) (s : spec) (items : list item) (part : list LogEntry) (cur : option msg) (q : list msg) : Prop := {
  gr_pops : pops tr = items_pops items ++ ((fun e => Some (RiEntry e)) <$> part);
  gr_msgs : accepted tr = item_msgs items ++ option_list cur ++ q;
  gr_queue : sp_queue s = msg_entries <$> q;
  gr_cur : match cur with Some m => msg_entries m = part ++ sp_cur s /\ part <> [] /\ sp_cur s <> [] | None => part = [] /\ sp_cur s = [] end
}.

Lemma omap_snoc {A B} (f : A -> option B) l x : omap f (l ++ [x]) = omap f l ++ option_list (f x).
Proof. induction l as [|y l IH]; cbn; [by destruct (f x)|]. destruct (f y); cbn; by rewrite IH. Qed.

Lemma items_pops_snoc l i : items_pops (l ++ [i]) = items_pops l ++ item_pops i.
Proof. unfold items_pops. rewrite fmap_app, concat_app. cbn. by rewrite app_nil_r. Qed.
Lemma item_msgs_snoc l i : item_msgs (l ++ [i]) = item_msgs l ++ match i with IMsg m => [m] | _ => [] end.
Proof. unfold item_msgs. rewrite omap_snoc. by destruct i. Qed.

(** The next entry of the message [m] is read. *)
Lemma grouped_entry tr s items part cur q m e rest : pops tr = items_pops items ++ ((fun e => Some (RiEntry e)) <$> part) ->
  accepted tr = item_msgs items ++ m :: q -> msg_entries m = part ++ e :: rest -> sp_queue s = msg_entries <$> q -> sp_cur s = rest -> cur = (if decide (rest = []) then None else Some m) ->
  exists items' part', grouped (tr ++ [LPop (Some (RiEntry e))]) s items' part' cur q.
Proof.
  intros Hp Ha Hm Hq Hc ->. unfold pops, accepted in *. destruct (decide (rest = [])) as [->|Hne].
  - exists (items ++ [IMsg m]), []. constructor; unfold pops, accepted; rewrite ?omap_snoc; [|rewrite item_msgs_snoc; cbn; by rewrite app_nil_r, Ha, <-app_assoc|done|done].
    rewrite Hp, items_pops_snoc. cbn [item_pops]. rewrite Hm, fmap_app. cbn. by rewrite app_nil_r, <-app_assoc.
  - exists items, (part ++ [e]). constructor; unfold pops, accepted; rewrite ?omap_snoc; [|cbn; by rewrite app_nil_r|done|].
    + rewrite Hp, fmap_app, <-app_assoc. done.
    + rewrite Hc, <-app_assoc. split; [done|]. split; [by destruct part|done].
Qed.

Lemma grouped_step tr s items part cur q l s' : grouped tr s items part cur q -> spec_step s l s' ->
  exists items' part' cur' q', grouped (tr ++ [l]) s' items' part' cur' q'.
Proof.
  intros [Hp Hm Hq Hc] Hst. destruct Hst as [c0 q0 lost k m|c0 q0 lost k m|e c0 q0 lost k|e m q0 lost k H0|q0 lost n Hr|q0 lost k]; cbn [sp_cur sp_queue] in *.
  - exists items, part, cur, (q ++ [m]). constructor; unfold pops, accepted in *; rewrite ?omap_snoc; cbn; [by rewrite app_nil_r|by rewrite Hm, <-!app_assoc|by rewrite Hq, fmap_app|done].
  - exists items, part, cur, q. constructor; unfold pops, accepted in *; rewrite ?omap_snoc; cbn; rewrite ?app_nil_r; done.
  - destruct cur as [m|]; [|by destruct Hc]. destruct Hc as (Em & H1 & _). cbn in Hm. destruct (grouped_entry tr (mk_spec c0 q0 lost k) items part _ q m e c0 Hp Hm Em Hq eq_refl eq_refl) as (i' & p' & ?). eauto.
  - destruct cur as [m0|]; [by destruct Hc as (_ & _ & ?)|]. destruct Hc as [-> _]. destruct q as [|m0 q]; [done|]. rewrite fmap_cons in Hq.
    assert (e :: m = msg_entries m0 /\ q0 = msg_entries <$> q) as [Em Hq'] by (split; congruence). cbn in Hm.
    destruct (grouped_entry tr (mk_spec m q0 lost (pred k)) items [] _ q m0 e m Hp Hm (eq_sym Em) Hq' eq_refl eq_refl) as (i' & p' & ?). eauto.
  - destruct cur as [m0|]; [by destruct Hc as (_ & _ & ?)|]. destruct Hc as [-> _]. exists (items ++ [ILost n]), [], None, q.
    constructor; unfold pops, accepted in *; rewrite ?omap_snoc, ?items_pops_snoc, ?item_msgs_snoc; cbn in *; rewrite ?app_nil_r in *; [by rewrite Hp|done|done|done].
  - destruct cur as [m0|]; [by destruct Hc as (_ & _ & ?)|]. destruct Hc as [-> _]. exists (items ++ [INone]), [], None, q.
    constructor; unfold pops, accepted in *; rewrite ?omap_snoc, ?items_pops_snoc, ?item_msgs_snoc; cbn in *; rewrite ?app_nil_r in *; [by rewrite Hp|done|done|done].
Qed.

Lemma run_grouped tr s : spec_run spec_init tr s -> exists items part cur q, grouped tr s items part cur q.
Proof.
  intros Hr. remember spec_init as s0 eqn:E0. induction Hr as [s|s tr s' l s'' Hr IH Hst]; subst.
  - by exists [], [], None, [].
  - destruct (IH eq_refl) as (items & part & cur & q & Hg). by eapply grouped_step.
Qed.

(** C16: what the pops of a log ring return to the drain is, in any run, a
    sequence of whole messages, reports and empty results, ending in at most
    the first entry of one more message: neither a report nor an empty result
    comes between a head entry and its continuation.  The messages are the
    published ones, in order. *)
Theorem pops_whole_messages tr c : run config_init tr c ->
  exists items part rest, pops tr = items_pops items ++ ((fun e => Some (RiEntry e)) <$> part) /\
    accepted tr = item_msgs items ++ rest /\
    match part with [] => True | e :: p => p = [] /\ exists m, head rest = Some m /\ m.1 = e /\ is_Some m.2 end.
Proof.
  intros Hr. destruct (run_ok c tr Hr) as (s & H & T & N & R & Hs & _). destruct (run_grouped tr s Hs) as (items & part & cur & q & [Hp Hm _ Hc]).
  exists items, part, (option_list cur ++ q). split; [done|]. split; [done|]. destruct cur as [[e [c'|]]|]; cbn in Hc.
  - destruct Hc as (E & H1 & H2). destruct part as [|e0 [|e1 part]]; [done| |destruct (sp_cur s); [done|]; by destruct part].
    injection E as <- E. split; [done|]. exists (e, Some c'). split_and!; [done|done|by eexists].
  - destruct Hc as (E & H1 & H2). destruct part as [|e0 part]; [done|]. destruct (sp_cur s); [done|]. by destruct part.
  - by destruct Hc as [-> _].
Qed.

(** ** Drains *)

Definition item_ok (i : item) : Prop := match i with IMsg m => msg_ok m | ILost _ => True | INone => False end.
Definition item_out (freq core : Z) (i : item) : list (list Z) :=
  match i with IMsg m => [emit_line (drain_line freq (msg_line m))] | ILost n => [emit_line (report_line core n)] | INone => [] end.
Definition items_out (freq core : Z) (l : list item) : list (list Z) := concat (item_out freq core <$> l).
Definition lines_in (l : list item) : Z := alen (item_msgs l).

Lemma next_line_lost core n rs out : next_log_line (fun st => pop_entry core st.1 st.2) None (Some (RiDropped n) :: rs, out) =
  next_log_line (fun st => pop_entry core st.1 st.2) None (rs, out ++ [emit_line (report_line core n)]).
Proof. done. Qed.

Lemma next_line_msg core m rs out : msg_ok m ->
  next_log_line (fun st => pop_entry core st.1 st.2) None (item_pops (IMsg m) ++ rs, out) = Some (Some (msg_line m), None, (rs, out)).
Proof.
  intros Hm. apply (next_log_line_msg _ m _ (((fun e => Some (RiEntry e)) <$> option_list m.2) ++ rs, out)); [done|done|]. by destruct m as [e [c|]].
Qed.

(** A drain of a ring whose next items are [items] and which is then empty. *)
Lemma drain_ring_items freq core items : forall fuel d out rest, 0 <= d <= 16 -> 17 - d <= Z.of_nat fuel -> Forall item_ok items ->
  exists i1 i2 rs', drain_ring fuel freq core d None (items_pops items ++ None :: rest) out = Returned (d + lines_in i1, rs', out ++ items_out freq core i1) /\
    items = i1 ++ i2 /\ d + lines_in i1 <= 16 /\ (i2 = [] /\ rs' = rest \/ d + lines_in i1 = 16 /\ rs' = items_pops i2 ++ None :: rest).
Proof.
  induction items as [|i items IH]; intros fuel d out rest Hd Hf Hok; (destruct fuel as [|fuel]; [lia|]); cbn [drain_ring]; unfold DRAIN_BATCH_SIZE;
    (destruct (Z.ltb_spec d 16) as [Hlt|Hge]; cbn [orb]; [|rewrite bool_decide_false by (by intros [? ?]); eexists [], _, _; unfold items_out, lines_in; cbn; rewrite app_nil_r, Z.add_0_r; split; [done|]; split; [done|]; split; [lia|right; split; [lia|done]]]).
  - eexists [], [], _. cbn. rewrite app_nil_r, Z.add_0_r. split; [done|]. split; [done|]. split; [lia|by left].
  - apply Forall_cons in Hok as [Hi Hok]. unfold items_pops. cbn [fmap list_fmap concat]. fold (items_pops items). rewrite <-app_assoc. destruct i as [m|n|]; [| |done].
    + rewrite next_line_msg by done. destruct (IH fuel (d + 1) (out ++ [emit_line (drain_line freq (msg_line m))]) rest ltac:(lia) ltac:(lia) Hok) as (i1 & i2 & rs' & E & -> & Hle & Hc).
      exists (IMsg m :: i1), i2, rs'. assert (lines_in (IMsg m :: i1) = lines_in i1 + 1) as El by (unfold lines_in; cbn; by rewrite alen_cons). rewrite El.
      replace (d + (lines_in i1 + 1)) with (d + 1 + lines_in i1) by lia. split; [rewrite E; unfold items_out; cbn; by rewrite <-app_assoc|]. done.
    + cbn [item_pops app]. rewrite next_line_lost. specialize (IH (Datatypes.S fuel) d (out ++ [emit_line (report_line core n)]) rest Hd Hf Hok).
      cbn [drain_ring] in IH. unfold DRAIN_BATCH_SIZE in IH. rewrite (proj2 (Z.ltb_lt d 16) Hlt) in IH. cbn [orb] in IH. destruct IH as (i1 & i2 & rs' & E & -> & Hle & Hc).
      exists (ILost n :: i1), i2, rs'. split; [rewrite E; unfold items_out; cbn; by rewrite <-app_assoc|]. done.
Qed.

(** The output of the items of each ring, from core [core] on. *)
Fixpoint rings_out (freq core : Z) (ls : list (list item)) : list (list Z) :=
  match ls with [] => [] | l :: ls' => items_out freq core l ++ rings_out freq (core + 1) ls' end.
Definition rings_lines (ls : list (list item)) : Z := foldr Z.add 0 (lines_in <$> ls).

(** A ring's next items, and what its pops return after them and an empty
    result. *)
Notation ring_view := (list item * stream)%type.
Definition view_pops (v : ring_view) : stream := items_pops v.1 ++ None :: v.2.
Definition view_ok (v : ring_view) : Prop := Forall item_ok v.1.

(** What is left of a ring after a drain printed [l1] of it and left [l2]. *)
Definition left_over (full : bool) (v : ring_view) (l2 : list item) (rs : stream) : Prop :=
  l2 = [] /\ rs = v.2 \/ full = true /\ rs = items_pops l2 ++ None :: v.2.

Lemma lines_nonneg l : 0 <= lines_in l.
Proof. apply alen_nonneg. Qed.
Lemma rings_lines_nonneg ls : 0 <= rings_lines ls.
Proof. unfold rings_lines. induction ls as [|l ls IH]; cbn; [lia|]. pose proof (lines_nonneg l). lia. Qed.

Lemma left_over_mono b b' v l2 rs : (b = true -> b' = true) -> left_over b v l2 rs -> left_over b' v l2 rs.
Proof. intros Hb [?|[? ?]]; [by left|right; auto]. Qed.

Lemma drain_rings_items freq views : forall core d out, 0 <= d <= 16 -> Forall view_ok views ->
  exists l1 l2 rss, drain_rings 17 freq core d (view_pops <$> views) out = Returned (d + rings_lines l1, rss, out ++ rings_out freq core l1) /\
    d + rings_lines l1 <= 16 /\ Forall2 (fun v p => v.1 = p.1 ++ p.2) views (zip l1 l2) /\ length l1 = length views /\ length l2 = length views /\
    Forall2 (fun v p => left_over (d + rings_lines l1 =? 16) v p.1 p.2) views (zip l2 rss) /\ length rss = length views.
Proof.
  induction views as [|v views IH]; intros core d out Hd Hok; cbn [fmap list_fmap drain_rings].
  - exists [], [], []. unfold rings_lines. cbn. rewrite Z.add_0_r, app_nil_r. split_and!; done || lia || constructor.
  - apply Forall_cons in Hok as [Hv Hok]. destruct (drain_ring_items freq core v.1 17 d out v.2 Hd ltac:(lia) Hv) as (i1 & i2 & rs & E & Hs & Hle & Hc). fold (view_pops v) in E. rewrite E.
    pose proof (lines_nonneg i1). destruct (IH (core + 1) (d + lines_in i1) (out ++ items_out freq core i1) ltac:(lia) Hok) as (l1 & l2 & rss & E' & Hle' & Hz & N1 & N2 & Hl & N3). rewrite E'.
    exists (i1 :: l1), (i2 :: l2), (rs :: rss). assert (rings_lines (i1 :: l1) = lines_in i1 + rings_lines l1) as Er by done. rewrite Er, Z.add_assoc. pose proof (rings_lines_nonneg l1).
    split; [cbn [rings_out]; by rewrite <-app_assoc|]. split_and!; [lia|by constructor|cbn; congruence|cbn; congruence| |cbn; congruence].
    cbn [zip zip_with]. constructor; [|done]. cbn [fst snd]. destruct Hc as [?|[E16 ->]]; [by left|right]. split; [|done]. apply Z.eqb_eq. lia.
Qed.

(** The loss reports among the items. *)
Definition reports_in (l : list item) : Z := alen (omap (fun i => match i with ILost n => Some n | _ => None end) l).

Lemma items_out_len freq core l : alen (items_out freq core l) = lines_in l + reports_in l.
Proof.
  unfold items_out, lines_in, reports_in, item_msgs, alen. induction l as [|[m|n|] l IH]; cbn in *; [done|lia..].
Qed.

Lemma rings_out_len freq ls : forall core, alen (rings_out freq core ls) = rings_lines ls + foldr Z.add 0 (reports_in <$> ls).
Proof.
  unfold rings_lines. induction ls as [|l ls IH]; intros core; cbn [rings_out fmap list_fmap foldr]; [done|]. rewrite alen_app, items_out_len, IH. lia.
Qed.

(** C18: one drain call, over rings whose pops return the items [v.1] of each
    view (whole messages and loss reports) before they find the ring empty:
    it returns after at most 16 messages, having printed for each core, in
    order, a first part of the ring's items, every message as one whole line
    and every report as a line of its own in its place, so it prints one line
    for each of the messages and one more for each report; it stops short of
    emptying a ring only when it printed 16 messages. *)
Theorem drain_prints_in_order freq views : Forall view_ok views ->
  exists l1 l2 rss, drain_rings 17 freq 0 0 (view_pops <$> views) [] = Returned (rings_lines l1, rss, rings_out freq 0 l1) /\
    rings_lines l1 <= 16 /\ alen (rings_out freq 0 l1) = rings_lines l1 + foldr Z.add 0 (reports_in <$> l1) /\
    Forall2 (fun v p => v.1 = p.1 ++ p.2) views (zip l1 l2) /\ length l1 = length views /\ length l2 = length views /\
    Forall2 (fun v p => left_over (rings_lines l1 =? 16) v p.1 p.2) views (zip l2 rss).
Proof.
  intros Hok. destruct (drain_rings_items freq views 0 0 [] ltac:(lia) Hok) as (l1 & l2 & rss & E & H1 & H2 & H3 & H4 & H5 & _).
  exists l1, l2, rss. split_and!; [done|done|apply rings_out_len|done..].
Qed.

(** ** The panic drain *)

Lemma items_out_app freq core a b : items_out freq core (a ++ b) = items_out freq core a ++ items_out freq core b.
Proof. unfold items_out. by rewrite fmap_app, concat_app. Qed.
Lemma lines_in_app a b : lines_in (a ++ b) = lines_in a + lines_in b.
Proof. unfold lines_in, item_msgs. by rewrite omap_app, alen_app. Qed.

(** Printing two parts of each ring prints all of it. *)
Lemma rings_out_parts freq views l1 l2 : forall core, Forall2 (fun (v : ring_view) p => v.1 = p.1 ++ p.2) views (zip l1 l2) -> length l1 = length views -> length l2 = length views ->
  rings_out freq core (fst <$> views) ≡ₚ rings_out freq core l1 ++ rings_out freq core l2 /\ rings_lines (fst <$> views) = rings_lines l1 + rings_lines l2.
Proof.
  revert l1 l2. induction views as [|v views IH]; intros [|i1 l1] [|i2 l2] core Hz N1 N2; try done. cbn [zip zip_with] in Hz. apply Forall2_cons in Hz as [Hv Hz]. cbn [fst snd] in Hv.
  destruct (IH l1 l2 (core + 1) Hz ltac:(by injection N1) ltac:(by injection N2)) as [Hp Hl]. cbn [fmap list_fmap rings_out]. split.
  - rewrite Hv, items_out_app, Hp. solve_Permutation.
  - unfold rings_lines in *. cbn. rewrite Hv, lines_in_app, Hl. lia.
Qed.

(** A ring no core logs to any more. *)
Definition quiet (n : nat) (v : ring_view) : Prop := view_ok v /\ exists k, (n <= k)%nat /\ v.2 = replicate k None.

(** What is left of quiet rings is quiet rings. *)
Lemma quiet_left n full views l1 l2 rss : Forall (quiet (S n)) views -> Forall2 (fun (v : ring_view) p => v.1 = p.1 ++ p.2) views (zip l1 l2) ->
  length l1 = length views -> length l2 = length views -> length rss = length views ->
  Forall2 (fun v p => left_over full v p.1 p.2) views (zip l2 rss) ->
  exists views', rss = view_pops <$> views' /\ l2 = fst <$> views' /\ Forall (quiet n) views'.
Proof.
  intros Hq. revert l1 l2 rss. induction Hq as [|v views [Hv (k & Hk & Ek)] Hq IH]; intros [|i1 l1] [|i2 l2] [|rs rss] Hz N1 N2 N3 Hl; try done; [by exists []|].
  cbn [zip zip_with] in *. apply Forall2_cons in Hz as [Hs Hz]. apply Forall2_cons in Hl as [Hc Hl]. cbn [fst snd] in *.
  destruct (IH l1 l2 rss Hz ltac:(by injection N1) ltac:(by injection N2) ltac:(by injection N3) Hl) as (views' & -> & -> & Hq').
  unfold view_ok in Hv. rewrite Hs in Hv. apply Forall_app in Hv as [_ Hv2]. destruct Hc as [[-> ->]|[_ ->]].
  - exists (([], replicate (pred k) None) :: views'). split; [|split; [done|]].
    + cbn. f_equal. rewrite Ek. destruct k; [lia|]. done.
    + constructor; [|done]. split; [constructor|]. exists (pred k). split; [lia|done].
  - exists ((i2, v.2) :: views'). split; [done|]. split; [done|]. constructor; [|done]. split; [done|]. exists k. split; [lia|done].
Qed.

Lemma panic_loop_items freq n : forall views out, Forall (quiet n) views -> rings_lines (fst <$> views) < 16 * Z.of_nat n ->
  exists rss out', panic_loop n 17 freq (view_pops <$> views) out = Returned (rss, out ++ out') /\ Forall (Forall (eq None)) rss /\ out' ≡ₚ rings_out freq 0 (fst <$> views).
Proof.
  induction n as [|n IH]; intros views out Hq Hl; [pose proof (rings_lines_nonneg (fst <$> views)); lia|]. cbn [panic_loop].
  assert (Forall view_ok views) as Hok by (eapply Forall_impl; [exact Hq|]; by intros v [? _]).
  destruct (drain_rings_items freq views 0 0 out ltac:(lia) Hok) as (l1 & l2 & rss & E & Hle & Hz & N1 & N2 & Hc & N3). rewrite E, !Z.add_0_l in *.
  destruct (rings_out_parts freq views l1 l2 0 Hz N1 N2) as [Hp Hsum]. destruct (quiet_left n _ _ _ _ _ Hq Hz N1 N2 N3 Hc) as (views' & -> & -> & Hq'). unfold DRAIN_BATCH_SIZE.
  destruct (Z.ltb_spec (rings_lines l1) 16) as [Hlt|Hge].
  - rewrite (proj2 (Z.eqb_neq (rings_lines l1) 16)) in Hc by lia. exists (view_pops <$> views'), (rings_out freq 0 l1). split; [done|].
    assert (Forall (fun v => v.1 = [] /\ Forall (eq None) (view_pops v)) views') as Hnil.
    { clear -Hc Hq Hq' N2. revert views Hc Hq N2. induction Hq' as [|v' views' [_ (k & _ & Ek)] _ IH]; intros [|v views] Hc Hq N2; try done. cbn [fmap list_fmap zip zip_with] in Hc.
      apply Forall2_cons in Hc as [Hv Hc]. apply Forall_cons in Hq as [_ Hq]. constructor; [|by apply (IH views); [| |by injection N2]]. cbn [fst snd] in Hv. destruct Hv as [[E1 E2]|[? _]]; [|done].
      split; [done|]. unfold view_pops. rewrite E1, Ek. constructor; [done|]. by apply Forall_replicate. }
    split; [apply Forall_fmap; eapply Forall_impl; [exact Hnil|]; by intros v [_ ?]|]. rewrite Hp. assert (forall core, rings_out freq core (fst <$> views') = []) as Hn0; [|by rewrite Hn0, app_nil_r].
    clear -Hnil. induction Hnil as [|v views' [Ev _] _ IH]; intros core; [done|]. cbn [fmap list_fmap rings_out]. by rewrite Ev, IH.
  - assert (rings_lines l1 = 16) as E16 by lia. destruct (IH views' (out ++ rings_out freq 0 l1) Hq' ltac:(lia)) as (rss & out' & E' & Hn & Hp'). exists rss, (rings_out freq 0 l1 ++ out').
    split; [by rewrite E', <-app_assoc|]. split; [done|]. by rewrite Hp, Hp'.
Qed.

(** The panic drain on CPU 0, when no other drain runs there and no core
    logs any more, returns within its 128 calls with every ring empty, and has
    printed exactly the waiting messages and reports, when fewer than 2048
    messages wait. *)
Theorem panic_drain_complete freq flags views : cpu0_draining flags = false -> Forall (quiet PANIC_DRAIN_CALLS) views -> rings_lines (fst <$> views) < 2048 ->
  exists rss out, drain_logs_after_panic 17 freq 0 flags (view_pops <$> views) [] = Returned (rss, out) /\
    Forall (Forall (eq None)) rss /\ out ≡ₚ rings_out freq 0 (fst <$> views).
Proof.
  intros Hf Hq Hl. unfold drain_logs_after_panic. rewrite Hf. destruct (panic_loop_items freq PANIC_DRAIN_CALLS views [] Hq ltac:(done)) as (rss & out & E & ? & ?). by exists rss, out.
Qed.

(** ** The boot log keeps the latest lines *)

Lemma bootlog_inv ls : let b := foldl push_line bootlog_new ls in
  bl_count b = alen ls /\ alen (bl_lines b) = MAX_LOG_LINES /\ alen (bl_lens b) = MAX_LOG_LINES /\
  forall i l, alen ls - MAX_LOG_LINES <= i -> ls.[i] = Some l -> 0 <= i ->
    exists a, (bl_lines b).[i mod MAX_LOG_LINES] = Some a /\ (bl_lens b).[i mod MAX_LOG_LINES] = Some (Z.of_nat (Nat.min (length l) MAX_LINE_LEN)) /\
      take (Nat.min (length l) MAX_LINE_LEN) a = take MAX_LINE_LEN l.
Proof.
  induction ls as [|x ls IH] using rev_ind; cbn zeta.
  { split_and!; [done|by apply alen_array_of|by apply alen_array_of|]. intros i l _ Hi. by rewrite aget_nil in Hi. }
  rewrite foldl_app. cbn [foldl]. set (b := foldl push_line bootlog_new ls) in *. destruct IH as (Hc & N1 & N2 & Hi). unfold push_line. cbn [bl_count bl_lines bl_lens]. rewrite Hc.
  pose proof (alen_nonneg ls) as Hn. assert (0 <= alen ls mod MAX_LOG_LINES < MAX_LOG_LINES) as Hm by (apply Z.mod_pos_bound; done).
  split_and!; [by rewrite alen_app|by rewrite alen_aset|by rewrite alen_aset|]. intros i l Hge Hget H0. rewrite alen_app in Hge. change (alen [x]) with 1 in Hge.
  destruct (aget_snoc _ _ _ _ H0 Hget) as [[Hlt Hg]|[-> ->]]; cycle 1.
  - rewrite !aget_aset_eq by lia. eexists. split; [done|]. split; [unfold wrap, MAX_LINE_LEN in *; rewrite Z.mod_small by lia; done|].
    rewrite take_app_le by (rewrite length_take; lia). rewrite take_take, Nat.min_id.
    destruct (Nat.min_spec (length x) MAX_LINE_LEN) as [[? ->]|[? ->]]; [|done]. by rewrite !take_ge by lia.
  - destruct (Hi i l ltac:(lia) Hg H0) as (a & E1 & E2 & E3).
    assert (alen ls mod MAX_LOG_LINES <> i mod MAX_LOG_LINES) as Hd.
    { unfold MAX_LOG_LINES in *. intros E. pose proof (Z.div_mod (alen ls) 256 ltac:(lia)). pose proof (Z.div_mod i 256 ltac:(lia)). nia. }
    exists a. rewrite !aget_aset_ne by (done || lia || apply Z.mod_pos_bound; done). done.
Qed.

(** The boot log hands the renderer the most recent captured lines, in
    order, each cut to 160 bytes: as many as it has, holds and was asked for. *)
Theorem boot_log_latest ls capacity : 0 <= capacity ->
  let n := Z.to_nat (Z.min (Z.min (alen ls) MAX_LOG_LINES) capacity) in
  (fun p => take (Z.to_nat p.2) p.1) <$> take_boot_log (foldl push_line bootlog_new ls) capacity = take MAX_LINE_LEN <$> drop (length ls - n) ls.
Proof.
  intros Hc n. destruct (bootlog_inv ls) as (Hcnt & _ & _ & Hi). set (b := foldl push_line bootlog_new ls) in *. unfold take_boot_log. rewrite Hcnt. fold n.
  pose proof (alen_nonneg ls) as Hn. assert (Z.of_nat n <= alen ls /\ Z.of_nat n <= MAX_LOG_LINES) as [Hn1 Hn2] by (unfold n, MAX_LOG_LINES; lia).
  replace (saturating_sub (alen ls) (Z.min (Z.min (alen ls) MAX_LOG_LINES) capacity)) with (alen ls - Z.of_nat n) by (unfold saturating_sub, n, MAX_LOG_LINES in *; lia).
  apply list_eq. intros i. rewrite <-list_fmap_compose, !list_lookup_fmap, lookup_drop. destruct (Nat.lt_ge_cases i n) as [Hlt|Hge].
  - rewrite lookup_seq_lt by done. cbn [fmap option_fmap option_map compose fst snd]. set (j := alen ls - Z.of_nat n + Z.of_nat (0 + i)).
    destruct (lookup_lt_is_Some_2 ls (length ls - n + i)) as [l Hl]; [unfold alen in *; lia|]. rewrite Hl. cbn.
    destruct (Hi j l) as (a & E1 & E2 & E3); [unfold j; lia| |unfold j; lia|].
    + unfold aget, j. rewrite <-Hl. f_equal. unfold alen in *. lia.
    + rewrite E1, E2. cbn. rewrite Nat2Z.id. by rewrite E3.
  - rewrite lookup_seq_ge, lookup_ge_None_2 by (done || unfold alen in *; lia). done.
Qed.

(** ** Witnesses *)

Lemma pops_whole_messages_witness :
  length (read (acts_result demo_schedule).1) = 2%nat /\
  exists items part rest, pops (acts_result demo_schedule).1 = items_pops items ++ ((fun e => Some (RiEntry e)) <$> part) /\
    accepted (acts_result demo_schedule).1 = item_msgs items ++ rest.
Proof.
  split; [vm_compute; reflexivity|]. destruct (pops_whole_messages _ _ demo_run) as (items & part & rest & H1 & H2 & _). exists items, part, rest. split; [exact H1|exact H2].
Defined.

Lemma logged_line_printed_witness :
  exists m, log_entries 62500000 9 LvInfo SsBoot [text "scheduler "; text "up"] = Some m /\
    emit_line (drain_line 62500000 (msg_line m)) = text "[   1.000000] [7] INFO  Boot  scheduler up".
Proof.
  destruct (logged_line_printed 62500000 9 LvInfo SsBoot 62500000 [text "scheduler "; text "up"] []) as (m & E & _ & _ & Hl & E1 & E2 & E3 & E4).
  - repeat constructor.
  - split; [lia|reflexivity].
  - lia.
  - lia.
  - exists m. split; [exact E|]. rewrite Hl. unfold header_pieces. rewrite E1, E2, E3, E4. vm_compute. reflexivity.
Defined.

(** A ring with a short message, a report and a long message, and an empty
    ring. *)
Definition demo_views (k : nat) : list (list item * list (option RingItem)) :=
  [([IMsg short_msg; ILost 3; IMsg long_msg], replicate k None); ([], replicate k None)].

Lemma demo_views_quiet n : Forall (quiet n) (demo_views n).
Proof.
  repeat constructor; try (by exists n); try done; vm_compute; done.
Qed.

Lemma drain_prints_in_order_witness :
  exists l1 rss, drain_rings 17 62500000 0 0 (view_pops <$> demo_views 1) [] = Returned (rings_lines l1, rss, rings_out 62500000 0 l1) /\ rings_lines l1 <= 16.
Proof.
  assert (Forall view_ok (demo_views 1)) as Hok by (eapply Forall_impl; [exact (demo_views_quiet 1)|]; intros v [Hv _]; exact Hv).
  destruct (drain_prints_in_order 62500000 (demo_views 1) Hok) as (l1 & l2 & rss & E & Hle & _). exists l1, rss. split; [exact E|exact Hle].
Defined.

Lemma panic_drain_complete_witness :
  exists rss out, drain_logs_after_panic 17 62500000 0 (mk_flags false false) (view_pops <$> demo_views PANIC_DRAIN_CALLS) [] = Returned (rss, out) /\
    out ≡ₚ rings_out 62500000 0 (fst <$> demo_views PANIC_DRAIN_CALLS).
Proof.
  destruct (panic_drain_complete 62500000 (mk_flags false false) (demo_views PANIC_DRAIN_CALLS) eq_refl (demo_views_quiet _)) as (rss & out & E & _ & Hp); [vm_compute; reflexivity|].
  exists rss, out. split; [exact E|exact Hp].
Defined.

Lemma boot_log_latest_witness :
  (fun p => take (Z.to_nat p.2) p.1) <$> take_boot_log (foldl push_line bootlog_new [text "a"; text "b"; text "c"]) 2 = [text "b"; text "c"].
Proof. rewrite (boot_log_latest [text "a"; text "b"; text "c"] 2 ltac:(lia)). vm_compute. reflexivity. Defined.
