(* ===== verification/IrqLock.v ===== *)
(** * The detect-only IRQ-class lock (shared/src/lock.rs, kernel/src/sync/irq_spin_lock.rs)

    The lock's code as sequences of single accesses to the machine: CPU id
    and generation reads, atomic loads, stores and compare-and-swaps of the
    lock word, stores of the holder fields.  Between two accesses anything
    may happen on the other CPUs, and on this one too while IRQs are on.  A
    loop takes a number of turns ([fuel]) and then stays in it ([Spin]): a
    finite run of the machine goes around each loop finitely often, so the
    runs with every fuel are all the runs. *)

From S2P Require Import Prelude Text Abi OwnerStamp Tripwire.
From stdpp Require Import strings.
Local Open Scope Z_scope.

Definition MAX_CORES : Z := 8.
Definition KERNEL_BASE : Z := 0xFFFF000000000000.
Definition VIRT_PHYS_OFFSET : Z := 0xFFFEFFFFC0000000.
Definition STUCK_SECS : Z := 2.
Definition STUCK_CHECK_MASK : Z := 1023.
Definition RUNNING_UNKNOWN : Z := 0xFF.
Definition RUNNING_NONE : Z := 0xFE.

Record LockId := mk_lock { lk_class : LockClass; lk_index : Z }.
#[export] Instance LockId_eq_dec : EqDecision LockId.
Proof. solve_decision. Defined.

(** ** Events and reports *)

Inductive EventKind := Preempted | Stuck | SelfHeld.
Record Event := {
  ev_kind : EventKind; ev_cpu : Z; ev_id : LockId; ev_ctx : Ctx; ev_owner : Z;
  ev_holder_tid : Z; ev_cur_tid : Z; ev_running : Z; ev_site : Z
}.
Record Reentered := {
  re_id : LockId; re_me : Z; re_observed : Z; re_tid : Z; re_site : Z; re_irq_ctx : Z
}.

(** ** Accesses and code *)

Inductive access : Type -> Type :=
| ReadCpu : access Z
| ReadGen (cpu : Z) : access Z
| ReadTid (cpu : Z) : access Z
| ReadIrqsOn : access bool
| ReadIrqCtx (cpu : Z) : access Z
| ReadCounter : access Z
| ReadFreq : access Z
| ReadOnline : access Z
| LoadWord (l : LockId) : access Z
| LoadTid (l : LockId) : access Z
| LoadSite (l : LockId) : access Z
| Cas (weak : bool) (l : LockId) (stamp : Z) : access bool
| Restamp (l : LockId) (stamp : Z) : access unit
| StoreTid (l : LockId) (tid : Z) : access unit
| StoreSite (l : LockId) (site : Z) : access unit
| StoreFree (l : LockId) : access unit
| SetIrqs (on : bool) : access unit
| Bump (key : Key) (idx : Z) : access unit
| Print (e : Event) : access unit.

Inductive code (A : Type) : Type :=
| Ret (a : A)
| Do (T : Type) (x : access T) (k : T -> code A)
| Panicked (r : Reentered)
| Spin.
Arguments Ret {A} _.
Arguments Do {A T} _ _.
Arguments Panicked {A} _.
Arguments Spin {A}.

Fixpoint cbind {A B} (p : code A) (q : A -> code B) : code B :=
  match p with
  | Ret a => q a
  | Do x k => Do x (fun r => cbind (k r) q)
  | Panicked r => Panicked r
  | Spin => Spin
  end.

Declare Scope code_scope.
Delimit Scope code_scope with code.
Notation "x <- p ;; q" := (cbind p (fun x => q)) (at level 100, p at next level, right associativity) : code_scope.
Notation "p ;;; q" := (cbind p (fun _ => q)) (at level 100, right associativity) : code_scope.
Notation "x <-! a ;; q" := (Do a (fun x => q)) (at level 100, a at next level, right associativity) : code_scope.
Notation "a ;> q" := (Do a (fun _ => q)) (at level 100, right associativity) : code_scope.
Local Open Scope code_scope.

(** ** shared/src/lock.rs *)

Inductive Contention := CFree | COtherCpu | COtherCpuSwitched | CReentry | CPreemptedHolder.

Definition classify (observed me : Z) : code Contention :=
  match from_word observed with
  | None => Ret CFree
  | Some owner =>
      let owner_cpu := stamp_cpu owner in
      now <-! ReadGen owner_cpu ;;
      let owner_current := gen_matches owner now in
      Ret (if (owner_cpu =? stamp_cpu me) && gen_matches me now
           then (if owner_current then CReentry else CPreemptedHolder)
           else if owner_current then COtherCpu else COtherCpuSwitched)
  end.

Fixpoint read_stamp (fuel : nat) : code (Z * Z) :=
  match fuel with
  | O => Spin
  | S fuel' =>
      cpu <-! ReadCpu ;;
      gen <-! ReadGen cpu ;;
      again <-! ReadCpu ;;
      if again =? cpu then Ret (cpu, gen) else read_stamp fuel'
  end.

(** [consistent_snapshot] with the reader [holder_snapshot] gives it. *)
Definition consistent_snapshot (l : LockId) : code (option (Z * Z * Z)) :=
  first <-! LoadWord l ;;
  match from_word first with
  | None => Ret None
  | Some stamp =>
      tid <-! LoadTid l ;;
      site <-! LoadSite l ;;
      word <-! LoadWord l ;;
      if word =? first then Ret (Some (stamp, tid, site)) else Ret None
  end.

(** Dropping a guard: the hook clears the holder fields, then the word. *)
Definition guard_drop (l : LockId) : code bool :=
  StoreSite l 0 ;> StoreTid l TID_NONE ;> StoreFree l ;> Ret false.

(** ** Stamps *)

Fixpoint whoami_loop (fuel : nat) (irqs_on : bool) : code (Z * Z) :=
  match fuel with
  | O => Spin
  | S fuel' =>
      p <- read_stamp fuel ;;
      tid <-! ReadTid p.1 ;;
      gen <-! ReadGen p.1 ;;
      if gen =? p.2 then Ret (stamp_new p.1 p.2 irqs_on, tid) else whoami_loop fuel' irqs_on
  end.
Definition whoami (fuel : nat) : code (Z * Z) := irqs_on <-! ReadIrqsOn ;; whoami_loop fuel irqs_on.

Definition kva_of (site : Z) : Z :=
  if site <? KERNEL_BASE then wrapping_add 64 site VIRT_PHYS_OFFSET else site.

(** [switch_gen_masked] indexes modulo [MAX_CORES]. *)
Definition current_stamp_or (stamp : Z) : code Z :=
  cpu <-! ReadCpu ;;
  gen <-! ReadGen (Z.land cpu (MAX_CORES - 1)) ;;
  again <-! ReadCpu ;;
  Ret (if cpu =? again then stamp_new cpu gen (stamp_irqs_on stamp) else stamp).

(** ** Bookkeeping *)

Definition hold (l : LockId) (stamp tid site : Z) : code unit :=
  StoreTid l tid ;>
  StoreSite l (kva_of site) ;>
  s <- current_stamp_or stamp ;;
  Restamp l s ;> Ret tt.

Definition holder_snapshot (l : LockId) (expect : Z) : code (Z * Z) :=
  snap <- consistent_snapshot l ;;
  Ret match snap with
      | Some (word, tid, site) => if word =? expect then (tid, site) else (TID_NONE, 0)
      | None => (TID_NONE, 0)
      end.

Definition note_try_failed (class : LockClass) (me observed : Z) : code unit :=
  c <- classify observed me ;;
  match c with
  | CReentry => Bump Key_Lktry (lock_class_index class) ;> Ret tt
  | CPreemptedHolder => Bump Key_Lktph (lock_class_index class) ;> Ret tt
  | CFree | COtherCpu | COtherCpuSwitched => Ret tt
  end.

Definition is_self (holder_tid my_tid : Z) : bool := negb (holder_tid =? TID_NONE) && (holder_tid =? my_tid).

(** The CPUs [cpu..online], at most [MAX_CORES] of them. *)
Fixpoint holder_running_from (fuel : nat) (cpu online holder_tid exclude : Z) : code Z :=
  match fuel with
  | O => Ret RUNNING_NONE
  | S fuel' =>
      if cpu <? online then
        if cpu =? exclude then holder_running_from fuel' (wrapping_add 8 cpu 1) online holder_tid exclude
        else
          t <-! ReadTid cpu ;;
          if t =? holder_tid then Ret cpu
          else holder_running_from fuel' (wrapping_add 8 cpu 1) online holder_tid exclude
      else Ret RUNNING_NONE
  end.

Definition holder_running (holder_tid exclude : Z) : code Z :=
  if holder_tid =? TID_NONE then Ret RUNNING_UNKNOWN
  else
    online <-! ReadOnline ;;
    holder_running_from 9 0 (Z.min online MAX_CORES) holder_tid exclude.

Definition print_event (kind : EventKind) (l : LockId) (owner holder_tid cur_tid running site : Z) : code unit :=
  irqs_on <-! ReadIrqsOn ;;
  SetIrqs false ;>
  cpu <-! ReadCpu ;;
  ctx <-! ReadIrqCtx cpu ;;
  Print {| ev_kind := kind; ev_cpu := cpu; ev_id := l; ev_ctx := ctx_from_raw ctx (negb irqs_on); ev_owner := owner;
           ev_holder_tid := holder_tid; ev_cur_tid := cur_tid; ev_running := running; ev_site := site |} ;>
  if irqs_on then SetIrqs true ;> Ret tt else Ret tt.

Definition note_preempted_holder (l : LockId) (me my_tid observed holder_tid site : Z) : code unit :=
  let class := lock_class_index (lk_class l) in
  Bump (if stamp_irqs_on me then Key_Lkpho else Key_Lkph) class ;>
  running <- holder_running holder_tid (stamp_cpu me) ;;
  if is_self holder_tid my_tid then
    Bump Key_Lkself class ;> print_event SelfHeld l observed holder_tid my_tid running site
  else if running <? MAX_CORES then Bump Key_Lkphrun class ;> Ret tt
  else if negb (stamp_irqs_on me) then print_event Preempted l observed holder_tid my_tid running site
  else Ret tt.

Definition note_other_cpu_switched (l : LockId) (my_tid observed holder_tid site : Z) : code unit :=
  let class := lock_class_index (lk_class l) in
  Bump Key_Lkoxp class ;>
  if is_self holder_tid my_tid then
    Bump Key_Lkself class ;>
    cpu <-! ReadCpu ;;
    running <- holder_running holder_tid cpu ;;
    print_event SelfHeld l observed holder_tid my_tid running site
  else Ret tt.

Definition note_stuck (l : LockId) (my_tid owner holder_tid site : Z) : code unit :=
  Bump Key_Lkstk (lock_class_index (lk_class l)) ;>
  cpu <-! ReadCpu ;;
  running <- holder_running holder_tid cpu ;;
  print_event Stuck l owner holder_tid my_tid running site.

Definition waited_too_long (start : Z) : code bool :=
  freq <-! ReadFreq ;;
  now <-! ReadCounter ;;
  Ret (wrapping_sub 64 now start >? Z.min (freq * STUCK_SECS) (umax 64)).

(** [reentry_panic]: the message is [reentry_text] of the report. *)
Definition reentry_panic {A} (l : LockId) (me observed holder_tid site : Z) : code A :=
  ctx <-! ReadIrqCtx (stamp_cpu me) ;;
  Panicked {| re_id := l; re_me := me; re_observed := observed; re_tid := holder_tid; re_site := site; re_irq_ctx := ctx |}.

(** ** [IrqSpinLock] *)

Definition NOTED_PREEMPTED : Z := 1.
Definition NOTED_SWITCHED : Z := 2.
Definition NOTED_STUCK : Z := 4.
Definition noted_yet (noted flag : Z) : bool := negb (Z.land noted flag =? 0).

(** [while self.inner.owner_word() != 0]: returns what the call has noted. *)
Fixpoint spin_wait (fuel : nat) (l : LockId) (tid start noted spins : Z) : code Z :=
  match fuel with
  | O => Spin
  | S fuel' =>
      w <-! LoadWord l ;;
      if w =? 0 then Ret noted
      else
        let spins := wrapping_add 32 spins 1 in
        if (Z.land spins STUCK_CHECK_MASK =? 0) && negb (noted_yet noted NOTED_STUCK) then
          late <- waited_too_long start ;;
          if late : bool then
            word <-! LoadWord l ;;
            h <- holder_snapshot l word ;;
            note_stuck l tid word h.1 h.2 ;;;
            spin_wait fuel' l tid start (Z.lor noted NOTED_STUCK) spins
          else spin_wait fuel' l tid start noted spins
        else spin_wait fuel' l tid start noted spins
  end.

(** What a contended [lock] does with the verdict on the observed word. *)
Definition note_contention (l : LockId) (stamp tid observed noted : Z) : code Z :=
  c <- classify observed stamp ;;
  match c with
  | CReentry =>
      h <- holder_snapshot l observed ;;
      reentry_panic l stamp observed h.1 h.2
  | CPreemptedHolder =>
      if noted_yet noted NOTED_PREEMPTED then Ret noted
      else
        h <- holder_snapshot l observed ;;
        note_preempted_holder l stamp tid observed h.1 h.2 ;;;
        Ret (Z.lor noted NOTED_PREEMPTED)
  | COtherCpuSwitched =>
      if noted_yet noted NOTED_SWITCHED then Ret noted
      else
        h <- holder_snapshot l observed ;;
        note_other_cpu_switched l tid observed h.1 h.2 ;;;
        Ret (Z.lor noted NOTED_SWITCHED)
  | CFree | COtherCpu => Ret noted
  end.

(** [lock_contended], from the top of its loop. *)
Fixpoint contended_loop (fuel : nat) (l : LockId) (stamp tid site start noted : Z) : code bool :=
  match fuel with
  | O => Spin
  | S fuel' =>
      observed <-! LoadWord l ;;
      next <- (if observed =? 0 then Ret (stamp, tid, noted)
               else
                 noted <- note_contention l stamp tid observed noted ;;
                 noted <- spin_wait fuel l tid start noted 0 ;;
                 if stamp_irqs_on stamp then me <- whoami fuel ;; Ret (me, noted)
                 else Ret (stamp, tid, noted)) ;;
      let '(stamp, tid, noted) := next in
      ok <-! Cas true l stamp ;;
      if ok then hold l stamp tid site ;;; Ret true
      else contended_loop fuel' l stamp tid site start noted
  end.

Definition lock_contended (fuel : nat) (l : LockId) (stamp tid site : Z) : code bool :=
  start <-! ReadCounter ;; contended_loop fuel l stamp tid site start 0.

(** [lock], [try_lock] and [try_lock_quiet]: whether they return a guard. *)
Definition lock (fuel : nat) (l : LockId) (site : Z) : code bool :=
  me <- whoami fuel ;;
  ok <-! Cas true l me.1 ;;
  if ok then hold l me.1 me.2 site ;;; Ret true
  else lock_contended fuel l me.1 me.2 site.

Definition try_lock (fuel : nat) (l : LockId) (site : Z) : code bool :=
  me <- whoami fuel ;;
  ok <-! Cas false l me.1 ;;
  if ok then hold l me.1 me.2 site ;;; Ret true
  else
    observed <-! LoadWord l ;;
    note_try_failed (lk_class l) me.1 observed ;;;
    Ret false.

Definition try_lock_quiet (fuel : nat) (l : LockId) (site : Z) : code bool :=
  me <- whoami fuel ;;
  ok <-! Cas false l me.1 ;;
  if ok then hold l me.1 me.2 site ;;; Ret true else Ret false.

(** ** Rule (b) at run time *)

(** The 23 IRQ-class locks, in the order their words are visited. *)
Definition LOCKS : list LockId :=
  [mk_lock ThreadTable SCALAR_INDEX] ++ map (mk_lock CurrentThread) (range MAX_CORES)
  ++ map (mk_lock RunQueues) (range MAX_CORES)
  ++ [mk_lock TimeoutQueue SCALAR_INDEX; mk_lock WakeupErrors SCALAR_INDEX; mk_lock NotifyDeadlines SCALAR_INDEX;
      mk_lock NotificationTable SCALAR_INDEX; mk_lock SelectWaiters SCALAR_INDEX; mk_lock BootLog SCALAR_INDEX].

Definition is_stream_stamp (word cpu gen : Z) : bool :=
  match from_word word with
  | Some stamp => (stamp_cpu stamp =? cpu) && gen_matches stamp gen
  | None => false
  end.

Fixpoint any_stream_word (ls : list LockId) (cpu gen : Z) (found : bool) : code bool :=
  match ls with
  | [] => Ret found
  | l :: ls' => w <-! LoadWord l ;; any_stream_word ls' cpu gen (is_stream_stamp w cpu gen || found)
  end.

Definition held_by_stream (cpu : Z) : code bool :=
  gen <-! ReadGen cpu ;; any_stream_word LOCKS cpu gen false.

Definition held_by_own_stream (word : Z) : code bool :=
  cpu <-! ReadCpu ;; gen <-! ReadGen cpu ;; Ret (is_stream_stamp word cpu gen).

(** Whether it counted [rsthold]. *)
Definition note_restore : code bool :=
  cpu <-! ReadCpu ;;
  breach <- held_by_stream cpu ;;
  if breach : bool then Bump Key_Rsthold 0 ;> Ret true else Ret false.

(** ** The text of events and reports

    [location_at] is the [Location] object at an address of the kernel image. *)
Section text.
Context (location_at : Z -> HolderSite).

Definition site_ref (site : Z) : option HolderSite := if site =? 0 then None else Some (location_at site).

Definition put_tid (tid : Z) : list Z := if tid =? TID_NONE then text "?" else put_dec tid.

Definition event_kind_name (k : EventKind) : list Z := text
  match k with Preempted => "ph" | Stuck => "stuck" | SelfHeld => "self" end.

Definition event_line (e : Event) : list Z :=
  text "[tripwire-ev] kind=" ++ event_kind_name (ev_kind e) ++ text " cpu=" ++ put_dec (ev_cpu e)
  ++ text " lock=" ++ lock_class_name (lk_class (ev_id e)) ++ text " idx="
  ++ (if lk_index (ev_id e) =? SCALAR_INDEX then text "-" else put_dec (lk_index (ev_id e)))
  ++ text " ctx=" ++ ctx_name (ev_ctx e) ++ text " owner_cpu="
  ++ match from_word (ev_owner e) with Some s => put_dec (stamp_cpu s) | None => text "?" end
  ++ text " owner_gen="
  ++ match from_word (ev_owner e) with Some s => put_dec (stamp_gen s) | None => text "?" end
  ++ text " holder_tid=" ++ put_tid (ev_holder_tid e) ++ text " cur_tid=" ++ put_tid (ev_cur_tid e)
  ++ text " holder_running="
  ++ (if ev_running e =? RUNNING_UNKNOWN then text "?" else if ev_running e =? RUNNING_NONE then text "none"
      else put_dec (ev_running e))
  ++ text " holder="
  ++ match site_ref (ev_site e) with
     | Some loc => hs_file loc ++ text ":" ++ put_dec (hs_line loc)
     | None => text "?"
     end
  ++ [10].

Definition reentry_report (r : Reentered) : ReentryReport :=
  {| rr_class := lk_class (re_id r); rr_index := lk_index (re_id r); rr_cpu := stamp_cpu (re_me r);
     rr_ctx := ctx_from_raw (re_irq_ctx r) (negb (stamp_irqs_on (re_me r))); rr_holder := site_ref (re_site r);
     rr_owner := default (re_me r) (from_word (re_observed r)); rr_tid := re_tid r |}.

(** What the panic prints: the message cut at the buffer's capacity. *)
Definition reentry_text (r : Reentered) : list Z :=
  kept (buf_put_all (buf_new MAX_REENTRY_MSG_LEN) (write_reentry_msg (reentry_report r))).
End text.
