(* ===== verification/LockMachine.v ===== *)
(** * The machine the IRQ-class lock runs on

    CPUs run streams: a thread with the IRQ handlers nested on its stack, or
    the code that dispatches the next thread.  Each frame of a stream's stack
    runs the lock's code one access at a time ([step_exec]); between accesses
    the other CPUs run, and an IRQ may push a handler frame while the frame
    has IRQs on.  Any frame may call [lock], [try_lock] or [try_lock_quiet]
    on any lock at any time, and drop a guard it has: the machine runs every
    client of the lock.

    A dispatch follows the kernel's rules (kernel/src/sync/irq_spin_lock.rs,
    kernel/src/observability/tripwire.rs [note_dispatch]): (a) it bumps its
    CPU's switch generation, with IRQs masked, before the next thread is
    restored; (b) the dispatching code has dropped its guards when it
    restores; (c) a thread resumes where it was switched out.  A generation
    is stored in 54 bits; a CPU makes fewer than 2^54 dispatches. *)

From S2P Require Import Prelude Text Abi OwnerStamp Tripwire IrqLock.
Local Open Scope Z_scope.

Definition upd {A B} `{EqDecision A} (f : A -> B) (a : A) (b : B) : A -> B :=
  fun x => if decide (x = a) then b else f x.

(** A thread, the dispatching (or booting) code of a CPU, or boot code that
    an IRQ's dispatch has abandoned. *)
Inductive stream := Thread (t : Z) | Dispatch (cpu : Z) | Lost (n : Z).
#[export] Instance stream_eq_dec : EqDecision stream.
Proof. solve_decision. Defined.

(** A frame: whether IRQs are on in it, the guards it has taken and those a
    dispatch took over from the thread it switched out, and the call it is in,
    with the lock the call is to return a guard of. *)
Record local := mk_local { irqs : bool; held : list LockId; carried : list LockId }.
Record frame := mk_frame { loc : local; work : option (option LockId * code bool) }.

Definition guards (f : local) : list LockId := held f ++ carried f.

Record mach := mk_mach {
  gens : Z -> Z;            (* SWITCH_GEN *)
  tids : Z -> Z;            (* CURRENT_TID *)
  words : LockId -> Z;      (* the lock words *)
  ftids : LockId -> Z;      (* HolderFields::tid *)
  fsites : LockId -> Z;     (* HolderFields::site *)
  cur : Z -> stream;        (* the stream each CPU runs *)
  stacks : stream -> list frame
}.

Definition cpu_ok (c : Z) : Prop := 0 <= c < MAX_CORES.
#[export] Instance cpu_ok_dec c : Decision (cpu_ok c).
Proof. unfold cpu_ok. apply _. Defined.

Definition set_word (m : mach) (l : LockId) (w : Z) : mach :=
  mk_mach (gens m) (tids m) (upd (words m) l w) (ftids m) (fsites m) (cur m) (stacks m).
Definition set_ftid (m : mach) (l : LockId) (v : Z) : mach :=
  mk_mach (gens m) (tids m) (words m) (upd (ftids m) l v) (fsites m) (cur m) (stacks m).
Definition set_fsite (m : mach) (l : LockId) (v : Z) : mach :=
  mk_mach (gens m) (tids m) (words m) (ftids m) (upd (fsites m) l v) (cur m) (stacks m).
Definition set_stack (m : mach) (e : stream) (st : list frame) : mach :=
  mk_mach (gens m) (tids m) (words m) (ftids m) (fsites m) (cur m) (upd (stacks m) e st).

Definition take_guard (f : local) (l : LockId) : local := mk_local (irqs f) (l :: held f) (carried f).
Definition drop_guard (f : local) (l : LockId) : local :=
  if decide (l ∈ held f) then mk_local (irqs f) (list_difference (held f) [l]) (carried f)
  else mk_local (irqs f) (held f) (list_difference (carried f) [l]).

(** What the hardware decides: whether a weak compare-and-swap fails
    spuriously, and the value of a register no rule constrains. *)
Record oracle := { spurious : bool; reading : Z }.

(** One access by a frame on CPU [c].  Counters and the UART are not read
    by the lock. *)
Definition perform {T} (x : access T) (o : oracle) (c : Z) (m : mach) (f : local) : T * mach * local :=
  match x in access T return T * mach * local with
  | ReadCpu => (c, m, f)
  | ReadGen cpu => (if decide (cpu_ok cpu) then gens m cpu else 0, m, f)
  | ReadTid cpu => (if decide (cpu_ok cpu) then tids m cpu else TID_NONE, m, f)
  | ReadIrqsOn => (irqs f, m, f)
  | ReadIrqCtx _ | ReadCounter | ReadFreq | ReadOnline => (reading o, m, f)
  | LoadWord l => (words m l, m, f)
  | LoadTid l => (ftids m l, m, f)
  | LoadSite l => (fsites m l, m, f)
  | Cas weak l stamp =>
      if (words m l =? 0) && negb (weak && spurious o) then (true, set_word m l stamp, take_guard f l)
      else (false, m, f)
  | Restamp l stamp => (tt, set_word m l stamp, f)
  | StoreTid l tid => (tt, set_ftid m l tid, f)
  | StoreSite l site => (tt, set_fsite m l site, f)
  | StoreFree l => (tt, set_word m l 0, drop_guard f l)
  | SetIrqs on => (tt, m, mk_local on (held f) (carried f))
  | Bump _ _ | Print _ => (tt, m, f)
  end.

(** The calls a frame may make. *)
Definition callable (f : local) (want : option LockId) (p : code bool) : Prop :=
  (exists fuel l site, l ∈ LOCKS /\ want = Some l /\
    (p = lock fuel l site \/ p = try_lock fuel l site \/ p = try_lock_quiet fuel l site)) \/
  (exists l, l ∈ guards f /\ want = None /\ p = guard_drop l) \/ (want = None /\ p = note_restore).

Definition idle_frame (b : bool) : frame := mk_frame (mk_local b [] []) None.

Inductive step (m : mach) : mach -> Prop :=
| step_exec c o e f fs want T (x : access T) (k : T -> code bool) r m1 f1 :
    cpu_ok c -> cur m c = e -> stacks m e = mk_frame f (Some (want, Do x k)) :: fs ->
    perform x o c m f = (r, m1, f1) ->
    step m (set_stack m1 e (mk_frame f1 (Some (want, k r)) :: fs))
| step_return c e f fs want b :
    cpu_ok c -> cur m c = e -> stacks m e = mk_frame f (Some (want, Ret b)) :: fs ->
    step m (set_stack m e (mk_frame f None :: fs))
| step_call c e f fs want p :
    cpu_ok c -> cur m c = e -> stacks m e = mk_frame f None :: fs -> callable f want p ->
    step m (set_stack m e (mk_frame f (Some (want, p)) :: fs))
| step_irq c e fr fs :
    cpu_ok c -> cur m c = e -> stacks m e = fr :: fs -> irqs (loc fr) = true ->
    step m (set_stack m e (idle_frame false :: fr :: fs))
| step_irq_return c e f fr fs :
    cpu_ok c -> cur m c = e -> stacks m e = mk_frame f None :: fr :: fs -> guards f = [] ->
    step m (set_stack m e (fr :: fs))
| step_irqs c e f fs b :
    cpu_ok c -> cur m c = e -> stacks m e = mk_frame f None :: fs ->
    step m (set_stack m e (mk_frame (mk_local b (held f) (carried f)) None :: fs))
| step_dispatch c t f fs keep moved :
    cpu_ok c -> cur m c = Thread t -> stacks m (Thread t) = mk_frame f None :: fs -> irqs f = false ->
    held f ≡ₚ keep ++ moved -> gens m c + 1 < 2 ^ 54 ->
    step m (mk_mach (upd (gens m) c (gens m c + 1)) (tids m) (words m) (ftids m) (fsites m)
      (upd (cur m) c (Dispatch c))
      (upd (upd (stacks m) (Thread t) (mk_frame (mk_local false keep (carried f)) None :: fs))
           (Dispatch c) [mk_frame (mk_local false [] moved) None]))
| step_dispatch_boot c f fs n :
    cpu_ok c -> cur m c = Dispatch c -> stacks m (Dispatch c) = mk_frame f None :: fs -> irqs f = false ->
    stacks m (Lost n) = [] -> gens m c + 1 < 2 ^ 54 ->
    step m (mk_mach (upd (gens m) c (gens m c + 1)) (tids m) (words m) (ftids m) (fsites m) (cur m)
      (upd (upd (stacks m) (Dispatch c) [mk_frame (mk_local false [] (guards f)) None]) (Lost n) fs))
| step_set_tid c f fs t :
    cpu_ok c -> cur m c = Dispatch c -> stacks m (Dispatch c) = mk_frame f None :: fs ->
    step m (mk_mach (gens m) (upd (tids m) c t) (words m) (ftids m) (fsites m) (cur m) (stacks m))
| step_restore c f :
    cpu_ok c -> cur m c = Dispatch c -> stacks m (Dispatch c) = [mk_frame f None] -> guards f = [] ->
    (forall c', cpu_ok c' -> cur m c' <> Thread (tids m c)) ->
    step m (mk_mach (gens m) (tids m) (words m) (ftids m) (fsites m)
      (upd (cur m) c (Thread (tids m c))) (upd (stacks m) (Dispatch c) [])).

(** Every CPU boots in its own code, no thread has run, all locks are free. *)
Definition boot_mach (on : bool) : mach :=
  {| gens := fun _ => 0; tids := fun _ => TID_NONE; words := fun _ => 0; ftids := fun _ => TID_NONE; fsites := fun _ => 0;
     cur := Dispatch;
     stacks := fun e => match e with Thread _ => [idle_frame false] | Dispatch _ => [idle_frame on] | Lost _ => [] end |}.

Definition reachable (m : mach) : Prop := exists on, rtc step (boot_mach on) m.
