(* ===== verification/LockLogic.v ===== *)
(** * A logic for the lock's code

    [base] is the invariant of the machine: which guards exist, what the
    word of a held lock says about its holder, who runs where.  [sound e K p
    Q] says that code [p] run by a frame of stream [e], from what the frame
    knows ([K]), makes only accesses the invariant allows, panics only when
    the stream itself holds the lock, and knows [Q] when it returns.  What a
    frame knows holds whatever the rest of the machine does ([stable]). *)

From S2P Require Import Prelude Text Abi OwnerStamp Tripwire IrqLock LockMachine.
Local Open Scope Z_scope.

Lemma mupd_eq {A B} `{EqDecision A} (f : A -> B) a b : upd f a b a = b.
Proof. unfold upd. by rewrite decide_True. Qed.
Lemma mupd_ne {A B} `{EqDecision A} (f : A -> B) a b x : x <> a -> upd f a b x = f x.
Proof. intros H. unfold upd. by rewrite decide_False. Qed.

Definition all_guards (st : list local) : list LockId := concat (map guards st).
Definition locals (m : mach) (e : stream) : list local := map loc (stacks m e).
Definition guards_of (m : mach) (e : stream) : list LockId := all_guards (locals m e).

(** ** What a stamp says *)

(** Generation [g] of CPU [c] is over, or [e] is running in it. *)
Definition good (m : mach) (e : stream) (c g : Z) : Prop :=
  g <= gens m c /\ (g = gens m c -> cur m c = e).

(** Dispatching code stays on its CPU and in its generation. *)
Definition stays (m : mach) (e : stream) (c g : Z) : Prop :=
  forall d, e = Dispatch d -> c = d /\ g = gens m d.

Definition is_stamp (s c g : Z) : Prop := (exists b, s = stamp_new c g b) /\ cpu_ok c /\ 0 <= g < 2 ^ 54.

Definition my_stamp (e : stream) (s : Z) (m : mach) : Prop :=
  exists c g, is_stamp s c g /\ good m e c g /\ stays m e c g.

Definition tid_ok (e : stream) (v : Z) : Prop := forall t, e = Thread t -> v = TID_NONE \/ v = t.

Lemma stamp_read s c g : is_stamp s c g ->
  from_word s = Some s /\ s <> 0 /\ stamp_cpu s = c /\ stamp_gen s = g /\ forall n, 0 <= n < 2 ^ 54 -> gen_matches s n = (g =? n).
Proof.
  intros ([b ->] & Hc & Hg). destruct (stamp_new_fields c g b) as (H1 & H2 & H3 & _ & _).
  { unfold cpu_ok, MAX_CORES in Hc. unfold uint. lia. } { lia. }
  rewrite Z.mod_small in H3 by lia. split; [done|]. split.
  - intros E. rewrite E in H1. done.
  - split; [done|]. split; [done|]. intros n Hn. rewrite gen_matches_eq, H3. by rewrite Z.mod_small.
Qed.

Lemma is_stamp_new c g b : cpu_ok c -> 0 <= g < 2 ^ 54 -> is_stamp (stamp_new c g b) c g.
Proof. intros Hc Hg. split; [by exists b|]. done. Qed.

(** ** The machine's invariant *)

Record base (m : mach) : Prop := {
  b_gens : forall c, 0 <= gens m c < 2 ^ 54;
  b_cur_dispatch : forall c d, cur m c = Dispatch d -> d = c;
  b_cur_thread : forall c c' t, cpu_ok c -> cpu_ok c' -> cur m c = Thread t -> cur m c' = Thread t -> c = c';
  b_cur_lost : forall c n, cur m c <> Lost n;
  b_tids : forall c t, cpu_ok c -> cur m c = Thread t -> tids m c = t;
  b_dispatch : forall c, cur m c <> Dispatch c -> stacks m (Dispatch c) = [];
  b_nodup : forall e, NoDup (guards_of m e);
  b_unique : forall e1 e2 l, l ∈ guards_of m e1 -> l ∈ guards_of m e2 -> e1 = e2;
  b_free : forall l, words m l = 0 -> ftids m l = TID_NONE /\ fsites m l = 0;
  b_held : forall l, words m l <> 0 -> exists e, l ∈ guards_of m e;
  b_word : forall e l, l ∈ guards_of m e -> exists c g, is_stamp (words m l) c g /\ good m e c g;
  b_ftid : forall e l, l ∈ guards_of m e -> tid_ok e (ftids m l);
  b_dispatch_held : forall d f l, f ∈ locals m (Dispatch d) -> l ∈ held f -> is_stamp (words m l) d (gens m d)
}.

Lemma base_held m e l : base m -> l ∈ guards_of m e -> words m l <> 0.
Proof. intros Hb Hl. destruct (b_word m Hb e l Hl) as (c & g & Hs & _). by apply stamp_read in Hs as (_ & ? & _). Qed.

Lemma all_guards_cons f st l : l ∈ all_guards (f :: st) <-> l ∈ guards f \/ l ∈ all_guards st.
Proof. unfold all_guards. cbn. apply elem_of_app. Qed.

(** ** Knowledge *)

(** What the rest of the machine may do to a frame of [e] that has [st]
    (itself and the frames below). *)
Record rely (e : stream) (st : list local) (m m' : mach) : Prop := {
  r_gens : forall c, gens m c <= gens m' c;
  r_cur : forall c, cpu_ok c -> gens m' c = gens m c -> cur m c = e -> cur m' c = e;
  r_stays : forall d, e = Dispatch d -> gens m' d = gens m d;
  r_locks : forall l, l ∈ all_guards st -> words m' l = words m l /\ ftids m' l = ftids m l /\ fsites m' l = fsites m l
}.

Definition asn := mach -> list local -> Prop.

(** Knowledge is kept by the rest of the machine and does not depend on the
    frame's IRQ mask. *)
Record stable (e : stream) (K : asn) : Prop := {
  st_rely : forall st m m', rely e st m m' -> K m st -> K m' st;
  st_irqs : forall m f fs b, K m (f :: fs) -> K m (mk_local b (held f) (carried f) :: fs)
}.

Lemma good_rely e st m m' c g : cpu_ok c -> rely e st m m' -> good m e c g -> good m' e c g.
Proof.
  intros Hc Hr [H1 H2]. pose proof (r_gens _ _ _ _ Hr c). split; [lia|]. intros ->.
  apply (r_cur _ _ _ _ Hr); [done|lia|]. apply H2. lia.
Qed.

Lemma my_stamp_rely e st m m' s : rely e st m m' -> my_stamp e s m -> my_stamp e s m'.
Proof.
  intros Hr (c & g & Hs & Hg & Hst). exists c, g. split; [done|]. split; [eapply good_rely; [apply Hs|done|done]|].
  intros d Hd. destruct (Hst d Hd) as [-> ->]. split; [done|]. symmetry. by apply (r_stays _ _ _ _ Hr).
Qed.

(** ** The logic *)

Definition req {T} (e : stream) (x : access T) (m : mach) (f : local) : Prop :=
  match x with
  | Cas _ _ s => my_stamp e s m
  | Restamp l s => l ∈ held f /\ my_stamp e s m
  | StoreTid l v => l ∈ guards f /\ tid_ok e v
  | StoreSite l _ => l ∈ guards f
  | StoreFree l => l ∈ guards f /\ ftids m l = TID_NONE /\ fsites m l = 0
  | _ => True
  end.

(** A re-entry panic is right: the panicking stream holds the lock, and the
    report shows its word and, if it names a thread, the stream's own. *)
Definition panic_ok (e : stream) (r : Reentered) (m : mach) (st : list local) : Prop :=
  re_id r ∈ all_guards st /\ words m (re_id r) = re_observed r /\ tid_ok e (re_tid r).

Fixpoint sound {A} (e : stream) (K : asn) (p : code A) (Q : A -> asn) : Prop :=
  match p with
  | Ret a => forall m st, K m st -> Q a m st
  | @Do _ T x k => exists K' : T -> asn,
      (forall r, stable e (K' r)) /\
      (forall m f fs c o, base m -> cpu_ok c -> cur m c = e -> locals m e = f :: fs -> K m (f :: fs) ->
        req e x m f /\ K' (perform x o c m f).1.1 (perform x o c m f).1.2 ((perform x o c m f).2 :: fs)) /\
      (forall r, sound e (K' r) (k r) Q)
  | Panicked r => forall m st, K m st -> panic_ok e r m st
  | Spin => True
  end.

Lemma sound_weaken {A} e (K1 K2 : asn) (p : code A) (Q1 Q2 : A -> asn) :
  (forall m st, K1 m st -> K2 m st) -> (forall a m st, Q2 a m st -> Q1 a m st) -> sound e K2 p Q2 -> sound e K1 p Q1.
Proof.
  intros HK HQ. revert K1 K2 HK. induction p as [a|T x k IH|r|]; intros K1 K2 HK; cbn.
  - intros H m st HK1. by apply HQ, H, HK.
  - intros (K' & Hst & Hx & Hk). exists K'. split; [done|]. split.
    + intros m f fs c o H1 H2 H3 H4 H5. apply Hx; [done..|]. by apply HK.
    + intros r. eapply IH; [|apply Hk]. done.
  - intros H m st HK1. by apply H, HK.
  - done.
Qed.

Lemma sound_bind {A B} e K (p : code A) (q : A -> code B) (R : A -> asn) Q :
  sound e K p R -> (forall a, sound e (R a) (q a) Q) -> sound e K (cbind p q) Q.
Proof.
  intros Hp Hq. revert K Hp. induction p as [a|T x k IH|r|]; intros K Hp; cbn in *.
  - eapply sound_weaken; [exact Hp|done|apply Hq].
  - destruct Hp as (K' & Hst & Hx & Hk). exists K'. split; [done|]. split; [done|]. intros r. apply IH, Hk.
  - done.
  - done.
Qed.
