(* ===== verification/LockCode.v ===== *)
(** * The lock's code is sound

    Each function of shared/src/lock.rs and kernel/src/sync/irq_spin_lock.rs
    in the logic of [LockLogic]: what it needs to know and what it returns. *)

From S2P Require Import Prelude Text Abi OwnerStamp Tripwire IrqLock LockMachine LockLogic.
Local Open Scope Z_scope.

Create HintDb lock discriminated.

(** ** Building knowledge *)

Definition both (K1 K2 : asn) : asn := fun m st => K1 m st /\ K2 m st.

Declare Scope lock_scope.
Infix "&*" := both (at level 40, left associativity) : lock_scope.
Local Open Scope lock_scope.

Definition fact (P : Prop) : asn := fun _ _ => P.
Definition stamped (e : stream) (s : Z) : asn := fun m _ => my_stamp e s m.
(** A pair [read_stamp] may return. *)
Definition current_or_ended (e : stream) (c g : Z) : asn := fun m _ =>
  cpu_ok c /\ 0 <= g < 2 ^ 54 /\ good m e c g /\ stays m e c g.
(** The frame itself has taken the guard of [l]. *)
Definition taken (l : LockId) : asn := fun _ st => exists f fs, st = f :: fs /\ l ∈ held f.
(** What a call for a guard of [want] has when it returns [b]. *)
Definition returned (want : option LockId) (b : bool) : asn := fun m st =>
  match want with Some l => b = true -> taken l m st | None => True end.
Definition guarded (l : LockId) : asn := fun _ st => exists f fs, st = f :: fs /\ l ∈ guards f.
(** The stream holds [l], with word [w]. *)
Definition holding (l : LockId) (w : Z) : asn := fun m st => l ∈ all_guards st /\ words m l = w.

Section stable.
Context (e : stream).

Lemma stable_both K1 K2 : stable e K1 -> stable e K2 -> stable e (K1 &* K2).
Proof.
  intros H1 H2. split.
  - intros st m m' Hr [A B]. split; [by eapply (st_rely e K1)|by eapply (st_rely e K2)].
  - intros m f fs b [A B]. split; [by apply (st_irqs e K1 H1)|by apply (st_irqs e K2 H2)].
Qed.

Lemma stable_fact P : stable e (fact P).
Proof. split; done. Qed.

Lemma stable_stamped s : stable e (stamped e s).
Proof. split; [|done]. intros st m m' Hr. by apply (my_stamp_rely e st). Qed.

Lemma stable_current c g : stable e (current_or_ended e c g).
Proof.
  split; [|done]. intros st m m' Hr (Hc & Hg & H1 & H2). split; [done|]. split; [done|]. split; [by eapply good_rely|].
  intros d Hd. destruct (H2 d Hd) as [-> ->]. split; [done|]. symmetry. by apply (r_stays _ _ _ _ Hr).
Qed.

Lemma stable_taken l : stable e (taken l).
Proof.
  split; [done|]. intros m f fs b (f' & fs' & [= <- <-] & H). eexists _, _. split; [done|]. done.
Qed.

Lemma stable_guarded l : stable e (guarded l).
Proof.
  split; [done|]. intros m f fs b (f' & fs' & [= <- <-] & H). eexists _, _. split; [done|]. done.
Qed.

Lemma stable_holding l w : stable e (holding l w).
Proof.
  split.
  - intros st m m' Hr [Hl Hw]. split; [done|]. by destruct (r_locks _ _ _ _ Hr l Hl) as [-> _].
  - intros m f fs b [Hl Hw]. split; [|done]. rewrite all_guards_cons in *. done.
Qed.
End stable.
#[export] Hint Resolve stable_both stable_fact stable_stamped stable_current stable_taken stable_guarded stable_holding : lock.

(** ** Rules *)

(** An access that changes nothing keeps what is known. *)
Definition is_read {T} (x : access T) : bool :=
  match x with
  | ReadCpu | ReadGen _ | ReadTid _ | ReadIrqsOn | ReadIrqCtx _ | ReadCounter | ReadFreq | ReadOnline
  | LoadWord _ | LoadTid _ | LoadSite _ | Bump _ _ | Print _ => true
  | _ => false
  end.

Lemma sound_read_as {T A} e (x : access T) (k : T -> code A) K (F : T -> asn) Q :
  is_read x = true -> stable e K -> (forall r, stable e (F r)) ->
  (forall m f fs c o, base m -> cpu_ok c -> cur m c = e -> locals m e = f :: fs -> K m (f :: fs) ->
    F (perform x o c m f).1.1 m (f :: fs)) ->
  (forall r, sound e (K &* F r) (k r) Q) -> sound e K (Do x k) Q.
Proof.
  intros Hx HK HF Hf Hk. exists (fun r => K &* F r). split; [intros r; by apply stable_both|]. split; [|done].
  intros m f fs c o Hb Hc Hcur Hl HKm. specialize (Hf m f fs c o Hb Hc Hcur Hl HKm).
  destruct x; try done; (split; [done|]); split; done.
Qed.

Lemma sound_read {T A} e (x : access T) (k : T -> code A) K Q :
  is_read x = true -> stable e K -> (forall r, sound e K (k r) Q) -> sound e K (Do x k) Q.
Proof.
  intros Hx HK Hk. eapply (sound_read_as e x k K (fun _ => fact True)); [done|done|eauto with lock|done|].
  intros r. eapply sound_weaken; [| |apply Hk]; [by intros m st [H _]|done].
Qed.

Lemma sound_setirqs {A} e on (k : unit -> code A) K Q :
  stable e K -> (forall r, sound e K (k r) Q) -> sound e K (Do (SetIrqs on) k) Q.
Proof.
  intros HK Hk. exists (fun _ => K). split; [done|]. split; [|done].
  intros m f fs c o _ _ _ _ H. split; [done|]. by apply (st_irqs e K HK).
Qed.

Lemma sound_ret {A} e (a : A) K Q : (forall m st, K m st -> Q a m st) -> sound e K (Ret a) Q.
Proof. done. Qed.

Lemma sound_forget {A} e K (p : code A) Q : sound e (fact True) p Q -> sound e K p Q.
Proof. intros H. eapply sound_weaken; [| |exact H]; done. Qed.

(** Code that only reads, counts and prints. *)
Ltac quiet := repeat first
  [ done
  | apply sound_read; [done|by eauto with lock|intros ?]
  | apply sound_setirqs; [by eauto with lock|intros ?]
  | match goal with |- sound ?e ?K (cbind _ _) _ => apply (sound_bind e K _ _ (fun _ => K)); [|intros ?] end
  | case_match
  | apply sound_ret; by intros ].

(** ** Stamps *)

Section code.
Context (e : stream).

(** A generation read: it has begun, and is current for dispatching code. *)
Definition begun (cpu gen : Z) : asn := fun m _ =>
  cpu_ok cpu -> 0 <= gen < 2 ^ 54 /\ gen <= gens m cpu /\ forall d, e = Dispatch d -> cpu = d -> gen = gens m d.

Lemma stable_begun cpu gen : stable e (begun cpu gen).
Proof.
  split; [|done]. intros st m m' Hr H Hc. destruct (H Hc) as (H1 & H2 & H3). pose proof (r_gens _ _ _ _ Hr cpu).
  split; [done|]. split; [lia|]. intros d Hd Hcd. rewrite (r_stays _ _ _ _ Hr d Hd). by apply H3.
Qed.
Hint Resolve stable_begun : lock.

(** Both CPU reads agree: the pair is the stream's generation, or an ended one. *)
Lemma begun_here cpu gen m c : base m -> cpu_ok c -> cur m c = e -> begun cpu gen m [] -> c = cpu ->
  current_or_ended e cpu gen m [].
Proof.
  intros Hb Hc Hcur H ->. destruct (H Hc) as (H1 & H2 & H3). split; [done|]. split; [done|]. split; [done|].
  intros d ->. pose proof (b_cur_dispatch m Hb cpu d Hcur) as ->. split; [done|]. by apply H3.
Qed.

Lemma read_gen_begun cpu m f o c : base m -> begun cpu (perform (ReadGen cpu) o c m f).1.1 m [].
Proof.
  intros Hb Hc. cbn. rewrite decide_True by done. pose proof (b_gens m Hb cpu). split; [done|]. split; [lia|].
  by intros d _ ->.
Qed.

Lemma read_stamp_sound fuel K : stable e K ->
  sound e K (read_stamp fuel) (fun p => K &* current_or_ended e p.1 p.2).
Proof.
  intros HK. induction fuel as [|fuel IH]; [done|]. cbn [read_stamp].
  apply sound_read; [done|done|]. intros cpu.
  eapply (sound_read_as e (ReadGen cpu) _ K (begun cpu)); [done|done|eauto with lock|intros; by apply read_gen_begun|].
  intros gen.
  eapply (sound_read_as e ReadCpu _ _ (fun again m st => again = cpu -> current_or_ended e cpu gen m st));
    [done|by eauto with lock| | |].
  - intros r. split; [|done]. intros st m m' Hr H E. eapply (st_rely e _ (stable_current e cpu gen)); [done|by apply H].
  - intros m f fs c o Hb Hc Hcur _ [_ Hg] E. by eapply begun_here.
  - intros again. case_match eqn:E.
    + apply sound_ret. intros m st [[H1 _] H2]. split; [done|]. apply H2. lia.
    + eapply sound_weaken; [| |exact IH]; [by intros m st [[H _] _]|done].
Qed.

(** The slot read with a stamp is the stream's own, unless the generation has
    ended. *)
Lemma whoami_sound fuel K : stable e K ->
  sound e K (whoami fuel) (fun p => K &* stamped e p.1 &* fact (tid_ok e p.2)).
Proof.
  intros HK. unfold whoami. apply sound_read; [done|done|]. intros irqs_on.
  induction fuel as [|fuel IH]; [done|]. cbn [whoami_loop].
  eapply sound_bind; [by apply read_stamp_sound|]. intros [cpu gen]. cbn [fst snd].
  eapply (sound_read_as e (ReadTid cpu) _ _ (fun tid m _ => gen < gens m cpu \/ tid_ok e tid));
    [done|by eauto with lock| | |].
  - intros tid. split; [|done]. intros st m m' Hr [H|H]; [left|by right]. pose proof (r_gens _ _ _ _ Hr cpu). lia.
  - intros m f fs c o Hb Hc Hcur _ [_ (Hcpu & Hgen & [Hg1 Hg2] & _)]. cbn. rewrite decide_True by done.
    destruct (decide (gen = gens m cpu)) as [E|E]; [right|left; lia]. intros t Ht. right.
    apply (b_tids m Hb); [done|]. rewrite <-Ht. by apply Hg2.
  - intros tid. eapply (sound_read_as e (ReadGen cpu) _ _ (fun g _ _ => g = gen -> tid_ok e tid));
      [done| | | |].
    + apply stable_both; [by eauto with lock|]. split; [|done]. intros st m m' Hr [H|H]; [left|by right].
      pose proof (r_gens _ _ _ _ Hr cpu). lia.
    + intros r. split; done.
    + intros m f fs c o Hb Hc Hcur _ [[_ (Hcpu & _)] [H|H]] E; [|done]. cbn in E. rewrite decide_True in E by done. lia.
    + intros g. case_match eqn:E.
      * apply sound_ret. intros m st [[[H1 (Hc & Hg & H2 & H3)] _] H4]. split; [split; [done|]|apply H4; lia].
        exists cpu, gen. split; [by apply is_stamp_new|done].
      * eapply sound_weaken; [| |exact IH]; [by intros m st [[[H _] _] _]|done].
Qed.

Lemma land_cpu_mask c : cpu_ok c -> Z.land c (MAX_CORES - 1) = c.
Proof.
  intros Hc. unfold cpu_ok, MAX_CORES in *. change (8 - 1) with (2 ^ 3 - 1). rewrite land_ones_mod by lia.
  apply Z.mod_small. lia.
Qed.

Lemma current_stamp_or_sound stamp K : stable e K ->
  sound e (K &* stamped e stamp) (current_stamp_or stamp) (fun s => K &* stamped e s).
Proof.
  intros HK. unfold current_stamp_or.
  eapply (sound_read_as e ReadCpu _ _ (fun cpu => fact (cpu_ok cpu)));
    [done|by eauto with lock|by eauto with lock|by intros|]. intros cpu.
  eapply (sound_read_as e (ReadGen (Z.land cpu (MAX_CORES - 1))) _ _ (begun cpu)); [done|by eauto with lock|by eauto with lock| |].
  { intros m f fs c o Hb _ _ _ [_ Hc]. unfold fact in Hc. rewrite land_cpu_mask by done. by apply read_gen_begun. }
  intros gen. eapply (sound_read_as e ReadCpu _ _ (fun again m st => cpu = again -> current_or_ended e cpu gen m st));
    [done|by eauto with lock| | |].
  - intros r. split; [|done]. intros st m m' Hr H E. eapply (st_rely e _ (stable_current e cpu gen)); [done|by apply H].
  - intros m f fs c o Hb Hc Hcur _ [_ Hg] E. by eapply begun_here.
  - intros again. apply sound_ret. intros m st [[[[H1 H2] _] _] H3]. split; [done|]. case_match eqn:E; [|done].
    destruct H3 as (Hc & Hg & H4 & H5); [lia|]. exists cpu, gen. split; [by apply is_stamp_new|done].
Qed.

(** ** Acquiring *)

Lemma hold_sound l stamp tid site :
  sound e (fact (tid_ok e tid) &* stamped e stamp &* taken l) (hold l stamp tid site) (fun _ => taken l).
Proof.
  unfold hold. exists (fun _ => taken l &* stamped e stamp). split; [eauto with lock|]. split.
  { intros m f fs c o Hb _ _ _ [[Ht Hs] (f' & fs' & [= <- <-] & Hl)]. split; [|split; [by exists f, fs|done]].
    split; [apply elem_of_app; by left|done]. }
  intros _. exists (fun _ => taken l &* stamped e stamp). split; [eauto with lock|]. split.
  { intros m f fs c o Hb _ _ _ [(f' & fs' & [= <- <-] & Hl) Hs]. split; [|split; [by exists f, fs|done]].
    apply elem_of_app. by left. }
  intros _. eapply sound_bind; [apply current_stamp_or_sound; eauto with lock|]. intros s.
  exists (fun _ => taken l). split; [eauto with lock|]. split; [|intros _; by apply sound_ret].
  intros m f fs c o Hb _ _ _ [(f' & fs' & [= <- <-] & Hl) Hs]. split; [done|by exists f, fs].
Qed.

(** A compare-and-swap and its two outcomes. *)
Lemma cas_sound {A} weak l stamp (k : bool -> code A) P Q :
  sound e (fact P &* stamped e stamp &* taken l) (k true) Q -> sound e (fact P &* stamped e stamp) (k false) Q ->
  sound e (fact P &* stamped e stamp) (Do (Cas weak l stamp) k) Q.
Proof.
  intros Ht Hf. exists (fun b : bool => if b then fact P &* stamped e stamp &* taken l else fact P &* stamped e stamp).
  split; [intros []; eauto with lock|]. split; [|by intros []].
  intros m f fs c o Hb _ _ _ [HP Hs]. split; [done|]. cbn. destruct ((words m l =? 0) && _); cbn.
  - split; [done|]. exists (take_guard f l), fs. split; [done|]. by left.
  - done.
Qed.

Lemma acquired_sound l stamp tid site :
  sound e (fact (tid_ok e tid) &* stamped e stamp &* taken l) (cbind (hold l stamp tid site) (fun _ => Ret true)) (returned (Some l)).
Proof. eapply sound_bind; [apply hold_sound|]. intros u. apply sound_ret. by intros m st Ht _. Qed.

(** The holder fields read while the stream itself holds the lock are clear,
    or its own. *)
Lemma holder_snapshot_sound l expect K : stable e K ->
  sound e K (holder_snapshot l expect) (fun _ => K).
Proof. intros HK. unfold holder_snapshot, consistent_snapshot. quiet. Qed.

Lemma own_snapshot_sound l w :
  sound e (holding l w) (holder_snapshot l w) (fun h => holding l w &* fact (tid_ok e h.1)).
Proof.
  unfold holder_snapshot, consistent_snapshot. eapply sound_bind.
  - instantiate (1 := fun snap => holding l w &* fact (match snap with Some (_, tid, _) => tid_ok e tid | None => True end)).
    apply sound_read; [done|by eauto with lock|]. intros first. case_match; [|by apply sound_ret].
    eapply (sound_read_as e (LoadTid l) _ _ (fun tid => fact (tid_ok e tid)));
      [done|by eauto with lock|by eauto with lock| |].
    + intros m f fs c o Hb _ _ Hl [Hin _]. cbn. apply (b_ftid m Hb). unfold guards_of. by rewrite Hl.
    + intros tid. apply sound_read; [done|by eauto with lock|]. intros site.
      apply sound_read; [done|by eauto with lock|]. intros word. case_match; apply sound_ret; [done|].
      intros m st [Hown _]. by split.
  - intros snap. apply sound_ret. intros m st [H1 H2]. split; [done|]. unfold fact in *.
    destruct snap as [[[word tid] site]|]; [|by left]. case_match; [done|by left].
Qed.

(** What a waiter stamped [me] knows of a word it loaded: if the word is its
    own stamp, that generation has ended or its stream holds the lock. *)
Definition seen (l : LockId) (me observed : Z) : asn := fun m st =>
  (observed = 0 \/ exists c g, is_stamp observed c g) /\
  forall c g, is_stamp me c g -> is_stamp observed c g -> g < gens m c \/ holding l observed m st.

Lemma stable_seen l me observed : stable e (seen l me observed).
Proof.
  split.
  - intros st m m' Hr [H1 H2]. split; [done|]. intros c g Hme Ho. destruct (H2 c g Hme Ho) as [H|H].
    + left. pose proof (r_gens _ _ _ _ Hr c). lia.
    + right. by eapply (st_rely e _ (stable_holding e l observed)).
  - intros m f fs b [H1 H2]. split; [done|]. intros c g Hme Ho. destruct (H2 c g Hme Ho) as [H|H]; [by left|right].
    by apply (st_irqs e _ (stable_holding e l observed)).
Qed.
Hint Resolve stable_seen : lock.

Lemma load_seen l me m f fs : base m -> locals m e = f :: fs -> my_stamp e me m -> seen l me (words m l) m (f :: fs).
Proof.
  intros Hb Hl (c0 & g0 & Hs0 & Hg0 & _). destruct (decide (words m l = 0)) as [E|E].
  { split; [by left|]. intros c g _ Ho. rewrite E in Ho. apply stamp_read in Ho as (_ & ? & _). done. }
  destruct (b_held m Hb l E) as [h Hh]. destruct (b_word m Hb h l Hh) as (c1 & g1 & Hs1 & Hg1).
  split; [by eauto|]. intros c g Hme Ho.
  apply stamp_read in Hs0 as (_ & _ & <- & <- & _). pose proof (stamp_read _ _ _ Hme) as (_ & _ & Ec & Eg & _).
  apply stamp_read in Hs1 as (_ & _ & <- & <- & _). pose proof (stamp_read _ _ _ Ho) as (_ & _ & Ec' & Eg' & _).
  rewrite Ec, Eg in Hg0. rewrite Ec', Eg' in Hg1. destruct (decide (g = gens m c)) as [Eg''|]; [right|left; destruct Hg0; lia].
  split; [|done]. destruct Hg0 as [_ H0], Hg1 as [_ H1]. rewrite <-(H1 Eg''), (H0 Eg'') in Hh.
  unfold guards_of in Hh. by rewrite Hl in Hh.
Qed.

(** Only a lock the stream itself holds is reported as a re-entry. *)
Lemma classify_sound l observed me K : stable e K ->
  sound e (K &* stamped e me &* seen l me observed) (classify observed me)
    (fun v m st => K m st /\ stamped e me m st /\ (v = CReentry -> holding l observed m st)).
Proof.
  intros HK. unfold classify. destruct (from_word observed) as [owner|] eqn:E;
    [|apply sound_ret; by intros m st [[H1 H2] _]].
  assert (owner = observed) as ->.
  { rewrite from_word_eq in E. by destruct (Z.testbit observed 63); simplify_eq. }
  eapply (sound_read_as e (ReadGen (stamp_cpu observed)) _ _ (fun now m st =>
    (stamp_cpu observed =? stamp_cpu me) && gen_matches me now && gen_matches observed now = true -> holding l observed m st));
    [done|by eauto with lock| | |].
  - intros now. split.
    + intros st m m' Hr H H'. eapply (st_rely e _ (stable_holding e l observed)); [done|by apply H].
    + intros m f fs b H H'. apply (st_irqs e _ (stable_holding e l observed)). by apply H.
  - intros m f fs c o Hb _ _ Hl [[_ (c0 & g0 & Hs0 & Hg0 & _)] [Hobs Hseen]] Hv.
    destruct Hobs as [->|(c1 & g1 & Hs1)]; [by vm_compute in E|]. cbn in Hv.
    pose proof (stamp_read _ _ _ Hs0) as (_ & _ & Ec0 & _ & Hm0). pose proof (stamp_read _ _ _ Hs1) as (_ & _ & Ec1 & _ & Hm1).
    rewrite Ec0, Ec1 in Hv. pose proof Hs1 as (_ & Hc1 & _). rewrite decide_True in Hv by done.
    rewrite Hm0, Hm1 in Hv by apply (b_gens m Hb). assert (c0 = c1 /\ g0 = g1 /\ g1 = gens m c1) as (-> & -> & Eg) by lia.
    destruct (Hseen c1 g1 Hs0 Hs1) as [H|H]; [lia|done].
  - intros now. apply sound_ret. intros m st [[[H1 H2] _] H3]. split; [done|]. split; [done|].
    intros Hv. apply H3. by destruct ((stamp_cpu observed =? stamp_cpu me) && gen_matches me now), (gen_matches observed now).
Qed.

(** ** Waiting *)

Lemma holder_running_sound tid exclude K : stable e K -> sound e K (holder_running tid exclude) (fun _ => K).
Proof.
  intros HK. unfold holder_running. case_match; [by apply sound_ret|]. apply sound_read; [done|done|]. intros online.
  generalize 9%nat 0 (Z.min online MAX_CORES). intros fuel. induction fuel as [|fuel IH]; intros cpu n; [by apply sound_ret|].
  cbn [holder_running_from]. case_match; [|by apply sound_ret]. case_match; [apply IH|].
  apply sound_read; [done|done|]. intros t. case_match; [by apply sound_ret|apply IH].
Qed.

Ltac quiet_notes := repeat (quiet; try (apply holder_running_sound; by eauto with lock); try (apply holder_snapshot_sound; by eauto with lock)).

Lemma note_stuck_sound l tid word a b K : stable e K -> sound e K (note_stuck l tid word a b) (fun _ => K).
Proof. intros HK. unfold note_stuck, print_event. quiet_notes. Qed.

Lemma note_preempted_holder_sound l me tid observed a b K : stable e K ->
  sound e K (note_preempted_holder l me tid observed a b) (fun _ => K).
Proof. intros HK. unfold note_preempted_holder, print_event. quiet_notes. Qed.

Lemma note_other_cpu_switched_sound l tid observed a b K : stable e K ->
  sound e K (note_other_cpu_switched l tid observed a b) (fun _ => K).
Proof. intros HK. unfold note_other_cpu_switched, print_event. quiet_notes. Qed.

Lemma spin_wait_sound fuel l tid start noted spins K : stable e K ->
  sound e K (spin_wait fuel l tid start noted spins) (fun _ => K).
Proof.
  intros HK. revert noted spins. induction fuel as [|fuel IH]; intros noted spins; [done|]. cbn [spin_wait].
  apply sound_read; [done|done|]. intros w. case_match; [by apply sound_ret|]. case_match; [|apply IH].
  apply (sound_bind e K _ _ (fun _ => K)); [unfold waited_too_long; quiet|]. intros late. case_match; [|apply IH].
  apply sound_read; [done|done|]. intros word. apply (sound_bind e K _ _ (fun _ => K)); [by apply holder_snapshot_sound|].
  intros h. apply (sound_bind e K _ _ (fun _ => K)); [by apply note_stuck_sound|]. intros _. apply IH.
Qed.

(** A contended waiter panics only if its own stream holds the lock. *)
Lemma note_contention_sound l stamp tid observed noted K : stable e K ->
  sound e (K &* stamped e stamp &* seen l stamp observed) (note_contention l stamp tid observed noted)
    (fun _ => K &* stamped e stamp).
Proof.
  intros HK. unfold note_contention. eapply sound_bind; [by apply (classify_sound l observed stamp K)|]. intros v.
  assert (forall p : code Z, sound e (K &* stamped e stamp) p (fun _ => K &* stamped e stamp) ->
    sound e (fun m st => K m st /\ stamped e stamp m st /\ (v = CReentry -> holding l observed m st)) p (fun _ => K &* stamped e stamp))
    as Hq by (intros p H; eapply sound_weaken; [| |exact H]; [by intros m st (? & ? & _)|done]).
  destruct v; try (apply Hq; by apply sound_ret).
  - apply Hq. case_match; [by apply sound_ret|]. apply (sound_bind e _ _ _ (fun _ => K &* stamped e stamp)); [apply holder_snapshot_sound; eauto with lock|].
    intros h. apply (sound_bind e _ _ _ (fun _ => K &* stamped e stamp)); [|intros; by apply sound_ret]. apply note_other_cpu_switched_sound. eauto with lock.
  - eapply (sound_weaken e _ (holding l observed) _ _ (fun _ => K &* stamped e stamp)); [|done|]; [intros m st (_ & _ & H); exact (H eq_refl)|].
    eapply sound_bind; [apply own_snapshot_sound|]. intros h. unfold reentry_panic.
    apply sound_read; [done|by eauto with lock|]. intros ctx m st [[H1 H2] H3]. done.
  - apply Hq. case_match; [by apply sound_ret|]. apply (sound_bind e _ _ _ (fun _ => K &* stamped e stamp)); [apply holder_snapshot_sound; eauto with lock|].
    intros h. apply (sound_bind e _ _ _ (fun _ => K &* stamped e stamp)); [|intros; by apply sound_ret]. apply note_preempted_holder_sound. eauto with lock.
Qed.

Lemma contended_sound fuel l stamp tid site start noted :
  sound e (fact (tid_ok e tid) &* stamped e stamp) (contended_loop fuel l stamp tid site start noted) (returned (Some l)).
Proof.
  revert stamp tid noted. induction fuel as [|fuel IH]; intros stamp tid noted; [done|]. cbn [contended_loop].
  eapply (sound_read_as e (LoadWord l) _ _ (seen l stamp)); [done|by eauto with lock|by eauto with lock| |].
  { intros m f fs c o Hb _ _ Hl [_ Hs]. by apply load_seen. }
  intros observed. pose (K := fact (tid_ok e tid)).
  apply (sound_bind e _ _ _ (fun n => fact (tid_ok e n.1.2) &* stamped e n.1.1)).
  - case_match; [apply sound_ret; by intros m st [Hk _]|].
    apply (sound_bind e _ _ _ (fun _ => K &* stamped e stamp)); [apply note_contention_sound; eauto with lock|]. intros noted1.
    apply (sound_bind e _ _ _ (fun _ => K &* stamped e stamp)); [apply spin_wait_sound; eauto with lock|]. intros noted2.
    case_match; [|by apply sound_ret].
    eapply sound_bind; [apply whoami_sound; by eauto with lock|]. intros me. apply sound_ret.
    intros m st [[_ H1] H2]. done.
  - intros [[s t] n]. cbn [fst snd]. apply cas_sound; [apply acquired_sound|apply IH].
Qed.

(** ** The calls *)

Lemma whoami_fresh fuel : sound e (fact True) (whoami fuel) (fun p => fact (tid_ok e p.2) &* stamped e p.1).
Proof.
  apply (sound_weaken e _ (fact True) _ _ (fun p => fact True &* stamped e p.1 &* fact (tid_ok e p.2)));
    [done|by intros p m st [[_ H1] H2]|apply whoami_sound; eauto with lock].
Qed.

Lemma lock_sound fuel l site : sound e (fact True) (lock fuel l site) (returned (Some l)).
Proof.
  unfold lock. eapply sound_bind; [apply whoami_fresh|]. intros [s t]. cbn [fst snd].
  apply cas_sound; [apply acquired_sound|]. unfold lock_contended. apply sound_read; [done|by eauto with lock|].
  intros start. apply contended_sound.
Qed.

Lemma try_lock_sound fuel l site : sound e (fact True) (try_lock fuel l site) (returned (Some l)).
Proof.
  unfold try_lock. eapply sound_bind; [apply whoami_fresh|]. intros [s t]. cbn [fst snd].
  apply cas_sound; [apply acquired_sound|]. apply sound_forget. unfold note_try_failed, classify. quiet.
Qed.

Lemma try_lock_quiet_sound fuel l site : sound e (fact True) (try_lock_quiet fuel l site) (returned (Some l)).
Proof.
  unfold try_lock_quiet. eapply sound_bind; [apply whoami_fresh|]. intros [s t]. cbn [fst snd].
  apply cas_sound; [apply acquired_sound|]. by apply sound_forget.
Qed.

(** The fields are clear when the word is. *)
Lemma guard_drop_sound l : sound e (guarded l) (guard_drop l) (fun _ => fact True).
Proof.
  assert (forall (F : mach -> Z) v, (forall st m m', rely e st m m' -> l ∈ all_guards st -> F m' = F m) ->
    stable e (guarded l &* (fun m _ => F m = v))) as Hst.
  { intros F v HF. split.
    - intros st m m' Hr [(f & fs & -> & Hl) H]. split; [by exists f, fs|]. rewrite <-H. apply (HF (f :: fs)); [done|].
      apply all_guards_cons. by left.
    - intros m f fs b [(f' & fs' & [= <- <-] & Hl) Hv]. split; [|done]. eexists _, _. done. }
  exists (fun _ => guarded l &* (fun m _ => fsites m l = 0)). split.
  { intros _. apply (Hst (fun m => fsites m l)). intros st m m' Hr Hl. by destruct (r_locks _ _ _ _ Hr l Hl) as (_ & _ & ->). }
  split.
  { intros m f fs c o _ _ _ _ (f' & fs' & [= <- <-] & Hl). split; [done|]. split; [by exists f, fs|]. cbn. apply mupd_eq. }
  intros _. exists (fun _ => (guarded l &* (fun m _ => fsites m l = 0)) &* (guarded l &* (fun m _ => ftids m l = TID_NONE))). split.
  { intros _. apply stable_both; [apply (Hst (fun m => fsites m l))|apply (Hst (fun m => ftids m l))];
      intros st m m' Hr Hl; apply (r_locks _ _ _ _ Hr l Hl). }
  split.
  { intros m f fs c o _ _ _ _ [(f' & fs' & [= <- <-] & Hl) Hs]. split; [split; [done|by intros t _; left]|].
    split; (split; [by exists f, fs|]); [done|]. cbn. apply mupd_eq. }
  intros _. exists (fun _ => fact True). split; [eauto with lock|]. split; [|done].
  intros m f fs c o _ _ _ _ [[(f' & fs' & [= <- <-] & Hl) Hs] [_ Ht]]. done.
Qed.

Lemma note_restore_sound : sound e (fact True) note_restore (fun _ => fact True).
Proof.
  unfold note_restore, held_by_stream. quiet.
Qed.

(** Every call a frame may make is sound. *)
Lemma callable_sound f want p : callable f want p ->
  exists K, stable e K /\ (forall m fs, K m (f :: fs)) /\ sound e K p (returned want).
Proof.
  intros [(fuel & l & site & _ & -> & [-> | [-> | ->]])|[(l & Hl & -> & ->)|[-> ->]]].
  - exists (fact True). split; [eauto with lock|]. split; [done|apply lock_sound].
  - exists (fact True). split; [eauto with lock|]. split; [done|apply try_lock_sound].
  - exists (fact True). split; [eauto with lock|]. split; [done|apply try_lock_quiet_sound].
  - exists (guarded l). split; [eauto with lock|]. split; [|apply guard_drop_sound]. intros m fs. by exists f, fs.
  - exists (fact True). split; [eauto with lock|]. split; [done|apply note_restore_sound].
Qed.
End code.
