(* ===== verification/LockInv.v ===== *)
(** * The machine keeps its invariant

    Every step of the machine of [LockMachine] keeps [base] and what each
    running frame knows. *)

From S2P Require Import Prelude Text Abi OwnerStamp Tripwire IrqLock LockMachine LockLogic LockCode.
Local Open Scope Z_scope.

Definition frame_ok (m : mach) (e : stream) (i : nat) (wp : option LockId * code bool) : Prop :=
  exists K, stable e K /\ K m (drop i (locals m e)) /\ sound e K wp.2 (returned wp.1).

Definition frames_ok (m : mach) : Prop :=
  forall e i fr p, (forall n, e <> Lost n) -> stacks m e !! i = Some fr -> work fr = Some p -> frame_ok m e i p.

Definition inv (m : mach) : Prop := base m /\ frames_ok m.

(** ** Stacks and guards *)

Lemma locals_set_stack m e st e' : locals (set_stack m e st) e' = if decide (e' = e) then map loc st else locals m e'.
Proof. unfold locals. cbn. unfold upd. by case_decide. Qed.

Lemma guards_of_set_stack m e st e' :
  guards_of (set_stack m e st) e' = if decide (e' = e) then all_guards (map loc st) else guards_of m e'.
Proof. unfold guards_of. rewrite locals_set_stack. by case_decide. Qed.

Lemma guards_of_cons m e f fs l : locals m e = f :: fs -> l ∈ guards_of m e <-> l ∈ guards f \/ l ∈ all_guards fs.
Proof. intros H. unfold guards_of. rewrite H. apply all_guards_cons. Qed.

Lemma locals_cons m e f w fs : stacks m e = mk_frame f w :: fs -> locals m e = f :: map loc fs.
Proof. intros H. unfold locals. by rewrite H. Qed.

Lemma all_guards_drop i st l : l ∈ all_guards (drop i st) -> l ∈ all_guards st.
Proof.
  intros H. rewrite <-(take_drop i st). unfold all_guards. rewrite map_app, concat_app. apply elem_of_app. by right.
Qed.

(** The top frame's guards are not those of the frames below. *)
Lemma top_guards m e f fs l : base m -> locals m e = f :: fs -> l ∈ guards f -> l ∉ all_guards fs.
Proof.
  intros Hb Hl Hin. pose proof (b_nodup m Hb e) as Hnd. unfold guards_of, all_guards in Hnd. rewrite Hl in Hnd. cbn in Hnd.
  apply NoDup_app in Hnd as (_ & Hnd & _). by apply Hnd.
Qed.

Lemma held_guard m e g l : g ∈ locals m e -> l ∈ held g -> l ∈ guards_of m e.
Proof.
  intros Hg Hl. unfold guards_of, all_guards. rewrite list_elem_of_In, in_concat. exists (guards g).
  split; [apply in_map; by apply list_elem_of_In|]. apply list_elem_of_In, elem_of_app. by left.
Qed.

Lemma guards_drop f l : NoDup (guards f) -> l ∈ guards f ->
  NoDup (guards (drop_guard f l)) /\ (forall x, x ∈ guards (drop_guard f l) <-> x ∈ guards f /\ x <> l) /\
  forall x, x ∈ held (drop_guard f l) -> x ∈ held f.
Proof.
  unfold guards. rewrite NoDup_app. intros (H1 & H2 & H3) Hl. rewrite elem_of_app in Hl. unfold drop_guard. case_decide as E; cbn [held carried].
  - split; [|split].
    + apply NoDup_app. split; [by apply NoDup_list_difference|]. split; [|done].
      intros x [Hx _]%list_elem_of_difference. by apply H2.
    + intros x. rewrite !elem_of_app, list_elem_of_difference, list_elem_of_singleton. specialize (H2 l E). naive_solver.
    + by intros x [Hx _]%list_elem_of_difference.
  - split; [|split].
    + apply NoDup_app. split; [done|]. split; [|by apply NoDup_list_difference].
      intros x Hx [Hx' _]%list_elem_of_difference. by apply (H2 x).
    + intros x. rewrite !elem_of_app, list_elem_of_difference, list_elem_of_singleton. naive_solver.
    + done.
Qed.

(** ** Steps on one stack *)

(** A step that rearranges the running stream's stack and keeps its guards. *)
Lemma base_stack m c e st : base m -> cur m c = e ->
  all_guards (map loc st) ≡ₚ guards_of m e ->
  (forall f l, f ∈ map loc st -> l ∈ held f -> exists f0, f0 ∈ locals m e /\ l ∈ held f0) ->
  base (set_stack m e st).
Proof.
  intros Hb Hcur Hg Hh.
  assert (forall e' l, l ∈ guards_of (set_stack m e st) e' <-> l ∈ guards_of m e') as Hgs.
  { intros e' l. rewrite guards_of_set_stack. case_decide as E; [|done]. subst e'. by rewrite Hg. }
  split; try (by destruct Hb).
  - intros d Hd. cbn. rewrite mupd_ne; [by apply (b_dispatch m Hb)|]. intros <-.
    apply (b_cur_dispatch m Hb) in Hcur as Hdc. subst d. done.
  - intros e'. rewrite guards_of_set_stack. case_decide as E; [|apply (b_nodup m Hb)]. rewrite Hg. apply (b_nodup m Hb).
  - intros e1 e2 l. rewrite !Hgs. apply (b_unique m Hb).
  - intros l Hl. destruct (b_held m Hb l Hl) as [h Hin]. exists h. by rewrite Hgs.
  - intros e' l. rewrite Hgs. apply (b_word m Hb).
  - intros e' l. rewrite Hgs. apply (b_ftid m Hb).
  - intros d f l. rewrite locals_set_stack. case_decide as E; [|apply (b_dispatch_held m Hb)]. intros Hf Hl.
    destruct (Hh f l Hf Hl) as (f0 & Hf0 & Hl0). rewrite <-E in Hf0. by apply (b_dispatch_held m Hb d f0).
Qed.

Section exec.
Context (m : mach) (c : Z) (e : stream) (f : local) (w : option (option LockId * code bool)) (fs : list frame).
Context (Hb : base m) (Hc : cpu_ok c) (Hcur : cur m c = e) (Hst : stacks m e = mk_frame f w :: fs).

Lemma exec_locals : locals m e = f :: map loc fs.
Proof using Hst. by apply locals_cons with w. Qed.

Lemma base_same f1 w1 : held f1 = held f -> carried f1 = carried f -> base (set_stack m e (mk_frame f1 w1 :: fs)).
Proof using Hb Hcur Hst.
  intros H1 H2. apply (base_stack m c); [done|done| |].
  - unfold guards_of. rewrite exec_locals. unfold all_guards. cbn. unfold guards. by rewrite H1, H2.
  - intros g l. rewrite exec_locals. cbn. rewrite !elem_of_cons. intros [->|Hg] Hl.
    + exists f. rewrite <-H1. split; [by left|done].
    + exists g. split; [by right|done].
Qed.

(** Taking a free lock. *)
Lemma base_cas l s w1 : words m l = 0 -> my_stamp e s m ->
  base (set_stack (set_word m l s) e (mk_frame (take_guard f l) w1 :: fs)).
Proof using Hb Hc Hcur Hst.
  intros Hfree (sc & sg & Hs & Hgood & Hstays).
  assert (forall e', l ∉ guards_of m e') as Hno by (intros e' Hin; by apply (base_held m e' l Hb) in Hin).
  pose proof exec_locals as Hloc.
  assert (forall e' x, x ∈ guards_of (set_stack (set_word m l s) e (mk_frame (take_guard f l) w1 :: fs)) e' <->
    x ∈ guards_of m e' \/ (e' = e /\ x = l)) as Hgs.
  { intros e' x. rewrite guards_of_set_stack. case_decide as E.
    - subst e'. cbn [map loc]. rewrite all_guards_cons, (guards_of_cons m e f (map loc fs) x Hloc). unfold guards, take_guard. cbn [held carried].
      rewrite !elem_of_app, elem_of_cons. tauto.
    - split; [by left|]. by intros [H|[? _]]. }
  pose proof (stamp_read _ _ _ Hs) as (_ & Hs0 & _).
  split; try (by destruct Hb).
  - intros d Hd. cbn. rewrite mupd_ne; [by apply (b_dispatch m Hb)|]. intros <-.
    apply (b_cur_dispatch m Hb) in Hcur as Hdc. subst d. done.
  - intros e'. rewrite guards_of_set_stack. case_decide as E; [|apply (b_nodup m Hb)]. subst e'.
    unfold all_guards. cbn. unfold guards, take_guard. cbn [held carried]. apply NoDup_cons. split.
    + specialize (Hno e). unfold guards_of in Hno. rewrite Hloc in Hno. done.
    + pose proof (b_nodup m Hb e) as Hnd. unfold guards_of in Hnd. rewrite Hloc in Hnd. done.
  - intros e1 e2 x. rewrite !Hgs. intros [H1|[-> ->]] [H2|[-> E]]; [by apply (b_unique m Hb _ _ x)| | |done].
    + subst x. by destruct (Hno e1).
    + by destruct (Hno e2).
  - intros x. cbn. destruct (decide (x = l)) as [->|Hne]; [by rewrite mupd_eq|]. rewrite mupd_ne by done. apply (b_free m Hb).
  - intros x. cbn. destruct (decide (x = l)) as [->|Hne].
    + intros _. exists e. apply Hgs. by right.
    + rewrite mupd_ne by done. intros Hx. destruct (b_held m Hb x Hx) as [h Hin]. exists h. apply Hgs. by left.
  - intros e' x. rewrite Hgs. cbn. intros [H|[-> ->]].
    + rewrite mupd_ne by (intros ->; by destruct (Hno e')). by apply (b_word m Hb).
    + rewrite mupd_eq. by exists sc, sg.
  - intros e' x. rewrite Hgs. cbn. intros [H|[-> ->]]; [by apply (b_ftid m Hb)|].
    destruct (b_free m Hb l Hfree) as [-> _]. intros t _. by left.
  - intros d g x. rewrite locals_set_stack. cbn. destruct (decide (x = l)) as [->|Hne].
    + rewrite mupd_eq. case_decide as E; [intros _ _|intros Hg Hx; exfalso].
      * destruct (Hstays d (eq_sym E)) as [-> ->]. done.
      * by apply (Hno (Dispatch d)), (held_guard m _ g).
    + rewrite mupd_ne by done. case_decide as E; [|apply (b_dispatch_held m Hb)].
      cbn. rewrite elem_of_cons. intros [->|Hg] Hx.
      * apply (b_dispatch_held m Hb d f); [rewrite E, Hloc; by left|]. cbn in Hx. by apply elem_of_cons in Hx as [?|?].
      * apply (b_dispatch_held m Hb d g); [rewrite E, Hloc; by right|done].
Qed.

(** A store to a word or field of a lock the frame has. *)
Lemma base_own m1 l w1 : l ∈ guards f ->
  gens m1 = gens m -> tids m1 = tids m -> cur m1 = cur m -> stacks m1 = stacks m ->
  (forall x, x <> l -> words m1 x = words m x /\ ftids m1 x = ftids m x /\ fsites m1 x = fsites m x) ->
  (exists sc sg, is_stamp (words m1 l) sc sg /\ good m e sc sg) -> tid_ok e (ftids m1 l) ->
  (forall d, e = Dispatch d -> (exists g, g ∈ locals m e /\ l ∈ held g) -> is_stamp (words m1 l) d (gens m d)) ->
  base (set_stack m1 e (mk_frame f w1 :: fs)).
Proof using Hb Hst.
  intros Hl Hgens Htids Hcur1 Hstk Hother Hword Htid Hdisp. pose proof exec_locals as Hloc.
  assert (l ∈ guards_of m e) as Hin by (apply (guards_of_cons m e f (map loc fs)); [done|by left]).
  assert (forall e', locals (set_stack m1 e (mk_frame f w1 :: fs)) e' = locals m e') as Hlo.
  { intros e'. unfold locals at 1. cbn. rewrite Hstk. unfold upd. case_decide as E; [|done]. rewrite E, Hloc. done. }
  assert (forall e', guards_of (set_stack m1 e (mk_frame f w1 :: fs)) e' = guards_of m e') as Hgs
    by (intros e'; unfold guards_of; by rewrite Hlo).
  assert (forall e' sc sg, good m e' sc sg -> good (set_stack m1 e (mk_frame f w1 :: fs)) e' sc sg) as Hgd
    by (intros e' sc sg; unfold good; cbn; by rewrite Hgens, Hcur1).
  split; cbn [gens tids cur words ftids fsites set_stack]; rewrite ?Hgens, ?Htids, ?Hcur1; try (by destruct Hb).
  - intros d Hd. cbn. rewrite Hstk. unfold upd. case_decide as E; [|by apply (b_dispatch m Hb)].
    pose proof (b_dispatch m Hb d Hd) as Hemp. rewrite E, Hst in Hemp. done.
  - intros e'. rewrite Hgs. apply (b_nodup m Hb).
  - intros e1 e2 x. rewrite !Hgs. apply (b_unique m Hb).
  - intros x. destruct (decide (x = l)) as [->|Hne].
    + destruct Hword as (sc & sg & Hs & _). apply stamp_read in Hs as (_ & ? & _). done.
    + destruct (Hother x Hne) as (-> & -> & ->). apply (b_free m Hb).
  - intros x Hx. destruct (decide (x = l)) as [->|Hne]; [exists e; by rewrite Hgs|].
    destruct (Hother x Hne) as (E & _). rewrite E in Hx. destruct (b_held m Hb x Hx) as [h Hh]. exists h. by rewrite Hgs.
  - intros e' x. rewrite Hgs. intros Hx. destruct (decide (x = l)) as [->|Hne].
    + rewrite (b_unique m Hb e' e l Hx Hin). destruct Hword as (sc & sg & Hs & Hg). exists sc, sg. by split; [|apply Hgd].
    + destruct (Hother x Hne) as (-> & _). destruct (b_word m Hb e' x Hx) as (sc & sg & Hs & Hg). exists sc, sg. by split; [|apply Hgd].
  - intros e' x. rewrite Hgs. intros Hx. destruct (decide (x = l)) as [->|Hne].
    + by rewrite (b_unique m Hb e' e l Hx Hin).
    + destruct (Hother x Hne) as (_ & -> & _). by apply (b_ftid m Hb).
  - intros d g x. rewrite Hlo. intros Hg Hx. destruct (decide (x = l)) as [->|Hne].
    + assert (Dispatch d = e) as Ed by (apply (b_unique m Hb _ _ l); [by apply (held_guard m _ g)|done]).
      apply Hdisp; [done|]. exists g. by rewrite <-Ed.
    + destruct (Hother x Hne) as (-> & _). by apply (b_dispatch_held m Hb d g).
Qed.

(** Freeing a lock. *)
Lemma base_free l w1 : l ∈ guards f -> ftids m l = TID_NONE -> fsites m l = 0 ->
  base (set_stack (set_word m l 0) e (mk_frame (drop_guard f l) w1 :: fs)).
Proof using Hb Hcur Hst.
  intros Hl Ht Hs. pose proof exec_locals as Hloc. pose proof (b_nodup m Hb e) as Hnd. unfold guards_of, all_guards in Hnd.
  rewrite Hloc in Hnd. cbn in Hnd. apply NoDup_app in Hnd as (Hnd1 & Hnd2 & Hnd3).
  destruct (guards_drop f l Hnd1 Hl) as (Hd1 & Hd2 & Hd3).
  assert (l ∈ guards_of m e) as Hin by (apply (guards_of_cons m e f (map loc fs)); [done|by left]).
  assert (forall e' x, x ∈ guards_of (set_stack (set_word m l 0) e (mk_frame (drop_guard f l) w1 :: fs)) e' <->
    x ∈ guards_of m e' /\ x <> l) as Hgs.
  { intros e' x. rewrite guards_of_set_stack. case_decide as E.
    - subst e'. cbn [map loc]. rewrite all_guards_cons, (guards_of_cons m e f (map loc fs) x Hloc), Hd2.
      pose proof (Hnd2 l Hl) as Hn. split; [|tauto]. intros [[? ?]|H]; [tauto|]. split; [by right|]. intros ->. done.
    - split; [|tauto]. intros Hx. split; [done|]. intros ->. apply E. by apply (b_unique m Hb _ _ l). }
  split; try (by destruct Hb).
  - intros d Hd. cbn. rewrite mupd_ne; [by apply (b_dispatch m Hb)|]. intros <-.
    apply (b_cur_dispatch m Hb) in Hcur as Hdc. subst d. done.
  - intros e'. rewrite guards_of_set_stack. case_decide as E; [|apply (b_nodup m Hb)]. subst e'.
    unfold all_guards. cbn. apply NoDup_app. split; [done|]. split; [|done]. intros x [Hx _]%Hd2. by apply Hnd2.
  - intros e1 e2 x. rewrite !Hgs. intros [H1 _] [H2 _]. by apply (b_unique m Hb _ _ x).
  - intros x. cbn. destruct (decide (x = l)) as [->|Hne]; [done|]. rewrite mupd_ne by done. apply (LockLogic.b_free m Hb).
  - intros x. cbn. destruct (decide (x = l)) as [->|Hne]; [by rewrite mupd_eq|]. rewrite mupd_ne by done.
    intros Hx. destruct (b_held m Hb x Hx) as [h Hh]. exists h. by apply Hgs.
  - intros e' x. rewrite Hgs. cbn. intros [Hx Hne]. rewrite mupd_ne by done. by apply (b_word m Hb).
  - intros e' x. rewrite Hgs. cbn. intros [Hx Hne]. by apply (b_ftid m Hb).
  - intros d g x. rewrite locals_set_stack. cbn. intros Hg Hx.
    assert (exists g0, g0 ∈ locals m (Dispatch d) /\ x ∈ held g0) as (g0 & Hg0 & Hx0).
    { revert Hg. case_decide as E; [|by eauto]. cbn. rewrite elem_of_cons, E, Hloc. intros [->|Hg]; [exists f|exists g].
      - split; [by left|by apply Hd3].
      - split; [by right|done]. }
    destruct (decide (x = l)) as [->|Hne]; [exfalso|rewrite mupd_ne by done; by apply (b_dispatch_held m Hb d g0)].
    revert Hg. case_decide as E; cbn.
    + rewrite elem_of_cons. intros [->|Hg].
      * assert (l ∈ guards (drop_guard f l)) as Hbad by (apply elem_of_app; by left). by apply Hd2 in Hbad as [_ ?].
      * apply (Hnd2 l Hl). unfold all_guards. rewrite list_elem_of_In, in_concat. exists (guards g).
        split; [apply in_map; by apply list_elem_of_In|]. apply list_elem_of_In, elem_of_app. by left.
    + intros Hg. apply E. apply (b_unique m Hb _ _ l); [by apply (held_guard m _ g)|done].
Qed.

(** Every access the logic allows keeps the invariant. *)
Lemma base_exec {T} (x : access T) o r m1 f1 w1 : perform x o c m f = (r, m1, f1) -> req e x m f ->
  base (set_stack m1 e (mk_frame f1 w1 :: fs)).
Proof using Hb Hc Hcur Hst.
  assert (forall l, l ∈ guards f -> l ∈ guards_of m e) as Hin
    by (intros l Hl; apply (guards_of_cons m e f (map loc fs)); [apply exec_locals|by left]).
  destruct x as [|cpu|cpu| |cpu| | | |l|l|l|weak l s|l s|l v|l v|l|on|cpu k|ev]; cbn; intros E Hr;
    try (injection E as <- <- <-; by apply base_same).
  - case_match eqn:E0; injection E as <- <- <-; [|by apply base_same]. apply base_cas; [|done]. lia.
  - injection E as <- <- <-. destruct Hr as (Hl & sc & sg & Hs & Hg & Hd). assert (l ∈ guards f) as Hl' by (apply elem_of_app; by left).
    apply (base_own _ l); cbn; rewrite ?mupd_eq; try done.
    + intros x Hx. by rewrite mupd_ne.
    + by exists sc, sg.
    + by apply (b_ftid m Hb), Hin.
    + intros d Ed _. destruct (Hd d Ed) as [-> ->]. done.
  - injection E as <- <- <-. destruct Hr as [Hl Ht]. apply (base_own _ l); cbn; rewrite ?mupd_eq; try done.
    + intros x Hx. by rewrite mupd_ne.
    + by apply (b_word m Hb), Hin.
    + intros d -> (g & Hg & Hlg). by apply (b_dispatch_held m Hb d g).
  - injection E as <- <- <-. apply (base_own _ l); cbn; try done.
    + intros x Hx. by rewrite mupd_ne.
    + by apply (b_word m Hb), Hin.
    + by apply (b_ftid m Hb), Hin.
    + intros d -> (g & Hg & Hlg). by apply (b_dispatch_held m Hb d g).
  - injection E as <- <- <-. destruct Hr as (Hl & H1 & H2). by apply base_free.
Qed.
End exec.

(** What an access leaves alone. *)
Lemma perform_frame {T} (x : access T) o c e m f r m1 f1 : perform x o c m f = (r, m1, f1) -> req e x m f ->
  gens m1 = gens m /\ cur m1 = cur m /\ stacks m1 = stacks m /\
  forall l, l ∉ guards f -> words m l <> 0 -> words m1 l = words m l /\ ftids m1 l = ftids m l /\ fsites m1 l = fsites m l.
Proof.
  intros E Hr. assert (forall l, l ∈ held f -> l ∈ guards f) as Hh by (intros l Hl; apply elem_of_app; by left).
  destruct x as [|cpu|cpu| |cpu| | | |l0|l0|l0|weak l0 s|l0 s|l0 v|l0 v|l0|on|cpu k|ev]; cbn in E, Hr;
    try (injection E as <- <- <-; by split_and!);
    try (injection E as <- <- <-; split_and!; try done; intros l Hl Hw; cbn; assert (l <> l0) as Hne;
         [intros ->; apply Hl; tauto || (apply Hh; tauto)|]; by rewrite ?(mupd_ne _ _ _ _ Hne)).
  case_match eqn:E0; injection E as <- <- <-; split_and!; try done. intros l Hl Hw. cbn. rewrite mupd_ne; [done|].
  intros ->. apply Hw. lia.
Qed.

(** ** Dispatching *)

(** A switch on [c]: the generation is bumped, the guards of the stream that
    ran there are divided between it and [b]. *)
Section switch.
Context (m : mach) (c : Z) (b : stream) (m' : mach) (Hb : base m) (Hc : cpu_ok c) (Hlt : gens m c + 1 < 2 ^ 54).
Context (Hbne : b <> cur m c) (Hbg : guards_of m b = []) (Hbt : forall t, b <> Thread t) (Hbd : forall d, b = Dispatch d -> d = c).
Context (Hgens : forall d, gens m' d = if decide (d = c) then gens m c + 1 else gens m d).
Context (Hcur : forall d, cur m' d = if decide (d = c) then Dispatch c else cur m d).
Context (Htid : tids m' = tids m) (Hw : words m' = words m) (Hft : ftids m' = ftids m) (Hfs : fsites m' = fsites m).
Context (Hstk : forall e, e <> cur m c -> e <> b -> stacks m' e = stacks m e).
Context (Hperm : guards_of m (cur m c) ≡ₚ guards_of m' (cur m c) ++ guards_of m' b).
Context (Hheld : forall g, g ∈ locals m' (Dispatch c) -> held g = []).

Lemma switch_same e : e <> cur m c -> e <> b -> guards_of m' e = guards_of m e.
Proof using Hstk. intros H1 H2. unfold guards_of, locals. by rewrite Hstk. Qed.

Lemma switch_moved l : l ∈ guards_of m (cur m c) <-> l ∈ guards_of m' (cur m c) \/ l ∈ guards_of m' b.
Proof using Hperm. by rewrite Hperm, elem_of_app. Qed.

(** Who has a guard after the switch, and who had it. *)
Lemma switch_old e l : l ∈ guards_of m' e ->
  (e <> cur m c /\ e <> b /\ l ∈ guards_of m e) \/ ((e = cur m c \/ e = b) /\ l ∈ guards_of m (cur m c)).
Proof using Hperm Hstk.
  intros Hl. destruct (decide (e = cur m c)) as [->|H1]; [right; split; [tauto|]; apply switch_moved; tauto|].
  destruct (decide (e = b)) as [->|H2]; [right; split; [tauto|]; apply switch_moved; tauto|]. left. by rewrite <-switch_same.
Qed.

Lemma switch_good e sc sg : cpu_ok sc -> good m e sc sg -> good m' e sc sg /\ (e = cur m c -> good m' b sc sg).
Proof using All.
  intros Hsc [H1 H2]. unfold good. rewrite Hgens, Hcur. case_decide as E; [subst sc; split; [|intros _]; split; lia|].
  split; [done|]. intros ->. split; [done|]. intros Hsg. exfalso. apply E. apply H2 in Hsg.
  destruct (cur m c) as [t|d|n] eqn:Ec; [by apply (b_cur_thread m Hb sc c t)| |by apply (b_cur_lost m Hb) in Ec].
  apply (b_cur_dispatch m Hb) in Hsg, Ec. congruence.
Qed.

Lemma switch_dispatch d : d <> c -> stacks m' (Dispatch d) = stacks m (Dispatch d).
Proof using All.
  intros Hd. apply Hstk; [|by intros <-%eq_sym%Hbd]. intros Ed. symmetry in Ed. by apply (b_cur_dispatch m Hb) in Ed.
Qed.

Lemma switch_guards : (forall e, NoDup (guards_of m' e)) /\
  (forall e1 e2 l, l ∈ guards_of m' e1 -> l ∈ guards_of m' e2 -> e1 = e2) /\
  (forall l e, l ∈ guards_of m e -> exists e', l ∈ guards_of m' e').
Proof using All.
  pose proof (b_nodup m Hb (cur m c)) as Hnd. rewrite Hperm, NoDup_app in Hnd. destruct Hnd as (Hnd1 & Hnd2 & Hnd3).
  split; [|split].
  - intros e. destruct (decide (e = cur m c)) as [->|H1]; [done|]. destruct (decide (e = b)) as [->|H2]; [done|].
    rewrite switch_same by done. apply (b_nodup m Hb).
  - intros e1 e2 l Hl1 Hl2.
    destruct (switch_old _ _ Hl1) as [(A1 & A2 & A3)|(A1 & A3)], (switch_old _ _ Hl2) as [(B1 & B2 & B3)|(B1 & B3)].
    + by apply (b_unique m Hb _ _ l).
    + exfalso. apply A1. by apply (b_unique m Hb _ _ l).
    + exfalso. apply B1. by apply (b_unique m Hb _ _ l).
    + destruct A1 as [-> | ->], B1 as [-> | ->]; try done; exfalso; by apply (Hnd2 l).
  - intros l e He. destruct (decide (e = cur m c)) as [->|H1]; [apply switch_moved in He as [He|He]; eauto|].
    exists e. rewrite switch_same; [done|done|]. intros ->. rewrite Hbg in He. by apply elem_of_nil in He.
Qed.

Lemma base_switch : base m'.
Proof using All.
  destruct switch_guards as (Hnd & Hun & Hex). split; [| | | | | |done|done| | | | |].
  - intros d. rewrite Hgens. pose proof (b_gens m Hb c). case_decide; [lia|]. apply (b_gens m Hb).
  - intros d d'. rewrite Hcur. case_decide; [intros [= ->]; congruence|]. apply (b_cur_dispatch m Hb).
  - intros d d' t H1 H2. rewrite !Hcur. repeat case_decide; try done. by apply (b_cur_thread m Hb).
  - intros d n. rewrite Hcur. case_decide; [done|]. apply (b_cur_lost m Hb).
  - intros d t Hd. rewrite Hcur, Htid. case_decide; [done|]. by apply (b_tids m Hb).
  - intros d. rewrite Hcur. case_decide as E; [by subst d|]. intros Hd. rewrite switch_dispatch by done. by apply (b_dispatch m Hb).
  - intros l. rewrite Hw, Hft, Hfs. apply (b_free m Hb).
  - intros l. rewrite Hw. intros Hl. destruct (b_held m Hb l Hl) as [e He]. by apply (Hex l e).
  - intros e l Hl. rewrite Hw. destruct (switch_old _ _ Hl) as [(A1 & A2 & A3)|(A1 & A3)];
      destruct (b_word m Hb _ l A3) as (sc & sg & Hs & Hg); exists sc, sg; (split; [done|]);
      apply switch_good in Hg as [G1 G2]; [done|apply Hs| |apply Hs].
    destruct A1 as [-> | ->]; [done|]. by apply G2.
  - intros e l Hl. rewrite Hft. destruct (switch_old _ _ Hl) as [(A1 & A2 & A3)|([-> | ->] & A3)]; [by apply (b_ftid m Hb)..|].
    intros t Ht. by apply Hbt in Ht.
  - intros d g l Hg Hl. rewrite Hw, Hgens. case_decide as E.
    + subst d. apply Hheld in Hg. rewrite Hg in Hl. by apply elem_of_nil in Hl.
    + apply (b_dispatch_held m Hb d g); [|done]. unfold locals in *. by rewrite switch_dispatch in Hg.
Qed.
End switch.

Lemma base_set_tid m c t : base m -> cpu_ok c -> cur m c = Dispatch c ->
  base (mk_mach (gens m) (upd (tids m) c t) (words m) (ftids m) (fsites m) (cur m) (stacks m)).
Proof.
  intros Hb Hc Hcur. split; try (by destruct Hb). cbn. intros d u Hd Ed. rewrite mupd_ne; [by apply (b_tids m Hb)|].
  intros ->. congruence.
Qed.

(** The dispatched thread is restored; the dispatching code is gone, with
    nothing held. *)
Lemma base_restore m c f : base m -> cpu_ok c -> cur m c = Dispatch c -> stacks m (Dispatch c) = [mk_frame f None] ->
  guards f = [] -> (forall c', cpu_ok c' -> cur m c' <> Thread (tids m c)) ->
  base (mk_mach (gens m) (tids m) (words m) (ftids m) (fsites m)
    (upd (cur m) c (Thread (tids m c))) (upd (stacks m) (Dispatch c) [])).
Proof.
  intros Hb Hc Hcur Hst Hf Hno. set (m' := mk_mach _ _ _ _ _ _ _).
  assert (guards_of m (Dispatch c) = []) as Hg0 by (unfold guards_of, all_guards, locals; rewrite Hst; cbn; by rewrite Hf).
  assert (forall e, guards_of m' e = guards_of m e) as Hg.
  { intros e. destruct (decide (e = Dispatch c)) as [->|E].
    - rewrite Hg0. unfold guards_of, locals. cbn. by rewrite mupd_eq.
    - unfold guards_of, locals. cbn. by rewrite mupd_ne. }
  split; try (by destruct Hb).
  - intros d d'. cbn. unfold upd. case_decide; [done|]. apply (b_cur_dispatch m Hb).
  - intros d d' t H1 H2. cbn. unfold upd. repeat case_decide; try congruence.
    + intros [= <-] Ht. by apply Hno in Ht.
    + intros Ht [= <-]. by apply Hno in Ht.
    + by apply (b_cur_thread m Hb).
  - intros d n. cbn. unfold upd. case_decide; [done|]. apply (b_cur_lost m Hb).
  - intros d t Hd. cbn. unfold upd. case_decide; [intros [= <-]; congruence|]. by apply (b_tids m Hb).
  - intros d. cbn. unfold upd. repeat case_decide; try congruence. apply (b_dispatch m Hb).
  - intros e. rewrite Hg. apply (b_nodup m Hb).
  - intros e1 e2 l. rewrite !Hg. apply (b_unique m Hb).
  - intros l Hl. destruct (b_held m Hb l Hl) as [e He]. exists e. by rewrite Hg.
  - intros e l. rewrite Hg. intros Hl. destruct (b_word m Hb e l Hl) as (sc & sg & Hs & Hgd & Hc'). exists sc, sg. split; [done|].
    split; [done|]. cbn. intros Esg. specialize (Hc' Esg). unfold upd. case_decide as E; [|done]. exfalso.
    assert (e = Dispatch c) as -> by congruence. rewrite Hg0 in Hl. by apply elem_of_nil in Hl.
  - intros e l. rewrite Hg. apply (b_ftid m Hb).
  - intros d g l. unfold locals. cbn. unfold upd. case_decide; [intros Hg'; by apply elem_of_nil in Hg'|]. apply (b_dispatch_held m Hb).
Qed.

(** ** What running frames know *)

Lemma cur_unique m c c' : base m -> cpu_ok c -> cpu_ok c' -> cur m c = cur m c' -> c = c'.
Proof.
  intros Hb H1 H2 E. destruct (cur m c) as [t|d|n] eqn:Ec; [by apply (b_cur_thread m Hb c c' t)| |by apply (b_cur_lost m Hb) in Ec].
  symmetry in E. apply (b_cur_dispatch m Hb) in Ec, E. congruence.
Qed.

(** A frame that did not move knows what it knew. *)
Lemma frames_keep m m' : frames_ok m ->
  (forall e i fr p, (forall n, e <> Lost n) -> stacks m' e !! i = Some fr -> work fr = Some p ->
    frame_ok m' e i p \/
    exists j, stacks m e !! j = Some fr /\ drop i (locals m' e) = drop j (locals m e) /\ rely e (drop j (locals m e)) m m') ->
  frames_ok m'.
Proof.
  intros Hf H e i fr p He Hi Hp. destruct (H e i fr p He Hi Hp) as [?|(j & Hj & Hd & Hr)]; [done|].
  destruct (Hf e j fr p He Hj Hp) as (K & Hst & HK & Hs). exists K. split; [done|]. split; [|done].
  rewrite Hd. by apply (st_rely e K Hst _ m).
Qed.

Lemma rely_same e st m m' : gens m' = gens m -> cur m' = cur m ->
  (forall l, l ∈ all_guards st -> words m' l = words m l /\ ftids m' l = ftids m l /\ fsites m' l = fsites m l) -> rely e st m m'.
Proof. intros Hg Hc Hl. split; [intros c; by rewrite Hg|intros c _ _; by rewrite Hc|intros d _; by rewrite Hg|done]. Qed.

(** A switch of [c] is seen by the frames of the streams that do not
    dispatch there. *)
Lemma rely_switch e st m m' c : base m -> e <> Dispatch c -> words m' = words m -> ftids m' = ftids m -> fsites m' = fsites m ->
  (forall d, d <> c -> gens m' d = gens m d /\ cur m' d = cur m d) ->
  (gens m c < gens m' c \/ gens m' c = gens m c /\ cur m c = Dispatch c) -> rely e st m m'.
Proof.
  intros Hb He Hw Ht Hs Hd Hc. split.
  - intros d. destruct (decide (d = c)) as [->|E]; [lia|]. by rewrite (proj1 (Hd d E)).
  - intros d _ Hg Ec. destruct (decide (d = c)) as [->|E]; [|by rewrite (proj2 (Hd d E))].
    destruct Hc as [?|[_ ?]]; [lia|congruence].
  - intros d ->. apply Hd. congruence.
  - intros l _. by rewrite Hw, Ht, Hs.
Qed.

Section running.
Context (m : mach) (c : Z) (e : stream) (f : local) (w : option (option LockId * code bool)) (fs : list frame).
Context (Hb : base m) (Hc : cpu_ok c) (Hcur : cur m c = e) (Hst : stacks m e = mk_frame f w :: fs).

(** The frames below the top one, and those of the other streams, while the
    top frame of the running stream changes. *)
Lemma frames_top m1 f1 w1 : frames_ok m ->
  gens m1 = gens m -> cur m1 = cur m -> stacks m1 = stacks m ->
  (forall l, l ∉ guards f -> words m l <> 0 -> words m1 l = words m l /\ ftids m1 l = ftids m l /\ fsites m1 l = fsites m l) ->
  (forall p, w1 = Some p -> (forall n, e <> Lost n) -> frame_ok (set_stack m1 e (mk_frame f1 w1 :: fs)) e 0 p) ->
  frames_ok (set_stack m1 e (mk_frame f1 w1 :: fs)).
Proof using Hb Hst.
  intros Hf Hg Hcu Hsk Hl Hnew. pose proof (locals_cons m e f w fs Hst) as Hloc.
  apply (frames_keep m); [done|]. intros e' i fr p He Hi Hp. cbn in Hi. rewrite Hsk in Hi.
  destruct (decide (e' = e)) as [->|Hne].
  - rewrite mupd_eq in Hi. destruct i as [|i]; cbn in Hi.
    + left. injection Hi as <-. by apply Hnew.
    + right. exists (S i). rewrite Hst. split; [done|]. rewrite Hloc, locals_set_stack, decide_True by done. cbn. split; [done|].
      apply rely_same; [done..|]. intros l Hin. cbn in *. apply all_guards_drop in Hin. apply Hl.
      * intros Hf'. by apply (top_guards m e f (map loc fs) l Hb Hloc Hf').
      * apply (base_held m e l Hb). rewrite (guards_of_cons m e f (map loc fs) l Hloc). by right.
  - rewrite mupd_ne in Hi by done. right. exists i. split; [done|]. rewrite locals_set_stack, decide_False by done. split; [unfold locals; by rewrite Hsk|].
    apply rely_same; [done..|]. intros l Hin. cbn in *. apply all_guards_drop in Hin. apply Hl.
    + intros Hf'. apply Hne, (b_unique m Hb _ _ l); [done|]. rewrite (guards_of_cons m e f (map loc fs) l Hloc). by left.
    + by apply (base_held m e' l Hb).
Qed.

(** The accesses of the running frame are those the logic allows. *)
Lemma exec_req {T} (x : access T) k want : frames_ok m -> (forall n, e <> Lost n) -> w = Some (want, Do x k) -> req e x m f.
Proof using Hb Hc Hcur Hst.
  intros Hf He Hw. pose proof (locals_cons m e f w fs Hst) as Hloc.
  destruct (Hf e 0%nat (mk_frame f w) (want, Do x k) He) as (K & _ & HK & K' & Hst' & Hok & Hk); [by rewrite Hst|exact Hw|].
  rewrite Hloc in HK. by destruct (Hok m f (map loc fs) c {| spurious := false; reading := 0 |} Hb Hc Hcur Hloc HK).
Qed.

(** An access of the running frame. *)
Lemma inv_exec {T} (x : access T) k want o r m1 f1 : frames_ok m -> (forall n, e <> Lost n) -> w = Some (want, Do x k) ->
  perform x o c m f = (r, m1, f1) -> inv (set_stack m1 e (mk_frame f1 (Some (want, k r)) :: fs)).
Proof using Hb Hc Hcur Hst.
  intros Hf He Hw Hx. pose proof (locals_cons m e f w fs Hst) as Hloc.
  destruct (Hf e 0%nat (mk_frame f w) (want, Do x k) He) as (K & _ & HK & K' & Hst' & Hok & Hk); [by rewrite Hst|done|].
  rewrite Hloc in HK. cbn in HK. destruct (Hok m f (map loc fs) c o Hb Hc Hcur Hloc HK) as [Hreq HK']. rewrite Hx in HK'. cbn in HK'.
  destruct (perform_frame x o c e m f r m1 f1 Hx Hreq) as (Hg & Hcu & Hsk & Hl).
  split; [by apply (base_exec m c e f w fs Hb Hc Hcur Hst x o r)|]. apply frames_top; [done..|]. intros p [= <-] _.
  exists (K' r). split; [apply Hst'|]. split; [|apply Hk]. rewrite locals_set_stack, decide_True by done. cbn.
  apply (st_rely e _ (Hst' r) _ m1); [by apply rely_same|done].
Qed.
End running.

(** A handler frame is pushed or popped: the frames of the stream shift. *)
Lemma frames_shift m e st k : frames_ok m -> (forall i fr p, st !! i = Some fr -> work fr = Some p ->
    stacks m e !! (k i) = Some fr /\ drop i (map loc st) = drop (k i) (locals m e)) ->
  frames_ok (set_stack m e st).
Proof.
  intros Hf Hk. apply (frames_keep m); [done|]. intros e' i fr p He Hi Hp. right. cbn in Hi. rewrite locals_set_stack.
  destruct (decide (e' = e)) as [->|Hne].
  - rewrite mupd_eq in Hi. destruct (Hk i fr p Hi Hp) as [H1 H2]. exists (k i). split; [done|]. split; [done|]. by apply rely_same.
  - rewrite mupd_ne in Hi by done. exists i. split; [done|]. split; [done|]. by apply rely_same.
Qed.

Lemma inv_irq m c e fr fs : inv m -> cur m c = e -> stacks m e = fr :: fs -> inv (set_stack m e (idle_frame false :: fr :: fs)).
Proof.
  intros [Hb Hf] Hcur Hst. split.
  - apply (base_stack m c); [done|done| |].
    + unfold guards_of, locals. rewrite Hst. done.
    + intros g l. cbn. rewrite elem_of_cons. intros [->|Hg] Hl; [by apply elem_of_nil in Hl|]. exists g. unfold locals. by rewrite Hst.
  - apply (frames_shift m e _ Nat.pred); [done|]. intros [|i] fr' p Hi Hp; cbn in *; [by injection Hi as <-|].
    unfold locals. rewrite Hst. done.
Qed.

Lemma inv_irq_return m c e f fr fs : inv m -> cur m c = e -> stacks m e = mk_frame f None :: fr :: fs -> guards f = [] ->
  inv (set_stack m e (fr :: fs)).
Proof.
  intros [Hb Hf] Hcur Hst Hg. split.
  - apply (base_stack m c); [done|done| |].
    + unfold guards_of, locals. rewrite Hst. unfold all_guards. cbn. by rewrite Hg.
    + intros g l Hin Hl. exists g. unfold locals. rewrite Hst. split; [by right|done].
  - apply (frames_shift m e _ S); [done|]. intros i fr' p Hi Hp. unfold locals. by rewrite Hst.
Qed.

(** A dispatch leaves the frames that are in the lock's code where they were. *)
Lemma frames_switch m c m' : base m -> frames_ok m -> words m' = words m -> ftids m' = ftids m -> fsites m' = fsites m ->
  (forall d, d <> c -> gens m' d = gens m d /\ cur m' d = cur m d) ->
  (gens m c < gens m' c \/ gens m' c = gens m c /\ cur m c = Dispatch c) ->
  (forall fr, fr ∈ stacks m' (Dispatch c) -> work fr = None) ->
  (forall e i fr, (forall n, e <> Lost n) -> e <> Dispatch c -> stacks m' e !! i = Some fr -> work fr <> None ->
    stacks m e !! i = Some fr /\ drop i (locals m' e) = drop i (locals m e)) -> frames_ok m'.
Proof.
  intros Hb Hf Hw Ht Hs Hd Hc Hdisp Hother. apply (frames_keep m); [done|]. intros e i fr p He Hi Hp. right.
  destruct (decide (e = Dispatch c)) as [->|Hne].
  - assert (work fr = None) as E by (apply Hdisp; by eapply list_elem_of_lookup_2). congruence.
  - exists i. destruct (Hother e i fr He Hne Hi) as [H1 H2]; [congruence|]. split; [done|]. split; [done|]. by apply (rely_switch _ _ _ _ c).
Qed.

Lemma inv_dispatch m c t f fs keep moved : inv m -> cpu_ok c -> cur m c = Thread t ->
  stacks m (Thread t) = mk_frame f None :: fs -> held f ≡ₚ keep ++ moved -> gens m c + 1 < 2 ^ 54 ->
  inv (mk_mach (upd (gens m) c (gens m c + 1)) (tids m) (words m) (ftids m) (fsites m)
      (upd (cur m) c (Dispatch c))
      (upd (upd (stacks m) (Thread t) (mk_frame (mk_local false keep (carried f)) None :: fs))
           (Dispatch c) [mk_frame (mk_local false [] moved) None])).
Proof.
  intros [Hb Hf] Hc Hcur Hst Hh Hlt. set (m' := mk_mach _ _ _ _ _ _ _).
  assert (stacks m' (Thread t) = mk_frame (mk_local false keep (carried f)) None :: fs) as Hst1 by (cbn; by rewrite mupd_ne, mupd_eq).
  assert (stacks m' (Dispatch c) = [mk_frame (mk_local false [] moved) None]) as Hst2 by (cbn; by rewrite mupd_eq).
  split.
  - apply (base_switch m c (Dispatch c)); rewrite ?Hcur; try done.
    + unfold guards_of, locals. by rewrite (b_dispatch m Hb c) by congruence.
    + by intros d [= ->].
    + intros e H1 H2. cbn. by rewrite !mupd_ne.
    + unfold guards_of, all_guards, locals. rewrite Hst1, Hst2, Hst. cbn. unfold guards. cbn. rewrite Hh. rewrite app_nil_r. solve_Permutation.
    + intros g. unfold locals. rewrite Hst2. cbn. rewrite list_elem_of_singleton. by intros ->.
  - apply (frames_switch m c); [done..| | | |].
    + intros d Hd. cbn. by rewrite !mupd_ne.
    + left. cbn. rewrite mupd_eq. lia.
    + intros fr. rewrite Hst2, list_elem_of_singleton. by intros ->.
    + intros e i fr _ Hne Hi Hw. destruct (decide (e = Thread t)) as [->|Ht].
      * rewrite Hst1 in Hi. destruct i as [|i]; [by injection Hi as <-|]. unfold locals. by rewrite Hst1, Hst.
      * unfold locals. cbn in *. by rewrite !mupd_ne in * by done.
Qed.

Lemma inv_dispatch_boot m c f fs n : inv m -> cpu_ok c -> cur m c = Dispatch c ->
  stacks m (Dispatch c) = mk_frame f None :: fs -> stacks m (Lost n) = [] -> gens m c + 1 < 2 ^ 54 ->
  inv (mk_mach (upd (gens m) c (gens m c + 1)) (tids m) (words m) (ftids m) (fsites m) (cur m)
      (upd (upd (stacks m) (Dispatch c) [mk_frame (mk_local false [] (guards f)) None]) (Lost n) fs)).
Proof.
  intros [Hb Hf] Hc Hcur Hst Hlost Hlt. set (m' := mk_mach _ _ _ _ _ _ _).
  assert (stacks m' (Dispatch c) = [mk_frame (mk_local false [] (guards f)) None]) as Hst1 by (cbn; by rewrite mupd_ne, mupd_eq).
  assert (stacks m' (Lost n) = fs) as Hst2 by (cbn; by rewrite mupd_eq).
  split.
  - apply (base_switch m c (Lost n)); rewrite ?Hcur; try done.
    + unfold guards_of, locals. by rewrite Hlost.
    + intros d. cbn. case_decide; [by subst d|done].
    + intros e H1 H2. cbn. by rewrite !mupd_ne.
    + unfold guards_of, all_guards, locals. rewrite Hst1, Hst2, Hst. cbn. unfold guards at 2. cbn. by rewrite app_nil_r.
    + intros g. unfold locals. rewrite Hst1. cbn. rewrite list_elem_of_singleton. by intros ->.
  - apply (frames_switch m c); [done..| | | |].
    + intros d Hd. cbn. by rewrite !mupd_ne.
    + left. cbn. rewrite mupd_eq. lia.
    + intros fr. rewrite Hst1, list_elem_of_singleton. by intros ->.
    + intros e i fr He Hne Hi Hw. unfold locals. cbn in *. by rewrite !mupd_ne in * by (done || apply He).
Qed.

Lemma inv_set_tid m c t : inv m -> cpu_ok c -> cur m c = Dispatch c ->
  inv (mk_mach (gens m) (upd (tids m) c t) (words m) (ftids m) (fsites m) (cur m) (stacks m)).
Proof.
  intros [Hb Hf] Hc Hcur. split; [by apply base_set_tid|]. apply (frames_keep m); [done|].
  intros e i fr p _ Hi Hp. right. exists i. split; [done|]. split; [done|]. by apply rely_same.
Qed.

Lemma inv_restore m c f : inv m -> cpu_ok c -> cur m c = Dispatch c -> stacks m (Dispatch c) = [mk_frame f None] ->
  guards f = [] -> (forall c', cpu_ok c' -> cur m c' <> Thread (tids m c)) ->
  inv (mk_mach (gens m) (tids m) (words m) (ftids m) (fsites m)
    (upd (cur m) c (Thread (tids m c))) (upd (stacks m) (Dispatch c) [])).
Proof.
  intros [Hb Hf] Hc Hcur Hst Hg Hno. split; [by apply (base_restore m c f)|]. apply (frames_switch m c); [done..| | | |].
  - intros d Hd. cbn. by rewrite mupd_ne.
  - by right.
  - intros fr. cbn. rewrite mupd_eq. intros Hin. by apply elem_of_nil in Hin.
  - intros e i fr _ Hne Hi Hw. unfold locals. cbn in *. by rewrite !mupd_ne in * by done.
Qed.

(** The top frame of the running stream changes between two calls, or starts
    one. *)
Lemma inv_top m c e f w fs f1 w1 : inv m -> cur m c = e -> stacks m e = mk_frame f w :: fs -> held f1 = held f -> carried f1 = carried f ->
  (forall want p, w1 = Some (want, p) -> callable f1 want p) -> inv (set_stack m e (mk_frame f1 w1 :: fs)).
Proof.
  intros [Hb Hf] Hcur Hst H1 H2 Hp. split; [by apply (base_same m c e f w)|]. apply (frames_top m e f w); [done..|].
  intros [want p] Hw _. destruct (callable_sound e f1 want p (Hp want p Hw)) as (K & Hs & HK & Hsd). exists K. split; [done|]. split; [|done].
  rewrite locals_set_stack, decide_True by done. apply HK.
Qed.

Lemma inv_step m m' : inv m -> step m m' -> inv m'.
Proof.
  intros Hi Hs. destruct Hs.
  - assert (forall n, e <> Lost n) as He by (intros n ->; by eapply (b_cur_lost m (proj1 Hi))).
    destruct Hi as [Hb Hf]. by eapply (inv_exec m c e f _ fs Hb).
  - by eapply (inv_top m c e f).
  - eapply (inv_top m c e f); [done..|]. by intros want' p' [= <- <-].
  - by apply (inv_irq m c).
  - by eapply (inv_irq_return m c).
  - by eapply (inv_top m c e f).
  - by apply inv_dispatch.
  - by apply inv_dispatch_boot.
  - by apply inv_set_tid.
  - by eapply inv_restore.
Qed.

Lemma inv_boot on : inv (boot_mach on).
Proof.
  assert (forall e, guards_of (boot_mach on) e = []) as Hg by (by intros []).
  split.
  - split; try done.
    + by intros c d [= ->].
    + intros e. rewrite Hg. constructor.
    + intros e1 e2 l. rewrite Hg. intros Hl. by apply elem_of_nil in Hl.
    + intros e l. rewrite Hg. intros Hl. by apply elem_of_nil in Hl.
    + intros e l. rewrite Hg. intros Hl. by apply elem_of_nil in Hl.
    + intros d f l. cbn. rewrite list_elem_of_singleton. intros -> Hl. by apply elem_of_nil in Hl.
  - intros e i fr p _ Hi Hp. destruct e; cbn in Hi; destruct i as [|i]; try done; by injection Hi as <-.
Qed.

Lemma inv_reachable m : reachable m -> inv m.
Proof. intros [on Hr]. assert (inv (boot_mach on)) as H0 by apply inv_boot. induction Hr; [done|]. eauto using inv_step. Qed.
