(* ===== verification/LockProps.v ===== *)
(** * What the IRQ-class lock promises

    Mutual exclusion and the truth of its verdicts over every run of the
    machine of [LockMachine], and that a masked re-entry is always caught. *)

From S2P Require Import Prelude Text Abi OwnerStamp Tripwire IrqLock LockMachine LockLogic LockCode LockInv.
Local Open Scope Z_scope.

(** ** Exclusion *)

Lemma guards_index st i j f g l : NoDup (all_guards st) -> st !! i = Some f -> st !! j = Some g -> l ∈ guards f -> l ∈ guards g -> i = j.
Proof.
  revert i j. induction st as [|h st IH]; intros i j Hnd Hi Hj Hf Hg; [done|].
  unfold all_guards in Hnd. cbn in Hnd. apply NoDup_app in Hnd as (_ & Hdis & Hnd).
  assert (forall k x, st !! k = Some x -> l ∈ guards x -> l ∈ concat (map guards st)) as Hin.
  { intros k x Hk Hx. apply list_elem_of_In, in_concat. exists (guards x). split; [|by apply list_elem_of_In].
    apply in_map, list_elem_of_In. by eapply list_elem_of_lookup_2. }
  destruct i as [|i], j as [|j]; cbn in Hi, Hj; [done| | |].
  - injection Hi as ->. exfalso. by apply (Hdis l), (Hin j g).
  - injection Hj as ->. exfalso. by apply (Hdis l), (Hin i f).
  - f_equal. by apply IH.
Qed.

Lemma drop_locals m e i fr : stacks m e !! i = Some fr -> drop i (locals m e) = loc fr :: drop (S i) (locals m e).
Proof. intros Hi. apply drop_S. unfold locals. change (map loc) with (fmap (M := list) loc). by rewrite list_lookup_fmap, Hi. Qed.

(** C9: The lock excludes.  In every state the machine reaches, whatever the
    streams, IRQs and dispatches did: a call of [lock], [try_lock] or
    [try_lock_quiet] that returns success has the guard; no two frames of any
    streams have a guard of the same lock; and a lock's word is zero exactly
    when nobody has its guard. *)
Theorem lock_excludes m : reachable m ->
  (forall e i f l, (forall n, e <> Lost n) -> stacks m e !! i = Some (mk_frame f (Some (Some l, Ret true))) -> l ∈ held f) /\
  (forall e1 e2 i j f g l, locals m e1 !! i = Some f -> locals m e2 !! j = Some g -> l ∈ guards f -> l ∈ guards g ->
    e1 = e2 /\ i = j) /\
  (forall l, words m l = 0 <-> forall e, l ∉ guards_of m e).
Proof.
  intros [Hb Hf]%inv_reachable.
  assert (forall e i f l, locals m e !! i = Some f -> l ∈ guards f -> l ∈ guards_of m e) as Hin.
  { intros e i f l Hi Hl. unfold guards_of, all_guards. apply list_elem_of_In, in_concat. exists (guards f).
    split; [|by apply list_elem_of_In]. apply in_map, list_elem_of_In. by eapply list_elem_of_lookup_2. }
  split; [|split].
  - intros e i f l He Hi. destruct (Hf e i _ _ He Hi eq_refl) as (K & _ & HK & Hs). cbn in Hs.
    destruct (Hs _ _ HK eq_refl) as (f' & fs & Hd & Hl). rewrite (drop_locals m e i _ Hi) in Hd. by injection Hd as <- <-.
  - intros e1 e2 i j f g l Hi Hj Hl1 Hl2. assert (e1 = e2) as -> by (apply (b_unique m Hb _ _ l); eauto). split; [done|].
    by apply (guards_index (locals m e2) i j f g l); [apply (b_nodup m Hb)|..].
  - intros l. split; [intros Hw e Hl; by apply (base_held m e l Hb) in Hl|]. intros Hno.
    destruct (decide (words m l = 0)) as [?|Hw]; [done|]. destruct (b_held m Hb l Hw) as [e He]. by apply Hno in He.
Qed.

(** ** Verdicts *)

(** C10: A re-entry panic is never a false alarm.  The stream that panicked
    has the guard of the reported lock, in the panicking frame or one below
    it; the word in the report is the lock's word; and a thread named as the
    holder is the panicking thread. *)
Theorem reentry_verdict_sound m e i f want r : reachable m -> (forall n, e <> Lost n) ->
  stacks m e !! i = Some (mk_frame f (Some (want, Panicked r))) ->
  (exists j g, (i <= j)%nat /\ locals m e !! j = Some g /\ re_id r ∈ guards g) /\
  words m (re_id r) = re_observed r /\ (forall t, e = Thread t -> re_tid r <> TID_NONE -> re_tid r = t).
Proof.
  intros [Hb Hf]%inv_reachable He Hi. destruct (Hf e i _ _ He Hi eq_refl) as (K & _ & HK & Hs). cbn in Hs.
  destruct (Hs _ _ HK) as (Hin & Hw & Ht). split; [|split; [done|]].
  - unfold all_guards in Hin. apply list_elem_of_In, in_concat in Hin as (gs & (g & <- & Hg)%in_map_iff & Hl).
    apply list_elem_of_In, list_elem_of_lookup_1 in Hg as [k Hk]. rewrite lookup_drop in Hk.
    exists (i + k)%nat, g. split; [lia|]. split; [done|]. by apply list_elem_of_In.
  - intros t Et Hn. by destruct (Ht t Et).
Qed.

(** A word stamped with CPU [c]'s current generation is held by the stream
    that runs there. *)
Lemma stream_stamp_holder m c l : base m -> is_stream_stamp (words m l) c (gens m c) = true ->
  l ∈ guards_of m (cur m c) /\ is_stamp (words m l) c (gens m c).
Proof.
  intros Hb. unfold is_stream_stamp. intros H.
  assert (words m l <> 0) as Hw by (intros E; by rewrite E in H). destruct (b_held m Hb l Hw) as [e He].
  destruct (b_word m Hb e l He) as (sc & sg & Hs & _ & Hgood). destruct (stamp_read _ _ _ Hs) as (H1 & _ & H3 & _ & H5).
  rewrite H1, H3, H5 in H by apply (b_gens m Hb). assert (sc = c /\ sg = gens m c) as [-> ->] by lia.
  rewrite (Hgood eq_refl). done.
Qed.

(** ** Calls that run to an end *)

(** A call that has made an access is not where it was. *)
Definition follows {A} (p1 p2 : code A) : Prop := match p2 with Do x k => exists r, k r = p1 | _ => False end.

Lemma follows_wf {A} : well_founded (@follows A).
Proof. intros p. induction p as [a|T x k IH|r|]; constructor; intros p' Hp; try (exfalso; exact Hp). destruct Hp as [r <-]. apply IH. Qed.

Lemma follows_ne {A T} (x : access T) (q : T -> code A) r : q r <> Do x q.
Proof.
  intros E. assert (follows (q r) (q r)) as Hf by (rewrite E at 2; by exists r).
  induction (follows_wf (q r)) as [p _ IH]. by apply (IH p).
Qed.

(** A masked stream in a call that takes no guard and drops none: its
    generation, its guards and their words stay as they are. *)
Section call.
Context (c : Z) (e : stream) (want : option LockId) (f : local) (fs : list frame) (g : Z) (W : LockId -> Z).
Context (fin : code bool -> Prop).
Context (Hc : cpu_ok c) (Hoff : irqs f = false) (He : forall n, e <> Lost n).

Definition frozen (m : mach) : Prop :=
  base m /\ cur m c = e /\ locals m e = f :: map loc fs /\ gens m c = g /\
  forall l, l ∈ all_guards (f :: map loc fs) -> words m l = W l.

(** [p] makes [n] accesses, which change nothing, and then is where [fin]
    says. *)
Fixpoint leads (n : nat) (p : code bool) {struct p} : Prop :=
  match p with
  | Do x k =>
      match n with
      | O => False
      | S n' => forall m o, frozen m ->
          (perform x o c m f).1.2 = m /\ (perform x o c m f).2 = f /\ leads n' (k (perform x o c m f).1.1)
      end
  | _ => n = O /\ fin p
  end.

(** The stream is in the call, on its CPU, with [n] accesses to make. *)
Definition in_call (n : nat) (m : mach) : Prop :=
  inv m /\ frozen m /\ exists p, stacks m e = mk_frame f (Some (want, p)) :: fs /\ leads n p.

Lemma in_call_other n m m' : in_call n m -> inv m' -> gens m' c = gens m c -> cur m' c = cur m c ->
  (forall l, l ∈ guards_of m e -> words m' l = words m l) -> stacks m' e = stacks m e -> in_call n m' /\ stacks m' e = stacks m e.
Proof using.
  intros (_ & (_ & Hcur & Hloc & Hg & Hw) & p & Hst & Hp) Hi H1 H2 H3 H4. split; [|done]. split; [done|].
  split; [|exists p; by rewrite H4]. split; [apply Hi|]. split; [congruence|]. split; [unfold locals in *; by rewrite H4|].
  split; [congruence|]. intros l Hl. rewrite H3; [by apply Hw|]. unfold guards_of. by rewrite Hloc.
Qed.

(** The call's own next access. *)
Lemma in_call_exec n m o f0 fs0 want0 T (x : access T) k r m1 f1 : in_call n m ->
  stacks m e = mk_frame f0 (Some (want0, Do x k)) :: fs0 -> perform x o c m f0 = (r, m1, f1) ->
  inv (set_stack m1 e (mk_frame f1 (Some (want0, k r)) :: fs0)) ->
  stacks (set_stack m1 e (mk_frame f1 (Some (want0, k r)) :: fs0)) e <> stacks m e /\
  exists n', n = S n' /\ in_call n' (set_stack m1 e (mk_frame f1 (Some (want0, k r)) :: fs0)).
Proof using.
  intros (Hi & Hfr & p & Hst & Hp) Hst0 Hx Hi'. rewrite Hst in Hst0. injection Hst0 as <- <- -> <-.
  split; [cbn; rewrite mupd_eq, Hst; intros [= _ E]; by apply (follows_ne x k r)|].
  destruct n as [|n]; [done|]. destruct (Hp m o Hfr) as (E1 & E2 & Hk). rewrite Hx in E1, E2, Hk. cbn in E1, E2, Hk. subst m1 f1.
  exists n. split; [done|]. split; [done|]. destruct Hfr as (_ & Hcur & Hloc & Hg & Hw).
  split; [|exists (k r); cbn; by rewrite mupd_eq]. split; [apply Hi'|]. split; [done|]. split; [|done].
  by rewrite locals_set_stack, decide_True.
Qed.

(** Another CPU's next access. *)
Lemma in_call_exec_other n m c0 o e0 f0 fs0 want0 T (x : access T) k r m1 f1 : in_call n m -> cpu_ok c0 -> cur m c0 = e0 -> e0 <> e ->
  stacks m e0 = mk_frame f0 (Some (want0, Do x k)) :: fs0 -> perform x o c0 m f0 = (r, m1, f1) ->
  inv (set_stack m1 e0 (mk_frame f1 (Some (want0, k r)) :: fs0)) ->
  in_call n (set_stack m1 e0 (mk_frame f1 (Some (want0, k r)) :: fs0)) /\
  stacks (set_stack m1 e0 (mk_frame f1 (Some (want0, k r)) :: fs0)) e = stacks m e.
Proof using.
  intros Hm Hc0 Hcur0 Hne Hst0 Hx Hi'. pose proof Hm as ([Hb Hf] & _).
  assert (forall n0, e0 <> Lost n0) as Hlost by (intros n0 ->; by apply (b_cur_lost m Hb) in Hcur0).
  pose proof (exec_req m c0 e0 f0 _ fs0 Hb Hc0 Hcur0 Hst0 x k want0 Hf Hlost eq_refl) as Hreq.
  destruct (perform_frame x o c0 e0 m f0 r m1 f1 Hx Hreq) as (Hg & Hcu & Hsk & Hl).
  apply (in_call_other _ m); [done|done|cbn; by rewrite Hg|cbn; by rewrite Hcu| |cbn; rewrite mupd_ne by done; by rewrite Hsk].
  intros l Hin. apply Hl; [|by apply (base_held m e l Hb)]. intros Hf0. apply Hne, (b_unique m Hb _ _ l); [|done].
  apply (guards_of_cons m e0 f0 (map loc fs0)); [by eapply locals_cons|by left].
Qed.

(** The call returns. *)
Lemma in_call_return n m f0 fs0 want0 b : in_call n m -> stacks m e = mk_frame f0 (Some (want0, Ret b)) :: fs0 ->
  n = O /\ fin (Ret b).
Proof using. intros (_ & _ & p & Hst & Hp) Hst0. rewrite Hst in Hst0. by injection Hst0 as <- <- -> <-. Qed.

Lemma in_call_step n m m' : in_call n m -> step m m' ->
  (in_call n m' /\ stacks m' e = stacks m e) \/
  (stacks m' e <> stacks m e /\ ((exists n', n = S n' /\ in_call n' m') \/ (n = O /\ exists b, fin (Ret b)))).
Proof using Hc Hoff He.
  intros Hm Hs. pose proof Hm as (Hi & (_ & Hcur & _) & p & Hst & Hp). pose proof (inv_step m m' Hi Hs) as Hi'.
  assert (forall c0, cpu_ok c0 -> c0 <> c -> cur m c0 <> e) as Hne
    by (intros c0 H1 H2 H3; apply H2, (cur_unique m); [apply Hi|done|done|congruence]).
  assert (forall c0, c0 <> c -> e <> Dispatch c0) as Hdis
    by (intros c0 H ->; apply H; by apply (b_cur_dispatch m (proj1 Hi)) in Hcur).
  assert (forall c0 e0, cur m c0 = e0 -> c0 = c -> e0 = e) as Heq by (intros c0 e0 H1 ->; congruence).
  destruct Hs as [c0 o e0 f0 fs0 want0 T x k r m1 f1 Hc0 Hcur0 Hst0 Hx|c0 e0 f0 fs0 want0 b Hc0 Hcur0 Hst0
    |c0 e0 f0 fs0 want0 q Hc0 Hcur0 Hst0 Hq|c0 e0 fr0 fs0 Hc0 Hcur0 Hst0 Hon|c0 e0 f0 fr0 fs0 Hc0 Hcur0 Hst0 Hg0
    |c0 e0 f0 fs0 b Hc0 Hcur0 Hst0|c0 t f0 fs0 keep moved Hc0 Hcur0 Hst0 Hoff0 Hperm Hlt|c0 f0 fs0 n0 Hc0 Hcur0 Hst0 Hoff0 Hl0 Hlt
    |c0 f0 fs0 t Hc0 Hcur0 Hst0|c0 f0 Hc0 Hcur0 Hst0 Hg0 Hno];
    destruct (decide (c0 = c)) as [Hcc|Hcc];
    try (rewrite (Heq _ _ Hcur0 Hcc), Hst in Hst0; discriminate Hst0);
    try (left; apply (in_call_other n m); try done; cbn; apply mupd_ne; rewrite <-Hcur0; apply not_eq_sym; by apply Hne).
  - right. rewrite (Heq _ _ Hcur0 Hcc) in *. subst c0.
    destruct (in_call_exec n m o f0 fs0 want0 T x k r m1 f1 Hm Hst0 Hx Hi') as [Hch ?]. split; [done|]. by left.
  - left. apply (in_call_exec_other n m c0 o e0 f0 fs0 want0 T x k r m1 f1); try done. rewrite <-Hcur0. by apply Hne.
  - right. rewrite (Heq _ _ Hcur0 Hcc) in *. destruct (in_call_return n m f0 fs0 want0 b Hm Hst0) as [-> Hb].
    split; [cbn; rewrite mupd_eq, Hst0; by intros [=]|]. right. eauto.
  - rewrite (Heq _ _ Hcur0 Hcc), Hst in Hst0. injection Hst0 as <- <-. cbn in Hon. congruence.
  - left. pose proof (Hne c0 Hc0 Hcc). apply (in_call_other n m); try done; cbn; rewrite ?mupd_ne; try done; try congruence. by apply Hdis.
  - left. apply (in_call_other n m); try done; cbn; rewrite ?mupd_ne; try done; by apply Hdis.
  - left. apply (in_call_other n m); try done; cbn; rewrite ?mupd_ne; try done; by apply Hdis.
Qed.

(** A run, with the number of steps the stream itself has made in it. *)
Inductive turns : nat -> mach -> mach -> Prop :=
| turns_refl m : turns 0 m m
| turns_other k m m' m'' : turns k m m' -> step m' m'' -> stacks m'' e = stacks m' e -> turns k m m''
| turns_mine k m m' m'' : turns k m m' -> step m' m'' -> stacks m'' e <> stacks m' e -> turns (S k) m m''.

Lemma in_call_turns n k m m' : in_call n m -> turns k m m' ->
  (exists n', (n' + k = n)%nat /\ in_call n' m') \/ ((n < k)%nat /\ exists b, fin (Ret b)).
Proof using Hc Hoff He.
  intros Hm Ht. induction Ht as [m|k m m' m'' _ IH Hs E|k m m' m'' _ IH Hs E].
  - left. exists n. split; [lia|done].
  - destruct (IH Hm) as [(n1 & Hn & H1)|?]; [|by right]. destruct (in_call_step n1 m' m'' H1 Hs) as [[H2 _]|[H2 _]]; [|done].
    left. by exists n1.
  - destruct (IH Hm) as [(n1 & Hn & H1)|[? ?]]; [|right; split; [lia|done]].
    destruct (in_call_step n1 m' m'' H1 Hs) as [[_ H2]|[_ [(n2 & -> & H2)|[-> Hb]]]]; [done| |right; split; [lia|done]].
    left. exists n2. split; [lia|done].
Qed.

(** Until the end the call has an access it can make at once. *)
Lemma in_call_now n m : in_call n m -> exists p, stacks m e = mk_frame f (Some (want, p)) :: fs /\
  ((n = O /\ fin p) \/
   ((0 < n)%nat /\ exists T (x : access T) q m', p = Do x q /\ step m m' /\ stacks m' e <> stacks m e)).
Proof using Hc.
  intros (Hi & Hfr & p & Hst & Hp). exists p. split; [done|]. destruct p as [b|T x q|r|]; cbn in Hp; try (by left).
  destruct n as [|n]; [done|]. right. split; [lia|]. pose (o := {| spurious := false; reading := 0 |}).
  destruct (perform x o c m f) as [[r m1] f1] eqn:Ex. exists T, x, q, (set_stack m1 e (mk_frame f1 (Some (want, q r)) :: fs)).
  split; [done|]. destruct Hfr as (_ & Hcur & _). split; [by apply (step_exec m c o e f fs want T x q r m1 f1)|].
  cbn. rewrite mupd_eq, Hst. intros [= _ E]. by apply (follows_ne x q r).
Qed.
End call.

(** ** Rule (b) *)

(** The locks there are: one of each class, or one per CPU. *)
Definition kernel_lock (l : LockId) : Prop :=
  match lk_class l with
  | CurrentThread | RunQueues => cpu_ok (lk_index l)
  | _ => lk_index l = SCALAR_INDEX
  end.

Lemma kernel_lock_listed l : kernel_lock l -> l ∈ LOCKS.
Proof.
  assert (forall n i, 0 <= i < n -> i ∈ range n) as Hr.
  { intros n i Hi. unfold range. apply list_elem_of_In, in_map_iff. exists (Z.to_nat i). split; [lia|]. apply in_seq. lia. }
  destruct l as [cl i]. unfold kernel_lock, LOCKS. cbn [lk_class lk_index]. rewrite !elem_of_app, !elem_of_cons.
  destruct cl; intros Hi; try (subst i; tauto).
  - right. left. apply list_elem_of_In, in_map, list_elem_of_In, Hr, Hi.
  - right. right. left. apply list_elem_of_In, in_map, list_elem_of_In, Hr, Hi.
Qed.

(** What the walk finds is settled when it begins: another CPU's word never
    carries the stream's stamp, and the stream's words do not change. *)
Section walk.
Context (c : Z) (f : local) (fs : list frame) (g : Z) (W : LockId -> Z) (fin : code bool -> Prop).

Definition hit (l : LockId) : bool := bool_decide (l ∈ all_guards (f :: map loc fs)) && is_stream_stamp (W l) c g.

Lemma frozen_hit m l : frozen c (Dispatch c) f fs g W m -> is_stream_stamp (words m l) c g = hit l.
Proof.
  intros (Hb & Hcur & Hloc & Hg & Hw). unfold hit. case_bool_decide as E; [by rewrite Hw|]. cbn. apply not_true_iff_false. intros H.
  apply E. rewrite <-Hg in H. destruct (stream_stamp_holder m c l Hb H) as [Hin _]. rewrite Hcur in Hin. unfold guards_of in Hin.
  by rewrite Hloc in Hin.
Qed.

Lemma any_stream_word_leads n ls found (q : bool -> code bool) :
  leads c (Dispatch c) f fs g W fin n (q (existsb hit ls || found)) ->
  leads c (Dispatch c) f fs g W fin (length ls + n) (cbind (any_stream_word ls c g found) q).
Proof.
  revert found. induction ls as [|l ls IH]; intros found Hq; [done|]. cbn. intros m o Hm. split; [done|]. split; [done|].
  rewrite (frozen_hit m l Hm). apply IH. cbn in Hq. by rewrite orb_assoc, (orb_comm _ (hit l)).
Qed.

Lemma note_restore_leads : cpu_ok c -> let b := existsb hit LOCKS in fin (Ret b) ->
  leads c (Dispatch c) f fs g W fin (2 + (length LOCKS + if b then 1 else 0)) note_restore.
Proof.
  intros Hc b Hfin. change note_restore with (Do ReadCpu (fun cpu => Do (ReadGen cpu) (fun gen =>
    cbind (any_stream_word LOCKS cpu gen false) (fun breach : bool => if breach then Do (Bump Key_Rsthold 0) (fun _ => Ret true) else Ret false)))).
  cbn [leads Nat.add]. intros m o Hm. split; [done|]. split; [done|]. intros m1 o1 Hm1. cbn [perform fst snd]. rewrite decide_True by done.
  split; [done|]. split; [done|]. destruct Hm1 as (_ & _ & _ & -> & _). apply any_stream_word_leads. fold b. rewrite orb_false_r.
  destruct b; cbn; [|done]. intros m2 o2 _. done.
Qed.
End walk.

(** C12: The check of rule (b), that dispatching code restores a thread with
    no lock held, is exact.  The dispatching code of CPU [c], with IRQs
    masked, calls [note_restore].  Then, whatever the other CPUs do
    meanwhile, the call walks the words of all 23 locks and returns a verdict
    settled when it began: true, after counting [rsthold], whenever the
    dispatching code had taken any of the kernel's locks and still held it,
    and only if it had some lock's guard.  The call makes 25 accesses, 26 with
    the count, each of which it can make at once. *)
Theorem rule_b_check_exact m c f fs : reachable m -> cpu_ok c -> cur m c = Dispatch c -> irqs f = false ->
  stacks m (Dispatch c) = mk_frame f (Some (None, note_restore)) :: fs ->
  exists b : bool,
    (b = true -> exists l, l ∈ LOCKS /\ l ∈ guards_of m (Dispatch c)) /\
    ((exists l g, kernel_lock l /\ g ∈ locals m (Dispatch c) /\ l ∈ held g) -> b = true) /\
    let n := if b then 26%nat else 25%nat in
    forall k m', turns (Dispatch c) k m m' -> (k <= n)%nat ->
    exists p, stacks m' (Dispatch c) = mk_frame f (Some (None, p)) :: fs /\
      ((k = n /\ p = Ret b) \/
       ((k < n)%nat /\ exists T (x : access T) q m'', p = Do x q /\ step m' m'' /\ stacks m'' (Dispatch c) <> stacks m' (Dispatch c))).
Proof.
  intros Hr Hc Hcur Hoff Hst. pose proof (inv_reachable m Hr) as Hi. pose proof (proj1 Hi) as Hb.
  pose proof (locals_cons m _ f _ fs Hst) as Hloc. set (b := existsb (hit c f fs (gens m c) (words m)) LOCKS).
  assert (frozen c (Dispatch c) f fs (gens m c) (words m) m) as Hfr by done.
  exists b. split; [|split].
  - intros (l & Hl & Hh)%existsb_exists. exists l. split; [by apply list_elem_of_In|]. unfold guards_of. rewrite Hloc.
    unfold hit in Hh. apply andb_true_iff in Hh as [Hh _]. by apply bool_decide_eq_true in Hh.
  - intros (l & f0 & Hk & Hin & Hl). apply existsb_exists. exists l. split; [by apply list_elem_of_In, kernel_lock_listed|].
    rewrite <-(frozen_hit c f fs _ _ m l Hfr). destruct (stamp_read _ _ _ (b_dispatch_held m Hb c f0 l Hin Hl)) as (H1 & _ & H3 & _ & H5).
    unfold is_stream_stamp. rewrite H1, H3, H5 by apply (b_gens m Hb). lia.
  - intros n k m' Ht Hk.
    destruct (in_call_turns c (Dispatch c) None f fs (gens m c) (words m) (fun p => p = Ret b) Hc Hoff ltac:(done) n k m m')
      as [(n' & Hn & Hm')|[? _]]; [|done| |lia].
    { split; [done|]. split; [done|]. exists note_restore. split; [done|].
      replace n with (2 + (length LOCKS + if b then 1 else 0))%nat by (unfold n; by destruct b). by apply note_restore_leads. }
    destruct (in_call_now c (Dispatch c) None f fs _ _ _ Hc n' m' Hm') as (p & Hp & [[? ?]|[? Hx]]); exists p; (split; [done|]).
    + left. split; [lia|done].
    + right. split; [lia|done].
Qed.

(** ** A masked re-entry is caught *)

Section caught.
Context (c : Z) (e : stream) (l : LockId) (f : local) (fs : list frame) (g : Z) (W : LockId -> Z).
Context (Hc : cpu_ok c) (Hoff : irqs f = false) (HW : is_stamp (W l) c g) (Hl : l ∈ all_guards (f :: map loc fs)).

(** The call ends in a panic with a report on the lock. *)
Definition reported (p : code bool) : Prop := exists r, p = Panicked r /\ re_id r = l.
Local Notation detects n p := (leads c e f fs g W reported n p) (only parsing).

Lemma frozen_gen m : frozen c e f fs g W m -> gens m c = g.
Proof using. by intros (_ & _ & _ & ? & _). Qed.
Lemma frozen_word m : frozen c e f fs g W m -> words m l = W l.
Proof using Hl. intros (_ & _ & _ & _ & H). by apply H. Qed.

(** A masked stream's stamp is that of its CPU's current generation. *)
Lemma whoami_detected n fuel (q : Z * Z -> code bool) : (forall tid, detects n (q (stamp_new c g false, tid))) ->
  detects (6 + n) (cbind (whoami (S fuel)) q).
Proof using Hc Hoff.
  intros Hq. cbn. intros m0 o0 _. rewrite Hoff. split; [done|]. split; [done|].
  intros m1 o1 _. split; [done|]. split; [done|].
  intros m2 o2 Hg2%frozen_gen. rewrite decide_True by done. split; [done|]. split; [done|].
  intros m3 o3 _. rewrite Z.eqb_refl. cbn. split; [done|]. split; [done|].
  intros m4 o4 _. rewrite decide_True by done. split; [done|]. split; [done|].
  intros m5 o5 Hg5%frozen_gen. rewrite decide_True by done. rewrite Hg2, Hg5, Z.eqb_refl. cbn. split; [done|]. split; [done|]. apply Hq.
Qed.

(** The verdict on a word stamped in that generation is re-entry. *)
Lemma contention_detected {A} tid noted (q : Z -> code A) (q' : A -> code bool) :
  detects 6 (cbind (cbind (note_contention l (stamp_new c g false) tid (W l) noted) q) q').
Proof using Hc HW Hl.
  destruct (stamp_read _ _ _ HW) as (HW1 & HW2 & HW3 & _ & HW5). assert (0 <= g < 2 ^ 54) as Hg by apply HW.
  destruct (stamp_read (stamp_new c g false) c g) as (_ & _ & Hme1 & _ & Hme2); [by apply is_stamp_new|].
  unfold note_contention, classify. rewrite HW1. cbn. intros m0 o0 Hg0%frozen_gen. rewrite HW3, decide_True by done.
  rewrite Hg0, HW5, Hme1, Hme2, !Z.eqb_refl by done. cbn. split; [done|]. split; [done|].
  intros m1 o1 Hw1%frozen_word. rewrite Hw1, HW1. cbn. split; [done|]. split; [done|].
  intros m2 o2 _. split; [done|]. split; [done|].
  intros m3 o3 _. split; [done|]. split; [done|].
  intros m4 o4 Hw4%frozen_word. rewrite Hw4, Z.eqb_refl. cbn. split; [done|]. split; [done|].
  intros m5 o5 _. split; [done|]. split; [done|]. split; [done|]. by eexists.
Qed.

Lemma lock_detected fuel site : detects 15 (lock (S fuel) l site).
Proof using Hc Hoff HW Hl.
  destruct (stamp_read _ _ _ HW) as (_ & HW2 & _). unfold lock. apply (whoami_detected 9). intros tid.
  cbn [leads perform fst snd]. intros m0 o0 Hw0%frozen_word. rewrite Hw0. destruct (Z.eqb_spec (W l) 0) as [?|_]; [done|]. cbn [andb fst snd].
  split; [done|]. split; [done|]. unfold lock_contended. cbn [leads perform fst snd]. intros m1 o1 _. split; [done|]. split; [done|].
  cbn [contended_loop leads perform fst snd]. intros m2 o2 Hw2%frozen_word. split; [done|]. split; [done|]. rewrite Hw2.
  destruct (Z.eqb_spec (W l) 0) as [?|_]; [done|]. apply contention_detected.
Qed.

End caught.

(** C11: A re-entry with IRQs masked is always caught.  A stream calls [lock]
    with IRQs masked on a lock whose word carries its CPU's current
    generation.  Then, whatever the other CPUs do meanwhile, the call never
    returns and never spins: it makes at most 15 accesses, each of which it
    can make at once, and after those it has panicked with a report naming
    that lock. *)
Theorem masked_reentry_caught m c e l f fs fuel site k m' :
  reachable m -> cpu_ok c -> cur m c = e -> irqs f = false ->
  stacks m e = mk_frame f (Some (Some l, lock (S fuel) l site)) :: fs ->
  is_stream_stamp (words m l) c (gens m c) = true -> turns e k m m' ->
  (k <= 15)%nat /\
  exists p, stacks m' e = mk_frame f (Some (Some l, p)) :: fs /\
    ((exists r, p = Panicked r /\ re_id r = l) \/
     ((k < 15)%nat /\ exists T (x : access T) q m'', p = Do x q /\ step m' m'' /\ stacks m'' e <> stacks m' e)).
Proof.
  intros Hr Hc Hcur Hoff Hst Hw Ht. pose proof (inv_reachable m Hr) as Hi. destruct (stream_stamp_holder m c l (proj1 Hi) Hw) as [Hin Hs].
  assert (forall n, e <> Lost n) as He by (intros n ->; by apply (b_cur_lost m (proj1 Hi)) in Hcur).
  pose proof (locals_cons m _ f _ fs Hst) as Hloc. rewrite Hcur in Hin. unfold guards_of in Hin. rewrite Hloc in Hin.
  destruct (in_call_turns c e (Some l) f fs (gens m c) (words m) (reported l) Hc Hoff He 15 k m m')
    as [(n & Hn & Hm')|(_ & b & r & E & _)]; [|done| |done].
  { split; [done|]. split; [by split; [apply Hi|]|]. exists (lock (S fuel) l site). split; [done|]. by apply lock_detected. }
  split; [lia|]. destruct (in_call_now c e (Some l) f fs _ _ _ Hc n m' Hm') as (p & Hp & [[_ ?]|[? Hx]]); exists p; (split; [done|]).
  - by left.
  - right. split; [lia|done].
Qed.

(** ** A run *)

(** The next access, or return, of the frame CPU [c] runs. *)
Definition advance (c : Z) (m : mach) : option mach :=
  match stacks m (cur m c) with
  | mk_frame f (Some (want, Do x k)) :: fs =>
      let '(r, m1, f1) := perform x {| spurious := false; reading := 0 |} c m f in
      Some (set_stack m1 (cur m c) (mk_frame f1 (Some (want, k r)) :: fs))
  | mk_frame f (Some (want, Ret b)) :: fs => Some (set_stack m (cur m c) (mk_frame f None :: fs))
  | _ => None
  end.

Fixpoint advances (n : nat) (c : Z) (m : mach) : mach :=
  match n with
  | O => m
  | S n' => match advance c m with Some m' => advances n' c m' | None => m end
  end.

Lemma advances_rtc n c m : cpu_ok c -> rtc step m (advances n c m).
Proof.
  intros Hc. revert m. induction n as [|n IH]; intros m; cbn; [done|]. destruct (advance c m) as [m'|] eqn:E; [|done].
  apply (rtc_l _ _ m'); [|apply IH]. unfold advance in E. destruct (stacks m (cur m c)) as [|[f [[want p]|]] fs] eqn:Est; try done.
  destruct p as [b|T x k|r|]; try done; [injection E as <-; by eapply (step_return m c)|].
  destruct (perform x _ c m f) as [[r m1] f1] eqn:Ex. injection E as <-. by eapply (step_exec m c).
Qed.

Definition calls (l : LockId) (m : mach) : mach :=
  match stacks m (cur m 0) with
  | mk_frame f _ :: fs => set_stack m (cur m 0) (mk_frame f (Some (Some l, lock 1 l 0)) :: fs)
  | [] => m
  end.

Lemma calls_rtc l m f fs : l ∈ LOCKS -> stacks m (cur m 0) = mk_frame f None :: fs -> rtc step m (calls l m).
Proof.
  intros Hl Hst. apply rtc_once. unfold calls. rewrite Hst. eapply (step_call m 0); [done|done|done|]. left. exists 1%nat, l, 0. tauto.
Qed.

(** CPU 0 boots masked, takes the thread table's lock, and takes it again. *)
Definition demo_lock : LockId := mk_lock ThreadTable SCALAR_INDEX.
Definition demo_taken : mach := advances 13 0 (calls demo_lock (boot_mach false)).
Definition demo_held : mach := advances 1 0 demo_taken.
Definition demo_again : mach := calls demo_lock demo_held.
Definition demo_panicked : mach := advances 15 0 demo_again.

Lemma demo_lock_listed : demo_lock ∈ LOCKS.
Proof. by left. Qed.

Lemma demo_taken_rtc : rtc step (boot_mach false) demo_taken.
Proof. etrans; [eapply calls_rtc; [apply demo_lock_listed|done]|by apply advances_rtc]. Qed.

Lemma demo_held_rtc : rtc step (boot_mach false) demo_held.
Proof. etrans; [apply demo_taken_rtc|by apply advances_rtc]. Qed.

Lemma demo_again_rtc : rtc step (boot_mach false) demo_again.
Proof. etrans; [apply demo_held_rtc|]. eapply calls_rtc; [apply demo_lock_listed|]. vm_compute. done. Qed.

Lemma demo_panicked_rtc : rtc step (boot_mach false) demo_panicked.
Proof. etrans; [apply demo_again_rtc|by apply advances_rtc]. Qed.

Lemma lock_excludes_witness : exists f, stacks demo_taken (Dispatch 0) !! 0%nat = Some (mk_frame f (Some (Some demo_lock, Ret true))) /\
  demo_lock ∈ held f.
Proof.
  eexists. split; [vm_compute; reflexivity|].
  apply (proj1 (lock_excludes demo_taken (ex_intro _ false demo_taken_rtc)) (Dispatch 0) 0%nat _ demo_lock); [done|].
  vm_compute. reflexivity.
Defined.

Definition demo_report : Reentered := Eval vm_compute in
  match stacks demo_panicked (Dispatch 0) with
  | mk_frame _ (Some (_, Panicked r)) :: _ => r
  | _ => {| re_id := demo_lock; re_me := 0; re_observed := 0; re_tid := 0; re_site := 0; re_irq_ctx := 0 |}
  end.

Lemma reentry_verdict_sound_witness :
  stacks demo_panicked (Dispatch 0) !! 0%nat = Some (mk_frame (mk_local false [demo_lock] []) (Some (Some demo_lock, Panicked demo_report))) /\
  words demo_panicked (re_id demo_report) = re_observed demo_report.
Proof.
  assert (stacks demo_panicked (Dispatch 0) !! 0%nat =
    Some (mk_frame (mk_local false [demo_lock] []) (Some (Some demo_lock, Panicked demo_report)))) as H by (vm_compute; reflexivity).
  split; [exact H|].
  exact (proj1 (proj2 (reentry_verdict_sound demo_panicked (Dispatch 0) 0 (mk_local false [demo_lock] []) (Some demo_lock) demo_report
    (ex_intro _ false demo_panicked_rtc) (fun n E => match E with eq_refl => I end) H))).
Defined.

(** The masked dispatching code of CPU 0 checks itself with the thread
    table's lock taken. *)
Definition demo_check : mach := set_stack demo_held (Dispatch 0) [mk_frame (mk_local false [demo_lock] []) (Some (None, note_restore))].

Lemma demo_check_rtc : rtc step (boot_mach false) demo_check.
Proof.
  etrans; [apply demo_held_rtc|]. apply rtc_once. eapply (step_call demo_held 0 (Dispatch 0) (mk_local false [demo_lock] []) [] None note_restore).
  - done.
  - vm_compute. reflexivity.
  - vm_compute. reflexivity.
  - right. right. done.
Qed.

Lemma rule_b_check_exact_witness : exists p,
  stacks demo_check (Dispatch 0) = [mk_frame (mk_local false [demo_lock] []) (Some (None, p))] /\ p <> Ret false.
Proof.
  assert (cur demo_check 0 = Dispatch 0) as Hc by (vm_compute; reflexivity).
  assert (stacks demo_check (Dispatch 0) = [mk_frame (mk_local false [demo_lock] []) (Some (None, note_restore))]) as Hst by apply mupd_eq.
  assert (cpu_ok 0) as H0 by (unfold cpu_ok, MAX_CORES; lia).
  destruct (rule_b_check_exact demo_check 0 (mk_local false [demo_lock] []) [] (ex_intro _ false demo_check_rtc) H0 Hc eq_refl Hst)
    as (b & _ & Hb & Hrun).
  assert (b = true) as ->.
  { apply Hb. exists demo_lock, (mk_local false [demo_lock] []). split; [reflexivity|]. unfold locals. rewrite Hst. split; by left. }
  destruct (Hrun 0%nat demo_check (turns_refl (Dispatch 0) demo_check) ltac:(lia)) as (p & Hp & Hor).
  exists p. split; [exact Hp|]. intros ->. destruct Hor as [[E _]|(_ & T & x & q & m'' & E & _)]; discriminate E.
Defined.

Lemma demo_again_stack : cur demo_again 0 = Dispatch 0 /\ words demo_again = words demo_held /\ gens demo_again = gens demo_held /\
  stacks demo_again (Dispatch 0) = [mk_frame (mk_local false [demo_lock] []) (Some (Some demo_lock, lock 1 demo_lock 0))].
Proof.
  assert (stacks demo_held (cur demo_held 0) = [mk_frame (mk_local false [demo_lock] []) None]) as H by (vm_compute; reflexivity).
  assert (cur demo_held 0 = Dispatch 0) as Hc by (vm_compute; reflexivity).
  unfold demo_again, calls. rewrite H. cbn [cur words gens stacks set_stack]. rewrite Hc. split_and!; [done..|]. apply mupd_eq.
Qed.

Lemma masked_reentry_caught_witness : exists p, stacks demo_again (Dispatch 0) = [mk_frame (mk_local false [demo_lock] []) (Some (Some demo_lock, p))] /\
  p <> Ret true.
Proof.
  destruct demo_again_stack as (Hc & Hw & Hg & Hst).
  assert (is_stream_stamp (words demo_again demo_lock) 0 (gens demo_again 0) = true) as H by (rewrite Hw, Hg; vm_compute; reflexivity).
  assert (cpu_ok 0) as H0 by (unfold cpu_ok, MAX_CORES; lia).
  destruct (masked_reentry_caught demo_again 0 (Dispatch 0) demo_lock (mk_local false [demo_lock] []) [] 0 0 0 demo_again
    (ex_intro _ false demo_again_rtc) H0 Hc eq_refl Hst H (turns_refl (Dispatch 0) demo_again)) as (_ & p & Hp & Hor).
  exists p. split; [exact Hp|]. intros ->. destruct Hor as [(r & E & _)|(_ & T & x & q & m'' & E & _)]; discriminate E.
Defined.
