(* ===== verification/Slab.v ===== *)
(** * The kernel heap (kernel/src/mm/slab.rs, bump.rs, heap.rs, mod.rs)

    Five caches of fixed-size objects over pages from the page allocators,
    each with a two-round magazine in front of a free list threaded through
    the free slots, and red zones around the objects of the small caches.
    A virtual address is a physical one (identity map) or a physical one
    plus [DIRECT_MAP_BASE]; both lead to the same byte.  The identity map is
    in the boot table of TTBR0, and gone on a CPU that has switched to a user
    address space: an operation runs with it or without it ([id]).  Code that
    would panic (a failed debug assertion, an overflow) or take a data abort
    is [None]. *)

From S2P Require Import Prelude PhysMem Memory Buddy.

Definition CACHE_SIZES : list Z := [64; 128; 256; 512; 4096].
Definition RED_ZONE_SIZE : Z := 8.
Definition RED_ZONE_PATTERN : Z := 0xFEFEFEFEFEFEFEFE.
Definition MAGAZINE_SIZE : Z := 32.
Definition DIRECT_MAP_BASE : Z := 0xFFFF000100000000.

Record Layout := mk_layout { l_size : Z; l_align : Z }.

(** ** Pages

    What the heap asks of the page allocators: a page for a cache
    ([frame::alloc_page().or_else(buddy::alloc_page)]), a block for a large
    allocation, and its release; the memory is theirs. *)
Class PageSource (S : Type) := {
  src_mem : S -> mem;
  src_set : S -> mem -> S;
  src_alloc_page : S -> option Z * S;
  src_alloc_pages : S -> nat -> option Z * S;
  src_free_pages : S -> Z -> nat -> option S
}.

Definition phys_to_virt (direct : bool) (phys : Z) : Z := if direct then DIRECT_MAP_BASE + phys else phys.
Definition virt_to_phys (direct : bool) (virt : Z) : option Z :=
  if direct then (if virt >=? DIRECT_MAP_BASE then Some (virt - DIRECT_MAP_BASE) else None) else Some virt.

(** The physical byte behind a virtual address. *)
Definition pa (v : Z) : Z := if v >=? DIRECT_MAP_BASE then v - DIRECT_MAP_BASE else v.
Definition peek (m : mem) (v : Z) : Z := load64 m (pa v).
Definition poke (m : mem) (v w : Z) : mem := store64 m (pa v) w.

(** The address is mapped on a CPU with or without the identity map. *)
Definition reach (id : bool) (v : Z) : bool := id || (v >=? DIRECT_MAP_BASE).
Definition read64 (id : bool) (m : mem) (v : Z) : option Z := if reach id v then Some (peek m v) else None.
Definition write64 (id : bool) (m : mem) (v w : Z) : option mem := if reach id v then Some (poke m v w) else None.

(** ** Magazines *)

Record MagazineRound := mk_round { objects : list Z; mcount : Z }.

Definition round_new : MagazineRound := mk_round (array_of MAGAZINE_SIZE 0) 0.

Definition round_pop (r : MagazineRound) : option Z * MagazineRound :=
  if mcount r =? 0 then (None, r)
  else ((objects r).[mcount r - 1], mk_round (objects r) (mcount r - 1)).

Definition round_push (r : MagazineRound) (ptr : Z) : bool * MagazineRound :=
  if mcount r >=? MAGAZINE_SIZE then (false, r)
  else (true, mk_round ((objects r).[mcount r <- ptr]) (mcount r + 1)).

Fixpoint add_offsets (offset : Z) (l : list Z) : option (list Z) :=
  match l with
  | [] => Some []
  | a :: l' =>
      a' ← (if a =? 0 then Some a else checked_add 64 a offset);
      l'' ← add_offsets offset l';
      Some (a' :: l'')
  end.

Definition convert_addrs (r : MagazineRound) (offset : Z) : option MagazineRound :=
  let n := Z.to_nat (mcount r) in
  l ← add_offsets offset (take n (objects r));
  Some (mk_round (l ++ drop n (objects r)) (mcount r)).

(** ** A cache *)

Record SlabCache := mk_cache {
  object_size : Z; alloc_size : Z; free_head : Z; pages_used : Z;
  current : MagazineRound; prev : MagazineRound
}.

Definition cache_new (size : Z) : SlabCache :=
  let red_zone := if size <? PAGE_SIZE then RED_ZONE_SIZE else 0 in
  mk_cache size (size + 2 * red_zone) 0 0 round_new round_new.

Definition set_head (c : SlabCache) (h : Z) : SlabCache :=
  mk_cache (object_size c) (alloc_size c) h (pages_used c) (current c) (prev c).
Definition set_current (c : SlabCache) (r : MagazineRound) : SlabCache :=
  mk_cache (object_size c) (alloc_size c) (free_head c) (pages_used c) r (prev c).
Definition set_rounds (c : SlabCache) (r1 r2 : MagazineRound) : SlabCache :=
  mk_cache (object_size c) (alloc_size c) (free_head c) (pages_used c) r1 r2.
Definition add_page (c : SlabCache) : SlabCache :=
  mk_cache (object_size c) (alloc_size c) (free_head c) (pages_used c + 1) (current c) (prev c).

Definition has_red_zones (c : SlabCache) : bool := alloc_size c >? object_size c.
Definition red_zone_offset (c : SlabCache) : Z := if has_red_zones c then RED_ZONE_SIZE else 0.

Definition fill_red_zones (id : bool) (c : SlabCache) (m : mem) (slot_addr : Z) : option mem :=
  m1 ← write64 id m slot_addr RED_ZONE_PATTERN;
  write64 id m1 (slot_addr + RED_ZONE_SIZE + object_size c) RED_ZONE_PATTERN.

(** Whether it reported damage. *)
Definition check_red_zones (id : bool) (c : SlabCache) (m : mem) (user_ptr : Z) : option bool :=
  leading ← read64 id m (user_ptr - RED_ZONE_SIZE);
  trailing ← read64 id m (user_ptr + object_size c);
  Some (negb (leading =? RED_ZONE_PATTERN) || negb (trailing =? RED_ZONE_PATTERN)).

(** The loop of [refill_magazine], at most [n] slots; how many were taken. *)
Fixpoint refill_loop (id : bool) (n : nat) (c : SlabCache) (m : mem) : option (Z * SlabCache * mem) :=
  match n with
  | O => Some (0, c, m)
  | S n' =>
      if free_head c =? 0 then Some (0, c, m)
      else
        let slot_addr := free_head c in
        next ← read64 id m slot_addr;
        let c1 := set_head c next in
        let user_ptr := slot_addr + red_zone_offset c in
        m1 ← (if has_red_zones c then fill_red_zones id c m slot_addr else Some m);
        let '(ok, r) := round_push (current c1) user_ptr in
        if ok then
          '(k, c2, m2) ← refill_loop id n' (set_current c1 r) m1;
          Some (k + 1, c2, m2)
        else None
  end.

(** The slots [i < n] of a page, pushed from the last one down. *)
Fixpoint carve (id : bool) (n : nat) (page_addr : Z) (c : SlabCache) (m : mem) : option (SlabCache * mem) :=
  match n with
  | O => Some (c, m)
  | S i =>
      let slot_addr := page_addr + Z.of_nat i * alloc_size c in
      m1 ← write64 id m slot_addr (free_head c);
      carve id i page_addr (set_head c slot_addr) m1
  end.

Section source.
Context {S : Type} `{PageSource S}.

Definition grow (id direct : bool) (c : SlabCache) (s : S) : option (SlabCache * S) :=
  let '(page, s1) := src_alloc_page s in
  match page with
  | None => Some (c, s1)
  | Some phys_addr =>
      let page_addr := phys_to_virt direct phys_addr in
      let count := Z.to_nat (PAGE_SIZE / alloc_size c) in
      '(c1, m1) ← carve id count page_addr (add_page c) (src_mem s1);
      Some (c1, src_set s1 m1)
  end.

Definition refill_magazine (id direct : bool) (c : SlabCache) (s : S) : option (SlabCache * S) :=
  let n := Z.to_nat MAGAZINE_SIZE in
  '(refilled, c1, m1) ← refill_loop id n c (src_mem s);
  let s1 := src_set s m1 in
  if refilled =? 0 then
    '(c2, s2) ← grow id direct c1 s1;
    '(_, c3, m3) ← refill_loop id n c2 (src_mem s2);
    Some (c3, src_set s2 m3)
  else Some (c1, s1).

(** [SlabCache::alloc]; a null pointer is 0. *)
Definition cache_alloc (id direct : bool) (c : SlabCache) (s : S) : option (Z * SlabCache * S) :=
  match round_pop (current c) with
  | (Some ptr, r) => Some (ptr, set_current c r, s)
  | (None, _) =>
      let c1 := set_rounds c (prev c) (current c) in
      match round_pop (current c1) with
      | (Some ptr, r) => Some (ptr, set_current c1 r, s)
      | (None, _) =>
          '(c2, s2) ← refill_magazine id direct c1 s;
          match round_pop (current c2) with
          | (Some ptr, r) => Some (ptr, set_current c2 r, s2)
          | (None, _) => Some (0, c2, s2)
          end
      end
  end.

(** [while let Some(..) = current.pop()]: a round has at most
    [MAGAZINE_SIZE] entries. *)
Fixpoint flush_loop (id : bool) (n : nat) (c : SlabCache) (m : mem) : option (SlabCache * mem) :=
  match n with
  | O => Some (c, m)
  | Datatypes.S n' =>
      match round_pop (current c) with
      | (None, _) => Some (c, m)
      | (Some user_ptr, r) =>
          let slot_addr := user_ptr - red_zone_offset c in
          m1 ← write64 id m slot_addr (free_head c);
          flush_loop id n' (set_head (set_current c r) slot_addr) m1
      end
  end.
Definition flush_magazine_to_freelist (id : bool) (c : SlabCache) (m : mem) : option (SlabCache * mem) :=
  flush_loop id (Z.to_nat MAGAZINE_SIZE + 1) c m.

(** [SlabCache::dealloc]; whether it reported a damaged red zone. *)
Definition cache_dealloc (id : bool) (c : SlabCache) (s : S) (ptr : Z) : option (bool * SlabCache * S) :=
  warned ← (if has_red_zones c then check_red_zones id c (src_mem s) ptr else Some false);
  match round_push (current c) ptr with
  | (true, r) => Some (warned, set_current c r, s)
  | (false, _) =>
      let c1 := set_rounds c (prev c) (current c) in
      match round_push (current c1) ptr with
      | (true, r) => Some (warned, set_current c1 r, s)
      | (false, _) =>
          '(c2, m2) ← flush_magazine_to_freelist id c1 (src_mem s);
          match round_push (current c2) ptr with
          | (true, r) => Some (warned, set_current c2 r, src_set s m2)
          | (false, _) => None
          end
      end
  end.

(** ** Switching to the direct map *)

(** The walk from node [cur]: each stored next pointer is converted. *)
Fixpoint convert_chain (id : bool) (fuel : nat) (offset cur : Z) (m : mem) : option mem :=
  match fuel with
  | O => None
  | Datatypes.S fuel' =>
      next_phys ← read64 id m cur;
      if next_phys =? 0 then Some m
      else
        next_virt ← checked_add 64 next_phys offset;
        m1 ← write64 id m cur next_virt;
        convert_chain id fuel' offset next_virt m1
  end.

(** A free list has at most the slots of the cache's pages. *)
Definition chain_fuel (c : SlabCache) : nat := Z.to_nat (pages_used c * (PAGE_SIZE / alloc_size c) + 1).

Definition cache_convert (id : bool) (c : SlabCache) (offset : Z) (m : mem) : option (SlabCache * mem) :=
  r1 ← convert_addrs (current c) offset;
  r2 ← convert_addrs (prev c) offset;
  let c1 := set_rounds c r1 r2 in
  if free_head c =? 0 then Some (c1, m)
  else
    h ← checked_add 64 (free_head c) offset;
    m' ← convert_chain id (chain_fuel c) offset h m;
    Some (set_head c1 h, m').

Fixpoint caches_convert (id : bool) (cs : list SlabCache) (offset : Z) (m : mem) : option (list SlabCache * mem) :=
  match cs with
  | [] => Some ([], m)
  | c :: cs' =>
      '(c', m1) ← cache_convert id c offset m;
      '(cs'', m2) ← caches_convert id cs' offset m1;
      Some (c' :: cs'', m2)
  end.

(** ** The heap *)

Record heap := mk_heap { caches : list SlabCache; direct : bool; src : S }.

Definition heap_new (s : S) : heap := mk_heap (map cache_new CACHE_SIZES) false s.

(** [buddy::enable_direct_map] and [slab::convert_to_direct_map], as boot
    calls them. *)
Definition convert_to_direct_map (id : bool) (h : heap) : option heap :=
  '(cs, m) ← caches_convert id (caches h) DIRECT_MAP_BASE (src_mem (src h));
  Some (mk_heap cs true (src_set (src h) m)).

Definition effective_size (l : Layout) : Z := Z.max (l_size l) (l_align l).
Definition cache_index (l : Layout) : option nat := position (fun s => s >=? effective_size l) CACHE_SIZES.

(** [pages.next_power_of_two().trailing_zeros()] *)
Definition page_order (l : Layout) : nat := Z.to_nat (Z.log2_up (div_ceil (effective_size l) PAGE_SIZE)).

Definition alloc (id : bool) (h : heap) (l : Layout) : option (Z * heap) :=
  if effective_size l >? PAGE_SIZE then
    let '(addr, s) := src_alloc_pages (src h) (page_order l) in
    Some (match addr with Some a => phys_to_virt (direct h) a | None => 0 end, mk_heap (caches h) (direct h) s)
  else
    match cache_index l with
    | None => Some (0, h)
    | Some idx =>
        c ← caches h !! idx;
        size ← CACHE_SIZES !! idx;
        if (l_align l <=? RED_ZONE_SIZE) || (size =? PAGE_SIZE) then
          '(ptr, c', s) ← cache_alloc id (direct h) c (src h);
          Some (ptr, mk_heap (<[idx := c']> (caches h)) (direct h) s)
        else None
    end.

Definition dealloc (id : bool) (h : heap) (ptr : Z) (l : Layout) : option (bool * heap) :=
  if ptr =? 0 then Some (false, h)
  else if effective_size l >? PAGE_SIZE then
    phys_addr ← virt_to_phys (direct h) ptr;
    s ← src_free_pages (src h) phys_addr (page_order l);
    Some (false, mk_heap (caches h) (direct h) s)
  else
    match cache_index l with
    | None => Some (false, h)
    | Some idx =>
        c ← caches h !! idx;
        '(warned, c', s) ← cache_dealloc id c (src h) ptr;
        Some (warned, mk_heap (<[idx := c']> (caches h)) (direct h) s)
    end.

(** ** The typed heap and the global allocator *)

(** [kalloc], [kalloc_layout]: out of memory panics. *)
Definition kalloc (id : bool) (h : heap) (l : Layout) : option (Z * heap) :=
  '(ptr, h') ← alloc id h l;
  if ptr =? 0 then None else Some (ptr, h').
Definition kfree (id : bool) (h : heap) (ptr : Z) (l : Layout) : option (bool * heap) := dealloc id h ptr l.
End source.
Arguments heap : clear implicits.

(** ** The bump allocator of early boot *)

Definition BUMP_SIZE : Z := 128 * 1024.

(** [bump::alloc] from offset [current]: the pointer and the new offset.
    [base] is the address of the buffer. *)
Definition bump_alloc (base current : Z) (l : Layout) : option (Z * Z) :=
  a ← checked_add 64 (base + current) (l_align l);
  let aligned := Z.land (a - 1) (unot 64 (l_align l - 1)) in
  let offset := aligned - base in
  new_offset ← checked_add 64 offset (l_size l);
  if new_offset >? BUMP_SIZE then Some (0, current) else Some (aligned, new_offset).

(** [KernelAllocator]: bump until [enable_slab_allocator], then slab. *)
Record kalloc_state (S : Type) := mk_kalloc { slab_ready : bool; bump_offset : Z; the_heap : heap S }.
Arguments mk_kalloc {S} _ _ _.
Arguments slab_ready {S} _.
Arguments bump_offset {S} _.
Arguments the_heap {S} _.

Definition global_alloc {S} `{PageSource S} (id : bool) (base : Z) (k : kalloc_state S) (l : Layout) : option (Z * kalloc_state S) :=
  if slab_ready k then
    '(ptr, h) ← alloc id (the_heap k) l;
    Some (ptr, mk_kalloc true (bump_offset k) h)
  else
    '(ptr, o) ← bump_alloc base (bump_offset k) l;
    Some (ptr, mk_kalloc false o (the_heap k)).

Definition global_dealloc {S} `{PageSource S} (id : bool) (k : kalloc_state S) (ptr : Z) (l : Layout) : option (bool * kalloc_state S) :=
  if slab_ready k then
    '(warned, h) ← dealloc id (the_heap k) ptr l;
    Some (warned, mk_kalloc true (bump_offset k) h)
  else Some (false, k).

Definition enable_slab_allocator {S} (k : kalloc_state S) : kalloc_state S := mk_kalloc true (bump_offset k) (the_heap k).
