(* ===== verification/SlabInv.v ===== *)
(** * The heap's representation invariant

    A cache's slots are its free list, its magazines and the objects its
    clients hold, each slot once; free slots are linked through their first
    word, and the red zones of all others hold the pattern. *)

From S2P Require Import Prelude PhysMem Memory Buddy BuddyInv BuddySystem Slab.

(** Physical memory ends below this; so direct-map addresses fit in 64 bits. *)
Definition PHYS_MAX : Z := 2 ^ 47.

(** ** Addresses *)

(** Whether the heap hands out direct-map addresses, and whether it may keep
    identity addresses in its lists. *)
Record maps := mk_maps { dmap : bool; idmap : bool }.

(** Before the switch to the direct map, and right after it. *)
Definition early : maps := mk_maps false true.
Definition late : maps := mk_maps true false.

(** An address the heap has handed out. *)
Definition addr_ok (d : maps) (v : Z) : Prop :=
  0 < v < PHYS_MAX \/ (dmap d = true /\ DIRECT_MAP_BASE < v < DIRECT_MAP_BASE + PHYS_MAX).

(** An address it may keep. *)
Definition reachable (d : maps) (v : Z) : Prop := reach (idmap d) v = true.

Lemma reachable_cases d v : reachable d v <-> idmap d = true \/ DIRECT_MAP_BASE <= v.
Proof. unfold reachable, reach. rewrite orb_true_iff. destruct (Z.geb_spec v DIRECT_MAP_BASE); naive_solver lia. Qed.
Lemma reachable_add d v n : 0 <= n -> reachable d v -> reachable d (v + n).
Proof. rewrite !reachable_cases. intros Hn [?|?]; [by left|right; lia]. Qed.
Lemma read_reachable d m v : reachable d v -> read64 (idmap d) m v = Some (peek m v).
Proof. unfold reachable, read64. by intros ->. Qed.
Lemma write_reachable d m v w : reachable d v -> write64 (idmap d) m v w = Some (poke m v w).
Proof. unfold reachable, write64. by intros ->. Qed.

Lemma pa_low v : v < DIRECT_MAP_BASE -> pa v = v.
Proof. intros H. unfold pa. by destruct (Z.geb_spec v DIRECT_MAP_BASE); [lia|]. Qed.
Lemma pa_high v : DIRECT_MAP_BASE <= v -> pa v = v - DIRECT_MAP_BASE.
Proof. intros H. unfold pa. by destruct (Z.geb_spec v DIRECT_MAP_BASE); [|lia]. Qed.

(** Both cases of [addr_ok], with the translation known. *)
Lemma addr_cases d v : addr_ok d v ->
  (pa v = v /\ 0 < v < PHYS_MAX) \/ (pa v = v - DIRECT_MAP_BASE /\ dmap d = true /\ DIRECT_MAP_BASE < v < DIRECT_MAP_BASE + PHYS_MAX).
Proof.
  intros [H|[Hd H]]; [left|right]; (split; [|done]); [apply pa_low|apply pa_high; lia]. unfold PHYS_MAX, DIRECT_MAP_BASE in *. lia.
Qed.

Lemma max_below : PHYS_MAX < DIRECT_MAP_BASE /\ DIRECT_MAP_BASE + PHYS_MAX < 2 ^ 64.
Proof. done. Qed.

Lemma pa_range d v : addr_ok d v -> 0 < pa v < PHYS_MAX.
Proof. intros [[-> H]|(-> & _ & H)]%addr_cases; lia. Qed.
Lemma reachable_sub d v n : addr_ok d v -> 0 <= n < pa v -> reachable d v -> reachable d (v - n).
Proof. pose proof max_below. rewrite !reachable_cases. intros [[-> H0]|(-> & _ & H0)]%addr_cases Hn [?|?]; [by left|lia|by left|right; lia]. Qed.
Lemma pa_add d v n : addr_ok d v -> 0 <= n -> pa v + n < PHYS_MAX -> pa (v + n) = pa v + n /\ addr_ok d (v + n).
Proof.
  pose proof max_below. intros [[-> Hv]|(-> & Hd & Hv)]%addr_cases Hn Hp.
  - rewrite pa_low by lia. split; [done|]. left. lia.
  - rewrite pa_high by lia. split; [lia|]. right. split; [done|lia].
Qed.
Lemma pa_sub d v n : addr_ok d v -> 0 <= n < pa v -> pa (v - n) = pa v - n /\ addr_ok d (v - n).
Proof.
  pose proof max_below. intros [[-> Hv]|(-> & Hd & Hv)]%addr_cases Hn.
  - rewrite pa_low by lia. split; [done|]. left. lia.
  - rewrite pa_high by lia. split; [lia|]. right. split; [done|lia].
Qed.
Lemma addr_64 d v : addr_ok d v -> 0 < v < 2 ^ 64.
Proof. pose proof max_below. unfold addr_ok. lia. Qed.
Lemma addr_weaken d d' v : (dmap d = true -> dmap d' = true) -> addr_ok d v -> addr_ok d' v.
Proof. unfold addr_ok. naive_solver. Qed.
Lemma pa_direct v : addr_ok early v -> pa (v + DIRECT_MAP_BASE) = pa v /\ addr_ok late (v + DIRECT_MAP_BASE).
Proof.
  pose proof max_below. intros [[-> Hv]|(_ & ? & _)]%addr_cases; [|done]. rewrite pa_high by lia. split; [lia|]. right. split; [done|lia].
Qed.

Lemma peek_ext m m' v : (forall x, pa v <= x < pa v + 8 -> m' x = m x) -> peek m' v = peek m v.
Proof. intros H. apply load_ext. intros x Hx. apply H. lia. Qed.
Lemma peek_poke m v w : 0 <= w < 2 ^ 64 -> peek (poke m v w) v = w.
Proof. intros Hw. apply load_store_eq. done. Qed.
Lemma poke_other m v w x : ~ (pa v <= x < pa v + 8) -> poke m v w x = m x.
Proof. intros H. apply store_other. lia. Qed.

(** ** Magazines *)

Definition round_ok (r : MagazineRound) : Prop := alen (objects r) = MAGAZINE_SIZE /\ 0 <= mcount r <= MAGAZINE_SIZE.
Definition stack (r : MagazineRound) : list Z := take (Z.to_nat (mcount r)) (objects r).

Lemma stack_length r : round_ok r -> alen (stack r) = mcount r.
Proof. intros [H1 H2]. unfold stack, alen in *. rewrite length_take. lia. Qed.

Lemma round_pop_spec r : round_ok r ->
  match round_pop r with
  | (None, r') => r' = r /\ stack r = []
  | (Some p, r') => round_ok r' /\ stack r = stack r' ++ [p]
  end.
Proof.
  intros [H1 H2]. unfold round_pop. destruct (Z.eqb_spec (mcount r) 0) as [E|E].
  - split; [done|]. unfold stack. by rewrite E.
  - destruct (aget_is_Some (objects r) (mcount r - 1)) as [p Hp]; [lia|]. rewrite Hp. split; [split; cbn; [done|lia]|].
    unfold stack. cbn. replace (Z.to_nat (mcount r)) with (S (Z.to_nat (mcount r - 1))) by lia. by apply take_S_r.
Qed.

Lemma round_push_spec r p : round_ok r ->
  match round_push r p with
  | (false, r') => r' = r /\ mcount r = MAGAZINE_SIZE
  | (true, r') => round_ok r' /\ stack r' = stack r ++ [p]
  end.
Proof.
  intros [H1 H2]. unfold round_push. destruct (Z.geb_spec (mcount r) MAGAZINE_SIZE) as [E|E]; [split; [done|lia]|].
  split; [split; cbn; [by rewrite alen_aset|lia]|]. unfold stack. cbn. unfold alen in H1.
  replace (Z.to_nat (mcount r + 1)) with (S (Z.to_nat (mcount r))) by lia. unfold aset. rewrite take_S_r with (x := p).
  - by rewrite take_insert_ge by lia.
  - apply list_lookup_insert_eq. lia.
Qed.

Lemma stack_new : round_ok round_new /\ stack round_new = [].
Proof. done. Qed.

(** ** Slots *)

Definition size_ok (c : SlabCache) : Prop :=
  (object_size c, alloc_size c) ∈ [(64, 80); (128, 144); (256, 272); (512, 528); (4096, 4096)].

Lemma size_facts c : size_ok c ->
  64 <= object_size c <= 4096 /\ alloc_size c = object_size c + 2 * red_zone_offset c /\ alloc_size c <= 4096 /\
  ((has_red_zones c = true /\ red_zone_offset c = 8) \/ (has_red_zones c = false /\ red_zone_offset c = 0)).
Proof.
  unfold size_ok, red_zone_offset, has_red_zones, RED_ZONE_SIZE. intros H.
  repeat (rewrite elem_of_cons in H; destruct H as [H|H]; [injection H as -> ->; cbn; lia|]). by apply elem_of_nil in H.
Qed.

Definition apart (n a b : Z) : Prop := a + n <= b \/ b + n <= a.

Definition slots_ok (n : Z) (SL : list Z) : Prop :=
  NoDup SL /\ (forall s t, s ∈ SL -> t ∈ SL -> s <> t -> apart n s t) /\ Forall (fun s => 0 < s /\ s + n <= PHYS_MAX) SL.

Lemma cache_slots_apart n SL s rest t : slots_ok n SL -> SL ≡ₚ s :: rest -> t ∈ rest -> apart n s t.
Proof.
  intros (H1 & H2 & _) E Ht. rewrite E in H1. apply NoDup_cons in H1 as [Hs _].
  apply H2; [rewrite E; by left|rewrite E; by right|]. by intros ->.
Qed.

Lemma slots_in n SL s : slots_ok n SL -> s ∈ SL -> 0 < s /\ s + n <= PHYS_MAX.
Proof. intros (_ & _ & H) Hs. rewrite Forall_forall in H. by apply H. Qed.

(** ** A cache *)

(** The free list from [h]. *)
Fixpoint chain (m : mem) (h : Z) (F : list Z) : Prop :=
  match F with
  | [] => h = 0
  | v :: F' => h = v /\ chain m (peek m v) F'
  end.

(** The pointers out of the free list: in the magazines or with clients. *)
Definition ptrs (c : SlabCache) (O : list Z) : list Z := stack (current c) ++ stack (prev c) ++ O.
Definition slot_of (c : SlabCache) (p : Z) : Z := pa p - red_zone_offset c.

(** The red zones of the object at [p] hold the pattern. *)
Definition red_zones_intact (c : SlabCache) (m : mem) (p : Z) : bool :=
  (peek m (p - RED_ZONE_SIZE) =? RED_ZONE_PATTERN) && (peek m (p + object_size c) =? RED_ZONE_PATTERN).
Definition zones_ok (c : SlabCache) (m : mem) (p : Z) : Prop := has_red_zones c = true -> red_zones_intact c m p = true.

(** What the heap itself keeps: its free list and magazines. *)
Definition kept_addrs (c : SlabCache) (F : list Z) : list Z := F ++ stack (current c) ++ stack (prev c).

Record cache_inv (d : maps) (c : SlabCache) (m : mem) (SL F O : list Z) : Prop := {
  ci_size : size_ok c;
  ci_current : round_ok (current c);
  ci_prev : round_ok (prev c);
  ci_chain : chain m (free_head c) F;
  ci_free : Forall (addr_ok d) F;
  ci_ptrs : Forall (addr_ok d) (ptrs c O);
  ci_slots : SL ≡ₚ map pa F ++ map (slot_of c) (ptrs c O);
  ci_ok : slots_ok (alloc_size c) SL;
  ci_zones : Forall (zones_ok c m) (ptrs c O);
  ci_reach : Forall (reachable d) (kept_addrs c F)
}.

Lemma free_chain_ext m m' h F : (forall v, v ∈ F -> peek m' v = peek m v) -> chain m h F -> chain m' h F.
Proof.
  revert h. induction F as [|v F IH]; intros h H; [done|]. intros [-> Hc]. split; [done|]. rewrite H by (by left).
  apply IH; [|done]. intros v' Hv. apply H. by right.
Qed.

Lemma free_chain_head m h F d : chain m h F -> Forall (addr_ok d) F -> 0 <= h < 2 ^ 64.
Proof.
  destruct F as [|v F]; cbn; [lia|]. intros [-> _] [Hv _]%Forall_cons. apply addr_64 in Hv. lia.
Qed.

(** A pointer of the cache and its slot. *)
Lemma ptr_slot d c m SL F O p : cache_inv d c m SL F O -> p ∈ ptrs c O ->
  slot_of c p ∈ SL /\ addr_ok d p /\ pa p = slot_of c p + red_zone_offset c /\ 0 < slot_of c p /\ slot_of c p + alloc_size c <= PHYS_MAX.
Proof.
  intros Hi Hp. assert (slot_of c p ∈ SL) as Hs.
  { rewrite (ci_slots _ _ _ _ _ _ Hi). apply elem_of_app. right. apply list_elem_of_In, in_map. by apply list_elem_of_In. }
  split; [done|]. pose proof (ci_ptrs _ _ _ _ _ _ Hi) as Ha. rewrite Forall_forall in Ha. split; [by apply Ha|].
  unfold slot_of at 1. split; [lia|]. by apply (slots_in _ _ _ (ci_ok _ _ _ _ _ _ Hi)).
Qed.

(** Red zones are read within the slot. *)
Lemma zone_bytes d c m SL F O p : cache_inv d c m SL F O -> p ∈ ptrs c O -> has_red_zones c = true ->
  pa (p - RED_ZONE_SIZE) = slot_of c p /\ pa (p + object_size c) = slot_of c p + 8 + object_size c.
Proof.
  intros Hi Hp Hz. destruct (ptr_slot _ _ _ _ _ _ _ Hi Hp) as (_ & Ha & Hpa & H0 & H1).
  destruct (size_facts c (ci_size _ _ _ _ _ _ Hi)) as (Hs1 & Hs2 & _ & [[_ Hr]|[? _]]); [|congruence]. rewrite Hr in *.
  pose proof (pa_range _ _ Ha). unfold RED_ZONE_SIZE. split.
  - destruct (pa_sub _ _ 8 Ha) as [-> _]; lia.
  - destruct (pa_add _ _ (object_size c) Ha) as [-> _]; lia.
Qed.

(** Memory that the cache does not read may change. *)
Lemma cache_inv_mem d c m m' SL F O : cache_inv d c m SL F O ->
  (forall v x, v ∈ F -> pa v <= x < pa v + 8 -> m' x = m x) ->
  (forall p x, p ∈ ptrs c O -> has_red_zones c = true ->
     slot_of c p <= x < slot_of c p + 8 \/ slot_of c p + 8 + object_size c <= x < slot_of c p + alloc_size c -> m' x = m x) ->
  cache_inv d c m' SL F O.
Proof.
  intros Hi HF HZ. destruct Hi. constructor; try done.
  - eapply free_chain_ext; [|done]. intros v Hv. apply peek_ext. intros x Hx. by apply (HF v).
  - rewrite Forall_forall in *. intros p Hp Hz. rewrite <-(ci_zones0 p Hp Hz).
    assert (cache_inv d c m SL F O) as Hi by (constructor; try done; by rewrite Forall_forall).
    destruct (zone_bytes _ _ _ _ _ _ _ Hi Hp Hz) as [Z1 Z2]. destruct (size_facts c ci_size0) as (_ & Hs & _ & [[_ Hr]|[? _]]); [|congruence].
    unfold red_zones_intact. f_equal; f_equal; apply peek_ext; rewrite ?Z1, ?Z2; intros x Hx; apply (HZ p); try done; [left|right]; lia.
Qed.

(** ** Moving one slot *)

(** [m'] differs from [m] only within the slot at [s]. *)
Definition only_slot (n s : Z) (m m' : mem) : Prop := forall x, ~ (s <= x < s + n) -> m' x = m x.

(** A change within a slot that leaves the lists is not seen by the rest. *)
Lemma cache_inv_other d c m m' SL F O s rest : cache_inv d c m SL F O -> only_slot (alloc_size c) s m m' ->
  slots_ok (alloc_size c) (s :: rest) -> (forall t, t ∈ SL -> t ∈ rest) -> cache_inv d c m' SL F O.
Proof.
  intros Hi Hm Hok Hin. destruct (size_facts c (ci_size _ _ _ _ _ _ Hi)) as (Hs1 & Hs2 & _ & Hr).
  assert (forall t x, t ∈ SL -> t <= x < t + alloc_size c -> m' x = m x) as Hsame.
  { intros t x Ht Hx. apply Hm. destruct (cache_slots_apart _ _ s rest t Hok) as [?|?]; [done|by apply Hin|lia|lia]. }
  apply (cache_inv_mem d c m); [done| |].
  - intros v x Hv Hx. apply (Hsame (pa v)); [|lia]. rewrite (ci_slots _ _ _ _ _ _ Hi). apply elem_of_app. left.
    apply list_elem_of_In, in_map. by apply list_elem_of_In.
  - intros p x Hp _ Hx. destruct (ptr_slot _ _ _ _ _ _ _ Hi Hp) as (Hs & _). apply (Hsame (slot_of c p)); [done|]. lia.
Qed.

(** The invariant does not depend on which of the lists names a slot first. *)
Lemma slots_ok_perm n SL SL' : SL ≡ₚ SL' -> slots_ok n SL -> slots_ok n SL'.
Proof.
  intros E (H1 & H2 & H3). split; [by rewrite <-E|]. split; [intros s t; rewrite <-!E; apply H2|by rewrite <-E].
Qed.

(** Forget the head of the free list, or the last entry of the magazine. *)
Lemma slots_ok_tail n s SL : slots_ok n (s :: SL) -> slots_ok n SL.
Proof.
  intros (H1 & H2 & H3). apply NoDup_cons in H1 as [_ H1]. apply Forall_cons in H3 as [_ H3]. split; [done|]. split; [|done].
  intros a b Ha Hb. apply H2; by right.
Qed.

Lemma drop_free d c m SL v F O : cache_inv d c m SL (v :: F) O ->
  cache_inv d (set_head c (peek m v)) m (map pa F ++ map (slot_of c) (ptrs c O)) F O /\
  slots_ok (alloc_size c) (pa v :: map pa F ++ map (slot_of c) (ptrs c O)) /\ addr_ok d v /\ reachable d v.
Proof.
  intros [? ? ? [Eh Hc] Hf ? Hp Hok ? Hre]. apply Forall_cons in Hf as [Hv Hf]. apply Forall_cons in Hre as [Hvr Hre].
  assert (slots_ok (alloc_size c) (pa v :: map pa F ++ map (slot_of c) (ptrs c O))) as Hok' by (by eapply slots_ok_perm).
  split; [|done]. constructor; try done. by apply slots_ok_tail in Hok'.
Qed.

Lemma drop_ptr d c m SL F O r p : cache_inv d c m SL F O -> stack (current c) = stack r ++ [p] -> round_ok r ->
  cache_inv d (set_current c r) m (map pa F ++ map (slot_of c) (ptrs (set_current c r) O)) F O /\
  slots_ok (alloc_size c) (slot_of c p :: map pa F ++ map (slot_of c) (ptrs (set_current c r) O)) /\ addr_ok d p /\ reachable d p.
Proof.
  intros [? ? ? Hc Hf Ha Hp Hok Hz Hre] Hst Hr.
  assert (kept_addrs c F ≡ₚ p :: kept_addrs (set_current c r) F) as Hk by (unfold kept_addrs; rewrite Hst; cbn; solve_Permutation).
  rewrite Hk in Hre. apply Forall_cons in Hre as [Hpr Hre].
  assert (ptrs c O ≡ₚ p :: ptrs (set_current c r) O) as Hperm by (unfold ptrs; rewrite Hst; cbn; solve_Permutation).
  rewrite Hperm in Ha, Hz. apply Forall_cons in Ha as [Hap Ha]. apply Forall_cons in Hz as [_ Hz].
  assert (slots_ok (alloc_size c) (slot_of c p :: map pa F ++ map (slot_of c) (ptrs (set_current c r) O))) as Hok'.
  { eapply slots_ok_perm; [|exact Hok]. rewrite Hp, Hperm. cbn. solve_Permutation. }
  split; [|done]. constructor; try done. by apply slots_ok_tail in Hok'.
Qed.

(** Push a pointer whose slot is not in the lists. *)
Lemma add_ptr d c m SL F O r p : cache_inv d c m SL F O -> stack r = stack (current c) ++ [p] -> round_ok r ->
  addr_ok d p -> reachable d p -> zones_ok c m p -> slots_ok (alloc_size c) (slot_of c p :: SL) ->
  cache_inv d (set_current c r) m (slot_of c p :: SL) F O.
Proof.
  intros [? ? ? Hc Hf Ha Hp Hok Hz Hre] Hst Hr Hap Hpr Hzp Hok'.
  assert (kept_addrs (set_current c r) F ≡ₚ p :: kept_addrs c F) as Hk by (unfold kept_addrs; cbn; rewrite Hst; solve_Permutation).
  assert (ptrs (set_current c r) O ≡ₚ p :: ptrs c O) as Hperm by (unfold ptrs; cbn; rewrite Hst; solve_Permutation).
  constructor; try done.
  - rewrite Hperm. by constructor.
  - rewrite Hperm. cbn. change (slot_of (set_current c r)) with (slot_of c). rewrite Hp. solve_Permutation.
  - rewrite Hperm. by constructor.
  - rewrite Hk. by constructor.
Qed.

(** Link a slot that is not in the lists. *)
Lemma add_free d c m SL F O v : cache_inv d c m SL F O -> addr_ok d v -> reachable d v -> slots_ok (alloc_size c) (pa v :: SL) ->
  cache_inv d (set_head c v) (poke m v (free_head c)) (pa v :: SL) (v :: F) O /\
  only_slot (alloc_size c) (pa v) m (poke m v (free_head c)).
Proof.
  intros Hi Hv Hvr Hok. destruct (size_facts c (ci_size _ _ _ _ _ _ Hi)) as (Hs1 & Hs2 & _ & Hr).
  assert (only_slot (alloc_size c) (pa v) m (poke m v (free_head c))) as Ho.
  { intros x Hx. apply poke_other. lia. }
  split; [|done]. pose proof (free_chain_head _ _ _ _ (ci_chain _ _ _ _ _ _ Hi) (ci_free _ _ _ _ _ _ Hi)) as Hh.
  destruct (cache_inv_other _ _ _ _ _ _ _ (pa v) SL Hi Ho Hok ltac:(done)) as [? ? ? Hc Hf Ha Hp Hok' Hz Hre].
  constructor; try done; cbn.
  - split; [done|]. by rewrite peek_poke.
  - by constructor.
  - by rewrite Hp.
  - by constructor.
Qed.

Lemma cache_inv_perm d c m SL SL' F O : SL ≡ₚ SL' -> cache_inv d c m SL F O -> cache_inv d c m SL' F O.
Proof. intros E []. constructor; try done; [by rewrite <-E|by eapply slots_ok_perm]. Qed.

(** Operations change memory only in slots that no client has. *)
Definition touches (c : SlabCache) (SL O : list Z) (m m' : mem) : Prop :=
  forall x, m' x <> m x -> exists s, s ∈ SL /\ ~ (s ∈ map (slot_of c) O) /\ s <= x < s + alloc_size c.

Lemma touches_refl c SL O m : touches c SL O m m.
Proof. by intros x H. Qed.
Lemma touches_trans c SL O m1 m2 m3 : touches c SL O m1 m2 -> touches c SL O m2 m3 -> touches c SL O m1 m3.
Proof.
  intros H1 H2 x Hx. destruct (decide (m3 x = m2 x)) as [E|E]; [|by apply H2]. apply H1. by rewrite <-E.
Qed.
Lemma touches_slot c SL O m m' s : only_slot (alloc_size c) s m m' -> s ∈ SL -> s ∉ map (slot_of c) O -> touches c SL O m m'.
Proof.
  intros Ho Hs Hn x Hx. exists s. split; [done|]. split; [done|].
  destruct (decide (s <= x < s + alloc_size c)) as [?|Hd]; [done|]. by apply Ho in Hd.
Qed.

(** What every operation keeps of the cache. *)
Definition same_sizes (c c' : SlabCache) : Prop := object_size c' = object_size c /\ alloc_size c' = alloc_size c.

Lemma same_slot c c' p : same_sizes c c' -> slot_of c' p = slot_of c p.
Proof. intros [H1 H2]. unfold slot_of, red_zone_offset, has_red_zones. by rewrite H1, H2. Qed.
Lemma same_touches c c' SL O m m' : same_sizes c c' -> touches c' SL O m m' -> touches c SL O m m'.
Proof.
  intros Hs Ht x Hx. destruct (Ht x Hx) as (s & H1 & H2 & H3). exists s. split; [done|]. destruct Hs as [E1 E2]. rewrite E2 in H3.
  split; [|done]. contradict H2. rewrite (map_ext _ (slot_of c)); [done|]. intros p. by apply same_slot.
Qed.

Lemma slot_not_client n SL s F ps O c : slots_ok n SL -> SL ≡ₚ s :: map pa F ++ map (slot_of c) (ps ++ O) -> s ∉ map (slot_of c) O.
Proof.
  intros (H & _) E. rewrite E in H. apply NoDup_cons in H as [H _]. contradict H. rewrite map_app. apply elem_of_app. right.
  apply elem_of_app. by right.
Qed.

(** Two writes to a slot: its red zones. *)
Definition filled (c : SlabCache) (m : mem) (v : Z) : mem :=
  if has_red_zones c then poke (poke m v RED_ZONE_PATTERN) (v + RED_ZONE_SIZE + object_size c) RED_ZONE_PATTERN else m.

Lemma fill_eq d c m v : size_ok c -> reachable d v ->
  (if has_red_zones c then fill_red_zones (idmap d) c m v else Some m) = Some (filled c m v).
Proof.
  intros Hs Hv. destruct (size_facts c Hs) as (Hs1 & _). unfold filled, fill_red_zones. destruct (has_red_zones c); [|done].
  rewrite write_reachable by done. cbn [mbind option_bind]. apply write_reachable. rewrite <-Z.add_assoc. apply reachable_add; [unfold RED_ZONE_SIZE; lia|done].
Qed.

Lemma check_eq d c m SL F O p : cache_inv d c m SL F O -> p ∈ ptrs c O -> has_red_zones c = true -> reachable d p ->
  check_red_zones (idmap d) c m p = Some false.
Proof.
  intros Hi Hp Hz Hr. destruct (ptr_slot _ _ _ _ _ _ _ Hi Hp) as (_ & Ha & Hpa & H0 & H1).
  destruct (size_facts c (ci_size _ _ _ _ _ _ Hi)) as (Hs1 & Hs2 & _ & [[_ Hr8]|[? _]]); [|congruence]. rewrite Hr8 in *.
  pose proof (ci_zones _ _ _ _ _ _ Hi) as Hzs. rewrite Forall_forall in Hzs. specialize (Hzs p Hp Hz). unfold red_zones_intact in Hzs.
  apply andb_true_iff in Hzs as [E1 E2]. unfold check_red_zones. rewrite (read_reachable d m (p - RED_ZONE_SIZE)) by (apply reachable_sub; [done|unfold RED_ZONE_SIZE; lia|done]).
  cbn [mbind option_bind]. rewrite (read_reachable d m (p + object_size c)) by (apply reachable_add; [lia|done]). cbn [mbind option_bind]. by rewrite E1, E2.
Qed.

Lemma fill_ok d c m v : size_ok c -> has_red_zones c = true -> addr_ok d v -> pa v + alloc_size c <= PHYS_MAX ->
  only_slot (alloc_size c) (pa v) m (filled c m v) /\ red_zones_intact c (filled c m v) (v + 8) = true.
Proof.
  intros Hs Hz Ha Hv. destruct (size_facts c Hs) as (Hs1 & Hs2 & _ & [[_ Hr]|[? _]]); [|congruence]. rewrite Hr in Hs2.
  unfold filled, red_zones_intact, RED_ZONE_SIZE. rewrite Hz. replace (v + 8 - 8) with v by lia.
  destruct (pa_add d v (8 + object_size c) Ha) as [Ep _]; [lia|lia|]. rewrite !Z.add_assoc in Ep.
  split.
  - intros x Hx. rewrite !poke_other; [done|lia|lia].
  - rewrite !andb_true_iff, !Z.eqb_eq. split; [|by apply peek_poke].
    etrans; [|by apply (peek_poke m v)]. apply peek_ext. intros x Hx. apply poke_other. lia.
Qed.

Lemma refill_one d c m SL v F O r : cache_inv d c m SL (v :: F) O -> round_push (current c) (v + red_zone_offset c) = (true, r) ->
  let m1 := filled c m v in
  cache_inv d (set_current (set_head c (peek m v)) r) m1 SL F O /\ touches c SL O m m1.
Proof.
  intros Hi Hpush m1. pose proof (round_push_spec _ (v + red_zone_offset c) (ci_current _ _ _ _ _ _ Hi)) as Hr. rewrite Hpush in Hr.
  destruct Hr as [Hr Hst]. destruct (drop_free _ _ _ _ _ _ _ Hi) as (H0 & Hok & Hv & Hvr). pose proof (ci_size _ _ _ _ _ _ Hi) as Hsz.
  destruct (slots_in _ _ (pa v) Hok) as [Hv0 Hv1]; [by left|]. destruct (size_facts c Hsz) as (Hs1 & Hs2 & _ & Hzr).
  assert (only_slot (alloc_size c) (pa v) m m1 /\ zones_ok c m1 (v + red_zone_offset c)) as [Ho Hz].
  { unfold m1, zones_ok. destruct Hzr as [[Hz Hr8]|[Hz Hr0]]; rewrite ?Hr8.
    - destruct (fill_ok d c m v Hsz Hz Hv Hv1). by split.
    - unfold filled. by rewrite Hz. }
  destruct (pa_add d v (red_zone_offset c) Hv) as [Ep Hav]; [lia|lia|].
  assert (slot_of c (v + red_zone_offset c) = pa v) as Es by (unfold slot_of; lia).
  pose proof (cache_inv_other _ _ _ m1 _ _ _ (pa v) _ H0 Ho Hok ltac:(done)) as H1.
  split.
  - apply (cache_inv_perm d _ _ (slot_of c (v + red_zone_offset c) :: map pa F ++ map (slot_of c) (ptrs c O))).
    + rewrite Es. symmetry. apply (ci_slots _ _ _ _ _ _ Hi).
    + apply (add_ptr _ (set_head c (peek m v))); try done; [apply reachable_add; [lia|done]|]. cbn. change (slot_of (set_head c _)) with (slot_of c). by rewrite Es.
  - apply (touches_slot _ _ _ _ _ (pa v)); [done| |].
    + rewrite (ci_slots _ _ _ _ _ _ Hi). by left.
    + eapply (slot_not_client _ _ _ F (stack (current c) ++ stack (prev c))); [exact Hok|]. by rewrite <-app_assoc.
Qed.

(** ** The loops *)

Lemma refill_loop_ok n d c m SL F O : cache_inv d c m SL F O -> mcount (current c) + Z.of_nat n <= MAGAZINE_SIZE ->
  exists k c' m' F', refill_loop (idmap d) n c m = Some (k, c', m') /\ 0 <= k /\ cache_inv d c' m' SL F' O /\ same_sizes c c' /\
    pages_used c' = pages_used c /\ touches c SL O m m' /\
    (k = 0 -> c' = c /\ m' = m /\ (n = 0%nat \/ F = [])) /\ (0 < k -> stack (current c') <> []).
Proof.
  revert c m F. induction n as [|n IH]; intros c m F Hi Hn; cbn [refill_loop].
  { exists 0, c, m, F. split_and!; try done; [apply touches_refl|]. intros _. split_and!; [done..|by left]. }
  pose proof (ci_chain _ _ _ _ _ _ Hi) as Hc. destruct (Z.eqb_spec (free_head c) 0) as [E|E].
  { exists 0, c, m, F. split_and!; try done; [apply touches_refl|]. intros _. split_and!; [done..|]. right.
    destruct F as [|v F]; [done|]. destruct Hc as [Hv _]. pose proof (ci_free _ _ _ _ _ _ Hi) as [Ha _]%Forall_cons.
    apply addr_64 in Ha. lia. }
  destruct F as [|v F]; [done|]. destruct Hc as [Ev Hc]. rewrite Ev. destruct (drop_free _ _ _ _ _ _ _ Hi) as (_ & _ & _ & Hvr).
  rewrite read_reachable by done. cbn [mbind option_bind]. rewrite (fill_eq d) by (done || apply Hi). cbn [mbind option_bind].
  destruct (round_push (current (set_head c (peek m v))) (v + red_zone_offset c)) as [ok r] eqn:Hpush.
  pose proof (round_push_spec _ (v + red_zone_offset c) (ci_current _ _ _ _ _ _ Hi)) as Hr. cbn [current set_head] in Hpush. rewrite Hpush in Hr.
  destruct ok; [|lia]. destruct (refill_one d c m SL v F O r Hi Hpush) as [H1 Ht].
  assert (mcount r = mcount (current c) + 1) as Hm.
  { destruct Hr as [Hr Hst]. apply (f_equal alen) in Hst. rewrite alen_app, !stack_length in Hst; [done|apply Hi|done]. }
  destruct (IH _ _ _ H1) as (k & c2 & m2 & F2 & -> & Hk & H2 & Hs2 & Hp2 & Ht2 & Hk0 & Hk1); [cbn; lia|]. cbn.
  exists (k + 1), c2, m2, F2. split_and!; try done; try apply Hs2; [lia|by eapply touches_trans|lia|].
  intros _. destruct (decide (k = 0)) as [->|Hne]; [|apply Hk1; lia]. destruct (Hk0 eq_refl) as (-> & _). cbn.
  destruct Hr as [_ ->]. by destruct (stack (current c)).
Qed.

Lemma flush_loop_ok n d c m SL F O : cache_inv d c m SL F O -> (Z.to_nat (mcount (current c)) < n)%nat ->
  exists c' m' F', flush_loop (idmap d) n c m = Some (c', m') /\ cache_inv d c' m' SL F' O /\ same_sizes c c' /\ pages_used c' = pages_used c /\
    touches c SL O m m' /\ stack (current c') = [].
Proof.
  revert c m F. induction n as [|n IH]; intros c m F Hi Hn; [lia|]. cbn [flush_loop].
  pose proof (round_pop_spec _ (ci_current _ _ _ _ _ _ Hi)) as Hr. destruct (round_pop (current c)) as [[p|] r] eqn:Hpop.
  2:{ destruct Hr as [-> Hst]. exists c, m, F. split_and!; try done. apply touches_refl. }
  destruct Hr as [Hr Hst]. destruct (drop_ptr _ _ _ _ _ _ _ _ Hi Hst Hr) as (H0 & Hok & Hp & Hpr).
  destruct (size_facts c (ci_size _ _ _ _ _ _ Hi)) as (Hs1 & Hs2 & _ & Hzr).
  destruct (slots_in _ _ (slot_of c p) Hok) as [Hv0 _]; [by left|].
  destruct (pa_sub d p (red_zone_offset c) Hp) as [Ep Hav]; [unfold slot_of in Hv0; lia|].
  assert (reachable d (p - red_zone_offset c)) as Har by (apply reachable_sub; [done|unfold slot_of in Hv0; lia|done]).
  rewrite write_reachable by done. cbn [mbind option_bind].
  assert (pa (p - red_zone_offset c) = slot_of c p) as Es by done.
  destruct (add_free _ _ _ _ _ _ (p - red_zone_offset c) H0 Hav Har) as [H1 Ho]; [by rewrite Es|]. rewrite Es in H1, Ho. cbn [free_head set_current] in H1, Ho.
  assert (SL ≡ₚ slot_of c p :: map pa F ++ map (slot_of c) (ptrs (set_current c r) O)) as HSL.
  { rewrite (ci_slots _ _ _ _ _ _ Hi). unfold ptrs. rewrite Hst. cbn [current prev set_current]. rewrite !map_app. cbn. solve_Permutation. }
  assert (mcount r = mcount (current c) - 1) as Hm.
  { apply (f_equal alen) in Hst. rewrite alen_app, !stack_length in Hst; [rewrite alen_cons, alen_nil in Hst; lia|done|apply Hi]. }
  assert (0 <= mcount r) by apply Hr.
  apply (cache_inv_perm _ _ _ _ SL) in H1; [|by rewrite HSL].
  destruct (IH _ _ _ H1) as (c2 & m2 & F2 & -> & H2 & Hs & Hpg & Ht & He); [cbn; lia|].
  exists c2, m2, F2. split_and!; try done; try apply Hs. eapply touches_trans; [|exact Ht].
  apply (touches_slot _ _ _ _ _ (slot_of c p)); [done|rewrite HSL; by left|].
  eapply (slot_not_client _ _ _ F (stack r ++ stack (prev c))); [exact Hok|]. by rewrite <-app_assoc.
Qed.

(** The slots of one page, from its address. *)
Definition page_slots (n p : Z) : list Z := map (fun i => p + Z.of_nat i * n) (seq 0 (Z.to_nat (PAGE_SIZE / n))).

Lemma carve_ok n d c m SL F O page : cache_inv d c m SL F O ->
  reachable d page -> (forall i, (i < n)%nat -> addr_ok d (page + Z.of_nat i * alloc_size c) /\ pa (page + Z.of_nat i * alloc_size c) = pa page + Z.of_nat i * alloc_size c) ->
  slots_ok (alloc_size c) (map (fun i => pa page + Z.of_nat i * alloc_size c) (seq 0 n) ++ SL) ->
  exists c' m' F', carve (idmap d) n page c m = Some (c', m') /\
    cache_inv d c' m' (map (fun i => pa page + Z.of_nat i * alloc_size c) (seq 0 n) ++ SL) F' O /\ same_sizes c c' /\
    pages_used c' = pages_used c /\ current c' = current c /\
    (forall x, m' x <> m x -> exists i, (i < n)%nat /\ pa page + Z.of_nat i * alloc_size c <= x < pa page + (Z.of_nat i + 1) * alloc_size c) /\
    ((0 < n)%nat \/ F <> [] -> F' <> []).
Proof.
  revert c m SL F. induction n as [|n IH]; intros c m SL F Hi Hpr Hp Hok; cbn [carve].
  { exists c, m, F. split_and!; try done. intros [?|?]; [lia|done]. }
  destruct (Hp n) as [Ha Epa]; [lia|]. set (v := page + Z.of_nat n * alloc_size c) in *.
  assert (map (fun i => pa page + Z.of_nat i * alloc_size c) (seq 0 (S n)) ++ SL ≡ₚ
    map (fun i => pa page + Z.of_nat i * alloc_size c) (seq 0 n) ++ pa v :: SL) as HSL.
  { rewrite seq_S, map_app, <-app_assoc. cbn. by rewrite Epa. }
  assert (slots_ok (alloc_size c) (map (fun i => pa page + Z.of_nat i * alloc_size c) (seq 0 n) ++ pa v :: SL)) as Hok' by (by eapply slots_ok_perm).
  assert (0 < alloc_size c) as Hpos by (destruct (size_facts c (ci_size _ _ _ _ _ _ Hi)) as (? & ? & _ & [[_ ?]|[_ ?]]); lia).
  assert (reachable d v) as Hvr by (apply reachable_add; [lia|done]).
  rewrite write_reachable by done. cbn [mbind option_bind]. destruct (add_free d c m SL F O v Hi Ha Hvr) as [H1 Ho].
  { clear -Hok'. induction (map _ _) as [|s l IHl]; [done|]. apply IHl. by eapply slots_ok_tail. }
  destruct (IH (set_head c v) (poke m v (free_head c)) (pa v :: SL) (v :: F) H1 Hpr) as (c2 & m2 & F2 & -> & H2 & Hs & Hpg & Hcur & Ht & Hne); [|done|].
  { intros i Hlt. apply Hp. lia. }
  exists c2, m2, F2. split_and!; try done; try apply Hs; [by eapply cache_inv_perm; [symmetry|]| |].
  - intros x Hx. destruct (decide (m2 x = poke m v (free_head c) x)) as [E|E].
    + exists n. split; [lia|]. rewrite E in Hx. destruct (decide (pa v <= x < pa v + alloc_size c)) as [?|Hd]; [cbn in *; lia|]. by apply Ho in Hd.
    + destruct (Ht x E) as (i & Hlt & Hx'). exists i. split; [lia|done].
  - intros _. apply Hne. by right.
Qed.

(** ** Switching to the direct map *)

Definition to_direct (v : Z) : Z := v + DIRECT_MAP_BASE.

Lemma add_offsets_ok l : Forall (addr_ok early) l -> add_offsets DIRECT_MAP_BASE l = Some (map to_direct l).
Proof.
  induction 1 as [|v l Hv Hl IH]; [done|]. cbn. apply addr_cases in Hv as [[_ Hv]|(_ & ? & _)]; [|done].
  destruct (Z.eqb_spec v 0); [lia|]. pose proof max_below.
  assert (checked_add 64 v DIRECT_MAP_BASE = Some (v + DIRECT_MAP_BASE)) as -> by (apply checked_add_Some; lia).
  cbn. by rewrite IH.
Qed.

Lemma convert_addrs_ok r : round_ok r -> Forall (addr_ok early) (stack r) ->
  exists r', convert_addrs r DIRECT_MAP_BASE = Some r' /\ round_ok r' /\ stack r' = map to_direct (stack r).
Proof.
  intros [H1 H2] Ha. unfold convert_addrs. fold (stack r). rewrite add_offsets_ok by done. cbn. eexists. split; [done|].
  assert (length (map to_direct (stack r)) = Z.to_nat (mcount r)) as Hl.
  { rewrite length_map. pose proof (stack_length r (conj H1 H2)). unfold alen in *. lia. }
  split.
  - split; [|done]. cbn. unfold alen in *. rewrite length_app, Hl, length_drop. lia.
  - unfold stack at 1. cbn. rewrite <-Hl at 1. apply take_app_length.
Qed.

Lemma peek_direct m v : addr_ok early v -> peek m (to_direct v) = peek m v.
Proof. intros Hv. unfold peek, to_direct. by destruct (pa_direct v Hv) as [-> _]. Qed.

Lemma reach_direct id v : addr_ok early v -> reach id (to_direct v) = true.
Proof. unfold reach, to_direct. intros [Hv|[? _]]; [|done]. apply orb_true_iff. right. lia. Qed.

Lemma convert_chain_ok id fuel m v F : (length F < fuel)%nat -> Forall (addr_ok early) (v :: F) -> chain m (peek m v) F ->
  slots_ok 8 (map pa (v :: F)) ->
  exists m', convert_chain id fuel DIRECT_MAP_BASE (to_direct v) m = Some m' /\ chain m' (peek m' (to_direct v)) (map to_direct F) /\
    forall x, m' x <> m x -> exists u, u ∈ v :: F /\ pa u <= x < pa u + 8.
Proof.
  revert fuel m v. induction F as [|w F IH]; intros fuel m v Hfuel Ha Hc Hok; (destruct fuel as [|fuel]; [cbn in Hfuel; lia|]); cbn [convert_chain].
  - rewrite Forall_singleton in Ha. cbn in Hc. unfold read64. rewrite reach_direct by done. cbn [mbind option_bind]. rewrite peek_direct, Hc by done. exists m. split; [done|]. split; [cbn; by rewrite peek_direct|done].
  - apply Forall_cons in Ha as [Hv Ha]. pose proof Ha as [Hw _]%Forall_cons. destruct Hc as [Ew Hc]. unfold read64, write64. rewrite reach_direct by done. cbn [mbind option_bind]. rewrite peek_direct, Ew by done.
    pose proof (addr_64 _ _ Hw) as Hw64. destruct (Z.eqb_spec w 0); [lia|]. destruct (pa_direct v Hv) as [Ev _]. destruct (pa_direct w Hw) as [_ Hwd].
    assert (checked_add 64 w DIRECT_MAP_BASE = Some (to_direct w)) as ->.
    { apply checked_add_Some. split; [done|]. apply addr_64 in Hwd. unfold to_direct in *. lia. }
    cbn [mbind option_bind]. pose proof (slots_ok_tail _ _ _ Hok) as Hok'. set (m1 := poke m (to_direct v) (to_direct w)).
    assert (forall u, u ∈ w :: F -> apart 8 (pa v) (pa u)) as Hap.
    { intros u Hu. apply (cache_slots_apart 8 (map pa (v :: w :: F)) (pa v) (map pa (w :: F))); [done|done|].
      apply list_elem_of_In, in_map. by apply list_elem_of_In. }
    assert (forall u, u ∈ w :: F -> peek m1 u = peek m u) as Hm1.
    { intros u Hu. apply peek_ext. intros x Hx. apply poke_other. unfold to_direct. rewrite Ev. destruct (Hap u Hu); lia. }
    destruct (IH fuel m1 w) as (m' & E & Hc' & Ht); [cbn in Hfuel; lia|done| |done|].
    { rewrite Hm1 by (by left). eapply free_chain_ext; [|done]. intros u Hu. apply Hm1. by right. }
    exists m'. split; [done|]. split.
    + assert (peek m' (to_direct v) = to_direct w) as ->; [|done].
      etrans; [|apply (peek_poke m (to_direct v)); apply addr_64 in Hwd; unfold to_direct in *; lia].
      apply peek_ext. intros x Hx. unfold to_direct in Hx. rewrite Ev in Hx. destruct (decide (m' x = m1 x)) as [?|Hd]; [done|].
      destruct (Ht x Hd) as (u & Hu & Hxu). destruct (Hap u Hu); lia.
    + intros x Hx. destruct (decide (m' x = m1 x)) as [E'|Hd].
      * exists v. split; [by left|]. rewrite E' in Hx. destruct (decide (pa v <= x < pa v + 8)) as [?|Hn]; [done|].
        exfalso. apply Hx, poke_other. unfold to_direct. by rewrite Ev.
      * destruct (Ht x Hd) as (u & Hu & Hxu). exists u. split; [by right|done].
Qed.

Lemma slots_ok_le n n' SL : 0 <= n' <= n -> slots_ok n SL -> slots_ok n' SL.
Proof.
  intros Hn (H1 & H2 & H3). split; [done|]. split.
  - intros s t Hs Ht Hne. destruct (H2 s t Hs Ht Hne); unfold apart; lia.
  - eapply Forall_impl; [exact H3|]. cbn. lia.
Qed.
Lemma slots_ok_app n SL SL' : slots_ok n (SL ++ SL') -> slots_ok n SL /\ forall s t, s ∈ SL -> t ∈ SL' -> apart n s t.
Proof.
  intros (H1 & H2 & H3). apply NoDup_app in H1 as (H1 & Hd & _). apply Forall_app in H3 as [H3 _]. split.
  - split; [done|]. split; [|done]. intros s t Hs Ht. apply H2; apply elem_of_app; by left.
  - intros s t Hs Ht. apply H2; [apply elem_of_app; by left|apply elem_of_app; by right|]. intros ->. by apply (Hd t).
Qed.

(** The red zones of a pointer, seen through the direct map. *)
Lemma intact_direct d c m m' SL F O p : cache_inv d c m SL F O -> p ∈ ptrs c O -> addr_ok early p -> has_red_zones c = true ->
  red_zones_intact c m' (to_direct p) = red_zones_intact c m' p.
Proof.
  intros Hi Hp Ha Hr. destruct (zone_bytes _ _ _ _ _ _ _ Hi Hp Hr) as [Z1 Z2]. pose proof max_below.
  destruct (ptr_slot _ _ _ _ _ _ _ Hi Hp) as (_ & _ & Hpa & H0 & H1).
  destruct (size_facts c (ci_size _ _ _ _ _ _ Hi)) as (Hs1 & Hs2 & _ & [[_ Hr8]|[? _]]); [|congruence]. rewrite Hr8 in *.
  apply addr_cases in Ha as [[Ea Ha]|(_ & ? & _)]; [|done].
  unfold red_zones_intact, to_direct, RED_ZONE_SIZE in *. f_equal; f_equal; unfold peek; f_equal.
  - rewrite Z1, pa_high by lia. lia.
  - rewrite Z2, pa_high by lia. lia.
Qed.

Lemma map_slot_direct c l : Forall (addr_ok early) l -> map (slot_of c) (map to_direct l) = map (slot_of c) l.
Proof.
  induction 1 as [|v l Hv Hl IH]; [done|]. cbn. rewrite IH. f_equal. unfold slot_of, to_direct. by destruct (pa_direct v Hv) as [-> _].
Qed.
Lemma map_pa_direct l : Forall (addr_ok early) l -> map pa (map to_direct l) = map pa l.
Proof. induction 1 as [|v l Hv Hl IH]; [done|]. cbn. rewrite IH. f_equal. by apply pa_direct. Qed.
Lemma direct_ok l : Forall (addr_ok early) l -> Forall (addr_ok late) (map to_direct l).
Proof. intros H. apply Forall_map. eapply Forall_impl; [exact H|]. intros v Hv. by apply pa_direct. Qed.

(** The rounds and the free list of the converted cache, in the memory the
    walk leaves. *)
Lemma converted_inv c m m' SL F O r1 r2 h : cache_inv early c m SL F O ->
  round_ok r1 -> stack r1 = map to_direct (stack (current c)) -> round_ok r2 -> stack r2 = map to_direct (stack (prev c)) ->
  chain m' h (map to_direct F) -> (forall x, m' x <> m x -> exists u, u ∈ F /\ pa u <= x < pa u + 8) ->
  cache_inv late (set_head (set_rounds c r1 r2) h) m' SL (map to_direct F) O.
Proof.
  intros Hi Hr1 Hs1 Hr2 Hs2 Hc Ht. pose proof Hi as [Hsz _ _ _ Hf Ha Hp Hok Hz _].
  destruct (size_facts c Hsz) as (Hsf & Hsf2 & _ & Hsf3). assert (64 <= alloc_size c) as Hn by (destruct Hsf3 as [[_ ?]|[_ ?]]; lia).
  assert (ptrs (set_head (set_rounds c r1 r2) h) O = map to_direct (stack (current c) ++ stack (prev c)) ++ O) as Ep.
  { unfold ptrs. cbn. by rewrite Hs1, Hs2, map_app, app_assoc. }
  assert (Forall (addr_ok early) (stack (current c) ++ stack (prev c)) /\ Forall (addr_ok early) O) as [HaM HaO].
  { unfold ptrs in Ha. rewrite app_assoc in Ha. by apply Forall_app in Ha. }
  assert (forall p, p ∈ ptrs c O -> zones_ok c m' p) as Hz'.
  { intros p Hpin Hr. rewrite Forall_forall in Hz. rewrite <-(Hz p Hpin Hr). destruct (zone_bytes _ _ _ _ _ _ _ Hi Hpin Hr) as [Z1 Z2].
    assert (forall x, slot_of c p <= x < slot_of c p + alloc_size c -> m' x = m x) as Hsame.
    { intros x Hx. destruct (decide (m' x = m x)) as [?|Hd]; [done|]. destruct (Ht x Hd) as (u & Hu & Hxu).
      destruct (slots_ok_app (alloc_size c) (map pa F) (map (slot_of c) (ptrs c O))) as [_ Hap]; [by eapply slots_ok_perm|].
      destruct (Hap (pa u) (slot_of c p)); [apply list_elem_of_In, in_map; by apply list_elem_of_In..|lia|lia]. }
    destruct Hsf3 as [[_ Hr8]|[? _]]; [|congruence].
    unfold red_zones_intact. f_equal; f_equal; apply peek_ext; rewrite ?Z1, ?Z2; intros x Hx; apply Hsame; lia. }
  constructor; try done.
  - by apply direct_ok.
  - rewrite Ep. apply Forall_app. split; [by apply direct_ok|]. eapply Forall_impl; [exact HaO|]. intros v. by apply addr_weaken.
  - rewrite Ep, map_app, map_pa_direct by done. change (slot_of (set_head _ _)) with (slot_of c). rewrite map_slot_direct by done.
    rewrite Hp. unfold ptrs. rewrite !map_app. solve_Permutation.
  - rewrite Ep. apply Forall_app. split; apply Forall_forall; intros p Hpin.
    + apply list_elem_of_In, in_map_iff in Hpin as (q & <- & Hq). apply list_elem_of_In in Hq.
      assert (q ∈ ptrs c O) as Hq' by (unfold ptrs; rewrite app_assoc; apply elem_of_app; by left).
      rewrite Forall_forall in HaM. intros Hr. change (red_zones_intact (set_head _ _)) with (red_zones_intact c).
      rewrite (intact_direct early c m m' SL F O q Hi Hq' (HaM q Hq) Hr). by apply Hz'.
    + intros Hr. apply Hz'; [|done]. unfold ptrs. rewrite app_assoc. apply elem_of_app. by right.
  - unfold kept_addrs. cbn [current prev set_head set_rounds]. rewrite Hs1, Hs2, <-!map_app. apply Forall_map, Forall_app. split.
    + eapply Forall_impl; [exact Hf|]. intros v. apply reach_direct.
    + eapply Forall_impl; [exact HaM|]. intros v. apply reach_direct.
Qed.

Lemma cache_convert_ok id c m SL F O : cache_inv early c m SL F O -> alen F <= pages_used c * (PAGE_SIZE / alloc_size c) ->
  exists c' m', cache_convert id c DIRECT_MAP_BASE m = Some (c', m') /\ cache_inv late c' m' SL (map to_direct F) O /\
    same_sizes c c' /\ pages_used c' = pages_used c /\ touches c SL O m m'.
Proof.
  intros Hi Hlen. pose proof Hi as [Hsz Hr1 Hr2 Hc Hf Ha Hp Hok Hz _]. destruct (size_facts c Hsz) as (Hsf & Hsf2 & _ & Hsf3).
  unfold ptrs in Ha. apply Forall_app in Ha as [Ha1 Ha]. apply Forall_app in Ha as [Ha2 _].
  destruct (convert_addrs_ok _ Hr1 Ha1) as (r1 & E1 & Hr1' & Hs1). destruct (convert_addrs_ok _ Hr2 Ha2) as (r2 & E2 & Hr2' & Hs2).
  unfold cache_convert. rewrite E1, E2. cbn [mbind option_bind]. destruct F as [|v F].
  - cbn in Hc. rewrite Hc. cbn [Z.eqb]. eexists _, m. split; [done|]. split_and!; try done; [|apply touches_refl].
    replace (set_rounds c r1 r2) with (set_head (set_rounds c r1 r2) 0) by (unfold set_head, set_rounds; cbn; by rewrite Hc).
    by apply (converted_inv c m m SL []).
  - destruct Hc as [Eh Hc]. rewrite Eh. pose proof Hf as [Hv _]%Forall_cons. pose proof (addr_64 _ _ Hv).
    destruct (Z.eqb_spec v 0); [lia|]. destruct (pa_direct v Hv) as [_ Hvd].
    assert (checked_add 64 v DIRECT_MAP_BASE = Some (to_direct v)) as ->.
    { apply checked_add_Some. split; [done|]. apply addr_64 in Hvd. lia. }
    cbn [mbind option_bind].
    assert (slots_ok (alloc_size c) (map pa (v :: F))) as HokF.
    { eapply slots_ok_perm in Hok; [|exact Hp]. by apply slots_ok_app in Hok as [Hok _]. }
    destruct (convert_chain_ok id (chain_fuel c) m v F) as (m' & -> & Hc' & Ht); [|done|done|eapply slots_ok_le; [|done]; lia|].
    { unfold chain_fuel. rewrite alen_cons in Hlen. unfold alen in Hlen. lia. }
    cbn [mbind option_bind]. eexists _, m'. split; [done|]. split_and!; try done; [by apply (converted_inv c m m' SL (v :: F))|].
    intros x Hx. destruct (Ht x Hx) as (u & Hu & Hxu). exists (pa u).
    assert (pa u ∈ map pa (v :: F)) as Hin by (apply list_elem_of_In, in_map; by apply list_elem_of_In).
    split; [rewrite Hp; apply elem_of_app; by left|]. split; [|lia]. intros HO.
    eapply slots_ok_perm in Hok; [|exact Hp]. destruct Hok as (Hnd & _). apply NoDup_app in Hnd as (_ & Hd & _). apply (Hd (pa u) Hin).
    unfold ptrs. rewrite !map_app. apply elem_of_app. right. apply elem_of_app. by right.
Qed.
