(* ===== verification/SlabHeap.v ===== *)
(** * The heap over a page source

    What the heap relies on from the page allocators ([PageSourceLaws]), and
    that the caches, and the heap of five caches and large blocks, keep
    their invariant on it. *)

From S2P Require Import Prelude PhysMem Memory Buddy BuddyInv BuddySystem Slab SlabInv.

(** The bytes of the blocks of [L] are the same. *)
Definition same_on (L : live) (m m' : mem) : Prop := forall x, held L x -> m' x = m x.

(** What a page source promises its client, who has the blocks [L]: they are
    disjoint, aligned and in range, the client may write them, and
    operations leave the blocks that stay alone.  A free may panic on a
    block that starts with the poison pattern. *)
Class PageSourceLaws (S : Type) `{PageSource S} := {
  src_inv : S -> live -> Prop;
  src_mem_set : forall s m, src_mem (src_set s m) = m;
  src_set_mem : forall s, src_set s (src_mem s) = s;
  src_bytes : forall s L, src_inv s L -> mem_ok (src_mem s);
  src_perm : forall s L L', L ≡ₚ L' -> src_inv s L -> src_inv s L';
  src_disjoint : forall s L, src_inv s L -> live_disjoint L;
  src_blocks : forall s L a k, src_inv s L -> (a, k) ∈ L -> a mod 4096 = 0 /\ 0 < a /\ a + size_of k <= PHYS_MAX;
  src_write : forall s L m, src_inv s L -> mem_ok m -> (forall x, m x <> src_mem s x -> held L x) -> src_inv (src_set s m) L;
  src_page : forall s L, src_inv s L -> let '(r, s') := src_alloc_page s in
    same_on L (src_mem s) (src_mem s') /\ match r with Some a => src_inv s' ((a, O) :: L) | None => src_inv s' L end;
  src_pages : forall s L k, src_inv s L -> let '(r, s') := src_alloc_pages s k in
    same_on L (src_mem s) (src_mem s') /\ match r with Some a => src_inv s' ((a, k) :: L) | None => src_inv s' L end;
  src_free : forall s L a k, src_inv s ((a, k) :: L) -> load32 (src_mem s) a <> POISON_PATTERN ->
    exists s', src_free_pages s a k = Some s' /\ src_inv s' L /\ same_on L (src_mem s) (src_mem s');
  src_freed : forall s L a k s', src_inv s ((a, k) :: L) -> src_free_pages s a k = Some s' ->
    src_inv s' L /\ same_on L (src_mem s) (src_mem s')
}.

(** ** Pages and slots *)

Definition pages (P : list Z) : live := map (fun p => (p, O)) P.
Definition slots (n : Z) (P : list Z) : list Z := concat (map (page_slots n) P).

Lemma elem_of_map {A B} (f : A -> B) l y : y ∈ map f l <-> exists x, y = f x /\ x ∈ l.
Proof. apply list_elem_of_fmap. Qed.

Lemma elem_of_concat {A} (ls : list (list A)) x : x ∈ concat ls <-> exists l, l ∈ ls /\ x ∈ l.
Proof. rewrite list_elem_of_In, in_concat. split; intros (l & H1 & H2); exists l; split; by apply list_elem_of_In. Qed.

Lemma in_pages P p k : (p, k) ∈ pages P <-> p ∈ P /\ k = O.
Proof. unfold pages. rewrite elem_of_map. naive_solver. Qed.

Lemma held_pages P x : held (pages P) x <-> exists p, p ∈ P /\ p <= x < p + 4096.
Proof.
  unfold held, covers. split.
  - intros (a & k & [Ha ->]%in_pages & Hx). exists a. by change (size_of 0) with 4096 in Hx.
  - intros (p & Hp & Hx). exists p, O. split; [by apply in_pages|]. by change (size_of 0) with 4096.
Qed.

Lemma in_page_slots n p s : 0 < n <= 4096 -> s ∈ page_slots n p ->
  exists i, 0 <= i < 4096 / n /\ s = p + i * n /\ p <= s /\ s + n <= p + 4096.
Proof.
  intros Hn. unfold page_slots, PAGE_SIZE. rewrite elem_of_map. intros (i & -> & Hi%elem_of_seq).
  exists (Z.of_nat i). assert (0 <= Z.of_nat i < 4096 / n) as Hb by lia. split; [done|]. split; [done|].
  pose proof (Z.mul_div_le 4096 n ltac:(lia)). nia.
Qed.

Lemma in_slots n P s : s ∈ slots n P <-> exists p, p ∈ P /\ s ∈ page_slots n p.
Proof.
  unfold slots. rewrite elem_of_concat. split.
  - intros (l & (p & -> & Hp)%elem_of_map & Hs). by exists p.
  - intros (p & Hp & Hs). exists (page_slots n p). split; [|done]. apply elem_of_map. by exists p.
Qed.

Lemma slots_ok_join n A B : 0 < n -> slots_ok n A -> slots_ok n B -> (forall s t, s ∈ A -> t ∈ B -> apart n s t) -> slots_ok n (A ++ B).
Proof.
  intros Hn (A1 & A2 & A3) (B1 & B2 & B3) Hx. split; [|split].
  - apply NoDup_app. split; [done|]. split; [|done]. intros s Hs Ht. destruct (Hx s s Hs Ht); lia.
  - intros s t. rewrite !elem_of_app. intros [Hs|Hs] [Ht|Ht] Hne; [by apply A2|by apply Hx| |by apply B2].
    destruct (Hx t s Ht Hs); unfold apart; lia.
  - by apply Forall_app.
Qed.

Lemma page_slots_ok n p : 0 < n <= 4096 -> 0 < p -> p + 4096 <= PHYS_MAX -> slots_ok n (page_slots n p).
Proof.
  intros Hn Hp Hm. split; [|split].
  - unfold page_slots. apply NoDup_fmap_2_strong; [|apply NoDup_seq]. intros i j _ _ E. assert (Z.of_nat i * n = Z.of_nat j * n) by lia. nia.
  - intros s t (i & Hi & -> & _)%in_page_slots (j & Hj & -> & _)%in_page_slots Hne; [|done|done].
    destruct (decide (i < j)); unfold apart; [left|right]; [nia|]. assert (j < i) by (destruct (decide (i = j)); [subst; done|lia]). nia.
  - apply Forall_forall. intros s (i & _ & _ & H1 & H2)%in_page_slots; [lia|done].
Qed.

Lemma slots_ok_pages n P : 0 < n <= 4096 -> live_disjoint (pages P) -> Forall (fun p => 0 < p /\ p + 4096 <= PHYS_MAX) P ->
  slots_ok n (slots n P).
Proof.
  intros Hn Hd Hp. induction P as [|p P IH]; [split; [constructor|]; split; [intros s t Hs; by apply elem_of_nil in Hs|constructor]|].
  destruct Hd as [Hd HdP]. apply Forall_cons in Hp as [[Hp1 Hp2] Hp]. cbn. apply slots_ok_join; [lia|by apply page_slots_ok|by apply IH|].
  intros s t (i & _ & _ & Hs1 & Hs2)%in_page_slots (q & Hq & (j & _ & _ & Ht1 & Ht2)%in_page_slots)%in_slots; [|done|done].
  rewrite Forall_forall in Hd. destruct (Hd (q, O)) as [Hx|Hx]; [by apply in_pages| |]; cbn [fst snd] in Hx; change (size_of 0) with 4096 in Hx; unfold apart; lia.
Qed.

Lemma held_app L L' x : held (L ++ L') x <-> held L x \/ held L' x.
Proof. induction L as [|[a k] L IH]; cbn; [|rewrite !held_cons, IH; tauto]. split; [by right|]. intros [(a & k & Ha & _)|?]; [by apply elem_of_nil in Ha|done]. Qed.

Lemma live_disjoint_split L L' x : live_disjoint (L ++ L') -> held L x -> ~ held L' x.
Proof.
  induction L as [|[a k] L IH]; cbn; [intros _ (a & k & Ha & _); by apply elem_of_nil in Ha|].
  intros [Hd HL] [Hx|Hx]%held_cons; [|by apply IH]. intros (b & j & Hb & Hx'). rewrite Forall_forall in Hd.
  destruct (Hd (b, j)); [apply elem_of_app; by right|..]; unfold covers in *; cbn in *; lia.
Qed.

Lemma live_disjoint_app L L' : live_disjoint (L ++ L') -> live_disjoint L /\ live_disjoint L'.
Proof. induction L as [|[a k] L IH]; cbn; [done|]. intros [[Hd _]%Forall_app HL]. destruct (IH HL). done. Qed.

Lemma slots_held n P s x : 0 < n <= 4096 -> s ∈ slots n P -> s <= x < s + n -> held (pages P) x.
Proof.
  intros Hn (p & Hp & Hs)%in_slots Hx. apply in_page_slots in Hs as (i & _ & _ & H1 & H2); [|done]. apply held_pages. exists p. split; [done|lia].
Qed.

Lemma poke_mem_ok m v w : mem_ok m -> mem_ok (poke m v w).
Proof. apply store_mem_ok. Qed.
Lemma write_mem_ok id m v w m' : mem_ok m -> write64 id m v w = Some m' -> mem_ok m'.
Proof. unfold write64. case_match; [|done]. intros Hm [= <-]. by apply poke_mem_ok. Qed.

Lemma refill_mem_ok id n c m k c' m' : mem_ok m -> refill_loop id n c m = Some (k, c', m') -> mem_ok m'.
Proof.
  revert c m k c' m'. induction n as [|n IH]; intros c m k c' m' Hm; cbn; [by intros [= <- <- <-]|].
  case_match; [by intros [= <- <- <-]|]. intros (next & _ & E)%bind_Some. apply bind_Some in E as (m1 & E1 & E).
  destruct (round_push _ _) as [[] r]; [|done]. apply bind_Some in E as ([[k2 c2] m2] & E & [= <- <- <-]). eapply IH; [|exact E].
  case_match; [|by injection E1 as <-]. apply bind_Some in E1 as (m0 & E0 & E1). by eapply write_mem_ok; [eapply write_mem_ok|].
Qed.

Lemma flush_mem_ok id n c m c' m' : mem_ok m -> flush_loop id n c m = Some (c', m') -> mem_ok m'.
Proof.
  revert c m c' m'. induction n as [|n IH]; intros c m c' m' Hm; cbn; [by intros [= <- <-]|].
  destruct (round_pop _) as [[p|] r]; [|by intros [= <- <-]]. intros (m1 & E & ?)%bind_Some. by eapply IH; [eapply write_mem_ok|].
Qed.

Lemma carve_mem_ok id n p c m c' m' : mem_ok m -> carve id n p c m = Some (c', m') -> mem_ok m'.
Proof.
  revert c m c' m'. induction n as [|n IH]; intros c m c' m' Hm; cbn; [by intros [= <- <-]|].
  intros (m1 & E & ?)%bind_Some. by eapply IH; [eapply write_mem_ok|].
Qed.

Lemma convert_chain_mem_ok id n o v m m' : mem_ok m -> convert_chain id n o v m = Some m' -> mem_ok m'.
Proof.
  revert v m m'. induction n as [|n IH]; intros v m m' Hm; cbn; [done|]. intros (next & _ & E)%bind_Some. revert E. case_match; [by intros [= <-]|].
  intros (w & _ & E)%bind_Some. apply bind_Some in E as (m1 & E & ?). by eapply IH; [eapply write_mem_ok|].
Qed.

Lemma cache_convert_mem_ok id c o m c' m' : mem_ok m -> cache_convert id c o m = Some (c', m') -> mem_ok m'.
Proof.
  intros Hm. unfold cache_convert. destruct (convert_addrs (current c) o); cbn; [|done]. destruct (convert_addrs (prev c) o); cbn; [|done].
  case_match; [by intros [= <- <-]|]. destruct (checked_add _ _ _); cbn; [|done].
  destruct (convert_chain _ _ _ _ _) eqn:E; cbn; [|done]. intros [= <- <-]. by eapply convert_chain_mem_ok.
Qed.

(** ** Cache operations *)

(** The live objects: their pointers and layouts. *)
Notation objs := (list (Z * Layout)).

Section laws.
Context {S : Type} `{HS : PageSourceLaws S}.

Definition cache_pages (d : maps) (c : SlabCache) (m : mem) (P F O : list Z) : Prop :=
  cache_inv d c m (slots (alloc_size c) P) F O /\ pages_used c = alen P.

(** The bytes that an operation of the cache leaves alone: the blocks [L] and
    the slots of the objects [O]. *)
Definition keeps (c : SlabCache) (L : live) (O : list Z) (m m' : mem) : Prop :=
  same_on L m m' /\ forall p x, p ∈ O -> slot_of c p <= x < slot_of c p + alloc_size c -> m' x = m x.

Lemma keeps_refl c L O m : keeps c L O m m.
Proof. done. Qed.
Lemma keeps_trans c L O m1 m2 m3 : keeps c L O m1 m2 -> keeps c L O m2 m3 -> keeps c L O m1 m3.
Proof. intros [H1 H2] [H3 H4]. split; [intros x Hx; by rewrite H3, H1|intros p x Hp Hx; by rewrite (H4 p), (H2 p)]. Qed.

Lemma size_bounds d c m SL F O : cache_inv d c m SL F O -> 0 < alloc_size c <= 4096.
Proof. intros Hi. destruct (size_facts c (ci_size _ _ _ _ _ _ Hi)) as (H1 & H2 & H3 & [[_ ?]|[_ ?]]); lia. Qed.

(** An operation that only touches slots no client has. *)
Lemma touches_write d c s P F O L m' : src_inv s (pages P ++ L) -> cache_pages d c (src_mem s) P F O -> mem_ok m' ->
  touches c (slots (alloc_size c) P) O (src_mem s) m' -> src_inv (src_set s m') (pages P ++ L) /\ keeps c L O (src_mem s) m'.
Proof.
  intros Hs [Hi _] Hm Ht. pose proof (size_bounds _ _ _ _ _ _ Hi) as Hn. split.
  - apply src_write; [done|done|]. intros x Hx. destruct (Ht x Hx) as (t & Hin & _ & Hxt). apply held_app. left. by eapply slots_held.
  - split.
    + intros x Hx. destruct (decide (m' x = src_mem s x)) as [?|Hd]; [done|]. destruct (Ht x Hd) as (t & Hin & _ & Hxt).
      exfalso. by apply (live_disjoint_split (pages P) L x); [eapply src_disjoint|eapply slots_held|].
    + intros p x Hp Hx. destruct (decide (m' x = src_mem s x)) as [?|Hd]; [done|]. destruct (Ht x Hd) as (t & Hin & Hno & Hxt).
      exfalso. destruct (ptr_slot _ _ _ _ _ _ p Hi) as (Hsl & _); [unfold ptrs; rewrite !elem_of_app; tauto|].
      destruct (ci_ok _ _ _ _ _ _ Hi) as (_ & Hap & _). destruct (Hap t (slot_of c p) Hin Hsl); [|lia|lia].
      intros ->. apply Hno, elem_of_map. by exists p.
Qed.

Lemma cache_pages_mem d c m m' P F O : cache_pages d c m P F O -> same_on (pages P) m m' -> cache_pages d c m' P F O.
Proof.
  intros [Hi Hp] Hm. split; [|done]. pose proof (size_bounds _ _ _ _ _ _ Hi) as Hn.
  assert (forall t x, t ∈ slots (alloc_size c) P -> t <= x < t + alloc_size c -> m' x = m x) as Hsl.
  { intros t x Ht Hx. apply Hm. by eapply slots_held. }
  destruct (size_facts c (ci_size _ _ _ _ _ _ Hi)) as (H1 & H2 & H3 & H4).
  apply (cache_inv_mem d c m); [done| |].
  - intros v x Hv Hx. apply (Hsl (pa v)); [|lia]. rewrite (ci_slots _ _ _ _ _ _ Hi). apply elem_of_app. left. apply elem_of_map. by exists v.
  - intros p x Hpp _ Hx. destruct (ptr_slot _ _ _ _ _ _ p Hi Hpp) as (Hin & _). apply (Hsl (slot_of c p)); [done|lia].
Qed.

Lemma same_on_l L L' m m' : same_on (L ++ L') m m' -> same_on L m m' /\ same_on L' m m'.
Proof. intros H1. split; intros x Hx; apply H1, held_app; tauto. Qed.

Lemma phys_addr d a n : 0 < a -> 0 <= n -> a + n < PHYS_MAX ->
  addr_ok d (phys_to_virt (dmap d) a + n) /\ pa (phys_to_virt (dmap d) a + n) = a + n.
Proof.
  pose proof max_below. intros Ha Hn Hm. unfold addr_ok. destruct (dmap d); cbn.
  - rewrite pa_high by lia. split; [|lia]. right. split; [done|lia].
  - rewrite pa_low by lia. split; [|done]. left. lia.
Qed.

(** A CPU without the identity map runs the heap only when it uses the
    direct map. *)
Definition mapped (d : maps) : Prop := idmap d = true \/ dmap d = true.

Lemma phys_reachable d a : mapped d -> 0 < a -> reachable d (phys_to_virt (dmap d) a).
Proof. intros [Hd|Hd] Ha; apply reachable_cases; [by left|right]. rewrite Hd. cbn. lia. Qed.

Lemma new_page_slots n a P L s : 0 < n <= 4096 -> src_inv s (pages (a :: P) ++ L) -> slots_ok n (slots n (a :: P)).
Proof.
  intros Hn Hs. apply slots_ok_pages; [done|exact (proj1 (live_disjoint_app _ _ (src_disjoint _ _ Hs)))|]. apply Forall_forall. intros p Hp.
  destruct (src_blocks s _ p O Hs) as (_ & H1 & H2); [apply elem_of_app; left; by apply in_pages|]. by change (size_of 0) with 4096 in H2.
Qed.

Lemma grow_ok d c s P F O L : mapped d -> src_inv s (pages P ++ L) -> cache_pages d c (src_mem s) P F O ->
  exists c' s' P' F', grow (idmap d) (dmap d) c s = Some (c', s') /\ src_inv s' (pages P' ++ L) /\ cache_pages d c' (src_mem s') P' F' O /\
    same_sizes c c' /\ keeps c L O (src_mem s) (src_mem s') /\ current c' = current c /\ ((src_alloc_page s).1 = None \/ F' <> []).
Proof.
  intros Hmap Hs Hi. pose proof (src_page s _ Hs) as Hp. unfold grow. destruct (src_alloc_page s) as [r s1]. destruct Hp as [Hsame Hs1].
  pose proof Hi as [Hi0 Hpg]. pose proof (size_bounds _ _ _ _ _ _ Hi0) as Hn.
  assert (keeps c L O (src_mem s) (src_mem s1)) as Hk1.
  { split; [intros x Hx; apply Hsame, held_app; by right|]. intros p x Hp Hx. apply Hsame, held_app. left.
    eapply (slots_held (alloc_size c) P (slot_of c p)); [done| |done]. eapply (ptr_slot _ _ _ _ _ _ p Hi0). unfold ptrs. rewrite !elem_of_app. tauto. }
  destruct r as [a|].
  2:{ exists c, s1, P, F. split_and!; try done; [by apply (cache_pages_mem d c (src_mem s)), (same_on_l _ L)|by left]. }
  change ((a, Datatypes.O) :: pages P ++ L) with (pages (a :: P) ++ L) in Hs1.
  assert (cache_inv d (add_page c) (src_mem s1) (slots (alloc_size c) P) F O) as Hi1.
  { destruct (cache_pages_mem _ _ _ (src_mem s1) _ _ _ Hi (proj1 (same_on_l _ _ _ _ Hsame))) as [[] _]. by constructor. }
  destruct (src_blocks s1 _ a Datatypes.O Hs1) as (_ & Ha & Ha2); [by left|]. change (size_of 0) with 4096 in Ha2.
  destruct (phys_addr d a 0 Ha) as [_ Epa]; [lia|lia|]. rewrite !Z.add_0_r in Epa.
  destruct (carve_ok (Z.to_nat (PAGE_SIZE / alloc_size c)) d (add_page c) (src_mem s1) _ F O (phys_to_virt (dmap d) a) Hi1 (phys_reachable d a Hmap Ha))
    as (c2 & m2 & F2 & E & H2 & Hsz & Hpg2 & Hcur & Ht & Hne).
  { intros i Hlt. cbn [alloc_size add_page]. rewrite Epa. pose proof (Z.mul_div_le PAGE_SIZE (alloc_size c) ltac:(lia)). unfold PAGE_SIZE in *.
    apply phys_addr; [done|nia|]. nia. }
  { rewrite Epa. by apply (new_page_slots (alloc_size c) a P L s1). }
  rewrite E. cbn [mbind option_bind]. rewrite Epa in H2. exists c2, (src_set s1 m2), (a :: P), F2. rewrite src_mem_set. destruct Hsz as [Hsz1 Hsz2]. cbn in Hsz1, Hsz2, Hpg2, Hcur.
  assert (cache_pages d c2 m2 (a :: P) F2 O) as H2' by (split; [by rewrite Hsz2|rewrite Hpg2, alen_cons; lia]).
  assert (forall x, m2 x <> src_mem s1 x -> a <= x < a + 4096) as Ht'.
  { intros x Hx. destruct (Ht x Hx) as (i & Hlt & Hxi). cbn [alloc_size add_page] in Hxi. rewrite Epa in Hxi.
    pose proof (Z.mul_div_le PAGE_SIZE (alloc_size c) ltac:(lia)). unfold PAGE_SIZE in *. nia. }
  assert (keeps c L O (src_mem s1) m2) as Hk2.
  { split; [intros x Hx|intros p x Hp Hx]; (destruct (decide (m2 x = src_mem s1 x)) as [?|Hd]; [done|exfalso; apply Ht' in Hd]).
    - apply (live_disjoint_split [(a, Datatypes.O)] (pages P ++ L) x); [by apply (src_disjoint s1)|apply held_cons; by left|apply held_app; by right].
    - apply (live_disjoint_split [(a, Datatypes.O)] (pages P ++ L) x); [by apply (src_disjoint s1)|apply held_cons; by left|apply held_app; left].
      eapply (slots_held (alloc_size c) P (slot_of c p)); [done| |done]. eapply (ptr_slot _ _ _ _ _ _ p Hi0). unfold ptrs. rewrite !elem_of_app. tauto. }
  split_and!; try done; [|by eapply keeps_trans|right; apply Hne; left].
  - apply src_write; [done|eapply carve_mem_ok; [by eapply src_bytes|exact E]|]. intros x Hx. apply held_cons. left. by apply Ht'.
  - unfold PAGE_SIZE. assert (0 < 4096 / alloc_size c) by (apply Z.div_str_pos; lia). lia.
Qed.

(** Pointers move between the magazines and the clients. *)
Lemma cache_inv_ptrs d c c' m SL F O O' : cache_inv d c m SL F O -> same_sizes c c' -> free_head c' = free_head c ->
  round_ok (current c') -> round_ok (prev c') -> ptrs c' O' ≡ₚ ptrs c O -> Forall (reachable d) (kept_addrs c' F) -> cache_inv d c' m SL F O'.
Proof.
  intros [? ? ? Hc Hf Ha Hp Hok Hz _] [E1 E2] Eh Hr1 Hr2 Hperm Hre.
  assert (has_red_zones c' = has_red_zones c) as Eh' by (unfold has_red_zones; by rewrite E1, E2).
  constructor; try done.
  - unfold size_ok. by rewrite E1, E2.
  - by rewrite Eh.
  - by rewrite Hperm.
  - rewrite Hp, Hperm, (map_ext (slot_of c') (slot_of c)); [done|]. intros p. by apply same_slot.
  - by rewrite E2.
  - rewrite Hperm. eapply Forall_impl; [exact Hz|]. intros p Hzp. unfold zones_ok, red_zones_intact in *. by rewrite Eh', E1.
Qed.

Lemma cache_pages_ptrs d c c' m P F O O' : cache_pages d c m P F O -> same_sizes c c' -> free_head c' = free_head c ->
  pages_used c' = pages_used c -> round_ok (current c') -> round_ok (prev c') -> ptrs c' O' ≡ₚ ptrs c O ->
  Forall (reachable d) (kept_addrs c' F) -> cache_pages d c' m P F O'.
Proof.
  intros [Hi Hp] Hs Eh Ep Hr1 Hr2 Hperm Hre. split; [|congruence]. destruct Hs as [Es1 Es2]. rewrite Es2.
  by eapply cache_inv_ptrs.
Qed.

Lemma refill_magazine_ok d c s P F O L : mapped d -> src_inv s (pages P ++ L) -> cache_pages d c (src_mem s) P F O -> stack (current c) = [] ->
  exists c' s' P' F', refill_magazine (idmap d) (dmap d) c s = Some (c', s') /\ src_inv s' (pages P' ++ L) /\ cache_pages d c' (src_mem s') P' F' O /\
    same_sizes c c' /\ keeps c L O (src_mem s) (src_mem s') /\ ((src_alloc_page s).1 = None \/ stack (current c') <> []).
Proof.
  intros Hmap Hs Hi He. pose proof Hi as [Hi0 Hpg]. unfold refill_magazine.
  assert (mcount (current c) = 0) as Hm0 by (rewrite <-stack_length by apply Hi0; by rewrite He).
  destruct (refill_loop_ok (Z.to_nat MAGAZINE_SIZE) d c (src_mem s) _ F O Hi0) as (k & c1 & m1 & F1 & E1 & Hk & H1 & Hsz1 & Hpg1 & Ht1 & Hk0 & Hk1);
    [rewrite Hm0; done|]. rewrite E1. cbn [mbind option_bind].
  destruct (Z.eqb_spec k 0) as [->|Hne].
  - destruct (Hk0 eq_refl) as (-> & -> & _). rewrite src_set_mem.
    destruct (grow_ok d c s P F O L Hmap Hs Hi) as (c2 & s2 & P2 & F2 & -> & Hs2 & H2 & Hsz2 & Hkp2 & Hcur & Hor). cbn [mbind option_bind].
    pose proof H2 as [H20 Hpg2].
    destruct (refill_loop_ok (Z.to_nat MAGAZINE_SIZE) d c2 (src_mem s2) _ F2 O H20) as (k3 & c3 & m3 & F3 & E3 & Hk3 & H3 & Hsz3 & Hpg3 & Ht3 & Hk30 & Hk31);
      [rewrite Hcur, Hm0; done|]. rewrite E3. cbn [mbind option_bind].
    destruct (touches_write d c2 s2 P2 F2 O L m3) as [Hw Hkp3]; [done|done|eapply refill_mem_ok; [by eapply src_bytes|done]|done|].
    exists c3, (src_set s2 m3), P2, F3. rewrite src_mem_set. destruct Hsz2 as [A1 A2], Hsz3 as [B1 B2]. split_and!; try done.
    + split; [by rewrite B2|congruence].
    + split; congruence.
    + eapply keeps_trans; [exact Hkp2|]. destruct Hkp3 as [K1 K2]. split; [done|]. intros p x Hp. rewrite <-A2, <-(same_slot c c2) by done. by apply K2.
    + destruct Hor as [?|HF]; [by left|right]. destruct (decide (k3 = 0)) as [->|?]; [|apply Hk31; lia].
      destruct (Hk30 eq_refl) as (_ & _ & [?|?]); done.
  - destruct (touches_write d c s P F O L m1) as [Hw Hkp]; [done|done|eapply refill_mem_ok; [by eapply src_bytes|done]|done|].
    exists c1, (src_set s m1), P, F1. rewrite src_mem_set. destruct Hsz1 as [A1 A2]. split_and!; try done.
    + split; [by rewrite A2|congruence].
    + right. apply Hk1. lia.
Qed.

(** Handing the top of the current round to a client. *)
Lemma pop_client d c m P F O p r : cache_pages d c m P F O -> stack (current c) = stack r ++ [p] -> round_ok r ->
  cache_pages d (set_current c r) m P F (p :: O) /\ p <> 0 /\ reachable d p.
Proof.
  intros Hi Hst Hr. split; [|split].
  - eapply cache_pages_ptrs; [done|done|done|done|done|apply Hi| |].
    + unfold ptrs. cbn. rewrite Hst. solve_Permutation.
    + pose proof (ci_reach _ _ _ _ _ _ (proj1 Hi)) as Hre. unfold kept_addrs in *. cbn. rewrite Hst, !Forall_app in Hre. rewrite !Forall_app. tauto.
  - destruct Hi as [Hi _]. pose proof (ci_ptrs _ _ _ _ _ _ Hi) as Ha. rewrite Forall_forall in Ha.
    assert (addr_ok d p) as Hp; [|by apply addr_64 in Hp; lia]. apply Ha. unfold ptrs. rewrite Hst, !elem_of_app, list_elem_of_singleton. tauto.
  - pose proof (ci_reach _ _ _ _ _ _ (proj1 Hi)) as Ha. rewrite Forall_forall in Ha. apply Ha. unfold kept_addrs. rewrite Hst, !elem_of_app, list_elem_of_singleton. tauto.
Qed.

Lemma swap_rounds d c m P F O : cache_pages d c m P F O -> cache_pages d (set_rounds c (prev c) (current c)) m P F O.
Proof.
  intros Hi. eapply cache_pages_ptrs; [done|done|done|done|apply Hi|apply Hi|unfold ptrs; cbn; solve_Permutation|].
  pose proof (ci_reach _ _ _ _ _ _ (proj1 Hi)) as Hre. unfold kept_addrs in *. cbn. rewrite !Forall_app in *. tauto.
Qed.

Lemma cache_alloc_ok d c s P F O L : mapped d -> src_inv s (pages P ++ L) -> cache_pages d c (src_mem s) P F O ->
  exists p c' s' P' F', cache_alloc (idmap d) (dmap d) c s = Some (p, c', s') /\ src_inv s' (pages P' ++ L) /\ same_sizes c c' /\
    keeps c L O (src_mem s) (src_mem s') /\
    (p = 0 /\ (src_alloc_page s).1 = None /\ cache_pages d c' (src_mem s') P' F' O \/ p <> 0 /\ reachable d p /\ cache_pages d c' (src_mem s') P' F' (p :: O)).
Proof.
  intros Hmap Hs Hi. unfold cache_alloc. pose proof (round_pop_spec (current c) ltac:(apply Hi)) as Hp1.
  destruct (round_pop (current c)) as [[p|] r]; destruct Hp1 as [Hr1 Hst1].
  { destruct (pop_client _ _ _ _ _ _ _ _ Hi Hst1 Hr1) as (? & ? & ?). exists p, (set_current c r), s, P, F. split_and!; try done. by right. }
  pose proof (swap_rounds _ _ _ _ _ _ Hi) as Hi2. set (c1 := set_rounds c (prev c) (current c)) in *.
  pose proof (round_pop_spec (current c1) ltac:(apply Hi2)) as Hp2. destruct (round_pop (current c1)) as [[p|] r2]; destruct Hp2 as [Hr2 Hst2].
  { destruct (pop_client _ _ _ _ _ _ _ _ Hi2 Hst2 Hr2) as (? & ? & ?). exists p, (set_current c1 r2), s, P, F. split_and!; try done. by right. }
  destruct (refill_magazine_ok d c1 s P F O L Hmap Hs Hi2 Hst2) as (c3 & s3 & P3 & F3 & -> & Hs3 & Hi3 & Hsz & Hk & Hor). cbn [mbind option_bind].
  pose proof (round_pop_spec (current c3) ltac:(apply Hi3)) as Hp3. destruct (round_pop (current c3)) as [[p|] r3]; destruct Hp3 as [Hr3 Hst3].
  - destruct (pop_client _ _ _ _ _ _ _ _ Hi3 Hst3 Hr3) as (? & ? & ?). exists p, (set_current c3 r3), s3, P3, F3. split_and!; try done. by right.
  - exists 0, c3, s3, P3, F3. split_and!; try done. left. destruct Hor; [done|congruence].
Qed.

Lemma push_client d c m P F O p r : reachable d p -> cache_pages d c m P F (p :: O) -> stack r = stack (current c) ++ [p] -> round_ok r ->
  cache_pages d (set_current c r) m P F O.
Proof.
  intros Hp Hi Hst Hr. eapply cache_pages_ptrs; [done|done|done|done|done|apply Hi|unfold ptrs; cbn; rewrite Hst; solve_Permutation|].
  pose proof (ci_reach _ _ _ _ _ _ (proj1 Hi)) as Hre. unfold kept_addrs in *. cbn. rewrite Hst, !Forall_app, Forall_singleton. rewrite !Forall_app in Hre. tauto.
Qed.

Lemma cache_dealloc_ok d c s P F O L p : reachable d p -> src_inv s (pages P ++ L) -> cache_pages d c (src_mem s) P F (p :: O) ->
  exists c' s' F', cache_dealloc (idmap d) c s p = Some (false, c', s') /\ src_inv s' (pages P ++ L) /\ cache_pages d c' (src_mem s') P F' O /\
    same_sizes c c' /\ keeps c L O (src_mem s) (src_mem s').
Proof.
  intros Hpr Hs Hi. unfold cache_dealloc.
  assert ((if has_red_zones c then check_red_zones (idmap d) c (src_mem s) p else Some false) = Some false) as ->.
  { destruct (has_red_zones c) eqn:E; [|done]. eapply check_eq; [apply Hi| |done|done]. unfold ptrs. rewrite !elem_of_app, elem_of_cons. tauto. }
  cbn [mbind option_bind].
  pose proof (round_push_spec (current c) p ltac:(apply Hi)) as Hp1. destruct (round_push (current c) p) as [[] r]; destruct Hp1 as [Hr1 Hst1].
  { exists (set_current c r), s, F. split_and!; try done. by apply (push_client _ _ _ _ _ _ p). }
  pose proof (swap_rounds _ _ _ _ _ _ Hi) as Hi2. set (c1 := set_rounds c (prev c) (current c)) in *.
  pose proof (round_push_spec (current c1) p ltac:(apply Hi2)) as Hp2. destruct (round_push (current c1) p) as [[] r2]; destruct Hp2 as [Hr2 Hst2].
  { exists (set_current c1 r2), s, F. split_and!; try done. by apply (push_client _ _ _ _ _ _ p). }
  pose proof Hi2 as [Hi20 Hpg2]. unfold flush_magazine_to_freelist.
  destruct (flush_loop_ok (Z.to_nat MAGAZINE_SIZE + 1) d c1 (src_mem s) _ F (p :: O) Hi20) as (c3 & m3 & F3 & E & Hi3 & Hsz & Hpg & Ht & He);
    [rewrite Hst2; lia|]. rewrite E. cbn [mbind option_bind].
  destruct (touches_write d c1 s P F (p :: O) L m3) as [Hw [Hk1 Hk2]]; [done|done|eapply flush_mem_ok; [by eapply src_bytes|done]|done|].
  destruct Hsz as [A1 A2]. cbn in A1, A2.
  assert (cache_pages d c3 m3 P F3 (p :: O)) as Hi3' by (split; [by rewrite A2|congruence]).
  pose proof (round_push_spec (current c3) p ltac:(apply Hi3)) as Hp3. destruct (round_push (current c3) p) as [[] r3]; destruct Hp3 as [Hr3 Hst3].
  - exists (set_current c3 r3), (src_set s m3), F3. rewrite src_mem_set. split_and!; try done; [by apply (push_client _ _ _ _ _ _ p)|].
    split; [done|]. intros q x Hq. apply Hk2. by right.
  - assert (mcount (current c3) = 0) as E0 by (rewrite <-stack_length by apply Hi3; by rewrite He). rewrite E0 in Hst3. done.
Qed.

(** ** The heap *)

Section heap.
Context (id : bool).

Definition layout_ok (l : Layout) : Prop := 0 <= l_size l /\ exists n, 0 <= n /\ l_align l = 2 ^ n.

Definition large (os : objs) : live :=
  map (fun o => (pa o.1, page_order o.2)) (filter (fun o => PAGE_SIZE < effective_size o.2) os).
Definition small_in (i : nat) (o : Z * Layout) : Prop := effective_size o.2 <= PAGE_SIZE /\ cache_index o.2 = Some i.
#[export] Instance small_in_dec i o : Decision (small_in i o).
Proof. unfold small_in. apply _. Defined.
Definition smalls (i : nat) (os : objs) : list Z := map fst (filter (small_in i) os).

(** Where the heap's addresses are: [id] says whether its lists may hold
    identity addresses. *)
Definition at_maps (h : heap S) : maps := mk_maps (direct h) id.

Record heap_inv (h : heap S) (os : objs) (Ps : list (list Z)) : Prop := {
  hi_caches : length (caches h) = length CACHE_SIZES;
  hi_pages : length Ps = length CACHE_SIZES;
  hi_src : src_inv (src h) (pages (concat Ps) ++ large os);
  hi_cache : forall i c P, caches h !! i = Some c -> Ps !! i = Some P -> CACHE_SIZES !! i = Some (object_size c) /\
    exists F, cache_pages (at_maps h) c (src_mem (src h)) P F (smalls i os);
  hi_large : Forall (fun o => PAGE_SIZE < effective_size o.2 -> addr_ok (at_maps h) o.1) os;
  hi_layout : Forall (fun o => layout_ok o.2) os;
  hi_mapped : mapped (at_maps h)
}.

Lemma pages_app P Q : pages (P ++ Q) = pages P ++ pages Q.
Proof. apply map_app. Qed.

Lemma concat_delete (Ps : list (list Z)) i P : Ps !! i = Some P -> concat Ps ≡ₚ P ++ concat (delete i Ps).
Proof.
  revert i. induction Ps as [|Q Ps IH]; intros [|i]; cbn; [done|done|by intros [= ->]|]. intros Hi. rewrite (IH i Hi). solve_Permutation.
Qed.
Lemma concat_insert (Ps : list (list Z)) i P : (i < length Ps)%nat -> concat (<[i := P]> Ps) ≡ₚ P ++ concat (delete i Ps).
Proof.
  revert i. induction Ps as [|Q Ps IH]; intros [|i] Hi; cbn in *; [lia|lia|done|]. rewrite (IH i) by lia. solve_Permutation.
Qed.

Lemma pages_perm P Q : P ≡ₚ Q -> pages P ≡ₚ pages Q.
Proof. intros H0. unfold pages. by rewrite H0. Qed.

(** The rest of memory, seen from cache [i]. *)
Definition others (i : nat) (Ps : list (list Z)) (os : objs) : live := pages (concat (delete i Ps)) ++ large os.

Lemma heap_focus h os Ps i P : heap_inv h os Ps -> Ps !! i = Some P -> src_inv (src h) (pages P ++ others i Ps os).
Proof.
  intros Hi HP. eapply src_perm; [|apply Hi]. unfold others. rewrite app_assoc, <-pages_app. f_equiv. by apply pages_perm, concat_delete.
Qed.

Lemma others_pages i j Ps os P x : Ps !! j = Some P -> i <> j -> held (pages P) x -> held (others i Ps os) x.
Proof.
  intros HP Hne Hx. apply held_app. left. rewrite held_pages in *. destruct Hx as (p & Hp & Hx). exists p. split; [|done].
  apply elem_of_concat. exists P. split; [|done]. apply list_elem_of_lookup. destruct (decide (j < i)%nat).
  - exists j. by rewrite list_lookup_delete_lt.
  - exists (pred j). rewrite list_lookup_delete_ge by lia. by replace (Datatypes.S (pred j)) with j by lia.
Qed.

(** An operation on cache [i]. *)
Lemma heap_update h os os' Ps i c c' s' P P' F' O0 O' : heap_inv h os Ps ->
  caches h !! i = Some c -> Ps !! i = Some P -> same_sizes c c' ->
  src_inv s' (pages P' ++ others i Ps os) -> keeps c (others i Ps os) O0 (src_mem (src h)) (src_mem s') ->
  cache_pages (at_maps h) c' (src_mem s') P' F' O' -> smalls i os' ≡ₚ O' ->
  large os' ≡ₚ large os -> (forall j, j <> i -> smalls j os' ≡ₚ smalls j os) ->
  Forall (fun o => PAGE_SIZE < effective_size o.2 -> addr_ok (at_maps h) o.1) os' -> Forall (fun o => layout_ok o.2) os' ->
  heap_inv (mk_heap (<[i := c']> (caches h)) (direct h) s') os' (<[i := P']> Ps).
Proof.
  intros Hi Hc HP Hsz Hs [Hk _] Hcp Hsm Hlg Hother Hla Hly. pose proof Hi as [H1 H2 H3 H4 H5 H6 H7].
  assert (i < length Ps)%nat as Hlt by (by eapply lookup_lt_Some).
  assert (forall d cc m Q F O1 O2, O2 ≡ₚ O1 -> cache_pages d cc m Q F O1 -> cache_pages d cc m Q F O2) as Hperm.
  { intros d cc m Q F O1 O2 E Hcc. eapply cache_pages_ptrs; [exact Hcc|done|done|done|apply Hcc|apply Hcc|unfold ptrs; by rewrite E|apply Hcc]. }
  constructor; cbn [caches src direct]; [by rewrite length_insert|by rewrite length_insert| | |done|done|done].
  - eapply src_perm; [|exact Hs]. rewrite Hlg. unfold others. rewrite app_assoc, <-pages_app. f_equiv. by apply pages_perm; symmetry; apply concat_insert.
  - intros j cj Pj. destruct (decide (j = i)) as [->|Hne].
    + rewrite !list_lookup_insert_eq by (done || (rewrite H1, <-H2; done)). intros [= <-] [= <-]. destruct (H4 i c P Hc HP) as [Hsize _].
      split; [destruct Hsz as [-> _]; done|]. exists F'. by eapply Hperm.
    + rewrite !list_lookup_insert_ne by done. intros Hj HPj. destruct (H4 j cj Pj Hj HPj) as [Hsize [F HF]]. split; [done|]. exists F.
      eapply Hperm; [by apply Hother|]. eapply cache_pages_mem; [exact HF|]. intros x Hx. apply Hk. by eapply others_pages.
Qed.

(** ** Objects *)

Definition kept (os : objs) (m m' : mem) : Prop := forall p l x, (p, l) ∈ os -> pa p <= x < pa p + l_size l -> m' x = m x.

Lemma effective_pos l : layout_ok l -> 0 < effective_size l /\ l_size l <= effective_size l.
Proof. intros (Hs & n & Hn & Ha). unfold effective_size. pose proof (Z.pow_pos_nonneg 2 n). lia. Qed.

Lemma cache_index_spec l : effective_size l <= PAGE_SIZE -> exists i s, cache_index l = Some i /\ CACHE_SIZES !! i = Some s /\ effective_size l <= s /\
  (512 < effective_size l -> s = PAGE_SIZE).
Proof.
  unfold PAGE_SIZE, cache_index, CACHE_SIZES. intros Hl. cbn [position].
  repeat (match goal with |- context [?a >=? ?b] => destruct (Z.geb_spec a b) end; [eexists _, _; split; [done|]; split; [done|]; lia|]). lia.
Qed.

Lemma order_fits l : layout_ok l -> PAGE_SIZE < effective_size l -> l_size l <= size_of (page_order l).
Proof.
  intros Hl Hp. destruct (effective_pos l Hl) as [_ Hs]. unfold size_of, page_order, PAGE_SIZE in *.
  set (n := div_ceil (effective_size l) 4096). assert (1 < n) as Hn by (unfold n, div_ceil; assert (2 <= (effective_size l + 4096 - 1) / 4096); [apply Z.div_le_lower_bound; lia|lia]).
  pose proof (Z.log2_up_spec n Hn) as [_ Hlog]. rewrite Z2Nat.id by apply Z.log2_up_nonneg.
  assert (effective_size l <= 4096 * n) as He; [|lia]. unfold n, div_ceil. pose proof (Z.mul_div_le (effective_size l + 4096 - 1) 4096 ltac:(lia)).
  pose proof (Z.mod_pos_bound (effective_size l + 4096 - 1) 4096 ltac:(lia)). pose proof (Z.div_mod (effective_size l + 4096 - 1) 4096 ltac:(lia)). lia.
Qed.

(** Where an object lies: in a slot of its cache, or in its own block. *)
Inductive placed (h : heap S) (os : objs) (Ps : list (list Z)) (p : Z) (l : Layout) : Prop :=
| placed_small i c P F : caches h !! i = Some c -> Ps !! i = Some P -> small_in i (p, l) -> CACHE_SIZES !! i = Some (object_size c) ->
    cache_pages (at_maps h) c (src_mem (src h)) P F (smalls i os) -> p ∈ smalls i os ->
    slot_of c p ∈ slots (alloc_size c) P -> pa p = slot_of c p + red_zone_offset c -> pa p + l_size l <= slot_of c p + alloc_size c ->
    addr_ok (at_maps h) p -> placed h os Ps p l
| placed_large : PAGE_SIZE < effective_size l -> (pa p, page_order l) ∈ large os -> l_size l <= size_of (page_order l) ->
    addr_ok (at_maps h) p -> placed h os Ps p l.

Lemma object_placed h os Ps p l : heap_inv h os Ps -> (p, l) ∈ os -> placed h os Ps p l.
Proof.
  intros Hi Hin. pose proof (hi_layout _ _ _ Hi) as Hl. rewrite Forall_forall in Hl. specialize (Hl _ Hin). cbn in Hl.
  destruct (decide (PAGE_SIZE < effective_size l)) as [Hbig|Hsmall].
  - pose proof (hi_large _ _ _ Hi) as Ha. rewrite Forall_forall in Ha. apply placed_large; [done| |by apply order_fits|by apply (Ha (p, l))].
    unfold large. apply elem_of_map. exists (p, l). split; [done|]. apply list_elem_of_filter. done.
  - destruct (cache_index_spec l) as (i & s & Ei & Es & Hs & _); [lia|].
    assert (is_Some (caches h !! i)) as [c Hc] by (apply lookup_lt_is_Some_2; rewrite (hi_caches _ _ _ Hi); by eapply lookup_lt_Some).
    assert (is_Some (Ps !! i)) as [P HP] by (apply lookup_lt_is_Some_2; rewrite (hi_pages _ _ _ Hi); by eapply lookup_lt_Some).
    destruct (hi_cache _ _ _ Hi i c P Hc HP) as [Hsize [F HF]].
    assert (small_in i (p, l)) as Hsm by (split; cbn; [lia|done]).
    assert (p ∈ smalls i os) as Hp by (apply elem_of_map; exists (p, l); split; [done|]; by apply list_elem_of_filter).
    destruct (ptr_slot _ _ _ _ _ _ p (proj1 HF)) as (H1 & H2 & H3 & _); [unfold ptrs; rewrite !elem_of_app; tauto|].
    apply (placed_small _ _ _ _ _ i c P F); try done. rewrite Es in Hsize. injection Hsize as ->.
    destruct (effective_pos l Hl) as [_ Hle]. destruct (size_facts c (ci_size _ _ _ _ _ _ (proj1 HF))) as (_ & S2 & _ & [[_ ?]|[_ ?]]); lia.
Qed.

Lemma held_concat (Ps : list (list Z)) i P x : Ps !! i = Some P -> held (pages P) x -> held (pages (concat Ps)) x.
Proof.
  rewrite !held_pages. intros HP (q & Hq & Hx). exists q. split; [|done]. apply elem_of_concat. exists P. split; [by eapply list_elem_of_lookup_2|done].
Qed.

(** An object in a slot lies in a page of its cache. *)
Lemma slot_held d c m P F O p n x : cache_pages d c m P F O -> slot_of c p ∈ slots (alloc_size c) P -> pa p = slot_of c p + red_zone_offset c ->
  pa p + n <= slot_of c p + alloc_size c -> pa p <= x < pa p + n -> held (pages P) x.
Proof.
  intros [Hi _] Hsl Hpa Hend Hx. pose proof (size_bounds _ _ _ _ _ _ Hi). eapply (slots_held (alloc_size c)); [lia|exact Hsl|].
  destruct (size_facts c (ci_size _ _ _ _ _ _ Hi)) as (_ & _ & _ & [[_ ?]|[_ ?]]); lia.
Qed.

Lemma object_held h os Ps p l x : heap_inv h os Ps -> (p, l) ∈ os -> pa p <= x < pa p + l_size l -> held (pages (concat Ps) ++ large os) x.
Proof.
  intros Hi Hin Hx. apply held_app. destruct (object_placed h os Ps p l Hi Hin) as [j cj Pj F Hcj HPj Hsm _ Hcp _ Hsl Hpa Hend _|Hb Hlg Hsz _].
  - left. eapply held_concat; [exact HPj|]. by eapply slot_held.
  - right. exists (pa p), (page_order l). split; [done|]. unfold covers. lia.
Qed.

Lemma keeps_kept h os os' Ps i c P O0 m' : heap_inv h os Ps -> caches h !! i = Some c -> Ps !! i = Some P ->
  keeps c (others i Ps os) O0 (src_mem (src h)) m' -> (forall o, o ∈ os' -> o ∈ os) ->
  (forall p l, (p, l) ∈ os' -> small_in i (p, l) -> p ∈ O0) -> kept os' (src_mem (src h)) m'.
Proof.
  intros Hi Hc HP [Hk1 Hk2] Hsub HO p l x Hin Hx.
  destruct (object_placed h os Ps p l Hi (Hsub _ Hin)) as [j cj Pj F Hcj HPj Hsm _ Hcp _ Hsl Hpa Hend _|Hbig Hlg Hsz _].
  - destruct (size_facts cj (ci_size _ _ _ _ _ _ (proj1 Hcp))) as (S1 & S2 & S3 & S4).
    assert (0 <= red_zone_offset cj) as Hr by (destruct S4 as [[_ ?]|[_ ?]]; lia).
    destruct (decide (j = i)) as [->|Hne].
    + assert (cj = c) as -> by congruence. apply (Hk2 p); [by apply (HO p l)|lia].
    + apply Hk1. eapply (others_pages i j); [done|congruence|]. eapply (slots_held (alloc_size cj)); [|exact Hsl|lia]. lia.
  - apply Hk1. apply held_app. right. exists (pa p), (page_order l). split; [done|]. unfold covers. lia.
Qed.

Lemma smalls_in i p l os : small_in i (p, l) -> smalls i ((p, l) :: os) = p :: smalls i os.
Proof. intros Hs. unfold smalls. by rewrite filter_cons_True. Qed.
Lemma smalls_out i p l os : ~ small_in i (p, l) -> smalls i ((p, l) :: os) = smalls i os.
Proof. intros Hs. unfold smalls. by rewrite filter_cons_False. Qed.
Lemma large_in p l os : PAGE_SIZE < effective_size l -> large ((p, l) :: os) = (pa p, page_order l) :: large os.
Proof. intros Hs. unfold large. by rewrite filter_cons_True. Qed.
Lemma large_out p l os : effective_size l <= PAGE_SIZE -> large ((p, l) :: os) = large os.
Proof. intros Hs. unfold large. rewrite filter_cons_False; [done|]. cbn. lia. Qed.
Lemma small_one i j o : small_in i o -> small_in j o -> i = j.
Proof. intros [_ H1] [_ H2]. congruence. Qed.

Lemma heap_perm h os os' Ps : os ≡ₚ os' -> heap_inv h os Ps -> heap_inv h os' Ps.
Proof.
  intros E [H1 H2 H3 H4 H5 H6 H7]. constructor; [done|done| | |by rewrite <-E|by rewrite <-E|done].
  - eapply src_perm; [|exact H3]. unfold large. by rewrite E.
  - intros i c P Hc HP. destruct (H4 i c P Hc HP) as [Hs [F HF]]. split; [done|]. exists F.
    eapply cache_pages_ptrs; [exact HF|done|done|done|apply HF|apply HF|unfold ptrs, smalls; by rewrite E|apply HF].
Qed.

(** The result of an allocation. *)
Definition after_alloc (p : Z) (l : Layout) (os : objs) : objs := if p =? 0 then os else (p, l) :: os.

Lemma alloc_small h os Ps l : heap_inv h os Ps -> layout_ok l -> effective_size l <= PAGE_SIZE -> l_align l <= RED_ZONE_SIZE \/ 512 < effective_size l ->
  exists p h' Ps', alloc id h l = Some (p, h') /\ heap_inv h' (after_alloc p l os) Ps' /\ direct h' = direct h /\
    kept os (src_mem (src h)) (src_mem (src h')) /\ (p = 0 -> (src_alloc_page (src h)).1 = None) /\ (p <> 0 -> reach id p = true).
Proof.
  intros Hi Hl Hsz Hal. destruct (cache_index_spec l Hsz) as (i & s & Ei & Es & Hs & Hpg). unfold alloc.
  assert (is_Some (caches h !! i)) as [c Hc] by (apply lookup_lt_is_Some_2; rewrite (hi_caches _ _ _ Hi); by eapply lookup_lt_Some).
  assert (is_Some (Ps !! i)) as [P HP] by (apply lookup_lt_is_Some_2; rewrite (hi_pages _ _ _ Hi); by eapply lookup_lt_Some).
  destruct (Z.gtb_spec (effective_size l) PAGE_SIZE); [lia|]. rewrite Ei, Hc. cbn [mbind option_bind]. rewrite Es. cbn [mbind option_bind].
  assert ((l_align l <=? RED_ZONE_SIZE) || (s =? PAGE_SIZE) = true) as -> by (destruct Hal; [|rewrite Hpg by done]; lia).
  destruct (hi_cache _ _ _ Hi i c P Hc HP) as [Hsize [F HF]].
  destruct (cache_alloc_ok (at_maps h) c (src h) P F (smalls i os) (others i Ps os) (hi_mapped _ _ _ Hi) (heap_focus _ _ _ _ _ Hi HP) HF)
    as (p & c' & s' & P' & F' & E & Hs' & Hszs & Hk & Hres). cbn [idmap dmap at_maps] in E. rewrite E. cbn [mbind option_bind].
  exists p, (mk_heap (<[i:=c']> (caches h)) (direct h) s'), (<[i := P']> Ps). split; [done|].
  assert (small_in i (p, l)) as Hsm by (split; cbn; [lia|done]).
  assert (kept os (src_mem (src h)) (src_mem s')) as Hkept.
  { eapply (keeps_kept h os os); [done|done|done|exact Hk|done|]. intros q lq Hq Hsq. apply elem_of_map. exists (q, lq). split; [done|]. by apply list_elem_of_filter. }
  destruct Hres as [(-> & Hnone & Hcp)|(Hne & Hpr & Hcp)].
  - split_and!; try done. cbn. eapply heap_update; try done; apply Hi.
  - unfold after_alloc. destruct (Z.eqb_spec p 0); [done|]. split_and!; try done.
    eapply heap_update; try done; [by rewrite smalls_in|by rewrite large_out| | |].
    + intros j Hj. rewrite smalls_out; [done|]. intros Hsj. apply Hj. by eapply small_one.
    + constructor; [cbn; lia|apply Hi].
    + constructor; [done|apply Hi].
Qed.

Lemma alloc_large h os Ps l : heap_inv h os Ps -> layout_ok l -> PAGE_SIZE < effective_size l ->
  exists p h' Ps', alloc id h l = Some (p, h') /\ heap_inv h' (after_alloc p l os) Ps' /\ direct h' = direct h /\
    kept os (src_mem (src h)) (src_mem (src h')) /\ (p = 0 -> (src_alloc_pages (src h) (page_order l)).1 = None) /\ (p <> 0 -> reach id p = true).
Proof.
  intros Hi Hl Hbig. unfold alloc. destruct (Z.gtb_spec (effective_size l) PAGE_SIZE); [|lia].
  pose proof (src_pages (src h) _ (page_order l) (hi_src _ _ _ Hi)) as Hp. destruct (src_alloc_pages (src h) (page_order l)) as [r s'].
  destruct Hp as [Hsame Hs']. destruct (same_on_l _ _ _ _ Hsame) as [Hs1 Hs2].
  assert (forall os', (forall i, smalls i os' = smalls i os) -> forall i c P, caches h !! i = Some c -> Ps !! i = Some P ->
    CACHE_SIZES !! i = Some (object_size c) /\ exists F, cache_pages (at_maps h) c (src_mem s') P F (smalls i os')) as Hcaches.
  { intros os' Hsm i c P Hc HP. destruct (hi_cache _ _ _ Hi i c P Hc HP) as [Hsize [F HF]]. split; [done|]. exists F. rewrite Hsm.
    eapply cache_pages_mem; [exact HF|]. intros x Hx. apply Hs1. by eapply held_concat. }
  assert (kept os (src_mem (src h)) (src_mem s')) as Hkept.
  { intros p lp x Hin Hx. by apply Hsame, (object_held h os Ps p lp). }
  destruct r as [a|]; eexists _, _, Ps; (split; [done|]); cbn [src direct].
  - destruct (src_blocks s' _ a (page_order l) Hs') as (_ & Ha & Ha2); [by left|].
    assert (0 < size_of (page_order l)) by (pose proof (size_ge (page_order l)); lia).
    destruct (phys_addr (at_maps h) a 0 Ha) as [Hok Epa]; [lia|lia|]. cbn [dmap at_maps] in Hok; cbn [dmap at_maps] in Epa. rewrite !Z.add_0_r in Hok; rewrite !Z.add_0_r in Epa. pose proof (addr_64 _ _ Hok).
    unfold after_alloc. destruct (Z.eqb_spec (phys_to_virt (direct h) a) 0); [lia|].
    split; [|split; [done|split; [done|split; [lia|intros _; apply (phys_reachable (at_maps h)); [apply Hi|done]]]]].
    constructor; cbn [caches src direct]; [apply Hi|apply Hi| | | | |apply Hi].
    + rewrite large_in, Epa by done. eapply src_perm; [|exact Hs']. apply Permutation_middle.
    + apply Hcaches. intros i. apply smalls_out. intros [Hc _]. cbn in Hc. lia.
    + constructor; [done|apply Hi].
    + constructor; [done|apply Hi].
  - split; [|done]. constructor; cbn [caches src direct]; [apply Hi|apply Hi|done|by apply Hcaches|apply Hi|apply Hi|apply Hi].
Qed.

Lemma dealloc_small h os os' Ps p l : heap_inv h os Ps -> os ≡ₚ (p, l) :: os' -> effective_size l <= PAGE_SIZE -> reach id p = true ->
  exists h' Ps', dealloc id h p l = Some (false, h') /\ heap_inv h' os' Ps' /\ direct h' = direct h /\ kept os' (src_mem (src h)) (src_mem (src h')).
Proof.
  intros Hi0 Eos Hsz Hre. pose proof (heap_perm _ _ _ _ Eos Hi0) as Hi. clear Hi0 Eos os.
  destruct (object_placed _ _ _ p l Hi ltac:(by left)) as [i c P F Hc HP Hsm Hsize HF _ _ _ _ Ha|Hb _ _ _]; [|lia].
  unfold dealloc. pose proof (addr_64 _ _ Ha). destruct (Z.eqb_spec p 0); [lia|]. destruct (Z.gtb_spec (effective_size l) PAGE_SIZE); [lia|].
  pose proof (proj2 Hsm) as Ei. cbn [snd] in Ei. rewrite Ei, Hc. cbn [mbind option_bind]. rewrite smalls_in in HF by done.
  assert (forall j, j <> i -> smalls j ((p, l) :: os') = smalls j os') as Hout by (intros j Hj; apply smalls_out; intros Hsj; by apply Hj, (small_one j i (p, l))).
  destruct (cache_dealloc_ok (at_maps h) c (src h) P F (smalls i os') (others i Ps ((p, l) :: os')) p Hre (heap_focus _ _ _ _ _ Hi HP) HF)
    as (c' & s' & F' & E & Hs' & Hcp & Hszs & Hk). cbn [idmap at_maps] in E. rewrite E. cbn [mbind option_bind].
  eexists _, (<[i := P]> Ps). split; [done|]. split; [|split; [done|]].
  - pose proof (hi_large _ _ _ Hi) as Hla. pose proof (hi_layout _ _ _ Hi) as Hly. apply Forall_cons in Hla as [_ Hla]. apply Forall_cons in Hly as [_ Hly].
    eapply heap_update; try done; [by rewrite large_out|]. intros j Hj. by rewrite Hout.
  - cbn. eapply (keeps_kept h ((p, l) :: os') os'); [done|done|done|exact Hk|by right|]. intros q lq Hq Hsq. apply elem_of_map. exists (q, lq).
    split; [done|]. by apply list_elem_of_filter.
Qed.

Lemma dealloc_large h os os' Ps p l w h' : heap_inv h os Ps -> os ≡ₚ (p, l) :: os' -> PAGE_SIZE < effective_size l ->
  dealloc id h p l = Some (w, h') ->
  w = false /\ heap_inv h' os' Ps /\ direct h' = direct h /\ kept os' (src_mem (src h)) (src_mem (src h')).
Proof.
  intros Hi0 Eos Hbig. pose proof (heap_perm _ _ _ _ Eos Hi0) as Hi. clear Hi0 Eos os.
  destruct (object_placed _ _ _ p l Hi ltac:(by left)) as [i c P F _ _ [Hsm _] _ _ _ _ _ _ _|_ Hlg Hsz Ha]; [cbn in Hsm; lia|].
  pose proof (addr_64 _ _ Ha). unfold dealloc. destruct (Z.eqb_spec p 0); [lia|]. destruct (Z.gtb_spec (effective_size l) PAGE_SIZE); [|lia].
  destruct (virt_to_phys (direct h) p) as [a|] eqn:Ea; [|done]. cbn [mbind option_bind].
  assert (a = pa p) as ->.
  { unfold virt_to_phys in Ea. pose proof max_below. destruct (addr_cases _ _ Ha) as [[-> Hp]|(-> & Hd & Hp)]; [|change (direct h = true) in Hd].
    - destruct (direct h); [|congruence]. destruct (Z.geb_spec p DIRECT_MAP_BASE); [lia|done].
    - rewrite Hd in Ea. destruct (Z.geb_spec p DIRECT_MAP_BASE); congruence. }
  destruct (src_free_pages (src h) (pa p) (page_order l)) as [s'|] eqn:Ef; [|done]. cbn [mbind option_bind]. intros [= <- <-].
  pose proof (hi_src _ _ _ Hi) as Hs. rewrite large_in in Hs by done.
  assert (src_inv (src h) ((pa p, page_order l) :: pages (concat Ps) ++ large os')) as Hs1 by (eapply src_perm; [|exact Hs]; by rewrite Permutation_middle).
  destruct (src_freed _ _ _ _ _ Hs1 Ef) as [Hs2 Hsame]. destruct (same_on_l _ _ _ _ Hsame) as [Hsp _].
  pose proof (hi_large _ _ _ Hi) as Hla. pose proof (hi_layout _ _ _ Hi) as Hly. apply Forall_cons in Hla as [_ Hla]. apply Forall_cons in Hly as [_ Hly].
  assert (forall i, smalls i os' = smalls i ((p, l) :: os')) as Hsm by (intros i; symmetry; apply smalls_out; intros [Hc _]; cbn in Hc; lia).
  assert (heap_inv (mk_heap (caches h) (direct h) s') os' Ps) as Hi'.
  { constructor; cbn [caches src direct]; [apply Hi|apply Hi|done| |done|done|apply Hi]. intros i c P Hc HP.
    destruct (hi_cache _ _ _ Hi i c P Hc HP) as [Hsize [F HF]]. split; [done|]. exists F. rewrite Hsm. eapply cache_pages_mem; [exact HF|].
    intros x Hx. apply Hsp. by eapply held_concat. }
  split_and!; try done. intros q lq x Hq Hx. cbn. apply Hsame. by eapply (object_held _ os' Ps q lq x Hi').
Qed.

(** A free of a large block succeeds unless its address is not in the map now
    in use, or it starts with the poison pattern. *)
Lemma dealloc_large_some h os Ps p l : heap_inv h os Ps -> (p, l) ∈ os -> PAGE_SIZE < effective_size l ->
  (direct h = true -> DIRECT_MAP_BASE <= p) -> load32 (src_mem (src h)) (pa p) <> POISON_PATTERN -> is_Some (dealloc id h p l).
Proof.
  intros Hi Hin Hbig Hd Hpoison. destruct (object_placed _ _ _ p l Hi Hin) as [i c P F _ _ [Hsm _] _ _ _ _ _ _ _|_ Hlg Hsz Ha]; [cbn in Hsm; lia|].
  pose proof (addr_64 _ _ Ha). unfold dealloc. destruct (Z.eqb_spec p 0); [lia|]. destruct (Z.gtb_spec (effective_size l) PAGE_SIZE); [|lia].
  assert (virt_to_phys (direct h) p = Some (pa p)) as ->.
  { unfold virt_to_phys, pa. pose proof max_below. destruct (direct h) eqn:E.
    - specialize (Hd eq_refl). by destruct (Z.geb_spec p DIRECT_MAP_BASE); [|lia].
    - destruct Ha as [Ha|[Hd' _]]; [|change (direct h = true) in Hd'; congruence]. by destruct (Z.geb_spec p DIRECT_MAP_BASE); [lia|]. }
  cbn [mbind option_bind]. apply elem_of_Permutation in Hlg as [rest Hrest].
  destruct (src_free (src h) (pages (concat Ps) ++ rest) (pa p) (page_order l)) as (s' & -> & _); [|done|done].
  eapply src_perm; [|apply Hi]. rewrite Hrest. by rewrite Permutation_middle.
Qed.

(** ** Client writes *)

(** A byte of a client's object is none that a cache reads. *)
Lemma object_private h os Ps p l x i c P F : heap_inv h os Ps -> (p, l) ∈ os -> pa p <= x < pa p + l_size l ->
  caches h !! i = Some c -> Ps !! i = Some P -> cache_pages (at_maps h) c (src_mem (src h)) P F (smalls i os) ->
  (forall v, v ∈ F -> ~ (pa v <= x < pa v + 8)) /\
  (forall q, q ∈ ptrs c (smalls i os) -> has_red_zones c = true ->
    ~ (slot_of c q <= x < slot_of c q + 8 \/ slot_of c q + 8 + object_size c <= x < slot_of c q + alloc_size c)).
Proof.
  intros Hi Hin Hx Hc HP [HF Hpg]. destruct (size_facts c (ci_size _ _ _ _ _ _ HF)) as (S1 & S2 & S3 & S4).
  assert (64 <= alloc_size c) as Hn by (destruct S4 as [[_ ?]|[_ ?]]; lia).
  assert (forall s, s ∈ slots (alloc_size c) P -> s <= x < s + alloc_size c -> small_in i (p, l) /\ s = slot_of c p /\ s + red_zone_offset c = pa p /\
    pa p + l_size l <= s + red_zone_offset c + object_size c) as Hslot.
  { intros s Hs Hxs. assert (held (pages P) x) as Hh by (eapply slots_held; [|done|done]; lia).
    pose proof (heap_focus _ _ _ _ _ Hi HP) as Hsrc. pose proof (live_disjoint_split _ _ x (src_disjoint _ _ Hsrc) Hh) as Hno.
    destruct (object_placed _ _ _ p l Hi Hin) as [j cj Pj Fj Hcj HPj Hsm Hsize Hcp Hpj Hsl Hpa Hend _|Hb Hlg Hsz _].
    - assert (held (pages Pj) x) as Hhj by (by eapply slot_held). destruct (decide (j = i)) as [->|Hne].
      + assert (cj = c) as -> by congruence. assert (Pj = P) as -> by congruence. destruct (decide (s = slot_of c p)) as [->|Hns].
        * split; [done|]. split; [done|]. split; [lia|]. destruct Hsm as [Hle Hidx]. cbn [snd] in Hle, Hidx.
          destruct (cache_index_spec l Hle) as (i' & s' & Ei' & Es' & Hs' & _). rewrite Ei' in Hidx. injection Hidx as ->. rewrite Hsize in Es'. injection Es' as <-.
          pose proof (hi_layout _ _ _ Hi) as Hly. rewrite Forall_forall in Hly. destruct (effective_pos l (Hly _ Hin)). lia.
        * exfalso. destruct (ci_ok _ _ _ _ _ _ HF) as (_ & Hap & _). destruct (Hap s (slot_of c p) Hs Hsl Hns); destruct S4 as [[_ ?]|[_ ?]]; lia.
      + exfalso. apply Hno. eapply (others_pages i j); [done|congruence|done].
    - exfalso. apply Hno, held_app. right. exists (pa p), (page_order l). split; [done|]. unfold covers. lia. }
  split.
  - intros v Hv Hxv. assert (pa v ∈ map pa F) as Hin' by (apply elem_of_map; by exists v).
    assert (pa v ∈ slots (alloc_size c) P) as Hs by (rewrite (ci_slots _ _ _ _ _ _ HF); apply elem_of_app; by left).
    destruct (Hslot (pa v) Hs) as (Hsm & Es & _); [lia|].
    pose proof (ci_ok _ _ _ _ _ _ HF) as (Hnd & _). rewrite (ci_slots _ _ _ _ _ _ HF) in Hnd. apply NoDup_app in Hnd as (_ & Hd & _).
    apply (Hd (pa v) Hin'). rewrite Es. apply elem_of_map. exists p. split; [done|]. unfold ptrs. rewrite !elem_of_app. right. right.
    apply elem_of_map. exists (p, l). split; [done|]. by apply list_elem_of_filter.
  - intros q Hq Hr Hxq. destruct (ptr_slot _ _ _ _ _ _ q HF Hq) as (Hs & _). destruct S4 as [[_ Hr8]|[? _]]; [|congruence].
    destruct (Hslot (slot_of c q) Hs) as (_ & _ & E1 & E2); [lia|]. lia.
Qed.

Lemma write_ok h os Ps p l x v : heap_inv h os Ps -> (p, l) ∈ os -> pa p <= x < pa p + l_size l -> is_byte v ->
  heap_inv (mk_heap (caches h) (direct h) (src_set (src h) (write_bytes (src_mem (src h)) x v 1))) os Ps.
Proof.
  intros Hi Hin Hx Hv. constructor; cbn [caches src direct]; rewrite ?src_mem_set; try apply Hi.
  - apply src_write; [apply Hi| |].
    + pose proof (src_bytes _ _ (hi_src _ _ _ Hi)) as Hm. intros y. unfold write_bytes. case_match; [done|apply Hm].
    + intros y. unfold write_bytes. case_match; [|done]. intros _. assert (y = x) as -> by lia. by eapply object_held.
  - intros i c P Hc HP. destruct (hi_cache _ _ _ Hi i c P Hc HP) as [Hsize [F HF]]. split; [done|]. exists F. split; [|apply HF].
    destruct (object_private _ _ _ _ _ _ _ _ _ _ Hi Hin Hx Hc HP HF) as [H1 H2].
    eapply cache_inv_mem; [apply HF| |].
    + intros u y Hu Hy. unfold write_bytes. destruct (decide (y = x)) as [->|Hne]; [by apply H1 in Hu|]. case_match; [lia|done].
    + intros q y Hq Hr Hy. unfold write_bytes. destruct (decide (y = x)) as [->|Hne]; [by apply (H2 q Hq Hr) in Hy|]. case_match; [lia|done].
Qed.

End heap.

(** ** Switching to the direct map *)

Lemma length_slots n P : 0 < n <= 4096 -> alen (slots n P) = alen P * (PAGE_SIZE / n).
Proof.
  intros Hn. induction P as [|p P IH]; [done|]. unfold slots in *. cbn [map concat]. rewrite alen_app, alen_cons, IH.
  assert (0 <= PAGE_SIZE / n) by (apply Z.div_pos; unfold PAGE_SIZE; lia).
  assert (alen (page_slots n p) = PAGE_SIZE / n) as -> by (unfold page_slots, alen; rewrite length_map, length_seq; lia). lia.
Qed.

Lemma free_length d c m P F O : cache_pages d c m P F O -> alen F <= pages_used c * (PAGE_SIZE / alloc_size c).
Proof.
  intros [Hi ->]. pose proof (size_bounds _ _ _ _ _ _ Hi) as Hn. rewrite <-length_slots by done. unfold alen.
  rewrite (ci_slots _ _ _ _ _ _ Hi), length_app, length_map. lia.
Qed.

(** The caches from the [k]-th on. *)
Lemma caches_convert_ok id cs : forall k (Ps : list (list Z)) os m, length cs = length Ps -> live_disjoint (pages (concat Ps)) -> mem_ok m ->
  (forall i c P, cs !! i = Some c -> Ps !! i = Some P -> exists F, cache_pages early c m P F (smalls (k + i) os)) ->
  exists cs' m', caches_convert id cs DIRECT_MAP_BASE m = Some (cs', m') /\ length cs' = length cs /\ mem_ok m' /\
    (forall i c' P, cs' !! i = Some c' -> Ps !! i = Some P ->
       exists c F, cs !! i = Some c /\ same_sizes c c' /\ cache_pages late c' m' P F (smalls (k + i) os)) /\
    (forall x, m' x <> m x -> exists i c P, cs !! i = Some c /\ Ps !! i = Some P /\
       touches c (slots (alloc_size c) P) (smalls (k + i) os) m (fun y => if decide (y = x) then m' x else m y)).
Proof.
  induction cs as [|c cs IH]; intros k [|P Ps] os m Hlen Hd Hm Hc; try done.
  { exists [], m. by split_and!. }
  cbn [concat] in Hd. rewrite pages_app in Hd. destruct (live_disjoint_app _ _ Hd) as [_ Hd2]. cbn [caches_convert].
  destruct (Hc O c P eq_refl eq_refl) as [F HF]. rewrite Nat.add_0_r in HF.
  destruct (cache_convert_ok id c m _ F _ (proj1 HF) (free_length _ _ _ _ _ _ HF)) as (c' & m1 & E1 & Hi1 & Hsz & Hpg & Ht1).
  rewrite E1. cbn [mbind option_bind]. pose proof (size_bounds _ _ _ _ _ _ (proj1 HF)) as Hn.
  assert (forall x, m1 x <> m x -> held (pages P) x) as Hh by (intros x Hx; destruct (Ht1 x Hx) as (s & Hs & _ & Hxs); by eapply slots_held).
  destruct (IH (Datatypes.S k) Ps os m1) as (cs' & m2 & E2 & Hl2 & Hm2 & Hc2 & Ht2); [by injection Hlen|done|by eapply cache_convert_mem_ok| |].
  { intros i ci Pi Hci HPi. destruct (Hc (Datatypes.S i) ci Pi Hci HPi) as [Fi HFi]. exists Fi. rewrite Nat.add_succ_r in HFi.
    eapply cache_pages_mem; [exact HFi|]. intros x Hx. destruct (decide (m1 x = m x)) as [?|Hne]; [done|]. exfalso.
    eapply (live_disjoint_split _ _ x Hd); [by apply Hh|by eapply held_concat]. }
  rewrite E2. cbn [mbind option_bind]. exists (c' :: cs'), m2.
  assert (forall x, m2 x <> m1 x -> held (pages (concat Ps)) x) as Hh2.
  { intros x Hx. destruct (Ht2 x Hx) as (i & ci & Pi & Hci & HPi & Ht). destruct (Hc (Datatypes.S i) ci Pi Hci HPi) as [Fi [HFi _]].
    destruct (Ht x) as (s & Hs & _ & Hxs); [by rewrite decide_True|]. eapply held_concat; [exact HPi|]. eapply slots_held; [|done|done]. by eapply size_bounds. }
  assert (forall x, held (pages P) x -> m2 x = m1 x) as Hsame.
  { intros x Hx. destruct (decide (m2 x = m1 x)) as [?|Hne]; [done|]. exfalso. eapply (live_disjoint_split _ _ x Hd); [done|by apply Hh2]. }
  split_and!; try done; [cbn; congruence| |].
  - intros [|i] ci Pi Hci HPi; cbn in Hci, HPi.
    + injection Hci as <-. injection HPi as <-. exists c, (map to_direct F). split; [done|]. split; [done|]. rewrite Nat.add_0_r.
      eapply cache_pages_mem; [|exact Hsame]. destruct Hsz as [Z1 Z2]. split; [by rewrite Z2|]. rewrite Hpg. apply HF.
    + destruct (Hc2 i ci Pi Hci HPi) as (c0 & F0 & ? & ? & ?). exists c0, F0. by rewrite Nat.add_succ_r.
  - intros x Hx. destruct (decide (m2 x = m1 x)) as [E|Hne].
    + exists O, c, P. split; [done|]. split; [done|]. rewrite Nat.add_0_r. intros y. case_decide as Ey; [|done]. subst y. intros _. apply Ht1. by rewrite <-E.
    + destruct (Ht2 x Hne) as (i & ci & Pi & Hci & HPi & Ht). exists (Datatypes.S i), ci, Pi. split; [done|]. split; [done|].
      rewrite Nat.add_succ_r. intros y. case_decide as Ey; [|done]. subst y. intros _. apply Ht. by rewrite decide_True.
Qed.

Lemma convert_ok id h os Ps : heap_inv true h os Ps -> direct h = false ->
  exists h', convert_to_direct_map id h = Some h' /\ heap_inv false h' os Ps /\ direct h' = true /\ kept os (src_mem (src h)) (src_mem (src h')).
Proof.
  intros Hi Hd. unfold convert_to_direct_map. pose proof (hi_src _ _ _ _ Hi) as Hs.
  destruct (live_disjoint_app _ _ (src_disjoint _ _ Hs)) as [Hdp _].
  destruct (caches_convert_ok id (caches h) 0 Ps os (src_mem (src h))) as (cs' & m' & E & Hl & Hm & Hc & Ht).
  { by rewrite (hi_caches _ _ _ _ Hi), (hi_pages _ _ _ _ Hi). } { done. } { by eapply src_bytes. }
  { intros i c P Hci HPi. destruct (hi_cache _ _ _ _ Hi i c P Hci HPi) as [_ [F HF]]. exists F. unfold at_maps in HF. by rewrite Hd in HF. }
  rewrite E. cbn [mbind option_bind]. eexists. split; [done|]. cbn [src direct]. rewrite src_mem_set.
  assert (forall x, m' x <> src_mem (src h) x -> exists i c P s, caches h !! i = Some c /\ Ps !! i = Some P /\ s ∈ slots (alloc_size c) P /\
    ~ (s ∈ map (slot_of c) (smalls i os)) /\ s <= x < s + alloc_size c) as Ht'.
  { intros x Hx. destruct (Ht x Hx) as (i & c & P & Hci & HPi & Hti). destruct (Hti x) as (s & ? & ? & ?); [by rewrite decide_True|]. by exists i, c, P, s. }
  assert (forall x, m' x <> src_mem (src h) x -> held (pages (concat Ps)) x) as Hh.
  { intros x Hx. destruct (Ht' x Hx) as (i & c & P & s & Hci & HPi & Hs1 & _ & Hxs). destruct (hi_cache _ _ _ _ Hi i c P Hci HPi) as [_ [F [HF _]]].
    eapply held_concat; [exact HPi|]. eapply slots_held; [|done|done]. by eapply size_bounds. }
  split; [|split; [done|]].
  - constructor; cbn [caches src direct]; rewrite ?src_mem_set; [by rewrite Hl; apply Hi|apply Hi| | | |apply Hi|by right].
    + apply src_write; [done|done|]. intros x Hx. apply held_app. left. by apply Hh.
    + intros i c' P Hci HPi. destruct (Hc i c' P Hci HPi) as (c & F & Hcc & [Hsz _] & HF). destruct (hi_cache _ _ _ _ Hi i c P Hcc HPi) as [Hsize _].
      split; [by rewrite Hsz|]. by exists F.
    + eapply Forall_impl; [apply Hi|]. intros o Ho Hb. eapply addr_weaken; [done|]. by apply Ho.
  - intros p l x Hin Hx. destruct (decide (m' x = src_mem (src h) x)) as [?|Hne]; [done|]. exfalso.
    destruct (Ht' x Hne) as (i & c & P & s & Hci & HPi & Hs1 & Hno & Hxs). pose proof (heap_focus _ _ _ _ _ _ Hi HPi) as Hsrc.
    destruct (hi_cache _ _ _ _ Hi i c P Hci HPi) as [_ [F HF]]. pose proof (size_bounds _ _ _ _ _ _ (proj1 HF)) as Hn.
    pose proof (live_disjoint_split _ _ x (src_disjoint _ _ Hsrc) (slots_held _ _ _ _ Hn Hs1 Hxs)) as Hother.
    destruct (object_placed _ _ _ _ p l Hi Hin) as [j cj Pj Fj Hcj HPj Hsm _ Hcp Hpj Hsl Hpa Hend _|Hb Hlg Hsz _].
    + assert (held (pages Pj) x) as Hhj by (by eapply slot_held). destruct (decide (j = i)) as [->|Hji].
      * assert (cj = c) as -> by congruence. assert (Pj = P) as -> by congruence. destruct (ci_ok _ _ _ _ _ _ (proj1 HF)) as (_ & Hap & _).
        destruct (size_facts c (ci_size _ _ _ _ _ _ (proj1 HF))) as (_ & _ & _ & S4).
        destruct (Hap s (slot_of c p) Hs1 Hsl); [|destruct S4 as [[_ ?]|[_ ?]]; lia..]. intros ->. apply Hno, elem_of_map. by exists p.
      * apply Hother. eapply (others_pages i j); [done|congruence|done].
    + apply Hother, held_app. right. exists (pa p), (page_order l). split; [done|]. unfold covers. lia.
Qed.

(** ** CPUs with and without the identity map *)

Lemma cache_pages_weaken b c m P F O : cache_pages (mk_maps b false) c m P F O -> cache_pages (mk_maps b true) c m P F O.
Proof. intros [[] ?]. split; [|done]. constructor; try done. apply Forall_forall. done. Qed.

Lemma heap_weaken h os Ps : heap_inv false h os Ps -> heap_inv true h os Ps.
Proof.
  intros []. constructor; try done; [|by left]. intros i c P Hc HP. destruct (hi_cache0 i c P Hc HP) as [? [F HF]]. split; [done|]. exists F.
  by apply cache_pages_weaken.
Qed.

(** What runs without the identity map runs with it, to the same end. *)
Definition runs_in {A} (o o' : option A) : Prop := forall r, o = Some r -> o' = Some r.

Lemma runs_refl {A} (o : option A) : runs_in o o.
Proof. by intros r. Qed.
Lemma runs_bind {A B} (o o' : option A) (k k' : A -> option B) : runs_in o o' -> (forall a, runs_in (k a) (k' a)) -> runs_in (o ≫= k) (o' ≫= k').
Proof. intros Ho Hk r (a & Ea & Er)%bind_Some. rewrite (Ho a Ea). cbn. by apply Hk. Qed.
Lemma runs_read id m v : runs_in (read64 id m v) (read64 true m v).
Proof. intros r. unfold read64. by case_match. Qed.
Lemma runs_write id m v w : runs_in (write64 id m v w) (write64 true m v w).
Proof. intros r. unfold write64. by case_match. Qed.

Ltac runs := repeat first
  [ apply runs_refl | apply runs_read | apply runs_write | apply runs_bind; [|intros ?] | progress case_match | by eauto ].

Lemma refill_runs id n : forall c m, runs_in (refill_loop id n c m) (refill_loop true n c m).
Proof. induction n as [|n IH]; intros c m; cbn [refill_loop]; unfold fill_red_zones; runs. Qed.
Lemma carve_runs id n : forall page c m, runs_in (carve id n page c m) (carve true n page c m).
Proof. induction n as [|n IH]; intros page c m; cbn [carve]; runs. Qed.
Lemma flush_runs id n : forall c m, runs_in (flush_loop id n c m) (flush_loop true n c m).
Proof. induction n as [|n IH]; intros c m; cbn [flush_loop]; runs. Qed.
Lemma grow_runs id b c (s : S) : runs_in (grow id b c s) (grow true b c s).
Proof. unfold grow. destruct (src_alloc_page s) as [[a|] s1]; [|apply runs_refl]. apply runs_bind; [apply carve_runs|intros [c1 m1]; apply runs_refl]. Qed.

Lemma alloc_runs id (h : heap S) l : runs_in (alloc id h l) (alloc true h l).
Proof.
  unfold alloc, cache_alloc, refill_magazine. case_match; [apply runs_refl|]. case_match; [|apply runs_refl].
  apply runs_bind; [apply runs_refl|intros c]. apply runs_bind; [apply runs_refl|intros size]. case_match; [|apply runs_refl].
  apply runs_bind; [|intros [[ptr c'] s]; apply runs_refl]. repeat (case_match; [apply runs_refl|]).
  repeat (destruct (round_pop _) as [[?|] ?]; [apply runs_refl|]). apply runs_bind; [|intros [c2 s2]; apply runs_refl].
  apply runs_bind; [apply refill_runs|intros [[k c1] m1]]. case_match; [|apply runs_refl].
  apply runs_bind; [apply grow_runs|intros [c2 s2]]. apply runs_bind; [apply refill_runs|intros [[k2 c3] m3]; apply runs_refl].
Qed.

Lemma dealloc_runs id (h : heap S) p l : runs_in (dealloc id h p l) (dealloc true h p l).
Proof.
  unfold dealloc, cache_dealloc, flush_magazine_to_freelist. case_match; [apply runs_refl|]. case_match; [apply runs_refl|]. case_match; [|apply runs_refl].
  apply runs_bind; [apply runs_refl|intros c]. apply runs_bind; [|intros [[w c'] s]; apply runs_refl].
  apply runs_bind; [unfold check_red_zones; runs|intros w]. repeat (destruct (round_push _ _) as [[] ?]; [apply runs_refl|]).
  apply runs_bind; [apply flush_runs|intros [c2 m2]; apply runs_refl].
Qed.
End laws.
