(* ===== verification/SlabKernel.v ===== *)
(** * The page allocators under the kernel heap

    [FRAME_ALLOC], once boot has initialized it, and [BUDDY], the allocator
    the frame allocator replaced, as the source of the heap's pages. *)

From S2P Require Import Prelude PhysMem Memory Buddy BuddyInv BuddyInit BuddySystem Pools Slab SlabInv SlabHeap.

(** [FRAME_ALLOC] (its pools and total), [BUDDY], and the memory they share. *)
Record kmem := mk_kmem { FRAME_ALLOC : option (PagePools * Z); BUDDY : buddy; k_mem : mem }.

Definition the_frames (p : PagePools * Z) (m : mem) : frames := mk_frames p.1 p.2 m.
Definition with_frames (k : kmem) (f : frames) : kmem := mk_kmem (Some (f_pools f, f_total f)) (BUDDY k) (f_mem f).
Definition with_buddy (k : kmem) (s : bstate) : kmem := mk_kmem (FRAME_ALLOC k) (alloc_of s) (mem_of s).

(** [buddy::alloc_page] and [BUDDY.lock().alloc_pages]. *)
Definition legacy_alloc_pages (k : kmem) (order : nat) : option Z * kmem :=
  let '(r, s) := alloc_pages (mk_st (BUDDY k) (k_mem k)) order in (r, with_buddy k s).

(** [frame::alloc_page().or_else(buddy::alloc_page)] *)
Definition kernel_alloc_page (k : kmem) : option Z * kmem :=
  match FRAME_ALLOC k with
  | Some p =>
      let '(r, f) := frame_alloc_page (the_frames p (k_mem k)) PoolKernel in
      match r with
      | Some a => (Some a, with_frames k f)
      | None => legacy_alloc_pages (with_frames k f) 0
      end
  | None => legacy_alloc_pages k 0
  end.

(** The blocks of large allocations. *)
Definition kernel_alloc_pages (k : kmem) (order : nat) : option Z * kmem :=
  match FRAME_ALLOC k with
  | Some p => let '(r, f) := frame_alloc_pages (the_frames p (k_mem k)) PoolKernel order in (r, with_frames k f)
  | None => legacy_alloc_pages k order
  end.

Definition kernel_free_pages (k : kmem) (addr : Z) (order : nat) : option kmem :=
  match FRAME_ALLOC k with
  | Some p => f ← frame_free_pages (the_frames p (k_mem k)) addr order; Some (with_frames k f)
  | None => s ← free_pages (mk_st (BUDDY k) (k_mem k)) addr order; Some (with_buddy k s)
  end.

#[export] Instance kernel_pages : PageSource kmem := {|
  src_mem := k_mem;
  src_set k m := mk_kmem (FRAME_ALLOC k) (BUDDY k) m;
  src_alloc_page := kernel_alloc_page;
  src_alloc_pages := kernel_alloc_pages;
  src_free_pages := kernel_free_pages
|}.

(** ** The promises *)

(** The heap holds [L] of the kernel pool, other clients the rest; [BUDDY]
    has no memory. *)
Record kernel_holds (p0 : PagePools) (Fs : Pool -> Z -> Prop) (Ls : lives) (L0 : live) (k : kmem) (L : live) : Prop := {
  kh_disjoint : pools_disjoint p0;
  kh_range : initialized (p_kernel p0) = true -> bend (p_kernel p0) <= PHYS_MAX;
  kh_buddy : BUDDY k = buddy_new;
  kh_frames : exists p, FRAME_ALLOC k = Some p /\ frames_inv p0 Fs (the_frames p (k_mem k), Ls);
  kh_live : Ls PoolKernel ≡ₚ L ++ L0
}.

Definition kernel_inv (k : kmem) (L : live) : Prop := exists p0 Fs Ls L0, kernel_holds p0 Fs Ls L0 k L.

(** The kernel pool's own invariant, when it holds blocks. *)
Lemma kernel_pool_live p0 Fs Ls p m a k : pools_disjoint p0 -> frames_inv p0 Fs (the_frames p m, Ls) -> (a, k) ∈ Ls PoolKernel ->
  initialized (p_kernel p0) = true /\ exists b fl, sys_inv (p_kernel p0) (Fs PoolKernel) (total_free (p_kernel p0)) (mk_st b m, Ls PoolKernel) fl.
Proof.
  intros Hd Hf Hin. destruct (live_pool p0 Fs Hd _ Ls PoolKernel a k Hf Hin) as (b0 & b & fl & H0 & Hi0 & Hb & Hs & _).
  cbn in H0. simplify_eq. split; [done|]. by exists b, fl.
Qed.

Lemma kernel_blocks k L a o : kernel_inv k L -> (a, o) ∈ L -> a mod 4096 = 0 /\ 0 < a /\ a + size_of o <= PHYS_MAX.
Proof.
  intros (p0 & Fs & Ls & L0 & [Hd Hr _ [p [_ Hf]] Hl]) Hin. assert ((a, o) ∈ Ls PoolKernel) as Hin' by (rewrite Hl; apply elem_of_app; by left).
  destruct (kernel_pool_live _ _ _ _ _ _ _ Hd Hf Hin') as (Hi & b & fl & Hs). specialize (Hr Hi).
  destruct (held_block_range _ _ _ _ _ _ _ _ Hs Hin') as [Hb He]. split; [|split; [|lia]].
  - pose proof Hs as []. cbn [fst snd] in *. rewrite Forall_forall in si_live. by destruct (si_live _ Hin') as [[] _].
  - pose proof (cfg_same _ _ (same_range_sym _ _ (si_same _ _ _ _ _ Hs)) (i_cfg _ _ _ (si_inv _ _ _ _ _ Hs))) as []. lia.
Qed.

Lemma kernel_disjoint k L : kernel_inv k L -> live_disjoint L.
Proof.
  intros (p0 & Fs & Ls & L0 & [Hd Hr _ [p [_ Hf]] Hl]). destruct L as [|[a o] L]; [done|].
  assert ((a, o) ∈ Ls PoolKernel) as Hin by (rewrite Hl; by left). destruct (kernel_pool_live _ _ _ _ _ _ _ Hd Hf Hin) as (_ & b & fl & Hs).
  apply (live_disjoint_app _ L0). eapply live_disjoint_perm; [exact Hl|]. apply Hs.
Qed.

Lemma kernel_write k L m : kernel_inv k L -> mem_ok m -> (forall x, m x <> k_mem k x -> held L x) -> kernel_inv (mk_kmem (FRAME_ALLOC k) (BUDDY k) m) L.
Proof.
  intros (p0 & Fs & Ls & L0 & [Hd Hr Hb [p [Hp Hf]] Hl]) Hm Ho. exists p0, Fs, Ls, L0. constructor; cbn [FRAME_ALLOC BUDDY k_mem]; try done.
  exists p. split; [done|]. apply (frames_write p0 Fs Hd (the_frames p (k_mem k)) Ls PoolKernel m Hf Hm). intros x Hx. cbn.
  destruct (decide (m x = k_mem k x)) as [?|Hne]; [done|]. destruct Hx. apply (held_perm _ _ _ (symmetry Hl)), held_app. left. by apply Ho.
Qed.

Lemma kernel_pages_law k L o : kernel_inv k L -> let '(r, k') := kernel_alloc_pages k o in
  same_on L (k_mem k) (k_mem k') /\ match r with Some a => kernel_inv k' ((a, o) :: L) | None => k' = k end.
Proof.
  intros (p0 & Fs & Ls & L0 & [Hd Hr Hb [p [Hp Hf]] Hl]). unfold kernel_alloc_pages. rewrite Hp.
  destruct (frame_alloc_pages _ _ _) as [[a|] f] eqn:E.
  - split.
    + intros x Hx. apply (frame_alloc_keeps p0 Fs Hd _ _ _ _ _ _ x Hf E). apply (held_perm _ _ _ (symmetry Hl)), held_app. by left.
    + exists p0, Fs, (lives_upd Ls PoolKernel ((a, o) :: Ls PoolKernel)), L0. constructor; cbn [FRAME_ALLOC BUDDY k_mem with_frames]; try done.
      * eexists. split; [done|]. replace (the_frames _ _) with f by (by destruct f). eapply (frame_step_inv p0 Fs Hd); [exact Hf|]. by apply fs_alloc.
      * unfold lives_upd. rewrite decide_True by done. by rewrite Hl.
  - rewrite (frame_alloc_none p0 Fs _ _ _ _ _ Hf E). destruct k, p. cbn in *. by rewrite Hp.
Qed.

Lemma legacy_empty k o : BUDDY k = buddy_new -> legacy_alloc_pages k o = (None, k).
Proof. intros Hb. unfold legacy_alloc_pages. rewrite Hb, alloc_new. unfold with_buddy. destruct k. cbn in *. by rewrite Hb. Qed.

(** [BUDDY] has nothing to add to the frame allocator. *)
Lemma kernel_page_eq k L : kernel_inv k L -> kernel_alloc_page k = kernel_alloc_pages k 0.
Proof.
  intros Hi. pose proof (kernel_pages_law k L 0 Hi) as Hk. destruct Hi as (p0 & Fs & Ls & L0 & [Hd Hr Hb [p [Hp Hf]] Hl]).
  unfold kernel_alloc_page, kernel_alloc_pages, frame_alloc_page in *. rewrite Hp in *. destruct (frame_alloc_pages _ _ _) as [[a|] f] eqn:E; [done|].
  destruct Hk as [_ ->]. by rewrite legacy_empty.
Qed.

Lemma kernel_free_law k L a o : kernel_inv k ((a, o) :: L) -> load32 (k_mem k) a <> POISON_PATTERN ->
  exists k', kernel_free_pages k a o = Some k' /\ kernel_inv k' L /\ same_on L (k_mem k) (k_mem k').
Proof.
  intros (p0 & Fs & Ls & L0 & [Hd Hr Hb [p [Hp Hf]] Hl]) Hpo. unfold kernel_free_pages. rewrite Hp.
  destruct (frame_can_free p0 Fs Hd _ Ls PoolKernel a o (L ++ L0) Hf Hl Hpo) as (f & E & Hk). rewrite E. cbn [mbind option_bind].
  eexists. split; [done|]. split.
  - exists p0, Fs, (lives_upd Ls PoolKernel (L ++ L0)), L0. constructor; cbn [FRAME_ALLOC BUDDY k_mem with_frames]; try done.
    eexists. split; [done|]. replace (the_frames _ _) with f by (by destruct f). eapply (frame_step_inv p0 Fs Hd); [exact Hf|]. by eapply fs_free.
  - intros x Hx. apply Hk, held_app. by left.
Qed.

Lemma kernel_free_poisoned k L a o : kernel_inv k ((a, o) :: L) -> load32 (k_mem k) a = POISON_PATTERN -> kernel_free_pages k a o = None.
Proof.
  intros (p0 & Fs & Ls & L0 & [Hd Hr Hb [p [Hp Hf]] Hl]) Hpo. unfold kernel_free_pages, frame_free_pages. rewrite Hp.
  destruct (live_pool p0 Fs Hd (the_frames p (k_mem k)) Ls PoolKernel a o Hf) as (b0 & b & fl & H0 & Hi0 & Hbb & Hs & ->); [rewrite Hl; by left|].
  rewrite Hbb, free_pages_poisoned; [done| |done]. pose proof (si_same _ _ _ _ _ Hs) as Hsm. cbn in *. by rewrite (sr_init _ _ Hsm).
Qed.

#[export] Instance kernel_pages_laws : PageSourceLaws kmem.
Proof.
  refine {| src_inv := kernel_inv |}; cbn [src_mem src_set src_alloc_page src_alloc_pages src_free_pages kernel_pages].
  - done.
  - by intros [].
  - intros k L (p0 & Fs & Ls & L0 & [Hd Hr Hb [p [Hp Hf]] Hl]). apply Hf.
  - intros k L L' E (p0 & Fs & Ls & L0 & [Hd Hr Hb Hp Hl]). exists p0, Fs, Ls, L0. constructor; try done. by rewrite Hl, E.
  - apply kernel_disjoint.
  - intros k L a o. apply kernel_blocks.
  - apply kernel_write.
  - intros k L Hi. rewrite (kernel_page_eq k L Hi). pose proof (kernel_pages_law k L 0 Hi) as Hk. destruct (kernel_alloc_pages k 0) as [[a|] k']; [done|].
    destruct Hk as [? ->]. done.
  - intros k L o Hi. pose proof (kernel_pages_law k L o Hi) as Hk. destruct (kernel_alloc_pages k o) as [[a|] k']; [done|]. destruct Hk as [? ->]. done.
  - apply kernel_free_law.
  - intros k L a o k' Hi E. destruct (decide (load32 (k_mem k) a = POISON_PATTERN)) as [Hpo|Hpo]; [by rewrite (kernel_free_poisoned k L) in E|].
    destruct (kernel_free_law k L a o Hi Hpo) as (k1 & E1 & ? & ?). rewrite E1 in E. by simplify_eq.
Defined.

(** What boot hands to the heap. *)
Lemma kernel_boot m b e c z1 z2 t : mem_ok m -> range_ok b e -> config_ok c -> zone_ok z1 -> zone_ok z2 -> e <= PHYS_MAX ->
  let '(p, m0) := pools_init m b e c z1 z2 in kernel_inv (mk_kmem (Some (p, t)) buddy_new m0) [].
Proof.
  intros Hm Hr Hc Hz1 Hz2 He. pose proof (pools_init_inv m b e c z1 z2 t Hm Hr Hc Hz1 Hz2) as Hi.
  destruct (pools_init_parts m b e c z1 z2 Hr Hc) as (x1 & x2 & x3 & x4 & A1 & A2 & _ & _ & ? & ? & ? & Ep).
  destruct (pools_init m b e c z1 z2) as [p m0]. destruct Hi as [Hd Hf]. exists p, (fun q => from_option (usable z1 z2) (fun _ => False) (pool_get p q)), (fun _ => []), [].
  constructor; cbn [FRAME_ALLOC BUDDY k_mem]; try done; [|by eexists; split; [done|]].
  cbn zeta in Ep. injection Ep as Ep _. rewrite Ep. cbn [p_kernel]. destruct Hr as [Hb Hba Hea Hlt Heb].
  pose proof (init_pool_ready m b x1 z1 z2 Hm Hba A1 ltac:(lia) ltac:(lia) Hz1 Hz2) as R1.
  pose proof (pr_pool _ _ _ _ _ _ (init_pool_ready _ x1 x2 z1 z2 (pr_mem _ _ _ _ _ _ R1) A1 A2 ltac:(lia) ltac:(lia) Hz1 Hz2)) as R2.
  intros Hin. destruct (x1 <? x2); [destruct R2 as (_ & _ & -> & _); lia|]. by rewrite R2 in Hin.
Qed.
