(* ===== verification/SlabProps.v ===== *)
(** * What the kernel heap promises

    Runs of the heap: allocations and frees by its clients, on CPUs with or
    without the identity map, their writes to their own objects, steps of the
    other clients of the page allocators, and the switch to the direct map. *)

From S2P Require Import Prelude PhysMem Memory Buddy BuddyInv BuddyInit BuddySystem Pools Slab SlabInv SlabHeap SlabKernel.

(** What [alloc]'s alignment assertion admits. *)
Definition supported (l : Layout) : Prop :=
  l_align l <= RED_ZONE_SIZE \/ 512 < effective_size l.

Section runs.
Context {S : Type} `{HS : PageSourceLaws S}.

(** A step of the page allocators that leaves the heap's blocks to it. *)
Definition respects (h : heap S) (os : objs) (s' : S) : Prop := forall Ps, heap_inv true h os Ps ->
  src_inv s' (pages (concat Ps) ++ large os) /\ same_on (pages (concat Ps) ++ large os) (src_mem (src h)) (src_mem s').

Definition write_byte (h : heap S) (x v : Z) : heap S :=
  mk_heap (caches h) (direct h) (src_set (src h) (write_bytes (src_mem (src h)) x v 1)).

(** The kernel leaves the identity map only for the direct map: a CPU has
    one of them ([mapped]). *)
Inductive heap_step : heap S * objs -> heap S * objs -> Prop :=
| hs_alloc id h os l p h' : mapped (mk_maps (direct h) id) -> layout_ok l -> alloc id h l = Some (p, h') ->
    heap_step (h, os) (h', after_alloc p l os)
| hs_free id h os os' p l w h' : mapped (mk_maps (direct h) id) -> os ≡ₚ (p, l) :: os' -> dealloc id h p l = Some (w, h') ->
    heap_step (h, os) (h', os')
| hs_write h os p l x v : (p, l) ∈ os -> pa p <= x < pa p + l_size l -> is_byte v -> heap_step (h, os) (write_byte h x v, os)
| hs_others h os s' : respects h os s' -> heap_step (h, os) (mk_heap (caches h) (direct h) s', os)
| hs_direct id h os h' : direct h = false -> convert_to_direct_map id h = Some h' -> heap_step (h, os) (h', os).

(** The free lists and magazines hold direct-map addresses only. *)
Definition lists_direct (h : heap S) : Prop := direct h = true /\
  Forall (fun c => exists F, chain (src_mem (src h)) (free_head c) F /\ Forall (fun v => DIRECT_MAP_BASE <= v) (kept_addrs c F)) (caches h).

Lemma chain_unique m h F F' : chain m h F -> chain m h F' -> Forall (fun v => v <> 0) F -> Forall (fun v => v <> 0) F' -> F = F'.
Proof.
  revert h F'. induction F as [|v F IH]; intros h [|v' F']; cbn; [done| | |].
  - intros -> [E _] _ [H0 _]%Forall_cons. by symmetry in E.
  - intros [-> _] -> [H0 _]%Forall_cons. done.
  - intros [-> H1] [<- H2] [_ H3]%Forall_cons [_ H4]%Forall_cons. f_equal. by eapply IH.
Qed.

Lemma high_reachable b v : reachable (mk_maps b false) v <-> DIRECT_MAP_BASE <= v.
Proof. rewrite reachable_cases. cbn. naive_solver. Qed.

Lemma lists_inv h os Ps : heap_inv true h os Ps -> lists_direct h -> heap_inv false h os Ps.
Proof.
  intros Hi [Hd Hl]. rewrite Forall_forall in Hl. pose proof (hi_cache _ _ _ _ Hi) as Hcs. destruct Hi. constructor; try done; [|by right]. intros i c P Hc HP.
  destruct (Hcs i c P Hc HP) as [? [F [HF ?]]]. split; [done|]. exists F. split; [|done].
  destruct (Hl c) as (F' & Hch & Hhi); [by eapply list_elem_of_lookup_2|]. pose proof (ci_free _ _ _ _ _ _ HF) as Hfree. destruct HF. constructor; try done.
  assert (F = F') as ->; [|eapply Forall_impl; [exact Hhi|]; intros v; apply high_reachable]. eapply chain_unique; [done|done| |].
  - eapply Forall_impl; [exact Hfree|]. intros v Hv%addr_64. lia.
  - unfold kept_addrs in Hhi. apply Forall_app in Hhi as [Hhi _]. eapply Forall_impl; [exact Hhi|]. intros v Hv. pose proof max_below. unfold PHYS_MAX in *. lia.
Qed.

Lemma inv_lists h os Ps : heap_inv false h os Ps -> lists_direct h.
Proof.
  intros Hi. split; [by destruct (hi_mapped _ _ _ _ Hi)|]. apply Forall_forall. intros c [i Hc]%list_elem_of_lookup.
  assert (is_Some (Ps !! i)) as [P HP].
  { apply lookup_lt_is_Some_2. rewrite (hi_pages _ _ _ _ Hi), <-(hi_caches _ _ _ _ Hi). by eapply lookup_lt_Some. }
  destruct (hi_cache _ _ _ _ Hi i c P Hc HP) as [_ [F [HF _]]]. exists F. split; [apply HF|]. eapply Forall_impl; [apply (ci_reach _ _ _ _ _ _ HF)|].
  intros v. apply high_reachable.
Qed.

Lemma small_supported l i s : cache_index l = Some i -> CACHE_SIZES !! i = Some s -> ~ supported l ->
  (l_align l <=? RED_ZONE_SIZE) || (s =? PAGE_SIZE) = false.
Proof.
  unfold supported, cache_index, RED_ZONE_SIZE, PAGE_SIZE, CACHE_SIZES. cbn [position]. intros Hi Hs Hn.
  repeat (match type of Hi with context [?a >=? ?b] => destruct (Z.geb_spec a b) end; cbn in Hi; simplify_eq; cbn in Hs; simplify_eq; try lia).
Qed.

Lemma alloc_unsupported id (h : heap S) l : ~ supported l -> alloc id h l = None.
Proof.
  intros Hn. unfold alloc. destruct (Z.gtb_spec (effective_size l) PAGE_SIZE) as [Hb|Hb]; [destruct Hn; right; unfold PAGE_SIZE in Hb; lia|].
  destruct (cache_index_spec l ltac:(lia)) as (i & s & Ei & Es & _). rewrite Ei. destruct (caches h !! i) as [c|]; [|done]. cbn [mbind option_bind].
  rewrite Es. cbn [mbind option_bind]. by rewrite (small_supported l i s).
Qed.

Lemma alloc_ok id h os Ps l : heap_inv id h os Ps -> layout_ok l -> supported l ->
  exists p h' Ps', alloc id h l = Some (p, h') /\ heap_inv id h' (after_alloc p l os) Ps' /\ direct h' = direct h /\
    kept os (src_mem (src h)) (src_mem (src h')) /\
    (p = 0 -> (if effective_size l >? PAGE_SIZE then (src_alloc_pages (src h) (page_order l)).1 else (src_alloc_page (src h)).1) = None) /\
    (p <> 0 -> reach id p = true).
Proof.
  intros Hi Hl Hs. destruct (Z.gtb_spec (effective_size l) PAGE_SIZE); [by apply (alloc_large id h os Ps)|by apply (alloc_small id h os Ps)].
Qed.

(** With the identity map gone, the heap allocates as with it when its lists
    hold direct-map addresses. *)
Lemma alloc_any id h os Ps l p h' : heap_inv true h os Ps -> layout_ok l -> alloc id h l = Some (p, h') ->
  supported l /\ alloc true h l = Some (p, h') /\
  (lists_direct h -> (p <> 0 -> DIRECT_MAP_BASE <= p) /\ exists Ps', heap_inv false h' (after_alloc p l os) Ps').
Proof.
  intros Hi Hl E%alloc_runs. destruct (decide (supported l)) as [Hs|Hs]; [|by rewrite alloc_unsupported in E]. split; [done|]. split; [done|].
  intros Hld. destruct (alloc_ok false h os Ps l (lists_inv _ _ _ Hi Hld) Hl Hs) as (p1 & h1 & Ps1 & E1 & Hi1 & _ & _ & _ & Hr).
  apply alloc_runs in E1. rewrite E1 in E. simplify_eq. split; [|by eauto]. intros Hp. by apply (high_reachable (direct h)), Hr.
Qed.

Lemma dealloc_ok h os os' Ps p l w h' : heap_inv true h os Ps -> os ≡ₚ (p, l) :: os' -> dealloc true h p l = Some (w, h') ->
  w = false /\ (exists Ps', heap_inv true h' os' Ps') /\ kept os' (src_mem (src h)) (src_mem (src h')) /\
  (lists_direct h -> DIRECT_MAP_BASE <= p -> exists Ps', heap_inv false h' os' Ps').
Proof.
  intros Hi Ho E. destruct (Z.lt_ge_cases PAGE_SIZE (effective_size l)) as [Hb|Hb].
  - destruct (dealloc_large true h os os' Ps p l w h' Hi Ho Hb E) as (-> & ? & Hd & ?). split_and!; [done|by eauto|done|]. intros Hld _.
    destruct (dealloc_large false h os os' Ps p l false h' (lists_inv _ _ _ Hi Hld) Ho Hb) as (_ & ? & _); [|by eauto].
    unfold dealloc in *. by destruct (Z.gtb_spec (effective_size l) PAGE_SIZE); [|lia].
  - destruct (dealloc_small true h os os' Ps p l Hi Ho Hb eq_refl) as (h1 & Ps' & E' & ? & _ & ?). rewrite E' in E. simplify_eq.
    split_and!; [done|by eauto|done|]. intros Hld Hp.
    destruct (dealloc_small false h os os' Ps p l (lists_inv _ _ _ Hi Hld) Ho Hb) as (h1 & Ps1 & E1 & Hi1 & _); [by apply (high_reachable true)|].
    apply dealloc_runs in E1. rewrite E1 in E'. simplify_eq. eauto.
Qed.

Lemma others_ok id h os Ps s' : heap_inv id h os Ps -> respects h os s' -> heap_inv id (mk_heap (caches h) (direct h) s') os Ps.
Proof.
  intros Hi Hr. destruct (Hr Ps) as [Hs Hm]; [destruct id; [done|by apply heap_weaken]|]. constructor; cbn [caches direct src]; try apply Hi; [done|].
  intros i c P Hc HP. destruct (hi_cache _ _ _ _ Hi i c P Hc HP) as [? [F HF]]. split; [done|]. exists F.
  eapply cache_pages_mem; [exact HF|]. intros x Hx. apply Hm, held_app. left. by eapply held_concat.
Qed.

(** The objects of a state: their placement and layouts. *)
Definition run_inv (c : heap S * objs) : Prop := (exists Ps, heap_inv true c.1 c.2 Ps) /\ Forall (fun o => supported o.2) c.2.

Lemma run_step c c' : run_inv c -> heap_step c c' -> run_inv c'.
Proof.
  unfold run_inv. intros [[Ps Hi] Hs] Hst.
  destruct Hst as [id h os l p h' _ Hl E|id h os os' p l w h' _ Ho E|h os p l x v Hin Hx Hv|h os s' Hr|id h os h' Hd E]; cbn [fst snd] in *.
  - destruct (alloc_any id h os Ps l p h' Hi Hl E) as (Hsl & E' & _).
    destruct (alloc_ok true h os Ps l Hi Hl Hsl) as (p1 & h1 & Ps1 & E1 & Hi1 & _). rewrite E1 in E'. simplify_eq. split; [eauto|].
    unfold after_alloc. case_match; [done|]. by constructor.
  - apply dealloc_runs in E. destruct (dealloc_ok h os os' Ps p l w h' Hi Ho E) as (_ & ? & _). split; [done|]. rewrite Ho in Hs. by apply Forall_cons in Hs as [_ ?].
  - split; [|done]. exists Ps. by eapply write_ok.
  - split; [|done]. exists Ps. by apply others_ok.
  - split; [|done]. destruct (convert_ok id h os Ps Hi Hd) as (h1 & E1 & Hi1 & _). rewrite E1 in E. simplify_eq. exists Ps. by apply heap_weaken.
Qed.

Lemma switch_lists id h os h' : run_inv (h, os) -> direct h = false -> convert_to_direct_map id h = Some h' -> lists_direct h'.
Proof.
  intros [[Ps Hi] _] Hd E. destruct (convert_ok id h os Ps Hi Hd) as (h1 & E1 & Hi1 & _). rewrite E1 in E. injection E as <-. by eapply inv_lists.
Qed.

(** The lists stay in the direct map until an identity address is freed. *)
Lemma lists_step h os h' os' : run_inv (h, os) -> lists_direct h -> heap_step (h, os) (h', os') ->
  (forall p l, os ≡ₚ (p, l) :: os' -> DIRECT_MAP_BASE <= p) -> lists_direct h'.
Proof.
  intros [[Ps Hi] _] Hld Hst Hp. cbn [fst snd] in Hi. pose proof (lists_inv _ _ _ Hi Hld) as Hi'.
  inversion Hst as [id h0 os0 l p h1 _ Hl E|id h0 os0 os1 p l w h1 _ Ho E|h0 os0 p l x v Hin Hx Hv|h0 os0 s' Hr|id h0 os0 h1 Hd E]; subst.
  - destruct (alloc_any id h os Ps l p h' Hi Hl E) as (_ & _ & Ha). destruct (Ha Hld) as (_ & Ps' & ?). by eapply inv_lists.
  - apply dealloc_runs in E. destruct (dealloc_ok h os os' Ps p l w h' Hi Ho E) as (_ & _ & _ & Hf). destruct (Hf Hld (Hp p l Ho)). by eapply inv_lists.
  - eapply inv_lists. by eapply write_ok.
  - eapply inv_lists. by eapply others_ok.
  - destruct Hld. congruence.
Qed.

Lemma smalls_nil i : smalls i [] = [].
Proof. done. Qed.

Lemma empty_slots_ok n : slots_ok n [].
Proof. split_and!; [constructor| |constructor]. intros t u Ht. by apply elem_of_nil in Ht. Qed.

Lemma heap_new_inv s : src_inv s [] -> heap_inv true (heap_new s) [] (replicate 5 []).
Proof.
  intros Hs. constructor; cbn [caches direct src heap_new]; [done|done|done| |by constructor|by constructor|by left].
  intros i c P Hc HP. apply lookup_replicate in HP as [-> _]. apply list_lookup_fmap_Some in Hc as (z & -> & Hz).
  split; [by rewrite Hz|]. exists []. split; [|done]. rewrite smalls_nil.
  assert (z ∈ CACHE_SIZES) as Hin by by eapply list_elem_of_lookup_2.
  unfold CACHE_SIZES in Hin. repeat (apply elem_of_cons in Hin as [->|Hin]); [constructor; try done; [by repeat constructor|apply empty_slots_ok]..|by apply elem_of_nil in Hin].
Qed.

Lemma heap_run_ok s h os : src_inv s [] -> rtc heap_step (heap_new s, []) (h, os) -> run_inv (h, os).
Proof.
  intros Hs Hr. remember (heap_new s, []) as c0 eqn:E0. remember (h, os) as c1 eqn:E1.
  assert (run_inv c0) as H0 by (subst; split; [|done]; eexists; by apply heap_new_inv). clear E0 E1 h os. induction Hr as [|c c' c'' Hst _ IH]; [done|].
  apply IH. by eapply run_step.
Qed.

(** ** What the invariant says of the objects *)

Lemma mod_weaken a n k : 0 < k -> 0 < n -> (k | n) -> a mod n = 0 -> a mod k = 0.
Proof.
  intros Hk Hn Hd Ha. apply Z.mod_divide; [lia|]. etrans; [exact Hd|]. apply Z.mod_divide; [lia|done].
Qed.

Lemma addr_mod d v n : addr_ok d v -> 0 < n -> (n | 4096) -> v mod n = pa v mod n.
Proof.
  intros Ha Hn Hd. destruct (addr_cases d v Ha) as [[-> _]|(-> & _)]; [done|]. assert ((n | DIRECT_MAP_BASE)) as [q E].
  { etrans; [exact Hd|]. by exists (DIRECT_MAP_BASE / 4096). }
  rewrite E. replace (v - q * n) with (v + (- q) * n) by lia. by rewrite Z.mod_add by lia.
Qed.

Lemma pow2_divides m n : 0 <= m -> 2 ^ m <= 2 ^ n -> (2 ^ m | 2 ^ n).
Proof.
  intros Hm Hle. destruct (Z.le_gt_cases m n) as [Hmn|Hmn]; [|pose proof (Z.pow_lt_mono_r 2 n m); lia].
  exists (2 ^ (n - m)). rewrite <-Z.pow_add_r by lia. f_equal. lia.
Qed.

Lemma align_divides l n : layout_ok l -> l_align l <= 2 ^ n -> 0 < l_align l /\ (l_align l | 2 ^ n).
Proof. intros (_ & m & Hm & ->) Hn. split; [by apply Z.pow_pos_nonneg|by apply pow2_divides]. Qed.

Lemma slot_alignment c P s : size_ok c -> Forall (fun p => p mod 4096 = 0) P -> s ∈ slots (alloc_size c) P ->
  (s + red_zone_offset c) mod 8 = 0 /\ (alloc_size c = 4096 -> (s + red_zone_offset c) mod 4096 = 0).
Proof.
  intros Hc HP (p & Hp & Hs)%in_slots. rewrite Forall_forall in HP. specialize (HP p Hp). destruct (size_facts c Hc) as (S1 & S2 & S3 & S4).
  destruct (in_page_slots (alloc_size c) p s ltac:(destruct S4 as [[_ ?]|[_ ?]]; lia) Hs) as (i & Hi & -> & _).
  assert (exists q, alloc_size c = 8 * q /\ (alloc_size c = 4096 -> red_zone_offset c = 0)) as (q & Eq & Ez).
  { unfold size_ok in Hc. repeat (rewrite elem_of_cons in Hc; destruct Hc as [Hc|Hc]; [injection Hc as Ho Hq; exists (alloc_size c / 8); unfold red_zone_offset, has_red_zones; by rewrite Ho, Hq|]). by apply elem_of_nil in Hc. }
  split.
  - rewrite Eq. apply (mod_weaken p 4096 8) in HP; [|lia|lia|by exists 512]. replace (p + i * (8 * q) + red_zone_offset c) with (p + (i * q + red_zone_offset c / 8) * 8).
    + by rewrite Z.mod_add.
    + destruct S4 as [[_ ->]|[_ ->]]; [change (8 / 8) with 1|change (0 / 8) with 0]; lia.
  - intros E. rewrite (Ez E), E, Z.add_0_r. by rewrite Z.mod_add.
Qed.

Lemma pages_aligned h os Ps i P : heap_inv true h os Ps -> Ps !! i = Some P -> Forall (fun p => p mod 4096 = 0) P.
Proof.
  intros Hi HP. rewrite Forall_forall. intros p Hp. apply (src_blocks _ _ p O (heap_focus _ _ _ _ _ _ Hi HP)). apply elem_of_app. left. by apply in_pages.
Qed.

Lemma object_aligned h os Ps p l : heap_inv true h os Ps -> (p, l) ∈ os -> layout_ok l -> supported l -> p mod Z.min (l_align l) PAGE_SIZE = 0.
Proof.
  intros Hi Hin Hl Hs. assert (0 < l_align l) as Hpos by (destruct Hl as (_ & n & ? & ->); by apply Z.pow_pos_nonneg).
  assert (forall n, 0 <= n <= 12 -> l_align l <= 2 ^ n -> addr_ok (at_maps true h) p -> pa p mod 2 ^ n = 0 -> p mod Z.min (l_align l) PAGE_SIZE = 0) as Hgo.
  { intros n Hn Ha Hp Hm. assert (2 ^ n <= 2 ^ 12) by (apply Z.pow_le_mono_r; lia). rewrite Z.min_l by (unfold PAGE_SIZE; lia). destruct (align_divides l n Hl Ha) as [_ Hd].
    destruct (align_divides l 12 Hl ltac:(lia)) as [_ Hd']. rewrite (addr_mod (at_maps true h) p) by done. apply (mod_weaken _ (2 ^ n)); [done|by apply Z.pow_pos_nonneg; lia|done|done]. }
  destruct (object_placed true h os Ps p l Hi Hin) as [i c P F Hc HP [Hsm Hix] Hsize [HF _] _ Hsl Hpa _ Ha|Hb Hlg _ Ha]; cbn [snd] in *.
  - destruct (slot_alignment c P _ (ci_size _ _ _ _ _ _ HF) (pages_aligned _ _ _ _ _ Hi HP) Hsl) as [H8 H4096]. rewrite <-Hpa in *.
    destruct Hs as [Hs|Hs]; [by apply (Hgo 3); [lia|..]|]. destruct (cache_index_spec l Hsm) as (i' & s & Ei & Es & _ & Hpg).
    apply (Hgo 12); [lia|unfold effective_size, PAGE_SIZE in *; lia|done|]. apply H4096.
    assert (object_size c = 4096) by (rewrite Hix in Ei; injection Ei as <-; rewrite Hsize in Es; injection Es as ->; by apply Hpg).
    destruct (size_facts c (ci_size _ _ _ _ _ _ HF)) as (S1 & S2 & S3 & S4). destruct S4 as [[_ ?]|[_ ?]]; lia.
  - assert (pa p mod 4096 = 0) as Hm by (apply (src_blocks _ _ (pa p) (page_order l) (hi_src _ _ _ _ Hi)); apply elem_of_app; by right).
    destruct (Z.min_spec (l_align l) PAGE_SIZE) as [[Hlt ->]|[Hge ->]].
    + rewrite <-(Z.min_l (l_align l) PAGE_SIZE) by lia. apply (Hgo 12); [lia|unfold PAGE_SIZE in *; lia|done|done].
    + rewrite (addr_mod (at_maps true h) p); [done|done|done|]. by exists 1.
Qed.

Lemma object_bounds h os Ps p l : heap_inv true h os Ps -> (p, l) ∈ os -> p <> 0 /\ 0 < pa p /\ pa p + l_size l <= PHYS_MAX.
Proof.
  intros Hi Hin. destruct (object_placed true h os Ps p l Hi Hin) as [i c P F Hc HP _ _ [HF _] _ Hsl Hpa Hend Ha|Hb Hlg Hsz Ha];
    (split; [pose proof (addr_64 _ _ Ha); lia|]; split; [by apply (pa_range _ _ Ha)|]).
  - destruct (ci_ok _ _ _ _ _ _ HF) as (_ & _ & Hall). rewrite Forall_forall in Hall. specialize (Hall _ Hsl). lia.
  - destruct (src_blocks _ _ (pa p) (page_order l) (hi_src _ _ _ _ Hi)) as (_ & _ & ?); [apply elem_of_app; by right|lia].
Qed.

(** Two objects share no byte. *)
Lemma objects_disjoint h os Ps p l q k rest x : heap_inv true h os Ps -> os ≡ₚ (p, l) :: (q, k) :: rest ->
  pa p <= x < pa p + l_size l -> ~ (pa q <= x < pa q + l_size k).
Proof.
  intros Hi0 E Hx Hy. pose proof (heap_perm _ _ _ _ _ E Hi0) as Hi. clear Hi0 E os. set (os := (p, l) :: (q, k) :: rest) in *.
  assert ((p, l) ∈ os /\ (q, k) ∈ os) as [Hp Hq] by (split; [by left|right; by left]).
  destruct (object_placed _ _ _ _ p l Hi Hp) as [i c P F Hc HP Hsm _ HF _ Hsl Hpa Hend _|Hb Hlg Hsz _];
    destruct (object_placed _ _ _ _ q k Hi Hq) as [j c' P' F' Hc' HP' Hsm' _ HF' _ Hsl' Hpa' Hend' _|Hb' Hlg' Hsz' _].
  - destruct (size_facts c (ci_size _ _ _ _ _ _ (proj1 HF))) as (_ & _ & _ & S4). destruct (size_facts c' (ci_size _ _ _ _ _ _ (proj1 HF'))) as (_ & _ & _ & S4').
    destruct (decide (i = j)) as [<-|Hne].
    + assert (c' = c) as -> by congruence. assert (P' = P) as -> by congruence. clear Hc' HP'. pose proof (ci_slots _ _ _ _ _ _ (proj1 HF)) as Hperm.
      unfold os in Hperm. rewrite !smalls_in in Hperm by done. unfold ptrs in Hperm.
      assert (slot_of c p <> slot_of c q) as Hne.
      { destruct (ci_ok _ _ _ _ _ _ (proj1 HF)) as (Hnd & _). rewrite Hperm in Hnd. apply NoDup_app in Hnd as (_ & _ & Hnd). rewrite !map_app in Hnd.
        repeat (apply NoDup_app in Hnd as (_ & _ & Hnd)). cbn [map] in Hnd. apply NoDup_cons in Hnd as [Hn _]. intros E. apply Hn. rewrite E. by left. }
      destruct (ci_ok _ _ _ _ _ _ (proj1 HF)) as (_ & Hap & _). destruct (Hap _ _ Hsl Hsl' Hne); destruct S4 as [[_ ?]|[_ ?]]; lia.
    + apply (live_disjoint_split _ _ x (src_disjoint _ _ (heap_focus _ _ _ _ _ _ Hi HP))); [by eapply slot_held|]. eapply (others_pages i j); [done|done|by eapply slot_held].
  - apply (live_disjoint_split _ _ x (src_disjoint _ _ (hi_src _ _ _ _ Hi))); [eapply held_concat; [exact HP|by eapply slot_held]|].
    exists (pa q), (page_order k). split; [done|]. unfold covers. lia.
  - apply (live_disjoint_split _ _ x (src_disjoint _ _ (hi_src _ _ _ _ Hi))); [eapply held_concat; [exact HP'|by eapply slot_held]|].
    exists (pa p), (page_order l). split; [done|]. unfold covers. lia.
  - destruct (live_disjoint_app _ _ (src_disjoint _ _ (hi_src _ _ _ _ Hi))) as [_ Hd]. unfold os in Hd. rewrite !large_in in Hd by done.
    destruct Hd as [Hd _]. apply Forall_cons in Hd as [Hd _]. unfold disj in Hd. cbn in Hd. lia.
Qed.

(** The ways a free can fail. *)
Lemma dealloc_none id h os Ps p l : heap_inv true h os Ps -> heap_inv id h os Ps -> (p, l) ∈ os -> dealloc id h p l = None ->
  id = false /\ p < DIRECT_MAP_BASE \/
  PAGE_SIZE < effective_size l /\ (direct h = true /\ p < DIRECT_MAP_BASE \/ load32 (src_mem (src h)) (pa p) = POISON_PATTERN).
Proof.
  intros Hi Hid Hin E. destruct (Z.lt_ge_cases PAGE_SIZE (effective_size l)) as [Hb|Hb].
  - right. split; [done|]. destruct (decide (load32 (src_mem (src h)) (pa p) = POISON_PATTERN)) as [|Hpo]; [by right|left].
    destruct (decide (direct h = true -> DIRECT_MAP_BASE <= p)) as [Hm|Hm].
    + destruct (dealloc_large_some id h os Ps p l Hid Hin Hb Hm Hpo) as [? ?]. congruence.
    + destruct (direct h); [split; [done|]; apply Znot_ge_lt; intros ?; apply Hm; lia|by destruct Hm].
  - left. apply elem_of_Permutation in Hin as [os' Eo]. destruct (reach id p) eqn:Er.
    + destruct (dealloc_small id h os os' Ps p l Hid Eo Hb Er) as (h' & _ & E' & _). congruence.
    + unfold reach in Er. apply orb_false_iff in Er as [-> Er]. split; [done|]. lia.
Qed.

(** The red zones of an object with an identity address cannot be read
    without the identity map. *)
Lemma dealloc_aborts h os Ps p l : heap_inv true h os Ps -> (p, l) ∈ os -> effective_size l <= 512 -> p < DIRECT_MAP_BASE -> dealloc false h p l = None.
Proof.
  intros Hi Hin Hsz Hp. destruct (object_placed true h os Ps p l Hi Hin) as [i c P F Hc HP [Hsm Hix] Hsize [HF _] _ _ _ _ Ha|Hb _ _ _]; [|unfold PAGE_SIZE in Hb; lia].
  cbn [snd] in *. pose proof (addr_64 _ _ Ha). unfold dealloc. destruct (Z.eqb_spec p 0); [lia|]. destruct (Z.gtb_spec (effective_size l) PAGE_SIZE); [lia|].
  rewrite Hix, Hc. cbn [mbind option_bind]. unfold cache_dealloc. replace (has_red_zones c) with true.
  - unfold check_red_zones, read64, reach, RED_ZONE_SIZE. destruct (Z.geb_spec (p - 8) DIRECT_MAP_BASE); [lia|]. done.
  - destruct (size_facts c (ci_size _ _ _ _ _ _ HF)) as (S1 & S2 & S3 & S4). assert (object_size c <= 512) as Ho.
    { unfold cache_index, CACHE_SIZES in *. cbn [position] in Hix.
      repeat (match type of Hix with context [?a >=? ?b] => destruct (Z.geb_spec a b) end; cbn in Hix; simplify_eq; cbn in Hsize; simplify_eq; try lia). }
    destruct S4 as [[-> _]|[Hz Hr]]; [done|]. pose proof (ci_size _ _ _ _ _ _ HF) as Hs. unfold size_ok in Hs. exfalso.
    unfold has_red_zones in Hz. repeat (rewrite elem_of_cons in Hs; destruct Hs as [Hs|Hs]; [injection Hs as E1 E2; rewrite E1, E2 in Hz; cbn in Hz; try done; lia|]). by apply elem_of_nil in Hs.
Qed.

(** C6: in every run of the kernel heap, from [heap_new] on page allocators
    that keep their promises, through allocations and frees on CPUs with or
    without the identity map, writes of clients to their own objects, steps of
    other page clients and the switch to the direct map: every live object is
    at a non-null address within physical memory, with its alignment up to
    the page size; no two objects share a byte; a live object of a cache can
    be freed, with its red zones intact, on a CPU with the identity map, and
    without it when the object's address and those in the heap's lists are of
    the direct map.  The switch, when still to come, succeeds and leaves only
    direct-map addresses in the lists, which keep none other until an
    identity address is freed. *)
Theorem heap_runs_safe s h os : src_inv s [] -> rtc heap_step (heap_new s, []) (h, os) ->
  (forall p l, (p, l) ∈ os -> p <> 0 /\ p mod Z.min (l_align l) PAGE_SIZE = 0 /\ 0 < pa p /\ pa p + l_size l <= PHYS_MAX) /\
  (forall p l q k rest x, os ≡ₚ (p, l) :: (q, k) :: rest -> pa p <= x < pa p + l_size l -> ~ (pa q <= x < pa q + l_size k)) /\
  (forall id p l, (p, l) ∈ os -> effective_size l <= PAGE_SIZE -> id = true \/ lists_direct h /\ DIRECT_MAP_BASE <= p ->
    exists h', dealloc id h p l = Some (false, h')) /\
  (direct h = false -> forall id, exists h', convert_to_direct_map id h = Some h' /\ lists_direct h') /\
  (lists_direct h -> forall h' os', heap_step (h, os) (h', os') -> (forall p l, os ≡ₚ (p, l) :: os' -> DIRECT_MAP_BASE <= p) -> lists_direct h').
Proof.
  intros Hs Hr. pose proof (heap_run_ok s h os Hs Hr) as Hrun. pose proof Hrun as [[Ps Hi] Hsup]. cbn [fst snd] in *. split_and!.
  - intros p l Hin. rewrite Forall_forall in Hsup. pose proof (hi_layout _ _ _ _ Hi) as Hl. rewrite Forall_forall in Hl.
    destruct (object_bounds _ _ _ _ _ Hi Hin) as (? & ? & ?). split; [done|]. split; [|done].
    apply (object_aligned h os Ps); [done|done|by apply (Hl (p, l))|by apply (Hsup (p, l))].
  - intros p l q k rest x. by apply (objects_disjoint h os Ps).
  - intros id p l [os' E]%elem_of_Permutation Hsz [->|[Hld Hp]].
    + destruct (dealloc_small true h os os' Ps p l Hi E Hsz eq_refl) as (h' & _ & E' & _). eauto.
    + destruct (dealloc_small false h os os' Ps p l (lists_inv _ _ _ Hi Hld) E Hsz) as (h' & _ & E' & _); [by apply (high_reachable true)|].
      exists h'. destruct id; [by apply dealloc_runs in E'|done].
  - intros Hd id. destruct (convert_ok id h os Ps Hi Hd) as (h' & E & Hi' & _). exists h'. split; [done|]. by eapply inv_lists.
  - intros Hld h' os'. by apply lists_step.
Qed.

End runs.

(** ** The bump allocator *)

Lemma align_down n x : 0 <= x < 2 ^ 64 -> 0 <= n <= 64 -> Z.land x (unot 64 (2 ^ n - 1)) = x / 2 ^ n * 2 ^ n.
Proof.
  intros Hx Hn. rewrite <-Z.shiftl_mul_pow2, <-Z.shiftr_div_pow2 by lia. apply Z.bits_inj'. intros i Hi.
  rewrite Z.land_spec, Z.shiftl_spec by done. replace (2 ^ n - 1) with (Z.ones n) by (rewrite Z.ones_equiv; lia).
  destruct (Z.lt_ge_cases i 64) as [H64|H64].
  - rewrite unot_spec by lia. destruct (Z.lt_ge_cases i n) as [Hin|Hin].
    + rewrite Z.ones_spec_low, (Z.testbit_neg_r (Z.shiftr x n)) by lia. apply andb_false_r.
    + rewrite Z.ones_spec_high, Z.shiftr_spec by lia. replace (i - n + n) with i by lia. apply andb_true_r.
  - rewrite (uint_testbit_high 64 x i) by (done || lia). rewrite andb_false_l. destruct (Z.lt_ge_cases (i - n) 0); [by rewrite Z.testbit_neg_r by lia|].
    rewrite Z.shiftr_spec by lia. replace (i - n + n) with i by lia. by rewrite (uint_testbit_high 64 x i) by (done || lia).
Qed.

(** An allocation of early boot: the first aligned address at or above the
    buffer's offset when the object fits there, and null otherwise. *)
Lemma bump_alloc_exact base current l p o : layout_ok l -> 0 < base -> 0 <= current <= BUMP_SIZE -> base + BUMP_SIZE < 2 ^ 62 ->
  l_align l <= 2 ^ 62 -> bump_alloc base current l = Some (p, o) ->
  exists a, a mod l_align l = 0 /\ base + current <= a < base + current + l_align l /\
    if a + l_size l >? base + BUMP_SIZE then p = 0 /\ o = current else p = a /\ base + o = a + l_size l /\ current <= o <= BUMP_SIZE.
Proof.
  intros (Hs & n & Hn & Ha) Hb Hc He Hal. unfold bump_alloc. rewrite Ha in *. assert (n <= 62) by (apply (Z.pow_le_mono_r_iff 2); lia).
  assert (0 < 2 ^ n) as Hpos by by apply Z.pow_pos_nonneg. unfold checked_add. intros (a0 & Ea & E)%bind_Some.
  destruct (Z.ltb_spec (base + current + 2 ^ n) (2 ^ 64)); [|done]. injection Ea as <-. rewrite align_down in E by lia.
  set (a := _ / _ * _) in E. apply bind_Some in E as (o' & Eo & E). destruct (Z.ltb_spec (a - base + l_size l) (2 ^ 64)); [|done]. injection Eo as <-.
  exists a. split; [apply Z.mod_mul; lia|]. pose proof (Z.div_mod (base + current + 2 ^ n - 1) (2 ^ n) ltac:(lia)).
  pose proof (Z.mod_pos_bound (base + current + 2 ^ n - 1) (2 ^ n) Hpos). split; [lia|].
  destruct (Z.gtb_spec (a - base + l_size l) BUMP_SIZE), (Z.gtb_spec (a + l_size l) (base + BUMP_SIZE)); simplify_eq; lia.
Qed.

(** ** Witnesses: the heap on the kernel's page allocators *)

Definition demo_kmem : kmem := mk_kmem (Some (demo_pools.1, 64)) buddy_new demo_pools.2.

Lemma demo_kmem_inv : src_inv demo_kmem [].
Proof.
  pose proof (kernel_boot demo_mem 0x40000000 0x40040000 demo_config (0x40014000, 0x40016000) (0, 0) 64 demo_mem_ok) as Hb.
  fold demo_pools in Hb. unfold demo_kmem. destruct demo_pools as [p m0]. apply Hb; [by constructor|by constructor|..]; [by split_and!..|done].
Qed.

(** The heap after an allocation. *)
Definition next_heap (h : heap kmem) (l : Layout) : heap kmem := default h (snd <$> alloc true h l).

Lemma next_alloc h l p : fst <$> alloc true h l = Some p -> alloc true h l = Some (p, next_heap h l).
Proof. unfold next_heap. destruct (alloc true h l) as [[q h']|]; [|done]. cbn. by intros [= <-]. Qed.

Lemma alloc_step h os l p : layout_ok l -> p <> 0 -> fst <$> alloc true h l = Some p -> heap_step (h, os) (next_heap h l, (p, l) :: os).
Proof.
  intros Hl Hp E. replace ((p, l) :: os) with (after_alloc p l os); [by apply (hs_alloc true); [by left| |apply next_alloc]|].
  unfold after_alloc. by destruct (Z.eqb_spec p 0).
Qed.

Definition small_layout : Layout := mk_layout 48 8.
Definition large_layout : Layout := mk_layout 5000 8.
Definition demo_h1 : heap kmem := next_heap (heap_new demo_kmem) small_layout.
Definition demo_h2 : heap kmem := next_heap demo_h1 large_layout.
Definition demo_h3 : heap kmem := default demo_h2 (convert_to_direct_map true demo_h2).
Definition demo_h4 : heap kmem := next_heap demo_h3 small_layout.
Definition demo_objects : objs :=
  [(18446462604101622120, small_layout); (1073831936, large_layout); (1073813944, small_layout)].

Lemma some_default {A} (o : option A) (d : A) : match o with Some _ => true | None => false end = true -> o = Some (default d o).
Proof. by destruct o. Qed.

Lemma demo_switch : convert_to_direct_map true demo_h2 = Some demo_h3.
Proof. apply some_default. vm_compute. reflexivity. Qed.

Lemma demo_layouts : layout_ok small_layout /\ layout_ok large_layout.
Proof. split; (split; [done|]; by exists 3). Qed.

Lemma demo_alloc1 : heap_step (heap_new demo_kmem, []) (demo_h1, [(1073813944, small_layout)]).
Proof. unfold demo_h1. apply alloc_step; [apply demo_layouts|lia|vm_compute; reflexivity]. Qed.
Lemma demo_alloc2 os : heap_step (demo_h1, os) (demo_h2, (1073831936, large_layout) :: os).
Proof. unfold demo_h2. apply alloc_step; [apply demo_layouts|lia|vm_compute; reflexivity]. Qed.
Lemma demo_alloc3 os : heap_step (demo_h3, os) (demo_h4, (18446462604101622120, small_layout) :: os).
Proof. unfold demo_h4. apply alloc_step; [apply demo_layouts|lia|vm_compute; reflexivity]. Qed.

Lemma demo_run2 : rtc heap_step (heap_new demo_kmem, []) (demo_h2, [(1073831936, large_layout); (1073813944, small_layout)]).
Proof. eapply rtc_l; [exact demo_alloc1|]. apply rtc_once, demo_alloc2. Qed.

Lemma demo_direct2 : direct demo_h2 = false.
Proof. vm_compute. reflexivity. Qed.

(** A small and a large object, the switch, and an object after it. *)
Lemma demo_heap_run : rtc heap_step (heap_new demo_kmem, []) (demo_h4, demo_objects).
Proof.
  etrans; [exact demo_run2|]. eapply rtc_l; [exact (hs_direct true demo_h2 _ demo_h3 demo_direct2 demo_switch)|]. exact (rtc_once _ _ (demo_alloc3 _)).
Qed.

(** The switch leaves direct-map addresses in the lists, and so does the
    allocation after it. *)
Lemma demo_lists : lists_direct demo_h4.
Proof.
  pose proof (heap_run_ok _ _ _ demo_kmem_inv demo_run2) as H2.
  pose proof (run_step _ _ H2 (hs_direct true demo_h2 _ demo_h3 demo_direct2 demo_switch)) as H3.
  apply (lists_step _ _ _ _ H3 (switch_lists true _ _ _ H2 demo_direct2 demo_switch) (demo_alloc3 _)).
  intros p l E. apply Permutation_length in E. discriminate E.
Qed.

Lemma heap_runs_safe_witness :
  (exists h', dealloc true demo_h4 1073813944 small_layout = Some (false, h')) /\
  (exists h', dealloc false demo_h4 18446462604101622120 small_layout = Some (false, h')) /\
  forall x, pa 18446462604101622120 <= x < pa 18446462604101622120 + 48 -> ~ (pa 1073831936 <= x < pa 1073831936 + 5000).
Proof.
  destruct (heap_runs_safe demo_kmem demo_h4 demo_objects demo_kmem_inv demo_heap_run) as (_ & H2 & H3 & _). split_and!.
  - apply H3; [do 2 right; by left|done|by left].
  - apply H3; [by left|done|right]. split; [apply demo_lists|done].
  - intros x. by apply (H2 _ small_layout _ large_layout [(1073813944, small_layout)]).
Defined.

